(* ===== verification/_CoqProject ===== *)
-Q . S2P
Prelude.v
Bytes.v
Text.v
Codec.v
ErasureCode.v
Dissolve.v
Suite2.v
Retrieval.v
Toy.v
Fragment.v
Schedule.v
FailureDomain.v
Replicas.v
Executor.v
Disk.v
SealedState.v
SealedLog.v
SealedRewrite.v
Journal.v
ChatOutbox.v
Ratchet.v
RatchetRun.v
RatchetTalk.v
PeerState.v
ChatProto.v
Anchor.v
ChatStore.v
ChatEngine.v
ChatLedger.v
DiskFrame.v
ChatRegime.v
ChatBox.v
ChatRules.v
ChatGuard.v
ChatToys.v
ChatOnce.v
ChatRollback.v
ChatPutBack.v
Custody.v
CustodyRun.v
CustodyDisk.v
MailboxWire.v
Mailbox.v
MailboxDelivery.v
Group.v
GroupState.v
GroupRecord.v
GroupStore.v
GroupEngine.v
GroupDisplay.v
GroupSafety.v
GroupDelivery.v
GroupViews.v
GroupAdmission.v
GroupRemoval.v
GroupScenarios.v
DirectedState.v
DirectedInbox.v
OfferTable.v
CallState.v
