(* ===== verification/Prelude.v ===== *)
(** * Miasma: verification development (root file)

    The repository is a peer-to-peer tool in Rust.  A content is encrypted, cut
    into erasure-coded shares with a Shamir-shared key and spread over peers; a
    retriever collects enough shares and reassembles it; a maintenance task
    keeps the pieces replicated.  On top of the network lie directed sharing (an
    envelope for one recipient, guarded by a confirmation code and a password),
    private chat over ratcheted sessions, mailboxes kept by contacts for one who
    is offline, groups, and calls; what they remember is kept in sealed files.
    This library translates the deterministic part of
    [src/crates/miasma-core/src] into executable definitions and proves what
    makes it correct.  Paths below are relative to that directory.

    ** Conventions

    A machine integer is a [Z] in the range of its type; every wrap, saturation
    and narrowing cast of the source is written out.  Counts of type [usize]
    that only measure a collection are naturals.  Bytes are [list Z], a [str]
    is the list of its scalar values.  [Result] is [result], a panic is [Panic]
    of [outcome], and [let?] and [let!] are the two sequencings.  Maps and sets
    of the standard library are [gmap] and [gset]; where the source iterates a
    hash map in an order it does not fix, that order is a parameter.  The clock
    and the randomness are arguments.  Files are either an argument that says
    whether a write, a flush or a removal succeeds (groups, directed sharing)
    or the disk of [Disk]: the files with a fate for every operation, which
    goes well, fails or dies after a given number of bytes, and a loss of power
    that takes what was not flushed; [runs] is the Hoare logic of programs on
    it.  Cryptography and other third-party code is a type class ([Crypto],
    [StateCipher], [RatchetCrypto], [KeyedHash], [Coins], [RSCodec], [Ed25519],
    [UnicodeTables]) with what it documents as named hypotheses of the theorems
    that need them (a cipher opens what it sealed, a key has its size); that no
    two session files collide under their fingerprint is assumed of the files
    of one run, not of the hash; [Toy], [ChatToys] and the demo modules give
    instances for which the hypotheses hold, and the witness of each theorem
    evaluates the model there.

    ** Files

    - [Prelude] (this file): results, panics, saturating arithmetic, transition
      systems and the generic lemmas; [Bytes]: integers as bytes, slices and
      chunks; [Text]: the [str] operations and UTF-8; [Codec]: the reader [Rd]
      of [chat/crypto.rs] and how a reader inverts a writer.
    - Contents.  [ErasureCode]: [crypto/rs.rs].  [Dissolve]: [crypto/hash.rs],
      [crypto/aead.rs], [crypto/sss.rs], [share.rs], [pipeline.rs],
      [dissolution/segment.rs], [dissolution/mod.rs].  [Suite2]: [format/] and
      the version-2 segments.  [Retrieval]: [retrieval/fetch.rs] and
      [retrieval/coordinator.rs].  [Toy]: concrete primitives.
    - Handshakes.  [Fragment]: [protocol/fragment.rs].
    - Maintenance.  [Schedule]: [repair/schedule.rs].  [FailureDomain] and
      [Replicas]: [repair/select.rs], [repair/detector.rs],
      [repair/evidence.rs], [repair/maintenance.rs] and the location records of
      [network/types.rs].  [Executor]: [repair/executor.rs].
    - Local state.  [Disk]: the file operations.  [SealedState]: keys and sealed
      documents of [state_crypto/mod.rs] and [state_crypto/doc.rs].  [SealedLog]
      and [SealedRewrite]: [state_crypto/log.rs].  [Journal]: the interface of a
      record log, with the laws a client may rely on, and the sealed log as an
      instance.
    - Private chat.  [ChatOutbox]: [chat/outbox.rs] over any [Journal].
      [Ratchet]: [chat/crypto.rs]; [RatchetRun] and [RatchetTalk]: two parties
      over a network.  [PeerState] and [ChatStore]: [chat/store.rs].
      [ChatProto]: [chat/proto.rs].  [Anchor]: [chat/anchor.rs].  [ChatEngine]:
      [chat/engine.rs], [chat/sync.rs] and the start of [chat/service.rs].
      Proofs about the engine: [ChatLedger] is the account of the keys and
      numbers that were used, [DiskFrame] says which files a program touches,
      [ChatRegime] is the interface of a store that knows the account
      ([StoreRegime]) with a rule for each of its calls, [ChatBox] and
      [ChatRules] the rules of the outbox and of the engine over any such store.
      [ChatGuard] shows that the store is one under failures, deaths and losses
      of power, [ChatRollback] that it is one when its folder is put back;
      [ChatOnce] and [ChatPutBack] draw the theorems from them.
    - Mailboxes.  [Custody], [CustodyRun] and [CustodyDisk]:
      [chat/mailbox/holder.rs].  [MailboxWire]: [chat/mailbox/ids.rs] and
      [chat/mailbox/wire.rs].  [Mailbox] and [MailboxDelivery]:
      [chat/mailbox/client.rs], [chat/mailbox/transport.rs] and the custody part
      of [chat/service.rs].
    - Groups.  [Group]: [chat/group/membership.rs].  [GroupState]:
      [chat/group/state.rs].  [GroupRecord]: [chat/group/record.rs].
      [GroupStore]: [chat/group/store.rs].  [GroupEngine], [GroupDisplay] and
      [GroupViews]: [chat/group/engine.rs].  [GroupDelivery]: the worker of
      [chat/group/service.rs].  [GroupSafety], [GroupAdmission], [GroupRemoval]
      and [GroupScenarios] hold theorems about the whole engine.
    - Directed sharing.  [DirectedState]: [directed/envelope.rs],
      [directed/challenge.rs], [directed/state.rs], [directed/state_step.rs].
      [DirectedInbox]: [directed/inbox.rs], the request handler of
      [network/node.rs] and the daemon paths of [daemon/mod.rs].  [OfferTable]:
      [directed/v2/offer_table.rs].
    - Calls.  [CallState]: [chat/call/state.rs].

    ** What the theorems show

    - A content comes back: any [k] genuine shares, mixed with detectable
      forgeries, give the plaintext; so do files and Suite2 segments, and, when
      no holder answers with an error, the collection loop under every schedule
      of the asynchronous runtime
      ([any_k_shares_retrieve], [file_roundtrip], [segment_v2_roundtrip],
      [collection_any_schedule], [network_retrieval_succeeds]).
    - Byte formats are canonical: the decoder accepts exactly what the encoder
      writes ([frame_canonical], [aad_canonical], [record_canonical],
      [saved_group_reads_back]), and [commitment_binds_share].
    - Handshake fragments reassemble in any order with duplicates, within
      bounded memory ([fragments_reassemble], [reassembly_bounded]).
    - Maintenance never does harm: the book believes what the history says, the
      plan is exact, a pass stages only legal rewrites whatever the backend
      answers, and a repair retires only lost holders
      ([evidence_matches_history], [plan_exact], [maintenance_pass_legal],
      [repair_retires_only_lost]).
    - Sealed files survive: a document is the old or the new one, a log has
      what was acknowledged as durable and is a subsequence of what was tried,
      a rewrite is atomic, with shredding as long as no operation fails
      ([document_write_atomic], [sealed_log_refines], [log_rewrite_atomic]); on
      top of any log with these laws the outbox loses no accepted message
      ([outbox_keeps_messages]).
    - Sessions deliver: every message opens to its text under loss, reordering
      and repetition, while at most 256 of its direction are missing
      ([conversation_delivers]).
    - The chat engine uses nothing twice: over any calls, failing writes,
      deaths in the middle of a call and losses of power no number is given to
      two messages, no number is acknowledged as newly received twice and no
      message key seals two messages ([chat_uses_nothing_twice]); no number and
      no key is used twice either when the data folder is put back to old
      copies, the anchor records stay and nothing fails
      ([rollback_uses_nothing_twice]).  Both follow from one set of rules over
      [StoreRegime].  Received numbers and the wire format are exact
      ([numbers_track_marks], [peer_document_roundtrip],
      [chat_wire_roundtrip]).
    - A copy left with holders that serve both sides arrives once, within the
      limits of a listing, and a holder is a list of unexpired
      items within its budgets, also across restarts ([mailbox_delivers],
      [custody_refines], [custody_survives], [custody_bounded]).
    - The group engine as one machine over user operations, hostile records,
      delivery results, failing disks and restarts: it never panics and stays
      well formed ([group_engine_safe]); only vouched invitations are taken and
      only admitted messages saved, once ([joins_are_vouched],
      [recorded_messages_admitted], and [messages_saved_once] while no flush
      fails); removal takes a member off the list and its texts are refused
      ([removal_cuts_off]); competing changes converge; a worker leaves with
      nothing owed unless it is shut down ([delivery_terminates]).
    - Directed sharing: requests touch only envelopes of the peer bound to
      them, wrong passwords are budgeted however often retrieval fails in
      between ([password_guess_budget]), a confirmation needs the code, and the
      stored records refine the state machine.
    - Two call endpoints over a hostile network agree on the call.
    - Runs in which the code does not do what it means to are theorems too
      ([rollback_interrupted_unnoticed], [fork_never_heals],
      [collect_trusts_sender_state], [caller_clock_empties],
      [failed_shredding_loses_log], [wide_params_lose_content] and the file
      [GroupScenarios]).

    ** Fuel

    Loops with no structural argument take fuel that is shown to be enough:
    [chunks] takes the length of its list ([chunks_fuel_enough]); the group
    worker of [GroupDelivery] runs on a list of rounds and is shown to leave
    after more final results than items were owed, queued meanwhile or withdrawn
    ([extra] counts the last two); reading a log takes its
    length plus one, since every record consumes bytes.

    ** Not modelled

    Input and output around third-party stacks (sockets, TLS, QUIC, the libp2p
    event loop, audio and video devices, platform key stores), the user
    interfaces, the command line and the bindings.  The mutexes: each call of a
    store or an engine runs alone.  Secrecy: the hypotheses on a cipher say
    that it opens what it sealed, not that nobody else can.  On the disk: a
    rename that was made is kept, that is, the flush of the directory, whose
    result the source ignores, takes effect; and reading a file that is there
    does not fail (the outbox sets its log aside on any error of reading).  The
    hybrid upgrade of the chat sessions ([chat/pq.rs]) and the event loop of
    the chat service: the engine is the one of a build without the feature.
    The runs of [ChatOnce] and [ChatPutBack] take the list of conversations of
    a retention sweep as given and require the setting for tests that defers
    the writes to be off.  Of the deterministic code these parts are left:
    onion packets, capability negotiation, the push outbox, transfer manifests
    and journals, self-update, the migration of plaintext files and the
    recovery code, the local share store, and the import bridge. *)

From Stdlib Require Export ZArith Lia ZifyBool.
From stdpp Require Export base tactics list gmap strings numbers sorting.

#[global] Set Default Goal Selector "!".
#[global] Open Scope Z_scope.
#[global] Open Scope list_scope.

(** ** Results, panics and machine integers *)

Declare Scope miasma_scope.
Delimit Scope miasma_scope with miasma.

(** Rust's [Result<A, E>]. *)
Inductive result (A E : Type) : Type :=
| Ok (a : A)
| Err (e : E).
Arguments Ok {A E} a.
Arguments Err {A E} e.

(** The outcome of code that can panic: a value or an unwind. *)
Inductive outcome (A : Type) : Type :=
| Ret (a : A)
| Panic.
Arguments Ret {A} a.
Arguments Panic {A}.

Definition result_bind {A B E} (r : result A E) (k : A -> result B E) : result B E :=
  match r with Ok a => k a | Err e => Err e end.

Definition outcome_bind {A B} (r : outcome A) (k : A -> outcome B) : outcome B :=
  match r with Ret a => k a | Panic => Panic end.

(** [ok_or]: an option as a result. *)
Definition ok_or {A E} (o : option A) (e : E) : result A E :=
  match o with Some a => Ok a | None => Err e end.

Definition is_ok {A E} (r : result A E) : bool :=
  match r with Ok _ => true | Err _ => false end.

(** Rust's [e?] on results, and the propagation of a panic. *)
Notation "'let?' x := e 'in' k" := (result_bind e (fun x => k))
  (at level 10, x pattern, k at level 200) : miasma_scope.
Notation "'let!' x := e 'in' k" := (outcome_bind e (fun x => k))
  (at level 10, x pattern, k at level 200) : miasma_scope.
#[global] Open Scope miasma_scope.

Definition u8_max : Z := 255.
Definition u16_max : Z := 65535.
Definition u32_max : Z := 4294967295.
Definition u64_max : Z := 18446744073709551615.

(** [z] is a value of the unsigned type with maximum [m]. *)
Definition in_uint (m z : Z) : Prop := 0 <= z <= m.
Abbreviation in_u8 := (in_uint u8_max).
Abbreviation in_u16 := (in_uint u16_max).
Abbreviation in_u32 := (in_uint u32_max).
Abbreviation in_u64 := (in_uint u64_max).

Definition sat_add (m a b : Z) : Z := Z.min m (a + b).
Definition sat_sub (a b : Z) : Z := Z.max 0 (a - b).
Definition sat_mul (m a b : Z) : Z := Z.min m (a * b).
Definition checked_add (m a b : Z) : option Z :=
  if a + b <=? m then Some (a + b) else None.
Definition checked_sub (a b : Z) : option Z :=
  if b <=? a then Some (a - b) else None.
Definition checked_mul (m a b : Z) : option Z :=
  if a * b <=? m then Some (a * b) else None.
Definition wrapping_add (m a b : Z) : Z := (a + b) mod (m + 1).
Definition wrapping_sub (m a b : Z) : Z := (a - b) mod (m + 1).

Arguments sat_add : simpl never.
Arguments sat_sub : simpl never.
Arguments sat_mul : simpl never.
Arguments checked_add : simpl never.
Arguments checked_sub : simpl never.
Arguments checked_mul : simpl never.
Arguments wrapping_add : simpl never.
Arguments wrapping_sub : simpl never.

(** The length of a vector, as the machine integer Rust returns. *)
Definition zlen {A} (l : list A) : Z := Z.of_nat (length l).

(** A byte buffer is a list of integers; [bytes_ok] says they are bytes. *)
Definition bytes_ok (l : list Z) : Prop := Forall in_u8 l.

(** ** Automation *)

Create HintDb miasma discriminated.
Create Rewrite HintDb miasma.

(** Case analysis on every [match] and [if] of the goal and hypotheses. *)
Ltac crush_match :=
  repeat (case_match; simplify_eq/=).

(** Unfold the bounded-integer vocabulary and call [lia]. *)
Ltac ulia :=
  unfold in_uint, sat_add, sat_sub, sat_mul, u8_max, u16_max, u32_max, u64_max in *;
  lia.

(** Split conjunctions of the goal and try a closer on each. *)
Tactic Notation "split_by" tactic3(tac) := repeat split; try solve [tac].

(** ** State machines *)

(** The closure of a set of initial states under a transition function or
    relation; every machine of the development states its invariants on it. *)
Section Reachability.
Context {S E : Type} (init : S -> Prop) (step : S -> E -> S -> Prop).

Inductive reachable : S -> Prop :=
| reach_init s : init s -> reachable s
| reach_step s e s' : reachable s -> step s e s' -> reachable s'.

(** Invariants by rule induction on [reachable]. *)
Lemma reachable_invariant (I : S -> Prop) :
  (forall s, init s -> I s) ->
  (forall s e s', I s -> step s e s' -> I s') ->
  forall s, reachable s -> I s.
Proof. intros Hi Hs s; induction 1; eauto. Qed.

End Reachability.

(** A deterministic machine run over a list of events. *)
Definition run_events {S E : Type} (next : S -> E -> S) (s : S) (es : list E) : S :=
  fold_left next es s.

Lemma run_events_app {S E} (next : S -> E -> S) s es fs :
  run_events next s (es ++ fs) = run_events next (run_events next s es) fs.
Proof. apply fold_left_app. Qed.

Lemma run_events_invariant {S E} (next : S -> E -> S) (I : S -> Prop) :
  (forall s e, I s -> I (next s e)) ->
  forall es s, I s -> I (run_events next s es).
Proof. intros Hs es; induction es; simpl; eauto. Qed.

(** ** Machine-integer lemmas *)

Lemma sat_add_in m a b : 0 <= a -> 0 <= b -> 0 <= m -> in_uint m (sat_add m a b).
Proof. ulia. Qed.

Lemma sat_sub_in m a b : in_uint m a -> 0 <= b -> in_uint m (sat_sub a b).
Proof. ulia. Qed.

#[export] Hint Resolve sat_add_in sat_sub_in : miasma.

Lemma zlen_nonneg {A} (l : list A) : 0 <= zlen l.
Proof. unfold zlen; lia. Qed.

Lemma zlen_app {A} (l k : list A) : zlen (l ++ k) = zlen l + zlen k.
Proof. unfold zlen; rewrite length_app; lia. Qed.

Lemma zlen_cons {A} (x : A) (l : list A) : zlen (x :: l) = zlen l + 1.
Proof. unfold zlen; simpl; lia. Qed.

Lemma zlen_nil {A} : zlen (@nil A) = 0.
Proof. reflexivity. Qed.

#[export] Hint Rewrite @zlen_app @zlen_cons @zlen_nil : miasma.

(** ** Lists *)

Lemma NoDup_map_inj {A B} (f : A -> B) (l : list A) :
  NoDup (map f l) -> forall x y, x ∈ l -> y ∈ l -> f x = f y -> x = y.
Proof.
  intros H x y [i Hi]%list_elem_of_lookup [j Hj]%list_elem_of_lookup E.
  assert (i = j) as ->; [|congruence]. eapply NoDup_lookup; [exact H| |]; rewrite list_lookup_fmap.
  - by rewrite Hi.
  - rewrite Hj. simpl. by rewrite E.
Qed.

Lemma filter_none {A} (P : A -> Prop) `{!forall x, Decision (P x)} (l : list A) :
  (forall x, x ∈ l -> ~ P x) -> filter P l = [].
Proof.
  induction l as [|x l IH]; intros HP; [done|]. rewrite filter_cons_False by (apply HP; left).
  apply IH. intros y Hy. apply HP. by right.
Qed.

Lemma filter_all {A} (P : A -> Prop) `{!forall x, Decision (P x)} (l : list A) :
  (forall x, x ∈ l -> P x) -> filter P l = l.
Proof.
  induction l as [|x l IH]; intros HP; [done|]. rewrite filter_cons_True by (apply HP; left). f_equal.
  apply IH. intros y Hy. apply HP. by right.
Qed.

(** ** Lists sorted by a key *)

Section SortedBy.
Context {A : Type} (f : A -> Z).
Implicit Types l : list A.

Definition sorted_by l : Prop := StronglySorted (fun x y => f x < f y) l.

(** Where a binary search or a partition point puts the key [c]. *)
Definition place (c : Z) l : nat := length (filter (fun x => f x < c) l).

Lemma insert_at_perm i (c : A) l : take i l ++ c :: drop i l ≡ₚ c :: l.
Proof. by rewrite <- Permutation_middle, take_drop. Qed.

Lemma insert_sorted c l :
  sorted_by l -> (forall x, x ∈ l -> f x <> f c) ->
  sorted_by (take (place (f c) l) l ++ c :: drop (place (f c) l) l).
Proof.
  unfold sorted_by, place. induction 1 as [|x l Hs IH Hx]; intros Hc; [constructor; constructor|].
  rewrite filter_cons. assert (f x <> f c) as Hne by (apply Hc; left).
  assert (forall y, y ∈ l -> f y <> f c) as Hc' by (intros y Hy; apply Hc; by right).
  destruct (decide (f x < f c)) as [Hlt|Hge].
  - cbn [length take drop app]. constructor; [by apply IH|]. rewrite insert_at_perm. by constructor.
  - rewrite filter_none by (rewrite Forall_forall in Hx; intros y Hy%Hx; lia).
    simpl. constructor; [by constructor|]. constructor; [lia|]. eapply Forall_impl; [exact Hx|]. simpl; lia.
Qed.

(** The element at the place has the key [c] if any element has. *)
Lemma place_lookup c l y :
  sorted_by l -> y ∈ l -> f y = c -> l !! place c l = Some y.
Proof.
  unfold sorted_by, place. induction 1 as [|x l Hs IH Hx]; intros Hy Hc; [by apply elem_of_nil in Hy|].
  rewrite Forall_forall in Hx. rewrite filter_cons. apply elem_of_cons in Hy as [->|Hy].
  - rewrite decide_False by lia. by rewrite filter_none by (intros z Hz%Hx; lia).
  - specialize (Hx y Hy). rewrite decide_True by lia. simpl. by apply IH.
Qed.

Lemma sorted_by_NoDup l : sorted_by l -> NoDup l.
Proof.
  induction 1 as [|x l _ IH Hx]; [constructor|]. constructor; [|done]. intros Hin.
  rewrite Forall_forall in Hx. specialize (Hx x Hin). lia.
Qed.

Lemma sorted_by_cons x l : sorted_by (x :: l) -> sorted_by l /\ forall y, y ∈ l -> f x < f y.
Proof. intros [Hs Hx]%StronglySorted_cons. rewrite Forall_forall in Hs. split; done. Qed.
End SortedBy.
