(* ===== verification/Bytes.v ===== *)
(** * Bytes: fixed-width integers as bytes, slices and chunks

    The byte-level vocabulary of the wire formats: [to_be_bytes] and
    [from_be_bytes] at a given width with their round trips, slices
    [buf[a..b]], and the standard library's [chunks]. *)

From S2P Require Import Prelude.

Abbreviation bytes := (list Z).

(** ** Integers *)

(** [v.to_be_bytes()] at a width of [n] bytes. *)
Fixpoint be_bytes (n : nat) (v : Z) : list Z :=
  match n with
  | O => []
  | S m => v / 256 ^ Z.of_nat m mod 256 :: be_bytes m v
  end.

(** [uN::from_be_bytes]. *)
Definition from_be (bs : list Z) : Z := fold_left (fun a b => 256 * a + b) bs 0.

Definition le_bytes (n : nat) (v : Z) : list Z := rev (be_bytes n v).
Definition from_le (bs : list Z) : Z := from_be (rev bs).

(** [&buf[a..b]] of a buffer that is long enough. *)
Definition slice (a b : nat) (buf : list Z) : list Z := take (b - a) (drop a buf).

Arguments be_bytes : simpl never.
Arguments from_be : simpl never.
Arguments slice : simpl never.

Lemma be_bytes_length n v : length (be_bytes n v) = n.
Proof. unfold be_bytes; induction n; simpl; auto. Qed.

Lemma le_bytes_length n v : length (le_bytes n v) = n.
Proof. unfold le_bytes. by rewrite length_rev, be_bytes_length. Qed.

Lemma be_bytes_ok n v : bytes_ok (be_bytes n v).
Proof.
  unfold bytes_ok, be_bytes. induction n as [|n IH]; constructor; auto.
  pose proof (Z.mod_pos_bound (v / 256 ^ Z.of_nat n) 256). ulia.
Qed.

Lemma from_be_snoc bs b : from_be (bs ++ [b]) = 256 * from_be bs + b.
Proof. unfold from_be. by rewrite fold_left_app. Qed.

Lemma pow256_pos n : 0 < 256 ^ Z.of_nat n.
Proof. apply Z.pow_pos_nonneg; lia. Qed.

Lemma pow256_S n : 256 ^ Z.of_nat (S n) = 256 * 256 ^ Z.of_nat n.
Proof. rewrite Nat2Z.inj_succ, Z.pow_succ_r by lia. done. Qed.

(** The accumulator form of [from_be]. *)
Lemma from_be_acc bs a :
  fold_left (fun a b => 256 * a + b) bs a = a * 256 ^ zlen bs + from_be bs.
Proof.
  unfold from_be, zlen. revert a. induction bs as [|b bs IH] using rev_ind; intros a.
  - simpl. lia.
  - rewrite !fold_left_app, length_app, IH, Nat.add_1_r, pow256_S. simpl. lia.
Qed.

Lemma from_be_cons b bs : from_be (b :: bs) = b * 256 ^ zlen bs + from_be bs.
Proof. unfold from_be at 1. simpl. rewrite from_be_acc. lia. Qed.

Lemma from_be_range bs : bytes_ok bs -> 0 <= from_be bs < 256 ^ zlen bs.
Proof.
  induction bs as [|b bs IH]; intros Hok.
  - unfold from_be, zlen; simpl; lia.
  - inversion Hok as [|? ? Hb Hbs]; subst. specialize (IH Hbs).
    rewrite from_be_cons. unfold zlen in *. simpl length. rewrite pow256_S.
    unfold in_uint, u8_max in Hb. nia.
Qed.

Lemma be_bytes_S n v : be_bytes (S n) v = v / 256 ^ Z.of_nat n mod 256 :: be_bytes n v.
Proof. reflexivity. Qed.

(** Only the low [n] bytes matter. *)
Lemma from_be_be_mod n v : from_be (be_bytes n v) = v mod 256 ^ Z.of_nat n.
Proof.
  induction n as [|n IH].
  - by rewrite Z.mod_1_r.
  - rewrite be_bytes_S, from_be_cons. unfold zlen. rewrite be_bytes_length, IH, pow256_S.
    rewrite (Z.mul_comm 256), Z.rem_mul_r by (pose proof (pow256_pos n); lia). lia.
Qed.

Lemma from_be_be n v : 0 <= v < 256 ^ Z.of_nat n -> from_be (be_bytes n v) = v.
Proof. intros H. rewrite from_be_be_mod. by apply Z.mod_small. Qed.

Lemma be_bytes_mod n v k : (n <= k)%nat -> be_bytes n (v mod 256 ^ Z.of_nat k) = be_bytes n v.
Proof.
  induction n as [|n IH]; intros Hle; [done|]. rewrite !be_bytes_S, IH by lia. f_equal.
  replace (Z.of_nat k) with (Z.of_nat n + Z.of_nat (k - n)) by lia.
  rewrite Z.pow_add_r by lia.
  pose proof (pow256_pos n). pose proof (pow256_pos (k - n)).
  rewrite Z.rem_mul_r by lia. rewrite Z.add_comm, Z.mul_comm, Z.div_add_l by lia.
  rewrite (Z.div_small (v mod _)) by (apply Z.mod_pos_bound; lia). rewrite Z.add_0_r.
  replace (k - n)%nat with (S (k - n - 1)) by lia. rewrite pow256_S.
  rewrite Z.rem_mul_r by (pose proof (pow256_pos (k - n - 1)); lia).
  rewrite (Z.mul_comm 256 (_ mod _)), Z.mod_add, Z.mod_mod by lia. done.
Qed.

Lemma be_from_be bs : bytes_ok bs -> be_bytes (length bs) (from_be bs) = bs.
Proof.
  induction bs as [|b bs IH]; intros Hok; [done|].
  inversion Hok as [|? ? Hb Hbs]; subst. simpl length.
  rewrite be_bytes_S, from_be_cons. unfold zlen.
  pose proof (from_be_range bs Hbs) as Hr. unfold zlen in Hr.
  pose proof (pow256_pos (length bs)). f_equal.
  - rewrite Z.div_add_l, (Z.div_small (from_be bs)) by lia.
    rewrite Z.add_0_r. apply Z.mod_small. unfold in_uint, u8_max in Hb. lia.
  - rewrite <- (be_bytes_mod _ _ (length bs)) by lia.
    rewrite Z.add_comm, Z.mod_add, Z.mod_small by lia. auto.
Qed.

(** Equal encodings at one width come from equal values. *)
Lemma be_bytes_inj n v w :
  0 <= v < 256 ^ Z.of_nat n -> 0 <= w < 256 ^ Z.of_nat n -> be_bytes n v = be_bytes n w -> v = w.
Proof. intros Hv Hw He. by rewrite <- (from_be_be n v), He, from_be_be. Qed.

Lemma from_le_le n v : 0 <= v < 256 ^ Z.of_nat n -> from_le (le_bytes n v) = v.
Proof. intros Hv. unfold from_le, le_bytes. rewrite rev_involutive. by apply from_be_be. Qed.

Lemma le_bytes_inj n v w :
  0 <= v < 256 ^ Z.of_nat n -> 0 <= w < 256 ^ Z.of_nat n -> le_bytes n v = le_bytes n w -> v = w.
Proof.
  intros Hv Hw He. apply (be_bytes_inj n); auto. unfold le_bytes in He.
  by rewrite <- (rev_involutive (be_bytes n v)), He, rev_involutive.
Qed.

(** ** Slices *)

Lemma slice_here n (a b : list Z) : length a = n -> slice 0 n (a ++ b) = a.
Proof. intros <-. unfold slice. by rewrite drop_0, Nat.sub_0_r, take_app_length. Qed.

Lemma slice_skip i j (a b : list Z) :
  (length a <= i)%nat -> slice i j (a ++ b) = slice (i - length a) (j - length a) b.
Proof.
  intros Hi. unfold slice. rewrite drop_app_ge by done. f_equal. lia.
Qed.

Lemma slice_length i j (l : list Z) :
  (i <= j)%nat -> (j <= length l)%nat -> length (slice i j l) = (j - i)%nat.
Proof. intros. unfold slice. rewrite length_take, length_drop. lia. Qed.

Lemma slice_ok i j (l : list Z) : bytes_ok l -> bytes_ok (slice i j l).
Proof. intros. unfold slice, bytes_ok. by apply Forall_take, Forall_drop. Qed.

(** A slice and the rest after it. *)
Lemma slice_drop i j (l : list Z) : (i <= j)%nat -> slice i j l ++ drop j l = drop i l.
Proof.
  intros H. unfold slice. replace j with (i + (j - i))%nat at 2 by lia.
  by rewrite <- drop_drop, take_drop.
Qed.

(** Re-encoding a slice that was read as an integer. *)
Lemma be_bytes_slice i j n (l : list Z) :
  bytes_ok l -> (i <= j)%nat -> (j <= length l)%nat -> n = (j - i)%nat ->
  be_bytes n (from_be (slice i j l)) = slice i j l.
Proof.
  intros Hok Hij Hj ->. rewrite <- (slice_length i j l Hij Hj).
  by apply be_from_be, slice_ok.
Qed.

Lemma from_be_slice_range i j (l : list Z) :
  bytes_ok l -> (i <= j)%nat -> (j <= length l)%nat ->
  0 <= from_be (slice i j l) < 256 ^ Z.of_nat (j - i).
Proof.
  intros Hok Hij Hj. rewrite <- (slice_length i j l Hij Hj).
  by apply from_be_range, slice_ok.
Qed.

(** ** Chunks *)

Section Chunks.
Context {A : Type}.
Implicit Types l : list A.

(** [l.chunks(n)]; each piece but the last has [n] elements. *)
Fixpoint chunks_fuel (fuel n : nat) (l : list A) : list (list A) :=
  match fuel, l with
  | O, _ | _, [] => []
  | S f, _ => take n l :: chunks_fuel f n (drop n l)
  end.

(** Every step consumes an element, so the length is enough fuel. *)
Definition chunks (n : nat) (l : list A) : list (list A) := chunks_fuel (length l) n l.

(** More fuel than elements changes nothing. *)
Lemma chunks_fuel_enough n f g l :
  (0 < n)%nat -> (length l <= f)%nat -> (length l <= g)%nat -> chunks_fuel f n l = chunks_fuel g n l.
Proof.
  intros Hn. revert g l. induction f as [|f IH]; intros g l Hf Hg.
  - destruct l; [|simpl in *; lia]. by destruct g.
  - destruct l as [|x l]; [by destruct g|]. destruct g as [|g]; [simpl in *; lia|].
    simpl. f_equal. apply IH; rewrite length_drop; simpl in *; lia.
Qed.

Lemma chunks_cons n l :
  (0 < n)%nat -> l <> [] -> chunks n l = take n l :: chunks n (drop n l).
Proof.
  intros Hn Hl. unfold chunks. destruct l as [|x l]; [done|]. cbn [length chunks_fuel]. f_equal.
  apply chunks_fuel_enough; [done| |lia]. rewrite length_drop. simpl. lia.
Qed.

Lemma chunks_nil n : chunks n [] = [].
Proof. done. Qed.

(** Induction along the pieces. *)
Lemma chunks_ind n (P : list A -> list (list A) -> Prop) :
  (0 < n)%nat -> P [] [] ->
  (forall l, l <> [] -> P (drop n l) (chunks n (drop n l)) ->
     P l (take n l :: chunks n (drop n l))) ->
  forall l, P l (chunks n l).
Proof.
  intros Hn H0 HS. refine (well_founded_induction (Wf_nat.well_founded_ltof _ length) _ _).
  intros l IH. destruct l as [|x l]; [done|]. rewrite chunks_cons by done. apply HS; [done|].
  apply IH. unfold Wf_nat.ltof. rewrite length_drop. simpl. lia.
Qed.

Lemma chunks_concat n l : (0 < n)%nat -> concat (chunks n l) = l.
Proof.
  intros Hn. apply (chunks_ind n (fun l cs => concat cs = l)); [done..|].
  intros l' _ IH. simpl. by rewrite IH, take_drop.
Qed.

Lemma chunks_length n l :
  (0 < n)%nat -> Z.of_nat (length (chunks n l)) = (zlen l + Z.of_nat n - 1) / Z.of_nat n.
Proof.
  intros Hn. apply (chunks_ind n (fun l cs => Z.of_nat (length cs) = (zlen l + Z.of_nat n - 1) / Z.of_nat n)).
  - done.
  - unfold zlen; simpl. symmetry. apply Z.div_small. lia.
  - intros l' Hl IH. simpl length. rewrite Nat2Z.inj_succ, IH. unfold zlen. rewrite length_drop.
    assert (0 < length l')%nat by (destruct l'; [done|simpl; lia]).
    destruct (decide (n <= length l')%nat).
    + replace (Z.of_nat (length l') + Z.of_nat n - 1)
        with (1 * Z.of_nat n + (Z.of_nat (length l' - n) + Z.of_nat n - 1)) by lia.
      rewrite Z.div_add_l by lia. lia.
    + replace (length l' - n)%nat with O by lia.
      rewrite (Z.div_small (Z.of_nat 0 + _ - 1)) by lia.
      apply Z.div_unique with (r := Z.of_nat (length l') - 1); lia.
Qed.

Lemma chunks_sizes n l :
  (0 < n)%nat -> Forall (fun c => c <> [] /\ (length c <= n)%nat) (chunks n l).
Proof.
  intros Hn. apply (chunks_ind n (fun _ cs => Forall (fun c => c <> [] /\ (length c <= n)%nat) cs));
    [done..|].
  intros l' Hl IH. constructor; [|done]. rewrite length_take. split; [|lia].
  destruct l', n; try done; lia.
Qed.

(** Cutting an exact multiple gives pieces of exactly [n]. *)
Lemma chunks_exact n l :
  (0 < n)%nat -> (exists k, length l = (k * n)%nat) -> Forall (fun c => length c = n) (chunks n l).
Proof.
  intros Hn.
  apply (chunks_ind n (fun l cs => (exists k, length l = (k * n)%nat) ->
    Forall (fun c => length c = n) cs)); [done..|].
  intros l' Hl IH [k Hk]. destruct k as [|k]; [by destruct l'|]. constructor.
  - rewrite length_take. lia.
  - apply IH. exists k. rewrite length_drop. lia.
Qed.

End Chunks.
