(* ===== verification/Text.v ===== *)
(** * Text: the Rust [str] operations the sources use

    A Rust [String] is a sequence of Unicode scalar values stored as UTF-8.  It
    is modelled by the list of its scalar values; byte lengths and byte
    slices are computed from the UTF-8 widths, and a slice that does not fall
    on a character boundary is the panic Rust raises.  The Unicode tables
    behind [to_uppercase] and [is_alphanumeric] are exact on ASCII and a
    parameter ([UnicodeTables]) outside it. *)

From S2P Require Import Prelude.

Abbreviation str := (list Z).

(** ** UTF-8 *)

(** [char::len_utf8]. *)
Definition len_utf8 (c : Z) : Z :=
  if c <? 128 then 1 else if c <? 2048 then 2 else if c <? 65536 then 3 else 4.

(** [str::len]: bytes, not characters. *)
Fixpoint str_len (s : str) : Z :=
  match s with
  | [] => 0
  | c :: r => len_utf8 c + str_len r
  end.

(** The bytes of one scalar value. *)
Definition char_bytes (c : Z) : list Z :=
  if c <? 128 then [c]
  else if c <? 2048 then [192 + c / 64; 128 + c mod 64]
  else if c <? 65536 then [224 + c / 4096; 128 + (c / 64) mod 64; 128 + c mod 64]
  else [240 + c / 262144; 128 + (c / 4096) mod 64; 128 + (c / 64) mod 64; 128 + c mod 64].

(** [str::as_bytes]. *)
Definition as_bytes (s : str) : list Z := flat_map char_bytes s.

(** Splitting at a byte index; [None] when it is past the end or inside a
    character. *)
Fixpoint split_at_byte (n : Z) (s : str) : option (str * str) :=
  if n =? 0 then Some ([], s) else
  match s with
  | [] => None
  | c :: r =>
      if len_utf8 c <=? n then
        match split_at_byte (n - len_utf8 c) r with
        | Some (a, b) => Some (c :: a, b)
        | None => None
        end
      else None
  end.

(** [&s[..n]] and [&s[n..]], which panic off a boundary. *)
Definition slice_to (n : Z) (s : str) : outcome str :=
  match split_at_byte n s with Some (a, _) => Ret a | None => Panic end.
Definition slice_from (n : Z) (s : str) : outcome str :=
  match split_at_byte n s with Some (_, b) => Ret b | None => Panic end.

(** ** Character classes *)

Definition is_ascii_digit (c : Z) : bool := (48 <=? c) && (c <=? 57).
Definition is_ascii_upper (c : Z) : bool := (65 <=? c) && (c <=? 90).
Definition is_ascii_lower (c : Z) : bool := (97 <=? c) && (c <=? 122).
Definition is_ascii_alphanumeric (c : Z) : bool :=
  is_ascii_digit c || is_ascii_upper c || is_ascii_lower c.
Definition ascii_upper (c : Z) : Z := if is_ascii_lower c then c - 32 else c.

(** [char::is_whitespace]: the Unicode White_Space property. *)
Definition is_whitespace (c : Z) : bool :=
  ((9 <=? c) && (c <=? 13)) || (c =? 32) || (c =? 133) || (c =? 160) || (c =? 5760)
  || ((8192 <=? c) && (c <=? 8202)) || (c =? 8232) || (c =? 8233) || (c =? 8239)
  || (c =? 8287) || (c =? 12288).

(** The Unicode data outside ASCII. *)
Class UnicodeTables := {
  upper_ext : Z -> list Z;
  alnum_ext : Z -> bool;
}.

(** [char::to_uppercase] and [char::is_alphanumeric]. *)
Definition char_to_uppercase `{UnicodeTables} (c : Z) : str :=
  if c <? 128 then [ascii_upper c] else upper_ext c.
Definition is_alphanumeric `{UnicodeTables} (c : Z) : bool :=
  if c <? 128 then is_ascii_alphanumeric c else alnum_ext c.

(** [str::to_uppercase], which maps every character on its own. *)
Definition to_uppercase `{UnicodeTables} (s : str) : str := flat_map char_to_uppercase s.

Fixpoint trim_start (s : str) : str :=
  match s with
  | [] => []
  | c :: r => if is_whitespace c then trim_start r else s
  end.

(** [str::trim]. *)
Definition trim (s : str) : str := rev (trim_start (rev (trim_start s))).

(** An ASCII literal. *)
Definition lit (s : string) : str := map (fun a => Z.of_nat (Ascii.nat_of_ascii a)) (String.list_ascii_of_string s).

(** [hex::encode], lower case. *)
Definition hex_digit (n : Z) : Z := if n <? 10 then 48 + n else 87 + n.
Definition hex_encode (bs : list Z) : str :=
  flat_map (fun b => [hex_digit (b / 16); hex_digit (b mod 16)]) bs.

(** The order of [String]: lexicographic on scalar values, which is the order
    of the UTF-8 bytes. *)
Fixpoint str_leb (s t : str) : bool :=
  match s, t with
  | [], _ => true
  | _ :: _, [] => false
  | a :: s', b :: t' => (a <? b) || ((a =? b) && str_leb s' t')
  end.

Definition str_le (s t : str) : Prop := str_leb s t = true.
#[export] Instance str_le_dec : RelDecision str_le.
Proof. intros s t. unfold str_le. apply _. Defined.

(** ** Decoding UTF-8 *)

(** A Unicode scalar value. *)
Definition scalar_ok (c : Z) : bool := (0 <=? c) && (c <? 1114112) && negb ((55296 <=? c) && (c <? 57344)).

Definition is_cont (b : Z) : bool := (128 <=? b) && (b <? 192).

(** [str::from_utf8]: the shortest encodings of scalar values only. *)
Fixpoint from_utf8 (bs : list Z) : option str :=
  match bs with
  | [] => Some []
  | b0 :: r0 =>
      if (0 <=? b0) && (b0 <? 128) then cons b0 <$> from_utf8 r0 else
      match r0 with
      | [] => None
      | b1 :: r1 =>
          if negb (is_cont b1) then None
          else if (192 <=? b0) && (b0 <? 224) then
            let c := (b0 - 192) * 64 + (b1 - 128) in
            if 128 <=? c then cons c <$> from_utf8 r1 else None
          else match r1 with
          | [] => None
          | b2 :: r2 =>
              if negb (is_cont b2) then None
              else if (224 <=? b0) && (b0 <? 240) then
                let c := (b0 - 224) * 4096 + (b1 - 128) * 64 + (b2 - 128) in
                if (2048 <=? c) && scalar_ok c then cons c <$> from_utf8 r2 else None
              else match r2 with
              | [] => None
              | b3 :: r3 =>
                  let c := (b0 - 240) * 262144 + (b1 - 128) * 4096 + (b2 - 128) * 64 + (b3 - 128) in
                  if is_cont b3 && (240 <=? b0) && (b0 <? 248) && (65536 <=? c) && scalar_ok c
                  then cons c <$> from_utf8 r3 else None
              end
          end
      end
  end.

(** ** Lemmas *)

Lemma len_utf8_pos c : 1 <= len_utf8 c <= 4.
Proof. unfold len_utf8; repeat case_match; lia. Qed.

Lemma str_len_nonneg s : 0 <= str_len s.
Proof. induction s as [|c s IH]; simpl; [|pose proof (len_utf8_pos c)]; lia. Qed.

Lemma str_len_app s t : str_len (s ++ t) = str_len s + str_len t.
Proof. induction s; simpl; lia. Qed.

Lemma char_bytes_length c : zlen (char_bytes c) = len_utf8 c.
Proof. unfold char_bytes, len_utf8; repeat case_match; reflexivity. Qed.

(** [str::len] is the number of bytes. *)
Lemma as_bytes_length s : zlen (as_bytes s) = str_len s.
Proof.
  induction s as [|c s IH]; [reflexivity|].
  change (as_bytes (c :: s)) with (char_bytes c ++ as_bytes s).
  rewrite zlen_app, char_bytes_length, IH; reflexivity.
Qed.

Lemma str_len_ascii s : Forall (fun c => c < 128) s -> str_len s = zlen s.
Proof.
  induction 1 as [|c s Hc _ IH]; [reflexivity|]; simpl; rewrite IH, zlen_cons.
  unfold len_utf8; case_match; lia.
Qed.

(** On ASCII text every byte index is a boundary. *)
Lemma split_at_byte_ascii s n :
  Forall (fun c => c < 128) s -> (n <= length s)%nat ->
  split_at_byte (Z.of_nat n) s = Some (take n s, drop n s).
Proof.
  intros Hs; revert n; induction Hs as [|c s Hc Hs IH]; intros [|n] Hn.
  - reflexivity.
  - simpl in Hn; lia.
  - reflexivity.
  - assert (len_utf8 c = 1) as Hl by (unfold len_utf8; case_match; lia).
    rewrite Nat2Z.inj_succ; cbn [split_at_byte]; rewrite Hl.
    destruct (Z.eqb_spec (Z.succ (Z.of_nat n)) 0); [lia|].
    destruct (Z.leb_spec 1 (Z.succ (Z.of_nat n))); [|lia].
    replace (Z.succ (Z.of_nat n) - 1) with (Z.of_nat n) by lia.
    rewrite IH by (simpl in Hn; lia); reflexivity.
Qed.

Lemma trim_start_incl s c : c ∈ trim_start s -> c ∈ s.
Proof.
  induction s as [|d s IH]; simpl; [done|].
  case_match; rewrite ?elem_of_cons; auto.
Qed.

(** Whitespace is never alphanumeric in ASCII, so trimming loses no ASCII
    letter or digit. *)
Lemma ascii_alnum_not_ws c : is_ascii_alphanumeric c = true -> is_whitespace c = false.
Proof.
  unfold is_ascii_alphanumeric, is_ascii_digit, is_ascii_upper, is_ascii_lower, is_whitespace.
  lia.
Qed.

Lemma trim_start_id s : Forall (fun c => is_whitespace c = false) s -> trim_start s = s.
Proof. destruct 1 as [|c s Hc]; [done|]. simpl; by rewrite Hc. Qed.

Lemma trim_id s : Forall (fun c => is_whitespace c = false) s -> trim s = s.
Proof.
  intros H; unfold trim. rewrite (trim_start_id s) by done.
  rewrite trim_start_id by (by apply Forall_rev). apply rev_involutive.
Qed.

(** ** Decimal numbers *)

(** The digits of [n], least significant first. *)
Fixpoint digits_rev (fuel : nat) (n : Z) : str :=
  match fuel with
  | O => []
  | S f => (48 + n mod 10) :: (if n <? 10 then [] else digits_rev f (n / 10))
  end.

(** [format!("{}", n)] of an unsigned integer; dividing by ten removes at least
    one binary digit, so the binary length is enough fuel. *)
Definition show_dec (n : Z) : str := rev (digits_rev (S (Z.to_nat (Z.log2 n))) n).

(** The number a list of digits stands for, least significant first. *)
Fixpoint undigits (s : str) : Z :=
  match s with [] => 0 | c :: s' => (c - 48) + 10 * undigits s' end.

Lemma undigits_digits fuel n :
  0 <= n < 2 ^ Z.of_nat fuel -> undigits (digits_rev fuel n) = n.
Proof.
  revert n. induction fuel as [|f IH]; intros n Hn; [simpl in *; lia|].
  cbn [digits_rev undigits]. pose proof (Z.div_mod n 10). case_match eqn:Hlt.
  - simpl. rewrite Z.mod_small by lia. lia.
  - rewrite IH; [lia|]. split; [apply Z.div_pos; lia|].
    rewrite Nat2Z.inj_succ, Z.pow_succ_r in Hn by lia. apply Z.div_lt_upper_bound; lia.
Qed.

Lemma show_dec_inj m n : 0 <= m -> 0 <= n -> show_dec m = show_dec n -> m = n.
Proof.
  intros Hm Hn He. apply (f_equal (@rev Z)) in He. unfold show_dec in He.
  rewrite !rev_involutive in He. apply (f_equal undigits) in He.
  assert (forall k, 0 <= k -> 0 <= k < 2 ^ Z.of_nat (S (Z.to_nat (Z.log2 k)))) as Hb.
  { intros k Hk. pose proof (Z.log2_nonneg k). rewrite Nat2Z.inj_succ, Z2Nat.id by done.
    destruct (decide (k = 0)) as [->|]; [simpl; lia|].
    pose proof (Z.log2_spec k ltac:(lia)). lia. }
  rewrite !undigits_digits in He by (apply Hb; lia). done.
Qed.

Lemma digits_rev_ascii fuel n : 0 <= n -> Forall (fun c => 48 <= c <= 57) (digits_rev fuel n).
Proof.
  revert n. induction fuel as [|f IH]; intros n Hn; simpl; constructor.
  - pose proof (Z.mod_pos_bound n 10). lia.
  - case_match; [constructor|]. apply IH, Z.div_pos; lia.
Qed.

(** A number prints as decimal digits only. *)
Lemma show_dec_ascii n : 0 <= n -> Forall (fun c => 48 <= c <= 57) (show_dec n).
Proof. intros. unfold show_dec. by apply Forall_rev, digits_rev_ascii. Qed.

(** ** Separators *)

(** A separator that occurs in neither left part splits both sides alike. *)
Lemma split_first_inj (x : Z) (a a' b b' : str) :
  x ∉ a -> x ∉ a' -> a ++ x :: b = a' ++ x :: b' -> a = a' /\ b = b'.
Proof.
  revert a'. induction a as [|y a IH]; intros [|y' a'] Ha Ha' He; simplify_eq/=.
  - done.
  - set_solver.
  - set_solver.
  - destruct (IH a') as [-> ->]; [set_solver..|done|done].
Qed.

Lemma split_last_inj (x : Z) (a a' b b' : str) :
  x ∉ b -> x ∉ b' -> a ++ x :: b = a' ++ x :: b' -> a = a' /\ b = b'.
Proof.
  intros Hb Hb' He. apply (f_equal reverse) in He.
  rewrite !reverse_app, !reverse_cons, <- !app_assoc in He. simpl in He.
  apply split_first_inj in He as [H1 H2]; [|by rewrite elem_of_reverse..].
  split; by apply (inj reverse).
Qed.

(** ** UTF-8 round trips *)

Lemma div64_split c : 0 <= c ->
  let d0 := c mod 64 in let d1 := (c / 64) mod 64 in let d2 := (c / 4096) mod 64 in
  0 <= d0 < 64 /\ 0 <= d1 < 64 /\ 0 <= d2 < 64 /\ c = 64 * (c / 64) + d0 /\
  c = 4096 * (c / 4096) + 64 * d1 + d0 /\ c = 262144 * (c / 262144) + 4096 * d2 + 64 * d1 + d0.
Proof. intros Hc. cbv zeta. Z.to_euclidean_division_equations. lia. Qed.

(** Settle the outermost conditional of the goal. *)
Ltac settle_if :=
  match goal with
  | |- context [if ?b then _ else _] =>
      first [assert (b = true) as -> by (unfold is_cont, scalar_ok in *; lia)
            |assert (b = false) as -> by (unfold is_cont, scalar_ok in *; lia)]
  end.

Lemma from_utf8_char c s : scalar_ok c = true -> from_utf8 (char_bytes c ++ s) = cons c <$> from_utf8 s.
Proof.
  intros Hc. assert (0 <= c < 1114112) as Hb by (unfold scalar_ok in Hc; lia).
  destruct (div64_split c ltac:(lia)) as (B0 & B1 & B2 & E1 & E2 & E3). unfold char_bytes.
  destruct (Z.ltb_spec c 128); [|destruct (Z.ltb_spec c 2048); [|destruct (Z.ltb_spec c 65536)]];
    cbn [app from_utf8]; cbv zeta.
  - by settle_if.
  - replace ((192 + c / 64 - 192) * 64 + (128 + c mod 64 - 128)) with c by lia. by repeat settle_if.
  - replace ((224 + c / 4096 - 224) * 4096 + (128 + (c / 64) mod 64 - 128) * 64 + (128 + c mod 64 - 128)) with c by lia.
    by repeat settle_if.
  - replace ((240 + c / 262144 - 240) * 262144 + (128 + (c / 4096) mod 64 - 128) * 4096
             + (128 + (c / 64) mod 64 - 128) * 64 + (128 + c mod 64 - 128)) with c by lia.
    by repeat settle_if.
Qed.

Lemma from_utf8_as_bytes s : Forall (fun c => scalar_ok c = true) s -> from_utf8 (as_bytes s) = Some s.
Proof.
  induction 1 as [|c s Hc _ IH]; [done|]. unfold as_bytes; cbn [flat_map]. fold (as_bytes s).
  by rewrite from_utf8_char, IH.
Qed.

(** The digits of a number below 64 at each place. *)
Lemma join64 a b d e : 0 <= b < 64 -> 0 <= d < 64 -> 0 <= e < 64 ->
  (a * 64 + b) / 64 = a /\ (a * 64 + b) mod 64 = b /\
  (a * 4096 + b * 64 + d) / 4096 = a /\ (a * 4096 + b * 64 + d) / 64 mod 64 = b /\
  (a * 4096 + b * 64 + d) mod 64 = d /\
  (a * 262144 + b * 4096 + d * 64 + e) / 262144 = a /\ (a * 262144 + b * 4096 + d * 64 + e) / 4096 mod 64 = b /\
  (a * 262144 + b * 4096 + d * 64 + e) / 64 mod 64 = d /\ (a * 262144 + b * 4096 + d * 64 + e) mod 64 = e.
Proof. intros. Z.to_euclidean_division_equations. lia. Qed.

Lemma from_utf8_sound bs s :
  from_utf8 bs = Some s -> as_bytes s = bs /\ Forall (fun c => scalar_ok c = true) s.
Proof.
  revert s. induction bs as [bs IH] using (induction_ltof1 _ (@length Z)); unfold ltof in IH.
  intros s Hs. destruct bs as [|b0 r0]; [injection Hs as <-; by split|]. cbn [from_utf8] in Hs. cbv zeta in Hs.
  assert (forall c pre r, b0 :: r0 = pre ++ r -> pre <> [] -> char_bytes c = pre -> scalar_ok c = true ->
    cons c <$> from_utf8 r = Some s -> as_bytes s = b0 :: r0 /\ Forall (fun c => scalar_ok c = true) s) as Hstep.
  { intros c pre r He Hne Hc Hok Hr. destruct (from_utf8 r) as [t|] eqn:Ht; [|done]. injection Hr as <-.
    destruct (IH r) with (s := t) as [<- Hf]; [|done|split; [|by constructor]].
    - rewrite He, length_app. destruct pre; [done|simpl; lia].
    - rewrite He. unfold as_bytes; simpl. by rewrite Hc. }
  destruct ((0 <=? b0) && (b0 <? 128)) eqn:H0.
  { apply (Hstep b0 [b0] r0); try done; [|unfold scalar_ok; lia]. unfold char_bytes. by settle_if. }
  destruct r0 as [|b1 r1]; [done|]. destruct (is_cont b1) eqn:C1; [|done]. cbn [negb] in Hs.
  unfold is_cont in C1. destruct ((192 <=? b0) && (b0 <? 224)) eqn:H1.
  { destruct (128 <=? (b0 - 192) * 64 + (b1 - 128)) eqn:Hc; [|done].
    destruct (join64 (b0 - 192) (b1 - 128) 0 0) as (J1 & J2 & _); [lia..|].
    eapply (Hstep _ [b0; b1] r1); [done|done| | |exact Hs]; [|unfold scalar_ok; lia].
    unfold char_bytes. rewrite J1, J2. repeat settle_if. f_equal; [lia|f_equal; lia]. }
  destruct r1 as [|b2 r2]; [done|]. destruct (is_cont b2) eqn:C2; [|done]. cbn [negb] in Hs.
  unfold is_cont in C2. destruct ((224 <=? b0) && (b0 <? 240)) eqn:H2.
  { destruct ((2048 <=? _) && scalar_ok _) eqn:Hc; [|done]. apply andb_true_iff in Hc as [Hc Hok].
    destruct (join64 (b0 - 224) (b1 - 128) (b2 - 128) 0) as (_ & _ & J1 & J2 & J3 & _); [lia..|].
    eapply (Hstep _ [b0; b1; b2] r2); [done|done| |exact Hok|exact Hs].
    unfold char_bytes. rewrite J1, J2, J3. repeat settle_if. repeat (f_equal; [lia|]). f_equal; lia. }
  destruct r2 as [|b3 r3]; [done|].
  destruct (is_cont b3 && (240 <=? b0) && (b0 <? 248) && (65536 <=? _) && scalar_ok _) eqn:Hc; [|done].
  apply andb_true_iff in Hc as [Hc Hok]. unfold is_cont in Hc.
  destruct (join64 (b0 - 240) (b1 - 128) (b2 - 128) (b3 - 128)) as (_ & _ & _ & _ & _ & J1 & J2 & J3 & J4); [lia..|].
  eapply (Hstep _ [b0; b1; b2; b3] r3); [done|done| |exact Hok|exact Hs].
  unfold char_bytes. rewrite J1, J2, J3, J4. repeat settle_if. repeat (f_equal; [lia|]). f_equal; lia.
Qed.

(** ** The order of strings is total *)

Lemma str_leb_refl s : str_leb s s = true.
Proof. induction s as [|c s IH]; simpl; [done|]. rewrite Z.ltb_irrefl, Z.eqb_refl. done. Qed.

Lemma str_leb_total s t : str_leb s t = false -> str_leb t s = true.
Proof.
  revert t. induction s as [|a s IH]; intros [|b t]; simpl; try done.
  destruct (Z.ltb_spec a b), (Z.ltb_spec b a), (Z.eqb_spec a b), (Z.eqb_spec b a); simpl; auto; lia.
Qed.

Lemma str_leb_antisym s t : str_leb s t = true -> str_leb t s = true -> s = t.
Proof.
  revert t. induction s as [|a s IH]; intros [|b t]; simpl; try done.
  destruct (Z.ltb_spec a b), (Z.ltb_spec b a), (Z.eqb_spec a b), (Z.eqb_spec b a); simpl; try done; try lia.
  intros H1 H2. subst. f_equal. by apply IH.
Qed.

Lemma str_leb_trans s t u : str_leb s t = true -> str_leb t u = true -> str_leb s u = true.
Proof.
  revert t u. induction s as [|a s IH]; intros [|b t] [|c u]; simpl; try done.
  destruct (Z.ltb_spec a b), (Z.ltb_spec b c), (Z.ltb_spec a c), (Z.eqb_spec a b), (Z.eqb_spec b c), (Z.eqb_spec a c);
    simpl; try done; try lia. apply IH.
Qed.
