(* ===== verification/Codec.v ===== *)
(** * Codec: bounds-checked readers of byte formats

    Models the cursor [Rd] of [chat/crypto.rs], which every chat codec uses: a
    reader takes the remaining bytes and returns a value and what is left, or
    fails when they are too short.  [reads] relates a reader to the writer of
    the same field; readers compose field by field and in counted loops. *)

From S2P Require Import Prelude Bytes Text.

(** A string whose characters are Unicode scalar values. *)
Definition text_ok (s : str) : Prop := Forall (fun c => scalar_ok c = true) s.

(** A key of [n] bytes. *)
Definition array (n : nat) (b : bytes) : Prop := length b = n /\ bytes_ok b.

(** [Rd::bytes] and [Rd::arr]: the next [n] bytes, or too short. *)
Definition rd (n : nat) (b : bytes) : option (bytes * bytes) :=
  if (length b <? n)%nat then None else Some (take n b, drop n b).

(** [Rd::u8]. *)
Definition rd_u8 (b : bytes) : option (Z * bytes) :=
  match b with [] => None | x :: r => Some (x, r) end.

(** [Rd::u16], [Rd::u32] and [Rd::u64], by width. *)
Definition rd_int (n : nat) (b : bytes) : option (Z * bytes) :=
  '(x, r) ← rd n b; Some (from_be x, r).

(** [Rd::done]. *)
Definition rd_done (b : bytes) : bool := (length b =? 0)%nat.

(** A loop that reads [n] items into a vector. *)
Fixpoint rd_list {A} (item : bytes -> option (A * bytes)) (n : nat) (b : bytes) : option (list A * bytes) :=
  match n with
  | O => Some ([], b)
  | S n' => '(x, b) ← item b; '(xs, b) ← rd_list item n' b; Some (x :: xs, b)
  end.

(** Text of [n] bytes, as UTF-8. *)
Definition rd_text (n : nat) (b : bytes) : option (str * bytes) :=
  '(x, b) ← rd n b; s ← from_utf8 x; Some (s, b).

(** ** Reading back what was written *)

Lemma rd_app n (a b : bytes) : length a = n -> rd n (a ++ b) = Some (a, b).
Proof.
  intros <-. unfold rd. rewrite length_app, (proj2 (Nat.ltb_ge _ _)) by lia.
  by rewrite take_app_length, drop_app_length.
Qed.

Lemma rd_inv n (b x r : bytes) : rd n b = Some (x, r) -> b = x ++ r /\ length x = n.
Proof.
  unfold rd. destruct (Nat.ltb_spec (length b) n); [done|]. intros [= <- <-].
  rewrite take_drop, length_take. split; [done|lia].
Qed.

(** Everything that is left. *)
Lemma rd_all (b : bytes) : rd (Z.to_nat (zlen b)) b = Some (b, []).
Proof. rewrite <- (app_nil_r b) at 2. apply rd_app. unfold zlen. lia. Qed.

Lemma rd_int_app n v (b : bytes) : 0 <= v < 256 ^ Z.of_nat n -> rd_int n (be_bytes n v ++ b) = Some (v, b).
Proof. intros Hv. unfold rd_int. rewrite rd_app by apply be_bytes_length. simpl. by rewrite from_be_be. Qed.

Lemma rd_u16_app v b : in_u16 v -> rd_int 2 (be_bytes 2 v ++ b) = Some (v, b).
Proof. intros Hv. apply rd_int_app. change (256 ^ Z.of_nat 2) with 65536. ulia. Qed.
Lemma rd_u32_app v b : in_u32 v -> rd_int 4 (be_bytes 4 v ++ b) = Some (v, b).
Proof. intros Hv. apply rd_int_app. change (256 ^ Z.of_nat 4) with 4294967296. ulia. Qed.
Lemma rd_u64_app v b : in_u64 v -> rd_int 8 (be_bytes 8 v ++ b) = Some (v, b).
Proof. intros Hv. apply rd_int_app. change (256 ^ Z.of_nat 8) with 18446744073709551616. ulia. Qed.

Lemma rd_int_inv n b v r :
  bytes_ok b -> rd_int n b = Some (v, r) ->
  b = be_bytes n v ++ r /\ 0 <= v < 256 ^ Z.of_nat n /\ bytes_ok r.
Proof.
  unfold rd_int. destruct (rd n b) as [[x r']|] eqn:Hr; [|done]. intros Hok [= <- <-].
  apply rd_inv in Hr as [-> Hn]. apply Forall_app in Hok as [Hx Hr']. subst n.
  split_and!; [by rewrite be_from_be|apply from_be_range; done|unfold zlen in *; by apply from_be_range|done].
Qed.

Lemma rd_u8_inv b x r : bytes_ok b -> rd_u8 b = Some (x, r) -> b = x :: r /\ 0 <= x <= 255 /\ bytes_ok r.
Proof. destruct b as [|y b]; [done|]. intros [Hy Hb]%Forall_cons [= <- <-]. split_and!; [done|apply Hy|apply Hy|done]. Qed.

Lemma as_bytes_nat s : length (as_bytes s) = Z.to_nat (str_len s).
Proof. rewrite <- as_bytes_length. unfold zlen. by rewrite Nat2Z.id. Qed.

Lemma rd_text_app n s b : text_ok s -> Z.to_nat (str_len s) = n -> rd_text n (as_bytes s ++ b) = Some (s, b).
Proof.
  intros Hs <-. unfold rd_text. rewrite rd_app by apply as_bytes_nat. simpl.
  by rewrite from_utf8_as_bytes.
Qed.

Lemma rd_text_inv n b s r :
  bytes_ok b -> rd_text n b = Some (s, r) ->
  b = as_bytes s ++ r /\ text_ok s /\ Z.to_nat (str_len s) = n /\ bytes_ok r.
Proof.
  unfold rd_text. intros Hok. destruct (rd n b) as [[x b']|] eqn:E; [|done]. simpl.
  apply rd_inv in E as [-> Hn]. apply Forall_app in Hok as [_ Hok].
  destruct (from_utf8 x) as [s'|] eqn:Hu; [|done]. simpl. intros [= <- <-].
  apply from_utf8_sound in Hu as [<- Ht]. by rewrite as_bytes_nat in Hn.
Qed.

(** ** Readers and writers of one field *)

(** [item] reads exactly what [put] writes of the values that satisfy [P]. *)
Record reads {A} (item : bytes -> option (A * bytes)) (put : A -> bytes) (P : A -> Prop) : Prop := {
  reads_app a b : P a -> item (put a ++ b) = Some (a, b);
  reads_inv b a r : bytes_ok b -> item b = Some (a, r) -> b = put a ++ r /\ P a /\ bytes_ok r;
}.

Section Lists.
Context {A : Type} (item : bytes -> option (A * bytes)) (put : A -> bytes) (P : A -> Prop).

Lemma rd_list_app (Happ : forall a b, P a -> item (put a ++ b) = Some (a, b)) xs n b :
  Forall P xs -> length xs = n -> rd_list item n (flat_map put xs ++ b) = Some (xs, b).
Proof.
  intros HP <-. induction HP as [|x xs Hx _ IH]; [done|]. cbn [length rd_list flat_map].
  rewrite <- app_assoc, Happ by done. simpl. by rewrite IH.
Qed.

Lemma rd_list_inv (H : reads item put P) n b xs r :
  bytes_ok b -> rd_list item n b = Some (xs, r) ->
  b = flat_map put xs ++ r /\ length xs = n /\ Forall P xs /\ bytes_ok r.
Proof.
  revert b xs. induction n as [|n IH]; intros b xs Hok; cbn [rd_list].
  - intros [= <- <-]. split_and!; [done|done|constructor|done].
  - destruct (item b) as [[x b1]|] eqn:H1; [|done]. simpl.
    apply (reads_inv _ _ _ H) in H1 as (-> & Hx & Hok1); [|done].
    destruct (rd_list item n b1) as [[xs' b2]|] eqn:H2; [|done]. simpl. intros [= <- <-].
    apply IH in H2 as (-> & Hl & Hxs & Hok2); [|done].
    split_and!; [cbn [flat_map]; by rewrite <- app_assoc|simpl; congruence|by constructor|done].
Qed.
End Lists.

(** A key read on its own. *)
Lemma reads_array n : reads (rd n) (fun b => b) (array n).
Proof.
  split.
  - intros a b [Hl _]. by apply rd_app.
  - intros b a r Hok [-> Hn]%rd_inv. apply Forall_app in Hok as [Ha Hr]. by split_and!.
Qed.

Lemma flat_map_id (xs : list bytes) : flat_map (fun b => b) xs = concat xs.
Proof. induction xs as [|x xs IH]; [done|]. simpl. by rewrite IH. Qed.

(** ** Stepping through a reader *)

(** One field of the reader: name the value and what is left, and turn the
    input around. *)
Tactic Notation "field_bytes" ident(x) ident(r) ident(L) ident(O) :=
  match goal with
  | Hok : bytes_ok ?b |- context [rd ?n ?b] =>
      let E := fresh in
      destruct (rd n b) as [[x r]|] eqn:E; [|done]; cbn [mbind option_bind];
      apply rd_inv in E as [-> L]; apply Forall_app in Hok as [O Hok]; change (bytes_ok r) in Hok
  end.
Tactic Notation "field_int" ident(v) ident(r) ident(R) :=
  match goal with
  | Hok : bytes_ok ?b |- context [rd_int ?n ?b] =>
      let E := fresh in
      destruct (rd_int n b) as [[v r]|] eqn:E; [|done]; cbn [mbind option_bind];
      apply rd_int_inv in E as (-> & R & E); [|exact Hok]; clear Hok; rename E into Hok
  end.
Tactic Notation "field_u8" ident(v) ident(r) ident(R) :=
  match goal with
  | Hok : bytes_ok ?b |- context [rd_u8 ?b] =>
      let E := fresh in
      destruct (rd_u8 b) as [[v r]|] eqn:E; [|done]; cbn [mbind option_bind];
      apply rd_u8_inv in E as (-> & R & E); [|exact Hok]; clear Hok; rename E into Hok
  end.
Tactic Notation "field_text" ident(s) ident(r) ident(T) ident(L) :=
  match goal with
  | Hok : bytes_ok ?b |- context [rd_text ?n ?b] =>
      let E := fresh in
      destruct (rd_text n b) as [[s r]|] eqn:E; [|done]; cbn [mbind option_bind];
      apply rd_text_inv in E as (-> & T & L & E); [|exact Hok]; clear Hok; rename E into Hok
  end.

(** The same where a short read is an error of a result. *)
Tactic Notation "res_bytes" ident(x) ident(r) ident(L) ident(O) :=
  match goal with
  | Hok : bytes_ok ?b |- context [rd ?n ?b] =>
      let E := fresh in
      destruct (rd n b) as [[x r]|] eqn:E; [|done]; cbn [ok_or result_bind];
      apply rd_inv in E as [-> L]; apply Forall_app in Hok as [O Hok]; change (bytes_ok r) in Hok
  end.
Tactic Notation "res_int" ident(v) ident(r) ident(R) :=
  match goal with
  | Hok : bytes_ok ?b |- context [rd_int ?n ?b] =>
      let E := fresh in
      destruct (rd_int n b) as [[v r]|] eqn:E; [|done]; cbn [ok_or result_bind];
      apply rd_int_inv in E as (-> & R & E); [|exact Hok]; clear Hok; rename E into Hok
  end.
Tactic Notation "res_u8" ident(v) ident(r) ident(R) :=
  match goal with
  | Hok : bytes_ok ?b |- context [rd_u8 ?b] =>
      let E := fresh in
      destruct (rd_u8 b) as [[v r]|] eqn:E; [|done]; cbn [ok_or result_bind];
      apply rd_u8_inv in E as (-> & R & E); [|exact Hok]; clear Hok; rename E into Hok
  end.

(** The end of the input. *)
Lemma rd_done_true b : rd_done b = true -> b = [].
Proof. unfold rd_done. intros H%Nat.eqb_eq. by apply nil_length_inv. Qed.

(** ** Checks by evaluation *)

Lemma bytes_check b : forallb (fun x => (0 <=? x) && (x <? 256)) b = true -> bytes_ok b.
Proof.
  intros Hb. apply Forall_forall. intros x Hx%list_elem_of_In. apply (proj1 (forallb_forall _ _) Hb) in Hx.
  apply andb_true_iff in Hx as [?%Z.leb_le ?%Z.ltb_lt]. ulia.
Qed.

Lemma text_check t : forallb scalar_ok t = true -> text_ok t.
Proof. intros Ht. apply Forall_forall. intros c Hc%list_elem_of_In. by apply (proj1 (forallb_forall _ _) Ht). Qed.

(** ** Ordered maps *)

(** A [BTreeMap] keyed by byte arrays is a finite map whose iteration follows
    the lexicographic order of the keys. *)
Definition key_le {A} (a b : bytes * A) : Prop := str_leb a.1 b.1 = true.
#[export] Instance key_le_dec {A} (a b : bytes * A) : Decision (key_le a b).
Proof. unfold key_le. apply _. Defined.

Definition btree {A} (m : gmap bytes A) : list (bytes * A) := merge_sort key_le (map_to_list m).

Lemma btree_perm {A} (m : gmap bytes A) : btree m ≡ₚ map_to_list m.
Proof. apply merge_sort_Permutation. Qed.

Lemma btree_elem {A} (m : gmap bytes A) k x : (k, x) ∈ btree m <-> m !! k = Some x.
Proof. rewrite btree_perm. apply elem_of_map_to_list. Qed.

Lemma btree_length {A} (m : gmap bytes A) : length (btree m) = size m.
Proof. by rewrite btree_perm, length_map_to_list. Qed.

Lemma btree_keys {A} (m : gmap bytes A) : NoDup (btree m).*1.
Proof. rewrite btree_perm. apply NoDup_fst_map_to_list. Qed.

(** Inserting the entries one by one gives the map back. *)
Lemma btree_rebuild {A} (m : gmap bytes A) :
  fold_left (fun acc kv => <[kv.1 := kv.2]> acc) (btree m) ∅ = m.
Proof.
  assert (forall l (acc : gmap bytes A), NoDup l.*1 ->
    fold_left (fun acc kv => <[kv.1 := kv.2]> acc) l acc = list_to_map l ∪ acc) as H.
  { induction l as [|[k x] l IH]; intros acc Hnd; simpl; [by rewrite map_empty_union|].
    apply NoDup_cons in Hnd as [Hk Hnd]. rewrite IH, <- insert_union_l by done.
    rewrite insert_union_r; [done|]. by apply not_elem_of_list_to_map_1. }
  rewrite H, map_union_empty by apply btree_keys. etrans; [|apply list_to_map_to_list].
  apply list_to_map_proper; [apply btree_keys|apply btree_perm].
Qed.
