(* ===== verification/ErasureCode.v ===== *)
(** * ErasureCode: Reed-Solomon shards

    Models [crypto/rs.rs]: padding and cutting the data into shards, the fast
    path that needs no recovery, and the selection of recovery shards.  The
    codec itself (the reed-solomon-simd crate) and the iteration order of a
    standard [HashMap] are parameters; [codec_correct] states what the crate
    documents: any [k] of the shards restore the missing originals. *)

From S2P Require Import Prelude Bytes.

(** The errors of [MiasmaError] these modules raise. *)
Inductive MiasmaError :=
| Encryption | Decryption | SssError | ReedSolomon | ShareIntegrity
| InsufficientShares (need got : nat) | HashMismatch | KeyDerivation | Network.

(** The third-party codec and the map iteration order. *)
Class RSCodec := {
  (* recovery shards of [k] originals, for [m] recoveries of [len] bytes *)
  codec_encode (k m len : nat) (originals : list bytes) : option (list bytes);
  (* the missing originals, from indexed originals and recoveries *)
  codec_decode (k m len : nat) (originals recoveries : gmap nat bytes) : option (gmap nat bytes);
  (* the order in which a [HashMap] yields its entries *)
  iter_order (l : list (nat * bytes)) : list (nat * bytes);
}.

(** What the codec documents, at one choice of [k] and [m]: encoding succeeds on
    [k] shards of an even non-zero length, and any originals and recoveries that
    together are at least [k] restore every missing original. *)
Definition codec_correct `{RSCodec} (k m : nat) : Prop :=
  forall len originals,
    (0 < len)%nat -> Nat.even len = true -> length originals = k ->
    Forall (fun s => length s = len) originals ->
    exists recs, codec_encode k m len originals = Some recs /\ length recs = m /\
      Forall (fun s => length s = len) recs /\
      forall om rm : gmap nat bytes,
        (forall i s, om !! i = Some s -> originals !! i = Some s) ->
        (forall i s, rm !! i = Some s -> recs !! i = Some s) ->
        (k <= size om + size rm)%nat ->
        exists restored, codec_decode k m len om rm = Some restored /\
          forall i s, om !! i = None -> originals !! i = Some s -> restored !! i = Some s.

(** The order of a map is some order of its entries. *)
Definition order_correct `{RSCodec} : Prop := forall l, iter_order l ≡ₚ l.

Section RS.
Context `{RSCodec}.

(** The length of one shard: rounded up to a positive even number. *)
Definition shard_len (data_len data_shards : nat) : nat :=
  let l := Nat.max ((data_len + data_shards - 1) / data_shards) 1 in
  if Nat.odd l then (l + 1)%nat else l.

(** [Vec::resize] with zeros. *)
Definition resize (n : nat) (l : bytes) : bytes := take n l ++ replicate (n - length l) 0.

Definition rs_encode (data : bytes) (data_shards total_shards : nat) :
  result (list bytes) MiasmaError :=
  if (total_shards <? data_shards)%nat || (data_shards =? 0)%nat then Err ReedSolomon else
  let recovery_shards := (total_shards - data_shards)%nat in
  let len := shard_len (length data) data_shards in
  let padded := resize (len * data_shards) data in
  if (recovery_shards =? 0)%nat then Ok (chunks len padded) else
  match codec_encode data_shards recovery_shards len (chunks len padded) with
  | None => Err ReedSolomon
  | Some recs => Ok (chunks len padded ++ recs)
  end.

(** [entry(idx).or_insert(shard)]: the first shard of an index wins. *)
Definition or_insert (m : gmap nat bytes) (i : nat) (s : bytes) : gmap nat bytes :=
  match m !! i with Some _ => m | None => <[i := s]> m end.

(** One step of the split into data and recovery maps. *)
Definition split_step (k m : nat) (acc : gmap nat bytes * gmap nat bytes) (x : nat * bytes) :
  gmap nat bytes * gmap nat bytes :=
  let '(i, s) := x in
  if (i <? k)%nat then (or_insert acc.1 i s, acc.2)
  else if (i - k <? m)%nat then (acc.1, or_insert acc.2 (i - k) s)
  else acc.

Definition split_shards (k m : nat) (avail : list (nat * bytes)) : gmap nat bytes * gmap nat bytes :=
  fold_left (split_step k m) avail (∅, ∅).

(** The data shard [i], or the restored one. *)
Definition pick_shard (dm restored : gmap nat bytes) (i : nat) : option bytes :=
  match dm !! i with Some s => Some s | None => restored !! i end.

Definition rs_decode (avail : list (nat * bytes)) (data_shards total_shards original_len : nat) :
  result bytes MiasmaError :=
  if (total_shards <? data_shards)%nat || (data_shards =? 0)%nat then Err ReedSolomon else
  match avail with
  | [] => Err (InsufficientShares data_shards 0)
  | (_, s0) :: _ =>
      let recovery_shards := (total_shards - data_shards)%nat in
      let len := length s0 in
      if (len =? 0)%nat || negb (len mod 2 =? 0)%nat then Err ReedSolomon
      else if negb (forallb (fun x => length x.2 =? len)%nat avail) then Err ReedSolomon
      else
        let '(dm, rm) := split_shards data_shards recovery_shards avail in
        if (size dm =? data_shards)%nat then
          (* every index below [data_shards] is present *)
          Ok (take original_len (concat ((fun i => default [] (dm !! i)) <$> seq 0 data_shards)))
        else
          let missing := (data_shards - size dm)%nat in
          if (size rm <? missing)%nat then
            Err (InsufficientShares data_shards (size dm + size rm))
          else
            let chosen := list_to_map (take missing (iter_order (map_to_list rm))) in
            match codec_decode data_shards recovery_shards len dm chosen with
            | None => Err ReedSolomon
            | Some restored =>
                match mapM (pick_shard dm restored) (seq 0 data_shards) with
                | None => Err ReedSolomon
                | Some out => Ok (take original_len (concat out))
                end
            end
  end.

(** ** Encoding *)

Lemma shard_len_even n k : Nat.even (shard_len n k) = true /\ (0 < shard_len n k)%nat.
Proof.
  unfold shard_len. set (l := Nat.max _ 1). assert (1 <= l)%nat by (unfold l; lia). clearbody l.
  destruct (Nat.odd l) eqn:Ho.
  - split; [|lia]. rewrite Nat.add_1_r, Nat.even_succ. done.
  - split; [|lia]. unfold Nat.odd in Ho. by destruct (Nat.even l).
Qed.

Lemma shard_len_covers n k : (0 < k)%nat -> (n <= shard_len n k * k)%nat.
Proof.
  intros Hk. assert (n <= (n + k - 1) / k * k)%nat as Hd.
  { pose proof (Nat.div_mod_eq (n + k - 1) k). pose proof (Nat.mod_upper_bound (n + k - 1) k). nia. }
  unfold shard_len. case_match; nia.
Qed.

Lemma resize_length n l : length (resize n l) = n.
Proof. unfold resize. rewrite length_app, length_take, length_replicate. lia. Qed.

Lemma resize_take n l : (length l <= n)%nat -> take (length l) (resize n l) = l.
Proof.
  intros Hn. unfold resize. rewrite (take_ge l n) by done. by rewrite take_app_length.
Qed.

Lemma chunks_length_exact {A} n k (l : list A) :
  (0 < n)%nat -> length l = (n * k)%nat -> length (chunks n l) = k.
Proof.
  intros Hn Hl. apply Nat2Z.inj. rewrite chunks_length by done. unfold zlen. rewrite Hl.
  symmetry. apply Z.div_unique with (r := Z.of_nat n - 1); lia.
Qed.

(** The data shards of an encoding: [k] shards of the shard length that
    concatenate to the data and its padding. *)
Lemma data_shards_spec data k :
  (0 < k)%nat ->
  let len := shard_len (length data) k in
  let ds := chunks len (resize (len * k) data) in
  length ds = k /\ Forall (fun s => length s = len) ds /\
  take (length data) (concat ds) = data.
Proof.
  intros Hk len ds. destruct (shard_len_even (length data) k) as [_ Hl]. fold len in Hl.
  split_and!.
  - apply chunks_length_exact; [done|apply resize_length].
  - apply chunks_exact; [done|]. exists k. rewrite resize_length. lia.
  - unfold ds. rewrite chunks_concat by done. apply resize_take. by apply shard_len_covers.
Qed.

(** ** Decoding *)

Lemma or_insert_lookup m i s j :
  or_insert m i s !! j = match m !! j with Some x => Some x | None => if decide (i = j) then Some s else None end.
Proof.
  unfold or_insert. destruct (m !! i) as [x|] eqn:Hi.
  - destruct (m !! j) eqn:Hj; [done|]. case_decide; [congruence|done].
  - rewrite lookup_insert. case_decide as Hd; [subst; by rewrite Hi|].
    by destruct (m !! j).
Qed.

(** The maps hold exactly the indices that were offered, each with one of the
    shards offered for it. *)
Definition split_ok (k m : nat) (avail : list (nat * bytes)) (acc : gmap nat bytes * gmap nat bytes) : Prop :=
  (forall i s, acc.1 !! i = Some s -> (i < k)%nat /\ (i, s) ∈ avail) /\
  (forall i s, acc.2 !! i = Some s -> (i < m)%nat /\ ((k + i)%nat, s) ∈ avail) /\
  (forall i, (i < k)%nat -> i ∈ avail.*1 -> is_Some (acc.1 !! i)) /\
  (forall i, (i < m)%nat -> (k + i)%nat ∈ avail.*1 -> is_Some (acc.2 !! i)).

Lemma split_step_ok k m avail acc x :
  split_ok k m avail acc -> split_ok k m (avail ++ [x]) (split_step k m acc x).
Proof.
  intros (H1 & H2 & H3 & H4). destruct x as [i s], acc as [dm rm]; simpl in *.
  unfold split_ok, split_step. rewrite fmap_app; simpl.
  destruct (i <? k)%nat eqn:Hik; [apply Nat.ltb_lt in Hik|apply Nat.ltb_ge in Hik; destruct (i - k <? m)%nat eqn:Him];
    try apply Nat.ltb_lt in Him; try apply Nat.ltb_ge in Him; simpl; split_and!;
    intros j Hj; rewrite ?or_insert_lookup, ?elem_of_app, ?list_elem_of_singleton.
  - destruct (dm !! j) eqn:Hd; [naive_solver|]. case_decide; naive_solver.
  - naive_solver.
  - intros [Hin|Hin]; destruct (dm !! j) eqn:Hd; eauto.
    + destruct (H3 j Hj Hin). congruence.
    + rewrite decide_True by done. eauto.
  - intros [Hin|Hin]; [auto|lia].
  - naive_solver.
  - destruct (rm !! j) eqn:Hd; [naive_solver|]. case_decide; [|naive_solver]. intros [= <-].
    split; [lia|]. right. f_equal. lia.
  - intros [Hin|Hin]; [auto|lia].
  - intros [Hin|Hin]; destruct (rm !! j) eqn:Hd; eauto.
    + destruct (H4 j Hj Hin). congruence.
    + rewrite decide_True by lia. eauto.
  - naive_solver.
  - naive_solver.
  - intros [Hin|Hin]; [auto|lia].
  - intros [Hin|Hin]; [auto|lia].
Qed.

Lemma split_shards_ok k m avail : split_ok k m avail (split_shards k m avail).
Proof.
  unfold split_shards. induction avail as [|x l IH] using rev_ind.
  - unfold split_ok; simpl. split_and!; intros; set_solver.
  - rewrite fold_left_app. simpl. by apply split_step_ok.
Qed.

(** Distinct indices below [k + m] all land in one of the two maps. *)
Lemma split_shards_size k m avail dm rm (idx : list nat) :
  split_shards k m avail = (dm, rm) -> NoDup idx ->
  (forall i, i ∈ idx -> i ∈ avail.*1 /\ (i < k + m)%nat) ->
  (length idx <= size dm + size rm)%nat.
Proof.
  intros Hs Hnd Hin. pose proof (split_shards_ok k m avail) as (_ & _ & H3 & H4).
  rewrite Hs in H3, H4; simpl in *.
  rewrite <- (size_dom dm), <- (size_dom rm).
  unfold size, set_size; simpl. rewrite <- (length_map (fun j => (k + j)%nat) (elements (dom rm))), <- length_app.
  apply submseteq_length, NoDup_submseteq; [done|]. intros i Hi.
  destruct (Hin i Hi) as [Ha Hlt]. apply elem_of_app.
  destruct (decide (i < k)%nat) as [Hk|Hk].
  - left. apply elem_of_elements, elem_of_dom. auto.
  - right. apply list_elem_of_In, in_map_iff. exists (i - k)%nat. split; [lia|].
    apply list_elem_of_In, elem_of_elements, elem_of_dom, H4; [lia|].
    by replace (k + (i - k))%nat with i by lia.
Qed.

(** A map on indices below [k] of size [k] has them all. *)
Lemma full_map_total (dm : gmap nat bytes) k i :
  (forall j s, dm !! j = Some s -> (j < k)%nat) -> size dm = k -> (i < k)%nat -> is_Some (dm !! i).
Proof.
  intros Hb Hsz Hi. apply elem_of_dom.
  assert (dom dm ⊆ set_seq 0 k) as Hsub.
  { intros j [s Hj]%elem_of_dom. apply elem_of_set_seq. pose proof (Hb j s Hj). lia. }
  assert (size (dom dm) = size (set_seq (C := gset nat) 0 k)) as Heq
    by (rewrite size_dom, size_set_seq; done).
  assert (set_seq 0 k ⊆ dom dm) as Hsup.
  { destruct (decide (set_seq (C := gset nat) 0 k ⊆ dom dm)) as [|Hn]; [done|].
    assert (dom dm ⊂ set_seq 0 k) as Hss%subset_size by (split; done). lia. }
  apply Hsup, elem_of_set_seq. lia.
Qed.

(** What a successful encoding consists of. *)
Lemma rs_encode_ok data k n shards :
  ((k < n)%nat -> codec_correct k (n - k)) -> rs_encode data k n = Ok shards ->
  let len := shard_len (length data) k in
  exists ds recs, shards = ds ++ recs /\ (0 < k <= n)%nat /\ length ds = k /\
    length recs = (n - k)%nat /\ Forall (fun s => length s = len) shards /\
    take (length data) (concat ds) = data /\
    forall om rm : gmap nat bytes,
      (k < n)%nat ->
      (forall i s, om !! i = Some s -> ds !! i = Some s) ->
      (forall i s, rm !! i = Some s -> recs !! i = Some s) ->
      (k <= size om + size rm)%nat ->
      exists restored, codec_decode k (n - k) len om rm = Some restored /\
        forall i s, om !! i = None -> ds !! i = Some s -> restored !! i = Some s.
Proof.
  intros Hc. unfold rs_encode. case_match eqn:Hg; [done|].
  apply orb_false_iff in Hg as [Hg1%Nat.ltb_ge Hg2%Nat.eqb_neq].
  destruct (data_shards_spec data k ltac:(lia)) as (Hlen & Hall & Htake).
  destruct (shard_len_even (length data) k) as [Hev Hpos].
  set (len := shard_len (length data) k) in *. set (ds := chunks len _) in *. cbv zeta.
  case_match eqn:Hz; [apply Nat.eqb_eq in Hz|apply Nat.eqb_neq in Hz].
  - intros [= <-]. exists ds, []. rewrite app_nil_r.
    split_and!; [done|lia|lia|done|simpl; lia|done|done|]. intros; lia.
  - destruct (Hc ltac:(lia) len ds Hpos Hev Hlen Hall) as (recs & -> & Hrl & Hra & Hdec).
    intros [= <-]. exists ds, recs.
    split_and!; [done|lia|lia|done|done|by apply Forall_app|done|]. intros om rm _. apply Hdec.
Qed.

Lemma gather_default k (ds : list bytes) (f : nat -> option bytes) :
  length ds = k -> (forall i, (i < k)%nat -> f i = ds !! i) ->
  (fun i => default [] (f i)) <$> seq 0 k = ds.
Proof.
  intros Hl Hf. apply list_eq. intros i. rewrite list_lookup_fmap.
  destruct (decide (i < k)%nat) as [Hi|Hi].
  - rewrite lookup_seq_lt by done. simpl. rewrite Hf by done.
    destruct (lookup_lt_is_Some_2 ds i) as [x ->]; [lia|done].
  - rewrite lookup_seq_ge by lia. simpl. symmetry. apply lookup_ge_None. lia.
Qed.

Lemma gather_mapM k (ds : list bytes) (f : nat -> option bytes) :
  length ds = k -> (forall i, (i < k)%nat -> f i = ds !! i) -> mapM f (seq 0 k) = Some ds.
Proof.
  intros Hl Hf. apply mapM_Some_2, Forall2_same_length_lookup_2; [by rewrite length_seq|].
  intros i x y Hx Hy. apply lookup_seq in Hx as [-> Hi]. simpl. by rewrite Hf.
Qed.

(** The recovery shards the decoder hands to the codec. *)
Lemma chosen_spec (rm : gmap nat bytes) missing :
  order_correct -> (missing <= size rm)%nat ->
  let chosen : gmap nat bytes := list_to_map (take missing (iter_order (map_to_list rm))) in
  size chosen = missing /\ forall i s, chosen !! i = Some s -> rm !! i = Some s.
Proof.
  intros Hord Hle chosen. pose proof (Hord (map_to_list rm)) as Hp.
  assert (NoDup (take missing (iter_order (map_to_list rm))).*1) as Hnd.
  { rewrite fmap_take. eapply sublist_NoDup; [|apply sublist_take].
    rewrite Hp. apply NoDup_fst_map_to_list. }
  split.
  - unfold chosen. rewrite map_size_list_to_map, length_take, Hp by done.
    rewrite length_map_to_list. lia.
  - intros i s Hi. apply elem_of_list_to_map_2 in Hi. apply elem_of_map_to_list.
    rewrite <- Hp. by eapply elem_of_sublist; [|apply sublist_take].
Qed.

(** The two paths of the decoder, on maps that hold true shards. *)
Lemma decode_paths (data : bytes) k n shards (dm rm : gmap nat bytes) (ds recs : list bytes) :
  order_correct -> shards = ds ++ recs -> length ds = k ->
  (forall i s, dm !! i = Some s -> (i < k)%nat /\ ds !! i = Some s) ->
  (forall i s, rm !! i = Some s -> recs !! i = Some s) ->
  (k <= size dm + size rm)%nat ->
  (size dm <> k -> forall om rm' : gmap nat bytes,
      (forall i s, om !! i = Some s -> ds !! i = Some s) ->
      (forall i s, rm' !! i = Some s -> recs !! i = Some s) ->
      (k <= size om + size rm')%nat ->
      exists restored, codec_decode k (n - k) (shard_len (length data) k) om rm' = Some restored /\
        forall i s, om !! i = None -> ds !! i = Some s -> restored !! i = Some s) ->
  (if (size dm =? k)%nat
   then Ok (take (length data) (concat ((fun i => default [] (dm !! i)) <$> seq 0 k)))
   else
     if (size rm <? k - size dm)%nat then Err (InsufficientShares k (size dm + size rm)) else
     match codec_decode k (n - k) (shard_len (length data) k) dm
             (list_to_map (take (k - size dm) (iter_order (map_to_list rm)))) with
     | None => Err ReedSolomon
     | Some restored =>
         match mapM (pick_shard dm restored) (seq 0 k) with
         | None => Err ReedSolomon
         | Some out => Ok (take (length data) (concat out))
         end
     end) = Ok (take (length data) (concat ds)).
Proof.
  intros Hord -> Hl Hdm Hrm Hsz Hdec. destruct (size dm =? k)%nat eqn:Hfull.
  - apply Nat.eqb_eq in Hfull. rewrite gather_default with (ds := ds); [done|done|].
    intros i Hi. destruct (full_map_total dm k i) as [s Hs]; [naive_solver|done|done|].
    rewrite Hs. symmetry. by apply Hdm.
  - apply Nat.eqb_neq in Hfull. assert ((size rm <? k - size dm)%nat = false) as ->
      by (apply Nat.ltb_ge; lia).
    destruct (chosen_spec rm (k - size dm) Hord ltac:(lia)) as [Hcs Hcl].
    destruct (Hdec Hfull dm (list_to_map (take (k - size dm) (iter_order (map_to_list rm)))))
      as (restored & -> & Hres); [naive_solver|naive_solver|rewrite Hcs; lia|].
    rewrite gather_mapM with (ds := ds); [done|done|]. intros i Hi. unfold pick_shard.
    destruct (dm !! i) as [s|] eqn:Hs; [symmetry; by apply Hdm|].
    destruct (lookup_lt_is_Some_2 ds i) as [s Hs']; [lia|]. rewrite Hs'. by apply Hres.
Qed.

(** Any [k] shards of an encoding decode to the data. *)
Lemma rs_decode_any (data : bytes) k n shards (avail : list (nat * bytes)) (idx : list nat) :
  ((k < n)%nat -> codec_correct k (n - k)) -> order_correct ->
  rs_encode data k n = Ok shards ->
  (forall i s, (i, s) ∈ avail -> shards !! i = Some s) ->
  NoDup idx -> (k <= length idx)%nat -> (forall i, i ∈ idx -> i ∈ avail.*1) ->
  rs_decode avail k n (length data) = Ok data.
Proof.
  intros Hc Hord Henc Hav Hnd Hlen Hidx.
  destruct (rs_encode_ok data k n shards Hc Henc) as (ds & recs & Hsh & Hk & Hds & Hrl & Hall & Htake & Hdec).
  destruct (shard_len_even (length data) k) as [Hev Hpos]. rewrite <- Htake at 2.
  rewrite Forall_lookup in Hall.
  assert (forall i s, (i, s) ∈ avail -> length s = shard_len (length data) k) as Hlens by eauto.
  unfold rs_decode. rewrite (proj2 (Nat.ltb_ge _ _)) by lia. rewrite (proj2 (Nat.eqb_neq _ _)) by lia.
  cbn [orb]. destruct avail as [|[i0 s0] avail'] eqn:Heq.
  { destruct idx as [|i idx]; [simpl in *; lia|]. specialize (Hidx i ltac:(set_solver)). set_solver. }
  rewrite <- Heq in *. assert (length s0 = shard_len (length data) k) as Hs0.
  { apply (Hlens i0). rewrite Heq. set_solver. }
  rewrite Hs0. rewrite (proj2 (Nat.eqb_neq (shard_len _ _) 0)) by lia.
  assert ((shard_len (length data) k mod 2 =? 0)%nat = true) as ->.
  { apply Nat.eqb_eq. apply Nat.even_spec in Hev as [q ->]. by rewrite Nat.mul_comm, Nat.Div0.mod_mul. }
  simpl. assert (forallb (fun x => length x.2 =? shard_len (length data) k)%nat avail = true) as ->.
  { apply forallb_forall. intros [i s] Hin%list_elem_of_In. apply Nat.eqb_eq. eauto. }
  simpl. destruct (split_shards k (n - k) avail) as [dm rm] eqn:Hsplit.
  pose proof (split_shards_ok k (n - k) avail) as (H1 & H2 & _). rewrite Hsplit in H1, H2; simpl in *.
  assert (forall i s, dm !! i = Some s -> (i < k)%nat /\ ds !! i = Some s) as Hdm.
  { intros i s [Hi Hin]%H1. split; [done|]. apply Hav in Hin. subst shards.
    by rewrite lookup_app_l in Hin by lia. }
  assert (forall i s, rm !! i = Some s -> recs !! i = Some s) as Hrm.
  { intros i s [Hi Hin]%H2. apply Hav in Hin. subst shards.
    rewrite lookup_app_r in Hin by lia. by replace (k + i - length ds)%nat with i in Hin by lia. }
  assert (k <= size dm + size rm)%nat as Hsz.
  { etransitivity; [exact Hlen|]. eapply split_shards_size; [done|done|]. intros i Hi.
    pose proof (Hidx i Hi) as Hi'. split; [done|].
    apply list_elem_of_fmap in Hi' as ([i' s] & -> & Hin). apply Hav, lookup_lt_Some in Hin.
    subst shards. rewrite length_app in Hin. simpl. lia. }
  apply (decode_paths data k n shards dm rm ds recs); try done.
  intros Hne om rm'. apply Hdec. destruct (decide (k < n)%nat) as [|Hkn]; [done|]. exfalso.
  assert (rm = ∅) as ->.
  { apply map_empty. intros i. destruct (rm !! i) as [s|] eqn:Hi; [|done].
    apply Hrm, lookup_lt_Some in Hi. lia. }
  rewrite map_size_empty in Hsz. apply Hne. apply Nat.le_antisymm; [|lia].
  rewrite <- (size_dom dm), <- (size_set_seq (C := gset nat) 0 k). apply subseteq_size.
  intros i [s Hi]%elem_of_dom. apply elem_of_set_seq. apply Hdm in Hi. lia.
Qed.

End RS.
