(* ===== verification/Dissolve.v ===== *)
(** * Dissolve: shares, dissolution and retrieval

    Models [crypto/hash.rs], [crypto/aead.rs], [crypto/sss.rs], [share.rs],
    [pipeline.rs], [dissolution/segment.rs] (the Suite1 path) and
    [dissolution/mod.rs].  BLAKE3, AES-256-GCM, HKDF and the Shamir crate are
    parameters, with what they document as named hypotheses; the keys, nonces
    and coins the source draws are arguments.  Counts of type [usize] are
    naturals, and every narrowing cast ([as u8], [as u16], [as u32]) is written
    out. *)

From S2P Require Import Prelude Bytes Text ErasureCode.

(** ** The primitives *)

Class Crypto := {
  blake3 (data : bytes) : bytes;
  (* BLAKE3 in key-derivation mode, under a context string *)
  blake3_derive (context : bytes) (data : bytes) : bytes;
  (* AES-256-GCM with associated data *)
  aead_seal (key nonce aad plaintext : bytes) : option bytes;
  aead_open (key nonce aad ciphertext : bytes) : option bytes;
  (* HKDF-SHA256, 32 bytes *)
  hkdf (salt : option bytes) (ikm info : bytes) : option bytes;
  (* Shamir shares: the first [n] of the dealer, and recovery *)
  sharks_deal (k : Z) (secret coins : bytes) (n : nat) : list bytes;
  sharks_recover (k : Z) (shares : list bytes) : option bytes;
}.

(** AES-GCM opens what it sealed, and adds a 16-byte tag. *)
Definition aead_correct `{Crypto} : Prop :=
  forall key nonce aad pt ct,
    aead_seal key nonce aad pt = Some ct ->
    aead_open key nonce aad ct = Some pt /\ length ct = (length pt + 16)%nat.

(** Shamir sharing at [k] of [n]: [k] shares at distinct positions recover. *)
Definition sharks_correct `{Crypto} (k : Z) (n : nat) : Prop :=
  forall secret coins,
    length (sharks_deal k secret coins n) = n /\
    forall idx shares, NoDup idx -> (Z.to_nat k <= length idx)%nat ->
      Forall2 (fun i s => sharks_deal k secret coins n !! i = Some s) idx shares ->
      sharks_recover k shares = Some secret.

Section Shares.
Context `{Crypto} `{RSCodec}.

(** ** Content identifiers *)

Definition MID_PREFIX_LEN : nat := 8.
Definition KEY_LEN : nat := 32.
Definition NONCE_LEN : nat := 12.
Definition PROTOCOL_VERSION : Z := 1.

(** [ContentId]: the digest. *)
Abbreviation ContentId := bytes.

Definition compute (content params : bytes) : ContentId := blake3 (content ++ params).

Definition prefix (mid : ContentId) : bytes := take MID_PREFIX_LEN mid.

Record DissolutionParams := mkParams { data_shards : nat; total_shards : nat }.

Definition default_params : DissolutionParams := mkParams 10 20.

(** [format!("k={},n={},v={}")]. *)
Definition to_param_bytes (p : DissolutionParams) : bytes :=
  lit "k=" ++ show_dec (Z.of_nat (data_shards p)) ++ lit ",n="
  ++ show_dec (Z.of_nat (total_shards p)) ++ lit ",v=" ++ show_dec PROTOCOL_VERSION.

(** ** Primitives with their checks *)

(** [encrypt]: a fresh key and nonce, no associated data. *)
Definition encrypt (key nonce plaintext : bytes) : result (bytes * bytes * bytes) MiasmaError :=
  match aead_seal key nonce [] plaintext with
  | Some ct => Ok (ct, key, nonce)
  | None => Err Encryption
  end.

Definition encrypt_with_key (plaintext key nonce : bytes) : result bytes MiasmaError :=
  ok_or (aead_seal key nonce [] plaintext) Encryption.

Definition decrypt (ciphertext key nonce : bytes) : result bytes MiasmaError :=
  ok_or (aead_open key nonce [] ciphertext) Decryption.

Definition sss_split (secret coins : bytes) (k n : Z) : result (list bytes) MiasmaError :=
  if (k =? 0) || (n =? 0) || (n <? k) then Err SssError
  else Ok (sharks_deal k secret coins (Z.to_nat n)).

Definition sss_combine (shares : list bytes) (k : Z) : result bytes MiasmaError :=
  if zlen shares <? k then Err (InsufficientShares (Z.to_nat k) (length shares))
  else ok_or (sharks_recover k shares) SssError.

(** ** Shares *)

Record MiasmaShare := mkShare {
  version : Z;
  mid_prefix : bytes;
  segment_index : Z;
  slot_index : Z;
  shard_data : bytes;
  key_share : bytes;
  shard_hash : bytes;
  nonce : bytes;
  original_len : Z;
  timestamp : Z;
}.

#[export] Instance MiasmaShare_eq_dec : EqDecision MiasmaShare.
Proof. solve_decision. Defined.

(** [MiasmaShare::new] and [new_v2]: they differ in the version byte. *)
Definition new_share (v : Z) (mid : ContentId) (seg slot : Z) (shard key nonce : bytes) (olen ts : Z) :
  MiasmaShare :=
  mkShare v (prefix mid) seg slot shard key (blake3 shard) nonce olen ts.

Definition PIECE_COMMITMENT_DOMAIN : bytes := lit "miasma-piece-commitment-v2".

(** What the piece commitment hashes, field by field. *)
Definition commitment_input (s : MiasmaShare) (mid : ContentId) : bytes :=
  [version s] ++ mid ++ le_bytes 4 (segment_index s) ++ le_bytes 2 (slot_index s)
  ++ le_bytes 4 (original_len s) ++ le_bytes 8 (zlen (shard_data s)) ++ shard_data s
  ++ le_bytes 8 (zlen (key_share s)) ++ key_share s ++ nonce s.

Definition piece_commitment (s : MiasmaShare) (mid : ContentId) : bytes :=
  blake3_derive PIECE_COMMITMENT_DOMAIN (commitment_input s mid).

Definition self_consistent (s : MiasmaShare) : bool := bool_decide (blake3 (shard_data s) = shard_hash s).

Definition coarse_verify (s : MiasmaShare) (mid : ContentId) : bool :=
  bool_decide (mid_prefix s = prefix mid) && self_consistent s.

Definition verify_piece (s : MiasmaShare) (mid : ContentId) (commitment : bytes) : bool :=
  coarse_verify s mid && bool_decide (piece_commitment s mid = commitment).

Definition full_verify (plaintext params : bytes) (mid : ContentId) : result unit MiasmaError :=
  if bool_decide (compute plaintext params = mid) then Ok tt else Err HashMismatch.

(** The narrowing casts. *)
Definition as_u8 (n : nat) : Z := Z.of_nat n mod 256.
Definition as_u16 (n : nat) : Z := Z.of_nat n mod 65536.
Definition as_u32 (n : nat) : Z := Z.of_nat n mod 4294967296.

(** Zip shards with key shares and number them. *)
Definition assemble (v : Z) (mid : ContentId) (seg : Z) (shards keys : list bytes) (nonce : bytes)
    (olen ts : Z) : list MiasmaShare :=
  imap (fun i sk => new_share v mid seg (as_u16 i) sk.1 sk.2 nonce olen ts) (zip shards keys).

(** ** Dissolution *)

(** The randomness of one dissolution. *)
Record coins := mkCoins { c_key : bytes; c_nonce : bytes; c_shamir : bytes }.

Definition dissolve_at (plaintext : bytes) (params : DissolutionParams) (timestamp : Z) (c : coins) :
  result (ContentId * list MiasmaShare) MiasmaError :=
  let mid := compute plaintext (to_param_bytes params) in
  let? (ciphertext, k_enc, nonce) := encrypt (c_key c) (c_nonce c) plaintext in
  let? shards := rs_encode ciphertext (data_shards params) (total_shards params) in
  let? key_shares :=
    sss_split k_enc (c_shamir c) (as_u8 (data_shards params)) (as_u8 (total_shards params)) in
  Ok (mid, assemble 1 mid 0 shards key_shares nonce (as_u32 (length plaintext)) timestamp).

(** Recover the ciphertext and the content key from the selected shares; the
    part [retrieve] and [retrieve_segment_with] have in common. *)
Definition recover_selected (selected : list MiasmaShare) (params : DissolutionParams)
    (ciphertext_len : nat) : result (bytes * bytes) MiasmaError :=
  let? ciphertext :=
    rs_decode ((fun s => (Z.to_nat (slot_index s), shard_data s)) <$> selected)
      (data_shards params) (total_shards params) ciphertext_len in
  let? k_enc := sss_combine (key_share <$> selected) (as_u8 (data_shards params)) in
  if negb (length k_enc =? KEY_LEN)%nat then Err SssError else Ok (ciphertext, k_enc).

(** [retrieve]; indexing the first selected share panics when there is none. *)
Definition retrieve (mid : ContentId) (shares : list MiasmaShare) (params : DissolutionParams) :
  outcome (result bytes MiasmaError) :=
  let k := data_shards params in
  if (length shares <? k)%nat then Ret (Err (InsufficientShares k (length shares))) else
  let valid := List.filter (fun s => coarse_verify s mid) shares in
  if (length valid <? k)%nat then Ret (Err (InsufficientShares k (length valid))) else
  match take k valid with
  | [] => Panic
  | (s0 :: _) as selected =>
      let ciphertext_len := (Z.to_nat (original_len s0) + 16)%nat in
      Ret (let? (ciphertext, key) := recover_selected selected params ciphertext_len in
           let? plaintext := decrypt ciphertext key (nonce s0) in
           let? _ := full_verify plaintext (to_param_bytes params) mid in
           Ok plaintext)
  end.

(** ** Segments *)

Record SegmentMeta := mkMeta {
  index : Z;
  offset_bytes : Z;
  plaintext_len : Z;
  share_count : Z;
}.

Definition LABEL_SEGMENT_KEY : bytes := lit "miasma-seg-key-v1".

(** [UnlockedKey::segment_key]: the password key mixed into the content key. *)
Definition segment_key (pw_key k_enc : bytes) (mid : ContentId) (seg : Z) : result bytes MiasmaError :=
  ok_or (hkdf (Some pw_key) k_enc (LABEL_SEGMENT_KEY ++ mid ++ le_bytes 4 seg)) KeyDerivation.

Definition dissolve_segment_with_at (segment_data : bytes) (mid : ContentId) (seg offset : Z)
    (params : DissolutionParams) (password_key : option bytes) (timestamp : Z) (c : coins) :
  result (SegmentMeta * list MiasmaShare) MiasmaError :=
  let? (ciphertext, k_enc, nonce) :=
    match password_key with
    | None => encrypt (c_key c) (c_nonce c) segment_data
    | Some pw =>
        let? k_seg := segment_key pw (c_key c) mid seg in
        let? ct := encrypt_with_key segment_data k_seg (c_nonce c) in
        Ok (ct, c_key c, c_nonce c)
    end in
  let? shards := rs_encode ciphertext (data_shards params) (total_shards params) in
  let? key_shares :=
    sss_split k_enc (c_shamir c) (as_u8 (data_shards params)) (as_u8 (total_shards params)) in
  Ok (mkMeta seg offset (as_u32 (length segment_data)) (as_u16 (total_shards params)),
      assemble 1 mid seg shards key_shares nonce (as_u32 (length segment_data)) timestamp).

Definition retrieve_segment_with (mid : ContentId) (shares : list MiasmaShare) (meta : SegmentMeta)
    (params : DissolutionParams) (password_key : option bytes) : outcome (result bytes MiasmaError) :=
  let k := data_shards params in
  let valid := List.filter (fun s => (segment_index s =? index meta) && coarse_verify s mid) shares in
  if (length valid <? k)%nat then Ret (Err (InsufficientShares k (length valid))) else
  match take k valid with
  | [] => Panic
  | (s0 :: _) as selected =>
      let ciphertext_len := (Z.to_nat (plaintext_len meta) + 16)%nat in
      Ret (let? (ciphertext, k_enc) := recover_selected selected params ciphertext_len in
           let? key := match password_key with
                       | None => Ok k_enc
                       | Some pw => segment_key pw k_enc mid (index meta)
                       end in
           decrypt ciphertext key (nonce s0))
  end.

Definition retrieve_segment mid shares meta params := retrieve_segment_with mid shares meta params None.

(** ** Files *)

Record DissolutionManifest := mkManifest {
  m_version : Z;
  m_mid : ContentId;
  m_params : DissolutionParams;
  total_bytes : Z;
  segment_size : Z;
  segments : list SegmentMeta;
  created_at : Z;
}.

(** One segment after the other, from segment [i]; [cs] and [clock] are the
    randomness and the clock readings of each. *)
Fixpoint dissolve_chunks (mid : ContentId) (params : DissolutionParams) (seg_size : nat) (i : nat)
    (cks : list bytes) (cs : nat -> coins) (clock : nat -> Z) :
  result (list (SegmentMeta * list MiasmaShare)) MiasmaError :=
  match cks with
  | [] => Ok []
  | chunk :: rest =>
      let? seg := dissolve_segment_with_at chunk mid (as_u32 i) (Z.of_nat (i * seg_size)) params None
                    (clock i) (cs i) in
      let? segs := dissolve_chunks mid params seg_size (S i) rest cs clock in
      Ok (seg :: segs)
  end.

(** The segments of a file; empty input is one empty segment. *)
Definition file_chunks (seg_size : nat) (data : bytes) : list bytes :=
  match data with [] => [[]] | _ => chunks seg_size data end.

Definition dissolve_file (data : bytes) (params : DissolutionParams) (seg_size : nat)
    (cs : nat -> coins) (clock : nat -> Z) (created : Z) :
  result (DissolutionManifest * list (list MiasmaShare)) MiasmaError :=
  let seg_size := Nat.max seg_size 1 in
  let mid := compute data (to_param_bytes params) in
  let? segs := dissolve_chunks mid params seg_size 0 (file_chunks seg_size data) cs clock in
  Ok (mkManifest 1 mid params (zlen data) (as_u32 seg_size) (segs.*1) created, segs.*2).

(** The segments of [retrieve_file], in manifest order. *)
Fixpoint retrieve_segments_of (mid : ContentId) (params : DissolutionParams)
    (metas : list SegmentMeta) (all : list MiasmaShare) : outcome (result bytes MiasmaError) :=
  match metas with
  | [] => Ret (Ok [])
  | meta :: rest =>
      match retrieve_segment mid (List.filter (fun s => segment_index s =? index meta) all) meta params with
      | Panic => Panic
      | Ret (Err e) => Ret (Err e)
      | Ret (Ok d) =>
          match retrieve_segments_of mid params rest all with
          | Ret (Ok ds) => Ret (Ok (d ++ ds))
          | o => o
          end
      end
  end.

Definition retrieve_file (m : DissolutionManifest) (all : list MiasmaShare) :
  outcome (result bytes MiasmaError) :=
  match retrieve_segments_of (m_mid m) (m_params m) (segments m) all with
  | Ret (Ok output) =>
      Ret (let? _ := full_verify output (to_param_bytes (m_params m)) (m_mid m) in Ok output)
  | o => o
  end.

(** ** Assembled shares *)

(** The shares of one dissolution: shards and key shares of the same length
    [n], numbered from 0. *)
Lemma assemble_lookup v mid seg shards keys nc olen ts i s :
  zlen shards <= 65536 ->
  assemble v mid seg shards keys nc olen ts !! i = Some s ->
  exists d k, shards !! i = Some d /\ keys !! i = Some k /\
    s = new_share v mid seg (Z.of_nat i) d k nc olen ts.
Proof.
  intros Hl Hi. unfold assemble in Hi. rewrite list_lookup_imap in Hi.
  apply fmap_Some in Hi as ([d k] & Hz & ->). apply lookup_zip_Some in Hz as [Hd Hk].
  exists d, k. split_and!; [done|done|]. f_equal. unfold as_u16. apply Z.mod_small.
  apply lookup_lt_Some in Hd. unfold zlen in *. lia.
Qed.

Lemma coarse_verify_new v mid seg slot d k nc olen ts :
  coarse_verify (new_share v mid seg slot d k nc olen ts) mid = true.
Proof.
  unfold coarse_verify, self_consistent, new_share; simpl.
  rewrite !bool_decide_true by done. done.
Qed.

(** ** Any k shares recover the content *)

(** The parameters that fit the one-byte Shamir counts. *)
Definition params_ok (p : DissolutionParams) : Prop :=
  (0 < data_shards p <= total_shards p)%nat /\ Z.of_nat (total_shards p) <= 255.

(** What the primitives promise at these parameters. *)
Record primitives_ok (p : DissolutionParams) : Prop := {
  po_aead : aead_correct;
  po_sss : sharks_correct (Z.of_nat (data_shards p)) (total_shards p);
  po_rs : (data_shards p < total_shards p)%nat ->
          codec_correct (data_shards p) (total_shards p - data_shards p);
  po_order : order_correct;
}.

Lemma as_u8_small n : Z.of_nat n <= 255 -> as_u8 n = Z.of_nat n.
Proof. intros. unfold as_u8. apply Z.mod_small. lia. Qed.

Lemma rs_encode_length data p shards :
  primitives_ok p -> rs_encode data (data_shards p) (total_shards p) = Ok shards ->
  length shards = total_shards p.
Proof.
  intros Hp He. destruct (rs_encode_ok _ _ _ _ (po_rs p Hp) He) as (ds & recs & -> & Hk & Hd & Hr & _).
  rewrite length_app. lia.
Qed.

Section Recover.
Context (ver : Z) (p : DissolutionParams) (mid : ContentId) (ct key cs nc : bytes) (seg olen ts : Z) (shards : list bytes).
Hypothesis (Hparams : params_ok p) (Hprim : primitives_ok p).
Hypothesis (Henc : rs_encode ct (data_shards p) (total_shards p) = Ok shards).

Definition dealt : list bytes := sharks_deal (Z.of_nat (data_shards p)) key cs (total_shards p).
Definition full : list MiasmaShare := assemble ver mid seg shards dealt nc olen ts.

(** A share of the dissolution and where it comes from. *)
Lemma full_share s :
  s ∈ full ->
  shards !! Z.to_nat (slot_index s) = Some (shard_data s) /\
  dealt !! Z.to_nat (slot_index s) = Some (key_share s) /\
  0 <= slot_index s /\ coarse_verify s mid = true /\ nonce s = nc /\ original_len s = olen /\
  segment_index s = seg.
Proof.
  intros [i Hi]%list_elem_of_lookup. apply assemble_lookup in Hi as (d & k & Hd & Hk & ->).
  - simpl. rewrite Nat2Z.id. split_and!; try done; [lia|apply coarse_verify_new].
  - unfold zlen. rewrite (rs_encode_length _ _ _ Hprim Henc). destruct Hparams. lia.
Qed.

(** [k] of the shares at distinct slots give back ciphertext and content key. *)
Lemma recover_selected_ok sel :
  length key = KEY_LEN -> (forall s, s ∈ sel -> s ∈ full) -> NoDup (slot_index <$> sel) ->
  length sel = data_shards p -> recover_selected sel p (length ct) = Ok (ct, key).
Proof.
  intros Hkey Hin Hnd Hlen. unfold recover_selected.
  set (idx := (fun s => Z.to_nat (slot_index s)) <$> sel).
  assert (NoDup idx) as Hidx.
  { unfold idx. rewrite (list_fmap_compose slot_index Z.to_nat).
    apply NoDup_fmap_2_strong; [|done].
    intros x y (s & -> & Hs)%list_elem_of_fmap (s' & -> & Hs')%list_elem_of_fmap Heq.
    apply Hin, full_share in Hs as (_ & _ & Hs & _).
    apply Hin, full_share in Hs' as (_ & _ & Hs' & _). lia. }
  rewrite (rs_decode_any ct _ _ shards _ idx (po_rs p Hprim) (po_order p Hprim) Henc).
  - simpl. destruct Hparams as [Hk Hn].
    rewrite as_u8_small by lia. unfold sss_combine, zlen. rewrite length_fmap, Hlen, Z.ltb_irrefl.
    assert (sharks_recover (Z.of_nat (data_shards p)) (key_share <$> sel) = Some key) as ->.
    { apply (proj2 (po_sss p Hprim key cs) idx); [done|unfold idx; rewrite length_fmap; lia|].
      unfold idx. clear - Hin Hprim Hparams Henc. induction sel as [|s sel IH]; [constructor|].
      constructor; [|apply IH; set_solver]. apply full_share. set_solver. }
    simpl. by rewrite Hkey.
  - intros i s (s' & [= -> ->] & Hs)%list_elem_of_fmap. apply full_share; eauto.
  - done.
  - unfold idx. rewrite length_fmap. lia.
  - intros i (s & -> & Hs)%list_elem_of_fmap. rewrite <- list_fmap_compose.
    apply list_elem_of_fmap. by exists s.
Qed.
End Recover.

Lemma as_u32_small n : Z.of_nat n < 4294967296 -> Z.to_nat (as_u32 n) = n.
Proof. intros. unfold as_u32. rewrite Z.mod_small by lia. lia. Qed.

Lemma sss_split_ok p key cs :
  params_ok p ->
  sss_split key cs (as_u8 (data_shards p)) (as_u8 (total_shards p)) = Ok (dealt p key cs).
Proof.
  intros [Hk Hn]. unfold sss_split, dealt. rewrite !as_u8_small by lia.
  repeat (case_match; try lia). by rewrite Nat2Z.id.
Qed.

(** The parts of a successful dissolution. *)
Lemma dissolve_at_inv pt p ts c mid shares :
  params_ok p -> dissolve_at pt p ts c = Ok (mid, shares) ->
  mid = compute pt (to_param_bytes p) /\
  exists ct shards, aead_seal (c_key c) (c_nonce c) [] pt = Some ct /\
    rs_encode ct (data_shards p) (total_shards p) = Ok shards /\
    shares = full 1 p mid (c_key c) (c_shamir c) (c_nonce c) 0 (as_u32 (length pt)) ts shards.
Proof.
  intros Hp. unfold dissolve_at, encrypt.
  destruct (aead_seal _ _ _ _) as [ct|] eqn:Ha; [|done]. simpl.
  destruct (rs_encode _ _ _) as [shards|] eqn:Hr; [|done]. simpl.
  rewrite sss_split_ok by done. simpl. intros [= <- <-]. split; [done|]. by exists ct, shards.
Qed.

(** What a retrieval selects: the first [k] shares that pass the coarse check
    and the caller's filter. *)
Lemma selected_props (P : MiasmaShare -> bool) (sh all : list MiasmaShare) k :
  (forall s, s ∈ List.filter P sh -> s ∈ all) -> NoDup (slot_index <$> List.filter P sh) ->
  (k <= length (List.filter P sh))%nat ->
  (forall s, s ∈ take k (List.filter P sh) -> s ∈ all) /\
  NoDup (slot_index <$> take k (List.filter P sh)) /\ length (take k (List.filter P sh)) = k.
Proof.
  intros Hin Hnd Hl. split_and!.
  - intros s Hs. apply Hin. by eapply elem_of_sublist; [|apply sublist_take].
  - rewrite fmap_take. eapply sublist_NoDup; [done|apply sublist_take].
  - rewrite length_take. lia.
Qed.

Lemma filter_length_le {A} (P : A -> bool) (l : list A) : (length (List.filter P l) <= length l)%nat.
Proof. induction l as [|x l IH]; simpl; [lia|]. destruct (P x); simpl; lia. Qed.

(** Retrieval from any [k] genuine shares; the property below states it. *)
Lemma any_k_shares_retrieve_lemma (pt : bytes) (p : DissolutionParams) (ts : Z) (c : coins)
    (mid : ContentId) (shares sh : list MiasmaShare) :
  params_ok p -> primitives_ok p -> length (c_key c) = KEY_LEN -> zlen pt < 4294967296 ->
  dissolve_at pt p ts c = Ok (mid, shares) ->
  (forall s, s ∈ sh -> coarse_verify s mid = true -> s ∈ shares) ->
  NoDup (slot_index <$> List.filter (fun s => coarse_verify s mid) sh) ->
  (data_shards p <= length (List.filter (fun s => coarse_verify s mid) sh))%nat ->
  retrieve mid sh p = Ret (Ok pt).
Proof.
  intros Hp Hprim Hkey Hpt Hd Hin Hnd Hlen.
  destruct (dissolve_at_inv _ _ _ _ _ _ Hp Hd) as (Hmid & ct & shards & Hseal & Hrs & ->).
  destruct (po_aead p Hprim _ _ _ _ _ Hseal) as [Hopen Hct].
  destruct (selected_props (fun s => coarse_verify s mid) sh _ (data_shards p)
    ltac:(intros s [Hs Hv]%list_elem_of_In%filter_In; apply Hin; [by apply list_elem_of_In|exact Hv])
    Hnd Hlen) as (Hsin & Hsnd & Hsl).
  pose proof (recover_selected_ok 1 p mid ct (c_key c) (c_shamir c) (c_nonce c) 0 (as_u32 (length pt))
    ts shards Hp Hprim Hrs _ Hkey Hsin Hsnd Hsl) as Hrec.
  unfold retrieve. rewrite (proj2 (Nat.ltb_ge _ _)).
  2:{ etransitivity; [exact Hlen|apply filter_length_le]. }
  rewrite (proj2 (Nat.ltb_ge _ _)) by done.
  destruct (take (data_shards p) _) as [|s0 sel] eqn:Hsel.
  { destruct Hp as [[Hk _] _]. simpl in Hsl. lia. }
  destruct (full_share 1 p mid ct (c_key c) (c_shamir c) (c_nonce c) 0 (as_u32 (length pt)) ts shards
    Hp Hprim Hrs s0 ltac:(apply Hsin; set_solver)) as (_ & _ & _ & _ & Hn & Ho & _).
  rewrite Ho, as_u32_small, <- Hct, Hrec by (unfold zlen in Hpt; lia).
  simpl. unfold decrypt, full_verify. rewrite Hn, Hopen. simpl.
  by rewrite bool_decide_true by done.
Qed.

(** C1. Content survives the loss of shares: dissolve a plaintext into [n] shares
    and hand [retrieve] any collection in which the shares that pass the coarse
    check are shares of this dissolution at distinct slots, at least [k] of
    them, in any order and mixed with any number of forgeries the coarse check
    rejects; retrieval returns exactly the plaintext. *)
Theorem any_k_shares_retrieve (pt : bytes) (p : DissolutionParams) (ts : Z) (c : coins)
    (mid : ContentId) (shares sh : list MiasmaShare) :
  params_ok p -> primitives_ok p -> length (c_key c) = KEY_LEN -> zlen pt < 4294967296 ->
  dissolve_at pt p ts c = Ok (mid, shares) ->
  (forall s, s ∈ sh -> coarse_verify s mid = true -> s ∈ shares) ->
  NoDup (slot_index <$> List.filter (fun s => coarse_verify s mid) sh) ->
  (data_shards p <= length (List.filter (fun s => coarse_verify s mid) sh))%nat ->
  retrieve mid sh p = Ret (Ok pt).
Proof. apply any_k_shares_retrieve_lemma. Qed.

(** Retrieval is sound: whatever shares it is given, a plaintext that
    [retrieve] or [retrieve_file] returns hashes to the requested identifier
    under the requested parameters. *)
Theorem retrieved_content_matches_mid (mid : ContentId) (sh : list MiasmaShare)
    (p : DissolutionParams) (m : DissolutionManifest) (pt : bytes) :
  (retrieve mid sh p = Ret (Ok pt) -> compute pt (to_param_bytes p) = mid) /\
  (retrieve_file m sh = Ret (Ok pt) -> compute pt (to_param_bytes (m_params m)) = m_mid m).
Proof.
  unfold retrieve, retrieve_file, full_verify. split.
  - repeat (case_match; try done). intros [= Heq]. revert Heq.
    destruct (recover_selected _ _ _) as [[ct k]|]; [|done]. simpl.
    destruct (decrypt _ _ _) as [pt'|]; [|done]. simpl. case_bool_decide; [|done]. by intros [= <-].
  - repeat (case_match; try done). intros [= Heq]. revert Heq.
    case_bool_decide; [|done]. by intros [= <-].
Qed.

(** ** Segments and files *)

(** The shares a segment retrieval may use. *)
Definition usable (mid : ContentId) (seg : Z) (s : MiasmaShare) : bool :=
  (segment_index s =? seg) && coarse_verify s mid.

(** Enough genuine shares of one segment: every usable share is one of the
    dissolution's, at distinct slots, at least [k] of them. *)
Definition enough (p : DissolutionParams) (mid : ContentId) (seg : Z) (shares sh : list MiasmaShare) : Prop :=
  (forall s, s ∈ List.filter (usable mid seg) sh -> s ∈ shares) /\
  NoDup (slot_index <$> List.filter (usable mid seg) sh) /\
  (data_shards p <= length (List.filter (usable mid seg) sh))%nat.

(** The key a segment is encrypted under. *)
Definition aes_key (pw : option bytes) (k_enc : bytes) (mid : ContentId) (seg : Z) : result bytes MiasmaError :=
  match pw with None => Ok k_enc | Some pw => segment_key pw k_enc mid seg end.

Lemma dissolve_segment_inv d mid seg off p pw ts c meta shares :
  params_ok p -> dissolve_segment_with_at d mid seg off p pw ts c = Ok (meta, shares) ->
  index meta = seg /\ plaintext_len meta = as_u32 (length d) /\
  exists key ct shards, aes_key pw (c_key c) mid seg = Ok key /\
    aead_seal key (c_nonce c) [] d = Some ct /\
    rs_encode ct (data_shards p) (total_shards p) = Ok shards /\
    shares = full 1 p mid (c_key c) (c_shamir c) (c_nonce c) seg (as_u32 (length d)) ts shards.
Proof.
  intros Hp. unfold dissolve_segment_with_at, encrypt, encrypt_with_key.
  destruct pw as [pw|]; simpl.
  - destruct (segment_key pw _ _ _) as [key|]; [|done]. simpl.
    destruct (aead_seal key _ _ _) as [ct|] eqn:Ha; [|done]. simpl.
    destruct (rs_encode _ _ _) as [shards|] eqn:Hr; [|done]. simpl.
    rewrite sss_split_ok by done. simpl. intros [= <- <-]. split_and!; [done..|]. by exists key, ct, shards.
  - destruct (aead_seal _ _ _ _) as [ct|] eqn:Ha; [|done]. simpl.
    destruct (rs_encode _ _ _) as [shards|] eqn:Hr; [|done]. simpl.
    rewrite sss_split_ok by done. simpl. intros [= <- <-]. split_and!; [done..|].
    by exists (c_key c), ct, shards.
Qed.

Lemma segment_roundtrip d mid seg off p pw ts c meta shares sh :
  params_ok p -> primitives_ok p -> length (c_key c) = KEY_LEN -> zlen d < 4294967296 ->
  dissolve_segment_with_at d mid seg off p pw ts c = Ok (meta, shares) ->
  enough p mid seg shares sh -> retrieve_segment_with mid sh meta p pw = Ret (Ok d).
Proof.
  intros Hp Hprim Hkey Hlen Hd (Hin & Hnd & Hk).
  destruct (dissolve_segment_inv _ _ _ _ _ _ _ _ _ _ Hp Hd)
    as (Hidx & Hpl & key & ct & shards & Haes & Hseal & Hrs & ->).
  destruct (po_aead p Hprim _ _ _ _ _ Hseal) as [Hopen Hct].
  destruct (selected_props _ sh _ (data_shards p) Hin Hnd Hk) as (Hsin & Hsnd & Hsl).
  pose proof (recover_selected_ok 1 p mid ct (c_key c) (c_shamir c) (c_nonce c) seg (as_u32 (length d))
    ts shards Hp Hprim Hrs _ Hkey Hsin Hsnd Hsl) as Hrec.
  unfold retrieve_segment_with. rewrite Hidx, Hpl, as_u32_small, <- Hct by (unfold zlen in Hlen; lia).
  change (fun s => (segment_index s =? seg) && coarse_verify s mid) with (usable mid seg).
  rewrite (proj2 (Nat.ltb_ge _ _)) by done.
  destruct (take (data_shards p) _) as [|s0 sel] eqn:Hsel.
  { destruct Hp as [[Hkp _] _]. simpl in Hsl. lia. }
  destruct (full_share 1 p mid ct (c_key c) (c_shamir c) (c_nonce c) seg (as_u32 (length d)) ts shards
    Hp Hprim Hrs s0 ltac:(apply Hsin; set_solver)) as (_ & _ & _ & _ & Hn & _).
  rewrite Hrec, Hn. unfold aes_key in Haes. simpl. rewrite Haes. simpl.
  unfold decrypt. by rewrite Hopen.
Qed.

Lemma filter_usable mid seg sh :
  List.filter (usable mid seg) (List.filter (fun s => segment_index s =? seg) sh)
  = List.filter (usable mid seg) sh.
Proof.
  induction sh as [|s sh IH]; [done|]. simpl. unfold usable at 2.
  destruct (segment_index s =? seg) eqn:Hs; simpl; [|done].
  unfold usable at 1. rewrite Hs. simpl. by rewrite IH.
Qed.

Lemma enough_filtered p mid seg shares sh :
  enough p mid seg shares sh -> enough p mid seg shares (List.filter (fun s => segment_index s =? seg) sh).
Proof. unfold enough. by rewrite filter_usable. Qed.

Lemma chunks_roundtrip mid p ss cs clock cks i segs sh :
  params_ok p -> primitives_ok p -> (forall j, length (c_key (cs j)) = KEY_LEN) ->
  Forall (fun c => zlen c < 4294967296) cks -> Z.of_nat (i + length cks) <= 4294967296 ->
  dissolve_chunks mid p ss i cks cs clock = Ok segs ->
  (forall j shares, (segs.*2) !! j = Some shares -> enough p mid (Z.of_nat (i + j)) shares sh) ->
  retrieve_segments_of mid p (segs.*1) sh = Ret (Ok (concat cks)).
Proof.
  intros Hp Hprim Hkey Hcks. revert i segs.
  induction Hcks as [|ck cks Hck _ IH]; intros i segs Hi; simpl; [intros [= <-]; done|].
  destruct (dissolve_segment_with_at _ _ _ _ _ _ _ _) as [[meta shares]|] eqn:Hd; [|done]. simpl.
  destruct (dissolve_chunks _ _ _ _ _ _ _) as [segs'|] eqn:Hcs; [|done]. simpl.
  intros [= <-] Hen. simpl in Hi.
  assert (as_u32 i = Z.of_nat i) as Hu by (unfold as_u32; apply Z.mod_small; lia). rewrite Hu in Hd.
  pose proof (Hen O shares eq_refl) as He. rewrite Nat.add_0_r in He.
  destruct (dissolve_segment_inv _ _ _ _ _ _ _ _ _ _ Hp Hd) as (Hidx & _).
  rewrite !fmap_cons. cbn [retrieve_segments_of fst]. unfold retrieve_segment. rewrite Hidx.
  rewrite (segment_roundtrip _ _ _ _ _ _ _ _ _ _ _ Hp Hprim (Hkey i) Hck Hd (enough_filtered _ _ _ _ _ He)).
  rewrite (IH (S i) segs'); [done|lia|done|].
  intros j sh' Hj. specialize (Hen (S j) sh' Hj). by replace (S i + j)%nat with (i + S j)%nat by lia.
Qed.

Lemma file_chunks_props ss data :
  0 < Z.of_nat ss < 4294967296 -> zlen data <= 4294967296 * Z.of_nat ss ->
  concat (file_chunks ss data) = data /\ Forall (fun c => zlen c < 4294967296) (file_chunks ss data) /\
  Z.of_nat (0 + length (file_chunks ss data)) <= 4294967296.
Proof.
  intros Hss Hlen. unfold file_chunks. destruct data as [|x data]; [by split_and!; repeat constructor|].
  split_and!.
  - apply chunks_concat. lia.
  - eapply Forall_impl; [apply (chunks_sizes ss); lia|]. intros c [_ Hc]. unfold zlen. lia.
  - rewrite Nat.add_0_l, chunks_length by lia. apply Z.lt_succ_r, Z.div_lt_upper_bound; lia.
Qed.

(** C24. File round trip: a file dissolved in segments is retrieved byte for byte
    from any collection of shares, of all segments mixed in any order, that has
    for each segment at least [k] genuine shares at distinct slots and nothing
    else that passes the checks. *)
Theorem file_roundtrip (data : bytes) (p : DissolutionParams) (ss : nat) (cs : nat -> coins)
    (clock : nat -> Z) (created : Z) (m : DissolutionManifest) (shss : list (list MiasmaShare))
    (sh : list MiasmaShare) :
  params_ok p -> primitives_ok p -> (forall i, length (c_key (cs i)) = KEY_LEN) ->
  0 < Z.of_nat ss < 4294967296 -> zlen data <= 4294967296 * Z.of_nat ss ->
  dissolve_file data p ss cs clock created = Ok (m, shss) ->
  (forall i shares, shss !! i = Some shares -> enough p (m_mid m) (Z.of_nat i) shares sh) ->
  retrieve_file m sh = Ret (Ok data).
Proof.
  intros Hp Hprim Hkey Hss Hlen. unfold dissolve_file. rewrite Nat.max_l by lia.
  set (mid := compute data (to_param_bytes p)).
  destruct (dissolve_chunks _ _ _ _ _ _ _) as [segs|] eqn:Hdc; [|done]. simpl. intros [= <- <-] Hen.
  destruct (file_chunks_props ss data Hss Hlen) as (Hcat & Hcks & Hn).
  unfold retrieve_file; simpl in *.
  rewrite (chunks_roundtrip mid p ss cs clock _ 0 segs sh) by done.
  unfold full_verify. rewrite Hcat, bool_decide_true by done. done.
Qed.

(** ** Parameters at the edge *)

(** Retrieval panics exactly on a threshold of zero: with [data_shards = 0]
    no share is selected and reading the metadata of the first one panics, for
    every identifier and share list; with any other threshold neither retrieval
    function panics. *)
Theorem retrieve_panics_iff_zero (mid : ContentId) (sh : list MiasmaShare) (p : DissolutionParams)
    (meta : SegmentMeta) (pw : option bytes) :
  (retrieve mid sh p = Panic <-> data_shards p = 0%nat) /\
  (retrieve_segment_with mid sh meta p pw = Panic <-> data_shards p = 0%nat).
Proof.
  assert (forall valid : list MiasmaShare, (length valid <? data_shards p)%nat = false ->
    (take (data_shards p) valid = [] <-> data_shards p = 0%nat)) as Ht.
  { intros valid Hl%Nat.ltb_ge. rewrite <- length_zero_iff_nil, length_take. lia. }
  unfold retrieve, retrieve_segment_with. split.
  - destruct (length sh <? _)%nat eqn:H1; [split; [done|]; apply Nat.ltb_lt in H1; lia|].
    destruct (length (List.filter _ _) <? _)%nat eqn:H2; [split; [done|]; apply Nat.ltb_lt in H2; lia|].
    rewrite <- (Ht _ H2). destruct (take _ _); done.
  - destruct (length (List.filter _ _) <? _)%nat eqn:H2; [split; [done|]; apply Nat.ltb_lt in H2; lia|].
    rewrite <- (Ht _ H2). destruct (take _ _); done.
Qed.

(** Thresholds above 255 lose the content: the one-byte casts of the Shamir
    counts wrap, so a dissolution that reports success at [k > 255] produces
    fewer than [k] shares, and retrieval from all of them, or from any
    selection without repetition, is refused. *)
Theorem wide_params_lose_content (pt : bytes) (p : DissolutionParams) (ts : Z) (c : coins)
    (mid : ContentId) (shares sh : list MiasmaShare) :
  (forall k s cs n, (length (sharks_deal k s cs n) <= n)%nat) ->
  (255 < data_shards p)%nat -> dissolve_at pt p ts c = Ok (mid, shares) ->
  NoDup sh -> (forall s, s ∈ sh -> s ∈ shares) ->
  (length shares < data_shards p)%nat /\
  retrieve mid sh p = Ret (Err (InsufficientShares (data_shards p) (length sh))).
Proof.
  intros Hdeal Hk. unfold dissolve_at.
  destruct (encrypt _ _ _) as [[[ct k] nc]|]; [|done]. simpl.
  destruct (rs_encode _ _ _) as [shards|]; [|done]. simpl. unfold sss_split.
  case_match; [done|]. simpl. intros [= <- <-] Hnd Hin.
  set (keys := sharks_deal _ _ _ _) in *. set (shares := assemble _ _ _ _ _ _ _ _) in *.
  assert (length shares <= 255)%nat as Hl.
  { unfold shares, assemble. rewrite length_imap, length_zip_with.
    assert (length keys <= Z.to_nat (as_u8 (total_shards p)))%nat by apply Hdeal.
    assert (as_u8 (total_shards p) < 256) by (apply Z.mod_pos_bound; lia). lia. }
  split; [lia|]. unfold retrieve.
  assert (length sh <= length shares)%nat by (by apply submseteq_length, NoDup_submseteq).
  by rewrite (proj2 (Nat.ltb_lt _ _)) by lia.
Qed.

(** ** What is hashed determines what was meant *)

Lemma show_dec_notin c n : ~ (48 <= c <= 57) -> c ∉ show_dec (Z.of_nat n).
Proof.
  intros Hc Hin. pose proof (show_dec_ascii (Z.of_nat n) ltac:(lia)) as Ha.
  rewrite Forall_forall in Ha. apply Hc, Ha, Hin.
Qed.

(** The content identifier binds the parameters: the bytes hashed for a
    content under given shard counts never coincide with those hashed for
    another content or other counts, although no length or separator stands
    between content and parameters. *)
Theorem mid_input_injective (c1 c2 : bytes) (p1 p2 : DissolutionParams) :
  c1 ++ to_param_bytes p1 = c2 ++ to_param_bytes p2 -> c1 = c2 /\ p1 = p2.
Proof.
  destruct p1 as [k1 n1], p2 as [k2 n2]. unfold to_param_bytes; simpl data_shards; simpl total_shards.
  change (lit "k=") with ([107] ++ [61]). change (lit ",n=") with ([44] ++ [110; 61]).
  change (lit ",v=" ++ show_dec PROTOCOL_VERSION) with ([44] ++ [118; 61; 49]).
  rewrite <- !app_assoc. simpl. intros He.
  apply split_last_inj in He as [-> He].
  2,3: pose proof (show_dec_notin 107); set_solver by lia.
  split; [done|]. injection He as He.
  apply split_first_inj in He as [Hk He]; [|apply show_dec_notin; lia..].
  injection He as He. apply split_first_inj in He as [Hn _]; [|apply show_dec_notin; lia..].
  apply show_dec_inj in Hk, Hn; try lia. f_equal; lia.
Qed.

(** The machine widths of a share's fields. *)
Record share_widths (s : MiasmaShare) (mid : ContentId) : Prop := {
  sw_mid : length mid = 32%nat;
  sw_seg : in_u32 (segment_index s);
  sw_slot : in_u16 (slot_index s);
  sw_olen : in_u32 (original_len s);
  sw_shard : in_u64 (zlen (shard_data s));
  sw_key : in_u64 (zlen (key_share s));
  sw_nonce : length (nonce s) = NONCE_LEN;
}.

(** Peel one little-endian field off two equal encodings. *)
Lemma le_field_inj n v w (a b : bytes) :
  0 <= v < 256 ^ Z.of_nat n -> 0 <= w < 256 ^ Z.of_nat n ->
  le_bytes n v ++ a = le_bytes n w ++ b -> v = w /\ a = b.
Proof.
  intros Hv Hw He. apply app_inj_1 in He as [H1 H2]; [|by rewrite !le_bytes_length].
  split; [by apply (le_bytes_inj n)|done].
Qed.

(** The piece commitment binds everything that decides whether a piece can be
    used: two shares with the same committed bytes agree on version, content,
    segment, slot, original length, shard data, key share and nonce. *)
Theorem commitment_binds_share (s1 s2 : MiasmaShare) (mid1 mid2 : ContentId) :
  share_widths s1 mid1 -> share_widths s2 mid2 ->
  commitment_input s1 mid1 = commitment_input s2 mid2 ->
  mid1 = mid2 /\ version s1 = version s2 /\ segment_index s1 = segment_index s2 /\
  slot_index s1 = slot_index s2 /\ original_len s1 = original_len s2 /\
  shard_data s1 = shard_data s2 /\ key_share s1 = key_share s2 /\ nonce s1 = nonce s2.
Proof.
  intros [M1 A1 B1 C1 D1 E1 F1] [M2 A2 B2 C2 D2 E2 F2] He. unfold commitment_input in He.
  unfold in_uint, u16_max, u32_max, u64_max in *.
  apply app_inj_1 in He as [Hv He]; [|done]. injection Hv as Hv.
  apply app_inj_1 in He as [Hm He]; [|congruence].
  apply le_field_inj in He as [Hseg He]; [|simpl; lia..].
  apply le_field_inj in He as [Hslot He]; [|simpl; lia..].
  apply le_field_inj in He as [Holen He]; [|simpl; lia..].
  apply le_field_inj in He as [Hsl He]; [|simpl; lia..].
  apply app_inj_1 in He as [Hsd He]; [|unfold zlen in Hsl; lia].
  apply le_field_inj in He as [Hkl He]; [|simpl; lia..].
  apply app_inj_1 in He as [Hks He]; [|unfold zlen in Hkl; lia]. done.
Qed.

End Shares.
