(* ===== verification/Suite2.v ===== *)
(** * Suite2: object formats, associated data and version-2 segments

    Models [format/mod.rs], [format/aad.rs], [format/seal.rs] and the version-2
    half of [dissolution/segment.rs]: the suites and their version numbers, the
    49-byte associated data with its parser, the key schedule that binds it,
    and sealing and opening of a segment.  The [expect]s of sealing are panics
    of the model. *)

From S2P Require Import Prelude Bytes Text ErasureCode Dissolve.

(** ** Suites *)

Inductive FormatError := Newer (v : Z) | Unrepresentable.
Inductive ObjectSuite := Suite1 | Suite2.
Inductive AadLayout := NoAad | Msa2.

Record SuiteSpec := mkSpec {
  share_version : Z;
  manifest_version : Z;
  directed_envelope_version : Z;
  segment_key_label : bytes;
  name_key_label : bytes;
  aad_layout : AadLayout;
}.

Definition SPEC_SUITE1 : SuiteSpec :=
  mkSpec 1 3 1 (lit "miasma-seg-key-v1") (lit "miasma-name-key-v1") NoAad.
Definition SPEC_SUITE2 : SuiteSpec :=
  mkSpec 2 4 2 (lit "miasma-seg-key-v2") (lit "miasma-name-key-v2") Msa2.

Definition spec (s : ObjectSuite) : SuiteSpec :=
  match s with Suite1 => SPEC_SUITE1 | Suite2 => SPEC_SUITE2 end.

Definition suite_id (s : ObjectSuite) : Z := match s with Suite1 => 1 | Suite2 => 2 end.

Definition from_share_version (v : Z) : result ObjectSuite FormatError :=
  match v with 1 => Ok Suite1 | 2 => Ok Suite2 | other => Err (Newer other) end.
Definition from_manifest_version (v : Z) : result ObjectSuite FormatError :=
  match v with 3 => Ok Suite1 | 4 => Ok Suite2 | other => Err (Newer other) end.
Definition from_envelope_version (v : Z) : result ObjectSuite FormatError :=
  match v with 1 => Ok Suite1 | 2 => Ok Suite2 | other => Err (Newer other) end.
Definition from_id (v : Z) : result ObjectSuite FormatError :=
  match v with 1 => Ok Suite1 | 2 => Ok Suite2 | other => Err (Newer other) end.

Definition is_legacy (s : ObjectSuite) : bool := match s with Suite1 => true | Suite2 => false end.

(** ** Associated data *)

Definition AAD_LEN : nat := 49.
Definition AAD_MAGIC : bytes := lit "MSA2".

Inductive AadContext := TransferSegment | WholeFile | Directed.

Definition context_u8 (c : AadContext) : Z :=
  match c with TransferSegment => 1 | WholeFile => 2 | Directed => 3 end.

Definition context_from_u8 (v : Z) : result AadContext FormatError :=
  match v with
  | 1 => Ok TransferSegment
  | 2 => Ok WholeFile
  | 3 => Ok Directed
  | _ => Err Unrepresentable
  end.

Record SegmentAad := mkAad {
  a_suite : ObjectSuite;
  a_context : AadContext;
  a_mid : bytes;
  a_segment_index : Z;
  a_data_shards : Z;
  a_total_shards : Z;
  a_plaintext_len : Z;
}.

(** [SegmentAad::new]: the checked narrowing of the counts and the length. *)
Definition new_aad (su : ObjectSuite) (cx : AadContext) (mid : bytes) (seg : Z) (k n len : nat) :
  result SegmentAad FormatError :=
  if u8_max <? Z.of_nat k then Err Unrepresentable
  else if u8_max <? Z.of_nat n then Err Unrepresentable
  else if u32_max <? Z.of_nat len then Err Unrepresentable
  else Ok (mkAad su cx mid seg (Z.of_nat k) (Z.of_nat n) (Z.of_nat len)).

(** [encode_aad]: the fields in layout order, each at its fixed width. *)
Definition encode_aad (su : ObjectSuite) (context : Z) (mid : bytes) (seg k n len : Z) : bytes :=
  AAD_MAGIC ++ le_bytes 2 (suite_id su) ++ [context] ++ mid ++ le_bytes 4 seg ++ [k] ++ [n]
  ++ le_bytes 4 len.

Definition aad_encode (a : SegmentAad) : bytes :=
  encode_aad (a_suite a) (context_u8 (a_context a)) (a_mid a) (a_segment_index a)
    (a_data_shards a) (a_total_shards a) (a_plaintext_len a).

(** [SegmentAad::decode] of a buffer of [AAD_LEN] bytes. *)
Definition aad_decode (b : bytes) : result SegmentAad FormatError :=
  if negb (bool_decide (slice 0 4 b = AAD_MAGIC)) then Err Unrepresentable else
  let? su := from_id (from_le (slice 4 6 b)) in
  let? cx := context_from_u8 (from_le (slice 6 7 b)) in
  Ok (mkAad su cx (slice 7 39 b) (from_le (slice 39 43 b)) (from_le (slice 43 44 b))
        (from_le (slice 44 45 b)) (from_le (slice 45 49 b))).

Section Sealing.
Context `{Crypto} `{RSCodec}.

Definition LABEL_SEGMENT_KEY_V2 : bytes := lit "miasma-seg-key-v2".

(** The key schedule: HKDF under the password key, over the label and the
    associated data; an HKDF error is a panic. *)
Definition derive_segment_key_v2 (k_enc : bytes) (pw_key : option bytes) (aad : bytes) : outcome bytes :=
  match hkdf pw_key k_enc (LABEL_SEGMENT_KEY_V2 ++ aad) with Some k => Ret k | None => Panic end.

Definition seal_segment (k_enc nonce plaintext aad : bytes) (pw_key : option bytes) : outcome bytes :=
  let! key := derive_segment_key_v2 k_enc pw_key aad in
  match aead_seal key nonce aad plaintext with Some ct => Ret ct | None => Panic end.

Definition open_segment (k_enc nonce ciphertext aad : bytes) (pw_key : option bytes) : outcome (option bytes) :=
  let! key := derive_segment_key_v2 k_enc pw_key aad in
  Ret (aead_open key nonce aad ciphertext).

(** [dissolve_segment_v2_at]. *)
Definition dissolve_segment_v2_at (segment_data : bytes) (mid : bytes) (seg offset : Z)
    (params : DissolutionParams) (password_key : option bytes) (timestamp : Z) (c : coins) :
  outcome (result (SegmentMeta * list MiasmaShare) MiasmaError) :=
  match new_aad Suite2 TransferSegment mid seg (data_shards params) (total_shards params)
          (length segment_data) with
  | Err _ => Ret (Err Encryption)
  | Ok a =>
      match sss_split (c_key c) (c_shamir c) (as_u8 (data_shards params)) (as_u8 (total_shards params)) with
      | Err e => Ret (Err e)
      | Ok key_shares =>
          let! ciphertext := seal_segment (c_key c) (c_nonce c) segment_data (aad_encode a) password_key in
          Ret (let? shards := rs_encode ciphertext (data_shards params) (total_shards params) in
               Ok (mkMeta seg offset (as_u32 (length segment_data)) (as_u16 (total_shards params)),
                   assemble 2 mid seg shards key_shares (c_nonce c) (as_u32 (length segment_data))
                     timestamp))
      end
  end.

(** [retrieve_segment_v2]. *)
Definition retrieve_segment_v2 (mid : bytes) (shares : list MiasmaShare) (meta : SegmentMeta)
    (params : DissolutionParams) (password_key : option bytes) : outcome (result bytes MiasmaError) :=
  let k := data_shards params in
  let valid := List.filter (fun s => (segment_index s =? index meta) && coarse_verify s mid) shares in
  if (length valid <? k)%nat then Ret (Err (InsufficientShares k (length valid))) else
  match take k valid with
  | [] => Panic
  | (s0 :: _) as selected =>
      let ciphertext_len := (Z.to_nat (plaintext_len meta) + 16)%nat in
      match recover_selected selected params ciphertext_len with
      | Err e => Ret (Err e)
      | Ok (ciphertext, key) =>
          match new_aad Suite2 TransferSegment mid (index meta) k (total_shards params)
                  (Z.to_nat (plaintext_len meta)) with
          | Err _ => Ret (Err Decryption)
          | Ok a =>
              let! opened := open_segment key (nonce s0) ciphertext (aad_encode a) password_key in
              Ret (ok_or opened Decryption)
          end
      end
  end.

(** ** The associated data is canonical *)

Record aad_wf (a : SegmentAad) : Prop := {
  aw_mid : length (a_mid a) = 32%nat;
  aw_seg : in_u32 (a_segment_index a);
  aw_k : in_u8 (a_data_shards a);
  aw_n : in_u8 (a_total_shards a);
  aw_len : in_u32 (a_plaintext_len a);
}.

Lemma aad_fields su cx mid seg k n len :
  length mid = 32%nat ->
  let b := encode_aad su cx mid seg k n len in
  length b = AAD_LEN /\ slice 0 4 b = AAD_MAGIC /\ slice 4 6 b = le_bytes 2 (suite_id su) /\
  slice 6 7 b = [cx] /\ slice 7 39 b = mid /\ slice 39 43 b = le_bytes 4 seg /\
  slice 43 44 b = [k] /\ slice 44 45 b = [n] /\ slice 45 49 b = le_bytes 4 len.
Proof.
  intros Hm b. unfold b, encode_aad.
  assert (length AAD_MAGIC = 4%nat) as Hmag by done.
  split; [rewrite !length_app, !le_bytes_length, Hm; done|]. generalize dependent AAD_MAGIC. intros M HM.
  rewrite <- (app_nil_r (le_bytes 4 len)).
  split_and!; repeat (rewrite slice_skip by (rewrite ?le_bytes_length, ?Hm, ?HM; simpl; lia);
    rewrite ?le_bytes_length, ?Hm, ?HM; cbn [length Nat.sub]);
    apply slice_here; by rewrite ?le_bytes_length.
Qed.

Lemma aad_decode_encode a : aad_wf a -> aad_decode (aad_encode a) = Ok a.
Proof.
  intros [Hm Hs Hk Hn Hl]. unfold in_uint, u8_max, u32_max in *.
  destruct (aad_fields (a_suite a) (context_u8 (a_context a)) (a_mid a) (a_segment_index a)
    (a_data_shards a) (a_total_shards a) (a_plaintext_len a) Hm)
    as (_ & F0 & F1 & F2 & F3 & F4 & F5 & F6 & F7).
  unfold aad_decode, aad_encode. rewrite F0, F1, F2, F3, F4, F5, F6, F7.
  rewrite bool_decide_true by done. cbn [negb].
  assert (forall x, from_le [x] = x) as H1 by (intros x; unfold from_le, from_be; by destruct x).
  rewrite !H1, !from_le_le by (simpl; try lia; by destruct (a_suite a)).
  by destruct a as [[] []].
Qed.

(** The associated data of a segment is canonical: it is 49 bytes, parsing
    gives back the fields, and two segments with the same bytes agree on suite,
    use, content, position, shard counts and length, so a sealed segment cannot
    be presented as another one. *)
Theorem aad_canonical (a a' : SegmentAad) :
  aad_wf a -> aad_wf a' ->
  length (aad_encode a) = AAD_LEN /\ aad_decode (aad_encode a) = Ok a /\
  (aad_encode a = aad_encode a' -> a = a').
Proof.
  intros Ha Ha'. split_and!.
  - by apply aad_fields, aw_mid.
  - by apply aad_decode_encode.
  - intros He. assert (aad_decode (aad_encode a) = aad_decode (aad_encode a')) as Hd by congruence.
    rewrite !aad_decode_encode in Hd by done. congruence.
Qed.
(** ** Version-2 segments *)

Lemma dissolve_v2_inv d mid seg off p pw ts c meta shares :
  params_ok p -> dissolve_segment_v2_at d mid seg off p pw ts c = Ret (Ok (meta, shares)) ->
  index meta = seg /\ plaintext_len meta = Z.of_nat (length d) /\
  exists a key ct shards,
    new_aad Suite2 TransferSegment mid seg (data_shards p) (total_shards p) (length d) = Ok a /\
    derive_segment_key_v2 (c_key c) pw (aad_encode a) = Ret key /\
    aead_seal key (c_nonce c) (aad_encode a) d = Some ct /\
    rs_encode ct (data_shards p) (total_shards p) = Ok shards /\
    shares = full 2 p mid (c_key c) (c_shamir c) (c_nonce c) seg (as_u32 (length d)) ts shards.
Proof.
  intros Hp. unfold dissolve_segment_v2_at, seal_segment.
  destruct (new_aad _ _ _ _ _ _ _) as [a|] eqn:Ha; [|done]. rewrite sss_split_ok by done.
  destruct (derive_segment_key_v2 _ _ _) as [key|] eqn:Hk; [|done]. simpl.
  destruct (aead_seal _ _ _ _) as [ct|] eqn:Hs; [|done]. simpl. intros [= Hr]. revert Hr.
  destruct (rs_encode _ _ _) as [shards|] eqn:Hrs; [|done]. simpl. intros [= <- <-].
  split_and!; [done| |by exists a, key, ct, shards]. simpl. unfold as_u32. apply Z.mod_small.
  unfold new_aad, u32_max in Ha. repeat (case_match; try done). lia.
Qed.

(** C25. Version-2 round trip: a segment sealed under the suite-2 key schedule,
    with or without a password, opens to its plaintext from any [k] genuine
    shares: the reader rebuilds exactly the associated data and key the sealer
    bound. *)
Theorem segment_v2_roundtrip (d mid : bytes) (seg off : Z) (p : DissolutionParams)
    (pw : option bytes) (ts : Z) (c : coins) (meta : SegmentMeta) (shares sh : list MiasmaShare) :
  params_ok p -> primitives_ok p -> length (c_key c) = KEY_LEN ->
  dissolve_segment_v2_at d mid seg off p pw ts c = Ret (Ok (meta, shares)) ->
  enough p mid seg shares sh -> retrieve_segment_v2 mid sh meta p pw = Ret (Ok d).
Proof.
  intros Hp Hprim Hkey Hd (Hin & Hnd & Hk).
  destruct (dissolve_v2_inv _ _ _ _ _ _ _ _ _ _ Hp Hd)
    as (Hidx & Hpl & a & key & ct & shards & Haad & Hder & Hseal & Hrs & ->).
  destruct (po_aead p Hprim _ _ _ _ _ Hseal) as [Hopen Hct].
  destruct (selected_props _ sh _ (data_shards p) Hin Hnd Hk) as (Hsin & Hsnd & Hsl).
  pose proof (recover_selected_ok 2 p mid ct (c_key c) (c_shamir c) (c_nonce c) seg
    (as_u32 (length d)) ts shards Hp Hprim Hrs _ Hkey Hsin Hsnd Hsl) as Hrec.
  unfold retrieve_segment_v2. rewrite Hidx, Hpl, Nat2Z.id, <- Hct.
  change (fun s => (segment_index s =? seg) && coarse_verify s mid) with (usable mid seg).
  rewrite (proj2 (Nat.ltb_ge _ _)) by done.
  destruct (take (data_shards p) _) as [|s0 sel] eqn:Hsel.
  { destruct Hp as [[Hkp _] _]. simpl in Hsl. lia. }
  destruct (full_share 2 p mid ct (c_key c) (c_shamir c) (c_nonce c) seg (as_u32 (length d)) ts shards
    Hp Hprim Hrs s0 ltac:(apply Hsin; set_solver)) as (_ & _ & _ & _ & Hn & _).
  rewrite Hrec, Haad, Hn. unfold open_segment. rewrite Hder. simpl. by rewrite Hopen.
Qed.
End Sealing.
