(* ===== verification/Retrieval.v ===== *)
(** * Retrieval: collecting shares from holders

    Models [retrieval/fetch.rs] and [retrieval/coordinator.rs]: the acceptance
    of one fetched share, sequential and hedged collection, and the retrieval
    of a content from what was collected.  The share source is a parameter: the
    candidates it lists and the answer each fetch gives.  What the async runtime
    decides in the hedged path (whether the primary is slow, which of two
    requests finishes first) is a schedule the theorems quantify over. *)

From S2P Require Import Prelude Bytes Text ErasureCode Dissolve.

Section Retrieval.
Context `{Crypto} `{RSCodec} {Addr : Type}.
(** [ShareSource::fetch]. *)
Context (fetch : Addr -> result (option MiasmaShare) MiasmaError).

(** ** Policies *)

Inductive AnonymityPolicy := Direct | Opportunistic | Required (min_hops : Z).
Inductive FetchPolicy := Sequential | Hedged (delay_ms : Z).

Definition direct_network : FetchPolicy := Hedged 250.

Definition constrained_by (p : FetchPolicy) (a : AnonymityPolicy) : FetchPolicy :=
  match a with Direct => p | Opportunistic | Required _ => Sequential end.

Definition for_anonymity (a : AnonymityPolicy) : FetchPolicy := constrained_by direct_network a.

(** ** Accepting one share *)

(** The slots seen so far and the accepted shares. *)
Record collected := mkCollected { seen_slots : gset Z; valid : list MiasmaShare }.

Definition accept_share (r : result (option MiasmaShare) MiasmaError) (mid : bytes) (seg : Z)
    (c : collected) : result collected MiasmaError :=
  let? o := r in
  match o with
  | Some s =>
      if (segment_index s =? seg) && coarse_verify s mid
         && negb (bool_decide (slot_index s ∈ seen_slots c))
      then Ok (mkCollected ({[slot_index s]} ∪ seen_slots c) (valid c ++ [s]))
      else Ok c
  | None => Ok c
  end.

(** ** Sequential collection *)

Fixpoint collect_sequential (cands : list Addr) (mid : bytes) (seg : Z) (need : nat) (c : collected) :
  result (list MiasmaShare) MiasmaError :=
  match cands with
  | [] => Ok (valid c)
  | a :: rest =>
      if (need <=? length (valid c))%nat then Ok (valid c) else
      let? c' := accept_share (fetch a) mid seg c in
      collect_sequential rest mid seg need c'
  end.

(** ** Hedged collection *)

(** One decision of the runtime: the single outstanding request exceeds the
    delay, or the [i]-th outstanding request finishes next. *)
Record choice := mkChoice { timed_out : bool; finishes : nat }.

Record hedge := mkHedge {
  h_cands : list Addr;
  h_flight : list Addr;
  h_got : collected;
}.

(** Launch the next candidate, if there is one. *)
Definition launch (h : hedge) : hedge :=
  match h_cands h with
  | a :: rest => mkHedge rest (h_flight h ++ [a]) (h_got h)
  | [] => h
  end.

(** Remove the request that finishes; the index is taken modulo the number of
    outstanding requests. *)
Definition finish (flight : list Addr) (i : nat) : option (Addr * list Addr) :=
  let j := (i mod length flight)%nat in
  match flight !! j with
  | Some a => Some (a, delete j flight)
  | None => None
  end.

Inductive loop_step := Continue (h : hedge) | Done (r : result (list MiasmaShare) MiasmaError).

(** One turn of the hedged [while] loop. *)
Definition hedge_step (mid : bytes) (seg : Z) (need : nat) (ch : choice) (h : hedge) : loop_step :=
  if (need <=? length (valid (h_got h)))%nat || (length (h_flight h) =? 0)%nat
  then Done (Ok (valid (h_got h)))
  else if (length (h_flight h) =? 1)%nat && timed_out ch
          && negb (length (h_cands h) =? 0)%nat
  then Continue (launch h)
  else match finish (h_flight h) (finishes ch) with
  | None => Done (Ok (valid (h_got h)))
  | Some (a, flight') =>
      match accept_share (fetch a) mid seg (h_got h) with
      | Err e => Done (Err e)
      | Ok c =>
          let h' := mkHedge (h_cands h) flight' c in
          if (need <=? length (valid c))%nat then Done (Ok (valid c))
          else Continue (if (length flight' =? 0)%nat then launch h' else h')
      end
  end.

(** The loop; [None] only when the fuel runs out. *)
Fixpoint hedged_loop (fuel : nat) (mid : bytes) (seg : Z) (need : nat) (sched : nat -> choice) (h : hedge) :
  option (result (list MiasmaShare) MiasmaError) :=
  match fuel with
  | O => None
  | S f =>
      match hedge_step mid seg need (sched f) h with
      | Done r => Some r
      | Continue h' => hedged_loop f mid seg need sched h'
      end
  end.

(** Every turn launches a candidate or finishes a request. *)
Definition hedge_measure (h : hedge) : nat := (2 * length (h_cands h) + length (h_flight h))%nat.

Definition no_shares : collected := mkCollected ∅ [].

Definition collect_hedged (cands : list Addr) (mid : bytes) (seg : Z) (need : nat) (sched : nat -> choice) :
  option (result (list MiasmaShare) MiasmaError) :=
  hedged_loop (S (2 * length cands)) mid seg need sched (launch (mkHedge cands [] no_shares)).

Definition collect_verified_shares (cands : list Addr) (mid : bytes) (seg : Z) (need : nat)
    (policy : FetchPolicy) (sched : nat -> choice) : option (result (list MiasmaShare) MiasmaError) :=
  if (need =? 0)%nat then Some (Ok [])
  else match policy with
  | Sequential => Some (collect_sequential cands mid seg need no_shares)
  | Hedged _ => collect_hedged cands mid seg need sched
  end.

(** ** The coordinator *)

(** [collect_k_shares]: [cands] is the shuffled candidate list. *)
Definition collect_k_shares (cands : list Addr) (mid : bytes) (seg : Z) (p : DissolutionParams)
    (policy : FetchPolicy) (sched : nat -> choice) : option (result (list MiasmaShare) MiasmaError) :=
  if (length cands =? 0)%nat then Some (Err (InsufficientShares (data_shards p) 0)) else
  match collect_verified_shares cands mid seg (data_shards p) policy sched with
  | Some (Ok v) =>
      if (length v <? data_shards p)%nat then Some (Err (InsufficientShares (data_shards p) (length v)))
      else Some (Ok v)
  | o => o
  end.

(** [RetrievalCoordinator::retrieve]. *)
Definition coordinator_retrieve (cands : list Addr) (mid : bytes) (p : DissolutionParams)
    (policy : FetchPolicy) (sched : nat -> choice) : option (outcome (result bytes MiasmaError)) :=
  match collect_k_shares cands mid 0 p policy sched with
  | None => None
  | Some (Err e) => Some (Ret (Err e))
  | Some (Ok v) => Some (retrieve mid v p)
  end.

(** [retrieve_segments]: one segment after the other; reading the first share's
    metadata panics when no share was needed. *)
Fixpoint coordinator_segments (cands : nat -> list Addr) (mid : bytes) (p : DissolutionParams)
    (policy : FetchPolicy) (sched : nat -> nat -> choice) (i count : nat) :
  option (outcome (result bytes MiasmaError)) :=
  match count with
  | O => Some (Ret (Ok []))
  | S n =>
      match collect_k_shares (cands i) mid (as_u32 i) p policy (sched i) with
      | None => None
      | Some (Err e) => Some (Ret (Err e))
      | Some (Ok v) =>
          match v with
          | [] => Some Panic
          | s0 :: _ =>
              match retrieve_segment mid v (mkMeta (as_u32 i) 0 (original_len s0) (as_u16 (total_shards p))) p with
              | Ret (Ok d) =>
                  match coordinator_segments cands mid p policy sched (S i) n with
                  | Some (Ret (Ok ds)) => Some (Ret (Ok (d ++ ds)))
                  | o => o
                  end
              | o => Some o
              end
          end
      end
  end.

(** ** What collection guarantees *)

(** The state after the candidates in [done] have been answered. *)
Record collect_inv (mid : bytes) (seg : Z) (done : list Addr) (c : collected) : Prop := {
  ci_seen : forall x, x ∈ seen_slots c <-> x ∈ slot_index <$> valid c;
  ci_nodup : NoDup (slot_index <$> valid c);
  ci_valid : forall s, s ∈ valid c ->
    usable mid seg s = true /\ exists a, a ∈ done /\ fetch a = Ok (Some s);
  ci_done : forall a, a ∈ done -> exists o, fetch a = Ok o /\
    forall s, o = Some s -> usable mid seg s = true -> slot_index s ∈ slot_index <$> valid c;
}.

Lemma collect_inv_nil mid seg : collect_inv mid seg [] no_shares.
Proof. constructor; simpl; try set_solver. constructor. Qed.

(** Accepting one answer keeps the invariant and adds at most one share. *)
Lemma accept_inv mid seg done c a c' :
  collect_inv mid seg done c -> accept_share (fetch a) mid seg c = Ok c' ->
  collect_inv mid seg (a :: done) c' /\ (length (valid c') <= S (length (valid c)))%nat.
Proof.
  intros [I1 I2 I3 I4]. unfold accept_share. destruct (fetch a) as [o|] eqn:Hf; [|done]. simpl.
  destruct o as [s|].
  2:{ intros [= <-]. split; [|lia]. constructor; [done|done| |].
      - intros s Hs. destruct (I3 s Hs) as (? & a' & ? & ?). split; [done|]. exists a'. set_solver.
      - intros b [->|Hb]%elem_of_cons; [|by apply I4]. exists None. split; [done|]. by intros s [=]. }
  change ((segment_index s =? seg) && coarse_verify s mid) with (usable mid seg s).
  destruct (usable mid seg s) eqn:Hu; simpl; [case_bool_decide as Hin|]; simpl; intros [= <-];
    (split; [|simpl; rewrite ?length_app; simpl; lia]).
  - constructor; [done|done| |].
    + intros s' Hs. destruct (I3 s' Hs) as (? & a' & ? & ?). split; [done|]. exists a'. set_solver.
    + intros b [->|Hb]%elem_of_cons; [|by apply I4]. exists (Some s). split; [done|].
      intros s' [= <-] _. by apply I1.
  - constructor; simpl; rewrite ?fmap_app.
    + intros x. rewrite elem_of_union, I1, elem_of_app. set_solver.
    + apply NoDup_app. split_and!; [done| |apply NoDup_singleton].
      intros x Hx Hx'. simpl in Hx'. apply Hin, I1. set_solver.
    + intros s' [Hs| ->%list_elem_of_singleton]%elem_of_app.
      * destruct (I3 s' Hs) as (? & a' & ? & ?). split; [done|]. exists a'. set_solver.
      * split; [done|]. exists a. set_solver.
    + intros b [->|Hb]%elem_of_cons.
      * exists (Some s). split; [done|]. intros s' [= <-] _. set_solver.
      * destruct (I4 b Hb) as (o & Ho & Hs). exists o. split; [done|]. intros s' H1 H2.
        apply elem_of_app. left. eauto.
  - constructor; [done|done| |].
    + intros s' Hs. destruct (I3 s' Hs) as (? & a' & ? & ?). split; [done|]. exists a'. set_solver.
    + intros b [->|Hb]%elem_of_cons; [|by apply I4]. exists (Some s). split; [done|].
      intros s' [= <-]. by rewrite Hu.
Qed.

(** A collection over [all] that stopped because it had enough or because
    every candidate was answered. *)
Definition collects (mid : bytes) (seg : Z) (all : list Addr) (need : nat) (v : list MiasmaShare) : Prop :=
  exists done c, collect_inv mid seg done c /\ v = valid c /\ (length v <= need)%nat /\
    (forall a, a ∈ done -> a ∈ all) /\ (length v = need \/ forall a, a ∈ all -> a ∈ done).

Lemma accept_ok mid seg a c o : fetch a = Ok o -> exists c', accept_share (fetch a) mid seg c = Ok c'.
Proof. intros ->. unfold accept_share. simpl. destruct o; [case_match|]; eauto. Qed.

Lemma collect_sequential_spec mid seg need all cands done c :
  collect_inv mid seg done c -> (length (valid c) <= need)%nat ->
  (forall a, a ∈ all <-> a ∈ done \/ a ∈ cands) ->
  (forall v, collect_sequential cands mid seg need c = Ok v -> collects mid seg all need v) /\
  ((forall a, a ∈ cands -> exists o, fetch a = Ok o) ->
   exists v, collect_sequential cands mid seg need c = Ok v).
Proof.
  revert done c. induction cands as [|a cands IH]; intros done c Hinv Hle Hall; simpl.
  - split; [|eauto]. intros v [= <-]. exists done, c. split_and!; [done..| |]; [set_solver|right; set_solver].
  - destruct (need <=? length (valid c))%nat eqn:Hn.
    { apply Nat.leb_le in Hn. split; [|eauto]. intros v [= <-]. exists done, c.
      split_and!; [done..| |]; [set_solver|left; lia]. }
    apply Nat.leb_gt in Hn. split.
    + intros v. destruct (accept_share _ _ _ _) as [c'|] eqn:Ha; [|done]. simpl.
      destruct (accept_inv _ _ _ _ _ _ Hinv Ha) as [Hinv' Hl].
      apply (IH (a :: done) c' Hinv' ltac:(lia)). set_solver.
    + intros Hok. destruct (Hok a ltac:(set_solver)) as [o Ho].
      destruct (accept_ok mid seg a c o Ho) as [c' Ha]. rewrite Ha. simpl.
      destruct (accept_inv _ _ _ _ _ _ Hinv Ha) as [Hinv' Hl].
      apply (IH (a :: done) c' Hinv' ltac:(lia)); set_solver.
Qed.

(** ** The hedged loop *)

Record hedge_inv (mid : bytes) (seg : Z) (all : list Addr) (need : nat) (done : list Addr) (h : hedge) : Prop := {
  hi_got : collect_inv mid seg done (h_got h);
  hi_len : (length (valid (h_got h)) <= need)%nat;
  hi_all : forall a, a ∈ all <-> a ∈ done \/ a ∈ h_flight h \/ a ∈ h_cands h;
  hi_two : (length (h_flight h) <= 2)%nat;
  hi_busy : h_flight h = [] -> h_cands h = [];
}.

Lemma finish_spec flight i :
  flight <> [] -> exists a rest, finish flight i = Some (a, rest) /\
    length flight = S (length rest) /\ forall b, b ∈ flight <-> b = a \/ b ∈ rest.
Proof.
  intros Hne. unfold finish.
  assert (i mod length flight < length flight)%nat as Hlt
    by (apply Nat.mod_upper_bound; by destruct flight).
  destruct (lookup_lt_is_Some_2 flight _ Hlt) as [a Ha]. rewrite Ha. exists a, (delete (i mod length flight)%nat flight).
  split_and!; [done| |].
  - rewrite length_delete by eauto. lia.
  - pose proof (delete_Permutation flight _ a Ha) as Hp. intros b. split.
    + intros Hb. rewrite Hp in Hb. by apply elem_of_cons.
    + intros Hb. rewrite Hp. by apply elem_of_cons.
Qed.

(** Launching keeps the invariant except for its bound on the requests. *)
Lemma launch_facts h :
  (h_cands h <> [] -> hedge_measure (launch h) < hedge_measure h)%nat /\
  (hedge_measure (launch h) <= hedge_measure h)%nat /\ h_got (launch h) = h_got h /\
  (length (h_flight (launch h)) <= S (length (h_flight h)))%nat /\
  (forall a, a ∈ h_flight (launch h) \/ a ∈ h_cands (launch h) <-> a ∈ h_flight h \/ a ∈ h_cands h) /\
  (h_flight (launch h) = [] -> h_cands (launch h) = []).
Proof.
  unfold launch, hedge_measure. destruct (h_cands h) as [|a rest] eqn:Hc; simpl.
  - rewrite Hc. split_and!; try done; lia.
  - rewrite !length_app. simpl. split_and!; try lia; [done| |].
    + set_solver.
    + intros Hn. by destruct (h_flight h).
Qed.

Lemma launch_inv mid seg all need done h :
  hedge_inv mid seg all need done h \/
  (collect_inv mid seg done (h_got h) /\ (length (valid (h_got h)) <= need)%nat /\
   (forall a, a ∈ all <-> a ∈ done \/ a ∈ h_flight h \/ a ∈ h_cands h)) ->
  (length (h_flight h) <= 1)%nat -> hedge_inv mid seg all need done (launch h).
Proof.
  intros Hh Hl. destruct (launch_facts h) as (_ & _ & Hg & Hf & Hall & Hb).
  assert (collect_inv mid seg done (h_got h) /\ (length (valid (h_got h)) <= need)%nat /\
   (forall a, a ∈ all <-> a ∈ done \/ a ∈ h_flight h \/ a ∈ h_cands h)) as (H1 & H2 & H3)
    by (destruct Hh as [[]|]; done).
  constructor; rewrite ?Hg; [done|done| |lia|done].
  intros a. rewrite H3. specialize (Hall a). tauto.
Qed.

Lemma hedge_step_spec mid seg all need done ch h :
  hedge_inv mid seg all need done h ->
  match hedge_step mid seg need ch h with
  | Continue h' => (exists done', hedge_inv mid seg all need done' h') /\
                   (hedge_measure h' < hedge_measure h)%nat
  | Done (Ok v) => collects mid seg all need v
  | Done (Err e) => exists a, a ∈ all /\ fetch a = Err e
  end.
Proof.
  intros Hinv. pose proof Hinv as [I1 I2 I3 I4 I5]. unfold hedge_step.
  destruct (need <=? length (valid (h_got h)))%nat eqn:Hneed; simpl.
  { apply Nat.leb_le in Hneed. exists done, (h_got h). split_and!; [done..|set_solver|left; lia]. }
  apply Nat.leb_gt in Hneed. destruct (length (h_flight h) =? 0)%nat eqn:Hz.
  { apply Nat.eqb_eq, length_zero_iff_nil in Hz. specialize (I5 Hz).
    exists done, (h_got h). split_and!; [done..|set_solver|]. right. intros b Hb.
    apply I3 in Hb. rewrite Hz, I5 in Hb. destruct Hb as [|[Hb|Hb]]; [done|by inversion Hb..]. }
  apply Nat.eqb_neq in Hz.
  destruct ((length (h_flight h) =? 1)%nat && timed_out ch && negb (length (h_cands h) =? 0)%nat) eqn:Ht.
  { apply andb_true_iff in Ht as [[Ht _]%andb_true_iff Hc%negb_true_iff].
    apply Nat.eqb_eq in Ht. apply Nat.eqb_neq in Hc. split.
    - exists done. apply launch_inv; [by left|lia].
    - apply launch_facts. by destruct (h_cands h). }
  destruct (finish_spec (h_flight h) (finishes ch)) as (a & rest & -> & Hlen & Hmem);
    [by destruct (h_flight h)|].
  destruct (accept_share (fetch a) mid seg (h_got h)) as [c|e] eqn:Ha.
  2:{ exists a. split; [apply I3; right; left; by apply Hmem; left|].
      unfold accept_share in Ha. destruct (fetch a) as [o|e']; simpl in Ha; [|congruence].
      destruct o; [|done]. by case_match. }
  destruct (accept_inv _ _ _ _ _ _ I1 Ha) as [J1 J2].
  assert (forall b, b ∈ all <-> b ∈ a :: done \/ b ∈ rest \/ b ∈ h_cands h) as J3.
  { intros b. rewrite I3, Hmem, elem_of_cons. tauto. }
  destruct (need <=? length (valid c))%nat eqn:Hn2.
  { apply Nat.leb_le in Hn2. exists (a :: done), c. split_and!; [done..|lia|set_solver|left; lia]. }
  apply Nat.leb_gt in Hn2.
  assert (hedge_measure (mkHedge (h_cands h) rest c) < hedge_measure h)%nat as Hms
    by (unfold hedge_measure; simpl; lia).
  destruct (length rest =? 0)%nat eqn:Hr.
  - apply Nat.eqb_eq in Hr. split.
    + exists (a :: done). apply launch_inv; simpl; [right; split_and!; [done|lia|done]|lia].
    + pose proof (launch_facts (mkHedge (h_cands h) rest c)) as (_ & ? & _). lia.
  - apply Nat.eqb_neq in Hr. split; [|done]. exists (a :: done). constructor; simpl; [done|lia|done|lia|].
    intros ->. done.
Qed.

Lemma hedged_loop_spec mid seg all need sched fuel done h :
  hedge_inv mid seg all need done h -> (hedge_measure h < fuel)%nat ->
  match hedged_loop fuel mid seg need sched h with
  | None => False
  | Some (Ok v) => collects mid seg all need v
  | Some (Err e) => exists a, a ∈ all /\ fetch a = Err e
  end.
Proof.
  revert done h. induction fuel as [|f IH]; intros done h Hinv Hm; [lia|]. simpl.
  pose proof (hedge_step_spec mid seg all need done (sched f) h Hinv) as Hs.
  destruct (hedge_step _ _ _ _ _) as [h'|r]; [|by destruct r].
  destruct Hs as [[done' Hinv'] Hlt]. apply (IH done' h' Hinv'). lia.
Qed.

Lemma hedge_start mid seg need cands :
  hedge_inv mid seg cands need [] (launch (mkHedge cands [] no_shares)).
Proof.
  apply launch_inv; [|simpl; lia]. right. simpl. split_and!; [apply collect_inv_nil|lia|set_solver].
Qed.

(** ** Guarantees of both policies *)

(** Both policies end with a [collects], or with the error of some fetch. *)
Lemma collect_outcome cands mid seg need policy sched :
  (0 < need)%nat -> (forall a, a ∈ cands -> exists o, fetch a = Ok o) ->
  exists v, collect_verified_shares cands mid seg need policy sched = Some (Ok v) /\
    collects mid seg cands need v.
Proof.
  intros Hn Hok. unfold collect_verified_shares. rewrite (proj2 (Nat.eqb_neq _ _)) by lia.
  destruct policy as [|delay].
  - destruct (collect_sequential_spec mid seg need cands cands [] no_shares (collect_inv_nil mid seg)
      ltac:(simpl; lia) ltac:(set_solver)) as [Hs Hex].
    destruct (Hex Hok) as [v Hv]. exists v. split; [by rewrite Hv|by apply Hs].
  - pose proof (hedged_loop_spec mid seg cands need sched (S (2 * length cands)) [] _
      (hedge_start mid seg need cands)) as Hl. unfold collect_hedged.
    assert (hedge_measure (launch (mkHedge cands [] no_shares)) < S (2 * length cands))%nat as Hm.
    { pose proof (launch_facts (mkHedge cands [] no_shares)) as (_ & Hle & _).
      unfold hedge_measure in Hle at 2. simpl in Hle. lia. }
    specialize (Hl Hm). destruct (hedged_loop _ _ _ _ _ _) as [[v|e]|]; [by exists v| |done].
    destruct Hl as (a & Ha & He). destruct (Hok a Ha) as [o Ho]. congruence.
Qed.

(** With enough distinct slots on offer, a collection is full. *)
Lemma collects_full mid seg cands need v (slots : list Z) :
  collects mid seg cands need v -> NoDup slots -> (need <= length slots)%nat ->
  (forall x, x ∈ slots -> exists a s, a ∈ cands /\ fetch a = Ok (Some s) /\
     usable mid seg s = true /\ slot_index s = x) ->
  length v = need /\ NoDup (slot_index <$> v) /\
  (forall s, s ∈ v -> usable mid seg s = true /\ exists a, a ∈ cands /\ fetch a = Ok (Some s)).
Proof.
  intros (done & c & [I1 I2 I3 I4] & -> & Hle & Hsub & Hstop) Hnd Hlen Hslots. split_and!.
  - destruct Hstop as [|Hall]; [done|]. apply Nat.le_antisymm; [done|].
    etransitivity; [exact Hlen|]. rewrite <- (length_fmap slot_index (valid c)).
    apply submseteq_length, NoDup_submseteq; [done|]. intros x Hx.
    destruct (Hslots x Hx) as (a & s & Ha & Hf & Hu & <-).
    destruct (I4 a (Hall a Ha)) as (o & Ho & Hin). apply Hin; [congruence|done].
  - done.
  - intros s Hs. destruct (I3 s Hs) as (? & a & ? & ?). eauto.
Qed.

(** C28. Collection succeeds under every schedule: when every holder answers
    without an error (possibly with nothing or with garbage) and the answers
    cover at least [need] distinct slots with shares that pass the checks,
    then sequential and hedged collection alike return exactly [need]
    checked shares at distinct slots, whatever requests are slow and
    whichever finishes first. *)
Theorem collection_any_schedule (cands : list Addr) (mid : bytes) (seg : Z) (need : nat)
    (policy : FetchPolicy) (sched : nat -> choice) (slots : list Z) :
  (0 < need)%nat -> (forall a, a ∈ cands -> exists o, fetch a = Ok o) ->
  NoDup slots -> (need <= length slots)%nat ->
  (forall x, x ∈ slots -> exists a s, a ∈ cands /\ fetch a = Ok (Some s) /\
     usable mid seg s = true /\ slot_index s = x) ->
  exists v, collect_verified_shares cands mid seg need policy sched = Some (Ok v) /\
    length v = need /\ NoDup (slot_index <$> v) /\
    (forall s, s ∈ v -> usable mid seg s = true /\ exists a, a ∈ cands /\ fetch a = Ok (Some s)).
Proof.
  intros Hn Hok Hnd Hlen Hs.
  destruct (collect_outcome cands mid seg need policy sched Hn Hok) as (v & Hv & Hc).
  exists v. split; [done|]. by apply (collects_full mid seg cands need v slots).
Qed.

(** The states the hedged loop passes through. *)
Fixpoint hedged_states (fuel : nat) (mid : bytes) (seg : Z) (need : nat) (sched : nat -> choice) (h : hedge) :
  list hedge :=
  match fuel with
  | O => [h]
  | S f =>
      match hedge_step mid seg need (sched f) h with
      | Done _ => [h]
      | Continue h' => h :: hedged_states f mid seg need sched h'
      end
  end.

(** Hedging is bounded: under every schedule the hedged loop never has more
    than two requests outstanding and never holds more shares than needed, and
    a policy constrained by an anonymity requirement never hedges at all. *)
Theorem hedging_bounded (cands : list Addr) (mid : bytes) (seg : Z) (need fuel : nat)
    (sched : nat -> choice) (hops : Z) :
  Forall (fun h => (length (h_flight h) <= 2)%nat /\ (length (valid (h_got h)) <= need)%nat)
    (hedged_states fuel mid seg need sched (launch (mkHedge cands [] no_shares))) /\
  for_anonymity Opportunistic = Sequential /\ for_anonymity (Required hops) = Sequential.
Proof.
  split_and!; [|done|done].
  assert (forall done h, hedge_inv mid seg cands need done h ->
    Forall (fun h => (length (h_flight h) <= 2)%nat /\ (length (valid (h_got h)) <= need)%nat)
      (hedged_states fuel mid seg need sched h)) as Hgen.
  { induction fuel as [|f IH]; intros done h Hinv; simpl; pose proof Hinv as [? ? ? ? ?];
      [by apply Forall_singleton|].
    pose proof (hedge_step_spec mid seg cands need done (sched f) h Hinv) as Hs.
    destruct (hedge_step _ _ _ _ _) as [h'|r]; [|by apply Forall_singleton].
    destruct Hs as [[done' Hinv'] _]. constructor; [done|eauto]. }
  apply (Hgen []), hedge_start.
Qed.

(** C2. End to end: dissolve a content of one segment and spread its shares
    over holders none of whom answers with an error; each returns nothing,
    something the coarse checks reject, or a genuine share of this
    dissolution, and the genuine ones cover at least [k] distinct slots.
    Then the coordinator returns the content, for every order of the
    candidates, under both policies and every schedule. (One holder's error
    ends the collection, and one forged share that passes the coarse checks
    can defeat the retrieval; both are excluded here.) *)
Theorem network_retrieval_succeeds (pt : bytes) (p : DissolutionParams) (ts : Z) (c : coins)
    (mid : bytes) (shares : list MiasmaShare) (cands : list Addr) (policy : FetchPolicy)
    (sched : nat -> choice) (slots : list Z) :
  params_ok p -> primitives_ok p -> length (c_key c) = KEY_LEN -> zlen pt < 4294967296 ->
  dissolve_at pt p ts c = Ok (mid, shares) ->
  (forall a, a ∈ cands -> exists o, fetch a = Ok o /\
     forall s, o = Some s -> usable mid 0 s = true -> s ∈ shares) ->
  NoDup slots -> (data_shards p <= length slots)%nat ->
  (forall x, x ∈ slots -> exists a s, a ∈ cands /\ fetch a = Ok (Some s) /\
     usable mid 0 s = true /\ slot_index s = x) ->
  coordinator_retrieve cands mid p policy sched = Some (Ret (Ok pt)).
Proof.
  intros Hp Hprim Hkey Hpt Hd Hsrc Hnd Hlen Hslots. pose proof Hp as [[Hk _] _].
  destruct (collect_outcome cands mid 0 (data_shards p) policy sched Hk) as (v & Hv & Hc).
  { intros a Ha. destruct (Hsrc a Ha) as (o & Ho & _). eauto. }
  destruct (collects_full mid 0 cands _ v slots Hc Hnd Hlen Hslots) as (Hvl & Hvnd & Hvs).
  assert (forall s, s ∈ v -> coarse_verify s mid = true /\ s ∈ shares) as Hgood.
  { intros s Hs. destruct (Hvs s Hs) as (Hu & a & Ha & Hf).
    destruct (Hsrc a Ha) as (o & Ho & Hin). split; [by apply andb_true_iff in Hu as [_ ?]|].
    apply Hin; [congruence|done]. }
  assert (List.filter (fun s => coarse_verify s mid) v = v) as Hfv.
  { apply forallb_filter_id, forallb_forall. intros s Hs%list_elem_of_In. by apply Hgood. }
  unfold coordinator_retrieve, collect_k_shares. rewrite (proj2 (Nat.eqb_neq _ _)).
  2:{ destruct cands; [|done]. destruct slots as [|x slots]; [simpl in *; lia|].
      destruct (Hslots x ltac:(set_solver)) as (a & _ & Ha & _). by inversion Ha. }
  rewrite Hv, (proj2 (Nat.ltb_ge _ _)) by lia. f_equal.
  apply (any_k_shares_retrieve_lemma pt p ts c mid shares v); try done.
  - intros s Hs _. by apply Hgood.
  - by rewrite Hfv.
  - rewrite Hfv. lia.
Qed.

End Retrieval.
