(* ===== verification/Toy.v ===== *)
(** * Toy: concrete primitives for the examples

    Instances of the parameters of [ErasureCode] and [Dissolve] for which their
    hypotheses hold at two data shards and one recovery shard: exclusive-or
    parity, and transparent stand-ins for the cipher, the hash and the secret
    sharing.  They show that the hypotheses of the theorems can be met, and the
    examples evaluate the model on them. *)

From S2P Require Import Prelude Bytes Text ErasureCode Dissolve Suite2 Retrieval.

Definition xor_bytes (a b : bytes) : bytes := zip_with Z.lxor a b.

#[export] Instance toy_codec : RSCodec := {
  codec_encode k m len originals :=
    match k, m, originals with
    | 2%nat, 1%nat, [a; b] => Some [xor_bytes a b]
    | _, _, _ => Some (replicate m (replicate len 0))
    end;
  codec_decode k m len om rm :=
    match om !! 0%nat, om !! 1%nat, rm !! 0%nat with
    | None, Some b, Some r => Some {[0%nat := xor_bytes b r]}
    | Some a, None, Some r => Some {[1%nat := xor_bytes a r]}
    | _, _, _ => Some ∅
    end;
  iter_order l := l;
}.

#[export] Instance toy_crypto : Crypto := {
  blake3 data := take 32 (data ++ replicate 32 0);
  blake3_derive ctx data := ctx ++ data;
  aead_seal key nonce aad pt := Some (pt ++ replicate 16 0);
  aead_open key nonce aad ct := Some (take (length ct - 16) ct);
  hkdf salt ikm info := Some (take 32 (default [] salt ++ ikm ++ info));
  sharks_deal k secret coins n := (fun i => Z.of_nat i :: secret) <$> seq 0 n;
  sharks_recover k shares := match shares with (_ :: s) :: _ => Some s | _ => None end;
}.

Lemma xor_bytes_length a b : length a = length b -> length (xor_bytes a b) = length b.
Proof. intros Hl. unfold xor_bytes. rewrite length_zip_with. lia. Qed.

(** Adding the parity to one shard gives the other. *)
Lemma xor_bytes_cancel a b : length a = length b -> xor_bytes a (xor_bytes a b) = b.
Proof.
  unfold xor_bytes. revert b. induction a as [|x a IH]; intros [|y b] Hl; simplify_eq/=; [done|].
  rewrite IH by done. f_equal. rewrite <- Z.lxor_assoc, Z.lxor_nilpotent. apply Z.lxor_0_l.
Qed.

Lemma xor_bytes_comm a b : xor_bytes a b = xor_bytes b a.
Proof.
  unfold xor_bytes. revert b. induction a as [|x a IH]; intros [|y b]; simpl; try done.
  by rewrite IH, Z.lxor_comm.
Qed.

(** A map whose indices all lie in a list has at most that many entries. *)
Lemma size_le_indices (m : gmap nat bytes) (idx : list nat) :
  (forall i s, m !! i = Some s -> i ∈ idx) -> (size m <= length idx)%nat.
Proof.
  intros Hin. rewrite <- size_dom. unfold size, set_size; simpl.
  apply submseteq_length, NoDup_submseteq; [apply NoDup_elements|].
  intros i [s Hi]%elem_of_elements%elem_of_dom. eauto.
Qed.

(** When an original is missing, the parity must have been supplied. *)
Lemma parity_present (a b : bytes) (om rm : gmap nat bytes) (j : nat) :
  (forall i s, om !! i = Some s -> [a; b] !! i = Some s) ->
  (forall i s, rm !! i = Some s -> [xor_bytes a b] !! i = Some s) ->
  (2 <= size om + size rm)%nat -> (j < 2)%nat -> om !! j = None ->
  rm !! 0%nat = Some (xor_bytes a b) /\ om !! (1 - j)%nat = [a; b] !! (1 - j)%nat.
Proof.
  intros Hom Hrm Hsz Hj Hn.
  assert (forall i s, om !! i = Some s -> i = (1 - j)%nat) as Ho.
  { intros i s Hi. pose proof (Hom _ _ Hi) as Hlt%lookup_lt_Some. simpl in Hlt.
    destruct (decide (i = j)) as [->|]; [congruence|lia]. }
  assert (forall i s, rm !! i = Some s -> i = 0%nat) as Hr
    by (intros i s Hi%Hrm%lookup_lt_Some; simpl in Hi; lia).
  assert (size om <= 1)%nat by (apply (size_le_indices om [(1 - j)%nat]); set_solver).
  assert (size rm <= 1)%nat by (apply (size_le_indices rm [0%nat]); set_solver).
  split.
  - destruct (rm !! 0%nat) as [r|] eqn:K0; [by apply Hrm in K0|].
    assert (size rm <= 0)%nat; [|lia]. apply (size_le_indices rm []). intros i s Hi.
    pose proof (Hr _ _ Hi) as ->. congruence.
  - destruct (om !! (1 - j)%nat) as [s|] eqn:K1; [symmetry; by apply Hom|].
    assert (size om <= 0)%nat; [|lia]. apply (size_le_indices om []). intros i s Hi.
    pose proof (Ho _ _ Hi) as ->. congruence.
Qed.

Lemma toy_codec_correct : codec_correct 2 1.
Proof.
  intros len originals Hpos _ Hl Hall. destruct originals as [|a [|b [|]]]; try done. clear Hl.
  apply Forall_cons in Hall as [Ha Hb]. rewrite Forall_singleton in Hb.
  exists [xor_bytes a b]. split_and!; [done|done| |].
  { apply Forall_singleton. rewrite xor_bytes_length; congruence. }
  intros om rm Hom Hrm Hsz. simpl.
  destruct (om !! 0%nat) as [a'|] eqn:H0; [destruct (om !! 1%nat) as [b'|] eqn:H1|].
  - eexists. split; [done|]. intros [|[|i]] s Hn Hs; simplify_eq/=; congruence.
  - destruct (parity_present a b om rm 1 Hom Hrm Hsz ltac:(lia) H1) as [-> _].
    pose proof (Hom _ _ H0) as [= <-]. eexists. split; [done|].
    intros [|[|i]] s Hn Hs; simplify_eq/=. by rewrite xor_bytes_cancel by congruence.
  - destruct (parity_present a b om rm 0 Hom Hrm Hsz ltac:(lia) H0) as [-> H1].
    simpl in H1. rewrite H1. eexists. split; [done|].
    intros [|[|i]] s Hn Hs; simplify_eq/=.
    by rewrite (xor_bytes_comm s), xor_bytes_cancel by congruence.
Qed.

Lemma toy_primitives : primitives_ok (mkParams 2 3).
Proof.
  constructor; simpl.
  - intros key nonce aad pt ct [= <-]. simpl. rewrite !length_app. simpl. split; [|done].
    f_equal. by rewrite Nat.add_sub, take_app_length.
  - intros secret cs. split; [done|]. intros idx shares _ Hle Hf.
    destruct Hf as [|i s idx shares Hi _]; [simpl in *; lia|]. simpl.
    unfold sharks_deal in Hi; simpl in Hi. by destruct i as [|[|[|i]]]; simplify_eq/=.
  - intros _. apply toy_codec_correct.
  - intros l. done.
Qed.

(** ** Examples *)

Definition toy_params : DissolutionParams := mkParams 2 3.
Definition toy_text : bytes := [7; 11; 13; 17; 19].
Definition toy_coins : coins := mkCoins (replicate 32 5) (replicate 12 6) [].
Definition toy_mid : bytes := compute toy_text (to_param_bytes toy_params).
Definition toy_shares : list MiasmaShare :=
  match dissolve_at toy_text toy_params 1000 toy_coins with Ok (_, s) => s | Err _ => [] end.

(** A share of other data that claims the same content. *)
Definition toy_forgery : MiasmaShare :=
  mkShare 1 (prefix toy_mid) 0 0 [1; 2] [0] [9] (replicate 12 6) 5 1000.

(** The last two shares in reverse order, and a forgery between them. *)
Definition toy_mix : list MiasmaShare :=
  match toy_shares with [_; s1; s2] => [s2; toy_forgery; s1] | _ => [] end.

Lemma toy_params_ok : params_ok toy_params.
Proof. unfold params_ok; simpl; lia. Qed.

Lemma any_k_shares_retrieve_witness : retrieve toy_mid toy_mix toy_params = Ret (Ok toy_text).
Proof.
  apply (any_k_shares_retrieve toy_text toy_params 1000 toy_coins toy_mid toy_shares toy_mix).
  - exact toy_params_ok.
  - exact toy_primitives.
  - reflexivity.
  - vm_compute. reflexivity.
  - vm_compute. reflexivity.
  - intros s Hs Hv. assert (s = toy_forgery \/ s ∈ toy_shares) as [->|]; [|vm_compute in Hv; discriminate|done].
    unfold toy_mix in Hs. destruct toy_shares as [|s0 [|s1 [|s2 [|]]]]; set_solver.
  - apply (bool_decide_unpack _). vm_compute. exact I.
  - vm_compute. lia.
Defined.

Lemma retrieved_content_matches_mid_witness :
  retrieve toy_mid toy_mix toy_params = Ret (Ok toy_text) /\
  compute toy_text (to_param_bytes toy_params) = toy_mid.
Proof.
  split; [vm_compute; reflexivity|].
  apply (proj1 (retrieved_content_matches_mid toy_mid toy_mix toy_params
    (mkManifest 1 toy_mid toy_params 5 5 [] 0) toy_text)).
  vm_compute. reflexivity.
Defined.

(** A file of two segments; the shares of both are interleaved. *)
Definition toy_file : option (DissolutionManifest * list (list MiasmaShare)) :=
  match dissolve_file toy_text toy_params 3 (fun _ => toy_coins) (fun _ => 0) 0 with
  | Ok r => Some r
  | Err _ => None
  end.
Definition toy_manifest : DissolutionManifest :=
  default (mkManifest 0 [] toy_params 0 0 [] 0) (fst <$> toy_file).
Definition toy_segments : list (list MiasmaShare) := default [] (snd <$> toy_file).
Definition toy_pool : list MiasmaShare :=
  match toy_segments with
  | [[_; a1; a2]; [b0; _; b2]] => [b2; a1; b0; a2]
  | _ => []
  end.

Lemma enough_decide p mid seg shares sh :
  forallb (fun s => negb (usable mid seg s) || bool_decide (s ∈ shares)) sh = true ->
  NoDup (slot_index <$> List.filter (usable mid seg) sh) ->
  (data_shards p <= length (List.filter (usable mid seg) sh))%nat ->
  enough p mid seg shares sh.
Proof.
  intros Hf Hnd Hl. split_and!; [|done|done]. intros s [Hs Hu]%list_elem_of_In%filter_In.
  rewrite forallb_forall in Hf. specialize (Hf s Hs). rewrite Hu in Hf. simpl in Hf.
  by apply bool_decide_eq_true in Hf.
Qed.

Lemma toy_pool_enough i shares :
  toy_segments !! i = Some shares -> enough toy_params (m_mid toy_manifest) (Z.of_nat i) shares toy_pool.
Proof.
  assert (exists a b, toy_segments = [a; b] /\
    enough toy_params (m_mid toy_manifest) 0 a toy_pool /\
    enough toy_params (m_mid toy_manifest) 1 b toy_pool) as (a & b & -> & Ha & Hb).
  { eexists _, _. split; [vm_compute; reflexivity|]. split; apply enough_decide;
      try (vm_compute; reflexivity); try (vm_compute; lia);
      apply (bool_decide_unpack _); vm_compute; exact I. }
  destruct i as [|[|i]]; intros [= <-]; done.
Qed.

Lemma file_roundtrip_witness : retrieve_file toy_manifest toy_pool = Ret (Ok toy_text).
Proof.
  apply (file_roundtrip toy_text toy_params 3 (fun _ => toy_coins) (fun _ => 0) 0
           toy_manifest toy_segments toy_pool).
  - exact toy_params_ok.
  - exact toy_primitives.
  - reflexivity.
  - vm_compute. split; reflexivity.
  - vm_compute. discriminate.
  - vm_compute. reflexivity.
  - exact toy_pool_enough.
Defined.

(** 266 of 276 shares: the casts leave 10 of 20. *)
Lemma wide_params_lose_content_witness :
  match dissolve_at toy_text (mkParams 266 276) 0 toy_coins with
  | Ok (mid, shares) =>
      length shares = 20%nat /\
      retrieve mid shares (mkParams 266 276) = Ret (Err (InsufficientShares 266 (length shares)))
  | Err _ => False
  end.
Proof.
  destruct (dissolve_at toy_text (mkParams 266 276) 0 toy_coins) as [[mid shares]|] eqn:Hd;
    [|vm_compute in Hd; discriminate].
  assert (length shares = 20%nat) as Hl by (vm_compute in Hd; by simplify_eq).
  assert (bool_decide (NoDup (slot_index <$> shares)) = true) as Hnd%bool_decide_eq_true
    by (vm_compute in Hd; by simplify_eq).
  split; [exact Hl|].
  refine (proj2 (wide_params_lose_content toy_text (mkParams 266 276) 0 toy_coins mid shares shares
    _ _ Hd _ _)).
  - intros. simpl. by rewrite length_fmap, length_seq.
  - simpl. lia.
  - by apply NoDup_fmap_1 in Hnd.
  - done.
Defined.

Lemma mid_input_injective_witness :
  compute toy_text (to_param_bytes toy_params) = compute toy_text (to_param_bytes toy_params) /\
  toy_text = toy_text /\ toy_params = toy_params.
Proof.
  split; [reflexivity|].
  apply (mid_input_injective toy_text toy_text toy_params toy_params). reflexivity.
Defined.

Lemma commitment_binds_share_witness :
  match toy_shares with s :: _ => key_share s = key_share s | [] => False end.
Proof.
  destruct toy_shares as [|s rest] eqn:Hs; [vm_compute in Hs; discriminate|].
  assert (share_widths s toy_mid) as Hw.
  { vm_compute in Hs. simplify_eq. constructor; vm_compute; try split; try reflexivity; discriminate. }
  apply (commitment_binds_share s s toy_mid toy_mid Hw Hw). reflexivity.
Defined.

(** ** Retrieval examples *)

(** Four holders: an empty one, a forger, and two with genuine shares. *)
Definition toy_fetch (a : Z) : result (option MiasmaShare) MiasmaError :=
  Ok (match a with
      | 1 => Some toy_forgery
      | 2 => toy_shares !! 2%nat
      | 3 => toy_shares !! 1%nat
      | _ => None
      end).
Definition toy_holders : list Z := [0; 1; 2; 3].

(** The first request is always slow, then the second one finishes first. *)
Definition toy_schedule (_ : nat) : choice := mkChoice true 1.

Lemma toy_slots_offered x :
  x ∈ [1; 2] -> exists a s, a ∈ toy_holders /\ toy_fetch a = Ok (Some s) /\
    usable toy_mid 0 s = true /\ slot_index s = x.
Proof.
  intros [->|[->|[]%not_elem_of_nil]%elem_of_cons]%elem_of_cons.
  - exists 3. eexists. split; [set_solver|]. vm_compute. repeat split.
  - exists 2. eexists. split; [set_solver|]. vm_compute. repeat split.
Qed.

Lemma collection_any_schedule_witness :
  exists v, collect_verified_shares toy_fetch toy_holders toy_mid 0 2 direct_network toy_schedule
            = Some (Ok v) /\ length v = 2%nat.
Proof.
  destruct (collection_any_schedule toy_fetch toy_holders toy_mid 0 2 direct_network toy_schedule [1; 2])
    as (v & Hv & Hl & _).
  - lia.
  - intros a _. eexists. reflexivity.
  - apply (bool_decide_unpack _). vm_compute. exact I.
  - simpl. lia.
  - exact toy_slots_offered.
  - exists v. split; [exact Hv|exact Hl].
Defined.

Lemma toy_holders_honest a :
  a ∈ toy_holders -> exists o, toy_fetch a = Ok o /\
    forall s, o = Some s -> usable toy_mid 0 s = true -> s ∈ toy_shares.
Proof.
  intros Ha. eexists. split; [reflexivity|]. intros s.
  assert (a = 0 \/ a = 1 \/ a = 2 \/ a = 3) as [->|[->|[->| ->]]] by set_solver.
  - done.
  - intros [= <-] Hu. vm_compute in Hu. discriminate.
  - intros Hs _. apply list_elem_of_lookup. eauto.
  - intros Hs _. apply list_elem_of_lookup. eauto.
Qed.

Lemma network_retrieval_succeeds_witness :
  coordinator_retrieve toy_fetch toy_holders toy_mid toy_params direct_network toy_schedule
  = Some (Ret (Ok toy_text)).
Proof.
  apply (network_retrieval_succeeds toy_fetch toy_text toy_params 1000 toy_coins toy_mid toy_shares
           toy_holders direct_network toy_schedule [1; 2]).
  - exact toy_params_ok.
  - exact toy_primitives.
  - reflexivity.
  - vm_compute. reflexivity.
  - vm_compute. reflexivity.
  - exact toy_holders_honest.
  - apply (bool_decide_unpack _). vm_compute. exact I.
  - simpl. lia.
  - exact toy_slots_offered.
Defined.

(** ** A password-protected version-2 segment *)

Definition toy_v2 : option (SegmentMeta * list MiasmaShare) :=
  match dissolve_segment_v2_at toy_text toy_mid 4 0 toy_params (Some (replicate 32 9)) 0 toy_coins with
  | Ret (Ok r) => Some r
  | _ => None
  end.
Definition toy_v2_meta : SegmentMeta := default (mkMeta 0 0 0 0) (fst <$> toy_v2).
Definition toy_v2_shares : list MiasmaShare := default [] (snd <$> toy_v2).

Lemma segment_v2_roundtrip_witness :
  retrieve_segment_v2 toy_mid (reverse (drop 1 toy_v2_shares)) toy_v2_meta toy_params
    (Some (replicate 32 9)) = Ret (Ok toy_text).
Proof.
  apply (segment_v2_roundtrip toy_text toy_mid 4 0 toy_params (Some (replicate 32 9)) 0 toy_coins
           toy_v2_meta toy_v2_shares).
  - exact toy_params_ok.
  - exact toy_primitives.
  - reflexivity.
  - vm_compute. reflexivity.
  - apply enough_decide; try (vm_compute; reflexivity); try (vm_compute; lia).
    apply (bool_decide_unpack _). vm_compute. exact I.
Defined.

Lemma aad_canonical_witness :
  aad_decode (aad_encode (mkAad Suite2 Directed (replicate 32 1) 7 10 20 1000))
  = Ok (mkAad Suite2 Directed (replicate 32 1) 7 10 20 1000).
Proof.
  assert (aad_wf (mkAad Suite2 Directed (replicate 32 1) 7 10 20 1000)) as Hw
    by (constructor; vm_compute; try split; try reflexivity; discriminate).
  exact (proj1 (proj2 (aad_canonical _ _ Hw Hw))).
Defined.
