(* ===== verification/Fragment.v ===== *)
(** * Fragment: handshake fragment framing and bounded reassembly

    Models [protocol/fragment.rs]: the big-endian frame with its strict
    decoder, the splitter, and the reassembler with its limits.  The clock is an
    argument of every operation, as in the source.  An out-of-range slot index
    and the two [expect]s of [push] are panics of the model. *)

From S2P Require Import Prelude Bytes.

(** ** Frames *)

Definition FRAGMENT_VERSION : Z := 1.
Definition HEADER_LEN : nat := 23.
Definition ABS_MAX_TOTAL_LEN : Z := 1048576.
Definition ABS_MAX_FRAGMENTS : Z := 1024.

Inductive FragmentError :=
| Truncated | UnsupportedVersion (v : Z) | ZeroCount | IndexOutOfRange (index count : Z)
| BadTotalLen | BadPayloadLen | TooManyFragments | TrailingBytes | Conflict
| TooManyHandshakes | Overflow | LengthMismatch.

Record HandshakeFragment := mkFragment {
  version : Z;
  handshake_id : Z;
  suite : Z;
  fragment_index : Z;
  fragment_count : Z;
  total_len : Z;
  payload : list Z;
}.

Definition encode (f : HandshakeFragment) : list Z :=
  [version f] ++ be_bytes 8 (handshake_id f) ++ be_bytes 2 (suite f)
  ++ be_bytes 2 (fragment_index f) ++ be_bytes 2 (fragment_count f)
  ++ be_bytes 4 (total_len f) ++ be_bytes 4 (zlen (payload f)) ++ payload f.

Definition decode (buf : list Z) : result HandshakeFragment FragmentError :=
  if (length buf <? HEADER_LEN)%nat then Err Truncated else
  let v := from_be (slice 0 1 buf) in
  if negb (v =? FRAGMENT_VERSION) then Err (UnsupportedVersion v) else
  let hid := from_be (slice 1 9 buf) in
  let su := from_be (slice 9 11 buf) in
  let idx := from_be (slice 11 13 buf) in
  let cnt := from_be (slice 13 15 buf) in
  let tot := from_be (slice 15 19 buf) in
  let plen := from_be (slice 19 23 buf) in
  if cnt =? 0 then Err ZeroCount
  else if ABS_MAX_FRAGMENTS <? cnt then Err TooManyFragments
  else if cnt <=? idx then Err (IndexOutOfRange idx cnt)
  else if (tot =? 0) || (ABS_MAX_TOTAL_LEN <? tot) then Err BadTotalLen
  else if (plen =? 0) || (tot <? plen) then Err BadPayloadLen
  else if tot <? cnt then Err BadTotalLen
  else
    let body := drop HEADER_LEN buf in
    if zlen body <? plen then Err Truncated
    else if plen <? zlen body then Err TrailingBytes
    else Ok (mkFragment v hid su idx cnt tot body).

(** [fragment]: split [data] into frames of at most [max_payload] bytes. *)
Definition fragment (hid su : Z) (data : list Z) (max_payload : Z) :
  result (list HandshakeFragment) FragmentError :=
  if (zlen data =? 0) || (ABS_MAX_TOTAL_LEN <? zlen data) then Err BadTotalLen
  else if max_payload =? 0 then Err BadPayloadLen
  else
    let count := (zlen data + max_payload - 1) / max_payload in
    if ABS_MAX_FRAGMENTS <? count then Err TooManyFragments
    else Ok (imap (fun i c => mkFragment FRAGMENT_VERSION hid su (Z.of_nat i) count (zlen data) c)
               (chunks (Z.to_nat max_payload) data)).

(** ** Reassembly *)

Record ReassemblyLimits := mkLimits {
  max_total_len : Z;
  max_fragments : Z;
  max_concurrent : Z;
  timeout_ms : Z;
}.

Definition default_limits : ReassemblyLimits := mkLimits 65536 64 16 10000.

Inductive PushOutcome :=
| Pending
| Duplicate
| Complete (hid su : Z) (data : list Z).

Record Entry := mkEntry {
  e_suite : Z;
  e_count : Z;
  e_total_len : Z;
  started_ms : Z;
  received : Z;
  received_bytes : Z;
  slots : list (option (list Z));
}.

Record Reassembler := mkReassembler {
  limits : ReassemblyLimits;
  entries : gmap Z Entry;
}.

Definition new (l : ReassemblyLimits) : Reassembler := mkReassembler l ∅.

Definition set_entries (r : Reassembler) (m : gmap Z Entry) : Reassembler :=
  mkReassembler (limits r) m.

Definition in_progress (r : Reassembler) : Z := Z.of_nat (size (entries r)).

Definition live_entry (r : Reassembler) (now_ms : Z) (e : Entry) : bool :=
  sat_sub now_ms (started_ms e) <? timeout_ms (limits r).

(** [expire]: drop the handshakes older than the timeout. *)
Definition expire (r : Reassembler) (now_ms : Z) : Reassembler * Z :=
  let r' := set_entries r (filter (fun kv => live_entry r now_ms kv.2 = true) (entries r)) in
  (r', in_progress r - in_progress r').

Definition discard (r : Reassembler) (hid : Z) : Reassembler * bool :=
  (set_entries r (delete hid (entries r)), bool_decide (is_Some (entries r !! hid))).

(** The checks [push] repeats on a fragment that was not decoded. *)
Definition push_guard (l : ReassemblyLimits) (f : HandshakeFragment) : option FragmentError :=
  if fragment_count f =? 0 then Some ZeroCount
  else if fragment_count f <=? fragment_index f then
    Some (IndexOutOfRange (fragment_index f) (fragment_count f))
  else if Z.min (max_fragments l) ABS_MAX_FRAGMENTS <? fragment_count f then Some TooManyFragments
  else if (total_len f =? 0) || (Z.min (max_total_len l) ABS_MAX_TOTAL_LEN <? total_len f)
          || (total_len f <? fragment_count f) then Some BadTotalLen
  else if (zlen (payload f) =? 0) || (total_len f <? zlen (payload f)) then Some BadPayloadLen
  else None.

Definition fresh_entry (f : HandshakeFragment) (now_ms : Z) : Entry :=
  mkEntry (suite f) (fragment_count f) (total_len f) now_ms 0 0
    (replicate (Z.to_nat (fragment_count f)) None).

(** The slot the fragment goes into: the existing entry, or a new one after
    making room by expiring old handshakes. *)
Definition admit_entry (r : Reassembler) (f : HandshakeFragment) (now_ms : Z) :
  Reassembler * result unit FragmentError :=
  if bool_decide (is_Some (entries r !! handshake_id f)) then (r, Ok tt)
  else
    let r1 := if max_concurrent (limits r) <=? in_progress r then (expire r now_ms).1 else r in
    if max_concurrent (limits r1) <=? in_progress r1 then (r1, Err TooManyHandshakes)
    else (set_entries r1 (<[handshake_id f := fresh_entry f now_ms]> (entries r1)), Ok tt).

(** The bytes of the filled slots, in slot order. *)
Definition joined (ss : list (option (list Z))) : list Z := concat (omap id ss).

(** The rest of [push], on the entry of the fragment's handshake. *)
Definition fill_slot (r : Reassembler) (e : Entry) (f : HandshakeFragment) :
  Reassembler * outcome (result PushOutcome FragmentError) :=
  if negb (e_suite e =? suite f) || negb (e_count e =? fragment_count f)
     || negb (e_total_len e =? total_len f) then (r, Ret (Err Conflict))
  else
    let idx := Z.to_nat (fragment_index f) in
    match slots e !! idx with
    | None => (r, Panic)
    | Some (Some existing) =>
        (r, Ret (if bool_decide (existing = payload f) then Ok Duplicate else Err Conflict))
    | Some None =>
        match checked_add u32_max (received_bytes e) (zlen (payload f)) with
        | None => (r, Ret (Err Overflow))
        | Some new_bytes =>
            if negb (new_bytes <=? e_total_len e) then (r, Ret (Err Overflow)) else
            let e' := mkEntry (e_suite e) (e_count e) (e_total_len e) (started_ms e)
                        (received e + 1) new_bytes (<[idx := Some (payload f)]> (slots e)) in
            if received e' <? e_count e'
            then (set_entries r (<[handshake_id f := e']> (entries r)), Ret (Ok Pending))
            else
              let r' := set_entries r (delete (handshake_id f) (entries r)) in
              if negb (received_bytes e' =? e_total_len e') then (r', Ret (Err LengthMismatch))
              else (r', Ret (Ok (Complete (handshake_id f) (e_suite e') (joined (slots e')))))
        end
    end.

Definition push (r : Reassembler) (f : HandshakeFragment) (now_ms : Z) :
  Reassembler * outcome (result PushOutcome FragmentError) :=
  match push_guard (limits r) f with
  | Some e => (r, Ret (Err e))
  | None =>
      let '(r1, a) := admit_entry r f now_ms in
      match a with
      | Err e => (r1, Ret (Err e))
      | Ok _ =>
          match entries r1 !! handshake_id f with
          | None => (r1, Panic)
          | Some e => fill_slot r1 e f
          end
      end
  end.

(** ** Framing is canonical *)

(** The fragments a frame can carry. *)
Record frame_wf (f : HandshakeFragment) : Prop := {
  fw_version : version f = FRAGMENT_VERSION;
  fw_hid : in_u64 (handshake_id f);
  fw_suite : in_u16 (suite f);
  fw_index : 0 <= fragment_index f < fragment_count f;
  fw_count : fragment_count f <= ABS_MAX_FRAGMENTS;
  fw_total : fragment_count f <= total_len f <= ABS_MAX_TOTAL_LEN;
  fw_payload : 0 < zlen (payload f) <= total_len f;
  fw_bytes : bytes_ok (payload f);
}.

(** Where each field of an encoded frame lies. *)
Lemma encode_fields f :
  length (encode f) = (HEADER_LEN + length (payload f))%nat /\
  slice 0 1 (encode f) = [version f] /\
  slice 1 9 (encode f) = be_bytes 8 (handshake_id f) /\
  slice 9 11 (encode f) = be_bytes 2 (suite f) /\
  slice 11 13 (encode f) = be_bytes 2 (fragment_index f) /\
  slice 13 15 (encode f) = be_bytes 2 (fragment_count f) /\
  slice 15 19 (encode f) = be_bytes 4 (total_len f) /\
  slice 19 23 (encode f) = be_bytes 4 (zlen (payload f)) /\
  drop HEADER_LEN (encode f) = payload f.
Proof.
  split_and!; unfold encode, HEADER_LEN.
  1: rewrite !length_app, !be_bytes_length; simpl; lia.
  8: rewrite !app_assoc; apply drop_app_length'; rewrite !length_app, !be_bytes_length; done.
  all: repeat (rewrite slice_skip by (rewrite ?be_bytes_length; simpl; lia);
               rewrite ?be_bytes_length; cbn [length Nat.sub]).
  all: apply slice_here; by rewrite ?be_bytes_length.
Qed.

Lemma decode_encode f : frame_wf f -> decode (encode f) = Ok f.
Proof.
  intros [Hv Hh Hs Hi Hc Ht Hp Hb].
  destruct (encode_fields f) as (Hl & F0 & F1 & F2 & F3 & F4 & F5 & F6 & F7).
  unfold decode. rewrite Hl, F0, F1, F2, F3, F4, F5, F6, F7.
  unfold FRAGMENT_VERSION, ABS_MAX_FRAGMENTS, ABS_MAX_TOTAL_LEN, in_uint, u64_max, u16_max in *.
  rewrite !from_be_be by (simpl; lia). change (from_be [version f]) with (version f).
  rewrite Hv. repeat (case_match; try (unfold HEADER_LEN in *; simpl in *; lia)).
  f_equal. destruct f; simpl in *; congruence.
Qed.

(** The guards of the decoder, when it succeeds. *)
Lemma decode_ok_inv buf f :
  decode buf = Ok f ->
  (HEADER_LEN <= length buf)%nat /\
  f = mkFragment (from_be (slice 0 1 buf)) (from_be (slice 1 9 buf)) (from_be (slice 9 11 buf))
        (from_be (slice 11 13 buf)) (from_be (slice 13 15 buf)) (from_be (slice 15 19 buf))
        (drop HEADER_LEN buf) /\
  version f = FRAGMENT_VERSION /\ fragment_count f <> 0 /\ fragment_count f <= ABS_MAX_FRAGMENTS /\
  fragment_index f < fragment_count f /\ fragment_count f <= total_len f <= ABS_MAX_TOTAL_LEN /\
  zlen (payload f) = from_be (slice 19 23 buf) /\ zlen (payload f) <> 0 /\
  zlen (payload f) <= total_len f.
Proof.
  unfold decode. repeat (case_match; try done). intros [= <-]; simpl.
  split_and!; try done; lia.
Qed.

Lemma encode_decode buf f :
  bytes_ok buf -> decode buf = Ok f -> frame_wf f /\ encode f = buf.
Proof.
  intros Hok Hd. apply decode_ok_inv in Hd as (Hl & -> & Hd). simpl in Hd.
  destruct Hd as (Hv & Hc0 & Hc & Hi & Ht & Hpl & Hp0 & Hp). unfold HEADER_LEN in *.
  pose proof (from_be_slice_range 1 9 buf Hok ltac:(lia) ltac:(lia)).
  pose proof (from_be_slice_range 9 11 buf Hok ltac:(lia) ltac:(lia)).
  pose proof (from_be_slice_range 11 13 buf Hok ltac:(lia) ltac:(lia)).
  pose proof (zlen_nonneg (drop 23 buf)).
  split.
  - constructor; simpl; unfold in_uint, u64_max, u16_max in *; simpl in *; try lia.
    by apply Forall_drop.
  - unfold encode. cbn [version handshake_id suite fragment_index fragment_count total_len payload].
    rewrite Hpl. rewrite !be_bytes_slice by (done || lia).
    replace [from_be (slice 0 1 buf)] with (slice 0 1 buf).
    + rewrite !slice_drop by lia. by rewrite drop_0.
    + destruct buf; [simpl in *; lia|]. unfold slice, from_be. by destruct z.
Qed.

(** The frame format is canonical: on a buffer of bytes, the decoder accepts
    exactly the encodings of well-formed fragments and returns the fragment that
    was encoded, so decoding and encoding are inverse to each other and no two
    frames carry the same fragment. *)
Theorem frame_canonical (buf : list Z) (f : HandshakeFragment) :
  bytes_ok buf -> (decode buf = Ok f <-> frame_wf f /\ encode f = buf).
Proof.
  intros Hok. split; [by apply encode_decode|]. intros [Hwf <-]. by apply decode_encode.
Qed.

(** ** The reassembler's invariant *)

(** Bytes and slots an entry holds. *)
Definition filled (ss : list (option (list Z))) : list (list Z) := omap id ss.
Definition stored_bytes (ss : list (option (list Z))) : Z := zlen (concat (filled ss)).

Record entry_wf (l : ReassemblyLimits) (e : Entry) : Prop := {
  ew_count : 0 < e_count e <= Z.min (max_fragments l) ABS_MAX_FRAGMENTS;
  ew_total : 0 < e_total_len e <= Z.min (max_total_len l) ABS_MAX_TOTAL_LEN;
  ew_slots : zlen (slots e) = e_count e;
  ew_received : received e = zlen (filled (slots e));
  ew_bytes : received_bytes e = stored_bytes (slots e);
  ew_fits : received_bytes e <= e_total_len e;
  ew_open : received e < e_count e;
}.

Definition reassembler_wf (r : Reassembler) : Prop :=
  in_progress r <= Z.max 0 (max_concurrent (limits r)) /\
  map_Forall (fun _ e => entry_wf (limits r) e) (entries r).

(** All payload bytes the reassembler holds. *)
Definition held_bytes (r : Reassembler) : Z :=
  map_fold (fun _ e acc => stored_bytes (slots e) + acc) 0 (entries r).

Lemma filled_insert ss i p :
  ss !! i = Some None -> filled (<[i := Some p]> ss) ≡ₚ p :: filled ss.
Proof.
  revert i. induction ss as [|s ss IH]; intros [|i] Hi; simplify_eq/=; [done|].
  unfold filled in *. destruct s; simpl; rewrite IH by done; [|done]. apply Permutation_swap.
Qed.

Lemma filled_length_insert ss i p :
  ss !! i = Some None -> zlen (filled (<[i := Some p]> ss)) = zlen (filled ss) + 1.
Proof. intros H. unfold zlen. rewrite (filled_insert ss i p H). simpl. lia. Qed.

Lemma stored_bytes_insert ss i p :
  ss !! i = Some None -> stored_bytes (<[i := Some p]> ss) = stored_bytes ss + zlen p.
Proof.
  intros H. unfold stored_bytes, zlen. rewrite (filled_insert ss i p H). simpl.
  rewrite length_app. lia.
Qed.

Lemma filled_replicate n : filled (replicate n None) = [].
Proof. induction n; done. Qed.

Lemma fresh_entry_wf l f now :
  push_guard l f = None -> 0 <= fragment_index f -> entry_wf l (fresh_entry f now).
Proof.
  unfold push_guard. repeat (case_match; try done). intros _ Hi.
  constructor; simpl; rewrite ?filled_replicate; unfold stored_bytes;
    rewrite ?filled_replicate; simpl; try done; try lia.
  unfold zlen. rewrite length_replicate. lia.
Qed.

Lemma expire_wf r now : reassembler_wf r -> reassembler_wf (expire r now).1.
Proof.
  intros [Hc He]. unfold expire, set_entries, reassembler_wf, in_progress in *; simpl. split.
  - etransitivity; [|exact Hc]. apply inj_le.
    apply map_subseteq_size, map_filter_subseteq.
  - intros k e Hk. apply map_lookup_filter_Some in Hk as [Hk _]. by apply (He k).
Qed.

Lemma admit_entry_wf r f now r' a :
  reassembler_wf r -> push_guard (limits r) f = None -> 0 <= fragment_index f ->
  admit_entry r f now = (r', a) ->
  reassembler_wf r' /\ limits r' = limits r /\
  (a = Ok tt -> is_Some (entries r' !! handshake_id f)).
Proof.
  intros Hwf Hg Hi. unfold admit_entry. case_bool_decide as Hin; [by intros [= <- <-]|].
  set (r1 := if max_concurrent (limits r) <=? in_progress r then (expire r now).1 else r).
  assert (reassembler_wf r1) as Hwf1 by (unfold r1; case_match; [by apply expire_wf|done]).
  assert (limits r1 = limits r) as Hl by (unfold r1; by case_match).
  clearbody r1. case_match eqn:Hfull; intros [= <- <-]; [done|].
  destruct Hwf1 as [Hc He]. split_and!; [split|done|].
  - unfold in_progress, set_entries in *; simpl in *.
    destruct (entries r1 !! handshake_id f) eqn:Hlk.
    + rewrite map_size_insert_Some by done. lia.
    + rewrite map_size_insert_None by done. lia.
  - simpl. apply map_Forall_insert_2; [rewrite Hl; by apply fresh_entry_wf|done].
  - intros _. simpl. rewrite lookup_insert. by case_decide.
Qed.

Lemma fill_slot_wf r e f r' o :
  reassembler_wf r -> push_guard (limits r) f = None -> 0 <= fragment_index f ->
  entries r !! handshake_id f = Some e -> fill_slot r e f = (r', o) ->
  reassembler_wf r' /\ limits r' = limits r /\ o <> Panic.
Proof.
  intros [Hc He] Hg Hi Hlk. pose proof (He _ _ Hlk) as [W1 W2 W3 W4 W5 W6 W7].
  assert (fragment_index f < fragment_count f) as Hidx
    by (unfold push_guard in Hg; repeat (case_match; try done); lia).
  unfold fill_slot. case_match eqn:Hconf; [by intros [= <- <-]|].
  destruct (slots e !! Z.to_nat (fragment_index f)) as [[x|]|] eqn:Hslot.
  - by intros [= <- <-].
  - case_match eqn:Hadd; [|by intros [= <- <-]]. case_match eqn:Hfit; [by intros [= <- <-]|].
    unfold checked_add in Hadd. case_match; simplify_eq.
    assert (zlen (filled (<[Z.to_nat (fragment_index f):=Some (payload f)]> (slots e)))
            = zlen (filled (slots e)) + 1) as Hn by (by apply filled_length_insert).
    assert (stored_bytes (<[Z.to_nat (fragment_index f):=Some (payload f)]> (slots e))
            = stored_bytes (slots e) + zlen (payload f)) as Hb by (by apply stored_bytes_insert).
    assert (reassembler_wf (set_entries r (delete (handshake_id f) (entries r)))) as Hdel.
    { split; simpl; [|by apply map_Forall_delete].
      unfold in_progress in *; simpl. rewrite map_size_delete_Some by eauto. lia. }
    cbv zeta. cbn [received e_count received_bytes e_total_len].
    case_match eqn:Hlast; [|case_match; by intros [= <- <-]].
    intros [= <- <-]. split_and!; [split|done|done]; simpl.
    + unfold in_progress in *; simpl. rewrite map_size_insert_Some by eauto. lia.
    + apply map_Forall_insert_2; [|done]. constructor; simpl; rewrite ?Hn, ?Hb; try lia.
      unfold zlen. rewrite length_insert. exact W3.
  - apply lookup_ge_None in Hslot. unfold zlen in W3. lia.
Qed.

Lemma push_wf r f now :
  reassembler_wf r -> 0 <= fragment_index f ->
  reassembler_wf (push r f now).1 /\ limits (push r f now).1 = limits r /\
  (push r f now).2 <> Panic.
Proof.
  intros Hwf Hi. unfold push. destruct (push_guard (limits r) f) eqn:Hg; [done|].
  destruct (admit_entry r f now) as [r1 a] eqn:Ha.
  destruct (admit_entry_wf _ _ _ _ _ Hwf Hg Hi Ha) as (Hwf1 & Hl & Hin).
  destruct a as [[]|]; [|done]. destruct (Hin eq_refl) as [e He]. rewrite He.
  destruct (fill_slot r1 e f) as [r2 o] eqn:Hf. rewrite <- Hl in *.
  by apply (fill_slot_wf r1 e f).
Qed.

(** What a peer can make the reassembler do. *)
Inductive reasm_event :=
| EvPush (f : HandshakeFragment) (now : Z)
| EvExpire (now : Z)
| EvDiscard (hid : Z).

Definition reasm_next (r : Reassembler) (e : reasm_event) : Reassembler :=
  match e with
  | EvPush f now => (push r f now).1
  | EvExpire now => (expire r now).1
  | EvDiscard hid => (discard r hid).1
  end.

Definition event_ok (e : reasm_event) : Prop :=
  match e with EvPush f _ => 0 <= fragment_index f | _ => True end.

Lemma reasm_next_wf r e :
  event_ok e -> reassembler_wf r -> reassembler_wf (reasm_next r e) /\ limits (reasm_next r e) = limits r.
Proof.
  destruct e as [f now|now|hid]; simpl; intros Hok Hwf.
  - destruct (push_wf r f now Hwf Hok) as (? & ? & _). done.
  - split; [by apply expire_wf|done].
  - destruct Hwf as [Hc He]. split; [|done]. split; simpl; [|by apply map_Forall_delete].
    unfold in_progress in *; simpl. etransitivity; [|exact Hc]. apply inj_le.
    apply map_subseteq_size, delete_subseteq.
Qed.

Lemma held_bytes_le r :
  reassembler_wf r ->
  held_bytes r <= in_progress r * Z.min (max_total_len (limits r)) ABS_MAX_TOTAL_LEN.
Proof.
  intros [_ He]. unfold held_bytes, in_progress. generalize dependent (entries r).
  set (M := Z.min _ _). intros m. induction m as [|k e m Hk IH] using map_ind; intros He.
  - rewrite map_fold_empty, map_size_empty. lia.
  - rewrite map_fold_insert_L, map_size_insert_None; [|done|intros; lia|done].
    apply map_Forall_insert in He as [[? ? ? ? Hb Hf ?] He]; [|done].
    specialize (IH He). rewrite Nat2Z.inj_succ, Z.mul_succ_l. subst M. lia.
Qed.

(** Bounded reassembly: whatever fragments are pushed, in whatever order and
    however malformed, with expiry and discards in between, the reassembler
    never panics, never tracks more handshakes than its limit, and never holds
    more payload bytes than that many messages of the largest allowed length. *)
Theorem reassembly_bounded (l : ReassemblyLimits) (es : list reasm_event) :
  Forall event_ok es -> 0 <= max_concurrent l -> 0 <= max_total_len l ->
  let r := run_events reasm_next (new l) es in
  in_progress r <= max_concurrent l /\
  held_bytes r <= max_concurrent l * Z.min (max_total_len l) ABS_MAX_TOTAL_LEN /\
  forall f now, 0 <= fragment_index f -> (push r f now).2 <> Panic.
Proof.
  intros Hes Hc Ht. cbv zeta.
  assert (reassembler_wf (run_events reasm_next (new l) es) /\
          limits (run_events reasm_next (new l) es) = l) as [Hwf Hl].
  { assert (reassembler_wf (new l) /\ limits (new l) = l) as H0
      by (split; [split; [unfold in_progress; simpl; rewrite map_size_empty; lia|done]|done]).
    revert H0. generalize (new l). unfold run_events.
    induction Hes as [|e es He _ IH]; intros r [Hr Hlr]; simpl; [done|].
    destruct (reasm_next_wf r e He Hr) as [? ?]. apply IH. split; [done|congruence]. }
  pose proof (held_bytes_le _ Hwf) as Hb. destruct Hwf as [Hn He]. rewrite Hl in *.
  split_and!; [lia| |].
  - assert (0 <= Z.min (max_total_len l) ABS_MAX_TOTAL_LEN) by (unfold ABS_MAX_TOTAL_LEN; lia). nia.
  - intros f now Hf. apply push_wf; [split; rewrite Hl; done|done].
Qed.

(** ** Reassembly is complete *)

#[export] Instance HandshakeFragment_eq_dec : EqDecision HandshakeFragment.
Proof. solve_decision. Defined.

Section Reassemble.
Context (hid su mp : Z) (data : list Z) (frags : list HandshakeFragment) (lim : ReassemblyLimits).
Hypothesis (Hmp : 0 < mp).
Hypothesis (Hfrag : fragment hid su data mp = Ok frags).
Hypothesis (Hcount : zlen frags <= max_fragments lim).
Hypothesis (Htotal : zlen data <= max_total_len lim).

(** What the splitter produces. *)
Lemma frags_at i f :
  frags !! i = Some f ->
  f = mkFragment FRAGMENT_VERSION hid su (Z.of_nat i) (zlen frags) (zlen data) (payload f) /\
  chunks (Z.to_nat mp) data !! i = Some (payload f).
Proof.
  intros Hi. unfold fragment in Hfrag. repeat (case_match; try done). simplify_eq.
  rewrite list_lookup_imap in Hi. apply fmap_Some in Hi as (c & Hc & ->). simpl. split; [|done].
  f_equal. unfold zlen. rewrite length_imap, chunks_length by lia. by rewrite Z2Nat.id by lia.
Qed.

Lemma frags_bounds :
  0 < zlen frags <= ABS_MAX_FRAGMENTS /\ zlen frags <= zlen data <= ABS_MAX_TOTAL_LEN.
Proof.
  assert (zlen frags = (zlen data + mp - 1) / mp) as ->.
  { unfold fragment in Hfrag. repeat (case_match; try done). simplify_eq.
    unfold zlen at 1. rewrite length_imap, chunks_length by lia. by rewrite Z2Nat.id by lia. }
  unfold fragment in Hfrag. repeat (case_match; try done). pose proof (zlen_nonneg data).
  assert (1 <= (zlen data + mp - 1) / mp) by (apply Z.div_le_lower_bound; lia).
  assert ((zlen data + mp - 1) / mp < zlen data + 1) by (apply Z.div_lt_upper_bound; nia). lia.
Qed.

Lemma frags_payloads : payload <$> frags = chunks (Z.to_nat mp) data.
Proof.
  unfold fragment in Hfrag. repeat (case_match; try done). simplify_eq.
  rewrite fmap_imap. apply list_eq. intros i. rewrite list_lookup_imap. by destruct (_ !! i).
Qed.

Lemma frags_data : concat (payload <$> frags) = data.
Proof. rewrite frags_payloads. apply chunks_concat. lia. Qed.

(** A fragment is found at its own index. *)
Lemma frags_index f : f ∈ frags -> frags !! Z.to_nat (fragment_index f) = Some f /\ 0 <= fragment_index f.
Proof.
  intros [i Hi]%list_elem_of_lookup. destruct (frags_at i f Hi) as [Hf _].
  assert (fragment_index f = Z.of_nat i) as -> by (by rewrite Hf).
  split; [|lia]. by rewrite Nat2Z.id.
Qed.

Lemma frags_payload_nonempty f : f ∈ frags -> 0 < zlen (payload f) <= zlen data.
Proof.
  intros [i Hi]%list_elem_of_lookup. destruct (frags_at i f Hi) as [_ Hc].
  pose proof (chunks_sizes (Z.to_nat mp) data ltac:(lia)) as Hs.
  rewrite Forall_lookup in Hs. destruct (Hs _ _ Hc) as [Hne _]. split.
  - unfold zlen. destruct (payload f); [done|simpl; lia].
  - rewrite <- (chunks_concat (Z.to_nat mp) data) at 1 by lia.
    apply list_elem_of_split_length in Hc as (l1 & l2 & -> & _).
    rewrite concat_app. simpl. unfold zlen. rewrite !length_app. lia.
Qed.

Lemma frags_guard f : f ∈ frags -> push_guard lim f = None.
Proof.
  intros Hin. pose proof (frags_payload_nonempty f Hin) as Hp. pose proof frags_bounds as [Hb1 Hb2].
  apply list_elem_of_lookup in Hin as [i Hi]. pose proof (lookup_lt_Some _ _ _ Hi).
  destruct (frags_at i f Hi) as [Hf _]. rewrite Hf. unfold push_guard; simpl.
  rewrite Hf in Hp; simpl in Hp. unfold zlen in *. repeat (case_match; try lia). done.
Qed.

(** The slots once the fragments of [l] have arrived. *)
Definition slots_for (l : list HandshakeFragment) : list (option (list Z)) :=
  (fun f => if decide (f ∈ l) then Some (payload f) else None) <$> frags.

Definition entry_for (l : list HandshakeFragment) (t0 : Z) : Entry :=
  mkEntry su (zlen frags) (zlen data) t0 (zlen (filled (slots_for l))) (stored_bytes (slots_for l))
    (slots_for l).

Lemma slots_for_at l f :
  f ∈ frags ->
  slots_for l !! Z.to_nat (fragment_index f) = Some (if decide (f ∈ l) then Some (payload f) else None).
Proof. intros Hin. unfold slots_for. rewrite list_lookup_fmap. by destruct (frags_index f Hin) as [-> _]. Qed.

Lemma slots_for_add l f :
  f ∈ frags ->
  slots_for (f :: l) = <[Z.to_nat (fragment_index f) := Some (payload f)]> (slots_for l).
Proof.
  intros Hin. destruct (frags_index f Hin) as [Hf Hnn]. apply list_eq. intros i.
  unfold slots_for. rewrite list_lookup_insert, !list_lookup_fmap.
  destruct (frags !! i) as [g|] eqn:Hg; simpl.
  - rewrite length_fmap. destruct (decide (Z.to_nat (fragment_index f) = i /\
      (Z.to_nat (fragment_index f) < length frags)%nat)) as [[<- _]|Hi].
    + rewrite Hf in Hg. simplify_eq. rewrite decide_True by set_solver. done.
    + assert (g <> f) as Hne.
      { intros ->. apply Hi. destruct (frags_at i f Hg) as [Hf' _].
        assert (Z.to_nat (fragment_index f) = i) as -> by (rewrite Hf'; simpl; by rewrite Nat2Z.id).
        split; [done|by eapply lookup_lt_Some]. }
      f_equal. destruct (decide (g ∈ l)) as [Hl|Hl].
      * by rewrite decide_True by set_solver.
      * rewrite decide_False; [done|]. set_solver.
  - rewrite decide_False; [done|]. intros [<- Hlt]. by rewrite Hf in Hg.
Qed.

Lemma slots_for_dup l f : f ∈ l -> slots_for (f :: l) = slots_for l.
Proof.
  intros Hin. unfold slots_for. apply list_fmap_ext. intros i g _.
  destruct (decide (g ∈ l)); [by rewrite decide_True by set_solver|].
  rewrite decide_False; [done|]. set_solver.
Qed.

(** The filled slots are the payloads of the fragments that arrived. *)
Lemma filled_slots_for l : filled (slots_for l) = payload <$> List.filter (fun f => bool_decide (f ∈ l)) frags.
Proof.
  unfold slots_for, filled. clear Hfrag Hcount. induction frags as [|f fs IH]; [done|].
  rewrite fmap_cons. cbn [List.filter]. destruct (decide (f ∈ l)) as [Hd|Hd].
  - rewrite bool_decide_true by done. rewrite fmap_cons, <- IH. done.
  - rewrite bool_decide_false by done. exact IH.
Qed.

Lemma filter_bytes_le (P : HandshakeFragment -> bool) :
  zlen (concat (payload <$> List.filter P frags)) <= zlen data.
Proof.
  rewrite <- frags_data. clear Hfrag Hcount. induction frags as [|f fs IH]; [done|].
  cbn [List.filter]. rewrite fmap_cons. cbn [concat]. rewrite zlen_app.
  pose proof (zlen_nonneg (payload f)).
  destruct (P f); rewrite ?fmap_cons; cbn [concat]; rewrite ?zlen_app; lia.
Qed.

Lemma filter_all_length (P : HandshakeFragment -> bool) (fs : list HandshakeFragment) :
  (length (List.filter P fs) <= length fs)%nat /\
  (length (List.filter P fs) = length fs -> List.filter P fs = fs).
Proof.
  induction fs as [|f fs [IH1 IH2]]; simpl; [done|]. destruct (P f); simpl.
  - split; [lia|]. intros [= H]. f_equal. auto.
  - split; [lia|]. intros H. lia.
Qed.

Lemma stored_le l : stored_bytes (slots_for l) <= zlen data.
Proof. unfold stored_bytes. rewrite filled_slots_for. apply filter_bytes_le. Qed.

(** As long as a fragment is missing, the entry is not full. *)
Lemma missing_not_full l f : f ∈ frags -> f ∉ l -> zlen (filled (slots_for l)) < zlen frags.
Proof.
  intros Hin Hl. rewrite filled_slots_for. unfold zlen. rewrite length_fmap.
  destruct (filter_all_length (fun f => bool_decide (f ∈ l)) frags) as [H1 H2].
  destruct (decide (length (List.filter (fun f => bool_decide (f ∈ l)) frags) = length frags)) as [He|]; [|lia].
  specialize (H2 He). rewrite <- H2 in Hin. apply list_elem_of_In, filter_In in Hin as [_ Hb].
  apply bool_decide_eq_true in Hb. done.
Qed.

(** Once all have arrived, the slots are the message. *)
Lemma complete_slots l :
  (forall g, g ∈ frags -> g ∈ l) ->
  zlen (filled (slots_for l)) = zlen frags /\ joined (slots_for l) = data.
Proof.
  intros Hall. assert (List.filter (fun f => bool_decide (f ∈ l)) frags = frags) as Hf.
  { apply forallb_filter_id. apply forallb_forall. intros g Hg%list_elem_of_In.
    by apply bool_decide_eq_true, Hall. }
  unfold joined. change (omap id (slots_for l)) with (filled (slots_for l)).
  rewrite filled_slots_for, Hf. split; [unfold zlen; by rewrite length_fmap|apply frags_data].
Qed.

Context (r0 : Reassembler).
Hypothesis (Hlim : limits r0 = lim).
Hypothesis (Hnew : entries r0 !! hid = None).
Hypothesis (Hroom : in_progress r0 < max_concurrent lim).

Definition with_entry (l : list HandshakeFragment) (t0 : Z) : Reassembler :=
  set_entries r0 (<[hid := entry_for l t0]> (entries r0)).

(** The reassembler after the fragments [l] of this handshake. *)
Definition tracks (l : list HandshakeFragment) (r : Reassembler) : Prop :=
  (l = [] /\ r = r0) \/ exists t0, r = with_entry l t0.

Lemma slots_for_nil : slots_for [] = replicate (Z.to_nat (zlen frags)) None.
Proof.
  unfold slots_for, zlen. rewrite Nat2Z.id. clear Hfrag Hcount.
  induction frags as [|f fs IH]; [done|]. rewrite fmap_cons, IH. done.
Qed.

Lemma frag_fields f :
  f ∈ frags -> handshake_id f = hid /\ suite f = su /\ fragment_count f = zlen frags /\
  total_len f = zlen data.
Proof. intros [i Hi]%list_elem_of_lookup. destruct (frags_at i f Hi) as [-> _]. done. Qed.

(** [push] finds or creates the entry of the handshake. *)
Lemma push_tracked l r f now :
  tracks l r -> f ∈ frags ->
  exists t0, push r f now = fill_slot (with_entry l t0) (entry_for l t0) f.
Proof.
  intros Ht Hin. pose proof (frags_guard f Hin) as Hg.
  destruct (frag_fields f Hin) as (F1 & F2 & F3 & F4). unfold push, admit_entry.
  destruct Ht as [[-> ->]|[t0 ->]].
  - exists now. rewrite Hlim, Hg, F1, bool_decide_false by (rewrite Hnew; by intros [? ?]).
    rewrite (proj2 (Z.leb_gt _ _) Hroom), Hlim, (proj2 (Z.leb_gt _ _) Hroom). simpl.
    assert (fresh_entry f now = entry_for [] now) as ->.
    { unfold fresh_entry, entry_for, stored_bytes.
      rewrite F2, F3, F4, slots_for_nil, filled_replicate. done. }
    by rewrite lookup_insert_eq.
  - exists t0. change (limits (with_entry l t0)) with (limits r0). rewrite Hlim, Hg, F1.
    unfold with_entry at 1 2 3; simpl. rewrite lookup_insert_eq, bool_decide_true by eauto.
    cbn [entries set_entries]. by rewrite lookup_insert_eq.
Qed.

(** The conflict check passes and the slot is the fragment's own. *)
Lemma fill_slot_tracked l t0 f :
  f ∈ frags ->
  fill_slot (with_entry l t0) (entry_for l t0) f =
  if decide (f ∈ l) then (with_entry l t0, Ret (Ok Duplicate))
  else if zlen (filled (slots_for (f :: l))) <? zlen frags
       then (with_entry (f :: l) t0, Ret (Ok Pending))
       else if stored_bytes (slots_for (f :: l)) =? zlen data
            then (r0, Ret (Ok (Complete hid su (joined (slots_for (f :: l))))))
            else (r0, Ret (Err LengthMismatch)).
Proof.
  intros Hin. destruct (frag_fields f Hin) as (F1 & F2 & F3 & F4).
  unfold fill_slot, with_entry, entry_for; simpl. rewrite F1, F2, F3, F4, !Z.eqb_refl. simpl.
  rewrite (slots_for_at l f Hin). destruct (decide (f ∈ l)) as [Hl|Hl].
  { by rewrite bool_decide_true by done. }
  assert (slots_for l !! Z.to_nat (fragment_index f) = Some None) as Hs
    by (rewrite (slots_for_at l f Hin); by rewrite decide_False by done).
  pose proof (stored_bytes_insert _ _ (payload f) Hs) as Hb.
  pose proof (filled_length_insert _ _ (payload f) Hs) as Hn.
  rewrite <- (slots_for_add l f Hin) in Hb, Hn |- *.
  pose proof (stored_le (f :: l)). pose proof frags_bounds as [_ [_ Hmax]].
  unfold checked_add. rewrite (proj2 (Z.leb_le _ _))
    by (unfold u32_max, ABS_MAX_TOTAL_LEN in *; lia).
  rewrite <- Hb, <- Hn, (proj2 (Z.leb_le _ _)) by done. simpl.
  unfold set_entries; simpl. rewrite insert_insert_eq, delete_insert_id by done.
  destruct (_ <? _); [done|]. destruct r0 as [lim0 es0]; simpl.
  by destruct (stored_bytes _ =? zlen data).
Qed.

Lemma push_not_last l r f now :
  tracks l r -> f ∈ frags -> (exists g, g ∈ frags /\ g <> f /\ g ∉ l) ->
  tracks (f :: l) (push r f now).1 /\
  ((push r f now).2 = Ret (Ok Pending) \/ (push r f now).2 = Ret (Ok Duplicate)).
Proof.
  intros Ht Hin (g & Hg & Hne & Hgl). destruct (push_tracked l r f now Ht Hin) as [t0 ->].
  rewrite fill_slot_tracked by done. case_decide as Hl; simpl.
  - split; [|by right]. right. exists t0. unfold with_entry, entry_for. by rewrite slots_for_dup.
  - rewrite (proj2 (Z.ltb_lt _ _)) by (apply (missing_not_full _ g); set_solver). simpl.
    split; [right; by exists t0|by left].
Qed.

Lemma push_last l r f now :
  tracks l r -> f ∈ frags -> f ∉ l -> (forall g, g ∈ frags -> g ∈ f :: l) ->
  push r f now = (r0, Ret (Ok (Complete hid su data))).
Proof.
  intros Ht Hin Hl Hall. destruct (push_tracked l r f now Ht Hin) as [t0 ->].
  rewrite fill_slot_tracked by done. rewrite decide_False by done.
  destruct (complete_slots _ Hall) as [Hn Hj]. rewrite Hn, Z.ltb_irrefl.
  unfold stored_bytes. change (concat (filled (slots_for (f :: l)))) with (joined (slots_for (f :: l))).
  by rewrite Hj, Z.eqb_refl.
Qed.

(** Push a timed sequence of fragments and collect the outcomes. *)
Fixpoint push_all (r : Reassembler) (l : list (HandshakeFragment * Z)) :
  Reassembler * list (outcome (result PushOutcome FragmentError)) :=
  match l with
  | [] => (r, [])
  | (f, now) :: l' =>
      let '(r1, o) := push r f now in
      let '(r2, os) := push_all r1 l' in (r2, o :: os)
  end.

Lemma push_all_tracked l arr r f :
  tracks arr r -> (forall g, g ∈ l.*1 -> g ∈ frags) -> f ∈ frags -> f ∉ arr -> f ∉ l.*1 ->
  let '(r1, os) := push_all r l in
  tracks (rev l.*1 ++ arr) r1 /\
  Forall (fun o => o = Ret (Ok Pending) \/ o = Ret (Ok Duplicate)) os.
Proof.
  revert arr r. induction l as [|[g now] l IH]; intros arr r Ht Hin Hf Harr Hl; simpl; [done|].
  simpl in *. destruct (push_not_last arr r g now Ht) as [Ht' Ho]; [set_solver| |].
  { exists f. set_solver. }
  destruct (push r g now) as [r1 o]; simpl in *.
  specialize (IH (g :: arr) r1 Ht' ltac:(set_solver) Hf ltac:(set_solver) ltac:(set_solver)).
  destruct (push_all r1 l) as [r2 os]. destruct IH as [IH1 IH2].
  rewrite <- app_assoc. simpl. split; [done|by constructor].
Qed.

End Reassemble.

(** C17. Reassembly is complete: split a message into fragments, deliver them in
    any order, at any times and with any duplicates to a reassembler that has
    room for it; every fragment before the last missing one is answered by
    Pending or Duplicate, and that last one completes the handshake with
    exactly the original message, after which the reassembler is as before. *)
Theorem fragments_reassemble (hid su mp : Z) (data : list Z) (frags : list HandshakeFragment)
    (r : Reassembler) (l : list (HandshakeFragment * Z)) (f : HandshakeFragment) (now : Z) :
  0 < mp -> fragment hid su data mp = Ok frags ->
  zlen frags <= max_fragments (limits r) -> zlen data <= max_total_len (limits r) ->
  entries r !! hid = None -> in_progress r < max_concurrent (limits r) ->
  (forall g, g ∈ l.*1 -> g ∈ frags) -> f ∈ frags -> f ∉ l.*1 ->
  (forall g, g ∈ frags -> g = f \/ g ∈ l.*1) ->
  let '(r1, os) := push_all r l in
  Forall (fun o => o = Ret (Ok Pending) \/ o = Ret (Ok Duplicate)) os /\
  push r1 f now = (r, Ret (Ok (Complete hid su data))).
Proof.
  intros Hmp Hfr Hc Ht Hnew Hroom Hl Hf Hfl Hall.
  pose proof (push_all_tracked hid su mp data frags (limits r) Hmp Hfr Hc Ht r eq_refl Hnew Hroom
    l [] r f (or_introl (conj eq_refl eq_refl)) Hl Hf ltac:(set_solver) Hfl) as H.
  destruct (push_all r l) as [r1 os]. destruct H as [H1 H2]. split; [done|].
  eapply (push_last hid su mp data frags (limits r)); try done.
  - rewrite app_nil_r, list_elem_of_In, <- in_rev, <- list_elem_of_In. done.
  - intros g Hg. rewrite app_nil_r. destruct (Hall g Hg) as [->|Hg']; [set_solver|].
    apply list_elem_of_further. rewrite list_elem_of_In, <- in_rev, <- list_elem_of_In. done.
Qed.

(** ** Witnesses *)

Definition message0 : list Z := [10; 20; 30; 40; 50].
Definition frags0 : list HandshakeFragment :=
  [mkFragment 1 7 1 0 3 5 [10; 20]; mkFragment 1 7 1 1 3 5 [30; 40]; mkFragment 1 7 1 2 3 5 [50]].

Lemma frame_canonical_witness :
  decode (encode (mkFragment 1 7 1 2 3 5 [50])) = Ok (mkFragment 1 7 1 2 3 5 [50]).
Proof.
  refine (proj2 (frame_canonical (encode (mkFragment 1 7 1 2 3 5 [50])) (mkFragment 1 7 1 2 3 5 [50]) _) _).
  - vm_compute. repeat constructor; discriminate.
  - split; [|reflexivity]. constructor; vm_compute; repeat split; try discriminate.
    repeat constructor; discriminate.
Defined.

Lemma reassembly_bounded_witness :
  in_progress (run_events reasm_next (new default_limits)
    [EvPush (mkFragment 1 7 1 2 3 5 [50]) 0; EvExpire 20000]) <= 16.
Proof.
  refine (proj1 (reassembly_bounded default_limits
    [EvPush (mkFragment 1 7 1 2 3 5 [50]) 0; EvExpire 20000] _ _ _)).
  - repeat constructor; simpl; lia.
  - vm_compute. discriminate.
  - vm_compute. discriminate.
Defined.

(** The last fragment first, one duplicate, the middle one last. *)
Lemma fragments_reassemble_witness :
  let l := [(mkFragment 1 7 1 2 3 5 [50], 0); (mkFragment 1 7 1 0 3 5 [10; 20], 5);
            (mkFragment 1 7 1 2 3 5 [50], 9)] in
  push (push_all (new default_limits) l).1 (mkFragment 1 7 1 1 3 5 [30; 40]) 12
  = (new default_limits, Ret (Ok (Complete 7 1 message0))).
Proof.
  refine (proj2 (fragments_reassemble 7 1 2 message0 frags0 (new default_limits)
    [(mkFragment 1 7 1 2 3 5 [50], 0); (mkFragment 1 7 1 0 3 5 [10; 20], 5);
     (mkFragment 1 7 1 2 3 5 [50], 9)] (mkFragment 1 7 1 1 3 5 [30; 40]) 12 _ _ _ _ _ _ _ _ _ _)).
  - lia.
  - vm_compute. reflexivity.
  - vm_compute. discriminate.
  - vm_compute. discriminate.
  - reflexivity.
  - vm_compute. reflexivity.
  - unfold frags0. simpl. set_solver.
  - unfold frags0. set_solver.
  - apply (bool_decide_unpack _). vm_compute. exact I.
  - unfold frags0. simpl. set_solver.
Defined.
