(* ===== verification/Schedule.v ===== *)
(** * Schedule: retry backoff and traffic pacing of piece maintenance

    Models [repair/schedule.rs]: the attempt ledger with its exponential,
    jittered backoff, and the token bucket with its daily cap.  BLAKE3 is a
    parameter.  Time is the protocol time in whole seconds every operation
    takes; [u64] and [i64] arithmetic saturates as written in the source, and
    the left shift of the backoff drops the bits it shifts out, as
    [checked_shl] does. *)

From S2P Require Import Prelude Bytes.

(** ** Backoff *)

(** [PieceKey]: content digest, segment and slot. *)
Record PieceKey := mkKey { pk_mid : list Z; pk_segment : Z; pk_slot : Z }.

#[export] Instance PieceKey_eq_dec : EqDecision PieceKey.
Proof. solve_decision. Defined.
#[export] Instance PieceKey_countable : Countable PieceKey.
Proof.
  refine (inj_countable' (fun k => (pk_mid k, pk_segment k, pk_slot k))
            (fun x => mkKey x.1.1 x.1.2 x.2) _).
  by intros [].
Defined.

Record BackoffPolicy := mkPolicy {
  base_secs : Z;
  max_secs : Z;
  success_cooldown_secs : Z;
  jitter_percent : Z;
}.

Definition default_policy : BackoffPolicy := mkPolicy 300 21600 1800 20.

Record AttemptEntry := mkAttempt { ae_failures : Z; ae_next_allowed : Z }.

Record AttemptLedger := mkLedger {
  policy : BackoffPolicy;
  attempts : gmap PieceKey AttemptEntry;
}.

Section Ledger.
Context (blake3 : list Z -> list Z).

Definition new_ledger (p : BackoffPolicy) : AttemptLedger := mkLedger p ∅.

Definition allowed (l : AttemptLedger) (key : PieceKey) (now : Z) : bool :=
  match attempts l !! key with None => true | Some e => ae_next_allowed e <=? now end.

Definition failures (l : AttemptLedger) (key : PieceKey) : Z :=
  match attempts l !! key with None => 0 | Some e => ae_failures e end.

(** The doubling part of the delay, before jitter. *)
Definition raw_delay (p : BackoffPolicy) (fails : Z) : Z :=
  let shift := Z.min (sat_sub fails 1) 32 in
  Z.min (Z.shiftl (base_secs p) shift mod 18446744073709551616) (max_secs p).

(** The per-piece roll in [0, 65535]. *)
Definition jitter_roll (key : PieceKey) (fails : Z) : Z :=
  from_le (take 2 (blake3 (pk_mid key ++ le_bytes 4 (pk_segment key) ++ le_bytes 2 (pk_slot key)
                           ++ le_bytes 4 fails))).

Definition failure_delay (p : BackoffPolicy) (key : PieceKey) (fails : Z) : Z :=
  let raw := raw_delay p fails in
  let jitter := Z.min (jitter_percent p) 50 in
  if (jitter =? 0) || (raw =? 0) then raw else
  let span := 2 * jitter + 1 in
  let offset_pct := jitter_roll key fails mod span - jitter in
  let delta := Z.quot (raw * offset_pct) 100 in
  Z.max 0 (Z.min (raw + delta) u64_max).

Definition record_attempt (l : AttemptLedger) (key : PieceKey) (now : Z) (success : bool) : AttemptLedger :=
  let e :=
    if success then mkAttempt 0 (sat_add u64_max now (success_cooldown_secs (policy l)))
    else
      let fails := sat_add u32_max (failures l key) 1 in
      mkAttempt fails (sat_add u64_max now (failure_delay (policy l) key fails)) in
  mkLedger (policy l) (<[key := e]> (attempts l)).

Definition prune (l : AttemptLedger) (now : Z) : AttemptLedger :=
  mkLedger (policy l)
    (filter (fun kv => (0 <? ae_failures kv.2) || (now <? ae_next_allowed kv.2) = true) (attempts l)).

(** ** Pacing *)

Definition i64_max : Z := 9223372036854775807.
Definition i64_min : Z := -9223372036854775808.
Definition DAY_SECS : Z := 86400.

Record RateBudget := mkBudget {
  rate_bytes_per_sec : Z;
  burst_bytes : Z;
  daily_cap_bytes : Z;
  tokens : Z;
  last_refill : Z;
  day_start : Z;
  day_used : Z;
}.

(** [i64::try_from(x).unwrap_or(i64::MAX)] of an unsigned value. *)
Definition to_i64 (x : Z) : Z := Z.min x i64_max.

Definition new_budget (rate burst cap start : Z) : RateBudget :=
  mkBudget rate burst cap (to_i64 burst) start start 0.

Definition refill (b : RateBudget) (now : Z) : RateBudget :=
  let '(toks, last) :=
    if last_refill b <? now then
      let add := sat_mul u64_max (now - last_refill b) (rate_bytes_per_sec b) in
      (Z.min (Z.min i64_max (tokens b + to_i64 add)) (to_i64 (burst_bytes b)), now)
    else (tokens b, last_refill b) in
  let '(ds, du) :=
    if sat_add u64_max (day_start b) DAY_SECS <=? now then (now, 0) else (day_start b, day_used b) in
  mkBudget (rate_bytes_per_sec b) (burst_bytes b) (daily_cap_bytes b) toks last ds du.

Definition can_spend (b : RateBudget) (now bytes : Z) : RateBudget * bool :=
  let b := refill b now in
  let need := to_i64 (Z.min bytes (burst_bytes b)) in
  (b, if (tokens b <? need) || ((0 <? bytes) && (tokens b <=? 0)) then false
      else (daily_cap_bytes b =? 0) || (sat_add u64_max (day_used b) bytes <=? daily_cap_bytes b)).

Definition charge (b : RateBudget) (now bytes : Z) : RateBudget :=
  let b := refill b now in
  mkBudget (rate_bytes_per_sec b) (burst_bytes b) (daily_cap_bytes b)
    (Z.max i64_min (tokens b - to_i64 bytes)) (last_refill b) (day_start b)
    (sat_add u64_max (day_used b) bytes).

Definition try_spend (b : RateBudget) (now bytes : Z) : RateBudget * bool :=
  let '(b1, ok) := can_spend b now bytes in
  if ok then (charge b1 now bytes, true) else (b1, false).

(** ** The backoff is bounded and grows *)

Definition policy_ok (p : BackoffPolicy) : Prop :=
  0 <= base_secs p < 4294967296 /\ 0 <= max_secs p <= u64_max / 2 /\ 0 <= jitter_percent p <= u8_max /\
  0 <= success_cooldown_secs p.

Lemma raw_delay_value p fails :
  policy_ok p -> 0 <= fails ->
  raw_delay p fails = Z.min (base_secs p * 2 ^ Z.min (sat_sub fails 1) 32) (max_secs p).
Proof.
  intros (Hb & _) Hf. unfold raw_delay. rewrite Z.shiftl_mul_pow2 by ulia.
  rewrite Z.mod_small; [done|].
  assert (2 ^ Z.min (sat_sub fails 1) 32 <= 2 ^ 32) by (apply Z.pow_le_mono_r; ulia).
  assert (0 < 2 ^ Z.min (sat_sub fails 1) 32) by (apply Z.pow_pos_nonneg; ulia).
  change (2 ^ 32) with 4294967296 in *. nia.
Qed.

Lemma raw_delay_mono p f g : policy_ok p -> 0 <= f <= g -> raw_delay p f <= raw_delay p g.
Proof.
  intros Hp Hfg. rewrite !raw_delay_value by (done || lia). destruct Hp as (Hb & _).
  assert (2 ^ Z.min (sat_sub f 1) 32 <= 2 ^ Z.min (sat_sub g 1) 32)
    by (apply Z.pow_le_mono_r; ulia). nia.
Qed.

(** Truncated division by 100 moves towards zero. *)
Lemma quot_100 x : (0 <= x -> 0 <= 100 * Z.quot x 100 <= x) /\ (x <= 0 -> x <= 100 * Z.quot x 100 <= 0).
Proof.
  assert (forall y, 0 <= y -> 0 <= 100 * Z.quot y 100 <= y) as Hpos.
  { intros y Hy. pose proof (Z.quot_rem' y 100). pose proof (Z.rem_bound_pos y 100 Hy ltac:(lia)).
    pose proof (Z.quot_pos y 100 Hy ltac:(lia)). lia. }
  split; [apply Hpos|]. intros Hx. specialize (Hpos (- x) ltac:(lia)).
  rewrite Z.quot_opp_l in Hpos by lia. lia.
Qed.

(** The jittered delay stays within its percentage of the raw one. *)
Lemma failure_delay_bounds p key fails :
  policy_ok p -> 0 <= fails ->
  let raw := raw_delay p fails in
  let j := Z.min (jitter_percent p) 50 in
  raw * (100 - j) <= 100 * failure_delay p key fails <= raw * (100 + j).
Proof.
  intros Hp Hf. pose proof (raw_delay_value p fails Hp Hf) as Hv. destruct Hp as (Hb & Hm & Hj & _).
  unfold u64_max, u8_max in *. change (18446744073709551615 / 2) with 9223372036854775807 in Hm.
  cbv zeta. unfold failure_delay. set (raw := raw_delay p fails) in *.
  set (j := Z.min (jitter_percent p) 50).
  assert (0 <= raw <= 9223372036854775807) as Hr.
  { assert (0 < 2 ^ Z.min (sat_sub fails 1) 32) by (apply Z.pow_pos_nonneg; ulia). nia. }
  assert (0 <= j <= 50) by lia. clearbody raw j.
  destruct ((j =? 0) || (raw =? 0)) eqn:Hz; [nia|].
  pose proof (Z.mod_pos_bound (jitter_roll key fails) (2 * j + 1) ltac:(lia)).
  set (off := jitter_roll key fails mod (2 * j + 1) - j) in *.
  assert (- j <= off <= j) as Ho by lia. clearbody off.
  destruct (quot_100 (raw * off)) as [Q1 Q2]. unfold u64_max.
  destruct (decide (0 <= off)).
  - specialize (Q1 ltac:(nia)). rewrite Z.max_r, Z.min_l by nia. nia.
  - specialize (Q2 ltac:(nia)). rewrite Z.max_r, Z.min_l by nia. nia.
Qed.

(** Retry backoff: the delay after a failure lies within the jitter of the
    doubled base, capped by the maximum; before jitter it never shrinks as
    failures accumulate; and recording a failure keeps the piece back for
    exactly that delay, so a piece is never retried in a tight loop. *)
Theorem backoff_bounds (l : AttemptLedger) (key : PieceKey) (now t : Z) :
  policy_ok (policy l) -> 0 <= failures l key <= u32_max -> 0 <= now ->
  let p := policy l in
  let fails := sat_add u32_max (failures l key) 1 in
  let d := failure_delay p key fails in
  let j := Z.min (jitter_percent p) 50 in
  let raw := Z.min (base_secs p * 2 ^ Z.min (fails - 1) 32) (max_secs p) in
  raw * (100 - j) <= 100 * d <= raw * (100 + j) /\
  (forall g, fails <= g -> raw_delay p fails <= raw_delay p g) /\
  (allowed (record_attempt l key now false) key t = true <-> sat_add u64_max now d <= t).
Proof.
  intros Hp Hf Hn. cbv zeta. set (fails := sat_add u32_max (failures l key) 1).
  assert (1 <= fails) as Hfl by (subst fails; ulia).
  pose proof (raw_delay_value (policy l) fails Hp ltac:(lia)) as Hraw.
  replace (sat_sub fails 1) with (fails - 1) in Hraw by ulia. rewrite <- Hraw.
  split_and!.
  - apply (failure_delay_bounds (policy l) key fails); [done|lia].
  - apply (failure_delay_bounds (policy l) key fails); [done|lia].
  - intros g Hg. apply raw_delay_mono; [done|lia].
  - unfold allowed, record_attempt; simpl. rewrite lookup_insert_eq. simpl. apply Z.leb_le.
Qed.

(** Pruning forgets nothing that still matters: from [now] on every piece is
    held back exactly as before, and failure counts survive. *)
Lemma prune_unobservable (l : AttemptLedger) (now t : Z) (key : PieceKey) :
  now <= t -> (forall k e, attempts l !! k = Some e -> 0 <= ae_failures e) ->
  allowed (prune l now) key t = allowed l key t /\ failures (prune l now) key = failures l key.
Proof.
  intros Ht Hwf. unfold allowed, failures, prune; simpl. rewrite map_lookup_filter.
  destruct (attempts l !! key) as [e|] eqn:He; simpl; [|done].
  specialize (Hwf _ _ He).
  destruct (decide ((0 <? ae_failures e) || (now <? ae_next_allowed e) = true)) as [Hk|Hk].
  - by rewrite option_guard_True.
  - rewrite option_guard_False by done. simpl.
    apply not_true_is_false, orb_false_iff in Hk as [H1%Z.ltb_ge H2%Z.ltb_ge].
    split; [symmetry; apply Z.leb_le; lia|lia].
Qed.
End Ledger.

(** The default policy after a first failure, with a fixed digest: 300 seconds
    give or take a fifth. *)
Lemma backoff_bounds_witness :
  let key := mkKey [] 0 0 in
  let l := new_ledger default_policy in
  let d := failure_delay (fun _ => [9; 1]) default_policy key 1 in
  300 * 80 <= 100 * d <= 300 * 120 /\
  (forall g, 1 <= g -> raw_delay default_policy 1 <= raw_delay default_policy g) /\
  (allowed (record_attempt (fun _ => [9; 1]) l key 1000 false) key 1300 = true <-> 1000 + d <= 1300).
Proof.
  apply (backoff_bounds (fun _ => [9; 1]) (new_ledger default_policy) (mkKey [] 0 0) 1000 1300);
    [repeat split; vm_compute; congruence|vm_compute; split; congruence|lia].
Defined.

(** ** Pacing bounds the traffic *)

(** A run of transfers: each asks for some bytes at some time; the second
    component adds up what was let through. *)
Definition pace (acc : RateBudget * Z) (op : Z * Z) : RateBudget * Z :=
  let '(b', ok) := try_spend acc.1 op.1 op.2 in (b', if ok then acc.2 + op.2 else acc.2).

Definition run_pace (b : RateBudget) (ops : list (Z * Z)) : RateBudget * Z := fold_left pace ops (b, 0).

(** What holds of a bucket that has let [spent] bytes through since [start]. *)
Record pace_inv (rate burst cap start M T : Z) (b : RateBudget) (spent : Z) : Prop := {
  pi_rate : rate_bytes_per_sec b = rate;
  pi_burst : burst_bytes b = burst;
  pi_cap : daily_cap_bytes b = cap;
  pi_time : start <= last_refill b <= T;
  pi_tokens : tokens b + spent <= burst + rate * (last_refill b - start);
  pi_debt : - M <= tokens b <= i64_max;
  pi_day : 0 < cap -> day_used b <= cap;
}.

Lemma refill_inv rate burst cap start M T b spent now :
  0 <= rate -> 0 <= burst -> 0 <= M -> now <= T ->
  pace_inv rate burst cap start M T b spent -> pace_inv rate burst cap start M T (refill b now) spent.
Proof.
  intros Hr Hb HM Hnow [I1 I2 I3 I4 I5 I6 I7].
  unfold refill. rewrite I1, I2.
  assert (forall t l, (t, l) = (if last_refill b <? now
    then (Z.min (Z.min i64_max (tokens b + to_i64 (sat_mul u64_max (now - last_refill b) rate))) (to_i64 burst), now)
    else (tokens b, last_refill b)) ->
    start <= l <= T /\ t + spent <= burst + rate * (l - start) /\ - M <= t <= i64_max) as Ht.
  { intros t l. destruct (Z.ltb_spec (last_refill b) now); intros [= -> ->]; [|done].
    unfold to_i64, sat_mul, i64_max, u64_max in *.
    assert (0 <= (now - last_refill b) * rate) by nia. split_and!; nia. }
  destruct (if last_refill b <? now then _ else _) as [t l]. specialize (Ht t l eq_refl).
  destruct (sat_add u64_max (day_start b) DAY_SECS <=? now); constructor; simpl; try done; try tauto; lia.
Qed.

(** Refilling twice at the same time is refilling once. *)
Lemma refill_idem b now :
  tokens (refill (refill b now) now) = tokens (refill b now) /\
  last_refill (refill (refill b now) now) = last_refill (refill b now) /\
  day_used (refill (refill b now) now) = day_used (refill b now).
Proof.
  unfold refill. destruct (Z.ltb_spec (last_refill b) now);
    destruct (sat_add u64_max (day_start b) DAY_SECS <=? now) eqn:Hd; simpl;
    rewrite ?Z.ltb_irrefl, ?(proj2 (Z.ltb_ge (last_refill b) now)) by lia; rewrite ?Hd;
    try destruct (sat_add u64_max now DAY_SECS <=? now); simpl; split_and!; reflexivity.
Qed.

Lemma to_i64_nonneg x : 0 <= x -> 0 <= to_i64 x.
Proof. intros Hx. unfold to_i64, i64_max. lia. Qed.

(** A spend either leaves the refilled bucket, or passed the guards and is
    charged to it. *)
Lemma try_spend_cases b now bytes :
  0 <= bytes -> 0 <= burst_bytes b ->
  try_spend b now bytes = (refill b now, false) \/
  (try_spend b now bytes = (charge (refill b now) now bytes, true) /\ 0 <= tokens (refill b now) /\
   (daily_cap_bytes (refill b now) = 0 \/
    sat_add u64_max (day_used (refill b now)) bytes <= daily_cap_bytes (refill b now))).
Proof.
  intros Hy Hb. unfold try_spend, can_spend.
  assert (burst_bytes (refill b now) = burst_bytes b) as Hbb by (unfold refill; by repeat case_match).
  generalize dependent (refill b now). intros b1 Hbb.
  assert (0 <= to_i64 (Z.min bytes (burst_bytes b1))) by (apply to_i64_nonneg; lia).
  destruct (Z.ltb_spec (tokens b1) (to_i64 (Z.min bytes (burst_bytes b1)))); [by left|].
  destruct ((0 <? bytes) && (tokens b1 <=? 0)); [by left|]. cbn [orb].
  destruct (Z.eqb_spec (daily_cap_bytes b1) 0); cbn [orb].
  - right. split_and!; [done| |by left]. by etrans; [|eassumption].
  - destruct (Z.leb_spec (sat_add u64_max (day_used b1) bytes) (daily_cap_bytes b1)); [|by left].
    right. split_and!; [done| |by right]. by etrans; [|eassumption].
Qed.

Lemma charge_fields b now bytes :
  rate_bytes_per_sec (charge b now bytes) = rate_bytes_per_sec (refill b now) /\
  burst_bytes (charge b now bytes) = burst_bytes (refill b now) /\
  daily_cap_bytes (charge b now bytes) = daily_cap_bytes (refill b now) /\
  last_refill (charge b now bytes) = last_refill (refill b now) /\
  tokens (charge b now bytes) = Z.max i64_min (tokens (refill b now) - to_i64 bytes) /\
  day_used (charge b now bytes) = sat_add u64_max (day_used (refill b now)) bytes.
Proof. unfold charge. cbv zeta. split_and!; reflexivity. Qed.

Lemma pace_step_inv rate burst cap start M T b spent now bytes :
  0 <= rate -> 0 <= burst -> 0 <= bytes <= M -> M <= i64_max -> now <= T ->
  pace_inv rate burst cap start M T b spent ->
  pace_inv rate burst cap start M T (pace (b, spent) (now, bytes)).1 (pace (b, spent) (now, bytes)).2.
Proof.
  intros Hr Hb Hby HM Hnow Hinv. assert (0 <= M) as HM0 by lia.
  pose proof (refill_inv _ _ _ _ _ _ _ _ now Hr Hb HM0 Hnow Hinv) as H1.
  pose proof (refill_inv _ _ _ _ _ _ _ _ now Hr Hb HM0 Hnow H1) as [J1 J2 J3 _ _ _ _].
  assert (0 <= burst_bytes b) as Hb' by (by rewrite (pi_burst _ _ _ _ _ _ _ _ Hinv)).
  unfold pace. cbn [fst snd].
  destruct (try_spend_cases b now bytes ltac:(lia) Hb') as [->|(-> & Hpos & Hcap)]; [exact H1|].
  destruct (charge_fields (refill b now) now bytes) as (F1 & F2 & F3 & F4 & F5 & F6).
  destruct (refill_idem b now) as (Et & El & Ed). destruct H1 as [I1 I2 I3 I4 I5 I6 I7].
  rewrite Et in F5. rewrite El in F4. rewrite Ed in F6. cbn [fst snd].
  generalize dependent (charge (refill b now) now bytes). intros b3 F1 F2 F3 F4 F5 F6.
  assert (tokens b3 = tokens (refill b now) - bytes) as F5'
    by (rewrite F5; unfold to_i64, i64_max, i64_min in *; lia).
  constructor.
  - congruence.
  - congruence.
  - congruence.
  - rewrite F4. exact I4.
  - rewrite F4, F5'. lia.
  - rewrite F5'. lia.
  - intros Hc. rewrite F6. destruct Hcap as [Hcap|Hcap]; [lia|]. rewrite <- I3. exact Hcap.
Qed.

(** Pacing: whatever transfers are attempted at whatever times, the bytes the
    bucket lets through up to a time [T] never exceed the burst, plus the rate
    times the elapsed time, plus the size of one transfer, so the long-run
    average stays at the configured rate however large the transfers are; and
    with a daily cap set, the day's counter never passes it. *)
Theorem pacing_bound (rate burst cap start M T : Z) (ops : list (Z * Z)) :
  0 <= rate -> 0 <= burst -> 0 <= M <= i64_max -> start <= T ->
  Forall (fun op => op.1 <= T /\ 0 <= op.2 <= M) ops ->
  let '(b, spent) := run_pace (new_budget rate burst cap start) ops in
  spent <= burst + rate * (T - start) + M /\ (0 < cap -> day_used b <= cap).
Proof.
  intros Hr Hb HM HT Hops.
  assert (forall b spent, pace_inv rate burst cap start M T b spent ->
    pace_inv rate burst cap start M T (fold_left pace ops (b, spent)).1 (fold_left pace ops (b, spent)).2)
    as Hrun.
  { induction Hops as [|[now bytes] ops [Hn Hy] _ IH]; intros b spent Hinv; [done|]. simpl in Hn, Hy.
    cbn [fold_left]. pose proof (pace_step_inv _ _ _ _ _ _ _ _ now bytes Hr Hb Hy ltac:(lia) Hn Hinv) as Hs.
    destruct (pace (b, spent) (now, bytes)) as [b' spent']. apply IH, Hs. }
  unfold run_pace. specialize (Hrun (new_budget rate burst cap start) 0).
  destruct (fold_left pace ops _) as [b spent]. simpl in Hrun.
  destruct Hrun as [I1 I2 I3 I4 I5 I6 I7].
  - constructor; simpl; try done; unfold to_i64, i64_max in *; try lia; nia.
  - split; [nia|done].
Qed.

(** A bucket of 100 bytes refilled at 10 bytes per second: of three transfers
    of 150 bytes the first passes and leaves a debt, the second is refused, the
    third passes once the bucket is full again. *)
Lemma pacing_bound_witness :
  (run_pace (new_budget 10 100 0 0) [(0, 150); (5, 150); (20, 150)]).2 = 300 /\
  let '(b, spent) := run_pace (new_budget 10 100 0 0) [(0, 150); (5, 150); (20, 150)] in
  spent <= 100 + 10 * (20 - 0) + 150 /\ (0 < 0 -> day_used b <= 0).
Proof.
  split; [reflexivity|].
  apply (pacing_bound 10 100 0 0 150 20); [lia|lia|unfold i64_max; lia|lia|].
  repeat apply Forall_cons_2; [..|apply Forall_nil_2]; simpl; lia.
Defined.
