(* ===== verification/FailureDomain.v ===== *)
(** * FailureDomain: failure-domain labels of announced addresses

    Models the label derivation of [repair/select.rs]: the first announced
    multiaddr that yields a label names the failure domain of a holder, a /24
    for IPv4, a /48 for IPv6, two DNS labels, or the relay.  The textual
    address parsers are those of Rust's standard library
    ([core::net::parser]): decimal octets without leading zeros, and IPv6 with
    one [::] and an optional embedded IPv4 tail. *)

From S2P Require Import Prelude Text.

(** ** Strings *)

(** [str::split] on a character. *)
Fixpoint str_split (sep : Z) (s : str) : list str :=
  match s with
  | [] => [[]]
  | c :: s' =>
      if c =? sep then [] :: str_split sep s' else
      match str_split sep s' with [] => [[c]] | p :: ps => (c :: p) :: ps end
  end.

Fixpoint str_join (sep : Z) (ps : list str) : str :=
  match ps with [] => [] | [p] => p | p :: ps' => p ++ sep :: str_join sep ps' end.

Definition ascii_lower (c : Z) : Z := if is_ascii_upper c then c + 32 else c.

(** [trim_end_matches] of one character. *)
Fixpoint trim_start_char (c : Z) (s : str) : str :=
  match s with [] => [] | d :: s' => if d =? c then trim_start_char c s' else s end.
Definition trim_end_char (c : Z) (s : str) : str := rev (trim_start_char c (rev s)).

(** [{:x}] of an unsigned integer below 2^16. *)
Definition show_hex (n : Z) : str :=
  (if n <? 16 then []
   else (if n <? 256 then [] else (if n <? 4096 then [] else [hex_digit (n / 4096)])
        ++ [hex_digit (n / 256 mod 16)]) ++ [hex_digit (n / 16 mod 16)])
  ++ [hex_digit (n mod 16)].

(** ** Address parsers of the standard library *)

(** [char::to_digit]. *)
Definition to_digit (radix c : Z) : option Z :=
  let d := if is_ascii_digit c then c - 48
           else if is_ascii_lower c then c - 87
           else if is_ascii_upper c then c - 55 else 99 in
  if d <? radix then Some d else None.

(** The digits at the front, with their value, and what follows them. *)
Fixpoint read_digits (radix acc : Z) (count : nat) (s : str) : Z * nat * str :=
  match s with
  | [] => (acc, count, [])
  | c :: s' =>
      match to_digit radix c with
      | Some d => read_digits radix (acc * radix + d) (S count) s'
      | None => (acc, count, s)
      end
  end.

(** [Parser::read_number] into an integer of maximum [m]. *)
Definition read_number (radix : Z) (max_digits : nat) (allow_zero_prefix : bool) (m : Z) (s : str) :
    option (Z * str) :=
  let '(v, count, rest) := read_digits radix 0 0 s in
  if (max_digits <? count)%nat then None
  else if (count =? 0)%nat then None
  else if negb allow_zero_prefix && bool_decide (head s = Some 48) && (1 <? count)%nat then None
  else if v <=? m then Some (v, rest) else None.

(** [read_separator]: the separator first, except before the first item. *)
Definition read_separator {A} (sep : Z) (index : nat) (inner : str -> option (A * str)) (s : str) :
    option (A * str) :=
  if (index =? 0)%nat then inner s
  else match s with c :: s' => if c =? sep then inner s' else None | [] => None end.

Definition read_octet (i : nat) (s : str) : option (Z * str) :=
  read_separator 46 i (read_number 10 3 false u8_max) s.

Definition read_ipv4_addr (s : str) : option ((Z * Z * Z * Z) * str) :=
  '(a, s) ← read_octet 0 s; '(b, s) ← read_octet 1 s;
  '(c, s) ← read_octet 2 s; '(d, s) ← read_octet 3 s;
  Some ((a, b, c, d), s).

(** [read_groups] into the groups from [i] on, [left] of them remaining. *)
Fixpoint read_groups (left i : nat) (s : str) : list Z * bool * str :=
  match left with
  | O => ([], false, s)
  | S left' =>
      match (if (0 <? left')%nat then read_separator 58 i read_ipv4_addr s else None) with
      | Some ((a, b, c, d), rest) => ([a * 256 + b; c * 256 + d], true, rest)
      | None =>
          match read_separator 58 i (read_number 16 4 true u16_max) s with
          | Some (g, rest) =>
              let '(gs, v4, rest') := read_groups left' (S i) rest in (g :: gs, v4, rest')
          | None => ([], false, s)
          end
      end
  end.

Definition read_ipv6_addr (s : str) : option (list Z * str) :=
  let '(hd, head_ipv4, s1) := read_groups 8 0 s in
  if (length hd =? 8)%nat then Some (hd, s1)
  else if head_ipv4 then None
  else match s1 with
       | c1 :: c2 :: s2 =>
           if (c1 =? 58) && (c2 =? 58) then
             let '(tl, _, s3) := read_groups (8 - (length hd + 1)) 0 s2 in
             Some (hd ++ replicate (8 - length hd - length tl) 0 ++ tl, s3)
           else None
       | _ => None
       end.

Definition parse_ipv4 (s : str) : option (Z * Z * Z * Z) :=
  if 15 <? str_len s then None else
  match read_ipv4_addr s with Some (ip, []) => Some ip | _ => None end.

Definition parse_ipv6 (s : str) : option (list Z) :=
  match read_ipv6_addr s with Some (ip, []) => Some ip | _ => None end.

(** ** Labels *)

Definition ipv4_domain (text : str) : option str :=
  '(a, b, c, d) ← parse_ipv4 text;
  let is_loopback := a =? 127 in
  let is_unspecified := (a =? 0) && (b =? 0) && (c =? 0) && (d =? 0) in
  let is_link_local := (a =? 169) && (b =? 254) in
  let is_broadcast := (a =? 255) && (b =? 255) && (c =? 255) && (d =? 255) in
  if is_loopback || is_unspecified || is_link_local || is_broadcast then None else
  let is_private := (a =? 10) || ((a =? 172) && (16 <=? b) && (b <=? 31)) || ((a =? 192) && (b =? 168)) in
  let kind := if is_private then lit "lan" else lit "ip4" in
  Some (kind ++ lit ":" ++ show_dec a ++ lit "." ++ show_dec b ++ lit "." ++ show_dec c).

Definition ipv6_domain (text : str) : option str :=
  s ← parse_ipv6 text;
  let is_loopback := bool_decide (s = [0; 0; 0; 0; 0; 0; 0; 1]) in
  let is_unspecified := bool_decide (s = [0; 0; 0; 0; 0; 0; 0; 0]) in
  if is_loopback || is_unspecified then None else
  match s with
  | s0 :: s1 :: s2 :: _ =>
      if Z.land s0 65472 =? 65152 then None else
      Some (lit "ip6:" ++ show_hex s0 ++ lit ":" ++ show_hex s1 ++ lit ":" ++ show_hex s2)
  | _ => None
  end.

Definition dns_domain (host : str) : option str :=
  let host := map ascii_lower (trim_end_char 46 host) in
  if bool_decide (host = []) || bool_decide (host = lit "localhost") then None else
  let labels := str_split 46 host in
  Some (lit "dns:" ++ str_join 46 (drop (length labels - 2) labels)).

(** The protocol/value pairs of an address, in order. *)
Fixpoint scan_parts (fuel : nat) (parts : list str) : option str :=
  match fuel, parts with
  | S f, proto :: value :: rest =>
      if bool_decide (proto = lit "ip4") then ipv4_domain value
      else if bool_decide (proto = lit "ip6") then ipv6_domain value
      else if bool_decide (proto ∈ [lit "dns"; lit "dns4"; lit "dns6"; lit "dnsaddr"]) then dns_domain value
      else scan_parts f rest
  | _, _ => None
  end.

Fixpoint position (p : str) (parts : list str) : option nat :=
  match parts with
  | [] => None
  | q :: ps => if bool_decide (q = p) then Some O else S <$> position p ps
  end.

Definition failure_domain_for_addr (addr : str) : option str :=
  let parts := filter (.≠ []) (str_split 47 addr) in
  match position (lit "p2p-circuit") parts with
  | Some circuit =>
      if (2 <=? circuit)%nat && bool_decide (parts !! (circuit - 2)%nat = Some (lit "p2p"))
      then relay ← parts !! (circuit - 1)%nat; Some (lit "relay:" ++ relay)
      else None
  | None => scan_parts (length parts) parts
  end.

Fixpoint failure_domain_for_addrs (addrs : list str) : option str :=
  match addrs with
  | [] => None
  | a :: rest =>
      match failure_domain_for_addr a with Some d => Some d | None => failure_domain_for_addrs rest end
  end.

(** ** The parsers invert printing *)

Definition stops (radix : Z) (rest : str) : Prop := forall c, head rest = Some c -> to_digit radix c = None.

Lemma read_digits_app radix acc n s v k rest :
  stops radix rest -> read_digits radix acc n s = (v, k, []) ->
  read_digits radix acc n (s ++ rest) = (v, k, rest).
Proof.
  intros Hr. revert acc n. induction s as [|c s IH]; intros acc n; simpl.
  - intros [= -> ->]. destruct rest as [|c rest]; [done|]. simpl. by rewrite (Hr c).
  - destruct (to_digit radix c); [apply IH|done].
Qed.

Lemma read_number_app radix d z m s v rest :
  stops radix rest -> read_number radix d z m s = Some (v, []) ->
  read_number radix d z m (s ++ rest) = Some (v, rest).
Proof.
  intros Hr. unfold read_number.
  destruct (read_digits radix 0 0 s) as [[w k] r] eqn:Hd. intros Hn.
  assert (r = [] /\ s <> []) as [-> Hs].
  { destruct s; [injection Hd as <- <- <-; by destruct d|]. split; [|done]. by repeat case_match; simplify_eq. }
  rewrite (read_digits_app _ _ _ _ _ _ _ Hr Hd). destruct s; [done|]. simpl in *.
  by repeat case_match; simplify_eq.
Qed.

(** A decidable statement about the first [n] integers is checked by running it. *)
Lemma check_below (n : nat) (f : Z -> bool) x :
  forallb f (seqZ 0 (Z.of_nat n)) = true -> 0 <= x < Z.of_nat n -> f x = true.
Proof. intros Hf Hx. eapply forallb_forall in Hf; [exact Hf|]. apply list_elem_of_In, elem_of_seqZ. lia. Qed.

Definition dec_ok (n : Z) : bool :=
  bool_decide (read_number 10 3 false u8_max (show_dec n) = Some (n, [])) && (length (show_dec n) <=? 3)%nat.

Lemma dec_ok_all n : in_u8 n -> dec_ok n = true.
Proof. intros Hn. apply (check_below 256); [vm_compute; reflexivity|ulia]. Qed.

Lemma read_octet_show n :
  in_u8 n -> read_number 10 3 false u8_max (show_dec n) = Some (n, []) /\ (length (show_dec n) <= 3)%nat.
Proof.
  intros Hn. pose proof (dec_ok_all n Hn) as [H1 H2]%andb_true_iff.
  split; [by apply bool_decide_eq_true in H1|by apply Nat.leb_le].
Qed.

Definition hexit (d : Z) : bool :=
  bool_decide (to_digit 16 (hex_digit d) = Some d) &&
  ((48 <=? hex_digit d) && (hex_digit d <? 58) || (97 <=? hex_digit d)).

Lemma hexit_ok d : 0 <= d < 16 ->
  to_digit 16 (hex_digit d) = Some d /\ (48 <= hex_digit d < 58 \/ 97 <= hex_digit d).
Proof.
  intros Hd. assert (hexit d = true) as [H1 H2]%andb_true_iff
    by (apply (check_below 16); [vm_compute; reflexivity|lia]).
  apply bool_decide_eq_true in H1. split; [done|lia].
Qed.

(** The hexadecimal text of a 16-bit group reads back, holds only digits and
    lower-case letters, and is not empty. *)
Lemma read_hex_show n :
  in_u16 n -> read_number 16 4 true u16_max (show_hex n) = Some (n, []) /\
  Forall (fun c => 48 <= c < 58 \/ 97 <= c) (show_hex n) /\ show_hex n <> [].
Proof.
  intros Hn. unfold in_uint, u16_max in Hn.
  destruct (hexit_ok (n mod 16)) as [D0 C0]; [apply Z.mod_pos_bound; lia|].
  destruct (hexit_ok (n / 16 mod 16)) as [D1 C1]; [apply Z.mod_pos_bound; lia|].
  destruct (hexit_ok (n / 256 mod 16)) as [D2 C2]; [apply Z.mod_pos_bound; lia|].
  destruct (hexit_ok (n / 4096)) as [D3 C3]; [Z.to_euclidean_division_equations; lia|].
  unfold show_hex, read_number.
  destruct (Z.ltb_spec n 16), (Z.ltb_spec n 256), (Z.ltb_spec n 4096); try lia; cbn [app read_digits];
    rewrite ?D3, ?D2, ?D1, ?D0; cbn [Nat.ltb Nat.leb Nat.eqb negb andb];
    (split; [|split; [repeat (apply Forall_cons_2; [assumption|]); apply Forall_nil_2|done]]);
    (match goal with |- (if ?v <=? _ then _ else _) = _ => assert (v = n) as -> by (Z.to_euclidean_division_equations; lia) end);
    by rewrite (proj2 (Z.leb_le _ _)) by ulia.
Qed.

Definition show_ip4 (a b c d : Z) : str :=
  show_dec a ++ 46 :: show_dec b ++ 46 :: show_dec c ++ 46 :: show_dec d.

Lemma read_ipv4_show a b c d rest :
  in_u8 a -> in_u8 b -> in_u8 c -> in_u8 d -> stops 10 rest ->
  read_ipv4_addr (show_ip4 a b c d ++ rest) = Some ((a, b, c, d), rest).
Proof.
  intros Ha Hb Hc Hd Hr. unfold read_ipv4_addr, show_ip4, read_octet, read_separator; simpl.
  rewrite <- !app_assoc; simpl. rewrite <- !app_assoc; simpl. rewrite <- !app_assoc; simpl.
  assert (forall t, stops 10 (46 :: t)) as Hdot by (intros t ? [= <-]; reflexivity).
  rewrite (read_number_app _ _ _ _ _ _ _ (Hdot _) (proj1 (read_octet_show _ Ha))); simpl.
  rewrite (read_number_app _ _ _ _ _ _ _ (Hdot _) (proj1 (read_octet_show _ Hb))); simpl.
  rewrite (read_number_app _ _ _ _ _ _ _ (Hdot _) (proj1 (read_octet_show _ Hc))); simpl.
  by rewrite (read_number_app _ _ _ _ _ _ _ Hr (proj1 (read_octet_show _ Hd))).
Qed.

(** Groups after the first, each behind its colon. *)
Definition tail_text (gs : list Z) : str := flat_map (fun g => 58 :: show_hex g) gs.

Definition groups_text (gs : list Z) : str :=
  match gs with [] => [] | g :: gs' => show_hex g ++ tail_text gs' end.

(** What may follow a run of groups: nothing, or the double colon. *)
Definition ends (rest : str) : Prop := rest = [] \/ exists t, rest = 58 :: 58 :: t.

Definition colon_or_nil (rest : str) : Prop := rest = [] \/ exists t, rest = 58 :: t.

Lemma ends_colon rest : ends rest -> colon_or_nil rest.
Proof. intros [->|[t ->]]; [by left|right; by eexists]. Qed.

Lemma tail_text_colon gs rest : ends rest -> colon_or_nil (tail_text gs ++ rest).
Proof. intros He. destruct gs; [by apply ends_colon|]. right. simpl. by eexists. Qed.

Lemma colon_stops radix rest : radix <= 16 -> colon_or_nil rest -> stops radix rest.
Proof.
  intros Hr [->|[t ->]] c; [done|]. intros [= <-]. unfold to_digit. simpl.
  by destruct (Z.ltb_spec 99 radix); [lia|].
Qed.

Lemma read_digits_dotless acc n g rest v k s' :
  Forall (fun c => c <> 46) g -> colon_or_nil rest ->
  read_digits 10 acc n (g ++ rest) = (v, k, s') -> head s' <> Some 46.
Proof.
  intros Hg Hr. revert acc n. induction Hg as [|c g Hc _ IH]; intros acc n; simpl.
  - destruct Hr as [->|[t ->]]; [by intros [= <- <- <-]|].
    change (read_digits 10 acc n (58 :: t)) with (acc, n, 58 :: t). by intros [= <- <- <-].
  - destruct (to_digit 10 c); [apply IH|]. intros [= <- <- <-]. simpl. congruence.
Qed.

(** A hexadecimal group is never taken for an embedded IPv4 address. *)
Lemma group_not_ipv4 g rest : in_u16 g -> colon_or_nil rest -> read_ipv4_addr (show_hex g ++ rest) = None.
Proof.
  intros Hg Hr. destruct (read_hex_show g Hg) as (_ & Hc & _).
  unfold read_ipv4_addr. destruct (read_octet 0 (show_hex g ++ rest)) as [[v s']|] eqn:Ho; [|done]. simpl.
  assert (head s' <> Some 46) as Hs.
  { unfold read_octet, read_separator, read_number in Ho; simpl in Ho.
    destruct (read_digits 10 0 0 (show_hex g ++ rest)) as [[w k] t] eqn:Hd.
    apply read_digits_dotless in Hd; [|eapply Forall_impl; [exact Hc|simpl; lia]|done].
    by repeat case_match; simplify_eq. }
  assert (read_octet 1 s' = None) as ->; [|done].
  unfold read_octet, read_separator; simpl. destruct s' as [|c s']; [done|].
  by destruct (Z.eqb_spec c 46) as [->|].
Qed.

Lemma read_group_show g rest :
  in_u16 g -> colon_or_nil rest -> read_number 16 4 true u16_max (show_hex g ++ rest) = Some (g, rest).
Proof. intros Hg Hr. apply read_number_app; [by apply colon_stops|by apply read_hex_show]. Qed.

Lemma read_groups_end left i rest : ends rest -> read_groups left i rest = ([], false, rest).
Proof.
  intros [->|[t ->]]; destruct left as [|[|left]], i as [|i]; reflexivity.
Qed.

(** The group reader inverts printing: groups behind a colon each, ... *)
Lemma read_groups_tail left i gs rest :
  Forall in_u16 gs -> (length gs <= left)%nat -> ends rest ->
  read_groups left (S i) (tail_text gs ++ rest) = (gs, false, rest).
Proof.
  intros Hgs. revert left i. induction Hgs as [|g gs Hg Hgs IH]; intros left i Hl He; [by apply read_groups_end|].
  destruct left as [|left]; simpl in Hl; [lia|]. pose proof (tail_text_colon gs rest He) as Hc.
  cbn [tail_text flat_map]. fold (tail_text gs). simpl. rewrite <- app_assoc.
  unfold read_separator; simpl. rewrite group_not_ipv4, read_group_show, IH by (done || lia).
  by destruct left.
Qed.

(** ... and the first one without. *)
Lemma read_groups_text left gs rest :
  Forall in_u16 gs -> (length gs <= left)%nat -> ends rest ->
  read_groups left 0 (groups_text gs ++ rest) = (gs, false, rest).
Proof.
  intros Hgs Hl He. destruct Hgs as [|g gs Hg Hgs]; [by apply read_groups_end|].
  destruct left as [|left]; simpl in Hl; [lia|]. pose proof (tail_text_colon gs rest He) as Hc.
  simpl. rewrite <- app_assoc. unfold read_separator; simpl.
  rewrite group_not_ipv4, read_group_show, read_groups_tail by (done || lia). by destruct left.
Qed.

(** The textual forms of an IPv6 address: eight groups, or two runs of groups
    around a double colon that stands for the missing zeros. *)
Lemma parse_ipv6_full gs :
  Forall in_u16 gs -> length gs = 8%nat -> parse_ipv6 (groups_text gs) = Some gs.
Proof.
  intros Hgs Hl. unfold parse_ipv6, read_ipv6_addr. rewrite <- (app_nil_r (groups_text gs)).
  rewrite read_groups_text by (done || lia || by left). by rewrite Hl.
Qed.

Lemma parse_ipv6_compressed gs tl :
  Forall in_u16 gs -> Forall in_u16 tl -> (length gs + length tl <= 7)%nat ->
  parse_ipv6 (groups_text gs ++ 58 :: 58 :: groups_text tl) =
  Some (gs ++ replicate (8 - length gs - length tl) 0 ++ tl).
Proof.
  intros Hgs Htl Hl. unfold parse_ipv6, read_ipv6_addr.
  rewrite read_groups_text by (done || lia || (right; by eexists)).
  destruct (Nat.eqb_spec (length gs) 8); [lia|]. cbv iota.
  change ((58 =? 58) && (58 =? 58)) with true. cbv iota.
  rewrite <- (app_nil_r (groups_text tl)), read_groups_text by (done || lia || by left). done.
Qed.

(** ** Multiaddrs *)

Definition addr_text (parts : list str) : str := flat_map (fun p => 47 :: p) parts.

(** A component of a multiaddr: not empty and without the separator. *)
Definition part_ok (p : str) : Prop := p <> [] /\ 47 ∉ p.

Lemma str_split_single sep p : sep ∉ p -> str_split sep p = [p].
Proof.
  induction p as [|c p IH]; [done|]. intros [Hc Hp]%not_elem_of_cons. simpl.
  destruct (Z.eqb_spec c sep); [congruence|]. by rewrite IH.
Qed.

Lemma str_split_app sep p s : sep ∉ p -> str_split sep (p ++ sep :: s) = p :: str_split sep s.
Proof.
  induction p as [|c p IH]; simpl; [by rewrite Z.eqb_refl|]. intros [Hc Hp]%not_elem_of_cons.
  destruct (Z.eqb_spec c sep); [congruence|]. by rewrite IH.
Qed.

(** The components of a multiaddr are found by splitting its text. *)
Lemma addr_parts parts :
  Forall part_ok parts -> filter (.≠ []) (str_split 47 (addr_text parts)) = parts.
Proof.
  intros Hp. destruct Hp as [|p ps [Hne Hp] Hps]; [done|].
  cbn [addr_text flat_map app]. fold (addr_text ps). cbn [str_split]. rewrite Z.eqb_refl.
  assert (forall p, 47 ∉ p -> str_split 47 (p ++ addr_text ps) = p :: ps) as Hsp.
  { clear p Hne Hp. induction Hps as [|q ps [Hqn Hq] _ IH]; intros p Hp.
    - by rewrite app_nil_r, str_split_single.
    - cbn [addr_text flat_map app]. rewrite str_split_app by done. by rewrite IH. }
  rewrite Hsp by done. clear Hsp.
  rewrite filter_cons_False by (intros Hn; by apply Hn). rewrite filter_cons_True by done. f_equal.
  induction Hps as [|q ps [Hqn Hq] _ IH]; [done|]. by rewrite filter_cons_True, IH.
Qed.

Lemma position_none p parts : p ∉ parts -> position p parts = None.
Proof.
  induction parts as [|q parts IH]; [done|]. intros [Hq Hp]%not_elem_of_cons. simpl.
  rewrite bool_decide_eq_false_2 by congruence. by rewrite IH.
Qed.

Lemma position_app p pre post : p ∉ pre -> position p (pre ++ p :: post) = Some (length pre).
Proof.
  induction pre as [|q pre IH]; simpl; [by rewrite bool_decide_eq_true_2|].
  intros [Hq Hp]%not_elem_of_cons. rewrite bool_decide_eq_false_2 by congruence. by rewrite IH.
Qed.

Lemma show_dec_no c n : 0 <= n -> ~ (48 <= c <= 57) -> c ∉ show_dec n.
Proof. intros Hn Hc Hin. pose proof (show_dec_ascii n Hn) as Ha. rewrite Forall_forall in Ha. auto. Qed.

Lemma show_dec_nonempty n : show_dec n <> [].
Proof. unfold show_dec; simpl. intros He%app_nil. by destruct He. Qed.

(** Texts without slash and hyphen are components, and not the circuit marker. *)
Definition plain (p : str) : Prop := p <> [] /\ Forall (fun x => 46 <= x /\ x <> 47) p.

Lemma plain_part p : plain p -> part_ok p /\ lit "p2p-circuit" <> p.
Proof.
  intros [Hne Hp]. rewrite Forall_forall in Hp. split; [split; [done|]|].
  - intros Hin. by apply Hp in Hin as [_ ?].
  - intros <-. specialize (Hp 45). simpl in Hp. destruct Hp as [? _]; [|lia].
    apply list_elem_of_In. vm_compute. tauto.
Qed.

Lemma show_ip4_plain a b c d : in_u8 a -> in_u8 b -> in_u8 c -> in_u8 d -> plain (show_ip4 a b c d).
Proof.
  intros Ha Hb Hc Hd. unfold show_ip4. split; [intros [He _]%app_nil; by apply show_dec_nonempty in He|].
  assert (forall n, in_u8 n -> Forall (fun x => 46 <= x /\ x <> 47) (show_dec n)) as Hn.
  { intros n Hn. eapply Forall_impl; [apply show_dec_ascii; ulia|simpl; lia]. }
  repeat (apply Forall_app_2; [by apply Hn|apply Forall_cons_2; [lia|]]). by apply Hn.
Qed.

Lemma groups_plain gs tl : Forall in_u16 (gs ++ tl) -> plain (groups_text gs ++ 58 :: 58 :: groups_text tl).
Proof.
  intros [Hgs Htl]%Forall_app. split; [by intros [_ ?]%app_nil|].
  assert (forall g, in_u16 g -> Forall (fun x => 46 <= x /\ x <> 47) (show_hex g)) as Hg.
  { intros g Hg. eapply Forall_impl; [apply read_hex_show, Hg|simpl; lia]. }
  assert (forall l, Forall in_u16 l -> Forall (fun x => 46 <= x /\ x <> 47) (groups_text l)) as Hl.
  { intros l Hl. destruct Hl as [|g k Hk Hl]; [done|]. simpl. apply Forall_app_2; [by apply Hg|].
    induction Hl as [|g' k Hk' _ IH]; [done|]. simpl. apply Forall_cons_2; [lia|]. apply Forall_app_2; auto. }
  apply Forall_app_2; [auto|]. repeat (apply Forall_cons_2; [lia|]). auto.
Qed.

(** ** What the labels mean *)

(** IPv4 addresses that say nothing about independence. *)
Definition reserved4 (a b c d : Z) : Prop :=
  a = 127 \/ (a = 0 /\ b = 0 /\ c = 0 /\ d = 0) \/ (a = 169 /\ b = 254)
  \/ (a = 255 /\ b = 255 /\ c = 255 /\ d = 255).

Definition ip4_label (a b c : Z) : str :=
  (if (a =? 10) || ((a =? 172) && (16 <=? b) && (b <=? 31)) || ((a =? 192) && (b =? 168))
   then lit "lan" else lit "ip4")
  ++ lit ":" ++ show_dec a ++ lit "." ++ show_dec b ++ lit "." ++ show_dec c.

Lemma parse_ipv4_show a b c d :
  in_u8 a -> in_u8 b -> in_u8 c -> in_u8 d -> parse_ipv4 (show_ip4 a b c d) = Some (a, b, c, d).
Proof.
  intros Ha Hb Hc Hd. unfold parse_ipv4.
  assert (str_len (show_ip4 a b c d) <= 15) as Hl.
  { assert (forall n, in_u8 n -> str_len (show_dec n) <= 3) as Hn.
    { intros n Hn. rewrite str_len_ascii.
      - pose proof (proj2 (read_octet_show n Hn)). unfold zlen. lia.
      - eapply Forall_impl; [apply show_dec_ascii; ulia|simpl; lia]. }
    unfold show_ip4. repeat (rewrite str_len_app; cbn [str_len]).
    pose proof (Hn a Ha). pose proof (Hn b Hb). pose proof (Hn c Hc). pose proof (Hn d Hd).
    change (len_utf8 46) with 1. lia. }
  destruct (Z.ltb_spec 15 (str_len (show_ip4 a b c d))); [lia|].
  rewrite <- (app_nil_r (show_ip4 a b c d)), read_ipv4_show by done. done.
Qed.

Lemma ipv4_domain_show a b c d :
  in_u8 a -> in_u8 b -> in_u8 c -> in_u8 d ->
  (reserved4 a b c d /\ ipv4_domain (show_ip4 a b c d) = None) \/
  (~ reserved4 a b c d /\ ipv4_domain (show_ip4 a b c d) = Some (ip4_label a b c)).
Proof.
  intros Ha Hb Hc Hd. unfold ipv4_domain. rewrite parse_ipv4_show by done. cbn [mbind option_bind].
  unfold reserved4. match goal with |- context [if ?x then None else _] => destruct x eqn:Hx end.
  - left. split; [lia|done].
  - right. split; [lia|done].
Qed.

Lemma ip4_label_inj a b c a' b' c' :
  in_u8 a -> in_u8 b -> in_u8 c -> in_u8 a' -> in_u8 b' -> in_u8 c' ->
  ip4_label a b c = ip4_label a' b' c' -> a = a' /\ b = b' /\ c = c'.
Proof.
  intros Ha Hb Hc Ha' Hb' Hc' He.
  assert (forall n, in_u8 n -> 46 ∉ show_dec n) as Hno by (intros n Hn; apply show_dec_no; ulia).
  assert (show_dec a ++ lit "." ++ show_dec b ++ lit "." ++ show_dec c =
          show_dec a' ++ lit "." ++ show_dec b' ++ lit "." ++ show_dec c') as He'.
  { unfold ip4_label in He. repeat case_match; by injection He. }
  apply split_first_inj in He' as [H1 He']; [|by apply Hno..].
  apply split_first_inj in He' as [H2 H3]; [|by apply Hno..].
  unfold in_uint in *. split_and!; apply show_dec_inj; (done || lia).
Qed.

(** IPv6: the unspecified and loopback addresses and fe80::/10. *)
Definition reserved6 (g : list Z) : Prop :=
  g = replicate 8 0 \/ g = replicate 7 0 ++ [1] \/ 65152 <= hd 0 g <= 65215.

(** The address written as two runs of groups around a double colon. *)
Definition addr6 (gs tl : list Z) : list Z := gs ++ replicate (8 - length gs - length tl) 0 ++ tl.

Definition runs_ok (gs tl : list Z) : Prop := Forall in_u16 (gs ++ tl) /\ (length gs + length tl <= 7)%nat.

Definition ip6_label (g : list Z) : str :=
  lit "ip6:" ++ str_join 58 (show_hex <$> take 3 g).

Lemma link_local_range s : in_u16 s -> (Z.land s 65472 = 65152 <-> 65152 <= s <= 65215).
Proof.
  intros Hs. unfold in_uint, u16_max in Hs.
  assert (Z.land s 65472 = s / 64 * 64) as ->.
  { change 65472 with (Z.shiftl (Z.ones 10) 6). change 64 with (2 ^ 6).
    rewrite <- Z.shiftr_div_pow2, <- Z.shiftl_mul_pow2 by lia.
    apply Z.bits_inj'. intros n Hn. rewrite Z.land_spec, !Z.shiftl_spec by done.
    destruct (Z.ltb_spec n 6); [by rewrite (Z.testbit_neg_r _ (n - 6)), (Z.testbit_neg_r (Z.shiftr s 6)), andb_false_r by lia|].
    rewrite Z.shiftr_spec by lia. replace (n - 6 + 6) with n by lia.
    destruct (Z.ltb_spec n 16); [by rewrite Z.ones_spec_low, andb_true_r by lia|].
    rewrite Z.bits_above_log2; [done|lia|].
    destruct (decide (s = 0)) as [->|]; [simpl; lia|]. apply Z.log2_lt_pow2; [lia|].
    eapply Z.lt_le_trans; [|apply (Z.pow_le_mono_r 2 16); lia]. lia. }
  Z.to_euclidean_division_equations. lia.
Qed.

Lemma addr6_shape gs tl : runs_ok gs tl -> Forall in_u16 (addr6 gs tl) /\ length (addr6 gs tl) = 8%nat.
Proof.
  intros [[Hg Ht]%Forall_app Hl]. unfold addr6. split.
  - rewrite !Forall_app. split_and!; [done| |done]. apply Forall_replicate. ulia.
  - rewrite !length_app, length_replicate. lia.
Qed.

Lemma ipv6_domain_text gs tl :
  runs_ok gs tl -> let g := addr6 gs tl in let text := groups_text gs ++ 58 :: 58 :: groups_text tl in
  (reserved6 g /\ ipv6_domain text = None) \/ (~ reserved6 g /\ ipv6_domain text = Some (ip6_label g)).
Proof.
  intros Hr. cbv zeta. destruct (addr6_shape _ _ Hr) as [Hok Hlen]. destruct Hr as [[Hg Ht]%Forall_app Hl].
  unfold ipv6_domain. rewrite parse_ipv6_compressed by done. fold (addr6 gs tl).
  destruct (addr6 gs tl) as [|s0 [|s1 [|s2 g]]]; try done.
  pose proof (link_local_range s0 ltac:(by inversion Hok)) as Hll. cbn [mbind option_bind].
  unfold reserved6; simpl.
  destruct (bool_decide_reflect (s0 :: s1 :: s2 :: g = [0; 0; 0; 0; 0; 0; 0; 1])); [left; split; [by right; left|done]|].
  destruct (bool_decide_reflect (s0 :: s1 :: s2 :: g = [0; 0; 0; 0; 0; 0; 0; 0])); [left; split; [by left|done]|].
  simpl. destruct (Z.eqb_spec (Z.land s0 65472) 65152); [left; split; [right; right; tauto|done]|].
  right. split; [tauto|done].
Qed.

Lemma show_hex_inj m n : in_u16 m -> in_u16 n -> show_hex m = show_hex n -> m = n.
Proof.
  intros Hm Hn He. pose proof (proj1 (read_hex_show m Hm)) as H1. pose proof (proj1 (read_hex_show n Hn)) as H2.
  rewrite He in H1. congruence.
Qed.

Lemma ip6_label_inj g g' :
  Forall in_u16 g -> Forall in_u16 g' -> length g = 8%nat -> length g' = 8%nat ->
  ip6_label g = ip6_label g' -> take 3 g = take 3 g'.
Proof.
  intros Hg Hg' Hl Hl' He.
  assert (forall n, in_u16 n -> 58 ∉ show_hex n) as Hno.
  { intros n Hn Hin. destruct (read_hex_show n Hn) as (_ & Hc & _). rewrite Forall_forall in Hc.
    specialize (Hc _ Hin). simpl in Hc. lia. }
  destruct g as [|a [|b [|c g]]]; try done. destruct g' as [|a' [|b' [|c' g']]]; try done.
  rewrite !Forall_cons in Hg, Hg'. destruct Hg as (Ha & Hb & Hc & _), Hg' as (Ha' & Hb' & Hc' & _).
  unfold ip6_label in He. simpl in He. simplify_eq.
  apply split_first_inj in He as [H1 He]; [|by apply Hno..].
  apply split_first_inj in He as [H2 H3]; [|by apply Hno..].
  simpl. by rewrite (show_hex_inj a a'), (show_hex_inj b b'), (show_hex_inj c c').
Qed.

(** An address that starts with a protocol and its value is labelled by them. *)
Lemma addr_first proto value more :
  Forall part_ok (proto :: value :: more) -> lit "p2p-circuit" ∉ proto :: value :: more ->
  failure_domain_for_addr (addr_text (proto :: value :: more)) =
  scan_parts (length (proto :: value :: more)) (proto :: value :: more).
Proof. intros Hok Hn. unfold failure_domain_for_addr. by rewrite addr_parts, position_none. Qed.

Lemma addr_first_plain proto value more :
  plain proto -> plain value -> Forall part_ok more -> lit "p2p-circuit" ∉ more ->
  failure_domain_for_addr (addr_text (proto :: value :: more)) =
  scan_parts (S (S (length more))) (proto :: value :: more).
Proof.
  intros [Hp Hp']%plain_part [Hv Hv']%plain_part Hm Hn.
  apply addr_first; [by rewrite !Forall_cons|]. by rewrite !not_elem_of_cons.
Qed.

Lemma literal_plain : plain (lit "ip4") /\ plain (lit "ip6").
Proof. split; (split; [done|]; cbv; repeat (apply Forall_cons_2; [split; done|]); apply Forall_nil_2). Qed.

(** Behind a circuit relay the relay is the label. *)
Lemma relay_label pre relay more :
  Forall part_ok pre -> part_ok relay -> Forall part_ok more -> lit "p2p-circuit" ∉ relay :: pre ->
  failure_domain_for_addr (addr_text (pre ++ lit "p2p" :: relay :: lit "p2p-circuit" :: more)) =
  Some (lit "relay:" ++ relay).
Proof.
  intros Hp Hrl Hm [Hc1 Hc2]%not_elem_of_cons. unfold failure_domain_for_addr. rewrite addr_parts.
  - replace (pre ++ lit "p2p" :: relay :: lit "p2p-circuit" :: more)
      with ((pre ++ [lit "p2p"; relay]) ++ lit "p2p-circuit" :: more) by (by rewrite <- app_assoc).
    rewrite position_app; [|rewrite not_elem_of_app, !not_elem_of_cons; split_and!; [done|done|done|set_solver]].
    rewrite length_app, <- app_assoc. cbn [length app].
    rewrite (proj2 (Nat.leb_le _ _)) by lia. cbn [andb].
    rewrite !lookup_app_r by lia.
    replace (length pre + 2 - 2 - length pre)%nat with 0%nat by lia.
    replace (length pre + 2 - 1 - length pre)%nat with 1%nat by lia. done.
  - apply Forall_app_2; [done|].
    rewrite !Forall_cons. split_and!; try done; (split; [done|]); intros Hin%list_elem_of_In;
      vm_compute in Hin; decompose [or] Hin; done.
Qed.

(** Failure domains: however an address goes on, an IPv4 address written in
    decimal is labelled unless it is loopback, unspecified, link-local or
    broadcast, and two labels agree exactly when the addresses share their /24;
    an IPv6 address written with a double colon is labelled unless it is
    unspecified, loopback or in fe80::/10, and labels agree exactly on the /48;
    and behind a relay the label is the relay.  So two copies are counted as
    diverse exactly when their networks differ. *)
Theorem labels_name_networks (more : list str) :
  Forall part_ok more -> lit "p2p-circuit" ∉ more ->
  let L4 a b c d := failure_domain_for_addr (addr_text (lit "ip4" :: show_ip4 a b c d :: more)) in
  let L6 gs tl := failure_domain_for_addr
                    (addr_text (lit "ip6" :: (groups_text gs ++ lit "::" ++ groups_text tl) :: more)) in
  (forall a b c d, in_u8 a -> in_u8 b -> in_u8 c -> in_u8 d ->
     (L4 a b c d = None <-> reserved4 a b c d) /\
     (forall a' b' c' d', in_u8 a' -> in_u8 b' -> in_u8 c' -> in_u8 d' ->
        ~ reserved4 a b c d -> ~ reserved4 a' b' c' d' ->
        (L4 a b c d = L4 a' b' c' d' <-> (a, b, c) = (a', b', c')))) /\
  (forall gs tl, runs_ok gs tl ->
     (L6 gs tl = None <-> reserved6 (addr6 gs tl)) /\
     (forall gs' tl', runs_ok gs' tl' -> ~ reserved6 (addr6 gs tl) -> ~ reserved6 (addr6 gs' tl') ->
        (L6 gs tl = L6 gs' tl' <-> take 3 (addr6 gs tl) = take 3 (addr6 gs' tl')))) /\
  (forall pre relay, Forall part_ok pre -> part_ok relay -> lit "p2p-circuit" ∉ relay :: pre ->
     failure_domain_for_addr (addr_text (pre ++ lit "p2p" :: relay :: lit "p2p-circuit" :: more)) =
     Some (lit "relay:" ++ relay)).
Proof.
  intros Hm Hn L4 L6. destruct literal_plain as [P4 P6].
  assert (forall a b c d, in_u8 a -> in_u8 b -> in_u8 c -> in_u8 d ->
    L4 a b c d = ipv4_domain (show_ip4 a b c d)) as E4.
  { intros a b c d Ha Hb Hc Hd. unfold L4. rewrite addr_first_plain; [done|done|by apply show_ip4_plain|done|done]. }
  assert (forall gs tl, runs_ok gs tl -> L6 gs tl = ipv6_domain (groups_text gs ++ 58 :: 58 :: groups_text tl)) as E6.
  { intros gs tl [Hr _]. unfold L6. rewrite addr_first_plain; [done|done|by apply groups_plain|done|done]. }
  split_and!.
  - intros a b c d Ha Hb Hc Hd. rewrite E4 by done. pose proof (ipv4_domain_show a b c d Ha Hb Hc Hd) as Hx.
    split; [destruct Hx as [[? ->]|[? ->]]; naive_solver|].
    intros a' b' c' d' Ha' Hb' Hc' Hd' Hs Hs'. rewrite E4 by done.
    destruct Hx as [[? ?]|[_ ->]]; [done|].
    destruct (ipv4_domain_show a' b' c' d') as [[? ?]|[_ ->]]; [done..|].
    split; [intros [= He]|by intros [= -> -> ->]].
    apply ip4_label_inj in He as (-> & -> & ->); done.
  - intros gs tl Hr. rewrite E6 by done. pose proof (ipv6_domain_text gs tl Hr) as Hx. cbv zeta in Hx.
    split; [destruct Hx as [[? ->]|[? ->]]; naive_solver|].
    intros gs' tl' Hr' Hs Hs'. rewrite E6 by done. destruct Hx as [[? ?]|[_ ->]]; [done|].
    destruct (ipv6_domain_text gs' tl' Hr') as [[? ?]|[_ ->]]; [done|].
    destruct (addr6_shape _ _ Hr), (addr6_shape _ _ Hr').
    split; [intros He%(inj Some); by apply ip6_label_inj|]. intros He. unfold ip6_label. by rewrite He.
  - intros pre relay Hp Hrl Hc. by apply relay_label.
Qed.

(** Addresses of a plain TCP listener: two hosts of one public /24 share their
    label, a neighbouring /24 does not. *)
Lemma labels_name_networks_witness :
  let more := [lit "tcp"; lit "4001"] in
  let L a b c d := failure_domain_for_addr (addr_text (lit "ip4" :: show_ip4 a b c d :: more)) in
  L 203 0 113 7 = Some (lit "ip4:203.0.113") /\
  (L 203 0 113 7 = L 203 0 113 9 <-> (203, 0, 113) = (203, 0, 113)) /\
  (L 203 0 113 7 = L 203 0 114 7 <-> (203, 0, 113) = (203, 0, 114)).
Proof.
  assert (Forall part_ok [lit "tcp"; lit "4001"]) as Hm.
  { repeat apply Forall_cons_2; try apply Forall_nil_2; (split; [done|]); intros Hin%list_elem_of_In;
      vm_compute in Hin; decompose [or] Hin; done. }
  assert (lit "p2p-circuit" ∉ [lit "tcp"; lit "4001"]) as Hn.
  { intros Hin%list_elem_of_In. vm_compute in Hin. decompose [or] Hin; done. }
  pose proof (labels_name_networks [lit "tcp"; lit "4001"] Hm Hn) as [H4 _].
  split_and!; [reflexivity| |]; apply H4; unfold in_uint, u8_max, reserved4; lia.
Defined.
