(* ===== verification/Replicas.v ===== *)
(** * Replicas: evidence about holders, the maintenance planner, holder choice

    Models [repair/detector.rs], [repair/evidence.rs], [repair/maintenance.rs],
    [select_holder] of [repair/select.rs], and the location records of
    [network/types.rs].  Platform instants and protocol times are explicit
    arguments; the peer-id text format of libp2p and the base58 text of a
    content identifier are parameters.  Hash sets and maps are finite sets and
    maps; where the source sorts what it took out of a set, so does the
    model. *)

From S2P Require Import Prelude Bytes Text ErasureCode Dissolve Schedule FailureDomain.

(** ** Location records *)

Record ShardLocation := mkLoc {
  peer_id_bytes : bytes;
  shard_index : Z;
  loc_segment : Z;
  addrs : list str;
}.

#[export] Instance ShardLocation_eq_dec : EqDecision ShardLocation.
Proof. solve_decision. Defined.

Record DhtRecord := mkRecord {
  mid_digest : bytes;
  rec_data_shards : Z;
  rec_total_shards : Z;
  rec_version : Z;
  locations : list ShardLocation;
  published_at : Z;
}.

Definition MAX_SEGMENTS : Z := 65536.
Definition MAX_RECORD_LOCATIONS : Z := 1048576.
Definition MAX_LOCATION_ADDRS : Z := 32.
Definition MAX_LOCATION_ADDR_LEN : Z := 512.
Definition MAX_PEER_ID_BYTES : Z := 128.

Definition location_valid (n : Z) (loc : ShardLocation) : bool :=
  negb ((MAX_SEGMENTS <=? loc_segment loc) || (n <=? shard_index loc)
        || (MAX_PEER_ID_BYTES <? zlen (peer_id_bytes loc)) || (MAX_LOCATION_ADDRS <? zlen (addrs loc))
        || existsb (fun a => MAX_LOCATION_ADDR_LEN <? str_len a) (addrs loc)).

(** [DhtRecord::validate]; the message of the error is not kept. *)
Definition validate (r : DhtRecord) : bool :=
  let k := rec_data_shards r in
  let n := rec_total_shards r in
  if (k =? 0) || (n <? k) then false
  else if Z.min MAX_RECORD_LOCATIONS (MAX_SEGMENTS * n) <? zlen (locations r) then false
  else forallb (location_valid n) (locations r).

(** ** Offline detector *)

Inductive PeerHealth := Healthy | HSuspected | Offline.

#[export] Instance PeerHealth_eq_dec : EqDecision PeerHealth.
Proof. solve_decision. Defined.

Record PeerState := mkPeer {
  health : PeerHealth;
  consecutive_failures : Z;
  last_probe : option Z;
  last_success : option Z;
}.

Record OfflineDetector := mkDetector {
  peers : gmap str PeerState;
  max_failures : Z;
  probe_interval : Z;
  suspect_interval : Z;
}.

(** Intervals in seconds. *)
Definition default_detector : OfflineDetector := mkDetector ∅ 3 3600 300.

Definition set_peers (f : gmap str PeerState -> gmap str PeerState) (d : OfflineDetector) : OfflineDetector :=
  mkDetector (f (peers d)) (max_failures d) (probe_interval d) (suspect_interval d).

Definition track (d : OfflineDetector) (peer_id : str) : OfflineDetector :=
  set_peers (fun m => match m !! peer_id with
                      | Some _ => m
                      | None => <[peer_id := mkPeer Healthy 0 None None]> m
                      end) d.

Definition record_success (d : OfflineDetector) (inst : Z) (peer_id : str) : OfflineDetector :=
  set_peers (alter (fun s => mkPeer Healthy 0 (Some inst) (Some inst)) peer_id) d.

(** The counter is a [u32]; it wraps in a release build. *)
Definition record_failure (d : OfflineDetector) (inst : Z) (peer_id : str) : OfflineDetector :=
  set_peers (alter (fun s =>
    let fails := wrapping_add u32_max (consecutive_failures s) 1 in
    mkPeer (if max_failures d <=? fails then Offline else HSuspected) fails (Some inst) (last_success s))
    peer_id) d.

Definition due_for_probe (d : OfflineDetector) (inst : Z) (s : PeerState) : bool :=
  let interval := match health s with HSuspected => suspect_interval d | _ => probe_interval d end in
  match last_probe s with Some t => interval <=? sat_sub inst t | None => true end.

Definition peers_due_for_probe (d : OfflineDetector) (inst : Z) : gset str :=
  dom (filter (fun ps => due_for_probe d inst ps.2 = true) (peers d)).

Definition offline_peers (d : OfflineDetector) : gset str :=
  dom (filter (fun ps => health ps.2 = Offline) (peers d)).

Definition peer_health (d : OfflineDetector) (peer_id : str) : option PeerHealth :=
  health <$> peers d !! peer_id.

(** ** Evidence *)

Inductive ProbeOutcome := Verified | Unverifiable | Unreachable.
Inductive HolderState := HUnknown | HLive | Suspected | HLost.

#[export] Instance ProbeOutcome_eq_dec : EqDecision ProbeOutcome.
Proof. solve_decision. Defined.
#[export] Instance HolderState_eq_dec : EqDecision HolderState.
Proof. solve_decision. Defined.

Record EvidenceConfig := mkEvidenceConfig {
  probe_interval_secs : Z;
  suspect_interval_secs : Z;
  evidence_ttl_secs : Z;
  cfg_max_failures : Z;
}.

Definition default_evidence_config : EvidenceConfig := mkEvidenceConfig 21600 600 86400 3.

Record PieceEvidence := mkEvidence { pe_last_probe : Z; pe_last_ok : option Z; pe_lost : bool }.

Record EvidenceBook := mkBook {
  eb_cfg : EvidenceConfig;
  detector : OfflineDetector;
  pieces : gmap (str * PieceKey) PieceEvidence;
}.

Definition new_book (cfg : EvidenceConfig) : EvidenceBook :=
  let d := default_detector in
  mkBook cfg (mkDetector (peers d) (Z.max (cfg_max_failures cfg) 1) (probe_interval d) (suspect_interval d)) ∅.

(** [record_probe]; [inst] is the platform instant the detector reads. *)
Definition record_probe (b : EvidenceBook) (inst : Z) (holder : str) (piece : PieceKey)
    (outcome : ProbeOutcome) (now : Z) : EvidenceBook :=
  let d := track (detector b) holder in
  let entry := default (mkEvidence now None false) (pieces b !! (holder, piece)) in
  let '(d', entry') :=
    match outcome with
    | Verified => (record_success d inst holder, mkEvidence now (Some now) false)
    | Unverifiable => (record_success d inst holder, mkEvidence now (pe_last_ok entry) true)
    | Unreachable => (record_failure d inst holder, mkEvidence now (pe_last_ok entry) (pe_lost entry))
    end in
  mkBook (eb_cfg b) d' (<[(holder, piece) := entry']> (pieces b)).

Definition holder_state (b : EvidenceBook) (holder : str) (piece : PieceKey) (now : Z) : HolderState :=
  let evidence := pieces b !! (holder, piece) in
  if match evidence with Some e => pe_lost e | None => false end then HLost else
  match peer_health (detector b) holder with
  | Some Offline => HLost
  | Some HSuspected => Suspected
  | Some Healthy =>
      match evidence ≫= pe_last_ok with
      | Some t => if sat_sub now t <=? evidence_ttl_secs (eb_cfg b) then HLive else HUnknown
      | None => HUnknown
      end
  | None => HUnknown
  end.

Definition probe_due (b : EvidenceBook) (holder : str) (piece : PieceKey) (now : Z) : bool :=
  match pieces b !! (holder, piece) with
  | None => true
  | Some e =>
      let interval := match holder_state b holder piece now with
                      | Suspected => suspect_interval_secs (eb_cfg b)
                      | _ => probe_interval_secs (eb_cfg b)
                      end in
      sat_add u64_max (pe_last_probe e) interval <=? now
  end.

Definition retain_pieces (b : EvidenceBook) (keep : str * PieceKey -> bool) : EvidenceBook :=
  mkBook (eb_cfg b) (detector b) (filter (fun kv => keep kv.1 = true) (pieces b)).

Record LocatedReplica := mkReplica {
  location : ShardLocation;
  replica_holder : str;
  replica_domain : option str;
  replica_state : HolderState;
}.

Definition piece_key (r : LocatedReplica) (mid : bytes) : PieceKey :=
  mkKey mid (loc_segment (location r)) (shard_index (location r)).

Record ReplicaObservation := mkObs {
  obs_slot : Z;
  obs_holder : str;
  obs_domain : option str;
  obs_reachable : bool;
  obs_verified : bool;
}.

Definition observation (r : LocatedReplica) : ReplicaObservation :=
  let counts := negb (bool_decide (replica_state r = HLost)) in
  mkObs (shard_index (location r)) (replica_holder r) (replica_domain r) counts counts.

Section Peers.
(** [PeerId::from_bytes] followed by its text form. *)
Context (peer_text : bytes -> option str).

Definition holder_id_of (loc : ShardLocation) : str :=
  match peer_text (peer_id_bytes loc) with
  | Some t => t
  | None => lit "raw:" ++ hex_encode (peer_id_bytes loc)
  end.

Definition classify (b : EvidenceBook) (record : DhtRecord) (segment now : Z) : list LocatedReplica :=
  (fun l =>
     let holder := holder_id_of l in
     mkReplica l holder (failure_domain_for_addrs (addrs l))
       (holder_state b holder (mkKey (mid_digest record) (loc_segment l) (shard_index l)) now))
  <$> filter (fun l => loc_segment l = segment) (locations record).
End Peers.

(** ** Planner *)

Record PieceMaintenanceConfig := mkPlannerConfig {
  target_replicas_per_slot : nat;
  max_actions_per_tick : nat;
  repair_cooldown : Z;
  prefer_distinct_failure_domains : bool;
}.

Definition default_planner_config : PieceMaintenanceConfig := mkPlannerConfig 2 4 1800 true.

Record PieceMaintenanceAction := mkAction {
  action_slot : Z;
  avoid_holders : list str;
  avoid_failure_domains : list str;
  reachable_replicas : nat;
  known_failure_domains : nat;
}.

Record PieceMaintenancePlan := mkPlan {
  plan_mid : str;
  expected_slots : nat;
  healthy_slots : nat;
  at_risk_slots : nat;
  cooldown_suppressed : nat;
  actions : list PieceMaintenanceAction;
}.

Record PieceMaintenanceEngine := mkEngine {
  pm_config : PieceMaintenanceConfig;
  last_attempt : gmap (str * Z) Z;
}.

Definition new_engine (c : PieceMaintenanceConfig) : PieceMaintenanceEngine := mkEngine c ∅.

Definition sorted_vec (X : gset str) : list str := merge_sort str_le (elements X).

Section Planner.
(** The text form of a content identifier. *)
Context (mid_text : bytes -> str).

Definition record_repair (e : PieceMaintenanceEngine) (mid : bytes) (slot inst : Z) : PieceMaintenanceEngine :=
  mkEngine (pm_config e) (<[(mid_text mid, slot) := inst]> (last_attempt e)).

Definition prune_cooldowns (e : PieceMaintenanceEngine) (inst : Z) : PieceMaintenanceEngine :=
  mkEngine (pm_config e) (filter (fun ka => sat_sub inst ka.2 < repair_cooldown (pm_config e)) (last_attempt e)).

Definition in_cooldown (e : PieceMaintenanceEngine) (mid : str) (slot inst : Z) : bool :=
  match last_attempt e !! (mid, slot) with
  | Some at_ => sat_sub inst at_ <? repair_cooldown (pm_config e)
  | None => false
  end.

(** The inner loop: the holders of a slot, and the domains of those seen for
    the first time. *)
Definition see_replica (acc : gset str * gset str) (r : ReplicaObservation) : gset str * gset str :=
  let '(holders, domains) := acc in
  if bool_decide (obs_holder r ∈ holders) then acc
  else ({[obs_holder r]} ∪ holders,
        match obs_domain r with Some d => {[d]} ∪ domains | None => domains end).

Definition slot_replicas (observations : list ReplicaObservation) (slot : Z) : gset str * gset str :=
  fold_left see_replica
    (filter (fun r => obs_slot r = slot /\ obs_reachable r = true /\ obs_verified r = true) observations)
    (∅, ∅).

Definition needs_action (c : PieceMaintenanceConfig) (holders domains : gset str) : bool :=
  let target := Nat.max (target_replicas_per_slot c) 1 in
  let enough_replicas := (target <=? size holders)%nat in
  let domain_diversity_needed :=
    prefer_distinct_failure_domains c && (1 <? target)%nat && negb (size domains =? 0)%nat
    && (size domains <? Nat.min target (size holders))%nat in
  negb enough_replicas || domain_diversity_needed.

(** The counters and actions the planning loop carries. *)
Record plan_acc := mkAcc { pa_healthy : nat; pa_risk : nat; pa_cooling : nat; pa_actions : list PieceMaintenanceAction }.

Definition make_action (slot : Z) (holders domains : gset str) : PieceMaintenanceAction :=
  let hs := sorted_vec holders in
  let ds := sorted_vec domains in
  mkAction slot hs ds (length hs) (length ds).

Definition plan_slot (e : PieceMaintenanceEngine) (mid : str) (inst : Z) (obs : list ReplicaObservation)
    (acc : plan_acc) (slot : Z) : plan_acc :=
  let '(holders, domains) := slot_replicas obs slot in
  let '(mkAcc h r c acts) := acc in
  if negb (needs_action (pm_config e) holders domains) then mkAcc (S h) r c acts
  else if in_cooldown e mid slot inst then mkAcc h (S r) (S c) acts
  else if (max_actions_per_tick (pm_config e) <=? length acts)%nat then mkAcc h (S r) c acts
  else mkAcc h (S r) c (acts ++ [make_action slot holders domains]).

(** The slots of the loop: up to the first that does not fit a [u16]. *)
Definition slot_range (expected : nat) : list Z := seqZ 0 (Z.min (Z.of_nat expected) 65536).

Definition plan (e : PieceMaintenanceEngine) (mid : bytes) (params : DissolutionParams)
    (obs : list ReplicaObservation) (inst : Z) : PieceMaintenancePlan :=
  let m := mid_text mid in
  let '(mkAcc h r c acts) :=
    fold_left (plan_slot e m inst obs) (slot_range (total_shards params)) (mkAcc 0 0 0 []) in
  mkPlan m (total_shards params) h r c acts.
End Planner.

(** ** Choice of a holder *)

Record Candidate := mkCandidate { cand_peer : str; cand_domain : option str }.
Record Selection := mkSelection { sel_candidate : Candidate; adds_domain_diversity : bool }.

(** [Iterator::min_by_key]: the first of the minimal elements. *)
Definition min_by_key {A} (lt : A -> A -> bool) (l : list A) : option A :=
  match l with
  | [] => None
  | x :: l' => Some (fold_left (fun best y => if lt y best then y else best) l' x)
  end.

Section Select.
Context (candidates : list Candidate) (action : PieceMaintenanceAction) (target_replicas : nat)
        (holder_load : gmap str nat) (per_holder_cap : nat).

Definition load (c : Candidate) : nat := default O (holder_load !! cand_peer c).

Definition eligible (c : Candidate) : bool :=
  negb (bool_decide (cand_peer c ∈ avoid_holders action)) && (load c <? Nat.max per_holder_cap 1)%nat.

Definition fresh_domain (c : Candidate) : bool :=
  match cand_domain c with Some d => negb (bool_decide (d ∈ avoid_failure_domains action)) | None => false end.

Definition known_domain (c : Candidate) : bool := match cand_domain c with Some _ => true | None => false end.

Definition load_lt (c d : Candidate) : bool := (load c <? load d)%nat.

(** The key [(failure_domain.is_some(), load)]. *)
Definition fallback_lt (c d : Candidate) : bool :=
  (negb (known_domain c) && known_domain d) || (Bool.eqb (known_domain c) (known_domain d) && load_lt c d).

Definition select_holder : option Selection :=
  match min_by_key load_lt (List.filter fresh_domain (List.filter eligible candidates)) with
  | Some c => Some (mkSelection c true)
  | None =>
      if (Nat.max target_replicas 1 <=? reachable_replicas action)%nat then None
      else (fun c => mkSelection c false) <$> min_by_key fallback_lt (List.filter eligible candidates)
  end.
End Select.

(** ** Evidence is a function of the probe history *)

Record Probe := mkProbe {
  pr_inst : Z;
  pr_holder : str;
  pr_piece : PieceKey;
  pr_outcome : ProbeOutcome;
  pr_now : Z;
}.

(** The book after a history of probes, the newest first. *)
Definition book_after (cfg : EvidenceConfig) (h : list Probe) : EvidenceBook :=
  foldr (fun p b => record_probe b (pr_inst p) (pr_holder p) (pr_piece p) (pr_outcome p) (pr_now p))
    (new_book cfg) h.

Definition asked (h : list Probe) (holder : str) : bool :=
  existsb (fun p => bool_decide (pr_holder p = holder)) h.

(** How many of the latest probes of [holder], of any piece, went unanswered. *)
Fixpoint silent (h : list Probe) (holder : str) : nat :=
  match h with
  | [] => O
  | p :: h' =>
      if bool_decide (pr_holder p = holder)
      then (if bool_decide (pr_outcome p = Unreachable) then S (silent h' holder) else O)
      else silent h' holder
  end.

(** The latest answer of [holder] about [piece], with its time. *)
Fixpoint answer (h : list Probe) (holder : str) (piece : PieceKey) : option (ProbeOutcome * Z) :=
  match h with
  | [] => None
  | p :: h' =>
      if bool_decide (pr_holder p = holder /\ pr_piece p = piece /\ pr_outcome p <> Unreachable)
      then Some (pr_outcome p, pr_now p) else answer h' holder piece
  end.

Definition state_of_history (cfg : EvidenceConfig) (h : list Probe) (holder : str) (piece : PieceKey) (now : Z) :
    HolderState :=
  match answer h holder piece with
  | Some (Unverifiable, _) => HLost
  | a =>
      if negb (asked h holder) then HUnknown
      else if Z.max (cfg_max_failures cfg) 1 <=? Z.of_nat (silent h holder) then HLost
      else if (0 <? silent h holder)%nat then Suspected
      else match a with
           | Some (_, t) => if sat_sub now t <=? evidence_ttl_secs cfg then HLive else HUnknown
           | None => HUnknown
           end
  end.

Definition health_of (m : Z) (n : nat) : PeerHealth :=
  if (n =? 0)%nat then Healthy else if m <=? Z.of_nat n then Offline else HSuspected.

(** What the book stores, read off the history. *)
Record book_ok (cfg : EvidenceConfig) (h : list Probe) (b : EvidenceBook) : Prop := {
  bo_cfg : eb_cfg b = cfg;
  bo_max : max_failures (detector b) = Z.max (cfg_max_failures cfg) 1;
  bo_peer : forall holder,
    if asked h holder
    then exists s, peers (detector b) !! holder = Some s /\ consecutive_failures s = Z.of_nat (silent h holder)
           /\ health s = health_of (Z.max (cfg_max_failures cfg) 1) (silent h holder)
    else peers (detector b) !! holder = None;
  bo_lost : forall holder piece,
    match answer h holder piece with
    | Some (Unverifiable, _) => exists e, pieces b !! (holder, piece) = Some e /\ pe_lost e = true
    | Some (_, t) => exists e, pieces b !! (holder, piece) = Some e /\ pe_lost e = false /\ pe_last_ok e = Some t
    | None => match pieces b !! (holder, piece) with
              | Some e => pe_lost e = false /\ pe_last_ok e = None | None => True end
    end;
}.

Lemma silent_le h holder : (silent h holder <= length h)%nat.
Proof. induction h as [|p h IH]; simpl; [lia|]. repeat case_match; lia. Qed.

Lemma silent_not_asked h holder : asked h holder = false -> silent h holder = O.
Proof.
  induction h as [|p h IH]; simpl; [done|]. intros [Hp Hh]%orb_false_iff.
  rewrite Hp. auto.
Qed.

(** The detector entry of the probed peer, before the outcome is recorded. *)
Lemma track_lookup d q holder :
  peers (track d q) !! holder =
  if bool_decide (q = holder) then Some (default (mkPeer Healthy 0 None None) (peers d !! holder))
  else peers d !! holder.
Proof.
  unfold track, set_peers; simpl. case_bool_decide as Hq.
  - subst. destruct (peers d !! holder) eqn:He; simpl; [done|]. by rewrite lookup_insert_eq.
  - destruct (peers d !! q); [done|]. by rewrite lookup_insert_ne.
Qed.

Lemma record_probe_peers b inst q piece o now holder :
  peers (detector (record_probe b inst q piece o now)) !! holder =
  if bool_decide (q = holder) then
    let s := default (mkPeer Healthy 0 None None) (peers (detector b) !! holder) in
    Some (match o with
          | Unreachable =>
              let fails := wrapping_add u32_max (consecutive_failures s) 1 in
              mkPeer (if max_failures (detector b) <=? fails then Offline else HSuspected) fails (Some inst) (last_success s)
          | _ => mkPeer Healthy 0 (Some inst) (Some inst)
          end)
  else peers (detector b) !! holder.
Proof.
  pose proof (track_lookup (detector b) q holder) as Ht.
  unfold record_probe, record_success, record_failure.
  destruct o; cbn [detector]; unfold set_peers at 1; cbn [peers]; case_bool_decide as Hq; subst;
    [rewrite lookup_alter_eq, Ht|rewrite lookup_alter_ne, Ht by done|
     rewrite lookup_alter_eq, Ht|rewrite lookup_alter_ne, Ht by done|
     rewrite lookup_alter_eq, Ht|rewrite lookup_alter_ne, Ht by done]; reflexivity.
Qed.

Lemma record_probe_pieces b inst q piece o now :
  pieces (record_probe b inst q piece o now) =
  <[(q, piece) := let e := default (mkEvidence now None false) (pieces b !! (q, piece)) in
                  match o with
                  | Verified => mkEvidence now (Some now) false
                  | Unverifiable => mkEvidence now (pe_last_ok e) true
                  | Unreachable => mkEvidence now (pe_last_ok e) (pe_lost e)
                  end]> (pieces b).
Proof. by destruct o. Qed.

Lemma record_probe_const b inst q piece o now :
  eb_cfg (record_probe b inst q piece o now) = eb_cfg b /\
  max_failures (detector (record_probe b inst q piece o now)) = max_failures (detector b).
Proof. by destruct o. Qed.

Lemma book_after_peer cfg h b p holder :
  zlen (p :: h) <= u32_max -> book_ok cfg h b ->
  let b' := record_probe b (pr_inst p) (pr_holder p) (pr_piece p) (pr_outcome p) (pr_now p) in
  if asked (p :: h) holder
  then exists s, peers (detector b') !! holder = Some s
         /\ consecutive_failures s = Z.of_nat (silent (p :: h) holder)
         /\ health s = health_of (Z.max (cfg_max_failures cfg) 1) (silent (p :: h) holder)
  else peers (detector b') !! holder = None.
Proof.
  intros Hl [_ Bm Bp _]. cbv zeta. rewrite record_probe_peers. specialize (Bp holder).
  cbn [asked existsb silent]. fold (asked h holder). case_bool_decide as Hq; [|exact Bp]. simpl.
  eexists. split; [reflexivity|].
  assert (consecutive_failures (default (mkPeer Healthy 0 None None) (peers (detector b) !! holder))
          = Z.of_nat (silent h holder)) as Hc.
  { destruct (asked h holder) eqn:Ha; [by destruct Bp as (s & -> & Hs & _)|].
    rewrite Bp, silent_not_asked by done. done. }
  pose proof (silent_le h holder). rewrite zlen_cons in Hl. unfold zlen in Hl.
  assert (wrapping_add u32_max (Z.of_nat (silent h holder)) 1 = Z.of_nat (S (silent h holder))) as Hw.
  { unfold wrapping_add. rewrite Z.mod_small; [lia|ulia]. }
  destruct (pr_outcome p); simpl; [done|done|]. by rewrite Hc, Hw, Bm.
Qed.

Lemma book_after_piece cfg h b p holder piece :
  book_ok cfg h b ->
  let b' := record_probe b (pr_inst p) (pr_holder p) (pr_piece p) (pr_outcome p) (pr_now p) in
  match answer (p :: h) holder piece with
  | Some (Unverifiable, _) => exists e, pieces b' !! (holder, piece) = Some e /\ pe_lost e = true
  | Some (_, t) => exists e, pieces b' !! (holder, piece) = Some e /\ pe_lost e = false /\ pe_last_ok e = Some t
  | None => match pieces b' !! (holder, piece) with
            | Some e => pe_lost e = false /\ pe_last_ok e = None | None => True end
  end.
Proof.
  intros [_ _ _ Bl]. cbv zeta. rewrite record_probe_pieces. specialize (Bl holder piece). simpl.
  destruct (decide ((pr_holder p, pr_piece p) = (holder, piece))) as [[= <- <-]|Hne].
  - rewrite lookup_insert_eq. destruct (pr_outcome p) eqn:Ho.
    + rewrite bool_decide_eq_true_2 by done. by eexists.
    + rewrite bool_decide_eq_true_2 by done. by eexists.
    + rewrite bool_decide_eq_false_2 by naive_solver.
      destruct (answer h _ _) as [[[] t]|]; [| |destruct Bl as (e & -> & ?)|]; simpl.
      * destruct Bl as (e & -> & ? & ?). by eexists.
      * destruct Bl as (e & -> & ?). by eexists.
      * by eexists.
      * destruct (pieces b !! _) as [e|]; simpl; [by destruct Bl|done].
  - rewrite lookup_insert_ne by done. by rewrite bool_decide_eq_false_2 by naive_solver.
Qed.

Lemma book_after_ok cfg h : zlen h <= u32_max -> book_ok cfg h (book_after cfg h).
Proof.
  induction h as [|p h IH]; intros Hl; [by split|].
  specialize (IH ltac:(rewrite zlen_cons in Hl; lia)). simpl.
  destruct (record_probe_const (book_after cfg h) (pr_inst p) (pr_holder p) (pr_piece p) (pr_outcome p) (pr_now p))
    as [E1 E2].
  split.
  - rewrite E1. apply IH.
  - rewrite E2. apply IH.
  - intros holder. by apply (book_after_peer cfg h).
  - intros holder piece. by apply (book_after_piece cfg h).
Qed.

(** The four-way decision on the peer's health. *)
Lemma health_decides cfg h b holder x :
  book_ok cfg h b ->
  match peer_health (detector b) holder with
  | Some Offline => HLost | Some HSuspected => Suspected | Some Healthy => x | None => HUnknown
  end =
  if negb (asked h holder) then HUnknown
  else if Z.max (cfg_max_failures cfg) 1 <=? Z.of_nat (silent h holder) then HLost
  else if (0 <? silent h holder)%nat then Suspected else x.
Proof.
  intros [_ _ Bp _]. specialize (Bp holder). unfold peer_health.
  destruct (asked h holder); [|by rewrite Bp]. destruct Bp as (s & -> & _ & Hh). simpl. rewrite Hh.
  unfold health_of. destruct (silent h holder); simpl; [|by destruct (_ <=? _)].
  rewrite (proj2 (Z.leb_gt _ _)) by lia. done.
Qed.

(** C35. Evidence: after any history of probes, what the book believes of a holder
    of a piece is exactly what the history says.  It is lost when its latest
    answer about the piece was not a valid copy, or when the configured number
    of consecutive probes of that holder went unanswered; suspected after
    fewer; live when it returned a valid copy within the evidence lifetime and
    answered the last probe; unknown otherwise.  So one missed probe, or a
    start from nothing, never makes a holder lost. *)
Theorem evidence_matches_history (cfg : EvidenceConfig) (h : list Probe) (holder : str) (piece : PieceKey) (now : Z) :
  zlen h <= u32_max ->
  holder_state (book_after cfg h) holder piece now = state_of_history cfg h holder piece now.
Proof.
  intros Hl. pose proof (book_after_ok cfg h Hl) as Hok.
  pose proof (bo_lost _ _ _ Hok holder piece) as Bl.
  unfold holder_state, state_of_history. rewrite (bo_cfg _ _ _ Hok), (health_decides cfg h) by done.
  destruct (answer h holder piece) as [[[] t]|]; [| | |destruct (pieces (book_after cfg h) !! (holder, piece)) as [e|]; [|done]].
  - destruct Bl as (e & -> & Hl1 & Hl2). simpl. by rewrite Hl1, Hl2.
  - by destruct Bl as (e & -> & ->).
  - destruct Bl as (e & -> & Hl1 & Hl2). simpl. by rewrite Hl1, Hl2.
  - destruct Bl as [Hl1 Hl2]. simpl. by rewrite Hl1, Hl2.
Qed.

(** Two missed probes in a row: suspected.  Three: lost, also for a piece that
    was verified before. *)
Lemma evidence_matches_history_witness :
  let key := mkKey [7] 0 3 in
  let holder := lit "peer" in
  let ok := mkProbe 0 holder key Verified 100 in
  let miss t := mkProbe 0 holder key Unreachable t in
  holder_state (book_after default_evidence_config [miss 300; miss 200; ok]) holder key 400 = Suspected /\
  holder_state (book_after default_evidence_config [miss 400; miss 300; miss 200; ok]) holder key 400 = HLost.
Proof.
  cbv zeta. split; (etrans; [apply evidence_matches_history; vm_compute; congruence|reflexivity]).
Defined.

(** ** The planner computes what it should *)

Lemma see_replicas_holders obs acc :
  (fold_left see_replica obs acc).1 = acc.1 ∪ list_to_set (obs_holder <$> obs).
Proof.
  revert acc. induction obs as [|r obs IH]; intros [hs ds]; simpl; [set_solver|].
  rewrite IH. case_bool_decide; simpl; set_solver.
Qed.

(** The live replicas of a slot. *)
Definition live_obs (obs : list ReplicaObservation) (slot : Z) : list ReplicaObservation :=
  filter (fun r => obs_slot r = slot /\ obs_reachable r = true /\ obs_verified r = true) obs.

Definition live_holders (obs : list ReplicaObservation) (slot : Z) : gset str :=
  list_to_set (obs_holder <$> live_obs obs slot).

Lemma slot_replicas_holders obs slot : (slot_replicas obs slot).1 = live_holders obs slot.
Proof. unfold slot_replicas. rewrite see_replicas_holders. simpl. unfold live_holders, live_obs. set_solver. Qed.

(** Every known domain of a live holder is one of its observations' domains. *)
Lemma see_replicas_domains obs acc d :
  d ∈ (fold_left see_replica obs acc).2 -> d ∈ acc.2 \/ exists r, r ∈ obs /\ obs_domain r = Some d.
Proof.
  revert acc. induction obs as [|r obs IH]; intros [hs ds]; simpl; [by left|].
  intros Hd. apply IH in Hd as [Hd|(r' & ? & ?)]; [|right; exists r'; set_solver].
  case_bool_decide; simpl in Hd; [by left|]. destruct (obs_domain r) as [d'|] eqn:He; [|by left].
  apply elem_of_union in Hd as [Hd|Hd]; [|by left].
  right. exists r. split; [set_solver|]. set_solver.
Qed.

Lemma sorted_vec_props X : (forall x, x ∈ sorted_vec X <-> x ∈ X) /\ length (sorted_vec X) = size X /\ NoDup (sorted_vec X).
Proof.
  unfold sorted_vec. pose proof (merge_sort_Permutation str_le (elements X)) as Hp. split_and!.
  - intros x. by rewrite Hp, elem_of_elements.
  - by rewrite Hp.
  - rewrite Hp. apply NoDup_elements.
Qed.

Section PlanFold.
Context (e : PieceMaintenanceEngine) (mid : str) (inst : Z) (obs : list ReplicaObservation).

Definition slot_at_risk (slot : Z) : bool :=
  needs_action (pm_config e) (slot_replicas obs slot).1 (slot_replicas obs slot).2.

Definition slot_action (slot : Z) : PieceMaintenanceAction :=
  make_action slot (slot_replicas obs slot).1 (slot_replicas obs slot).2.

Lemma plan_fold slots acc :
  (length (pa_actions acc) <= max_actions_per_tick (pm_config e))%nat ->
  let risky := List.filter slot_at_risk slots in
  let cooling := List.filter (fun s => in_cooldown e mid s inst) risky in
  let ready := List.filter (fun s => negb (in_cooldown e mid s inst)) risky in
  fold_left (plan_slot e mid inst obs) slots acc =
  mkAcc (pa_healthy acc + (length slots - length risky)) (pa_risk acc + length risky)
        (pa_cooling acc + length cooling)
        (pa_actions acc ++
         (slot_action <$> take (max_actions_per_tick (pm_config e) - length (pa_actions acc)) ready)).
Proof.
  revert acc. induction slots as [|s slots IH]; intros [h r c acts] Hl; cbv zeta in *; simpl in *.
  { rewrite take_nil, app_nil_r. f_equal; lia. }
  pose proof (filter_length_le slot_at_risk slots) as Hle.
  unfold plan_slot at 2. unfold slot_at_risk, slot_action in *.
  destruct (slot_replicas obs s) as [hs ds] eqn:Hs. simpl.
  destruct (needs_action (pm_config e) hs ds) eqn:Hn; simpl.
  2: { rewrite IH by done. simpl. f_equal; lia. }
  destruct (in_cooldown e mid s inst); simpl; [rewrite IH by done; simpl; f_equal; lia|].
  destruct (Nat.leb_spec (max_actions_per_tick (pm_config e)) (length acts)).
  - rewrite IH by done. simpl. replace (max_actions_per_tick (pm_config e) - length acts)%nat with O by lia.
    simpl. f_equal; lia.
  - rewrite IH by (simpl; rewrite length_app; simpl; lia). simpl. f_equal; [lia..|].
    rewrite length_app; simpl. rewrite <- app_assoc. f_equal.
    replace (max_actions_per_tick (pm_config e) - length acts)%nat
      with (S (max_actions_per_tick (pm_config e) - (length acts + 1)))%nat by lia.
    simpl. by rewrite Hs.
Qed.
End PlanFold.

(** When a slot needs another replica. *)
Definition short_or_uniform (c : PieceMaintenanceConfig) (holders domains : nat) : Prop :=
  let target := Nat.max (target_replicas_per_slot c) 1 in
  (holders < target)%nat \/
  (prefer_distinct_failure_domains c = true /\ (1 < target)%nat /\ (0 < domains < Nat.min target holders)%nat).

Lemma needs_action_spec c hs ds : needs_action c hs ds = true <-> short_or_uniform c (size hs) (size ds).
Proof.
  unfold needs_action, short_or_uniform. cbv zeta.
  generalize (size hs) (size ds) (Nat.max (target_replicas_per_slot c) 1). intros m n k.
  destruct (prefer_distinct_failure_domains c); lia.
Qed.

Lemma plan_unfold mid_text e mid params obs inst :
  (total_shards params <= Z.to_nat 65536)%nat ->
  let m := mid_text mid in
  let slots := seqZ 0 (Z.of_nat (total_shards params)) in
  let risky := List.filter (slot_at_risk e obs) slots in
  plan mid_text e mid params obs inst =
  mkPlan m (total_shards params) (total_shards params - length risky) (length risky)
    (length (List.filter (fun s => in_cooldown e m s inst) risky))
    (slot_action obs <$> take (max_actions_per_tick (pm_config e))
       (List.filter (fun s => negb (in_cooldown e m s inst)) risky)).
Proof.
  intros Hn. cbv zeta. unfold plan, slot_range.
  rewrite Z.min_l by (rewrite <- (Z2Nat.id 65536); lia).
  rewrite plan_fold by (simpl; lia). simpl. rewrite Nat.sub_0_r, length_seqZ, Nat2Z.id. done.
Qed.

(** The planner: every slot of the content is either healthy or at risk, and it is at
    risk exactly when it has fewer distinct live holders than the target, or
    enough of them but fewer known failure domains than it could have; the
    actions are those of the first slots at risk that are not cooling down, at
    most the configured number; each names exactly the live holders of its
    slot to avoid, each once, and counts them; and a further advertisement by
    a holder already counted for its slot changes nothing, so duplicate
    advertisements never inflate durability. *)
Theorem plan_exact (mid_text : bytes -> str) (e : PieceMaintenanceEngine) (mid : bytes)
    (params : DissolutionParams) (obs : list ReplicaObservation) (inst : Z) :
  (total_shards params <= Z.to_nat 65536)%nat ->
  let p := plan mid_text e mid params obs inst in
  let slots := seqZ 0 (Z.of_nat (total_shards params)) in
  let risky := List.filter (slot_at_risk e obs) slots in
  (forall s, s ∈ risky <-> s ∈ slots /\
     short_or_uniform (pm_config e) (size (live_holders obs s)) (size (slot_replicas obs s).2)) /\
  at_risk_slots p = length risky /\ (healthy_slots p + at_risk_slots p = total_shards params)%nat /\
  (action_slot <$> actions p) = take (max_actions_per_tick (pm_config e))
    (List.filter (fun s => negb (in_cooldown e (mid_text mid) s inst)) risky) /\
  (forall a, a ∈ actions p ->
     NoDup (avoid_holders a) /\ (forall x, x ∈ avoid_holders a <-> x ∈ live_holders obs (action_slot a)) /\
     reachable_replicas a = size (live_holders obs (action_slot a)) /\
     (forall d, d ∈ avoid_failure_domains a ->
        exists r, r ∈ live_obs obs (action_slot a) /\ obs_domain r = Some d)) /\
  (forall r, obs_holder r ∈ live_holders obs (obs_slot r) ->
     plan mid_text e mid params (obs ++ [r]) inst = p).
Proof.
  intros Hn. cbv zeta. rewrite !plan_unfold by done. cbn [at_risk_slots healthy_slots actions]. split_and!.
  - intros s. rewrite <- slot_replicas_holders, <- needs_action_spec, !list_elem_of_In, filter_In. done.
  - done.
  - pose proof (filter_length_le (slot_at_risk e obs) (seqZ 0 (Z.of_nat (total_shards params)))) as Hl.
    rewrite length_seqZ in Hl. lia.
  - rewrite <- list_fmap_compose. rewrite <- (list_fmap_id (take _ _)) at 2. apply list_fmap_ext. done.
  - intros a (s & -> & _)%list_elem_of_fmap. unfold slot_action, make_action; simpl.
    rewrite <- slot_replicas_holders.
    destruct (sorted_vec_props (slot_replicas obs s).1) as (H1 & H2 & H3).
    destruct (sorted_vec_props (slot_replicas obs s).2) as (H4 & _).
    split_and!; [done|done|done|]. intros d Hd%H4.
    apply see_replicas_domains in Hd as [Hd|Hd]; [set_solver|done].
  - intros r Hr. rewrite plan_unfold by done.
    assert (forall s, slot_replicas (obs ++ [r]) s = slot_replicas obs s) as Hs.
    { intros s. unfold slot_replicas. rewrite filter_app, fold_left_app.
      destruct (decide (obs_slot r = s /\ obs_reachable r = true /\ obs_verified r = true)) as [Hd|Hd].
      2: { by rewrite filter_cons_False. }
      rewrite filter_cons_True by done. simpl. fold (slot_replicas obs s).
      destruct Hd as [<- _]. rewrite <- slot_replicas_holders in Hr.
      destruct (slot_replicas obs (obs_slot r)) as [hs ds]. simpl in *. by rewrite bool_decide_eq_true_2. }
    assert (forall l, List.filter (slot_at_risk e (obs ++ [r])) l = List.filter (slot_at_risk e obs) l) as Hf.
    { intros l. apply filter_ext. intros s. unfold slot_at_risk. by rewrite Hs. }
    rewrite Hf. f_equal. apply list_fmap_ext. intros ? s _. unfold slot_action. by rewrite Hs.
Qed.

(** Slot 0 has two holders, one of them advertised twice; slot 1 has none. *)
Lemma plan_exact_witness :
  let obs := [mkObs 0 (lit "a") None true true; mkObs 0 (lit "b") None true true] in
  let dup := mkObs 0 (lit "a") (Some (lit "x")) true true in
  let e := new_engine default_planner_config in
  let p := plan (fun m => m) e [1] (mkParams 1 2) obs 0 in
  action_slot <$> actions p = [1] /\ (healthy_slots p + at_risk_slots p = 2)%nat /\
  plan (fun m => m) e [1] (mkParams 1 2) (obs ++ [dup]) 0 = p.
Proof.
  cbv zeta.
  pose proof (plan_exact (fun m => m) (new_engine default_planner_config) [1] (mkParams 1 2)
    [mkObs 0 (lit "a") None true true; mkObs 0 (lit "b") None true true] 0 ltac:(simpl; lia))
    as (_ & _ & H1 & _ & _ & H2).
  split_and!; [vm_compute; reflexivity|exact H1|]. apply H2. vm_compute. tauto.
Defined.

(** ** The chosen holder *)

(** A strict order given by a key: asymmetric and negatively transitive. *)
Record key_order {A} (lt : A -> A -> bool) : Prop := {
  ko_trans : forall x y z, lt x y = true -> lt y z = true -> lt x z = true;
  ko_neg : forall x y z, lt x y = false -> lt y z = false -> lt x z = false;
}.

Lemma min_fold {A} (lt : A -> A -> bool) l x : key_order lt ->
  let c := fold_left (fun best y => if lt y best then y else best) l x in
  (c = x /\ forall d, d ∈ l -> lt d x = false) \/
  (exists l1 l2, l = l1 ++ c :: l2 /\ lt c x = true /\
     (forall d, d ∈ l1 -> lt c d = true) /\ (forall d, d ∈ l2 -> lt d c = false)).
Proof.
  intros [Ht Hn]. cbv zeta. revert x. induction l as [|y l IH]; intros x; simpl; [left; split; set_solver|].
  destruct (lt y x) eqn:Hy.
  - right. destruct (IH y) as [[-> Hl]|(l1 & l2 & He & Hc & H1 & H2)].
    + exists [], l. split_and!; [done|done|set_solver|done].
    + exists (y :: l1), l2. split_and!; [simpl; congruence|by eapply Ht| |done].
      intros d [->|?]%elem_of_cons; auto.
  - destruct (IH x) as [[-> Hl]|(l1 & l2 & He & Hc & H1 & H2)].
    + left. split; [done|]. intros d [->|?]%elem_of_cons; auto.
    + right. exists (y :: l1), l2. split_and!; [simpl; congruence|done| |done].
      intros d [->|?]%elem_of_cons; [|auto]. apply not_false_is_true. intros Hf.
      by rewrite (Hn _ _ _ Hf Hy) in Hc.
Qed.

Lemma min_by_key_spec {A} (lt : A -> A -> bool) l c : key_order lt -> (forall x, lt x x = false) ->
  min_by_key lt l = Some c ->
  exists l1 l2, l = l1 ++ c :: l2 /\ (forall d, d ∈ l1 -> lt c d = true) /\ (forall d, d ∈ l2 -> lt d c = false).
Proof.
  intros Hk Hi. destruct l as [|x l]; [done|]. simpl. intros [= Hc].
  destruct (min_fold lt l x Hk) as [[He Hl]|(l1 & l2 & He & Hlt & H1 & H2)]; rewrite Hc in *; clear Hc.
  - subst. exists [], l. split_and!; [done|set_solver|done].
  - exists (x :: l1), l2. split_and!; [simpl; congruence| |done]. intros d [->|?]%elem_of_cons; auto.
Qed.

Lemma filter_split {A} (f : A -> bool) l l1 c l2 :
  List.filter f l = l1 ++ c :: l2 ->
  exists k1 k2, l = k1 ++ c :: k2 /\ List.filter f k1 = l1 /\ List.filter f k2 = l2.
Proof.
  revert l1. induction l as [|x l IH]; intros l1; simpl; [by destruct l1|].
  destruct (f x) eqn:Hf.
  - destruct l1 as [|y l1]; simpl; intros [= -> He]; [by exists [], l|].
    destruct (IH l1 He) as (k1 & k2 & -> & <- & <-). exists (y :: k1), k2. simpl. by rewrite Hf.
  - intros He. destruct (IH l1 He) as (k1 & k2 & -> & <- & <-). exists (x :: k1), k2. simpl. by rewrite Hf.
Qed.

Lemma load_order ld : key_order (load_lt ld).
Proof. unfold load_lt. split; intros x y z; lia. Qed.

Lemma fallback_order ld : key_order (fallback_lt ld).
Proof.
  unfold fallback_lt, load_lt. split; intros x y z;
    destruct (known_domain x), (known_domain y), (known_domain z); simpl; lia.
Qed.

Lemma filter_In_bool {A} (f : A -> bool) l x : x ∈ List.filter f l <-> x ∈ l /\ f x = true.
Proof. by rewrite !list_elem_of_In, filter_In. Qed.

Lemma min_by_key_min {A} (lt : A -> A -> bool) l c : key_order lt -> (forall x, lt x x = false) ->
  min_by_key lt l = Some c -> c ∈ l /\ forall d, d ∈ l -> lt d c = false.
Proof.
  intros Hk Hi Hm. destruct (min_by_key_spec lt l c Hk Hi Hm) as (l1 & l2 & -> & H1 & H2).
  split; [set_solver|]. intros d [Hd|[->|Hd]%elem_of_cons]%elem_of_app; [|done|auto].
  apply not_true_is_false. intros Hlt. pose proof (ko_trans _ Hk _ _ _ (H1 d Hd) Hlt). specialize (Hi c). congruence.
Qed.

Lemma min_by_key_none {A} (lt : A -> A -> bool) l : min_by_key lt l = None -> l = [].
Proof. by destruct l. Qed.

(** Who may hold another copy of the slot, and who adds a failure domain. *)
Definition may_hold (a : PieceMaintenanceAction) (ld : gmap str nat) (cap : nat) (d : Candidate) : Prop :=
  (cand_peer d ∉ avoid_holders a) /\ (load ld d < Nat.max cap 1)%nat.

Definition adds_domain (a : PieceMaintenanceAction) (d : Candidate) : Prop :=
  exists dom, cand_domain d = Some dom /\ dom ∉ avoid_failure_domains a.

Lemma eligible_spec a ld cap d : eligible a ld cap d = true <-> may_hold a ld cap d.
Proof.
  unfold eligible, may_hold. rewrite andb_true_iff, negb_true_iff, bool_decide_eq_false.
  by rewrite Nat.ltb_lt.
Qed.

Lemma fresh_spec a d : fresh_domain a d = true <-> adds_domain a d.
Proof.
  unfold fresh_domain, adds_domain. destruct (cand_domain d) as [x|]; [|naive_solver].
  rewrite negb_true_iff, bool_decide_eq_false. naive_solver.
Qed.

Lemma diverse_members a ld cap cands d :
  d ∈ List.filter (fresh_domain a) (List.filter (eligible a ld cap) cands) <->
  d ∈ cands /\ may_hold a ld cap d /\ adds_domain a d.
Proof. rewrite !filter_In_bool, eligible_spec, fresh_spec. tauto. Qed.

Lemma fallback_le ld c d : fallback_lt ld d c = false ->
  (is_Some (cand_domain c) -> is_Some (cand_domain d)) /\
  ((is_Some (cand_domain d) -> is_Some (cand_domain c)) -> (load ld c <= load ld d)%nat).
Proof.
  unfold fallback_lt, load_lt, known_domain. intros Hlt.
  destruct (cand_domain c), (cand_domain d); simpl in Hlt; split; try done; try lia.
  intros [? ?]; [by eexists|done].
Qed.

(** Holder choice.  A chosen holder never is one the slot already uses and never is
    at its load cap.  If some eligible candidate sits in a failure domain the
    slot does not use, the choice is such a one, with the least load among
    them and the backend's ranking deciding ties.  Otherwise a correlated copy
    is chosen only for a slot short of its target, preferring an unknown
    domain over a used one, then the least load.  Nothing is chosen exactly
    when no candidate is eligible, or none adds diversity to a slot that has
    enough copies. *)
Theorem select_holder_best (cands : list Candidate) (a : PieceMaintenanceAction) (target : nat)
    (ld : gmap str nat) (cap : nat) :
  let ok := may_hold a ld cap in
  let fresh := adds_domain a in
  match select_holder cands a target ld cap with
  | Some (mkSelection c true) => ok c /\ fresh c /\
      exists k1 k2, cands = k1 ++ c :: k2 /\
        (forall d, d ∈ k1 -> ok d -> fresh d -> load ld c < load ld d)%nat /\
        (forall d, d ∈ k2 -> ok d -> fresh d -> load ld c <= load ld d)%nat
  | Some (mkSelection c false) => c ∈ cands /\ ok c /\ (reachable_replicas a < Nat.max target 1)%nat /\
      (forall d, d ∈ cands -> ok d -> ~ fresh d) /\
      (forall d, d ∈ cands -> ok d ->
         (is_Some (cand_domain c) -> is_Some (cand_domain d)) /\
         ((is_Some (cand_domain d) -> is_Some (cand_domain c)) -> (load ld c <= load ld d)%nat))
  | None => (forall d, d ∈ cands -> ok d -> ~ fresh d) /\
      ((forall d, d ∈ cands -> ~ ok d) \/ (Nat.max target 1 <= reachable_replicas a)%nat)
  end.
Proof.
  cbv zeta. unfold select_holder. destruct (min_by_key (load_lt ld) _) as [c|] eqn:Hm.
  - apply min_by_key_spec in Hm as (l1 & l2 & He & H1 & H2); [|apply load_order|unfold load_lt; intros; lia].
    assert (c ∈ List.filter (fresh_domain a) (List.filter (eligible a ld cap) cands)) as Hc by (rewrite He; set_solver).
    apply diverse_members in Hc as (_ & Hc1 & Hc2).
    apply filter_split in He as (j1 & j2 & He & <- & <-). apply filter_split in He as (k1 & k2 & -> & <- & <-).
    split_and!; [done|done|]. exists k1, k2. unfold load_lt in *. setoid_rewrite diverse_members in H1.
    setoid_rewrite diverse_members in H2. split_and!; [done| |]; intros d Hd Ho Hf.
    + specialize (H1 d ltac:(done)). lia.
    + specialize (H2 d ltac:(done)). lia.
  - assert (forall d, d ∈ cands -> may_hold a ld cap d -> ~ adds_domain a d) as Hnf.
    { intros d Hd Ho Hf. apply min_by_key_none in Hm.
      pose proof (proj2 (diverse_members a ld cap cands d) ltac:(done)) as Hin. rewrite Hm in Hin. set_solver. }
    destruct (Nat.leb_spec (Nat.max target 1) (reachable_replicas a)); [by split; [|right]|].
    destruct (min_by_key (fallback_lt ld) _) as [c|] eqn:Hm'; simpl.
    + apply min_by_key_min in Hm' as [Hc Hmin];
        [|apply fallback_order|intros x; unfold fallback_lt, load_lt; destruct (known_domain x); simpl; lia].
      setoid_rewrite filter_In_bool in Hmin. setoid_rewrite eligible_spec in Hmin.
      rewrite filter_In_bool, eligible_spec in Hc. destruct Hc as [Hc1 Hc2]. split_and!; [done..|].
      intros d Hd Ho. by apply fallback_le, Hmin.
    + split; [done|left]. apply min_by_key_none in Hm'. intros d Hd Ho%eligible_spec.
      pose proof (proj2 (filter_In_bool (eligible a ld cap) cands d) ltac:(done)) as Hin. rewrite Hm' in Hin. set_solver.
Qed.
