(* ===== verification/Executor.v ===== *)
(** * Executor: the maintenance pass

    Models [repair/executor.rs]: the invariants of a record rewrite, the probing
    of holders, one repair action, and the whole pass [MaintenanceCore::tick].
    Everything that touches the network or the disk goes through the
    [MaintenanceBackend] trait, here a record of functions over a world [W];
    the theorems hold for every backend, also one that lies.  The order in
    which a hash map yields its keys and the platform instant are read through
    parameters.  The tokio task around the pass is not modelled. *)

From S2P Require Import Prelude Bytes Text ErasureCode Dissolve Schedule FailureDomain Replicas.

(** ** Backend *)

(** Errors are kept only as the absence of a value; the pass never looks into
    them. *)
Record MaintenanceBackend (W : Type) := mkBackend {
  tracked_records : W -> list DhtRecord * W;
  probe : ShardLocation -> bytes -> W -> (ProbeOutcome * Z) * W;
  source_share : DhtRecord -> Z -> Z -> list ShardLocation -> W -> option MiasmaShare * W;
  candidates : list str -> W -> list Candidate * W;
  push : Candidate -> MiasmaShare -> W -> option ShardLocation * W;
  verify_record : DhtRecord -> W -> bool * W;
  stage_record : DhtRecord -> W -> bool * W;
  commit_record : DhtRecord -> W -> bool * W;
  link_allows_background : W -> bool * W;
}.
Arguments mkBackend {W}.
Arguments tracked_records {W}.
Arguments probe {W}.
Arguments source_share {W}.
Arguments candidates {W}.
Arguments push {W}.
Arguments verify_record {W}.
Arguments stage_record {W}.
Arguments commit_record {W}.
Arguments link_allows_background {W}.

(** ** Configuration and reporting *)

Record MaintenanceConfig := mkMaintenanceConfig {
  planner : PieceMaintenanceConfig;
  evidence_cfg : EvidenceConfig;
  backoff : BackoffPolicy;
  initial_delay_secs : Z;
  tick_interval_secs : Z;
  max_probes_per_tick : nat;
  cfg_rate_bytes_per_sec : Z;
  cfg_burst_bytes : Z;
  daily_budget_bytes : Z;
}.

Definition default_maintenance_config : MaintenanceConfig :=
  mkMaintenanceConfig default_planner_config default_evidence_config default_policy
    600 300 8 65536 4194304 268435456.

(** The integer fields of the report, by name. *)
Inductive Counter :=
| RecordsSeen | RecordsInvalid | RecordsNotMaintainable | Probes | ProbeBytes | AtRiskSlots
| Repaired | Failed | DeferredBackoff | DeferredBudget | DeferredActionCap
| SkippedNoCandidate | SkippedNoSource | RejectedSource
| RecordsCommitted | CommitFailures | InvariantViolations.

#[export] Instance Counter_eq_dec : EqDecision Counter.
Proof. solve_decision. Defined.

Record TickReport := mkReport { paused : bool; count : Counter -> Z }.

Definition empty_report : TickReport := mkReport false (fun _ => 0).

Definition set_count (c : Counter) (v : Z) (r : TickReport) : TickReport :=
  mkReport (paused r) (fun c' => if bool_decide (c' = c) then v else count r c').

Definition bump (c : Counter) (r : TickReport) : TickReport := set_count c (count r c + 1) r.

(** ** Invariants of a rewrite *)

Definition slot_of (l : ShardLocation) : Z * Z := (loc_segment l, shard_index l).

Definition check_record_update (previous updated : DhtRecord) : bool :=
  if negb (bool_decide (mid_digest previous = mid_digest updated)) then false
  else if negb ((rec_data_shards previous =? rec_data_shards updated)
                && (rec_total_shards previous =? rec_total_shards updated)) then false
  else if negb (validate updated) then false
  else if negb (forallb (fun l => bool_decide (slot_of l ∈ slot_of <$> locations updated)) (locations previous))
  then false
  else bool_decide (NoDup ((fun l => (slot_of l, peer_id_bytes l)) <$> locations updated)).

Definition record_params (record : DhtRecord) : option (bytes * DissolutionParams) :=
  if validate record
  then Some (mid_digest record, mkParams (Z.to_nat (rec_data_shards record)) (Z.to_nat (rec_total_shards record)))
  else None.

Definition set_locations (ls : list ShardLocation) (r : DhtRecord) : DhtRecord :=
  mkRecord (mid_digest r) (rec_data_shards r) (rec_total_shards r) (rec_version r) ls (published_at r).

Definition set_published (t : Z) (r : DhtRecord) : DhtRecord :=
  mkRecord (mid_digest r) (rec_data_shards r) (rec_total_shards r) (rec_version r) (locations r) t.

(** ** Core state *)

Record MaintenanceCore := mkCore {
  cfg : MaintenanceConfig;
  engine : PieceMaintenanceEngine;
  evidence : EvidenceBook;
  ledger : AttemptLedger;
  budget : RateBudget;
  pending_commits : gmap bytes DhtRecord;
  cursor : Z;
}.

(** The planner's own cooldown is replaced by the ledger. *)
Definition new_core (c : MaintenanceConfig) (start_secs : Z) : MaintenanceCore :=
  let p := planner c in
  mkCore c
    (new_engine (mkPlannerConfig (target_replicas_per_slot p) (max_actions_per_tick p) 0
                   (prefer_distinct_failure_domains p)))
    (new_book (evidence_cfg c)) (new_ledger (backoff c))
    (new_budget (cfg_rate_bytes_per_sec c) (cfg_burst_bytes c) (daily_budget_bytes c) start_secs) ∅ 0.

Definition set_evidence (e : EvidenceBook) (c : MaintenanceCore) : MaintenanceCore :=
  mkCore (cfg c) (engine c) e (ledger c) (budget c) (pending_commits c) (cursor c).
Definition set_ledger (l : AttemptLedger) (c : MaintenanceCore) : MaintenanceCore :=
  mkCore (cfg c) (engine c) (evidence c) l (budget c) (pending_commits c) (cursor c).
Definition set_budget (b : RateBudget) (c : MaintenanceCore) : MaintenanceCore :=
  mkCore (cfg c) (engine c) (evidence c) (ledger c) b (pending_commits c) (cursor c).
Definition set_pending (m : gmap bytes DhtRecord) (c : MaintenanceCore) : MaintenanceCore :=
  mkCore (cfg c) (engine c) (evidence c) (ledger c) (budget c) m (cursor c).
Definition set_cursor (n : Z) (c : MaintenanceCore) : MaintenanceCore :=
  mkCore (cfg c) (engine c) (evidence c) (ledger c) (budget c) (pending_commits c) n.

Section Pass.
Context `{Crypto} {W : Type} (B : MaintenanceBackend W).
Context (peer_text : bytes -> option str) (mid_text : bytes -> str).
Context (instant : W -> Z) (pending_keys : gmap bytes DhtRecord -> list bytes).

(** What a pass mutates: the core, the world, the report and the two caps. *)
Record pass := mkPass {
  p_core : MaintenanceCore;
  p_world : W;
  p_report : TickReport;
  p_probes : nat;
  p_actions : nat;
}.

Definition on_core (f : MaintenanceCore -> MaintenanceCore) (p : pass) : pass :=
  mkPass (f (p_core p)) (p_world p) (p_report p) (p_probes p) (p_actions p).
Definition on_report (f : TickReport -> TickReport) (p : pass) : pass :=
  mkPass (p_core p) (p_world p) (f (p_report p)) (p_probes p) (p_actions p).
Definition with_world (w : W) (p : pass) : pass :=
  mkPass (p_core p) w (p_report p) (p_probes p) (p_actions p).

Definition record_outcome (key : PieceKey) (now : Z) (ok : bool) (p : pass) : pass :=
  on_core (fun c => set_ledger (record_attempt blake3 (ledger c) key now ok) c) p.

(** [budget.can_spend(now, 1)], which refills the bucket. *)
Definition check_budget (now : Z) (p : pass) : pass * bool :=
  let '(b, ok) := can_spend (budget (p_core p)) now 1 in (on_core (set_budget b) p, ok).

(** ** Probing *)

Definition probe_one (record : DhtRecord) (now : Z) (p : pass) (replica : LocatedReplica) : pass :=
  if (p_probes p =? 0)%nat then p else
  let key := piece_key replica (mid_digest record) in
  if negb (probe_due (evidence (p_core p)) (replica_holder replica) key now) then p else
  let '(p, ok) := check_budget now p in
  if negb ok then p else
  let '((o, bs), w) := probe B (location replica) (mid_digest record) (p_world p) in
  let c := p_core p in
  let c := set_budget (charge (budget c) now bs) c in
  let c := set_evidence (record_probe (evidence c) (instant w) (replica_holder replica) key o now) c in
  let r := p_report p in
  let r := set_count ProbeBytes (sat_add u64_max (count r ProbeBytes) bs) (bump Probes r) in
  mkPass c w r (pred (p_probes p)) (p_actions p).

Definition probe_segment (record : DhtRecord) (segment now : Z) (p : pass) : pass :=
  fold_left (probe_one record now) (classify peer_text (evidence (p_core p)) record segment now) p.

(** ** One action *)

Definition count_holder (m : gmap str nat) (r : LocatedReplica) : gmap str nat :=
  <[replica_holder r := S (default O (m !! replica_holder r))]> m.

Definition run_action (working : DhtRecord) (mid : bytes) (params : DissolutionParams) (segment : Z)
    (action : PieceMaintenanceAction) (key : PieceKey) (now : Z) (p : pass) : pass * DhtRecord :=
  let slot := action_slot action in
  let replicas := classify peer_text (evidence (p_core p)) working segment now in
  let exclude := replica_holder <$> filter (fun r => shard_index (location r) = slot) replicas in
  let holder_load := fold_left count_holder (filter (fun r => replica_state r <> HLost) replicas) ∅ in
  let per_holder_cap := Nat.max (total_shards params - data_shards params) 1 in
  let '(cands, w) := candidates B exclude (p_world p) in
  let p := with_world w p in
  match select_holder cands action (target_replicas_per_slot (planner (cfg (p_core p)))) holder_load per_holder_cap with
  | None => (record_outcome key now false (on_report (bump SkippedNoCandidate) p), working)
  | Some selection =>
      let candidate := sel_candidate selection in
      let live := location <$> filter (fun r => shard_index (location r) = slot /\ replica_state r <> HLost) replicas in
      let '(source, w) := source_share B working segment slot live (p_world p) in
      let p := with_world w p in
      match source with
      | None => (record_outcome key now false (on_report (bump SkippedNoSource) p), working)
      | Some share =>
          if negb (slot_index share =? slot) || negb (segment_index share =? segment)
             || negb (coarse_verify share mid)
          then (record_outcome key now false (on_report (bump RejectedSource) p), working)
          else
            let cost := zlen (shard_data share) + zlen (key_share share) in
            let '(b, ok) := try_spend (budget (p_core p)) now cost in
            let p := on_core (set_budget b) p in
            if negb ok then (on_report (bump DeferredBudget) p, working)
            else
              let '(pushed, w) := push B candidate share (p_world p) in
              let p := with_world w p in
              match pushed with
              | Some loc =>
                  if (shard_index loc =? slot) && (loc_segment loc =? segment) then
                    let lost := replica_holder <$>
                      filter (fun r => shard_index (location r) = slot /\ replica_state r = HLost) replicas in
                    let kept := filter (fun l => ~ (loc_segment l = segment /\ shard_index l = slot
                                                    /\ holder_id_of peer_text l ∈ lost)) (locations working) in
                    (on_report (bump Repaired) (record_outcome key now true p),
                     set_locations (kept ++ [loc]) working)
                  else (record_outcome key now false (on_report (bump Failed) p), working)
              | None => (record_outcome key now false (on_report (bump Failed) p), working)
              end
      end
  end.

(** ** One record *)

Definition newer (record : DhtRecord) (now : Z) : Z := Z.max now (sat_add u64_max (published_at record) 1).

(** Make a pushed replica durable. *)
Definition stage_if_legal (record working : DhtRecord) (now : Z) (p : pass) : pass :=
  let staged := set_published (newer record now) working in
  if check_record_update record staged
  then let '(_, w) := stage_record B staged (p_world p) in with_world w p
  else p.

Definition run_planned (record : DhtRecord) (mid : bytes) (params : DissolutionParams) (segment now : Z)
    (st : pass * DhtRecord) (action : PieceMaintenanceAction) : pass * DhtRecord :=
  let '(p, working) := st in
  if (p_actions p =? 0)%nat then (on_report (bump DeferredActionCap) p, working) else
  let key := mkKey (mid_digest record) segment (action_slot action) in
  if negb (allowed (ledger (p_core p)) key now) then (on_report (bump DeferredBackoff) p, working) else
  let '(p, ok) := check_budget now p in
  if negb ok then (on_report (bump DeferredBudget) p, working) else
  let p := mkPass (p_core p) (p_world p) (p_report p) (p_probes p) (pred (p_actions p)) in
  let repaired_before := count (p_report p) Repaired in
  let '(p, working) := run_action working mid params segment action key now p in
  if repaired_before <? count (p_report p) Repaired
  then (stage_if_legal record working now p, working) else (p, working).

Definition maintain_segment (record : DhtRecord) (mid : bytes) (params : DissolutionParams) (now : Z)
    (st : pass * DhtRecord) (segment : Z) : pass * DhtRecord :=
  let '(p, working) := st in
  let p := probe_segment working segment now p in
  let replicas := classify peer_text (evidence (p_core p)) working segment now in
  let pl := plan mid_text (engine (p_core p)) mid params (observation <$> replicas) (instant (p_world p)) in
  let p := on_report (fun r => set_count AtRiskSlots (count r AtRiskSlots + Z.of_nat (at_risk_slots pl)) r) p in
  fold_left (run_planned record mid params segment now) (actions pl) (p, working).

(** The distinct segments of a record, in ascending order. *)
Definition segments_of (record : DhtRecord) : list Z :=
  merge_sort Z.le (elements (list_to_set (loc_segment <$> locations record) : gset Z)).

Definition commit_working (record working : DhtRecord) (now : Z) (p : pass) : pass :=
  if bool_decide (locations working = locations record) then p
  else if negb (check_record_update record working) then on_report (bump InvariantViolations) p
  else
    let working := set_published (newer record now) working in
    let mid := mid_digest working in
    let p := on_core (fun c => set_pending (<[mid := working]> (pending_commits c)) c) p in
    let '(ok, w) := commit_record B working (p_world p) in
    let p := with_world w p in
    if ok then on_report (bump RecordsCommitted)
                 (on_core (fun c => set_pending (delete mid (pending_commits c)) c) p)
    else on_report (bump CommitFailures) p.

Definition maintain_record (now : Z) (p : pass) (record : DhtRecord) : pass :=
  match record_params record with
  | None => on_report (bump RecordsInvalid) p
  | Some (mid, params) =>
      let '(ok, w) := verify_record B record (p_world p) in
      let p := with_world w p in
      if negb ok then on_report (bump RecordsNotMaintainable) p
      else
        let '(p, working) := fold_left (maintain_segment record mid params now) (segments_of record) (p, record) in
        commit_working record working now p
  end.

(** ** The pass *)

(** Retry one commit that failed before. *)
Definition retry_commit (p : pass) (mid : bytes) : pass :=
  match pending_commits (p_core p) !! mid with
  | None => p
  | Some update =>
      let '(ok, w) := commit_record B update (p_world p) in
      let p := with_world w p in
      if ok then on_report (bump RecordsCommitted)
                   (on_core (fun c => set_pending (delete mid (pending_commits c)) c) p)
      else on_report (bump CommitFailures) p
  end.

(** The stable [sort_by_key] on the digest. *)
Fixpoint insert_record (r : DhtRecord) (l : list DhtRecord) : list DhtRecord :=
  match l with
  | [] => [r]
  | x :: l' => if str_leb (mid_digest r) (mid_digest x) then r :: l else x :: insert_record r l'
  end.
Definition sort_records (l : list DhtRecord) : list DhtRecord := foldr insert_record [] l.

Definition overlay (pending : gmap bytes DhtRecord) (r : DhtRecord) : DhtRecord :=
  default r (pending !! mid_digest r).

Definition rotate_left (n : nat) (l : list DhtRecord) : list DhtRecord := drop n l ++ take n l.

Definition advertised (records : list DhtRecord) : gset (str * PieceKey) :=
  list_to_set (flat_map (fun r =>
    (fun l => (holder_id_of peer_text l, mkKey (mid_digest r) (loc_segment l) (shard_index l))) <$> locations r)
    records).

(** Every pass starts at the next record. *)
Definition next_round (p : pass) (records : list DhtRecord) : list DhtRecord * pass :=
  match records with
  | [] => ([], p)
  | _ => (rotate_left (Z.to_nat (cursor (p_core p) mod zlen records)) records,
          on_core (fun c => set_cursor (wrapping_add u64_max (cursor c) 1) c) p)
  end.

Definition tick (core : MaintenanceCore) (w : W) (now : Z) : MaintenanceCore * W * TickReport :=
  let '(allows, w) := link_allows_background B w in
  if negb allows then (core, w, mkReport true (fun _ => 0)) else
  let p := mkPass core w empty_report (max_probes_per_tick (cfg core)) (max_actions_per_tick (planner (cfg core))) in
  let p := fold_left retry_commit (pending_keys (pending_commits core)) p in
  let '(tracked, w) := tracked_records B (p_world p) in
  let p := with_world w p in
  let records := sort_records tracked in
  let live_mids := mid_digest <$> records in
  let p := on_core (fun c => set_pending (filter (fun kv => kv.1 ∈ live_mids) (pending_commits c)) c) p in
  let records := overlay (pending_commits (p_core p)) <$> records in
  let p := on_report (set_count RecordsSeen (zlen records)) p in
  let adv := advertised records in
  let '(records, p) := next_round p records in
  let p := fold_left (maintain_record now) records p in
  let p := on_core (fun c => set_ledger (prune (ledger c) now) c) p in
  let p := on_core (fun c => set_evidence (retain_pieces (evidence c) (fun k => bool_decide (k ∈ adv))) c) p in
  (p_core p, p_world p, p_report p).
End Pass.

(** ** Traced backends *)

(** The calls a pass makes, in order, with the answers that matter below. *)
Inductive Call :=
| CLink (allows : bool)
| CTracked (rs : list DhtRecord)
| CProbe (l : ShardLocation) (mid : bytes)
| CSource (segment slot : Z)
| CCandidates (exclude : list str)
| CPush (c : Candidate) (s : MiasmaShare)
| CVerify (r : DhtRecord) (ok : bool)
| CStage (r : DhtRecord)
| CCommit (r : DhtRecord).

(** Run a call and note it. *)
Definition noting {W A} (f : W -> A * W) (c : A -> Call) (wt : W * list Call) : A * (W * list Call) :=
  let '(a, w) := f wt.1 in (a, (w, wt.2 ++ [c a])).

Definition traced {W} (B : MaintenanceBackend W) : MaintenanceBackend (W * list Call) :=
  mkBackend
    (noting (tracked_records B) CTracked)
    (fun l mid => noting (probe B l mid) (fun _ => CProbe l mid))
    (fun r seg slot live => noting (source_share B r seg slot live) (fun _ => CSource seg slot))
    (fun ex => noting (candidates B ex) (fun _ => CCandidates ex))
    (fun c s => noting (push B c s) (fun _ => CPush c s))
    (fun r => noting (verify_record B r) (CVerify r))
    (fun r => noting (stage_record B r) (fun _ => CStage r))
    (fun r => noting (commit_record B r) (fun _ => CCommit r))
    (noting (link_allows_background B) CLink).

Definition is_probe (c : Call) : bool := match c with CProbe _ _ => true | _ => false end.
Definition is_push (c : Call) : bool := match c with CPush _ _ => true | _ => false end.
Definition probes_in (t : list Call) : nat := length (List.filter is_probe t).
Definition pushes_in (t : list Call) : nat := length (List.filter is_push t).

(** A legal rewrite of a record: same content and parameters, valid, no slot
    without a location, no holder twice for one slot, and newer. *)
Record legal_rewrite (now : Z) (prev r : DhtRecord) : Prop := {
  lr_mid : mid_digest r = mid_digest prev;
  lr_params : rec_data_shards r = rec_data_shards prev /\ rec_total_shards r = rec_total_shards prev;
  lr_version : rec_version r = rec_version prev;
  lr_valid : validate r = true;
  lr_slots : forall l, l ∈ locations prev -> exists l', l' ∈ locations r /\ slot_of l' = slot_of l;
  lr_nodup : NoDup ((fun l => (slot_of l, peer_id_bytes l)) <$> locations r);
  lr_newer : published_at r = newer prev now;
}.

(** What a pass may do on behalf of one record. *)
Definition record_call `{Crypto} (now : Z) (record : DhtRecord) (c : Call) : Prop :=
  match c with
  | CProbe _ mid => mid = mid_digest record
  | CPush _ s => coarse_verify s (mid_digest record) = true /\ 0 <= slot_index s < rec_total_shards record
  | CStage r | CCommit r => legal_rewrite now record r
  | CSource _ _ | CCandidates _ => True
  | CLink _ | CTracked _ | CVerify _ _ => False
  end.

(** [working] is [record] with other locations. *)
Definition relocated (record working : DhtRecord) : Prop := exists ls, working = set_locations ls record.

Lemma check_update_legal now record working :
  relocated record working -> check_record_update record working = true ->
  legal_rewrite now record (set_published (newer record now) working).
Proof.
  intros [ls ->]. unfold check_record_update.
  rewrite bool_decide_eq_true_2, !Z.eqb_refl by done. simpl.
  destruct (validate _) eqn:Hv; [|done]. simpl.
  destruct (forallb _ _) eqn:Hs; [|done]. simpl. intros Hnd%bool_decide_eq_true.
  split; try done. intros l Hl. rewrite forallb_forall in Hs. apply list_elem_of_In in Hl.
  specialize (Hs l Hl). apply bool_decide_eq_true, list_elem_of_fmap in Hs as (l' & ? & ?).
  exists l'. split; [done|congruence].
Qed.

Lemma check_update_published record working t :
  check_record_update record (set_published t working) = check_record_update record working.
Proof. reflexivity. Qed.

Section Extends.
Context `{Crypto} {W : Type}.
Implicit Types p : pass (W := W * list Call).

Definition trace p : list Call := (p_world p).2.

(** What [p'] adds to [p]: calls that satisfy [P], paid for from the caps up to
    [k] pushes, and pending commits that are old or were committed under
    [P]. *)
Record extends (k : nat) (P : Call -> Prop) p p' : Prop := {
  ex_new : exists new, trace p' = trace p ++ new /\ Forall P new
             /\ (probes_in new + p_probes p' = p_probes p)%nat
             /\ (pushes_in new + p_actions p' <= p_actions p + k)%nat;
  ex_const : cfg (p_core p') = cfg (p_core p) /\ engine (p_core p') = engine (p_core p);
  ex_pending : forall m r, pending_commits (p_core p') !! m = Some r ->
                 pending_commits (p_core p) !! m = Some r \/ (mid_digest r = m /\ P (CCommit r));
}.

Lemma extends_refl k P p : extends k P p p.
Proof.
  split; [|done|by left]. exists []. rewrite app_nil_r. split_and!; [done|constructor|done|].
  unfold pushes_in; simpl; lia.
Qed.

Lemma extends_trans j k P p q r : extends j P p q -> extends k P q r -> extends (j + k) P p r.
Proof.
  intros [(n1 & T1 & F1 & A1 & B1) [C1 E1] D1] [(n2 & T2 & F2 & A2 & B2) [C2 E2] D2].
  split; [|split; congruence|].
  - exists (n1 ++ n2). unfold probes_in, pushes_in in *. rewrite T2, T1, <- app_assoc, !List.filter_app, !length_app.
    split_and!; [done|by apply Forall_app|lia|lia].
  - intros m x Hx. destruct (D2 m x Hx) as [Hy|Hy]; [by apply D1|by right].
Qed.

Lemma extends_trans0 k P p q r : extends 0 P p q -> extends k P q r -> extends k P p r.
Proof. apply (extends_trans 0). Qed.

Lemma extends_mono k P Q p q : (forall c, P c -> Q c) -> extends k P p q -> extends k Q p q.
Proof.
  intros HPQ [(n1 & T1 & F1 & A1 & B1) C1 D1]. split; [|done|naive_solver].
  exists n1. split_and!; [done|by eapply Forall_impl|done|done].
Qed.

Lemma extends_fold {A} (f : pass (W := W * list Call) -> A -> pass) P l p :
  (forall q x, x ∈ l -> extends 0 P q (f q x)) -> extends 0 P p (fold_left f l p).
Proof.
  revert p. induction l as [|x l IH]; intros p Hf; simpl; [apply extends_refl|].
  eapply extends_trans0; [apply Hf; left|]. apply IH. intros q y Hy. apply Hf. by right.
Qed.

(** The elementary steps. *)
Lemma extends_report P f p : extends 0 P p (on_report f p).
Proof.
  split; [|done|by left]. exists []. unfold trace, pushes_in; simpl. rewrite app_nil_r.
  split_and!; [done|constructor|done|lia].
Qed.

Lemma extends_core P f p :
  (forall c, cfg (f c) = cfg c /\ engine (f c) = engine c /\ pending_commits (f c) = pending_commits c) ->
  extends 0 P p (on_core f p).
Proof.
  intros Hf. destruct (Hf (p_core p)) as (Hc & He & Hp).
  split; simpl; [|done|rewrite Hp; by left]. exists []. unfold trace, pushes_in; simpl. rewrite app_nil_r.
  split_and!; [done|constructor|done|lia].
Qed.

(** A call that is neither probe nor push. *)
Lemma extends_call P w c p :
  P c -> is_probe c = false -> is_push c = false -> extends 0 P p (with_world (w, trace p ++ [c]) p).
Proof.
  intros Hc H1 H2. split; [|done|by left]. exists [c]. unfold trace, probes_in, pushes_in; simpl. rewrite H1, H2.
  split_and!; [done|by apply Forall_singleton|done|simpl; lia].
Qed.

Lemma extends_push P w c p :
  P c -> is_probe c = false -> is_push c = true -> extends 1 P p (with_world (w, trace p ++ [c]) p).
Proof.
  intros Hc H1 H2. split; [|done|by left]. exists [c]. unfold trace, probes_in, pushes_in; simpl. rewrite H1, H2.
  split_and!; [done|by apply Forall_singleton|done|simpl; lia].
Qed.
End Extends.


Section Legal.
Context `{Crypto} {W : Type} (B0 : MaintenanceBackend W).
Context (peer_text : bytes -> option str) (mid_text : bytes -> str).
Context (instant : W * list Call -> Z) (pending_keys : gmap bytes DhtRecord -> list bytes).
Abbreviation B := (traced B0).
Implicit Types p : pass (W := W * list Call).

Lemma record_outcome_ext P key now ok p : extends 0 P p (record_outcome key now ok p).
Proof. by apply extends_core. Qed.

Lemma check_budget_ext P now p : extends 0 P p (check_budget now p).1.
Proof. unfold check_budget. destruct (can_spend _ _ _). by apply extends_core. Qed.

Lemma probe_one_ext P record now p replica :
  (forall l, P (CProbe l (mid_digest record))) -> extends 0 P p (probe_one B instant record now p replica).
Proof.
  intros HP. unfold probe_one. destruct (p_probes p =? 0)%nat eqn:Hz; [apply extends_refl|].
  destruct (negb (probe_due _ _ _ _)); [apply extends_refl|].
  pose proof (check_budget_ext P now p) as Hb.
  assert (p_probes (check_budget now p).1 = p_probes p) as Hp.
  { unfold check_budget. by destruct (can_spend _ _ _). }
  destruct (check_budget now p) as [q ok]. simpl in Hb, Hp. destruct ok; simpl; [|done].
  unfold noting. destruct (probe B0 _ _ _) as [[o bs] w]. simpl.
  eapply extends_trans0; [exact Hb|]. split; simpl; [|done|by left].
  exists [CProbe (location replica) (mid_digest record)]. unfold trace, probes_in, pushes_in; simpl.
  apply Nat.eqb_neq in Hz. split_and!; [done|by apply Forall_singleton|lia|lia].
Qed.

Lemma probe_segment_ext P working segment now p :
  (forall l, P (CProbe l (mid_digest working))) ->
  extends 0 P p (probe_segment B peer_text instant working segment now p).
Proof. intros HP. apply extends_fold. intros q r _. by apply probe_one_ext. Qed.

(** One action: at most one push, of exactly the planned piece; the record
    changes in its locations only. *)
Lemma run_action_ext now record working params segment action key p :
  0 <= action_slot action < rec_total_shards record -> relocated record working ->
  let '(p', working') := run_action B peer_text working (mid_digest record) params segment action key now p in
  extends 1 (record_call now record) p p' /\ relocated record working' /\ p_actions p' = p_actions p.
Proof.
  intros Hs Hr. unfold run_action. cbv zeta. set (replicas := classify _ _ _ _ _). simpl.
  unfold noting. destruct (candidates B0 _ _) as [cands w1]. simpl. fold (trace p).
  set (p1 := with_world (w1, _) p).
  assert (extends 0 (record_call now record) p p1) as E1 by (by apply extends_call).
  assert (forall k q f b, extends k (record_call now record) p q ->
    extends k (record_call now record) p (record_outcome key now b (on_report f q))) as Hend.
  { intros k q f b Hq. replace k with (k + 0 + 0)%nat by lia.
    eapply extends_trans; [|apply record_outcome_ext]. eapply extends_trans; [exact Hq|apply extends_report]. }
  assert (forall q, extends 0 (record_call now record) p q -> extends 1 (record_call now record) p q) as Hw.
  { intros q Hq. apply (extends_trans 0 1 _ _ q); [done|apply extends_refl]. }
  destruct (select_holder _ _ _ _ _) as [sel|]; [|split_and!; [by apply Hend, Hw|done|done]].
  destruct (source_share B0 _ _ _ _ _) as [source w2]. simpl. fold (trace p1).
  set (p2 := with_world (w2, _) p1).
  assert (extends 0 (record_call now record) p p2) as E2 by (eapply extends_trans0; [exact E1|by apply extends_call]).
  destruct source as [share|]; [|split_and!; [by apply Hend, Hw|done|done]].
  destruct (_ || _ || _) eqn:Hrej; [split_and!; [by apply Hend, Hw|done|done]|].
  apply orb_false_iff in Hrej as [[Hsl Hsg]%orb_false_iff Hcv].
  apply negb_false_iff in Hsl, Hsg, Hcv. apply Z.eqb_eq in Hsl.
  destruct (try_spend _ _ _) as [b ok]. set (p3 := on_core (set_budget b) p2).
  assert (extends 0 (record_call now record) p p3) as E3 by (eapply extends_trans0; [exact E2|by apply extends_core]).
  destruct ok; simpl; [|split_and!; [apply Hw; eapply extends_trans0; [exact E3|apply extends_report]|done|done]].
  destruct (push B0 _ _ _) as [pushed w4]. simpl. fold (trace p2).
  set (p4 := with_world (w4, _) p3).
  assert (extends 1 (record_call now record) p p4) as E4.
  { eapply extends_trans0; [exact E3|]. apply extends_push; [|done|done]. simpl. split; [done|lia]. }
  destruct pushed as [loc|]; [|split_and!; [by apply Hend|done|done]].
  destruct (_ && _); [|split_and!; [by apply Hend|done|done]]. split_and!; [|by destruct Hr as [ls ->]; eexists|done].
  replace 1%nat with (1 + 0 + 0)%nat by lia.
  eapply extends_trans; [eapply extends_trans; [exact E4|apply record_outcome_ext]|apply extends_report].
Qed.

Lemma stage_ext now record working p :
  relocated record working -> extends 0 (record_call now record) p (stage_if_legal B record working now p).
Proof.
  intros Hr. unfold stage_if_legal. rewrite check_update_published.
  destruct (check_record_update record working) eqn:Hc; [|apply extends_refl]. simpl. unfold noting.
  destruct (stage_record B0 _ _) as [o w]. apply extends_call; [|done|done]. by apply check_update_legal.
Qed.

Lemma run_planned_ext now record params segment st action :
  0 <= action_slot action < rec_total_shards record -> relocated record st.2 ->
  let st' := run_planned B peer_text record (mid_digest record) params segment now st action in
  extends 0 (record_call now record) st.1 st'.1 /\ relocated record st'.2.
Proof.
  intros Hs Hr. destruct st as [p working]. cbv zeta. unfold run_planned. cbn [fst snd] in Hr |- *.
  destruct (p_actions p =? 0)%nat eqn:Hz; [split; [apply extends_report|done]|]. apply Nat.eqb_neq in Hz.
  destruct (negb (allowed _ _ _)); [split; [apply extends_report|done]|].
  pose proof (check_budget_ext (record_call now record) now p) as Hb.
  assert (p_actions (check_budget now p).1 = p_actions p) as Hp.
  { unfold check_budget. by destruct (can_spend _ _ _). }
  destruct (check_budget now p) as [q ok]. simpl in Hb, Hp.
  destruct ok; simpl; [|split; [eapply extends_trans0; [exact Hb|apply extends_report]|done]].
  set (q1 := mkPass (p_core q) (p_world q) (p_report q) (p_probes q) (pred (p_actions q))).
  pose proof (run_action_ext now record working params segment action
    (mkKey (mid_digest record) segment (action_slot action)) q1 Hs Hr) as Ha.
  destruct (run_action _ _ _ _ _ _ _ _ _ _) as [p' working']. destruct Ha as (Ha & Hr' & Hact).
  assert (extends 0 (record_call now record) q p') as Hq.
  { destruct Ha as [(new & T & F & A1 & B1) C D]. split; [|done|done]. exists new. simpl in *.
    split_and!; [done|done|done|lia]. }
  destruct (_ <? _); simpl; (split; [|done]); (eapply extends_trans0; [exact Hb|]); [|exact Hq].
  eapply extends_trans0; [exact Hq|by apply stage_ext].
Qed.

Lemma run_planned_all now record params segment acts st :
  (forall a, a ∈ acts -> 0 <= action_slot a < rec_total_shards record) -> relocated record st.2 ->
  let st' := fold_left (run_planned B peer_text record (mid_digest record) params segment now) acts st in
  extends 0 (record_call now record) st.1 st'.1 /\ relocated record st'.2.
Proof.
  cbv zeta. revert st. induction acts as [|a acts IH]; intros st Ha Hr; simpl; [split; [apply extends_refl|done]|].
  destruct (run_planned_ext now record params segment st a) as [E1 R1]; [apply Ha; left|done|].
  destruct (IH (run_planned B peer_text record (mid_digest record) params segment now st a)) as [E2 R2];
    [intros x Hx; apply Ha; by right|done|]. split; [by eapply extends_trans0|done].
Qed.

Lemma plan_slots e mid params obs inst a :
  a ∈ actions (plan mid_text e mid params obs inst) -> 0 <= action_slot a < Z.of_nat (total_shards params).
Proof.
  unfold plan. rewrite plan_fold by (simpl; lia). simpl. intros (s & -> & Hs)%list_elem_of_fmap.
  apply elem_of_take in Hs as (i & Hs & _). apply list_elem_of_lookup_2 in Hs.
  rewrite !filter_In_bool in Hs. destruct Hs as [[Hs _] _]. unfold slot_range in Hs.
  apply elem_of_seqZ in Hs. simpl. lia.
Qed.

Lemma maintain_segment_ext now record params st segment :
  total_shards params = Z.to_nat (rec_total_shards record) -> relocated record st.2 ->
  let st' := maintain_segment B peer_text mid_text instant record (mid_digest record) params now st segment in
  extends 0 (record_call now record) st.1 st'.1 /\ relocated record st'.2.
Proof.
  intros Hn Hr. destruct st as [p working]. cbv zeta. unfold maintain_segment. simpl in Hr.
  set (p1 := probe_segment _ _ _ _ _ _ p).
  assert (extends 0 (record_call now record) p p1) as E1.
  { apply probe_segment_ext. intros l. simpl. by destruct Hr as [ls ->]. }
  match goal with |- context [fold_left _ ?l (?q, working)] =>
    destruct (run_planned_all now record params segment l (q, working)) as [E2 R2]; [|done|split; [|done]] end.
  - intros a Ha%plan_slots. rewrite Hn in Ha. lia.
  - eapply extends_trans0; [exact E1|]. eapply extends_trans0; [apply extends_report|exact E2].
Qed.

Lemma commit_working_ext now record working p :
  relocated record working -> extends 0 (record_call now record) p (commit_working B record working now p).
Proof.
  intros Hr. unfold commit_working. destruct (bool_decide _); [apply extends_refl|].
  destruct (check_record_update record working) eqn:Hc; simpl; [|apply extends_report].
  pose proof (check_update_legal now _ _ Hr Hc) as Hl. unfold noting.
  destruct (commit_record B0 _ _) as [ok w]. simpl.
  set (q := with_world _ _).
  assert (extends 0 (record_call now record) p q) as Eq.
  { split; [|done|].
    - exists [CCommit (set_published (newer record now) working)]. unfold trace; simpl.
      split_and!; [done|by apply Forall_singleton|done|]. unfold pushes_in; simpl; lia.
    - intros m r. simpl. intros [[<- <-]|[? ?]]%lookup_insert_Some; [by right|by left]. }
  destruct ok; (eapply extends_trans0; [|apply extends_report]); [|exact Eq].
  eapply extends_trans0; [exact Eq|]. split; [|done|].
  - exists []. unfold trace; simpl. rewrite app_nil_r. split_and!; [done|constructor|done|unfold pushes_in; simpl; lia].
  - intros m r. simpl. intros [? ?]%lookup_delete_Some. by left.
Qed.

Lemma maintain_segments_all now record params segs st :
  total_shards params = Z.to_nat (rec_total_shards record) -> relocated record st.2 ->
  let st' := fold_left (maintain_segment B peer_text mid_text instant record (mid_digest record) params now) segs st in
  extends 0 (record_call now record) st.1 st'.1 /\ relocated record st'.2.
Proof.
  intros Hn. cbv zeta. revert st. induction segs as [|x segs IH]; intros st Hr; simpl; [split; [apply extends_refl|done]|].
  destruct (maintain_segment_ext now record params st x Hn Hr) as [E1 R1].
  destruct (IH _ R1) as [E2 R2]. split; [by eapply extends_trans0|done].
Qed.

(** The calls of the loop over the records [recs], as seen from a trace [T]
    that contains them: a record is looked at, and only after it was found
    valid and the backend agreed is anything done for it. *)
Definition loop_call (now : Z) (recs : list DhtRecord) (T : list Call) (c : Call) : Prop :=
  (exists r ok, r ∈ recs /\ c = CVerify r ok) \/
  (exists r, r ∈ recs /\ CVerify r true ∈ T /\ validate r = true /\ record_call now r c).

Lemma maintain_record_ext now record p :
  let p' := maintain_record B peer_text mid_text instant now p record in
  extends 0 (loop_call now [record] (trace p')) p p'.
Proof.
  cbv zeta. unfold maintain_record, record_params. destruct (validate record) eqn:Hv; [|apply extends_report].
  simpl. unfold noting. destruct (verify_record B0 record _) as [ok w]. fold (trace p).
  set (q := with_world _ p).
  assert (forall T, extends 0 (loop_call now [record] T) p q) as Eq.
  { intros T. apply extends_call; [left; exists record, ok; split; [set_solver|done]|done|done]. }
  destruct ok; simpl; [|eapply extends_trans0; [apply Eq|apply extends_report]].
  set (params := mkParams _ _).
  destruct (maintain_segments_all now record params (segments_of record) (q, record)) as [E1 R1];
    [done|exists (locations record); by destruct record|].
  destruct (fold_left _ _ (q, record)) as [p1 working]. simpl in E1, R1.
  pose proof (commit_working_ext now record working p1 R1) as E2.
  pose proof (extends_trans0 _ _ _ _ _ E1 E2) as E.
  eapply extends_trans0; [apply Eq|]. eapply extends_mono; [|exact E].
  intros c Hc. right. exists record. split_and!; [set_solver| |done|done].
  destruct E as [(new & -> & _) _ _]. unfold trace, q; simpl. set_solver.
Qed.

Lemma maintain_all_ext now recs p T :
  (forall c, c ∈ trace (fold_left (maintain_record B peer_text mid_text instant now) recs p) -> c ∈ T) ->
  extends 0 (loop_call now recs T) p (fold_left (maintain_record B peer_text mid_text instant now) recs p).
Proof.
  revert p. induction recs as [|r recs IH]; intros p HT; simpl in *; [apply extends_refl|].
  pose proof (maintain_record_ext now r p) as E1. cbv zeta in E1.
  specialize (IH _ HT). eapply extends_trans0.
  - eapply extends_mono; [|exact E1]. intros c [(x & ok & Hx & ->)|(x & Hx & Hc & Hv & Hr)].
    + left. exists x, ok. split; [set_solver|done].
    + right. exists x. split_and!; [set_solver| |done|done]. apply HT.
      destruct IH as [(new & -> & _) _ _]. set_solver.
  - eapply extends_mono; [|exact IH]. intros c [(x & ok & Hx & ->)|(x & Hx & Hc & Hv & Hr)].
    + left. exists x, ok. split; [set_solver|done].
    + right. exists x. split_and!; [set_solver|done|done|done].
Qed.

Lemma retry_all_ext keys core p :
  (forall m r, pending_commits (p_core p) !! m = Some r -> pending_commits core !! m = Some r) ->
  let p' := fold_left (retry_commit B) keys p in
  extends 0 (fun c => exists m r, c = CCommit r /\ pending_commits core !! m = Some r) p p' /\
  (forall m r, pending_commits (p_core p') !! m = Some r -> pending_commits core !! m = Some r).
Proof.
  cbv zeta. revert p. induction keys as [|k keys IH]; intros p Hp; simpl; [split; [apply extends_refl|done]|].
  set (P := fun c => exists m r, c = CCommit r /\ pending_commits core !! m = Some r).
  assert (extends 0 P p (retry_commit B p k) /\
          (forall m r, pending_commits (p_core (retry_commit B p k)) !! m = Some r -> pending_commits core !! m = Some r))
    as [E1 H1].
  { unfold retry_commit. destruct (pending_commits (p_core p) !! k) as [u|] eqn:Hk; [|split; [apply extends_refl|done]].
    simpl. unfold noting. destruct (commit_record B0 u _) as [ok w]. fold (trace p).
    set (q := with_world _ p).
    assert (extends 0 P p q) as Eq by (apply extends_call; [by exists k, u; auto|done|done]).
    destruct ok; simpl.
    - split; [|intros m r [_ Hr]%lookup_delete_Some; auto].
      eapply extends_trans0; [exact Eq|]. split; simpl; [|done|intros m r [_ Hr]%lookup_delete_Some; by left].
      exists []. unfold trace; simpl. rewrite app_nil_r. split_and!; [done|constructor|done|unfold pushes_in; simpl; lia].
    - split; [|done]. eapply extends_trans0; [exact Eq|apply extends_report]. }
  destruct (IH _ H1) as [E2 H2]. split; [by eapply extends_trans0|done].
Qed.

Lemma sort_records_elem l r : r ∈ sort_records l <-> r ∈ l.
Proof.
  assert (forall x k, r ∈ insert_record x k <-> r = x \/ r ∈ k) as Hi.
  { intros x k. induction k as [|y k IH]; simpl; [set_solver|]. destruct (str_leb _ _); set_solver. }
  induction l as [|x l IH]; simpl; [done|]. rewrite Hi, IH. set_solver.
Qed.

Lemma rotate_left_elem n l r : r ∈ rotate_left n l -> r ∈ l.
Proof.
  unfold rotate_left. intros Hr. rewrite <- (take_drop n l). set_solver.
Qed.

(** ** The pass is legal *)

(** A pending commit is filed under its own content and is a legal rewrite. *)
Definition pending_ok (core : MaintenanceCore) : Prop :=
  forall m r, pending_commits core !! m = Some r -> mid_digest r = m /\ exists t prev, legal_rewrite t prev r.

(** The calls of a pass with trace [T]. *)
Definition pass_call (core : MaintenanceCore) (now : Z) (T : list Call) (c : Call) : Prop :=
  match c with
  | CLink allows => allows = true
  | CTracked _ | CVerify _ _ => True
  | _ =>
      (exists m r, c = CCommit r /\ pending_commits core !! m = Some r) \/
      (exists prev, CVerify prev true ∈ T /\ validate prev = true /\ record_call now prev c /\
         ((exists rs, CTracked rs ∈ T /\ prev ∈ rs) \/ exists m, pending_commits core !! m = Some prev))
  end.

Lemma next_round_spec p recs :
  let '(recs', q) := next_round p recs in
  (forall r, r ∈ recs' -> r ∈ recs) /\ trace q = trace p /\ p_probes q = p_probes p /\ p_actions q = p_actions p /\
  cfg (p_core q) = cfg (p_core p) /\ engine (p_core q) = engine (p_core p) /\
  pending_commits (p_core q) = pending_commits (p_core p).
Proof. destruct recs as [|x l]; [done|]. simpl. split_and!; try done. intros r. apply rotate_left_elem. Qed.

Lemma tick_extends core w now :
  let '(core', (w', T), report) := tick B peer_text mid_text instant pending_keys core (w, []) now in
  (paused report = true /\ core' = core /\ T = [CLink false]) \/
  (exists p p', p_core p = core /\ p_probes p = max_probes_per_tick (cfg core) /\
     p_actions p = max_actions_per_tick (planner (cfg core)) /\ trace p = [CLink true] /\ trace p' = T /\
     cfg core' = cfg (p_core p') /\ pending_commits core' = pending_commits (p_core p') /\
     extends 0 (pass_call core now T) p p').
Proof.
  unfold tick. simpl. unfold noting at 1. simpl. destruct (link_allows_background B0 w) as [allows w0]. simpl.
  destruct allows; simpl; [|by left].
  set (p := mkPass core _ _ _ _).
  destruct (retry_all_ext (pending_keys (pending_commits core)) core p) as [E1 H1]; [done|].
  set (p1 := fold_left _ (pending_keys _) p) in *. simpl.
  unfold noting. destruct (tracked_records B0 _) as [tracked w2]. simpl. fold (trace p1).
  set (pend := filter _ (pending_commits (p_core p1))).
  set (recs := overlay pend <$> sort_records tracked).
  match goal with |- context [next_round ?x recs] => set (p2 := x) end.
  pose proof (next_round_spec p2 recs) as Hn. destruct (next_round p2 recs) as [recs' q].
  destruct Hn as (Hsub & Tq & Q1 & Q2 & Q3 & Q4 & Q5). simpl in Tq, Q1, Q2, Q3, Q4, Q5.
  set (loop := fold_left _ recs' q).
  destruct (p_world loop) as [w3 T] eqn:Hw. assert (T = trace loop) as -> by (unfold trace; by rewrite Hw).
  right. exists p, loop. split_and!; try done.
  pose proof (maintain_all_ext now recs' q (trace loop) (fun c Hc => Hc)) as E3. fold loop in E3.
  assert (exists new, trace loop = trace q ++ new) as [new3 T3] by (destruct E3 as [(new & -> & _) _ _]; by eexists).
  assert (CTracked tracked ∈ trace loop) as Htr by (rewrite T3, Tq; unfold trace, p2; simpl; set_solver).
  eapply extends_trans0; [eapply extends_mono; [|exact E1]|eapply extends_trans0; [|eapply extends_mono; [|exact E3]]].
  - intros c (m & r & -> & Hr). simpl. left. by exists m, r.
  - split.
    + exists [CTracked tracked]. rewrite Tq, Q1, Q2.
      split_and!; [done|by apply Forall_singleton|done|unfold pushes_in; simpl; lia].
    + by rewrite Q3, Q4.
    + rewrite Q5. intros m r [Hr _]%map_lookup_filter_Some. by left.
  - intros c [(x & ok & Hx & ->)|(x & Hx & Hc & Hv & Hr)]; [done|].
    assert ((exists rs, CTracked rs ∈ trace loop /\ x ∈ rs) \/ exists m, pending_commits core !! m = Some x) as Horigin.
    { apply Hsub, list_elem_of_fmap in Hx as (t & -> & Ht). unfold overlay.
      destruct (pend !! mid_digest t) as [u|] eqn:Hu; simpl.
      - right. exists (mid_digest t). apply H1. by apply map_lookup_filter_Some in Hu as [? _].
      - left. exists tracked. split; [done|]. by apply sort_records_elem. }
    destruct c; simpl in Hr |- *; try done; right; exists x; done.
Qed.

(** C26. A maintenance pass is legal whatever the backend does, also one that lies.
    If the link does not allow background traffic, nothing happens.
    Otherwise: at most the configured number of probes and of pushes is made;
    nothing is done for a record that is not valid or that the backend does
    not let this node maintain; every pushed share carries the record's
    content identifier, matches its own hash and is of a slot below n; and
    every record that is staged or committed, unless its commit was already
    pending, is a legal rewrite of a tracked or pending record: same content
    identifier, k, n and version, valid, every slot that had a location keeps
    one, no holder twice for a slot, and a newer publication time.  Commits left
    pending are such rewrites again. *)
Theorem maintenance_pass_legal (core : MaintenanceCore) (w : W) (now : Z) :
  pending_ok core ->
  let '(core', (w', T), report) := tick B peer_text mid_text instant pending_keys core (w, []) now in
  (T = [CLink false] /\ core' = core) \/
  (Forall (pass_call core now T) T /\
   (probes_in T <= max_probes_per_tick (cfg core))%nat /\
   (pushes_in T <= max_actions_per_tick (planner (cfg core)))%nat /\
   pending_ok core' /\ cfg core' = cfg core).
Proof.
  intros Hok. pose proof (tick_extends core w now) as Ht.
  destruct (tick _ _ _ _ _ _ _ _) as [[core' [w' T]] report].
  destruct Ht as [(_ & -> & ->)|(p & p' & Hc & Hpr & Hac & Tp & Tp' & Hcfg & Hpend & E)]; [by left|right].
  destruct E as [(new & T1 & F & A & Bd) [C1 C2] D]. rewrite Tp', Tp in T1. simpl in T1.
  rewrite Hc in *. split_and!.
  - rewrite T1 at 2. by constructor.
  - rewrite T1. unfold probes_in in *; simpl. lia.
  - rewrite T1. unfold pushes_in in *; simpl. lia.
  - intros m r. rewrite Hpend. intros [Hr|[Hm Hr]]%D; [by apply Hok|]. split; [done|].
    destruct Hr as [(m' & r' & [= <-] & Hr)|(prev & _ & _ & Hr & _)]; [by eapply Hok|by exists now, prev].
  - congruence.
Qed.
End Legal.

#[export] Hint Resolve extends_refl extends_report : miasma.

(** ** One action retires only lost holders *)

(** The lost holders of a slot, as the action collects them. *)
Lemma lost_holders ev peer_text working segment slot now l :
  l ∈ locations working -> slot_of l = (segment, slot) ->
  holder_id_of peer_text l ∈ replica_holder <$>
    filter (fun r => shard_index (location r) = slot /\ replica_state r = HLost)
      (classify peer_text ev working segment now) <->
  holder_state ev (holder_id_of peer_text l) (mkKey (mid_digest working) segment slot) now = HLost.
Proof.
  intros Hl [= Hsg Hsl]. rewrite list_elem_of_fmap. setoid_rewrite list_elem_of_filter.
  unfold classify. setoid_rewrite list_elem_of_fmap. setoid_rewrite list_elem_of_filter. split.
  - intros (r & Hh & [Hs Hst] & (l' & -> & Hseg & Hl')). simpl in *. rewrite Hh. congruence.
  - intros Hst. eexists. split; [|split; [|exists l; split; [reflexivity|done]]]; simpl; [done|].
    rewrite Hsg, Hsl. done.
Qed.

(** One repair action, for any backend: either the locations of the record stay as
    they are, or exactly one replica was pushed and its location, of the
    planned segment and slot, is added; and then the locations that disappear
    are exactly those of that slot whose holder the evidence calls lost.  A
    live, suspected or unknown holder is never retired, and no location is
    retired without its replacement in the same update.  The content
    identifier, k, n, version and time of the record are untouched, and the
    retry ledger notes a success exactly then. *)
Theorem repair_retires_only_lost `{Crypto} {W} (B : MaintenanceBackend W) (peer_text : bytes -> option str)
    (working : DhtRecord) (mid : bytes) (params : DissolutionParams) (segment : Z)
    (action : PieceMaintenanceAction) (key : PieceKey) (now : Z) (p : pass) :
  let '(p', working') := run_action B peer_text working mid params segment action key now p in
  relocated working working' /\ evidence (p_core p') = evidence (p_core p) /\
  ((working' = working /\ count (p_report p') Repaired = count (p_report p) Repaired /\
    (ledger (p_core p') = ledger (p_core p) \/
     ledger (p_core p') = record_attempt blake3 (ledger (p_core p)) key now false)) \/
   (exists loc, slot_of loc = (segment, action_slot action) /\
     count (p_report p') Repaired = count (p_report p) Repaired + 1 /\
     ledger (p_core p') = record_attempt blake3 (ledger (p_core p)) key now true /\
     forall l, l ∈ locations working' <->
       l = loc \/
       (l ∈ locations working /\
        ~ (slot_of l = (segment, action_slot action) /\
           holder_state (evidence (p_core p)) (holder_id_of peer_text l)
             (mkKey (mid_digest working) segment (action_slot action)) now = HLost)))).
Proof.
  unfold run_action. cbv zeta. set (replicas := classify _ _ _ _ _). simpl.
  assert (relocated working working) as Hrel by (exists (locations working); by destruct working).
  destruct (candidates B _ _) as [cands w1].
  destruct (select_holder _ _ _ _ _) as [sel|]; [|split_and!; [done|done|left; split_and!; [done|done|by right]]].
  destruct (source_share B _ _ _ _ _) as [[share|] w2]; [|split_and!; [done|done|left; split_and!; [done|done|by right]]].
  destruct (_ || _ || _); [split_and!; [done|done|left; split_and!; [done|done|by right]]|].
  destruct (try_spend _ _ _) as [b []]; simpl; [|split_and!; [done|done|left; split_and!; [done|done|by left]]].
  destruct (push B _ _ _) as [[loc|] w4]; [|split_and!; [done|done|left; split_and!; [done|done|by right]]].
  destruct (_ && _) eqn:Hloc; [|split_and!; [done|done|left; split_and!; [done|done|by right]]].
  apply andb_true_iff in Hloc as [H1%Z.eqb_eq H2%Z.eqb_eq].
  split_and!; [by eexists|done|]. right. exists loc. split_and!; [unfold slot_of; congruence|done|done|].
  intros l. unfold set_locations; simpl. rewrite elem_of_app, list_elem_of_filter, list_elem_of_singleton.
  pose proof (lost_holders (evidence (p_core p)) peer_text working segment (action_slot action) now) as Hlost.
  unfold slot_of in *. split.
  - intros [[Hn Hl]| ->]; [|by left]. right. split; [done|]. intros [Hs Hst].
    apply Hn. split_and!; [by injection Hs|by injection Hs|]. by apply Hlost.
  - intros [->|[Hl Hn]]; [by right|]. left. split; [|done]. intros (Hsg & Hsl & Hin). apply Hn.
    assert ((loc_segment l, shard_index l) = (segment, action_slot action)) as Hs by congruence.
    split; [done|]. by apply Hlost.
Qed.

(** ** A concrete pass *)

(** One record with a single holder, an honest backend, and a new node to copy
    to: the pass probes the holder, pushes the share, and commits the record
    with both locations. *)
Module Demo.
Definition demo_crypto : Crypto :=
  {| blake3 _ := [9; 9]; blake3_derive _ _ := []; aead_seal _ _ _ _ := None; aead_open _ _ _ _ := None;
     hkdf _ _ _ := None; sharks_deal _ _ _ _ := []; sharks_recover _ _ := None |}.

Definition holder_loc : ShardLocation := mkLoc [1] 0 0 [lit "/ip4/203.0.113.7/tcp/1"].
Definition new_loc : ShardLocation := mkLoc [2] 0 0 [lit "/ip4/198.51.100.7/tcp/1"].
Definition demo_record : DhtRecord := mkRecord [5] 1 1 1 [holder_loc] 100.
Definition demo_share : MiasmaShare := mkShare 1 [5] 0 0 [7; 7; 7] [8] [9; 9] [] 3 0.

Definition demo_backend : MaintenanceBackend unit :=
  mkBackend (fun w => ([demo_record], w)) (fun _ _ w => ((Verified, 4), w)) (fun _ _ _ _ w => (Some demo_share, w))
    (fun _ w => ([mkCandidate [2] (Some (lit "ip4:198.51.100"))], w)) (fun _ _ w => (Some new_loc, w))
    (fun _ w => (true, w)) (fun _ w => (true, w)) (fun _ w => (true, w)) (fun w => (true, w)).

Definition demo_core : MaintenanceCore := new_core default_maintenance_config 1000.

Definition demo_tick : MaintenanceCore * (unit * list Call) * TickReport :=
  tick (H := demo_crypto) (traced demo_backend) Some (fun m => m) (fun _ => 0) (fun _ => []) demo_core (tt, []) 2000.

Definition committed : DhtRecord := mkRecord [5] 1 1 1 [holder_loc; new_loc] 2000.
End Demo.

Lemma maintenance_pass_legal_witness :
  let '(core', (_, T), _) := Demo.demo_tick in
  T = [CLink true; CTracked [Demo.demo_record]; CVerify Demo.demo_record true;
       CProbe Demo.holder_loc [5]; CCandidates [[1]]; CSource 0 0;
       CPush (mkCandidate [2] (Some (lit "ip4:198.51.100"))) Demo.demo_share;
       CStage Demo.committed; CCommit Demo.committed] /\
  ((T = [CLink false] /\ core' = Demo.demo_core) \/
   (Forall (pass_call (H := Demo.demo_crypto) Demo.demo_core 2000 T) T /\
    (probes_in T <= 8)%nat /\ (pushes_in T <= 4)%nat /\ pending_ok core' /\ cfg core' = cfg Demo.demo_core)).
Proof.
  pose proof (maintenance_pass_legal (H := Demo.demo_crypto) Demo.demo_backend Some (fun m => m) (fun _ => 0)
    (fun _ => []) Demo.demo_core tt 2000 ltac:(by intros m r)) as Hl.
  fold Demo.demo_tick in Hl.
  assert (Demo.demo_tick.1.2.2 = [CLink true; CTracked [Demo.demo_record]; CVerify Demo.demo_record true;
       CProbe Demo.holder_loc [5]; CCandidates [[1]]; CSource 0 0;
       CPush (mkCandidate [2] (Some (lit "ip4:198.51.100"))) Demo.demo_share;
       CStage Demo.committed; CCommit Demo.committed]) as Ht by (vm_compute; reflexivity).
  destruct Demo.demo_tick as [[core' [w T]] report]. split; [exact Ht|exact Hl].
Defined.
