(* ===== verification/Disk.v ===== *)
(** * Disk: files, failing writes and crashes

    The file system as the sealed state files use it.  A file has its bytes and
    the length known to be durable.  Every operation consults its fate: it
    succeeds, it fails after part of the work, or the process dies in it; the
    fates are an arbitrary list, so the theorems cover every failure at every
    point.  A power loss keeps of each file some prefix that contains the
    durable part.  A directory is one name space of file names; renaming is
    atomic, and a rename that was made is kept: [sync_parent_dir], whose result
    the source ignores, is taken to do its work.  Reading a file that is there
    does not fail. *)

From S2P Require Import Prelude Bytes Text.

Record File := mkFile { content : bytes; synced : nat }.

(** [Fails n], [Dies n]: after [n] bytes (or, for an operation that is atomic,
    before it when [n] is zero). *)
Inductive Fate := Fine | Fails (n : nat) | Dies (n : nat).

Record World := mkWorld { files : gmap bytes File; fates : list Fate }.

(** A computation on a state; no result when the process died in it. *)
Definition Prog (S A : Type) : Type := S -> S * option A.
Abbreviation Disk := (Prog World).

Definition ret {S A} (a : A) : Prog S A := fun w => (w, Some a).

Definition bind {S A B} (m : Prog S A) (k : A -> Prog S B) : Prog S B :=
  fun w => match m w with (w', Some a) => k a w' | (w', None) => (w', None) end.

Notation "'let*' x := e 'in' k" := (bind e (fun x => k))
  (at level 10, x pattern, k at level 200) : miasma_scope.

(** The same with Rust's [?] on a result. *)
Definition try_bind {S A B E} (m : Prog S (result A E)) (k : A -> Prog S (result B E)) : Prog S (result B E) :=
  bind m (fun r => match r with Ok a => k a | Err e => ret (Err e) end).

Notation "'try*' x := e 'in' k" := (try_bind e (fun x => k))
  (at level 10, x pattern, k at level 200) : miasma_scope.

Definition fate : Disk Fate :=
  fun w => match fates w with
           | [] => (w, Some Fine)
           | f :: fs => (mkWorld (files w) fs, Some f)
           end.

Definition get (p : bytes) : Disk (option File) := fun w => (w, Some (files w !! p)).
Definition put (p : bytes) (f : File) : Disk unit := fun w => (mkWorld (<[p := f]> (files w)) (fates w), Some tt).
Definition drop_file (p : bytes) : Disk unit := fun w => (mkWorld (delete p (files w)) (fates w), Some tt).
Definition die {S A} : Prog S A := fun w => (w, None).

(** ** Operations *)

(** An operation that changes no file: opening, seeking, reading metadata. *)
Definition try_io : Disk bool :=
  let* f := fate in match f with Fine => ret true | Fails _ => ret false | Dies _ => die end.

(** Bytes written at a position: what is behind them stays, a gap reads as
    zeros. *)
Definition splice (pos : nat) (data old : bytes) : bytes :=
  take pos (old ++ replicate (pos - length old) 0) ++ data ++ drop (pos + length data) old.

Definition exists_file (p : bytes) : Disk bool := let* f := get p in ret (bool_decide (is_Some f)).

(** Create or replace a file with the bytes. *)
Definition write_file (p data : bytes) : Disk bool :=
  let* f := fate in
  match f with
  | Fine => let* _ := put p (mkFile data 0) in ret true
  | Fails n => let* _ := put p (mkFile (take n data) 0) in ret false
  | Dies n => let* _ := put p (mkFile (take n data) 0) in die
  end.

(** [write_all] on an open handle of an existing file. *)
Definition write_at (p : bytes) (pos : nat) (data : bytes) : Disk bool :=
  let* f := fate in
  let* old := get p in
  let b := default (mkFile [] 0) old in
  let written d := put p (mkFile (splice pos d (content b)) (Nat.min (synced b) pos)) in
  match f with
  | Fine => let* _ := written data in ret true
  | Fails n => let* _ := written (take n data) in ret false
  | Dies n => let* _ := written (take n data) in die
  end.

Definition set_len (p : bytes) (n : nat) : Disk bool :=
  let* f := fate in
  let* old := get p in
  let b := default (mkFile [] 0) old in
  let cut := put p (mkFile (take n (content b ++ replicate (n - length (content b)) 0)) (Nat.min (synced b) n)) in
  match f with
  | Fine => let* _ := cut in ret true
  | Fails _ => ret false
  | Dies O => die
  | Dies (S _) => let* _ := cut in die
  end.

Definition sync_file (p : bytes) : Disk bool :=
  let* f := fate in
  let* old := get p in
  let done_ := match old with Some b => put p (mkFile (content b) (length (content b))) | None => ret tt end in
  match f with
  | Fine => let* _ := done_ in ret (bool_decide (is_Some old))
  | Fails _ => ret false
  | Dies O => die
  | Dies (S _) => let* _ := done_ in die
  end.

Definition rename (p q : bytes) : Disk bool :=
  let* f := fate in
  let* old := get p in
  let move := match old with Some b => let* _ := drop_file p in put q b | None => ret tt end in
  match f with
  | Fine => let* _ := move in ret (bool_decide (is_Some old))
  | Fails _ => ret false
  | Dies O => die
  | Dies (S _) => let* _ := move in die
  end.

Definition remove_file (p : bytes) : Disk bool :=
  let* f := fate in
  match f with
  | Fine => let* _ := drop_file p in ret true
  | Fails _ => ret false
  | Dies O => die
  | Dies (S _) => let* _ := drop_file p in die
  end.

(** A hard link fails when the new name exists. *)
Inductive Linked := LinkMade | LinkExists | LinkFailed.

Definition hard_link (p q : bytes) : Disk Linked :=
  let* f := fate in
  let* old := get p in
  let* there := get q in
  let link := match old with Some b => put q b | None => ret tt end in
  match f with
  | Fine => match there, old with
            | Some _, _ => ret LinkExists
            | None, Some _ => let* _ := link in ret LinkMade
            | None, None => ret LinkFailed
            end
  | Fails _ => ret LinkFailed
  | Dies O => die
  | Dies (S _) => match there with Some _ => die | None => let* _ := link in die end
  end.

(** [secure_file::write_restricted]: an existing file is removed first, so that
    the new one is created with its permissions. *)
Definition write_restricted (p data : bytes) : Disk bool :=
  let* e := exists_file p in
  let* gone := (if (e : bool) then remove_file p else ret true) in
  if (gone : bool) then write_file p data else ret false.

(** Power is lost: of each file the durable bytes and some more are kept. *)
Definition power_loss (keep : bytes -> nat) (w : World) : World :=
  mkWorld (map_imap (fun p f => Some (let n := Nat.max (synced f) (keep p) in
                                      mkFile (take n (content f)) (Nat.min n (length (content f))))) (files w)) (fates w).

(** ** Reasoning about runs *)

(** [m] run from [w] ends with a result that satisfies [Q], or dies in a
    world that satisfies [D]. *)
Definition runs {S A} (m : Prog S A) (w : S) (Q : A -> S -> Prop) (D : S -> Prop) : Prop :=
  match m w with (w', Some a) => Q a w' | (w', None) => D w' end.

Lemma runs_ret {S A} (a : A) (w : S) Q D : Q a w -> runs (ret a) w Q D.
Proof. done. Qed.

Lemma runs_bind {S A B} (m : Prog S A) (k : A -> Prog S B) w Q D :
  runs m w (fun a w' => runs (k a) w' Q D) D -> runs (bind m k) w Q D.
Proof. unfold runs, bind. by destruct (m w) as [w' [a|]]. Qed.

Lemma runs_try {S A B E} (m : Prog S (result A E)) (k : A -> Prog S (result B E)) w Q D :
  runs m w (fun r w' => match r with Ok a => runs (k a) w' Q D | Err e => Q (Err e) w' end) D ->
  runs (try_bind m k) w Q D.
Proof. unfold try_bind, runs, bind. destruct (m w) as [w' [[a|e]|]]; done. Qed.

Lemma runs_mono {S A} (m : Prog S A) w (Q Q' : A -> S -> Prop) (D D' : S -> Prop) :
  runs m w Q D -> (forall a w', Q a w' -> Q' a w') -> (forall w', D w' -> D' w') -> runs m w Q' D'.
Proof. unfold runs. destruct (m w) as [w' [a|]]; eauto. Qed.

(** The file [p] of a world; the rest of the disk. *)
Definition at_file (p : bytes) (f : option File) (w : World) : Prop := files w !! p = f.

Definition others (ps : gset bytes) (w w' : World) : Prop :=
  forall q, q ∉ ps -> files w' !! q = files w !! q.

Lemma others_refl ps w : others ps w w.
Proof. done. Qed.

Lemma others_trans ps w1 w2 w3 : others ps w1 w2 -> others ps w2 w3 -> others ps w1 w3.
Proof. intros H1 H2 q Hq. by rewrite H2, H1. Qed.

Lemma others_mono ps qs w w' : ps ⊆ qs -> others ps w w' -> others qs w w'.
Proof. intros H1 H2 q Hq. apply H2. set_solver. Qed.

Lemma others_files ps w fs fs' : (forall q, q ∉ ps -> fs !! q = files w !! q) -> others ps w (mkWorld fs fs').
Proof. done. Qed.

#[export] Hint Resolve others_refl : miasma.

(** *** One rule per operation *)

Lemma runs_fate w Q D :
  (forall f w', files w' = files w -> Q f w') -> runs fate w Q D.
Proof. intros HQ. unfold runs, fate. destruct (fates w); by apply HQ. Qed.

Ltac disk_start :=
  apply runs_bind, runs_fate; let f := fresh "f" in let w1 := fresh "w1" in let E := fresh "E" in intros f w1 E;
  unfold runs, bind, get, put, drop_file, ret, die; destruct f as [|?n|?n]; cbn [files fates]; rewrite ?E.

Lemma runs_try_io w Q D :
  (forall b w', files w' = files w -> Q b w' /\ D w') -> runs try_io w Q D.
Proof. intros HQ. unfold try_io. disk_start; first [by apply HQ|by apply (HQ true)]. Qed.

Lemma runs_exists p w Q D : Q (bool_decide (is_Some (files w !! p))) w -> runs (exists_file p) w Q D.
Proof. done. Qed.

Lemma others_insert p f w w1 (fs : list Fate) : files w1 = files w -> others {[p]} w (mkWorld (<[p := f]> (files w1)) fs).
Proof. intros E q Hq. cbn. rewrite lookup_insert_ne by set_solver. by rewrite E. Qed.

Lemma others_same ps w w1 : files w1 = files w -> others ps w w1.
Proof. intros E q _. by rewrite E. Qed.

Lemma others_delete p w w1 (fs : list Fate) : files w1 = files w -> others {[p]} w (mkWorld (delete p (files w1)) fs).
Proof. intros E q Hq. cbn. rewrite lookup_delete_ne by set_solver. by rewrite E. Qed.

Ltac disk_leaf E :=
  first [by apply others_insert | by apply others_delete | by apply others_same | rewrite <- E; by apply others_insert
        | rewrite <- E; by apply others_delete | apply lookup_insert_eq | apply lookup_delete_eq | by rewrite E | by rewrite E; assumption].

Lemma runs_write_file p data w Q D :
  (forall w', others {[p]} w w' -> at_file p (Some (mkFile data 0)) w' -> Q true w') ->
  (forall n w', others {[p]} w w' -> at_file p (Some (mkFile (take n data) 0)) w' -> Q false w' /\ D w') ->
  runs (write_file p data) w Q D.
Proof.
  intros H1 H2. unfold write_file. disk_start; [apply H1|apply (H2 n)|apply (H2 n)];
    disk_leaf E.
Qed.

Lemma runs_write_at p pos data f w Q D :
  at_file p (Some f) w ->
  (forall w', others {[p]} w w' -> at_file p (Some (mkFile (splice pos data (content f)) (Nat.min (synced f) pos))) w' -> Q true w') ->
  (forall n w', others {[p]} w w' -> at_file p (Some (mkFile (splice pos (take n data) (content f)) (Nat.min (synced f) pos))) w' ->
     Q false w' /\ D w') ->
  runs (write_at p pos data) w Q D.
Proof.
  unfold at_file. intros Hp H1 H2. unfold write_at. disk_start; rewrite Hp; cbn [default content synced id];
    [apply H1|apply (H2 n)|apply (H2 n)];
    disk_leaf E.
Qed.

Lemma runs_set_len p k f w Q D :
  at_file p (Some f) w -> (k <= length (content f))%nat ->
  (forall w', others {[p]} w w' -> at_file p (Some (mkFile (take k (content f)) (Nat.min (synced f) k))) w' -> Q true w' /\ D w') ->
  (forall w', others {[p]} w w' -> at_file p (Some f) w' -> Q false w' /\ D w') ->
  runs (set_len p k) w Q D.
Proof.
  unfold at_file. intros Hp Hk H1 H2. unfold set_len. disk_start; rewrite ?Hp; cbn [default content synced id].
  - rewrite take_app_le by lia. apply H1; disk_leaf E.
  - apply H2; disk_leaf E.
  - destruct n as [|n].
    + apply H2; disk_leaf E.
    + rewrite take_app_le by lia. apply H1; disk_leaf E.
Qed.

Lemma runs_sync p f w Q D :
  at_file p (Some f) w ->
  (forall w', others {[p]} w w' -> at_file p (Some (mkFile (content f) (length (content f)))) w' -> Q true w' /\ D w') ->
  (forall w', others {[p]} w w' -> at_file p (Some f) w' -> Q false w' /\ D w') ->
  runs (sync_file p) w Q D.
Proof.
  unfold at_file. intros Hp H1 H2. unfold sync_file. disk_start; rewrite ?Hp; cbn [content synced].
  - apply H1; disk_leaf E.
  - apply H2; disk_leaf E.
  - destruct n as [|n].
    + apply H2; disk_leaf E.
    + apply H1; disk_leaf E.
Qed.

Lemma runs_rename p q f w Q D :
  p <> q -> at_file p (Some f) w ->
  (forall w', others {[p; q]} w w' -> at_file p None w' -> at_file q (Some f) w' -> Q true w' /\ D w') ->
  (forall w', others {[p; q]} w w' -> at_file p (Some f) w' -> at_file q (files w !! q) w' -> Q false w' /\ D w') ->
  runs (rename p q) w Q D.
Proof.
  unfold at_file. intros Hne Hp H1 H2.
  assert (forall w1, files w1 = files w -> let w' := mkWorld (<[q := f]> (delete p (files w))) (fates w1) in
    others {[p; q]} w w' /\ files w' !! p = None /\ files w' !! q = Some f) as Hm.
  { intros w1 E. cbn. split_and!.
    - intros r Hr. cbn. by rewrite lookup_insert_ne, lookup_delete_ne by set_solver.
    - by rewrite lookup_insert_ne, lookup_delete_eq by done.
    - apply lookup_insert_eq. }
  unfold rename. disk_start; rewrite ?Hp; cbn [content synced files fates]; rewrite ?E.
  - destruct (Hm w1 E) as (?&?&?). by apply H1.
  - apply H2; disk_leaf E.
  - destruct n as [|n].
    + apply H2; disk_leaf E.
    + rewrite ?E. cbn [files fates]. destruct (Hm w1 E) as (?&?&?). by apply H1.
Qed.

Lemma runs_remove p w Q D :
  (forall w', others {[p]} w w' -> at_file p None w' -> Q true w' /\ D w') ->
  (forall w', others {[p]} w w' -> at_file p (files w !! p) w' -> Q false w' /\ D w') ->
  runs (remove_file p) w Q D.
Proof.
  unfold at_file. intros H1 H2. unfold remove_file. disk_start; [|apply H2; disk_leaf E|].
  - apply H1; disk_leaf E.
  - destruct n as [|n].
    + apply H2; disk_leaf E.
    + apply H1; disk_leaf E.
Qed.

(** A restricted write leaves the file missing, as it was, or with a prefix of
    the new bytes. *)
Lemma runs_restricted p data w Q D :
  (forall w', others {[p]} w w' -> at_file p (Some (mkFile data 0)) w' -> Q true w') ->
  (forall w', others {[p]} w w' ->
     at_file p None w' \/ at_file p (files w !! p) w' \/ (exists n, at_file p (Some (mkFile (take n data) 0)) w') ->
     Q false w' /\ D w') ->
  runs (write_restricted p data) w Q D.
Proof.
  intros H1 H2. unfold write_restricted. apply runs_bind, runs_exists, runs_bind.
  assert (forall w1, others {[p]} w w1 -> runs (write_file p data) w1 Q D) as Hw.
  { intros w1 Ho. apply runs_write_file.
    - intros w' Ho' Hp. apply H1; [|done]. by eapply others_trans.
    - intros n w' Ho' Hp. apply H2; [by eapply others_trans|]. right; right. by exists n. }
  destruct (bool_decide _) eqn:Hex.
  - apply runs_remove.
    + intros w' Ho Hp. split; [by apply Hw|]. apply H2; auto.
    + intros w' Ho Hp. split; [apply runs_ret|]; apply H2; auto.
  - apply runs_ret, Hw, others_refl.
Qed.

(** What a power loss leaves of a file. *)
Definition after_loss (keep : bytes -> nat) (p : bytes) (f : File) : File :=
  let n := Nat.max (synced f) (keep p) in mkFile (take n (content f)) (Nat.min n (length (content f))).

Lemma power_loss_lookup keep w p : files (power_loss keep w) !! p = after_loss keep p <$> files w !! p.
Proof. unfold power_loss. cbn [files]. rewrite map_lookup_imap. by destruct (files w !! p). Qed.

(** A file with all its bytes durable. *)
Definition settled (f : option File) : Prop := match f with Some f => synced f = length (content f) | None => True end.

Lemma settled_kept keep w p : settled (files w !! p) -> files (power_loss keep w) !! p = files w !! p.
Proof.
  rewrite power_loss_lookup. destruct (files w !! p) as [[c n]|]; [|done]. cbn. intros ->. unfold after_loss. cbn.
  rewrite take_ge by lia. f_equal. f_equal. lia.
Qed.

(** *** Fates are only used up *)

Definition frugal {A} (m : Disk A) : Prop := forall w, fates (m w).1 `suffix_of` fates w.

(** Nothing fails any more; the process may still die. *)
Definition no_failure (w : World) : Prop := forall n, Fails n ∉ fates w.

Lemma no_failure_suffix w w' : fates w' `suffix_of` fates w -> no_failure w -> no_failure w'.
Proof. intros [k E] Hn n Hin. apply (Hn n). rewrite E. apply elem_of_app. by right. Qed.

Lemma frugal_ret {A} (a : A) : frugal (ret a).
Proof. by intros w. Qed.
Lemma frugal_die {A} : frugal (@die World A).
Proof. by intros w. Qed.
Lemma frugal_get p : frugal (get p).
Proof. by intros w. Qed.
Lemma frugal_put p f : frugal (put p f).
Proof. by intros w. Qed.
Lemma frugal_drop p : frugal (drop_file p).
Proof. by intros w. Qed.
Lemma frugal_fate : frugal fate.
Proof. intros w. unfold fate. destruct (fates w) as [|f fs] eqn:E; cbn; [by rewrite E|]. by apply suffix_cons_r. Qed.

Lemma frugal_bind {A B} (m : Disk A) (k : A -> Disk B) : frugal m -> (forall a, frugal (k a)) -> frugal (bind m k).
Proof.
  intros Hm Hk w. unfold bind. specialize (Hm w). destruct (m w) as [w' [a|]]; cbn in *; [|done]. etransitivity; [apply Hk|done].
Qed.

Lemma frugal_try {A B E} (m : Disk (result A E)) (k : A -> Disk (result B E)) :
  frugal m -> (forall a, frugal (k a)) -> frugal (try_bind m k).
Proof. intros Hm Hk. apply frugal_bind; [done|]. intros [a|e]; [done|apply frugal_ret]. Qed.

Create HintDb frugal.
#[export] Hint Resolve frugal_ret frugal_die frugal_get frugal_put frugal_drop frugal_fate frugal_bind frugal_try : frugal.

Ltac frugal :=
  repeat first [progress eauto with frugal nocore
               | apply frugal_bind; [|intros ?] | apply frugal_try; [|intros ?]
               | match goal with |- frugal (match ?x with _ => _ end) => destruct x end
               | match goal with |- frugal (let _ := _ in _) => cbv zeta end ].

Lemma frugal_try_io : frugal try_io.
Proof. unfold try_io. frugal. Qed.
Lemma frugal_write_at p n d : frugal (write_at p n d).
Proof. unfold write_at. frugal. Qed.
Lemma frugal_write_file p d : frugal (write_file p d).
Proof. unfold write_file. frugal. Qed.
Lemma frugal_set_len p n : frugal (set_len p n).
Proof. unfold set_len. frugal. Qed.
Lemma frugal_sync p : frugal (sync_file p).
Proof. unfold sync_file. frugal. Qed.
Lemma frugal_rename p q : frugal (rename p q).
Proof. unfold rename. frugal. Qed.
Lemma frugal_remove p : frugal (remove_file p).
Proof. unfold remove_file. frugal. Qed.

#[export] Hint Resolve frugal_try_io frugal_write_at frugal_write_file frugal_set_len frugal_sync frugal_rename frugal_remove : frugal.

Lemma frugal_restricted p d : frugal (write_restricted p d).
Proof. unfold write_restricted, exists_file. frugal. Qed.

#[export] Hint Resolve frugal_restricted : frugal.

Lemma runs_frugal {A} (m : Disk A) w Q D :
  frugal m -> runs m w Q D ->
  runs m w (fun a w' => Q a w' /\ (no_failure w -> no_failure w')) (fun w' => D w' /\ (no_failure w -> no_failure w')).
Proof.
  intros Hm Hr. unfold runs in *. pose proof (no_failure_suffix w (m w).1 (Hm w)) as Hn. destruct (m w) as [w' [a|]]; cbn in *; auto.
Qed.

(** An operation that reports a failure met one. *)
Lemma fate_no_failure w f w' : fate w = (w', Some f) -> no_failure w -> (forall n, f <> Fails n) /\ no_failure w'.
Proof.
  unfold fate, no_failure. destruct (fates w) as [|g gs] eqn:E; intros [= <- <-] Hn; cbn [fates].
  - split; [done|]. rewrite E. intros n. apply not_elem_of_nil.
  - split; [intros n ->; apply (Hn n); left|]. intros n Hin. apply (Hn n). by right.
Qed.

Lemma rename_ok p q w w' : no_failure w -> is_Some (files w !! p) -> rename p q w <> (w', Some false).
Proof.
  intros Hn [g Hg]. unfold rename, bind, get, put, drop_file, ret, die. destruct (fate w) as [w1 [f|]] eqn:F; [|done].
  destruct (fate_no_failure _ _ _ F Hn) as [Hf _].
  assert (files w1 = files w) as E by (unfold fate in F; destruct (fates w); by injection F as <- <-).
  rewrite E, Hg. destruct f as [|n|[|n]]; [done|by destruct (Hf n)|done..].
Qed.

(** *** Nothing dies on its own *)

(** The process is not killed any more; operations may still fail. *)
Definition no_death (w : World) : Prop := forall n, Dies n ∉ fates w.

(** [m] comes to a result. *)
Definition lively {A} (m : Disk A) : Prop := forall w, no_death w -> exists w' a, m w = (w', Some a) /\ no_death w'.

Lemma lively_ret {A} (a : A) : lively (ret a).
Proof. intros w Hn. by exists w, a. Qed.
Lemma lively_get p : lively (get p).
Proof. intros w Hn. by eexists _, _. Qed.
Lemma lively_put p f : lively (put p f).
Proof. intros w Hn. by eexists _, _. Qed.
Lemma lively_drop p : lively (drop_file p).
Proof. intros w Hn. by eexists _, _. Qed.

Lemma lively_bind {A B} (m : Disk A) (k : A -> Disk B) : lively m -> (forall a, lively (k a)) -> lively (bind m k).
Proof. intros Hm Hk w Hn. unfold bind. destruct (Hm w Hn) as (w' & a & -> & Hn'). by apply Hk. Qed.

Lemma lively_try {A B E} (m : Disk (result A E)) (k : A -> Disk (result B E)) :
  lively m -> (forall a, lively (k a)) -> lively (try_bind m k).
Proof. intros Hm Hk. apply lively_bind; [done|]. intros [a|e]; [done|apply lively_ret]. Qed.

(** A fate is never death. *)
Lemma lively_fate {A} (k : Fate -> Disk A) : lively (k Fine) -> (forall n, lively (k (Fails n))) -> lively (bind fate k).
Proof.
  intros H1 H2 w Hn. unfold bind, fate. destruct (fates w) as [|[|n|n] fs] eqn:E; [by apply H1| | |by destruct (Hn n); rewrite E; left].
  - apply H1. intros m Hin. apply (Hn m). rewrite E. by right.
  - apply H2. intros m Hin. apply (Hn m). rewrite E. by right.
Qed.

Create HintDb lively.
#[export] Hint Resolve lively_ret lively_get lively_put lively_drop : lively.

Ltac lively :=
  repeat first [progress eauto with lively nocore
               | apply lively_fate; [|intros ?] | apply lively_bind; [|intros ?] | apply lively_try; [|intros ?]
               | match goal with |- lively (match ?x with _ => _ end) => destruct x end
               | match goal with |- lively (let _ := _ in _) => cbv zeta end ].

Lemma lively_try_io : lively try_io.
Proof. unfold try_io. lively. Qed.
Lemma lively_write_at p n d : lively (write_at p n d).
Proof. unfold write_at. lively. Qed.
Lemma lively_write_file p d : lively (write_file p d).
Proof. unfold write_file. lively. Qed.
Lemma lively_set_len p n : lively (set_len p n).
Proof. unfold set_len. lively. Qed.
Lemma lively_sync p : lively (sync_file p).
Proof. unfold sync_file. lively. Qed.
Lemma lively_rename p q : lively (rename p q).
Proof. unfold rename. lively. Qed.
Lemma lively_remove p : lively (remove_file p).
Proof. unfold remove_file. lively. Qed.

#[export] Hint Resolve lively_try_io lively_write_at lively_write_file lively_set_len lively_sync lively_rename lively_remove : lively.

Lemma lively_restricted p d : lively (write_restricted p d).
Proof. unfold write_restricted, exists_file. lively. Qed.

#[export] Hint Resolve lively_restricted : lively.
