(* ===== verification/SealedState.v ===== *)
(** * SealedState: keys, labels and documents of the encrypted local state

    Models [state_crypto/mod.rs] and [state_crypto/doc.rs], and the derivations
    of [crypto/keyderive.rs] they use: the classes of state with their ids,
    names and limits, the key cell that a wipe erases, and one sealed document
    per file that is replaced through a staged copy.  XChaCha20-Poly1305 is a
    parameter.  A path is its file name: the name is also the context a
    document is bound to. *)

From S2P Require Import Prelude Bytes Text ErasureCode Dissolve Disk.

(** ** The cipher *)

(** Encryption and decryption in place with a detached tag. *)
Class StateCipher := {
  xchacha_seal (key nonce aad buf : bytes) : option (bytes * bytes);
  xchacha_open (key nonce aad buf tag : bytes) : option bytes;
}.

(** What was sealed opens under the same key, nonce and associated data; the
    text keeps its length and the tag has 16 bytes. *)
Definition cipher_correct `{StateCipher} : Prop :=
  forall key nonce aad pt ct tag, xchacha_seal key nonce aad pt = Some (ct, tag) ->
    length ct = length pt /\ length tag = 16%nat /\ xchacha_open key nonce aad ct tag = Some pt.

(** Sealing fails only above the length limit of the cipher. *)
Definition cipher_total `{StateCipher} : Prop :=
  forall key nonce aad pt, zlen pt <= 274877906880 -> is_Some (xchacha_seal key nonce aad pt).

(** Expanding 32 bytes cannot fail. *)
Definition hkdf_total `{Crypto} : Prop := forall salt ikm info, is_Some (hkdf salt ikm info).

Definition NONCE_LEN : nat := 24.
Definition TAG_LEN : nat := 16.

(** ** Labels *)

Inductive Label :=
| Contacts | PushHistory | ReplicationWal | TransferJournal | DirectedMeta | StoreIndex | DesktopPrefs | ChatHistory
| ChatSessions | ChatOutbox | ChatGroups | ChatGroupHistory | PushOutbox | ChatAnchor | ChatCustody.

Definition ALL : list Label :=
  [Contacts; PushHistory; ReplicationWal; TransferJournal; DirectedMeta; StoreIndex; DesktopPrefs; ChatHistory;
   ChatSessions; ChatOutbox; ChatGroups; ChatGroupHistory; PushOutbox; ChatAnchor; ChatCustody].

Definition label_id (l : Label) : Z :=
  match l with
  | Contacts => 1 | PushHistory => 2 | ReplicationWal => 3 | TransferJournal => 4 | DirectedMeta => 5
  | StoreIndex => 6 | DesktopPrefs => 7 | ChatHistory => 8 | ChatSessions => 9 | ChatOutbox => 10
  | ChatGroups => 11 | ChatGroupHistory => 12 | PushOutbox => 13 | ChatAnchor => 14 | ChatCustody => 15
  end.

Definition from_id (id : Z) : option Label := List.find (fun l => label_id l =? id) ALL.

Definition label_name (l : Label) : bytes :=
  lit match l with
      | Contacts => "contacts" | PushHistory => "push-history" | ReplicationWal => "replication-wal"
      | TransferJournal => "transfer-journal" | DirectedMeta => "directed-meta" | StoreIndex => "store-index"
      | DesktopPrefs => "desktop-prefs" | ChatHistory => "chat-history" | ChatSessions => "chat-sessions"
      | ChatOutbox => "chat-outbox" | ChatGroups => "chat-groups" | ChatGroupHistory => "chat-group-history"
      | PushOutbox => "push-outbox" | ChatAnchor => "chat-anchor" | ChatCustody => "chat-custody"
      end.

Definition max_record_bytes (l : Label) : Z :=
  match l with ReplicationWal => 16 * 1024 * 1024 | TransferJournal => 1024 * 1024 | _ => 64 * 1024 end.

Definition max_document_bytes (l : Label) : Z :=
  match l with StoreIndex => 256 * 1024 * 1024 | _ => 16 * 1024 * 1024 end.

Inductive StateError :=
| KeyMissing | KeyInvalid | NotProtected | UnsupportedVersion (v : Z) | WrongLabel (expected found : Z)
| Authentication | Truncated | Corrupt (offset : Z) | TooLarge (size limit : Z) | Migration | Io.

(** ** Keys *)

Definition LABEL_STATE_ROOT : bytes := lit "miasma/state/v1".
Definition LABEL_STATE_DOC_PREFIX : bytes := lit "miasma/state/v1/doc/".
Definition LABEL_STATE_LOG_FILE : bytes := lit "miasma/state/v1/log-file".

(** The key cell: the state key until it is erased. *)
Record StateKeys := mkKeys { cell : option bytes }.

Section Keys.
Context `{Crypto} `{StateCipher}.

Definition derive_state_key (master : bytes) : option bytes := hkdf None master LABEL_STATE_ROOT.

Definition derive_state_doc_key (state_key label : bytes) : option bytes :=
  hkdf None state_key (LABEL_STATE_DOC_PREFIX ++ label).

Definition derive_state_log_key (doc_key salt : bytes) : option bytes := hkdf (Some salt) doc_key LABEL_STATE_LOG_FILE.

Definition from_master_key (master : bytes) : result StateKeys StateError :=
  if forallb (fun b => b =? 0) master then Err KeyInvalid
  else let? k := ok_or (derive_state_key master) KeyInvalid in Ok (mkKeys (Some k)).

Definition erase (k : StateKeys) : StateKeys := mkKeys None.
Definition is_erased (k : StateKeys) : bool := bool_decide (cell k = None).

(** The [expect] on the derivation is a panic. *)
Definition doc_key (k : StateKeys) (l : Label) : outcome (result bytes StateError) :=
  match cell k with
  | None => Ret (Err KeyInvalid)
  | Some sk => match derive_state_doc_key sk (label_name l) with Some d => Ret (Ok d) | None => Panic end
  end.

Definition seal_detached (key nonce aad buf : bytes) : result (bytes * bytes) StateError :=
  ok_or (xchacha_seal key nonce aad buf) Authentication.

Definition open_detached (key nonce aad buf tag : bytes) : result bytes StateError :=
  ok_or (xchacha_open key nonce aad buf tag) Authentication.

(** ** Documents *)

Definition DOC_MAGIC : bytes := lit "MSD1".
Definition LOG_MAGIC : bytes := lit "MSL1".
Definition DOC_VERSION : Z := 1.
Definition DOC_HEADER_LEN : nat := 30.

Definition doc_aad (l : Label) (ctx : bytes) : bytes := DOC_MAGIC ++ [DOC_VERSION] ++ [label_id l] ++ ctx.

Definition doc_seal (keys : StateKeys) (l : Label) (context plaintext nonce : bytes) : outcome (result bytes StateError) :=
  let limit := max_document_bytes l in
  if limit <? zlen plaintext then Ret (Err (TooLarge (zlen plaintext) limit))
  else
    let! k := doc_key keys l in
    Ret (let? key := k in
         let? r := seal_detached key nonce (doc_aad l context) plaintext in
         Ok (DOC_MAGIC ++ [DOC_VERSION] ++ [label_id l] ++ nonce ++ r.1 ++ r.2)).

Definition doc_open (keys : StateKeys) (l : Label) (context file : bytes) : outcome (result bytes StateError) :=
  if (length file <? DOC_HEADER_LEN + TAG_LEN)%nat then
    let n := Nat.min (length file) 4 in
    Ret (Err (if bool_decide (take n file = take n DOC_MAGIC) && (0 <? n)%nat then Truncated
              else if (length file =? 0)%nat then Truncated else NotProtected))
  else if negb (bool_decide (take 4 file = DOC_MAGIC)) then Ret (Err NotProtected)
  else if negb (nth 4 file 0 =? DOC_VERSION) then Ret (Err (UnsupportedVersion (nth 4 file 0)))
  else if negb (nth 5 file 0 =? label_id l) then Ret (Err (WrongLabel (label_id l) (nth 5 file 0)))
  else
    let nonce := slice 6 DOC_HEADER_LEN file in
    let tag_at := (length file - TAG_LEN)%nat in
    let! k := doc_key keys l in
    Ret (let? key := k in
         open_detached key nonce (doc_aad l context) (slice DOC_HEADER_LEN tag_at file) (drop tag_at file)).

(** A panic ends the task as a death of the process does. *)
Definition lift {A} (o : outcome (result A StateError)) : Disk (result A StateError) :=
  match o with Ret r => ret r | Panic => die end.

Definition staged_tmp (path : bytes) : bytes := path ++ lit ".sec.tmp".

Definition stage_sealed (path sealed : bytes) (durable : bool) : Disk (result bytes StateError) :=
  let tmp := staged_tmp path in
  let* ok := write_restricted tmp sealed in
  if negb ok then let* _ := remove_file tmp in ret (Err Io)
  else if durable then let* s := sync_file tmp in ret (if (s : bool) then Ok tmp else Err Io)
  else ret (Ok tmp).

Definition write_sealed (path sealed : bytes) (durable : bool) : Disk (result unit StateError) :=
  try* tmp := stage_sealed path sealed durable in
  let* moved := rename tmp path in
  if (moved : bool) then ret (Ok tt) else let* _ := remove_file tmp in ret (Err Io).

Definition write_document (keys : StateKeys) (l : Label) (path plaintext nonce : bytes) : Disk (result unit StateError) :=
  try* sealed := lift (doc_seal keys l path plaintext nonce) in
  write_sealed path sealed true.

Definition stage_document (keys : StateKeys) (l : Label) (path plaintext nonce : bytes) : Disk (result bytes StateError) :=
  try* sealed := lift (doc_seal keys l path plaintext nonce) in
  stage_sealed path sealed true.

Definition write_document_new (keys : StateKeys) (l : Label) (path plaintext nonce : bytes) : Disk (result bool StateError) :=
  let* there := exists_file path in
  if (there : bool) then ret (Ok false)
  else
    try* tmp := stage_document keys l path plaintext nonce in
    let* linked := hard_link tmp path in
    let* _ := remove_file tmp in
    ret (match linked with LinkMade => Ok true | LinkExists => Ok false | LinkFailed => Err Io end).

Definition read_document_as (keys : StateKeys) (l : Label) (path context : bytes) : Disk (result bytes StateError) :=
  let* f := get path in
  match f with
  | None => ret (Err Io)
  | Some f =>
    let size := zlen (content f) in
    let limit := max_document_bytes l + Z.of_nat DOC_HEADER_LEN + Z.of_nat TAG_LEN in
    if limit <? size then ret (Err (TooLarge size limit)) else lift (doc_open keys l context (content f))
  end.

Definition read_document (keys : StateKeys) (l : Label) (path : bytes) : Disk (result bytes StateError) :=
  read_document_as keys l path path.

(** What a file looks like from its first six bytes. *)
Inductive Sniffed := SMissing | SEmpty | SDocument (id : Z) | SLog (id : Z) | SPlain.

Definition is_protected (s : Sniffed) : bool := match s with SDocument _ | SLog _ => true | _ => false end.

Definition sniff (path : bytes) : Disk Sniffed :=
  let* f := get path in
  ret match f with
      | None => SMissing
      | Some f =>
        let head := take 6 (content f) in
        if (length head =? 0)%nat then SEmpty
        else if (length head =? 6)%nat && bool_decide (take 4 head = DOC_MAGIC) then SDocument (nth 5 head 0)
        else if (length head =? 6)%nat && bool_decide (take 4 head = LOG_MAGIC) then SLog (nth 5 head 0)
        else SPlain
      end.

End Keys.

Arguments max_record_bytes : simpl never.
Arguments max_document_bytes : simpl never.

(** ** Documents read back *)

Section Documents.
Context `{Crypto} `{StateCipher} (Hc : cipher_correct) (Ht : cipher_total) (Hk : hkdf_total).
Implicit Types (l : Label) (path pt nonce : bytes).

Lemma doc_key_live sk l : exists k, doc_key (mkKeys (Some sk)) l = Ret (Ok k).
Proof.
  unfold doc_key, derive_state_doc_key. cbn [cell].
  destruct (Hk None sk (LABEL_STATE_DOC_PREFIX ++ label_name l)) as [k E]. rewrite E. by exists k.
Qed.

Lemma max_document_total l : max_document_bytes l <= 274877906880.
Proof. by destruct l. Qed.

(** A sealed document has its header, and opens under the context it was sealed
    for. *)
Lemma doc_seal_opens sk l ctx pt nonce :
  zlen pt <= max_document_bytes l -> length nonce = NONCE_LEN ->
  exists sealed, doc_seal (mkKeys (Some sk)) l ctx pt nonce = Ret (Ok sealed) /\
    length sealed = (DOC_HEADER_LEN + length pt + TAG_LEN)%nat /\
    doc_open (mkKeys (Some sk)) l ctx sealed = Ret (Ok pt).
Proof.
  intros Hpt Hn. destruct (doc_key_live sk l) as [k Ek]. pose proof (max_document_total l) as Hm.
  destruct (Ht k nonce (doc_aad l ctx) pt) as [[ct tag] Es]; [lia|].
  destruct (Hc _ _ _ _ _ _ Es) as (Hct & Htag & Ho).
  exists (DOC_MAGIC ++ [DOC_VERSION] ++ [label_id l] ++ nonce ++ ct ++ tag). split_and!.
  - unfold doc_seal, seal_detached. rewrite (proj2 (Z.ltb_ge _ _)) by lia. rewrite Ek. cbn [outcome_bind result_bind].
    by rewrite Es.
  - rewrite !length_app, Hn, Hct, Htag. unfold DOC_HEADER_LEN, NONCE_LEN, TAG_LEN. cbn [length]. change (length DOC_MAGIC) with 4%nat. lia.
  - unfold doc_open. set (file := DOC_MAGIC ++ _).
    assert (length file = (DOC_HEADER_LEN + length pt + TAG_LEN)%nat) as Hl.
    { unfold file. rewrite !length_app, Hn, Hct, Htag. unfold DOC_HEADER_LEN, NONCE_LEN, TAG_LEN. cbn [length].
      change (length DOC_MAGIC) with 4%nat. lia. }
    rewrite (proj2 (Nat.ltb_ge _ _)) by lia. rewrite bool_decide_eq_true_2 by done. cbn [negb nth].
    change (nth 4 file 0) with DOC_VERSION. change (nth 5 file 0) with (label_id l). rewrite !Z.eqb_refl. cbn [negb].
    rewrite Ek. cbn [outcome_bind result_bind]. f_equal. unfold open_detached.
    assert (slice 6 DOC_HEADER_LEN file = nonce) as ->.
    { unfold file. rewrite !(slice_skip _ _ _ _) by (cbn; unfold DOC_HEADER_LEN; cbn; lia). cbn [length Nat.sub].
      change (slice 0 24 (nonce ++ ct ++ tag) = nonce). by apply slice_here. }
    assert (drop (length file - TAG_LEN) file = tag) as ->.
    { unfold file. rewrite !(app_assoc _ _ tag). apply drop_app_length'. rewrite !length_app, Htag. unfold TAG_LEN. lia. }
    assert (slice DOC_HEADER_LEN (length file - TAG_LEN) file = ct) as ->.
    { rewrite Hl. unfold file. rewrite !(slice_skip _ _ _ _) by (rewrite ?Hn; cbn; unfold DOC_HEADER_LEN, NONCE_LEN; cbn; lia).
      rewrite Hn. change (length DOC_MAGIC) with 4%nat. cbn [length]. unfold DOC_HEADER_LEN, NONCE_LEN, TAG_LEN.
      replace (30 - 4 - 1 - 1 - 24)%nat with 0%nat by lia. apply slice_here. lia. }
    by rewrite Ho.
Qed.

Lemma staged_ne path : staged_tmp path <> path.
Proof. unfold staged_tmp. intros E%(f_equal length). rewrite length_app in E. change (length (lit ".sec.tmp")) with 8%nat in E. lia. Qed.

(** Staging touches only the staged copy, and a durable one is settled. *)
Lemma runs_stage path sealed w (Q : result bytes StateError -> World -> Prop) (D : World -> Prop) :
  (forall w', others {[staged_tmp path]} w w' ->
     at_file (staged_tmp path) (Some (mkFile sealed (length sealed))) w' -> Q (Ok (staged_tmp path)) w') ->
  (forall w', others {[staged_tmp path]} w w' -> Q (Err Io) w' /\ D w') ->
  runs (stage_sealed path sealed true) w Q D.
Proof.
  intros H1 H2. unfold stage_sealed. apply runs_bind, runs_restricted.
  - intros w1 Ho Hf. cbn [negb]. apply runs_bind. eapply runs_sync; [exact Hf| |]; intros w2 Ho2 Hf2.
    + split; [apply runs_ret, H1|apply H2]; [by eapply others_trans|exact Hf2|by eapply others_trans].
    + split; [apply runs_ret|]; apply H2; by eapply others_trans.
  - intros w1 Ho _. split; [|by apply H2]. cbn [negb]. apply runs_bind, runs_remove; intros w2 Ho2 _;
      (split; [apply runs_ret|]); apply H2; by eapply others_trans.
Qed.

(** Writing sealed bytes replaces the file whole or leaves it. *)
Lemma runs_write_sealed path sealed w :
  runs (write_sealed path sealed true) w
    (fun r w' => match r with
                 | Ok _ => at_file path (Some (mkFile sealed (length sealed))) w'
                 | Err _ => at_file path (files w !! path) w'
                 end /\ others {[path; staged_tmp path]} w w')
    (fun w' => (at_file path (Some (mkFile sealed (length sealed))) w' \/ at_file path (files w !! path) w') /\
               others {[path; staged_tmp path]} w w').
Proof.
  pose proof (staged_ne path) as Hne.
  assert (forall w', others {[staged_tmp path]} w w' -> others {[path; staged_tmp path]} w w' /\ at_file path (files w !! path) w') as Hs.
  { intros w' Ho. split; [eapply others_mono; [|exact Ho]; set_solver|]. apply Ho. set_solver. }
  unfold write_sealed. apply runs_try, runs_stage.
  - intros w1 Ho Hf. destruct (Hs w1 Ho) as [Ho' Hp]. apply runs_bind. eapply (runs_rename _ _ _ _ _ _ Hne Hf).
    + intros w2 Ho2 _ Hq. assert (others {[path; staged_tmp path]} w w2).
      { eapply others_trans; [exact Ho'|]. eapply others_mono; [|exact Ho2]. set_solver. }
      split; [apply runs_ret|]; auto.
    + intros w2 Ho2 _ Hq. assert (others {[path; staged_tmp path]} w w2) as Hw2.
      { eapply others_trans; [exact Ho'|]. eapply others_mono; [|exact Ho2]. set_solver. }
      assert (at_file path (files w !! path) w2) as Hp2 by (unfold at_file in *; congruence).
      split; [|by auto]. apply runs_bind, runs_remove; intros w3 Ho3 _;
        (assert (others {[path; staged_tmp path]} w w3 /\ at_file path (files w !! path) w3) as [? ?];
          [split; [eapply others_trans; [exact Hw2|]; eapply others_mono; [|exact Ho3]; set_solver|unfold at_file in *; rewrite Ho3 by set_solver; done]|]);
        (split; [apply runs_ret|]); auto.
  - intros w1 Ho. destruct (Hs w1 Ho) as [Ho' Hp]. auto.
Qed.

(** C23. Replacing a document is atomic and durable: whatever fails, and whether or
    not power is lost at the end or in the middle, the name holds the old file
    or a document that opens to the new text; it holds the new one when the
    call succeeded, the old one when it failed. *)
Theorem document_write_atomic sk l path pt nonce w keep :
  zlen pt <= max_document_bytes l -> length nonce = NONCE_LEN -> settled (files w !! path) ->
  let keys := mkKeys (Some sk) in
  let '(w', r) := write_document keys l path pt nonce w in
  let after := power_loss keep w' in
  let old := files after !! path = files w !! path in
  let new := (read_document keys l path after).2 = Some (Ok pt) in
  match r with Some (Ok _) => new | Some (Err _) => old | None => old \/ new end.
Proof.
  intros Hpt Hn Hset. cbn zeta. destruct (doc_seal_opens sk l path pt nonce Hpt Hn) as (sealed & Es & Hl & Ho).
  unfold write_document, try_bind, bind, lift. rewrite Es. cbn [ret]. pose proof (runs_write_sealed path sealed w) as Hr.
  unfold runs in Hr. destruct (write_sealed path sealed true w) as [w' r].
  assert (at_file path (files w !! path) w' -> files (power_loss keep w') !! path = files w !! path) as Hold.
  { intros Hp. rewrite settled_kept; [exact Hp|]. by rewrite Hp. }
  assert (at_file path (Some (mkFile sealed (length sealed))) w' ->
    (read_document (mkKeys (Some sk)) l path (power_loss keep w')).2 = Some (Ok pt)) as Hnew.
  { intros Hp. unfold read_document, read_document_as, bind, get. rewrite settled_kept by (by rewrite Hp). rewrite Hp. cbn [content].
    rewrite (proj2 (Z.ltb_ge _ _)) by (unfold zlen in *; lia). by rewrite Ho. }
  destruct r as [[[]|e]|]; [exact (Hnew (proj1 Hr))|exact (Hold (proj1 Hr))|destruct Hr as [[?|?] _]; auto].
Qed.

End Documents.
