(* ===== verification/SealedLog.v ===== *)
(** * SealedLog: the encrypted record log

    Models [state_crypto/log.rs]: the reader that streams records and drops a
    torn tail, and the writer that scans the file, cuts a torn tail and
    appends.  A file that is being read does not change, so a read that is
    shorter than the size asked for happens only at its end.  Record numbers
    of type [u64] are not expected to wrap. *)

From S2P Require Import Prelude Bytes Text Codec ErasureCode Dissolve Disk SealedState.

Definition LOG_VERSION : Z := 1.
Definition LOG_HEADER_LEN : Z := 22.
Definition MIN_BODY : Z := 40.

Record Core := mkCore { lc_key : bytes; lc_label : Label; lc_salt : bytes }.

Section Log.
Context `{Crypto} `{StateCipher}.

Definition core_new (keys : StateKeys) (l : Label) (salt : bytes) : outcome (result Core StateError) :=
  let! k := doc_key keys l in
  match k with
  | Err e => Ret (Err e)
  | Ok d => match derive_state_log_key d salt with Some key => Ret (Ok (mkCore key l salt)) | None => Panic end
  end.

Definition max_body (c : Core) : Z := Z.of_nat NONCE_LEN + max_record_bytes (lc_label c) + Z.of_nat TAG_LEN.

Definition header (c : Core) : bytes := LOG_MAGIC ++ [LOG_VERSION] ++ [label_id (lc_label c)] ++ lc_salt c.

Definition log_aad (c : Core) (seq : Z) : bytes :=
  LOG_MAGIC ++ [LOG_VERSION] ++ [label_id (lc_label c)] ++ lc_salt c ++ be_bytes 8 seq.

(** Decrypt [nonce | ciphertext | tag]. *)
Definition open_body (c : Core) (seq : Z) (body : bytes) : result bytes StateError :=
  let nonce := take NONCE_LEN body in
  if negb (bool_decide (drop 16 nonce = be_bytes 8 seq)) then Err Authentication
  else
    let tag_at := (length body - TAG_LEN)%nat in
    open_detached (lc_key c) nonce (log_aad c seq) (slice NONCE_LEN tag_at body) (drop tag_at body).

Definition parse_header (h : bytes) (l : Label) : result bytes StateError :=
  if negb (bool_decide (take 4 h = LOG_MAGIC)) then Err NotProtected
  else if negb (nth 4 h 0 =? LOG_VERSION) then Err (UnsupportedVersion (nth 4 h 0))
  else if negb (nth 5 h 0 =? label_id l) then Err (WrongLabel (label_id l) (nth 5 h 0))
  else Ok (drop 6 h).

(** Whether the next [count] bytes are zero; nothing when there are fewer. *)
Definition rest_is_zero (rest : bytes) (count : Z) : option bool :=
  if zlen rest <? count then None else Some (forallb (fun b => b =? 0) (take (Z.to_nat count) rest)).

(** ** Reader *)

Record LogReader := mkReader {
  lr_rest : bytes; lr_core : option Core; lr_seq : Z; lr_offset : Z; lr_len : Z; lr_torn : option Z; lr_done : bool;
}.

(** A file shorter than its header: ours if it starts like ours. *)
Definition short_head (file : bytes) : bool :=
  let n := Nat.min (length file) 4 in bool_decide (take n file = take n LOG_MAGIC).

Definition reader_open (keys : StateKeys) (l : Label) (file : option bytes) : outcome (result (option LogReader) StateError) :=
  match file with
  | None => Ret (Ok None)
  | Some b =>
    let len := zlen b in
    if len =? 0 then Ret (Ok (Some (mkReader [] None 0 0 len None true)))
    else if len <? LOG_HEADER_LEN then Ret (Err (if short_head b then Truncated else NotProtected))
    else
      let h := take (Z.to_nat LOG_HEADER_LEN) b in
      match parse_header h l with
      | Err e => Ret (Err e)
      | Ok salt =>
        let! c := core_new keys l salt in
        match c with
        | Err e => Ret (Err e)
        | Ok c => Ret (Ok (Some (mkReader (drop (Z.to_nat LOG_HEADER_LEN) b) (Some c) 0 LOG_HEADER_LEN len None false)))
        end
      end
  end.

Definition tear (r : LogReader) : LogReader :=
  mkReader (lr_rest r) (lr_core r) (lr_seq r) (lr_offset r) (lr_len r) (Some (lr_offset r)) true.

Definition finished (r : LogReader) : LogReader :=
  mkReader (lr_rest r) (lr_core r) (lr_seq r) (lr_offset r) (lr_len r) (lr_torn r) true.

Definition next_record (r : LogReader) : LogReader * result (option bytes) StateError :=
  match lr_core r with
  | None => (finished r, Ok None)
  | Some c =>
    if lr_done r then (r, Ok None)
    else
      let remaining := lr_len r - lr_offset r in
      if remaining =? 0 then (finished r, Ok None)
      else if remaining <? 4 then (tear r, Ok None)
      else
        match rd 4 (lr_rest r) with
        | None => (tear r, Ok None)
        | Some (lenb, rest) =>
          let body_len := from_le lenb in
          if negb ((MIN_BODY <=? body_len) && (body_len <=? max_body c)) then
            if (body_len =? 0) && bool_decide (rest_is_zero rest (remaining - 4) = Some true) then (tear r, Ok None)
            else (finished r, Err (Corrupt (lr_offset r)))
          else if remaining <? 4 + body_len then (tear r, Ok None)
          else
            match rd (Z.to_nat body_len) rest with
            | None => (tear r, Ok None)
            | Some (body, rest) =>
              let end_ := lr_offset r + 4 + body_len in
              match open_body c (lr_seq r) body with
              | Ok plain =>
                (mkReader rest (lr_core r) (lr_seq r + 1) end_ (lr_len r) (lr_torn r) (lr_done r), Ok (Some plain))
              | Err e =>
                if (end_ =? lr_len r) && (0 <? lr_seq r) then (tear r, Ok None) else (finished r, Err e)
              end
            end
        end
  end.

(** Read until the end or an error: the records, the reader and the error. *)
Fixpoint drain (fuel : nat) (r : LogReader) : list bytes * LogReader * option StateError :=
  match fuel with
  | O => ([], r, None)
  | S fuel =>
    match next_record r with
    | (r', Ok None) => ([], r', None)
    | (r', Err e) => ([], r', Some e)
    | (r', Ok (Some p)) => let '(ps, r'', e) := drain fuel r' in (p :: ps, r'', e)
    end
  end.

(** Every record of a file, and where a torn record was dropped. *)
Definition read_log (keys : StateKeys) (l : Label) (file : option bytes) : outcome (result (option (list bytes * option Z)) StateError) :=
  let! o := reader_open keys l file in
  Ret match o with
      | Err e => Err e
      | Ok None => Ok None
      | Ok (Some r) =>
        match drain (S (length (lr_rest r))) r with
        | (ps, r', None) => Ok (Some (ps, lr_torn r'))
        | (_, _, Some e) => Err e
        end
      end.

(** ** Writer *)

Record LogWriter := mkWriter { lw_path : bytes; lw_pos : nat; lw_core : Core; lw_seq : Z; lw_end : Z }.

Record Scan := mkScan { sc_count : Z; sc_valid_len : Z }.

(** The walk over the record lengths: where it stopped, how many records it
    passed, and the last two. *)
Fixpoint scan_loop (fuel : nat) (c : Core) (rest : bytes) (offset file_len count : Z) (last prev : option (Z * Z))
  : result (Z * Z * option (Z * Z) * option (Z * Z)) StateError :=
  match fuel with
  | O => Ok (offset, count, last, prev)
  | S fuel =>
    let remaining := file_len - offset in
    if (remaining =? 0) || (remaining <? 4) then Ok (offset, count, last, prev)
    else
      match rd 4 rest with
      | None => Err Io
      | Some (lenb, rest) =>
        let body_len := from_le lenb in
        if negb ((MIN_BODY <=? body_len) && (body_len <=? max_body c)) then
          if body_len =? 0 then
            match rest_is_zero rest (remaining - 4) with
            | None => Err Io
            | Some true => Ok (offset, count, last, prev)
            | Some false => Err (Corrupt offset)
            end
          else Err (Corrupt offset)
        else if remaining <? 4 + body_len then Ok (offset, count, last, prev)
        else scan_loop fuel c (drop (Z.to_nat body_len) rest) (offset + 4 + body_len) file_len (count + 1)
               (Some (offset, body_len)) last
      end
  end.

(** The body of a record the walk passed. *)
Definition body_at (file : bytes) (at_ : Z * Z) : option bytes :=
  match rd (Z.to_nat at_.2) (drop (Z.to_nat (at_.1 + 4)) file) with Some (b, _) => Some b | None => None end.

Definition scan (c : Core) (file : bytes) : result Scan StateError :=
  let? r := scan_loop (S (length file)) c (drop (Z.to_nat LOG_HEADER_LEN) file) LOG_HEADER_LEN (zlen file) 0 None None in
  let '(offset, count, last, prev) := r in
  match last with
  | None => Ok (mkScan count offset)
  | Some at_ =>
    let? body := ok_or (body_at file at_) Io in
    if is_ok (open_body c (count - 1) body) then Ok (mkScan count offset)
    else
      match prev with
      | None => Err Authentication
      | Some pat =>
        let? pbody := ok_or (body_at file pat) Io in
        if is_ok (open_body c (count - 2) pbody) then Ok (mkScan (count - 1) at_.1) else Err Authentication
      end
  end.

(** Start a new log, with a random salt. *)
Definition create_file (keys : StateKeys) (l : Label) (path salt : bytes) : Disk (result LogWriter StateError) :=
  try* c := lift (core_new keys l salt) in
  let* ok := write_restricted path (header c) in
  if (ok : bool) then
    let* opened := try_io in
    ret (if (opened : bool) then Ok (mkWriter path (Z.to_nat LOG_HEADER_LEN) c 0 LOG_HEADER_LEN) else Err Io)
  else ret (Err Io).

Definition open_append (keys : StateKeys) (l : Label) (path salt : bytes) : Disk (result LogWriter StateError) :=
  let* read := try_io in
  let* f := get path in
  let file := match f with Some f => content f | None => [] end in
  let len := zlen file in
  if negb read then ret (Err Io)
  else if len <? LOG_HEADER_LEN then
    if (0 <? len) && negb (short_head file) then ret (Err NotProtected) else create_file keys l path salt
  else
    match parse_header (take (Z.to_nat LOG_HEADER_LEN) file) l with
    | Err e => ret (Err e)
    | Ok salt =>
      try* c := lift (core_new keys l salt) in
      match scan c file with
      | Err e => ret (Err e)
      | Ok s =>
        let w := mkWriter path (Z.to_nat (sc_valid_len s)) c (sc_count s) (sc_valid_len s) in
        if sc_valid_len s <? len then
          let* cut := set_len path (Z.to_nat (sc_valid_len s)) in
          if (cut : bool) then
            let* ok := sync_file path in
            ret (if (ok : bool) then Ok w else Err Io)
          else ret (Err Io)
        else
          let* moved := try_io in
          ret (if (moved : bool) then Ok w else Err Io)
      end
    end.

(** The bytes of one record; the last 8 bytes of the nonce are its number. *)
Definition record_bytes (c : Core) (seq : Z) (nonce record : bytes) : result bytes StateError :=
  let body_len := Z.of_nat NONCE_LEN + zlen record + Z.of_nat TAG_LEN in
  let nonce := take 16 nonce ++ be_bytes 8 seq in
  let? r := seal_detached (lc_key c) nonce (log_aad c seq) record in
  Ok (le_bytes 4 body_len ++ nonce ++ r.1 ++ r.2).

(** After a failed write the file is cut back; a [seek] that fails leaves the
    handle behind the end. *)
Definition append (w : LogWriter) (nonce record : bytes) : Disk (LogWriter * result unit StateError) :=
  let limit := max_record_bytes (lc_label (lw_core w)) in
  if limit <? zlen record then ret (w, Err (TooLarge (zlen record) limit))
  else
    match record_bytes (lw_core w) (lw_seq w) nonce record with
    | Err e => ret (w, Err e)
    | Ok b =>
      let* ok := write_at (lw_path w) (lw_pos w) b in
      if (ok : bool) then
        ret (mkWriter (lw_path w) (lw_pos w + length b) (lw_core w) (lw_seq w + 1) (lw_end w + zlen b), Ok tt)
      else
        let* _ := set_len (lw_path w) (Z.to_nat (lw_end w)) in
        let* moved := try_io in
        ret (mkWriter (lw_path w) (if (moved : bool) then Z.to_nat (lw_end w) else lw_pos w + length b) (lw_core w) (lw_seq w)
               (lw_end w), Err Io)
    end.

Definition sync (w : LogWriter) : Disk (result unit StateError) :=
  let* ok := sync_file (lw_path w) in ret (if (ok : bool) then Ok tt else Err Io).

Definition append_durable (w : LogWriter) (nonce record : bytes) : Disk (LogWriter * result unit StateError) :=
  let* r := append w nonce record in
  match r with
  | (w', Err e) => ret (w', Err e)
  | (w', Ok _) => let* s := sync w' in ret (w', s)
  end.
End Log.

(** ** What a file holds *)

Section Theory.
Context `{Crypto} `{StateCipher} (Hc : cipher_correct) (Ht : cipher_total) (Hk : hkdf_total).
Implicit Types (c : Core) (recs : list bytes) (seq off : Z).

(** [b] is the record [r] written with number [seq]. *)
Definition is_record c seq (r b : bytes) : Prop :=
  zlen r <= max_record_bytes (lc_label c) /\ exists nonce, length nonce = NONCE_LEN /\ record_bytes c seq nonce r = Ok b.

(** [b] is the records one after the other, numbered from [seq]. *)
Inductive Written c : Z -> list bytes -> bytes -> Prop :=
| written_nil seq : Written c seq [] []
| written_cons seq r b recs bs : is_record c seq r b -> Written c (seq + 1) recs bs -> Written c seq (r :: recs) (b ++ bs).

(** The beginning of a record that was not written to its end. *)
Definition Torn c seq (tail : bytes) : Prop :=
  tail = [] \/ exists r b more, is_record c seq r b /\ more <> [] /\ b = tail ++ more.

Lemma max_record_bound l : 0 <= max_record_bytes l <= 16777216.
Proof. by destruct l. Qed.

(** A record can always be made. *)
Lemma record_total c seq nonce r :
  zlen r <= max_record_bytes (lc_label c) -> length nonce = NONCE_LEN ->
  exists b, record_bytes c seq nonce r = Ok b /\ is_record c seq r b.
Proof.
  intros Hr Hn. pose proof (max_record_bound (lc_label c)).
  destruct (Ht (lc_key c) (take 16 nonce ++ be_bytes 8 seq) (log_aad c seq) r) as [[ct tag] E]; [lia|].
  eexists. unfold is_record, record_bytes, seal_detached. rewrite E. cbn [ok_or result_bind]. split; [done|].
  split; [done|]. exists nonce. rewrite E. by split.
Qed.

Lemma record_facts c seq r b :
  is_record c seq r b ->
  exists lenb body, b = lenb ++ body /\ length lenb = 4%nat /\ from_le lenb = zlen body /\
    MIN_BODY <= zlen body <= max_body c /\ open_body c seq body = Ok r.
Proof.
  intros (Hr & nonce & Hn & Hb). pose proof (max_record_bound (lc_label c)). unfold record_bytes, seal_detached in Hb.
  set (nn := take 16 nonce ++ be_bytes 8 seq) in Hb.
  destruct (xchacha_seal (lc_key c) nn (log_aad c seq) r) as [[ct tag]|] eqn:E; [|done].
  cbn [ok_or result_bind fst snd] in Hb. injection Hb as <-. destruct (Hc _ _ _ _ _ _ E) as (Hct & Htag & Ho).
  assert (length nn = 24%nat) as Hnn.
  { unfold nn. rewrite length_app, length_take, be_bytes_length, Hn. unfold NONCE_LEN. lia. }
  assert (zlen (nn ++ ct ++ tag) = Z.of_nat NONCE_LEN + zlen r + Z.of_nat TAG_LEN) as Hz.
  { unfold zlen. rewrite !length_app, Hnn, Hct, Htag. unfold NONCE_LEN, TAG_LEN. lia. }
  eexists (le_bytes 4 _), (nn ++ ct ++ tag). split_and!; [done|apply le_bytes_length|..].
  - rewrite from_le_le; [by rewrite Hz|]. change (256 ^ Z.of_nat 4) with 4294967296.
    unfold zlen, NONCE_LEN, TAG_LEN in *. lia.
  - rewrite Hz. unfold MIN_BODY, NONCE_LEN, TAG_LEN. pose proof (zlen_nonneg r). lia.
  - rewrite Hz. unfold max_body. lia.
  - unfold open_body, open_detached, NONCE_LEN. rewrite (take_app_length' nn) by done.
    rewrite bool_decide_eq_true_2 by (unfold nn; apply drop_app_length'; rewrite length_take, Hn; unfold NONCE_LEN; lia).
    cbn [negb]. rewrite !length_app, Hnn, Htag. unfold TAG_LEN.
    replace (24 + (length ct + 16) - 16)%nat with (24 + length ct)%nat by lia.
    rewrite (app_assoc nn), (drop_app_length' (nn ++ ct)) by (rewrite length_app; lia).
    rewrite <- app_assoc, slice_skip, Hnn by lia. replace (24 - 24)%nat with 0%nat by lia.
    rewrite slice_here by lia. by rewrite Ho.
Qed.

Lemma record_length c seq r b : is_record c seq r b -> (44 <= length b)%nat.
Proof.
  intros (lenb & body & -> & Hl & _ & Hb & _)%record_facts. rewrite length_app, Hl. unfold MIN_BODY, zlen in *. lia.
Qed.

(** ** Reading *)

Definition reader_at c seq off (rest : bytes) : LogReader := mkReader rest (Some c) seq off (off + zlen rest) None false.

Lemma next_good c seq off r b rest :
  is_record c seq r b ->
  next_record (reader_at c seq off (b ++ rest)) = (reader_at c (seq + 1) (off + zlen b) rest, Ok (Some r)).
Proof.
  intros (lenb & body & -> & Hl & Hle & Hb & Ho)%record_facts.
  unfold next_record, reader_at. cbn [lr_core lr_done lr_len lr_offset lr_rest lr_seq lr_torn].
  assert (zlen lenb = 4) as Hz by (unfold zlen; lia). pose proof (zlen_nonneg rest). unfold MIN_BODY in Hb.
  autorewrite with miasma. rewrite Hz. rewrite (proj2 (Z.eqb_neq _ _)), (proj2 (Z.ltb_ge _ _)) by lia.
  rewrite <- app_assoc, (rd_app 4) by done. rewrite Hle. unfold MIN_BODY.
  rewrite (proj2 (Z.leb_le 40 _)), (proj2 (Z.leb_le _ (max_body c))) by lia. cbn [andb negb].
  rewrite (proj2 (Z.ltb_ge _ _)) by lia. rewrite rd_app by (unfold zlen; lia). rewrite Ho. do 2 f_equal; lia.
Qed.

Lemma torn_head c seq tail :
  Torn c seq tail -> (4 <= length tail)%nat ->
  exists lenb rest, rd 4 tail = Some (lenb, rest) /\ MIN_BODY <= from_le lenb <= max_body c /\ zlen tail < 4 + from_le lenb.
Proof.
  intros [->|(r & b & more & Hr & Hm & Hb)] Hl; [simpl in Hl; lia|].
  apply record_facts in Hr as (lenb & body & E & H4 & Hle & Hbody & _).
  destruct (rd 4 tail) as [[x rest]|] eqn:Erd.
  2:{ unfold rd in Erd. rewrite (proj2 (Nat.ltb_ge _ _)) in Erd by lia. done. }
  apply rd_inv in Erd as [-> Hx]. exists x, rest. split; [done|].
  rewrite E, <- app_assoc in Hb. apply app_inj_1 in Hb as [-> ->]; [|lia]. rewrite Hle. split; [done|].
  autorewrite with miasma. assert (zlen x = 4) by (unfold zlen; lia). assert (0 < zlen more) by (destruct more; [done|unfold zlen; simpl; lia]).
  lia.
Qed.

(** The reader stops before [tail], and says where unless nothing was there. *)
Definition Ends c seq (tail : bytes) : Prop :=
  forall off, exists r', next_record (reader_at c seq off tail) = (r', Ok None) /\
    lr_torn r' = if decide (tail = []) then None else Some off.

Lemma reads_four c seq off tail lenb rest :
  rd 4 tail = Some (lenb, rest) ->
  next_record (reader_at c seq off tail) =
    let r := reader_at c seq off tail in
    if negb ((MIN_BODY <=? from_le lenb) && (from_le lenb <=? max_body c)) then
      if (from_le lenb =? 0) && bool_decide (rest_is_zero rest (zlen tail - 4) = Some true) then (tear r, Ok None)
      else (finished r, Err (Corrupt off))
    else if zlen tail <? 4 + from_le lenb then (tear r, Ok None)
    else
      match rd (Z.to_nat (from_le lenb)) rest with
      | None => (tear r, Ok None)
      | Some (body, rest) =>
        match open_body c seq body with
        | Ok plain => (mkReader rest (Some c) (seq + 1) (off + 4 + from_le lenb) (off + zlen tail) None false, Ok (Some plain))
        | Err e => if (off + 4 + from_le lenb =? off + zlen tail) && (0 <? seq) then (tear r, Ok None) else (finished r, Err e)
        end
      end.
Proof.
  intros Erd. assert (4 <= zlen tail) by (unfold rd in Erd; destruct (Nat.ltb_spec (length tail) 4); [done|unfold zlen; lia]).
  unfold next_record, reader_at. cbn [lr_core lr_done lr_len lr_offset lr_rest lr_seq lr_torn].
  replace (off + zlen tail - off) with (zlen tail) by lia.
  rewrite (proj2 (Z.eqb_neq _ _)), (proj2 (Z.ltb_ge _ _)) by lia. by rewrite Erd.
Qed.

Lemma ends_short c seq tail : (length tail < 4)%nat -> Ends c seq tail.
Proof.
  intros Hl off. unfold next_record, reader_at. cbn [lr_core lr_done lr_len lr_offset lr_rest lr_seq lr_torn].
  replace (off + zlen tail - off) with (zlen tail) by lia. destruct (decide (tail = [])) as [->|Hne]; [eexists; by split|].
  assert (0 < zlen tail) by (destruct tail; [done|unfold zlen; simpl; lia]).
  rewrite (proj2 (Z.eqb_neq _ _)), (proj2 (Z.ltb_lt _ _)) by (unfold zlen in *; lia). eexists. by split.
Qed.

Lemma tear_torn c seq off tail : tail <> [] -> lr_torn (tear (reader_at c seq off tail)) = if decide (tail = []) then None else Some off.
Proof. intros Hne. by rewrite decide_False. Qed.

Lemma long_nonempty (tail : bytes) : (4 <= length tail)%nat -> tail <> [].
Proof. by destruct tail; [simpl; lia|]. Qed.

(** What a crash can leave: part of a record, zeros, or a whole record that
    does not open (once another one has). *)
Lemma torn_ends c seq tail : Torn c seq tail -> Ends c seq tail.
Proof.
  intros HT. destruct (decide (length tail < 4)%nat) as [|Hge]; [by apply ends_short|]. intros off.
  destruct (torn_head c seq tail HT) as (lenb & rest & E & Hb & Hlt); [lia|]. rewrite (reads_four _ _ _ _ _ _ E). cbv zeta.
  rewrite (proj2 (Z.leb_le MIN_BODY _)), (proj2 (Z.leb_le _ (max_body c))) by lia. cbn [andb negb].
  rewrite (proj2 (Z.ltb_lt _ _)) by lia. eexists. split; [done|]. apply tear_torn, long_nonempty. lia.
Qed.

Lemma zeros_head n : (4 <= n)%nat -> rd 4 (replicate n 0) = Some (replicate 4 0, replicate (n - 4) 0).
Proof.
  intros Hn. replace n with (4 + (n - 4))%nat at 1 by lia. rewrite replicate_add. by apply rd_app.
Qed.

Lemma zeros_rest n : (4 <= n)%nat -> rest_is_zero (replicate (n - 4) 0) (zlen (replicate n 0) - 4) = Some true.
Proof.
  intros Hn. unfold rest_is_zero, zlen. rewrite !length_replicate, (proj2 (Z.ltb_ge _ _)) by lia. f_equal.
  rewrite take_ge by (rewrite length_replicate; lia). apply forallb_forall. intros x Hx. apply list_elem_of_In, elem_of_replicate in Hx as [-> _]. done.
Qed.

Lemma zeros_end c seq n : Ends c seq (replicate n 0).
Proof.
  destruct (decide (n < 4)%nat) as [|Hge]; [apply ends_short; by rewrite length_replicate|]. intros off.
  rewrite (reads_four _ _ _ _ _ _ (zeros_head n ltac:(lia))). cbv zeta. change (from_le (replicate 4 0)) with 0. cbn [Z.leb andb negb Z.eqb].
  change (MIN_BODY <=? 0) with false. cbn [andb negb]. rewrite zeros_rest, bool_decide_eq_true_2 by (lia || done).
  eexists. split; [done|]. apply tear_torn, long_nonempty. rewrite length_replicate. lia.
Qed.

Definition Garbled c seq (tail : bytes) : Prop :=
  exists lenb body e, tail = lenb ++ body /\ length lenb = 4%nat /\ from_le lenb = zlen body /\
    MIN_BODY <= zlen body <= max_body c /\ open_body c seq body = Err e.

Lemma garbled_ends c seq tail : 0 < seq -> Garbled c seq tail -> Ends c seq tail.
Proof.
  intros Hs (lenb & body & e & -> & H4 & Hle & Hb & Ho) off. rewrite (reads_four _ _ _ _ lenb body (rd_app 4 lenb body H4)). cbv zeta.
  rewrite Hle, (proj2 (Z.leb_le MIN_BODY _)), (proj2 (Z.leb_le _ (max_body c))) by lia. cbn [andb negb].
  assert (zlen lenb = 4) as Hz by (unfold zlen; lia). rewrite (proj2 (Z.ltb_ge _ _)) by (rewrite zlen_app; lia).
  assert (rd (Z.to_nat (zlen body)) body = Some (body, [])) as ->.
  { unfold rd, zlen. rewrite Nat2Z.id, (proj2 (Nat.ltb_ge _ _)), take_ge, drop_ge by lia. done. }
  rewrite Ho, (proj2 (Z.eqb_eq _ _)), (proj2 (Z.ltb_lt _ _)) by (rewrite ?zlen_app; lia). cbn [andb].
  eexists. split; [done|]. apply tear_torn, long_nonempty. rewrite length_app. lia.
Qed.

(** Enough fuel reads every record and stops before the tail. *)
Lemma drain_all c recs bs seq off tail fuel :
  Written c seq recs bs -> Ends c (seq + zlen recs) tail -> (length (bs ++ tail) < fuel)%nat ->
  exists r', drain fuel (reader_at c seq off (bs ++ tail)) = (recs, r', None) /\
    lr_torn r' = if decide (tail = []) then None else Some (off + zlen bs).
Proof.
  intros HW. revert off fuel. induction HW as [seq|seq r b recs bs Hr HW IH]; intros off fuel HT Hf.
  - rewrite zlen_nil, Z.add_0_r in HT. destruct fuel as [|fuel]; [simpl in Hf; lia|]. cbn [drain app].
    destruct (HT off) as (r' & -> & Et). exists r'. rewrite Et, zlen_nil, Z.add_0_r. by split.
  - destruct fuel as [|fuel]; [lia|]. rewrite <- app_assoc. cbn [drain]. rewrite (next_good c seq off r b) by done.
    pose proof (record_length _ _ _ _ Hr). rewrite !length_app in Hf.
    destruct (IH (off + zlen b) fuel) as (r' & E & Et).
    + replace (seq + 1 + zlen recs) with (seq + zlen (r :: recs)) by (rewrite zlen_cons; lia). done.
    + rewrite length_app. lia.
    + rewrite E. exists r'. split; [done|]. rewrite Et, zlen_app. by replace (off + (zlen b + zlen bs)) with (off + zlen b + zlen bs) by lia.
Qed.

(** ** The scan of the writer *)

(** The last record the walk passed opens. *)
Definition LastOk c (file : bytes) (count : Z) (last : option (Z * Z)) : Prop :=
  match last with
  | None => count = 0
  | Some at_ => exists body r, body_at file at_ = Some body /\ open_body c (count - 1) body = Ok r
  end.

Lemma body_at_here pre lenb body rest :
  length lenb = 4%nat -> body_at (pre ++ (lenb ++ body) ++ rest) (zlen pre, zlen body) = Some body.
Proof.
  intros H4. unfold body_at. cbn [fst snd]. rewrite <- app_assoc, app_assoc.
  rewrite drop_app_length' by (rewrite length_app; unfold zlen; lia). rewrite rd_app by (unfold zlen; lia). done.
Qed.

(** The walk passes every record and goes on with what is behind them. *)
Lemma scan_loop_skip c recs bs count pre tail last prev fuel :
  Written c count recs bs -> LastOk c (pre ++ bs ++ tail) count last ->
  exists last' prev', scan_loop (length recs + fuel) c (bs ++ tail) (zlen pre) (zlen (pre ++ bs ++ tail)) count last prev =
      scan_loop fuel c tail (zlen (pre ++ bs)) (zlen (pre ++ bs ++ tail)) (count + zlen recs) last' prev' /\
    LastOk c (pre ++ bs ++ tail) (count + zlen recs) last'.
Proof.
  intros HW. revert pre last prev. induction HW as [seq|seq r b recs bs Hr HW IH]; intros pre last prev HL.
  - exists last, prev. rewrite zlen_nil, !Z.add_0_r, app_nil_r in *. done.
  - apply record_facts in Hr as (lenb & body & -> & H4 & Hle & Hb & Ho). rewrite <- !app_assoc. cbn [length Nat.add scan_loop].
    assert (zlen lenb = 4) as Hz by (unfold zlen; lia). unfold MIN_BODY in Hb.
    pose proof (zlen_nonneg bs). pose proof (zlen_nonneg tail).
    set (len := zlen (pre ++ lenb ++ body ++ bs ++ tail)).
    assert (len = zlen pre + 4 + zlen body + zlen bs + zlen tail) as Hlen by (unfold len; autorewrite with miasma; lia).
    rewrite (proj2 (Z.eqb_neq _ _)), (proj2 (Z.ltb_ge _ 4)) by lia. cbn [orb].
    rewrite (rd_app 4) by done. rewrite Hle. unfold MIN_BODY.
    rewrite (proj2 (Z.leb_le 40 _)), (proj2 (Z.leb_le _ (max_body c))) by lia. cbn [andb negb].
    rewrite (proj2 (Z.ltb_ge _ _)) by lia. rewrite drop_app_length' by (unfold zlen; lia).
    destruct (IH (pre ++ lenb ++ body) (Some (zlen pre, zlen body)) last) as (last' & prev' & E & HL').
    + exists body, r. rewrite <- (app_assoc pre). rewrite body_at_here by done. by replace (seq + 1 - 1) with seq by lia.
    + rewrite <- !app_assoc in E, HL'. fold len in E.
      exists last', prev'. replace (seq + zlen (r :: recs)) with (seq + 1 + zlen recs) by (rewrite zlen_cons; lia). split; [|done].
      etransitivity; [|etransitivity; [exact E|]]; f_equal; autorewrite with miasma; lia.
Qed.

(** The walk stops before [tail]. *)
Definition Stops c (tail : bytes) : Prop :=
  forall fuel off count last prev, scan_loop (S fuel) c tail off (off + zlen tail) count last prev = Ok (off, count, last, prev).

Lemma stops_short c tail : (length tail < 4)%nat -> Stops c tail.
Proof.
  intros Hl fuel off count last prev. cbn [scan_loop]. replace (off + zlen tail - off) with (zlen tail) by lia.
  rewrite (proj2 (Z.ltb_lt _ 4)) by (unfold zlen; lia). by rewrite orb_true_r.
Qed.

Lemma torn_stops c seq tail : Torn c seq tail -> Stops c tail.
Proof.
  intros HT. destruct (decide (length tail < 4)%nat) as [|Hge]; [by apply stops_short|]. intros fuel off count last prev.
  destruct (torn_head c seq tail HT) as (lenb & rest & E & Hb & Hlt); [lia|]. cbn [scan_loop].
  replace (off + zlen tail - off) with (zlen tail) by lia.
  rewrite (proj2 (Z.eqb_neq _ _)), (proj2 (Z.ltb_ge _ 4)) by (unfold zlen; lia). cbn [orb]. rewrite E.
  rewrite (proj2 (Z.leb_le MIN_BODY _)), (proj2 (Z.leb_le _ (max_body c))) by lia. cbn [andb negb].
  by rewrite (proj2 (Z.ltb_lt _ _)) by lia.
Qed.

Lemma zeros_stop c n : Stops c (replicate n 0).
Proof.
  destruct (decide (n < 4)%nat) as [|Hge]; [apply stops_short; by rewrite length_replicate|]. intros fuel off count last prev.
  cbn [scan_loop]. replace (off + zlen (replicate n 0) - off) with (zlen (replicate n 0)) by lia.
  rewrite (proj2 (Z.eqb_neq _ _)), (proj2 (Z.ltb_ge _ 4)) by (unfold zlen; rewrite length_replicate; lia). cbn [orb].
  rewrite zeros_head by lia. change (from_le (replicate 4 0)) with 0. change (MIN_BODY <=? 0) with false. cbn [andb negb Z.eqb].
  by rewrite zeros_rest by lia.
Qed.

(** The fuel of the scan passes every record and looks twice more. *)
Lemma scan_fuel c recs bs tail : Written c 0 recs bs -> exists k, S (length (header c ++ bs ++ tail)) = (length recs + S (S k))%nat.
Proof.
  intros HW. assert (length recs <= length bs)%nat as Hl.
  { induction HW as [|seq r b recs bs Hr HW IH]; [done|]. apply record_length in Hr. rewrite length_app. cbn [length]. lia. }
  exists (length (header c ++ bs ++ tail) - length recs - 1)%nat. assert (6 <= length (header c))%nat by (unfold header; rewrite !length_app; cbn; lia).
  rewrite !length_app. lia.
Qed.

Lemma scan_records c recs bs tail :
  length (lc_salt c) = 16%nat -> Written c 0 recs bs ->
  exists k last prev, LastOk c (header c ++ bs ++ tail) (zlen recs) last /\
    scan_loop (S (length (header c ++ bs ++ tail))) c (drop (Z.to_nat LOG_HEADER_LEN) (header c ++ bs ++ tail)) LOG_HEADER_LEN
      (zlen (header c ++ bs ++ tail)) 0 None None =
    scan_loop (S (S k)) c tail (LOG_HEADER_LEN + zlen bs) (LOG_HEADER_LEN + zlen bs + zlen tail) (zlen recs) last prev.
Proof.
  intros Hs HW. assert (length (header c) = 22%nat) as Hh by (unfold header; rewrite !length_app, Hs; done).
  destruct (scan_fuel c recs bs tail HW) as [k ->]. rewrite drop_app_length' by done.
  replace LOG_HEADER_LEN with (zlen (header c)) by (unfold zlen; by rewrite Hh).
  destruct (scan_loop_skip c recs bs 0 (header c) tail None None (S (S k)) HW) as (last & prev & E & HL); [done|].
  exists k, last, prev. split; [done|]. rewrite E. f_equal; autorewrite with miasma; lia.
Qed.

Lemma scan_all c recs bs tail :
  length (lc_salt c) = 16%nat -> Written c 0 recs bs -> Stops c tail ->
  scan c (header c ++ bs ++ tail) = Ok (mkScan (zlen recs) (LOG_HEADER_LEN + zlen bs)).
Proof.
  intros Hs HW HT. destruct (scan_records c recs bs tail Hs HW) as (k & last & prev & HL & E). unfold scan. rewrite E, HT.
  cbn [result_bind]. destruct last as [at_|]; cbn [LastOk] in HL; [|done].
  destruct HL as (body & r & -> & Eo). cbn [ok_or result_bind]. by rewrite Eo.
Qed.

(** ** The file of a log *)

(** The key and label of a log, with the salt of its header. *)
Definition core_of (sk : bytes) (l : Label) c : Prop :=
  core_new (mkKeys (Some sk)) l (lc_salt c) = Ret (Ok c) /\ lc_label c = l /\ length (lc_salt c) = 16%nat.

Lemma core_total sk l salt : length salt = 16%nat ->
  exists c, core_new (mkKeys (Some sk)) l salt = Ret (Ok c) /\ core_of sk l c /\ lc_salt c = salt.
Proof.
  intros Hs. destruct (doc_key_live Hk sk l) as [d Ed]. destruct (Hk (Some salt) d LABEL_STATE_LOG_FILE) as [k Ek].
  exists (mkCore k l salt). unfold core_of, core_new, derive_state_log_key. cbn [lc_salt lc_label]. rewrite Ed. cbn [outcome_bind].
  by rewrite Ek.
Qed.

Lemma header_length c : length (lc_salt c) = 16%nat -> length (header c) = 22%nat.
Proof. intros Hs. unfold header. rewrite !length_app, Hs. done. Qed.

Lemma parse_own_header c : parse_header (header c) (lc_label c) = Ok (lc_salt c).
Proof.
  unfold parse_header. rewrite bool_decide_eq_true_2 by done. change (nth 4 (header c) 0) with LOG_VERSION.
  change (nth 5 (header c) 0) with (label_id (lc_label c)). by rewrite !Z.eqb_refl.
Qed.

(** The bytes of a log with these records: a header (or, with no record, the
    beginning of one), the records, and what a crash left of one more. *)
Definition log_bytes (sk : bytes) (l : Label) (b : bytes) recs : Prop :=
  (recs = [] /\ exists c more, core_of sk l c /\ header c = b ++ more /\ more <> []) \/
  (exists c bs tail, core_of sk l c /\ b = header c ++ bs ++ tail /\ Written c 0 recs bs /\ Torn c (zlen recs) tail).

(** A header, records and a tail before which the reader stops. *)
Lemma read_log_ends sk l c recs bs tail :
  core_of sk l c -> Written c 0 recs bs -> Ends c (zlen recs) tail ->
  read_log (mkKeys (Some sk)) l (Some (header c ++ bs ++ tail)) =
    Ret (Ok (Some (recs, if decide (tail = []) then None else Some (LOG_HEADER_LEN + zlen bs)))).
Proof.
  intros (Hcore & Hl & Hs) HW HT. pose proof (header_length c Hs) as H22. unfold read_log, reader_open.
  assert (zlen (header c ++ bs ++ tail) = 22 + zlen (bs ++ tail)) as Hz by (rewrite zlen_app; unfold zlen; lia).
  pose proof (zlen_nonneg (bs ++ tail)). unfold LOG_HEADER_LEN.
  rewrite (proj2 (Z.eqb_neq _ _)), (proj2 (Z.ltb_ge _ _)) by lia. change (Z.to_nat 22) with 22%nat.
  rewrite take_app_length', drop_app_length' by done. rewrite <- Hl, parse_own_header, Hl, Hcore. cbn [outcome_bind].
  rewrite Hz. change (mkReader _ _ _ _ _ _ _) with (reader_at c 0 22 (bs ++ tail)). cbn [lr_rest reader_at].
  destruct (drain_all c recs bs 0 22 tail (S (length (bs ++ tail))) HW HT) as (r' & E & Et); [lia|].
  by rewrite E, Et.
Qed.

(** Reading a log gives its records; only a file whose header was not finished
    is reported, and it holds none. *)
Lemma read_log_bytes sk l b recs :
  log_bytes sk l b recs ->
  (exists torn, read_log (mkKeys (Some sk)) l (Some b) = Ret (Ok (Some (recs, torn)))) \/
  (recs = [] /\ read_log (mkKeys (Some sk)) l (Some b) = Ret (Err Truncated)).
Proof.
  intros [(-> & c & more & (Hcore & Hl & Hs) & Hh & Hm)|(c & bs & tail & Hcore & -> & HW & HT)].
  - pose proof (header_length c Hs) as H22. unfold read_log, reader_open. rewrite Hh, length_app in H22. assert (length more <> 0%nat) by (by destruct more).
    destruct (Z.eqb_spec (zlen b) 0) as [E0|E0].
    { left. eexists. cbn. reflexivity. }
    right. split; [done|]. rewrite (proj2 (Z.ltb_lt _ _)) by (unfold zlen, LOG_HEADER_LEN; lia). cbn [outcome_bind].
    unfold short_head. set (n := Nat.min (length b) 4). rewrite bool_decide_eq_true_2; [done|].
    assert (take n (header c) = take n LOG_MAGIC) as <-.
    { unfold header. apply take_app_le. change (length LOG_MAGIC) with 4%nat. unfold n. lia. }
    rewrite Hh, take_app_le by (unfold n; lia). done.
  - left. eexists. apply (read_log_ends sk l c); [done|done|]. by apply torn_ends.
Qed.

Lemma scan_garbled c recs bs tail :
  length (lc_salt c) = 16%nat -> Written c 0 recs bs -> recs <> [] -> Garbled c (zlen recs) tail ->
  scan c (header c ++ bs ++ tail) = Ok (mkScan (zlen recs) (LOG_HEADER_LEN + zlen bs)).
Proof.
  intros Hs HW Hne (lenb & body & e & -> & H4 & Hle & Hb & Ho).
  destruct (scan_records c recs bs (lenb ++ body) Hs HW) as (k & last & prev & HL & E). unfold scan. rewrite E.
  assert (zlen lenb = 4) as Hz by (unfold zlen; lia). set (off := LOG_HEADER_LEN + zlen bs). cbn [scan_loop].
  replace (off + zlen (lenb ++ body) - off) with (4 + zlen body) by (rewrite zlen_app; lia). unfold MIN_BODY in Hb.
  rewrite (proj2 (Z.eqb_neq _ _)), (proj2 (Z.ltb_ge _ 4)) by lia. cbn [orb]. rewrite (rd_app 4) by done.
  rewrite Hle, (proj2 (Z.leb_le MIN_BODY _)), (proj2 (Z.leb_le _ (max_body c))) by (unfold MIN_BODY; lia). cbn [andb negb].
  rewrite (proj2 (Z.ltb_ge _ _)) by lia.
  replace (off + zlen (lenb ++ body) - (off + 4 + zlen body)) with 0 by (rewrite zlen_app; lia). cbn [Z.eqb orb result_bind].
  assert (body_at (header c ++ bs ++ lenb ++ body) (off, zlen body) = Some body) as ->.
  { pose proof (body_at_here (header c ++ bs) lenb body [] H4) as Hbody. rewrite !app_nil_r, <- !app_assoc in Hbody.
    replace off with (zlen (header c ++ bs)); [done|]. unfold off. rewrite zlen_app. unfold zlen at 1. by rewrite header_length. }
  cbn [ok_or result_bind]. replace (zlen recs + 1 - 1) with (zlen recs) by lia. rewrite Ho. cbn [is_ok].
  destruct last as [at_|]; cbn [LastOk] in HL; [|by destruct recs; [|unfold zlen in HL; simpl in HL; lia]].
  destruct HL as (pbody & r & -> & Er). cbn [ok_or result_bind]. replace (zlen recs + 1 - 2) with (zlen recs - 1) by lia.
  rewrite Er. cbn [is_ok fst]. done.
Qed.

(** A torn tail is dropped, and nothing else: part of a record, a run of zeros,
    or (behind at least one good record) a whole record that does not open.
    The reader gives every record before it and says where the good part ends,
    and the scan of the writer finds the same place. *)
Theorem torn_tail_dropped sk l c recs bs tail :
  core_of sk l c -> Written c 0 recs bs ->
  Torn c (zlen recs) tail \/ (exists n, tail = replicate n 0) \/ (recs <> [] /\ Garbled c (zlen recs) tail) ->
  let file := header c ++ bs ++ tail in
  read_log (mkKeys (Some sk)) l (Some file) =
    Ret (Ok (Some (recs, if decide (tail = []) then None else Some (LOG_HEADER_LEN + zlen bs)))) /\
  scan c file = Ok (mkScan (zlen recs) (LOG_HEADER_LEN + zlen bs)).
Proof.
  intros Hcore HW HT file. pose proof Hcore as (_ & _ & Hs).
  destruct HT as [HT|[[n ->]|[Hne HG]]]; (split; [apply read_log_ends; [done|done|]|]).
  - by apply torn_ends.
  - apply scan_all; [done|done|]. by eapply torn_stops.
  - apply zeros_end.
  - apply scan_all; [done|done|]. apply zeros_stop.
  - apply garbled_ends; [|done]. destruct recs; [done|]. unfold zlen. simpl. lia.
  - by apply scan_garbled.
Qed.

(** ** The log on a disk *)

Lemma written_app c seq r1 b1 r2 b2 :
  Written c seq r1 b1 -> Written c (seq + zlen r1) r2 b2 -> Written c seq (r1 ++ r2) (b1 ++ b2).
Proof.
  intros H1 H2. induction H1 as [seq|seq r b recs bs Hr HW IH]; cbn [app].
  - by rewrite zlen_nil, Z.add_0_r in H2.
  - rewrite <- app_assoc. apply written_cons; [done|]. apply IH.
    replace (seq + 1 + zlen recs) with (seq + zlen (r :: recs)) by (rewrite zlen_cons; lia). done.
Qed.

Lemma written_one c seq r b : is_record c seq r b -> Written c seq [r] b.
Proof. intros Hr. rewrite <- (app_nil_r b). apply written_cons; [done|constructor]. Qed.

(** The beginning of a record is torn, or the record. *)
Lemma cut_record c seq r b n :
  is_record c seq r b -> Torn c seq (take n b) \/ take n b = b.
Proof.
  intros Hr. destruct (decide (length b <= n)%nat) as [Hle|Hgt]; [right; by apply take_ge|].
  left. right. exists r, b, (drop n b). split; [done|]. split; [|by rewrite take_drop].
  intros E%(f_equal length). rewrite length_drop in E. simpl in E. lia.
Qed.

(** A cut anywhere leaves a beginning of the records and a torn one. *)
Lemma written_cut c seq recs bs tail n :
  Written c seq recs bs -> Torn c (seq + zlen recs) tail ->
  exists m bs' tail', take n (bs ++ tail) = bs' ++ tail' /\ Written c seq (take m recs) bs' /\
    Torn c (seq + zlen (take m recs)) tail' /\ (m <= length recs)%nat.
Proof.
  intros HW. revert n. induction HW as [seq|seq r b recs bs Hr HW IH]; intros n HT.
  - exists 0%nat, [], (take n tail). cbn [app take length]. split_and!; [done|constructor| |lia].
    destruct (decide (n <= length tail)%nat) as [Hn|Hn]; [|by rewrite take_ge by lia].
    destruct HT as [->|(r & b & more & Hr & Hm & ->)]; [left; apply take_nil|].
    destruct (cut_record c (seq + zlen []) r (tail ++ more) n Hr) as [Ht'|E]; [by rewrite take_app_le in Ht'|].
    apply (f_equal length) in E. rewrite length_take, length_app in E. assert (length more <> 0%nat) by (by destruct more). lia.
  - rewrite <- app_assoc. destruct (decide (length b <= n)%nat) as [Hle|Hgt].
    + destruct (IH (n - length b)%nat) as (m & bs' & tail' & E & HW' & HT' & Hm).
      { by replace (seq + 1 + zlen recs) with (seq + zlen (r :: recs)) by (rewrite zlen_cons; lia). }
      exists (S m), (b ++ bs'), tail'. cbn [take length]. split_and!; [| |  |lia].
      * rewrite take_app_ge, E by lia. by rewrite app_assoc.
      * by apply written_cons.
      * by replace (seq + zlen (r :: take m recs)) with (seq + 1 + zlen (take m recs)) by (rewrite zlen_cons; lia).
    + exists 0%nat, [], (take n b). cbn [take app length]. rewrite take_app_le by lia. split_and!; [done|constructor| |lia].
      rewrite zlen_nil, Z.add_0_r. destruct (cut_record c seq r b n Hr) as [?|E]; [done|].
      apply (f_equal length) in E. rewrite length_take in E. lia.
Qed.

(** A file with these records, of which the first [d] are durable. *)
Definition log_file (sk : bytes) (l : Label) (f : File) recs (d : nat) : Prop :=
  (recs = [] /\ d = 0%nat /\ exists c more, core_of sk l c /\ header c = content f ++ more /\ more <> []) \/
  (exists c r1 r2 b1 b2 tail, core_of sk l c /\ recs = r1 ++ r2 /\ d = length r1 /\ content f = header c ++ b1 ++ b2 ++ tail /\
     Written c 0 r1 b1 /\ Written c (zlen r1) r2 b2 /\ Torn c (zlen recs) tail /\
     (d = 0%nat \/ length (header c ++ b1) <= synced f)%nat).

Definition holds (sk : bytes) (l : Label) (p : bytes) recs (d : nat) (w : World) : Prop :=
  match files w !! p with None => recs = [] /\ d = 0%nat | Some f => log_file sk l f recs d end.

Lemma log_file_bytes sk l f recs d : log_file sk l f recs d -> log_bytes sk l (content f) recs.
Proof.
  intros [(-> & _ & Hh)|(c & r1 & r2 & b1 & b2 & tail & Hcore & -> & _ & -> & H1 & H2 & HT & _)]; [left; by split|].
  right. exists c, (b1 ++ b2), tail. rewrite <- app_assoc. split_and!; [done..| |done]. apply written_app; [done|].
  by rewrite Z.add_0_l.
Qed.

Lemma log_file_durable sk l f recs d : log_file sk l f recs d -> (d <= length recs)%nat.
Proof. intros [(-> & -> & _)|(c & r1 & r2 & b1 & b2 & tail & _ & -> & -> & _)]; [done|]. rewrite length_app. lia. Qed.

(** A power loss drops records at the end that are not durable. *)
Lemma log_file_loss sk l keep p f recs d :
  log_file sk l f recs d ->
  exists m, (d <= m)%nat /\ log_file sk l (after_loss keep p f) (take m recs) d.
Proof.
  intros [(-> & -> & c & more & Hcore & Hh & Hm)|(c & r1 & r2 & b1 & b2 & tail & Hcore & -> & -> & Hb & H1 & H2 & HT & Hsync)];
    unfold after_loss; set (n := Nat.max (synced f) (keep p)).
  - exists 0%nat. split; [lia|]. left. split_and!; [done..|]. exists c, (drop n (content f) ++ more). split; [done|]. cbn [content].
    rewrite app_assoc, take_drop. split; [done|]. intros [_ ?]%app_eq_nil. done.
  - destruct (decide (length (header c ++ b1) <= n)%nat) as [Hle|Hgt].
    + destruct (written_cut c (zlen r1) r2 b2 tail (n - length (header c ++ b1))%nat H2) as (m & b2' & tail' & E & HW & HT' & Hm).
      { by rewrite zlen_app in HT. }
      exists (length r1 + m)%nat. split; [lia|]. right. exists c, r1, (take m r2), b1, b2', tail'.
      rewrite take_app_add. cbn [content synced]. split_and!; [done..| | | | |].
      * rewrite Hb, (app_assoc (header c)), take_app_ge, E by lia. by rewrite <- app_assoc.
      * done.
      * done.
      * by rewrite zlen_app.
      * right. apply Nat.min_glb; [lia|]. rewrite Hb, !length_app. lia.
    + destruct Hsync as [Hd|Hd]; [|lia]. destruct r1; [|done]. inversion H1; subst b1. rewrite app_nil_r in Hgt.
      exists 0%nat. cbn [take length]. split; [lia|]. left. split_and!; [done..|]. exists c, (drop n (header c)). split; [done|]. cbn [content].
      rewrite Hb, take_app_le by lia. rewrite take_drop. split; [done|]. intros E%(f_equal length). rewrite length_drop in E. cbn [length] in E. lia.
Qed.

(** An open writer stands at the end of a file without a torn record. *)
Definition ready (sk : bytes) (l : Label) (p : bytes) (wr : LogWriter) recs (d : nat) (w : World) : Prop :=
  exists f c r1 r2 b1 b2, files w !! p = Some f /\ core_of sk l c /\ recs = r1 ++ r2 /\ d = length r1 /\
    content f = header c ++ b1 ++ b2 /\ Written c 0 r1 b1 /\ Written c (zlen r1) r2 b2 /\
    (d = 0%nat \/ length (header c ++ b1) <= synced f)%nat /\
    wr = mkWriter p (length (content f)) c (zlen recs) (zlen (content f)).

Lemma ready_holds sk l p wr recs d w : ready sk l p wr recs d w -> holds sk l p recs d w.
Proof.
  intros (f & c & r1 & r2 & b1 & b2 & Hf & Hcore & -> & -> & Hb & H1 & H2 & Hs & _). unfold holds. rewrite Hf.
  right. exists c, r1, r2, b1, b2, []. rewrite app_nil_r. split_and!; try done. by left.
Qed.

Lemma holds_same sk l p recs d w w' : files w' !! p = files w !! p -> holds sk l p recs d w -> holds sk l p recs d w'.
Proof. unfold holds. by intros ->. Qed.

Lemma holds_headed sk l p c n w : core_of sk l c -> at_file p (Some (mkFile (take n (header c)) 0)) w -> holds sk l p [] 0 w.
Proof.
  intros Hcore Hf. unfold holds. rewrite Hf. destruct (decide (length (header c) <= n)%nat) as [Hle|Hgt].
  - right. exists c, [], [], [], [], []. cbn [content app length]. rewrite take_ge, app_nil_r by lia.
    split_and!; [done..|constructor|constructor|by left|by left].
  - left. split_and!; [done..|]. exists c, (drop n (header c)). cbn [content]. rewrite take_drop. split_and!; [done..|].
    intros E%(f_equal length). rewrite length_drop in E. cbn [length] in E. lia.
Qed.

Lemma runs_lift_core sk l salt {A} (k : Core -> Disk (result A StateError)) w Q D :
  length salt = 16%nat -> (forall c, core_of sk l c -> lc_salt c = salt -> runs (k c) w Q D) ->
  runs (try_bind (lift (core_new (mkKeys (Some sk)) l salt)) k) w Q D.
Proof.
  intros Hs HQ. destruct (core_total sk l salt Hs) as (c & E & Hcore & Ec). apply runs_try. rewrite E. apply runs_ret. by apply HQ.
Qed.

(** A new log is empty; nothing else is touched. *)
Lemma runs_create sk l p salt w :
  length salt = 16%nat -> holds sk l p [] 0 w ->
  runs (create_file (mkKeys (Some sk)) l p salt) w
    (fun r w' => match r with Ok wr => ready sk l p wr [] 0 w' | Err _ => holds sk l p [] 0 w' end /\ others {[p]} w w')
    (fun w' => holds sk l p [] 0 w' /\ others {[p]} w w').
Proof.
  intros Hs Hold. unfold create_file. apply runs_lift_core; [done|]. intros c Hcore Ec. apply runs_bind.
  assert (forall n w', at_file p (Some (mkFile (take n (header c)) 0)) w' -> holds sk l p [] 0 w') as Hhead
    by (intros n w'; by apply holds_headed).
  pose proof (header_length c (proj2 (proj2 Hcore))) as H22. apply runs_restricted.
  - intros w1 Ho Hf. apply runs_bind, runs_try_io. intros b w2 E.
    assert (others {[p]} w w2) as Ho2 by (eapply others_trans; [exact Ho|by apply others_same]).
    assert (holds sk l p [] 0 w2) as Hh.
    { apply (Hhead 22%nat). unfold at_file in *. by rewrite E, Hf, take_ge by lia. }
    split; [|done]. apply runs_ret. split; [|done]. destruct b; [|done].
    exists (mkFile (header c) 0), c, [], [], [], []. cbn [content]. rewrite !app_nil_r. unfold at_file in Hf. rewrite E, Hf.
    split_and!; [done|done|done|done|done|constructor|constructor|by left|]. unfold zlen. by rewrite H22.
  - intros w1 Ho Hf. assert (holds sk l p [] 0 w1) as Hh.
    { destruct Hf as [Hf|[Hf|[n Hf]]]; [|by eapply holds_same|by apply (Hhead n)]. unfold holds. by rewrite Hf. }
    split; [|done]. by apply runs_ret.
Qed.

Lemma prefix_short sk l b more c : core_of sk l c -> header c = b ++ more -> more <> [] ->
  zlen b < LOG_HEADER_LEN /\ short_head b = true.
Proof.
  intros Hcore Hh Hm. pose proof (header_length c (proj2 (proj2 Hcore))) as H22. assert (length more <> 0%nat) by (by destruct more).
  pose proof H22 as H22'. rewrite Hh, length_app in H22'. split; [unfold zlen, LOG_HEADER_LEN; lia|].
  apply bool_decide_eq_true_2. set (n := Nat.min (length b) 4).
  assert (take n (header c) = take n LOG_MAGIC) as <-.
  { unfold header. apply take_app_le. change (length LOG_MAGIC) with 4%nat. unfold n. lia. }
  rewrite Hh, take_app_le by (unfold n; lia). done.
Qed.

(** A writer over a file with no torn record. *)
Lemma ready_file sk l p c r1 r2 b1 b2 s w :
  core_of sk l c -> Written c 0 r1 b1 -> Written c (zlen r1) r2 b2 -> (length r1 = 0 \/ length (header c ++ b1) <= s)%nat ->
  files w !! p = Some (mkFile (header c ++ b1 ++ b2) s) ->
  ready sk l p (mkWriter p (length (header c ++ b1 ++ b2)) c (zlen (r1 ++ r2)) (zlen (header c ++ b1 ++ b2))) (r1 ++ r2) (length r1) w.
Proof. intros. eexists (mkFile _ s), c, r1, r2, b1, b2. by split_and!. Qed.

(** The end of opening: a torn record is cut away, durably. *)
Lemma runs_trim sk l p c r1 r2 b1 b2 tail f w :
  core_of sk l c -> Written c 0 r1 b1 -> Written c (zlen r1) r2 b2 -> Torn c (zlen (r1 ++ r2)) tail ->
  (length r1 = 0 \/ length (header c ++ b1) <= synced f)%nat ->
  let good := header c ++ b1 ++ b2 in
  let wr := mkWriter p (length good) c (zlen (r1 ++ r2)) (zlen good) in
  content f = good ++ tail -> files w !! p = Some f ->
  runs (if zlen good <? zlen (content f) then
          let* cut := set_len p (length good) in
          if (cut : bool) then let* ok := sync_file p in ret (if (ok : bool) then Ok wr else Err Io) else ret (Err Io)
        else let* moved := try_io in ret (if (moved : bool) then Ok wr else Err Io)) w
    (fun r w' => match r with Ok wr => ready sk l p wr (r1 ++ r2) (length r1) w' | Err _ => holds sk l p (r1 ++ r2) (length r1) w' end /\
                 others {[p]} w w')
    (fun w' => holds sk l p (r1 ++ r2) (length r1) w' /\ others {[p]} w w').
Proof.
  intros Hcore H1 H2 HT Hsync good wr Hgood Ef.
  assert (holds sk l p (r1 ++ r2) (length r1) w) as Hold.
  { unfold holds. rewrite Ef. right. exists c, r1, r2, b1, b2, tail. unfold good in Hgood. rewrite <- !app_assoc in Hgood. by split_and!. }
  assert (forall w' s, (length r1 = 0 \/ length (header c ++ b1) <= s)%nat -> files w' !! p = Some (mkFile good s) ->
    ready sk l p wr (r1 ++ r2) (length r1) w') as Hready by (intros; by eapply ready_file).
  assert ((length r1 = 0 \/ length (header c ++ b1) <= Nat.min (synced f) (length good))%nat) as Hsync'.
  { destruct Hsync as [?|?]; [by left|right]. unfold good. rewrite !length_app in *. lia. }
  destruct (Z.ltb_spec (zlen good) (zlen (content f))) as [Hlt|Hge]; apply runs_bind.
  - eapply (runs_set_len p (length good) f); [exact Ef|rewrite Hgood, length_app; lia| |]; intros w2 Ho2 Hf2.
    + rewrite Hgood, take_app_length in Hf2. assert (ready sk l p wr (r1 ++ r2) (length r1) w2) as Hr2 by (by eapply Hready).
      split; [|split; [by eapply ready_holds|done]]. apply runs_bind.
      eapply (runs_sync p); [exact Hf2| |]; cbn [content synced]; intros w3 Ho3 Hf3;
        assert (others {[p]} w w3) by (by eapply others_trans).
      * assert (ready sk l p wr (r1 ++ r2) (length r1) w3) by (eapply Hready; [|exact Hf3]; lia).
        split; [by apply runs_ret|]. split; [by eapply ready_holds|done].
      * assert (holds sk l p (r1 ++ r2) (length r1) w3) by (eapply ready_holds, Hready; [|exact Hf3]; done).
        split; [by apply runs_ret|done].
    + assert (holds sk l p (r1 ++ r2) (length r1) w2) by (eapply holds_same; [|exact Hold]; unfold at_file in Hf2; congruence).
      split; [by apply runs_ret|done].
  - assert (tail = []) as ->. { rewrite Hgood, zlen_app in Hge. destruct tail; [done|]. rewrite zlen_cons in Hge. unfold zlen in Hge. lia. }
    rewrite app_nil_r in Hgood. apply runs_try_io. intros b w2 E2. assert (others {[p]} w w2) by (by apply others_same).
    assert (ready sk l p wr (r1 ++ r2) (length r1) w2).
    { eapply (Hready w2 (synced f)); [done|]. rewrite E2, Ef, <- Hgood. by destruct f. }
    split; [|split; [by eapply ready_holds|done]]. apply runs_ret. destruct b; (split; [|done]); [done|by eapply ready_holds].
Qed.

(** Opening cuts a torn record away and keeps the others. *)
Lemma runs_open sk l p salt recs d w :
  length salt = 16%nat -> holds sk l p recs d w ->
  runs (open_append (mkKeys (Some sk)) l p salt) w
    (fun r w' => match r with Ok wr => ready sk l p wr recs d w' | Err _ => holds sk l p recs d w' end /\ others {[p]} w w')
    (fun w' => holds sk l p recs d w' /\ others {[p]} w w').
Proof.
  intros Hs Hold. unfold open_append. apply runs_bind, runs_try_io. intros b w1 E1.
  assert (holds sk l p recs d w1) as Hold1 by (eapply holds_same; [|exact Hold]; by rewrite E1).
  assert (others {[p]} w w1) as Ho1 by (by apply others_same). split; [|done].
  apply runs_bind. unfold runs at 1, get. destruct b; cbn [negb]; [|by apply runs_ret].
  eapply (runs_mono _ _ (fun r w' => match r with Ok wr => ready sk l p wr recs d w' | Err _ => holds sk l p recs d w' end /\ others {[p]} w1 w')
    _ (fun w' => holds sk l p recs d w' /\ others {[p]} w1 w')); [|intros ? ? []; split; [done|by eapply others_trans]..|
    intros ? []; split; [done|by eapply others_trans]].
  pose proof Hold1 as Hfile. unfold holds in Hfile. destruct (files w1 !! p) as [f|] eqn:Ef.
  2:{ destruct Hfile as [-> ->]. by apply runs_create. }
  destruct Hfile as [(-> & -> & c & more & Hcore & Hh & Hm)|(c & r1 & r2 & b1 & b2 & tail & Hcore & -> & -> & Hb & H1 & H2 & HT & Hsync)].
  { destruct (prefix_short sk l _ more c Hcore Hh Hm) as [Hlt Hsh]. rewrite (proj2 (Z.ltb_lt _ _)), Hsh by done.
    rewrite andb_false_r. by apply runs_create. }
  pose proof Hcore as (Hnew & Hl & Hsalt). pose proof (header_length c Hsalt) as H22.
  assert (content f = (header c ++ b1 ++ b2) ++ tail) as Hgood by (by rewrite Hb, <- !app_assoc).
  assert (LOG_HEADER_LEN + zlen (b1 ++ b2) = zlen (header c ++ b1 ++ b2)) as Hz
    by (rewrite (zlen_app (header c)); unfold zlen at 2; by rewrite H22).
  assert (LOG_HEADER_LEN <= zlen (content f)) as H22' by (rewrite Hgood, zlen_app, <- Hz; unfold zlen, LOG_HEADER_LEN; lia).
  rewrite (proj2 (Z.ltb_ge _ _)) by lia. change (Z.to_nat LOG_HEADER_LEN) with 22%nat.
  rewrite Hb at 1. rewrite take_app_length' by done. rewrite <- Hl at 1. rewrite parse_own_header.
  apply runs_lift_core; [done|]. intros c' Hcore' Ec'. assert (c' = c) as -> by (destruct Hcore' as [Hn' _]; rewrite Ec' in Hn'; congruence).
  replace (scan c (content f)) with (@Ok Scan StateError (mkScan (zlen (r1 ++ r2)) (LOG_HEADER_LEN + zlen (b1 ++ b2)))).
  2:{ symmetry. rewrite Hb, (app_assoc b1). apply scan_all; [done| |by eapply torn_stops]. apply written_app; [done|by rewrite Z.add_0_l]. }
  cbn [sc_valid_len sc_count]. rewrite Hz. replace (Z.to_nat (zlen (header c ++ b1 ++ b2))) with (length (header c ++ b1 ++ b2)) by (unfold zlen; lia).
  by apply (runs_trim sk l p c r1 r2 b1 b2 tail f).
Qed.

Lemma splice_end data old : splice (length old) data old = old ++ data.
Proof.
  unfold splice. rewrite Nat.sub_diag. cbn [replicate]. rewrite app_nil_r, take_ge, drop_ge by lia. by rewrite app_nil_r.
Qed.

(** Part of a record behind a log is a torn record, or the record. *)
Lemma holds_partial sk l p c r1 r2 b1 b2 x b n s w :
  core_of sk l c -> Written c 0 r1 b1 -> Written c (zlen r1) r2 b2 -> (length r1 = 0 \/ length (header c ++ b1) <= s)%nat ->
  is_record c (zlen (r1 ++ r2)) x b -> files w !! p = Some (mkFile ((header c ++ b1 ++ b2) ++ take n b) s) ->
  holds sk l p (r1 ++ r2) (length r1) w \/ holds sk l p ((r1 ++ r2) ++ [x]) (length r1) w.
Proof.
  intros Hcore H1 H2 Hs Hr Hf. unfold holds. rewrite Hf. destruct (cut_record c _ x b n Hr) as [HT|E].
  - left. right. exists c, r1, r2, b1, b2, (take n b). cbn [content synced]. rewrite <- !app_assoc. by split_and!.
  - right. right. exists c, r1, (r2 ++ [x]), b1, (b2 ++ b), []. cbn [content synced]. rewrite E, <- !app_assoc, app_nil_r.
    split_and!; [done..| | |done]; [|by left]. apply written_app; [done|]. rewrite <- zlen_app. by apply written_one.
Qed.

Lemma runs_seek (wr : bool -> LogWriter) w Q D :
  (forall m w', files w' = files w -> Q (wr m, Err Io) w') -> (forall w', files w' = files w -> D w') ->
  runs (let* moved := try_io in ret (wr moved, @Err unit StateError Io)) w Q D.
Proof. intros HQ HD. apply runs_bind, runs_try_io. intros m w' E. split; [apply runs_ret|]; auto. Qed.

(** Appending adds the record at the end, or leaves the log, possibly with the
    record or part of it. *)
Lemma runs_append sk l p wr nonce x recs d w :
  length nonce = NONCE_LEN -> ready sk l p wr recs d w ->
  runs (append wr nonce x) w
    (fun r w' => match r with
                 | (wr', Ok _) => ready sk l p wr' (recs ++ [x]) d w'
                 | (_, Err _) => holds sk l p recs d w' \/ holds sk l p (recs ++ [x]) d w'
                 end /\ others {[p]} w w')
    (fun w' => (holds sk l p recs d w' \/ holds sk l p (recs ++ [x]) d w') /\ others {[p]} w w').
Proof.
  intros Hn Hr. pose proof (ready_holds _ _ _ _ _ _ _ Hr) as Hold.
  destruct Hr as (f & c & r1 & r2 & b1 & b2 & Hf & Hcore & -> & -> & Hb & H1 & H2 & Hs & ->).
  unfold append. cbn [lw_core lw_seq lw_path lw_pos lw_end]. destruct (Z.ltb_spec (max_record_bytes (lc_label c)) (zlen x)) as [Hlt|Hle].
  { apply runs_ret. split; [by left|done]. }
  destruct (record_total c (zlen (r1 ++ r2)) nonce x Hle Hn) as (b & -> & Hrec). apply runs_bind.
  set (good := header c ++ b1 ++ b2) in *.
  assert ((length r1 = 0 \/ length (header c ++ b1) <= Nat.min (synced f) (length (content f)))%nat) as Hs'.
  { destruct Hs as [?|?]; [by left|right]. rewrite Hb. unfold good. rewrite !length_app in *. lia. }
  eapply (runs_write_at p (length (content f)) b f w); [exact Hf| |].
  - rewrite splice_end, Hb. intros w1 Ho Hf1. apply runs_ret. split; [|done]. rewrite Hb in Hs'.
    unfold at_file in Hf1.
    exists (mkFile (good ++ b) (Nat.min (synced f) (length good))), c, r1, (r2 ++ [x]), b1, (b2 ++ b). cbn [content synced].
    rewrite !app_assoc. split_and!; [done|done|done|done| |done| |done|].
    + unfold good. by rewrite <- !app_assoc.
    + apply written_app; [done|]. rewrite <- zlen_app. by apply written_one.
    + autorewrite with miasma. rewrite length_app. f_equal; lia.
  - intros n w1 Ho Hf1. rewrite splice_end, Hb in Hf1. rewrite Hb in Hs'.
    assert (forall w' s, (length r1 = 0 \/ length (header c ++ b1) <= s)%nat -> files w' !! p = Some (mkFile (good ++ take n b) s) ->
      holds sk l p (r1 ++ r2) (length r1) w' \/ holds sk l p ((r1 ++ r2) ++ [x]) (length r1) w') as Hpart
      by (intros; by eapply (holds_partial sk l p c r1 r2 b1 b2 x b n)).
    split; [|split; [by eapply Hpart|done]]. rewrite Hb. replace (Z.to_nat (zlen good)) with (length good) by (unfold zlen; lia).
    apply runs_bind.
    assert (forall w2, others {[p]} w w2 -> holds sk l p (r1 ++ r2) (length r1) w2 \/ holds sk l p ((r1 ++ r2) ++ [x]) (length r1) w2 ->
      forall w3, files w3 = files w2 ->
      (holds sk l p (r1 ++ r2) (length r1) w3 \/ holds sk l p ((r1 ++ r2) ++ [x]) (length r1) w3) /\ others {[p]} w w3) as Hkeep.
    { intros w2 Ho2 Hh2 w3 E3. split; [|eapply others_trans; [exact Ho2|by apply others_same]].
      destruct Hh2; [left|right]; (eapply holds_same; [|eassumption]); by rewrite E3. }
    eapply (runs_set_len p (length good)); [exact Hf1|cbn [content]; rewrite length_app; lia| |]; cbn [content synced]; intros w2 Ho2 Hf2;
      (assert (others {[p]} w w2) by (by eapply others_trans)).
    + rewrite take_app_length in Hf2. assert (holds sk l p (r1 ++ r2) (length r1) w2).
      { eapply ready_holds, ready_file; [exact Hcore|exact H1|exact H2| |exact Hf2]. lia. }
      split; [apply (runs_seek (fun moved => mkWriter p (if moved then length good else length good + length b) c _ _)); intros; apply (Hkeep w2)|split]; auto.
    + assert (holds sk l p (r1 ++ r2) (length r1) w2 \/ holds sk l p ((r1 ++ r2) ++ [x]) (length r1) w2) by (by eapply Hpart).
      split; [apply (runs_seek (fun moved => mkWriter p (if moved then length good else length good + length b) c _ _)); intros; by apply (Hkeep w2)|done].
Qed.

(** A sync makes every record durable. *)
Lemma runs_sync_log sk l p wr recs d w :
  ready sk l p wr recs d w ->
  runs (sync wr) w
    (fun r w' => ready sk l p wr recs (if is_ok r then length recs else d) w' /\ others {[p]} w w')
    (fun w' => holds sk l p recs d w' /\ others {[p]} w w').
Proof.
  intros Hr. pose proof (ready_holds _ _ _ _ _ _ _ Hr) as Hold. pose proof Hr as Hr0.
  destruct Hr as (f & c & r1 & r2 & b1 & b2 & Hf & Hcore & -> & -> & Hb & H1 & H2 & Hs & ->).
  unfold sync. cbn [lw_path]. apply runs_bind. eapply (runs_sync p); [exact Hf| |]; intros w1 Ho Hf1; unfold at_file in Hf1.
  - assert (ready sk l p (mkWriter p (length (content f)) c (zlen (r1 ++ r2)) (zlen (content f))) (r1 ++ r2) (length r1) w1) as Hr1.
    { rewrite Hb in *. eapply ready_file; [done..| |exact Hf1]. right. rewrite !length_app. lia. }
    split; [|split; [by eapply ready_holds|done]]. apply runs_ret. cbn [is_ok]. split; [|done].
    pose proof (ready_file sk l p c (r1 ++ r2) [] (b1 ++ b2) [] (length (content f)) w1) as Hall. rewrite !app_nil_r in Hall.
    rewrite Hb in *. apply Hall; [done| |constructor| |done].
    + apply written_app; [done|by rewrite Z.add_0_l].
    + right. lia.
  - assert (ready sk l p (mkWriter p (length (content f)) c (zlen (r1 ++ r2)) (zlen (content f))) (r1 ++ r2) (length r1) w1) as Hr1.
    { destruct f as [fc fs]. cbn [content synced] in *. rewrite Hb in *. eapply ready_file; [done..|exact Hf1]. }
    split; [by apply runs_ret|]. split; [by eapply ready_holds|done].
Qed.
End Theory.
(** ** Clients: a writer that is opened when it is needed *)

(** [Outbox::with_writer] of [chat/outbox.rs], and the same in every other
    client: the writer is opened on first use and given up on an error. *)
Definition with_writer `{Crypto} `{StateCipher} (keys : StateKeys) (l : Label) (p salt : bytes) (wr : option LogWriter)
    (f : LogWriter -> Disk (LogWriter * result unit StateError)) : Disk (option LogWriter * result unit StateError) :=
  let use wr := let* r := f wr in ret (match r with (wr', Ok _) => (Some wr', Ok tt) | (_, Err e) => (None, Err e) end) in
  match wr with
  | Some wr => use wr
  | None =>
    let* o := open_append keys l p salt in
    match o with Ok wr => use wr | Err e => ret (None, Err e) end
  end.

Definition put_record `{Crypto} `{StateCipher} (keys : StateKeys) (l : Label) (p salt nonce : bytes) (durable : bool) (x : bytes)
    (wr : option LogWriter) : Disk (option LogWriter * result unit StateError) :=
  with_writer keys l p salt wr (fun w => if durable then append_durable w nonce x else append w nonce x).

(** One log and its client: records are put, the process stops or dies, power
    is lost. *)
Inductive LogOp := LPut (salt nonce x : bytes) (durable : bool) | LStop | LPower (keep : bytes -> nat).
Inductive LogReply := RDone | RFailed | RDied.

Definition log_step `{Crypto} `{StateCipher} (keys : StateKeys) (l : Label) (p : bytes) (s : World * option LogWriter) (op : LogOp)
    : World * option LogWriter * LogReply :=
  match op with
  | LPut salt nonce x durable =>
    match put_record keys l p salt nonce durable x s.2 s.1 with
    | (w, Some (wr, r)) => (w, wr, if is_ok r then RDone else RFailed)
    | (w, None) => (w, None, RDied)
    end
  | LStop => (s.1, None, RDone)
  | LPower keep => (power_loss keep s.1, None, RDone)
  end.

Fixpoint log_run `{Crypto} `{StateCipher} (keys : StateKeys) (l : Label) (p : bytes) (s : World * option LogWriter) (ops : list LogOp)
    : World * option LogWriter * list LogReply :=
  match ops with
  | [] => (s, [])
  | op :: ops =>
    let '(s1, r) := log_step keys l p s op in
    let '(s2, rs) := log_run keys l p s1 ops in (s2, r :: rs)
  end.

(** What the log promises: a list of records of which the first [d] survive a
    loss of power. *)
Inductive log_spec : list bytes * nat -> LogOp -> LogReply -> list bytes * nat -> Prop :=
| spec_put recs d salt nonce x durable :
    log_spec (recs, d) (LPut salt nonce x durable) RDone (recs ++ [x], if durable then S (length recs) else d)
| spec_failed recs d salt nonce x durable r : r <> RDone -> log_spec (recs, d) (LPut salt nonce x durable) r (recs, d)
| spec_unsure recs d salt nonce x durable r : r <> RDone -> log_spec (recs, d) (LPut salt nonce x durable) r (recs ++ [x], d)
| spec_stop recs d : log_spec (recs, d) LStop RDone (recs, d)
| spec_power recs d keep m : (d <= m)%nat -> log_spec (recs, d) (LPower keep) RDone (take m recs, d).

Inductive spec_run : list bytes * nat -> list LogOp -> list LogReply -> list bytes * nat -> Prop :=
| spec_run_nil a : spec_run a [] [] a
| spec_run_cons a op r b ops rs e : log_spec a op r b -> spec_run b ops rs e -> spec_run a (op :: ops) (r :: rs) e.

Definition op_ok (op : LogOp) : Prop :=
  match op with LPut salt nonce _ _ => length salt = 16%nat /\ length nonce = NONCE_LEN | _ => True end.

(** The records put durably and acknowledged, and all that were put. *)
Fixpoint acked (ops : list LogOp) (rs : list LogReply) : list bytes :=
  match ops, rs with
  | LPut _ _ x true :: ops, RDone :: rs => x :: acked ops rs
  | _ :: ops, _ :: rs => acked ops rs
  | _, _ => []
  end.

Fixpoint tried (ops : list LogOp) : list bytes :=
  match ops with LPut _ _ x _ :: ops => x :: tried ops | _ :: ops => tried ops | [] => [] end.

Section Clients.
Context `{Crypto} `{StateCipher} (Hc : cipher_correct) (Ht : cipher_total) (Hk : hkdf_total).
Context (sk : bytes) (l : Label) (p : bytes).
Implicit Types (recs : list bytes) (wr : option LogWriter).

Definition journal (s : World * option LogWriter) recs (d : nat) : Prop :=
  match s.2 with Some wr => ready sk l p wr recs d s.1 | None => holds sk l p recs d s.1 end.

Lemma journal_holds s recs d : journal s recs d -> holds sk l p recs d s.1.
Proof. unfold journal. destruct s.2; [apply ready_holds|done]. Qed.

(** The record is at the end, or perhaps there. *)
Definition put_post recs (d : nat) (x : bytes) (durable : bool) (w : World) (r : option LogWriter * result unit StateError) (w' : World) : Prop :=
  match r with
  | (wr', Ok _) => journal (w', wr') (recs ++ [x]) (if durable then S (length recs) else d)
  | (wr', Err _) => wr' = None /\ (holds sk l p recs d w' \/ holds sk l p (recs ++ [x]) d w')
  end /\ others {[p]} w w'.

Definition put_dies recs (d : nat) (x : bytes) (w w' : World) : Prop :=
  (holds sk l p recs d w' \/ holds sk l p (recs ++ [x]) d w') /\ others {[p]} w w'.

Lemma runs_use nonce durable x (wr : LogWriter) recs d w :
  length nonce = NONCE_LEN -> ready sk l p wr recs d w ->
  runs (let* r := (if (durable : bool) then append_durable wr nonce x else append wr nonce x) in
        ret (match r with (wr', Ok _) => (Some wr', Ok tt) | (_, Err e) => (None, Err e) end)) w
    (put_post recs d x durable w) (put_dies recs d x w).
Proof.
  intros Hn Hr. apply runs_bind. destruct durable.
  - unfold append_durable. apply runs_bind. eapply runs_mono; [by apply (runs_append Ht sk l p wr nonce x recs d w)| |].
    2:{ by intros w' ?. }
    intros [wr' [u|e]] w1 [H1 Ho]; [|apply runs_ret, runs_ret; by repeat split]. apply runs_bind.
    eapply runs_mono; [by apply runs_sync_log| |]; cbn beta.
    + intros r w2 [H2 Ho2]. apply runs_ret, runs_ret. assert (others {[p]} w w2) by (by eapply others_trans).
      destruct r as [[]|e]; cbn [is_ok] in H2.
      * split; [|done]. unfold journal. cbn [fst snd]. rewrite length_app in H2. cbn [length] in H2.
        by replace (S (length recs)) with (length recs + 1)%nat by lia.
      * split; [|done]. split; [done|]. right. by eapply ready_holds.
    + intros w2 [H2 Ho2]. split; [by right|by eapply others_trans].
  - eapply runs_mono; [by apply (runs_append Ht sk l p wr nonce x recs d w)| |].
    + intros [wr' [u|e]] w1 [H1 Ho]; apply runs_ret; by repeat split.
    + by intros w' ?.
Qed.

Lemma runs_put salt nonce durable x wr recs d w :
  length salt = 16%nat -> length nonce = NONCE_LEN -> journal (w, wr) recs d ->
  runs (put_record (mkKeys (Some sk)) l p salt nonce durable x wr) w (put_post recs d x durable w) (put_dies recs d x w).
Proof.
  intros Hs Hn Hj. unfold put_record, with_writer. destruct wr as [wr|]; [by apply runs_use|].
  apply runs_bind. eapply runs_mono; [by apply (runs_open Hc Hk sk l p salt recs d w)| |]; cbn beta.
  - intros [wr|e] w1 [H1 Ho].
    + eapply runs_mono; [by eapply runs_use| |]; cbn beta.
      * intros [wr' r] w2 [? ?]. split; [done|by eapply others_trans].
      * intros w2 [? ?]. split; [done|by eapply others_trans].
    + apply runs_ret. split; [|done]. split; [done|by left].
  - intros w1 [H1 Ho]. split; [by left|done].
Qed.

(** Every step of the log is a step of the promise. *)
Lemma log_step_refines s op recs d :
  op_ok op -> journal s recs d ->
  exists recs' d', log_spec (recs, d) op (log_step (mkKeys (Some sk)) l p s op).2 (recs', d') /\
    journal (log_step (mkKeys (Some sk)) l p s op).1 recs' d'.
Proof.
  intros Hop Hj. destruct s as [w wr], op as [salt nonce x durable| |keep]; cbn [log_step fst snd].
  - destruct Hop as [Hs Hn]. pose proof (runs_put salt nonce durable x wr recs d w Hs Hn Hj) as Hr. unfold runs in Hr.
    destruct (put_record _ _ _ _ _ _ _ _ _) as [w' [[wr' r]|]]; cbn [fst snd].
    + destruct Hr as [Hr _]. destruct r as [[]|e]; cbn [is_ok].
      * do 2 eexists. split; [constructor|exact Hr].
      * destruct Hr as (-> & [Hr|Hr]); (do 2 eexists; split; [|exact Hr]); by constructor.
    + destruct Hr as ([Hr|Hr] & _); (do 2 eexists; split; [|exact Hr]); by constructor.
  - exists recs, d. split; [constructor|]. by apply journal_holds in Hj.
  - apply journal_holds in Hj. unfold holds in Hj. cbn [fst] in Hj. unfold journal, holds. cbn [fst snd]. rewrite power_loss_lookup.
    destruct (files w !! p) as [f|]; cbn.
    + destruct (log_file_loss sk l keep p f recs d Hj) as (m & Hm & Hf). exists (take m recs), d. split; [by constructor|done].
    + destruct Hj as [-> ->]. exists (take 0 []), 0%nat. split; [by constructor|done].
Qed.

Lemma log_run_refines ops s recs d :
  Forall op_ok ops -> journal s recs d ->
  exists recs' d', spec_run (recs, d) ops (log_run (mkKeys (Some sk)) l p s ops).2 (recs', d') /\
    journal (log_run (mkKeys (Some sk)) l p s ops).1 recs' d'.
Proof.
  intros Hops. revert s recs d. induction Hops as [|op ops Hop Hops IH]; intros s recs d Hj.
  - exists recs, d. split; [constructor|done].
  - cbn [log_run]. destruct (log_step_refines s op recs d Hop Hj) as (r1 & d1 & Hspec & Hj1).
    destruct (log_step _ _ _ s op) as [s1 reply]. cbn [fst snd] in *. destruct (IH s1 r1 d1 Hj1) as (r2 & d2 & Hrun & Hj2).
    destruct (log_run _ _ _ s1 ops) as [s2 rs]. cbn [fst snd] in *. exists r2, d2. split; [by econstructor|done].
Qed.

Lemma journal_reads s recs d :
  journal s recs d ->
  let file := content <$> files s.1 !! p in
  (exists torn, read_log (mkKeys (Some sk)) l file = Ret (Ok (Some (recs, torn)))) \/
  (recs = [] /\ (read_log (mkKeys (Some sk)) l file = Ret (Ok None) \/ read_log (mkKeys (Some sk)) l file = Ret (Err Truncated))).
Proof.
  intros Hj%journal_holds. unfold holds in Hj. cbn zeta. destruct (files s.1 !! p) as [f|]; cbn [fmap option_fmap option_map].
  - apply log_file_bytes in Hj. destruct (read_log_bytes Hc sk l _ recs Hj) as [?|[? ?]]; auto.
  - destruct Hj as [-> _]. right. split; [done|]. by left.
Qed.

Lemma spec_sublist a ops rs e :
  spec_run a ops rs e -> (a.2 <= length a.1)%nat ->
  (e.2 <= length e.1)%nat /\
  sublist (take a.2 a.1 ++ acked ops rs) (take e.2 e.1) /\ sublist e.1 (a.1 ++ tried ops).
Proof.
  induction 1 as [a|a op r b ops rs e Hs Hr IH]; intros Hd.
  - cbn [acked tried]. rewrite !app_nil_r. done.
  - destruct Hs as [recs d salt nonce x durable|recs d salt nonce x durable r Hne|recs d salt nonce x durable r Hne|recs d|recs d keep m Hm];
      cbn [fst snd] in *.
    + destruct IH as (He & IH1 & IH2); [rewrite length_app; destruct durable; cbn; lia|]. split; [done|].
      cbn [tried]. rewrite <- app_assoc in IH2. split; [|exact IH2]. etransitivity; [|exact IH1].
      destruct durable; cbn [acked].
      * rewrite (take_ge (recs ++ [x])) by (rewrite length_app; cbn; lia). rewrite <- app_assoc. apply sublist_app; [|done].
        apply sublist_take.
      * by rewrite take_app_le by lia.
    + destruct (IH Hd) as (He & IH1 & IH2). split; [done|]. split.
      * replace (acked (LPut salt nonce x durable :: ops) (r :: rs)) with (acked ops rs) by (by destruct durable, r). done.
      * etransitivity; [exact IH2|]. apply sublist_app; [done|]. cbn [tried]. by apply sublist_cons.
    + destruct IH as (He & IH1 & IH2); [rewrite length_app; lia|]. split; [done|]. split.
      * rewrite take_app_le in IH1 by lia.
        replace (acked (LPut salt nonce x durable :: ops) (r :: rs)) with (acked ops rs) by (by destruct durable, r). done.
      * cbn [tried]. by rewrite <- app_assoc in IH2.
    + destruct (IH Hd) as (He & IH1 & IH2). cbn [acked tried]. auto.
    + destruct IH as (He & IH1 & IH2); [rewrite length_take; lia|]. cbn [acked tried]. split; [done|]. split.
      * rewrite take_take, Nat.min_l in IH1 by lia. done.
      * etransitivity; [exact IH2|]. apply sublist_app; [apply sublist_take|done].
Qed.

(** C10. The log keeps what it acknowledged: over any history of puts with
    failing writes, stops, deaths of the process at any byte and losses of
    power, each step is one the promise [log_spec] allows, and the log reads
    as its list, a subsequence of the records whose put was tried, which
    contains every record that was put durably and acknowledged, in order. A
    record whose put failed may be missing between two others. *)
Theorem sealed_log_refines ops w :
  Forall op_ok ops -> files w !! p = None ->
  let '(s, rs) := log_run (mkKeys (Some sk)) l p (w, None) ops in
  exists recs d, spec_run ([], 0%nat) ops rs (recs, d) /\ sublist (acked ops rs) recs /\ sublist recs (tried ops) /\
    let read := read_log (mkKeys (Some sk)) l (content <$> files s.1 !! p) in
    (exists torn, read = Ret (Ok (Some (recs, torn)))) \/
    (recs = [] /\ (read = Ret (Ok None) \/ read = Ret (Err Truncated))).
Proof.
  intros Hops Hf. destruct (log_run_refines ops (w, None) [] 0 Hops) as (recs & d & Hrun & Hj).
  { unfold journal, holds. cbn [fst snd]. by rewrite Hf. }
  destruct (log_run _ _ _ _ ops) as [s rs]. cbn [fst snd] in *. exists recs, d. split; [done|].
  destruct (spec_sublist _ _ _ _ Hrun) as (_ & H1 & H2); [done|]. cbn [fst snd take app] in H1, H2. split_and!.
  - etransitivity; [exact H1|apply sublist_take].
  - done.
  - by apply (journal_reads s recs d).
Qed.
End Clients.
