(* ===== verification/SealedRewrite.v ===== *)
(** * SealedRewrite: replacing a record log

    Models the second half of [state_crypto/log.rs]: the rewrite that stages a
    replacement and swaps it in, with or without overwriting the old file
    first, and the adoption of a staged file that was left behind.  The
    examples at the end evaluate the log on a transparent cipher. *)

From S2P Require Import Prelude Bytes Text Codec ErasureCode Dissolve Disk SealedState SealedLog.

(** ** Rewriting a log *)

Record LogRewrite := mkRewrite { rw_writer : LogWriter; rw_tmp : bytes; rw_dest : bytes }.

Section Rewrite.
Context `{Crypto} `{StateCipher}.

Definition rewrite_begin (keys : StateKeys) (l : Label) (dest tmp salt : bytes) : Disk (result LogRewrite StateError) :=
  try* wr := create_file keys l tmp salt in ret (Ok (mkRewrite wr tmp dest)).

Definition rewrite_append (rw : LogRewrite) (nonce x : bytes) : Disk (LogRewrite * result unit StateError) :=
  let* r := append (rw_writer rw) nonce x in ret (mkRewrite r.1 (rw_tmp rw) (rw_dest rw), r.2).

(** Dropped without a commit: the staged file is removed. *)
Definition rewrite_drop (rw : LogRewrite) : Disk unit := let* _ := remove_file (rw_tmp rw) in ret tt.

Definition rewrite_finish (rw : LogRewrite) : Disk (result bytes StateError) :=
  let* r := sync (rw_writer rw) in
  match r with
  | Ok _ => ret (Ok (rw_tmp rw))
  | Err e => let* _ := rewrite_drop rw in ret (Err e)
  end.

Definition commit (rw : LogRewrite) : Disk (result unit StateError) :=
  try* tmp := rewrite_finish rw in
  let* ok := sync_file tmp in
  if negb ok then ret (Err Io)
  else
    let* moved := rename tmp (rw_dest rw) in
    if (moved : bool) then ret (Ok tt) else let* _ := remove_file tmp in ret (Err Io).

(** The bytes after the first [keep] are overwritten and flushed; [None] when
    the file is missing. *)
Definition overwrite_after (path : bytes) (keep : nat) (noise : bytes) : Disk (result bool StateError) :=
  let* f := get path in
  match f with
  | None => ret (Ok false)
  | Some f =>
    let* opened := try_io in
    if negb opened then ret (Err Io)
    else
      let keep := Nat.min keep (length (content f)) in
      let* ok := write_at path keep (take (length (content f) - keep) noise) in
      if negb ok then ret (Err Io)
      else let* s := sync_file path in ret (if (s : bool) then Ok true else Err Io)
  end.

Definition commit_shredding (rw : LogRewrite) (noise : bytes) : Disk (result unit StateError) :=
  try* tmp := rewrite_finish rw in
  let* ok := sync_file tmp in
  if negb ok then ret (Err Io)
  else
    let* o := overwrite_after (rw_dest rw) 6 noise in
    match o with
    | Err e => let* _ := remove_file tmp in ret (Err e)
    | Ok _ => let* moved := rename tmp (rw_dest rw) in ret (if (moved : bool) then Ok tt else Err Io)
    end.

Definition adopt_staged_log (keys : StateKeys) (l : Label) (tmp dest : bytes) : Disk bool :=
  let* f := get tmp in
  match read_log keys l (content <$> f) with
  | Ret (Ok (Some (_, None))) => rename tmp dest
  | Panic => die
  | _ => ret false
  end.

(** The loop of the clients: stage every record, then swap; an error on the way
    drops the staged file. *)
Fixpoint rewrite_items (rw : LogRewrite) (items : list (bytes * bytes)) : Disk (LogRewrite * bool) :=
  match items with
  | [] => ret (rw, true)
  | (nonce, x) :: items =>
    let* r := rewrite_append rw nonce x in
    match r with (rw', Ok _) => rewrite_items rw' items | (rw', Err _) => ret (rw', false) end
  end.

Definition rewrite_log (keys : StateKeys) (l : Label) (dest tmp salt : bytes) (items : list (bytes * bytes)) (shred : option bytes)
    : Disk (result unit StateError) :=
  try* rw := rewrite_begin keys l dest tmp salt in
  let* r := rewrite_items rw items in
  match r with
  | (rw', false) => let* _ := rewrite_drop rw' in ret (Err Io)
  | (rw', true) => match shred with None => commit rw' | Some noise => commit_shredding rw' noise end
  end.

End Rewrite.

Section RewriteTheory.
Context `{Crypto} `{StateCipher} (Hc : cipher_correct) (Ht : cipher_total) (Hk : hkdf_total).
Context (sk : bytes) (l : Label) (dest tmp : bytes) (Hne : tmp <> dest).
Implicit Types (recs : list bytes).

Lemma runs_create_over p salt w :
  length salt = 16%nat ->
  runs (create_file (mkKeys (Some sk)) l p salt) w
    (fun r w' => match r with Ok wr => ready sk l p wr [] 0 w' | Err _ => True end /\ others {[p]} w w')
    (fun w' => others {[p]} w w').
Proof.
  intros Hs. unfold create_file. apply (runs_lift_core Hk); [done|]. intros c Hcore Ec. apply runs_bind.
  pose proof (header_length c (proj2 (proj2 Hcore))) as H22. apply runs_restricted.
  - intros w1 Ho Hf. apply runs_bind, runs_try_io. intros b w2 E.
    assert (others {[p]} w w2) as Ho2 by (eapply others_trans; [exact Ho|by apply others_same]).
    split; [|done]. apply runs_ret. split; [|done]. destruct b; [|done].
    exists (mkFile (header c) 0), c, [], [], [], []. cbn [content]. rewrite !app_nil_r. unfold at_file in Hf. rewrite E, Hf.
    split_and!; [done|done|done|done|done|constructor|constructor|by left|]. unfold zlen. by rewrite H22.
  - intros w1 Ho _. split; [|done]. by apply runs_ret.
Qed.

(** The file being replaced, as long as only the staged one is touched. *)
Lemma others_dest w w' : others {[tmp]} w w' -> files w' !! dest = files w !! dest.
Proof. intros Ho. apply Ho. set_solver. Qed.

Lemma runs_items items rw done_ w w0 :
  Forall (fun it => length it.1 = NONCE_LEN) items -> rw_tmp rw = tmp -> rw_dest rw = dest ->
  ready sk l tmp (rw_writer rw) done_ 0 w -> others {[tmp]} w0 w ->
  runs (rewrite_items rw items) w
    (fun r w' => (r.2 = true -> ready sk l tmp (rw_writer r.1) (done_ ++ items.*2) 0 w') /\
                 rw_tmp r.1 = tmp /\ rw_dest r.1 = dest /\ others {[tmp]} w0 w')
    (fun w' => others {[tmp]} w0 w').
Proof.
  intros Hit. revert rw done_ w. induction Hit as [|[nonce x] items Hn Hit IH]; intros rw done_ w Et Ed Hr Ho; cbn [rewrite_items].
  - apply runs_ret. cbn. rewrite app_nil_r. by repeat split.
  - apply runs_bind. unfold rewrite_append. apply runs_bind.
    eapply runs_mono; [by apply (runs_append Ht sk l tmp (rw_writer rw) nonce x done_ 0 w)| |]; cbn beta.
    + intros [wr' [u|e]] w1 [H1 Ho1]; apply runs_ret; cbn [fst snd].
      * eapply runs_mono; [apply (IH _ (done_ ++ [x]) w1)| |]; cbn [rw_writer rw_tmp rw_dest]; [done..|by eapply others_trans| |done].
        cbn beta. intros r w2 Hr2. by rewrite <- app_assoc in Hr2.
      * apply runs_ret. cbn. split; [done|]. split_and!; [done..|by eapply others_trans].
    + intros w1 [_ Ho1]. by eapply others_trans.
Qed.

(** A complete staged log: it reads cleanly, and every record is durable. *)
Definition staged recs (w : World) : Prop := exists wr, ready sk l tmp wr recs (length recs) w.

Lemma ready_reads p wr recs d w :
  ready sk l p wr recs d w -> read_log (mkKeys (Some sk)) l (content <$> files w !! p) = Ret (Ok (Some (recs, None))).
Proof.
  intros (f & c & r1 & r2 & b1 & b2 & Hf & Hcore & -> & -> & Hb & H1 & H2 & _ & _). rewrite Hf.
  cbn [fmap option_fmap option_map]. rewrite Hb, <- (app_nil_r b2), (app_assoc b1). rewrite (read_log_ends Hc sk l c (r1 ++ r2) (b1 ++ b2) []).
  - done.
  - done.
  - apply written_app; [done|by rewrite Z.add_0_l].
  - apply ends_short. simpl. lia.
Qed.

(** Moved into place, the staged log is the log. *)
Lemma staged_moved recs f w w' :
  staged recs w -> files w !! tmp = Some f -> files w' !! dest = Some f -> holds sk l dest recs (length recs) w'.
Proof.
  intros [wr Hr%ready_holds] Hf Hf'. unfold holds in *. rewrite Hf in Hr. by rewrite Hf'.
Qed.

Lemma staged_same recs w w' : files w' !! tmp = files w !! tmp -> staged recs w -> staged recs w'.
Proof. intros E [wr (f & c & r1 & r2 & b1 & b2 & Hf & Hr)]. exists wr, f, c, r1, r2, b1, b2. by rewrite E. Qed.

Lemma staged_file recs w : staged recs w -> exists f, files w !! tmp = Some f.
Proof. intros [wr (f & c & r1 & r2 & b1 & b2 & Hf & _)]. by exists f. Qed.

(** The staged copy is complete and durable before anything happens to the log
    it replaces. *)
Lemma runs_flush recs wr w :
  ready sk l tmp wr recs 0 w ->
  runs (sync wr) w
    (fun r w' => (is_ok r = true -> staged recs w') /\ others {[tmp]} w w' /\ (no_failure w -> no_failure w'))
    (fun w' => others {[tmp]} w w').
Proof.
  intros Hr. eapply runs_mono; [apply runs_frugal; [|by apply (runs_sync_log sk l tmp wr recs 0 w)]| |]; cbn beta.
  - unfold sync. frugal.
  - intros r w' [[H1 Ho] Hn]. split_and!; [|done..]. intros E. rewrite E in H1. by exists wr.
  - by intros w' [[_ ?] _].
Qed.

Lemma runs_flush_file recs w :
  staged recs w ->
  runs (sync_file tmp) w
    (fun r w' => (r = true -> staged recs w') /\ others {[tmp]} w w' /\ (no_failure w -> no_failure w'))
    (fun w' => others {[tmp]} w w').
Proof.
  intros Hst. pose proof Hst as [wr (f & c & r1 & r2 & b1 & b2 & Hf & Hcore & -> & Hd & Hb & HW1 & HW2 & Hsy & _)].
  eapply (runs_mono _ _ (fun r w' => ((r = true -> staged (r1 ++ r2) w') /\ others {[tmp]} w w') /\ (no_failure w -> no_failure w'))
    _ (fun w' => others {[tmp]} w w' /\ (no_failure w -> no_failure w'))); [|intros ? ? [[] ?]; by split_and!|by intros ? []].
  apply runs_frugal; [frugal|]. eapply (runs_sync tmp f); [exact Hf| |]; intros w2 Ho2 Hf2; (split; [|done]); split; try done.
  intros _. eexists. rewrite Hd. unfold at_file in Hf2. rewrite Hb in Hf2. eapply ready_file; [done..| |exact Hf2]. right. rewrite !length_app. lia.
Qed.

Lemma runs_staged {A} rw recs w (k : bytes -> Disk (result A StateError)) Q D :
  rw_tmp rw = tmp -> ready sk l tmp (rw_writer rw) recs 0 w ->
  (forall w', others {[tmp]} w w' -> (no_failure w -> no_failure w') -> staged recs w' -> runs (k tmp) w' Q D) ->
  (forall e w', others {[tmp]} w w' -> Q (Err e) w' /\ D w') ->
  runs (try_bind (rewrite_finish rw) (fun t => let* ok := sync_file t in if negb ok then ret (Err Io) else k t)) w Q D.
Proof.
  intros Et Hr HQ HD. apply runs_try. unfold rewrite_finish. apply runs_bind. rewrite Et.
  eapply runs_mono; [by apply (runs_flush recs (rw_writer rw) w)| |]; cbn beta; [|intros w1 Ho; by apply (HD Io)].
  intros [[]|e] w1 (H1 & Ho & Hn1).
  - apply runs_ret, runs_bind. eapply runs_mono; [by apply (runs_flush_file recs w1), H1| |]; cbn beta.
    + intros [] w2 (H2 & Ho2 & Hn2); cbn [negb]; [apply HQ; [by eapply others_trans|auto|by apply H2]|].
      apply runs_ret. apply HD. by eapply others_trans.
    + intros w2 Ho2. apply (HD Io). by eapply others_trans.
  - unfold rewrite_drop. rewrite Et. do 2 apply runs_bind. apply runs_remove; intros w2 Ho2 _;
      (split; [do 2 apply runs_ret|]); apply (HD e); by eapply others_trans.
Qed.

Lemma runs_swap recs w Q D :
  staged recs w ->
  (forall w', holds sk l dest recs (length recs) w' -> others {[tmp; dest]} w w' -> Q true w' /\ D w') ->
  (forall w', files w' !! dest = files w !! dest -> staged recs w' -> others {[tmp; dest]} w w' -> Q false w' /\ D w') ->
  runs (rename tmp dest) w Q D.
Proof.
  intros Hst H1 H2. destruct (staged_file recs w Hst) as [f Hf]. eapply (runs_rename _ _ _ _ _ _ Hne Hf); intros w' Ho Ht' Hd.
  - apply H1; [|done]. by eapply staged_moved.
  - apply H2; [done| |done]. eapply staged_same; [|exact Hst]. by rewrite Ht', Hf.
Qed.

(** A staged log that was left behind is put into place. *)
Lemma adopt_staged recs w :
  staged recs w -> runs (adopt_staged_log (mkKeys (Some sk)) l tmp dest) w
    (fun ok w' => if ok then holds sk l dest recs (length recs) w' else staged recs w' /\ files w' !! dest = files w !! dest)
    (fun w' => holds sk l dest recs (length recs) w' \/ staged recs w' /\ files w' !! dest = files w !! dest).
Proof.
  intros Hst. unfold adopt_staged_log. apply runs_bind. unfold runs at 1, get. destruct Hst as [wr Hr].
  rewrite (ready_reads tmp wr recs _ w Hr). apply (runs_swap recs); [by exists wr| |]; intros w' ? **; auto.
Qed.

(** Adopting the staged log at the next start gives these records. *)
Definition adoptable recs (w : World) : Prop :=
  let '(w', r) := adopt_staged_log (mkKeys (Some sk)) l tmp dest (mkWorld (files w) []) in
  r = Some true /\ holds sk l dest recs (length recs) w'.

Lemma staged_adoptable recs w : staged recs w -> adoptable recs w.
Proof.
  intros Hst. pose proof Hst as [wr Hr]. destruct (staged_file recs w Hst) as [f Hf].
  unfold adoptable, adopt_staged_log, bind, get. cbn [files]. rewrite (ready_reads tmp wr recs _ w Hr).
  unfold rename, bind, fate, get, put, drop_file, ret. cbn [files fates]. rewrite Hf. cbn [files fates].
  split; [done|]. eapply staged_moved; [exact Hst|exact Hf|]. cbn [files]. apply lookup_insert_eq.
Qed.

Definition rewrite_post old (d : nat) new (r : result unit StateError) (w' : World) : Prop :=
  match r with Ok _ => holds sk l dest new (length new) w' | Err _ => holds sk l dest old d w' end.

Definition rewrite_dies old (d : nat) new (shred : option bytes) (w' : World) : Prop :=
  holds sk l dest old d w' \/ holds sk l dest new (length new) w' \/ (shred <> None /\ staged new w').

Lemma dest_kept old d new shred w w' :
  holds sk l dest old d w -> files w' !! dest = files w !! dest ->
  (forall e, rewrite_post old d new (Err e) w') /\ rewrite_dies old d new shred w'.
Proof.
  intros Hold E. assert (holds sk l dest old d w') by (by eapply holds_same). split; [done|by left].
Qed.

Lemma runs_commit rw old d new w :
  rw_tmp rw = tmp -> rw_dest rw = dest -> ready sk l tmp (rw_writer rw) new 0 w -> holds sk l dest old d w ->
  runs (commit rw) w (rewrite_post old d new) (rewrite_dies old d new None).
Proof.
  intros Et Ed Hr Hold. unfold commit. eapply (runs_staged rw new w); [done|done| |].
  - intros w1 Ho _ Hst. apply runs_bind. rewrite Ed. apply (runs_swap new); [done| |].
    + intros w2 H2 _. split; [by apply runs_ret|by right; left].
    + intros w2 E2 Hst2 _. pose proof (others_dest w w1 Ho) as E1.
      assert (files w2 !! dest = files w !! dest) as E by congruence. destruct (dest_kept old d new None w w2 Hold E) as [HQ HD].
      split; [|done]. apply runs_bind, runs_remove; intros w3 Ho3 _;
        (destruct (dest_kept old d new None w w3 Hold) as [HQ3 HD3]; [rewrite (others_dest w2 w3 Ho3); congruence|]);
        (split; [apply runs_ret, HQ3|done]).
  - intros e w1 Ho. destruct (dest_kept old d new None w w1 Hold (others_dest _ _ Ho)) as [HQ HD]. auto.
Qed.

(** Overwriting touches only the log that is replaced. *)
Lemma runs_overwrite path keep noise w Q D :
  (forall r w', others {[path]} w w' -> Q r w' /\ D w') -> runs (overwrite_after path keep noise) w Q D.
Proof.
  intros HQ. assert (D w) as HD0 by (by apply (HQ (Ok true) w)). unfold overwrite_after. apply runs_bind. unfold runs at 1, get.
  destruct (files w !! path) as [f|] eqn:Ef; [|apply runs_ret; by apply HQ]. apply runs_bind, runs_try_io. intros b w1 E1.
  assert (others {[path]} w w1) as Ho1 by (by apply others_same). split; [|by apply (HQ (Ok true))].
  destruct b; cbn [negb]; [|apply runs_ret; by apply HQ]. apply runs_bind.
  eapply (runs_write_at path _ _ f); [unfold at_file; by rewrite E1| |].
  - intros w2 Ho2 Hf2. cbn [negb]. apply runs_bind. eapply runs_sync; [exact Hf2| |]; intros w3 Ho3 _;
      (assert (others {[path]} w w3) by (eapply others_trans; [exact Ho1|by eapply others_trans]));
      (split; [apply runs_ret; by apply HQ|by apply (HQ (Ok true))]).
  - intros n w2 Ho2 _. assert (others {[path]} w w2) by (by eapply others_trans). cbn [negb].
    split; [apply runs_ret; by apply HQ|by apply (HQ (Ok true))].
Qed.

Lemma overwrite_ok path keep noise w w' e : no_failure w -> overwrite_after path keep noise w <> (w', Some (Err e)).
Proof.
  intros Hn. unfold overwrite_after, try_io, write_at, sync_file, bind, get, put, ret, die.
  destruct (files w !! path) as [f|]; [|done]. destruct (fate w) as [w1 [f1|]] eqn:F1; [|done].
  destruct (fate_no_failure _ _ _ F1 Hn) as [H1 Hn1]. destruct f1 as [|n|n]; [|by destruct (H1 n)|done]. cbn [negb].
  destruct (fate w1) as [w2 [f2|]] eqn:F2; [|done]. destruct (fate_no_failure _ _ _ F2 Hn1) as [H2 Hn2].
  destruct f2 as [|n|n]; [|by destruct (H2 n)|done]. cbn [negb files fates].
  match goal with |- context [fate ?w3] => set (w3' := w3); destruct (fate w3') as [w4 [f4|]] eqn:F4; [|done] end.
  assert (is_Some (files w4 !! path)) as [g Hg].
  { unfold fate in F4. destruct (fates w3'); injection F4 as <- <-; unfold w3'; cbn [files]; rewrite lookup_insert_eq; by eexists. }
  assert (no_failure w3') as Hn3 by exact Hn2. destruct (fate_no_failure _ _ _ F4 Hn3) as [H4 _]. rewrite Hg. cbn [files fates].
  destruct f4 as [|n|[|n]]; [done|by destruct (H4 n)|done..].
Qed.

Lemma runs_overwritten noise new w :
  no_failure w -> staged new w ->
  runs (overwrite_after dest 6 noise) w (fun r w' => staged new w' /\ is_ok r = true /\ no_failure w') (staged new).
Proof.
  intros Hn Hst. pose proof (runs_overwrite dest 6 noise w (fun _ => staged new) (staged new)) as Hr.
  assert (runs (overwrite_after dest 6 noise) w (fun _ w' => staged new w' /\ (no_failure w -> no_failure w'))
    (fun w' => staged new w' /\ (no_failure w -> no_failure w'))) as Hr'.
  { apply runs_frugal; [unfold overwrite_after; frugal|]. apply Hr. intros r w' Ho.
    assert (staged new w') by (eapply staged_same; [|exact Hst]; apply Ho; set_solver). done. }
  unfold runs in *. pose proof (overwrite_ok dest 6 noise w) as Hok. destruct (overwrite_after _ _ _ w) as [w' [[b|e]|]].
  - destruct Hr'. auto.
  - by destruct (Hok w' e Hn).
  - apply Hr'.
Qed.

Lemma frugal_create keys p salt : frugal (create_file keys l p salt).
Proof. unfold create_file, lift. frugal. Qed.

Lemma frugal_append wr nonce x : frugal (append wr nonce x).
Proof. unfold append. frugal. Qed.

Lemma frugal_items items rw : frugal (rewrite_items rw items).
Proof.
  revert rw. induction items as [|[nonce x] items IH]; intros rw; cbn [rewrite_items]; [apply frugal_ret|].
  apply frugal_bind; [apply frugal_bind; [apply frugal_append|intros ?; apply frugal_ret]|]. intros [rw' [u|e]]; [apply IH|apply frugal_ret].
Qed.

Lemma runs_shredding rw noise old d new w :
  rw_tmp rw = tmp -> rw_dest rw = dest -> no_failure w ->
  ready sk l tmp (rw_writer rw) new 0 w -> holds sk l dest old d w ->
  runs (commit_shredding rw noise) w (rewrite_post old d new) (rewrite_dies old d new (Some noise)).
Proof.
  intros Et Ed Hnf Hr Hold. unfold commit_shredding. eapply (runs_staged rw new w); [done|done| |].
  - intros w1 Ho Hn1 Hst. apply runs_bind. rewrite Ed.
    eapply runs_mono; [exact (runs_overwritten noise new w1 (Hn1 Hnf) Hst)| |]; cbn beta; [|intros w2 ?; right; right; by split].
    intros [b|e] w2 (Hst2 & Hr2 & Hn2); [|done]. apply runs_bind.
    assert (runs (rename tmp dest) w2 (fun r w3 => r = true /\ holds sk l dest new (length new) w3)
      (fun w3 => holds sk l dest new (length new) w3 \/ staged new w3)) as Hmove.
    { pose proof (runs_swap new w2 (fun r w3 => (r = true -> holds sk l dest new (length new) w3))
        (fun w3 => holds sk l dest new (length new) w3 \/ staged new w3) Hst2) as Hs. unfold runs in *.
      pose proof (rename_ok tmp dest w2) as Hok. destruct (rename tmp dest w2) as [w3 [[]|]].
      2: { destruct (Hok w3 Hn2); [|done]. destruct (staged_file new w2 Hst2) as [f ->]. by eexists. }
      1: split; [done|]. all: apply Hs; naive_solver. }
    eapply runs_mono; [exact Hmove| |]; cbn beta.
    + intros r w3 [-> H3]. by apply runs_ret.
    + intros w3 [?|?]; right; [by left|right; by split].
  - intros e w1 Ho. destruct (dest_kept old d new (Some noise) w w1 Hold (others_dest _ _ Ho)) as [HQ HD]. auto.
Qed.

Lemma runs_rewrite items salt shred old d w :
  length salt = 16%nat -> Forall (fun it => length it.1 = NONCE_LEN) items ->
  holds sk l dest old d w -> (shred <> None -> no_failure w) ->
  runs (rewrite_log (mkKeys (Some sk)) l dest tmp salt items shred) w (rewrite_post old d items.*2) (rewrite_dies old d items.*2 shred).
Proof.
  intros Hs Hit Hold Hnf. unfold rewrite_log. apply runs_try. unfold rewrite_begin.
  assert (forall w1, others {[tmp]} w w1 -> forall e, rewrite_post old d items.*2 (Err e) w1) as HQ
    by (intros w1 Ho; apply (dest_kept old d items.*2 shred w w1 Hold (others_dest _ _ Ho))).
  assert (forall w1, others {[tmp]} w w1 -> rewrite_dies old d items.*2 shred w1) as HD
    by (intros w1 Ho; apply (dest_kept old d items.*2 shred w w1 Hold (others_dest _ _ Ho))).
  apply runs_try. eapply runs_mono; [apply runs_frugal; [apply frugal_create|apply (runs_create_over tmp salt w Hs)]| |]; cbn beta.
  2: { intros w1 [? _]. by apply HD. }
  intros [wr|e] w1 [[Hready Ho] Hn1]; [|by apply HQ]. apply runs_ret, runs_bind.
  eapply runs_mono; [apply runs_frugal; [apply frugal_items|apply (runs_items items (mkRewrite wr tmp dest) [] w1 w); done]| |]; cbn beta.
  2: { intros w2 [? _]. by apply HD. }
  intros [rw ok] w2 [(Hrd & Et & Ed & Ho2) Hn2]; cbn [fst snd] in *. destruct ok.
  - assert (holds sk l dest old d w2) by (eapply holds_same; [|exact Hold]; by apply others_dest). specialize (Hrd eq_refl).
    destruct shred as [noise|]; [apply runs_shredding|apply runs_commit]; auto.
  - unfold rewrite_drop. rewrite Et. do 2 apply runs_bind. apply runs_remove; intros w3 Ho3 _;
      (assert (others {[tmp]} w w3) by (by eapply others_trans)); (split; [do 2 apply runs_ret; by apply HQ|by apply HD]).
Qed.

(** C18. Replacing a log is atomic. Without shredding, whatever fails or
    dies in it, the log reads as the old records or as the new ones, and as
    the new ones when it succeeded. With shredding, which overwrites the old
    file in place first, no disk operation may fail (a failure can lose the
    log, see [failed_shredding_loses_log]), but the process may still die at
    any point: then the old records, the new ones, or a staged file that
    adopting puts into place remain. *)
Theorem log_rewrite_atomic items salt shred old d w :
  length salt = 16%nat -> Forall (fun it => length it.1 = NONCE_LEN) items ->
  holds sk l dest old d w -> (shred <> None -> no_failure w) ->
  let '(w', r) := rewrite_log (mkKeys (Some sk)) l dest tmp salt items shred w in
  let new := items.*2 in
  match r with
  | Some (Ok _) => holds sk l dest new (length new) w'
  | Some (Err _) => holds sk l dest old d w'
  | None => holds sk l dest old d w' \/ holds sk l dest new (length new) w' \/ (shred <> None /\ adoptable new w')
  end.
Proof.
  intros Hs Hit Hold Hnf. pose proof (runs_rewrite items salt shred old d w Hs Hit Hold Hnf) as Hr.
  unfold runs in Hr. destruct (rewrite_log _ _ _ _ _ _ _ w) as [w' [[[]|e]|]]; [done|done|].
  destruct Hr as [?|[?|[? ?]]]; auto using staged_adoptable.
Qed.

End RewriteTheory.

(** ** Operations come to an end *)

Section Alive.
Context `{Crypto} `{StateCipher} (Hk : hkdf_total) (sk : bytes) (l : Label).

Lemma core_returns salt : exists c, core_new (mkKeys (Some sk)) l salt = Ret (Ok c).
Proof.
  destruct (doc_key_live Hk sk l) as [d Ed]. destruct (Hk (Some salt) d LABEL_STATE_LOG_FILE) as [k Ek].
  unfold core_new, derive_state_log_key. rewrite Ed. cbn [outcome_bind]. rewrite Ek. by eexists.
Qed.

Lemma reader_returns file : exists r, reader_open (mkKeys (Some sk)) l file = Ret r.
Proof.
  unfold reader_open. destruct file as [b|]; [|by eexists]. cbv zeta. do 2 (case_match; [by eexists|]).
  destruct (parse_header _ l) as [salt|e]; [|by eexists]. destruct (core_returns salt) as [c ->]. by eexists.
Qed.

Lemma lively_core salt : lively (lift (core_new (mkKeys (Some sk)) l salt)).
Proof. destruct (core_returns salt) as [c ->]. apply lively_ret. Qed.

Hint Resolve lively_core : lively.

Lemma lively_create p salt : lively (create_file (mkKeys (Some sk)) l p salt).
Proof. unfold create_file. lively. Qed.

Lemma lively_append wr nonce x : lively (append wr nonce x).
Proof. unfold append. lively. Qed.

Hint Resolve lively_create lively_append : lively.

Lemma lively_put_record p salt nonce durable x wr : lively (put_record (mkKeys (Some sk)) l p salt nonce durable x wr).
Proof. unfold put_record, with_writer, open_append, append_durable, sync. lively. Qed.

Lemma lively_items items rw : lively (rewrite_items rw items).
Proof. revert rw. induction items as [|[nonce x] items IH]; intros rw; cbn [rewrite_items]; unfold rewrite_append; lively. Qed.

Hint Resolve lively_items : lively.

Lemma lively_rewrite dest tmp salt items shred : lively (rewrite_log (mkKeys (Some sk)) l dest tmp salt items shred).
Proof.
  unfold rewrite_log, rewrite_begin, commit, commit_shredding, rewrite_finish, overwrite_after, sync, rewrite_drop. lively.
Qed.

End Alive.

(** ** Examples *)

Module LogDemo.

(** A transparent cipher with a checksum for a tag. *)
Definition tag_of (key nonce aad pt : bytes) : bytes := be_bytes 16 (from_be (key ++ nonce ++ aad ++ pt) + 1).

#[export] Instance toy_cipher : StateCipher := {
  xchacha_seal key nonce aad pt := Some (pt, tag_of key nonce aad pt);
  xchacha_open key nonce aad ct tag := if bool_decide (tag = tag_of key nonce aad ct) then Some ct else None;
}.

#[export] Instance toy_keys : Crypto := {
  blake3 d := d; blake3_derive c d := c ++ d;
  aead_seal k n a p := Some p; aead_open k n a c := Some c;
  hkdf salt ikm info := Some (take 32 (ikm ++ default [] salt ++ info));
  sharks_deal k s c n := []; sharks_recover k s := None;
}.

Lemma toy_correct : cipher_correct.
Proof.
  intros key nonce aad pt ct tag [= <- <-]. split_and!; [done|apply be_bytes_length|]. cbn. by rewrite bool_decide_eq_true_2.
Qed.
Lemma toy_total : cipher_total.
Proof. by eexists. Qed.
Lemma toy_hkdf : hkdf_total.
Proof. by eexists. Qed.

Definition sk : bytes := [7; 7].
Definition keys : StateKeys := mkKeys (Some sk).
Definition path : bytes := lit "log".
Definition tmp : bytes := lit "log.tmp".
Definition salt (b : Z) : bytes := replicate 16 b.
Definition nonce (b : Z) : bytes := replicate 24 b.
Definition w0 : World := mkWorld ∅ [].

(** Two records; the third is written in part when the process dies, the fourth
    is acknowledged, and the fifth is lost with the power. *)
Definition ops : list LogOp :=
  [LPut (salt 1) (nonce 1) [10; 11] true; LPut (salt 1) (nonce 2) [12] false; LPut (salt 1) (nonce 3) [13] true;
   LPut (salt 1) (nonce 4) [14] true; LPut (salt 1) (nonce 5) [15] false; LPower (fun _ => 0%nat)].
Definition crashing : World := mkWorld ∅ [Fine; Fine; Fine; Fine; Fine; Fine; Dies 20].

Definition records (w : World) (p : bytes) : outcome (result (option (list bytes * option Z)) StateError) :=
  read_log keys ChatOutbox (content <$> files w !! p).

End LogDemo.
Import LogDemo.

Lemma sealed_log_refines_witness :
  let '(s, rs) := log_run keys ChatOutbox path (crashing, None) ops in
  rs = [RDone; RDone; RDied; RDone; RDone; RDone] /\ records s.1 path = Ret (Ok (Some ([[10; 11]; [12]; [14]], None))) /\
  exists recs d, spec_run ([], 0%nat) ops rs (recs, d) /\ sublist (acked ops rs) recs.
Proof.
  pose proof (sealed_log_refines toy_correct toy_total toy_hkdf sk ChatOutbox path
    ops crashing) as H.
  assert (Forall op_ok ops) as Hok by (repeat constructor). specialize (H Hok eq_refl).
  change (mkKeys (Some sk)) with keys in H.
  destruct (log_run keys ChatOutbox path (crashing, None) ops) as [s rs] eqn:E.
  destruct H as (recs & d & H1 & H2 & _). vm_compute in E. injection E as <- <-. split_and!; [reflexivity|vm_compute; reflexivity|].
  exists recs, d. by split.
Defined.

(** The log of the examples, with two records. *)
Definition demo_log (p : bytes) (recs : list bytes) : World :=
  (log_run keys ChatOutbox p (w0, None) (map (fun r => LPut (salt 1) (nonce 9) r true) recs)).1.1.

Definition read_demo (w : World) (p : bytes) : option (result (option (list bytes * option Z)) StateError) :=
  match records w p with Ret r => Some r | Panic => None end.

Definition two : list bytes := [[1]; [2]].

Lemma demo_holds : exists d, holds sk ChatOutbox path two d (demo_log path two).
Proof.
  set (ops := map (fun r => LPut (salt 1) (nonce 9) r true) two).
  destruct (log_run_refines toy_correct toy_total toy_hkdf sk ChatOutbox path ops (w0, None) [] 0) as (recs & d & _ & Hj).
  - repeat constructor.
  - done.
  - destruct (journal_reads toy_correct sk ChatOutbox path _ recs d Hj) as [[torn E]|[-> [E|E]]]; vm_compute in E; [|done..].
    injection E as <- <-. exists d. by apply journal_holds in Hj.
Qed.

(** The process dies while the old log is overwritten. *)
Lemma log_rewrite_atomic_witness :
  let w := mkWorld (files (demo_log path two)) [Fine; Fine; Fine; Fine; Fine; Fine; Dies 30] in
  let '(w', r) := rewrite_log keys ChatOutbox path tmp (salt 2) [(nonce 3, [5])] (Some (replicate 200 9)) w in
  r = None /\ read_demo w' path = Some (Err (Corrupt 22)) /\ read_demo w' tmp = Some (Ok (Some ([[5]], None))) /\
  exists d, holds sk ChatOutbox path two d w' \/ holds sk ChatOutbox path [[5]] 1 w' \/ adoptable sk ChatOutbox path tmp [[5]] w'.
Proof.
  intros w. destruct demo_holds as [d Hd].
  pose proof (log_rewrite_atomic toy_correct toy_total toy_hkdf sk ChatOutbox path tmp ltac:(done) [(nonce 3, [5])] (salt 2)
    (Some (replicate 200 9)) two d w eq_refl ltac:(by repeat constructor)) as H.
  specialize (H Hd). assert (no_failure w) as Hn by (intros n Hin; cbn [fates w] in Hin; set_solver).
  specialize (H (fun _ => Hn)). change (mkKeys (Some sk)) with keys in H.
  destruct (rewrite_log keys ChatOutbox path tmp (salt 2) [(nonce 3, [5])] (Some (replicate 200 9)) w) as [w' r] eqn:E.
  assert (r = None) as -> by (vm_compute in E; by injection E as <- <-). split; [done|]. split_and!.
  - clear H. vm_compute in E. injection E as <-. vm_compute. reflexivity.
  - clear H. vm_compute in E. injection E as <-. vm_compute. reflexivity.
  - exists d. destruct H as [H|[H|[_ H]]]; [left; exact H|right; left; exact H|right; right; exact H].
Defined.

(** When overwriting the old log reports a failure, the staged copy is removed:
    the records are in neither file. *)
Theorem failed_shredding_loses_log :
  let w := mkWorld (files (demo_log path two)) [Fine; Fine; Fine; Fine; Fine; Fine; Fine; Fails 0] in
  let '(w', r) := rewrite_log keys ChatOutbox path tmp (salt 2) [(nonce 3, [2])] (Some (replicate 200 9)) w in
  read_demo w path = Some (Ok (Some (two, None))) /\ r = Some (Err Io) /\
  read_demo w' path = Some (Err (Corrupt 22)) /\ read_demo w' tmp = Some (Ok None).
Proof. vm_compute. by repeat split. Qed.

(** A damaged record that is followed by part of another: the reader reports
    the damage, the writer cuts the record away. *)
Definition damaged : World :=
  match files (demo_log path two) !! path with
  | Some f => mkWorld {[path := mkFile (take (length (content f) - 1) (content f) ++ [0; 1; 2]) 0]} []
  | None => w0
  end.

Theorem scan_cuts_reported_damage :
  read_demo damaged path = Some (Err Authentication) /\
  match open_append keys ChatOutbox path (salt 1) damaged with
  | (w', Some (Ok wr)) => lw_seq wr = 1 /\ read_demo w' path = Some (Ok (Some ([[1]], None)))
  | _ => False
  end.
Proof. vm_compute. by repeat split. Qed.

Lemma document_write_atomic_witness :
  let '(w', r) := write_document keys Contacts (lit "contacts.json") [1; 2; 3] (nonce 4) w0 in
  r = Some (Ok tt) /\ (read_document keys Contacts (lit "contacts.json") (power_loss (fun _ => 0%nat) w')).2 = Some (Ok [1; 2; 3]).
Proof.
  pose proof (document_write_atomic toy_correct toy_total toy_hkdf sk Contacts (lit "contacts.json") [1; 2; 3] (nonce 4) w0
    (fun _ => 0%nat) ltac:(vm_compute; discriminate) eq_refl I) as H.
  cbn zeta in H. change (mkKeys (Some sk)) with keys in H.
  destruct (write_document keys Contacts (lit "contacts.json") [1; 2; 3] (nonce 4) w0) as [w' r] eqn:E.
  assert (r = Some (Ok tt)) as -> by (vm_compute in E; by injection E as <- <-). by split.
Defined.

Definition demo_core : Core := mkCore (take 32 (take 32 (sk ++ LABEL_STATE_DOC_PREFIX ++ label_name ChatOutbox) ++ salt 1 ++ LABEL_STATE_LOG_FILE))
  ChatOutbox (salt 1).
Definition demo_record : bytes := match record_bytes demo_core 0 (nonce 2) [8] with Ok b => b | Err _ => [] end.

Lemma torn_tail_dropped_witness :
  read_log keys ChatOutbox (Some (header demo_core ++ demo_record ++ [0; 0; 0; 0; 0])) = Ret (Ok (Some ([[8]], Some 67))).
Proof.
  apply (torn_tail_dropped toy_correct sk ChatOutbox demo_core [[8]] demo_record (replicate 5 0)).
  - by split_and!.
  - apply written_one. split; [by vm_compute|]. exists (nonce 2). by split.
  - right; left. by exists 5%nat.
Defined.
