(* ===== verification/Journal.v ===== *)
(** * Journal: what a store asks of its record log

    The stores of the program (outboxes, queues, histories) keep a list of
    records in one log: they read it at the start, put records at its end and
    rewrite it now and then.  The class [Journal] is that interface, and
    [JournalLaws] what it promises through failures, deaths of the process and
    losses of power; the sealed log of [SealedLog] is an instance.  Stores are
    modelled and proved against the interface.  A coin is the point of the
    random source a call draws its salt and nonces from; nothing is assumed of
    two draws.  Reading a file does not fail. *)

From S2P Require Import Prelude Bytes Text Codec ErasureCode Dissolve Disk SealedState SealedLog SealedRewrite.

Class Journal := {
  JState : Type;
  (* put a record; with [durable] it is flushed before the call returns *)
  j_put (durable : bool) (x : bytes) (coin : nat) : Prog JState bool;
  (* replace the records *)
  j_rewrite (xs : list bytes) (coin : nat) : Prog JState bool;
  (* the records, and whether the log could not be read to its end *)
  j_load : Prog JState (list bytes * bool);
  (* move a log that cannot be read aside *)
  j_aside (secs : Z) : Prog JState unit;
  (* the process ends; power is lost *)
  j_stop : JState -> JState;
  j_power (keep : bytes -> nat) : JState -> JState;
  (* a log that was never written *)
  j_fresh : JState -> Prop;
  (* the process is not killed any more; operations may fail *)
  j_calm : JState -> Prop;
}.

(** [m] comes to a result in a calm state. *)
Definition ends `{Journal} {A} (m : Prog JState A) : Prop := forall s, j_calm s -> exists s' a, m s = (s', Some a) /\ j_calm s'.

Section Ends.
Context `{Journal}.

Lemma ends_ret {A} (a : A) : ends (ret a).
Proof. intros s Hs. by eexists _, _. Qed.

Lemma ends_bind {A B} (m : Prog JState A) (k : A -> Prog JState B) : ends m -> (forall a, ends (k a)) -> ends (bind m k).
Proof. intros Hm Hk s Hs. unfold bind. destruct (Hm s Hs) as (s' & a & -> & Hs'). by apply Hk. Qed.

End Ends.

(** [j_holds s recs d]: the log reads as [recs], of which the first [d] survive
    a loss of power. *)
Class JournalLaws `(J : Journal) := {
  j_holds : JState -> list bytes -> nat -> Prop;
  j_put_law s durable x coin recs d :
    j_holds s recs d ->
    runs (j_put durable x coin) s
      (fun ok s' => if (ok : bool) then j_holds s' (recs ++ [x]) (if durable then S (length recs) else d)
                    else j_holds s' recs d \/ j_holds s' (recs ++ [x]) d)
      (fun s' => j_holds s' recs d \/ j_holds s' (recs ++ [x]) d);
  j_rewrite_law s xs coin recs d :
    j_holds s recs d ->
    runs (j_rewrite xs coin) s
      (fun ok s' => if (ok : bool) then j_holds s' xs (length xs) else j_holds s' recs d)
      (fun s' => j_holds s' recs d \/ j_holds s' xs (length xs));
  j_load_law s recs d :
    j_holds s recs d ->
    runs j_load s (fun r s' => s' = s /\ (r = (recs, false) \/ (recs = [] /\ r.2 = true))) (fun _ => False);
  j_aside_law s secs d :
    j_holds s [] d -> runs (j_aside secs) s (fun _ s' => j_holds s' [] 0) (fun s' => j_holds s' [] 0);
  j_stop_law s recs d : j_holds s recs d -> j_holds (j_stop s) recs d;
  j_power_law s keep recs d :
    j_holds s recs d -> exists m, (d <= m)%nat /\ j_holds (j_power keep s) (take m recs) d;
  j_fresh_law s : j_fresh s -> j_holds s [] 0;
  j_durable_law s recs d : j_holds s recs d -> (d <= length recs)%nat;
  j_put_ends durable x coin : ends (j_put durable x coin);
  j_rewrite_ends xs coin : ends (j_rewrite xs coin);
  j_load_ends : ends j_load;
  j_aside_ends secs : ends (j_aside secs);
  j_stop_calm s : j_calm s -> j_calm (j_stop s);
  j_power_calm s keep : j_calm s -> j_calm (j_power keep s);
}.

Create HintDb ends.
#[export] Hint Resolve ends_ret j_put_ends j_rewrite_ends j_load_ends j_aside_ends : ends.

Ltac ends :=
  repeat first [progress eauto with ends nocore | apply ends_bind; [|intros ?]
               | match goal with |- ends (match ?x with _ => _ end) => destruct x end
               | match goal with |- ends (let _ := _ in _) => cbv zeta end ].

(** ** The sealed log is a journal *)

(** Randomness: the salt and the nonce drawn at each point. *)
Class Coins := { salt_at : nat -> bytes; nonce_at : nat -> bytes }.

Definition coins_sized `{Coins} : Prop := forall n, length (salt_at n) = 16%nat /\ length (nonce_at n) = NONCE_LEN.

(** [<file>.corrupt-<unix seconds>]. *)
Definition corrupt_aside (path : bytes) (secs : Z) : bytes := path ++ lit ".corrupt-" ++ show_dec secs.

(** [state_crypto::set_aside]. *)
Definition set_aside (path : bytes) (secs : Z) : Disk (result bytes StateError) :=
  let aside := corrupt_aside path secs in
  let* moved := rename path aside in ret (if (moved : bool) then Ok aside else Err Io).

Section Sealed.
Context `{Crypto} `{StateCipher} `{Coins} (keys : StateKeys) (l : Label) (path tmp : bytes).

Definition SealedState : Type := World * option LogWriter.

Definition sealed_put (durable : bool) (x : bytes) (coin : nat) : Prog SealedState bool := fun s =>
  match put_record keys l path (salt_at coin) (nonce_at coin) durable x s.2 s.1 with
  | (w, Some (wr, r)) => (w, wr, Some (is_ok r))
  | (w, None) => (w, None, None)
  end.

Definition sealed_rewrite (xs : list bytes) (coin : nat) : Prog SealedState bool := fun s =>
  match rewrite_log keys l path tmp (salt_at coin) (imap (fun i x => (nonce_at (coin + i), x)) xs) None s.1 with
  | (w, Some r) => (w, None, Some (is_ok r))
  | (w, None) => (w, None, None)
  end.

Definition sealed_load : Prog SealedState (list bytes * bool) := fun s =>
  match reader_open keys l (content <$> files s.1 !! path) with
  | Ret (Ok None) => (s, Some ([], false))
  | Ret (Ok (Some r)) =>
    let '(ps, _, e) := drain (S (length (lr_rest r))) r in (s, Some (ps, bool_decide (is_Some e)))
  | Ret (Err _) => (s, Some ([], true))
  | Panic => (s, None)
  end.

Definition sealed_aside (secs : Z) : Prog SealedState unit := fun s =>
  match set_aside path secs s.1 with
  | (w, Some _) => (w, None, Some tt)
  | (w, None) => (w, None, None)
  end.

Definition sealed_journal : Journal := {|
  JState := SealedState;
  j_put := sealed_put; j_rewrite := sealed_rewrite; j_load := sealed_load; j_aside := sealed_aside;
  j_stop s := (s.1, None); j_power keep s := (power_loss keep s.1, None);
  j_fresh s := files s.1 !! path = None /\ s.2 = None;
  j_calm s := no_death s.1;
|}.

End Sealed.

Section Laws.
Context `{Crypto} `{StateCipher} `{Coins} (Hc : cipher_correct) (Ht : cipher_total) (Hk : hkdf_total) (Hco : coins_sized).
Context (sk : bytes) (l : Label) (path tmp : bytes) (Hne : tmp <> path).

Lemma imap_snd (xs : list bytes) coin : (imap (fun i x => (nonce_at (coin + i), x)) xs).*2 = xs.
Proof. revert coin. induction xs as [|x xs IH]; intros coin; [done|]. cbn. f_equal. rewrite <- (IH (S coin)) at 2. f_equal. apply imap_ext. intros. cbn. by rewrite Nat.add_succ_r. Qed.

Lemma imap_nonces (xs : list bytes) coin : Forall (fun it => length it.1 = NONCE_LEN) (imap (fun i x => (nonce_at (coin + i), x)) xs).
Proof. apply Forall_lookup_2. intros i [n x] E. rewrite list_lookup_imap in E. destruct (xs !! i); [|done]. injection E as <- <-. apply Hco. Qed.

Lemma aside_ne secs : path <> corrupt_aside path secs.
Proof.
  unfold corrupt_aside. intros E%(f_equal length). rewrite !length_app in E. change (length (lit ".corrupt-")) with 9%nat in E. lia.
Qed.

Program Definition sealed_laws : JournalLaws (sealed_journal (mkKeys (Some sk)) l path tmp) := {|
  j_holds s recs d := journal sk l path s recs d;
|}.
Next Obligation.
  intros [w wr] durable x coin recs d Hj. destruct (Hco coin) as [Hs Hn]. cbn [j_put sealed_journal].
  pose proof (runs_put Hc Ht Hk sk l path (salt_at coin) (nonce_at coin) durable x wr recs d w Hs Hn Hj) as Hr. unfold runs in *.
  unfold sealed_put. cbn [fst snd]. destruct (put_record _ _ _ _ _ _ _ _ _) as [w' [[wr' [[]|e]]|]]; cbn [is_ok].
  - apply Hr.
  - destruct Hr as [[-> Hr] _]. exact Hr.
  - destruct Hr as [Hr _]. exact Hr.
Qed.
Next Obligation.
  intros [w wr] xs coin recs d Hj%journal_holds. cbn [j_rewrite sealed_journal]. destruct (Hco coin) as [Hs _].
  pose proof (runs_rewrite Hc Ht Hk sk l path tmp Hne _ _ None recs d w Hs (imap_nonces xs coin) Hj ltac:(done)) as Hr.
  rewrite imap_snd in Hr. unfold runs in *. unfold sealed_rewrite. cbn [fst].
  destruct (rewrite_log _ _ _ _ _ _ _ _) as [w' [[[]|e]|]]; cbn [is_ok]; [exact Hr|exact Hr|].
  destruct Hr as [Hr|[Hr|[? _]]]; [by left|by right|done].
Qed.
Next Obligation.
  intros s recs d Hj. cbn [j_load sealed_journal]. unfold runs, sealed_load.
  pose proof (journal_reads Hc sk l path s recs d Hj) as Hr. cbv zeta in Hr. unfold read_log in Hr.
  destruct (reader_open _ _ _) as [[[r|]|e]|]; cbn [outcome_bind] in Hr.
  - destruct (drain _ r) as [[ps r'] [e|]]; destruct Hr as [[torn Hr]|[-> [Hr|Hr]]]; simplify_eq; auto.
  - destruct Hr as [[torn Hr]|[-> [Hr|Hr]]]; simplify_eq; auto.
  - destruct Hr as [[torn Hr]|[-> [Hr|Hr]]]; simplify_eq; auto.
  - by destruct Hr as [[torn Hr]|[-> [Hr|Hr]]].
Qed.
Next Obligation.
  intros [w wr] secs d Hj%journal_holds. cbn [j_aside sealed_journal fst] in *.
  assert (runs (set_aside path secs) w (fun _ w' => holds sk l path [] 0 w') (fun w' => holds sk l path [] 0 w')) as Hr.
  { unfold set_aside. apply runs_bind. destruct (files w !! path) as [f|] eqn:Ef.
    - assert (holds sk l path [] 0 w) as Hz.
      { unfold holds in *. rewrite Ef in *. pose proof (log_file_durable _ _ _ _ _ Hj). cbn in *. by replace 0%nat with d by lia. }
      eapply (runs_rename _ _ f _ _ _ (aside_ne secs) Ef).
      + intros w' _ Hp _. assert (holds sk l path [] 0 w') by (unfold holds; by rewrite Hp). split; [by apply runs_ret|done].
      + intros w' _ Hp _. assert (holds sk l path [] 0 w') by (eapply holds_same; [|exact Hz]; unfold at_file in Hp; congruence). split; [by apply runs_ret|done].
    - unfold runs, rename, bind, fate, get, ret, die. destruct (fates w) as [|[|n|[|n]] fs]; cbn; rewrite ?Ef; cbn; unfold holds; cbn; rewrite ?Ef; done. }
  unfold runs in *. unfold sealed_aside. cbn [fst]. destruct (set_aside path secs w) as [w' [r|]]; exact Hr.
Qed.
Next Obligation. intros s recs d Hj%journal_holds. exact Hj. Qed.
Next Obligation.
  intros [w wr] keep recs d Hj%journal_holds. cbn [j_power sealed_journal fst] in *. unfold journal, holds in *. cbn [fst snd].
  rewrite power_loss_lookup. destruct (files w !! path) as [f|]; cbn.
  - apply (log_file_loss sk l keep path f recs d Hj).
  - destruct Hj as [-> ->]. exists 0%nat. by split.
Qed.
Next Obligation. intros [w wr] [Hf Hw]. cbn in *. subst wr. unfold journal, holds. cbn. by rewrite Hf. Qed.
Next Obligation.
  intros s recs d Hj%journal_holds. unfold holds in Hj. destruct (files s.1 !! path); [by eapply log_file_durable|]. by destruct Hj as [-> ->].
Qed.
Next Obligation.
  intros durable x coin [w wr] Hn. cbn [j_put j_calm sealed_journal fst] in *. unfold sealed_put. cbn [fst snd].
  destruct (lively_put_record Hk sk l path (salt_at coin) (nonce_at coin) durable x wr w Hn) as (w' & [wr' r] & -> & Hn').
  by eexists _, _.
Qed.
Next Obligation.
  intros xs coin [w wr] Hn. cbn [j_rewrite j_calm sealed_journal fst] in *. unfold sealed_rewrite. cbn [fst].
  destruct (lively_rewrite Hk sk l path tmp (salt_at coin) (imap (fun i x => (nonce_at (coin + i), x)) xs) None w Hn) as (w' & r & -> & Hn').
  by eexists _, _.
Qed.
Next Obligation.
  intros s Hn. cbn [j_load j_calm sealed_journal] in *. unfold sealed_load. destruct (reader_returns Hk sk l (content <$> files s.1 !! path)) as [[[r|]|e] ->].
  - destruct (drain _ r) as [[ps r'] e]. by eexists _, _.
  - by eexists _, _.
  - by eexists _, _.
Qed.
Next Obligation.
  intros secs [w wr] Hn. cbn [j_aside j_calm sealed_journal fst] in *. unfold sealed_aside. cbn [fst].
  assert (lively (set_aside path secs)) as Hl by (unfold set_aside; lively).
  destruct (Hl w Hn) as (w' & r & -> & Hn'). by eexists _, _.
Qed.
Next Obligation. done. Qed.
Next Obligation. done. Qed.

End Laws.
