(* ===== verification/ChatOutbox.v ===== *)
(** * ChatOutbox: messages that wait to be delivered

    Models [chat/outbox.rs]: the list of pending messages and read receipts,
    its bounds, the sealed envelopes kept for resending, and the log the list
    is folded from at the start.  The log is any [Journal]; the mutex is not
    modelled, each operation runs alone.  The fields that are not written
    (attempts, errors, times of tries) are kept in memory as in the source. *)

From S2P Require Import Prelude Bytes Text Codec ErasureCode Dissolve Disk SealedState SealedLog SealedRewrite Journal.

Definition REC_PUT : Z := 1.
Definition REC_DONE : Z := 2.
Definition REC_PUT_READ : Z := 3.
Definition REC_SEALED : Z := 4.
Definition REC_UNSEAL : Z := 5.

(** [proto::MAX_TEXT_BYTES] and [proto::MAX_FRAME_BODY]. *)
Definition MAX_TEXT : Z := 4096.
Definition SEALED_BUDGET : Z := 2 * 1024 * 1024.
Definition MAX_SEALED : Z := 1 + 1024 + 4 + (16384 + 16).

Inductive OutKind := OText | ORead.
#[export] Instance OutKind_eq_dec : EqDecision OutKind.
Proof. solve_decision. Defined.

Record OutEntry := mkEntry {
  e_id : bytes; e_kind : OutKind; e_peer : bytes; e_seq : Z; e_sent_ms : Z; e_created_ms : Z; e_text : str;
  e_attempts : Z; e_sealed : option bytes; e_sending : bool; e_last_error : option str; e_last_try_ms : Z;
}.

(** An entry as it is read from the log. *)
Definition read_entry (id : bytes) (k : OutKind) (peer : bytes) (seq sent created : Z) (text : str) : OutEntry :=
  mkEntry id k peer seq sent created text 0 None false None 0.

Definition set_seal (e : OutEntry) (s : option bytes) : OutEntry :=
  mkEntry (e_id e) (e_kind e) (e_peer e) (e_seq e) (e_sent_ms e) (e_created_ms e) (e_text e)
    (e_attempts e) s (e_sending e) (e_last_error e) (e_last_try_ms e).

Definition new_entry (id peer : bytes) (seq sent : Z) (text : str) : OutEntry :=
  mkEntry id OText peer seq sent sent text 0 None false None 0.
Definition new_receipt (id peer : bytes) (up_to now : Z) : OutEntry := mkEntry id ORead peer up_to now now [] 0 None false None 0.

Definition entry_record (e : OutEntry) : bytes :=
  match e_kind e with
  | ORead => [REC_PUT_READ] ++ e_id e ++ e_peer e ++ be_bytes 8 (e_seq e) ++ be_bytes 8 (e_sent_ms e) ++ be_bytes 8 (e_created_ms e)
  | OText => [REC_PUT] ++ e_id e ++ e_peer e ++ be_bytes 8 (e_seq e) ++ be_bytes 8 (e_sent_ms e) ++ be_bytes 8 (e_created_ms e)
             ++ be_bytes 2 (str_len (e_text e) mod 65536) ++ as_bytes (e_text e)
  end.

Definition parse_put_read (b : bytes) : option OutEntry :=
  '(k, b) ← rd_u8 b;
  if negb (k =? REC_PUT_READ) then None
  else
    '(id, b) ← rd 16 b; '(peer, b) ← rd 32 b;
    '(seq, b) ← rd_int 8 b; '(sent, b) ← rd_int 8 b; '(created, b) ← rd_int 8 b;
    if negb (rd_done b) || (seq =? 0) then None else Some (read_entry id ORead peer seq sent created []).

Definition parse_put (b : bytes) : option OutEntry :=
  '(k, b) ← rd_u8 b;
  if negb (k =? REC_PUT) then None
  else
    '(id, b) ← rd 16 b; '(peer, b) ← rd 32 b;
    '(seq, b) ← rd_int 8 b; '(sent, b) ← rd_int 8 b; '(created, b) ← rd_int 8 b;
    '(n, b) ← rd_int 2 b;
    if (n =? 0) || (MAX_TEXT <? n) then None
    else
      '(text, b) ← rd_text (Z.to_nat n) b;
      if negb (rd_done b) then None else Some (read_entry id OText peer seq sent created text).

(** ** The list and the log *)

Definition has_id (id : bytes) (e : OutEntry) : bool := bool_decide (e_id e = id).

(** [position] and [remove] of the first entry with this id. *)
Fixpoint take_out (id : bytes) (es : list OutEntry) : option (OutEntry * list OutEntry) :=
  match es with
  | [] => None
  | e :: es =>
    if has_id id e then Some (e, es)
    else match take_out id es with Some (x, es') => Some (x, e :: es') | None => None end
  end.

(** [iter_mut().find] of the first entry with this id. *)
Fixpoint update_id (id : bytes) (f : OutEntry -> OutEntry) (es : list OutEntry) : list OutEntry :=
  match es with
  | [] => []
  | e :: es => if has_id id e then f e :: es else e :: update_id id f es
  end.

Definition find_id (id : bytes) (es : list OutEntry) : option OutEntry := List.find (has_id id) es.

Definition seal_len (e : OutEntry) : Z := match e_sealed e with Some s => zlen s | None => 0 end.
Definition is_sealed (e : OutEntry) : Z := match e_sealed e with Some _ => 1 | None => 0 end.

(** One record of the log, folded into the entries and the count of records
    that no longer matter. *)
Definition replay (st : list OutEntry * Z) (rec : bytes) : list OutEntry * Z :=
  let '(es, garbage) := st in
  let id := take 16 (drop 1 rec) in
  let n := zlen rec in
  match rec with
  | [] => (es, garbage + 1)
  | k :: _ =>
    if k =? REC_PUT then match parse_put rec with Some e => (es ++ [e], garbage) | None => (es, garbage + 1) end
    else if k =? REC_PUT_READ then match parse_put_read rec with Some e => (es ++ [e], garbage) | None => (es, garbage + 1) end
    else if (k =? REC_DONE) && (n =? 17) then
      match take_out id es with
      | Some (e, es') => (es', garbage + is_sealed e + 2)
      | None => (es, garbage + 1)
      end
    else if (k =? REC_SEALED) && (17 <? n) && (n <=? 17 + MAX_SEALED) then
      match find_id id es with
      | Some e => (update_id id (fun e => set_seal e (Some (drop 17 rec))) es, garbage + is_sealed e)
      | None => (es, garbage + 1)
      end
    else if (k =? REC_UNSEAL) && (n =? 17) then (update_id id (fun e => set_seal e None) es, garbage + 2)
    else (es, garbage + 1)
  end.

Record OutSettings := mkOutSettings {
  outbox_max : Z; outbox_max_per_contact : Z; outbox_bytes : Z; outbox_expiry_days : Z; receipt_expiry_ms : Z; out_defer_flush : bool;
}.

Record Outbox := mkOutbox { entries : list OutEntry; text_bytes : Z; sealed_bytes : Z; garbage : Z }.

Inductive StoreError := OutboxFull | StoreState.

Definition done_record (id : bytes) : bytes := [REC_DONE] ++ id.
Definition unseal_record (id : bytes) : bytes := [REC_UNSEAL] ++ id.
Definition sealed_record (id s : bytes) : bytes := [REC_SEALED] ++ id ++ s.

(** The records of a compacted log. *)
Definition entry_records (e : OutEntry) : list bytes :=
  entry_record e :: match e_sealed e with Some s => [sealed_record (e_id e) s] | None => [] end.

Definition sum_z {A} (f : A -> Z) (l : list A) : Z := fold_right (fun x s => f x + s) 0 l.

Definition is_text (e : OutEntry) : bool := bool_decide (e_kind e = OText).
Definition count {A} (f : A -> bool) (l : list A) : Z := zlen (List.filter f l).

Section Outbox.
Context `{Journal} (cfg : OutSettings).

Definition compact_if_needed (ob : Outbox) (force : bool) (coin : nat) : Prog JState Outbox :=
  let limit := zlen (entries ob) * 2 + 1024 in
  if (limit <? garbage ob) || (force && (0 <? garbage ob)) then
    let* ok := j_rewrite (flat_map entry_records (entries ob)) coin in
    ret (if (ok : bool) then mkOutbox (entries ob) (text_bytes ob) (sealed_bytes ob) 0 else ob)
  else ret ob.

Definition expired_text (now expiry : Z) (e : OutEntry) : bool := is_text e && (expiry <? sat_sub now (e_created_ms e)).
Definition live_receipt (now : Z) (e : OutEntry) : bool :=
  is_text e || (sat_sub now (e_created_ms e) <=? receipt_expiry_ms cfg).

(** The sealed envelopes beyond the budget are dropped. *)
Fixpoint within_budget (used : Z) (es : list OutEntry) : list OutEntry * Z :=
  match es with
  | [] => ([], used)
  | e :: es =>
    match e_sealed e with
    | None => let '(es', u) := within_budget used es in (e :: es', u)
    | Some s =>
      if SEALED_BUDGET <? used + zlen s then let '(es', u) := within_budget used es in (set_seal e None :: es', u)
      else let '(es', u) := within_budget (used + zlen s) es in (e :: es', u)
    end
  end.

Definition outbox_open (now secs : Z) (coin : nat) : Prog JState (Outbox * list OutEntry) :=
  let* r := j_load in
  let '(recs, damaged) := r in
  let '(es, g) := fold_left replay recs ([], 0) in
  let* _ := (if (damaged : bool) then j_aside secs else ret tt) in
  let es := if damaged then [] else es in
  let expiry := sat_mul u64_max (outbox_expiry_days cfg) 86400000 in
  let old := if 0 <? expiry then List.filter (expired_text now expiry) es else [] in
  let es := if 0 <? expiry then List.filter (fun e => negb (expired_text now expiry e)) es else es in
  let kept := List.filter (live_receipt now) es in
  let g := g + (zlen es - zlen kept) in
  let '(es', used) := within_budget 0 kept in
  let ob := mkOutbox es' (sum_z (fun e => str_len (e_text e)) kept) used (g + zlen old) in
  let* ob := compact_if_needed ob true coin in
  ret (ob, old).

Definition push (ob : Outbox) (e : OutEntry) (coin : nat) : Prog JState (Outbox * result unit StoreError) :=
  if outbox_max cfg <=? count is_text (entries ob) then ret (ob, Err OutboxFull)
  else if outbox_max_per_contact cfg <=? count (fun x => is_text x && bool_decide (e_peer x = e_peer e)) (entries ob) then
    ret (ob, Err OutboxFull)
  else if outbox_bytes cfg <? text_bytes ob + str_len (e_text e) then ret (ob, Err OutboxFull)
  else
    let* ok := j_put (negb (out_defer_flush cfg)) (entry_record e) coin in
    ret (if (ok : bool) then
           (mkOutbox (entries ob ++ [e]) (text_bytes ob + str_len (e_text e)) (sealed_bytes ob) (garbage ob), Ok tt)
         else (ob, Err StoreState)).

Definition remove (ob : Outbox) (id : bytes) (coin : nat) : Prog JState (Outbox * option OutEntry) :=
  match take_out id (entries ob) with
  | None => ret (ob, None)
  | Some (e, es) =>
    let* _ := j_put false (done_record id) coin in
    let ob := mkOutbox es (sat_sub (text_bytes ob) (str_len (e_text e)))
                (match e_sealed e with Some s => sat_sub (sealed_bytes ob) (zlen s) | None => sealed_bytes ob end)
                (garbage ob + is_sealed e + 2) in
    let* ob := compact_if_needed ob false (S coin) in
    ret (ob, Some e)
  end.

Fixpoint remove_all (ob : Outbox) (ids : list bytes) (coin : nat) : Prog JState (Outbox * list OutEntry) :=
  match ids with
  | [] => ret (ob, [])
  | id :: ids =>
    let* r := remove ob id coin in
    let* r' := remove_all r.1 ids (S coin) in
    ret (r'.1, match r.2 with Some e => e :: r'.2 | None => r'.2 end)
  end.

Definition push_receipt (ob : Outbox) (e : OutEntry) (coin : nat) : Prog JState (Outbox * result unit StoreError) :=
  let old := map e_id (List.filter (fun x => negb (is_text x) && bool_decide (e_peer x = e_peer e)) (entries ob)) in
  let* r := remove_all ob old coin in
  let ob := r.1 in
  let* ok := j_put (negb (out_defer_flush cfg)) (entry_record e) coin in
  ret (if (ok : bool) then (mkOutbox (entries ob ++ [e]) (text_bytes ob) (sealed_bytes ob) (garbage ob), Ok tt)
       else (ob, Err StoreState)).

Definition set_sealed (ob : Outbox) (id s : bytes) (coin : nat) : Prog JState (Outbox * result unit StoreError) :=
  if (zlen s =? 0) || (MAX_SEALED <? zlen s) then ret (ob, Err OutboxFull)
  else
    match find_id id (entries ob) with
    | None => ret (ob, Ok tt)
    | Some e =>
      let old := seal_len e in
      if SEALED_BUDGET <? sealed_bytes ob - old + zlen s then ret (ob, Err OutboxFull)
      else
        let* ok := j_put (negb (out_defer_flush cfg)) (sealed_record id s) coin in
        ret (if (ok : bool) then
               (mkOutbox (update_id id (fun e => set_seal e (Some s)) (entries ob)) (text_bytes ob) (sealed_bytes ob - old + zlen s)
                  (garbage ob + (if 0 <? old then 1 else 0)), Ok tt)
             else (ob, Err StoreState))
    end.

Definition clear_sealed (ob : Outbox) (id : bytes) (coin : nat) : Prog JState Outbox :=
  match find_id id (entries ob) with
  | Some e =>
    match e_sealed e with
    | Some s =>
      let* _ := j_put false (unseal_record id) coin in
      ret (mkOutbox (update_id id (fun e => set_seal e None) (entries ob)) (text_bytes ob) (sat_sub (sealed_bytes ob) (zlen s))
             (garbage ob + 2))
    | None => ret ob
    end
  | None => ret ob
  end.

(** Change the in-memory part of an entry. *)
Definition update (ob : Outbox) (id : bytes) (f : OutEntry -> OutEntry) : Outbox :=
  match find_id id (entries ob) with
  | None => ob
  | Some e =>
    mkOutbox (update_id id f (entries ob)) (text_bytes ob) (sat_sub (sealed_bytes ob + seal_len (f e)) (seal_len e)) (garbage ob)
  end.

Definition pending_for (ob : Outbox) (peer : bytes) : list OutEntry :=
  List.filter (fun e => bool_decide (e_peer e = peer)) (entries ob).

Definition remove_peer (ob : Outbox) (peer : bytes) (coin : nat) : Prog JState (Outbox * list OutEntry) :=
  remove_all ob (map e_id (pending_for ob peer)) coin.

Definition get_entry (ob : Outbox) (id : bytes) : option OutEntry := find_id id (entries ob).
Definition out_len (ob : Outbox) : Z := zlen (entries ob).
Definition out_is_empty (ob : Outbox) : bool := out_len ob =? 0.
Definition text_len (ob : Outbox) : Z := count is_text (entries ob).
Definition first_for (ob : Outbox) (peer : bytes) : option OutEntry :=
  List.find (fun e => bool_decide (e_peer e = peer)) (entries ob).
Definition receipt_for (ob : Outbox) (peer : bytes) : option OutEntry :=
  List.find (fun e => negb (is_text e) && bool_decide (e_peer e = peer)) (entries ob).
Definition count_for (ob : Outbox) (peer : bytes) : Z :=
  count (fun e => is_text e && bool_decide (e_peer e = peer)) (entries ob).
Definition peers (ob : Outbox) : list bytes :=
  fold_left (fun out e => if bool_decide (e_peer e ∈ out) then out else out ++ [e_peer e]) (entries ob) [].
Definition has_sealed_room (ob : Outbox) : bool := sealed_bytes ob + MAX_SEALED <=? SEALED_BUDGET.

End Outbox.

(** ** What the log says *)

(** The written part of an entry, without its sealed envelope. *)
Definition plain (e : OutEntry) : OutEntry :=
  read_entry (e_id e) (e_kind e) (e_peer e) (e_seq e) (e_sent_ms e) (e_created_ms e) (e_text e).

Definition entry_wf (e : OutEntry) : Prop :=
  array 16 (e_id e) /\ array 32 (e_peer e) /\ in_u64 (e_seq e) /\ in_u64 (e_sent_ms e) /\ in_u64 (e_created_ms e) /\
  match e_kind e with
  | OText => text_ok (e_text e) /\ 0 < str_len (e_text e) <= MAX_TEXT
  | ORead => e_text e = [] /\ e_seq e <> 0
  end.

Definition folded (recs : list bytes) : list OutEntry := (fold_left replay recs ([], 0)).1.
Definition logged (recs : list bytes) : list OutEntry := plain <$> folded recs.

Lemma u64_range v : in_u64 v -> 0 <= v < 256 ^ Z.of_nat 8.
Proof. change (256 ^ Z.of_nat 8) with 18446744073709551616. ulia. Qed.

Lemma parse_put_entry e : entry_wf e -> e_kind e = OText -> parse_put (entry_record e) = Some (plain e).
Proof.
  intros (Hid & Hp & Hs & Ht & Hc & Hk) Ek. unfold entry_record. rewrite Ek in *. destruct Hk as [Htx Hl]. unfold MAX_TEXT in Hl.
  assert (0 <= str_len (e_text e) < 65536) as Hr by lia.
  unfold parse_put, plain. cbn [app rd_u8 mbind option_bind]. change (negb (REC_PUT =? REC_PUT)) with false. cbv iota.
  rewrite (rd_app 16) by apply Hid. cbn [mbind option_bind]. rewrite (rd_app 32) by apply Hp. cbn [mbind option_bind].
  do 3 (rewrite rd_int_app by (by apply u64_range); cbn [mbind option_bind]).
  rewrite Z.mod_small, rd_u16_app by (unfold in_uint, u16_max; lia). cbn [mbind option_bind].
  rewrite (proj2 (Z.eqb_neq _ _)), (proj2 (Z.ltb_ge _ _)) by (unfold MAX_TEXT; lia). cbn [orb].
  rewrite <- (app_nil_r (as_bytes (e_text e))), (rd_text_app _ (e_text e)) by (done || (unfold zlen; pose proof (as_bytes_length (e_text e)); unfold zlen in *; lia)).
  cbn [mbind option_bind]. change (rd_done []) with true. cbn [negb]. by rewrite Ek.
Qed.

Lemma parse_read_entry e : entry_wf e -> e_kind e = ORead -> parse_put_read (entry_record e) = Some (plain e).
Proof.
  intros (Hid & Hp & Hs & Ht & Hc & Hk) Ek. unfold entry_record. rewrite Ek in *. destruct Hk as [Htx Hl].
  unfold parse_put_read, plain. cbn [app rd_u8 mbind option_bind]. change (negb (REC_PUT_READ =? REC_PUT_READ)) with false. cbv iota.
  rewrite (rd_app 16) by apply Hid. cbn [mbind option_bind]. rewrite (rd_app 32) by apply Hp. cbn [mbind option_bind].
  do 2 (rewrite rd_int_app by (by apply u64_range); cbn [mbind option_bind]).
  rewrite <- (app_nil_r (be_bytes 8 (e_created_ms e))), rd_int_app by (by apply u64_range). cbn [mbind option_bind].
  change (rd_done []) with true. rewrite (proj2 (Z.eqb_neq _ _)) by done. cbn [negb orb]. by rewrite Ek, Htx.
Qed.

Lemma replay_put es g e : entry_wf e -> replay (es, g) (entry_record e) = (es ++ [plain e], g).
Proof.
  intros Hwf. destruct (e_kind e) eqn:Ek.
  - pose proof (parse_put_entry e Hwf Ek) as Hp. unfold replay. unfold entry_record in *. rewrite Ek in *. cbn [app] in *.
    change (REC_PUT =? REC_PUT) with true. cbv iota. by rewrite Hp.
  - pose proof (parse_read_entry e Hwf Ek) as Hp. unfold replay. unfold entry_record in *. rewrite Ek in *. cbn [app] in *.
    change (REC_PUT_READ =? REC_PUT) with false. change (REC_PUT_READ =? REC_PUT_READ) with true. cbv iota. by rewrite Hp.
Qed.

Lemma has_id_plain id e : has_id id (plain e) = has_id id e.
Proof. done. Qed.

Lemma plain_idem e : plain (plain e) = plain e.
Proof. done. Qed.

Lemma plain_update id f es : (forall e, plain (f e) = plain e) -> plain <$> update_id id f es = plain <$> es.
Proof.
  intros Hf. induction es as [|e es IH]; [done|]. cbn [update_id]. destruct (has_id id e); cbn; [by rewrite Hf|by rewrite IH].
Qed.

Lemma plain_seal e s : plain (set_seal e s) = plain e.
Proof. done. Qed.

Lemma take_out_plain id es :
  take_out id (plain <$> es) = match take_out id es with Some (e, es') => Some (plain e, plain <$> es') | None => None end.
Proof.
  induction es as [|e es IH]; [done|]. cbn. destruct (has_id id e) eqn:E; [by rewrite has_id_plain, E|]. rewrite has_id_plain, E.
  change (list_fmap OutEntry OutEntry plain es) with (plain <$> es). rewrite IH. by destruct (take_out id es) as [[x es']|].
Qed.

(** The first entry with an id can be taken out of a longer list as well. *)
Lemma take_out_sublist id l1 l2 e l1' :
  sublist l1 l2 -> take_out id l1 = Some (e, l1') -> exists x l2', take_out id l2 = Some (x, l2') /\ sublist l1' l2'.
Proof.
  intros Hs. revert e l1'. induction Hs as [|y l1 l2 Hs IH|y l1 l2 Hs IH]; intros e l1' He; cbn [take_out] in *; [done|..].
  - destruct (has_id id y); [injection He as <- <-; eauto|]. destruct (take_out id l1) as [[x l]|] eqn:E; [|done].
    injection He as <- <-. destruct (IH x l eq_refl) as (x2 & l2' & -> & Hs'). do 2 eexists. split; [done|]. by apply sublist_skip.
  - destruct (has_id id y).
    + do 2 eexists. split; [done|]. etransitivity; [|exact Hs]. clear -He. revert e l1' He. induction l1 as [|z l1 IH]; [done|].
      cbn [take_out]. intros e l1' He. destruct (has_id id z); [injection He as <- <-; by apply sublist_cons|].
      destruct (take_out id l1) as [[x l]|]; [|done]. injection He as <- <-. apply sublist_skip. by eapply IH.
    + destruct (IH e l1' He) as (x2 & l2' & -> & Hs'). do 2 eexists. split; [done|]. by apply sublist_cons.
Qed.

Lemma take_out_sub id l e l' : take_out id l = Some (e, l') -> sublist l' l.
Proof.
  revert e l'. induction l as [|z l IH]; [done|]. cbn [take_out]. intros e l' He.
  destruct (has_id id z); [injection He as <- <-; by apply sublist_cons|].
  destruct (take_out id l) as [[x k]|]; [|done]. injection He as <- <-. apply sublist_skip. by eapply IH.
Qed.

Lemma replay_done es g id :
  length id = 16%nat ->
  (replay (es, g) (done_record id)).1 = match take_out id es with Some (_, es') => es' | None => es end.
Proof.
  intros Hl. unfold replay, done_record. cbn [app]. change (REC_DONE =? REC_PUT) with false. change (REC_DONE =? REC_PUT_READ) with false.
  change (REC_DONE =? REC_DONE) with true. cbv iota. cbn [andb drop]. unfold zlen. cbn [length]. rewrite Hl. change (Z.of_nat 17 =? 17) with true.
  rewrite (take_ge id) by (rewrite Hl; lia). cbv iota. by destruct (take_out id es) as [[e es']|].
Qed.

Lemma replay_sealed es g id s :
  plain <$> (replay (es, g) (sealed_record id s)).1 = plain <$> es.
Proof.
  unfold replay, sealed_record. cbn [app]. change (REC_SEALED =? REC_PUT) with false. change (REC_SEALED =? REC_PUT_READ) with false.
  change (REC_SEALED =? REC_DONE) with false. change (REC_SEALED =? REC_SEALED) with true. change (REC_SEALED =? REC_UNSEAL) with false.
  cbn [andb]. repeat (case_match; cbn [fst]); rewrite ?plain_update; done.
Qed.

Lemma replay_unseal es g id : plain <$> (replay (es, g) (unseal_record id)).1 = plain <$> es.
Proof.
  unfold replay, unseal_record. cbn [app]. change (REC_UNSEAL =? REC_PUT) with false. change (REC_UNSEAL =? REC_PUT_READ) with false.
  change (REC_UNSEAL =? REC_DONE) with false. change (REC_UNSEAL =? REC_SEALED) with false. change (REC_UNSEAL =? REC_UNSEAL) with true.
  cbn [andb]. case_match; cbn [fst]; rewrite ?plain_update; done.
Qed.

Lemma folded_snoc recs x : folded (recs ++ [x]) = (replay (fold_left replay recs ([], 0)) x).1.
Proof. unfold folded. by rewrite fold_left_app. Qed.

Lemma logged_put recs e : entry_wf e -> logged (recs ++ [entry_record e]) = logged recs ++ [plain e].
Proof.
  intros Hwf. unfold logged. rewrite folded_snoc. unfold folded. destruct (fold_left _ _ _) as [es g]. rewrite replay_put by done. cbn [fst].
  rewrite fmap_app. done.
Qed.

Lemma logged_done recs id :
  length id = 16%nat ->
  logged (recs ++ [done_record id]) = match take_out id (logged recs) with Some (_, l) => l | None => logged recs end.
Proof.
  intros Hl. unfold logged. rewrite folded_snoc. unfold folded. destruct (fold_left _ _ _) as [es g]. rewrite replay_done by done. cbn [fst].
  rewrite take_out_plain. by destruct (take_out id es) as [[x es']|].
Qed.

Lemma logged_sealed recs id s : logged (recs ++ [sealed_record id s]) = logged recs.
Proof. unfold logged. rewrite folded_snoc. unfold folded. destruct (fold_left _ _ _) as [es g]. apply replay_sealed. Qed.

Lemma logged_unseal recs id : logged (recs ++ [unseal_record id]) = logged recs.
Proof. unfold logged. rewrite folded_snoc. unfold folded. destruct (fold_left _ _ _) as [es g]. apply replay_unseal. Qed.

(** Any part of a compacted log holds the first entries, all of it every one. *)
Lemma compacted_prefix es acc g m :
  Forall entry_wf es ->
  exists k, plain <$> (fold_left replay (take m (flat_map entry_records es)) (acc, g)).1 = (plain <$> acc) ++ take k (plain <$> es) /\
    ((length (flat_map entry_records es) <= m)%nat -> (length es <= k)%nat).
Proof.
  intros Hwf. revert acc g m. induction Hwf as [|e es He Hwf IH]; intros acc g m.
  - exists 0%nat. cbn. rewrite take_nil, app_nil_r. split; [done|lia].
  - destruct m as [|m]; [exists 0%nat; cbn [take fold_left fst]; rewrite app_nil_r; split; [done|cbn; lia]|].
    cbn [flat_map]. unfold entry_records at 1 3. destruct (e_sealed e) as [s|]; cbn [app take fold_left length].
    + rewrite replay_put by done. destruct m as [|m].
      * exists 1%nat. cbn [take fold_left fst]. rewrite fmap_app. cbn. rewrite take_0. split; [done|lia].
      * cbn [take fold_left]. destruct (replay (acc ++ [plain e], g) (sealed_record (e_id e) s)) as [acc' g'] eqn:E.
        destruct (IH acc' g' m) as (k & Ek & Hk). exists (S k). rewrite Ek. pose proof (replay_sealed (acc ++ [plain e]) g (e_id e) s) as Hp.
        rewrite E in Hp. cbn [fst] in Hp. rewrite Hp, fmap_app. cbn. rewrite <- app_assoc. split; [done|]. cbn [length]. intros. apply le_n_S, Hk. lia.
    + rewrite replay_put by done. destruct (IH (acc ++ [plain e]) g m) as (k & Ek & Hk). exists (S k). rewrite Ek, fmap_app. cbn.
      rewrite <- app_assoc. split; [done|]. intros. apply le_n_S, Hk. lia.
Qed.

Lemma logged_compacted es : Forall entry_wf es -> logged (flat_map entry_records es) = plain <$> es.
Proof.
  intros Hwf. unfold logged, folded. destruct (compacted_prefix es [] 0 (length (flat_map entry_records es)) Hwf) as (k & E & Hk).
  rewrite take_ge in E by lia. rewrite E. cbn [app fmap list_fmap]. apply take_ge. rewrite length_fmap. auto.
Qed.

Lemma logged_compacted_prefix es m : Forall entry_wf es -> sublist (logged (take m (flat_map entry_records es))) (plain <$> es).
Proof.
  intros Hwf. unfold logged, folded. destruct (compacted_prefix es [] 0 m Hwf) as (k & E & _). rewrite E. apply sublist_take.
Qed.

(** *** Lists of entries *)

Definition without (id : bytes) (l : list OutEntry) : list OutEntry :=
  match take_out id l with Some (_, l') => l' | None => l end.

Lemma without_sub id l : sublist (without id l) l.
Proof. unfold without. destruct (take_out id l) as [[e l']|] eqn:E; [by eapply take_out_sub|done]. Qed.

Lemma without_mono id l1 l2 : sublist l1 l2 -> sublist (without id l1) (without id l2).
Proof.
  intros Hs. unfold without at 1. destruct (take_out id l1) as [[e l1']|] eqn:E.
  - destruct (take_out_sublist id l1 l2 e l1' Hs E) as (x & l2' & E2 & Hs'). unfold without. by rewrite E2.
  - induction Hs as [|y l1 l2 Hs IH|y l1 l2 Hs IH]; cbn [take_out] in E; unfold without; cbn [take_out]; [done|..].
    + destruct (has_id id y); [done|]. destruct (take_out id l1) as [[]|]; [done|]. specialize (IH eq_refl). unfold without in IH.
      destruct (take_out id l2) as [[x l2']|]; by apply sublist_skip.
    + destruct (has_id id y); [done|]. specialize (IH E). unfold without in IH.
      destruct (take_out id l2) as [[x l2']|]; by apply sublist_cons.
Qed.

Lemma filter_sub {A} (f : A -> bool) (l1 l2 : list A) : sublist l1 l2 -> sublist (List.filter f l1) (List.filter f l2).
Proof.
  induction 1 as [|y l1 l2 Hs IH|y l1 l2 Hs IH]; cbn [List.filter]; [done|..]; destruct (f y);
    first [by apply sublist_skip|by apply sublist_cons|done].
Qed.

Lemma filter_plain (f : OutEntry -> bool) es :
  (forall e, f (plain e) = f e) -> plain <$> List.filter f es = List.filter f (plain <$> es).
Proof.
  intros Hf. induction es as [|e es IH]; [done|]. cbn [List.filter fmap list_fmap]. rewrite Hf. destruct (f e); [|done]. cbn. by rewrite IH.
Qed.

Lemma filter_sub_self {A} (f : A -> bool) (l : list A) : sublist (List.filter f l) l.
Proof. induction l as [|x l IH]; cbn [List.filter]; [done|]. destruct (f x); [by apply sublist_skip|by apply sublist_cons]. Qed.

Lemma budget_plain es used : plain <$> (within_budget used es).1 = plain <$> es.
Proof.
  revert used. induction es as [|e es IH]; intros used; [done|]. cbn [within_budget].
  destruct (e_sealed e) as [s|]; [destruct (_ <? _)|];
    (match goal with |- context [within_budget ?u es] => specialize (IH u); destruct (within_budget u es) as [es' u'] end); cbn in *; by rewrite IH.
Qed.

(** ** The invariant *)

Section Kept.
Context `{J : Journal} `{!JournalLaws J} (cfg : OutSettings) (Hflush : out_defer_flush cfg = false).
Implicit Types (ob : Outbox) (owed tried : list OutEntry) (recs : list bytes).

(** Every part of the log that can be left has the entries of [es], and only
    entries that were tried. *)
Definition covers recs (d : nat) (es tried : list OutEntry) : Prop :=
  forall m, (m <= length recs)%nat ->
    sublist (logged (take m recs)) tried /\ ((d <= m)%nat -> sublist es (logged (take m recs))).

(** The outbox on disk: nothing owed is missing. *)
Definition safe (s : JState) owed tried : Prop :=
  Forall entry_wf tried /\ exists recs d, j_holds s recs d /\ covers recs d owed tried.

(** The outbox in memory: it has what is owed, and only what was tried. *)
Definition opened (s : JState) ob owed tried : Prop :=
  safe s owed tried /\ sublist owed (plain <$> entries ob) /\ sublist (plain <$> entries ob) tried.

Lemma covers_sub recs d es es' tried tried' :
  covers recs d es tried -> sublist es' es -> sublist tried tried' -> covers recs d es' tried'.
Proof. intros Hc H1 H2 m Hm. destruct (Hc m Hm) as [Ht He]. split; [by etransitivity|]. intros Hd. etransitivity; [done|auto]. Qed.

Lemma safe_tried s owed tried tried' : Forall entry_wf tried' -> sublist tried tried' -> safe s owed tried -> safe s owed tried'.
Proof. intros Hwf Ht (_ & recs & d & Hh & Hc). split; [done|]. exists recs, d. split; [done|]. by eapply covers_sub. Qed.

(** A record that keeps the entries and adds nothing untried. *)
Lemma covers_snoc recs d es tried x :
  covers recs d es tried -> sublist (logged (recs ++ [x])) tried -> sublist es (logged (recs ++ [x])) -> covers (recs ++ [x]) d es tried.
Proof.
  intros Hc Ht He m Hm. rewrite length_app in Hm. cbn [length] in Hm. destruct (decide (m <= length recs)%nat) as [Hle|Hgt].
  - rewrite take_app_le by done. by apply Hc.
  - rewrite take_ge by (rewrite length_app; cbn; lia). by split.
Qed.

Lemma covers_durable recs d es tried es' :
  covers recs d es tried -> sublist es' (logged recs) -> covers recs (length recs) es' tried.
Proof. intros Hc He m Hm. split; [by apply Hc|]. intros Hd. rewrite take_ge by lia. done. Qed.

Lemma covers_all recs d es tried : covers recs d es tried -> (d <= length recs)%nat -> sublist es (logged recs) /\ sublist (logged recs) tried.
Proof. intros Hc Hd. destruct (Hc (length recs)) as [Ht He]; [done|]. rewrite take_ge in * by lia. auto. Qed.

Lemma entries_wf es tried : sublist (plain <$> es) tried -> Forall entry_wf tried -> Forall entry_wf es.
Proof.
  intros Hs Hwf. apply Forall_forall. intros e He. rewrite Forall_forall in Hwf. apply (Hwf (plain e)).
  eapply elem_of_sublist; [|exact Hs]. by apply list_elem_of_fmap_2.
Qed.

Lemma opened_wf s ob owed tried : opened s ob owed tried -> Forall entry_wf (entries ob).
Proof. intros ((Hwf & _) & _ & Ht). by eapply entries_wf. Qed.

Lemma safe_holds s recs d owed tried : Forall entry_wf tried -> j_holds s recs d -> covers recs d owed tried -> safe s owed tried.
Proof. intros. split; [done|]. by exists recs, d. Qed.

(** *** Operations *)

Lemma runs_compact s ob force coin owed tried :
  opened s ob owed tried ->
  runs (compact_if_needed ob force coin) s (fun ob' s' => opened s' ob' owed tried) (fun s' => safe s' owed tried).
Proof.
  intros Hop. pose proof (opened_wf s ob owed tried Hop) as Hew. pose proof Hop as ((Hwf & recs & d & Hh & Hc) & Ho & Ht).
  unfold compact_if_needed. destruct (_ || _); [|by apply runs_ret]. apply runs_bind.
  assert (forall s', j_holds s' (flat_map entry_records (entries ob)) (length (flat_map entry_records (entries ob))) -> safe s' owed tried) as Hnew.
  { intros s' Hh'. eapply safe_holds; [done|exact Hh'|]. intros m Hm. split.
    - etransitivity; [by apply logged_compacted_prefix|done].
    - intros Hlen. rewrite take_ge by lia. by rewrite logged_compacted. }
  eapply runs_mono; [by apply (j_rewrite_law s _ coin recs d)| |]; cbn beta.
  - intros [] s' Hs'; apply runs_ret; (split_and!; [|done..]); [by apply Hnew|by eapply safe_holds].
  - intros s' [Hs'|Hs']; [by eapply safe_holds|by apply Hnew].
Qed.

(** Putting a record that takes no more out of the log than what is no longer
    owed. *)
Lemma runs_note s x coin durable owed owed' tried {A} (k : bool -> Prog JState A) Q D :
  safe s owed tried -> sublist owed' owed ->
  (forall recs, sublist (logged (recs ++ [x])) (logged recs)) ->
  (forall recs, sublist owed (logged recs) -> sublist owed' (logged (recs ++ [x]))) ->
  (forall b s', safe s' owed' tried -> runs (k b) s' Q D) -> (forall s', safe s' owed' tried -> D s') ->
  runs (bind (j_put durable x coin) k) s Q D.
Proof.
  intros (Hwf & recs & d & Hh & Hc) Hless Hx1 Hx2 HQ HD. apply runs_bind.
  destruct (covers_all recs d _ _ Hc (j_durable_law _ _ _ Hh)) as [H1 H2].
  assert (covers recs d owed' tried) as Hold by (by eapply covers_sub).
  assert (forall d', (d <= d')%nat -> covers (recs ++ [x]) d' owed' tried) as Hnew.
  { intros d' Hle m Hm. destruct (covers_snoc recs d owed' tried x Hold) with m as [? He]; [|by apply Hx2|done|split; [done|intros; apply He; lia]].
    etransitivity; [apply Hx1|done]. }
  eapply runs_mono; [by apply (j_put_law s durable x coin recs d)| |]; cbn beta.
  - intros [] s' Hs'; apply HQ.
    + eapply safe_holds; [done|exact Hs'|]. apply Hnew. apply j_durable_law in Hh. destruct durable; lia.
    + destruct Hs' as [Hs'|Hs']; (eapply safe_holds; [done|exact Hs'|]); auto.
  - intros s' [Hs'|Hs']; apply HD; (eapply safe_holds; [done|exact Hs'|]); auto.
Qed.

Lemma runs_leave s ob id coin owed tried :
  opened s ob owed tried -> length id = 16%nat ->
  runs (remove ob id coin) s (fun r s' => opened s' r.1 (without id owed) tried) (fun s' => safe s' (without id owed) tried).
Proof.
  intros (Hsafe & Ho & Ht) Hl. unfold remove.
  pose proof (without_mono id owed (plain <$> entries ob) Ho) as Hw. pose proof (without_sub id (plain <$> entries ob)) as Hs.
  unfold without in Hw at 2. unfold without in Hs. rewrite take_out_plain in Hw, Hs.
  destruct (take_out id (entries ob)) as [[e es]|] eqn:E.
  - eapply (runs_note s (done_record id) coin false owed (without id owed) tried); [exact Hsafe|apply without_sub| | | |auto].
    + intros recs. rewrite logged_done by done. apply without_sub.
    + intros recs Hr. rewrite logged_done by done. by apply (without_mono id).
    + intros _ s' Hs'. apply runs_bind. eapply runs_mono; [apply (runs_compact s' _ false (S coin) (without id owed) tried)| |done].
      * split_and!; [done|exact Hw|]. cbn [entries]. by etransitivity.
      * cbn beta. intros ob' s'' Hob. by apply runs_ret.
  - apply runs_ret. cbn [fst]. split_and!; [|exact Hw|done]. destruct Hsafe as (Hwf & recs & d & Hh & Hc). eapply safe_holds; [done..|].
    eapply covers_sub; [exact Hc|apply without_sub|done].
Qed.

Definition without_all (ids : list bytes) (l : list OutEntry) : list OutEntry := fold_left (fun l id => without id l) ids l.

Lemma without_all_sub ids l : sublist (without_all ids l) l.
Proof.
  revert l. induction ids as [|id ids IH]; intros l; [done|]. cbn. etransitivity; [apply IH|apply without_sub].
Qed.

Lemma safe_owed s owed owed' tried : sublist owed' owed -> safe s owed tried -> safe s owed' tried.
Proof. intros Hs (Hwf & recs & d & Hh & Hc). split; [done|]. exists recs, d. split; [done|]. by eapply covers_sub. Qed.

Lemma runs_leave_all ids s ob coin owed tried :
  opened s ob owed tried -> Forall (fun id => length id = 16%nat) ids ->
  runs (remove_all ob ids coin) s (fun r s' => opened s' r.1 (without_all ids owed) tried) (fun s' => safe s' (without_all ids owed) tried).
Proof.
  intros Hop Hids. revert s ob coin owed Hop. induction Hids as [|id ids Hid Hids IH]; intros s ob coin owed Hop; cbn [remove_all].
  - by apply runs_ret.
  - apply runs_bind. eapply runs_mono; [by apply (runs_leave s ob id coin owed tried)| |]; cbn beta.
    + intros r s1 H1. apply runs_bind. eapply runs_mono; [by apply (IH s1 r.1 (S coin) (without id owed))| |]; cbn beta.
      * intros r' s2 H2. by apply runs_ret.
      * done.
    + intros s1 H1. eapply safe_owed; [|exact H1]. exact (without_all_sub ids (without id owed)).
Qed.

Lemma receipt_ids s ob owed tried (f : OutEntry -> bool) :
  opened s ob owed tried -> Forall (fun id => length id = 16%nat) (map e_id (List.filter f (entries ob))).
Proof.
  intros Hop%opened_wf. induction Hop as [|e es He Hes IH]; cbn [List.filter map]; [constructor|].
  destruct (f e); cbn [map]; [|done]. constructor; [apply He|done].
Qed.

Definition receipts_of (ob : Outbox) (e : OutEntry) : list bytes :=
  map e_id (List.filter (fun x => negb (is_text x) && bool_decide (e_peer x = e_peer e)) (entries ob)).

Lemma tried_wf tried e : entry_wf e -> Forall entry_wf tried -> Forall entry_wf (tried ++ [plain e]).
Proof. intros He Hwf. apply Forall_app. split; [done|by apply Forall_singleton]. Qed.

Lemma tried_more tried e : sublist tried (tried ++ [plain e]).
Proof. apply sublist_inserts_r. reflexivity. Qed.

(** Putting the record of an entry behind an outbox. *)
Lemma runs_put_entry s ob e coin owed tried tb sb g (err : StoreError) :
  opened s ob owed tried -> entry_wf e ->
  runs (let* ok := j_put true (entry_record e) coin in
        ret (if (ok : bool) then (mkOutbox (entries ob ++ [e]) tb sb g, Ok tt) else (ob, Err err))) s
    (fun r s' => opened s' r.1 (if is_ok r.2 then owed ++ [plain e] else owed) (tried ++ [plain e]))
    (fun s' => safe s' owed (tried ++ [plain e])).
Proof.
  intros ((Hwf & recs & d & Hh & Hc) & Ho & Ht) He. pose proof (tried_wf tried e He Hwf) as Hwf'. pose proof (tried_more tried e) as Htr.
  destruct (covers_all recs d _ _ Hc (j_durable_law _ _ _ Hh)) as [Hall1 Hall2].
  assert (covers recs d owed (tried ++ [plain e])) as Hold by (by eapply covers_sub).
  assert (covers (recs ++ [entry_record e]) d owed (tried ++ [plain e])) as Hnew.
  { apply covers_snoc; [done|..]; rewrite logged_put by done; [by apply sublist_app|by apply sublist_inserts_r]. }
  assert (forall s', j_holds s' recs d \/ j_holds s' (recs ++ [entry_record e]) d -> safe s' owed (tried ++ [plain e])) as Hfail
    by (intros s' [Hs'|Hs']; by eapply safe_holds).
  apply runs_bind. eapply runs_mono; [by apply (j_put_law s true (entry_record e) coin recs d)|cbn beta|exact Hfail].
  intros [] s' Hs'; apply runs_ret; cbn [fst snd is_ok].
  - unfold opened. cbn [entries]. rewrite fmap_app. split_and!; [|by apply sublist_app..]. eapply safe_holds; [done|exact Hs'|].
    replace (S (length recs)) with (length (recs ++ [entry_record e])) by (rewrite length_app; cbn; lia).
    apply (covers_durable _ d owed); [done|]. rewrite logged_put by done. by apply sublist_app.
  - split_and!; [by apply Hfail|done|by etransitivity].
Qed.

Lemma opened_tried s ob owed tried e : entry_wf e -> opened s ob owed tried -> opened s ob owed (tried ++ [plain e]).
Proof.
  intros He (Hsafe & Ho & Ht). split_and!; [|done|etransitivity; [done|apply tried_more]].
  eapply safe_tried; [|apply tried_more|done]. apply tried_wf; [done|apply Hsafe].
Qed.

Lemma runs_push s ob e coin owed tried :
  opened s ob owed tried -> entry_wf e ->
  runs (push cfg ob e coin) s
    (fun r s' => opened s' r.1 (if is_ok r.2 then owed ++ [plain e] else owed) (tried ++ [plain e]))
    (fun s' => safe s' owed (tried ++ [plain e])).
Proof.
  intros Hop He. pose proof (opened_tried s ob owed tried e He Hop) as Hsame.
  unfold push. do 3 (case_match; [by apply runs_ret|]). rewrite Hflush. by apply runs_put_entry.
Qed.

Lemma runs_receipt s ob e coin owed tried :
  opened s ob owed tried -> entry_wf e ->
  let owed1 := without_all (receipts_of ob e) owed in
  runs (push_receipt cfg ob e coin) s
    (fun r s' => opened s' r.1 (if is_ok r.2 then owed1 ++ [plain e] else owed1) (tried ++ [plain e]))
    (fun s' => safe s' owed1 (tried ++ [plain e])).
Proof.
  intros Hop He owed1. unfold push_receipt. fold (receipts_of ob e). apply runs_bind.
  eapply runs_mono; [apply (runs_leave_all (receipts_of ob e) s ob coin owed tried Hop); by eapply receipt_ids| |]; cbn beta.
  - intros r s1 H1. rewrite Hflush. by apply (runs_put_entry s1 r.1 e coin owed1 tried).
  - intros s1 H1. eapply safe_tried; [|apply tried_more|exact H1]. apply tried_wf; [done|apply H1].
Qed.

Lemma runs_seal s ob id sl coin owed tried :
  opened s ob owed tried ->
  runs (set_sealed cfg ob id sl coin) s (fun r s' => opened s' r.1 owed tried) (fun s' => safe s' owed tried).
Proof.
  intros Hop. unfold set_sealed. case_match; [by apply runs_ret|]. destruct (find_id id (entries ob)) as [e|]; [|by apply runs_ret].
  case_match; [by apply runs_ret|]. destruct Hop as (Hsafe & Ho & Ht).
  eapply (runs_note s (sealed_record id sl) coin _ owed owed tried); [exact Hsafe|done|intros; by rewrite logged_sealed..| |auto].
  intros [] s' Hs'; apply runs_ret; cbn [fst]; [|by split_and!]. split_and!; cbn [entries]; rewrite ?plain_update; done.
Qed.

Lemma runs_unseal s ob id coin owed tried :
  opened s ob owed tried -> runs (clear_sealed ob id coin) s (fun ob' s' => opened s' ob' owed tried) (fun s' => safe s' owed tried).
Proof.
  intros Hop. unfold clear_sealed. destruct (find_id id (entries ob)) as [e|]; [|by apply runs_ret].
  destruct (e_sealed e) as [sl|]; [|by apply runs_ret]. destruct Hop as (Hsafe & Ho & Ht).
  eapply (runs_note s (unseal_record id) coin false owed owed tried); [exact Hsafe|done|intros; by rewrite logged_unseal..| |auto].
  intros _ s' Hs'. apply runs_ret. split_and!; cbn [entries]; rewrite ?plain_update; done.
Qed.

Lemma opened_update s ob id f owed tried :
  (forall e, plain (f e) = plain e) -> opened s ob owed tried -> opened s (update ob id f) owed tried.
Proof.
  intros Hf Hop. unfold update. destruct (find_id id (entries ob)); [|done]. destruct Hop as (Hsafe & Ho & Ht).
  split_and!; [done|..]; cbn [entries]; by rewrite plain_update.
Qed.

(** What stays at the start: texts and receipts that have not expired. *)
Definition unexpired (now : Z) (e : OutEntry) : bool :=
  let expiry := sat_mul u64_max (outbox_expiry_days cfg) 86400000 in
  negb ((0 <? expiry) && expired_text now expiry e) && live_receipt cfg now e.

Lemma filter_filter {A} (f g : A -> bool) (l : list A) : List.filter g (List.filter f l) = List.filter (fun x => f x && g x) l.
Proof. induction l as [|x l IH]; [done|]. cbn [List.filter]. destruct (f x); cbn [List.filter andb]; [|done]. by rewrite IH. Qed.

Lemma runs_start s now secs coin owed tried :
  safe s owed tried ->
  runs (outbox_open cfg now secs coin) s
    (fun r s' => opened s' r.1 (List.filter (unexpired now) owed) tried)
    (fun s' => safe s' (List.filter (unexpired now) owed) tried).
Proof.
  intros (Hwf & recs & d & Hh & Hc). pose proof (j_durable_law _ _ _ Hh) as Hd. destruct (covers_all recs d _ _ Hc Hd) as [Ha1 Ha2].
  unfold outbox_open. apply runs_bind. eapply runs_mono; [by apply (j_load_law s recs d)| |done]; cbn beta.
  intros [recs' damaged] s1 (-> & Hr). destruct (fold_left replay recs' ([], 0)) as [es g] eqn:Ef. apply runs_bind.
  set (expiry := sat_mul u64_max (outbox_expiry_days cfg) 86400000).
  set (es1 := if damaged then [] else es).
  set (es2 := if 0 <? expiry then List.filter (fun e => negb (expired_text now expiry e)) es1 else es1).
  destruct (within_budget 0 (List.filter (live_receipt cfg now) es2)) as [es3 used] eqn:Eb.
  assert (plain <$> es3 = List.filter (unexpired now) (plain <$> es1)) as Hes.
  { pose proof (budget_plain (List.filter (live_receipt cfg now) es2) 0) as Hb. rewrite Eb in Hb. cbn [fst] in Hb. rewrite Hb.
    rewrite filter_plain by done. unfold es2, unexpired. fold expiry. destruct (0 <? expiry); [|done].
    rewrite filter_plain by done. by rewrite filter_filter. }
  assert (plain <$> es1 = logged recs) as Hlog.
  { unfold es1. destruct Hr as [[= -> ->]|[-> Hdm]]; [unfold logged, folded; by rewrite Ef|]. cbn [snd] in Hdm. by rewrite Hdm. }
  assert (forall s2 tb g2 d2, j_holds s2 recs d2 -> (d2 = d \/ recs = []) ->
    runs (let* ob := compact_if_needed (mkOutbox es3 tb used g2) true coin in
          ret (ob, if 0 <? expiry then List.filter (expired_text now expiry) es1 else [])) s2
      (fun r s' => opened s' r.1 (List.filter (unexpired now) owed) tried)
      (fun s' => safe s' (List.filter (unexpired now) owed) tried)) as Hfin.
  { intros s2 tb g2 d2 Hh2 Hd2. apply runs_bind.
    eapply runs_mono; [apply (runs_compact s2 _ true coin (List.filter (unexpired now) owed) tried)| |done]; cbn beta.
    - split_and!; cbn [entries]; [|rewrite Hes, Hlog; by apply filter_sub|rewrite Hes, Hlog; etransitivity; [apply filter_sub_self|done]].
      eapply safe_holds; [done|exact Hh2|]. destruct Hd2 as [-> | ->]; [eapply covers_sub; [exact Hc|apply filter_sub_self|done]|].
      intros m Hm. destruct m; [|cbn in Hm; lia]. split; [by apply (Hc 0%nat)|]. intros _. etransitivity; [apply filter_sub_self|exact Ha1].
    - intros ob s' Hob. by apply runs_ret. }
  destruct Hr as [[= -> ->]|[-> Hdm]].
  - apply runs_ret, (Hfin _ _ _ d); auto.
  - cbn [snd] in Hdm. subst damaged. eapply runs_mono; [by apply (j_aside_law s secs d)| |]; cbn beta.
    + intros _ s2 Hh2. apply (Hfin s2 _ _ 0%nat); auto.
    + intros s2 Hh2. eapply safe_holds; [done|exact Hh2|]. intros m Hm. destruct m; [|cbn in Hm; lia]. split; [by apply (Hc 0%nat)|].
      intros _. etransitivity; [apply filter_sub_self|exact Ha1].
Qed.

(** *** Histories *)

(** The entries of a contact, as [remove_peer] takes them out. *)
Definition ids_of (ob : Outbox) (peer : bytes) : list bytes := map e_id (pending_for ob peer).

Inductive OutOp :=
| OStart (now secs : Z) (coin : nat)
| OPush (e : OutEntry) (coin : nat)
| OReceipt (e : OutEntry) (coin : nat)
| ORemove (id : bytes) (coin : nat)
| ORemovePeer (peer : bytes) (coin : nat)
| OSeal (id sealed : bytes) (coin : nat)
| OUnseal (id : bytes) (coin : nat)
| OTried (id : bytes) (attempts : Z) (sending : bool) (error : option str) (now : Z)
| OStop
| OPower (keep : bytes -> nat).

(** The store, the outbox when the process runs, and of the past what is still
    owed and what was tried. *)
Record History := mkHistory { h_store : JState; h_box : option Outbox; h_owed : list OutEntry; h_tried : list OutEntry }.

Definition set_tried (attempts : Z) (sending : bool) (error : option str) (now : Z) (e : OutEntry) : OutEntry :=
  mkEntry (e_id e) (e_kind e) (e_peer e) (e_seq e) (e_sent_ms e) (e_created_ms e) (e_text e) attempts (e_sealed e) sending error now.

(** One operation run from a history: [owed] gives what is owed after it, when
    it answered (with the answer) and when the process died in it. *)
Definition perform {A} (h : History) (m : Prog JState A) (box : A -> Outbox) (owed : option A -> list OutEntry)
    (tried : list OutEntry) : History :=
  match m (h_store h) with
  | (s, Some a) => mkHistory s (Some (box a)) (owed (Some a)) tried
  | (s, None) => mkHistory s None (owed None) tried
  end.

Definition accepted {A} (o : option (A * result unit StoreError)) (owed : list OutEntry) (e : OutEntry) : list OutEntry :=
  match o with Some (_, Ok _) => owed ++ [plain e] | _ => owed end.

Definition out_step (h : History) (op : OutOp) : History :=
  match op, h_box h with
  | OStart now secs coin, _ =>
    perform (mkHistory (j_stop (h_store h)) None (h_owed h) (h_tried h)) (outbox_open cfg now secs coin) fst
      (fun _ => List.filter (unexpired now) (h_owed h)) (h_tried h)
  | OStop, _ => mkHistory (j_stop (h_store h)) None (h_owed h) (h_tried h)
  | OPower keep, _ => mkHistory (j_power keep (h_store h)) None (h_owed h) (h_tried h)
  | _, None => h
  | OPush e coin, Some ob => perform h (push cfg ob e coin) fst (fun r => accepted r (h_owed h) e) (h_tried h ++ [plain e])
  | OReceipt e coin, Some ob =>
    perform h (push_receipt cfg ob e coin) fst (fun r => accepted r (without_all (receipts_of ob e) (h_owed h)) e) (h_tried h ++ [plain e])
  | ORemove id coin, Some ob => perform h (remove ob id coin) fst (fun _ => without id (h_owed h)) (h_tried h)
  | ORemovePeer peer coin, Some ob => perform h (remove_peer ob peer coin) fst (fun _ => without_all (ids_of ob peer) (h_owed h)) (h_tried h)
  | OSeal id sl coin, Some ob => perform h (set_sealed cfg ob id sl coin) fst (fun _ => h_owed h) (h_tried h)
  | OUnseal id coin, Some ob => perform h (clear_sealed ob id coin) (fun ob' => ob') (fun _ => h_owed h) (h_tried h)
  | OTried id attempts sending error now, Some ob =>
    mkHistory (h_store h) (Some (update ob id (set_tried attempts sending error now))) (h_owed h) (h_tried h)
  end.

Definition out_run (ops : list OutOp) (h : History) : History := fold_left out_step ops h.

Definition op_wf (op : OutOp) : Prop :=
  match op with OPush e _ | OReceipt e _ => entry_wf e | ORemove id _ => array 16 id | _ => True end.

(** The invariant of a history. *)
Definition sound (h : History) : Prop :=
  safe (h_store h) (h_owed h) (h_tried h) /\
  match h_box h with
  | Some ob => sublist (h_owed h) (plain <$> entries ob) /\ sublist (plain <$> entries ob) (h_tried h)
  | None => True
  end.

Lemma sound_opened h ob : h_box h = Some ob -> sound h -> opened (h_store h) ob (h_owed h) (h_tried h).
Proof. unfold sound, opened. by intros -> [? ?]. Qed.

Lemma sound_perform {A} h (m : Prog JState A) box (after : option A -> list OutEntry) tried :
  runs m (h_store h) (fun a s => opened s (box a) (after (Some a)) tried) (fun s => safe s (after None) tried) ->
  sound (perform h m box after tried).
Proof. unfold runs, perform, sound, opened. by destruct (m _) as [s [a|]]. Qed.

Lemma safe_stop s owed tried : safe s owed tried -> safe (j_stop s) owed tried.
Proof. intros (Hwf & recs & d & Hh & Hc). eapply safe_holds; [done|by apply j_stop_law|done]. Qed.

Lemma safe_power s keep owed tried : safe s owed tried -> safe (j_power keep s) owed tried.
Proof.
  intros (Hwf & recs & d & Hh & Hc). destruct (j_power_law s keep recs d Hh) as (m & Hm & Hh').
  eapply safe_holds; [done|exact Hh'|]. intros n Hn. rewrite take_take. rewrite length_take in Hn.
  replace (n `min` m)%nat with n by lia. apply Hc. lia.
Qed.

Lemma sound_step h op : op_wf op -> sound h -> sound (out_step h op).
Proof.
  intros Hop Hs. destruct op as [now secs coin|e coin|e coin|id coin|peer coin|id sl coin|id coin|id a sn er now| |keep]; cbn [out_step op_wf] in *.
  1: { apply sound_perform. cbn [h_store]. apply runs_start, safe_stop, Hs. }
  8: { split; [apply safe_stop, Hs|done]. }
  8: { split; [apply safe_power, Hs|done]. }
  all: destruct (h_box h) as [ob|] eqn:Eb; [|done]; pose proof (sound_opened h ob Eb Hs) as Ho.
  - apply sound_perform. eapply runs_mono; [by apply runs_push|cbn beta|done]. by intros [ob' [[]|]] s'.
  - apply sound_perform. eapply runs_mono; [by apply runs_receipt|cbn beta|done]. by intros [ob' [[]|]] s'.
  - apply sound_perform, runs_leave; [done|apply Hop].
  - apply sound_perform, runs_leave_all; [done|]. by eapply receipt_ids.
  - by apply sound_perform, runs_seal.
  - by apply sound_perform, runs_unseal.
  - by apply (opened_update _ ob id (set_tried a sn er now)).
Qed.

Lemma sound_run ops h : Forall op_wf ops -> sound h -> sound (out_run ops h).
Proof. intros Hw. revert h. induction Hw as [|op ops Hop Hw IH]; intros h Hs; [done|]. by apply IH, sound_step. Qed.

Lemma ends_open now secs coin : ends (outbox_open cfg now secs coin).
Proof. unfold outbox_open, compact_if_needed. ends. Qed.

(** C6. Nothing is ever lost silently.  Over any history of an outbox (restarts,
    messages and receipts queued, removed, sealed and tried, failing writes,
    deaths of the process in the middle of an operation, losses of power) the
    outbox has every message that was accepted and not taken out or expired,
    in the order they were accepted, and nothing that was not queued.  When the
    process is not killed again a start comes to its end and finds them. *)
Theorem outbox_keeps_messages s0 ops now secs coin :
  j_fresh s0 -> Forall op_wf ops ->
  let h := out_run ops (mkHistory s0 None [] []) in
  (forall ob, h_box h = Some ob -> sublist (h_owed h) (plain <$> entries ob) /\ sublist (plain <$> entries ob) (h_tried h)) /\
  (j_calm (h_store h) -> exists ob, h_box (out_step h (OStart now secs coin)) = Some ob /\
     sublist (List.filter (unexpired now) (h_owed h)) (plain <$> entries ob) /\ sublist (plain <$> entries ob) (h_tried h)).
Proof.
  intros Hf Hw h. assert (sound h) as Hs.
  { apply sound_run; [done|]. split; [|done]. split; [constructor|]. exists [], 0%nat. split; [by apply j_fresh_law|].
    intros m Hm. destruct m; [done|cbn in Hm; lia]. }
  split; [intros ob Eb; by destruct (sound_opened h ob Eb Hs)|].
  intros Hcalm. pose proof (sound_step h (OStart now secs coin) I Hs) as Hs'. cbn [out_step] in *.
  destruct (ends_open now secs coin (j_stop (h_store h)) (j_stop_calm _ Hcalm)) as (s' & [ob old] & E & _).
  unfold perform in *. cbn [h_store] in *. rewrite E in *. exists ob. split; [done|]. apply Hs'.
Qed.

End Kept.

(** ** The counters *)

(** What the outbox says of the texts and envelopes it holds is what it holds,
    and the envelopes stay within their budget. *)
Definition accounts (ob : Outbox) : Prop :=
  text_bytes ob = sum_z (fun e => str_len (e_text e)) (entries ob) /\
  sealed_bytes ob = sum_z seal_len (entries ob) /\ sealed_bytes ob <= SEALED_BUDGET.

Arguments sum_z : simpl never.

Lemma sum_cons {A} (f : A -> Z) x l : sum_z f (x :: l) = f x + sum_z f l.
Proof. done. Qed.

Lemma sum_app {A} (f : A -> Z) l1 l2 : sum_z f (l1 ++ l2) = sum_z f l1 + sum_z f l2.
Proof. induction l1 as [|x l1 IH]; [done|]. cbn [app]. rewrite !sum_cons. lia. Qed.

Lemma sum_one {A} (f : A -> Z) x : sum_z f [x] = f x.
Proof. rewrite sum_cons. unfold sum_z. cbn. lia. Qed.

Lemma sum_nonneg {A} (f : A -> Z) l : (forall x, 0 <= f x) -> 0 <= sum_z f l.
Proof. intros Hf. induction l as [|x l IH]; [done|]. rewrite sum_cons. specialize (Hf x). lia. Qed.

Lemma seal_len_nonneg e : 0 <= seal_len e.
Proof. unfold seal_len, zlen. destruct (e_sealed e); lia. Qed.

Lemma text_len_nonneg e : 0 <= str_len (e_text e).
Proof. apply str_len_nonneg. Qed.

Lemma sum_take_out (f : OutEntry -> Z) id es e es' : take_out id es = Some (e, es') -> sum_z f es = f e + sum_z f es'.
Proof.
  revert es'. induction es as [|x es IH]; intros es'; cbn [take_out]; [done|]. destruct (has_id id x); [intros [= -> ->]; apply sum_cons|].
  destruct (take_out id es) as [[y ys]|]; [|done]. intros [= -> <-]. rewrite !sum_cons, (IH ys) by done. lia.
Qed.

Lemma sum_update (f : OutEntry -> Z) g id es :
  sum_z f (update_id id g es) = sum_z f es + match find_id id es with Some e => f (g e) - f e | None => 0 end.
Proof.
  unfold find_id. induction es as [|x es IH]; [done|]. cbn [update_id List.find]. destruct (has_id id x); rewrite !sum_cons; [lia|]. rewrite IH. lia.
Qed.

Lemma sum_part (f : OutEntry -> Z) id es e : find_id id es = Some e -> (forall x, 0 <= f x) -> f e <= sum_z f es.
Proof.
  unfold find_id. intros E Hf. induction es as [|x es IH]; [done|]. cbn [List.find] in E. rewrite sum_cons. pose proof (Hf x).
  destruct (has_id id x); [injection E as ->; pose proof (sum_nonneg f es Hf); lia|]. specialize (IH E). lia.
Qed.

Lemma within_budget_sum used es : used <= SEALED_BUDGET ->
  let r := within_budget used es in
  r.2 = used + sum_z seal_len r.1 /\ r.2 <= SEALED_BUDGET /\
  sum_z (fun e => str_len (e_text e)) r.1 = sum_z (fun e => str_len (e_text e)) es.
Proof.
  revert used. induction es as [|e es IH]; intros used Hu; cbn [within_budget]; [unfold sum_z; cbn; lia|].
  destruct (e_sealed e) as [sl|] eqn:Es; [destruct (_ <? _) eqn:E|].
  - specialize (IH used Hu). destruct (within_budget used es) as [es' u]. cbn [fst snd] in *. rewrite !sum_cons. change (seal_len (set_seal e None)) with 0.
    change (e_text (set_seal e None)) with (e_text e). lia.
  - specialize (IH (used + zlen sl) ltac:(lia)). destruct (within_budget (used + zlen sl) es) as [es' u]. cbn [fst snd] in *. rewrite !sum_cons.
    unfold seal_len at 1. rewrite Es. lia.
  - specialize (IH used Hu). destruct (within_budget used es) as [es' u]. cbn [fst snd] in *. rewrite !sum_cons. unfold seal_len at 1. rewrite Es. lia.
Qed.

Section Accounts.
Context `{J : Journal} (cfg : OutSettings).

(** Whatever the log answers. *)
Lemma runs_any {A B} (m : Prog JState A) (k : A -> Prog JState B) s Q :
  (forall a s', runs (k a) s' Q (fun _ => True)) -> runs (bind m k) s Q (fun _ => True).
Proof. intros Hk. unfold runs, bind in *. destruct (m s) as [s' [a|]]; [apply Hk|done]. Qed.

Lemma compact_accounts ob force coin s :
  accounts ob -> runs (compact_if_needed ob force coin) s (fun ob' _ => accounts ob') (fun _ => True).
Proof.
  intros Ha. unfold compact_if_needed. case_match; [|by apply runs_ret]. apply runs_any. intros [] s'; by apply runs_ret.
Qed.

Lemma remove_accounts ob id coin s :
  accounts ob -> runs (remove ob id coin) s (fun r _ => accounts r.1) (fun _ => True).
Proof.
  intros (Ht & Hs & Hb). unfold remove. destruct (take_out id (entries ob)) as [[e es]|] eqn:E; [|by apply runs_ret].
  apply runs_any. intros _ s'. apply runs_bind. eapply runs_mono; [apply compact_accounts| |done].
  - pose proof (sum_take_out (fun e => str_len (e_text e)) _ _ _ _ E) as H1. pose proof (sum_take_out seal_len _ _ _ _ E) as H2.
    pose proof (sum_nonneg _ es text_len_nonneg). pose proof (sum_nonneg _ es seal_len_nonneg). pose proof (seal_len_nonneg e) as Hn.
    unfold accounts. cbn [text_bytes sealed_bytes entries]. cbn beta in H1. pose proof (text_len_nonneg e). unfold sat_sub. unfold seal_len in H2 at 2, Hn. destruct (e_sealed e); lia.
  - cbn beta. intros ob' s'' Ha. by apply runs_ret.
Qed.

Lemma remove_all_accounts ids ob coin s :
  accounts ob -> runs (remove_all ob ids coin) s (fun r _ => accounts r.1) (fun _ => True).
Proof.
  revert ob coin s. induction ids as [|id ids IH]; intros ob coin s Ha; cbn [remove_all]; [by apply runs_ret|].
  apply runs_bind. eapply runs_mono; [by apply remove_accounts|cbn beta|done]. intros r s' Hr. apply runs_bind.
  eapply runs_mono; [by apply IH|cbn beta|done]. intros r' s'' Hr'. by apply runs_ret.
Qed.

Lemma push_accounts ob e coin s :
  accounts ob -> e_sealed e = None -> runs (push cfg ob e coin) s (fun r _ => accounts r.1) (fun _ => True).
Proof.
  intros (Ht & Hs & Hb) He. unfold push. do 3 (case_match; [by apply runs_ret|]). apply runs_any. intros [] s'; apply runs_ret; [|done].
  unfold accounts. cbn [fst text_bytes sealed_bytes entries]. rewrite !sum_app, !sum_one. unfold seal_len at 2. rewrite He. lia.
Qed.

Lemma receipt_accounts ob e coin s :
  accounts ob -> e_sealed e = None -> e_text e = [] -> runs (push_receipt cfg ob e coin) s (fun r _ => accounts r.1) (fun _ => True).
Proof.
  intros Ha He Ht. unfold push_receipt. apply runs_bind. eapply runs_mono; [by apply remove_all_accounts|cbn beta|done].
  intros r s1 (Hrt & Hrs & Hrb). apply runs_any. intros [] s'; apply runs_ret; [|done].
  unfold accounts. cbn [fst text_bytes sealed_bytes entries]. rewrite !sum_app, !sum_one, Ht. unfold seal_len at 2. rewrite He. change (str_len []) with 0. lia.
Qed.

Lemma sealed_accounts ob id sl coin s :
  accounts ob -> runs (set_sealed cfg ob id sl coin) s (fun r _ => accounts r.1) (fun _ => True).
Proof.
  intros (Ht & Hs & Hb). unfold set_sealed. case_match; [by apply runs_ret|].
  destruct (find_id id (entries ob)) as [e|] eqn:E; [|by apply runs_ret]. cbv zeta. destruct (SEALED_BUDGET <? _) eqn:Elt; [by apply runs_ret|].
  apply runs_any. intros [] s'; apply runs_ret; [|done]. unfold accounts. cbn [fst text_bytes sealed_bytes entries].
  rewrite !sum_update, E. change (seal_len (set_seal e (Some sl))) with (zlen sl). change (e_text (set_seal e (Some sl))) with (e_text e). lia.
Qed.

Lemma unseal_accounts ob id coin s :
  accounts ob -> runs (clear_sealed ob id coin) s (fun ob' _ => accounts ob') (fun _ => True).
Proof.
  intros (Ht & Hs & Hb). unfold clear_sealed. destruct (find_id id (entries ob)) as [e|] eqn:E; [|by apply runs_ret].
  destruct (e_sealed e) as [sl|] eqn:Es; [|by apply runs_ret]. apply runs_any. intros _ s'. apply runs_ret.
  pose proof (sum_part seal_len id _ e E seal_len_nonneg) as Hp. unfold accounts. cbn [text_bytes sealed_bytes entries].
  rewrite !sum_update, E. change (seal_len (set_seal e None)) with 0. change (e_text (set_seal e None)) with (e_text e).
  pose proof (seal_len_nonneg e). assert (seal_len e = zlen sl) by (unfold seal_len; by rewrite Es). unfold sat_sub. lia.
Qed.

Lemma open_accounts now secs coin s : runs (outbox_open cfg now secs coin) s (fun r _ => accounts r.1) (fun _ => True).
Proof.
  unfold outbox_open. apply runs_any. intros [recs damaged] s1. destruct (fold_left replay recs ([], 0)) as [es g].
  apply runs_any. intros _ s2. cbv zeta. match goal with |- context [within_budget 0 ?k] => pose proof (within_budget_sum 0 k ltac:(done)) as Hw; set (kept := k) in * end.
  destruct (within_budget 0 kept) as [es' used]. cbn [fst snd] in Hw. apply runs_bind.
  eapply runs_mono; [apply compact_accounts|cbn beta|done].
  - unfold accounts. cbn [text_bytes sealed_bytes entries]. lia.
  - intros ob s3 Ha. by apply runs_ret.
Qed.

Lemma update_accounts ob id f :
  (forall e, e_text (f e) = e_text e) -> (forall e, e_sealed (f e) = e_sealed e) -> accounts ob -> accounts (update ob id f).
Proof.
  intros Ht Hs (H1 & H2 & H3). unfold update. destruct (find_id id (entries ob)) as [e|] eqn:E; [|done].
  assert (seal_len (f e) = seal_len e) as El by (unfold seal_len; by rewrite Hs).
  pose proof (sum_nonneg seal_len (entries ob) seal_len_nonneg).
  unfold accounts. cbn [text_bytes sealed_bytes entries]. rewrite !sum_update, E, Ht, El. unfold sat_sub. lia.
Qed.

(** The queued entries are new: nothing is sealed yet, and a receipt is one. *)
Definition op_new (op : OutOp) : Prop :=
  match op with OPush e _ => e_sealed e = None | OReceipt e _ => e_sealed e = None /\ e_text e = [] | _ => True end.

Lemma perform_accounts {A} h (m : Prog JState A) box (after : option A -> list OutEntry) tried :
  runs m (h_store h) (fun a _ => accounts (box a)) (fun _ => True) ->
  forall ob, h_box (perform h m box after tried) = Some ob -> accounts ob.
Proof. unfold runs, perform. destruct (m _) as [s [a|]]; cbn; [by intros Ha ob [= <-]|done]. Qed.

(** The counters of the outbox are exact in every history, whatever the disk
    does, and the sealed envelopes stay within their budget; so the
    subtraction in [set_sealed] never goes below zero. *)
Theorem outbox_accounts s0 ops ob :
  Forall op_new ops -> h_box (out_run cfg ops (mkHistory s0 None [] [])) = Some ob -> accounts ob.
Proof.
  intros Hn. assert (forall h, (forall ob, h_box h = Some ob -> accounts ob) -> forall ob, h_box (out_run cfg ops h) = Some ob -> accounts ob) as Hr.
  2: { apply Hr. done. }
  clear ob. induction Hn as [|op ops Hop Hn IH]; intros h Hh; [exact Hh|]. apply (IH (out_step cfg h op)). clear IH.
  destruct op as [now secs coin|e coin|e coin|id coin|peer coin|id sl coin|id coin|id a sn er now| |keep]; cbn [out_step op_new] in *.
  1: apply perform_accounts, open_accounts.
  8, 9: done.
  all: destruct (h_box h) as [ob|] eqn:Eb; [|intros ob Eo; congruence]; specialize (Hh ob eq_refl).
  7: { intros ob' [= <-]. by apply update_accounts. }
  all: apply perform_accounts.
  - by apply push_accounts.
  - apply receipt_accounts; tauto.
  - by apply remove_accounts.
  - by apply remove_all_accounts.
  - by apply sealed_accounts.
  - by apply unseal_accounts.
Qed.

End Accounts.

(** ** An outbox in a sealed log *)

Module OutboxDemo.
Import LogDemo.
Existing Instances toy_keys toy_cipher.

#[export] Instance toy_coins : Coins := {| salt_at n := replicate 16 (Z.of_nat n); nonce_at n := replicate 24 (Z.of_nat n) |}.

Lemma toy_coins_sized : coins_sized.
Proof. intros n. split; apply length_replicate. Qed.

#[export] Instance log : Journal := sealed_journal keys ChatOutbox path tmp.
#[export] Instance log_laws : JournalLaws log.
Proof. apply (sealed_laws toy_correct toy_total toy_hkdf toy_coins_sized sk ChatOutbox path tmp). by vm_compute. Defined.

Definition cfg : OutSettings := mkOutSettings 100 10 10000 7 60000 false.
Definition entry (n : Z) (text : str) : OutEntry := new_entry (replicate 16 n) (replicate 32 9) n 1000 text.

(** Two messages are queued and the first delivered; the process dies while it
    queues a third, and power is lost. *)
Definition busy_day : list OutOp :=
  [OStart 1000 1 0; OPush (entry 1 [104; 105]) 1; OPush (entry 2 [98; 121; 101]) 2; OSeal (replicate 16 2) [5; 5] 3;
   ORemove (replicate 16 1) 4; OPush (entry 3 [33]) 5; OPower (fun _ => 0%nat)].

Definition disk : World := mkWorld ∅ (replicate 10 Fine ++ [Dies 20]).
Definition evening : History := out_run cfg busy_day (mkHistory (disk, None) None [] []).

Lemma entry_ok n text : 0 <= n < 256 -> text_ok text -> 0 < str_len text <= MAX_TEXT -> entry_wf (entry n text).
Proof.
  intros Hn Ht Hl. unfold entry, entry_wf, new_entry. cbn [e_id e_peer e_seq e_sent_ms e_created_ms e_kind e_text].
  split_and!; try done; try ulia; split; try (apply length_replicate); apply Forall_replicate; ulia.
Qed.

Lemma evening_calm : j_calm (h_store evening).
Proof.
  assert (fates (h_store evening).1 = []) as E by (by vm_compute). intros n Hn. rewrite E in Hn. by apply not_elem_of_nil in Hn.
Qed.

Lemma busy_day_wf : Forall op_wf busy_day.
Proof.
  unfold busy_day. repeat match goal with |- Forall op_wf (_ :: _) => apply Forall_cons; split end; try exact I.
  - apply entry_ok; [lia|by repeat constructor|done].
  - apply entry_ok; [lia|by repeat constructor|done].
  - split; [done|]. apply Forall_replicate. ulia.
  - apply entry_ok; [lia|by repeat constructor|done].
  - by apply Forall_nil.
Qed.

Lemma outbox_keeps_messages_witness :
  h_owed evening = [entry 2 [98; 121; 101]] /\
  exists ob, h_box (out_step cfg evening (OStart 2000 2 6)) = Some ob /\
    sublist [entry 2 [98; 121; 101]] (plain <$> entries ob) /\ sublist (plain <$> entries ob) (h_tried evening).
Proof.
  assert (h_owed evening = [entry 2 [98; 121; 101]]) as Ho by (by vm_compute). split; [exact Ho|].
  destruct (outbox_keeps_messages (J := log) cfg eq_refl (disk, None) busy_day 2000 2 6) as [_ Hstart].
  - split; reflexivity.
  - exact busy_day_wf.
  - fold evening in Hstart. destruct Hstart as (ob & E & H1 & H2).
    + exact evening_calm.
    + exists ob. rewrite Ho in H1. split_and!; [exact E|exact H1|exact H2].
Defined.

Lemma outbox_accounts_witness :
  exists ob, h_box (out_step cfg evening (OStart 2000 2 6)) = Some ob /\ sealed_bytes ob = 2 /\ accounts ob.
Proof.
  destruct (h_box (out_step cfg evening (OStart 2000 2 6))) as [ob|] eqn:E; [|by vm_compute in E].
  exists ob. split_and!; [done| |].
  - assert (sealed_bytes <$> h_box (out_step cfg evening (OStart 2000 2 6)) = Some 2) as H2 by (by vm_compute). rewrite E in H2. by injection H2.
  - apply (outbox_accounts (J := log) cfg (disk, None) (busy_day ++ [OStart 2000 2 6])); [|unfold out_run; rewrite fold_left_app; exact E].
    unfold busy_day. cbn [app]. repeat match goal with |- Forall op_new (_ :: _) => apply Forall_cons; split end; try exact I; try done.
Defined.

End OutboxDemo.
