(* ===== verification/Ratchet.v ===== *)
(** * Ratchet: the encryption of a conversation

    Models [chat/crypto.rs]: the first flight, the Double Ratchet session with
    its bounded store of message keys for messages that have not arrived, the
    padding, the envelope and the session file.  X25519, the Ed25519 key
    conversions, HKDF and the cipher are parameters; random values (message
    ids, ephemeral and ratchet secrets) are arguments. *)

From S2P Require Import Prelude Bytes Text Codec ErasureCode Dissolve Disk SealedState.

(** ** Primitives *)

Class RatchetCrypto := {
  (* X25519: the public key of a secret, and the shared secret when both keys
     contribute *)
  x_public (secret : bytes) : bytes;
  x_dh (secret public : bytes) : option bytes;
  (* Ed25519: the endpoint id and the scalar of a seed; the Montgomery form of
     an id that is a key, unless it is weak *)
  ed_id (seed : bytes) : bytes;
  ed_scalar (seed : bytes) : bytes;
  ed_montgomery (id : bytes) : option bytes;
  (* HKDF-SHA256: extract and expand; expand from a key *)
  hkdf_expand (salt ikm info : bytes) (len : nat) : option bytes;
  hkdf_prk (prk info : bytes) (len : nat) : option bytes;
}.

Definition X3DH : bytes := lit "miasma/chat/v1/x3dh".
Definition ROOT : bytes := lit "miasma/chat/v1/rk".
Definition CHAIN : bytes := lit "miasma/chat/v1/ck".
Definition MESSAGE : bytes := lit "miasma/chat/v1/msgkey".
Definition PQ_LAYER : bytes := lit "miasma/chat/v1/pqlayer".
Definition FILE_NAME : bytes := lit "miasma chat v1 file name".

Definition ENVELOPE_VERSION : Z := 1.
Definition SUITE_RATCHET : Z := 2.
Definition KIND_PAIR : Z := 1.
Definition MAX_SKIP : Z := 256.
Definition MAX_STORED_SKIPPED : Z := 1024.
Definition PAD_BUCKETS : list Z := [512; 1024; 2048; 4096; 8192; 16384].
Definition MAX_CIPHERTEXT : Z := 16384 + 16.
Definition STATE_VERSION : Z := 1.

Inductive CryptoError :=
| BadKey | NonContributory | EnvVersion (v : Z) | Unsupported | Malformed (what : bytes) | MsgTooLarge | NotAuthentic
| Replay | TooFarAhead | NoSendChain | BadState.

(** ** Padding *)

Definition pad (data : bytes) : result bytes CryptoError :=
  let need := zlen data + 1 in
  match List.find (fun b => need <=? b) PAD_BUCKETS with
  | None => Err MsgTooLarge
  | Some bucket => Ok (data ++ [128] ++ replicate (Z.to_nat (bucket - need)) 0)
  end.

(** The bytes from the end: zeros are popped up to the marker. *)
Fixpoint strip (r : bytes) : option bytes :=
  match r with
  | [] => None
  | x :: r => if x =? 0 then strip r else if x =? 128 then Some r else None
  end.

Definition unpad (padded : bytes) : result bytes CryptoError :=
  if negb (bool_decide (zlen padded ∈ PAD_BUCKETS)) then Err (Malformed (lit "padding length"))
  else match strip (rev padded) with
       | Some r => Ok (rev r)
       | None => Err (Malformed (lit "padding marker"))
       end.

(** ** Envelopes *)

Record Header := mkHeader { dh_pub : bytes; h_pn : Z; h_n : Z; init_ek : option bytes }.
Record Envelope := mkEnv { env_id : bytes; header : Header; ciphertext : bytes }.

Definition header_bytes (h : Header) : bytes :=
  dh_pub h ++ be_bytes 4 (h_pn h) ++ be_bytes 4 (h_n h) ++ match init_ek h with Some ek => [1] ++ ek | None => [0] end.

Definition env_encode (e : Envelope) : bytes :=
  [ENVELOPE_VERSION; SUITE_RATCHET; KIND_PAIR] ++ env_id e ++ header_bytes (header e) ++
  be_bytes 4 (zlen (ciphertext e) mod 4294967296) ++ ciphertext e.

(** [map_err] of a short read. *)
Definition need {A} (o : option A) (e : CryptoError) : result A CryptoError := ok_or o e.

Definition env_decode (b : bytes) : result Envelope CryptoError :=
  let short := Malformed (lit "short") in
  let? (ver, b) := need (rd_u8 b) short in
  if negb (ver =? ENVELOPE_VERSION) then Err (EnvVersion ver)
  else
    let? (suite, b) := need (rd_u8 b) short in
    let? (kind, b) := need (rd_u8 b) short in
    if negb (suite =? SUITE_RATCHET) || negb (kind =? KIND_PAIR) then Err Unsupported
    else
      let? (id, b) := need (rd 16 b) short in
      let? (dh, b) := need (rd 32 b) short in
      let? (pn, b) := need (rd_int 4 b) short in
      let? (n, b) := need (rd_int 4 b) short in
      let? (flag, b) := need (rd_u8 b) short in
      let? (ek, b) := (if flag =? 0 then Ok (None, b)
                       else if flag =? 1 then let? (ek, b) := need (rd 32 b) short in Ok (Some ek, b)
                       else Err (Malformed (lit "init flag"))) in
      (* the header has at most 92 bytes, below [MAX_HEADER_BYTES] *)
      let? (ct_len, b) := need (rd_int 4 b) short in
      if negb ((Z.of_nat TAG_LEN <=? ct_len) && (ct_len <=? MAX_CIPHERTEXT)) then Err (Malformed (lit "ciphertext length"))
      else
        let? (ct, b) := need (rd (Z.to_nat ct_len) b) short in
        if negb (rd_done b) then Err (Malformed (lit "trailing bytes"))
        else Ok (mkEnv id (mkHeader dh pn n ek) ct).

Definition env_aad (id : bytes) (h : Header) (sender recipient : bytes) : bytes :=
  [ENVELOPE_VERSION; SUITE_RATCHET; KIND_PAIR] ++ id ++ header_bytes h ++ sender ++ recipient.

(** ** Keys *)

Record Identity := mkIdentity { id_key : bytes; dh_secret : bytes; dh_public : bytes }.

Record Step := mkStep { st_next : bytes; st_key : bytes; st_nonce : bytes }.

(** A message key kept for a message that has not arrived. *)
Record Skipped := mkSkipped { sk_dh : bytes; sk_n : Z; sk_key : bytes; sk_nonce : bytes }.

Record Session := mkSession {
  own_id : bytes; peer_id : bytes; root : bytes; dhs : bytes; dhs_pub : bytes; dhr : option bytes;
  cks : option bytes; ckr : option bytes; ns : Z; nr : Z; pn : Z; skipped : list Skipped;
  origin_ek : bytes; initiator : bool; pending_init : bool;
}.

(** The receiving chain, the sending chain and the store of keys of a session. *)
Definition set_recv (ck : option bytes) (n : Z) (sk : list Skipped) (s : Session) : Session :=
  mkSession (own_id s) (peer_id s) (root s) (dhs s) (dhs_pub s) (dhr s) (cks s) ck (ns s) n (pn s) sk
    (origin_ek s) (initiator s) (pending_init s).
Definition set_send (ck : option bytes) (n : Z) (s : Session) : Session :=
  mkSession (own_id s) (peer_id s) (root s) (dhs s) (dhs_pub s) (dhr s) ck (ckr s) n (nr s) (pn s) (skipped s)
    (origin_ek s) (initiator s) (pending_init s).
Definition set_answered (s : Session) : Session :=
  mkSession (own_id s) (peer_id s) (root s) (dhs s) (dhs_pub s) (dhr s) (cks s) (ckr s) (ns s) (nr s) (pn s) (skipped s)
    (origin_ek s) (initiator s) false.

Definition is_key (dhp : bytes) (n : Z) (k : Skipped) : bool := bool_decide (sk_dh k = dhp) && (sk_n k =? n).

(** [position] and [remove] of the first key of a message. *)
Fixpoint take_key (dhp : bytes) (n : Z) (l : list Skipped) : option (Skipped * list Skipped) :=
  match l with
  | [] => None
  | k :: l =>
    if is_key dhp n k then Some (k, l)
    else match take_key dhp n l with Some (x, l') => Some (x, k :: l') | None => None end
  end.

Section Ratchet.
Context `{RatchetCrypto} `{StateCipher} `{Crypto}.

Definition from_seed (seed : bytes) : Identity :=
  let secret := ed_scalar seed in mkIdentity (ed_id seed) secret (x_public secret).

Definition peer_dh_public (id : bytes) : result bytes CryptoError := ok_or (ed_montgomery id) BadKey.

Definition dh (secret public : bytes) : result bytes CryptoError := ok_or (x_dh secret public) NonContributory.

Definition kdf_root (root dh_out : bytes) : result (bytes * bytes) CryptoError :=
  let? out := ok_or (hkdf_expand root dh_out ROOT 64) BadState in
  Ok (take 32 out, drop 32 out).

Definition kdf_chain (ck : bytes) : result Step CryptoError :=
  let? next := ok_or (hkdf_prk ck CHAIN 32) BadState in
  let? mat := ok_or (hkdf_prk ck MESSAGE 56) BadState in
  Ok (mkStep next (take 32 mat) (drop 32 mat)).

Definition layer_key (msg_key pq dhp : bytes) (n : Z) : result bytes CryptoError :=
  ok_or (hkdf_expand PQ_LAYER (msg_key ++ pq) (dhp ++ be_bytes 4 n) 32) BadState.

Definition kdf_first_flight (dh1 dh2 id_a id_b ek_pub : bytes) : result bytes CryptoError :=
  ok_or (hkdf_expand X3DH (dh1 ++ dh2) (id_a ++ id_b ++ ek_pub) 32) BadState.

Definition msg_seal (key nonce aad buf : bytes) : result bytes CryptoError :=
  let? r := ok_or (xchacha_seal key nonce aad buf) BadState in Ok (r.1 ++ r.2).

Definition msg_open (key nonce aad ct : bytes) : result bytes CryptoError :=
  if (length ct <? TAG_LEN)%nat then Err NotAuthentic
  else
    let n := (length ct - TAG_LEN)%nat in
    ok_or (xchacha_open key nonce aad (take n ct) (drop n ct)) NotAuthentic.

Definition open_msg (key nonce aad ct : bytes) (layer : option bytes) (dhp : bytes) (n : Z) : result bytes CryptoError :=
  match layer with
  | Some pq =>
    let? lk := layer_key key pq dhp n in
    match msg_open lk nonce aad ct with Ok pt => Ok pt | Err _ => msg_open key nonce aad ct end
  | None => msg_open key nonce aad ct
  end.

(** ** Sessions *)

Definition new_initiator (me : Identity) (peer ek ratchet : bytes) : result Session CryptoError :=
  let? peer_dh := peer_dh_public peer in
  let ek_pub := x_public ek in
  let? dh1 := dh (dh_secret me) peer_dh in
  let? dh2 := dh ek peer_dh in
  let? sk := kdf_first_flight dh1 dh2 (id_key me) peer ek_pub in
  let? shared := dh ratchet peer_dh in
  let? (rk, ck) := kdf_root sk shared in
  Ok (mkSession (id_key me) peer rk ratchet (x_public ratchet) (Some peer_dh) (Some ck) None 0 0 0 [] ek_pub true true).

Definition new_responder (me : Identity) (peer peer_ek : bytes) : result Session CryptoError :=
  let? peer_dh := peer_dh_public peer in
  let? dh1 := dh (dh_secret me) peer_dh in
  let? dh2 := dh (dh_secret me) peer_ek in
  let? sk := kdf_first_flight dh1 dh2 peer (id_key me) peer_ek in
  Ok (mkSession (id_key me) peer sk (dh_secret me) (dh_public me) None None None 0 0 0 [] peer_ek false false).

(** The state changes on the last lines: a counter that would overflow is
    reported after the chain advanced. *)
Definition seal_with (s : Session) (plaintext : bytes) (layer : option bytes) (id : bytes) : Session * result Envelope CryptoError :=
  let sealed :=
    let? padded := pad plaintext in
    let? ck := ok_or (cks s) NoSendChain in
    let? step := kdf_chain ck in
    let h := mkHeader (dhs_pub s) (pn s) (ns s) (if pending_init s then Some (origin_ek s) else None) in
    let a := env_aad id h (own_id s) (peer_id s) in
    let? ct := match layer with
               | Some pq => let? lk := layer_key (st_key step) pq (dhs_pub s) (ns s) in msg_seal lk (st_nonce step) a padded
               | None => msg_seal (st_key step) (st_nonce step) a padded
               end in
    Ok (st_next step, mkEnv id h ct) in
  match sealed with
  | Err e => (s, Err e)
  | Ok (next, env) =>
    match checked_add u32_max (ns s) 1 with
    | Some n => (set_send (Some next) n s, Ok env)
    | None => (set_send (Some next) (ns s) s, Err BadState)
    end
  end.

Definition seal (s : Session) (plaintext id : bytes) : Session * result Envelope CryptoError := seal_with s plaintext None id.

(** The loop of [skip_until]. *)
Fixpoint skip_loop (count : nat) (dhp ck : bytes) (n : Z) (sk : list Skipped) : result (bytes * Z * list Skipped) CryptoError :=
  match count with
  | O => Ok (ck, n, sk)
  | S count =>
    let? step := kdf_chain ck in
    let sk := if MAX_STORED_SKIPPED <=? zlen sk then drop 1 sk else sk in
    skip_loop count dhp (st_next step) (n + 1) (sk ++ [mkSkipped dhp n (st_key step) (st_nonce step)])
  end.

Definition skip_until (s : Session) (until : Z) : result Session CryptoError :=
  match ckr s with
  | None => Ok s
  | Some ck =>
    if until <=? nr s then Ok s
    else if MAX_SKIP <? until - nr s then Err TooFarAhead
    else
      let? dhp := ok_or (dhr s) BadState in
      let? (ck', n, sk) := skip_loop (Z.to_nat (until - nr s)) dhp ck (nr s) (skipped s) in
      Ok (set_recv (Some ck') n sk s)
  end.

Definition dh_ratchet (s : Session) (peer_pub secret : bytes) : result Session CryptoError :=
  let? shared := dh (dhs s) peer_pub in
  let? (root1, ck_recv) := kdf_root (root s) shared in
  let? shared := dh secret peer_pub in
  let? (root2, ck_send) := kdf_root root1 shared in
  Ok (mkSession (own_id s) (peer_id s) root2 secret (x_public secret) (Some peer_pub) (Some ck_send) (Some ck_recv)
        0 0 (ns s) (skipped s) (origin_ek s) (initiator s) (pending_init s)).

(** A message whose key was not kept: the session it leads to. *)
Definition open_next (s : Session) (env : Envelope) (layer : option bytes) (secret : bytes) : result (Session * bytes) CryptoError :=
  let h := header env in
  let a := env_aad (env_id env) h (peer_id s) (own_id s) in
  let? next := (if negb (bool_decide (dhr s = Some (dh_pub h))) then
                  let? s := skip_until s (h_pn h) in dh_ratchet s (dh_pub h) secret
                else if h_n h <? nr s then Err Replay else Ok s) in
  let? next := skip_until next (h_n h) in
  let? ck := ok_or (ckr next) NotAuthentic in
  let? step := kdf_chain ck in
  let? padded := open_msg (st_key step) (st_nonce step) a (ciphertext env) layer (dh_pub h) (h_n h) in
  let? pt := unpad padded in
  let? n := ok_or (checked_add u32_max (nr next) 1) BadState in
  Ok (set_answered (set_recv (Some (st_next step)) n (skipped next) next), pt).

Definition open_with (s : Session) (env : Envelope) (layer : option bytes) (secret : bytes) : Session * result bytes CryptoError :=
  let h := header env in
  let a := env_aad (env_id env) h (peer_id s) (own_id s) in
  match take_key (dh_pub h) (h_n h) (skipped s) with
  | Some (k, rest) =>
    match (let? padded := open_msg (sk_key k) (sk_nonce k) a (ciphertext env) layer (sk_dh k) (sk_n k) in unpad padded) with
    | Ok pt => (set_recv (ckr s) (nr s) rest s, Ok pt)
    | Err e => (s, Err e)
    end
  | None =>
    match open_next s env layer secret with
    | Ok (s', pt) => (s', Ok pt)
    | Err e => (s, Err e)
    end
  end.

Definition open (s : Session) (env : Envelope) (secret : bytes) : Session * result bytes CryptoError := open_with s env None secret.

Definition accept (me : Identity) (peer : bytes) (env : Envelope) (secret : bytes) : result (Session * bytes) CryptoError :=
  let? ek := ok_or (init_ek (header env)) (Malformed (lit "no first-flight key")) in
  let? s := new_responder me peer ek in
  match open s env secret with (s', Ok pt) => Ok (s', pt) | (_, Err e) => Err e end.

(** ** The session file *)

Definition put_opt32 (v : option bytes) : bytes := match v with Some k => [1] ++ k | None => [0] end.

Definition get_opt32 (b : bytes) : option (option bytes * bytes) :=
  '(f, b) ← rd_u8 b;
  if f =? 0 then Some (None, b)
  else if f =? 1 then '(k, b) ← rd 32 b; Some (Some k, b)
  else None.

Definition put_skipped (k : Skipped) : bytes := sk_dh k ++ be_bytes 4 (sk_n k) ++ sk_key k ++ sk_nonce k.

Definition rd_skipped (b : bytes) : option (Skipped * bytes) :=
  '(dhp, b) ← rd 32 b; '(n, b) ← rd_int 4 b; '(key, b) ← rd 32 b; '(nonce, b) ← rd 24 b;
  Some (mkSkipped dhp n key nonce, b).

Definition session_bytes (s : Session) : bytes :=
  [STATE_VERSION] ++ own_id s ++ peer_id s ++ root s ++ dhs s ++ dhs_pub s ++
  put_opt32 (dhr s) ++ put_opt32 (cks s) ++ put_opt32 (ckr s) ++
  be_bytes 4 (ns s) ++ be_bytes 4 (nr s) ++ be_bytes 4 (pn s) ++ origin_ek s ++
  [Z.lor (if initiator s then 1 else 0) (Z.shiftl (if pending_init s then 1 else 0) 1)] ++
  be_bytes 4 (zlen (skipped s) mod 4294967296) ++ flat_map put_skipped (skipped s).

Definition session_from (b : bytes) : option Session :=
  '(v, b) ← rd_u8 b;
  if negb (v =? STATE_VERSION) then None
  else
    '(own, b) ← rd 32 b; '(peer, b) ← rd 32 b; '(rt, b) ← rd 32 b; '(secret, b) ← rd 32 b; '(public, b) ← rd 32 b;
    if negb (bool_decide (x_public secret = public)) then None
    else
      '(dhr_, b) ← get_opt32 b; '(cks_, b) ← get_opt32 b; '(ckr_, b) ← get_opt32 b;
      '(ns_, b) ← rd_int 4 b; '(nr_, b) ← rd_int 4 b; '(pn_, b) ← rd_int 4 b;
      '(ek, b) ← rd 32 b; '(flags, b) ← rd_u8 b; '(count, b) ← rd_int 4 b;
      if MAX_STORED_SKIPPED <? count then None
      else
        '(sk, b) ← rd_list rd_skipped (Z.to_nat count) b;
        if negb (rd_done b) then None
        else Some (mkSession own peer rt secret public dhr_ cks_ ckr_ ns_ nr_ pn_ sk ek
                     (negb (Z.land flags 1 =? 0)) (negb (Z.land flags 2 =? 0))).

(** [file_stem]. *)
Definition file_stem (own peer : bytes) : str := hex_encode (take 16 (blake3_derive FILE_NAME (own ++ peer))).

End Ratchet.

(** ** Padding and envelopes *)

Lemma strip_zeros n r : strip (replicate n 0 ++ 128 :: r) = Some r.
Proof. induction n as [|n IH]; [done|]. cbn [replicate app strip]. exact IH. Qed.

Lemma pad_length data p : pad data = Ok p -> zlen p ∈ PAD_BUCKETS.
Proof.
  unfold pad. destruct (List.find _ PAD_BUCKETS) as [b|] eqn:E; [|done]. intros [= <-].
  apply find_some in E as [Hin Hle]. enough (zlen (data ++ 128 :: replicate (Z.to_nat (b - (zlen data + 1))) 0) = b) as -> by (by apply list_elem_of_In).
  rewrite zlen_app, zlen_cons. unfold zlen in *. rewrite length_replicate. lia.
Qed.

(** What was padded is unpadded. *)
Lemma unpad_pad data p : pad data = Ok p -> unpad p = Ok data.
Proof.
  intros Hp. pose proof (pad_length data p Hp) as Hl. unfold unpad. rewrite bool_decide_eq_true_2 by done. cbn [negb].
  unfold pad in Hp. destruct (List.find _ PAD_BUCKETS) as [b|]; [|done]. injection Hp as <-.
  rewrite !rev_app_distr. cbn [rev app]. rewrite <- app_assoc. cbn [app].
  assert (forall n, rev (replicate n 0) = replicate n 0) as Hrev.
  { induction n as [|n IH]; [done|]. rewrite replicate_S_end at 1. rewrite rev_app_distr, IH. done. }
  rewrite Hrev, strip_zeros. by rewrite rev_involutive.
Qed.

Definition header_wf (h : Header) : Prop :=
  array 32 (dh_pub h) /\ in_u32 (h_pn h) /\ in_u32 (h_n h) /\ match init_ek h with Some ek => array 32 ek | None => True end.

Definition env_wf (e : Envelope) : Prop :=
  array 16 (env_id e) /\ header_wf (header e) /\ bytes_ok (ciphertext e) /\ 16 <= zlen (ciphertext e) <= MAX_CIPHERTEXT.

(** The bytes of an envelope with the right lengths are read back. *)
Lemma env_sized_decodes e : length (env_id e) = 16%nat -> header_wf (header e) -> 16 <= zlen (ciphertext e) <= MAX_CIPHERTEXT -> env_decode (env_encode e) = Ok e.
Proof.
  intros Hid ((Hd & _) & Hp & Hn & Hek) Hc. destruct e as [id [dhp pn n ek] ct]. cbn [env_id header ciphertext dh_pub h_pn h_n init_ek] in *.
  unfold MAX_CIPHERTEXT in Hc. unfold env_encode, env_decode, need, header_bytes. cbn [env_id header ciphertext dh_pub h_pn h_n init_ek app rd_u8 ok_or result_bind].
  change (negb (ENVELOPE_VERSION =? ENVELOPE_VERSION)) with false. change (negb (SUITE_RATCHET =? SUITE_RATCHET) || negb (KIND_PAIR =? KIND_PAIR)) with false.
  cbv iota. rewrite <- !app_assoc. rewrite (rd_app 16) by done. cbn [ok_or result_bind]. rewrite (rd_app 32) by done. cbn [ok_or result_bind].
  do 2 (rewrite rd_u32_app by done; cbn [ok_or result_bind]).
  rewrite Z.mod_small by lia. unfold MAX_CIPHERTEXT, TAG_LEN.
  assert (forall b, rd_u8 (match ek with Some ek => 1 :: ek | None => [0] end ++ b) =
    Some (match ek with Some _ => 1 | None => 0 end, match ek with Some ek => ek ++ b | None => b end)) as Hf by (by destruct ek).
  rewrite Hf. cbn [ok_or result_bind].
  destruct ek as [ek|]; [change (1 =? 0) with false; change (1 =? 1) with true|change (0 =? 0) with true];
    cbn [ok_or result_bind]; [rewrite (rd_app 32) by apply Hek; cbn [ok_or result_bind]|];
    rewrite rd_u32_app by ulia; cbn [ok_or result_bind];
    rewrite (proj2 (Z.leb_le _ _)), (proj2 (Z.leb_le (zlen ct) _)) by lia; cbn [andb negb];
    rewrite rd_all; cbn [ok_or result_bind]; done.
Qed.

Lemma env_decode_encode e : env_wf e -> env_decode (env_encode e) = Ok e.
Proof. intros ((Hid & _) & Hh & _ & Hc). by apply env_sized_decodes. Qed.

(** The decoder accepts only the byte forms of well-formed envelopes. *)
Lemma env_encode_decode b e : bytes_ok b -> env_decode b = Ok e -> env_encode e = b /\ env_wf e.
Proof.
  intros Hok. unfold env_decode, need.
  res_u8 ver r R. destruct (negb (ver =? ENVELOPE_VERSION)) eqn:Ev; [done|].
  res_u8 suite r1 R1. res_u8 kind r2 R2. destruct (_ || _) eqn:Es; [done|].
  res_bytes eid r3 L3 O3. res_bytes dhp r4 L4 O4. res_int pn r5 R5. res_int n r6 R6. res_u8 flag r7 R7.
  change (256 ^ Z.of_nat 4) with 4294967296 in *.
  destruct (if flag =? 0 then _ else _) as [[ek r8]|] eqn:Ek; [|done]. cbn [result_bind].
  assert (flag :: r7 = match ek with Some ek => 1 :: ek | None => [0] end ++ r8 /\ match ek with Some ek => array 32 ek | None => True end /\ bytes_ok r8)
    as (Hr7 & Hekw & Hok8).
  { destruct (Z.eqb_spec flag 0) as [->|]; [by injection Ek as <- <-|]. destruct (Z.eqb_spec flag 1) as [->|]; [|done].
    destruct (rd 32 r7) as [[k r']|] eqn:Er; [|done]. injection Ek as <- <-. apply rd_inv in Er as [-> Lk]. apply Forall_app in Hok as [Ok1 Ok2].
    split_and!; [done|by split|done]. }
  clear Ek Hok. rename Hok8 into Hok. res_int cl r9 R9. destruct (negb (_ && _)) eqn:Ec; [done|]. res_bytes ct r10 L10 O10.
  destruct (negb (rd_done r10)) eqn:Ed; [done|]. intros [= <-]. apply negb_false_iff, rd_done_true in Ed as ->.
  apply negb_false_iff, andb_true_iff in Ec as [E1%Z.leb_le E2%Z.leb_le]. apply negb_false_iff, Z.eqb_eq in Ev as ->.
  apply orb_false_iff in Es as [Es1%negb_false_iff%Z.eqb_eq Es2%negb_false_iff%Z.eqb_eq]. subst suite kind.
  assert (zlen ct = cl) as Hcl by (unfold zlen; lia). unfold MAX_CIPHERTEXT, TAG_LEN in *. split.
  - unfold env_encode, header_bytes. cbn [env_id header ciphertext dh_pub h_pn h_n init_ek]. rewrite Hcl, Z.mod_small by lia.
    cbn [app]. do 3 f_equal. rewrite <- !app_assoc. do 4 f_equal. by rewrite Hr7, app_nil_r.
  - unfold env_wf, header_wf, array. cbn [env_id header ciphertext dh_pub h_pn h_n init_ek]. unfold MAX_CIPHERTEXT. split_and!; try done; ulia.
Qed.

(** The envelope format is canonical: decoding gives back what was encoded, and
    accepts nothing else. *)
Theorem envelope_canonical e b :
  (env_wf e -> env_decode (env_encode e) = Ok e) /\ (bytes_ok b -> env_decode b = Ok e -> env_encode e = b /\ env_wf e).
Proof. split; [apply env_decode_encode|apply env_encode_decode]. Qed.

(** ** The session file *)

Section File.
Context `{RatchetCrypto}.

Definition skipped_wf (k : Skipped) : Prop :=
  array 32 (sk_dh k) /\ in_u32 (sk_n k) /\ array 32 (sk_key k) /\ array 24 (sk_nonce k).

Definition opt_wf (o : option bytes) : Prop := match o with Some k => array 32 k | None => True end.

(** Sessions as the code makes them. *)
Definition session_wf (s : Session) : Prop :=
  array 32 (own_id s) /\ array 32 (peer_id s) /\ array 32 (root s) /\ array 32 (dhs s) /\ array 32 (dhs_pub s) /\
  dhs_pub s = x_public (dhs s) /\ opt_wf (dhr s) /\ opt_wf (cks s) /\ opt_wf (ckr s) /\
  in_u32 (ns s) /\ in_u32 (nr s) /\ in_u32 (pn s) /\ array 32 (origin_ek s) /\
  Forall skipped_wf (skipped s) /\ zlen (skipped s) <= MAX_STORED_SKIPPED.

Lemma get_opt32_put o b : opt_wf o -> get_opt32 (put_opt32 o ++ b) = Some (o, b).
Proof. destruct o as [k|]; [|done]. intros [Hk _]. cbn [put_opt32 app]. unfold get_opt32. cbn. by rewrite (rd_app 32). Qed.

Lemma rd_skipped_put k b : skipped_wf k -> rd_skipped (put_skipped k ++ b) = Some (k, b).
Proof.
  intros ([Hd _] & Hn & [Hk _] & [Ho _]). unfold rd_skipped, put_skipped. rewrite <- !app_assoc.
  rewrite (rd_app 32) by done. cbn [mbind option_bind]. rewrite rd_u32_app by done. cbn [mbind option_bind].
  rewrite (rd_app 32) by done. cbn [mbind option_bind]. rewrite (rd_app 24) by done. cbn [mbind option_bind]. by destruct k.
Qed.

(** A session that is saved is loaded as it was. *)
Lemma session_reads_back s : session_wf s -> session_from (session_bytes s) = Some s.
Proof.
  intros ([Ho _] & [Hp _] & [Hr _] & [Hd _] & [Hq _] & Hpub & Hdhr & Hcks & Hckr & Hns & Hnr & Hpn & [He _] & Hsk & Hl).
  unfold MAX_STORED_SKIPPED in Hl. unfold session_bytes, session_from. cbn [app rd_u8 mbind option_bind].
  change (negb (STATE_VERSION =? STATE_VERSION)) with false. cbv iota.
  do 5 (rewrite (rd_app 32) by done; cbn [mbind option_bind]).
  rewrite bool_decide_eq_true_2 by done. cbn [negb]. do 3 (rewrite get_opt32_put by done; cbn [mbind option_bind]).
  do 3 (rewrite rd_u32_app by done; cbn [mbind option_bind]). rewrite (rd_app 32) by done. cbn [mbind option_bind app rd_u8].
  pose proof (zlen_nonneg (skipped s)). rewrite Z.mod_small, rd_u32_app by ulia. cbn [mbind option_bind].
  rewrite (proj2 (Z.ltb_ge _ _)) by (unfold MAX_STORED_SKIPPED; lia).
  rewrite <- (app_nil_r (flat_map put_skipped (skipped s))), (rd_list_app rd_skipped put_skipped skipped_wf) by (try apply rd_skipped_put; try done; unfold zlen; lia).
  cbn [mbind option_bind]. change (negb (rd_done [])) with false. cbv iota. destruct s as [a1 a2 a3 a4 a5 a6 a7 a8 a9 a10 a11 a12 a13 [] []]; done.
Qed.
End File.

(** ** Sessions stay well formed *)

Section Wf.
Context `{RatchetCrypto} `{StateCipher}.

(** Public keys have 32 bytes, and HKDF gives as many bytes as asked for. *)
Definition kdf_sized : Prop :=
  (forall s, array 32 (x_public s)) /\ (forall salt ikm info n out, hkdf_expand salt ikm info n = Some out -> array n out) /\
  (forall prk info n out, hkdf_prk prk info n = Some out -> array n out).

Context (Hz : kdf_sized).

Lemma array_take n m b : array (n + m) b -> array n (take n b) /\ array m (drop n b).
Proof.
  intros [Hl Hb]. split; split; rewrite ?length_take, ?length_drop; try lia; [by apply Forall_take|by apply Forall_drop].
Qed.

Lemma kdf_root_sized rt sh rk ck : kdf_root rt sh = Ok (rk, ck) -> array 32 rk /\ array 32 ck.
Proof.
  unfold kdf_root. destruct (hkdf_expand rt sh ROOT 64) as [out|] eqn:E; [|done]. intros [= <- <-]. apply Hz in E. by apply (array_take 32 32).
Qed.

Lemma kdf_chain_sized ck st : kdf_chain ck = Ok st -> array 32 (st_next st) /\ array 32 (st_key st) /\ array 24 (st_nonce st).
Proof.
  unfold kdf_chain. destruct (hkdf_prk ck CHAIN 32) as [o1|] eqn:E1; [|done]. destruct (hkdf_prk ck MESSAGE 56) as [o2|] eqn:E2; [|done].
  intros [= <-]. apply Hz in E1, E2. cbn [st_next st_key st_nonce]. by destruct (array_take 32 24 o2 E2).
Qed.

Lemma skip_loop_wf count dhp ck n sk ck' n' sk' :
  array 32 dhp -> array 32 ck -> 0 <= n -> n + Z.of_nat count <= u32_max -> Forall skipped_wf sk -> zlen sk <= MAX_STORED_SKIPPED ->
  skip_loop count dhp ck n sk = Ok (ck', n', sk') ->
  array 32 ck' /\ n' = n + Z.of_nat count /\ Forall skipped_wf sk' /\ zlen sk' <= MAX_STORED_SKIPPED.
Proof.
  intros Hd. revert ck n sk. induction count as [|count IH]; intros ck n sk Hck Hn Hmax Hsk Hl; cbn [skip_loop].
  - intros [= <- <- <-]. split_and!; try done. lia.
  - destruct (kdf_chain ck) as [st|] eqn:E; [|done]. cbn [result_bind]. intros Hrun. apply kdf_chain_sized in E as (H1 & H2 & H3).
    apply IH in Hrun as (? & -> & ? & ?); [split_and!; try done; lia|done|lia|lia| |].
    + apply Forall_app. split; [case_match; [by apply Forall_drop|done]|]. apply Forall_singleton. split_and!; try done; cbn; ulia.
    + rewrite zlen_app, zlen_cons, zlen_nil. unfold MAX_STORED_SKIPPED, zlen in *. destruct (Z.leb_spec 1024 (Z.of_nat (length sk))); rewrite ?length_drop; lia.
Qed.

Lemma skip_until_wf s until s' : in_u32 until -> session_wf s -> skip_until s until = Ok s' -> session_wf s'.
Proof.
  intros Hu Hwf. unfold skip_until. destruct (ckr s) as [ck|] eqn:Eck; [|by intros [= <-]]. destruct (Z.leb_spec until (nr s)); [by intros [= <-]|].
  destruct (MAX_SKIP <? until - nr s); [done|]. destruct (dhr s) as [dhp|] eqn:Edh; [|done]. cbn [ok_or result_bind].
  destruct (skip_loop _ _ _ _ _) as [[[ck' n] sk]|] eqn:El; [|done]. cbn [result_bind]. intros [= <-].
  unfold session_wf in *. rewrite Eck, Edh in Hwf. destruct Hwf as (W1 & W2 & W3 & W4 & W5 & W6 & W7 & W8 & W9 & W10 & W11 & W12 & W13 & W14 & W15).
  apply skip_loop_wf in El as (G1 & G2 & G3 & G4); try done; [|ulia..].
  cbn [set_recv own_id peer_id root dhs dhs_pub dhr cks ckr ns nr pn skipped origin_ek opt_wf]. rewrite Edh. split_and!; try done; ulia.
Qed.

Lemma dh_ratchet_wf s p secret s' : array 32 p -> array 32 secret -> session_wf s -> dh_ratchet s p secret = Ok s' -> session_wf s'.
Proof.
  intros Hp Hs (W1 & W2 & W3 & W4 & W5 & W6 & W7 & W8 & W9 & W10 & W11 & W12 & W13 & W14 & W15). unfold dh_ratchet.
  destruct (dh (dhs s) p); [|done]. cbn [result_bind]. destruct (kdf_root _ _) as [[r1 c1]|] eqn:E1; [|done]. cbn [result_bind].
  destruct (dh secret p); [|done]. cbn [result_bind]. destruct (kdf_root r1 _) as [[r2 c2]|] eqn:E2; [|done]. cbn [result_bind]. intros [= <-].
  apply kdf_root_sized in E1 as [? ?], E2 as [? ?]. unfold session_wf. cbn. split_and!; try done; try apply Hz; ulia.
Qed.

Lemma take_key_sub dhp n l x rest : take_key dhp n l = Some (x, rest) -> l ≡ₚ x :: rest.
Proof.
  revert rest. induction l as [|y l IH]; intros rest; cbn [take_key]; [done|]. destruct (is_key dhp n y); [by intros [= -> ->]|].
  destruct (take_key dhp n l) as [[z l']|]; [|done]. intros [= -> <-]. rewrite (IH l' eq_refl). apply Permutation_swap.
Qed.

Lemma open_next_wf s env layer secret s' pt :
  header_wf (header env) -> array 32 secret -> session_wf s -> open_next s env layer secret = Ok (s', pt) -> session_wf s'.
Proof.
  intros (Hd & Hpn & Hn & _) Hs Hwf. unfold open_next.
  destruct (if negb _ then _ else _) as [s1|] eqn:E1; [|done]. cbn [result_bind].
  assert (session_wf s1) as Hwf1.
  { destruct (negb _) in E1.
    - destruct (skip_until s _) as [s0|] eqn:E0; [|done]. cbn [result_bind] in E1. eapply dh_ratchet_wf; [exact Hd|exact Hs| |exact E1]. exact (skip_until_wf _ _ _ Hpn Hwf E0).
    - destruct (_ <? _) in E1; [done|]. by injection E1 as <-. }
  destruct (skip_until s1 _) as [s2|] eqn:E2; [|done]. cbn [result_bind]. pose proof (skip_until_wf _ _ _ Hn Hwf1 E2) as Hwf2.
  destruct (ckr s2) as [ck|]; [|done]. cbn [ok_or result_bind]. destruct (kdf_chain ck) as [st|] eqn:Est; [|done]. cbn [result_bind].
  destruct (open_msg _ _ _ _ _ _ _); [|done]. cbn [result_bind]. destruct (unpad _); [|done]. cbn [result_bind].
  unfold checked_add. destruct (Z.leb_spec (nr s2 + 1) u32_max); [|done]. cbn [ok_or result_bind]. intros [= <- <-].
  apply kdf_chain_sized in Est as (? & _). destruct Hwf2 as (W1 & W2 & W3 & W4 & W5 & W6 & W7 & W8 & W9 & W10 & W11 & W12 & W13 & W14 & W15).
  unfold session_wf. cbn. split_and!; try done. ulia.
Qed.

Lemma open_with_wf s env layer secret :
  header_wf (header env) -> array 32 secret -> session_wf s -> session_wf (open_with s env layer secret).1.
Proof.
  intros Hh Hs Hwf. unfold open_with. destruct (take_key _ _ _) as [[k rest]|] eqn:Ek.
  - apply take_key_sub in Ek. case_match; [|done]. destruct Hwf as (W1 & W2 & W3 & W4 & W5 & W6 & W7 & W8 & W9 & W10 & W11 & W12 & W13 & W14 & W15).
    unfold session_wf. cbn. split_and!; try done.
    + assert (Forall skipped_wf (k :: rest)) as Hall by (by rewrite <- Ek). by apply Forall_cons in Hall as [_ ?].
    + unfold zlen in *. rewrite Ek in W15. cbn [length] in W15. lia.
  - destruct (open_next s env layer secret) as [[s' pt]|] eqn:E; [|done]. by eapply open_next_wf.
Qed.

Lemma seal_with_wf s text layer id : session_wf s -> session_wf (seal_with s text layer id).1.
Proof.
  intros Hwf. unfold seal_with. match goal with |- session_wf (match ?x with _ => _ end).1 => destruct x as [[next env]|] eqn:E end; [|done].
  assert (array 32 next) as Hnx.
  { destruct (pad text); [|done]. cbn [result_bind] in E. destruct (cks s) as [ck|]; [|done]. cbn [ok_or result_bind] in E.
    destruct (kdf_chain ck) as [st|] eqn:Est; [|done]. cbn [result_bind] in E. apply kdf_chain_sized in Est as (Hnx & _).
    match type of E with context [match layer with Some _ => _ | None => ?n end] => destruct (match layer with Some _ => _ | None => n end); [|done] end.
    cbn [result_bind] in E. congruence. }
  destruct Hwf as (W1 & W2 & W3 & W4 & W5 & W6 & W7 & W8 & W9 & W10 & W11 & W12 & W13 & W14 & W15).
  unfold checked_add. destruct (Z.leb_spec (ns s + 1) u32_max); unfold session_wf; cbn; split_and!; try done; ulia.
Qed.

(** One session and whatever the peer and the network do to it. *)
Inductive SessionOp := SSeal (text : bytes) (layer : option bytes) (id : bytes) | SOpen (wire : bytes) (layer : option bytes) (secret : bytes) | SReload.

Definition session_step (s : Session) (op : SessionOp) : Session :=
  match op with
  | SSeal text layer id => (seal_with s text layer id).1
  | SOpen wire layer secret => match env_decode wire with Ok env => (open_with s env layer secret).1 | Err _ => s end
  | SReload => match session_from (session_bytes s) with Some s' => s' | None => s end
  end.

Definition session_op_ok (op : SessionOp) : Prop :=
  match op with SOpen wire _ secret => bytes_ok wire /\ array 32 secret | _ => True end.

Lemma session_step_wf s op : session_op_ok op -> session_wf s -> session_wf (session_step s op).
Proof.
  intros Hop Hwf. destruct op as [text layer id|wire layer secret|]; cbn [session_step].
  - by apply seal_with_wf.
  - destruct Hop as [Hw Hs]. destruct (env_decode wire) as [env|] eqn:E; [|done]. apply env_encode_decode in E as [_ (_ & Hh & _)]; [|done].
    by apply open_with_wf.
  - pose proof (session_reads_back s Hwf) as E. by rewrite E.
Qed.

Lemma initiator_wf me peer ek ratchet s :
  array 32 (id_key me) -> array 32 peer -> array 32 ratchet -> (forall m, ed_montgomery peer = Some m -> array 32 m) ->
  new_initiator me peer ek ratchet = Ok s -> session_wf s.
Proof.
  intros Hi Hp Hr Hm. unfold new_initiator, peer_dh_public. destruct (ed_montgomery peer) as [m|] eqn:Em; [|done]. cbn [ok_or result_bind].
  destruct (dh (dh_secret me) m); [|done]. cbn [result_bind]. destruct (dh ek m); [|done]. cbn [result_bind].
  destruct (kdf_first_flight _ _ _ _ _) as [sk|]; [|done]. cbn [result_bind]. destruct (dh ratchet m); [|done]. cbn [result_bind].
  destruct (kdf_root _ _) as [[rk ck]|] eqn:E; [|done]. cbn [result_bind]. intros [= <-]. apply kdf_root_sized in E as [? ?].
  specialize (Hm m eq_refl). unfold session_wf. cbn. split_and!; try done; try apply Hz; ulia.
Qed.

(** Whatever bytes arrive and however often the session is used, what is saved
    of it is read back exactly, the keys kept for missing messages stay within
    their bound, and a message that is refused changes nothing. *)
Theorem session_always_reads_back me peer ek ratchet s0 ops :
  array 32 (id_key me) -> array 32 peer -> array 32 ratchet -> (forall m, ed_montgomery peer = Some m -> array 32 m) ->
  new_initiator me peer ek ratchet = Ok s0 -> Forall session_op_ok ops ->
  let s := fold_left session_step ops s0 in
  session_from (session_bytes s) = Some s /\ zlen (skipped s) <= MAX_STORED_SKIPPED /\
  (forall env layer secret s' e, open_with s env layer secret = (s', Err e) -> s' = s).
Proof.
  intros Hi Hp Hr Hm E Hops s. assert (session_wf s) as Hwf.
  { pose proof (initiator_wf me peer ek ratchet s0 Hi Hp Hr Hm E) as H0w. unfold s. clear E s. revert s0 H0w.
    induction Hops as [|op ops Hop _ IH]; intros s0 H0w; [done|]. by apply IH, session_step_wf. }
  split_and!; [by apply session_reads_back|apply Hwf|]. intros env layer secret s' e. unfold open_with.
  destruct (take_key _ _ _) as [[k rest]|]; [|destruct (open_next s env layer secret) as [[]|]; [done|congruence]]. case_match; [done|congruence].
Qed.

End Wf.
