(* ===== verification/RatchetRun.v ===== *)
(** * RatchetRun: two people, one conversation

    Two sessions of [Ratchet] and a network between them that delivers sealed
    messages in any order and loses any of them.  As long as no more than
    [MAX_SKIP] messages of a direction are missing, every message opens to
    exactly its text, whichever way the two directions interleave and however
    often the ratchet turns. *)

From S2P Require Import Prelude Bytes Text Codec ErasureCode Dissolve Disk SealedState Ratchet.

(** ** What is assumed of the primitives *)

Section Laws.
Context `{RatchetCrypto}.

(** Diffie-Hellman agrees, and keys made from secrets always contribute. *)
Definition dh_agrees : Prop := forall a b, x_dh a (x_public b) = x_dh b (x_public a) /\ is_Some (x_dh a (x_public b)).

(** The Montgomery form of an endpoint id is the X25519 key of its scalar. *)
Definition ed_agrees : Prop := forall seed, ed_montgomery (ed_id seed) = Some (x_public (ed_scalar seed)).

(** HKDF gives as many bytes as asked for, up to 255 blocks; a key to expand
    from has at least one block. *)
Definition kdf_total : Prop :=
  (forall salt ikm info n, Z.of_nat n <= 8160 -> exists out, hkdf_expand salt ikm info n = Some out /\ length out = n) /\
  (forall prk info n, (32 <= length prk)%nat -> Z.of_nat n <= 8160 -> exists out, hkdf_prk prk info n = Some out /\ length out = n).

End Laws.

(** ** The conversation *)

Record Posted := mkPosted { to_bob : bool; po_env : Envelope; po_text : bytes; po_layer : option bytes }.

(** The two sessions (the second from the first message on), what was sent and
    the numbers of the messages that were opened. *)
Record Duo := mkDuo { alice : Session; bob : option Session; net : list Posted; opened : list nat }.

Inductive DuoOp :=
| DSeal (by_alice : bool) (text : bytes) (layer : option bytes) (id : bytes)
| DDeliver (k : nat) (secret : bytes).

Section Duo.
Context `{RatchetCrypto} `{StateCipher}.
Variables (seed_a seed_b : bytes).

Definition id_a : Identity := from_seed seed_a.
Definition id_b : Identity := from_seed seed_b.

Definition duo_step (d : Duo) (op : DuoOp) : Duo * option (result bytes CryptoError) :=
  match op with
  | DSeal true text layer id =>
    match seal_with (alice d) text layer id with
    | (s, Ok env) => (mkDuo s (bob d) (net d ++ [mkPosted true env text layer]) (opened d), None)
    | (s, Err _) => (mkDuo s (bob d) (net d) (opened d), None)
    end
  | DSeal false text layer id =>
    match bob d with
    | None => (d, None)
    | Some s =>
      match seal_with s text layer id with
      | (s, Ok env) => (mkDuo (alice d) (Some s) (net d ++ [mkPosted false env text layer]) (opened d), None)
      | (s, Err _) => (mkDuo (alice d) (Some s) (net d) (opened d), None)
      end
    end
  | DDeliver k secret =>
    match net d !! k with
    | None => (d, None)
    | Some p =>
      if to_bob p then
        match bob d with
        | Some s =>
          match open_with s (po_env p) (po_layer p) secret with
          | (s, Ok pt) => (mkDuo (alice d) (Some s) (net d) (k :: opened d), Some (Ok pt))
          | (s, Err e) => (mkDuo (alice d) (Some s) (net d) (opened d), Some (Err e))
          end
        | None =>
          match accept id_b (id_key id_a) (po_env p) secret with
          | Ok (s, pt) => (mkDuo (alice d) (Some s) (net d) (k :: opened d), Some (Ok pt))
          | Err e => (d, Some (Err e))
          end
        end
      else
        match open_with (alice d) (po_env p) (po_layer p) secret with
        | (s, Ok pt) => (mkDuo s (bob d) (net d) (k :: opened d), Some (Ok pt))
        | (s, Err e) => (mkDuo s (bob d) (net d) (opened d), Some (Err e))
        end
    end
  end.

(** The messages of a direction that were not opened. *)
Definition unopened (d : Duo) (dir : bool) (j : nat) : bool :=
  match net d !! j with Some p => Bool.eqb (to_bob p) dir && negb (bool_decide (j ∈ opened d)) | None => false end.

Definition missing (d : Duo) (dir : bool) : nat := length (List.filter (unopened d dir) (seq 0 (length (net d)))).

(** The chain a receiver is on. *)
Definition receiver_on (d : Duo) (p : Posted) : Prop :=
  (if to_bob p then (bob d ≫= dhr) else dhr (alice d)) = Some (dh_pub (header (po_env p))).

(** A delivery the network may make: a message that was not opened, while few
    are missing; or once more a message of the current chain.  The first
    message of all is a plain one. *)
Definition allowed (d : Duo) (op : DuoOp) : Prop :=
  match op with
  | DSeal _ _ _ _ => True
  | DDeliver k _ =>
    exists p, net d !! k = Some p /\
      (((k ∉ opened d) /\ Z.of_nat (missing d (to_bob p)) <= MAX_SKIP /\ (bob d = None -> po_layer p = None)) \/
       (k ∈ opened d /\ receiver_on d p))
  end.

(** A fitting message that is sealed is posted; a message that is delivered
    opens to its text, and a second time is refused. *)
Definition right (d : Duo) (op : DuoOp) : Prop :=
  let '(d', r) := duo_step d op in
  match op with
  | DSeal by_alice text layer _ =>
    by_alice = true \/ is_Some (bob d) -> zlen text < 16384 ->
    exists env, net d' = net d ++ [mkPosted by_alice env text layer]
  | DDeliver k _ =>
    exists p, net d !! k = Some p /\
      (if bool_decide (k ∈ opened d) then r = Some (Err Replay) /\ d' = d else r = Some (Ok (po_text p)))
  end.

Fixpoint all_allowed (d : Duo) (ops : list DuoOp) : Prop :=
  match ops with [] => True | op :: ops => allowed d op /\ all_allowed (duo_step d op).1 ops end.

Fixpoint all_right (d : Duo) (ops : list DuoOp) : Prop :=
  match ops with [] => True | op :: ops => right d op /\ all_right (duo_step d op).1 ops end.

(** The secrets the ratchet may draw in a run. *)
Definition secrets (ops : list DuoOp) : list bytes :=
  flat_map (fun op => match op with DDeliver _ x => [x] | _ => [] end) ops.

End Duo.

(** ** Chains *)

Section Chains.
Context `{RatchetCrypto} `{StateCipher} (Hc : cipher_correct) (Ht : cipher_total) (Hk : kdf_total) (Hdh : dh_agrees).

(** The chain key after [n] messages. *)
Fixpoint chain_at (ck : bytes) (n : nat) : bytes :=
  match n with
  | O => ck
  | S n => match kdf_chain (chain_at ck n) with Ok st => st_next st | Err _ => [] end
  end.

(** The step of message [n] of a chain. *)
Definition step_at (ck : bytes) (n : nat) : Step :=
  match kdf_chain (chain_at ck n) with Ok st => st | Err _ => mkStep [] [] [] end.

Lemma kdf_chain_total ck : (32 <= length ck)%nat -> exists st, kdf_chain ck = Ok st /\ length (st_next st) = 32%nat.
Proof.
  intros Hl. unfold kdf_chain. destruct (proj2 Hk ck CHAIN 32%nat Hl ltac:(lia)) as (o1 & -> & H1).
  destruct (proj2 Hk ck MESSAGE 56%nat Hl ltac:(lia)) as (o2 & -> & H2). by eexists.
Qed.

Lemma chain_at_length ck n : length ck = 32%nat -> length (chain_at ck n) = 32%nat.
Proof.
  intros Hl. induction n as [|n IH]; [done|]. cbn [chain_at]. by destruct (kdf_chain_total (chain_at ck n)) as (st & -> & ?); [lia|].
Qed.

Lemma kdf_step_at ck n : length ck = 32%nat -> kdf_chain (chain_at ck n) = Ok (step_at ck n) /\ st_next (step_at ck n) = chain_at ck (S n).
Proof.
  intros Hl. unfold step_at. cbn [chain_at]. destruct (kdf_chain_total (chain_at ck n)) as (st & -> & _); [|done].
  rewrite chain_at_length by done. done.
Qed.

Lemma kdf_root_total rt sh : exists rk ck, kdf_root rt sh = Ok (rk, ck) /\ length ck = 32%nat.
Proof.
  unfold kdf_root. destruct (proj1 Hk rt sh ROOT 64%nat ltac:(lia)) as (out & -> & Hl). cbn. eexists _, _. split; [done|].
  rewrite length_drop. lia.
Qed.

Lemma layer_key_total key pq dhp n : exists lk, layer_key key pq dhp n = Ok lk.
Proof. unfold layer_key. destruct (proj1 Hk PQ_LAYER (key ++ pq) (dhp ++ be_bytes 4 n) 32%nat ltac:(lia)) as (out & -> & _). by eexists. Qed.

(** The ciphertext of message [n] of a chain. *)
Definition sealed_at (ck dhp : bytes) (n : nat) (aad : bytes) (layer : option bytes) (text ct : bytes) : Prop :=
  let st := step_at ck n in
  exists padded, pad text = Ok padded /\
    match layer with
    | Some pq => exists lk, layer_key (st_key st) pq dhp (Z.of_nat n) = Ok lk /\ msg_seal lk (st_nonce st) aad padded = Ok ct
    | None => msg_seal (st_key st) (st_nonce st) aad padded = Ok ct
    end.

Lemma msg_open_seal key nonce aad p ct : msg_seal key nonce aad p = Ok ct -> msg_open key nonce aad ct = Ok p.
Proof.
  unfold msg_seal, msg_open. destruct (xchacha_seal key nonce aad p) as [[c tag]|] eqn:E; [|done]. intros [= <-].
  destruct (Hc _ _ _ _ _ _ E) as (H1 & H2 & H3). cbn [fst snd]. rewrite length_app, H2, (proj2 (Nat.ltb_ge _ _)) by (unfold TAG_LEN; lia).
  replace (length c + 16 - TAG_LEN)%nat with (length c) by (unfold TAG_LEN; lia).
  rewrite take_app_length, drop_app_length, H3. done.
Qed.

Lemma open_sealed ck dhp n aad layer text ct :
  sealed_at ck dhp n aad layer text ct ->
  exists padded, open_msg (st_key (step_at ck n)) (st_nonce (step_at ck n)) aad ct layer dhp (Z.of_nat n) = Ok padded /\ unpad padded = Ok text.
Proof.
  intros (padded & Hp & Hs). exists padded. split; [|by apply unpad_pad]. unfold open_msg. destruct layer as [pq|].
  - destruct Hs as (lk & -> & Hs). cbn [result_bind]. by rewrite (msg_open_seal _ _ _ _ _ Hs).
  - by apply msg_open_seal.
Qed.

(** A text that fits can be sealed. *)
Lemma seal_total ck dhp n aad layer text : zlen text < 16384 -> exists ct, sealed_at ck dhp n aad layer text ct.
Proof.
  intros Hl. unfold sealed_at. destruct (pad text) as [padded|e] eqn:Ep.
  2: { exfalso. unfold pad in Ep. destruct (List.find _ PAD_BUCKETS) as [b|] eqn:Ef; [done|].
       assert (16384 ∈ PAD_BUCKETS) as Hin by (unfold PAD_BUCKETS; set_solver). apply list_elem_of_In in Hin.
       pose proof (List.find_none _ _ Ef _ Hin). cbv beta in *. lia. }
  assert (zlen padded <= 16384) as Hp.
  { pose proof (pad_length text padded Ep) as Hin. unfold PAD_BUCKETS in Hin. set_unfold. lia. }
  assert (forall key nonce, exists ct, msg_seal key nonce aad padded = Ok ct) as Hs.
  { intros key nonce. unfold msg_seal. destruct (Ht key nonce aad padded) as [r ->]; [lia|]. by eexists. }
  destruct layer as [pq|].
  - destruct (layer_key_total (st_key (step_at ck n)) pq dhp (Z.of_nat n)) as [lk Hlk].
    destruct (Hs lk (st_nonce (step_at ck n))) as [ct Hct]. exists ct, padded. split; [done|]. by exists lk.
  - destruct (Hs (st_key (step_at ck n)) (st_nonce (step_at ck n))) as [ct Hct]. by exists ct, padded.
Qed.

(** The kept key of message [n] of a chain. *)
Definition entry (dhp ck : bytes) (n : nat) : Skipped := mkSkipped dhp (Z.of_nat n) (st_key (step_at ck n)) (st_nonce (step_at ck n)).

Lemma skip_loop_at m dhp ck a sk :
  length ck = 32%nat -> zlen sk + Z.of_nat m <= MAX_STORED_SKIPPED ->
  skip_loop m dhp (chain_at ck a) (Z.of_nat a) sk = Ok (chain_at ck (a + m), Z.of_nat (a + m), sk ++ map (entry dhp ck) (seq a m)).
Proof.
  intros Hl. revert a sk. induction m as [|m IH]; intros a sk Hm; cbn [skip_loop seq map].
  - by rewrite Nat.add_0_r, app_nil_r.
  - destruct (kdf_step_at ck a Hl) as [-> Hn]. cbn [result_bind]. rewrite (proj2 (Z.leb_gt _ _)) by lia. rewrite Hn.
    replace (Z.of_nat a + 1) with (Z.of_nat (S a)) by lia. rewrite IH by (rewrite zlen_app; unfold zlen in *; cbn [length]; lia).
    rewrite <- app_assoc. cbn [app]. by replace (S a + m)%nat with (a + S m)%nat by lia.
Qed.

End Chains.

(** ** The ratchet keys of a conversation

    Each ratchet key opens an epoch: the chain its owner sends on.  Epoch 0 is
    the identity key of the second person, who sends nothing on it; the first
    person owns the odd epochs, the second the even ones. *)

Record Epoch := mkEpoch { ep_secret : bytes; ep_root : bytes; ep_ck : bytes; ep_sent : list nat }.

Definition ep (eps : list Epoch) (c : nat) : Epoch := nth c eps (mkEpoch [] [] [] []).
Definition cnt (eps : list Epoch) (c : nat) : nat := length (ep_sent (ep eps c)).

(** [k] is the number of message [n] of epoch [c]. *)
Definition sent_at (eps : list Epoch) (c n k : nat) : Prop := ep_sent (ep eps c) !! n = Some k.

Definition pn_of (eps : list Epoch) (i : nat) : Z := match i with S (S j) => Z.of_nat (cnt eps j) | _ => 0 end.

Lemma sent_at_lt eps c n k : sent_at eps c n k -> (n < cnt eps c)%nat.
Proof. apply lookup_lt_Some. Qed.

Lemma sent_at_cnt eps c n : (n < cnt eps c)%nat -> exists k, sent_at eps c n k.
Proof. intros Hn. apply lookup_lt_is_Some_2 in Hn as [k Hk]. by exists k. Qed.

Lemma ep_app eps e c : (c < length eps)%nat -> ep (eps ++ [e]) c = ep eps c.
Proof. intros Hc. unfold ep. by apply app_nth1. Qed.

Lemma ep_last eps e : ep (eps ++ [e]) (length eps) = e.
Proof. unfold ep. rewrite app_nth2 by lia. by rewrite Nat.sub_diag. Qed.

Lemma ep_out eps c : (length eps <= c)%nat -> ep eps c = mkEpoch [] [] [] [].
Proof. apply nth_overflow. Qed.

Lemma odd_pred i : (1 <= i)%nat -> Nat.odd (i - 1) = negb (Nat.odd i).
Proof. intros Hi. destruct i as [|i]; [lia|]. cbn [Nat.sub]. rewrite Nat.sub_0_r, Nat.odd_succ, <- Nat.negb_odd. by destruct (Nat.odd i). Qed.

Section Epochs.
Context `{RatchetCrypto} `{StateCipher} (Hc : cipher_correct) (Ht : cipher_total) (Hk : kdf_total) (Hdh : dh_agrees).
Implicit Types (eps : list Epoch) (s : Session).

Definition pub eps (c : nat) : bytes := x_public (ep_secret (ep eps c)).

(** Each epoch follows from the one before by one turn of the ratchet. *)
Definition linked eps : Prop :=
  forall i, (S i < length eps)%nat -> exists sh,
    x_dh (ep_secret (ep eps (S i))) (pub eps i) = Some sh /\
    kdf_root (ep_root (ep eps i)) sh = Ok (ep_root (ep eps (S i)), ep_ck (ep eps (S i))).

Definition distinct eps : Prop := NoDup ((fun e => x_public (ep_secret e)) <$> eps).

Lemma pub_inj eps c c' : distinct eps -> (c < length eps)%nat -> (c' < length eps)%nat -> pub eps c = pub eps c' -> c = c'.
Proof.
  intros Hd H1 H2 E. eapply (NoDup_lookup _ c c' (pub eps c) Hd); rewrite list_lookup_fmap.
  - destruct (lookup_lt_is_Some_2 eps c H1) as [e He]. rewrite He. cbn. unfold pub, ep. by erewrite nth_lookup_Some by exact He.
  - rewrite E. destruct (lookup_lt_is_Some_2 eps c' H2) as [e He]. rewrite He. cbn. unfold pub, ep. by erewrite nth_lookup_Some by exact He.
Qed.

Lemma linked_ck eps i : linked eps -> (S i < length eps)%nat -> length (ep_ck (ep eps (S i))) = 32%nat.
Proof.
  intros Hl Hi. destruct (Hl i Hi) as (sh & _ & E). destruct (kdf_root_total Hk (ep_root (ep eps i)) sh) as (rk & ck & E' & Hck). congruence.
Qed.

(** ** Where a session is *)

(** The messages of the other side that the receiving chain went past. *)
Definition passed (i r c n : nat) : Prop := (c < i)%nat /\ Nat.odd c = negb (Nat.odd i) /\ (S c = i -> (n < r)%nat).

(** The kept keys are those of the messages that were passed and not opened. *)
Record store eps (op : list nat) (i r : nat) (sk : list Skipped) : Prop := {
  st_sound x : x ∈ sk -> exists c n k, passed i r c n /\ sent_at eps c n k /\ (k ∉ op) /\ x = entry (pub eps c) (ep_ck (ep eps c)) n;
  st_complete c n k : passed i r c n -> sent_at eps c n k -> k ∉ op -> entry (pub eps c) (ep_ck (ep eps c)) n ∈ sk;
  st_nodup : NoDup ((fun x => (sk_dh x, sk_n x)) <$> sk);
}.

(** The session sends on epoch [i] and went past [r] messages of the epoch
    before. *)
Record on eps (op : list nat) s (i r : nat) (own peer : bytes) : Prop := {
  on_lt : (i < length eps)%nat;
  on_own : own_id s = own;
  on_peer : peer_id s = peer;
  on_dhs : dhs s = ep_secret (ep eps i);
  on_pub : dhs_pub s = pub eps i;
  on_root : root s = ep_root (ep eps i);
  on_ns : ns s = Z.of_nat (cnt eps i);
  on_cks : cks s = match i with O => None | S _ => Some (chain_at (ep_ck (ep eps i)) (cnt eps i)) end;
  on_pn : pn s = pn_of eps i;
  on_dhr : dhr s = match i with O => None | S j => Some (pub eps j) end;
  on_nr : nr s = Z.of_nat r;
  on_r : (r <= cnt eps (i - 1))%nat;
  on_ckr : ckr s = match i with S (S j) => Some (chain_at (ep_ck (ep eps (S j))) r) | _ => None end;
  on_ahead c n k : Nat.odd c = negb (Nat.odd i) -> ~ passed i r c n -> sent_at eps c n k -> k ∉ op;
  on_store : store eps op i r (skipped s);
}.

(** Every message was sealed on its epoch, and is known by one number. *)
Record posts eps (pn : list Posted) (ida idb : bytes) : Prop := {
  po_genuine c n k : sent_at eps c n k -> exists p, pn !! k = Some p /\ to_bob p = Nat.odd c /\
    let h := header (po_env p) in
    dh_pub h = pub eps c /\ h_pn h = pn_of eps c /\ h_n h = Z.of_nat n /\
    sealed_at (ep_ck (ep eps c)) (pub eps c) n
      (env_aad (env_id (po_env p)) h (if Nat.odd c then ida else idb) (if Nat.odd c then idb else ida))
      (po_layer p) (po_text p) (ciphertext (po_env p));
  po_known k p : pn !! k = Some p -> exists c n, sent_at eps c n k;
  po_once c n c' n' k : sent_at eps c n k -> sent_at eps c' n' k -> c = c' /\ n = n';
  po_zero : ep_sent (ep eps 0) = [];
}.

Lemma sent_in eps c n k : sent_at eps c n k -> (c < length eps)%nat.
Proof.
  intros Hs. destruct (Nat.lt_ge_cases c (length eps)) as [|Hge]; [done|]. unfold sent_at in Hs. by rewrite (ep_out eps c Hge) in Hs.
Qed.

Lemma cnt_zero eps pn ida idb : posts eps pn ida idb -> cnt eps 0 = 0%nat.
Proof. intros Hp. unfold cnt. by rewrite (po_zero _ _ _ _ Hp). Qed.

(** *** Taking a key out of the store *)

Lemma take_key_some dhp n l x rest :
  take_key dhp n l = Some (x, rest) -> sk_dh x = dhp /\ sk_n x = n /\ l ≡ₚ x :: rest.
Proof.
  revert rest. induction l as [|y l IH]; intros rest; cbn [take_key]; [done|]. destruct (is_key dhp n y) eqn:E.
  - intros [= -> ->]. unfold is_key in E. apply andb_true_iff in E as [E1%bool_decide_eq_true E2%Z.eqb_eq]. done.
  - destruct (take_key dhp n l) as [[z l']|]; [|done]. intros [= -> <-]. destruct (IH l' eq_refl) as (H1 & H2 & H3).
    split_and!; [done..|]. rewrite H3. apply Permutation_swap.
Qed.

Lemma take_key_none dhp n l x : take_key dhp n l = None -> x ∈ l -> ~ (sk_dh x = dhp /\ sk_n x = n).
Proof.
  induction l as [|y l IH]; cbn [take_key]; intros E Hx [H1 H2]; [by apply not_elem_of_nil in Hx|].
  destruct (is_key dhp n y) eqn:Ey; [done|]. destruct (take_key dhp n l) as [[z l']|]; [done|].
  apply elem_of_cons in Hx as [->|Hx]; [|by apply IH]. unfold is_key in Ey. rewrite H1, H2, bool_decide_eq_true_2, Z.eqb_refl in Ey by done. done.
Qed.

(** *** Along one chain *)

Lemma set_recv_same s ck n sk : ckr s = ck -> nr s = n -> skipped s = sk -> set_recv ck n sk s = s.
Proof. intros <- <- <-. by destruct s. Qed.

Lemma skip_until_at s dhp ck r n :
  length ck = 32%nat -> ckr s = Some (chain_at ck r) -> nr s = Z.of_nat r -> dhr s = Some dhp -> (r <= n)%nat ->
  Z.of_nat (n - r) <= MAX_SKIP -> zlen (skipped s) <= MAX_SKIP ->
  skip_until s (Z.of_nat n) =
  Ok (set_recv (Some (chain_at ck n)) (Z.of_nat n) (skipped s ++ map (entry dhp ck) (seq r (n - r))) s).
Proof.
  intros Hl Hck Hnr Hdhr Hle Hgap Hst. unfold skip_until. rewrite Hck, Hnr, Hdhr. destruct (Z.leb_spec (Z.of_nat n) (Z.of_nat r)).
  - assert (n = r) as -> by lia. rewrite Nat.sub_diag. cbn [seq map]. by rewrite app_nil_r, set_recv_same.
  - rewrite (proj2 (Z.ltb_ge _ _)) by lia. cbn [ok_or result_bind]. replace (Z.to_nat (Z.of_nat n - Z.of_nat r)) with (n - r)%nat by lia.
    rewrite (skip_loop_at Hk) by (try done; unfold MAX_STORED_SKIPPED, MAX_SKIP in *; lia). cbn [result_bind].
    by replace (r + (n - r))%nat with n by lia.
Qed.

(** The session after message [n] of the receiving chain was opened. *)
Definition advanced s (dhp ck : bytes) (r n : nat) : Session :=
  set_answered (set_recv (Some (chain_at ck (S n))) (Z.of_nat (S n)) (skipped s ++ map (entry dhp ck) (seq r (n - r))) s).

(** The part of [open_next] after the ratchet. *)
Definition open_tail (next : Session) (env : Envelope) (layer : option bytes) (a : bytes) : result (Session * bytes) CryptoError :=
  let h := header env in
  let? next := skip_until next (h_n h) in
  let? ck := ok_or (ckr next) NotAuthentic in
  let? step := kdf_chain ck in
  let? padded := open_msg (st_key step) (st_nonce step) a (ciphertext env) layer (dh_pub h) (h_n h) in
  let? pt := unpad padded in
  let? n := ok_or (checked_add u32_max (nr next) 1) BadState in
  Ok (set_answered (set_recv (Some (st_next step)) n (skipped next) next), pt).

Lemma open_tail_at s env layer a text dhp ck r n :
  length ck = 32%nat -> ckr s = Some (chain_at ck r) -> nr s = Z.of_nat r -> dhr s = Some dhp -> (r <= n)%nat ->
  Z.of_nat (n - r) <= MAX_SKIP -> zlen (skipped s) <= MAX_SKIP -> Z.of_nat n < u32_max ->
  dh_pub (header env) = dhp -> h_n (header env) = Z.of_nat n -> sealed_at ck dhp n a layer text (ciphertext env) ->
  open_tail s env layer a = Ok (advanced s dhp ck r n, text).
Proof.
  intros Hl Hck Hnr Hdhr Hle Hgap Hst Hmax Hd Hn Hs. unfold open_tail. rewrite Hn, Hd.
  rewrite (skip_until_at s dhp ck r n) by done. cbn [result_bind ckr set_recv ok_or].
  destruct (kdf_step_at Hk ck n Hl) as [-> Hnx]. cbn [result_bind].
  destruct (open_sealed Hc _ _ _ _ _ _ _ Hs) as (padded & -> & Hu). cbn [result_bind]. rewrite Hu. cbn [result_bind nr set_recv].
  unfold checked_add. rewrite (proj2 (Z.leb_le _ _)) by lia. cbn [ok_or result_bind].
  unfold advanced. rewrite Hnx. by replace (Z.of_nat n + 1) with (Z.of_nat (S n)) by lia.
Qed.

(** *** How the store grows and shrinks *)

Lemma entry_keys eps c n : sk_dh (entry (pub eps c) (ep_ck (ep eps c)) n) = pub eps c /\ sk_n (entry (pub eps c) (ep_ck (ep eps c)) n) = Z.of_nat n.
Proof. done. Qed.

(** The receiving chain goes past messages [r] to [r' - 1]. *)
Lemma store_skip eps op i r r' sk :
  distinct eps -> (S i < length eps \/ S i = length eps)%nat -> (1 <= i)%nat -> (r <= r' <= cnt eps (i - 1))%nat ->
  (forall n k, (r <= n)%nat -> sent_at eps (i - 1) n k -> k ∉ op) ->
  store eps op i r sk -> store eps op i r' (sk ++ map (entry (pub eps (i - 1)) (ep_ck (ep eps (i - 1)))) (seq r (r' - r))).
Proof.
  intros Hd Hlen Hi Hr Hahead [H1 H2 H3]. split.
  - intros x [Hx|Hx]%elem_of_app.
    + destruct (H1 x Hx) as (c & n & k & (Hp1 & Hp2 & Hp3) & Hs & Hop & ->). exists c, n, k. split_and!; try done. split_and!; try done.
      intros Hci. specialize (Hp3 Hci). lia.
    + apply list_elem_of_In, in_map_iff in Hx as (n & <- & Hn%in_seq). destruct (sent_at_cnt eps (i - 1) n) as [k Hs]; [lia|].
      exists (i - 1)%nat, n, k. split_and!; [|done|apply (Hahead n k); [lia|done]|done]. split_and!; [lia| |lia].
      destruct i as [|i]; [lia|]. cbn [Nat.sub]. rewrite Nat.sub_0_r, Nat.odd_succ. symmetry. rewrite <- Nat.negb_odd. apply negb_involutive.
  - intros c n k (Hp1 & Hp2 & Hp3) Hs Hop. apply elem_of_app. destruct (decide (S c = i /\ (r <= n)%nat)) as [[Hci Hn]|Hn].
    + right. subst i. cbn [Nat.sub] in *. rewrite Nat.sub_0_r in *. apply list_elem_of_In, in_map_iff. exists n. split; [done|]. apply in_seq. specialize (Hp3 eq_refl). lia.
    + left. apply (H2 c n k); [|done..]. split_and!; [done..|]. intros Hci. destruct (Nat.lt_ge_cases n r); [done|]. by destruct Hn.
  - rewrite fmap_app. apply NoDup_app. split_and!; [done| |].
    + intros p Hp Hp'. apply list_elem_of_fmap_1 in Hp as (x & -> & Hx). apply list_elem_of_fmap_1 in Hp' as (y & E & Hy).
      apply list_elem_of_In, in_map_iff in Hy as (n & <- & Hn%in_seq). destruct (H1 x Hx) as (c & m & k & (Hp1 & Hp2 & Hp3) & Hs & Hop & ->).
      cbn in E. injection E as E1 E2. apply pub_inj in E1; [|done|by eapply sent_in|lia]. assert (m = n) as -> by lia.
      specialize (Hp3 ltac:(lia)). lia.
    + assert (forall dhp ck m a, NoDup ((fun x => (sk_dh x, sk_n x)) <$> map (entry dhp ck) (seq a m))) as Hnd.
      { intros dhp ck. induction m as [|m IH]; intros a; [constructor|]. cbn. constructor; [|apply IH]. intros Hin.
        apply list_elem_of_fmap_1 in Hin as (y & E & Hy). apply list_elem_of_In, in_map_iff in Hy as (n & <- & Hn%in_seq). cbn in E. injection E. lia. }
      apply Hnd.
Qed.

(** A message is opened whose key was kept. *)
Lemma store_take eps op i r sk c n k rest :
  distinct eps -> (forall c n c' n' k, sent_at eps c n k -> sent_at eps c' n' k -> c = c' /\ n = n') ->
  sent_at eps c n k -> store eps op i r sk -> sk ≡ₚ entry (pub eps c) (ep_ck (ep eps c)) n :: rest -> store eps (k :: op) i r rest.
Proof.
  intros Hd Honce Hs [H1 H2 H3] Hp.
  assert (NoDup ((fun x => (sk_dh x, sk_n x)) <$> (entry (pub eps c) (ep_ck (ep eps c)) n :: rest))) as Hnd by (by rewrite <- Hp).
  cbn [fmap list_fmap] in Hnd. apply NoDup_cons in Hnd as [Hnot Hnd]. split; [| |exact Hnd].
  - intros x Hx. destruct (H1 x) as (c' & n' & k' & Hp' & Hs' & Hop & ->); [rewrite Hp; by right|].
    exists c', n', k'. split_and!; try done. intros [->|Hin]%elem_of_cons; [|done]. destruct (Honce _ _ _ _ _ Hs Hs') as [-> ->].
    apply Hnot, list_elem_of_fmap. eexists. split; [|exact Hx]. done.
  - intros c' n' k' Hp' Hs' Hop. pose proof (H2 c' n' k' Hp' Hs' ltac:(set_solver)) as Hin. rewrite Hp in Hin. apply elem_of_cons in Hin as [E|Hin]; [|done].
    exfalso. apply Hop. assert (k' = k) as ->; [|by left].
    pose proof (f_equal sk_dh E) as E1. pose proof (f_equal sk_n E) as E2. cbn in E1, E2.
    apply pub_inj in E1; [|done|by eapply sent_in..]. subst c'. assert (n' = n) as -> by lia. unfold sent_at in *. congruence.
Qed.

(** Messages that were not passed are opened. *)
Lemma store_open eps op i r sk k :
  (forall c n, sent_at eps c n k -> ~ passed i r c n) -> store eps op i r sk -> store eps (k :: op) i r sk.
Proof.
  intros Hk' [H1 H2 H3]. split; [| |done].
  - intros x Hx. destruct (H1 x Hx) as (c & n & k' & Hp & Hs & Hop & ->). exists c, n, k'. split_and!; try done.
    intros [->|Hin]%elem_of_cons; [|done]. by apply (Hk' c n).
  - intros c n k' Hp Hs Hop. apply (H2 c n k'); [done..|set_solver].
Qed.

Lemma store_next eps op i n sk k :
  (forall c n c' n' k, sent_at eps c n k -> sent_at eps c' n' k -> c = c' /\ n = n') ->
  (1 <= i)%nat -> sent_at eps (i - 1) n k -> store eps op i n sk -> store eps (k :: op) i (S n) sk.
Proof.
  intros Honce Hi Hs [H1 H2 H3]. split; [| |done].
  - intros x Hx. destruct (H1 x Hx) as (c & m & k' & (Hp1 & Hp2 & Hp3) & Hs' & Hop & ->). exists c, m, k'. split_and!; try done.
    + split_and!; [done..|]. intros Hci. specialize (Hp3 Hci). lia.
    + intros [->|Hin]%elem_of_cons; [|done]. destruct (Honce _ _ _ _ _ Hs Hs') as [<- <-]. specialize (Hp3 ltac:(lia)). lia.
  - intros c m k' (Hp1 & Hp2 & Hp3) Hs' Hop. apply (H2 c m k'); [|done|set_solver]. split_and!; [done..|]. intros Hci. specialize (Hp3 Hci).
    destruct (decide (m = n)) as [->|]; [|lia]. exfalso. apply Hop. assert (c = i - 1)%nat as -> by lia. unfold sent_at in *.
    rewrite Hs in Hs'. injection Hs' as ->. by left.
Qed.

(** The epochs change elsewhere. *)
Lemma store_ext eps eps' op i r sk :
  (forall c, (c < i)%nat -> pub eps' c = pub eps c /\ ep_ck (ep eps' c) = ep_ck (ep eps c)) ->
  (forall c n k, passed i r c n -> sent_at eps' c n k <-> sent_at eps c n k) ->
  store eps op i r sk -> store eps' op i r sk.
Proof.
  intros Hsame Hsent [H1 H2 H3]. split; [| |done].
  - intros x Hx. destruct (H1 x Hx) as (c & n & k & Hp & Hs & Hop & ->). exists c, n, k. destruct (Hsame c (proj1 Hp)) as [-> ->].
    split_and!; try done. by apply Hsent.
  - intros c n k Hp Hs Hop. destruct (Hsame c (proj1 Hp)) as [-> ->]. apply (H2 c n k); [done| |done]. by apply Hsent.
Qed.

(** ** Moves of a session *)

Section Moves.
Context (eps : list Epoch) (Hlink : linked eps) (Hdist : distinct eps).
Context (Honce : forall c n c' n' k, sent_at eps c n k -> sent_at eps c' n' k -> c = c' /\ n = n') (Hz : cnt eps 0 = 0%nat).

Lemma on_ahead_pred op s i r own peer n k :
  on eps op s i r own peer -> (1 <= i)%nat -> (r <= n)%nat -> sent_at eps (i - 1) n k -> k ∉ op.
Proof.
  intros Hon Hi Hn. apply (on_ahead _ _ _ _ _ _ _ Hon); [by apply odd_pred|]. intros (_ & _ & Hp). specialize (Hp ltac:(lia)). lia.
Qed.

(** The next message of the receiving chain, or a later one. *)
Lemma on_advance op s i r n k own peer :
  (2 <= i)%nat -> (r <= n)%nat -> sent_at eps (i - 1) n k -> on eps op s i r own peer ->
  on eps (k :: op) (advanced s (pub eps (i - 1)) (ep_ck (ep eps (i - 1))) r n) i (S n) own peer.
Proof.
  intros Hi Hn Hs Hon. pose proof (sent_at_lt _ _ _ _ Hs) as Hlt. pose proof (fun n k => on_ahead_pred op s i r own peer n k Hon ltac:(lia)) as Hah.
  destruct Hon. split; try done.
  - cbn. destruct i as [|[|j]]; [lia..|]. by cbn [Nat.sub].
  - intros c m k' Ho Hp Hs' [->|Hin]%elem_of_cons.
    + destruct (Honce _ _ _ _ _ Hs Hs') as [<- <-]. apply Hp. split_and!; [lia|done|lia].
    + apply (on_ahead0 c m k'); try done. intros (H1 & H2 & H3). apply Hp. split_and!; [done..|]. intros E. specialize (H3 E). lia.
  - cbn [skipped advanced set_answered set_recv]. apply store_next; [done|lia|done|]. apply store_skip; try done; lia.
Qed.

(** A message whose key was kept. *)
Lemma on_kept op s i r c n k rest own peer :
  passed i r c n -> sent_at eps c n k -> on eps op s i r own peer ->
  skipped s ≡ₚ entry (pub eps c) (ep_ck (ep eps c)) n :: rest ->
  on eps (k :: op) (set_recv (ckr s) (nr s) rest s) i r own peer.
Proof.
  intros Hp Hs Hon Hperm. destruct Hon. split; try done.
  - intros c' m k' Ho Hp' Hs' [->|Hin]%elem_of_cons; [|by apply (on_ahead0 c' m k')]. by destruct (Honce _ _ _ _ _ Hs Hs') as [-> ->].
  - cbn [skipped set_recv]. by eapply store_take.
Qed.

(** A message of the own epochs is opened by the other side. *)
Lemma on_other op s i r c n k own peer :
  Nat.odd c = Nat.odd i -> sent_at eps c n k -> on eps op s i r own peer -> on eps (k :: op) s i r own peer.
Proof.
  intros Hodd Hs Hon. destruct Hon. split; try done.
  - intros c' m k' Ho Hp Hs' [->|Hin]%elem_of_cons; [|by apply (on_ahead0 c' m k')]. destruct (Honce _ _ _ _ _ Hs Hs') as [-> ->].
    rewrite Hodd in Ho. by destruct (Nat.odd i).
  - apply store_open; [|done]. intros c' n' Hs' (_ & Hp2 & _). destruct (Honce _ _ _ _ _ Hs Hs') as [-> ->]. rewrite Hodd in Hp2. by destruct (Nat.odd i).
Qed.

(** To the end of the receiving chain. *)
Lemma on_skip_all op s i r own peer :
  on eps op s i r own peer -> Z.of_nat (cnt eps (i - 1) - r) <= MAX_SKIP -> zlen (skipped s) <= MAX_SKIP ->
  exists s', skip_until s (Z.of_nat (cnt eps (i - 1))) = Ok s' /\ on eps op s' i (cnt eps (i - 1)) own peer.
Proof.
  intros Hon Hgap Hst. destruct i as [|[|j]].
  - exists s. assert (r = 0)%nat as -> by (pose proof (on_r _ _ _ _ _ _ _ Hon); cbn in *; lia). cbn [Nat.sub]. rewrite Hz. split; [|done].
    unfold skip_until. by rewrite (on_ckr _ _ _ _ _ _ _ Hon).
  - exists s. assert (r = 0)%nat as -> by (pose proof (on_r _ _ _ _ _ _ _ Hon); cbn in *; lia). cbn [Nat.sub]. rewrite Hz. split; [|done].
    unfold skip_until. by rewrite (on_ckr _ _ _ _ _ _ _ Hon).
  - cbn [Nat.sub] in *. eexists. split.
    + apply (skip_until_at s (pub eps (S j)) (ep_ck (ep eps (S j))) r); try done; try apply Hon.
      apply linked_ck; [done|]. pose proof (on_lt _ _ _ _ _ _ _ Hon). lia.
    + pose proof (on_r _ _ _ _ _ _ _ Hon) as Hr. cbn [Nat.sub] in Hr.
      pose proof (fun n k => on_ahead_pred op s (S (S j)) r own peer n k Hon ltac:(lia)) as Hah. cbn [Nat.sub] in Hah. destruct Hon. split; try done.
      * intros c n k Ho Hp Hs. apply (on_ahead0 c n k); try done. intros (H1 & H2 & H3). apply Hp. split_and!; [done..|]. intros E. specialize (H3 E). lia.
      * cbn [skipped set_recv]. apply (store_skip eps op (S (S j)) r); try done; cbn [Nat.sub]; lia.
Qed.

End Moves.

(** ** New epochs *)

Lemma sent_at_grow eps e c n k : ep_sent e = [] -> sent_at (eps ++ [e]) c n k <-> sent_at eps c n k.
Proof.
  intros He. unfold sent_at. destruct (Nat.lt_trichotomy c (length eps)) as [Hlt|[->|Hgt]].
  - by rewrite ep_app.
  - by rewrite ep_last, (ep_out eps) , He by lia.
  - by rewrite !ep_out by (rewrite ?length_app; cbn; lia).
Qed.

Lemma cnt_grow eps e c : (c < length eps)%nat -> cnt (eps ++ [e]) c = cnt eps c.
Proof. intros Hc'. unfold cnt. by rewrite ep_app. Qed.

Lemma pub_grow eps e c : (c < length eps)%nat -> pub (eps ++ [e]) c = pub eps c.
Proof. intros Hc'. unfold pub. by rewrite ep_app. Qed.

Lemma pn_grow eps e i : (i < length eps)%nat -> pn_of (eps ++ [e]) i = pn_of eps i.
Proof. intros Hi. destruct i as [|[|i]]; [done..|]. cbn [pn_of]. by rewrite cnt_grow by lia. Qed.

Lemma on_grow eps e op s i r own peer : ep_sent e = [] -> on eps op s i r own peer -> on (eps ++ [e]) op s i r own peer.
Proof.
  intros He Hon. destruct Hon. split; rewrite ?(pub_grow eps), ?(cnt_grow eps), ?(pn_grow eps), ?(ep_app eps) by lia; try done.
  - rewrite length_app. lia.
  - destruct i as [|i]; [done|]. by rewrite pub_grow by lia.
  - destruct i as [|[|i]]; [done..|]. by rewrite ep_app by lia.
  - intros c n k Ho Hp Hs%sent_at_grow; [|done]. by apply (on_ahead0 c n k).
  - eapply store_ext; [| |exact on_store0].
    + intros c Hlt. by rewrite pub_grow, ep_app by lia.
    + intros c n k _. by apply sent_at_grow.
Qed.

Lemma linked_grow eps e i :
  length eps = S i -> linked eps ->
  (exists sh, x_dh (ep_secret e) (pub eps i) = Some sh /\ kdf_root (ep_root (ep eps i)) sh = Ok (ep_root e, ep_ck e)) ->
  linked (eps ++ [e]).
Proof.
  intros Hi Hl Hsh j Hj. rewrite length_app in Hj. cbn in Hj. destruct (decide (j = i)) as [->|Hne].
  - rewrite pub_grow, (ep_app eps e i) by lia. rewrite <- Hi, ep_last. exact Hsh.
  - rewrite pub_grow, !(ep_app eps e) by lia. apply Hl. lia.
Qed.

(** The ratchet turns on the first message of the next epoch. *)
Lemma on_ratchet eps op s i own peer secret :
  linked eps -> length eps = S (S i) -> on eps op s i (cnt eps (i - 1)) own peer ->
  exists s' e, dh_ratchet s (pub eps (S i)) secret = Ok s' /\ ep_secret e = secret /\ ep_sent e = [] /\
    linked (eps ++ [e]) /\ on (eps ++ [e]) op s' (S (S i)) 0 own peer.
Proof.
  intros Hl Hlen Hon. destruct (Hl i ltac:(lia)) as (sh & Hsh & Hroot). destruct (proj2 (Hdh secret (ep_secret (ep eps (S i))))) as [sh2 Hsh2].
  destruct (kdf_root_total Hk (ep_root (ep eps (S i))) sh2) as (rk2 & ck2 & Hroot2 & Hck2).
  set (e := mkEpoch secret rk2 ck2 []). eexists _, e.
  assert (linked (eps ++ [e])) as Hl' by (apply (linked_grow eps e (S i)); [done..|]; by exists sh2).
  assert (dh_ratchet s (pub eps (S i)) secret = Ok (mkSession own peer rk2 secret (x_public secret) (Some (pub eps (S i))) (Some ck2)
    (Some (ep_ck (ep eps (S i)))) 0 0 (ns s) (skipped s) (origin_ek s) (initiator s) (pending_init s))) as E.
  { unfold dh_ratchet, dh, pub. rewrite (on_dhs _ _ _ _ _ _ _ Hon), (on_root _ _ _ _ _ _ _ Hon), (on_own _ _ _ _ _ _ _ Hon), (on_peer _ _ _ _ _ _ _ Hon).
    rewrite (proj1 (Hdh (ep_secret (ep eps i)) (ep_secret (ep eps (S i))))). fold (pub eps i). rewrite Hsh. cbn [ok_or result_bind].
    rewrite Hroot. cbn [result_bind]. rewrite Hsh2. cbn [ok_or result_bind]. rewrite Hroot2. done. }
  split_and!; [exact E|done..|exact Hl'|].
  assert (forall c, (c < S (S i))%nat -> Nat.odd c = negb (Nat.odd (S (S i))) -> (c < i)%nat \/ c = S i) as Hpar.
  { intros c Hlt Ho. rewrite Nat.odd_succ_succ in Ho. destruct (decide (c = i)) as [->|]; [by destruct (Nat.odd i)|lia]. }
  pose proof (on_ns _ _ _ _ _ _ _ Hon) as Hns. pose proof (on_ahead _ _ _ _ _ _ _ Hon) as Hah. destruct (on_store _ _ _ _ _ _ _ Hon) as [H1 H2 H3].
  assert (forall c n k, passed (S (S i)) 0 c n -> sent_at eps c n k -> passed i (cnt eps (i - 1)) c n) as Hdown.
  { intros c n k (Hp1 & Hp2 & Hp3) Hs. destruct (Hpar c Hp1 Hp2) as [Hlt| ->]; [|specialize (Hp3 eq_refl); lia].
    rewrite Nat.odd_succ_succ in Hp2. split_and!; [done..|]. intros E'. apply sent_at_lt in Hs. by replace (i - 1)%nat with c by lia. }
  split; cbn [own_id peer_id dhs dhs_pub root ns cks pn dhr nr ckr skipped]; try done.
  - rewrite length_app, Hlen. cbn. lia.
  - rewrite <- Hlen, ep_last. done.
  - unfold pub. rewrite <- Hlen, ep_last. done.
  - rewrite <- Hlen, ep_last. done.
  - unfold cnt. rewrite <- Hlen, ep_last. done.
  - unfold cnt. rewrite <- Hlen, ep_last. done.
  - cbn [pn_of]. by rewrite cnt_grow by lia.
  - by rewrite pub_grow by lia.
  - lia.
  - cbn [chain_at]. by rewrite ep_app by lia.
  - intros c n k Ho Hp Hs%sent_at_grow; [|done]. rewrite Nat.odd_succ_succ in Ho. apply (Hah c n k); try done. intros (Hp1 & Hp2 & Hp3). apply Hp.
    split_and!; [lia|by rewrite Nat.odd_succ_succ|lia].
  - split; [| |done].
    + intros x Hx. destruct (H1 x Hx) as (c & n & k & (Hp1 & Hp2 & Hp3) & Hs & Hop & ->). exists c, n, k.
      rewrite pub_grow, ep_app by lia. split_and!; try done; [|by apply sent_at_grow]. split_and!; [lia|by rewrite Nat.odd_succ_succ|lia].
    + intros c n k Hp Hs%sent_at_grow Hop; [|done]. pose proof (Hdown c n k Hp Hs) as Hd. rewrite pub_grow, ep_app by (destruct Hd; lia). by apply (H2 c n k).
Qed.

(** ** Opening *)

Lemma open_next_split s env layer secret :
  open_next s env layer secret =
  let? next := (if negb (bool_decide (dhr s = Some (dh_pub (header env)))) then
                  let? s := skip_until s (h_pn (header env)) in dh_ratchet s (dh_pub (header env)) secret
                else if h_n (header env) <? nr s then Err Replay else Ok s) in
  open_tail next env layer (env_aad (env_id env) (header env) (peer_id s) (own_id s)).
Proof. done. Qed.

Lemma open_with_next s env layer secret s' pt :
  take_key (dh_pub (header env)) (h_n (header env)) (skipped s) = None ->
  open_next s env layer secret = Ok (s', pt) -> open_with s env layer secret = (s', Ok pt).
Proof. intros Hn Ho. unfold open_with. by rewrite Hn, Ho. Qed.

Section Open.
Context (eps : list Epoch) (Hlink : linked eps) (Hdist : distinct eps).
Context (Honce : forall c n c' n' k, sent_at eps c n k -> sent_at eps c' n' k -> c = c' /\ n = n') (Hz : cnt eps 0 = 0%nat).
Context (op : list nat) (s : Session) (i r : nat) (own peer : bytes) (Hon : on eps op s i r own peer).
Context (env : Envelope) (layer : option bytes) (text : bytes) (c n k : nat).
Context (Hs : sent_at eps c n k) (Hodd : Nat.odd c = negb (Nat.odd i)).
Context (Hd : dh_pub (header env) = pub eps c) (Hn : h_n (header env) = Z.of_nat n).

(** No key is kept for a message that was not passed, or was opened. *)
Lemma no_key : (~ passed i r c n) \/ k ∈ op -> take_key (dh_pub (header env)) (h_n (header env)) (skipped s) = None.
Proof.
  intros Hno. destruct (take_key _ _ _) as [[x rest]|] eqn:E; [|done]. exfalso.
  apply take_key_some in E as (E1 & E2 & Hp). destruct (st_sound _ _ _ _ _ (on_store _ _ _ _ _ _ _ Hon) x) as (c' & n' & k' & Hpass & Hs' & Hop & ->).
  { rewrite Hp. by left. }
  cbn in E1, E2. rewrite Hd in E1. apply pub_inj in E1; [|done|by eapply sent_in..]. subst c'. assert (n' = n) as -> by lia.
  unfold sent_at in *. rewrite Hs in Hs'. injection Hs' as <-. by destruct Hno.
Qed.

(** A message of the current chain that was opened is refused. *)
Lemma open_replay secret : k ∈ op -> c = (i - 1)%nat -> open_with s env layer secret = (s, Err Replay).
Proof.
  intros Hop Hci. assert (1 <= i)%nat as Hi.
  { destruct i; [|lia]. subst c. apply sent_at_lt in Hs. cbn [Nat.sub] in Hs. lia. }
  assert (n < r)%nat as Hr.
  { destruct (Nat.lt_ge_cases n r) as [|Hge]; [done|]. exfalso. subst c. by eapply on_ahead_pred. }
  unfold open_with. rewrite no_key by (by right). rewrite open_next_split, Hd, Hn, (on_dhr _ _ _ _ _ _ _ Hon), (on_nr _ _ _ _ _ _ _ Hon).
  assert ((match i with O => None | S j => Some (pub eps j) end) = Some (pub eps c)) as ->.
  { destruct i as [|j]; [lia|]. subst c. by replace (S j - 1)%nat with j by lia. }
  rewrite bool_decide_eq_true_2 by done. cbn [negb]. by rewrite (proj2 (Z.ltb_lt _ _)) by lia.
Qed.

Context (Hnew : k ∉ op) (Hpn : h_pn (header env) = pn_of eps c) (Hmax : Z.of_nat n < u32_max).
Context (Hseal : sealed_at (ep_ck (ep eps c)) (pub eps c) n (env_aad (env_id env) (header env) peer own) layer text (ciphertext env)).
Context (Hstore : forall s' r', on eps op s' i r' own peer -> zlen (skipped s') <= MAX_SKIP).

(** A message whose key was kept opens. *)
Lemma open_kept secret : passed i r c n -> exists s', open_with s env layer secret = (s', Ok text) /\ on eps (k :: op) s' i r own peer.
Proof.
  intros Hp. pose proof (on_store _ _ _ _ _ _ _ Hon) as Hst. pose proof (st_complete _ _ _ _ _ Hst c n k Hp Hs Hnew) as Hin.
  unfold open_with. rewrite Hd, Hn. destruct (take_key (pub eps c) (Z.of_nat n) (skipped s)) as [[x rest]|] eqn:E.
  2: { exfalso. by apply (take_key_none _ _ _ _ E Hin). }
  apply take_key_some in E as (E1 & E2 & Hperm).
  assert (x = entry (pub eps c) (ep_ck (ep eps c)) n) as ->.
  { destruct (st_sound _ _ _ _ _ Hst x) as (c' & n' & k' & Hpass & Hs' & Hop & ->); [rewrite Hperm; by left|]. cbn in E1, E2.
    apply pub_inj in E1; [|done|by eapply sent_in..]. subst c'. by assert (n' = n) as -> by lia. }
  rewrite (on_own _ _ _ _ _ _ _ Hon), (on_peer _ _ _ _ _ _ _ Hon). cbn [entry sk_key sk_nonce sk_dh sk_n].
  destruct (open_sealed Hc _ _ _ _ _ _ _ Hseal) as (padded & Ho & Hu).
  rewrite Ho. cbn [result_bind]. rewrite Hu. eexists. split; [done|]. by eapply on_kept.
Qed.

(** A message of the current chain that was not passed opens. *)
Lemma open_current secret :
  c = (i - 1)%nat -> (r <= n)%nat -> Z.of_nat (n - r) <= MAX_SKIP ->
  exists s', open_with s env layer secret = (s', Ok text) /\ on eps (k :: op) s' i (S n) own peer.
Proof.
  intros Hci Hr Hgap. assert (2 <= i)%nat as Hi.
  { apply sent_at_lt in Hs as Hlt. destruct i as [|[|j]]; subst c; cbn [Nat.sub] in *; lia. }
  exists (advanced s (pub eps c) (ep_ck (ep eps c)) r n). split; [|subst c; by apply on_advance].
  apply open_with_next; [apply no_key; left; intros (_ & _ & Hp); specialize (Hp ltac:(lia)); lia|].
  rewrite open_next_split, Hd, Hn, (on_dhr _ _ _ _ _ _ _ Hon), (on_nr _ _ _ _ _ _ _ Hon).
  destruct i as [|[|j]]; [lia..|]. cbn [Nat.sub] in *. subst c. rewrite bool_decide_eq_true_2 by done. cbn [negb].
  rewrite (proj2 (Z.ltb_ge _ _)) by lia. cbn [result_bind]. rewrite (on_own _ _ _ _ _ _ _ Hon), (on_peer _ _ _ _ _ _ _ Hon).
  apply open_tail_at; try done; try apply Hon.
  - apply linked_ck; [done|]. pose proof (on_lt _ _ _ _ _ _ _ Hon). lia.
  - by eapply Hstore.
Qed.

(** The first message that arrives of the next epoch turns the ratchet. *)
Lemma open_ratchet secret :
  c = S i -> length eps = S (S i) -> NoDup (((fun e => x_public (ep_secret e)) <$> eps) ++ [x_public secret]) ->
  Z.of_nat (cnt eps (i - 1) - r) <= MAX_SKIP -> Z.of_nat n <= MAX_SKIP ->
  exists s' e, open_with s env layer secret = (s', Ok text) /\ ep_secret e = secret /\ ep_sent e = [] /\ linked (eps ++ [e]) /\
    on (eps ++ [e]) (k :: op) s' (S (S i)) (S n) own peer.
Proof.
  intros Hci Hlen Hfresh Hgap Hfar.
  assert (zlen (skipped s) <= MAX_SKIP) as Hst0 by (by eapply Hstore).
  destruct (on_skip_all eps Hlink Hdist Hz op s i r own peer Hon Hgap Hst0) as (s1 & E1 & Hon1).
  destruct (on_ratchet eps op s1 i own peer secret Hlink Hlen Hon1) as (s2 & e & E2 & Hsec & Hemp & Hlink' & Hon2).
  assert (distinct (eps ++ [e])) as Hdist'.
  { unfold distinct. rewrite fmap_app. cbn. by rewrite Hsec. }
  assert (forall c n c' n' k, sent_at (eps ++ [e]) c n k -> sent_at (eps ++ [e]) c' n' k -> c = c' /\ n = n') as Honce'
    by (intros c1 n1 c2 n2 k1 H1%sent_at_grow H2%sent_at_grow; [by eapply Honce|done..]).
  assert (sent_at (eps ++ [e]) (S (S i) - 1) n k) as Hs' by (cbn [Nat.sub]; apply sent_at_grow; [done|by rewrite <- Hci]).
  exists (advanced s2 (pub (eps ++ [e]) (S i)) (ep_ck (ep (eps ++ [e]) (S i))) 0 n), e. split_and!; [|done..|].
  2: { assert (cnt (eps ++ [e]) 0 = 0%nat) by (by rewrite cnt_grow by lia). subst secret.
       eapply (on_advance (eps ++ [e])) in Hs'; [exact Hs'|try done; try lia..]. }
  apply open_with_next; [apply no_key; left; intros (Hlt & _); lia|].
  rewrite open_next_split, Hd, Hpn, (on_dhr _ _ _ _ _ _ _ Hon).
  assert ((match i with O => None | S j => Some (pub eps j) end) <> Some (pub eps c)) as Hne.
  { destruct i as [|j]; [done|]. intros [= Epub]. apply pub_inj in Epub; [lia|done|lia|lia]. }
  rewrite bool_decide_eq_false_2 by done. cbn [negb]. subst c.
  assert (pn_of eps (S i) = Z.of_nat (cnt eps (i - 1))) as ->.
  { destruct i as [|j]; [cbn [pn_of Nat.sub]; by rewrite Hz|]. cbn [pn_of]. by replace (S j - 1)%nat with j by lia. }
  rewrite E1. cbn [result_bind]. rewrite E2. cbn [result_bind].
  rewrite (on_own _ _ _ _ _ _ _ Hon), (on_peer _ _ _ _ _ _ _ Hon).
  rewrite pub_grow, ep_app by lia. apply open_tail_at; try done; try lia.
  - apply linked_ck; [done|lia].
  - rewrite (on_ckr _ _ _ _ _ _ _ Hon2). by rewrite ep_app by lia.
  - apply (on_nr _ _ _ _ _ _ _ Hon2).
  - rewrite (on_dhr _ _ _ _ _ _ _ Hon2). by rewrite pub_grow by lia.
  - assert (skipped s2 = skipped s1) as ->; [|by eapply Hstore]. unfold dh_ratchet in E2.
    destruct (dh (dhs s1) _); [|done]; cbn [result_bind] in E2. destruct (kdf_root _ _) as [[]|]; [|done]; cbn [result_bind] in E2.
    destruct (dh secret _); [|done]; cbn [result_bind] in E2. destruct (kdf_root _ _) as [[]|]; [|done]; cbn [result_bind] in E2. by injection E2 as <-.
Qed.

(** Every message that was not opened opens to its text. *)
Lemma open_any secret :
  (S c = i \/ passed i r c n \/ (c = S i /\ length eps = S (S i))) ->
  NoDup (((fun e => x_public (ep_secret e)) <$> eps) ++ [x_public secret]) ->
  Z.of_nat (cnt eps (i - 1) - r) <= MAX_SKIP -> (c = S i -> Z.of_nat n <= MAX_SKIP) ->
  exists s' r', open_with s env layer secret = (s', Ok text) /\
    (on eps (k :: op) s' i r' own peer \/
     (length eps = S (S i) /\ exists e, ep_secret e = secret /\ ep_sent e = [] /\ linked (eps ++ [e]) /\ on (eps ++ [e]) (k :: op) s' (S (S i)) r' own peer)).
Proof.
  intros Hwhere Hfresh Hgap Hfar.
  assert (passed i r c n \/ (c = (i - 1)%nat /\ (r <= n)%nat) \/ (c = S i /\ length eps = S (S i))) as Hcase.
  { destruct Hwhere as [Hci|[?|?]]; [|by auto..]. destruct (Nat.lt_ge_cases n r); [left|right; left; split; lia].
    split_and!; [lia|done|lia]. }
  destruct Hcase as [Hp|[[Hci Hr]|[Hci Hlen]]].
  - destruct (open_kept secret Hp) as (s' & ? & ?). exists s', r. auto.
  - destruct (open_current secret Hci Hr) as (s' & ? & ?); [|by exists s', (S n); auto].
    apply sent_at_lt in Hs. rewrite Hci in Hs. lia.
  - destruct (open_ratchet secret Hci Hlen Hfresh Hgap (Hfar Hci)) as (s' & e & ? & ? & ? & ? & ?). exists s', (S n). split; [done|]. right. split; [done|]. by exists e.
Qed.

End Open.

(** ** Sealing *)

(** Message number [k] is sent on epoch [i]. *)
Definition add_sent (k : nat) (e : Epoch) : Epoch := mkEpoch (ep_secret e) (ep_root e) (ep_ck e) (ep_sent e ++ [k]).
Definition post eps (i k : nat) : list Epoch := alter (add_sent k) i eps.

Lemma ep_post eps i k c : (i < length eps)%nat -> ep (post eps i k) c = if decide (c = i) then add_sent k (ep eps c) else ep eps c.
Proof.
  intros Hi. unfold ep, post. rewrite !nth_lookup. destruct (decide (c = i)) as [->|Hne].
  - rewrite list_lookup_alter_eq. by destruct (lookup_lt_is_Some_2 eps i Hi) as [e ->].
  - by rewrite list_lookup_alter_ne.
Qed.

Lemma post_keys eps i k c : (i < length eps)%nat ->
  pub (post eps i k) c = pub eps c /\ ep_secret (ep (post eps i k) c) = ep_secret (ep eps c) /\
  ep_root (ep (post eps i k) c) = ep_root (ep eps c) /\ ep_ck (ep (post eps i k) c) = ep_ck (ep eps c).
Proof. intros Hi. unfold pub. rewrite ep_post by done. by case_decide. Qed.

Lemma cnt_post eps i k c : (i < length eps)%nat -> cnt (post eps i k) c = if decide (c = i) then S (cnt eps c) else cnt eps c.
Proof. intros Hi. unfold cnt. rewrite ep_post by done. case_decide; [|done]. cbn. rewrite length_app. cbn. lia. Qed.

Lemma post_length eps i k : length (post eps i k) = length eps.
Proof. apply length_alter. Qed.

Lemma sent_at_post eps i k c n k' : (i < length eps)%nat ->
  sent_at (post eps i k) c n k' <-> sent_at eps c n k' \/ (c = i /\ n = cnt eps i /\ k' = k).
Proof.
  intros Hi. unfold sent_at, cnt. rewrite ep_post by done. case_decide as Hci; [|naive_solver]. subst c. cbn [ep_sent add_sent].
  destruct (Nat.lt_trichotomy n (length (ep_sent (ep eps i)))) as [Hlt|[->|Hgt]].
  - rewrite lookup_app_l by done. split; [by left|]. intros [?|(_ & ? & _)]; [done|lia].
  - rewrite lookup_app_r, Nat.sub_diag by lia. cbn. rewrite lookup_ge_None_2 by lia. naive_solver.
  - rewrite !lookup_ge_None_2 by (rewrite ?length_app; cbn; lia). split; [done|]. intros [?|(_ & ? & _)]; [done|lia].
Qed.

Lemma pubs_post eps i k : ((fun e => x_public (ep_secret e)) <$> post eps i k) = ((fun e => x_public (ep_secret e)) <$> eps).
Proof. unfold post. apply list_eq. intros j. rewrite !list_lookup_fmap. destruct (decide (j = i)) as [->|]; [rewrite list_lookup_alter_eq|by rewrite list_lookup_alter_ne]. by destruct (eps !! i). Qed.

Lemma linked_post eps i k : (i < length eps)%nat -> linked eps -> linked (post eps i k).
Proof.
  intros Hi Hl j Hj. rewrite post_length in Hj. destruct (post_keys eps i k j Hi) as (-> & _ & -> & _).
  destruct (post_keys eps i k (S j) Hi) as (_ & -> & -> & ->). by apply Hl.
Qed.

(** The number is new. *)
Definition fresh_number eps (op : list nat) (k : nat) : Prop := (k ∉ op) /\ forall c n, ~ sent_at eps c n k.

(** The sender moves on by one. *)
Lemma on_send eps op s i r own peer k :
  (1 <= i)%nat -> Z.of_nat (S (cnt eps i)) <= u32_max -> on eps op s i r own peer ->
  on (post eps i k) op (set_send (Some (chain_at (ep_ck (ep eps i)) (S (cnt eps i)))) (Z.of_nat (S (cnt eps i))) s) i r own peer.
Proof.
  intros Hi Hmax Hon. pose proof (on_lt _ _ _ _ _ _ _ Hon) as Hlt. pose proof (post_keys eps i k) as Hkeys.
  assert (forall c n k', Nat.odd c = negb (Nat.odd i) -> sent_at (post eps i k) c n k' <-> sent_at eps c n k') as Hsent.
  { intros c n k' Ho. rewrite sent_at_post by done. split; [|by left]. intros [?|(-> & _)]; [done|]. by destruct (Nat.odd i). }
  destruct Hon. split; cbn [own_id peer_id dhs dhs_pub root ns cks pn dhr nr ckr skipped set_send]; try done.
  - by rewrite post_length.
  - by destruct (Hkeys i Hlt) as (_ & -> & _).
  - by destruct (Hkeys i Hlt) as (-> & _).
  - by destruct (Hkeys i Hlt) as (_ & _ & -> & _).
  - rewrite cnt_post by done. by rewrite decide_True.
  - rewrite cnt_post, decide_True by done. destruct (Hkeys i Hlt) as (_ & _ & _ & ->). by destruct i; [lia|].
  - rewrite on_pn0. destruct i as [|[|j]]; [done..|]. cbn [pn_of]. rewrite cnt_post, decide_False by (done || lia). done.
  - rewrite on_dhr0. destruct i as [|j]; [done|]. by destruct (Hkeys j Hlt) as (-> & _).
  - rewrite cnt_post, decide_False by (done || lia). done.
  - rewrite on_ckr0. destruct i as [|[|j]]; [done..|]. by destruct (Hkeys (S j) Hlt) as (_ & _ & _ & ->).
  - intros c n k' Ho Hp Hs. apply Hsent in Hs; [|done]. by apply (on_ahead0 c n k').
  - eapply store_ext; [| |exact on_store0].
    + intros c _. by destruct (Hkeys c Hlt) as (-> & _ & _ & ->).
    + intros c n k' (_ & Ho & _). by apply Hsent.
Qed.

(** The other side learns nothing yet. *)
Lemma on_sent eps op s i r j own peer k :
  (j < length eps)%nat -> (S j = i \/ j = S i) -> fresh_number eps op k -> on eps op s i r own peer -> on (post eps j k) op s i r own peer.
Proof.
  intros Hj Hji [Hop Hf] Hon. pose proof (post_keys eps j k) as Hkeys.
  assert (cnt eps (i - 1) <= cnt (post eps j k) (i - 1))%nat as Hcnt by (rewrite cnt_post by done; case_decide; lia).
  destruct Hon. split; try done.
  - by rewrite post_length.
  - by destruct (Hkeys i Hj) as (_ & -> & _).
  - by destruct (Hkeys i Hj) as (-> & _).
  - by destruct (Hkeys i Hj) as (_ & _ & -> & _).
  - rewrite cnt_post, decide_False by (done || lia). done.
  - rewrite cnt_post, decide_False by (done || lia). by destruct (Hkeys i Hj) as (_ & _ & _ & ->).
  - rewrite on_pn0. destruct i as [|[|i]]; [done..|]. cbn [pn_of]. rewrite cnt_post, decide_False by (done || lia). done.
  - rewrite on_dhr0. destruct i as [|i]; [done|]. by destruct (Hkeys i Hj) as (-> & _).
  - lia.
  - rewrite on_ckr0. destruct i as [|[|i]]; [done..|]. by destruct (Hkeys (S i) Hj) as (_ & _ & _ & ->).
  - intros c n k' Ho Hp [Hs|(_ & _ & ->)]%sent_at_post; [|done..]. by apply (on_ahead0 c n k').
  - eapply store_ext; [| |exact on_store0].
    + intros c _. by destruct (Hkeys c Hj) as (-> & _ & _ & ->).
    + intros c n k' (Hp1 & Hp2 & Hp3). rewrite sent_at_post by done. split; [|by left]. intros [?|(-> & -> & _)]; [done|]. exfalso.
      destruct Hji as [Hji|Hji]; [|lia]. specialize (Hp3 Hji). assert (j = i - 1)%nat by lia. subst j. lia.
Qed.

(** What sealing does. *)
Lemma seal_on eps op s i r own peer text layer id :
  linked eps -> (1 <= i)%nat -> Z.of_nat (S (cnt eps i)) <= u32_max -> on eps op s i r own peer ->
  let h := mkHeader (pub eps i) (pn_of eps i) (Z.of_nat (cnt eps i)) (if pending_init s then Some (origin_ek s) else None) in
  let s' := set_send (Some (chain_at (ep_ck (ep eps i)) (S (cnt eps i)))) (Z.of_nat (S (cnt eps i))) s in
  (exists e, seal_with s text layer id = (s, Err e) /\ 16384 <= zlen text) \/
  (exists ct, seal_with s text layer id = (s', Ok (mkEnv id h ct)) /\
     sealed_at (ep_ck (ep eps i)) (pub eps i) (cnt eps i) (env_aad id h own peer) layer text ct).
Proof.
  intros Hl Hi Hmax Hon h s'. assert (length (ep_ck (ep eps i)) = 32%nat) as Hck.
  { destruct i as [|j]; [lia|]. apply linked_ck; [done|apply Hon]. }
  destruct (Z.lt_ge_cases (zlen text) 16384) as [Hlt|Hge].
  - right. destruct (seal_total Hc Ht Hk Hdh (ep_ck (ep eps i)) (pub eps i) (cnt eps i) (env_aad id h own peer) layer text Hlt) as [ct Hs].
    exists ct. split; [|done]. destruct Hs as (padded & Hp & Hs). unfold seal_with. rewrite Hp. cbn [result_bind].
    rewrite (on_cks _ _ _ _ _ _ _ Hon), (on_pub _ _ _ _ _ _ _ Hon), (on_pn _ _ _ _ _ _ _ Hon), (on_ns _ _ _ _ _ _ _ Hon),
      (on_own _ _ _ _ _ _ _ Hon), (on_peer _ _ _ _ _ _ _ Hon).
    assert (match i with 0%nat => None | S _ => Some (chain_at (ep_ck (ep eps i)) (cnt eps i)) end = Some (chain_at (ep_ck (ep eps i)) (cnt eps i))) as -> by (by destruct i; [lia|]).
    cbn [ok_or result_bind]. destruct (kdf_step_at Hk (ep_ck (ep eps i)) (cnt eps i) Hck) as [-> Hnx]. cbn [result_bind].
    fold h. assert (checked_add u32_max (Z.of_nat (cnt eps i)) 1 = Some (Z.of_nat (S (cnt eps i)))) as ->.
    { unfold checked_add. rewrite (proj2 (Z.leb_le _ _)) by lia. f_equal. lia. }
    destruct layer as [pq|].
    + destruct Hs as (lk & Hlk & Hs). rewrite Hlk. cbn [result_bind]. rewrite Hs. cbn [result_bind]. by rewrite Hnx.
    + rewrite Hs. cbn [result_bind]. by rewrite Hnx.
  - left. assert (pad text = Err MsgTooLarge) as Hp; [|unfold seal_with; rewrite Hp; by eexists].
    unfold pad. destruct (List.find _ PAD_BUCKETS) as [b|] eqn:Ef; [|done]. apply find_some in Ef as [Hin Hb%Z.leb_le].
    apply list_elem_of_In in Hin. unfold PAD_BUCKETS in Hin. set_unfold. lia.
Qed.

End Epochs.
