(* ===== verification/RatchetTalk.v ===== *)
(** * RatchetTalk: every message of a conversation arrives as it was written

    The invariant of the two sessions of [RatchetRun] and the theorem it
    carries: over any history of sending and any order of delivery every
    message opens to its text, once. *)

From S2P Require Import Prelude Bytes Text Codec ErasureCode Dissolve Disk SealedState SealedRewrite Ratchet RatchetRun.

(** ** Counting what is missing *)

Section Counting.
Context (d : Duo).

Lemma unopened_true dir j : unopened d dir j = true <-> exists p, net d !! j = Some p /\ to_bob p = dir /\ (j ∉ opened d).
Proof.
  unfold unopened. destruct (net d !! j) as [p|]; [|naive_solver]. rewrite andb_true_iff, negb_true_iff, bool_decide_eq_false, eqb_true_iff. naive_solver.
Qed.

Lemma missing_bound dir ks : NoDup ks -> (forall k, k ∈ ks -> unopened d dir k = true) -> (length ks <= missing d dir)%nat.
Proof.
  intros Hnd Hks. unfold missing. apply submseteq_length, NoDup_submseteq; [done|]. intros k Hk. specialize (Hks k Hk).
  apply list_elem_of_In, filter_In. split; [|done]. apply in_seq. apply unopened_true in Hks as (p & Hp & _). apply lookup_lt_Some in Hp. lia.
Qed.

Context `{RatchetCrypto} `{StateCipher} (eps : list Epoch) (ida idb : bytes) (Hposts : posts eps (net d) ida idb).

(** The end of a chain none of which was opened. *)
Lemma chain_missing c a :
  (forall n k, (a <= n)%nat -> sent_at eps c n k -> k ∉ opened d) -> (cnt eps c - a <= missing d (Nat.odd c))%nat.
Proof.
  intros Hno. unfold cnt. rewrite <- length_drop. apply missing_bound.
  - apply NoDup_alt. intros i j k Hi Hj. rewrite lookup_drop in Hi, Hj. destruct (po_once _ _ _ _ Hposts c (a + i) c (a + j) k Hi Hj). lia.
  - intros k [i Hi]%list_elem_of_lookup_1. rewrite lookup_drop in Hi. apply unopened_true.
    destruct (po_genuine _ _ _ _ Hposts c (a + i) k Hi) as (p & Hp & Hb & _). exists p. split_and!; [done..|]. apply (Hno (a + i)%nat k); [lia|done].
Qed.

(** The kept keys. *)
Lemma store_missing i r sk : store eps (opened d) i r sk -> (length sk <= missing d (negb (Nat.odd i)))%nat.
Proof.
  intros Hst.
  assert (exists ks, Forall2 (fun x k => exists c n, sent_at eps c n k /\ unopened d (negb (Nat.odd i)) k = true /\
    x = entry (pub eps c) (ep_ck (ep eps c)) n) sk ks) as [ks Hks].
  { assert (Forall (fun x => exists k c n, sent_at eps c n k /\ unopened d (negb (Nat.odd i)) k = true /\ x = entry (pub eps c) (ep_ck (ep eps c)) n) sk) as Hall.
    - apply Forall_forall. intros x Hx. destruct (st_sound _ _ _ _ _ Hst x Hx) as (c & n & k & (_ & Ho & _) & Hs & Hop & ->). exists k, c, n.
      split_and!; [done| |done]. apply unopened_true. destruct (po_genuine _ _ _ _ Hposts c n k Hs) as (p & Hp & Hb & _). exists p. split_and!; [done|congruence|done].
    - clear Hst. induction Hall as [|x sk (k & Hx) _ [ks IH]]; [by exists []|]. exists (k :: ks). by constructor. }
  rewrite (Forall2_length _ _ _ Hks). apply missing_bound.
  - apply NoDup_alt. intros a b k Ha Hb. destruct (Forall2_lookup_r _ _ _ _ _ Hks Ha) as (x & Hx & c & n & Hs & _ & ->).
    destruct (Forall2_lookup_r _ _ _ _ _ Hks Hb) as (y & Hy & c' & n' & Hs' & _ & ->). destruct (po_once _ _ _ _ Hposts _ _ _ _ _ Hs Hs') as [<- <-].
    apply (NoDup_lookup _ a b (pub eps c, Z.of_nat n) (st_nodup _ _ _ _ _ Hst)); rewrite list_lookup_fmap; [by rewrite Hx|by rewrite Hy].
  - intros k [j Hj]%list_elem_of_lookup_1. by destruct (Forall2_lookup_r _ _ _ _ _ Hks Hj) as (x & _ & c & n & _ & ? & _).
Qed.

(** A chain is no longer than the conversation. *)
Lemma cnt_net c : (cnt eps c <= length (net d))%nat.
Proof.
  unfold cnt. replace (length (net d)) with (length (seq 0 (length (net d)))) by apply length_seq. apply submseteq_length, NoDup_submseteq.
  - apply NoDup_alt. intros i j k Hi Hj. by destruct (po_once _ _ _ _ Hposts c i c j k Hi Hj).
  - intros k [n Hn]%list_elem_of_lookup_1. destruct (po_genuine _ _ _ _ Hposts c n k Hn) as (p & Hp & _). apply list_elem_of_In, in_seq.
    apply lookup_lt_Some in Hp. lia.
Qed.

End Counting.

(** ** Posting a message *)

Section Talk.
Context `{RatchetCrypto} `{StateCipher} (Hc : cipher_correct) (Ht : cipher_total) (Hk : kdf_total) (Hdh : dh_agrees) (Hed : ed_agrees).
Context (seed_a seed_b : bytes).
Abbreviation ida := (ed_id seed_a).
Abbreviation idb := (ed_id seed_b).
Implicit Types (eps : list Epoch) (d : Duo).

Definition pubs eps : list bytes := (fun e => x_public (ep_secret e)) <$> eps.

(** A message may be posted on the epoch its owner is on. *)
Lemma posts_post eps pn i p :
  (1 <= i < length eps)%nat -> (length eps <= S (S i))%nat -> posts eps pn ida idb -> to_bob p = Nat.odd i ->
  let h := header (po_env p) in
  dh_pub h = pub eps i -> h_pn h = pn_of eps i -> h_n h = Z.of_nat (cnt eps i) ->
  sealed_at (ep_ck (ep eps i)) (pub eps i) (cnt eps i)
    (env_aad (env_id (po_env p)) h (if Nat.odd i then ida else idb) (if Nat.odd i then idb else ida)) (po_layer p) (po_text p) (ciphertext (po_env p)) ->
  posts (post eps i (length pn)) (pn ++ [p]) ida idb.
Proof.
  intros [Hi Hlt] Hlen [H1 H2 H3 H4] Hb h Hd Hpn Hn Hs.
  assert (forall c, (c < length eps)%nat -> pn_of (post eps i (length pn)) c = pn_of eps c) as Hpns.
  { intros c Hc'. destruct c as [|[|c]]; [done..|]. cbn [pn_of]. by rewrite cnt_post, decide_False by lia. }
  assert (forall c n, ~ sent_at eps c n (length pn)) as Hfr.
  { intros c n Hs'. destruct (H1 c n _ Hs') as (q & Hq & _). apply lookup_lt_Some in Hq. lia. }
  split.
  - intros c n k [Hs'|(-> & -> & ->)]%sent_at_post; [| |done].
    + destruct (H1 c n k Hs') as (q & Hq & Hqb & Hq1 & Hq2 & Hq3 & Hq4). exists q. destruct (post_keys eps i (length pn) c Hlt) as (-> & _ & _ & ->).
      rewrite Hpns by (by eapply sent_in). split_and!; try done. by apply lookup_app_l_Some.
    + exists p. destruct (post_keys eps i (length pn) i Hlt) as (-> & _ & _ & ->). rewrite Hpns by done. split_and!; try done. by apply list_lookup_middle.
  - intros k q [Hq|[Hq1 Hq2]]%lookup_app_Some.
    + destruct (H2 k q Hq) as (c & n & Hs'). exists c, n. apply sent_at_post; [done|by left].
    + exists i, (cnt eps i). apply sent_at_post; [done|]. right. split_and!; [done..|]. apply list_lookup_singleton_Some in Hq2 as [? _]. lia.
  - intros c n c' n' k [Ha|(-> & -> & Ha)]%sent_at_post [Hb'|(-> & -> & Hb')]%sent_at_post; try done; subst; [by eapply H3|by destruct (Hfr c n)|by destruct (Hfr c' n')].
  - rewrite ep_post, decide_False by lia. done.
Qed.

(** What the network has is fresh. *)
Lemma net_fresh eps d : posts eps (net d) ida idb -> (forall k, k ∈ opened d -> (k < length (net d))%nat) -> fresh_number eps (opened d) (length (net d)).
Proof.
  intros Hp Hop. split; [intros Hin%Hop; lia|]. intros c n Hs. destruct (po_genuine _ _ _ _ Hp c n _ Hs) as (q & Hq & _). apply lookup_lt_Some in Hq. lia.
Qed.

(** ** Delivery to one side *)

Lemma deliver_open d eps s i r j k p secret :
  posts eps (net d) ida idb -> linked eps -> NoDup (pubs eps ++ [x_public secret]) ->
  (i = S j \/ j = S i) -> length eps = S (Nat.max i j) ->
  let own := if Nat.odd i then ida else idb in let peer := if Nat.odd i then idb else ida in
  on eps (opened d) s i r own peer -> net d !! k = Some p -> to_bob p = negb (Nat.odd i) -> k ∉ opened d ->
  Z.of_nat (missing d (negb (Nat.odd i))) <= MAX_SKIP -> Z.of_nat (length (net d)) < u32_max ->
  exists s' r', open_with s (po_env p) (po_layer p) secret = (s', Ok (po_text p)) /\
    (on eps (k :: opened d) s' i r' own peer \/
     (length eps = S (S i) /\ exists e, ep_secret e = secret /\ ep_sent e = [] /\ linked (eps ++ [e]) /\
        on (eps ++ [e]) (k :: opened d) s' (S (S i)) r' own peer)).
Proof.
  intros Hp Hl Hfresh Hnear Hlen own peer Hon Hk' Hb Hnew Hmiss Hmax.
  destruct (po_known _ _ _ _ Hp k p Hk') as (c & n & Hs). destruct (po_genuine _ _ _ _ Hp c n k Hs) as (p' & Hp' & Hb' & Hd & Hpn & Hn & Hseal).
  assert (p' = p) as -> by congruence. assert (Nat.odd c = negb (Nat.odd i)) as Hodd by congruence.
  pose proof (sent_in _ _ _ _ Hs) as Hcl. pose proof (sent_at_lt _ _ _ _ Hs) as Hnl. pose proof (cnt_net d eps ida idb Hp c) as Hcn.
  pose proof (cnt_zero _ _ _ _ Hp) as Hz.
  assert (distinct eps) as Hdist by (by apply NoDup_app in Hfresh as (? & _)).
  assert (Hne : c <> i) by (intros ->; by destruct (Nat.odd i)).
  eapply (open_any Hc Ht Hk Hdh eps Hl Hdist (po_once _ _ _ _ Hp) Hz (opened d) s i r own peer Hon (po_env p) (po_layer p) (po_text p) c n k Hs Hodd Hd Hn Hnew Hpn).
  - lia.
  - replace peer with (if Nat.odd c then ida else idb) by (unfold peer; rewrite Hodd; by destruct (Nat.odd i)).
    replace own with (if Nat.odd c then idb else ida) by (unfold own; rewrite Hodd; by destruct (Nat.odd i)). done.
  - intros s' r' Hon'. pose proof (store_missing d eps ida idb Hp i r' (skipped s') (on_store _ _ _ _ _ _ _ Hon')). unfold zlen. lia.
  - destruct (decide (S c = i)); [by left|]. right. destruct (Nat.lt_ge_cases c i); [left; by split_and!|right; split; lia].
  - exact Hfresh.
  - destruct i as [|i']; [cbn [Nat.sub]; rewrite Hz; lia|].
    pose proof (chain_missing d eps ida idb Hp (S i' - 1) r) as Hm. rewrite (odd_pred (S i')) in Hm by lia.
    enough (cnt eps (S i' - 1) - r <= missing d (negb (Nat.odd (S i'))))%nat by lia. apply Hm. intros m k'. eapply on_ahead_pred; [done|done|lia].
  - intros Hci. pose proof (chain_missing d eps ida idb Hp c 0) as Hm. rewrite Hodd in Hm. enough (cnt eps c - 0 <= missing d (negb (Nat.odd i)))%nat by lia.
    apply Hm. intros m k' _ Hs'. apply (on_ahead _ _ _ _ _ _ _ Hon c m k'); [done| |done]. intros (? & _). lia.
Qed.

(** ** The invariant *)

(** The second person before the first message arrived: the session that
    message would make is waiting on epoch 0. *)
Definition waiting d (sb : Session) (ia ib : nat) : Prop :=
  bob d = None /\ ib = 0%nat /\ ia = 1%nat /\ new_responder (id_b seed_b) ida (origin_ek (alice d)) = Ok sb /\ pending_init (alice d) = true /\
  forall k p, net d !! k = Some p -> init_ek (header (po_env p)) = Some (origin_ek (alice d)).

Record talk d eps (sb : Session) (ia ra ib rb : nat) : Prop := {
  t_link : linked eps;
  t_posts : posts eps (net d) ida idb;
  t_known k : k ∈ opened d -> (k < length (net d))%nat;
  t_odd : Nat.odd ia = true;
  t_even : Nat.odd ib = false;
  t_near : ia = S ib \/ ib = S ia;
  t_len : length eps = S (Nat.max ia ib);
  t_alice : on eps (opened d) (alice d) ia ra ida idb;
  t_bob : on eps (opened d) sb ib rb idb ida;
  t_who : (bob d = Some sb /\ (1 <= ib)%nat) \/ waiting d sb ia ib;
}.

Definition talking d eps : Prop := exists sb ia ra ib rb, talk d eps sb ia ra ib rb.

Lemma talk_seal_alice d eps sb ia ra ib rb text layer id :
  talk d eps sb ia ra ib rb -> Z.of_nat (S (length (net d))) < u32_max ->
  right seed_a seed_b d (DSeal true text layer id) /\
  exists eps', talking (duo_step seed_a seed_b d (DSeal true text layer id)).1 eps' /\ pubs eps' = pubs eps.
Proof.
  intros [Hl Hp Hop Ho He Hn Hlen Ha Hb Hw] Hmax. assert (1 <= ia)%nat as Hia by (destruct ia; [done|lia]).
  pose proof (cnt_net d eps ida idb Hp ia) as Hcn. pose proof (on_lt _ _ _ _ _ _ _ Ha) as Hlt.
  unfold right. cbn [duo_step].
  destruct (seal_on Hc Ht Hk Hdh eps (opened d) (alice d) ia ra ida idb text layer id Hl Hia ltac:(lia) Ha) as [(e & -> & Hge)|(ct & -> & Hs)]; cbn [fst].
  - split; [lia|]. exists eps. split; [|done]. exists sb, ia, ra, ib, rb. by split.
  - split; [intros _ _; by eexists|]. exists (post eps ia (length (net d))). split; [|apply pubs_post].
    exists sb, ia, ra, ib, rb. pose proof (net_fresh eps d Hp Hop) as Hf. split; cbn [net opened alice bob]; try done.
    + by apply linked_post.
    + apply posts_post; cbn [po_env header dh_pub h_pn h_n to_bob]; try done; try lia. by rewrite Ho.
    + intros k Hk'%Hop. rewrite length_app. lia.
    + by rewrite post_length.
    + apply on_send; try done. lia.
    + apply on_sent; try done. lia.
    + destruct Hw as [Hw|(H1 & H2 & H3 & H4 & H5 & H6)]; [by left|right]. split_and!; try done. cbn [net alice].
      intros k q [Hq|[_ Hq]]%lookup_app_Some; [by eapply H6|]. apply list_lookup_singleton_Some in Hq as [_ <-]. cbn. by rewrite H5.
Qed.

Lemma talk_seal_bob d eps sb ia ra ib rb text layer id :
  talk d eps sb ia ra ib rb -> Z.of_nat (S (length (net d))) < u32_max ->
  right seed_a seed_b d (DSeal false text layer id) /\
  exists eps', talking (duo_step seed_a seed_b d (DSeal false text layer id)).1 eps' /\ pubs eps' = pubs eps.
Proof.
  intros Htalk Hmax. pose proof Htalk as [Hl Hp Hop Ho He Hn Hlen Ha Hb Hw].
  pose proof (cnt_net d eps ida idb Hp ib) as Hcn. pose proof (on_lt _ _ _ _ _ _ _ Hb) as Hlt.
  unfold right. cbn [duo_step]. destruct Hw as [[Hbob Hib]|Hw].
  - rewrite Hbob. destruct (seal_on Hc Ht Hk Hdh eps (opened d) sb ib rb idb ida text layer id Hl Hib ltac:(lia) Hb) as [(e & -> & Hge)|(ct & -> & Hs)]; cbn [fst].
    + split; [lia|]. exists eps. split; [|done]. exists sb, ia, ra, ib, rb. split; try done. by left.
    + split; [intros _ _; by eexists|]. exists (post eps ib (length (net d))). split; [|apply pubs_post].
      eexists _, ia, ra, ib, rb. pose proof (net_fresh eps d Hp Hop) as Hf. split; cbn [net opened alice bob]; try done.
      * by apply linked_post.
      * apply posts_post; cbn [po_env header dh_pub h_pn h_n to_bob]; try done; try lia. by rewrite He.
      * intros k Hk'%Hop. rewrite length_app. lia.
      * by rewrite post_length.
      * apply on_sent; try done. lia.
      * apply on_send; try done. lia.
      * by left.
  - pose proof Hw as (-> & _). split; [by intros [?|[? ?]]|]. exists eps. split; [|done]. exists sb, ia, ra, ib, rb. exact Htalk.
Qed.

(** ** Deliveries *)

(** After one side opened message [k]: the other side, on the old epochs or on
    the new ones. *)
Lemma grown_posts eps e pn : ep_sent e = [] -> posts eps pn ida idb -> posts (eps ++ [e]) pn ida idb.
Proof.
  intros He [H1 H2 H3 H4]. split.
  - intros c n k Hs%sent_at_grow; [|done]. pose proof (sent_in _ _ _ _ Hs). rewrite pub_grow, pn_grow, ep_app by done. by apply H1.
  - intros k p Hp. destruct (H2 k p Hp) as (c & n & Hs). exists c, n. by apply sent_at_grow.
  - intros c n c' n' k Ha%sent_at_grow Hb%sent_at_grow; [by eapply H3|done..].
  - destruct eps as [|e0 eps]; [exact He|exact H4].
Qed.

Lemma talk_deliver_alice d eps sb ia ra ib rb k p secret :
  talk d eps sb ia ra ib rb -> NoDup (pubs eps ++ [x_public secret]) -> Z.of_nat (length (net d)) < u32_max ->
  net d !! k = Some p -> to_bob p = false -> k ∉ opened d -> Z.of_nat (missing d false) <= MAX_SKIP ->
  exists s', open_with (alice d) (po_env p) (po_layer p) secret = (s', Ok (po_text p)) /\
    exists eps', talking (mkDuo s' (bob d) (net d) (k :: opened d)) eps' /\ (pubs eps' = pubs eps \/ pubs eps' = pubs eps ++ [x_public secret]).
Proof.
  intros [Hl Hp Hop Ho He Hn Hlen Ha Hb Hw] Hfresh Hmax Hk' Hto Hnew Hmiss.
  assert (bob d = Some sb /\ (1 <= ib)%nat) as Hw'.
  { destruct Hw as [?|(H1 & H2 & H3 & _)]; [done|]. exfalso. subst ia ib. destruct (po_known _ _ _ _ Hp k p Hk') as (c & n & Hs).
    destruct (po_genuine _ _ _ _ Hp c n k Hs) as (q & Hq & Hqb & _). assert (q = p) as -> by congruence. apply sent_in in Hs as Hlt. apply sent_at_lt in Hs.
    destruct c as [|[|c]]; [rewrite (cnt_zero _ _ _ _ Hp) in Hs; lia|by rewrite Hto in Hqb|cbn in Hlen; lia]. }
  destruct (po_known _ _ _ _ Hp k p Hk') as (c & n & Hs). destruct (po_genuine _ _ _ _ Hp c n k Hs) as (q & Hq & Hqb & _).
  assert (q = p) as -> by congruence.
  destruct (deliver_open d eps (alice d) ia ra ib k p secret Hp Hl Hfresh ltac:(lia) ltac:(lia)) as (s' & r' & Hopen & Hcase); rewrite ?Ho; try done.
  exists s'. split; [done|].
  assert (on eps (k :: opened d) sb ib rb idb ida) as Hb' by (eapply on_other with (c := c) (n := n); first [exact Hs|exact (po_once _ _ _ _ Hp)|exact (cnt_zero _ _ _ _ Hp)|done|congruence]).
  assert (forall k', k' ∈ k :: opened d -> (k' < length (net d))%nat) as Hop' by (intros k' [->|Hin]%elem_of_cons; [by eapply lookup_lt_Some|auto]).
  rewrite Ho in Hcase. destruct Hcase as [Hon|(Hlen' & e & Hsec & Hemp & Hl' & Hon)].
  - exists eps. split; [|by left]. exists sb, ia, r', ib, rb. split; try done. by left.
  - exists (eps ++ [e]). split; [|right; unfold pubs; rewrite fmap_app; cbn; by rewrite Hsec].
    exists sb, (S (S ia)), r', ib, rb. split; cbn [net opened alice bob]; try done; [by apply grown_posts|lia|rewrite length_app; cbn; lia|by apply on_grow|by left].
Qed.

Lemma talk_deliver_bob d eps sb ia ra ib rb k p secret :
  talk d eps sb ia ra ib rb -> NoDup (pubs eps ++ [x_public secret]) -> Z.of_nat (length (net d)) < u32_max ->
  net d !! k = Some p -> to_bob p = true -> k ∉ opened d -> Z.of_nat (missing d true) <= MAX_SKIP ->
  exists s', open_with sb (po_env p) (po_layer p) secret = (s', Ok (po_text p)) /\
    exists eps', talking (mkDuo (alice d) (Some s') (net d) (k :: opened d)) eps' /\ (pubs eps' = pubs eps \/ pubs eps' = pubs eps ++ [x_public secret]).
Proof.
  intros [Hl Hp Hop Ho He Hn Hlen Ha Hb Hw] Hfresh Hmax Hk' Hto Hnew Hmiss.
  destruct (po_known _ _ _ _ Hp k p Hk') as (c & n & Hs). destruct (po_genuine _ _ _ _ Hp c n k Hs) as (q & Hq & Hqb & _).
  assert (q = p) as -> by congruence.
  destruct (deliver_open d eps sb ib rb ia k p secret Hp Hl Hfresh ltac:(lia) ltac:(lia)) as (s' & r' & Hopen & Hcase); rewrite ?He; try done.
  exists s'. split; [done|].
  assert (on eps (k :: opened d) (alice d) ia ra ida idb) as Ha' by (eapply on_other with (c := c) (n := n); first [exact Hs|exact (po_once _ _ _ _ Hp)|exact (cnt_zero _ _ _ _ Hp)|done|congruence]).
  assert (forall k', k' ∈ k :: opened d -> (k' < length (net d))%nat) as Hop' by (intros k' [->|Hin]%elem_of_cons; [by eapply lookup_lt_Some|auto]).
  rewrite He in Hcase. destruct Hcase as [Hon|(Hlen' & e & Hsec & Hemp & Hl' & Hon)].
  - exists eps. split; [|by left]. exists s', ia, ra, ib, r'. split; try done. left. split; [done|].
    destruct ib; [|lia]. exfalso. apply sent_in in Hs as Hlt. apply sent_at_lt in Hs as Hlt'.
    pose proof (on_r _ _ _ _ _ _ _ Hon) as Hr. pose proof (on_ahead _ _ _ _ _ _ _ Hon c n k) as Hah. cbn [Nat.sub] in Hr. rewrite (cnt_zero _ _ _ _ Hp) in Hr.
    apply Hah; [rewrite <- Hqb, Hto; done|intros (? & _); lia|done|by left].
  - exists (eps ++ [e]). split; [|right; unfold pubs; rewrite fmap_app; cbn; by rewrite Hsec].
    exists s', ia, ra, (S (S ib)), r'. split; cbn [net opened alice bob]; try done; [by apply grown_posts|lia|rewrite length_app; cbn; lia|by apply on_grow|left; split; [done|lia]].
Qed.

(** A message that comes twice. *)
Lemma talk_replay d eps s i r own peer k p secret :
  linked eps -> posts eps (net d) ida idb -> distinct eps -> on eps (opened d) s i r own peer ->
  net d !! k = Some p -> to_bob p = negb (Nat.odd i) -> k ∈ opened d -> dhr s = Some (dh_pub (header (po_env p))) ->
  open_with s (po_env p) (po_layer p) secret = (s, Err Replay).
Proof.
  intros Hl Hp Hd Hon Hk' Hb Hop Hdhr. destruct (po_known _ _ _ _ Hp k p Hk') as (c & n & Hs).
  destruct (po_genuine _ _ _ _ Hp c n k Hs) as (q & Hq & Hqb & H1 & _ & H3 & _). assert (q = p) as -> by congruence.
  rewrite (on_dhr _ _ _ _ _ _ _ Hon), H1 in Hdhr. pose proof (on_lt _ _ _ _ _ _ _ Hon).
  assert (c = (i - 1)%nat) as Hci.
  { destruct i as [|i]; [done|]. injection Hdhr as Hdhr. apply pub_inj in Hdhr; [lia|done|lia|by eapply sent_in]. }
  eapply open_replay with (c := c) (n := n) (k := k); first [exact Hl|exact Hd|exact (po_once _ _ _ _ Hp)|exact (cnt_zero _ _ _ _ Hp)|exact Hon|done|congruence].
Qed.

Lemma talk_step d eps op :
  talking d eps -> allowed d op -> NoDup (pubs eps ++ (x_public <$> secrets [op])) -> Z.of_nat (S (length (net d))) < u32_max ->
  right seed_a seed_b d op /\ exists eps', talking (duo_step seed_a seed_b d op).1 eps' /\
    (pubs eps' = pubs eps \/ pubs eps' = pubs eps ++ (x_public <$> secrets [op])) /\
    (length (net (duo_step seed_a seed_b d op).1) <= S (length (net d)))%nat.
Proof.
  intros (sb & ia & ra & ib & rb & Htalk) Hal Hfresh Hmax. destruct op as [[] text layer id|k secret].
  - destruct (talk_seal_alice d eps sb ia ra ib rb text layer id Htalk Hmax) as (Hr & eps' & H1 & H2). split; [done|]. exists eps'. split_and!; [done|by left|].
    cbn [duo_step]. destruct (seal_with _ _ _ _) as [? []]; cbn; rewrite ?length_app; cbn; lia.
  - destruct (talk_seal_bob d eps sb ia ra ib rb text layer id Htalk Hmax) as (Hr & eps' & H1 & H2). split; [done|]. exists eps'. split_and!; [done|by left|].
    cbn [duo_step]. destruct (bob d); [|cbn; lia]. destruct (seal_with _ _ _ _) as [? []]; cbn; rewrite ?length_app; cbn; lia.
  - cbn [secrets flat_map app fmap list_fmap] in *. destruct Hal as (p & Hk' & Hcase). unfold right. cbn [duo_step]. rewrite Hk'.
    assert (distinct eps) as Hdist by (by apply NoDup_app in Hfresh as (? & _)).
    pose proof Htalk as [Hl Hp Hop Ho He Hn Hlen Ha Hb Hw]. destruct Hcase as [(Hnew & Hmiss & Hplain)|(Hold & Hrecv)].
    + rewrite bool_decide_eq_false_2 by done. destruct (to_bob p) eqn:Hto.
      * destruct (talk_deliver_bob d eps sb ia ra ib rb k p secret Htalk Hfresh ltac:(lia) Hk' Hto Hnew Hmiss) as (s' & Hopen & eps' & Ht' & Hpubs).
        destruct Hw as [[-> _]|(Hnone & _ & _ & Hresp & _ & Hek)].
        -- rewrite Hopen. cbn [fst]. split; [by exists p|]. exists eps'. split_and!; [done..|cbn; lia].
        -- rewrite Hnone. unfold accept. rewrite (Hek k p Hk'). cbn [ok_or result_bind]. change (id_key (id_a seed_a)) with ida. rewrite Hresp. cbn [result_bind].
           unfold open. rewrite <- (Hplain Hnone), Hopen. cbn [fst]. split; [by exists p|]. exists eps'. split_and!; [done..|cbn; lia].
      * destruct (talk_deliver_alice d eps sb ia ra ib rb k p secret Htalk Hfresh ltac:(lia) Hk' Hto Hnew Hmiss) as (s' & Hopen & eps' & Ht' & Hpubs).
        rewrite Hopen. cbn [fst]. split; [by exists p|]. exists eps'. split_and!; [done..|cbn; lia].
    + rewrite bool_decide_eq_true_2 by done. unfold receiver_on in Hrecv.
      assert (forall d', d' = d -> talking d' eps) as Hsame by (intros d' ->; by exists sb, ia, ra, ib, rb).
      destruct (to_bob p) eqn:Hto.
      * destruct Hw as [[Hbob _]|(Hnone & _)]; [|by rewrite Hnone in Hrecv]. rewrite Hbob in *. cbn [mbind option_bind] in Hrecv.
        rewrite (talk_replay d eps sb ib rb idb ida k p secret Hl Hp Hdist Hb Hk') by (done || (by rewrite He)). cbn [fst].
        assert (mkDuo (alice d) (Some sb) (net d) (opened d) = d) as -> by (destruct d; cbn in *; congruence).
        split; [by exists p|]. exists eps. split_and!; [by apply Hsame|by left|lia].
      * rewrite (talk_replay d eps (alice d) ia ra ida idb k p secret Hl Hp Hdist Ha Hk') by (done || (by rewrite Ho)). cbn [fst].
        assert (mkDuo (alice d) (bob d) (net d) (opened d) = d) as -> by (by destruct d).
        split; [by exists p|]. exists eps. split_and!; [by apply Hsame|by left|lia].
Qed.

Lemma talk_run ops d eps :
  talking d eps -> all_allowed seed_a seed_b d ops -> NoDup (pubs eps ++ (x_public <$> secrets ops)) ->
  Z.of_nat (length (net d) + length ops) < u32_max -> all_right seed_a seed_b d ops.
Proof.
  revert d eps. induction ops as [|op ops IH]; intros d eps Ht' Hal Hfresh Hmax; [done|]. cbn [all_allowed all_right length] in *. destruct Hal as [Hal1 Hal2].
  assert (secrets (op :: ops) = secrets [op] ++ secrets ops) as Hsec by (unfold secrets; cbn [flat_map]; by rewrite app_nil_r).
  rewrite Hsec, fmap_app, app_assoc in Hfresh.
  destruct (talk_step d eps op Ht' Hal1) as (Hr & eps' & Ht'' & Hpubs & Hlen); [by apply NoDup_app in Hfresh as (? & _)|lia|].
  split; [done|]. apply (IH _ eps'); [done..| |lia]. destruct Hpubs as [->| ->]; [|done].
  eapply sublist_NoDup; [exact Hfresh|]. apply sublist_app; [|done]. by apply sublist_inserts_r.
Qed.

(** ** The beginning *)

Lemma first_flight_total dh1 dh2 a b e : exists sk, kdf_first_flight dh1 dh2 a b e = Ok sk.
Proof. unfold kdf_first_flight. destruct (proj1 Hk X3DH (dh1 ++ dh2) (a ++ b ++ e) 32%nat ltac:(lia)) as (out & -> & _). by eexists. Qed.

Lemma dh_total a b : exists sh, dh a (x_public b) = Ok sh /\ dh b (x_public a) = Ok sh /\ x_dh a (x_public b) = Some sh.
Proof. unfold dh. destruct (Hdh a b) as [E [sh Hsh]]. exists sh. rewrite <- E, Hsh. done. Qed.

Lemma talk_start ek ratchet :
  exists s eps, new_initiator (id_a seed_a) idb ek ratchet = Ok s /\ talking (mkDuo s None [] []) eps /\ pubs eps = [x_public (ed_scalar seed_b); x_public ratchet].
Proof.
  unfold new_initiator, peer_dh_public. rewrite Hed. cbn [ok_or result_bind id_a from_seed dh_secret id_key].
  destruct (dh_total (ed_scalar seed_a) (ed_scalar seed_b)) as (sh1 & E1 & E1' & _). destruct (dh_total ek (ed_scalar seed_b)) as (sh2 & E2 & E2' & _).
  destruct (first_flight_total sh1 sh2 ida idb (x_public ek)) as [sk Esk]. destruct (dh_total ratchet (ed_scalar seed_b)) as (sh3 & E3 & _ & E3').
  destruct (kdf_root_total Hk sk sh3) as (rk & ck & Eroot & Hck). rewrite E1. cbn [result_bind]. rewrite E2. cbn [result_bind]. rewrite Esk. cbn [result_bind].
  rewrite E3. cbn [result_bind]. rewrite Eroot. cbn [result_bind]. set (eps := [mkEpoch (ed_scalar seed_b) sk [] []; mkEpoch ratchet rk ck []]).
  eexists _, eps. split_and!; [done| |done].
  assert (forall c n k, ~ sent_at eps c n k) as Hnone by (intros [|[|[|c]]] n k Hs; by apply lookup_lt_Some in Hs as Hlt; cbn in Hlt; lia).
  assert (forall i r, store eps [] i r []) as Hst.
  { intros i r. split; [intros x Hx; by apply not_elem_of_nil in Hx|intros c n k _ Hs; by apply Hnone in Hs|constructor]. }
  eexists (mkSession idb ida sk (ed_scalar seed_b) (x_public (ed_scalar seed_b)) None None None 0 0 0 [] (x_public ek) false false), 1%nat, 0%nat, 0%nat, 0%nat.
  assert (linked eps) as Hlink by (intros [|i] Hi; [by exists sh3|cbn in Hi; lia]).
  assert (posts eps [] ida idb) as Hposts by (split; [intros c n k Hs; by apply Hnone in Hs|done|intros c n c' n' k Hs; by apply Hnone in Hs|done]).
  refine (Build_talk (mkDuo _ None [] []) _ _ 1 0 0 0 Hlink Hposts _ eq_refl eq_refl (or_introl eq_refl) eq_refl _ _ _); cbn [net opened alice bob].
  - intros k Hin. by apply not_elem_of_nil in Hin.
  - split; cbn; try apply Hst; try done; try lia. intros c n k _ _ Hs. by apply Hnone in Hs.
  - split; cbn; try apply Hst; try done; try lia. intros c n k _ _ Hs. by apply Hnone in Hs.
  - right. split_and!; try done. unfold new_responder, peer_dh_public. cbn [alice origin_ek]. rewrite Hed. cbn [ok_or result_bind id_b from_seed dh_secret id_key dh_public].
    rewrite E1'. cbn [result_bind]. rewrite E2'. cbn [result_bind]. by rewrite Esk.
Qed.

(** C7. A conversation can always be started, and what is delivered in it
    opens: in any interleaving of sending and delivery, with messages lost,
    reordered and repeated, every text that fits is sealed, every message
    that is delivered for the first time opens to exactly its text, and a
    second copy on the current chain is refused and changes nothing. The
    network delivers a message only while at most [MAX_SKIP] (256) messages
    of its direction are missing and starts with a plain one, the ratchet
    keys that are drawn differ from each other, and there are fewer steps
    than the 32-bit counters have values. *)
Theorem conversation_delivers ek ratchet ops :
  NoDup (x_public <$> (ed_scalar seed_b :: ratchet :: secrets ops)) -> zlen ops < u32_max ->
  exists s, new_initiator (id_a seed_a) idb ek ratchet = Ok s /\
    (all_allowed seed_a seed_b (mkDuo s None [] []) ops -> all_right seed_a seed_b (mkDuo s None [] []) ops).
Proof.
  intros Hfresh Hmax. destruct (talk_start ek ratchet) as (s & eps & E & Ht' & Hpubs). exists s. split; [done|]. intros Hal.
  apply (talk_run ops _ eps); [done..| |exact Hmax]. by rewrite Hpubs.
Qed.

End Talk.

(** ** A short conversation *)

Module TalkDemo.
Import LogDemo.
Existing Instances toy_cipher.

(** Transparent stand-ins: keys are their own public halves, agreement adds. *)
#[export] Instance toy_ratchet : RatchetCrypto := {
  x_public s := s; x_dh a b := Some (be_bytes 32 (from_be a + from_be b));
  ed_id seed := seed; ed_scalar seed := seed; ed_montgomery id := Some id;
  hkdf_expand salt ikm info n := Some (be_bytes n (3 * from_be ikm + from_be salt + from_be info));
  hkdf_prk prk info n := if (length prk <? 32)%nat then None else Some (be_bytes n (3 * from_be prk + from_be info));
}.

Lemma toy_dh : dh_agrees.
Proof. intros a b. cbn. split; [by rewrite Z.add_comm|by eexists]. Qed.
Lemma toy_ed : ed_agrees.
Proof. done. Qed.
Lemma toy_kdf : kdf_total.
Proof.
  split.
  - intros salt ikm info n _. eexists. split; [done|apply be_bytes_length].
  - intros prk info n Hl _. cbn [hkdf_prk toy_ratchet]. rewrite (proj2 (Nat.ltb_ge _ _)) by done. eexists. split; [done|apply be_bytes_length].
Qed.

Definition key (n : Z) : bytes := replicate 32 n.
Definition start : Session :=
  match new_initiator (id_a (key 1)) (key 2) (key 3) (key 4) with
  | Ok s => s
  | Err _ => mkSession [] [] [] [] [] None None None 0 0 0 [] [] false false
  end.

(** Three messages are sent; the third arrives first and is answered; then the
    first, the third once more, the answer, and one under the hybrid key. *)
Definition chat : list DuoOp :=
  [DSeal true [1] None (replicate 16 1); DSeal true [2] None (replicate 16 2); DSeal true [3] None (replicate 16 3);
   DDeliver 2 (key 5); DSeal false [4] None (replicate 16 4); DDeliver 0 (key 6); DDeliver 2 (key 7); DDeliver 3 (key 8);
   DSeal true [5] (Some (key 9)) (replicate 16 5); DDeliver 4 (key 10)].

Lemma conversation_delivers_witness :
  new_initiator (id_a (key 1)) (key 2) (key 3) (key 4) = Ok start /\ all_right (key 1) (key 2) (mkDuo start None [] []) chat.
Proof.
  destruct (conversation_delivers toy_correct toy_total toy_kdf toy_dh toy_ed (key 1) (key 2) (key 3) (key 4) chat) as (s & E & Hright).
  - apply (bool_decide_unpack _). by vm_compute.
  - by vm_compute.
  - assert (s = start) as -> by (unfold start; change (key 2) with (ed_id (key 2)) at 1; by rewrite E). split; [exact E|]. apply Hright.
    unfold chat. cbn [all_allowed].
    repeat match goal with
    | |- allowed _ (DSeal _ _ _ _) /\ _ => split; [exact I|]
    | |- allowed ?d (DDeliver ?k _) /\ _ =>
        split; [cbn [allowed]; eexists; split; [vm_compute; reflexivity|];
                first [ left; split_and!; [apply (bool_decide_unpack _); vm_compute; exact I|vm_compute; discriminate|vm_compute; done]
                      | right; split; [apply (bool_decide_unpack _); vm_compute; exact I|vm_compute; reflexivity] ]|]
    end. exact I.
Defined.

(** The same with public keys of 32 bytes for every secret. *)
Definition sized_ratchet : RatchetCrypto := {|
  x_public s := be_bytes 32 (from_be s); x_dh a b := Some (be_bytes 32 (from_be a + from_be b));
  ed_id seed := seed; ed_scalar seed := seed; ed_montgomery id := Some id;
  hkdf_expand salt ikm info n := Some (be_bytes n (3 * from_be ikm + from_be salt + from_be info));
  hkdf_prk prk info n := if (length prk <? 32)%nat then None else Some (be_bytes n (3 * from_be prk + from_be info));
|}.

Lemma be_array n v : array n (be_bytes n v).
Proof. split; [apply be_bytes_length|apply be_bytes_ok]. Qed.

Lemma toy_sized : @kdf_sized sized_ratchet.
Proof.
  split_and!.
  - intros s. apply be_array.
  - intros salt ikm info n out [= <-]. apply be_array.
  - intros prk info n out. cbn [hkdf_prk sized_ratchet]. destruct (_ <? _)%nat; [done|]. intros [= <-]. apply be_array.
Qed.

Lemma key_array n : 0 <= n < 256 -> array 32 (key n).
Proof. intros Hn. split; [apply length_replicate|]. apply Forall_replicate. ulia. Qed.

Definition noise : list SessionOp :=
  [SSeal [1; 2] None (replicate 16 1); SOpen [1; 2; 3] None (key 5); SReload; SSeal [3] (Some (key 6)) (replicate 16 2); SReload].

Lemma session_always_reads_back_witness :
  match @new_initiator sized_ratchet (@id_a sized_ratchet (key 1)) (key 2) (key 3) (key 4) with
  | Ok s0 => let s := fold_left (@session_step sized_ratchet _) noise s0 in
             ns s = 2 /\ @session_from sized_ratchet (session_bytes s) = Some s
  | Err _ => False
  end.
Proof.
  destruct (@new_initiator sized_ratchet (@id_a sized_ratchet (key 1)) (key 2) (key 3) (key 4)) as [s0|e] eqn:E; [|by vm_compute in E].
  destruct (@session_always_reads_back sized_ratchet _ toy_sized (@id_a sized_ratchet (key 1)) (key 2) (key 3) (key 4) s0 noise) as (H1 & _).
  - by apply key_array.
  - by apply key_array.
  - by apply key_array.
  - intros m [= <-]. by apply key_array.
  - exact E.
  - unfold noise. repeat match goal with |- Forall _ (_ :: _) => apply Forall_cons; split; try exact I end; [|by apply Forall_nil].
    split; [apply bytes_check; by vm_compute|by apply key_array].
  - split; [|exact H1]. vm_compute in E. injection E as <-. by vm_compute.
Defined.

End TalkDemo.
