(* ===== verification/PeerState.v ===== *)
(** * PeerState: what a device remembers of one contact

    Models the data of [chat/store.rs]: a stored message and its record, and
    the state of a contact (the session, the counters that make delivery
    idempotent, the summary) with its document.  The numbers of the messages
    that were applied are a floor and a sorted list above it; [is_new_seq] and
    [mark_seq] are shown to be a set of numbers that only grows, of bounded
    size. *)

From S2P Require Import Prelude Bytes Text Codec ErasureCode Dissolve Disk SealedState Ratchet.

Definition DEFAULT_MAX_MESSAGES : Z := 10000.
Definition EPHEMERAL_BYTES : Z := 2 * 1024 * 1024.
Definition MAX_PAGE : Z := 200.
Definition MAX_PAGE_BYTES : Z := 1024 * 1024.
Definition PEER_CACHE : nat := 32.
Definition WRITER_CACHE : nat := 8.
Definition MAX_ABOVE : Z := 256.
Definition MAX_SEEN_EKS : Z := 16.
Definition MAX_RECENT_ENV : Z := 64.
Definition ENTRY_OVERHEAD : Z := 112.
Definition MAX_TEXT_BYTES : Z := 4096.

(** ** Messages *)

Inductive MsgState := Queued | Sending | Delivered | Failed | Received | Read.
#[export] Instance MsgState_eq_dec : EqDecision MsgState.
Proof. solve_decision. Defined.

Definition state_code (s : MsgState) : Z :=
  match s with Queued => 0 | Sending => 1 | Delivered | Read => 2 | Failed => 3 | Received => 4 end.

Definition state_from_code (c : Z) : option MsgState :=
  if c =? 0 then Some Queued else if c =? 1 then Some Sending else if c =? 2 then Some Delivered
  else if c =? 3 then Some Failed else if c =? 4 then Some Received else None.

Record StoredMessage := mkStored {
  m_ord : Z; m_outgoing : bool; m_id : bytes; m_seq : Z; m_sent_ms : Z; m_at_ms : Z; m_state : MsgState;
  m_reason : option str; m_tried_ms : Z; m_text : str;
}.

Definition cost (m : StoredMessage) : Z := str_len (m_text m) + ENTRY_OVERHEAD.

Definition stored_bytes (m : StoredMessage) : bytes :=
  let reason := as_bytes (default [] (m_reason m)) in
  let n := Z.min (zlen reason) 255 in
  [1] ++ be_bytes 8 (m_ord m) ++ [if m_outgoing m then 1 else 0] ++ m_id m ++ be_bytes 8 (m_seq m) ++
  be_bytes 8 (m_sent_ms m) ++ be_bytes 8 (m_at_ms m) ++ [state_code (m_state m)] ++ [n] ++ take (Z.to_nat n) reason ++
  be_bytes 2 (str_len (m_text m) mod 65536) ++ as_bytes (m_text m).

Definition stored_from_bytes (b : bytes) : option StoredMessage :=
  '(v, b) ← rd_u8 b;
  if negb (v =? 1) then None
  else
    '(ord, b) ← rd_int 8 b; '(out, b) ← rd_u8 b; '(id, b) ← rd 16 b; '(seq, b) ← rd_int 8 b;
    '(sent, b) ← rd_int 8 b; '(at_, b) ← rd_int 8 b; '(code, b) ← rd_u8 b; state ← state_from_code code;
    '(rl, b) ← rd_u8 b;
    '(reason, b) ← (if rl =? 0 then Some (None, b) else '(s, b) ← rd_text (Z.to_nat rl) b; Some (Some s, b));
    '(n, b) ← rd_int 2 b;
    if MAX_TEXT_BYTES <? n then None
    else
      '(text, b) ← rd_text (Z.to_nat n) b;
      if negb (rd_done b) then None
      else Some (mkStored ord (negb (out =? 0)) id seq sent at_ state reason 0 text).

(** A message to record; the store assigns its position. *)
Record NewMessage := mkNew {
  n_outgoing : bool; n_id : bytes; n_seq : Z; n_sent_ms : Z; n_at_ms : Z; n_state : MsgState; n_reason : option str; n_text : str;
}.

(** ** The state of a contact *)

Record PeerState := mkPeer {
  p_peer : bytes; send_seq : Z; recv_floor : Z; recv_above : list Z; seen_eks : list bytes; recent_env : list bytes;
  p_count : Z; last_ms : Z; session : option Session; read_up_to : Z; read_reported : Z; receipts_off : bool;
}.

Definition PEER_VERSION : Z := 2.

Definition new_peer (peer : bytes) : PeerState := mkPeer peer 0 0 [] [] [] 0 0 None 0 0 false.

Definition set_send_seq (n : Z) (st : PeerState) : PeerState :=
  mkPeer (p_peer st) n (recv_floor st) (recv_above st) (seen_eks st) (recent_env st) (p_count st) (last_ms st) (session st)
    (read_up_to st) (read_reported st) (receipts_off st).
Definition set_applied (floor : Z) (above : list Z) (st : PeerState) : PeerState :=
  mkPeer (p_peer st) (send_seq st) floor above (seen_eks st) (recent_env st) (p_count st) (last_ms st) (session st)
    (read_up_to st) (read_reported st) (receipts_off st).
Definition set_seen (eks envs : list bytes) (st : PeerState) : PeerState :=
  mkPeer (p_peer st) (send_seq st) (recv_floor st) (recv_above st) eks envs (p_count st) (last_ms st) (session st)
    (read_up_to st) (read_reported st) (receipts_off st).
Definition set_summary (count last : Z) (st : PeerState) : PeerState :=
  mkPeer (p_peer st) (send_seq st) (recv_floor st) (recv_above st) (seen_eks st) (recent_env st) count last (session st)
    (read_up_to st) (read_reported st) (receipts_off st).
Definition set_session (s : option Session) (st : PeerState) : PeerState :=
  mkPeer (p_peer st) (send_seq st) (recv_floor st) (recv_above st) (seen_eks st) (recent_env st) (p_count st) (last_ms st) s
    (read_up_to st) (read_reported st) (receipts_off st).
Definition set_receipt_state (up rep : Z) (off : bool) (st : PeerState) : PeerState :=
  mkPeer (p_peer st) (send_seq st) (recv_floor st) (recv_above st) (seen_eks st) (recent_env st) (p_count st) (last_ms st)
    (session st) up rep off.

Definition max_recv_seq (st : PeerState) : Z := Z.max (default 0 (last (recv_above st))) (recv_floor st).

Definition next_seq (st : PeerState) : PeerState * Z :=
  let n := wrapping_add u64_max (send_seq st) 1 in (set_send_seq n st, n).

(** [binary_search] of a sorted vector: [None] when the number is there, the
    place to insert it otherwise. *)
Definition search (n : Z) (l : list Z) : option nat :=
  if bool_decide (n ∈ l) then None else Some (length (List.filter (fun x => x <? n) l)).

Definition is_new_seq (st : PeerState) (n : Z) : bool :=
  (recv_floor st <? n) && bool_decide (is_Some (search n (recv_above st))).

(** The two loops of [mark_seq]: numbers beyond the bound push the floor up, and
    the floor takes the numbers that follow it. *)
Fixpoint shed (floor : Z) (above : list Z) : Z * list Z :=
  match above with
  | [] => (floor, [])
  | x :: r => if MAX_ABOVE <? zlen above then shed x r else (floor, above)
  end.

Fixpoint absorb (floor : Z) (above : list Z) : Z * list Z :=
  match above with
  | [] => (floor, [])
  | x :: r => if x =? wrapping_add u64_max floor 1 then absorb x r else (floor, above)
  end.

Definition mark_seq (n : Z) (st : PeerState) : PeerState :=
  if n <=? recv_floor st then st
  else
    let above := match search n (recv_above st) with
                 | Some i => take i (recv_above st) ++ n :: drop i (recv_above st)
                 | None => recv_above st
                 end in
    let '(floor, above) := shed (recv_floor st) above in
    let '(floor, above) := absorb floor above in
    set_applied floor above st.

Definition remember_ek (ek : bytes) (st : PeerState) : PeerState :=
  if bool_decide (ek ∈ seen_eks st) then st
  else set_seen ((if MAX_SEEN_EKS <=? zlen (seen_eks st) then drop 1 (seen_eks st) else seen_eks st) ++ [ek]) (recent_env st) st.

Definition remember_envelope (id : bytes) (st : PeerState) : PeerState :=
  set_seen (seen_eks st) ((if MAX_RECENT_ENV <=? zlen (recent_env st) then drop 1 (recent_env st) else recent_env st) ++ [id]) st.

(** ** Its document *)

Definition peer_bytes (st : PeerState) : bytes :=
  [PEER_VERSION] ++ p_peer st ++ be_bytes 8 (send_seq st) ++ be_bytes 8 (recv_floor st) ++
  be_bytes 2 (zlen (recv_above st) mod 65536) ++ flat_map (be_bytes 8) (recv_above st) ++
  [zlen (seen_eks st) mod 256] ++ flat_map (fun k => k) (seen_eks st) ++
  [zlen (recent_env st) mod 256] ++ flat_map (fun k => k) (recent_env st) ++
  be_bytes 8 (p_count st) ++ be_bytes 8 (last_ms st) ++
  match session st with
  | Some s => [1] ++ be_bytes 4 (zlen (session_bytes s) mod 4294967296) ++ session_bytes s
  | None => [0]
  end ++
  be_bytes 8 (read_up_to st) ++ be_bytes 8 (read_reported st) ++ [if receipts_off st then 1 else 0].

(** The fields that version 2 added. *)
Definition rd_receipts (version : Z) (b : bytes) : option ((Z * Z * bool) * bytes) :=
  if 2 <=? version then
    '(up, b) ← rd_int 8 b; '(rep, b) ← rd_int 8 b; '(o, b) ← rd_u8 b;
    if o =? 0 then Some ((up, rep, false), b) else if o =? 1 then Some ((up, rep, true), b) else None
  else Some ((0, 0, false), b).

Definition rd_session `{RatchetCrypto} (b : bytes) : option (option Session * bytes) :=
  '(f, b) ← rd_u8 b;
  if f =? 0 then Some (None, b)
  else if f =? 1 then
    '(n, b) ← rd_int 4 b;
    if 256 * 1024 <? n then None else '(sb, b) ← rd (Z.to_nat n) b; s ← session_from sb; Some (Some s, b)
  else None.

Definition peer_from_bytes `{RatchetCrypto} (b : bytes) : option PeerState :=
  '(version, b) ← rd_u8 b;
  if negb (version =? 1) && negb (version =? PEER_VERSION) then None
  else
    '(peer, b) ← rd 32 b; '(sent, b) ← rd_int 8 b; '(floor, b) ← rd_int 8 b;
    '(na, b) ← rd_int 2 b;
    if MAX_ABOVE <? na then None
    else
      '(above, b) ← rd_list (rd_int 8) (Z.to_nat na) b; '(ne, b) ← rd_u8 b;
      if MAX_SEEN_EKS <? ne then None
      else
        '(eks, b) ← rd_list (rd 32) (Z.to_nat ne) b; '(nv, b) ← rd_u8 b;
        if MAX_RECENT_ENV <? nv then None
        else
          '(envs, b) ← rd_list (rd 16) (Z.to_nat nv) b; '(count, b) ← rd_int 8 b; '(last, b) ← rd_int 8 b;
          '(s, b) ← rd_session b; '(rc, b) ← rd_receipts version b;
          if negb (rd_done b) then None
          else Some (mkPeer peer sent floor above eks envs count last s rc.1.1 rc.1.2 rc.2).

(** ** Numbers *)

(** Numbers above the floor, in order. *)
Definition ascending (floor : Z) (l : list Z) : Prop := StronglySorted Z.lt (floor :: l).

Lemma ascending_cons f x l : ascending f (x :: l) <-> f < x /\ ascending x l.
Proof.
  unfold ascending. split.
  - intros [Hs Hf]%StronglySorted_inv. apply Forall_cons in Hf as [? _]. done.
  - intros [Hx Hs]. constructor; [done|]. constructor; [done|]. apply StronglySorted_inv in Hs as [_ Hf].
    eapply Forall_impl; [exact Hf|]. cbn. lia.
Qed.

Lemma ascending_above f l x : ascending f l -> x ∈ l -> f < x.
Proof. intros [_ Hf]%StronglySorted_inv Hx. rewrite Forall_forall in Hf. by apply Hf. Qed.

Lemma ascending_lower f g l : g <= f -> ascending f l -> ascending g l.
Proof.
  intros Hg. destruct l as [|x l]; [intros _; repeat constructor|]. rewrite !ascending_cons. intros [? ?]. split; [lia|done].
Qed.

Lemma ascending_nil f : ascending f [].
Proof. repeat constructor. Qed.

(** The place found by the search keeps the list in order. *)
Lemma insert_ascending f l n i :
  ascending f l -> f < n -> search n l = Some i ->
  ascending f (take i l ++ n :: drop i l) /\ (forall x, x ∈ take i l ++ n :: drop i l <-> x = n \/ x ∈ l).
Proof.
  intros Hs Hn Hi. split.
  2: { intros x. rewrite <- (take_drop i l) at 3. rewrite !elem_of_app, elem_of_cons. tauto. }
  unfold search in Hi. case_bool_decide as Hin; [done|]. injection Hi as <-.
  revert f Hs Hn Hin. induction l as [|x l IH]; intros f Hs Hn Hin; cbn [List.filter length take drop app].
  - apply ascending_cons. split; [done|apply ascending_nil].
  - apply ascending_cons in Hs as [Hx Hs]. apply not_elem_of_cons in Hin as [Hne Hin]. destruct (Z.ltb_spec x n).
    + cbn [length take drop app]. apply ascending_cons. split; [done|]. by apply IH.
    + replace (List.filter (fun y => y <? n) l) with (@nil Z).
      * cbn [length take drop app]. rewrite !ascending_cons. split_and!; [done|lia|done].
      * symmetry. clear IH. assert (forall y, y ∈ l -> n < y) as Hall by (intros y Hy; pose proof (ascending_above x l y Hs Hy); lia).
        clear -Hall. induction l as [|y l IHl]; [done|]. cbn. destruct (Z.ltb_spec y n) as [Hl|]; [pose proof (Hall y ltac:(left)); lia|].
        apply IHl. intros z Hz. apply Hall. by right.
Qed.

(** The loops end with a short list in order; what they drop lies below the
    new floor, and the old floor does not move back. *)
Lemma shed_spec floor l f' l' :
  ascending floor l -> shed floor l = (f', l') ->
  ascending f' l' /\ floor <= f' /\ zlen l' <= MAX_ABOVE /\ (zlen l <= MAX_ABOVE -> f' = floor /\ l' = l) /\
  (forall x, x ∈ l -> x <= f' \/ x ∈ l') /\ (forall x, x ∈ l' -> x ∈ l) /\ (floor < f' -> f' ∈ l /\ zlen l' = MAX_ABOVE) /\
  (MAX_ABOVE < zlen l -> floor < f').
Proof.
  revert floor. induction l as [|x l IH]; intros floor Hs; cbn [shed].
  - intros [= <- <-]. unfold MAX_ABOVE. cbn. split_and!; try done; try lia; try set_solver.
  - destruct (Z.ltb_spec MAX_ABOVE (zlen (x :: l))) as [Hl|Hl]; intros E.
    + apply ascending_cons in Hs as [Hx Hs]. apply IH in E as (H1 & H2 & H3 & H4 & H5 & H6 & H7 & H8); [|done].
      rewrite zlen_cons in *. split_and!; [done|lia|done|lia| |set_solver| |lia].
      * intros y [->|Hy]%elem_of_cons; [left; lia|by apply H5].
      * intros _. destruct (Z.le_gt_cases (zlen l) MAX_ABOVE) as [Hle|Hgt]; [|split; [right|]; apply H7; lia].
        destruct (H4 Hle) as [-> ->]. split; [left|lia].
    + injection E as <- <-. split_and!; try done; try lia; try set_solver.
Qed.

Lemma absorb_marks floor l f' l' :
  ascending floor l -> 0 <= floor -> Forall in_u64 l -> absorb floor l = (f', l') ->
  ascending f' l' /\ floor <= f' /\ (length l' <= length l)%nat /\ (forall x, floor < x <= f' <-> x ∈ l /\ x ∉ l') /\ (forall x, x ∈ l' -> x ∈ l) /\
  (f' = floor \/ f' ∈ l).
Proof.
  revert floor. induction l as [|x l IH]; intros floor Hs H0 Hu; cbn [absorb].
  - intros [= <- <-]. split_and!; [done|lia|done| |done|by left]. intros y. split; [lia|]. intros [Hy _]. by apply elem_of_nil in Hy.
  - apply ascending_cons in Hs as [Hx Hs]. apply Forall_cons in Hu as [Hux Hu].
    assert (wrapping_add u64_max floor 1 = floor + 1) as -> by (unfold wrapping_add; rewrite Z.mod_small; ulia).
    destruct (Z.eqb_spec x (floor + 1)) as [->|Hne]; intros E.
    + apply IH in E as (H1 & H2 & H3 & H4 & H5 & H6); [|done|lia|done]. split_and!; [done|lia|cbn; lia| |set_solver|].
      * intros y. split.
        { intros Hy. destruct (Z.eq_dec y (floor + 1)) as [->|]; [|destruct (proj1 (H4 y) ltac:(lia)); split; [by right|done]].
          split; [left|]. intros Hin. pose proof (ascending_above _ _ _ H1 Hin). lia. }
        { intros [[->|Hy]%elem_of_cons Hn]; [lia|]. pose proof (proj2 (H4 y) (conj Hy Hn)). lia. }
      * right. destruct H6 as [->|?]; [left|by right].
    + injection E as <- <-. split_and!; [by apply ascending_cons|lia|done| |done|by left]. intros y. split; [lia|]. intros [Hy Hn]. done.
Qed.

Definition applied (st : PeerState) (n : Z) : Prop := is_new_seq st n = false.

Lemma applied_spec st n : applied st n <-> n <= recv_floor st \/ n ∈ recv_above st.
Proof.
  unfold applied, is_new_seq, search. destruct (Z.ltb_spec (recv_floor st) n); cbn [andb]; [|split; [by left|done]].
  destruct (decide (n ∈ recv_above st)) as [Hin|Hin].
  - rewrite (bool_decide_eq_true_2 (n ∈ _)) by done. split; [by right|]. intros _. apply bool_decide_eq_false_2. by intros [? ?].
  - rewrite (bool_decide_eq_false_2 (n ∈ _)) by done. rewrite bool_decide_eq_true_2 by done. split; [done|]. intros [?|?]; [lia|done].
Qed.

(** The numbers of a state are in order. *)
Definition numbers_wf (st : PeerState) : Prop :=
  in_u64 (recv_floor st) /\ ascending (recv_floor st) (recv_above st) /\ Forall in_u64 (recv_above st) /\ zlen (recv_above st) <= MAX_ABOVE.

(** Marking a number applies it and keeps the others applied; the list stays in
    order and bounded; another number becomes applied only when the list was
    full and the number lies below everything in it. *)
Lemma mark_seq_spec n st :
  numbers_wf st -> in_u64 n ->
  let st' := mark_seq n st in
  numbers_wf st' /\ applied st' n /\ (forall m, applied st m -> applied st' m) /\ recv_floor st <= recv_floor st' /\
  (forall m, m ∈ recv_above st' -> m = n \/ m ∈ recv_above st) /\
  (forall m, applied st' m -> applied st m \/ m = n \/
     (exists l, NoDup l /\ MAX_ABOVE < zlen l /\ Forall (fun x => m < x /\ (x = n \/ x ∈ recv_above st)) l)).
Proof.
  intros (Hf & Hs & Hu & Hl) Hn st'. subst st'. unfold mark_seq. destruct (Z.leb_spec n (recv_floor st)) as [Hle|Hgt].
  { split_and!; [done|by apply applied_spec; left|done|lia|by right|by left]. }
  set (above := match search n (recv_above st) with Some i => _ | None => _ end).
  assert (ascending (recv_floor st) above /\ (forall x, x ∈ above <-> x = n \/ x ∈ recv_above st)) as [Ha Hin].
  { subst above. destruct (search n (recv_above st)) as [i|] eqn:Ei; [by apply insert_ascending|]. split; [done|].
    unfold search in Ei. case_bool_decide; [|done]. intros x. split; [auto|intros [->|?]; done]. }
  assert (Forall in_u64 above) as Hua by (apply Forall_forall; intros x [->|Hx]%Hin; [done|]; rewrite Forall_forall in Hu; auto).
  destruct (shed (recv_floor st) above) as [f1 l1] eqn:E1. pose proof (shed_spec _ _ _ _ Ha E1) as (S1 & S2 & S3 & S4 & S5 & S6 & S7 & S8).
  assert (Forall in_u64 l1) as Hu1 by (apply Forall_forall; intros x Hx; rewrite Forall_forall in Hua; auto).
  assert (in_u64 f1) as Hf1.
  { destruct (Z.eq_dec f1 (recv_floor st)) as [->|]; [done|]. rewrite Forall_forall in Hua. apply Hua, S7. lia. }
  destruct (absorb f1 l1) as [f2 l2] eqn:E2. pose proof (absorb_marks _ _ _ _ S1 (proj1 Hf1) Hu1 E2) as (A1 & A2 & A3 & A4 & A5 & A6).
  assert (forall m, applied (set_applied f2 l2 st) m <-> m <= f2 \/ m ∈ l2) as Hap by (intros m; apply applied_spec).
  split_and!.
  - unfold numbers_wf. cbn [set_applied recv_floor recv_above]. split_and!; [|done| |unfold zlen in *; lia].
    + destruct A6 as [->|Hx]; [done|]. rewrite Forall_forall in Hu1. by apply Hu1.
    + apply Forall_forall. intros x Hx. rewrite Forall_forall in Hu1. auto.
  - apply Hap. destruct (S5 n ltac:(apply Hin; by left)) as [?|H1]; [left; lia|].
    destruct (decide (n ∈ l2)) as [?|H2]; [by right|]. left. pose proof (proj2 (A4 n) (conj H1 H2)). lia.
  - intros m Hm%applied_spec. apply Hap. destruct Hm as [?|Hm]; [left; lia|].
    destruct (S5 m ltac:(apply Hin; by right)) as [?|H1]; [left; lia|].
    destruct (decide (m ∈ l2)) as [?|H2]; [by right|]. left. pose proof (proj2 (A4 m) (conj H1 H2)). lia.
  - cbn. lia.
  - intros m Hm. apply Hin, S6, A5, Hm.
  - intros m Hm%Hap. rewrite applied_spec. destruct Hm as [Hm|Hm]; [|apply A5, S6, Hin in Hm; tauto].
    destruct (Z.le_gt_cases m (recv_floor st)) as [|Hmf]; [by left; left|].
    destruct (Z.le_gt_cases m f1) as [Hm1|Hm1].
    + destruct (decide (m ∈ above)) as [H3%Hin|H3]; [tauto|]. right; right. destruct (S7 ltac:(lia)) as [Hf1in Hl1].
      exists (f1 :: l1). split_and!.
      * apply NoDup_cons. split; [intros Hx; pose proof (ascending_above _ _ _ S1 Hx); lia|]. clear -S1. apply StronglySorted_inv in S1 as [S1 _].
        induction S1 as [|x l S1 IH Hf]; constructor; [|done]. intros Hx. rewrite Forall_forall in Hf. specialize (Hf x Hx). lia.
      * rewrite zlen_cons. lia.
      * apply Forall_forall. intros x [->|Hx]%elem_of_cons; (split; [|apply Hin; auto]).
        { destruct (Z.eq_dec m f1) as [->|]; [done|lia]. }
        { pose proof (ascending_above _ _ _ S1 Hx). lia. }
    + destruct (proj1 (A4 m) ltac:(lia)) as [H1%S6%Hin _]. tauto.
Qed.

(** C39. The numbers of received messages: every number that was marked stays
    applied, the list is bounded, and a number that was never marked counts as
    applied only after more than 256 later ones were marked (a gap is given
    up). *)
Theorem numbers_track_marks peer ns :
  Forall in_u64 ns ->
  let st := fold_left (fun st n => mark_seq n st) ns (new_peer peer) in
  numbers_wf st /\ Forall (applied st) ns /\
  (forall m, 0 < m -> applied st m -> m ∉ ns -> exists l, NoDup l /\ MAX_ABOVE < zlen l /\ Forall (fun x => m < x /\ x ∈ ns) l).
Proof.
  intros Hns. cbn zeta.
  enough (forall ns st0 old, Forall in_u64 ns -> numbers_wf st0 -> Forall (applied st0) old -> (forall x, x ∈ recv_above st0 -> x ∈ old) ->
    (forall m, 0 < m -> applied st0 m -> m ∉ old -> exists l, NoDup l /\ MAX_ABOVE < zlen l /\ Forall (fun x => m < x /\ x ∈ old) l) ->
    let st := fold_left (fun st n => mark_seq n st) ns st0 in
    numbers_wf st /\ Forall (applied st) (old ++ ns) /\
    (forall m, 0 < m -> applied st m -> m ∉ old ++ ns -> exists l, NoDup l /\ MAX_ABOVE < zlen l /\ Forall (fun x => m < x /\ x ∈ old ++ ns) l)) as Hgen.
  { apply (Hgen ns (new_peer peer) []); [done| |done|done|].
    - split_and!; [cbn; ulia|apply ascending_nil|done|done].
    - intros m Hm Ha. apply applied_spec in Ha. cbn in Ha. destruct Ha as [?|Ha]; [lia|by apply elem_of_nil in Ha]. }
  clear. induction ns as [|n ns IH]; intros st0 old Hns Hwf Hold Hab Hgap; cbn [fold_left].
  { rewrite app_nil_r. auto. }
  apply Forall_cons in Hns as [Hn Hns]. pose proof (mark_seq_spec n st0 Hwf Hn) as (M1 & M2 & M3 & _ & M4 & M5).
  specialize (IH (mark_seq n st0) (old ++ [n]) Hns M1). rewrite <- app_assoc in IH. cbn [app] in IH. apply IH; [| |].
  - apply Forall_app. split; [eapply Forall_impl; [exact Hold|exact M3]|by apply Forall_singleton].
  - intros x [->|Hx]%M4; apply elem_of_app; [right; by left|left; auto].
  - intros m Hm Ha Hni. apply not_elem_of_app in Hni as [Hno Hne]. rewrite not_elem_of_cons in Hne. destruct Hne as [Hne _].
    destruct (M5 m Ha) as [Ho|[->|(l & L1 & L2 & L3)]]; [|done|].
    + destruct (Hgap m Hm Ho Hno) as (l & L1 & L2 & L3). exists l. split_and!; [done|done|]. eapply Forall_impl; [exact L3|]. cbn.
      intros x [? ?]. split; [done|apply elem_of_app; by left].
    + exists l. split_and!; [done|done|]. eapply Forall_impl; [exact L3|]. cbn. intros x [? Hx]. split; [done|]. apply elem_of_app.
      destruct Hx as [->|Hx]; [right; by left|left; auto].
Qed.

Lemma numbers_track_marks_witness :
  let ns := [2; 5; 1; 2] in
  let st := fold_left (fun st n => mark_seq n st) ns (new_peer (replicate 32 7)) in
  (recv_floor st, recv_above st) = (2, [5]) /\ numbers_wf st /\ Forall (applied st) ns.
Proof.
  split; [done|]. assert (Forall in_u64 [2; 5; 1; 2]) as Hns by (repeat constructor; ulia).
  destruct (numbers_track_marks (replicate 32 7) [2; 5; 1; 2] Hns) as (H1 & H2 & _). exact (conj H1 H2).
Defined.

(** ** Reading back *)

Definition stored_wf (m : StoredMessage) : Prop :=
  in_u64 (m_ord m) /\ array 16 (m_id m) /\ in_u64 (m_seq m) /\ in_u64 (m_sent_ms m) /\ in_u64 (m_at_ms m) /\ m_state m <> Read /\
  match m_reason m with Some s => text_ok s /\ 0 < str_len s <= 255 | None => True end /\ m_tried_ms m = 0 /\
  text_ok (m_text m) /\ str_len (m_text m) <= MAX_TEXT_BYTES.

Lemma state_code_back s : s <> Read -> state_from_code (state_code s) = Some s.
Proof. by destruct s. Qed.

(** A record of the history is read as the message that was written. *)
Lemma stored_reads_back m : stored_wf m -> stored_from_bytes (stored_bytes m) = Some m.
Proof.
  intros (Ho & [Hid _] & Hs & Hsm & Ha & Hst & Hr & Ht & Htx & Hl). unfold MAX_TEXT_BYTES in Hl. pose proof (str_len_nonneg (m_text m)).
  unfold stored_bytes, stored_from_bytes. cbn [app rd_u8 mbind option_bind]. change (negb (1 =? 1)) with false. cbv iota.
  rewrite rd_u64_app by done. cbn [mbind option_bind app rd_u8]. rewrite (rd_app 16) by done. cbn [mbind option_bind].
  do 3 (rewrite rd_u64_app by done; cbn [mbind option_bind]). cbn [app rd_u8 mbind option_bind]. rewrite state_code_back by done.
  cbn [mbind option_bind].
  set (k := be_bytes 2 _ ++ _).
  assert ((let n := Z.min (zlen (as_bytes (default [] (m_reason m)))) 255 in
     (if n =? 0 then Some (None, take (Z.to_nat n) (as_bytes (default [] (m_reason m))) ++ k)
      else '(s, b) ← rd_text (Z.to_nat n) (take (Z.to_nat n) (as_bytes (default [] (m_reason m))) ++ k); Some (Some s, b))) = Some (m_reason m, k)) as Hreason.
  { cbn zeta. destruct (m_reason m) as [s|]; cbn [default id].
    - destruct Hr as [Hs1 Hs2]. rewrite as_bytes_length. rewrite Z.min_l by lia. destruct (Z.eqb_spec (str_len s) 0); [lia|].
      rewrite take_ge by (rewrite as_bytes_nat; lia). rewrite rd_text_app by done. done.
    - done. }
  cbn zeta in Hreason. rewrite Hreason. cbn [mbind option_bind]. unfold k. rewrite Z.mod_small by lia. rewrite rd_u16_app by ulia.
  cbn [mbind option_bind]. rewrite (proj2 (Z.ltb_ge _ _)) by (unfold MAX_TEXT_BYTES; lia).
  rewrite <- (app_nil_r (as_bytes (m_text m))), rd_text_app by done. cbn [mbind option_bind]. change (negb (rd_done [])) with false. cbv iota.
  destruct m as [a1 [] a3 a4 a5 a6 a7 a8 a9 a10]; cbn in *; by subst.
Qed.

Section Peer.
Context `{RatchetCrypto}.

Definition peer_wf (st : PeerState) : Prop :=
  array 32 (p_peer st) /\ in_u64 (send_seq st) /\ numbers_wf st /\
  Forall (array 32) (seen_eks st) /\ zlen (seen_eks st) <= MAX_SEEN_EKS /\
  Forall (array 16) (recent_env st) /\ zlen (recent_env st) <= MAX_RECENT_ENV /\
  in_u64 (p_count st) /\ in_u64 (last_ms st) /\ (forall s, session st = Some s -> session_wf s) /\
  in_u64 (read_up_to st) /\ in_u64 (read_reported st).

Lemma session_bytes_length s : session_wf s -> zlen (session_bytes s) <= 256 * 1024.
Proof.
  intros ([Ho _] & [Hp _] & [Hr _] & [Hd _] & [Hq _] & _ & Hdhr & Hcks & Hckr & _ & _ & _ & [He _] & Hsk & Hl).
  unfold session_bytes. rewrite !zlen_app, !zlen_cons, !zlen_nil.
  assert (forall n v, zlen (be_bytes n v) = Z.of_nat n) as -> by (intros; unfold zlen; by rewrite be_bytes_length).
  assert (forall o, opt_wf o -> zlen (put_opt32 o) <= 33) as Hopt by (intros [k|]; cbn; [intros [Hk _]; unfold zlen; cbn; lia|unfold zlen; cbn; lia]).
  apply Hopt in Hdhr, Hcks, Hckr.
  assert (zlen (flat_map put_skipped (skipped s)) <= 92 * zlen (skipped s)) as Hfl.
  { clear -Hsk. induction Hsk as [|k l ([H1 _] & _ & [H2 _] & [H3 _]) _ IH]; [done|]. cbn [flat_map]. rewrite zlen_app, zlen_cons.
    unfold put_skipped at 1. rewrite !zlen_app. unfold zlen in *. rewrite be_bytes_length. lia. }
  unfold MAX_STORED_SKIPPED in Hl. unfold zlen in *. rewrite ?be_bytes_length. lia.
Qed.

Lemma rd_session_put (o : option Session) b :
  (forall s, o = Some s -> session_wf s) ->
  rd_session (match o with Some s => [1] ++ be_bytes 4 (zlen (session_bytes s) mod 4294967296) ++ session_bytes s | None => [0] end ++ b) = Some (o, b).
Proof.
  destruct o as [s|]; [|done]. intros Hs. specialize (Hs s eq_refl). pose proof (session_bytes_length s Hs) as Hl. pose proof (zlen_nonneg (session_bytes s)).
  unfold rd_session. cbn [app rd_u8 mbind option_bind]. change (1 =? 0) with false. change (1 =? 1) with true. cbv iota.
  rewrite <- app_assoc, Z.mod_small, rd_u32_app by ulia. cbn [mbind option_bind]. rewrite (proj2 (Z.ltb_ge _ _)) by lia.
  rewrite rd_app by (unfold zlen; lia). cbn [mbind option_bind]. by rewrite session_reads_back.
Qed.

(** The document up to the session. *)
Definition peer_prefix (version : Z) (st : PeerState) : bytes :=
  [version] ++ p_peer st ++ be_bytes 8 (send_seq st) ++ be_bytes 8 (recv_floor st) ++
  be_bytes 2 (zlen (recv_above st) mod 65536) ++ flat_map (be_bytes 8) (recv_above st) ++
  [zlen (seen_eks st) mod 256] ++ flat_map (fun k => k) (seen_eks st) ++
  [zlen (recent_env st) mod 256] ++ flat_map (fun k => k) (recent_env st) ++
  be_bytes 8 (p_count st) ++ be_bytes 8 (last_ms st) ++
  match session st with
  | Some s => [1] ++ be_bytes 4 (zlen (session_bytes s) mod 4294967296) ++ session_bytes s
  | None => [0]
  end.

Lemma peer_prefix_reads version st tail rc :
  peer_wf st -> version = 1 \/ version = PEER_VERSION -> rd_receipts version tail = Some (rc, []) ->
  peer_from_bytes (peer_prefix version st ++ tail) = Some (set_receipt_state rc.1.1 rc.1.2 rc.2 st).
Proof.
  intros ([Hp _] & Hs & (Hf & _ & Hu & Hl) & He & Hel & Hv & Hvl & Hc & Hm & Hse & _) Hver Htail.
  unfold MAX_ABOVE in Hl. unfold MAX_SEEN_EKS in Hel. unfold MAX_RECENT_ENV in Hvl.
  pose proof (zlen_nonneg (recv_above st)). pose proof (zlen_nonneg (seen_eks st)). pose proof (zlen_nonneg (recent_env st)).
  unfold peer_prefix, peer_from_bytes. rewrite <- !app_assoc. cbn [app rd_u8 mbind option_bind].
  assert (negb (version =? 1) && negb (version =? PEER_VERSION) = false) as -> by (by destruct Hver as [->| ->]).
  rewrite (rd_app 32) by done. cbn [mbind option_bind]. do 2 (rewrite rd_u64_app by done; cbn [mbind option_bind]).
  rewrite Z.mod_small, rd_u16_app by ulia. cbn [mbind option_bind]. rewrite (proj2 (Z.ltb_ge _ _)) by (unfold MAX_ABOVE; lia).
  rewrite (rd_list_app (rd_int 8) (be_bytes 8) in_u64) by (try apply rd_u64_app; try done; unfold zlen; lia). cbn [mbind option_bind app rd_u8].
  rewrite (Z.mod_small (zlen (seen_eks st))) by lia. rewrite (proj2 (Z.ltb_ge _ _)) by (unfold MAX_SEEN_EKS; lia).
  rewrite (rd_list_app (rd 32) (fun k => k) (array 32)) by (try (intros a b [Ha _]; by apply rd_app); try done; unfold zlen; lia).
  cbn [mbind option_bind app rd_u8]. rewrite (Z.mod_small (zlen (recent_env st))) by lia.
  rewrite (proj2 (Z.ltb_ge _ _)) by (unfold MAX_RECENT_ENV; lia).
  rewrite (rd_list_app (rd 16) (fun k => k) (array 16)) by (try (intros a b [Ha _]; by apply rd_app); try done; unfold zlen; lia).
  cbn [mbind option_bind]. do 2 (rewrite rd_u64_app by done; cbn [mbind option_bind]).
  rewrite rd_session_put by done. cbn [mbind option_bind]. rewrite Htail. by cbn [mbind option_bind].
Qed.

(** A state that is saved is loaded as it was. *)
Lemma peer_reads_back st : peer_wf st -> peer_from_bytes (peer_bytes st) = Some st.
Proof.
  intros Hwf. pose proof Hwf as (_ & _ & _ & _ & _ & _ & _ & _ & _ & _ & Hup & Hrep).
  assert (peer_bytes st = peer_prefix PEER_VERSION st ++ (be_bytes 8 (read_up_to st) ++ be_bytes 8 (read_reported st) ++ [if receipts_off st then 1 else 0])) as ->
    by (unfold peer_bytes, peer_prefix; by rewrite <- !app_assoc).
  rewrite (peer_prefix_reads _ _ _ (read_up_to st, read_reported st, receipts_off st)); [by destruct st|done|by right|].
  unfold rd_receipts. change (2 <=? PEER_VERSION) with true. cbv iota. rewrite rd_u64_app by done. cbn [mbind option_bind].
  rewrite rd_u64_app by done. cbn [mbind option_bind rd_u8]. by destruct (receipts_off st).
Qed.

(** The state of a contact that is saved is loaded as it was; a document of
    version 1, which has no receipt fields, still opens, with the defaults. *)
Theorem peer_document_roundtrip st :
  peer_wf st ->
  peer_from_bytes (peer_bytes st) = Some st /\
  peer_from_bytes (peer_prefix 1 st) = Some (set_receipt_state 0 0 false st).
Proof.
  intros Hwf. split; [by apply peer_reads_back|]. rewrite <- (app_nil_r (peer_prefix 1 st)). by apply (peer_prefix_reads 1 st [] (0, 0, false)); [|left|].
Qed.

(** Every change the engine makes keeps a state well formed. *)
Lemma wf_new_peer peer : array 32 peer -> peer_wf (new_peer peer).
Proof.
  intros Hp. unfold peer_wf, numbers_wf. cbn. unfold MAX_ABOVE, MAX_SEEN_EKS, MAX_RECENT_ENV, zlen. cbn.
  split_and!; try done; try ulia; apply ascending_nil.
Qed.

Lemma wf_mark n st : in_u64 n -> peer_wf st -> peer_wf (mark_seq n st).
Proof.
  intros Hn (W1 & W2 & W3 & W4 & W5 & W6 & W7 & W8 & W9 & W10 & W11 & W12). pose proof (mark_seq_spec n st W3 Hn) as (M & _).
  unfold peer_wf. revert M. unfold mark_seq. destruct (n <=? recv_floor st); [intros M; by split_and!|].
  destruct (shed _ _) as [f1 l1]. destruct (absorb f1 l1) as [f2 l2]. intros M. by split_and!.
Qed.

Lemma wf_remember_ek ek st : array 32 ek -> peer_wf st -> peer_wf (remember_ek ek st).
Proof.
  intros He (W1 & W2 & W3 & W4 & W5 & W6 & W7 & W8 & W9 & W10 & W11 & W12). unfold remember_ek. case_bool_decide; [by split_and!|].
  unfold peer_wf. cbn. split_and!; try done.
  - apply Forall_app. split; [destruct (_ <=? _); [by apply Forall_drop|done]|by apply Forall_singleton].
  - rewrite zlen_app, zlen_cons, zlen_nil. unfold MAX_SEEN_EKS, zlen in *. destruct (Z.leb_spec 16 (Z.of_nat (length (seen_eks st)))); rewrite ?length_drop; lia.
Qed.

Lemma wf_remember_envelope id st : array 16 id -> peer_wf st -> peer_wf (remember_envelope id st).
Proof.
  intros He (W1 & W2 & W3 & W4 & W5 & W6 & W7 & W8 & W9 & W10 & W11 & W12). unfold remember_envelope, peer_wf. cbn. split_and!; try done.
  - apply Forall_app. split; [destruct (_ <=? _); [by apply Forall_drop|done]|by apply Forall_singleton].
  - rewrite zlen_app, zlen_cons, zlen_nil. unfold MAX_RECENT_ENV, zlen in *. destruct (Z.leb_spec 64 (Z.of_nat (length (recent_env st)))); rewrite ?length_drop; lia.
Qed.

Lemma wf_session o st : (forall s, o = Some s -> session_wf s) -> peer_wf st -> peer_wf (set_session o st).
Proof. intros Hs (W1 & W2 & W3 & W4 & W5 & W6 & W7 & W8 & W9 & W10 & W11 & W12). by split_and!. Qed.

Lemma wf_send_seq n st : in_u64 n -> peer_wf st -> peer_wf (set_send_seq n st).
Proof. intros Hn (W1 & W2 & W3 & W4 & W5 & W6 & W7 & W8 & W9 & W10 & W11 & W12). by split_and!. Qed.

Lemma wf_summary c l st : in_u64 c -> in_u64 l -> peer_wf st -> peer_wf (set_summary c l st).
Proof. intros Hc Hl (W1 & W2 & W3 & W4 & W5 & W6 & W7 & W8 & W9 & W10 & W11 & W12). by split_and!. Qed.

Lemma wf_receipt_state u r o st : in_u64 u -> in_u64 r -> peer_wf st -> peer_wf (set_receipt_state u r o st).
Proof. intros Hu Hr (W1 & W2 & W3 & W4 & W5 & W6 & W7 & W8 & W9 & W10 & W11 & W12). by split_and!. Qed.

End Peer.
