(* ===== verification/ChatProto.v ===== *)
(** * ChatProto: the wire format of private chat

    Models [chat/proto.rs]: the frames of a stream, the statuses of an
    acknowledgement, and the records inside a sealed envelope (a text or a read
    receipt).  A stream is the bytes that arrive on it before its end.  Frames
    and records tolerate fields that a newer build appended. *)

From S2P Require Import Prelude Bytes Text Codec ErasureCode Dissolve Disk SealedState Ratchet PeerState.

Definition MAX_HEADER_BYTES : Z := 1024.
Definition MAX_FRAME_BODY : Z := 1 + MAX_HEADER_BYTES + 4 + MAX_CIPHERTEXT.
Definition FRAME_DELIVER : Z := 1.
Definition FRAME_ACK : Z := 2.
Definition FRAME_SYNC : Z := 16.
Definition FRAME_SYNC_REPLY : Z := 17.
Definition SYNC_VERSION : Z := 1.
Definition MAX_SYNC_ITEMS : Z := 64.
Definition KIND_TEXT : Z := 1.
Definition KIND_READ : Z := 2.

Inductive ProtoError := ProtoIo | BadLength (n : Z) | BadType (t : Z) | ProtoMalformed (what : bytes).

Inductive AckStatus :=
| AStored | ADuplicate | ANoSession | ANotAllowed | ATooBig | ARate | ABusy | ABadRequest | AUnsupported | AFailed | AUnknown.
#[export] Instance AckStatus_eq_dec : EqDecision AckStatus.
Proof. solve_decision. Defined.

Definition ack_code (s : AckStatus) : Z :=
  match s with
  | AUnknown => 255 | AStored => 0 | ADuplicate => 1 | ANoSession => 2 | ANotAllowed => 3 | ATooBig => 4 | ARate => 5
  | ABusy => 6 | ABadRequest => 7 | AUnsupported => 8 | AFailed => 9
  end.

Definition ack_from_code (c : Z) : option AckStatus :=
  if c =? 0 then Some AStored else if c =? 1 then Some ADuplicate else if c =? 2 then Some ANoSession
  else if c =? 3 then Some ANotAllowed else if c =? 4 then Some ATooBig else if c =? 5 then Some ARate
  else if c =? 6 then Some ABusy else if c =? 7 then Some ABadRequest else if c =? 8 then Some AUnsupported
  else if c =? 9 then Some AFailed else None.

Definition is_delivered (s : AckStatus) : bool := match s with AStored | ADuplicate => true | _ => false end.

Record SyncItem := mkSyncItem { si_id : bytes; si_seq : Z; si_len : Z }.

Inductive Frame :=
| FDeliver (env : bytes) | FAck (status : AckStatus) (envelope_id : bytes) | FSync (items : list SyncItem) | FSyncReply (ids : list bytes).

Definition put_item (it : SyncItem) : bytes := si_id it ++ be_bytes 8 (si_seq it) ++ be_bytes 2 (si_len it).

Definition rd_item (b : bytes) : option (SyncItem * bytes) :=
  '(id, b) ← rd 16 b; '(seq, b) ← rd_int 8 b; '(len, b) ← rd_int 2 b; Some (mkSyncItem id seq len, b).

Definition frame_payload (f : Frame) : Z * bytes :=
  match f with
  | FDeliver env => (FRAME_DELIVER, env)
  | FAck s id => (FRAME_ACK, [ack_code s] ++ id)
  | FSync items =>
    let items := take (Z.to_nat MAX_SYNC_ITEMS) items in
    (FRAME_SYNC, [SYNC_VERSION] ++ be_bytes 2 (zlen items mod 65536) ++ flat_map put_item items)
  | FSyncReply ids =>
    let ids := take (Z.to_nat MAX_SYNC_ITEMS) ids in
    (FRAME_SYNC_REPLY, [SYNC_VERSION] ++ be_bytes 2 (zlen ids mod 65536) ++ flat_map (fun k => k) ids)
  end.

Definition encode_frame (f : Frame) : bytes :=
  let '(ty, payload) := frame_payload f in be_bytes 4 ((zlen payload + 1) mod 4294967296) ++ [ty] ++ payload.

Definition need_proto {A} (o : option A) (what : bytes) : result A ProtoError := ok_or o (ProtoMalformed what).

(** The head and the items of a synchronisation payload. *)
Definition decode_sync {A} (item : bytes -> option (A * bytes)) (what payload : bytes) : result (list A) ProtoError :=
  let? (ver, b) := need_proto (rd_u8 payload) what in
  if ver <? SYNC_VERSION then Err (ProtoMalformed (lit "sync version"))
  else
    let? (n, b) := need_proto (rd_int 2 b) what in
    if MAX_SYNC_ITEMS <? n then Err (ProtoMalformed (lit "sync count"))
    else let? (items, _) := need_proto (rd_list item (Z.to_nat n) b) what in Ok items.

Definition decode_body (body : bytes) : result Frame ProtoError :=
  match body with
  | [] => Err (BadLength 0)
  | ty :: payload =>
    if ty =? FRAME_DELIVER then Ok (FDeliver payload)
    else if ty =? FRAME_ACK then
      let? (s, b) := need_proto (rd_u8 payload) (lit "ack") in
      let? (id, _) := need_proto (rd 16 b) (lit "ack") in
      Ok (FAck (default AUnknown (ack_from_code s)) id)
    else if ty =? FRAME_SYNC then let? items := decode_sync rd_item (lit "sync") payload in Ok (FSync items)
    else if ty =? FRAME_SYNC_REPLY then let? ids := decode_sync (rd 16) (lit "sync reply") payload in Ok (FSyncReply ids)
    else Err (BadType ty)
  end.

Definition decode_frame (b : bytes) : result (Frame * Z) ProtoError :=
  if (length b <? 4)%nat then Err (BadLength (zlen b))
  else
    let len := from_be (take 4 b) in
    if (len =? 0) || (MAX_FRAME_BODY <? len) then Err (BadLength len)
    else if zlen b <? 4 + len then Err (BadLength (zlen b))
    else let? f := decode_body (slice 4 (4 + Z.to_nat len) b) in Ok (f, 4 + len).

(** The frame and what is left of the stream. *)
Definition read_chat_frame (stream : bytes) : result (Frame * bytes) ProtoError :=
  match rd_int 4 stream with
  | None => Err ProtoIo
  | Some (len, b) =>
    if (len =? 0) || (MAX_FRAME_BODY <? len) then Err (BadLength len)
    else match rd (Z.to_nat len) b with
         | None => Err ProtoIo
         | Some (body, rest) => let? f := decode_body body in Ok (f, rest)
         end
  end.

(** ** Records *)

Record Message := mkMessage { msg_id : bytes; msg_seq : Z; msg_sent_ms : Z; msg_text : str }.

Definition message_encode (m : Message) : result bytes ProtoError :=
  let n := str_len (msg_text m) in
  if (n =? 0) || (MAX_TEXT_BYTES <? n) then Err (ProtoMalformed (lit "text length"))
  else Ok ([KIND_TEXT] ++ msg_id m ++ be_bytes 8 (msg_seq m) ++ be_bytes 8 (msg_sent_ms m) ++ be_bytes 2 (n mod 65536) ++ as_bytes (msg_text m)).

Definition message_decode (b : bytes) : result Message ProtoError :=
  let what := lit "message" in
  let? (k, b) := need_proto (rd_u8 b) what in
  if negb (k =? KIND_TEXT) then Err (ProtoMalformed (lit "message kind"))
  else
    let? (id, b) := need_proto (rd 16 b) what in
    let? (seq, b) := need_proto (rd_int 8 b) what in
    let? (sent, b) := need_proto (rd_int 8 b) what in
    let? (n, b) := need_proto (rd_int 2 b) what in
    if (n =? 0) || (MAX_TEXT_BYTES <? n) then Err (ProtoMalformed (lit "text length"))
    else
      let? (raw, _) := need_proto (rd (Z.to_nat n) b) what in
      let? text := ok_or (from_utf8 raw) (ProtoMalformed (lit "text encoding")) in
      if seq =? 0 then Err (ProtoMalformed what) else Ok (mkMessage id seq sent text).

Record ReadReceipt := mkReceipt { rc_id : bytes; up_to_seq : Z }.

Definition receipt_encode (r : ReadReceipt) : result bytes ProtoError :=
  if up_to_seq r =? 0 then Err (ProtoMalformed (lit "receipt"))
  else Ok ([KIND_READ] ++ rc_id r ++ be_bytes 8 (up_to_seq r)).

Definition receipt_decode (b : bytes) : result ReadReceipt ProtoError :=
  let what := lit "receipt" in
  let? (k, b) := need_proto (rd_u8 b) what in
  if negb (k =? KIND_READ) then Err (ProtoMalformed (lit "receipt kind"))
  else
    let? (id, b) := need_proto (rd 16 b) what in
    let? (up, _) := need_proto (rd_int 8 b) what in
    if up =? 0 then Err (ProtoMalformed what) else Ok (mkReceipt id up).

Inductive ChatRecord := RText (m : Message) | RRead (r : ReadReceipt) | RUnknown (kind : Z).

Definition record_decode (b : bytes) : result ChatRecord ProtoError :=
  match b with
  | [] => Err (ProtoMalformed (lit "record kind"))
  | k :: _ =>
    if k =? KIND_TEXT then let? m := message_decode b in Ok (RText m)
    else if k =? KIND_READ then let? r := receipt_decode b in Ok (RRead r)
    else if negb (k =? 0) then Ok (RUnknown k)
    else Err (ProtoMalformed (lit "record kind"))
  end.

(** ** Reading back *)

Definition message_wf (m : Message) : Prop :=
  array 16 (msg_id m) /\ 0 < msg_seq m <= u64_max /\ in_u64 (msg_sent_ms m) /\ text_ok (msg_text m) /\ 0 < str_len (msg_text m) <= MAX_TEXT_BYTES.
Definition receipt_wf (r : ReadReceipt) : Prop := array 16 (rc_id r) /\ 0 < up_to_seq r <= u64_max.

(** A text is read as it was written, whatever a newer build appends. *)
Lemma message_reads m more :
  message_wf m -> exists b, message_encode m = Ok b /\ (length b <= 35 + 4096)%nat /\ record_decode (b ++ more) = Ok (RText m).
Proof.
  intros ([Hid _] & Hs & Hsm & Ht & Hn). unfold MAX_TEXT_BYTES in Hn. unfold message_encode. pose proof Hn as Hn'.
  assert ((str_len (msg_text m) =? 0) || (MAX_TEXT_BYTES <? str_len (msg_text m)) = false) as Hg.
  { apply orb_false_iff. split; [apply Z.eqb_neq; lia|apply Z.ltb_ge; unfold MAX_TEXT_BYTES; lia]. }
  rewrite Hg. eexists. split; [done|]. split.
  { rewrite !length_app, !be_bytes_length, Hid, as_bytes_nat. cbn [length]. lia. }
  cbn [app record_decode]. change (KIND_TEXT =? KIND_TEXT) with true. cbv iota. unfold message_decode, need_proto.
  cbn [rd_u8 ok_or result_bind]. change (negb (KIND_TEXT =? KIND_TEXT)) with false. cbv iota. rewrite <- !app_assoc.
  rewrite (rd_app 16) by done. cbn [ok_or result_bind]. do 2 (rewrite rd_u64_app by ulia; cbn [ok_or result_bind]).
  rewrite Z.mod_small, rd_u16_app by ulia. cbn [ok_or result_bind]. rewrite Hg.
  rewrite rd_app by apply as_bytes_nat. cbn [ok_or result_bind]. rewrite from_utf8_as_bytes by done. cbn [ok_or result_bind].
  destruct (Z.eqb_spec (msg_seq m) 0); [lia|]. by destruct m.
Qed.

(** The numbers of what is read fit their fields. *)
Lemma record_text_range b m : bytes_ok b -> record_decode b = Ok (RText m) -> 0 < msg_seq m <= u64_max.
Proof.
  intros Hb. unfold record_decode. destruct b as [|k b]; [done|]. destruct (k =? KIND_TEXT); [|destruct (k =? KIND_READ); [by destruct (receipt_decode _)|by destruct (negb _)]].
  destruct (message_decode (k :: b)) as [m'|] eqn:E; [|done]. cbn [result_bind]. intros [= <-]. unfold message_decode, need_proto in E. cbn [rd_u8 ok_or result_bind] in E.
  destruct (negb _); [done|]. apply Forall_cons in Hb as [_ Hb]. destruct (rd 16 b) as [[id b1]|] eqn:E1; [|done]. cbn [ok_or result_bind] in E.
  apply rd_inv in E1 as [-> _]. apply Forall_app in Hb as [_ Hb]. destruct (rd_int 8 b1) as [[n b2]|] eqn:E2; [|done]. cbn [ok_or result_bind] in E.
  apply rd_int_inv in E2 as (_ & Hn & _); [|done]. change (256 ^ Z.of_nat 8) with 18446744073709551616 in Hn.
  destruct (rd_int 8 b2) as [[sent b3]|]; [|done]. cbn [ok_or result_bind] in E. destruct (rd_int 2 b3) as [[len b4]|]; [|done]. cbn [ok_or result_bind] in E.
  destruct (_ || _); [done|]. destruct (rd _ b4) as [[raw b5]|]; [|done]. cbn [ok_or result_bind] in E. destruct (from_utf8 raw); [|done]. cbn [ok_or result_bind] in E.
  destruct (Z.eqb_spec n 0); [done|]. injection E as <-. cbn. ulia.
Qed.

Lemma record_receipt_range b r : bytes_ok b -> record_decode b = Ok (RRead r) -> 0 < up_to_seq r <= u64_max.
Proof.
  intros Hb. unfold record_decode. destruct b as [|k b]; [done|]. destruct (k =? KIND_TEXT); [by destruct (message_decode _)|]. destruct (k =? KIND_READ); [|by destruct (negb _)].
  destruct (receipt_decode (k :: b)) as [m'|] eqn:E; [|done]. cbn [result_bind]. intros [= <-]. unfold receipt_decode, need_proto in E. cbn [rd_u8 ok_or result_bind] in E.
  destruct (negb _); [done|]. apply Forall_cons in Hb as [_ Hb]. destruct (rd 16 b) as [[id b1]|] eqn:E1; [|done]. cbn [ok_or result_bind] in E.
  apply rd_inv in E1 as [-> _]. apply Forall_app in Hb as [_ Hb]. destruct (rd_int 8 b1) as [[n b2]|] eqn:E2; [|done]. cbn [ok_or result_bind] in E.
  apply rd_int_inv in E2 as (_ & Hn & _); [|done]. change (256 ^ Z.of_nat 8) with 18446744073709551616 in Hn. destruct (Z.eqb_spec n 0); [done|]. injection E as <-. cbn. ulia.
Qed.

Lemma receipt_reads r more :
  receipt_wf r -> exists b, receipt_encode r = Ok b /\ length b = 25%nat /\ record_decode (b ++ more) = Ok (RRead r).
Proof.
  intros ([Hid _] & Hs). unfold receipt_encode. destruct (Z.eqb_spec (up_to_seq r) 0) as [|Hne]; [lia|]. eexists. split; [done|]. split.
  { rewrite !length_app, be_bytes_length, Hid. done. }
  cbn [app record_decode]. change (KIND_READ =? KIND_TEXT) with false. change (KIND_READ =? KIND_READ) with true. cbv iota.
  unfold receipt_decode, need_proto. cbn [rd_u8 ok_or result_bind]. change (negb (KIND_READ =? KIND_READ)) with false. cbv iota. rewrite <- !app_assoc.
  rewrite (rd_app 16) by done. cbn [ok_or result_bind]. rewrite rd_u64_app by ulia. cbn [ok_or result_bind].
  rewrite (proj2 (Z.eqb_neq _ _)) by done. by destruct r.
Qed.

Definition item_wf (it : SyncItem) : Prop := array 16 (si_id it) /\ in_u64 (si_seq it) /\ in_u16 (si_len it).

Definition frame_wf (f : Frame) : Prop :=
  match f with
  | FDeliver env => zlen env < MAX_FRAME_BODY
  | FAck s id => array 16 id
  | FSync items => Forall item_wf items
  | FSyncReply ids => Forall (array 16) ids
  end.

(** What arrives of a frame: the lists are cut to their bound, and the status
    kept for unknown ones is not a code. *)
Definition as_sent (f : Frame) : Frame :=
  match f with
  | FSync items => FSync (take (Z.to_nat MAX_SYNC_ITEMS) items)
  | FSyncReply ids => FSyncReply (take (Z.to_nat MAX_SYNC_ITEMS) ids)
  | _ => f
  end.

Lemma rd_item_put it b : item_wf it -> rd_item (put_item it ++ b) = Some (it, b).
Proof.
  intros ([Hid _] & Hs & Hl). unfold rd_item, put_item. rewrite <- !app_assoc, (rd_app 16) by done. cbn [mbind option_bind].
  rewrite rd_u64_app by done. cbn [mbind option_bind]. rewrite rd_u16_app by done. by destruct it.
Qed.

Lemma sync_reads {A} item put (P : A -> Prop) what xs :
  (forall a b, P a -> item (put a ++ b) = Some (a, b)) -> Forall P xs -> zlen xs <= MAX_SYNC_ITEMS ->
  decode_sync item what ([SYNC_VERSION] ++ be_bytes 2 (zlen xs mod 65536) ++ flat_map put xs) = Ok xs.
Proof.
  intros Hi Hx Hl. unfold MAX_SYNC_ITEMS in Hl. pose proof (zlen_nonneg xs). unfold decode_sync, need_proto. cbn [app rd_u8 ok_or result_bind].
  change (SYNC_VERSION <? SYNC_VERSION) with false. cbv iota. rewrite Z.mod_small, rd_u16_app by ulia. cbn [ok_or result_bind].
  rewrite (proj2 (Z.ltb_ge _ _)) by (unfold MAX_SYNC_ITEMS; lia). rewrite <- (app_nil_r (flat_map put xs)), (rd_list_app item put P) by (try done; unfold zlen; lia).
  done.
Qed.

Lemma zlen_take_items {A} (xs : list A) : zlen (take (Z.to_nat MAX_SYNC_ITEMS) xs) <= MAX_SYNC_ITEMS.
Proof. unfold zlen, MAX_SYNC_ITEMS. rewrite length_take. lia. Qed.

Lemma flat_map_length {A} (put : A -> bytes) n xs : Forall (fun x => length (put x) = n) xs -> length (flat_map put xs) = (n * length xs)%nat.
Proof. induction 1 as [|x xs Hx _ IH]; [cbn; lia|]. cbn [flat_map length]. rewrite length_app, Hx, IH. lia. Qed.

Lemma payload_length f : frame_wf f -> zlen (frame_payload f).2 < MAX_FRAME_BODY.
Proof.
  destruct f as [env|s id|items|ids]; cbn [frame_wf frame_payload snd]; [done| | |].
  - intros [Hid _]. unfold zlen. cbn [app length]. rewrite Hid. done.
  - intros Hi. pose proof (zlen_take_items items) as Hl. rewrite !zlen_app, zlen_cons, zlen_nil. unfold zlen in *.
    rewrite be_bytes_length, (flat_map_length put_item 26).
    + unfold MAX_SYNC_ITEMS in *. unfold MAX_FRAME_BODY, MAX_HEADER_BYTES, MAX_CIPHERTEXT. lia.
    + apply Forall_take. eapply Forall_impl; [exact Hi|]. intros it ([Hid _] & _). unfold put_item. by rewrite !length_app, !be_bytes_length, Hid.
  - intros Hi. pose proof (zlen_take_items ids) as Hl. rewrite !zlen_app, zlen_cons, zlen_nil. unfold zlen in *.
    rewrite be_bytes_length, (flat_map_length (fun k => k) 16).
    + unfold MAX_SYNC_ITEMS in *. unfold MAX_FRAME_BODY, MAX_HEADER_BYTES, MAX_CIPHERTEXT. lia.
    + apply Forall_take. eapply Forall_impl; [exact Hi|]. by intros k [Hk _].
Qed.

Lemma body_reads f : frame_wf f -> decode_body ((frame_payload f).1 :: (frame_payload f).2) = Ok (as_sent f).
Proof.
  destruct f as [env|s id|items|ids]; cbn [frame_wf frame_payload fst snd as_sent]; intros Hwf.
  - done.
  - unfold decode_body, need_proto. cbn [app rd_u8 ok_or result_bind]. change (FRAME_ACK =? FRAME_DELIVER) with false. change (FRAME_ACK =? FRAME_ACK) with true.
    cbv iota. rewrite <- (app_nil_r id), (rd_app 16) by apply Hwf. cbn [ok_or result_bind]. rewrite app_nil_r. by destruct s.
  - unfold decode_body. change (FRAME_SYNC =? FRAME_DELIVER) with false. change (FRAME_SYNC =? FRAME_ACK) with false. change (FRAME_SYNC =? FRAME_SYNC) with true.
    cbv iota. rewrite (sync_reads rd_item put_item item_wf) by (try apply rd_item_put; try apply zlen_take_items; by apply Forall_take). done.
  - unfold decode_body. change (FRAME_SYNC_REPLY =? FRAME_DELIVER) with false. change (FRAME_SYNC_REPLY =? FRAME_ACK) with false.
    change (FRAME_SYNC_REPLY =? FRAME_SYNC) with false. change (FRAME_SYNC_REPLY =? FRAME_SYNC_REPLY) with true. cbv iota.
    rewrite (sync_reads (rd 16) (fun k => k) (array 16)) by (try apply zlen_take_items; try (intros a b [Ha _]; by apply rd_app); by apply Forall_take). done.
Qed.

(** C40. Every frame that is written is read by the other side, whatever follows
    it on the stream, with the lists of a synchronisation cut to 64 items; and a
    record that was sealed is read as the text or the receipt it was, whatever a
    newer build appends to it. *)
Theorem chat_wire_roundtrip f rest m r more :
  frame_wf f -> message_wf m -> receipt_wf r ->
  read_chat_frame (encode_frame f ++ rest) = Ok (as_sent f, rest) /\
  decode_frame (encode_frame f ++ rest) = Ok (as_sent f, zlen (encode_frame f)) /\
  (exists b, message_encode m = Ok b /\ record_decode (b ++ more) = Ok (RText m)) /\
  (exists b, receipt_encode r = Ok b /\ record_decode (b ++ more) = Ok (RRead r)).
Proof.
  intros Hf Hm Hr. pose proof (payload_length f Hf) as Hl. pose proof (body_reads f Hf) as Hb. unfold encode_frame.
  destruct (frame_payload f) as [ty payload]. cbn [fst snd] in *. pose proof (zlen_nonneg payload). unfold MAX_FRAME_BODY, MAX_HEADER_BYTES, MAX_CIPHERTEXT in Hl.
  rewrite Z.mod_small by lia. set (n := zlen payload + 1).
  assert ((n =? 0) || (MAX_FRAME_BODY <? n) = false) as Hg.
  { apply orb_false_iff. subst n. split; [apply Z.eqb_neq; lia|apply Z.ltb_ge; unfold MAX_FRAME_BODY, MAX_HEADER_BYTES, MAX_CIPHERTEXT; lia]. }
  assert (length (ty :: payload) = Z.to_nat n) as Hlen by (subst n; unfold zlen; cbn; lia).
  split_and!; [| |by edestruct (message_reads m more Hm) as (b & ? & _ & ?); eauto|by edestruct (receipt_reads r more Hr) as (b & ? & _ & ?); eauto].
  - unfold read_chat_frame. rewrite <- !app_assoc, rd_u32_app by (subst n; ulia). rewrite Hg.
    change ([ty] ++ payload ++ rest) with ((ty :: payload) ++ rest). rewrite rd_app by done. by rewrite Hb.
  - unfold decode_frame. rewrite <- !app_assoc. rewrite (proj2 (Nat.ltb_ge _ _)) by (rewrite length_app, be_bytes_length; lia).
    rewrite take_app_length' by by rewrite be_bytes_length. rewrite from_be_be by (change (256 ^ Z.of_nat 4) with 4294967296; lia). rewrite Hg.
    rewrite (proj2 (Z.ltb_ge _ _)) by (rewrite !zlen_app; unfold zlen in *; rewrite be_bytes_length; cbn [length]; lia).
    rewrite (slice_skip 4 (4 + Z.to_nat n) (be_bytes 4 n)) by (rewrite be_bytes_length; lia). rewrite be_bytes_length, Nat.sub_diag.
    change ([ty] ++ payload ++ rest) with ((ty :: payload) ++ rest). replace (4 + Z.to_nat n - 4)%nat with (length (ty :: payload)) by lia.
    rewrite slice_here by done. rewrite Hb. cbn [result_bind]. do 3 f_equal. rewrite zlen_app. change ([ty] ++ payload) with (ty :: payload). unfold zlen in *. rewrite be_bytes_length. lia.
Qed.

Lemma chat_wire_roundtrip_witness :
  let f := FSync [mkSyncItem (replicate 16 1) 3 5] in
  let m := mkMessage (replicate 16 2) 4 1000 (lit "hello") in
  read_chat_frame (encode_frame f ++ [9]) = Ok (f, [9]) /\ (exists b, message_encode m = Ok b /\ record_decode (b ++ [7]) = Ok (RText m)).
Proof.
  assert (forall n, 0 <= n < 256 -> array 16 (replicate 16 n)) as Ha by (intros n Hn; split; [by rewrite length_replicate|apply Forall_replicate; ulia]).
  assert (frame_wf (FSync [mkSyncItem (replicate 16 1) 3 5])) as Hf by (apply Forall_singleton; split_and!; [by apply Ha|cbn; ulia|cbn; ulia]).
  assert (message_wf (mkMessage (replicate 16 2) 4 1000 (lit "hello"))) as Hm.
  { split_and!; [by apply Ha|cbn; ulia|cbn; ulia|cbn; ulia|repeat constructor; vm_compute; auto|done|done]. }
  assert (receipt_wf (mkReceipt (replicate 16 2) 4)) as Hr by (split_and!; [by apply Ha|cbn; ulia|cbn; ulia]).
  destruct (chat_wire_roundtrip _ [9] _ _ [7] Hf Hm Hr) as (H1 & _ & H2 & _). exact (conj H1 H2).
Defined.
