(* ===== verification/Anchor.v ===== *)
(** * Anchor: the record of the last session file

    Models [chat/anchor.rs] and the fingerprint of [state_crypto/doc.rs]: a
    small sealed record outside the data folder that says which session file of
    a contact was written last and how far its messages are numbered.  A path
    in the folder of the records is the folder (with its separator) and a name;
    the name is the context the record is sealed for.  The wiping of the folder
    is not modelled. *)

From S2P Require Import Prelude Bytes Text Codec ErasureCode Dissolve Disk SealedState.

(** BLAKE3 in keyed mode. *)
Class KeyedHash := { blake3_keyed (key data : bytes) : bytes }.

Definition Fingerprint : Type := bytes.
Definition NO_FILE : Fingerprint := replicate 16 0.
Definition RECORD_VERSION : Z := 1.
Definition RECORD_LEN : nat := 41.
Definition FINGERPRINT : bytes := lit "state document fingerprint v1".

(** [doc::fingerprint]. *)
Definition fingerprint `{Crypto} (sealed : bytes) : Fingerprint := take 16 (blake3_derive FINGERPRINT sealed).

Record AnchorRecord := mkAnchorRecord { a_cur : Fingerprint; a_next : Fingerprint; send_seq_hwm : Z }.

Definition anchor_encode (r : AnchorRecord) : bytes := [RECORD_VERSION] ++ a_cur r ++ a_next r ++ be_bytes 8 (send_seq_hwm r).

Definition anchor_decode (b : bytes) : option AnchorRecord :=
  if negb (length b =? RECORD_LEN)%nat || negb (nth 0 b 0 =? RECORD_VERSION) then None
  else Some (mkAnchorRecord (slice 1 17 b) (slice 17 33 b) (from_be (drop 33 b))).

Inductive Check_ := CFine | CBehind (send_seq_floor : Z).

Record Seen := mkSeen { on_disk : Fingerprint; seq_hwm : Z }.

(** The records live in a folder, or only the marks in memory are kept. *)
Record Anchor := mkAnchor { an_dir : option bytes; an_seen : gmap bytes Seen; an_off : bool }.

Definition new_anchor (dir : option bytes) : Anchor := mkAnchor dir ∅ false.

Definition see (peer : bytes) (fp : Fingerprint) (hwm : Z) (a : Anchor) : Anchor :=
  mkAnchor (an_dir a) (<[peer := mkSeen fp hwm]> (an_seen a)) (an_off a).

Section Anchor.
Context `{Crypto} `{StateCipher} `{KeyedHash} (keys : StateKeys) (own : bytes).

Definition anchor_name (key peer : bytes) : bytes := hex_encode (take 16 (blake3_keyed key (own ++ peer))).

(** The path of the record of a contact, and its name. *)
Definition path_of (a : Anchor) (peer : bytes) : Disk (option (bytes * bytes)) :=
  match an_dir a with
  | None => ret None
  | Some dir =>
    match doc_key keys ChatAnchor with
    | Panic => die
    | Ret (Err _) => ret None
    | Ret (Ok k) => let n := anchor_name k peer in ret (Some (dir ++ n, n))
    end
  end.

Definition anchor_read (a : Anchor) (peer : bytes) : Disk (option AnchorRecord) :=
  let* p := path_of a peer in
  match p with
  | None => ret None
  | Some (path, name) =>
    let* there := exists_file path in
    if negb there then ret None
    else
      let* r := read_document_as keys ChatAnchor path name in
      ret (match r with Ok plain => anchor_decode plain | Err _ => None end)
  end.

Definition anchor_write (a : Anchor) (peer : bytes) (r : AnchorRecord) (durable : bool) (nonce : bytes) : Disk bool :=
  let* p := path_of a peer in
  match p with
  | None => ret false
  | Some (path, name) =>
    let* sealed := lift (doc_seal keys ChatAnchor name (anchor_encode r) nonce) in
    match sealed with
    | Err _ => ret false
    | Ok sealed => let* w := write_sealed path sealed durable in ret (is_ok w)
    end
  end.

Definition switch_off (a : Anchor) (peer : bytes) : Disk Anchor :=
  let a := mkAnchor (an_dir a) (an_seen a) true in
  let* p := path_of a peer in
  match p with
  | None => ret a
  | Some (path, _) => let* _ := remove_file path in ret a
  end.

Definition anchor_check (a : Anchor) (peer : bytes) (disk : Fingerprint) (send_seq : Z) (nonce : bytes) : Disk (Anchor * Check_) :=
  if an_off a then ret (a, CFine)
  else
    let* record := anchor_read a peer in
    let hwm_of_record := match record with Some r => send_seq_hwm r | None => 0 end in
    match an_seen a !! peer with
    | Some s =>
      if bool_decide (on_disk s = disk) then ret (a, CFine)
      else let floor := Z.max (seq_hwm s) hwm_of_record in ret (see peer disk floor a, CBehind floor)
    | None =>
      match record with
      | Some r =>
        if bool_decide (disk = a_cur r) || bool_decide (disk = a_next r) then
          let hwm := Z.max (send_seq_hwm r) send_seq in
          let a := see peer disk hwm a in
          let* _ := (if negb (bool_decide (a_cur r = a_next r)) || negb (bool_decide (disk = a_next r))
                     then anchor_write a peer (mkAnchorRecord disk disk hwm) false nonce else ret true) in
          ret (a, CFine)
        else ret (see peer disk (send_seq_hwm r) a, CBehind (send_seq_hwm r))
      | None =>
        let a := see peer disk send_seq a in
        let* _ := (if negb (bool_decide (disk = NO_FILE))
                   then anchor_write a peer (mkAnchorRecord disk disk send_seq) false nonce else ret true) in
        ret (a, CFine)
      end
    end.

Definition before_write (a : Anchor) (peer : bytes) (next : Fingerprint) (send_seq : Z) (nonce : bytes) : Disk (Anchor * bool) :=
  if an_off a then ret (a, false)
  else
    let '(cur, hwm) := match an_seen a !! peer with
                       | Some s => (on_disk s, Z.max (seq_hwm s) send_seq)
                       | None => (NO_FILE, send_seq)
                       end in
    match an_dir a with
    | None => ret (a, true)
    | Some _ =>
      let* ok := anchor_write a peer (mkAnchorRecord cur next hwm) true nonce in
      if (ok : bool) then ret (a, true) else let* a := switch_off a peer in ret (a, false)
    end.

Definition after_write (a : Anchor) (peer : bytes) (next : Fingerprint) (send_seq : Z) (nonce : bytes) : Disk Anchor :=
  let hwm := match an_seen a !! peer with Some s => Z.max (seq_hwm s) send_seq | None => send_seq end in
  let a := see peer next hwm a in
  if an_off a then ret a
  else
    match an_dir a with
    | None => ret a
    | Some _ =>
      let* ok := anchor_write a peer (mkAnchorRecord next next hwm) false nonce in
      if (ok : bool) then ret a else switch_off a peer
    end.

Definition anchor_hwm (a : Anchor) (peer : bytes) : Z := match an_seen a !! peer with Some s => seq_hwm s | None => 0 end.

End Anchor.
