(* ===== verification/ChatStore.v ===== *)
(** * ChatStore: the state of the contacts and the history on disk

    Models [ChatStore] of [chat/store.rs]: the cache of contacts with their
    session documents, the saved history of a contact (one sealed log each) or
    the ring in memory, pages, deletion and retention.  The mutex is not
    modelled, each call runs alone.  [st_rng] is the point of the random source
    the next salt and nonce are drawn from, and [secs_at] the time in seconds at
    that point (for the name of a file that is set aside).  The order in which
    a hash map or a folder is listed is an argument. *)

From S2P Require Import Prelude Bytes Text Codec ErasureCode Dissolve Disk SealedState SealedLog SealedRewrite Journal ChatOutbox Ratchet PeerState Anchor.

Record StoreSettings := mkSettings {
  history_save : bool; retention_days : Z; max_messages : Z; ephemeral_bytes : Z; out_settings : OutSettings;
}.

Definition defer_flush (cfg : StoreSettings) : bool := out_defer_flush (out_settings cfg).

Definition default_settings : StoreSettings :=
  mkSettings true 0 DEFAULT_MAX_MESSAGES EPHEMERAL_BYTES (mkOutSettings 500 100 (1024 * 1024) 30 (24 * 3600000) false).

Record PeerSlot := mkSlot { s_state : PeerState; s_dirty : bool; s_used : Z; s_next_ord : option Z }.
Record RingEntry := mkRing { r_peer : bytes; r_msg : StoredMessage }.
Record Summary := mkSummary { c_peer : bytes; c_count : Z; c_last_ms : Z }.

Record Store := mkStore {
  st_peers : gmap bytes PeerSlot; st_writers : gmap bytes (LogWriter * Z); st_ring : list RingEntry; st_ring_bytes : Z;
  st_ring_next : gmap bytes Z; st_tick : Z; st_rolled : gset bytes; st_anchor : option Anchor; st_rng : nat;
}.

Definition with_peers (m : gmap bytes PeerSlot) (g : Store) : Store :=
  mkStore m (st_writers g) (st_ring g) (st_ring_bytes g) (st_ring_next g) (st_tick g) (st_rolled g) (st_anchor g) (st_rng g).
Definition with_writers (m : gmap bytes (LogWriter * Z)) (g : Store) : Store :=
  mkStore (st_peers g) m (st_ring g) (st_ring_bytes g) (st_ring_next g) (st_tick g) (st_rolled g) (st_anchor g) (st_rng g).
Definition with_ring (r : list RingEntry) (n : Z) (next : gmap bytes Z) (g : Store) : Store :=
  mkStore (st_peers g) (st_writers g) r n next (st_tick g) (st_rolled g) (st_anchor g) (st_rng g).
Definition with_tick (t : Z) (g : Store) : Store :=
  mkStore (st_peers g) (st_writers g) (st_ring g) (st_ring_bytes g) (st_ring_next g) t (st_rolled g) (st_anchor g) (st_rng g).
Definition with_rolled (s : gset bytes) (g : Store) : Store :=
  mkStore (st_peers g) (st_writers g) (st_ring g) (st_ring_bytes g) (st_ring_next g) (st_tick g) s (st_anchor g) (st_rng g).
Definition with_anchor_state (a : option Anchor) (g : Store) : Store :=
  mkStore (st_peers g) (st_writers g) (st_ring g) (st_ring_bytes g) (st_ring_next g) (st_tick g) (st_rolled g) a (st_rng g).
Definition with_rng (n : nat) (g : Store) : Store :=
  mkStore (st_peers g) (st_writers g) (st_ring g) (st_ring_bytes g) (st_ring_next g) (st_tick g) (st_rolled g) (st_anchor g) n.

Definition new_store (anchor : option Anchor) (rng : nat) : Store := mkStore ∅ ∅ [] 0 ∅ 0 ∅ anchor rng.

(** The entry of a map with the smallest mark. *)
Definition oldest {A} (mark : A -> Z) (m : gmap bytes A) : option bytes :=
  fst <$> fold_right (fun x best => match best with
                                    | Some b => if mark x.2 <=? mark b.2 then Some x else best
                                    | None => Some x
                                    end) None (map_to_list m).

Definition set_state (st : PeerState) (s : PeerSlot) : PeerSlot := mkSlot st true (s_used s) (s_next_ord s).
Definition set_clean (s : PeerSlot) : PeerSlot := mkSlot (s_state s) false (s_used s) (s_next_ord s).

Section Store.
Context `{Crypto} `{StateCipher} `{RatchetCrypto} `{KeyedHash} `{Coins}.
Context (cfg : StoreSettings) (keys : StateKeys) (own : bytes) (secs_at : nat -> Z).

Definition session_path (peer : bytes) : bytes := file_stem own peer ++ lit ".sess".
Definition history_path (peer : bytes) : bytes := file_stem own peer ++ lit ".msgs".
Definition history_tmp (peer : bytes) : bytes := file_stem own peer ++ lit ".msgs.tmp".

Definition advance (g : Store) : Store := with_rng (S (st_rng g)) g.
Definition tick_store (g : Store) : Store := with_tick (wrapping_add u64_max (st_tick g) 1) g.

(** ** Contacts *)

(** [doc::read_document_fingerprinted]. *)
Definition read_fingerprinted (l : Label) (path : bytes) : Disk (result (bytes * Fingerprint) StateError) :=
  let* f := get path in
  match f with
  | None => ret (Err Io)
  | Some f =>
    let size := zlen (content f) in
    let limit := max_document_bytes l + Z.of_nat DOC_HEADER_LEN + Z.of_nat TAG_LEN in
    if limit <? size then ret (Err (TooLarge size limit))
    else try* b := lift (doc_open keys l path (content f)) in ret (Ok (b, fingerprint (content f)))
  end.

(** The state a session file holds, when it is the one of the contact. *)
Definition found_state (peer : bytes) (r : result (bytes * Fingerprint) StateError) : option (PeerState * Fingerprint) :=
  match r with
  | Ok (b, fp) =>
    match peer_from_bytes b with
    | Some s => if bool_decide (p_peer s = peer) then Some (s, fp) else None
    | None => None
    end
  | Err _ => None
  end.

Definition load_peer (peer : bytes) (g : Store) : Disk (Store * PeerState * bool) :=
  let path := session_path peer in
  let* there := exists_file path in
  let* found := (if (there : bool) then
                   let* r := read_fingerprinted ChatSessions path in
                   match found_state peer r with
                   | Some x => ret (Some x)
                   | None => let* _ := set_aside path (secs_at (st_rng g)) in ret None
                   end
                 else ret None) in
  let st := match found with Some x => x.1 | None => new_peer peer end in
  let disk := match found with Some x => x.2 | None => NO_FILE end in
  match st_anchor g with
  | None => ret (g, st, false)
  | Some a =>
    let* r := anchor_check keys own a peer disk (send_seq st) (nonce_at (st_rng g)) in
    let g := advance (with_anchor_state (Some r.1) g) in
    ret (match r.2 with
         | CFine => (g, st, false)
         | CBehind floor => (g, set_send_seq (Z.max (send_seq st) floor) (set_session None st), true)
         end)
  end.

Definition write_peer (st : PeerState) (g : Store) : Disk (Store * result unit StoreError) :=
  let path := session_path (p_peer st) in
  let to_store (r : result unit StateError) := match r with Ok _ => Ok tt | Err _ => Err StoreState end in
  match st_anchor g with
  | None =>
    let* r := write_document keys ChatSessions path (peer_bytes st) (nonce_at (st_rng g)) in ret (advance g, to_store r)
  | Some a =>
    let* s := lift (doc_seal keys ChatSessions path (peer_bytes st) (nonce_at (st_rng g))) in
    match s with
    | Err _ => ret (advance g, Err StoreState)
    | Ok sealed =>
      let fp := fingerprint sealed in
      let* b := before_write keys own a (p_peer st) fp (send_seq st) (nonce_at (S (st_rng g))) in
      let g := with_rng (st_rng g + 3) (with_anchor_state (Some b.1) g) in
      let* r := write_sealed path sealed true in
      match r with
      | Err _ => ret (g, Err StoreState)
      | Ok _ =>
        let* a := after_write keys own b.1 (p_peer st) fp (send_seq st) (nonce_at (st_rng g - 1)) in
        ret (with_anchor_state (Some a) g, Ok tt)
      end
    end
  end.

(** The least recently used contact makes room, written first. *)
Definition evict (g : Store) : Disk Store :=
  match oldest s_used (st_peers g) with
  | None => ret g
  | Some victim =>
    match st_peers g !! victim with
    | None => ret g
    | Some s =>
      let g := with_peers (delete victim (st_peers g)) g in
      let* g := (if s_dirty s then let* r := write_peer (s_state s) g in ret r.1 else ret g) in
      ret (with_writers (delete victim (st_writers g)) g)
    end
  end.

(** The contact is in the cache from here on. *)
Definition slot (peer : bytes) (g : Store) : Disk (Store * PeerSlot) :=
  let g := tick_store g in
  let tick := st_tick g in
  match st_peers g !! peer with
  | Some s =>
    let s := mkSlot (s_state s) (s_dirty s) tick (s_next_ord s) in
    ret (with_peers (<[peer := s]> (st_peers g)) g, s)
  | None =>
    let* g := (if (PEER_CACHE <=? size (st_peers g))%nat then evict g else ret g) in
    let* r := load_peer peer g in
    let '(g, st, behind) := r in
    let g := if (behind : bool) then with_rolled ({[peer]} ∪ st_rolled g) g else g in
    let s := mkSlot st behind tick None in
    ret (with_peers (<[peer := s]> (st_peers g)) g, s)
  end.

Definition put_slot (peer : bytes) (s : PeerSlot) (g : Store) : Store := with_peers (<[peer := s]> (st_peers g)) g.

Definition with_peer {R} (peer : bytes) (f : PeerState -> PeerState * R) (g : Store) : Disk (Store * R) :=
  let* r := slot peer g in
  let '(g, s) := r in
  let '(st, x) := f (s_state s) in
  ret (put_slot peer (set_state st s) g, x).

Definition peek_peer {R} (peer : bytes) (f : PeerState -> R) (g : Store) : Disk (Store * R) :=
  let* r := slot peer g in ret (r.1, f (s_state r.2)).

Definition take_rollback (peer : bytes) (g : Store) : Disk (Store * bool) :=
  let* r := slot peer g in
  ret (with_rolled (st_rolled r.1 ∖ {[peer]}) r.1, bool_decide (peer ∈ st_rolled r.1)).

(** A changed state is written. *)
Definition flush_slot (peer : bytes) (g : Store) : Disk (Store * result unit StoreError) :=
  match st_peers g !! peer with
  | None => ret (g, Ok tt)
  | Some s =>
    if s_dirty s then
      let* r := write_peer (s_state s) g in
      match r with
      | (g, Ok _) => ret (put_slot peer (set_clean s) g, Ok tt)
      | (g, Err e) => ret (g, Err e)
      end
    else ret (g, Ok tt)
  end.

Definition flush_peer (peer : bytes) (g : Store) : Disk (Store * result unit StoreError) :=
  if defer_flush cfg then ret (g, Ok tt) else flush_slot peer g.

Fixpoint flush_all (order : list bytes) (g : Store) : Disk (Store * result unit StoreError) :=
  match order with
  | [] => ret (g, Ok tt)
  | peer :: order =>
    let* r := flush_slot peer g in
    match r with (g, Ok _) => flush_all order g | (g, Err e) => ret (g, Err e) end
  end.

(** ** History *)

(** A count in a 64-bit counter. *)
Definition count_u64 {A} (l : list A) : Z := wrapping_add u64_max 0 (zlen l).

(** The messages of the saved log, up to the first record that is damaged. *)
Definition scan_history (peer : bytes) : Disk (list StoredMessage) :=
  let* f := get (history_path peer) in
  match reader_open keys ChatHistory (content <$> f) with
  | Panic => die
  | Ret (Ok (Some r)) => ret (omap stored_from_bytes (drain (S (length (lr_rest r))) r).1.1)
  | Ret _ => ret []
  end.

Definition next_ord (peer : bytes) (g : Store) : Disk (Store * Z) :=
  if negb (history_save cfg) then
    let v := default 1 (st_ring_next g !! peer) in
    ret (with_ring (st_ring g) (st_ring_bytes g) (<[peer := wrapping_add u64_max v 1]> (st_ring_next g)) g, v)
  else
    let* r := slot peer g in
    let '(g, s) := r in
    let* r := match s_next_ord s with
              | Some n => ret (g, n)
              | None =>
                let* ms := scan_history peer in
                let* r := slot peer g in
                let '(g, s) := r in
                ret (put_slot peer (set_state (set_summary (count_u64 ms) (last_ms (s_state s)) (s_state s)) s) g,
                     wrapping_add u64_max (fold_left (fun a m => Z.max a (m_ord m)) ms 0) 1)
              end in
    let '(g, next) := r in
    let* r := slot peer g in
    let '(g, s) := r in
    ret (put_slot peer (mkSlot (s_state s) (s_dirty s) (s_used s) (Some (wrapping_add u64_max next 1))) g, next).

(** The ring gives up its oldest messages. *)
Fixpoint trim_ring (ring : list RingEntry) (g : Store) : Disk Store :=
  match ring with
  | [] => ret g
  | old :: ring =>
    if ephemeral_bytes cfg <? st_ring_bytes g then
      let g := with_ring ring (sat_sub (st_ring_bytes g) (cost (r_msg old))) (st_ring_next g) g in
      let* r := slot (r_peer old) g in
      let '(g, s) := r in
      let st := set_summary (sat_sub (p_count (s_state s)) 1) (last_ms (s_state s)) (s_state s) in
      trim_ring ring (put_slot (r_peer old) (mkSlot st (s_dirty s) (s_used s) (s_next_ord s)) g)
    else ret g
  end.

Definition append_record (peer rec : bytes) (durable : bool) (g : Store) : Disk (Store * result unit StoreError) :=
  let g := tick_store g in
  let tick := st_tick g in
  let g := match st_writers g !! peer with
           | Some _ => g
           | None =>
             if (WRITER_CACHE <=? size (st_writers g))%nat then
               match oldest snd (st_writers g) with Some v => with_writers (delete v (st_writers g)) g | None => g end
             else g
           end in
  let* r := put_record keys ChatHistory (history_path peer) (salt_at (st_rng g)) (nonce_at (st_rng g)) durable rec
              (fst <$> st_writers g !! peer) in
  let g := advance g in
  let ws := match r.1 with Some wr => <[peer := (wr, tick)]> (st_writers g) | None => delete peer (st_writers g) end in
  ret (with_writers ws g, match r.2 with Ok _ => Ok tt | Err _ => Err StoreState end).

(** The log with only the messages that are kept; how many they are. *)
Definition rewrite_history (peer : bytes) (keep : StoredMessage -> bool) (g : Store) : Disk (Store * result Z StoreError) :=
  let g := with_writers (delete peer (st_writers g)) g in
  let* f := get (history_path peer) in
  match reader_open keys ChatHistory (content <$> f) with
  | Panic => die
  | Ret (Err _) => ret (g, Err StoreState)
  | Ret (Ok None) => ret (g, Ok 0)
  | Ret (Ok (Some r)) =>
    let '(recs, _, e) := drain (S (length (lr_rest r))) r in
    let kept := List.filter (fun b => match stored_from_bytes b with Some m => keep m | None => false end) recs in
    let* o := rewrite_begin keys ChatHistory (history_path peer) (history_tmp peer) (salt_at (st_rng g)) in
    let n := st_rng g in
    let g := with_rng (S (n + length kept)) g in
    match o with
    | Err _ => ret (g, Err StoreState)
    | Ok rw =>
      let* i := rewrite_items rw (imap (fun i x => (nonce_at (S (n + i)), x)) kept) in
      if negb i.2 || bool_decide (is_Some e) then let* _ := rewrite_drop i.1 in ret (g, Err StoreState)
      else
        let* c := commit i.1 in
        match c with
        | Err _ => ret (g, Err StoreState)
        | Ok _ =>
          let* r := slot peer g in
          let '(g, s) := r in
          ret (put_slot peer (set_state (set_summary (count_u64 kept) (last_ms (s_state s)) (s_state s)) s) g, Ok (count_u64 kept))
        end
    end
  end.

Definition stored_of (ord : Z) (m : NewMessage) : StoredMessage :=
  mkStored ord (n_outgoing m) (n_id m) (n_seq m) (n_sent_ms m) (n_at_ms m) (n_state m) (n_reason m) 0 (n_text m).

Definition record_message (peer : bytes) (m : NewMessage) (durable : bool) (g : Store) : Disk (Store * result Z StoreError) :=
  let* r := next_ord peer g in
  let '(g, ord) := r in
  let msg := stored_of ord m in
  let* r := slot peer g in
  let '(g, s) := r in
  let st := s_state s in
  let g := put_slot peer (set_state (set_summary (wrapping_add u64_max (p_count st) 1) (Z.max (last_ms st) (m_at_ms msg)) st) s) g in
  if negb (history_save cfg) then
    let ring := st_ring g ++ [mkRing peer msg] in
    let* g := trim_ring ring (with_ring ring (st_ring_bytes g + cost msg) (st_ring_next g) g) in
    ret (g, Ok ord)
  else
    let* r := append_record peer (stored_bytes msg) (durable && negb (defer_flush cfg)) g in
    match r with
    | (g, Err e) => ret (g, Err e)
    | (g, Ok _) =>
      let* r := slot peer g in
      let '(g, s) := r in
      if max_messages cfg + max_messages cfg / 10 <? p_count (s_state s) then
        let* r := rewrite_history peer (fun m => ord <? wrapping_add u64_max (m_ord m) (max_messages cfg)) g in
        match r with (g, Ok _) => ret (g, Ok ord) | (g, Err e) => ret (g, Err e) end
      else ret (g, Ok ord)
    end.

(** One message of the scan, put into the window of a page. *)
Definition take_page (limit : nat) (upper : Z) (win : list StoredMessage) (m : StoredMessage) : list StoredMessage :=
  if upper <=? m_ord m then win
  else if (length win =? limit)%nat && match win with x :: _ => m_ord m <? m_ord x | [] => false end then win
  else
    let at_ := length (List.filter (fun x => m_ord x <? m_ord m) win) in
    match win !! at_ with
    | Some x => if m_ord x =? m_ord m then win
                else let win := take at_ win ++ m :: drop at_ win in if (limit <? length win)%nat then drop 1 win else win
    | None => let win := take at_ win ++ m :: drop at_ win in if (limit <? length win)%nat then drop 1 win else win
    end.

(** A page gives up its oldest messages to fit its memory. *)
Fixpoint trim_page (total : Z) (win : list StoredMessage) : list StoredMessage :=
  match win with
  | [] => []
  | m :: rest =>
    match rest with
    | [] => win
    | _ => if MAX_PAGE_BYTES <? total then trim_page (total - cost m) rest else win
    end
  end.

Definition history (peer : bytes) (before : option Z) (limit : Z) (pending : list StoredMessage) (g : Store) : Disk (list StoredMessage) :=
  let limit := Z.to_nat (Z.max 1 (Z.min limit MAX_PAGE)) in
  let upper := default u64_max before in
  let* ms := (if history_save cfg then scan_history peer
              else ret (map r_msg (List.filter (fun e => bool_decide (r_peer e = peer)) (st_ring g)))) in
  let win := fold_left (take_page limit upper) ms [] in
  let win := trim_page (sum_z cost win) win in
  ret (match before with
       | None => fold_left (fun win p => if existsb (fun m => bool_decide (m_id m = m_id p)) win then win else win ++ [p]) pending win
       | Some _ => win
       end).

(** The ring without the messages that satisfy a test; how much it frees. *)
Definition filter_ring (gone : RingEntry -> bool) (g : Store) : Store :=
  with_ring (List.filter (fun e => negb (gone e)) (st_ring g))
    (sat_sub (st_ring_bytes g) (sum_z (fun e => cost (r_msg e)) (List.filter gone (st_ring g)))) (st_ring_next g) g.

Definition delete_stored (peer id : bytes) (g : Store) : Disk (Store * result bool StoreError) :=
  if negb (history_save cfg) then
    let g' := filter_ring (fun e => bool_decide (r_peer e = peer) && bool_decide (m_id (r_msg e) = id)) g in
    if (length (st_ring g') =? length (st_ring g))%nat then ret (g', Ok false)
    else
      let* r := slot peer g' in
      let '(g, s) := r in
      let st := s_state s in
      ret (put_slot peer (set_state (set_summary (sat_sub (p_count st) 1) (last_ms st) st) s) g, Ok true)
  else
    let* ms := scan_history peer in
    let* r := rewrite_history peer (fun m => negb (bool_decide (m_id m = id))) g in
    ret (r.1, match r.2 with Ok _ => Ok (existsb (fun m => bool_decide (m_id m = id)) ms) | Err e => Err e end).

(** [state_crypto::overwrite_and_remove]; [noise] is the random bytes. *)
Definition overwrite_and_remove (path noise : bytes) : Disk bool :=
  let* o := overwrite_after path 0 noise in
  match o with
  | Err _ => ret false
  | Ok false => ret true
  | Ok true => remove_file path
  end.

Definition delete_history (peer noise : bytes) (g : Store) : Disk (Store * result unit StoreError) :=
  let g := with_writers (delete peer (st_writers g)) g in
  let* there := exists_file (history_path peer) in
  let* ok := (if (there : bool) then overwrite_and_remove (history_path peer) noise else ret true) in
  if negb ok then ret (g, Err StoreState)
  else
    let g := filter_ring (fun e => bool_decide (r_peer e = peer)) g in
    let g := with_ring (st_ring g) (st_ring_bytes g) (delete peer (st_ring_next g)) g in
    let* r := slot peer g in
    let '(g, s) := r in
    ret (put_slot peer (mkSlot (set_summary 0 0 (s_state s)) true (s_used s) (Some 1)) g, Ok tt).

(** ** Conversations *)

Definition is_session_file (name : bytes) : bool := bool_decide (drop (length name - 5) name = lit ".sess").

(** What a session file says of its conversation. *)
Definition read_summary (name : bytes) : Disk (option Summary) :=
  if negb (is_session_file name) then ret None
  else
    let* r := read_document keys ChatSessions name in
    ret (match r with
         | Ok b => match peer_from_bytes b with Some st => Some (mkSummary (p_peer st) (p_count st) (last_ms st)) | None => None end
         | Err _ => None
         end).

Fixpoint read_summaries (listing : list bytes) : Disk (list Summary) :=
  match listing with
  | [] => ret []
  | name :: listing =>
    let* o := read_summary name in
    let* rest := read_summaries listing in
    ret (match o with Some c => c :: rest | None => rest end)
  end.

(** The value in memory replaces the first one listed for the contact. *)
Fixpoint refresh (c : Summary) (l : list Summary) : list Summary :=
  match l with
  | [] => [c]
  | x :: l => if bool_decide (c_peer x = c_peer c) then c :: l else x :: refresh c l
  end.

Definition newer (a b : Summary) : Prop := c_last_ms b <= c_last_ms a.
#[export] Instance newer_dec a b : Decision (newer a b).
Proof. unfold newer. apply _. Defined.

Definition conversations (listing cached : list bytes) (g : Store) : Disk (list Summary) :=
  let* out := read_summaries listing in
  let out := fold_left (fun out peer => match st_peers g !! peer with
                                        | Some s => refresh (mkSummary peer (p_count (s_state s)) (last_ms (s_state s))) out
                                        | None => out
                                        end) cached out in
  ret (merge_sort newer out).

Fixpoint sweep_each (cutoff : Z) (cs : list Summary) (removed : Z) (g : Store) : Disk (Store * Z) :=
  match cs with
  | [] => ret (g, removed)
  | c :: cs =>
    if negb (history_save cfg) then
      let g' := filter_ring (fun e => bool_decide (r_peer e = c_peer c) && (m_at_ms (r_msg e) <? cutoff)) g in
      sweep_each cutoff cs (removed + (zlen (st_ring g) - zlen (st_ring g'))) g'
    else
      let* ms := scan_history (c_peer c) in
      let* r := rewrite_history (c_peer c) (fun m => cutoff <=? m_at_ms m) g in
      sweep_each cutoff cs
        (match r.2 with Ok _ => removed + zlen (List.filter (fun m => m_at_ms m <? cutoff) ms) | Err _ => removed end) r.1
  end.

Definition sweep_retention (now : Z) (listing cached : list bytes) (g : Store) : Disk (Store * Z) :=
  if retention_days cfg =? 0 then ret (g, 0)
  else
    let cutoff := sat_sub now (sat_mul u64_max (retention_days cfg) 86400000) in
    let* cs := conversations listing cached g in
    sweep_each cutoff cs 0 g.

Definition close_store (order : list bytes) (g : Store) : Disk Store :=
  let* r := flush_all order g in ret (with_writers ∅ r.1).

End Store.
