(* ===== verification/ChatEngine.v ===== *)
(** * ChatEngine: private conversations without the network

    Models [chat/engine.rs] and [chat/sync.rs], in the build without the hybrid
    upgrade: queueing and sealing a message, applying an envelope that arrives,
    finishing, deleting, read receipts, events and catching up after a pause.
    The gate that serialises the engine is not modelled, each call runs alone.
    Random values (message and envelope ids, ephemeral and ratchet secrets) and
    the clock are arguments, and so is the text of a write error; [coin] is where
    the outbox draws its nonces. *)

From S2P Require Import Prelude Bytes Text Codec ErasureCode Dissolve Disk SealedState SealedLog SealedRewrite Journal ChatOutbox Ratchet PeerState ChatProto Anchor ChatStore.

Definition RECEIPT_MIN_INTERVAL_MS : Z := 5000.
Definition RECEIPT_CLOCK_CAP : nat := 1024.
Definition EVENT_CAP : Z := 200.

Inductive EnqueueError := EEmpty | ETooBig | EOutboxFull | EStorage.
Inductive PrepareError := PGone | PSession | PStorage.
Inductive EventKind := EvReceived | EvDelivered | EvFailed | EvRead.
Inductive MarkOutcome := MarkQueued | MarkNothing | MarkTooSoon | MarkDisabled.

Record ChatEvent := mkEvent { ev_seq : Z; ev_peer : bytes; ev_kind : EventKind; ev_message : StoredMessage }.
Record AcceptOutcome := mkAccept { a_status : AckStatus; session_replaced : bool }.

(** The store, the outbox with the writer of its log, the events and the
    switches of the receipts. *)
Record Core := mkCore {
  c_store : Store; c_box : Outbox; c_boxw : option LogWriter; ev_next : Z; ev_items : list ChatEvent;
  receipts_global : bool; receipt_interval : Z; receipt_clock : gmap bytes Z;
}.

Definition with_store (g : Store) (c : Core) : Core :=
  mkCore g (c_box c) (c_boxw c) (ev_next c) (ev_items c) (receipts_global c) (receipt_interval c) (receipt_clock c).
Definition with_box (ob : Outbox) (wr : option LogWriter) (c : Core) : Core :=
  mkCore (c_store c) ob wr (ev_next c) (ev_items c) (receipts_global c) (receipt_interval c) (receipt_clock c).
Definition with_events (n : Z) (l : list ChatEvent) (c : Core) : Core :=
  mkCore (c_store c) (c_box c) (c_boxw c) n l (receipts_global c) (receipt_interval c) (receipt_clock c).
Definition with_receipts (on : bool) (interval : Z) (clock : gmap bytes Z) (c : Core) : Core :=
  mkCore (c_store c) (c_box c) (c_boxw c) (ev_next c) (ev_items c) on interval clock.

Definition new_core (g : Store) (ob : Outbox) (wr : option LogWriter) : Core := mkCore g ob wr 1 [] true RECEIPT_MIN_INTERVAL_MS ∅.

Definition clamp_text (max_message_bytes : Z) : Z := Z.max 1 (Z.min max_message_bytes MAX_TEXT_BYTES).

Definition push_event (peer : bytes) (k : EventKind) (m : StoredMessage) (c : Core) : Core :=
  let items := if EVENT_CAP <=? zlen (ev_items c) then drop 1 (ev_items c) else ev_items c in
  with_events (wrapping_add u64_max (ev_next c) 1) (items ++ [mkEvent (ev_next c) peer k m]) c.

Definition events_since (since : Z) (c : Core) : Z * list ChatEvent :=
  (wrapping_sub u64_max (ev_next c) 1, List.filter (fun e => since <? ev_seq e) (ev_items c)).

Definition stored_from (e : OutEntry) (s : MsgState) (reason : option str) (at_ : Z) : NewMessage :=
  mkNew true (e_id e) (e_seq e) (e_sent_ms e) at_ s reason (e_text e).

Definition OUTBOX_FILE : bytes := lit "outbox.log".
Definition OUTBOX_TMP : bytes := lit "outbox.log.tmp".

Definition set_receipts_global (on : bool) (c : Core) : Core := with_receipts on (receipt_interval c) (receipt_clock c) c.
Definition set_receipt_interval_ms (ms : Z) (c : Core) : Core := with_receipts (receipts_global c) ms (receipt_clock c) c.

Section Engine.
Context `{Crypto} `{StateCipher} `{RatchetCrypto} `{KeyedHash} `{Coins}.
Context (cfg : StoreSettings) (keys : StateKeys) (secs_at : nat -> Z) (me : Identity) (max_text : Z).

#[local] Instance box_journal : Journal := sealed_journal keys ChatOutbox OUTBOX_FILE OUTBOX_TMP.

Abbreviation own := (id_key me).
Abbreviation ocfg := (out_settings cfg).

(** A call of the store, and one of the outbox. *)
Definition in_store {R} (m : Store -> Disk (Store * R)) (c : Core) : Disk (Core * R) :=
  let* r := m (c_store c) in ret (with_store r.1 c, r.2).

Definition in_box {R} (m : Outbox -> Prog SealedState (Outbox * R)) (c : Core) : Disk (Core * R) := fun w =>
  match m (c_box c) (w, c_boxw c) with
  | ((w', wr), Some (ob, r)) => (w', Some (with_box ob wr c, r))
  | ((w', _), None) => (w', None)
  end.

Definition unit_box (m : Outbox -> Prog SealedState Outbox) (ob : Outbox) : Prog SealedState (Outbox * unit) :=
  let* ob := m ob in ret (ob, tt).

(** ** Receipts: switches *)

Definition receipts_enabled (peer : bytes) (c : Core) : Disk (Core * bool) :=
  if receipts_global c then in_store (peek_peer keys own secs_at peer (fun st => negb (receipts_off st))) c else ret (c, false).

Definition set_receipts (peer : bytes) (on : bool) (coin : nat) (c : Core) : Disk (Core * result unit StoreError) :=
  let* r := in_store (with_peer keys own secs_at peer
                        (fun st => (set_receipt_state (read_up_to st) (read_reported st) (negb on) st, tt))) c in
  let* r := in_store (flush_peer cfg keys own peer) r.1 in
  match r with
  | (c, Err e) => ret (c, Err e)
  | (c, Ok _) =>
    match (if on then None else receipt_for (c_box c) peer) with
    | Some e => let* r := in_box (fun ob => remove ob (e_id e) coin) c in ret (r.1, Ok tt)
    | None => ret (c, Ok tt)
    end
  end.

Definition mark_read (peer : bytes) (up_to now : Z) (id : bytes) (coin : nat) (c : Core) : Disk (Core * result MarkOutcome StoreError) :=
  let* r := receipts_enabled peer c in
  let '(c, enabled) := r in
  if negb enabled then ret (c, Ok MarkDisabled)
  else
    let* r := in_store (peek_peer keys own secs_at peer (fun st => (max_recv_seq st, read_reported st))) c in
    let '(c, (newest, reported)) := r in
    let up_to := Z.min up_to newest in
    if (up_to =? 0) || (up_to <=? reported) then ret (c, Ok MarkNothing)
    else if match receipt_clock c !! peer with Some last => sat_sub now last <? receipt_interval c | None => false end
    then ret (c, Ok MarkTooSoon)
    else
      let* r := in_box (fun ob => push_receipt ocfg ob (new_receipt id peer up_to now) coin) c in
      match r with
      | (c, Err e) => ret (c, Err e)
      | (c, Ok _) =>
        let* r := in_store (with_peer keys own secs_at peer (fun st => (set_receipt_state (read_up_to st) up_to (receipts_off st) st, tt))) c in
        let* r := in_store (flush_peer cfg keys own peer) r.1 in
        match r with
        | (c, Err e) => ret (c, Err e)
        | (c, Ok _) =>
          let clock := if (RECEIPT_CLOCK_CAP <=? size (receipt_clock c))%nat then ∅ else receipt_clock c in
          ret (with_receipts (receipts_global c) (receipt_interval c) (<[peer := now]> clock) c, Ok MarkQueued)
        end
      end.

Definition receipt_expired (e : OutEntry) (now : Z) : bool :=
  negb (is_text e) && (receipt_expiry_ms ocfg <? sat_sub now (e_created_ms e)).

(** ** Sending *)

Definition enqueue (peer : bytes) (text : str) (now : Z) (id : bytes) (coin : nat) (c : Core) : Disk (Core * result bytes EnqueueError) :=
  if str_len text =? 0 then ret (c, Err EEmpty)
  else if max_text <? str_len text then ret (c, Err ETooBig)
  else if outbox_max ocfg <=? text_len (c_box c) then ret (c, Err EOutboxFull)
  else
    let* r := in_store (with_peer keys own secs_at peer next_seq) c in
    let '(c, seq) := r in
    let* r := in_store (flush_peer cfg keys own peer) c in
    match r with
    | (c, Err _) => ret (c, Err EStorage)
    | (c, Ok _) =>
      let* r := in_box (fun ob => push ocfg ob (new_entry id peer seq now text) coin) c in
      ret (r.1, match r.2 with Ok _ => Ok id | Err OutboxFull => Err EOutboxFull | Err StoreState => Err EStorage end)
    end.

(** The sealed envelopes of a contact are dropped. *)
Fixpoint clear_each (ids : list bytes) (coin : nat) (c : Core) : Disk Core :=
  match ids with
  | [] => ret c
  | id :: ids => let* r := in_box (unit_box (fun ob => clear_sealed ob id coin)) c in clear_each ids (S coin) r.1
  end.

Definition void_sealed (peer : bytes) (coin : nat) (c : Core) : Disk Core :=
  clear_each (map e_id (pending_for (c_box c) peer)) coin c.

Definition settle_rollback (peer : bytes) (coin : nat) (c : Core) : Disk Core :=
  let* r := in_store (take_rollback keys own secs_at peer) c in
  if (r.2 : bool) then void_sealed peer coin r.1 else ret r.1.

(** Seal on the session of the contact, which is started when there is none. *)
Definition seal_session (peer plain ek ratchet env_id : bytes) (st : PeerState) : PeerState * result Envelope CryptoError :=
  match (match session st with Some s => Ok s | None => new_initiator me peer ek ratchet end) with
  | Err e => (st, Err e)
  | Ok s => let '(s', r) := seal_with s plain None env_id in (set_session (Some s') st, r)
  end.

Definition seal_and_flush (peer plain ek ratchet env_id : bytes) (c : Core) : Disk (Core * result Envelope PrepareError) :=
  let* r := in_store (with_peer keys own secs_at peer (seal_session peer plain ek ratchet env_id)) c in
  match r with
  | (c, Err _) => ret (c, Err PSession)
  | (c, Ok env) =>
    let* r := in_store (flush_peer cfg keys own peer) c in
    match r with (c, Err _) => ret (c, Err PStorage) | (c, Ok _) => ret (c, Ok env) end
  end.

Definition entry_plain (e : OutEntry) : result bytes ProtoError :=
  match e_kind e with
  | OText => message_encode (mkMessage (e_id e) (e_seq e) (e_sent_ms e) (e_text e))
  | ORead => receipt_encode (mkReceipt (e_id e) (e_seq e))
  end.

Definition prepare_wire (id ek ratchet env_id : bytes) (coin : nat) (c : Core) : Disk (Core * result (bytes * bytes) PrepareError) :=
  match get_entry (c_box c) id with
  | None => ret (c, Err PGone)
  | Some e =>
    let* c := settle_rollback (e_peer e) coin c in
    match get_entry (c_box c) id with
    | None => ret (c, Err PGone)
    | Some e =>
      match (match e_sealed e with Some s => match env_decode s with Ok env => Some (s, Ratchet.env_id env) | Err _ => None end | None => None end) with
      | Some cached => ret (c, Ok cached)
      | None =>
        if negb (has_sealed_room (c_box c)) then ret (c, Err PStorage)
        else
          match entry_plain e with
          | Err _ => ret (c, Err PSession)
          | Ok plain =>
            let* r := seal_and_flush (e_peer e) plain ek ratchet env_id c in
            match r with
            | (c, Err x) => ret (c, Err x)
            | (c, Ok env) =>
              let b := env_encode env in
              let* r := in_box (fun ob => set_sealed ocfg ob id b (S coin)) c in
              ret (r.1, match r.2 with Ok _ => Ok (b, Ratchet.env_id env) | Err _ => Err PStorage end)
            end
          end
      end
    end
  end.

Definition reset_session (peer : bytes) (coin : nat) (c : Core) : Disk Core :=
  let* r := in_store (with_peer keys own secs_at peer (fun st => (set_session None st, tt))) c in
  let* r := in_store (flush_peer cfg keys own peer) r.1 in
  void_sealed peer coin r.1.

(** [seal_for]: records that are not private-chat messages. *)
Definition seal_for (peer plain ek ratchet env_id : bytes) (coin : nat) (c : Core) : Disk (Core * result (bytes * bytes) PrepareError) :=
  let* c := settle_rollback peer coin c in
  let* r := seal_and_flush peer plain ek ratchet env_id c in
  ret (r.1, match r.2 with Ok env => Ok (env_encode env, Ratchet.env_id env) | Err e => Err e end).

Definition set_error (why : str) (e : OutEntry) : OutEntry :=
  mkEntry (e_id e) (e_kind e) (e_peer e) (e_seq e) (e_sent_ms e) (e_created_ms e) (e_text e) (e_attempts e) (e_sealed e)
    (e_sending e) (Some why) (e_last_try_ms e).

(** [why] is the text of the error when the record cannot be written. *)
Definition finish (id : bytes) (s : MsgState) (reason : option str) (now : Z) (why : str) (coin : nat) (c : Core) : Disk Core :=
  match get_entry (c_box c) id with
  | None => ret c
  | Some e =>
    if negb (is_text e) then let* r := in_box (fun ob => remove ob id coin) c in ret r.1
    else
      let m := stored_from e s reason now in
      let* r := in_store (record_message cfg keys own secs_at (e_peer e) m false) c in
      match r with
      | (c, Ok ord) =>
        let* r := in_box (fun ob => remove ob id coin) c in
        ret (push_event (e_peer e) (if bool_decide (s = Delivered) then EvDelivered else EvFailed) (stored_of ord m) r.1)
      | (c, Err _) => ret (with_box (update (c_box c) id (set_error why)) (c_boxw c) c)
      end
  end.

Definition mark_delivered (id : bytes) (now : Z) (why : str) (coin : nat) (c : Core) : Disk Core := finish id Delivered None now why coin c.
Definition mark_failed (id : bytes) (reason : str) (now : Z) (why : str) (coin : nat) (c : Core) : Disk Core := finish id Failed (Some reason) now why coin c.

Definition record_unsent (e : OutEntry) (reason : str) (now : Z) (c : Core) : Disk Core :=
  let* r := in_store (record_message cfg keys own secs_at (e_peer e) (stored_from e Failed (Some reason) now) false) c in ret r.1.

(** ** Reading and deleting *)

Definition waiting_message (e : OutEntry) : StoredMessage :=
  mkStored 0 true (e_id e) (e_seq e) (e_sent_ms e) (e_created_ms e) (if e_sending e then Sending else Queued)
    (e_last_error e) (e_last_try_ms e) (e_text e).

Definition show_read (up : Z) (m : StoredMessage) : StoredMessage :=
  if m_outgoing m && bool_decide (m_state m = Delivered) && (m_seq m <=? up)
  then mkStored (m_ord m) (m_outgoing m) (m_id m) (m_seq m) (m_sent_ms m) (m_at_ms m) Read (m_reason m) (m_tried_ms m) (m_text m)
  else m.

Definition chat_history (peer : bytes) (before : option Z) (limit : Z) (c : Core) : Disk (Core * list StoredMessage) :=
  let pending := map waiting_message (List.filter is_text (pending_for (c_box c) peer)) in
  let* page := history cfg keys own peer before limit pending (c_store c) in
  let* r := receipts_enabled peer c in
  let '(c, enabled) := r in
  if (enabled : bool) then
    let* r := in_store (peek_peer keys own secs_at peer read_up_to) c in
    ret (r.1, if 0 <? r.2 then map (show_read r.2) page else page)
  else ret (c, page).

Definition delete_message (peer id : bytes) (coin : nat) (c : Core) : Disk (Core * result bool StoreError) :=
  let* r := in_box (fun ob => remove ob id coin) c in
  let '(c, cancelled) := r in
  let* r := in_store (delete_stored cfg keys own secs_at peer id) c in
  ret (r.1, match r.2 with Ok removed => Ok (bool_decide (is_Some cancelled) || removed) | Err e => Err e end).

Definition delete_conversation (peer noise : bytes) (coin : nat) (c : Core) : Disk (Core * result unit StoreError) :=
  let* r := in_box (fun ob => remove_peer ob peer coin) c in
  let* r := in_store (delete_history keys own secs_at peer noise) r.1 in
  match r with
  | (c, Err e) => ret (c, Err e)
  | (c, Ok _) => in_store (flush_peer cfg keys own peer) c
  end.

(** ** Receiving *)

(** What is decided on copies: an answer, or the session after the envelope
    with the plaintext, whether it replaces another and its first-flight key. *)
Inductive Opened := ODone (s : AckStatus) | OOpen (s : Session) (plain : bytes) (replaced : bool) (new_ek : option bytes).

Definition accept_fresh (peer : bytes) (env : Envelope) (replaced : bool) (ek secret : bytes) : Opened :=
  match Ratchet.accept me peer env secret with
  | Ok (s, pt) => OOpen s pt replaced (Some ek)
  | Err _ => ODone ABadRequest
  end.

Definition open_envelope (peer : bytes) (env : Envelope) (secret secret' : bytes) (st : PeerState) : Opened :=
  if bool_decide (env_id env ∈ recent_env st) then ODone ADuplicate
  else
    match session st with
    | Some existing =>
      match open_with existing env None secret with
      | (s, Ok pt) => OOpen s pt false None
      | (_, Err _) =>
        match init_ek (header env) with
        | Some ek =>
          if bool_decide (ek = origin_ek existing) || bool_decide (ek ∈ seen_eks st) then ODone ANoSession
          else if initiator existing && pending_init existing && negb (str_leb ek (origin_ek existing)) then ODone ABusy
          else accept_fresh peer env true ek secret'
        | None => ODone ANoSession
        end
      end
    | None =>
      match init_ek (header env) with
      | Some ek => if bool_decide (ek ∈ seen_eks st) then ODone ANoSession else accept_fresh peer env false ek secret'
      | None => ODone ANoSession
      end
    end.

Definition decode_status (e : CryptoError) : AckStatus :=
  match e with EnvVersion _ | Unsupported => AUnsupported | _ => ABadRequest end.

(** The session moves on and the envelope is remembered. *)
Definition commit_session (s : Session) (new_ek : option bytes) (id : bytes) (st : PeerState) : PeerState :=
  remember_envelope id (match new_ek with Some ek => remember_ek ek (set_session (Some s) st) | None => set_session (Some s) st end).

Definition commit_flush {R} (peer : bytes) (f : PeerState -> PeerState * R) (replaced : bool) (coin : nat) (c : Core) : Disk (Core * result R StoreError) :=
  let* r := in_store (with_peer keys own secs_at peer f) c in
  let '(c, x) := r in
  let* r := in_store (flush_peer cfg keys own peer) c in
  match r with
  | (c, Err e) => ret (c, Err e)
  | (c, Ok _) => let* c := (if replaced then void_sealed peer coin c else ret c) in ret (c, Ok x)
  end.

Definition plain_outcome (s : AckStatus) : AcceptOutcome := mkAccept s false.

(** A receipt is applied when receipts are on and its number was given. *)
Definition apply_receipt (enabled : bool) (r : ReadReceipt) (st : PeerState) : PeerState * bool :=
  if enabled && (up_to_seq r <=? send_seq st) && (read_up_to st <? up_to_seq r)
  then (set_receipt_state (up_to_seq r) (read_reported st) (receipts_off st) st, true)
  else (st, false).

Definition incoming (m : Message) (now : Z) : NewMessage :=
  mkNew false (msg_id m) (msg_seq m) (msg_sent_ms m) now Received None (msg_text m).

Definition accept_text (peer : bytes) (env : Envelope) (s : Session) (replaced : bool) (new_ek : option bytes) (m : Message) (now : Z) (coin : nat)
    (c : Core) : Disk (Core * AcceptOutcome) :=
  let* r := in_store (peek_peer keys own secs_at peer (fun st => is_new_seq st (msg_seq m))) c in
  let '(c, is_new) := r in
  let too_big := max_text <? str_len (msg_text m) in
  let* r := (if is_new && negb too_big then
               let* r := in_store (record_message cfg keys own secs_at peer (incoming m now) true) c in
               ret (r.1, match r.2 with Ok ord => Ok (Some (stored_of ord (incoming m now))) | Err e => Err e end)
             else ret (c, Ok None)) in
  match r with
  | (c, Err _) => ret (c, plain_outcome AFailed)
  | (c, Ok stored) =>
    let* r := commit_flush peer (fun st =>
                (remember_envelope (env_id env)
                   (mark_seq (msg_seq m) (match new_ek with Some ek => remember_ek ek (set_session (Some s) st) | None => set_session (Some s) st end)), tt))
                replaced coin c in
    match r with
    | (c, Err _) => ret (c, plain_outcome AFailed)
    | (c, Ok _) =>
      let status := if too_big then ATooBig else match stored with Some _ => AStored | None => ADuplicate end in
      let c := match stored with Some x => push_event peer EvReceived x c | None => c end in
      ret (c, mkAccept status replaced)
    end
  end.

Definition accept (peer wire : bytes) (now : Z) (secret secret' : bytes) (coin : nat) (c : Core) : Disk (Core * AcceptOutcome) :=
  match env_decode wire with
  | Err e => ret (c, plain_outcome (decode_status e))
  | Ok env =>
    let* c := settle_rollback peer coin c in
    let* r := in_store (peek_peer keys own secs_at peer (open_envelope peer env secret secret')) c in
    let '(c, o) := r in
    let coin := (coin + length (entries (c_box c)))%nat in
    match o with
    | ODone s => ret (c, plain_outcome s)
    | OOpen s pt replaced new_ek =>
      match record_decode pt with
      | Err _ => ret (c, plain_outcome ABadRequest)
      | Ok (RUnknown _) =>
        let* r := commit_flush peer (fun st => (commit_session s new_ek (env_id env) st, tt)) replaced coin c in
        ret (r.1, match r.2 with Ok _ => mkAccept AStored replaced | Err _ => plain_outcome AFailed end)
      | Ok (RRead rc) =>
        let* r := receipts_enabled peer c in
        let '(c, enabled) := r in
        let* r := commit_flush peer (fun st => apply_receipt enabled rc (commit_session s new_ek (env_id env) st)) replaced coin c in
        match r with
        | (c, Err _) => ret (c, plain_outcome AFailed)
        | (c, Ok applied) =>
          let shown := mkStored 0 true (rc_id rc) (up_to_seq rc) 0 now Read None 0 [] in
          ret (if (applied : bool) then push_event peer EvRead shown c else c, mkAccept AStored replaced)
        end
      | Ok (RText m) => accept_text peer env s replaced new_ek m now coin c
      end
    end
  end.

(** [accept_raw]: the plaintext is handed to the receiver of the record, whose
    answer decides whether the session moves on. *)
Definition accept_raw (peer wire : bytes) (handle : bytes -> AckStatus) (secret secret' : bytes) (coin : nat) (c : Core) : Disk (Core * AckStatus) :=
  match env_decode wire with
  | Err e => ret (c, decode_status e)
  | Ok env =>
    let* c := settle_rollback peer coin c in
    let* r := in_store (peek_peer keys own secs_at peer (open_envelope peer env secret secret')) c in
    let '(c, o) := r in
    match o with
    | ODone s => ret (c, s)
    | OOpen s pt replaced new_ek =>
      let status := handle pt in
      if bool_decide (status = AFailed) then ret (c, status)
      else
        let* r := commit_flush peer (fun st => (commit_session s new_ek (env_id env) st, tt)) replaced
                    (coin + length (entries (c_box c))) c in
        ret (r.1, match r.2 with Ok _ => status | Err _ => AFailed end)
    end
  end.

(** ** Catching up *)

Definition request_for (peer : bytes) (c : Core) : list SyncItem :=
  map (fun e => mkSyncItem (e_id e) (e_seq e) (Z.min (str_len (e_text e)) 65535))
    (take (Z.to_nat MAX_SYNC_ITEMS) (List.filter is_text (pending_for (c_box c) peer))).

(** The items that were applied already, one by one. *)
Fixpoint answer_each (peer : bytes) (items : list SyncItem) (c : Core) : Disk (Core * list bytes) :=
  match items with
  | [] => ret (c, [])
  | it :: items =>
    if negb (si_seq it =? 0) && (si_len it <=? max_text) then
      let* r := in_store (peek_peer keys own secs_at peer (fun st => negb (is_new_seq st (si_seq it)))) c in
      let* rest := answer_each peer items r.1 in
      ret (rest.1, if (r.2 : bool) then si_id it :: rest.2 else rest.2)
    else answer_each peer items c
  end.

Definition answer (peer : bytes) (items : list SyncItem) (c : Core) : Disk (Core * list bytes) :=
  answer_each peer (take (Z.to_nat MAX_SYNC_ITEMS) items) c.

Fixpoint apply_reply (peer : bytes) (asked : list SyncItem) (have : list bytes) (now : Z) (why : str) (coin : nat) (closed : Z) (c : Core) : Disk (Core * Z) :=
  match have with
  | [] => ret (c, closed)
  | id :: have =>
    if negb (existsb (fun a => bool_decide (si_id a = id)) asked) then apply_reply peer asked have now why coin closed c
    else
      match get_entry (c_box c) id with
      | Some e =>
        if bool_decide (e_peer e = peer) then
          let* c := mark_delivered id now why coin c in
          apply_reply peer asked have now why (coin + 2) (if bool_decide (is_Some (get_entry (c_box c) id)) then closed else closed + 1) c
        else apply_reply peer asked have now why coin closed c
      | None => apply_reply peer asked have now why coin closed c
      end
  end.

(** ** Starting *)

(** The stores are opened; what expired in the outbox is recorded as failed. *)
Fixpoint record_expired (old : list OutEntry) (reason : str) (now : Z) (c : Core) : Disk Core :=
  match old with
  | [] => ret c
  | e :: old => let* c := record_unsent e reason now c in record_expired old reason now c
  end.

Definition open_core (anchor : option Anchor) (now secs : Z) (coin : nat) : Disk Core := fun w =>
  match outbox_open ocfg now secs coin (w, None) with
  | ((w', wr), Some (ob, old)) => record_expired old (lit "expired") now (new_core (new_store anchor coin) ob wr) w'
  | ((w', _), None) => (w', None)
  end.

End Engine.
