(* ===== verification/ChatLedger.v ===== *)
(** * ChatLedger: what has been used up in the conversations

    The ledger says, of every contact, which envelopes were sealed and written
    down, the last number given to a message, and the numbers acknowledged as
    stored.  [fits L p st]: the state [st] of contact [p] knows all of it, so
    that going on from [st] uses nothing twice.  The lemmas follow a state
    through the operations of the engine. *)

From S2P Require Import Prelude Bytes Text Codec ErasureCode Dissolve Disk SealedState SealedLog SealedRewrite Journal ChatOutbox Ratchet PeerState ChatProto Anchor ChatStore ChatEngine.

Record Account := mkAccount { issued : list Envelope; top : Z; taken : list Z }.

(** [limit]: no number above it was given; [used]: the public keys of the
    ratchet secrets drawn so far. *)
Record Ledger := mkLedger { limit : Z; used : list bytes; acct : bytes -> Account }.

(** The message key an envelope was sealed with. *)
Definition env_key (e : Envelope) : bytes * Z := (dh_pub (header e), h_n (header e)).

(** Distinct images have distinct sources. *)
Lemma nodup_image {A B} (f : A -> B) l x y : NoDup (f <$> l) -> x ∈ l -> y ∈ l -> f x = f y -> x = y.
Proof.
  induction l as [|z l IH]; intros Hnd Hx Hy E; [by apply elem_of_nil in Hx|]. cbn in Hnd. apply NoDup_cons in Hnd as [Hz Hnd].
  apply elem_of_cons in Hx as [->|Hx], Hy as [->|Hy]; [done| | |by apply IH]; exfalso; apply Hz; [rewrite E|rewrite <- E]; by apply list_elem_of_fmap_2.
Qed.

(** Its ratchet key was drawn, and its bytes are read back. *)
Definition readable (us : list bytes) (e : Envelope) : Prop := dh_pub (header e) ∈ us /\ env_decode (env_encode e) = Ok e.

Definition ledger_ok (L : Ledger) : Prop :=
  forall p, NoDup (env_key <$> issued (acct L p)) /\ Forall (readable (used L)) (issued (acct L p)) /\
            NoDup (taken (acct L p)).

Definition set_acct (p : bytes) (a : Account) (L : Ledger) : Ledger :=
  mkLedger (limit L) (used L) (fun q => if bool_decide (q = p) then a else acct L q).

Lemma acct_set_eq p a L : acct (set_acct p a L) p = a.
Proof. cbn. by rewrite bool_decide_eq_true_2. Qed.
Lemma acct_set_ne p q a L : q <> p -> acct (set_acct p a L) q = acct L q.
Proof. intros. cbn. by rewrite bool_decide_eq_false_2. Qed.

(** An envelope was sealed and written down, a number given, a number taken. *)
Definition issue (p : bytes) (e : Envelope) (L : Ledger) : Ledger :=
  set_acct p (mkAccount (issued (acct L p) ++ [e]) (top (acct L p)) (taken (acct L p))) L.
Definition give (p : bytes) (n : Z) (L : Ledger) : Ledger := set_acct p (mkAccount (issued (acct L p)) n (taken (acct L p))) L.
Definition take_number (p : bytes) (n : Z) (L : Ledger) : Ledger :=
  set_acct p (mkAccount (issued (acct L p)) (top (acct L p)) (taken (acct L p) ++ [n])) L.

(** The same account, and one that was changed. *)
Lemma ledger_ok_set p a L : NoDup (env_key <$> issued a) -> Forall (readable (used L)) (issued a) -> NoDup (taken a) ->
  ledger_ok L -> ledger_ok (set_acct p a L).
Proof.
  intros H1 H2 H3 Hok q. destruct (decide (q = p)) as [->|Hq]; [by rewrite acct_set_eq|]. rewrite acct_set_ne by done. apply Hok.
Qed.

Lemma ledger_ok_issue p e L : (env_key e ∉ (env_key <$> issued (acct L p))) -> readable (used L) e -> ledger_ok L -> ledger_ok (issue p e L).
Proof.
  intros Hn Hu Hok. destruct (Hok p) as (H1 & H2 & H3). apply ledger_ok_set; cbn; try done.
  - rewrite fmap_app. apply NoDup_app. split_and!; [done| |apply NoDup_singleton]. intros x Hx ->%list_elem_of_singleton. done.
  - apply Forall_app. split; [done|by apply Forall_singleton].
Qed.

Lemma ledger_ok_give p n L : ledger_ok L -> ledger_ok (give p n L).
Proof. intros Hok. destruct (Hok p) as (H1 & H2 & H3). by apply ledger_ok_set. Qed.

Lemma ledger_ok_take p n L : (n ∉ taken (acct L p)) -> ledger_ok L -> ledger_ok (take_number p n L).
Proof.
  intros Hn Hok. destruct (Hok p) as (H1 & H2 & H3). apply ledger_ok_set; cbn; try done. apply NoDup_app. split_and!; [done| |apply NoDup_singleton].
  by intros x Hx ->%list_elem_of_singleton.
Qed.

(** More is known. *)
Definition account_le (a b : Account) : Prop := (exists es, issued b = issued a ++ es) /\ top a <= top b /\ (exists ns, taken b = taken a ++ ns).
Definition ledger_le (L L' : Ledger) : Prop := limit L <= limit L' /\ (forall u, u ∈ used L -> u ∈ used L').

Lemma ledger_ok_le L L' : ledger_le L L' -> acct L' = acct L -> ledger_ok L -> ledger_ok L'.
Proof.
  intros [_ Hu] Ha Hok q. rewrite Ha. destruct (Hok q) as (H1 & H2 & H3). split_and!; [done| |done]. eapply Forall_impl; [exact H2|].
  intros e [? ?]. split; auto.
Qed.

Lemma account_le_refl a : account_le a a.
Proof. split_and!; [by exists []; rewrite app_nil_r|lia|by exists []; rewrite app_nil_r]. Qed.

(** A secret that is new to the ledger. *)
Definition fresh `{RatchetCrypto} (L : Ledger) (secret : bytes) : Prop :=
  x_public secret ∈ used L /\ forall p e, e ∈ issued (acct L p) -> dh_pub (header e) <> x_public secret.

Definition session_fits (us : list bytes) (es : list Envelope) (s : Session) : Prop :=
  is_Some (cks s) -> dhs_pub s ∈ us /\ forall e, e ∈ es -> dh_pub (header e) = dhs_pub s -> h_n (header e) < ns s.

Section Sessions.
Context `{RatchetCrypto} `{StateCipher}.

(** Sealing uses the next key; the session is past it afterwards. *)
Lemma seal_fits us es s plain id s' r :
  session_fits us es s -> seal_with s plain None id = (s', r) ->
  session_fits us es s' /\
  (forall env, r = Ok env -> session_fits us (es ++ [env]) s' /\ (env_key env ∉ (env_key <$> es)) /\ dh_pub (header env) ∈ us).
Proof.
  intros Hs. unfold seal_with.
  match goal with |- context [match ?x with Ok _ => _ | Err _ => _ end] => destruct x as [[next env]|e] eqn:E end.
  2: { intros [= <- <-]. by split. }
  assert (is_Some (cks s) /\ dh_pub (header env) = dhs_pub s /\ h_n (header env) = ns s) as (Hck & Hd & Hn).
  { destruct (pad plain); [|done]. cbn [result_bind] in E. destruct (cks s) as [ck|]; [|done]. cbn [ok_or result_bind] in E.
    destruct (kdf_chain ck); [|done]. cbn [result_bind] in E. destruct (msg_seal _ _ _ _); [|done]. cbn [result_bind] in E. injection E as <- <-. by split_and!. }
  destruct (Hs Hck) as [Hu Hlt].
  unfold checked_add. destruct (Z.leb_spec (ns s + 1) u32_max); intros [= <- <-].
  - split.
    + intros _. split; [done|]. intros e He Hde. cbn. specialize (Hlt e He Hde). lia.
    + intros env' [= <-]. split_and!.
      * intros _. split; [done|]. cbn. intros e [He| ->%list_elem_of_singleton]%elem_of_app Hde; [specialize (Hlt e He Hde); lia|lia].
      * intros (e & He & Hin)%list_elem_of_fmap. injection He as Hd' Hn'. specialize (Hlt e Hin ltac:(congruence)). lia.
      * by rewrite Hd.
  - split; [|done]. intros _. split; [done|]. intros e He Hde. cbn. by apply Hlt.
Qed.

Lemma initiator_fits us es me peer ek ratchet s :
  x_public ratchet ∈ us -> (forall e, e ∈ es -> dh_pub (header e) <> x_public ratchet) ->
  new_initiator me peer ek ratchet = Ok s -> session_fits us es s.
Proof.
  intros Hu Hn. unfold new_initiator. destruct (peer_dh_public peer); [|done]. cbn [result_bind]. destruct (dh _ _); [|done]. cbn [result_bind].
  destruct (dh ek _); [|done]. cbn [result_bind]. destruct (kdf_first_flight _ _ _ _ _); [|done]. cbn [result_bind]. destruct (dh ratchet _); [|done].
  cbn [result_bind]. destruct (kdf_root _ _) as [[rk ck]|]; [|done]. cbn [result_bind]. intros [= <-] _. cbn. split; [done|]. intros e He Hd. by destruct (Hn e He).
Qed.

Lemma skip_until_send s n s' : skip_until s n = Ok s' -> cks s' = cks s /\ dhs_pub s' = dhs_pub s /\ ns s' = ns s /\ dhr s' = dhr s.
Proof.
  unfold skip_until. destruct (ckr s); [|by intros [= <-]]. destruct (_ <=? _); [by intros [= <-]|]. destruct (_ <? _); [done|].
  destruct (dhr s) eqn:Ed; [|done]. cbn [ok_or result_bind]. destruct (skip_loop _ _ _ _ _) as [[[ck n'] sk]|]; [|done]. cbn [result_bind]. intros [= <-]. by cbn.
Qed.

(** Opening keeps the sending chain, or starts one with the new secret. *)
Lemma open_fits us es s env secret s' pt :
  x_public secret ∈ us -> (forall e, e ∈ es -> dh_pub (header e) <> x_public secret) ->
  session_fits us es s -> open_with s env None secret = (s', Ok pt) -> session_fits us es s'.
Proof.
  intros Hu Hn Hs. unfold open_with. destruct (take_key _ _ _) as [[k rest]|].
  { case_match; [|done]. intros [= <- <-]. intros Hck. cbn in *. by apply Hs. }
  destruct (open_next s env None secret) as [[s1 pt1]|] eqn:E; [|done]. intros [= <- <-]. unfold open_next in E.
  destruct (if negb _ then _ else _) as [s2|] eqn:E2; [|done]. cbn [result_bind] in E.
  assert (session_fits us es s2) as Hs2.
  { destruct (negb _) in E2.
    - destruct (skip_until s _) as [s0|]; [|done]. cbn [result_bind] in E2. unfold dh_ratchet in E2. destruct (dh (dhs s0) _); [|done]. cbn [result_bind] in E2.
      destruct (kdf_root _ _) as [[r1 c1]|]; [|done]. cbn [result_bind] in E2. destruct (dh secret _); [|done]. cbn [result_bind] in E2.
      destruct (kdf_root r1 _) as [[r2 c2]|]; [|done]. cbn [result_bind] in E2. injection E2 as <-. intros _. cbn. split; [done|]. intros e He Hd. by destruct (Hn e He).
    - destruct (_ <? _) in E2; [done|]. by injection E2 as <-. }
  destruct (skip_until s2 _) as [s3|] eqn:E3; [|done]. cbn [result_bind] in E. apply skip_until_send in E3 as (C1 & C2 & C3 & _).
  destruct (ckr s3); [|done]. cbn [ok_or result_bind] in E. destruct (kdf_chain _); [|done]. cbn [result_bind] in E. destruct (open_msg _ _ _ _ _ _ _); [|done].
  cbn [result_bind] in E. destruct (unpad _); [|done]. cbn [result_bind] in E. destruct (checked_add _ _ _); [|done]. cbn [ok_or result_bind] in E. injection E as <- _.
  intros Hck. cbn in *. rewrite C1 in Hck. destruct (Hs2 Hck) as [? Hlt]. rewrite C2, C3. by split.
Qed.

Lemma accept_fits us es me peer env secret s pt :
  x_public secret ∈ us -> (forall e, e ∈ es -> dh_pub (header e) <> x_public secret) ->
  Ratchet.accept me peer env secret = Ok (s, pt) -> session_fits us es s.
Proof.
  intros Hu Hn. unfold Ratchet.accept. destruct (init_ek _) as [ek|]; [|done]. cbn [ok_or result_bind]. destruct (new_responder me peer ek) as [s0|] eqn:E; [|done].
  cbn [result_bind]. unfold Ratchet.open. destruct (open_with s0 env None secret) as [s1 [pt1|]] eqn:Eo; [|done]. intros [= <- <-].
  eapply open_fits; [done|done| |exact Eo]. unfold new_responder in E. destruct (peer_dh_public peer); [|done]. cbn [result_bind] in E.
  destruct (dh _ _); [|done]. cbn [result_bind] in E. destruct (dh _ ek); [|done]. cbn [result_bind] in E. destruct (kdf_first_flight _ _ _ _ _); [|done].
  cbn [result_bind] in E. injection E as <-. intros [? ?]. done.
Qed.

End Sessions.

(** ** States that know the ledger *)

Section Fits.
Context `{RatchetCrypto} `{StateCipher}.

Definition fits (L : Ledger) (p : bytes) (st : PeerState) : Prop :=
  peer_wf st /\ p_peer st = p /\ top (acct L p) <= send_seq st <= limit L /\
  (forall s, session st = Some s -> session_fits (used L) (issued (acct L p)) s) /\
  Forall (applied st) (taken (acct L p)).

Lemma fits_mono L L' p st : ledger_le L L' -> acct L' p = acct L p -> fits L p st -> fits L' p st.
Proof.
  intros [Hl Hu] Ha (F1 & F2 & F3 & F4 & F5). unfold fits. rewrite Ha. split_and!; try done; [lia|lia|].
  intros s Hs Hck. destruct (F4 s Hs Hck) as [? ?]. split; [by apply Hu|done].
Qed.

(** Who knows more knows less. *)
Lemma fits_le L L' p st : limit L' <= limit L -> used L' = used L -> account_le (acct L' p) (acct L p) -> send_seq st <= limit L' -> fits L p st -> fits L' p st.
Proof.
  intros Hl Hu ([es He] & Ht & [ns Hn]) Hsl (F1 & F2 & F3 & F4 & F5). unfold fits. rewrite He in F4. rewrite Hn in F5. rewrite Hu. split_and!; try done; [lia| |].
  - intros s Hs Hck. destruct (F4 s Hs Hck) as [? Hlt]. split; [done|]. intros e Hin. apply Hlt, elem_of_app. by left.
  - by apply Forall_app in F5 as [? _].
Qed.

(** The session is dropped and the numbers go on above a floor. *)
Lemma fits_rolled L p st floor : taken (acct L p) = [] \/ Forall (applied st) (taken (acct L p)) ->
  peer_wf st -> p_peer st = p -> send_seq st <= limit L -> floor <= limit L -> 0 <= limit L <= u64_max -> top (acct L p) <= Z.max (send_seq st) floor ->
  fits L p (set_send_seq (Z.max (send_seq st) floor) (set_session None st)).
Proof.
  intros Ht Hwf Hp H1 H2 H3 H4. unfold fits. cbn. split_and!; try done; try lia.
  - apply wf_send_seq; [|by apply wf_session]. destruct Hwf as (_ & Hs & _). ulia.
  - destruct Ht as [->|Ht]; [done|]. eapply Forall_impl; [exact Ht|]. intros n. by rewrite !applied_spec.
Qed.

(** *** The changes of the engine *)

Lemma fits_session L p st o :
  (forall s, o = Some s -> session_wf s /\ session_fits (used L) (issued (acct L p)) s) -> fits L p st -> fits L p (set_session o st).
Proof.
  intros Ho (F1 & F2 & F3 & F4 & F5). unfold fits. cbn. split_and!; try done; try lia.
  - apply wf_session; [|done]. intros s Hs. by apply Ho.
  - intros s Hs. by apply Ho.
Qed.

Lemma fits_ek L p st ek : array 32 ek -> fits L p st -> fits L p (remember_ek ek st).
Proof.
  intros He (F1 & F2 & F3 & F4 & F5). pose proof (wf_remember_ek ek st He F1) as W. unfold fits. split; [done|]. unfold remember_ek in *.
  destruct (bool_decide _); cbn; split_and!; try done; lia.
Qed.

Lemma fits_envelope L p st id : array 16 id -> fits L p st -> fits L p (remember_envelope id st).
Proof. intros He (F1 & F2 & F3 & F4 & F5). unfold fits. split; [by apply wf_remember_envelope|]. unfold remember_envelope. cbn. split_and!; try done; lia. Qed.

Lemma mark_seq_rest n st : p_peer (mark_seq n st) = p_peer st /\ send_seq (mark_seq n st) = send_seq st /\ session (mark_seq n st) = session st.
Proof. unfold mark_seq. destruct (_ <=? _); [done|]. destruct (shed _ _) as [f l]. by destruct (absorb f l). Qed.

Lemma fits_mark L p st n : in_u64 n -> fits L p st -> fits L p (mark_seq n st).
Proof.
  intros Hn (F1 & F2 & F3 & F4 & F5). destruct (mark_seq_rest n st) as (R1 & R2 & R3). unfold fits. rewrite R1, R2, R3. split_and!; try done; try lia.
  - by apply wf_mark.
  - destruct F1 as (_ & _ & W3 & _). pose proof (mark_seq_spec n st W3 Hn) as (_ & _ & M & _). eapply Forall_impl; [exact F5|]. exact M.
Qed.

Lemma fits_summary L p st c l : in_u64 c -> in_u64 l -> fits L p st -> fits L p (set_summary c l st).
Proof. intros Hc Hl (F1 & F2 & F3 & F4 & F5). unfold fits. split; [by apply wf_summary|]. cbn. split_and!; try done; lia. Qed.

Lemma fits_receipt L p st u r o : in_u64 u -> in_u64 r -> fits L p st -> fits L p (set_receipt_state u r o st).
Proof. intros Hu Hr (F1 & F2 & F3 & F4 & F5). unfold fits. split; [by apply wf_receipt_state|]. cbn. split_and!; try done; lia. Qed.

(** The next number is above every number that was given. *)
Lemma fits_next L p st : limit L < u64_max -> fits L p st ->
  let n := send_seq st + 1 in
  next_seq st = (set_send_seq n st, n) /\ top (acct L p) < n /\
  fits (mkLedger (limit L + 1) (used L) (acct L)) p (set_send_seq n st) /\
  fits (give p n (mkLedger (limit L + 1) (used L) (acct L))) p (set_send_seq n st).
Proof.
  intros Hl (F1 & F2 & F3 & F4 & F5). cbn zeta. pose proof F1 as (_ & Hs & _). split_and!.
  - unfold next_seq, wrapping_add. rewrite Z.mod_small by ulia. done.
  - lia.
  - unfold fits. cbn. split_and!; try done; try lia. apply wf_send_seq; [ulia|done].
  - unfold fits, give. rewrite acct_set_eq. cbn. split_and!; try done; try lia. apply wf_send_seq; [ulia|done].
Qed.

(** A number that was new is taken. *)
Lemma fits_take L p st n : applied st n -> fits L p st -> fits (take_number p n L) p st.
Proof.
  intros Hn (F1 & F2 & F3 & F4 & F5). unfold fits, take_number. rewrite acct_set_eq. cbn. split_and!; try done; try lia.
  apply Forall_app. split; [done|by apply Forall_singleton].
Qed.

Lemma new_not_taken L p st n : fits L p st -> is_new_seq st n = true -> n ∉ taken (acct L p).
Proof. intros (_ & _ & _ & _ & F5) Hn Hin. rewrite Forall_forall in F5. specialize (F5 n Hin). unfold applied in F5. congruence. Qed.

End Fits.

(** ** The two ends of the ratchet *)

(** Opening gives as many bytes as there were. *)
Definition cipher_opens `{StateCipher} : Prop :=
  forall key nonce aad ct tag pt, xchacha_open key nonce aad ct tag = Some pt -> length pt = length ct /\ (bytes_ok ct -> bytes_ok pt).

Definition identity_wf `{RatchetCrypto} (me : Identity) : Prop :=
  array 32 (id_key me) /\ array 32 (dh_secret me) /\ dh_public me = x_public (dh_secret me).

(** X25519 public keys have 32 bytes. *)
Definition montgomery_sized `{RatchetCrypto} : Prop := forall p m, ed_montgomery p = Some m -> array 32 m.

Section Ends.
Context {RC : RatchetCrypto} {SC : StateCipher} (Hc : cipher_correct) (Hz : kdf_sized) (Hmg : montgomery_sized) (Hop : cipher_opens).
Context (me : Identity) (Hme : identity_wf me).

Lemma responder_wf peer ek s : array 32 peer -> array 32 ek -> new_responder me peer ek = Ok s -> session_wf s.
Proof.
  intros Hp He. destruct Hme as (Hi & Hs & Hpub). unfold new_responder. destruct (peer_dh_public peer); [|done]. cbn [result_bind].
  destruct (dh _ _); [|done]. cbn [result_bind]. destruct (dh _ ek); [|done]. cbn [result_bind].
  destruct (kdf_first_flight _ _ _ _ _) as [k|] eqn:E; [|done]. cbn [result_bind]. intros [= <-]. unfold kdf_first_flight in E.
  destruct (hkdf_expand _ _ _ 32) as [o|] eqn:Eo; [|done]. injection E as <-. apply Hz in Eo. destruct Hz as [Hx _]. unfold session_wf. cbn.
  split_and!; try done; try (rewrite Hpub; apply Hx); ulia.
Qed.

Lemma accept_wf peer env secret s pt : array 32 peer -> array 32 secret -> header_wf (header env) ->
  Ratchet.accept me peer env secret = Ok (s, pt) -> session_wf s.
Proof.
  intros Hp Hs Hh. unfold Ratchet.accept. destruct (init_ek (header env)) as [ek|] eqn:Ek; [|done]. cbn [ok_or result_bind].
  destruct (new_responder me peer ek) as [s0|] eqn:E; [|done]. cbn [result_bind]. unfold Ratchet.open.
  pose proof (open_with_wf Hz s0 env None secret Hh Hs) as Hw. destruct (open_with s0 env None secret) as [s1 [pt1|]]; [|done]. intros [= <- <-].
  apply Hw. eapply responder_wf; [exact Hp| |exact E]. destruct Hh as (_ & _ & _ & Hek). by rewrite Ek in Hek.
Qed.

Lemma strip_bytes r x : bytes_ok r -> strip r = Some x -> bytes_ok x.
Proof. induction r as [|y r IH]; intros Hr; cbn [strip]; [done|]. apply Forall_cons in Hr as [_ Hr]. destruct (y =? 0); [by apply IH|]. destruct (y =? 128); [by intros [= <-]|done]. Qed.

Lemma unpad_bytes b x : bytes_ok b -> unpad b = Ok x -> bytes_ok x.
Proof.
  intros Hb. unfold unpad. destruct (negb _); [done|]. destruct (strip (rev b)) as [r|] eqn:E; [|done]. intros [= <-]. apply Forall_rev.
  eapply strip_bytes; [|exact E]. by apply Forall_rev.
Qed.

Lemma msg_open_bytes key nonce aad ct pt : bytes_ok ct -> msg_open key nonce aad ct = Ok pt -> bytes_ok pt.
Proof.
  intros Hb. unfold msg_open. destruct (_ <? _)%nat; [done|]. destruct (xchacha_open _ _ _ _ _) as [x|] eqn:E; [|done]. intros [= <-].
  apply Hop in E as [_ E]. apply E. by apply Forall_take.
Qed.

(** What arrives holds bytes. *)
Lemma open_bytes s env secret s' pt : bytes_ok (ciphertext env) -> open_with s env None secret = (s', Ok pt) -> bytes_ok pt.
Proof.
  intros Hb. unfold open_with. destruct (take_key _ _ _) as [[k rest]|].
  - cbn [open_msg]. destruct (msg_open _ _ _ _) as [x|] eqn:E; cbn [result_bind]; [|done]. destruct (unpad x) as [y|] eqn:E2; [|done]. intros [= _ <-].
    eapply unpad_bytes; [|exact E2]. by eapply msg_open_bytes.
  - destruct (open_next s env None secret) as [[s1 x]|] eqn:E; [|done]. intros [= _ <-]. unfold open_next in E.
    destruct (if negb _ then _ else _) as [s2|]; [|done]. cbn [result_bind] in E. destruct (skip_until s2 _) as [s3|]; [|done]. cbn [result_bind] in E.
    destruct (ckr s3); [|done]. cbn [ok_or result_bind] in E. destruct (kdf_chain _); [|done]. cbn [result_bind open_msg] in E.
    destruct (msg_open _ _ _ _) as [y|] eqn:E1; [|done]. cbn [result_bind] in E. destruct (unpad y) as [z|] eqn:E2; [|done]. cbn [result_bind] in E.
    destruct (checked_add _ _ _); [|done]. cbn [ok_or result_bind] in E. injection E as _ <-. eapply unpad_bytes; [|exact E2]. by eapply msg_open_bytes.
Qed.

(** What is sealed is read back from its bytes. *)
Lemma seal_reads s plain eid s' env : session_wf s -> length eid = 16%nat -> seal_with s plain None eid = (s', Ok env) -> env_decode (env_encode env) = Ok env.
Proof.
  intros (W1 & W2 & W3 & W4 & W5 & W6 & W7 & W8 & W9 & W10 & W11 & W12 & W13 & W14 & W15) Hid. unfold seal_with.
  match goal with |- context [match ?x with Ok _ => _ | Err _ => _ end] => destruct x as [[next env']|e] eqn:E end; [|done].
  intros Hs. assert (env' = env) as -> by (destruct (checked_add _ _ _); [by injection Hs|done]).
  destruct (pad plain) as [padded|] eqn:Ep; [|done]. cbn [result_bind] in E. destruct (cks s) as [ck|]; [|done]. cbn [ok_or result_bind] in E.
  destruct (kdf_chain ck) as [step|]; [|done]. cbn [result_bind] in E. unfold msg_seal in E. destruct (xchacha_seal _ _ _ _) as [[c t]|] eqn:Ex; [|done]. cbn in E. injection E as <- <-.
  apply Hc in Ex as (L1 & L2 & _). apply pad_length in Ep. apply env_sized_decodes; cbn; [done| |].
  - split_and!; try done. by destruct (pending_init s).
  - assert (zlen padded <= 16384 /\ 0 <= zlen padded) as [? ?] by (unfold PAD_BUCKETS in Ep; set_unfold; unfold zlen in *; lia).
    rewrite zlen_app. unfold MAX_CIPHERTEXT, zlen in *. lia.
Qed.

(** Sealing for a contact whose state knows the ledger. *)
Lemma seal_session_fits L p st plain ek ratchet eid :
  array 32 p -> array 32 ratchet -> length eid = 16%nat -> fresh L ratchet -> fits L p st ->
  let '(st', r) := seal_session me p plain ek ratchet eid st in
  fits L p st' /\ forall env, r = Ok env -> fits (issue p env L) p st' /\ (ledger_ok L -> ledger_ok (issue p env L)).
Proof.
  intros Hp Hr Heid [Hu Hn] Hf. unfold seal_session. pose proof Hf as (F1 & F2 & F3 & F4 & F5).
  destruct (match session st with Some s => Ok s | None => _ end) as [s|e] eqn:Es; [|done].
  assert (session_wf s /\ session_fits (used L) (issued (acct L p)) s) as [Hwf Hsf].
  { destruct (session st) as [s0|] eqn:E0.
    - injection Es as <-. split; [|by apply F4]. by apply F1.
    - split; [eapply (initiator_wf Hz); [apply Hme|exact Hp|exact Hr|apply Hmg|exact Es]|]. eapply initiator_fits; [exact Hu| |exact Es]. intros e. apply Hn. }
  pose proof (seal_with_wf Hz s plain None eid Hwf) as Hw'. destruct (seal_with s plain None eid) as [s' r] eqn:E. cbn [fst] in Hw'.
  destruct (seal_fits _ _ _ _ _ _ _ Hsf E) as [G1 G2]. split.
  - apply fits_session; [|done]. by intros ? [= <-].
  - intros env ->. destruct (G2 env eq_refl) as (K1 & K2 & K3). split; [|apply ledger_ok_issue; [done|split; [done|]; exact (seal_reads _ _ _ _ _ Hwf Heid E)]]. unfold fits, issue. rewrite acct_set_eq. cbn.
    split_and!; try done; try lia.
    + apply wf_session; [|done]. by intros ? [= <-].
    + by intros ? [= <-].
Qed.

(** What is decided on an envelope that arrives. *)
Lemma open_envelope_fits L p st env secret secret' s pt replaced ek :
  array 32 p -> env_wf env -> array 32 secret -> array 32 secret' -> fresh L secret -> fresh L secret' -> fits L p st ->
  open_envelope me p env secret secret' st = OOpen s pt replaced ek ->
  session_wf s /\ session_fits (used L) (issued (acct L p)) s /\ (forall k, ek = Some k -> array 32 k) /\ bytes_ok pt.
Proof.
  intros Hp (Hid & Hh & Hct & _) Hs Hs' [Hu Hn] [Hu' Hn'] (F1 & F2 & F3 & F4 & F5). unfold open_envelope. destruct (bool_decide _); [done|].
  assert (forall rp k, init_ek (header env) = Some k -> accept_fresh me p env rp k secret' = OOpen s pt replaced ek ->
    session_wf s /\ session_fits (used L) (issued (acct L p)) s /\ (forall k, ek = Some k -> array 32 k) /\ bytes_ok pt) as Hfresh.
  { intros rp k Hk. unfold accept_fresh. destruct (Ratchet.accept me p env secret') as [[s0 pt0]|] eqn:Ea; [|done]. intros [= <- <- <- <-].
    split_and!; [eapply accept_wf; [exact Hp|exact Hs'|exact Hh|exact Ea]|eapply accept_fits; [exact Hu'| |exact Ea]; intros e; apply Hn'| |].
    - intros ? [= <-]. destruct Hh as (_ & _ & _ & Hek). by rewrite Hk in Hek.
    - unfold Ratchet.accept in Ea. destruct (init_ek (header env)); [|done]. cbn [ok_or result_bind] in Ea. destruct (new_responder _ _ _) as [s1|]; [|done].
      cbn [result_bind] in Ea. unfold Ratchet.open in Ea. destruct (open_with s1 env None secret') as [s2 [pt2|]] eqn:Eo; [|done]. injection Ea as <- <-. by eapply open_bytes. }
  destruct (session st) as [s0|] eqn:Es.
  - destruct (open_with s0 env None secret) as [s1 [pt1|]] eqn:Eo.
    + intros [= <- <- <- <-]. split_and!; [|eapply open_fits; [exact Hu| | |exact Eo]; [intros e; apply Hn|by apply F4]|done|by eapply open_bytes].
      pose proof (open_with_wf Hz s0 env None secret Hh Hs) as Hw. rewrite Eo in Hw. apply Hw. by apply F1.
    + destruct (init_ek (header env)) as [k|] eqn:Ek; [|done]. destruct (_ || _); [done|]. destruct (_ && _); [done|]. by apply Hfresh.
  - destruct (init_ek (header env)) as [k|] eqn:Ek; [|done]. destruct (bool_decide _); [done|]. by apply Hfresh.
Qed.

(** The session moves on. *)
Lemma fits_commit L p st s ek : session_wf s -> session_fits (used L) (issued (acct L p)) s -> (forall k, ek = Some k -> array 32 k) -> fits L p st ->
  fits L p (match ek with Some k => remember_ek k (set_session (Some s) st) | None => set_session (Some s) st end).
Proof.
  intros Hw Hs Hk Hf. assert (fits L p (set_session (Some s) st)) as H1 by (apply fits_session; [|done]; by intros ? [= <-]).
  destruct ek as [k|]; [|done]. apply fits_ek; [by apply Hk|done].
Qed.

End Ends.
