(* ===== verification/DiskFrame.v ===== *)
(** * DiskFrame: which files a program touches

    [touches T m]: the program [m] changes only files whose names satisfy [T],
    and only uses up fates.  The relation goes through every construct, so that
    a program is checked against the names it writes by one tactic; what it
    leaves alone can then be carried over it.  The log and document operations
    follow. *)

From S2P Require Import Prelude Bytes Text Codec ErasureCode Dissolve Disk SealedState SealedLog SealedRewrite Journal.

(** The second world has the same files outside [T]. *)
Definition same_but (T : bytes -> Prop) (w w' : World) : Prop :=
  (forall q, ~ T q -> files w' !! q = files w !! q) /\ fates w' `suffix_of` fates w.

Definition touches {A} (T : bytes -> Prop) (m : Disk A) : Prop := forall w, same_but T w (m w).1.

Lemma same_but_refl T w : same_but T w w.
Proof. done. Qed.

Lemma same_but_trans T w1 w2 w3 : same_but T w1 w2 -> same_but T w2 w3 -> same_but T w1 w3.
Proof. intros [H1 F1] [H2 F2]. split; [|by etransitivity]. intros q Hq. by rewrite H2, H1. Qed.

Lemma same_but_mono (T T' : bytes -> Prop) w w' : (forall q, T q -> T' q) -> same_but T w w' -> same_but T' w w'.
Proof. intros HT [H1 F1]. split; [|done]. intros q Hq. apply H1. auto. Qed.

Lemma touches_mono {A} (T T' : bytes -> Prop) (m : Disk A) : (forall q, T q -> T' q) -> touches T m -> touches T' m.
Proof. intros HT Hm w. eapply same_but_mono; [exact HT|apply Hm]. Qed.

Lemma touches_ret {A} T (a : A) : touches T (ret a).
Proof. done. Qed.
Lemma touches_die {A} T : touches T (@die World A).
Proof. done. Qed.
Lemma touches_get T p : touches T (get p).
Proof. done. Qed.
Lemma touches_fate T : touches T fate.
Proof. intros w. split; [|apply frugal_fate]. intros q _. unfold fate. by destruct (fates w). Qed.
Lemma touches_put (T : bytes -> Prop) p f : T p -> touches T (put p f).
Proof. intros Hp w. split; [|done]. intros q Hq. cbn. rewrite lookup_insert_ne; [done|]. by intros ->. Qed.
Lemma touches_drop (T : bytes -> Prop) p : T p -> touches T (drop_file p).
Proof. intros Hp w. split; [|done]. intros q Hq. cbn. rewrite lookup_delete_ne; [done|]. by intros ->. Qed.

(** With what the first part returned. *)
Lemma touches_bind_eq {A B} T (m : Disk A) (k : A -> Disk B) :
  touches T m -> (forall w w' a, m w = (w', Some a) -> touches T (k a)) -> touches T (bind m k).
Proof.
  intros Hm Hk w. unfold bind. specialize (Hm w). destruct (m w) as [w' [a|]] eqn:E; cbn in *; [|done].
  eapply same_but_trans; [exact Hm|]. by eapply Hk.
Qed.

Lemma touches_bind {A B} T (m : Disk A) (k : A -> Disk B) : touches T m -> (forall a, touches T (k a)) -> touches T (bind m k).
Proof. intros Hm Hk. apply touches_bind_eq; [done|]. intros. apply Hk. Qed.

Lemma touches_try_eq {A B E} T (m : Disk (result A E)) (k : A -> Disk (result B E)) :
  touches T m -> (forall w w' a, m w = (w', Some (Ok a)) -> touches T (k a)) -> touches T (try_bind m k).
Proof. intros Hm Hk. apply touches_bind_eq; [done|]. intros w w' [a|e] E1; [by eapply Hk|apply touches_ret]. Qed.

Lemma touches_try {A B E} T (m : Disk (result A E)) (k : A -> Disk (result B E)) :
  touches T m -> (forall a, touches T (k a)) -> touches T (try_bind m k).
Proof. intros Hm Hk. apply touches_bind; [done|]. intros [a|e]; [done|apply touches_ret]. Qed.

Create HintDb touches.
#[export] Hint Resolve touches_ret touches_die touches_get touches_fate touches_put touches_drop : touches.

Ltac touches :=
  repeat first [progress eauto with touches nocore
               | apply touches_bind; [|intros ?] | apply touches_try; [|intros ?]
               | match goal with |- touches _ (match ?x with _ => _ end) => destruct x eqn:? end
               | match goal with |- touches _ (let _ := _ in _) => cbv zeta end ].

Section Ops.
Context (T : bytes -> Prop).

Lemma touches_try_io : touches T try_io.
Proof. unfold try_io. touches. Qed.
Lemma touches_exists p : touches T (exists_file p).
Proof. unfold exists_file. touches. Qed.
Lemma touches_write_at p n d : T p -> touches T (write_at p n d).
Proof. intros. unfold write_at. touches. Qed.
Lemma touches_write_file p d : T p -> touches T (write_file p d).
Proof. intros. unfold write_file. touches. Qed.
Lemma touches_set_len p n : T p -> touches T (set_len p n).
Proof. intros. unfold set_len. touches. Qed.
Lemma touches_sync p : T p -> touches T (sync_file p).
Proof. intros. unfold sync_file. touches. Qed.
Lemma touches_rename p q : T p -> T q -> touches T (rename p q).
Proof. intros. unfold rename. touches. Qed.
Lemma touches_remove p : T p -> touches T (remove_file p).
Proof. intros. unfold remove_file. touches. Qed.
End Ops.

#[export] Hint Resolve touches_try_io touches_exists touches_write_at touches_write_file touches_set_len touches_sync touches_rename touches_remove : touches.

Lemma touches_restricted (T : bytes -> Prop) p d : T p -> touches T (write_restricted p d).
Proof. intros. unfold write_restricted. touches. Qed.
#[export] Hint Resolve touches_restricted : touches.

(** A program that touches nothing of interest keeps what is said of it. *)
Lemma runs_touches {A} T (m : Disk A) w Q D :
  touches T m -> runs m w Q D -> runs m w (fun a w' => Q a w' /\ same_but T w w') (fun w' => D w' /\ same_but T w w').
Proof. intros Hm Hr. unfold runs in *. specialize (Hm w). destruct (m w) as [w' [a|]]; cbn in *; auto. Qed.

Lemma disk_runs_any {A} (m : Disk A) w : runs m w (fun _ _ => True) (fun _ => True).
Proof. unfold runs. by destruct (m w) as [w' [a|]]. Qed.

(** ** Documents and logs *)

Section Sealed.
Context `{Crypto} `{StateCipher} (T : bytes -> Prop).

Lemma touches_lift {A} (o : outcome (result A StateError)) : touches T (lift o).
Proof. unfold lift. touches. Qed.

Lemma touches_stage path sealed durable : T (staged_tmp path) -> touches T (stage_sealed path sealed durable).
Proof. intros. unfold stage_sealed. touches. Qed.

Lemma stage_name path sealed durable w w' tmp : stage_sealed path sealed durable w = (w', Some (Ok tmp)) -> tmp = staged_tmp path.
Proof.
  unfold stage_sealed, bind. destruct (write_restricted _ _ _) as [w1 [[]|]]; cbn [negb]; [|destruct (remove_file _ w1) as [? [?|]]; cbn; by intros [=]|done].
  destruct durable; [|cbn; by intros [=]]. destruct (sync_file _ w1) as [? [[]|]]; cbn; by intros [=].
Qed.

Lemma touches_write_sealed path sealed durable : T path -> T (staged_tmp path) -> touches T (write_sealed path sealed durable).
Proof.
  intros Hp Ht. apply touches_try_eq; [by apply touches_stage|]. intros w w' tmp ->%stage_name. touches.
Qed.

Lemma touches_read keys l path ctx : touches T (read_document_as keys l path ctx).
Proof. unfold read_document_as. apply touches_bind; [apply touches_get|]. intros [f|]; [|apply touches_ret]. destruct (_ <? _); [apply touches_ret|apply touches_lift]. Qed.

Lemma touches_aside path secs : T path -> T (corrupt_aside path secs) -> touches T (set_aside path secs).
Proof. intros. unfold set_aside. touches. Qed.

Lemma touches_create keys l path salt : T path -> touches T (create_file keys l path salt).
Proof. intros. unfold create_file. apply touches_try; [apply touches_lift|]. intros c. touches. Qed.

Lemma touches_open_append keys l path salt : T path -> touches T (open_append keys l path salt).
Proof.
  intros. unfold open_append. apply touches_bind; [apply touches_try_io|]. intros r. apply touches_bind; [apply touches_get|]. intros f. cbv zeta.
  destruct (negb r); [apply touches_ret|]. destruct (_ <? _); [destruct (_ && _); [apply touches_ret|by apply touches_create]|].
  destruct (parse_header _ _) as [s|]; [|apply touches_ret]. apply touches_try; [apply touches_lift|]. intros c. touches.
Qed.

Lemma touches_append wr nonce x : T (lw_path wr) -> touches T (append wr nonce x).
Proof. intros. unfold append. cbv zeta. destruct (_ <? _); [apply touches_ret|]. destruct (record_bytes _ _ _ _); [|apply touches_ret]. touches. Qed.

Lemma append_path wr nonce x w w' wr' r : append wr nonce x w = (w', Some (wr', r)) -> lw_path wr' = lw_path wr.
Proof.
  unfold append. cbv zeta. destruct (_ <? _); [by intros [= <- <- <-]|]. destruct (record_bytes _ _ _ _); [|by intros [= <- <- <-]].
  unfold bind. destruct (write_at _ _ _ w) as [w1 [[]|]]; cbn; [by intros [= <- <- <-]| |done].
  destruct (set_len _ _ w1) as [w2 [?|]]; [|done]. destruct (try_io w2) as [w3 [?|]]; [|done]. by intros [= <- <- <-].
Qed.

Lemma touches_use wr nonce durable x :
  T (lw_path wr) -> touches T (if (durable : bool) then append_durable wr nonce x else append wr nonce x).
Proof.
  intros Hp. destruct durable; [|by apply touches_append]. apply touches_bind_eq; [by apply touches_append|].
  intros w w' [wr' [u|e]] E%append_path; [|apply touches_ret]. unfold sync. rewrite E. touches.
Qed.

Lemma open_append_path keys l path salt w w' wr : open_append keys l path salt w = (w', Some (Ok wr)) -> lw_path wr = path.
Proof.
  assert (forall w w', create_file keys l path salt w = (w', Some (Ok wr)) -> lw_path wr = path) as Hc.
  { intros w1 w2. unfold create_file, try_bind, bind. destruct (lift _ w1) as [w3 [[c|]|]]; [|done|done]. destruct (write_restricted _ _ w3) as [w4 [[]|]]; [|done|done].
    destruct (try_io w4) as [w5 [[]|]]; [|done|done]. by intros [= <- <-]. }
  unfold open_append, bind at 1. destruct (try_io w) as [w1 [rd_|]]; [|done]. unfold bind at 1. cbn [get]. cbv zeta. destruct (negb rd_); [done|].
  destruct (_ <? _); [destruct (_ && _); [done|apply Hc]|]. destruct (parse_header _ _) as [s|]; [|done].
  unfold try_bind, bind. destruct (lift _ w1) as [w3 [[c|]|]]; [|done|done]. destruct (scan _ _) as [sc|]; [|done]. destruct (_ <? _).
  - destruct (set_len _ _ w3) as [w4 [[]|]]; [|done|done]. destruct (sync_file _ w4) as [w5 [[]|]]; [|done|done]. by intros [= <- <-].
  - destruct (try_io w3) as [w4 [[]|]]; [|done|done]. by intros [= <- <-].
Qed.

Lemma touches_put_record keys l path salt nonce durable x wr :
  T path -> (forall w, wr = Some w -> lw_path w = path) -> touches T (put_record keys l path salt nonce durable x wr).
Proof.
  intros Hp Hw. unfold put_record, with_writer. destruct wr as [wr|].
  - apply touches_bind; [|intros; apply touches_ret]. apply touches_use. by rewrite (Hw wr).
  - apply touches_bind_eq; [by apply touches_open_append|]. intros w w' [wr|e] E; [|apply touches_ret]. apply open_append_path in E.
    apply touches_bind; [|intros; apply touches_ret]. apply touches_use. by rewrite E.
Qed.

Lemma put_record_path keys l path salt nonce durable x wr w w' wr' r :
  (forall w, wr = Some w -> lw_path w = path) -> put_record keys l path salt nonce durable x wr w = (w', Some (Some wr', r)) -> lw_path wr' = path.
Proof.
  intros Hw. unfold put_record, with_writer.
  assert (forall w0 v, (let* r0 := (if (durable : bool) then append_durable v nonce x else append v nonce x) in
    ret (match r0 with (wr1, Ok _) => (Some wr1, Ok tt) | (_, Err e) => (None, Err e) end)) w0 = (w', Some (Some wr', r)) -> lw_path wr' = lw_path v) as Hu.
  { intros w0 v. unfold bind at 1. set (m := if durable then _ else _). destruct (m w0) as [w1 [[v1 [u|e]]|]] eqn:E; [|done|done]. intros [= <- <- <-].
    subst m. destruct durable; [|by eapply append_path]. unfold append_durable, bind in E. destruct (append v nonce x w0) as [w2 [[v2 [u2|e2]]|]] eqn:E2; [| done|done].
    destruct (sync v2 w2) as [w3 [[?|?]|]]; [|done|done]. injection E as <- <- _. by eapply append_path. }
  destruct wr as [v|]; [intros E%Hu; rewrite E; by apply Hw|]. unfold bind at 1. destruct (open_append _ _ _ _ w) as [w1 [[v|e]|]] eqn:E; [|done|done].
  intros E1%Hu. rewrite E1. by eapply open_append_path.
Qed.

(** A rewrite keeps its two names. *)
Definition rewrites (dest tmp : bytes) (rw : LogRewrite) : Prop := rw_dest rw = dest /\ rw_tmp rw = tmp /\ lw_path (rw_writer rw) = tmp.

Lemma begin_names keys l dest tmp salt w w' rw : rewrite_begin keys l dest tmp salt w = (w', Some (Ok rw)) -> rewrites dest tmp rw.
Proof.
  unfold rewrite_begin, create_file, try_bind, bind. destruct (lift _ w) as [w3 [[c|]|]]; [|done|done].
  destruct (write_restricted _ _ w3) as [w4 [[]|]]; [|done|done]. destruct (try_io w4) as [w5 [[]|]]; [|done|done]. by intros [= <- <-].
Qed.

Lemma items_names dest tmp items rw w w' rw' b : rewrites dest tmp rw -> rewrite_items rw items w = (w', Some (rw', b)) -> rewrites dest tmp rw'.
Proof.
  revert rw w. induction items as [|[n x] items IH]; intros rw w Hrw; cbn [rewrite_items]; [by intros [= <- <- <-]|].
  unfold bind, rewrite_append, bind. destruct (append _ _ _ w) as [w1 [[wr r]|]] eqn:E; [|done]. apply append_path in E. destruct Hrw as (H1 & H2 & H3).
  assert (rewrites dest tmp (mkRewrite wr (rw_tmp rw) (rw_dest rw))) as Hrw' by (split_and!; cbn; congruence).
  cbn. destruct r; [by apply IH|]. by intros [= <- <- <-].
Qed.

Lemma touches_items dest tmp items rw : T tmp -> rewrites dest tmp rw -> touches T (rewrite_items rw items).
Proof.
  intros Ht. revert rw. induction items as [|[n x] items IH]; intros rw Hrw; cbn [rewrite_items]; [apply touches_ret|]. pose proof Hrw as (H1 & H2 & H3).
  apply touches_bind_eq.
  - unfold rewrite_append. apply touches_bind; [apply touches_append; by rewrite H3|intros; apply touches_ret].
  - intros w w' [rw' r] E. destruct r; [|apply touches_ret]. apply IH. revert E. unfold rewrite_append, bind.
    destruct (append _ _ _ w) as [w1 [[wr r']|]] eqn:E; [|done]. apply append_path in E. unfold ret. intros E2. simplify_eq/=. split_and!; cbn; congruence.
Qed.

Lemma touches_drop_rewrite dest tmp rw : T tmp -> rewrites dest tmp rw -> touches T (rewrite_drop rw).
Proof. intros Ht (_ & H2 & _). unfold rewrite_drop. rewrite H2. touches. Qed.

Lemma finish_name rw w w' t : rewrite_finish rw w = (w', Some (Ok t)) -> t = rw_tmp rw.
Proof.
  unfold rewrite_finish, bind. destruct (sync _ w) as [w2 [[u|e]|]]; [by intros [= <- <-]|destruct (rewrite_drop rw w2) as [? [?|]]; by intros [=]|done].
Qed.

Lemma touches_commit dest tmp rw : T dest -> T tmp -> rewrites dest tmp rw -> touches T (commit rw).
Proof.
  intros Hd Ht Hrw. pose proof Hrw as (H1 & H2 & H3). unfold commit. apply touches_try_eq.
  - unfold rewrite_finish, sync. rewrite H3. apply touches_bind; [touches|]. intros r. destruct r; [apply touches_ret|].
    apply touches_bind; [by eapply touches_drop_rewrite|]. intros; apply touches_ret.
  - intros w w' t ->%finish_name. rewrite H1, H2. touches.
Qed.

Lemma touches_begin keys l dest tmp salt : T tmp -> touches T (rewrite_begin keys l dest tmp salt).
Proof. intros Ht. unfold rewrite_begin. apply touches_try; [by apply touches_create|intros; apply touches_ret]. Qed.

Lemma touches_rewrite_log keys l dest tmp salt items : T dest -> T tmp -> touches T (rewrite_log keys l dest tmp salt items None).
Proof.
  intros Hd Ht. unfold rewrite_log. apply touches_try_eq; [by apply touches_begin|]. intros w w' rw Hrw%begin_names.
  apply touches_bind_eq; [by eapply touches_items|]. intros w1 w2 [rw' b] E. apply (items_names dest tmp) in E; [|done].
  destruct b; cbv beta iota; [by eapply (touches_commit dest tmp)|]. apply touches_bind; [by eapply touches_drop_rewrite|]. intros; apply touches_ret.
Qed.

Lemma touches_overwrite path keep noise : T path -> touches T (overwrite_after path keep noise).
Proof. intros. unfold overwrite_after. touches. Qed.

(** Writing sealed bytes, flushed or not, puts them whole or leaves the file. *)
Lemma runs_write_any (Hc : cipher_correct) (Ht : cipher_total) (Hk : hkdf_total) path sealed durable w :
  runs (write_sealed path sealed durable) w
    (fun r w' => match r with
                 | Ok _ => exists s, at_file path (Some (mkFile sealed s)) w' /\ (durable = true -> s = length sealed)
                 | Err _ => at_file path (files w !! path) w'
                 end /\ others {[path; staged_tmp path]} w w')
    (fun w' => ((exists s, at_file path (Some (mkFile sealed s)) w' /\ (durable = true -> s = length sealed)) \/ at_file path (files w !! path) w') /\
               others {[path; staged_tmp path]} w w').
Proof.
  destruct durable.
  { eapply runs_mono; [by apply runs_write_sealed| |]; cbn beta.
    - intros [u|e] w' [H1 Ho]; [split; [eexists; eauto|done]|done].
    - intros w' [[H1|H1] Ho]; (split; [|done]); [left; eauto|by right]. }
  pose proof (staged_ne path) as Hne. unfold write_sealed, stage_sealed. apply runs_try. apply runs_bind, runs_restricted.
  - intros w1 Ho Hf. cbn [negb]. apply runs_ret, runs_bind. eapply (runs_rename _ _ _ _ _ _ Hne Hf).
    + intros w2 Ho2 _ Hq. assert (others {[path; staged_tmp path]} w w2).
      { eapply others_trans; [eapply others_mono; [|exact Ho]; set_solver|eapply others_mono; [|exact Ho2]; set_solver]. }
      assert (exists s, at_file path (Some (mkFile sealed s)) w2 /\ (false = true -> s = length sealed)) by (by exists 0%nat).
      split; [apply runs_ret; by split|split; [by left|done]].
    + intros w2 Ho2 _ Hq. assert (others {[path; staged_tmp path]} w w2) as Hw2.
      { eapply others_trans; [eapply others_mono; [|exact Ho]; set_solver|eapply others_mono; [|exact Ho2]; set_solver]. }
      assert (at_file path (files w !! path) w2) as Hp2 by (unfold at_file in *; rewrite Hq; apply Ho; set_solver).
      split; [|by auto]. apply runs_bind, runs_remove; intros w3 Ho3 _;
        (assert (others {[path; staged_tmp path]} w w3 /\ at_file path (files w !! path) w3) as [? ?];
          [split; [eapply others_trans; [exact Hw2|]; eapply others_mono; [|exact Ho3]; set_solver|unfold at_file in *; rewrite Ho3 by set_solver; done]|]);
        (split; [apply runs_ret|]); auto.
  - intros w1 Ho _. assert (forall w', others {[staged_tmp path]} w w' -> others {[path; staged_tmp path]} w w' /\ at_file path (files w !! path) w') as Hs.
    { intros w' Ho'. split; [eapply others_mono; [|exact Ho']; set_solver|]. apply Ho'. set_solver. }
    cbn [negb]. split; [|destruct (Hs w1 Ho); auto]. apply runs_bind, runs_remove; intros w2 Ho2 _;
      (destruct (Hs w2 ltac:(by eapply others_trans)); (split; [apply runs_ret|]); auto).
Qed.

End Sealed.

#[export] Hint Resolve touches_lift touches_write_sealed touches_read touches_aside touches_create touches_open_append touches_overwrite : touches.
