(* ===== verification/ChatRegime.v ===== *)
(** * ChatRegime: what the chat store promises to the engine

    The interface between the store of contacts and the engine: under which
    condition ([sr_open], [sr_dead]) the state of a contact always knows the
    ledger, through loading, evicting, changing and writing it.  The class is
    instantiated twice, for a disk on which anything may fail ([ChatGuard]) and
    for a folder that is put back to an earlier copy ([ChatRollback]).  From the
    interface follow the rules for every call of the store. *)

From S2P Require Import Prelude Bytes Text Codec ErasureCode Dissolve Disk SealedState SealedLog SealedRewrite Journal ChatOutbox Ratchet PeerState ChatProto Anchor ChatStore ChatEngine ChatLedger DiskFrame.

(** ** Names *)

Definition SLASH : Z := 47.

(** The last two bytes of a name tell the kinds of files apart. *)
Definition ext2 (q : bytes) : bytes := drop (length q - 2) q.

Lemma ext2_app a b : (2 <= length b)%nat -> ext2 (a ++ b) = ext2 b.
Proof. intros Hb. unfold ext2. rewrite length_app, drop_app_ge by lia. f_equal. lia. Qed.

Lemma hex_plain bs : bytes_ok bs -> Forall (fun c => 48 <= c <= 57 \/ 97 <= c <= 102) (hex_encode bs).
Proof.
  assert (forall n, 0 <= n < 16 -> 48 <= hex_digit n <= 57 \/ 97 <= hex_digit n <= 102) as Hd by (intros n Hn; unfold hex_digit; destruct (Z.ltb_spec n 10); lia).
  induction 1 as [|b bs [Hb1 Hb2] _ IH]; [constructor|]. cbn. unfold u8_max in Hb2. constructor; [apply Hd|constructor; [apply Hd|done]].
  - split; [by apply Z.div_pos|]. apply Z.div_lt_upper_bound; lia.
  - apply Z.mod_pos_bound. lia.
Qed.

Section Names.
Context {CR : Crypto} {RC : RatchetCrypto} (own : bytes).

(** The names of the files of the contacts are made of bytes. *)
Definition stems_ok : Prop := forall p, bytes_ok (blake3_derive FILE_NAME (own ++ p)).

Context (Hst : stems_ok).

Lemma stem_plain p c : c ∈ file_stem own p -> c <> SLASH /\ c <> 46.
Proof.
  intros Hc. assert (Forall (fun c => 48 <= c <= 57 \/ 97 <= c <= 102) (file_stem own p)) as Hf by (apply hex_plain, Forall_take, Hst).
  rewrite Forall_forall in Hf. specialize (Hf c Hc). unfold SLASH. lia.
Qed.

Lemma no_slash p e : SLASH ∉ e -> SLASH ∉ file_stem own p ++ e.
Proof. intros He [Hc|Hc]%elem_of_app; [|done]. by apply stem_plain in Hc as [? _]. Qed.

Lemma session_ext p : ext2 (session_path own p) = lit "ss".
Proof. unfold session_path. by rewrite ext2_app by (cbn; lia). Qed.
Lemma history_ext p : ext2 (history_path own p) = lit "gs".
Proof. unfold history_path. by rewrite ext2_app by (cbn; lia). Qed.
Lemma history_tmp_ext p : ext2 (history_tmp own p) = lit "mp".
Proof. unfold history_tmp. by rewrite ext2_app by (cbn; lia). Qed.
Lemma staged_ext q : ext2 (staged_tmp q) = lit "mp".
Proof. unfold staged_tmp. by rewrite ext2_app by (cbn; lia). Qed.

Lemma session_plain p : SLASH ∉ session_path own p.
Proof. apply no_slash. vm_compute. set_solver. Qed.
Lemma history_plain p : SLASH ∉ history_path own p.
Proof. apply no_slash. vm_compute. set_solver. Qed.
Lemma history_tmp_plain p : SLASH ∉ history_tmp own p.
Proof. apply no_slash. vm_compute. set_solver. Qed.

(** What the store of contacts writes, and what the logs write. *)
Definition guarded (q : bytes) : Prop := SLASH ∈ q \/ exists p, q = session_path own p.
Definition logname (q : bytes) : Prop := q = OUTBOX_FILE \/ exists p, q = history_path own p.

Lemma ext2_guarded q : SLASH ∉ q -> ext2 q <> lit "ss" -> ~ guarded q.
Proof. intros Hs He [?|[p ->]]; [done|]. by rewrite session_ext in He. Qed.

Lemma history_unguarded p : ~ guarded (history_path own p).
Proof. apply ext2_guarded; [apply history_plain|by rewrite history_ext]. Qed.
Lemma history_tmp_unguarded p : ~ guarded (history_tmp own p).
Proof. apply ext2_guarded; [apply history_tmp_plain|by rewrite history_tmp_ext]. Qed.
Lemma outbox_unguarded : ~ guarded OUTBOX_FILE.
Proof. apply ext2_guarded; [vm_compute; set_solver|done]. Qed.
Lemma outbox_tmp_unguarded : ~ guarded OUTBOX_TMP.
Proof. apply ext2_guarded; [vm_compute; set_solver|done]. Qed.

(** The name of an outbox that was set aside ends in a digit or a dash. *)
Lemma aside_last secs : 0 <= secs -> last (corrupt_aside OUTBOX_FILE secs) <> Some 115.
Proof.
  intros Hs Hp. pose proof (show_dec_ascii secs Hs) as Hd. unfold corrupt_aside in Hp. rewrite app_assoc in Hp.
  destruct (last (show_dec secs)) as [c|] eqn:El.
  - rewrite last_app, El in Hp. injection Hp as ->. apply last_Some in El as [l El]. rewrite El in Hd. apply Forall_app in Hd as [_ Hd]. rewrite Forall_singleton in Hd. lia.
  - rewrite last_app, El in Hp. by vm_compute in Hp.
Qed.

Lemma outbox_aside_unguarded secs : 0 <= secs -> ~ guarded (corrupt_aside OUTBOX_FILE secs).
Proof.
  intros Hs. pose proof (show_dec_ascii secs Hs) as Hd. intros [Hin|[p Hp]].
  - unfold corrupt_aside in Hin. apply elem_of_app in Hin as [Hin|Hin]; [by vm_compute in Hin; set_solver|].
    apply elem_of_app in Hin as [Hin|Hin]; [by vm_compute in Hin; set_solver|]. rewrite Forall_forall in Hd. specialize (Hd _ Hin). unfold SLASH in Hd. lia.
  - apply (aside_last secs Hs). rewrite Hp. unfold session_path. by rewrite last_app.
Qed.

Lemma outbox_aside_history secs p : 0 <= secs -> corrupt_aside OUTBOX_FILE secs <> history_path own p.
Proof. intros Hs Hp. apply (aside_last secs Hs). rewrite Hp. unfold history_path. by rewrite last_app. Qed.

Lemma logname_unguarded q : logname q -> ~ guarded q.
Proof. intros [->|[p ->]]; [apply outbox_unguarded|apply history_unguarded]. Qed.

Lemma logname_session p q : logname q -> q <> session_path own p /\ q <> staged_tmp (session_path own p).
Proof.
  intros Hl. assert (ext2 q = lit "og" \/ ext2 q = lit "gs") as He by (destruct Hl as [->|[r ->]]; [by left|right; apply history_ext]).
  split; intros ->; [rewrite session_ext in He|rewrite staged_ext in He]; by destruct He.
Qed.

Lemma logname_plain q : logname q -> SLASH ∉ q.
Proof. intros [->|[p ->]]; [vm_compute; set_solver|apply history_plain]. Qed.

End Names.

(** ** The interface *)

(** The account of [p] grows; the rest of the ledger stays. *)
Definition grows (p : bytes) (L L' : Ledger) : Prop :=
  limit L' = limit L /\ used L' = used L /\ account_le (acct L p) (acct L' p) /\ forall q, q <> p -> acct L' q = acct L q.

Lemma ledger_grows_refl p L : grows p L L.
Proof. split_and!; [done..|apply account_le_refl|done]. Qed.

Section Interface.
Context {CR : Crypto} {SC : StateCipher} {RC : RatchetCrypto} {KH : KeyedHash} {CO : Coins}.
Context (keys : StateKeys) (own : bytes) (secs_at : nat -> Z) (contacts : list bytes) (anchor0 : option Anchor).

Class StoreRegime := {
  (* the store of a running process; the disk alone *)
  sr_open : Ledger -> Store -> World -> Prop;
  sr_dead : Ledger -> World -> Prop;
  sr_open_dead L g w : sr_open L g w -> sr_dead L w;
  (* a process starts *)
  sr_start L w n : sr_dead L w -> sr_open L (new_store anchor0 n) w;
  (* a contact comes into the cache with a state that knows the ledger *)
  sr_slot L g w p : p ∈ contacts -> sr_open L g w ->
    runs (slot keys own secs_at p g) w
      (fun r w' => sr_open L r.1 w' /\ st_peers r.1 !! p = Some r.2 /\ fits L p (s_state r.2) /\
                   (forall q, logname own q -> files w' !! q = files w !! q) /\
                   (forall q wr, st_writers r.1 !! q = Some wr -> st_writers g !! q = Some wr))
      (fun w' => sr_dead L w' /\ (forall q, logname own q -> files w' !! q = files w !! q));
  (* its state is changed *)
  sr_put L g w p s st d n o : sr_open L g w -> st_peers g !! p = Some s -> fits L p st -> d = true \/ d = s_dirty s ->
    sr_open L (put_slot p (mkSlot st d n o) g) w;
  (* and written: what it knows is then known for good *)
  sr_flush L L' g w p : p ∈ contacts -> sr_open L g w -> grows p L L' ->
    (L' = L \/ exists s, st_peers g !! p = Some s /\ s_dirty s = true /\ fits L' p (s_state s)) ->
    runs (flush_slot keys own p g) w
      (fun r w' => sr_open (if is_ok r.2 then L' else L) r.1 w' /\ st_writers r.1 = st_writers g /\
                   (forall q, logname own q -> files w' !! q = files w !! q))
      (fun w' => sr_dead L w' /\ (forall q, logname own q -> files w' !! q = files w !! q));
  (* the rest of the store and of the disk do not matter *)
  sr_fields L g g' w : st_peers g' = st_peers g -> st_anchor g' = st_anchor g -> sr_open L g w -> sr_open L g' w;
  sr_frame L g w w' : same_but (fun q => ~ guarded own q) w w' -> sr_open L g w -> sr_open L g w';
  sr_dead_frame L w w' : same_but (fun q => ~ guarded own q) w w' -> sr_dead L w -> sr_dead L w';
  (* more is allowed *)
  sr_mono L L' g w : ledger_le L L' -> acct L' = acct L -> limit L' <= u64_max -> sr_open L g w -> sr_open L' g w;
  sr_mono_dead L L' w : ledger_le L L' -> acct L' = acct L -> limit L' <= u64_max -> sr_dead L w -> sr_dead L' w;
}.

(** ** Rules for the calls of the store *)

Context {R : StoreRegime} (Hst : stems_ok own).

(** The logs outside [E] stay. *)
Definition keeps (E : bytes -> Prop) (w w' : World) : Prop := forall q, logname own q -> ~ E q -> files w' !! q = files w !! q.

Lemma files_keep_refl E w : keeps E w w.
Proof. done. Qed.
Lemma keeps_trans E w1 w2 w3 : keeps E w1 w2 -> keeps E w2 w3 -> keeps E w1 w3.
Proof. intros H1 H2 q Hq He. by rewrite H2, H1. Qed.
Lemma keeps_all E w w' : (forall q, logname own q -> files w' !! q = files w !! q) -> keeps E w w'.
Proof. intros Hs q Hq _. by apply Hs. Qed.
Lemma keeps_same (T E : bytes -> Prop) w w' : (forall q, T q -> logname own q -> E q) -> same_but T w w' -> keeps E w w'.
Proof. intros HT [Hs _] q Hq He. apply Hs. intros Ht. by apply He, HT. Qed.

(** The store of a running engine. *)
Definition steady (L : Ledger) (g : Store) (w : World) : Prop :=
  sr_open L g w /\ (forall q wr, st_writers g !! q = Some wr -> lw_path wr.1 = history_path own q) /\
  Forall (fun e => r_peer e ∈ contacts) (st_ring g).

Definition sound_rest {A} (E : bytes -> Prop) (L : Ledger) (w : World) (r : Store * A) (w' : World) : Prop := steady L r.1 w' /\ keeps E w w'.
Definition sound_death (E : bytes -> Prop) (L : Ledger) (w w' : World) : Prop := sr_dead L w' /\ keeps E w w'.

Lemma steady_open L g w : steady L g w -> sr_open L g w.
Proof. by intros [? _]. Qed.

Lemma steady_frame L g w w' : same_but (fun q => ~ guarded own q) w w' -> steady L g w -> steady L g w'.
Proof. intros Hs (H1 & H2). split; [by eapply sr_frame|done]. Qed.

(** Fields that the promise does not speak of. *)
Lemma steady_fields L g g' w :
  st_peers g' = st_peers g -> st_anchor g' = st_anchor g ->
  (forall q wr, st_writers g' !! q = Some wr -> lw_path wr.1 = history_path own q) -> Forall (fun e => r_peer e ∈ contacts) (st_ring g') ->
  steady L g w -> steady L g' w.
Proof. intros Hp Ha Hw Hr (H1 & H2 & H3). split_and!; [by eapply sr_fields|done|done]. Qed.

Lemma slot_ring p g w g' s w' : slot keys own secs_at p g w = (w', Some (g', s)) -> st_ring g' = st_ring g.
Proof.
  assert (forall st g w w' r, write_peer keys own st g w = (w', Some r) -> st_ring r.1 = st_ring g) as Hwr.
  { intros st g0 w0 w1 r. unfold write_peer. destruct (st_anchor g0) as [a|].
    - unfold bind. destruct (lift _ w0) as [w2 [[sealed|e]|]]; [|by intros [= <- <-]|done]. destruct (before_write _ _ _ _ _ _ _ w2) as [w3 [b|]]; [|done].
      destruct (write_sealed _ _ _ w3) as [w4 [[u|e]|]]; [|by intros [= <- <-]|done]. destruct (after_write _ _ _ _ _ _ _ w4) as [w5 [a'|]]; [|done]. by intros [= <- <-].
    - unfold bind. destruct (write_document _ _ _ _ _ w0) as [w2 [x|]]; [|done]. by intros [= <- <-]. }
  unfold slot. destruct (st_peers (tick_store g) !! p); [by intros [= <- <- <-]|].
  unfold bind at 1. set (m := if (PEER_CACHE <=? _)%nat then _ else _). destruct (m w) as [w1 [g1|]] eqn:E1; [|done].
  assert (st_ring g1 = st_ring g) as Hr1.
  { subst m. destruct (_ <=? _)%nat; [|by injection E1 as <- <-]. unfold evict in E1. destruct (oldest _ _) as [v|]; [|by injection E1 as <- <-].
    destruct (st_peers (tick_store g) !! v) as [s0|]; [|by injection E1 as <- <-]. unfold bind in E1. destruct (s_dirty s0).
    - destruct (write_peer _ _ _ _ w) as [w2 [r|]] eqn:Ew; [|done]. apply Hwr in Ew. injection E1 as <- <-. exact Ew.
    - by injection E1 as <- <-. }
  unfold bind at 1. destruct (load_peer keys own secs_at p g1 w1) as [w2 [[[g2 st] b]|]] eqn:E2; [|done].
  assert (st_ring g2 = st_ring g1) as Hr2.
  { unfold load_peer in E2. unfold bind at 1 in E2. cbn in E2. unfold bind at 1 in E2.
    match type of E2 with context [match ?x w1 with _ => _ end] => destruct (x w1) as [w3 [found|]] end; [|done].
    destruct (st_anchor g1); [|by injection E2 as <- <- <- <-]. unfold bind in E2. destruct (anchor_check _ _ _ _ _ _ _ w3) as [w4 [[a' c]|]]; [|done].
    cbn in E2. destruct c; by injection E2 as <- <- <- <-. }
  intros [= <- <- <-]. cbn. destruct b; cbn; congruence.
Qed.

(** A contact comes into the cache. *)
Lemma steady_slot L g w p E : p ∈ contacts -> steady L g w ->
  runs (slot keys own secs_at p g) w
    (fun r w' => sound_rest E L w r w' /\ st_peers r.1 !! p = Some r.2 /\ fits L p (s_state r.2)) (sound_death E L w).
Proof.
  intros Hp (H1 & H2 & H3). pose proof (sr_slot L g w p Hp H1) as Hs. unfold runs in *. pose proof (slot_ring p g w) as Hring.
  destruct (slot keys own secs_at p g w) as [w' [[g' s]|]].
  - destruct Hs as (S1 & S2 & S3 & S4 & S5). cbn [fst snd] in *. split; [|done]. split; [|by apply keeps_all]. split_and!; [done| |].
    + intros q wr Hw. apply H2. by apply S5.
    + cbn [fst]. by rewrite (Hring g' s w' eq_refl).
  - destruct Hs as [? ?]. split; [done|by apply keeps_all].
Qed.

Lemma steady_put L g w p s st d n o : steady L g w -> st_peers g !! p = Some s -> fits L p st -> d = true \/ d = s_dirty s ->
  steady L (put_slot p (mkSlot st d n o) g) w.
Proof. intros (H1 & H2 & H3) Hp Hf Hd. split_and!; [by eapply sr_put|done|done]. Qed.

(** After [slot] the rest of a call works on the slot. *)
Lemma runs_slot {A} L g w p E (k : Store * PeerSlot -> Disk A) Q : p ∈ contacts -> steady L g w ->
  (forall g' s w', steady L g' w' -> keeps E w w' -> st_peers g' !! p = Some s -> fits L p (s_state s) ->
     runs (k (g', s)) w' Q (sound_death E L w)) ->
  runs (bind (slot keys own secs_at p g) k) w Q (sound_death E L w).
Proof.
  intros Hp Hg Hk. apply runs_bind. eapply runs_mono; [by apply (steady_slot L g w p E)| |done]. cbn beta. intros [g' s] w' ([Hs Hkp] & Hl & Hf). by apply Hk.
Qed.

Lemma death_trans E L w w1 w2 : keeps E w w1 -> sound_death E L w1 w2 -> sound_death E L w w2.
Proof. intros H1 [H2 H3]. split; [done|by eapply keeps_trans]. Qed.

(** The rule with the start of the call moved back. *)
Lemma runs_slot_from {A} L g w0 w p E (k : Store * PeerSlot -> Disk A) Q : p ∈ contacts -> steady L g w -> keeps E w0 w ->
  (forall g' s w', steady L g' w' -> keeps E w0 w' -> st_peers g' !! p = Some s -> fits L p (s_state s) ->
     runs (k (g', s)) w' Q (sound_death E L w0)) ->
  runs (bind (slot keys own secs_at p g) k) w Q (sound_death E L w0).
Proof.
  intros Hp Hg H0 Hk. apply runs_bind. eapply runs_mono; [by apply (steady_slot L g w p E)| |]; cbn beta.
  - intros [g' s] w' ([Hs Hkp] & Hl & Hf). apply Hk; try done. by eapply keeps_trans.
  - intros w'. by apply death_trans.
Qed.

Lemma steady_mono L L' g w : ledger_le L L' -> acct L' = acct L -> limit L' <= u64_max -> steady L g w -> steady L' g w.
Proof. intros H1 H2 H3 (G1 & G2). split; [by eapply sr_mono|done]. Qed.

(** The state of a contact is changed; more may be allowed from here on. *)
Lemma steady_with_peer {X} L L' g w p (f : PeerState -> PeerState * X) E : p ∈ contacts -> steady L g w ->
  ledger_le L L' -> acct L' = acct L -> limit L' <= u64_max -> (forall st, fits L p st -> fits L' p (f st).1) ->
  runs (with_peer keys own secs_at p f g) w
    (fun r w' => sound_rest E L' w r w' /\ exists st, fits L p st /\ r.2 = (f st).2 /\
       exists s, st_peers r.1 !! p = Some s /\ s_state s = (f st).1 /\ s_dirty s = true) (sound_death E L w).
Proof.
  intros Hp Hg HL Ha Hu Hf. unfold with_peer. apply runs_slot; [done|done|]. intros g' s w' Hs Hk Hl Hft.
  destruct (f (s_state s)) as [st x] eqn:Ef. apply runs_ret. pose proof (Hf _ Hft) as Hf1. rewrite Ef in Hf1. cbn [fst snd] in *. split.
  - split; [|done]. eapply steady_put; [by eapply steady_mono|done|done|by left].
  - exists (s_state s). rewrite Ef. split_and!; [done|done|]. exists (set_state st s). split_and!; [apply lookup_insert_eq|done|done].
Qed.

Lemma steady_peek {X} L g w p (f : PeerState -> X) E : p ∈ contacts -> steady L g w ->
  runs (peek_peer keys own secs_at p f g) w
    (fun r w' => sound_rest E L w r w' /\ exists st, fits L p st /\ r.2 = f st) (sound_death E L w).
Proof.
  intros Hp Hg. unfold peek_peer. apply runs_slot; [done|done|]. intros g' s w' Hs Hk Hl Hft. apply runs_ret. cbn [fst snd].
  split; [by split|]. by exists (s_state s).
Qed.

Lemma steady_rollback L g w p E : p ∈ contacts -> steady L g w ->
  runs (take_rollback keys own secs_at p g) w (sound_rest E L w) (sound_death E L w).
Proof.
  intros Hp Hg. unfold take_rollback. apply runs_slot; [done|done|]. intros g' s w' Hs Hk Hl Hft. apply runs_ret. split; [|done]. cbn [fst].
  destruct Hs as (H1 & H2 & H3). by apply (steady_fields L g' _ w').
Qed.

Lemma flush_ring p g w w' r : flush_slot keys own p g w = (w', Some r) -> st_ring r.1 = st_ring g.
Proof.
  unfold flush_slot. destruct (st_peers g !! p) as [s|]; [|by intros [= <- <-]]. destruct (s_dirty s); [|by intros [= <- <-]].
  unfold bind, write_peer. destruct (st_anchor g) as [a|].
  - unfold bind. destruct (lift _ w) as [w2 [[sealed|e]|]]; [|by intros [= <- <-]|done]. destruct (before_write _ _ _ _ _ _ _ w2) as [w3 [b|]]; [|done].
    destruct (write_sealed _ _ _ w3) as [w4 [[u|e]|]]; [|by intros [= <- <-]|done]. destruct (after_write _ _ _ _ _ _ _ w4) as [w5 [a'|]]; [|done]. by intros [= <- <-].
  - unfold bind. destruct (write_document _ _ _ _ _ w) as [w2 [[x|e]|]]; [| |done]; by intros [= <- <-].
Qed.

Lemma steady_flush_slot L L' g w p E : p ∈ contacts -> steady L g w -> grows p L L' ->
  (L' = L \/ exists s, st_peers g !! p = Some s /\ s_dirty s = true /\ fits L' p (s_state s)) ->
  runs (flush_slot keys own p g) w (fun r w' => sound_rest E (if is_ok r.2 then L' else L) w r w') (sound_death E L w).
Proof.
  intros Hp (H1 & H2 & H3) Hgr Hs. pose proof (sr_flush L L' g w p Hp H1 Hgr Hs) as Hf. unfold runs in *.
  pose proof (flush_ring p g w) as Hring. destruct (flush_slot keys own p g w) as [w' [[g' r]|]].
  - destruct Hf as (F1 & F2 & F3). cbn [fst snd] in *. split; [|by apply keeps_all]. split_and!; [done|cbn [fst]; by rewrite F2|pose proof (Hring w' (g', r) eq_refl : st_ring g' = st_ring g) as Hr; unfold fst; rewrite Hr; exact H3].
  - destruct Hf as [? ?]. split; [done|by apply keeps_all].
Qed.

Lemma steady_flush cfg L L' g w p E : defer_flush cfg = false -> p ∈ contacts -> steady L g w -> grows p L L' ->
  (L' = L \/ exists s, st_peers g !! p = Some s /\ s_dirty s = true /\ fits L' p (s_state s)) ->
  runs (flush_peer cfg keys own p g) w (fun r w' => sound_rest E (if is_ok r.2 then L' else L) w r w') (sound_death E L w).
Proof. intros Hd. unfold flush_peer. rewrite Hd. apply steady_flush_slot. Qed.

Lemma steady_flush_all L w0 E order : Forall (fun p => p ∈ contacts) order -> forall g w, steady L g w -> keeps E w0 w ->
  runs (flush_all keys own order g) w (fun r w' => steady L r.1 w' /\ keeps E w0 w') (sound_death E L w0).
Proof.
  induction 1 as [|p order Hp _ IH]; intros g w Hg Hk; cbn [flush_all]; [by apply runs_ret|]. apply runs_bind.
  eapply runs_mono; [apply (steady_flush_slot L L g w p E); [done|done|apply ledger_grows_refl|by left]| |intros w'; by apply death_trans]. cbn beta.
  intros [g' r] w' [Hs Hk']. cbn [fst snd] in Hs. assert (keeps E w0 w') by (by eapply keeps_trans).
  destruct r as [u|e]; cbn [is_ok] in Hs; [by apply IH|by apply runs_ret].
Qed.

Lemma steady_close L g w E order : Forall (fun p => p ∈ contacts) order -> steady L g w ->
  runs (close_store keys own order g) w (fun g' w' => steady L g' w' /\ keeps E w w') (sound_death E L w).
Proof.
  intros Ho Hg. unfold close_store. apply runs_bind. eapply runs_mono; [by apply (steady_flush_all L w E order)| |done]. cbn beta.
  intros r w' [Hs Hk]. apply runs_ret. split; [|done]. pose proof Hs as (_ & _ & H3). by apply (steady_fields L r.1 _ w').
Qed.

(** A program on the logs. *)
Definition on_logs (E : bytes -> Prop) (q : bytes) : Prop := ~ guarded own q /\ (logname own q -> E q).

Lemma steady_touch {A} L g w E (m : Disk A) : touches (on_logs E) m -> steady L g w ->
  runs m w (fun _ w' => steady L g w' /\ keeps E w w') (sound_death E L w).
Proof.
  intros Hm Hg. specialize (Hm w). unfold runs.
  assert (same_but (fun q => ~ guarded own q) w (m w).1) as Hs by (eapply same_but_mono; [|exact Hm]; by intros q [? _]).
  assert (keeps E w (m w).1) as Hk by (eapply keeps_same; [|exact Hm]; by intros q [_ ?]).
  destruct (m w) as [w' [a|]]; cbn [fst] in *; (split; [|done]); [by eapply steady_frame|]. eapply sr_dead_frame; [exact Hs|]. by eapply sr_open_dead, steady_open.
Qed.

(** *** The history *)

Context (cfg : StoreSettings).

Definition hist (p q : bytes) : Prop := q = history_path own p.

Lemma on_logs_history p : on_logs (hist p) (history_path own p).
Proof. split; [by apply history_unguarded|done]. Qed.
Lemma on_logs_history_tmp p E : on_logs E (history_tmp own p).
Proof.
  split; [by apply history_tmp_unguarded|]. intros [Hq|[r Hq]]; apply (f_equal ext2) in Hq; rewrite history_tmp_ext in Hq; [done|]. by rewrite history_ext in Hq.
Qed.

Lemma touches_scan T p : touches T (scan_history keys own p).
Proof. unfold scan_history. apply touches_bind; [apply touches_get|]. intros f. destruct (reader_open _ _ _) as [[[r|]|e]|]; [apply touches_ret..|apply touches_die]. Qed.

Lemma runs_scan {A} L g w0 w p E (k : list StoredMessage -> Disk A) Q : steady L g w -> keeps E w0 w ->
  (forall ms w', steady L g w' -> keeps E w0 w' -> runs (k ms) w' Q (sound_death E L w0)) ->
  runs (bind (scan_history keys own p) k) w Q (sound_death E L w0).
Proof.
  intros Hg Hk Hr. apply runs_bind. eapply runs_mono; [apply (steady_touch L g w E); [apply touches_scan|done]| |]; cbn beta.
  - intros ms w' [Hs Hk']. apply Hr; [done|by eapply keeps_trans].
  - intros w'. by apply death_trans.
Qed.

Lemma in_u64_wrap a b : in_u64 (wrapping_add u64_max a b).
Proof. unfold wrapping_add. split; [apply Z.mod_pos_bound; done|]. pose proof (Z.mod_pos_bound (a + b) (u64_max + 1) ltac:(done)). lia. Qed.

Lemma fits_last L p st : fits L p st -> in_u64 (last_ms st) /\ in_u64 (p_count st).
Proof. intros ((_ & _ & _ & _ & _ & _ & _ & Hc & Hl & _) & _). done. Qed.

Lemma steady_next_ord L g w p E : p ∈ contacts -> steady L g w ->
  runs (next_ord cfg keys own secs_at p g) w (sound_rest E L w) (sound_death E L w).
Proof.
  intros Hp Hg. unfold next_ord. destruct (negb (history_save cfg)).
  { apply runs_ret. split; [|done]. destruct Hg as (H1 & H2 & H3). by apply (steady_fields L g _ w). }
  apply runs_slot; [done|done|]. intros g1 s1 w1 Hs1 Hk1 Hl1 Hf1. apply runs_bind.
  assert (forall g2 n w2, steady L g2 w2 -> keeps E w w2 -> runs (let '(g, next) := (g2, n) in let* r := slot keys own secs_at p g in let '(g, s) := r in
    ret (put_slot p (mkSlot (s_state s) (s_dirty s) (s_used s) (Some (wrapping_add u64_max next 1))) g, next)) w2 (sound_rest E L w) (sound_death E L w)) as Hend.
  { intros g2 n w2 Hs2 Hk2. apply (runs_slot_from L g2 w w2 p E); [done|done|done|]. intros g3 s3 w3 Hs3 Hk3 Hl3 Hf3. apply runs_ret. split; [|done].
    eapply steady_put; [done|done|done|by right]. }
  destruct (s_next_ord s1) as [n|]; [apply runs_ret; by apply Hend|].
  apply (runs_scan L g1 w w1 p E); [done|done|]. intros ms w2 Hs2 Hk2. apply (runs_slot_from L g1 w w2 p E); [done|done|done|].
  intros g3 s3 w3 Hs3 Hk3 Hl3 Hf3. apply runs_ret. apply Hend; [|done]. eapply steady_put; [done|done| |by left].
  apply fits_summary; [apply in_u64_wrap|by eapply fits_last|done].
Qed.

Lemma steady_trim_ring L w0 E ring g w : Forall (fun e => r_peer e ∈ contacts) ring -> steady L g w -> keeps E w0 w ->
  runs (trim_ring cfg keys own secs_at ring g) w (fun g' w' => steady L g' w' /\ keeps E w0 w') (sound_death E L w0).
Proof.
  revert g w. induction ring as [|old ring IH]; intros g w Hr Hg Hk; cbn [trim_ring]; [by apply runs_ret|]. apply Forall_cons in Hr as [Hold Hr].
  destruct (_ <? _); [|by apply runs_ret]. apply (runs_slot_from L _ w0 w (r_peer old) E); [done| |done|].
  - destruct Hg as (H1 & H2 & H3). by apply (steady_fields L g _ w).
  - intros g3 s3 w3 Hs3 Hk3 Hl3 Hf3. apply IH; [done| |done]. eapply steady_put; [done|done| |by right]. destruct (fits_last _ _ _ Hf3) as [Hlm Hc].
    apply fits_summary; [|done|done]. unfold sat_sub. ulia.
Qed.

Lemma steady_append L g w p rec durable : steady L g w ->
  runs (append_record keys own p rec durable g) w (sound_rest (hist p) L w) (sound_death (hist p) L w).
Proof.
  intros Hg. unfold append_record. cbv zeta. set (g1 := match st_writers (tick_store g) !! p with Some _ => _ | None => _ end).
  assert (steady L g1 w /\ st_tick g1 = st_tick (tick_store g)) as [Hg1 Ht].
  { destruct Hg as (H1 & H2 & H3). assert (steady L (tick_store g) w) as Ht by (by apply (steady_fields L g _ w)). subst g1.
    destruct (st_writers (tick_store g) !! p); [done|]. destruct (_ <=? _)%nat; [|done]. destruct (oldest _ _) as [v|]; [|done]. split; [|done].
    apply (steady_fields L (tick_store g) _ w); try done. intros q wr Hq. apply (H2 q wr). cbn in Hq. by apply lookup_delete_Some in Hq as [_ ?]. }
  pose proof Hg1 as (_ & Hw1 & _).
  assert (forall v, fst <$> st_writers g1 !! p = Some v -> lw_path v = history_path own p) as Hwp.
  { intros v Hv. destruct (st_writers g1 !! p) as [x|] eqn:Ex; [|done]. injection Hv as <-. by apply Hw1. }
  apply runs_bind. set (m := put_record _ _ _ _ _ _ _ _).
  pose proof (steady_touch L g1 w (hist p) m ltac:(apply touches_put_record; [apply on_logs_history|exact Hwp]) Hg1) as Hr. unfold runs in *.
  destruct (m w) as [w' [[wr' r]|]] eqn:Em; [|done]. destruct Hr as [Hs Hk]. cbn [fst snd]. split; [|done].
  pose proof Hs as (_ & Hw2 & Hrg). apply (steady_fields L g1 _ w'); [done|done| |done|done]. cbn. intros q v Hq. destruct wr' as [wr'|].
  - apply lookup_insert_Some in Hq as [[<- <-]|[_ Hq]]; [|by apply Hw2]. cbn. by eapply put_record_path.
  - apply lookup_delete_Some in Hq as [_ Hq]. by apply Hw2.
Qed.

Lemma steady_no_writer L g w p : steady L g w -> steady L (with_writers (delete p (st_writers g)) g) w.
Proof.
  intros Hg. pose proof Hg as (_ & H2 & H3). apply (steady_fields L g _ w); try done. cbn. intros q v Hq. apply lookup_delete_Some in Hq as [_ Hq]. by apply H2.
Qed.

Lemma steady_rng L g w n : steady L g w -> steady L (with_rng n g) w.
Proof. intros Hg. pose proof Hg as (_ & H2 & H3). by apply (steady_fields L g _ w). Qed.

Lemma steady_rewrite L g0 w p keep : p ∈ contacts -> steady L g0 w ->
  runs (rewrite_history keys own secs_at p keep g0) w (sound_rest (hist p) L w) (sound_death (hist p) L w).
Proof.
  intros Hp Hg0. unfold rewrite_history. set (g := with_writers _ g0). assert (steady L g w) as Hg by (by apply steady_no_writer).
  assert (sound_death (hist p) L w w) as Hdead by (split; [by eapply sr_open_dead, steady_open|done]).
  apply runs_bind. unfold runs at 1. cbn [get]. destruct (reader_open _ _ _) as [[[r|]|e]|]; [|by apply runs_ret|by apply runs_ret|done].
  destruct (drain _ r) as [[recs r'] e]. set (kept := List.filter _ recs). cbv zeta. apply runs_bind.
  pose proof (on_logs_history p) as Hh. pose proof (on_logs_history_tmp p (hist p)) as Ht.
  set (m := rewrite_begin _ _ _ _ _). pose proof (steady_touch L g w (hist p) m ltac:(by apply touches_begin) Hg) as Hr. unfold runs in Hr. unfold runs at 1.
  destruct (m w) as [w1 [[rw|err]|]] eqn:E1; [| |done].
  2: { apply runs_ret. destruct Hr as [Hs Hk]. split; [by apply steady_rng|done]. }
  destruct Hr as [Hs1 Hk1]. subst m. apply begin_names in E1. apply runs_bind.
  set (m := rewrite_items rw _). pose proof (steady_touch L g w1 (hist p) m ltac:(by eapply touches_items) Hs1) as Hr. unfold runs in Hr. unfold runs at 1.
  destruct (m w1) as [w2 [[rw2 ok]|]] eqn:E2; [|by eapply death_trans]. destruct Hr as [Hs2 Hk2]. subst m. eapply items_names in E2; [|exact E1]. cbn [fst snd].
  assert (keeps (hist p) w w2) as Hk02 by (by eapply keeps_trans). destruct (negb ok || _).
  - apply runs_bind. eapply runs_mono; [apply (steady_touch L g w2 (hist p)); [by eapply touches_drop_rewrite|done]| |intros w3; by apply death_trans]. cbn beta.
    intros _ w3 [Hs3 Hk3]. apply runs_ret. split; [by apply steady_rng|by eapply keeps_trans].
  - apply runs_bind. eapply runs_mono; [apply (steady_touch L g w2 (hist p)); [by apply (touches_commit (on_logs (hist p)) (history_path own p) (history_tmp own p))|done]| |intros w3; by apply death_trans]. cbn beta.
    intros c w3 [Hs3 Hk3]. assert (keeps (hist p) w w3) as Hk03 by (by eapply keeps_trans). destruct c; [|apply runs_ret; split; [by apply steady_rng|done]].
    apply (runs_slot_from L _ w w3 p (hist p)); [done|by apply steady_rng|done|]. intros g4 s4 w4 Hs4 Hk4 Hl4 Hf4. apply runs_ret. split; [|done].
    eapply steady_put; [done|done| |by left]. apply fits_summary; [apply in_u64_wrap|by eapply fits_last|done].
Qed.

(** Recording a message keeps the promise, and touches only the history of its
    contact. *)
Lemma steady_record L g w p m durable : p ∈ contacts -> in_u64 (n_at_ms m) -> steady L g w ->
  runs (record_message cfg keys own secs_at p m durable g) w (sound_rest (hist p) L w) (sound_death (hist p) L w).
Proof.
  intros Hp Hm Hg. unfold record_message. apply runs_bind. eapply runs_mono; [by apply (steady_next_ord L g w p (hist p))| |done]. cbn beta.
  intros [g1 ord] w1 [Hs1 Hk1]. cbn [fst] in Hs1. apply (runs_slot_from L g1 w w1 p (hist p)); [done|done|done|]. intros g2 s2 w2 Hs2 Hk2 Hl2 Hf2.
  set (g3 := put_slot p _ g2). destruct (fits_last _ _ _ Hf2) as [Hlm Hc].
  assert (steady L g3 w2) as Hs3.
  { eapply steady_put; [done|done| |by left]. apply fits_summary; [apply in_u64_wrap| |done]. cbn. ulia. }
  cbv zeta. destruct (negb (history_save cfg)).
  - apply runs_bind. eapply runs_mono; [apply (steady_trim_ring L w (hist p))| |done]; cbn beta; [| |done|].
    + apply Forall_app. split; [apply Hs3|by apply Forall_singleton].
    + pose proof Hs3 as (_ & H2 & H3). apply (steady_fields L g3 _ w2); try done. cbn. apply Forall_app. split; [done|by apply Forall_singleton].
    + intros g4 w4 [Hs4 Hk4]. by apply runs_ret.
  - apply runs_bind. eapply runs_mono; [by apply (steady_append L g3 w2 p)| |intros w4; by apply death_trans]. cbn beta.
    intros [g4 r] w4 [Hs4 Hk4]. cbn [fst] in Hs4. assert (keeps (hist p) w w4) as Hk04 by (by eapply keeps_trans).
    destruct r as [u|e]; [|by apply runs_ret]. apply (runs_slot_from L g4 w w4 p (hist p)); [done|done|done|]. intros g5 s5 w5 Hs5 Hk5 Hl5 Hf5.
    destruct (_ <? _); [|by apply runs_ret]. apply runs_bind. eapply runs_mono; [by apply (steady_rewrite L g5 w5 p)| |intros w6; by apply death_trans]. cbn beta.
    intros [g6 r6] w6 [Hs6 Hk6]. cbn [fst] in Hs6. assert (keeps (hist p) w w6) by (by eapply keeps_trans). destruct r6; by apply runs_ret.
Qed.

Lemma steady_filter_ring L g w f : steady L g w -> steady L (filter_ring f g) w.
Proof.
  intros Hg. pose proof Hg as (_ & H2 & H3). apply (steady_fields L g _ w); try done. cbn. apply Forall_forall. intros e He.
  apply list_elem_of_In, filter_In in He as [He _]. rewrite Forall_forall in H3. by apply H3, list_elem_of_In.
Qed.

Lemma steady_delete L g w p id : p ∈ contacts -> steady L g w ->
  runs (delete_stored cfg keys own secs_at p id g) w (sound_rest (hist p) L w) (sound_death (hist p) L w).
Proof.
  intros Hp Hg. unfold delete_stored. destruct (negb (history_save cfg)).
  - cbv zeta. destruct (_ =? _)%nat; [apply runs_ret; split; [by apply steady_filter_ring|done]|].
    apply runs_slot; [done|by apply steady_filter_ring|]. intros g1 s1 w1 Hs1 Hk1 Hl1 Hf1. apply runs_ret. split; [|done]. destruct (fits_last _ _ _ Hf1) as [Hlm Hc].
    eapply steady_put; [done|done| |by left]. apply fits_summary; [|done|done]. unfold sat_sub. ulia.
  - apply (runs_scan L g w w p (hist p)); [done|done|]. intros ms w1 Hs1 Hk1. apply runs_bind.
    eapply runs_mono; [by apply (steady_rewrite L g w1 p)| |intros w2; by apply death_trans]. cbn beta. intros r w2 [Hs2 Hk2]. apply runs_ret.
    split; [done|by eapply keeps_trans].
Qed.

Lemma steady_delete_history L g0 w p noise : p ∈ contacts -> steady L g0 w ->
  runs (delete_history keys own secs_at p noise g0) w (sound_rest (hist p) L w) (sound_death (hist p) L w).
Proof.
  intros Hp Hg0. unfold delete_history. set (g := with_writers _ g0). assert (steady L g w) as Hg by (by apply steady_no_writer). cbv zeta.
  apply runs_bind, runs_exists, runs_bind. pose proof (on_logs_history p) as Hh.
  eapply runs_mono; [apply (steady_touch L g w (hist p)); [|done]| |done]; cbn beta.
  { destruct (bool_decide _); [|apply touches_ret]. unfold overwrite_and_remove. touches. }
  intros ok w1 [Hs1 Hk1]. destruct (negb ok); [by apply runs_ret|].
  apply (runs_slot_from L _ w w1 p (hist p)); [done| |done|].
  - pose proof (steady_filter_ring L g w1 (fun e => bool_decide (r_peer e = p)) Hs1) as Hf. pose proof Hf as (_ & H2 & H3).
    by apply (steady_fields L (filter_ring (fun e => bool_decide (r_peer e = p)) g) _ w1).
  - intros g2 s2 w2 Hs2 Hk2 Hl2 Hf2. apply runs_ret. split; [|done]. eapply steady_put; [done|done| |by left]. apply fits_summary; [ulia|ulia|done].
Qed.

Lemma steady_history L g w p before lim pending E : steady L g w ->
  runs (history cfg keys own p before lim pending g) w (fun _ w' => steady L g w' /\ keeps E w w') (sound_death E L w).
Proof.
  intros Hg. apply steady_touch; [|done]. unfold history. cbv zeta. apply touches_bind; [destruct (history_save cfg); [apply touches_scan|apply touches_ret]|].
  intros ms. apply touches_ret.
Qed.

(** Retention goes through the histories. *)
Definition any_hist (q : bytes) : Prop := exists p, hist p q.

Lemma keeps_any p w w' : keeps (hist p) w w' -> keeps any_hist w w'.
Proof. intros Hk q Hq Hn. apply Hk; [done|]. intros Hh. apply Hn. by exists p. Qed.

Lemma steady_sweep L w0 cutoff cs : Forall (fun c => c_peer c ∈ contacts) cs -> forall removed g w, steady L g w -> keeps any_hist w0 w ->
  runs (sweep_each cfg keys own secs_at cutoff cs removed g) w (sound_rest any_hist L w0) (sound_death any_hist L w0).
Proof.
  induction 1 as [|c cs Hp _ IH]; intros removed g w Hg Hk; cbn [sweep_each]; [by apply runs_ret|].
  destruct (negb _); [apply IH; [by apply steady_filter_ring|done]|].
  apply (runs_scan L g w0 w (c_peer c) any_hist); [done|done|]. intros ms w1 Hs1 Hk1. apply runs_bind.
  eapply runs_mono; [by apply (steady_rewrite L g w1 (c_peer c))| |]; cbn beta.
  - intros r w2 [Hs2 Hk2%keeps_any]. apply IH; [done|by eapply keeps_trans].
  - intros w2 [Hd Hk2%keeps_any]. split; [done|by eapply keeps_trans].
Qed.

End Interface.
