(* ===== verification/ChatBox.v ===== *)
(** * ChatBox: the envelopes the outbox keeps

    Every sealed envelope that waits in the outbox, in memory and in its log,
    is one the ledger knows for the contact of its message: [box_ok] and
    [box_dead], kept by every operation of the outbox over any journal. *)

From S2P Require Import Prelude Bytes Text Codec ErasureCode Dissolve Disk SealedState SealedLog SealedRewrite Journal ChatOutbox Ratchet PeerState ChatProto Anchor ChatStore ChatEngine ChatLedger.

Section Box.
(** Every id is drawn for one contact. *)
Context (contacts : list bytes) (peer_of : bytes -> bytes).

Definition known (L : Ledger) (p s : bytes) : Prop := exists env, env ∈ issued (acct L p) /\ s = env_encode env.

Definition entry_ok (L : Ledger) (e : OutEntry) : Prop :=
  entry_wf e /\ e_peer e ∈ contacts /\ e_peer e = peer_of (e_id e) /\ forall s, e_sealed e = Some s -> known L (e_peer e) s.

(** A record of the log: an entry of the right contact, or a known envelope. *)
Definition rec_ok (L : Ledger) (rec : bytes) : Prop :=
  (forall e, parse_put rec = Some e \/ parse_put_read rec = Some e -> entry_ok L e) /\
  (nth 0 rec 0 = REC_SEALED -> known L (peer_of (take 16 (drop 1 rec))) (drop 17 rec)).

Definition ledger_more (L L' : Ledger) : Prop := forall p, account_le (acct L p) (acct L' p).

Lemma known_more L L' p s : ledger_more L L' -> known L p s -> known L' p s.
Proof. intros HL (env & Hin & ->). destruct (HL p) as [[es E] _]. exists env. split; [|done]. rewrite E. apply elem_of_app. by left. Qed.

Lemma entry_ok_more L L' e : ledger_more L L' -> entry_ok L e -> entry_ok L' e.
Proof. intros HL (H1 & H2 & H3 & H4). split_and!; try done. intros s Hs. eapply known_more; [done|by apply H4]. Qed.

Lemma rec_ok_more L L' r : ledger_more L L' -> rec_ok L r -> rec_ok L' r.
Proof. intros HL [H1 H2]. split; [intros e He; eapply entry_ok_more; [done|by apply H1]|intros Hr; eapply known_more; [done|by apply H2]]. Qed.

Lemma parse_kind rec e : parse_put rec = Some e \/ parse_put_read rec = Some e -> nth 0 rec 0 = REC_PUT \/ nth 0 rec 0 = REC_PUT_READ.
Proof.
  unfold parse_put, parse_put_read. destruct rec as [|k b]; cbn [rd_u8 mbind option_bind nth]; [by intros []|].
  destruct (Z.eqb_spec k REC_PUT) as [->|]; [by left|]. destruct (Z.eqb_spec k REC_PUT_READ) as [->|]; [by right|]. cbn [negb]. by intros [].
Qed.

Lemma rec_ok_other L rec : nth 0 rec 0 <> REC_PUT -> nth 0 rec 0 <> REC_PUT_READ -> nth 0 rec 0 <> REC_SEALED -> rec_ok L rec.
Proof. intros H1 H2 H3. split; [|done]. intros e [?|?]%parse_kind; done. Qed.

Lemma plain_ok L e : entry_ok L e -> entry_ok L (plain e).
Proof. intros (H1 & H2 & H3 & H4). unfold entry_ok, entry_wf in *. destruct e; cbn in *. split_and!; try done; naive_solver. Qed.

Lemma rec_ok_entry L e : entry_ok L e -> rec_ok L (entry_record e).
Proof.
  intros He. pose proof He as (Hwf & _). split.
  - intros e' Hp. assert (e' = plain e) as ->; [|by apply plain_ok]. destruct (e_kind e) eqn:Ek.
    + destruct Hp as [Hp|Hp]; [by rewrite parse_put_entry in Hp by done; injection Hp|]. unfold entry_record in Hp. rewrite Ek in Hp. done.
    + destruct Hp as [Hp|Hp]; [unfold entry_record in Hp; by rewrite Ek in Hp|]. rewrite parse_read_entry in Hp by done. by injection Hp.
  - unfold entry_record. by destruct (e_kind e).
Qed.

Lemma rec_ok_sealed L id s : length id = 16%nat -> known L (peer_of id) s -> rec_ok L (sealed_record id s).
Proof.
  intros Hid Hk. split; [intros e [Hp|Hp]%parse_kind; done|]. intros _. change (known L (peer_of (take 16 (id ++ s))) (drop 16 (id ++ s))).
  rewrite <- Hid at 1. rewrite take_app_length. rewrite <- Hid. by rewrite drop_app_length.
Qed.

Lemma rec_ok_done L id : rec_ok L (done_record id).
Proof. by apply rec_ok_other. Qed.
Lemma rec_ok_unseal L id : rec_ok L (unseal_record id).
Proof. by apply rec_ok_other. Qed.

Lemma compacted_ok L es : Forall (entry_ok L) es -> Forall (rec_ok L) (flat_map entry_records es).
Proof.
  induction 1 as [|e es He _ IH]; [constructor|]. cbn [flat_map entry_records app]. pose proof He as ((Hid & _) & _ & Hp & Hs).
  constructor; [by apply rec_ok_entry|]. apply Forall_app. split; [|done]. destruct (e_sealed e) as [s|] eqn:Es; [|constructor].
  apply Forall_singleton. apply rec_ok_sealed; [apply Hid|]. rewrite <- Hp. by apply Hs.
Qed.

Lemma update_ok L id f es : (forall e, e_id e = id -> entry_ok L e -> entry_ok L (f e)) -> Forall (entry_ok L) es -> Forall (entry_ok L) (update_id id f es).
Proof.
  intros Hf. induction 1 as [|e es He Hes IH]; [constructor|]. cbn [update_id]. unfold has_id. case_bool_decide; constructor; auto.
Qed.

Lemma take_out_ok L id es e es' : take_out id es = Some (e, es') -> Forall (entry_ok L) es -> entry_ok L e /\ Forall (entry_ok L) es'.
Proof.
  revert es'. induction es as [|x es IH]; intros es'; cbn [take_out]; [done|]. intros Ht [Hx Hes]%Forall_cons. destruct (has_id id x); [by injection Ht as <- <-|].
  destruct (take_out id es) as [[y l]|]; [|done]. injection Ht as <- <-. destruct (IH l eq_refl Hes). split; [done|by constructor].
Qed.

Lemma set_seal_ok L e s : (forall x, s = Some x -> known L (e_peer e) x) -> entry_ok L e -> entry_ok L (set_seal e s).
Proof. intros Hs (H1 & H2 & H3 & H4). unfold entry_ok, entry_wf in *. by cbn. Qed.

Lemma find_ok L id es e : find_id id es = Some e -> Forall (entry_ok L) es -> entry_ok L e /\ e_id e = id.
Proof.
  unfold find_id. intros Hf%find_some Hes. destruct Hf as [Hin Hid]. unfold has_id in Hid. apply bool_decide_eq_true in Hid.
  rewrite Forall_forall in Hes. split; [by apply Hes, list_elem_of_In|done].
Qed.

(** Folding good records gives good entries. *)
Lemma replay_ok L st rec : rec_ok L rec -> Forall (entry_ok L) st.1 -> Forall (entry_ok L) (replay st rec).1.
Proof.
  intros [Hp Hs] He. destruct st as [es g]. cbn [fst] in He. unfold replay. destruct rec as [|k b]; [done|]. set (rec := k :: b) in *.
  destruct (Z.eqb_spec k REC_PUT) as [K1|K1].
  { destruct (parse_put rec) as [e|] eqn:E; [|done]. apply Forall_app. split; [done|]. apply Forall_singleton. apply Hp. by left. }
  destruct (Z.eqb_spec k REC_PUT_READ) as [K2|K2].
  { destruct (parse_put_read rec) as [e|] eqn:E; [|done]. apply Forall_app. split; [done|]. apply Forall_singleton. apply Hp. by right. }
  destruct (_ && _); [destruct (take_out _ es) as [[e es']|] eqn:E; [by apply (take_out_ok L) in E as [_ ?]|done]|].
  destruct (k =? REC_SEALED) eqn:Ek; cbn [andb].
  - apply Z.eqb_eq in Ek. destruct (_ && _); [|destruct (_ && _); [|done]; apply update_ok; [|done]; intros e _; by apply set_seal_ok].
    destruct (find_id _ es) as [e|]; [|done]. apply update_ok; [|done]. intros e' Hid He'. apply set_seal_ok; [|done]. intros x [= <-].
    pose proof He' as (_ & _ & Hp' & _). rewrite Hp', Hid. by apply Hs.
  - destruct (_ && _); [|done]. apply update_ok; [|done]. intros e _. by apply set_seal_ok.
Qed.

Lemma folded_ok L recs : Forall (rec_ok L) recs -> Forall (entry_ok L) (folded recs).
Proof.
  unfold folded. intros Hr. assert (Forall (entry_ok L) (@nil OutEntry, 0).1) as H0 by constructor. revert H0. generalize (@nil OutEntry, 0).
  induction Hr as [|r recs Hr _ IH]; intros st Hst; cbn [fold_left]; [done|]. apply IH. by apply replay_ok.
Qed.

Lemma budget_ok L es used : Forall (entry_ok L) es -> Forall (entry_ok L) (within_budget used es).1.
Proof.
  intros He. revert used. induction He as [|e es He _ IH]; intros used; cbn [within_budget]; [constructor|]. destruct (e_sealed e) as [s|] eqn:Es.
  - destruct (_ <? _); [specialize (IH used)|specialize (IH (used + zlen s))]; destruct (within_budget _ es); cbn in *; constructor; try done. by apply set_seal_ok.
  - specialize (IH used). destruct (within_budget used es). by constructor.
Qed.

(** ** Over a journal *)

Context {J : Journal} {JL : JournalLaws J} (cfg : OutSettings).

Definition box_dead (L : Ledger) (s : JState) : Prop := exists recs d, j_holds s recs d /\ Forall (rec_ok L) recs.
Definition box_ok (L : Ledger) (ob : Outbox) (s : JState) : Prop := box_dead L s /\ Forall (entry_ok L) (entries ob).

Lemma box_dead_more L L' s : ledger_more L L' -> box_dead L s -> box_dead L' s.
Proof. intros HL (recs & d & H1 & H2). exists recs, d. split; [done|]. eapply Forall_impl; [exact H2|]. intros r. by apply rec_ok_more. Qed.

Lemma box_more L L' ob s : ledger_more L L' -> box_ok L ob s -> box_ok L' ob s.
Proof. intros HL [H1 H2]. split; [by eapply box_dead_more|]. eapply Forall_impl; [exact H2|]. intros e. by apply entry_ok_more. Qed.

Lemma box_put_rec L s durable x coin : rec_ok L x -> box_dead L s -> runs (j_put durable x coin) s (fun _ s' => box_dead L s') (box_dead L).
Proof.
  intros Hx (recs & d & H1 & H2). eapply runs_mono; [by eapply j_put_law| |]; cbn beta.
  - intros [] s'; [intros Hj; exists (recs ++ [x]); eexists; split; [exact Hj|apply Forall_app; split; [done|by apply Forall_singleton]]|].
    intros [Hj|Hj]; [by exists recs, d|]. exists (recs ++ [x]), d. split; [done|]. apply Forall_app. split; [done|by apply Forall_singleton].
  - intros s' [Hj|Hj]; [by exists recs, d|]. exists (recs ++ [x]), d. split; [done|]. apply Forall_app. split; [done|by apply Forall_singleton].
Qed.

Lemma box_compact L ob force coin s : box_ok L ob s ->
  runs (compact_if_needed ob force coin) s (fun ob' s' => box_ok L ob' s' /\ entries ob' = entries ob) (box_dead L).
Proof.
  intros [Hd He]. unfold compact_if_needed. cbv zeta. destruct (_ || _); [|by apply runs_ret]. apply runs_bind. destruct Hd as (recs & d & H1 & H2).
  eapply runs_mono; [by eapply j_rewrite_law| |]; cbn beta.
  - intros [] s' Hj; apply runs_ret; (split; [split; [|done]|done]); [|by exists recs, d]. eexists _, _. split; [exact Hj|]. by apply compacted_ok.
  - intros s' [Hj|Hj]; [by exists recs, d|]. eexists _, _. split; [exact Hj|]. by apply compacted_ok.
Qed.

Lemma box_remove L ob id coin s : box_ok L ob s ->
  runs (remove ob id coin) s (fun r s' => box_ok L r.1 s') (box_dead L).
Proof.
  intros [Hd He]. unfold remove. destruct (take_out id (entries ob)) as [[e es]|] eqn:Et; [|by apply runs_ret].
  destruct (take_out_ok L _ _ _ _ Et He) as [_ Hes]. apply runs_bind. eapply runs_mono; [by apply (box_put_rec L); [apply rec_ok_done|]| |done]. cbn beta.
  intros _ s1 Hd1. apply runs_bind. eapply runs_mono; [apply (box_compact L); by split| |done]. cbn beta. intros ob' s2 [H2 _]. by apply runs_ret.
Qed.

Lemma box_remove_all L ids ob coin s : box_ok L ob s -> runs (remove_all ob ids coin) s (fun r s' => box_ok L r.1 s') (box_dead L).
Proof.
  revert ob coin s. induction ids as [|id ids IH]; intros ob coin s Hb; cbn [remove_all]; [by apply runs_ret|]. apply runs_bind.
  eapply runs_mono; [by apply (box_remove L)| |done]. cbn beta. intros r s1 Hb1. apply runs_bind. eapply runs_mono; [by apply IH| |done]. cbn beta.
  intros r2 s2 Hb2. by apply runs_ret.
Qed.

Lemma box_push L ob e coin s : entry_ok L e -> box_ok L ob s -> 
  runs (push cfg ob e coin) s (fun r s' => box_ok L r.1 s' /\ (is_ok r.2 = true -> last (entries r.1) = Some e)) (box_dead L).
Proof.
  intros He Hb. pose proof Hb as [Hd Hes]. unfold push. destruct (_ <=? _); [by apply runs_ret|]. destruct (_ <=? _); [by apply runs_ret|]. destruct (_ <? _); [by apply runs_ret|].
  apply runs_bind. eapply runs_mono; [by apply (box_put_rec L); [apply rec_ok_entry|]| |done]. cbn beta. intros [] s1 Hd1; apply runs_ret; [|by split]. split; [|intros _; apply last_snoc]. split; [done|].
  apply Forall_app. split; [done|by apply Forall_singleton].
Qed.

Lemma box_push_receipt L ob e coin s : entry_ok L e -> box_ok L ob s -> runs (push_receipt cfg ob e coin) s (fun r s' => box_ok L r.1 s') (box_dead L).
Proof.
  intros He Hb. unfold push_receipt. apply runs_bind. eapply runs_mono; [by apply (box_remove_all L)| |done]. cbn beta. intros r s0 [Hd Hes]. cbv zeta.
  apply runs_bind. eapply runs_mono; [by apply (box_put_rec L); [apply rec_ok_entry|]| |done]. cbn beta. intros [] s1 Hd1; apply runs_ret; (split; [done|]); [|done].
  apply Forall_app. split; [done|by apply Forall_singleton].
Qed.

Lemma box_set_sealed L ob id x coin s : length id = 16%nat -> known L (peer_of id) x -> box_ok L ob s ->
  runs (set_sealed cfg ob id x coin) s (fun r s' => box_ok L r.1 s') (box_dead L).
Proof.
  intros Hid Hk Hb. pose proof Hb as [Hd Hes]. unfold set_sealed. destruct (_ || _); [by apply runs_ret|]. destruct (find_id id (entries ob)) as [e|]; [|by apply runs_ret].
  cbv zeta. destruct (_ <? _); [by apply runs_ret|]. apply runs_bind. eapply runs_mono; [by apply (box_put_rec L); [apply rec_ok_sealed|]| |done]. cbn beta.
  intros [] s1 Hd1; apply runs_ret; (split; [done|]); [|done]. cbn. apply update_ok; [|done]. intros e' Hid' He'. apply set_seal_ok; [|done]. intros y [= <-].
  pose proof He' as (_ & _ & Hp & _). by rewrite Hp, Hid'.
Qed.

Lemma box_clear_sealed L ob id coin s : box_ok L ob s -> runs (clear_sealed ob id coin) s (fun ob' s' => box_ok L ob' s') (box_dead L).
Proof.
  intros Hb. pose proof Hb as [Hd Hes]. unfold clear_sealed. destruct (find_id id (entries ob)) as [e|]; [|by apply runs_ret]. destruct (e_sealed e); [|by apply runs_ret].
  apply runs_bind. eapply runs_mono; [by apply (box_put_rec L); [apply rec_ok_unseal|]| |done]. cbn beta. intros _ s1 Hd1. apply runs_ret. split; [done|]. cbn.
  apply update_ok; [|done]. intros e' _. by apply set_seal_ok.
Qed.

(** Memory fields other than the envelope change freely. *)
Lemma box_update L ob id f s : (forall e, entry_ok L e -> entry_ok L (f e)) -> box_ok L ob s -> box_ok L (update ob id f) s.
Proof.
  intros Hf [Hd Hes]. unfold update. destruct (find_id id (entries ob)); [|done]. split; [done|]. cbn. apply update_ok; [|done]. intros e _. apply Hf.
Qed.

Lemma filter_ok L f es : Forall (entry_ok L) es -> Forall (entry_ok L) (List.filter f es).
Proof. induction 1; [constructor|]. cbn. destruct (f x); try done; by constructor. Qed.

Lemma box_open L now secs coin s : box_dead L s ->
  runs (outbox_open cfg now secs coin) s (fun r s' => box_ok L r.1 s' /\ Forall (entry_ok L) r.2) (box_dead L).
Proof.
  intros (recs & d & H1 & H2). unfold outbox_open. apply runs_bind. eapply runs_mono; [by eapply j_load_law| |done]. cbn beta.
  intros [recs' damaged] s1 [-> Hr]. destruct (fold_left replay recs' ([], 0)) as [es g] eqn:Ef. apply runs_bind.
  assert (Forall (entry_ok L) (if damaged then [] else es)) as Hes.
  { destruct damaged; [constructor|]. destruct Hr as [Hr|[_ Hr]]; [|done]. injection Hr as <-. pose proof (folded_ok L recs' H2) as Hf. unfold folded in Hf. by rewrite Ef in Hf. }
  eapply (runs_mono _ _ (fun _ s' => box_dead L s') _ (box_dead L)); [| |done].
  - destruct damaged; [|by apply runs_ret; exists recs, d]. destruct Hr as [Hr|[-> _]]; [done|].
    eapply runs_mono; [by eapply j_aside_law| |]; cbn beta; intros; exists [], 0%nat; by split.
  - intros _ s1 Hd1. cbv zeta. set (expiry := sat_mul _ _ _). set (es0 := if damaged then [] else es) in *.
    set (old := if 0 <? expiry then List.filter (expired_text now expiry) es0 else []).
    set (es1 := if 0 <? expiry then List.filter (fun e => negb (expired_text now expiry e)) es0 else es0).
    assert (Forall (entry_ok L) es1) as H3 by (subst es1; destruct (0 <? expiry); [by apply filter_ok|done]).
    assert (Forall (entry_ok L) old) as H4 by (subst old; destruct (0 <? expiry); [by apply filter_ok|constructor]).
    pose proof (budget_ok L (List.filter (live_receipt cfg now) es1) 0 (filter_ok L _ _ H3)) as H5.
    destruct (within_budget 0 (List.filter (live_receipt cfg now) es1)) as [es' used']. cbn [fst] in H5. apply runs_bind.
    eapply runs_mono; [apply (box_compact L); by split| |done]. cbn beta. intros ob s2 [Hb _]. apply runs_ret. by split.
Qed.

End Box.
