(* ===== verification/ChatRules.v ===== *)
(** * ChatRules: the calls of the chat engine and the ledger

    Rules for the operations of the engine, proved against the interface of the
    store ([StoreRegime]) and the journal of the outbox: whatever fails and
    wherever the process dies, the state of the engine and the disk know the
    ledger ([engine_ok], [engine_dead]), and an operation adds to the ledger
    what it hands out. *)

From S2P Require Import Prelude Bytes Text Codec ErasureCode Dissolve Disk SealedState SealedLog SealedRewrite Journal ChatOutbox Ratchet PeerState ChatProto Anchor ChatStore ChatEngine ChatLedger DiskFrame ChatRegime ChatBox.

(** ** The outbox touches only its own files *)

Section Walks.
Context {CR : Crypto} {SC : StateCipher} {CO : Coins} (keys : StateKeys) (T : bytes -> Prop).

Definition own_writer (wr : option LogWriter) : Prop := forall v, wr = Some v -> lw_path v = OUTBOX_FILE.

Definition walks {A} (m : Prog SealedState A) : Prop := forall s, own_writer s.2 -> same_but T s.1 (m s).1.1 /\ own_writer (m s).1.2.

Lemma walks_ret {A} (a : A) : walks (ret a).
Proof. intros s Hs. by split. Qed.

Lemma walks_bind {A B} (m : Prog SealedState A) (k : A -> Prog SealedState B) : walks m -> (forall a, walks (k a)) -> walks (bind m k).
Proof.
  intros Hm Hk s Hs. unfold bind. destruct (Hm s Hs) as [H1 H2]. destruct (m s) as [s' [a|]]; cbn in *; [|done].
  destruct (Hk a s' H2) as [H3 H4]. split; [by eapply same_but_trans|done].
Qed.

#[local] Instance walk_journal : Journal := sealed_journal keys ChatOutbox OUTBOX_FILE OUTBOX_TMP.
Context (Tf : T OUTBOX_FILE) (Tt : T OUTBOX_TMP).

Lemma walks_put durable x coin : walks (j_put durable x coin).
Proof.
  intros [w wr] Hs. cbn [fst snd] in *. cbn [j_put walk_journal sealed_journal]. unfold sealed_put. cbn [fst snd].
  pose proof (touches_put_record T keys ChatOutbox OUTBOX_FILE (salt_at coin) (nonce_at coin) durable x wr Tf Hs w) as Ht.
  pose proof (put_record_path keys ChatOutbox OUTBOX_FILE (salt_at coin) (nonce_at coin) durable x wr w) as Hp.
  destruct (put_record _ _ _ _ _ _ _ _ _) as [w' [[wr' r]|]]; cbn in *; (split; [done|]); [|done]. intros v ->. by eapply Hp.
Qed.

Lemma walks_rewrite xs coin : walks (j_rewrite xs coin).
Proof.
  intros [w wr] Hs. cbn [fst snd] in *. cbn [j_rewrite walk_journal sealed_journal]. unfold sealed_rewrite. cbn [fst snd].
  pose proof (touches_rewrite_log T keys ChatOutbox OUTBOX_FILE OUTBOX_TMP (salt_at coin) (imap (fun i x => (nonce_at (coin + i), x)) xs) Tf Tt w) as Ht.
  destruct (rewrite_log _ _ _ _ _ _ _ _) as [w' [r|]]; by split.
Qed.

Lemma walks_load : walks j_load.
Proof.
  intros s Hs. cbn [j_load walk_journal sealed_journal]. unfold sealed_load. destruct (reader_open _ _ _) as [[[r|]|]|]; try by split.
  destruct (drain _ r) as [[ps r'] e]. by split.
Qed.

Lemma walks_aside secs : T (corrupt_aside OUTBOX_FILE secs) -> walks (j_aside secs).
Proof.
  intros Ta [w wr] Hs. cbn [fst snd] in *. cbn [j_aside walk_journal sealed_journal]. unfold sealed_aside. cbn [fst snd].
  pose proof (touches_aside T OUTBOX_FILE secs Tf Ta w) as Ht. destruct (set_aside _ _ _) as [w' [r|]]; by split.
Qed.

End Walks.

Create HintDb walks.
#[export] Hint Resolve walks_ret walks_put walks_rewrite walks_load walks_aside : walks.

Ltac walks :=
  repeat first [progress eauto with walks nocore | apply walks_bind; [|intros ?]
               | match goal with |- walks _ (match ?x with _ => _ end) => destruct x end
               | match goal with |- walks _ (let _ := _ in _) => cbv zeta end ].

Section WalkOps.
Context {CR : Crypto} {SC : StateCipher} {CO : Coins} (keys : StateKeys) (T : bytes -> Prop) (Tf : T OUTBOX_FILE) (Tt : T OUTBOX_TMP) (cfg : OutSettings).
#[local] Instance walk_journal' : Journal := sealed_journal keys ChatOutbox OUTBOX_FILE OUTBOX_TMP.

Lemma walks_compact ob force coin : walks T (compact_if_needed ob force coin).
Proof. unfold compact_if_needed. walks. Qed.
Lemma walks_remove ob id coin : walks T (remove ob id coin).
Proof. unfold remove. pose proof walks_compact. walks. Qed.
Lemma walks_remove_all ob ids coin : walks T (remove_all ob ids coin).
Proof. revert ob coin. induction ids; intros; cbn [remove_all]; pose proof walks_remove; walks. Qed.
Lemma walks_push ob e coin : walks T (push cfg ob e coin).
Proof. unfold push. walks. Qed.
Lemma walks_push_receipt ob e coin : walks T (push_receipt cfg ob e coin).
Proof. unfold push_receipt. pose proof walks_remove_all. walks. Qed.
Lemma walks_set_sealed ob id s coin : walks T (set_sealed cfg ob id s coin).
Proof. unfold set_sealed. walks. Qed.
Lemma walks_clear_sealed ob id coin : walks T (clear_sealed ob id coin).
Proof. unfold clear_sealed. walks. Qed.
Lemma walks_remove_peer ob peer coin : walks T (remove_peer ob peer coin).
Proof. unfold remove_peer. pose proof walks_remove_all. walks. Qed.
Lemma walks_open now secs coin : T (corrupt_aside OUTBOX_FILE secs) -> walks T (outbox_open cfg now secs coin).
Proof. intros. unfold outbox_open. pose proof walks_compact. walks. Qed.

End WalkOps.

(** ** The engine and the ledger *)

(** What an operation may add. *)
Definition ext (L L' : Ledger) : Prop := limit L' = limit L /\ used L' = used L /\ ledger_more L L'.

Lemma more_refl L : ledger_more L L.
Proof. intros p. apply account_le_refl. Qed.

Lemma account_le_trans a b c : account_le a b -> account_le b c -> account_le a c.
Proof.
  intros ([e1 E1] & T1 & [n1 N1]) ([e2 E2] & T2 & [n2 N2]). split_and!; [|lia|].
  - exists (e1 ++ e2). by rewrite E2, E1, app_assoc.
  - exists (n1 ++ n2). by rewrite N2, N1, app_assoc.
Qed.

Lemma more_trans L1 L2 L3 : ledger_more L1 L2 -> ledger_more L2 L3 -> ledger_more L1 L3.
Proof. intros H1 H2 p. by eapply account_le_trans. Qed.

Lemma ext_refl L : ext L L.
Proof. split_and!; [done..|apply more_refl]. Qed.
Lemma ext_trans L1 L2 L3 : ext L1 L2 -> ext L2 L3 -> ext L1 L3.
Proof. intros (A1 & B1 & C1) (A2 & B2 & C2). split_and!; [congruence..|by eapply more_trans]. Qed.

Lemma grows_ext p L L' : grows p L L' -> ext L L'.
Proof. intros (H1 & H2 & H3 & H4). split_and!; [done..|]. intros q. destruct (decide (q = p)) as [->|Hq]; [done|]. rewrite H4 by done. apply account_le_refl. Qed.

Section Rules.
Context {CR : Crypto} {SC : StateCipher} {RC : RatchetCrypto} {KH : KeyedHash} {CO : Coins}.
Context (Hc : cipher_correct) (Ht : cipher_total) (Hk : hkdf_total) (Hco : coins_sized).
Context (sk : bytes) (cfg : StoreSettings) (secs_at : nat -> Z) (me : Identity) (max_text : Z).
Context (contacts : list bytes) (peer_of : bytes -> bytes) (anchor0 : option Anchor).

Abbreviation keys := (mkKeys (Some sk)).
Abbreviation own := (id_key me).
Abbreviation ocfg := (out_settings cfg).

Context {R : StoreRegime keys own secs_at contacts anchor0} (Hst : stems_ok own) (Hdefer : defer_flush cfg = false).

#[local] Instance engine_journal : Journal := sealed_journal keys ChatOutbox OUTBOX_FILE OUTBOX_TMP.
#[local] Instance engine_laws : JournalLaws engine_journal := sealed_laws Hc Ht Hk Hco sk ChatOutbox OUTBOX_FILE OUTBOX_TMP ltac:(done).

Abbreviation box_ok := (box_ok contacts peer_of (J := engine_journal) (JL := engine_laws)).
Abbreviation box_dead := (box_dead contacts peer_of (J := engine_journal) (JL := engine_laws)).
Abbreviation entry_ok := (entry_ok contacts peer_of).
Abbreviation steady := (steady keys own secs_at contacts anchor0).
Abbreviation sound_rest := (sound_rest keys own secs_at contacts anchor0).
Abbreviation sound_death := (sound_death keys own secs_at contacts anchor0).

Definition engine_ok (L : Ledger) (c : Core) (w : World) : Prop :=
  ledger_ok L /\ steady L (c_store c) w /\ box_ok L (c_box c) (w, c_boxw c) /\ own_writer (c_boxw c).

Definition engine_dead (L : Ledger) (w : World) : Prop := ledger_ok L /\ sr_dead keys own secs_at contacts anchor0 L w /\ box_dead L (w, None).

(** The process died; the ledger may have grown. *)
Definition died (L : Ledger) (w : World) : Prop := exists L', ext L L' /\ engine_dead L' w.

Lemma box_dead_same L w w' wr wr' : files w' !! OUTBOX_FILE = files w !! OUTBOX_FILE -> box_dead L (w, wr) -> wr' = wr \/ wr' = None -> box_dead L (w', wr').
Proof.
  intros Hf (recs & d & Hj & Hr) Hw. exists recs, d. split; [|done]. cbn [j_holds engine_laws sealed_laws] in *. destruct Hw as [-> | ->].
  - unfold journal in *. cbn [fst snd] in *. destruct wr as [v|]; [|by eapply holds_same]. unfold ready in *. by rewrite Hf.
  - apply journal_holds in Hj. unfold journal. cbn [fst snd] in *. by eapply holds_same.
Qed.

Lemma ok_dead L c w : engine_ok L c w -> engine_dead L w.
Proof.
  intros (H0 & H1 & [H2 _] & _). split_and!; [done|by eapply sr_open_dead, steady_open|]. eapply box_dead_same; [done|exact H2|by right].
Qed.

Lemma dead_died L0 L w : ext L0 L -> engine_dead L w -> died L0 w.
Proof. intros. by exists L. Qed.

(** A call of the store, which may move the ledger on. *)
Lemma eng_store {X Y} (m : Store -> Disk (Store * X)) (k : Core * X -> Disk Y) L0 L c w E (Lf : X -> Ledger) P Q :
  ~ E OUTBOX_FILE -> (forall w', engine_dead L w' -> died L0 w') -> engine_ok L c w ->
  runs (m (c_store c)) w (fun r w' => (ledger_more L (Lf r.2) /\ ledger_ok (Lf r.2)) /\ sound_rest E (Lf r.2) w r w' /\ P r w') (sound_death E L w) ->
  (forall g x w', engine_ok (Lf x) (with_store g c) w' -> P (g, x) w' -> runs (k (with_store g c, x)) w' Q (died L0)) ->
  runs (bind (in_store m c) k) w Q (died L0).
Proof.
  intros HE H0 (Hok & Hs & Hb & Hw) Hm Hkk. unfold in_store, bind, runs in *. destruct (m (c_store c) w) as [w' [[g x]|]].
  - destruct Hm as ([Hx Hokx] & [Hs' Hk'] & HP). cbn [fst snd] in *. apply Hkk; [|done]. split_and!; [done|done| |done].
    cbn [c_box c_boxw with_store]. apply (box_more _ _ L (Lf x)) in Hb as [Hb1 Hb2]; [|apply Hx]. split; [|done].
    eapply box_dead_same; [|exact Hb1|by left]. apply Hk'; [by left|done].
  - destruct Hm as [Hd Hk']. apply H0. split_and!; [done|done|]. destruct Hb as [Hb _].
    eapply box_dead_same; [|exact Hb|by right]. apply Hk'; [by left|done].
Qed.

(** A call of the outbox. *)
Lemma eng_box {X Y} (m : Outbox -> Prog SealedState (Outbox * X)) (k : Core * X -> Disk Y) L0 L c w P Q :
  ext L0 L -> engine_ok L c w -> (forall ob, walks (on_logs own (eq OUTBOX_FILE)) (m ob)) ->
  (forall ob s, box_ok L ob s -> runs (m ob) s (fun r s' => box_ok L r.1 s' /\ P r) (box_dead L)) ->
  (forall ob wr x w', engine_ok L (with_box ob wr c) w' -> P (ob, x) -> runs (k (with_box ob wr c, x)) w' Q (died L0)) ->
  runs (bind (in_box m c) k) w Q (died L0).
Proof.
  intros H0 (Hok & Hs & Hb & Hw) Hwalk Hm Hkk. specialize (Hwalk (c_box c) (w, c_boxw c) Hw). specialize (Hm _ _ Hb). unfold bind, in_box, runs in *.
  destruct (m (c_box c) (w, c_boxw c)) as [[w' wr'] [[ob x]|]]; cbn [fst snd] in *; destruct Hwalk as [Hsame Hw'].
  - destruct Hm as [Hb' HP]. apply Hkk; [|done]. split_and!; [done| |done|done]. cbn [c_store with_box]. eapply steady_frame; [|exact Hs].
    eapply same_but_mono; [|exact Hsame]. by intros q [? _].
  - exists L. split; [done|]. split_and!; [done| |by eapply box_dead_same; [|exact Hm|right]].
    eapply sr_dead_frame; [|by eapply sr_open_dead, steady_open]. eapply same_but_mono; [|exact Hsame]. by intros q [? _].
Qed.

Lemma walk_names : on_logs own (eq OUTBOX_FILE) OUTBOX_FILE /\ on_logs own (eq OUTBOX_FILE) OUTBOX_TMP.
Proof.
  split; (split; [by (apply outbox_unguarded || apply outbox_tmp_unguarded)|]); [done|].
  intros [Hq|[p Hq]]; [done|]. apply (f_equal ext2) in Hq. by rewrite history_ext in Hq.
Qed.

(** *** The calls, one by one *)

Lemma runs_unit {X} (m : Disk X) w Q D : runs (bind m ret) w Q D -> runs m w Q D.
Proof. unfold runs, bind, ret. by destruct (m w) as [w1 [a|]]. Qed.

Lemma quiet_store {X Y} (m : Store -> Disk (Store * X)) (k : Core * X -> Disk Y) L0 L c w E Q :
  ~ E OUTBOX_FILE -> ext L0 L -> engine_ok L c w -> runs (m (c_store c)) w (sound_rest E L w) (sound_death E L w) ->
  (forall g x w', engine_ok L (with_store g c) w' -> runs (k (with_store g c, x)) w' Q (died L0)) ->
  runs (bind (in_store m c) k) w Q (died L0).
Proof.
  intros HE H0 Hc' Hm Hkk. apply (eng_store m k L0 L c w E (fun _ => L) (fun _ _ => True)); [done|intros w'; by apply dead_died|done| |].
  - eapply runs_mono; [exact Hm| |done]. cbn beta. intros r w' Hr. split_and!; [apply more_refl|apply Hc'|done|done].
  - intros g x w' Hg _. by apply Hkk.
Qed.

Lemma hist_outbox p : ~ hist own p OUTBOX_FILE.
Proof. unfold hist. intros Hq. apply (f_equal ext2) in Hq. by rewrite history_ext in Hq. Qed.

Lemma eng_peek {X Y} p (f : PeerState -> X) (k : Core * X -> Disk Y) L0 L c w Q :
  p ∈ contacts -> ext L0 L -> engine_ok L c w ->
  (forall g st w', engine_ok L (with_store g c) w' -> fits L p st -> runs (k (with_store g c, f st)) w' Q (died L0)) ->
  runs (bind (in_store (peek_peer keys own secs_at p f) c) k) w Q (died L0).
Proof.
  intros Hp H0 He Hkk. pose proof He as (Hok & Hs & _).
  apply (eng_store _ _ L0 L c w (fun _ => False) (fun _ => L) (fun r _ => exists st, fits L p st /\ r.2 = f st)); [by intros []|intros w'; by apply dead_died|done| |].
  - eapply runs_mono; [by apply (steady_peek keys own secs_at contacts anchor0 L _ w p f (fun _ => False))| |done]. cbn beta. intros r w' [Hr1 Hr2]. split_and!; [apply more_refl|done|done|done].
  - intros g x w' Hg (st & Hf & Hx). cbn [snd] in Hx. subst x. by apply Hkk.
Qed.

(** The slot of [p] in the cache has the state [st], not written yet. *)
Definition changed (p : bytes) (st : PeerState) (c : Core) : Prop :=
  exists s, st_peers (c_store c) !! p = Some s /\ s_state s = st /\ s_dirty s = true.

Lemma eng_change {X Y} p (f : PeerState -> PeerState * X) (k : Core * X -> Disk Y) L0 L L1 c w Q :
  p ∈ contacts -> (forall w', engine_dead L w' -> died L0 w') -> engine_ok L c w ->
  ledger_le L L1 -> acct L1 = acct L -> limit L1 <= u64_max -> (forall st, fits L p st -> fits L1 p (f st).1) ->
  (forall g st w', engine_ok L1 (with_store g c) w' -> fits L p st -> changed p (f st).1 (with_store g c) ->
     runs (k (with_store g c, (f st).2)) w' Q (died L0)) ->
  runs (bind (in_store (with_peer keys own secs_at p f) c) k) w Q (died L0).
Proof.
  intros Hp H0 He Hle Ha Hl Hf Hkk. pose proof He as (Hok & Hs & _).
  apply (eng_store _ _ L0 L c w (fun _ => False) (fun _ => L1) (fun r _ => exists st, fits L p st /\ r.2 = (f st).2 /\ changed p (f st).1 (with_store r.1 c)));
    [by intros []|done|done| |].
  - eapply runs_mono; [by apply (steady_with_peer keys own secs_at contacts anchor0 L L1 _ w p f (fun _ => False))| |done]. cbn beta.
    intros r w' [Hr1 (st & Hr2 & Hr3 & Hr4)]. split_and!; [|by eapply ledger_ok_le|done|by exists st].
    intros q. rewrite Ha. apply account_le_refl.
  - intros g x w' Hg (st & Hst' & Hx & Hch). cbn [snd fst] in *. subst x. by apply Hkk.
Qed.

Lemma eng_flush {Y} p (k : Core * result unit StoreError -> Disk Y) L0 L L1 c w Q :
  p ∈ contacts -> ext L0 L -> engine_ok L c w -> grows p L L1 -> ledger_ok L1 ->
  (L1 = L \/ exists st, changed p st c /\ fits L1 p st) ->
  (forall g x w', engine_ok (if is_ok x then L1 else L) (with_store g c) w' -> runs (k (with_store g c, x)) w' Q (died L0)) ->
  runs (bind (in_store (flush_peer cfg keys own p) c) k) w Q (died L0).
Proof.
  intros Hp H0 He Hg Hok1 Hch Hkk. pose proof He as (Hok & Hs & _).
  apply (eng_store _ _ L0 L c w (fun _ => False) (fun x => if is_ok x then L1 else L) (fun _ _ => True)); [by intros []|intros w'; by apply dead_died|done| |].
  - eapply runs_mono; [apply (steady_flush keys own secs_at contacts anchor0 cfg L L1 _ w p (fun _ => False)); try done| |done]; cbn beta.
    + destruct Hch as [->|(st & (s & S1 & S2 & S3) & Hf)]; [by left|]. right. exists s. by rewrite S2.
    + intros r w' Hr. split_and!; [|by destruct (is_ok r.2)|done|done]. destruct (is_ok r.2); [apply (grows_ext p L L1 Hg)|apply more_refl].
  - intros g x w' Hg' _. by apply Hkk.
Qed.

Lemma quiet_box {X Y} (m : Outbox -> Prog SealedState (Outbox * X)) (k : Core * X -> Disk Y) L0 L c w Q :
  ext L0 L -> engine_ok L c w -> (forall ob, walks (on_logs own (eq OUTBOX_FILE)) (m ob)) ->
  (forall ob s, box_ok L ob s -> runs (m ob) s (fun r s' => box_ok L r.1 s') (box_dead L)) ->
  (forall ob wr x w', engine_ok L (with_box ob wr c) w' -> runs (k (with_box ob wr c, x)) w' Q (died L0)) ->
  runs (bind (in_box m c) k) w Q (died L0).
Proof.
  intros H0 He Hw Hm Hkk. apply (eng_box m k L0 L c w (fun _ => True)); [done|done|done| |].
  - intros ob s Hb. eapply runs_mono; [by apply Hm| |done]. by cbn beta.
  - intros ob wr x w' Hok _. by apply Hkk.
Qed.

Lemma eng_remove {Y} id coin (k : Core * option OutEntry -> Disk Y) L0 L c w Q : ext L0 L -> engine_ok L c w ->
  (forall ob wr x w', engine_ok L (with_box ob wr c) w' -> runs (k (with_box ob wr c, x)) w' Q (died L0)) ->
  runs (bind (in_box (fun ob => remove ob id coin) c) k) w Q (died L0).
Proof.
  intros H0 He. destruct walk_names as [N1 N2]. apply quiet_box; [done|done|intros; by apply walks_remove|]. intros ob s Hb. by apply (box_remove contacts peer_of L ob id coin s).
Qed.

(** *** The envelopes of a contact are dropped *)

Definition rest_same (c c' : Core) : Prop := ev_next c' = ev_next c /\ ev_items c' = ev_items c.

Lemma rest_trans c1 c2 c3 : rest_same c1 c2 -> rest_same c2 c3 -> rest_same c1 c3.
Proof. intros [A1 B1] [A2 B2]. split; congruence. Qed.

Lemma eng_clear L0 L ids coin c w : ext L0 L -> engine_ok L c w ->
  runs (clear_each keys ids coin c) w (fun c' w' => engine_ok L c' w' /\ rest_same c c') (died L0).
Proof.
  intros H0. destruct walk_names as [N1 N2]. revert coin c w. induction ids as [|id ids IH]; intros coin c w He; cbn [clear_each]; [by apply runs_ret|].
  apply (quiet_box _ _ L0 L); [done|done| | |].
  - intros ob. unfold unit_box. apply walks_bind; [by apply walks_clear_sealed|]. intros. apply walks_ret.
  - intros ob s Hb. unfold unit_box. apply runs_bind. eapply runs_mono; [by apply (box_clear_sealed contacts peer_of L ob id coin s)| |done]. cbn beta. intros ob' s' Hb'. by apply runs_ret.
  - intros ob wr x w' He'. eapply runs_mono; [by apply IH| |done]. cbn beta. intros c' w'' [H1 H2]. by split.
Qed.

Lemma eng_void L0 L p coin c w : ext L0 L -> engine_ok L c w ->
  runs (void_sealed keys p coin c) w (fun c' w' => engine_ok L c' w' /\ rest_same c c') (died L0).
Proof. apply eng_clear. Qed.

Lemma eng_settle L0 L p coin c w : p ∈ contacts -> ext L0 L -> engine_ok L c w ->
  runs (settle_rollback keys secs_at me p coin c) w (fun c' w' => engine_ok L c' w' /\ rest_same c c') (died L0).
Proof.
  intros Hp H0 He. unfold settle_rollback. apply (quiet_store _ _ L0 L c w (fun _ => False)); [by intros []|done|done| |].
  - apply steady_rollback; [done|]. apply He.
  - intros g x w' He'. cbn [fst snd]. destruct x; [|by apply runs_ret]. eapply runs_mono; [by apply (eng_void L0 L)| |done]. cbn beta. intros c' w'' [? ?]. by split.
Qed.

(** ** Sending *)

Context (Hz : kdf_sized) (Hmg : montgomery_sized) (Hop : cipher_opens) (Hme : identity_wf me).
Context (Hcon : Forall (array 32) contacts) (Hmax : max_text <= MAX_TEXT).

(** An operation comes to an end with [O] of the ledger and its result. *)
Definition lands {X} (L0 : Ledger) (O : Ledger -> Core -> X -> Prop) (r : Core * X) (w : World) : Prop :=
  exists L, ext L0 L /\ engine_ok L r.1 w /\ O L r.1 r.2.

Lemma lands_at {X} L0 L (O : Ledger -> Core -> X -> Prop) c x w : ext L0 L -> engine_ok L c w -> O L c x -> lands L0 O (c, x) w.
Proof. intros. by exists L. Qed.

Lemma contact_array p : p ∈ contacts -> array 32 p.
Proof. intros Hp. rewrite Forall_forall in Hcon. by apply Hcon. Qed.

Lemma grows_set p a L : account_le (acct L p) a -> grows p L (set_acct p a L).
Proof. intros Ha. split_and!; [done..|by rewrite acct_set_eq|]. intros q Hq. by apply acct_set_ne. Qed.

Lemma grows_issue p e L : grows p L (issue p e L).
Proof. apply grows_set. split_and!; [by exists [e]|cbn; lia|by exists []; rewrite app_nil_r]. Qed.
Lemma grows_give p n L : top (acct L p) <= n -> grows p L (give p n L).
Proof. intros. apply grows_set. split_and!; [by exists []; rewrite app_nil_r|done|by exists []; rewrite app_nil_r]. Qed.
Lemma grows_take p n L : grows p L (take_number p n L).
Proof. apply grows_set. split_and!; [by exists []; rewrite app_nil_r|cbn; lia|by exists [n]]. Qed.

(** A program that changes the state of a contact within the ledger. *)
Lemma eng_edit {X Y} p (f : PeerState -> PeerState * X) (k : Core * X -> Disk Y) L0 L c w Q :
  p ∈ contacts -> ext L0 L -> engine_ok L c w -> limit L <= u64_max -> (forall st, fits L p st -> fits L p (f st).1) ->
  (forall g st w', engine_ok L (with_store g c) w' -> fits L p st -> changed p (f st).1 (with_store g c) ->
     runs (k (with_store g c, (f st).2)) w' Q (died L0)) ->
  runs (bind (in_store (with_peer keys own secs_at p f) c) k) w Q (died L0).
Proof.
  intros Hp H0 He Hl Hf Hkk. apply (eng_change p f k L0 L L); try done. intros w'. by apply dead_died.
Qed.

(** A write that adds nothing to the ledger. *)
Lemma eng_flush_same {Y} p (k : Core * result unit StoreError -> Disk Y) L0 L c w Q :
  p ∈ contacts -> ext L0 L -> engine_ok L c w ->
  (forall g x w', engine_ok L (with_store g c) w' -> runs (k (with_store g c, x)) w' Q (died L0)) ->
  runs (bind (in_store (flush_peer cfg keys own p) c) k) w Q (died L0).
Proof.
  intros Hp H0 He Hkk. apply (eng_flush p k L0 L L); try done; [apply ledger_grows_refl|apply He|by left|]. intros g x w' He'. apply Hkk. by destruct (is_ok x).
Qed.

Lemma eng_seal L0 L p plain ek ratchet eid c w :
  p ∈ contacts -> array 32 ratchet -> length eid = 16%nat -> fresh L ratchet -> limit L <= u64_max -> ext L0 L -> engine_ok L c w ->
  runs (seal_and_flush cfg keys secs_at me p plain ek ratchet eid c) w
    (lands L0 (fun L' c' r => rest_same c c' /\ c_box c' = c_box c /\ forall env, r = Ok env -> env ∈ issued (acct L' p))) (died L0).
Proof.
  intros Hp Hr Hei Hfr Hl H0 He. unfold seal_and_flush.
  assert (forall st, fits L p st -> fits L p (seal_session me p plain ek ratchet eid st).1) as Hf.
  { intros st Hst'. pose proof (seal_session_fits Hc Hz Hmg Hop me Hme L p st plain ek ratchet eid (contact_array p Hp) Hr Hei Hfr Hst') as Hs.
    destruct (seal_session _ _ _ _ _ _ _) as [st' r]. apply Hs. }
  apply (eng_edit p _ _ L0 L); try done. intros g st w' He' Hst' Hch.
  pose proof (seal_session_fits Hc Hz Hmg Hop me Hme L p st plain ek ratchet eid (contact_array p Hp) Hr Hei Hfr Hst') as Hs.
  destruct (seal_session me p plain ek ratchet eid st) as [st' r]. cbn [fst snd] in *. destruct Hs as [_ Hs]. destruct r as [env|e].
  - destruct (Hs env eq_refl) as [Hf' Hok']. apply (eng_flush p _ L0 L (issue p env L)); try done; [apply grows_issue|by apply Hok', He'|right; by exists st'|].
    intros g' x w'' He''. destruct x as [u|e]; cbn [is_ok] in He''; apply runs_ret.
    + apply (lands_at _ (issue p env L)); [eapply ext_trans; [exact H0|apply (grows_ext p), grows_issue]|done|]. split_and!; [done|done|].
      intros ? [= <-]. unfold issue. rewrite acct_set_eq. cbn. apply elem_of_app. right. by apply list_elem_of_singleton.
    + apply (lands_at _ L); [done|done|]. by split_and!.
  - apply runs_ret. apply (lands_at _ L); [done|done|]. by split_and!.
Qed.

Lemma entry_found L c w id e : engine_ok L c w -> get_entry (c_box c) id = Some e -> entry_ok L e /\ e_id e = id.
Proof. intros (_ & _ & [_ Hes] & _) Hg. by eapply find_ok. Qed.

(** What leaves is an envelope of the ledger. *)
Lemma eng_prepare L id ek ratchet eid coin c w :
  array 32 ratchet -> length eid = 16%nat -> fresh L ratchet -> limit L <= u64_max -> engine_ok L c w ->
  runs (prepare_wire cfg keys secs_at me id ek ratchet eid coin c) w
    (lands L (fun L' c' r => rest_same c c' /\ forall b i, r = Ok (b, i) -> peer_of id ∈ contacts /\ known L' (peer_of id) b)) (died L).
Proof.
  intros Hr Hei Hfr Hl He. unfold prepare_wire. pose proof (ext_refl L) as H0.
  destruct (get_entry (c_box c) id) as [e|] eqn:Eg; [|apply runs_ret; by apply (lands_at _ L)]. destruct (entry_found _ _ _ _ _ He Eg) as [Hent Hid].
  pose proof Hent as (_ & Hp & _). apply runs_bind. eapply runs_mono; [by apply (eng_settle L L)| |done]. cbn beta. intros c1 w1 [He1 Hs1].
  destruct (get_entry (c_box c1) id) as [e1|] eqn:Eg1; [|apply runs_ret; by apply (lands_at _ L)]. destruct (entry_found _ _ _ _ _ He1 Eg1) as [Hent1 Hid1].
  pose proof Hent1 as (Hwf1 & Hp1 & Hpo1 & Hsl1). destruct (match e_sealed e1 with Some s => _ | None => None end) as [cached|] eqn:Ec.
  { apply runs_ret. apply (lands_at _ L); [done|done|]. split; [done|]. intros b i [= ->]. destruct (e_sealed e1) as [s|] eqn:Es; [|done].
    destruct (env_decode s); [|done]. injection Ec as <- <-. rewrite <- Hid1, <- Hpo1. split; [done|by apply Hsl1]. }
  destruct (negb _); [apply runs_ret; by apply (lands_at _ L)|]. destruct (entry_plain e1) as [plain|]; [|apply runs_ret; by apply (lands_at _ L)].
  apply runs_bind. eapply runs_mono; [by apply (eng_seal L L)| |done]. cbn beta. intros [c2 r2] w2 (L2 & HL2 & He2 & Hs2 & Hb2 & Hi2). cbn [fst snd] in *.
  destruct r2 as [env|x]; [|apply runs_ret; apply (lands_at _ L2); [done|done|]; split; [by eapply rest_trans|done]].
  cbv zeta. assert (known L2 (peer_of id) (env_encode env)) as Hkn by (exists env; split; [rewrite <- Hid1, <- Hpo1; by apply Hi2|done]).
  destruct walk_names as [N1 N2]. apply (quiet_box _ _ L L2); [done|done|intros; by apply walks_set_sealed| |].
  - intros ob s Hb. apply (box_set_sealed contacts peer_of ocfg L2 ob id (env_encode env) (S coin) s); [rewrite <- Hid1; apply Hwf1|done|done].
  - intros ob wr x w3 He3. apply runs_ret. apply (lands_at _ L2); [done|done|]. cbn [snd]. split; [exact (rest_trans _ _ _ Hs1 Hs2)|].
    intros b i. destruct x; [|done]. intros [= <- <-]. split; [|done]. by rewrite <- Hid1, <- Hpo1.
Qed.

(** One more number may be given. *)
Definition raise (L : Ledger) : Ledger := mkLedger (limit L + 1) (used L) (acct L).

Lemma raise_le L : ledger_le L (raise L).
Proof. split; [cbn; lia|done]. Qed.

Lemma dead_mono L L' w : ledger_le L L' -> acct L' = acct L -> limit L' <= u64_max -> engine_dead L w -> engine_dead L' w.
Proof.
  intros Hle Ha Hl (H1 & H2 & H3). split_and!; [by eapply ledger_ok_le|by eapply sr_mono_dead|]. eapply box_dead_more; [|exact H3].
  intros q. rewrite Ha. apply account_le_refl.
Qed.

Lemma ok_mono L L' c w : ledger_le L L' -> acct L' = acct L -> limit L' <= u64_max -> engine_ok L c w -> engine_ok L' c w.
Proof.
  intros Hle Ha Hl (H1 & H2 & H3 & H4). split_and!; [by eapply ledger_ok_le|by eapply steady_mono| |done]. eapply box_more; [|exact H3].
  intros q. rewrite Ha. apply account_le_refl.
Qed.

(** A message that is queued has a number above every earlier one. *)
Lemma eng_enqueue L p text now id coin c w :
  p ∈ contacts -> peer_of id = p -> array 16 id -> text_ok text -> in_u64 now -> limit L < u64_max -> engine_ok L c w ->
  runs (enqueue cfg keys secs_at me max_text p text now id coin c) w
    (lands (raise L) (fun L' c' r => rest_same c c' /\
       forall i, r = Ok i -> exists e, last (entries (c_box c')) = Some e /\ top (acct L p) < e_seq e <= top (acct L' p))) (died (raise L)).
Proof.
  intros Hp Hpo Hid Htx Hnow Hl He. unfold enqueue. pose proof (ext_refl (raise L)) as H0.
  assert (engine_ok (raise L) c w) as He0 by (apply (ok_mono L); [apply raise_le|done|cbn; lia|done]).
  destruct (Z.eqb_spec (str_len text) 0) as [|Hne]; [apply runs_ret; by apply (lands_at _ (raise L))|].
  destruct (Z.ltb_spec max_text (str_len text)) as [|Hlen]; [apply runs_ret; by apply (lands_at _ (raise L))|].
  destruct (_ <=? _); [apply runs_ret; by apply (lands_at _ (raise L))|].
  apply (eng_change p next_seq _ (raise L) L (raise L)); try done.
  { intros w' Hd. apply (dead_died _ (raise L)); [done|]. apply (dead_mono L); [apply raise_le|done|cbn; lia|done]. }
  { apply raise_le. }
  { cbn; lia. }
  { intros st Hst'. destruct (fits_next L p st Hl Hst') as (-> & _ & ? & _). done. }
  intros g st w' He' Hst' Hch. destruct (fits_next L p st Hl Hst') as (En & Htop & _ & Hf2). rewrite En in *. cbn [fst snd] in *.
  set (n := send_seq st + 1) in *. assert (grows p (raise L) (give p n (raise L))) as Hgr by (apply grows_give; cbn; lia).
  assert (in_u64 n) as Hn by (destruct Hst' as ((_ & Hs & _) & _ & Hs2 & _); unfold n; ulia).
  apply (eng_flush p _ (raise L) (raise L) (give p n (raise L))); try done; [apply ledger_ok_give, He'|right; by eexists|].
  intros g' x w'' He''. destruct x as [u|e]; cbn [is_ok] in He''; [|apply runs_ret; by apply (lands_at _ (raise L))].
  set (e := new_entry id p n now text). pose proof (contact_array p Hp) as Hpa.
  assert (entry_ok (give p n (raise L)) e) as Hent.
  { pose proof (str_len_nonneg text). split; [|by split_and!]. unfold entry_wf. cbn. do 5 (split; [done|]). split; [done|lia]. }
  destruct walk_names as [N1 N2].
  apply (eng_box _ _ (raise L) (give p n (raise L)) _ w'' (fun r => is_ok r.2 = true -> last (entries r.1) = Some e)); [by eapply grows_ext|done|intros; by apply walks_push| |].
  - intros ob s Hb. by apply (box_push contacts peer_of ocfg (give p n (raise L)) ob e coin s Hent).
  - intros ob wr r w3 He3 Hlast. apply runs_ret. apply (lands_at _ (give p n (raise L))); [by eapply grows_ext|done|]. cbn [fst snd] in *. split; [done|].
    intros i Hi. exists e. split; [apply Hlast; destruct r as [|[]]; done|]. unfold give. rewrite acct_set_eq. cbn. lia.
Qed.

Lemma eng_reset L0 L p coin c w : p ∈ contacts -> ext L0 L -> limit L <= u64_max -> engine_ok L c w ->
  runs (reset_session cfg keys secs_at me p coin c) w (fun c' w' => engine_ok L c' w' /\ rest_same c c') (died L0).
Proof.
  intros Hp H0 Hl He. unfold reset_session. apply (eng_edit p _ _ L0 L); try done; [intros st; cbn [fst]; by apply fits_session|].
  intros g st w' He' Hst' _. apply (eng_flush_same p _ L0 L); [done..|]. intros g' x w'' He''.
  eapply runs_mono; [by apply (eng_void L0 L)| |done]. cbn beta. intros c' w3 [? ?]. by split.
Qed.

Lemma eng_seal_for L p plain ek ratchet eid coin c w :
  p ∈ contacts -> array 32 ratchet -> length eid = 16%nat -> fresh L ratchet -> limit L <= u64_max -> engine_ok L c w ->
  runs (seal_for cfg keys secs_at me p plain ek ratchet eid coin c) w
    (lands L (fun L' c' r => rest_same c c' /\ forall b i, r = Ok (b, i) -> known L' p b)) (died L).
Proof.
  intros Hp Hr Hei Hfr Hl He. unfold seal_for. pose proof (ext_refl L) as H0. apply runs_bind. eapply runs_mono; [by apply (eng_settle L L)| |done]. cbn beta.
  intros c1 w1 [He1 Hs1]. apply runs_bind. eapply runs_mono; [by apply (eng_seal L L)| |done]. cbn beta.
  intros [c2 r2] w2 (L2 & HL2 & He2 & Hs2 & _ & Hi2). cbn [fst snd] in *. apply runs_ret. apply (lands_at _ L2); [done|done|].
  split; [exact (rest_trans _ _ _ Hs1 Hs2)|]. intros b i Hb. destruct r2 as [env|]; [|done]. injection Hb as <- <-. exists env. split; [by apply Hi2|done].
Qed.

(** ** Ending, reading, deleting *)

Lemma eng_record {Y} p m durable (k : Core * result Z StoreError -> Disk Y) L0 L c w Q :
  p ∈ contacts -> in_u64 (n_at_ms m) -> ext L0 L -> engine_ok L c w ->
  (forall g x w', engine_ok L (with_store g c) w' -> runs (k (with_store g c, x)) w' Q (died L0)) ->
  runs (bind (in_store (record_message cfg keys own secs_at p m durable) c) k) w Q (died L0).
Proof.
  intros Hp Hm H0 He Hkk. apply (quiet_store _ _ L0 L c w (hist own p)); [apply hist_outbox|done|done| |done]. apply steady_record; try done. apply He.
Qed.

Lemma eng_finish L0 L id s reason now why coin c w : in_u64 now -> ext L0 L -> engine_ok L c w ->
  runs (finish cfg keys secs_at me id s reason now why coin c) w (engine_ok L) (died L0).
Proof.
  intros Hn H0 He. unfold finish. destruct (get_entry (c_box c) id) as [e|] eqn:Eg; [|by apply runs_ret]. destruct (entry_found _ _ _ _ _ He Eg) as [Hent Hid].
  destruct (negb (is_text e)); [apply (eng_remove _ _ _ L0 L); [done|done|]; intros; by apply runs_ret|]. cbv zeta. pose proof Hent as (_ & Hp & _).
  apply (eng_record _ _ _ _ L0 L); [done|done|done|done|]. intros g x w' He'. destruct x as [ord|err].
  - apply (eng_remove _ _ _ L0 L); [done|done|]. intros ob wr y w'' He''. apply runs_ret. exact He''.
  - apply runs_ret. destruct He' as (A1 & A2 & A3 & A4). split_and!; [done|done| |done]. cbn [c_box c_boxw with_box with_store] in *.
    apply (box_update contacts peer_of L); [|done]. intros e'. by destruct e'.
Qed.

Lemma eng_unsent L0 L e reason now c w : e_peer e ∈ contacts -> in_u64 now -> ext L0 L -> engine_ok L c w ->
  runs (record_unsent cfg keys secs_at me e reason now c) w (engine_ok L) (died L0).
Proof.
  intros Hp Hn H0 He. unfold record_unsent. apply (eng_record _ _ _ _ L0 L); try done.
Qed.

Lemma eng_enabled {Y} p (k : Core * bool -> Disk Y) L0 L c w Q : p ∈ contacts -> ext L0 L -> engine_ok L c w ->
  (forall c' b w', engine_ok L c' w' -> rest_same c c' -> runs (k (c', b)) w' Q (died L0)) ->
  runs (bind (receipts_enabled keys secs_at me p c) k) w Q (died L0).
Proof.
  intros Hp H0 He Hkk. unfold receipts_enabled. destruct (receipts_global c); [|by apply runs_bind, runs_ret, Hkk].
  apply runs_bind, runs_unit. apply (eng_peek p _ ret L0 L); [done|done|done|]. intros g st w' He' _. apply runs_ret. by apply Hkk.
Qed.

Lemma eng_history L p before lim c w : p ∈ contacts -> engine_ok L c w ->
  runs (chat_history cfg keys secs_at me p before lim c) w (fun r w' => engine_ok L r.1 w') (died L).
Proof.
  intros Hp He. unfold chat_history. cbv zeta. pose proof (ext_refl L) as H0. apply runs_bind. pose proof He as (A1 & A2 & A3 & A4).
  eapply runs_mono; [by apply (steady_history keys own secs_at contacts anchor0 cfg L _ w p before lim _ (fun _ => False))| |]; cbn beta.
  - intros page w1 [Hs1 Hk1]. assert (engine_ok L c w1) as He1.
    { split_and!; [done|done| |done]. destruct A3 as [B1 B2]. split; [|done]. eapply box_dead_same; [|exact B1|by left]. apply Hk1; [by left|by intros []]. }
    apply (eng_enabled p _ L L); [done|done|done|]. intros c2 b w2 He2 _. destruct b; [|by apply runs_ret].
    apply (eng_peek p _ _ L L); [done|done|done|]. intros g st w3 He3 _. by apply runs_ret.
  - intros w1 [Hd Hk1]. exists L. split; [done|]. split_and!; [done|done|]. destruct A3 as [B1 B2]. eapply box_dead_same; [|exact B1|by right].
    apply Hk1; [by left|by intros []].
Qed.

Lemma eng_delete L p id coin c w : p ∈ contacts -> engine_ok L c w ->
  runs (delete_message cfg keys secs_at me p id coin c) w (fun r w' => engine_ok L r.1 w') (died L).
Proof.
  intros Hp He. unfold delete_message. pose proof (ext_refl L) as H0. apply (eng_remove _ _ _ L L); [done|done|]. intros ob wr x w' He'.
  apply (quiet_store _ _ L L _ w' (hist own p)); [apply hist_outbox|done|done| |].
  - apply steady_delete; [done|done|]. apply He'.
  - intros g y w'' He''. by apply runs_ret.
Qed.

Lemma eng_forget L p noise coin c w : p ∈ contacts -> engine_ok L c w ->
  runs (delete_conversation cfg keys secs_at me p noise coin c) w (fun r w' => engine_ok L r.1 w') (died L).
Proof.
  intros Hp He. unfold delete_conversation. pose proof (ext_refl L) as H0. destruct walk_names as [N1 N2].
  apply (quiet_box _ _ L L); [done|done|intros; by apply walks_remove_peer| |].
  { intros ob s Hb. unfold remove_peer. by apply (box_remove_all contacts peer_of L _ ob coin s). }
  intros ob wr x w' He'. apply (quiet_store _ _ L L _ w' (hist own p)); [apply hist_outbox|done|done| |].
  - apply steady_delete_history; [done|done|]. apply He'.
  - intros g y w'' He''. destruct y as [u|e]; [|by apply runs_ret].
    apply runs_unit. apply (eng_flush_same p _ L L); [done|done|done|]. intros g' z w3 He3. by apply runs_ret.
Qed.

(** ** Receipts *)

Lemma fits_ranges L p st : fits L p st -> in_u64 (read_up_to st) /\ in_u64 (read_reported st) /\ 0 <= max_recv_seq st.
Proof.
  intros ((_ & _ & [Hf _] & _ & _ & _ & _ & _ & _ & _ & Hu & Hr) & _). split_and!; try done; try apply Hu; try apply Hr. unfold max_recv_seq. destruct Hf. lia.
Qed.

Lemma eng_set_receipts L p on coin c w : p ∈ contacts -> limit L <= u64_max -> engine_ok L c w ->
  runs (set_receipts cfg keys secs_at me p on coin c) w (fun r w' => engine_ok L r.1 w') (died L).
Proof.
  intros Hp Hl He. unfold set_receipts. pose proof (ext_refl L) as H0. apply (eng_edit p _ _ L L); try done.
  intros g st w' He' _ _. apply (eng_flush_same p _ L L); [done|done|done|]. intros g' x w'' He''. cbn [fst]. destruct x as [u|e]; [|by apply runs_ret].
  destruct (if on then None else _) as [e|]; [|by apply runs_ret]. apply (eng_remove _ _ _ L L); [done|done|]. intros. by apply runs_ret.
Qed.

Lemma eng_mark_read L p up_to now id coin c w :
  p ∈ contacts -> peer_of id = p -> array 16 id -> in_u64 up_to -> in_u64 now -> limit L <= u64_max -> engine_ok L c w ->
  runs (mark_read cfg keys secs_at me p up_to now id coin c) w (fun r w' => engine_ok L r.1 w') (died L).
Proof.
  intros Hp Hpo Hid Hup Hnow Hl He. unfold mark_read. pose proof (ext_refl L) as H0. apply (eng_enabled p _ L L); [done|done|done|]. intros c1 b w1 He1 _.
  destruct (negb b); [by apply runs_ret|]. apply (eng_peek p _ _ L L); [done|done|done|]. intros g st w2 He2 Hst'. destruct (fits_ranges _ _ _ Hst') as (_ & _ & Hmx).
  set (u := Z.min up_to (max_recv_seq st)). cbv zeta. destruct (Z.eqb_spec u 0) as [|Hne]; cbn [orb]; [by apply runs_ret|].
  destruct (u <=? read_reported st); [by apply runs_ret|]. destruct (match _ !! p with Some _ => _ | None => _ end); [by apply runs_ret|].
  assert (in_u64 u) as Hu by (unfold u; ulia). destruct walk_names as [N1 N2].
  apply (quiet_box _ _ L L); [done|done|intros; by apply walks_push_receipt| |].
  { intros ob s Hb. apply (box_push_receipt contacts peer_of ocfg L ob _ coin s); [|done]. pose proof (contact_array p Hp).
    split; [|by split_and!]. unfold entry_wf. cbn. do 5 (split; [done|]). by split. }
  intros ob wr x w3 He3. destruct x as [v|e]; [|by apply runs_ret]. apply (eng_edit p _ _ L L); try done.
  { intros st2 Hst2. destruct (fits_ranges _ _ _ Hst2) as (? & ? & _). by apply fits_receipt. }
  intros g4 st4 w4 He4 _ _. apply (eng_flush_same p _ L L); [done|done|done|]. intros g5 y w5 He5. destruct y; by apply runs_ret.
Qed.

(** ** Receiving *)

Lemma eng_commit {X} L0 L L1 p (f : PeerState -> PeerState * X) replaced coin c w :
  p ∈ contacts -> ext L0 L -> engine_ok L c w -> limit L <= u64_max -> grows p L L1 -> ledger_ok L1 ->
  (forall st, fits L p st -> fits L p (f st).1 /\ fits L1 p (f st).1) ->
  runs (commit_flush cfg keys secs_at me p f replaced coin c) w
    (fun r w' => engine_ok (if is_ok r.2 then L1 else L) r.1 w' /\ rest_same c r.1) (died L0).
Proof.
  intros Hp H0 He Hl Hgr Hok1 Hf. unfold commit_flush. apply (eng_edit p _ _ L0 L); try done; [intros st Hst'; by apply Hf|].
  intros g st w' He' Hst' Hch. apply (eng_flush p _ L0 L L1); try done; [right; exists (f st).1; split; [done|by apply Hf]|].
  intros g' x w'' He''. destruct x as [u|e]; cbn [is_ok] in He''; [|by apply runs_ret]. apply runs_bind.
  assert (ext L0 L1) as H01 by (eapply ext_trans; [exact H0|by apply (grows_ext p)]). destruct replaced; [|by apply runs_ret, runs_ret].
  eapply runs_mono; [by apply (eng_void L0 L1)| |done]. cbn beta. intros c' w3 [He3 Hs3]. apply runs_ret. by split.
Qed.

(** What an event says that an operation from [L] to [L'] added. *)
Definition got_new (p : bytes) (L : Ledger) (c : Core) (L' : Ledger) (c' : Core) : Prop :=
  ev_next c' = ev_next c \/
  exists ev, last (ev_items c') = Some ev /\
    (ev_kind ev = EvReceived -> ev_peer ev = p /\ (m_seq (ev_message ev) ∉ taken (acct L p)) /\ m_seq (ev_message ev) ∈ taken (acct L' p)).

Lemma eng_text L p env s replaced ek m now coin c w :
  p ∈ contacts -> in_u64 now -> limit L <= u64_max -> engine_ok L c w -> array 16 (env_id env) ->
  session_wf s -> session_fits (used L) (issued (acct L p)) s -> (forall k, ek = Some k -> array 32 k) -> 0 < msg_seq m <= u64_max ->
  runs (accept_text cfg keys secs_at me max_text p env s replaced ek m now coin c) w
    (lands L (fun L' c' _ => got_new p L c L' c')) (died L).
Proof.
  intros Hp Hnow Hl He Hid Hw Hs Hek Hm. unfold accept_text. pose proof (ext_refl L) as H0. apply (eng_peek p _ _ L L); [done|done|done|].
  intros g st w1 He1 Hst1. set (n := msg_seq m) in *. cbv zeta. apply runs_bind.
  set (f := fun st0 : PeerState => (remember_envelope (env_id env) (mark_seq n _), tt)).
  assert (in_u64 n) as Hn by ulia.
  assert (forall st, fits L p st -> fits L p (f st).1 /\ applied (f st).1 n) as Hf.
  { intros st0 Hst0. subst f. cbn [fst]. pose proof (fits_commit L p st0 s ek Hw Hs Hek Hst0) as H1. split; [by apply fits_envelope, fits_mark|].
    destruct H1 as ((_ & _ & W3 & _) & _). destruct (mark_seq_spec n _ W3 Hn) as (_ & Ha & _). rewrite applied_spec in Ha |- *. exact Ha. }
  assert (forall c1 stored w2 (L1 : Ledger), engine_ok L c1 w2 -> rest_same c c1 -> grows p L L1 -> ledger_ok L1 -> (forall st, fits L p st -> fits L1 p (f st).1) ->
    (forall x, stored = Some x -> m_seq x = n /\ (n ∉ taken (acct L p)) /\ n ∈ taken (acct L1 p)) ->
    runs (let* r := commit_flush cfg keys secs_at me p f replaced coin c1 in
          match r with
          | (c, Err _) => ret (c, plain_outcome AFailed)
          | (c, Ok _) =>
            let status := if max_text <? str_len (msg_text m) then ATooBig else match stored with Some _ => AStored | None => ADuplicate end in
            let c := match stored with Some x => push_event p EvReceived x c | None => c end in
            ret (c, mkAccept status replaced)
          end) w2 (lands L (fun L' c' _ => got_new p L c L' c')) (died L)) as Hend.
  { intros c1 stored w2 L1 He2 Hr2 Hgr Hok1 Hf1 Hst2. apply runs_bind. eapply runs_mono; [apply (eng_commit L L L1); try done; intros st0 Hst0; split; [by apply Hf|by apply Hf1]| |done]. cbn beta.
    intros [c3 x] w3 [He3 Hr3]. cbn [fst snd] in *. assert (rest_same c c3) as [Hn3 _] by (by eapply rest_trans). destruct x as [u|e]; cbn [is_ok] in He3; apply runs_ret.
    - apply (lands_at _ L1); [by eapply grows_ext|by destruct stored|]. destruct stored as [x|]; [|by left]. right. eexists. split; [apply last_snoc|]. cbn. intros _.
      destruct (Hst2 x eq_refl) as (-> & ? & ?). by split_and!.
    - apply (lands_at _ L); [done|done|]. by left. }
  destruct (is_new_seq st n) eqn:Enew; cbn [andb].
  - destruct (max_text <? str_len (msg_text m)) eqn:Ebig; cbn [negb].
    + apply runs_ret. apply (Hend _ None w1 L); try done; [apply ledger_grows_refl|apply He|intros; by apply Hf].
    + apply (eng_record _ _ _ _ L L); [done|done|done|done|]. intros g2 r w2 He2. apply runs_ret. cbn [fst snd]. pose proof (new_not_taken _ _ _ _ Hst1 Enew) as Hnt.
      destruct r as [ord|e]; [|apply runs_ret; apply (lands_at _ L); [done|done|by left]].
      apply (Hend _ (Some _) w2 (take_number p n L)); try done; [apply grows_take|by apply ledger_ok_take, He|intros st0 Hst0; by apply fits_take; apply Hf|].
      intros x [= <-]. cbn. split_and!; [done|done|]. rewrite bool_decide_eq_true_2 by done. cbn. apply elem_of_app. right. by apply list_elem_of_singleton.
  - apply runs_ret. apply (Hend _ None w1 L); try done; [apply ledger_grows_refl|apply He|intros; by apply Hf].
Qed.

Lemma got_same p L c L' c' : rest_same c c' -> got_new p L c L' c'.
Proof. intros [H1 _]. by left. Qed.

Lemma got_from p L c c1 L' c' : rest_same c c1 -> got_new p L c1 L' c' -> got_new p L c L' c'.
Proof. intros [H1 _] [H|H]; [left; congruence|by right]. Qed.

(** What an envelope that was opened leaves behind. *)
Definition opened_ok (L : Ledger) (p : bytes) (o : Opened) : Prop :=
  match o with
  | ODone _ => True
  | OOpen s pt _ ek => session_wf s /\ session_fits (used L) (issued (acct L p)) s /\ (forall k, ek = Some k -> array 32 k) /\ bytes_ok pt
  end.

Lemma eng_open {Y} p env secret secret' (k : Core * Opened -> Disk Y) L0 L c w Q :
  p ∈ contacts -> env_wf env -> array 32 secret -> array 32 secret' -> fresh L secret -> fresh L secret' -> ext L0 L -> engine_ok L c w ->
  (forall g o w', engine_ok L (with_store g c) w' -> opened_ok L p o -> runs (k (with_store g c, o)) w' Q (died L0)) ->
  runs (bind (in_store (peek_peer keys own secs_at p (open_envelope me p env secret secret')) c) k) w Q (died L0).
Proof.
  intros Hp Hwf Hs Hs' Hf Hf' H0 He Hkk. apply (eng_peek p _ _ L0 L); [done|done|done|]. intros g st w' He' Hst'. apply Hkk; [done|].
  destruct (open_envelope _ _ _ _ _ _) as [a|s pt rp ek] eqn:E; [done|].
  exact (open_envelope_fits Hz Hop me Hme L p st env secret secret' s pt rp ek (contact_array p Hp) Hwf Hs Hs' Hf Hf' Hst' E).
Qed.

Lemma eng_commit_session L p s ek id replaced coin c w :
  p ∈ contacts -> limit L <= u64_max -> engine_ok L c w -> array 16 id ->
  session_wf s -> session_fits (used L) (issued (acct L p)) s -> (forall k, ek = Some k -> array 32 k) ->
  runs (commit_flush cfg keys secs_at me p (fun st => (commit_session s ek id st, tt)) replaced coin c) w
    (fun r w' => engine_ok L r.1 w' /\ rest_same c r.1) (died L).
Proof.
  intros Hp Hl He Hid Hw Hs Hek. eapply runs_mono; [apply (eng_commit L L L); try done; [apply ext_refl|apply ledger_grows_refl|apply He|]| |done]; cbn beta.
  - intros st Hst'. cbn [fst]. unfold commit_session. by split; apply fits_envelope, fits_commit.
  - intros r w' [H1 H2]. by destruct (is_ok r.2).
Qed.

Lemma eng_accept L p wire now secret secret' coin c w :
  p ∈ contacts -> bytes_ok wire -> in_u64 now -> array 32 secret -> array 32 secret' -> fresh L secret -> fresh L secret' ->
  limit L <= u64_max -> engine_ok L c w ->
  runs (accept cfg keys secs_at me max_text p wire now secret secret' coin c) w (lands L (fun L' c' _ => got_new p L c L' c')) (died L).
Proof.
  intros Hp Hwire Hnow Hs Hs' Hf Hf' Hl He. unfold accept. pose proof (ext_refl L) as H0. destruct (env_decode wire) as [env|e] eqn:Ed; [|apply runs_ret; apply (lands_at _ L); [done|done|by left]].
  apply env_encode_decode in Ed as [_ Hwf]; [|done]. pose proof Hwf as (Hid & _). apply runs_bind. eapply runs_mono; [by apply (eng_settle L L)| |done]. cbn beta. intros c1 w1 [He1 Hr1].
  apply (eng_open p env secret secret' _ L L); try done. intros g o w2 He2 Ho. cbv zeta.
  assert (forall (a : AcceptOutcome), runs (ret (with_store g c1, a)) w2 (lands L (fun L' c' _ => got_new p L c L' c')) (died L)) as Hsame.
  { intros a. apply runs_ret. apply (lands_at _ L); [done|done|]. by apply got_same. }
  destruct o as [a|s pt rp ek]; [apply Hsame|]. destruct Ho as (Hw & Hsf & Hek & Hpt). destruct (record_decode pt) as [[m|rc|kind]|e] eqn:Er; [| | |apply Hsame].
  - eapply runs_mono; [apply eng_text; try done; by eapply record_text_range| |done]. cbn beta. intros r w3 (L' & H1 & H2 & H3). exists L'. split_and!; try done. eapply got_from; [|exact H3]. exact Hr1.
  - apply (eng_enabled p _ L L); [done|done|done|]. intros c3 b w3 He3 Hr3. apply runs_bind. apply record_receipt_range in Er; [|done].
    eapply runs_mono; [apply (eng_commit L L L); try done; [apply ledger_grows_refl|apply He|]| |done]; cbn beta.
    + intros st Hst'. assert (fits L p (commit_session s ek (env_id env) st)) as H1 by (unfold commit_session; by apply fits_envelope, fits_commit).
      unfold apply_receipt. destruct (_ && _); [|done]. destruct (fits_ranges _ _ _ H1) as (_ & ? & _). cbn [fst].
      assert (fits L p (set_receipt_state (up_to_seq rc) (read_reported (commit_session s ek (env_id env) st)) (receipts_off (commit_session s ek (env_id env) st)) (commit_session s ek (env_id env) st))) by (apply fits_receipt; [ulia|done|done]). done.
    + intros [c4 x] w4 [He4 Hr4]. cbn [fst snd] in *. assert (rest_same c c4) as Hr04 by (eapply rest_trans; [exact Hr1|]; eapply rest_trans; [exact Hr3|exact Hr4]).
      destruct x as [b4|e4]; cbn [is_ok] in He4; apply runs_ret; apply (lands_at _ L); try done; [by destruct b4| |by apply got_same].
      destruct b4; [|by apply got_same]. right. eexists. split; [apply last_snoc|]. done.
  - apply runs_bind. eapply runs_mono; [by apply eng_commit_session| |done]. cbn beta. intros r w3 [He3 Hr3]. apply runs_ret. apply (lands_at _ L); [done|done|].
    apply got_same. exact (rest_trans _ _ _ Hr1 Hr3).
Qed.

Lemma eng_accept_raw L p wire handle secret secret' coin c w :
  p ∈ contacts -> bytes_ok wire -> array 32 secret -> array 32 secret' -> fresh L secret -> fresh L secret' -> limit L <= u64_max -> engine_ok L c w ->
  runs (accept_raw cfg keys secs_at me p wire handle secret secret' coin c) w (fun r w' => engine_ok L r.1 w') (died L).
Proof.
  intros Hp Hwire Hs Hs' Hf Hf' Hl He. unfold accept_raw. pose proof (ext_refl L) as H0. destruct (env_decode wire) as [env|e] eqn:Ed; [|by apply runs_ret].
  apply env_encode_decode in Ed as [_ Hwf]; [|done]. pose proof Hwf as (Hid & _). apply runs_bind. eapply runs_mono; [by apply (eng_settle L L)| |done]. cbn beta. intros c1 w1 [He1 Hr1].
  apply (eng_open p env secret secret' _ L L); try done. intros g o w2 He2 Ho. cbv zeta. destruct o as [a|s pt rp ek]; [by apply runs_ret|].
  destruct Ho as (Hw & Hsf & Hek & Hpt). destruct (bool_decide _); [by apply runs_ret|]. apply runs_bind. eapply runs_mono; [by apply eng_commit_session| |done]. cbn beta.
  intros r w3 [He3 Hr3]. by apply runs_ret.
Qed.

(** ** Catching up and starting *)

Lemma eng_answer L p items c w : p ∈ contacts -> engine_ok L c w ->
  runs (answer_each keys secs_at me max_text p items c) w (fun r w' => engine_ok L r.1 w') (died L).
Proof.
  intros Hp. revert c w. induction items as [|it items IH]; intros c w He; cbn [answer_each]; [by apply runs_ret|]. destruct (_ && _); [|by apply IH].
  apply (eng_peek p _ _ L L); [done|apply ext_refl|done|]. intros g st w' He' _. apply runs_bind. eapply runs_mono; [by apply IH| |done]. cbn beta. intros. by apply runs_ret.
Qed.

Lemma eng_reply L p asked have now why coin closed c w : in_u64 now -> engine_ok L c w ->
  runs (apply_reply cfg keys secs_at me p asked have now why coin closed c) w (fun r w' => engine_ok L r.1 w') (died L).
Proof.
  intros Hn. revert coin closed c w. induction have as [|id have IH]; intros coin closed c w He; cbn [apply_reply]; [by apply runs_ret|].
  destruct (negb _); [by apply IH|]. destruct (get_entry (c_box c) id) as [e|]; [|by apply IH]. destruct (bool_decide _); [|by apply IH].
  apply runs_bind. eapply runs_mono; [apply (eng_finish L L); try done; apply ext_refl| |done]. cbn beta. intros c' w' He'. by apply IH.
Qed.

Lemma eng_expired L old reason now c w : Forall (entry_ok L) old -> in_u64 now -> engine_ok L c w ->
  runs (record_expired cfg keys secs_at me old reason now c) w (engine_ok L) (died L).
Proof.
  intros Ho Hn. revert c w. induction Ho as [|e old He' _ IH]; intros c w He; cbn [record_expired]; [by apply runs_ret|]. apply runs_bind.
  eapply runs_mono; [apply (eng_unsent L L); try done; [apply He'|apply ext_refl]| |done]. cbn beta. intros c' w' He2. by apply IH.
Qed.

Lemma eng_sweep L cutoff cs c w : Forall (fun x => c_peer x ∈ contacts) cs -> engine_ok L c w ->
  runs (in_store (sweep_each cfg keys own secs_at cutoff cs 0) c) w (fun r w' => engine_ok L r.1 w') (died L).
Proof.
  intros Hcs He. apply runs_unit, (quiet_store _ _ L L c w (any_hist own)); [by intros [p ?%hist_outbox]|apply ext_refl|done| |].
  - apply steady_sweep; [done|done|apply He|apply files_keep_refl].
  - intros g x w' He'. by apply runs_ret.
Qed.

Lemma eng_close L order c w : Forall (fun p => p ∈ contacts) order -> engine_ok L c w ->
  runs (in_store (fun g => let* g := close_store keys own order g in ret (g, tt)) c) w (fun r w' => engine_ok L r.1 w') (died L).
Proof.
  intros Ho He. apply runs_unit, (quiet_store _ _ L L c w (fun _ => False)); [by intros []|apply ext_refl|done| |].
  - apply runs_bind. eapply runs_mono; [apply (steady_close keys own secs_at contacts anchor0 L _ w (fun _ => False) order); [done|apply He]| |done].
    cbn beta. intros g w' Hg. by apply runs_ret.
  - intros g x w' He'. by apply runs_ret.
Qed.

(** A process starts on what the last one left. *)
Lemma eng_start L now secs coin w : in_u64 now -> 0 <= secs -> engine_dead L w ->
  runs (open_core cfg keys secs_at me anchor0 now secs coin) w (engine_ok L) (died L).
Proof.
  intros Hn Hsec (H1 & H2 & H3). unfold open_core. destruct walk_names as [N1 N2].
  assert (on_logs own (eq OUTBOX_FILE) (corrupt_aside OUTBOX_FILE secs)) as N3.
  { split; [by apply outbox_aside_unguarded|]. intros [Hq|[q Hq]]; [by apply (f_equal length) in Hq|]. by apply outbox_aside_history in Hq. }
  pose proof (walks_open keys (on_logs own (eq OUTBOX_FILE)) N1 N2 ocfg now secs coin N3 (w, None) ltac:(done)) as Hwalk.
  pose proof (box_open contacts peer_of ocfg L now secs coin (w, None) H3) as Hr. unfold runs in Hr.
  unfold runs. unfold box_journal, engine_journal, walk_journal' in *.
  match goal with |- context [@outbox_open ?j ?a ?b ?d ?e ?x] => destruct (@outbox_open j a b d e x) as [[w' wr] [[ob old]|]] end; cbn [fst snd] in *; destruct Hwalk as [Hsame Hw'].
  - destruct Hr as [Hb Hold]. apply eng_expired; [done|done|]. split_and!; [done| |done|done].
    split_and!; [|done|constructor]. cbn. apply sr_start. eapply sr_dead_frame; [|exact H2]. eapply same_but_mono; [|exact Hsame]. by intros q [? _].
  - exists L. split; [apply ext_refl|]. split_and!; [done| |by eapply box_dead_same; [|exact Hr|right]]. eapply sr_dead_frame; [|exact H2]. eapply same_but_mono; [|exact Hsame]. by intros q [? _].
Qed.

End Rules.
