(* ===== verification/ChatGuard.v ===== *)
(** * ChatGuard: the chat store on a disk where anything may fail

    The first instance of [StoreRegime]: every operation of the disk may fail,
    the process may die anywhere and power may be lost, and nobody puts an old
    copy of the folder back.  A session file is missing or holds, whole and
    durable, a state that knows the ledger; a record of the anchor is a part of
    a sealed record whose mark is not above the numbers that were given. *)

From S2P Require Import Prelude Bytes Text Codec ErasureCode Dissolve Disk SealedState SealedLog SealedRewrite Journal ChatOutbox Ratchet PeerState ChatProto Anchor ChatStore ChatEngine ChatLedger DiskFrame ChatRegime.

(** Fingerprints have 16 bytes, keyed hashes 32. *)
Definition fingerprint_sized `{Crypto} : Prop := forall b, length (fingerprint b) = 16%nat.
Definition keyed_sized `{KeyedHash} : Prop := forall key d, length (blake3_keyed key d) = 32%nat.

(** ** Records of the anchor *)

Section Documents.
Context {CR : Crypto} {SC : StateCipher} (Hc : cipher_correct) (Ht : cipher_total) (Hk : hkdf_total) (Hop : cipher_opens) (sk : bytes).

Abbreviation keys := (mkKeys (Some sk)).

(** [b] is the document [pt], sealed for [ctx]. *)
Definition document (l : Label) (ctx pt b : bytes) : Prop :=
  doc_open keys l ctx b = Ret (Ok pt) /\ length b = (DOC_HEADER_LEN + length pt + TAG_LEN)%nat /\ zlen pt <= max_document_bytes l.

Lemma doc_seal_document l ctx pt nonce b : length nonce = NONCE_LEN -> doc_seal keys l ctx pt nonce = Ret (Ok b) -> document l ctx pt b.
Proof.
  intros Hn Hs. destruct (Z.leb_spec (zlen pt) (max_document_bytes l)) as [Hl|Hl].
  - destruct (doc_seal_opens Hc Ht Hk sk l ctx pt nonce Hl Hn) as (b' & Hs' & Hlen & Hopn). rewrite Hs in Hs'. injection Hs' as <-. done.
  - unfold doc_seal in Hs. cbv zeta in Hs. destruct (Z.ltb_spec (max_document_bytes l) (zlen pt)); [done|lia].
Qed.

Lemma doc_open_length l ctx b pt : doc_open keys l ctx b = Ret (Ok pt) -> length b = (DOC_HEADER_LEN + length pt + TAG_LEN)%nat.
Proof.
  unfold doc_open. destruct (Nat.ltb_spec (length b) (DOC_HEADER_LEN + TAG_LEN)); [done|]. destruct (negb _); [done|]. destruct (negb _); [done|]. destruct (negb _); [done|].
  destruct (doc_key_live Hk sk l) as [k ->]. cbn [outcome_bind result_bind]. unfold open_detached. destruct (xchacha_open _ _ _ _ _) as [x|] eqn:E; [|done].
  intros [= ->]. apply Hop in E as [E _]. unfold slice in E. rewrite length_take, length_drop in E. unfold DOC_HEADER_LEN, TAG_LEN in *. lia.
Qed.

(** A document is read as it was written. *)
Lemma document_reads l path ctx pt b s w : files w !! path = Some (mkFile b s) -> document l ctx pt b ->
  read_document_as keys l path ctx w = (w, Some (Ok pt)).
Proof.
  intros Hf (Ho & Hlen & Hl). unfold read_document_as, bind, get. rewrite Hf. cbv zeta. cbn [content].
  destruct (Z.ltb_spec (max_document_bytes l + Z.of_nat DOC_HEADER_LEN + Z.of_nat TAG_LEN) (zlen b)); [unfold zlen in *; lia|]. by rewrite Ho.
Qed.

Lemma anchor_reads_back r : length (a_cur r) = 16%nat -> length (a_next r) = 16%nat -> in_u64 (send_seq_hwm r) -> anchor_decode (anchor_encode r) = Some r.
Proof.
  intros H1 H2 H3. destruct r as [cur next hwm]. cbn [a_cur a_next send_seq_hwm] in *. unfold anchor_decode, anchor_encode. cbn [a_cur a_next send_seq_hwm].
  assert (length ([RECORD_VERSION] ++ cur ++ next ++ be_bytes 8 hwm) = RECORD_LEN) as -> by (rewrite !length_app, be_bytes_length, H1, H2; done).
  cbn [Nat.eqb negb orb RECORD_LEN nth app]. change (RECORD_VERSION =? RECORD_VERSION) with true. cbn [negb orb]. unfold slice.
  change (RECORD_VERSION :: cur ++ next ++ be_bytes 8 hwm) with ([RECORD_VERSION] ++ cur ++ next ++ be_bytes 8 hwm).
  f_equal. f_equal.
  - rewrite (drop_app_length' [RECORD_VERSION]) by done. by rewrite take_app_length' by done.
  - rewrite app_assoc, (drop_app_length' ([RECORD_VERSION] ++ cur)) by (rewrite length_app, H1; done). by rewrite take_app_length' by done.
  - rewrite !app_assoc, drop_app_length' by (rewrite !length_app, H1, H2; done). apply from_be_be. change (256 ^ Z.of_nat 8) with 18446744073709551616. ulia.
Qed.

Lemma anchor_decode_length b r : anchor_decode b = Some r -> length b = RECORD_LEN.
Proof. unfold anchor_decode. destruct (Nat.eqb_spec (length b) RECORD_LEN); [done|]. done. Qed.

(** A part of a record is the record or nothing. *)
Definition record_part (bound : Z) (name : bytes) (f : File) : Prop :=
  exists r b n, document ChatAnchor name (anchor_encode r) b /\ content f = take n b /\
    length (a_cur r) = 16%nat /\ length (a_next r) = 16%nat /\ 0 <= send_seq_hwm r <= bound.

Lemma record_part_reads bound name path f w x w' r : bound <= u64_max -> files w !! path = Some f -> record_part bound name f ->
  read_document_as keys ChatAnchor path name w = (w', x) -> w' = w /\ exists res, x = Some res /\
    (forall pt, res = Ok pt -> anchor_decode pt = Some r -> 0 <= send_seq_hwm r <= bound /\ length (a_cur r) = 16%nat /\ length (a_next r) = 16%nat).
Proof.
  intros Hb Hf (r0 & b & n & Hd & Hcn & H1 & H2 & H3). unfold read_document_as, bind, get. rewrite Hf. cbv zeta.
  destruct (_ <? _); [intros [= <- <-]; split; [done|]; by eexists|]. unfold lift.
  assert (forall res, doc_open keys ChatAnchor name (content f) = Ret res -> forall pt, res = Ok pt -> anchor_decode pt = Some r ->
    0 <= send_seq_hwm r <= bound /\ length (a_cur r) = 16%nat /\ length (a_next r) = 16%nat) as Hres.
  { intros res Ho pt -> Hdec. pose proof (anchor_decode_length _ _ Hdec) as Hlen. apply doc_open_length in Ho as Hol. destruct Hd as (Hd1 & Hd2 & _).
    assert (length (anchor_encode r0) = RECORD_LEN) as E0 by (unfold anchor_encode; rewrite !length_app, be_bytes_length, H1, H2; done).
    assert (take n b = b) as Eb by (apply take_ge; rewrite Hcn, length_take in Hol; unfold DOC_HEADER_LEN, TAG_LEN in *; lia).
    rewrite Hcn, Eb, Hd1 in Ho. injection Ho as <-. rewrite anchor_reads_back in Hdec by (done || ulia). by injection Hdec as <-. }
  destruct (doc_open keys ChatAnchor name (content f)) as [res|] eqn:Ho; [intros [= <- <-]; split; [done|]; exists res; split; [done|by apply Hres]|].
  unfold doc_open in Ho. destruct (_ <? _)%nat; [done|]. destruct (negb _); [done|]. destruct (negb _); [done|]. destruct (negb _); [done|].
  destruct (doc_key_live Hk sk ChatAnchor) as [k E]. by rewrite E in Ho.
Qed.

End Documents.

(** The state in the file of a contact is found. *)
Lemma session_found `{Crypto} `{StateCipher} `{RatchetCrypto} sk own secs p st b n w : files w !! session_path own p = Some (mkFile b n) ->
  document sk ChatSessions (session_path own p) (peer_bytes st) b -> peer_wf st -> p_peer st = p ->
  (let* r := read_fingerprinted (mkKeys (Some sk)) ChatSessions (session_path own p) in
   match found_state p r with
   | Some x => ret (Some x)
   | None => let* _ := set_aside (session_path own p) secs in ret None
   end) w = (w, Some (Some (st, fingerprint b))).
Proof.
  intros Hf (Ho & Hlen & Hmx) Hwf Hpe. unfold read_fingerprinted, bind, get. rewrite Hf. cbv zeta. cbn [content].
  destruct (Z.ltb_spec (max_document_bytes ChatSessions + Z.of_nat DOC_HEADER_LEN + Z.of_nat TAG_LEN) (zlen b)); [unfold zlen in *; lia|].
  rewrite Ho. cbn [lift]. unfold try_bind, bind, ret. cbv beta iota. unfold found_state. rewrite (peer_reads_back st Hwf). by rewrite bool_decide_eq_true_2.
Qed.

(** ** The instance *)

Section Guard.
Context {CR : Crypto} {SC : StateCipher} {RC : RatchetCrypto} {KH : KeyedHash} {CO : Coins}.
Context (Hc : cipher_correct) (Ht : cipher_total) (Hk : hkdf_total) (Hop : cipher_opens) (Hco : coins_sized).
Context (Hfp : fingerprint_sized) (Hkh : keyed_sized).
Context (sk own : bytes) (secs_at : nat -> Z) (contacts : list bytes) (dirs : option (option bytes)).
Context (Hst : stems_ok own) (Hcon : Forall (array 32) contacts).
Context (Hinj : forall p q, p ∈ contacts -> q ∈ contacts -> file_stem own p = file_stem own q -> p = q).
Context (Hdir : forall dir, dirs = Some (Some dir) -> SLASH ∈ dir).

Abbreviation keys := (mkKeys (Some sk)).

Definition session_file (L : Ledger) (p : bytes) (f : option File) : Prop :=
  match f with
  | None => fits L p (new_peer p)
  | Some f => synced f = length (content f) /\ exists st, document sk ChatSessions (session_path own p) (peer_bytes st) (content f) /\ fits L p st
  end.

Definition record_file (L : Ledger) (w : World) : Prop :=
  forall dir k p f, dirs = Some (Some dir) -> doc_key keys ChatAnchor = Ret (Ok k) -> files w !! (dir ++ anchor_name own k p) = Some f ->
    record_part sk (limit L) (anchor_name own k p) f.

Definition guard_dead (L : Ledger) (w : World) : Prop :=
  0 <= limit L <= u64_max /\ (forall p, p ∈ contacts -> session_file L p (files w !! session_path own p)) /\ record_file L w.

(** *** The records *)

Definition slashed (q : bytes) : Prop := SLASH ∈ q.

Lemma hex_length b : length (hex_encode b) = (2 * length b)%nat.
Proof. induction b as [|x b IH]; [done|]. unfold hex_encode in *. cbn [flat_map app length]. rewrite IH. lia. Qed.

Lemma name_length k p : length (anchor_name own k p) = 32%nat.
Proof.
  unfold anchor_name. by rewrite hex_length, length_take, Hkh.
Qed.

Lemma slashed_frame L w w' : same_but slashed w w' -> record_file L w' -> guard_dead L w -> guard_dead L w'.
Proof.
  intros [Hs _] Hr (H1 & H2 & _). split; [done|]. split; [|done]. intros p Hp. rewrite Hs; [by apply H2|]. by apply session_plain.
Qed.

Lemma slashed_logs w w' : same_but slashed w w' -> forall q, logname own q -> files w' !! q = files w !! q.
Proof. intros [Hs _] q Hq. apply Hs. by apply (logname_plain own Hst). Qed.

Lemma path_of_runs a p w : exists k, doc_key keys ChatAnchor = Ret (Ok k) /\
  path_of keys own a p w = (w, Some (match an_dir a with Some dir => Some (dir ++ anchor_name own k p, anchor_name own k p) | None => None end)).
Proof. destruct (doc_key_live Hk sk ChatAnchor) as [k E]. exists k. split; [done|]. unfold path_of. destruct (an_dir a); [|done]. by rewrite E. Qed.

(** What a program on the records keeps. *)
Definition recorded (L : Ledger) (w w' : World) : Prop := guard_dead L w' /\ same_but slashed w w'.

Lemma recorded_refl L w : guard_dead L w -> recorded L w w.
Proof. by split. Qed.
Lemma recorded_trans L w1 w2 w3 : same_but slashed w1 w2 -> recorded L w2 w3 -> recorded L w1 w3.
Proof. intros H1 [H2 H3]. split; [done|by eapply same_but_trans]. Qed.

Lemma recorded_write L a p r durable nonce w :
  dirs = Some (an_dir a) -> guard_dead L w -> length nonce = NONCE_LEN ->
  length (a_cur r) = 16%nat -> length (a_next r) = 16%nat -> 0 <= send_seq_hwm r <= limit L ->
  runs (anchor_write keys own a p r durable nonce) w (fun _ w' => recorded L w w') (recorded L w).
Proof.
  intros Hd Hg Hn H1 H2 H3. unfold anchor_write. destruct (path_of_runs a p w) as (k & Hkey & Hpath). apply runs_bind. unfold runs at 1. rewrite Hpath.
  destruct (an_dir a) as [dir|] eqn:Ed; [|by apply runs_ret, recorded_refl]. apply runs_bind.
  set (name := anchor_name own k p). destruct (doc_seal keys ChatAnchor name (anchor_encode r) nonce) as [[b|e]|] eqn:Es; cbn [lift];
    [apply runs_ret|by apply runs_ret, runs_ret, recorded_refl|unfold runs, die; by apply recorded_refl].
  apply (doc_seal_document Hc Ht Hk) in Es; [|done]. assert (slashed (dir ++ name)) as Hs1 by (apply elem_of_app; left; by apply Hdir).
  assert (slashed (staged_tmp (dir ++ name))) as Hs2 by (apply elem_of_app; by left).
  assert (forall w', (at_file (dir ++ name) (files w !! (dir ++ name)) w' \/ exists s, at_file (dir ++ name) (Some (mkFile b s)) w') ->
    others {[dir ++ name; staged_tmp (dir ++ name)]} w w' -> same_but slashed w w' -> recorded L w w') as Hend.
  { intros w' Hat Ho Hsb. split; [|done]. eapply slashed_frame; [exact Hsb| |exact Hg]. intros dir' k' q f Hd' Hk' Hf.
    assert (dir' = dir) as -> by congruence. assert (k' = k) as -> by congruence.
    destruct (decide (anchor_name own k q = name)) as [E|Hne].
    - rewrite E in *. destruct Hat as [Hat|[s Hat]]; unfold at_file in Hat; rewrite Hat in Hf.
      + destruct Hg as (_ & _ & Hg). rewrite <- E in Hf |- *. by eapply Hg.
      + injection Hf as <-. exists r, b, (length b). split_and!; try done; [by rewrite take_ge|lia..].
    - destruct Hg as (_ & _ & Hg). apply (Hg dir k q f Hd' Hk'). rewrite <- Hf. symmetry. apply Ho. intros [Hq|Hq]%elem_of_union; apply elem_of_singleton in Hq.
      + by apply app_inv_head in Hq.
      + apply (f_equal length) in Hq. unfold staged_tmp in Hq. rewrite !length_app in Hq. unfold name in Hq. rewrite !name_length in Hq. cbn in Hq. lia. }
  apply runs_bind. eapply runs_mono; [apply (runs_touches slashed); [by apply touches_write_sealed|exact (runs_write_any slashed Hc Ht Hk _ _ _ _)]| |]; cbn beta.
  - intros res w' [[Hr Ho] Hsb]. apply runs_ret. apply Hend; [|done|done]. destruct res; [right|by left]. destruct Hr as (s & ? & _). by exists s.
  - intros w' [[Hr Ho] Hsb]. apply Hend; [|done|done]. destruct Hr as [(s & ? & _)|?]; [right; by exists s|by left].
Qed.

Definition seen_ok (L : Ledger) (a : Anchor) : Prop :=
  dirs = Some (an_dir a) /\ forall p s, an_seen a !! p = Some s -> 0 <= seq_hwm s <= limit L /\ length (on_disk s) = 16%nat.

Definition anchor_ok (L : Ledger) (o : option Anchor) : Prop :=
  match o with Some a => seen_ok L a | None => dirs = None end.

Definition guard_open (L : Ledger) (g : Store) (w : World) : Prop :=
  guard_dead L w /\ (forall p s, st_peers g !! p = Some s -> p ∈ contacts /\ fits L p (s_state s)) /\ anchor_ok L (st_anchor g).

Lemma seen_see L a p fp hwm : length fp = 16%nat -> 0 <= hwm <= limit L -> seen_ok L a -> seen_ok L (see p fp hwm a).
Proof.
  intros H1 H2 [Hd Hs]. split; [done|]. intros q s. cbn. intros [[<- <-]|[_ Hq]]%lookup_insert_Some; [by split|by eapply Hs].
Qed.

Lemma recorded_off L a p w : seen_ok L a -> guard_dead L w ->
  runs (switch_off keys own a p) w (fun a' w' => recorded L w w' /\ seen_ok L a') (recorded L w).
Proof.
  intros [Hd Hs] Hg. unfold switch_off. cbv zeta. set (a' := mkAnchor _ _ true). assert (seen_ok L a') as Ha by done.
  destruct (path_of_runs a' p w) as (k & Hkey & Hpath). apply runs_bind. unfold runs at 1. rewrite Hpath. cbn [an_dir a'].
  destruct (an_dir a) as [dir|] eqn:Ed; [|apply runs_ret; split; [by apply recorded_refl|done]].
  assert (slashed (dir ++ anchor_name own k p)) as Hs1 by (apply elem_of_app; left; by apply Hdir).
  assert (forall w', others {[dir ++ anchor_name own k p]} w w' -> (at_file (dir ++ anchor_name own k p) None w' \/ at_file (dir ++ anchor_name own k p) (files w !! (dir ++ anchor_name own k p)) w') ->
    same_but slashed w w' -> recorded L w w') as Hend.
  { intros w' Ho Hat Hsb. split; [|done]. eapply slashed_frame; [exact Hsb| |exact Hg]. intros dir' k' q f Hd' Hk' Hf. destruct Hg as (_ & _ & Hg). apply (Hg dir' k' q f Hd' Hk').
    destruct (decide (dir' ++ anchor_name own k' q = dir ++ anchor_name own k p)) as [E|Hne].
    - rewrite E in Hf |- *. unfold at_file in Hat. destruct Hat; congruence.
    - rewrite <- Hf. symmetry. apply Ho. by intros Hq%elem_of_singleton. }
  set (gone w' := others {[dir ++ anchor_name own k p]} w w' /\
    (at_file (dir ++ anchor_name own k p) None w' \/ at_file (dir ++ anchor_name own k p) (files w !! (dir ++ anchor_name own k p)) w')).
  apply runs_bind. eapply runs_mono; [apply (runs_touches slashed); [by apply touches_remove|]| |]; cbn beta.
  - apply (runs_remove _ _ (fun _ => gone) gone); intros w' Ho Hn; by split; (split; [|auto]).
  - intros _ w' [[Ho Hat] Hsb]. apply runs_ret. split; [by apply Hend|done].
  - intros w' [[Ho Hat] Hsb]. by apply Hend.
Qed.

Lemma anchor_read_bounded L a p w : seen_ok L a -> guard_dead L w ->
  runs (anchor_read keys own a p) w
    (fun o w' => w' = w /\ forall r, o = Some r -> 0 <= send_seq_hwm r <= limit L /\ length (a_cur r) = 16%nat /\ length (a_next r) = 16%nat) (fun _ => False).
Proof.
  intros [Hd Hs] Hg. unfold anchor_read. destruct (path_of_runs a p w) as (k & Hkey & Hpath). apply runs_bind. unfold runs at 1. rewrite Hpath.
  destruct (an_dir a) as [dir|] eqn:Ed; [|by apply runs_ret]. apply runs_bind, runs_exists. destruct (files w !! _) as [f|] eqn:Ef; [|by apply runs_ret].
  rewrite bool_decide_eq_true_2 by done. cbn [negb]. apply runs_bind. unfold runs at 1. destruct Hg as (Hl & _ & Hg). pose proof (Hg dir k p f Hd Hkey Ef) as Hp.
  destruct (read_document_as keys ChatAnchor _ _ w) as [w' x] eqn:Er.
  destruct (record_part_reads Hk Hop sk (limit L) _ _ f w x w' (mkAnchorRecord [] [] 0) ltac:(lia) Ef Hp Er) as (-> & res & -> & _). apply runs_ret. split; [done|].
  intros r Hr. destruct res as [pt|e]; [|done].
  destruct (record_part_reads Hk Hop sk (limit L) _ _ f w _ w r ltac:(lia) Ef Hp Er) as (_ & res & E & Hres). injection E as <-. by eapply Hres.
Qed.

Lemma recorded_check L a p disk n nonce w :
  seen_ok L a -> guard_dead L w -> length nonce = NONCE_LEN -> length disk = 16%nat -> 0 <= n <= limit L ->
  runs (anchor_check keys own a p disk n nonce) w
    (fun r w' => recorded L w w' /\ seen_ok L r.1 /\ forall floor, r.2 = CBehind floor -> 0 <= floor <= limit L) (recorded L w).
Proof.
  intros Ha Hg Hn Hd Hs. unfold anchor_check. destruct (an_off a); [apply runs_ret; split; [by apply recorded_refl|by split]|].
  apply runs_bind. eapply runs_mono; [by apply anchor_read_bounded| |done]. cbn beta. intros o w' [-> Ho]. cbv zeta. pose proof Ha as [Hdir' Hseen].
  assert (forall a', seen_ok L a' -> forall x w', recorded L w w' -> runs (ret (a', CFine)) w' (fun r w' => recorded L w w' /\ seen_ok L r.1 /\ forall floor, r.2 = CBehind floor -> 0 <= floor <= limit L) x) as Hfine
    by (intros a' Ha' x w' Hw'; apply runs_ret; by split_and!).
  assert (0 <= match o with Some r => send_seq_hwm r | None => 0 end <= limit L) as Hm by (destruct o as [r|]; [by apply Ho|lia]).
  destruct (an_seen a !! p) as [s|] eqn:Es.
  - destruct (Hseen _ _ Es) as [Hs1 Hs2]. destruct (bool_decide _); [by apply Hfine, recorded_refl|]. apply runs_ret. split; [by apply recorded_refl|]. cbn [fst snd].
    split; [apply seen_see; try done; lia|]. intros floor [= <-]. lia.
  - destruct o as [r|].
    + destruct (Ho r eq_refl) as (Hr1 & Hr2 & Hr3). destruct (_ || _).
      * set (a1 := see p disk _ a). assert (seen_ok L a1) as Ha1 by (apply seen_see; try done; lia). apply runs_bind.
        eapply runs_mono; [|intros x w'; by apply Hfine|done]. destruct (_ || _); [|by apply runs_ret, recorded_refl].
        apply recorded_write; try done. cbn. lia.
      * apply runs_ret. split; [by apply recorded_refl|]. cbn [fst snd]. split; [by apply seen_see|]. by intros floor [= <-].
    + set (a1 := see p disk n a). assert (seen_ok L a1) as Ha1 by (by apply seen_see). apply runs_bind.
      eapply runs_mono; [|intros x w'; by apply Hfine|done]. destruct (negb _); [|by apply runs_ret, recorded_refl].
      by apply recorded_write.
Qed.

Lemma recorded_before L a p fp n nonce w :
  seen_ok L a -> guard_dead L w -> length nonce = NONCE_LEN -> length fp = 16%nat -> 0 <= n <= limit L ->
  runs (before_write keys own a p fp n nonce) w (fun r w' => recorded L w w' /\ seen_ok L r.1) (recorded L w).
Proof.
  intros Ha Hg Hn Hd Hs. unfold before_write. destruct (an_off a); [apply runs_ret; split; [by apply recorded_refl|done]|]. pose proof Ha as [Hdir' Hseen].
  destruct (match an_seen a !! p with Some s => _ | None => _ end) as [cur hwm] eqn:Ec.
  assert (length cur = 16%nat /\ 0 <= hwm <= limit L) as [Hcur Hhwm].
  { destruct (an_seen a !! p) as [s|] eqn:Es; injection Ec as <- <-; [destruct (Hseen _ _ Es); split; [done|lia]|by split]. }
  destruct (an_dir a) as [dir|] eqn:Ed; [|apply runs_ret; split; [by apply recorded_refl|done]]. apply runs_bind.
  eapply runs_mono; [apply (recorded_write L); try done; by rewrite Ed| |done]. cbn beta. intros ok w' [Hg' Hsb].
  destruct ok; [apply runs_ret; split; [by split|done]|]. apply runs_bind. eapply runs_mono; [by apply recorded_off| |]; cbn beta.
  - intros a' w'' [Hr Ha']. apply runs_ret. split; [by eapply recorded_trans|done].
  - intros w''. by apply recorded_trans.
Qed.

Lemma recorded_after L a p fp n nonce w :
  seen_ok L a -> guard_dead L w -> length nonce = NONCE_LEN -> length fp = 16%nat -> 0 <= n <= limit L ->
  runs (after_write keys own a p fp n nonce) w (fun a' w' => recorded L w w' /\ seen_ok L a') (recorded L w).
Proof.
  intros Ha Hg Hn Hd Hs. unfold after_write. cbv zeta. pose proof Ha as [Hdir' Hseen].
  set (hwm := match an_seen a !! p with Some s => _ | None => _ end).
  assert (0 <= hwm <= limit L) as Hhwm by (subst hwm; destruct (an_seen a !! p) as [s|] eqn:Es; [destruct (Hseen _ _ Es); lia|done]).
  set (a1 := see p fp hwm a). assert (seen_ok L a1) as Ha1 by (by apply seen_see).
  destruct (an_off a1); [apply runs_ret; split; [by apply recorded_refl|done]|].
  destruct (an_dir a1) as [dir|] eqn:Ed; [|apply runs_ret; split; [by apply recorded_refl|done]]. apply runs_bind.
  eapply runs_mono; [apply (recorded_write L); try done; by destruct Ha1| |done]. cbn beta. intros ok w' [Hg' Hsb].
  destruct ok; [apply runs_ret; split; [by split|done]|]. eapply runs_mono; [by apply recorded_off| |]; cbn beta.
  - intros a' w'' [Hr Ha']. split; [by eapply recorded_trans|done].
  - intros w''. by apply recorded_trans.
Qed.

(** *** The session files *)

Lemma session_paths p q : p ∈ contacts -> q ∈ contacts -> session_path own p = session_path own q -> p = q.
Proof. intros Hp Hq E. apply Hinj; [done|done|]. unfold session_path in E. by apply app_inv_tail in E. Qed.

Lemma session_file_mono L L' p f : ledger_le L L' -> acct L' p = acct L p -> session_file L p f -> session_file L' p f.
Proof.
  intros Hle Ha. unfold session_file. destruct f as [f|]; [|by apply fits_mono]. intros (Hs & st & Hd & Hf). split; [done|]. exists st. split; [done|by eapply fits_mono].
Qed.

(** What knows more can stand for what knows less. *)
Lemma fits_grown L L' p st : grows p L L' -> fits L' p st -> fits L p st.
Proof. intros (Hl & Hu & Ha & _) Hf. pose proof Hf as (_ & _ & Hs & _). eapply fits_le; [| | | |exact Hf]; [lia|done|done|lia]. Qed.

Definition same_logs (w w' : World) : Prop := forall q, logname own q -> files w' !! q = files w !! q.

Lemma same_logs_trans w1 w2 w3 : same_logs w1 w2 -> same_logs w2 w3 -> same_logs w1 w3.
Proof. intros H1 H2 q Hq. by rewrite H2, H1. Qed.

Lemma guard_seal L L' p st b w : p ∈ contacts -> guard_dead L w -> grows p L L' -> fits L' p st ->
  document sk ChatSessions (session_path own p) (peer_bytes st) b ->
  runs (write_sealed (session_path own p) b true) w
    (fun r w' => guard_dead (if is_ok r then L' else L) w' /\ same_logs w w') (fun w' => guard_dead L w' /\ same_logs w w').
Proof.
  intros Hp Hg Hgr Hf Hd.
  assert (forall w', others {[session_path own p; staged_tmp (session_path own p)]} w w' -> same_logs w w' /\
    (forall L1, limit L1 = limit L -> used L1 = used L -> (forall q, q <> p -> acct L1 q = acct L q) ->
       session_file L1 p (files w' !! session_path own p) -> guard_dead L1 w')) as Hend.
  { intros w' Ho. split.
    - intros q Hq. apply Ho. destruct (logname_session own p q Hq) as [? ?]. set_solver.
    - intros L1 Hl Hu Ha Hsf. destruct Hg as (H1 & H2 & H3). split; [by rewrite Hl|]. split.
      + intros q Hq. destruct (decide (q = p)) as [->|Hne]; [done|]. rewrite Ho.
        * eapply session_file_mono; [| |by apply H2]; [split; [lia|by rewrite Hu]|by apply Ha].
        * intros [E|E]%elem_of_union; apply elem_of_singleton in E; [by apply session_paths in E|]. apply (f_equal ext2) in E. rewrite session_ext, staged_ext in E. done.
      + intros dir k q f Hdd Hkk Hff. rewrite Hl. apply (H3 dir k q f Hdd Hkk). rewrite <- Hff. symmetry. apply Ho.
        intros [E|E]%elem_of_union; apply elem_of_singleton in E; pose proof (Hdir dir Hdd) as Hsl.
        * apply (session_plain own Hst p). rewrite <- E. apply elem_of_app. by left.
        * assert (SLASH ∈ staged_tmp (session_path own p)) as Hin by (rewrite <- E; apply elem_of_app; by left).
          apply elem_of_app in Hin as [Hin|Hin]; [by apply (session_plain own Hst p)|]. vm_compute in Hin. set_solver. }
  pose proof Hgr as (Hl & Hu & Hac & Hoth).
  assert (forall w', files w' !! session_path own p = files w !! session_path own p -> session_file L p (files w' !! session_path own p)) as Hold
    by (intros w' E; rewrite E; by apply Hg).
  assert (forall w' s, files w' !! session_path own p = Some (mkFile b s) -> s = length b -> session_file L' p (files w' !! session_path own p)) as Hnew
    by (intros w' s E ->; rewrite E; split; [done|by exists st]).
  eapply runs_mono; [exact (runs_write_any slashed Hc Ht Hk _ _ _ _)| |]; cbn beta.
  - intros r w' [Hr Ho]. destruct (Hend w' Ho) as [Hlogs Hg']. split; [|done]. destruct r as [u|e]; cbn [is_ok].
    + destruct Hr as (s & Hat & Hs). apply Hg'; try done. eapply Hnew; [exact Hat|by apply Hs].
    + apply Hg'; try done. by apply Hold.
  - intros w' [Hr Ho]. destruct (Hend w' Ho) as [Hlogs Hg']. split; [|done]. apply Hg'; try done. destruct Hr as [(s & Hat & Hs)|Hat]; [|by apply Hold].
    pose proof (Hnew w' s Hat (Hs eq_refl)) as Hn. unfold at_file in Hat. rewrite Hat in Hn |- *. destruct Hn as (? & st' & ? & ?). split; [done|]. exists st'. split; [done|by eapply fits_grown].
Qed.

Lemma recorded_logs L w w' : recorded L w w' -> guard_dead L w' /\ same_logs w w'.
Proof. intros [H1 H2]. split; [done|]. intros q Hq. by apply (slashed_logs w w'). Qed.

Lemma guard_dead_grown L L' p w : p ∈ contacts -> grows p L L' -> guard_dead L' w -> guard_dead L w.
Proof.
  intros Hp Hgr (H1 & H2 & H3). pose proof Hgr as (Hl & Hu & Ha & Hoth). split; [by rewrite <- Hl|]. split.
  - intros q Hq. specialize (H2 q Hq). destruct (decide (q = p)) as [->|Hne].
    + unfold session_file in *. destruct (files w !! _); [|by eapply fits_grown]. destruct H2 as (? & st & ? & ?). split; [done|]. exists st. split; [done|by eapply fits_grown].
    + eapply session_file_mono; [| |exact H2]; [split; [lia|by rewrite Hu]|]. symmetry. by apply Hoth.
  - intros dir k q f. rewrite <- Hl. apply H3.
Qed.

Lemma anchor_ok_limit L L' o : limit L <= limit L' -> anchor_ok L o -> anchor_ok L' o.
Proof. intros Hl. destruct o as [a|]; [|done]. intros [Hd Hs]. split; [done|]. intros p s Hp. destruct (Hs p s Hp). split; [lia|done]. Qed.

(** A state is written. *)
Lemma guard_write L L' p st g w : p ∈ contacts -> guard_dead L w -> anchor_ok L (st_anchor g) -> grows p L L' -> fits L' p st ->
  runs (write_peer keys own st g) w
    (fun r w' => guard_dead (if is_ok r.2 then L' else L) w' /\ anchor_ok L (st_anchor r.1) /\ st_peers r.1 = st_peers g /\ st_writers r.1 = st_writers g /\ same_logs w w')
    (fun w' => guard_dead L w' /\ same_logs w w').
Proof.
  intros Hp Hg Ha Hgr Hf. pose proof Hf as (Hwf & Hpe & Hs & _). pose proof Hwf as (_ & Hsu & _). pose proof Hgr as (Hl & _). unfold write_peer. rewrite Hpe. cbv zeta.
  assert (0 <= send_seq st <= limit L) as Hseq by (destruct Hsu; lia). destruct (st_anchor g) as [a|] eqn:Ea.
  - apply runs_bind. destruct (doc_seal keys ChatSessions (session_path own p) (peer_bytes st) (nonce_at (st_rng g))) as [[b|e]|] eqn:Es; cbn [lift];
      [apply runs_ret|by apply runs_ret, runs_ret; cbn; rewrite Ea|by unfold runs, die].
    apply (doc_seal_document Hc Ht Hk) in Es; [|apply Hco]. apply runs_bind.
    eapply runs_mono; [apply (recorded_before L a p); try done; apply Hco| |intros w'; apply recorded_logs]. cbn beta. intros [a1 ok] w1 [Hr1 Ha1]. apply recorded_logs in Hr1 as [Hg1 Hl1]. cbn [fst] in *.
    apply runs_bind. eapply runs_mono; [by eapply (guard_seal L L')| |]; cbn beta.
    2: { intros w' [? ?]. split; [done|by eapply same_logs_trans]. }
    intros r w2 [Hg2 Hl2]. assert (same_logs w w2) as Hl02 by (by eapply same_logs_trans). destruct r as [u|e]; cbn [is_ok] in Hg2; [|by apply runs_ret].
    apply runs_bind. eapply runs_mono; [apply (recorded_after L' a1 p); try done; [by eapply (anchor_ok_limit L L' (Some a1)); [lia|]|apply Hco|by rewrite Hl]| |]; cbn beta.
    + intros a2 w3 [Hr3 Ha2]. apply recorded_logs in Hr3 as [Hg3 Hl3]. apply runs_ret. cbn [fst snd is_ok]. split_and!; try done; [|by eapply same_logs_trans].
      apply (anchor_ok_limit L' L (Some a2)); [lia|done].
    + intros w3 Hr3. apply recorded_logs in Hr3 as [Hg3 Hl3]. split; [by eapply guard_dead_grown|by eapply same_logs_trans].
  - apply runs_bind. unfold write_document. apply runs_try.
    destruct (doc_seal keys ChatSessions (session_path own p) (peer_bytes st) (nonce_at (st_rng g))) as [[b|e]|] eqn:Es; cbn [lift];
      [apply runs_ret|by apply runs_ret, runs_ret; cbn; rewrite Ea|by unfold runs, die].
    apply (doc_seal_document Hc Ht Hk) in Es; [|apply Hco]. eapply runs_mono; [by eapply (guard_seal L L')| |done]. cbn beta. intros r w2 [Hg2 Hl2]. apply runs_ret.
    cbn. rewrite Ea. split_and!; try done. by destruct r.
Qed.

(** A contact is read: the state in its file, or one that goes on from there. *)
Lemma guard_load L p g w : p ∈ contacts -> guard_dead L w -> anchor_ok L (st_anchor g) ->
  runs (load_peer keys own secs_at p g) w
    (fun r w' => guard_dead L w' /\ anchor_ok L (st_anchor r.1.1) /\ fits L p r.1.2 /\ st_peers r.1.1 = st_peers g /\ st_writers r.1.1 = st_writers g /\ same_logs w w')
    (fun w' => guard_dead L w' /\ same_logs w w').
Proof.
  intros Hp Hg Ha. unfold load_peer. cbv zeta. apply runs_bind, runs_exists, runs_bind. pose proof Hg as (Hlim & Hg2 & _). specialize (Hg2 p Hp).
  assert (exists found, (if bool_decide (is_Some (files w !! session_path own p)) then
      let* r := read_fingerprinted keys ChatSessions (session_path own p) in
      match found_state p r with
      | Some x => ret (Some x)
      | None => let* _ := set_aside (session_path own p) (secs_at (st_rng g)) in ret None
      end else ret None) w = (w, Some found) /\ fits L p (match found with Some x => x.1 | None => new_peer p end) /\
      length (match found with Some x => x.2 | None => NO_FILE end) = 16%nat) as (found & Hfound & Hfit & Hlen).
  { unfold session_file in Hg2. destruct (files w !! session_path own p) as [f|] eqn:Ef; [|by exists None].
    rewrite bool_decide_eq_true_2 by done. destruct Hg2 as (_ & st & Hd & Hf). exists (Some (st, fingerprint (content f))).
    split; [|split; [done|apply Hfp]]. destruct f as [b n]. pose proof Hf as (Hwf & Hpe & _). exact (session_found sk own _ p st b n w Ef Hd Hwf Hpe). }
  unfold runs at 1. rewrite Hfound. cbv zeta. set (st := match found with Some x => x.1 | None => new_peer p end) in *. set (disk := match found with Some x => x.2 | None => NO_FILE end) in *.
  destruct (st_anchor g) as [a|] eqn:Ea; [|by apply runs_ret; cbn; rewrite Ea]. apply runs_bind. pose proof Hfit as (Hwf & Hpe & Hs & _ & Hap). pose proof Hwf as (_ & Hsu & _).
  eapply runs_mono; [apply (recorded_check L a p disk (send_seq st)); try done; [apply Hco|destruct Hsu; lia]| |intros w'; apply recorded_logs]. cbn beta.
  intros [a' c] w' (Hr & Ha' & Hfl). apply recorded_logs in Hr as [Hg' Hl']. apply runs_ret. cbn [fst snd] in *. destruct c as [|floor]; cbn [fst snd]; [by split_and!|]. split_and!; try done.
  specialize (Hfl floor eq_refl). apply fits_rolled; try done; [by right|lia..].
Qed.

Lemma guard_evict L g w : guard_open L g w ->
  runs (evict keys own g) w (fun g' w' => guard_open L g' w' /\ (forall q wr, st_writers g' !! q = Some wr -> st_writers g !! q = Some wr) /\ same_logs w w')
    (fun w' => guard_dead L w' /\ same_logs w w').
Proof.
  intros (Hg & Hp & Ha). unfold evict. destruct (oldest _ _) as [v|]; [|by apply runs_ret]. destruct (st_peers g !! v) as [s|] eqn:Ev; [|by apply runs_ret]. cbv zeta.
  destruct (Hp v s Ev) as [Hv Hf]. set (g1 := with_peers _ g).
  assert (forall q s', st_peers g1 !! q = Some s' -> q ∈ contacts /\ fits L q (s_state s')) as Hp1 by (intros q s' Hq; cbn in Hq; apply lookup_delete_Some in Hq as [_ Hq]; by apply Hp).
  apply runs_bind. destruct (s_dirty s).
  - apply runs_bind. eapply runs_mono; [by apply (guard_write L L v (s_state s) g1 w Hv Hg Ha (ledger_grows_refl v L) Hf)| |done]. cbn beta. intros [g2 r] w2 (Hg2 & Ha2 & Hpe & Hwr & Hl2).
    apply runs_ret, runs_ret. cbn [fst snd] in *. split; [split_and!|split; [|done]].
    + by destruct (is_ok r).
    + intros q s'. cbn. rewrite Hpe. apply Hp1.
    + done.
    + intros q wr Hq. cbn in Hq. rewrite Hwr in Hq. by apply lookup_delete_Some in Hq as [_ ?].
  - apply runs_ret, runs_ret. split; [by split_and!|]. split; [|done]. intros q wr Hq. cbn in Hq. by apply lookup_delete_Some in Hq as [_ ?].
Qed.

Lemma guard_slot L g w p : p ∈ contacts -> guard_open L g w ->
  runs (slot keys own secs_at p g) w
    (fun r w' => guard_open L r.1 w' /\ st_peers r.1 !! p = Some r.2 /\ fits L p (s_state r.2) /\ same_logs w w' /\
                 (forall q wr, st_writers r.1 !! q = Some wr -> st_writers g !! q = Some wr))
    (fun w' => guard_dead L w' /\ same_logs w w').
Proof.
  intros Hp (Hg & Hpe & Ha). unfold slot. cbv zeta. destruct (st_peers (tick_store g) !! p) as [s|] eqn:Es.
  - destruct (Hpe p s Es) as [_ Hf]. apply runs_ret. cbn [fst snd]. split_and!; try done; [|apply lookup_insert_eq].
    split_and!; [done| |done]. intros q s'. cbn. intros [[<- <-]|[_ Hq]]%lookup_insert_Some; [done|by apply Hpe].
  - apply runs_bind. assert (guard_open L (tick_store g) w) as Hg0 by (by split_and!).
    eapply (runs_mono _ _ (fun g' w' => guard_open L g' w' /\ (forall q wr, st_writers g' !! q = Some wr -> st_writers g !! q = Some wr) /\ same_logs w w') _
             (fun w' => guard_dead L w' /\ same_logs w w')); [destruct (_ <=? _)%nat; [exact (guard_evict L (tick_store g) w Hg0)|by apply runs_ret]| |done]. cbn beta.
    intros g1 w1 ((Hg1 & Hp1 & Ha1) & Hw1 & Hl1). apply runs_bind. eapply runs_mono; [by apply guard_load| |intros w' [? ?]; split; [done|by eapply same_logs_trans]]. cbn beta.
    intros [[g2 st] b] w2 (Hg2 & Ha2 & Hf2 & Hpe2 & Hwr2 & Hl2). cbn [fst snd] in *. apply runs_ret. cbn [fst snd].
    assert (forall g', st_peers g' = st_peers g1 -> st_anchor g' = st_anchor g2 -> st_writers g' = st_writers g1 -> guard_open L (with_peers (<[p := mkSlot st b (st_tick (tick_store g)) None]> (st_peers g')) g') w2 /\
      (forall q wr, st_writers g' !! q = Some wr -> st_writers g !! q = Some wr)) as Hend.
    { intros g' E1 E2 E3. split; [split_and!|]; [done| |cbn; by rewrite E2|rewrite E3; apply Hw1]. intros q s'. cbn. rewrite E1.
      intros [[<- <-]|[_ Hq]]%lookup_insert_Some; [done|by apply Hp1]. }
    destruct b.
    + destruct (Hend (with_rolled ({[p]} ∪ st_rolled g2) g2) Hpe2 eq_refl Hwr2) as [E1 E2]. split_and!; [done|apply lookup_insert_eq|done|by eapply same_logs_trans|done].
    + destruct (Hend g2 Hpe2 eq_refl Hwr2) as [E1 E2]. split_and!; [done|apply lookup_insert_eq|done|by eapply same_logs_trans|done].
Qed.

Lemma guard_flush L L' g w p : p ∈ contacts -> guard_open L g w -> grows p L L' ->
  (L' = L \/ exists s, st_peers g !! p = Some s /\ s_dirty s = true /\ fits L' p (s_state s)) ->
  runs (flush_slot keys own p g) w
    (fun r w' => guard_open (if is_ok r.2 then L' else L) r.1 w' /\ st_writers r.1 = st_writers g /\ same_logs w w') (fun w' => guard_dead L w' /\ same_logs w w').
Proof.
  intros Hp (Hg & Hpe & Ha) Hgr Hch. unfold flush_slot.
  assert (guard_open L g w) as Hopen by (by split_and!).
  destruct (st_peers g !! p) as [s|] eqn:Es; [|apply runs_ret; destruct Hch as [->|(? & ? & _)]; [by split_and!|done]].
  destruct (s_dirty s) eqn:Ed; [|apply runs_ret; destruct Hch as [->|(? & [= <-] & ? & _)]; [by split_and!|congruence]].
  assert (fits L' p (s_state s)) as Hf by (destruct Hch as [->|(? & [= <-] & _ & ?)]; [by apply Hpe|done]).
  apply runs_bind. eapply runs_mono; [by apply (guard_write L L' p (s_state s) g w)| |done]. cbn beta. intros [g' r] w' (Hg' & Ha' & Hpe' & Hwr' & Hl').
  cbn [fst snd] in *. pose proof Hgr as (Hl & Hu & _ & Hoth). destruct r as [u|e]; cbn [is_ok] in *; apply runs_ret; cbn [fst snd is_ok]; (split; [|by split]).
  - split_and!; [done| |apply (anchor_ok_limit L L'); [lia|done]]. intros q s'. cbn. rewrite Hpe'. intros [[<- <-]|[Hne Hq]]%lookup_insert_Some; [done|].
    destruct (Hpe q s' Hq) as [? ?]. split; [done|]. eapply fits_mono; [| |done]; [split; [lia|by rewrite Hu]|by apply Hoth].
  - split_and!; [done| |done]. intros q s'. rewrite Hpe'. apply Hpe.
Qed.

(** The frame: names that are not guarded do not matter. *)
Lemma guard_frame L w w' : same_but (fun q => ~ guarded own q) w w' -> guard_dead L w -> guard_dead L w'.
Proof.
  intros [Hs _] (H1 & H2 & H3). split; [done|]. split.
  - intros p Hp. rewrite Hs; [by apply H2|]. intros Hn. apply Hn. right. by exists p.
  - intros dir k p f Hd Hkk Hf. apply (H3 dir k p f Hd Hkk). rewrite <- Hf. symmetry. apply Hs. intros Hn. apply Hn. left. apply elem_of_app. left. by apply Hdir.
Qed.

Lemma record_part_limit b b' n f : b <= b' -> record_part sk b n f -> record_part sk b' n f.
Proof. intros Hb (r & x & k & H1 & H2 & H3 & H4 & H5). exists r, x, k. split_and!; try done; lia. Qed.

Lemma guard_dead_mono L L' w : ledger_le L L' -> acct L' = acct L -> limit L' <= u64_max -> guard_dead L w -> guard_dead L' w.
Proof.
  intros Hle Ha Hl (H1 & H2 & H3). pose proof Hle as [Hl' _]. split; [lia|]. split.
  - intros p Hp. eapply session_file_mono; [exact Hle|by rewrite Ha|by apply H2].
  - intros dir k p f Hd Hkk Hf. eapply record_part_limit; [exact Hl'|]. by eapply H3.
Qed.

#[refine, local] Instance guard_regime : StoreRegime keys own secs_at contacts (new_anchor <$> dirs) := {|
  sr_open := guard_open; sr_dead := guard_dead;
|}.
Proof.
  - by intros L g w [? _].
  - intros L w n Hg. split_and!; [done|done|]. cbn. destruct dirs as [d|] eqn:Ed; cbn; [|done]. split; [done|]. done.
  - intros L g w p Hp Hg. eapply runs_mono; [by apply guard_slot| |done]. cbn beta. intros r w' (H1 & H2 & H3 & H4 & H5). by split_and!.
  - intros L g w p s st d n o (Hg & Hpe & Ha) Hp Hf _. split_and!; [done| |done]. intros q s'. cbn. intros [[<- <-]|[_ Hq]]%lookup_insert_Some; [|by apply Hpe].
    split; [by eapply Hpe|done].
  - intros L L' g w p Hp Hg Hgr Hch. eapply runs_mono; [by apply guard_flush| |done]. by cbn beta.
  - intros L g g' w Hp Ha (Hg & Hpe & Han). split_and!; [done|by rewrite Hp|by rewrite Ha].
  - intros L g w w' Hs (Hg & Hpe & Ha). split_and!; [by eapply guard_frame|done|done].
  - intros L w w'. apply guard_frame.
  - intros L L' g w Hle Ha Hl (Hg & Hpe & Han). split_and!; [by eapply guard_dead_mono| |apply (anchor_ok_limit L L'); [apply Hle|done]].
    intros p s Hp. destruct (Hpe p s Hp). split; [done|]. eapply fits_mono; [exact Hle|by rewrite Ha|done].
  - intros L L' w. apply guard_dead_mono.
Defined.

(** Power is lost; a disk without session files. *)
Lemma guard_power L w keep : guard_dead L w -> guard_dead L (power_loss keep w).
Proof.
  intros (H1 & H2 & H3). split; [done|]. split.
  - intros p Hp. specialize (H2 p Hp). rewrite settled_kept; [done|]. unfold session_file in H2. destruct (files w !! _); [apply H2|done].
  - intros dir k p f Hd Hkk. rewrite power_loss_lookup. destruct (files w !! _) as [f0|] eqn:Ef; [|done]. intros [= <-].
    destruct (H3 dir k p f0 Hd Hkk Ef) as (r & b & n & R1 & R2 & R3 & R4 & R5). unfold after_loss. eexists r, b, _. split; [done|]. split; [cbn; by rewrite R2, take_take|done].
Qed.

Definition empty_ledger (us : list bytes) : Ledger := mkLedger 0 us (fun _ => mkAccount [] 0 []).

Lemma guard_empty us w : files w = ∅ -> guard_dead (empty_ledger us) w.
Proof.
  intros Hw. split; [by cbn|]. split.
  - intros p Hp. rewrite Hw, lookup_empty. cbn. split; [apply wf_new_peer; rewrite Forall_forall in Hcon; by apply Hcon|]. cbn. by split_and!.
  - intros dir k p f _ _. by rewrite Hw, lookup_empty.
Qed.

End Guard.
