(* ===== verification/ChatToys.v ===== *)
(** * ChatToys: stand-ins for the primitives of the chat

    Transparent functions that satisfy what the chat's theorems ask of the
    hashes, the cipher and the curve, for the examples that apply them. *)

From S2P Require Import Prelude Bytes Text Codec ErasureCode Dissolve Disk SealedState SealedLog SealedRewrite Journal ChatOutbox Ratchet RatchetRun RatchetTalk PeerState ChatProto Anchor ChatStore ChatEngine ChatLedger DiskFrame ChatRegime ChatBox ChatRules ChatGuard.

Module ChatToys.

(** A transparent cipher whose tag is the head of the key. *)
Definition head_tag (key : bytes) : bytes := take 16 (key ++ replicate 16 0).

#[export] Instance chat_cipher : StateCipher := {
  xchacha_seal key nonce aad pt := Some (pt, head_tag key);
  xchacha_open key nonce aad ct tag := if bool_decide (tag = head_tag key) then Some ct else None;
}.

Lemma head_tag_length k : length (head_tag k) = 16%nat.
Proof. unfold head_tag. rewrite length_take, length_app, length_replicate. lia. Qed.

Lemma chat_correct : cipher_correct.
Proof. intros key nonce aad pt ct tag [= <- <-]. split_and!; [done|apply head_tag_length|]. cbn. by rewrite bool_decide_eq_true_2. Qed.
Lemma chat_total : cipher_total.
Proof. by eexists. Qed.

(** Hashes keep the last 32 values. *)
#[export] Instance chat_crypto : Crypto := {
  blake3 d := d; blake3_derive c d := map (fun x => x mod 256) (take 32 (rev d ++ replicate 32 0));
  aead_seal k n a p := Some p; aead_open k n a c := Some c;
  hkdf salt ikm info := Some (take 32 (ikm ++ default [] salt ++ info));
  sharks_deal k s c n := []; sharks_recover k s := None;
}.

#[export] Instance chat_ratchet : RatchetCrypto := {
  x_public s := be_bytes 32 (from_be s); x_dh a b := Some (be_bytes 32 (from_be a + from_be b));
  ed_id seed := seed; ed_scalar seed := seed; ed_montgomery id := Some (be_bytes 32 (from_be id));
  hkdf_expand salt ikm info n := Some (be_bytes n (3 * from_be ikm + from_be salt + from_be info));
  hkdf_prk prk info n := if (length prk <? 32)%nat then None else Some (be_bytes n (3 * from_be prk + from_be info));
}.

#[export] Instance chat_keyed : KeyedHash := { blake3_keyed k d := map (fun x => x mod 256) (take 32 (rev d ++ replicate 32 0)) }.
#[export] Instance chat_coins : Coins := { salt_at n := replicate 16 1; nonce_at n := be_bytes 24 (Z.of_nat n) }.

Lemma chat_hkdf : hkdf_total.
Proof. by eexists. Qed.
Lemma chat_opens : cipher_opens.
Proof. intros key nonce aad ct tag pt. cbn. case_bool_decide; [|done]. by intros [= <-]. Qed.
Lemma chat_coins_sized : coins_sized.
Proof. intros n. split; [done|apply be_bytes_length]. Qed.
Lemma chat_sized : kdf_sized.
Proof.
  split_and!.
  - intros s. apply TalkDemo.be_array.
  - intros salt ikm info n out [= <-]. apply TalkDemo.be_array.
  - intros prk info n out. cbn [hkdf_prk chat_ratchet]. destruct (_ <? _)%nat; [done|]. intros [= <-]. apply TalkDemo.be_array.
Qed.
Lemma chat_montgomery : montgomery_sized.
Proof. intros p m [= <-]. apply TalkDemo.be_array. Qed.

Lemma chat_fingerprint : fingerprint_sized.
Proof. intros d. unfold fingerprint. cbn [blake3_derive chat_crypto]. rewrite length_take, length_map, length_take, length_app, length_replicate. lia. Qed.
Lemma chat_keyed_sized : keyed_sized.
Proof. intros k d. cbn [blake3_keyed chat_keyed]. rewrite length_map, length_take, length_app, length_replicate. lia. Qed.


(** The keys and the identity of the examples. *)
Definition key (n : Z) : bytes := replicate 32 n.
Definition ident (n : Z) : Identity := mkIdentity (key n) (key n) (x_public (key n)).
Definition no_id : Z -> bytes := replicate 16.

Lemma key_ok n : 0 <= n < 256 -> array 32 (key n).
Proof. intros Hn. split; [apply length_replicate|]. apply Forall_replicate. ulia. Qed.
Lemma id_ok n : 0 <= n < 256 -> array 16 (no_id n).
Proof. intros Hn. split; [apply length_replicate|]. apply Forall_replicate. ulia. Qed.
Lemma ident_ok n : 0 <= n < 256 -> identity_wf (ident n).
Proof. intros Hn. split_and!; [by apply key_ok..|done]. Qed.

Lemma chat_stems own : stems_ok own.
Proof.
  intros p. cbn [blake3_derive chat_crypto]. apply Forall_forall. intros x (y & <- & _)%list_elem_of_In%in_map_iff. pose proof (Z.mod_pos_bound y 256 ltac:(lia)). ulia.
Qed.

(** What a contact writes to start a conversation: message [n] in its first
    session. *)
Definition first_wire (from to : Z) (m : Message) : bytes :=
  match new_initiator (ident from) (key to) (key 100) (key 101), message_encode m with
  | Ok s, Ok plain => match seal_with s plain None (no_id 7) with (_, Ok env) => env_encode env | _ => [] end
  | _, _ => []
  end.

End ChatToys.
