(* ===== verification/ChatOnce.v ===== *)
(** * ChatOnce: no key and no number is used twice

    The chat engine as a machine: calls in any order, restarts, a process that
    dies in the middle of a call, and losses of power.  What leaves the machine
    are envelopes, numbers given to messages and numbers acknowledged as stored;
    none is used twice. *)

From S2P Require Import Prelude Bytes Text Codec ErasureCode Dissolve Disk SealedState SealedLog SealedRewrite Journal ChatOutbox Ratchet PeerState ChatProto Anchor ChatStore ChatEngine ChatLedger DiskFrame ChatRegime ChatBox ChatRules ChatGuard ChatToys.

(** ** The machine *)

(** The calls of the engine with what they draw at random and the time of day. *)
Inductive Op :=
| OpEnqueue (p : bytes) (text : str) (now : Z) (id : bytes) (coin : nat)
| OpPrepare (id ek ratchet env_id : bytes) (coin : nat)
| OpSealFor (p plain ek ratchet env_id : bytes) (coin : nat)
| OpAccept (p wire : bytes) (now : Z) (secret secret' : bytes) (coin : nat)
| OpAcceptRaw (p wire : bytes) (handle : bytes -> AckStatus) (secret secret' : bytes) (coin : nat)
| OpReset (p : bytes) (coin : nat)
| OpFinish (id : bytes) (s : MsgState) (reason : option str) (now : Z) (why : str) (coin : nat)
| OpMarkRead (p : bytes) (up_to now : Z) (id : bytes) (coin : nat)
| OpSetReceipts (p : bytes) (on : bool) (coin : nat)
| OpHistory (p : bytes) (before : option Z) (limit : Z)
| OpDelete (p id : bytes) (coin : nat)
| OpForget (p noise : bytes) (coin : nat)
| OpAnswer (p : bytes) (items : list SyncItem)
| OpReply (p : bytes) (asked : list SyncItem) (have : list bytes) (now : Z) (why : str) (coin : nat)
| OpSwitch (on : bool) (ms : Z)
| OpSweep (cutoff : Z) (cs : list Summary)
| OpClose (order : list bytes)
| OpStart (now secs : Z) (coin : nat).

(** An envelope that left, a number that was given, a number stored. *)
Inductive Out := Sent (p wire : bytes) | Given (p : bytes) (n : Z) | Got (p : bytes) (n : Z).

Definition sent_of (p : bytes) (r : result (bytes * bytes) PrepareError) : list Out :=
  match r with Ok (b, _) => [Sent p b] | Err _ => [] end.

Definition given_of (p : bytes) (c : Core) (r : result bytes EnqueueError) : list Out :=
  match r, last (entries (c_box c)) with Ok _, Some e => [Given p (e_seq e)] | _, _ => [] end.

(** The event that the call added. *)
Definition got_of (c c' : Core) : list Out :=
  if ev_next c' =? ev_next c then []
  else match last (ev_items c') with
       | Some ev => match ev_kind ev with EvReceived => [Got (ev_peer ev) (m_seq (ev_message ev))] | _ => [] end
       | None => []
       end.

(** The disk and the process, if one runs. *)
Definition Machine : Type := World * option Core.

Definition call {X} (m : Disk (Core * X)) (outs : Core -> X -> list Out) (w : World) : Machine * list Out :=
  match m w with (w', Some (c, x)) => (w', Some c, outs c x) | (w', None) => (w', None, []) end.

Definition call_ (m : Disk Core) (w : World) : Machine * list Out :=
  match m w with (w', Some c) => (w', Some c, []) | (w', None) => (w', None, []) end.

Section Machine.
Context {CR : Crypto} {SC : StateCipher} {RC : RatchetCrypto} {KH : KeyedHash} {CO : Coins}.
Context (cfg : StoreSettings) (keys : StateKeys) (secs_at : nat -> Z) (me : Identity) (max_text : Z) (anchor0 : option Anchor).

Definition peer_of_entry (c : Core) (id : bytes) : bytes := match get_entry (c_box c) id with Some e => e_peer e | None => [] end.

Definition quiet {X} (c : Core) (x : X) : list Out := [].

Definition do_call (op : Op) (c : Core) (w : World) : Machine * list Out :=
  match op with
  | OpEnqueue p text now id coin => call (enqueue cfg keys secs_at me max_text p text now id coin c) (given_of p) w
  | OpPrepare id ek ratchet eid coin => call (prepare_wire cfg keys secs_at me id ek ratchet eid coin c) (fun _ => sent_of (peer_of_entry c id)) w
  | OpSealFor p plain ek ratchet eid coin => call (seal_for cfg keys secs_at me p plain ek ratchet eid coin c) (fun _ => sent_of p) w
  | OpAccept p wire now s s' coin => call (accept cfg keys secs_at me max_text p wire now s s' coin c) (fun c' _ => got_of c c') w
  | OpAcceptRaw p wire handle s s' coin => call (accept_raw cfg keys secs_at me p wire handle s s' coin c) quiet w
  | OpReset p coin => call_ (reset_session cfg keys secs_at me p coin c) w
  | OpFinish id s reason now why coin => call_ (finish cfg keys secs_at me id s reason now why coin c) w
  | OpMarkRead p up now id coin => call (mark_read cfg keys secs_at me p up now id coin c) quiet w
  | OpSetReceipts p on coin => call (set_receipts cfg keys secs_at me p on coin c) quiet w
  | OpHistory p before lim => call (chat_history cfg keys secs_at me p before lim c) quiet w
  | OpDelete p id coin => call (delete_message cfg keys secs_at me p id coin c) quiet w
  | OpForget p noise coin => call (delete_conversation cfg keys secs_at me p noise coin c) quiet w
  | OpAnswer p items => call (answer keys secs_at me max_text p items c) quiet w
  | OpReply p asked have now why coin => call (apply_reply cfg keys secs_at me p asked have now why coin 0 c) quiet w
  | OpSwitch on ms => call_ (ret (set_receipt_interval_ms ms (set_receipts_global on c))) w
  | OpSweep cutoff cs => call (in_store (sweep_each cfg keys (id_key me) secs_at cutoff cs 0) c) quiet w
  | OpClose order => call (in_store (fun g => let* g := close_store keys (id_key me) order g in ret (g, tt)) c) quiet w
  | OpStart now secs coin => call_ (open_core cfg keys secs_at me anchor0 now secs coin) w
  end.

(** Without a process only a start does anything. *)
Definition step (m : Machine) (op : Op) : Machine * list Out :=
  match m, op with
  | (w, _), OpStart now secs coin => call_ (open_core cfg keys secs_at me anchor0 now secs coin) w
  | (w, Some c), _ => do_call op c w
  | (w, None), _ => (m, [])
  end.

End Machine.

(** The public keys of the ratchet secrets a call draws. *)
Definition drawn `{RatchetCrypto} (op : Op) : list bytes :=
  match op with
  | OpPrepare _ _ r _ _ | OpSealFor _ _ _ r _ _ => [x_public r]
  | OpAccept _ _ _ s s' _ | OpAcceptRaw _ _ _ s s' _ => [x_public s; x_public s']
  | _ => []
  end.

(** Calls with arguments of the right shape, for contacts; an id is drawn for
    one contact. *)
Definition op_ok (contacts : list bytes) (peer_of : bytes -> bytes) (op : Op) : Prop :=
  match op with
  | OpEnqueue p text now id _ => p ∈ contacts /\ peer_of id = p /\ array 16 id /\ text_ok text /\ in_u64 now
  | OpPrepare _ _ r eid _ => array 32 r /\ length eid = 16%nat
  | OpSealFor p _ _ r eid _ => p ∈ contacts /\ array 32 r /\ length eid = 16%nat
  | OpAccept p wire now s s' _ => p ∈ contacts /\ bytes_ok wire /\ in_u64 now /\ array 32 s /\ array 32 s'
  | OpAcceptRaw p wire _ s s' _ => p ∈ contacts /\ bytes_ok wire /\ array 32 s /\ array 32 s'
  | OpReset p _ | OpSetReceipts p _ _ | OpHistory p _ _ | OpDelete p _ _ | OpForget p _ _ | OpAnswer p _ => p ∈ contacts
  | OpFinish _ _ _ now _ _ => in_u64 now
  | OpMarkRead p up now id _ => p ∈ contacts /\ peer_of id = p /\ array 16 id /\ in_u64 up /\ in_u64 now
  | OpReply _ _ _ now _ _ => in_u64 now
  | OpSwitch _ ms => in_u64 ms
  | OpSweep cutoff cs => Forall (fun x => c_peer x ∈ contacts) cs
  | OpClose order => Forall (fun p => p ∈ contacts) order
  | OpStart now secs _ => in_u64 now /\ 0 <= secs
  end.

(** ** One call *)

(** The ledger a call starts from: one more number, and its secrets. *)
Definition before `{RatchetCrypto} (op : Op) (L : Ledger) : Ledger := mkLedger (limit L + 1) (used L ++ drawn op) (acct L).

(** What comes out is new, and in the ledger afterwards. *)
Definition out_ok (L L' : Ledger) (o : Out) : Prop :=
  match o with
  | Sent p b => known L' p b
  | Given p n => top (acct L p) < n <= top (acct L' p)
  | Got p n => (n ∉ taken (acct L p)) /\ n ∈ taken (acct L' p)
  end.

Section Sound.
Context {CR : Crypto} {SC : StateCipher} {RC : RatchetCrypto} {KH : KeyedHash} {CO : Coins}.
Context (Hc : cipher_correct) (Ht : cipher_total) (Hk : hkdf_total) (Hco : coins_sized).
Context (sk : bytes) (cfg : StoreSettings) (secs_at : nat -> Z) (me : Identity) (max_text : Z).
Context (contacts : list bytes) (peer_of : bytes -> bytes) (anchor0 : option Anchor).

Abbreviation keys := (mkKeys (Some sk)).
Abbreviation own := (id_key me).

Context {R : StoreRegime keys own secs_at contacts anchor0} (Hst : stems_ok own) (Hdefer : defer_flush cfg = false).
Context (Hz : kdf_sized) (Hmg : montgomery_sized) (Hop : cipher_opens) (Hme : identity_wf me).
Context (Hcon : Forall (array 32) contacts) (Hmax : max_text <= MAX_TEXT).

Abbreviation engine_ok := (engine_ok Hc Ht Hk Hco sk secs_at me contacts peer_of anchor0).
Abbreviation engine_dead := (engine_dead Hc Ht Hk Hco sk secs_at me contacts peer_of anchor0).
Abbreviation died := (died Hc Ht Hk Hco sk secs_at me contacts peer_of anchor0).
Abbreviation lands := (lands Hc Ht Hk Hco sk secs_at me contacts peer_of anchor0).

Definition machine_ok (L : Ledger) (m : Machine) : Prop :=
  match m.2 with Some c => engine_ok L c m.1 | None => engine_dead L m.1 end.

(** A call from the ledger [L0], which already has the secrets. *)
Definition good (L L0 : Ledger) (r : Machine * list Out) : Prop :=
  exists L', ext L0 L' /\ machine_ok L' r.1 /\ (r.2 = [] \/ exists o, r.2 = [o] /\ out_ok L L' o).

Lemma good_call {X} L L0 (m : Disk (Core * X)) outs O w :
  runs m w (lands L0 O) (died L0) ->
  (forall L' c x, ext L0 L' -> O L' c x -> outs c x = [] \/ exists o, outs c x = [o] /\ out_ok L L' o) -> good L L0 (call m outs w).
Proof.
  unfold runs, call. intros Hr Ho. destruct (m w) as [w' [[c x]|]].
  - destruct Hr as (L' & H1 & H2 & H3). exists L'. split_and!; [done|done|]. by apply (Ho L' c x).
  - destruct Hr as (L' & H1 & H2). exists L'. split_and!; [done|done|by left].
Qed.

Lemma good_quiet {X} L L0 (m : Disk (Core * X)) w : runs m w (fun r w' => engine_ok L0 r.1 w') (died L0) -> good L L0 (call m quiet w).
Proof.
  unfold runs, call. intros Hr. destruct (m w) as [w' [[c x]|]].
  - exists L0. split_and!; [apply ext_refl|done|by left].
  - destruct Hr as (L' & H1 & H2). exists L'. split_and!; [done|done|by left].
Qed.

Lemma good_call_ L L0 (m : Disk Core) w : runs m w (fun c w' => engine_ok L0 c w') (died L0) -> good L L0 (call_ m w).
Proof.
  unfold runs, call_. intros Hr. destruct (m w) as [w' [c|]].
  - exists L0. split_and!; [apply ext_refl|done|by left].
  - destruct Hr as (L' & H1 & H2). exists L'. split_and!; [done|done|by left].
Qed.

Lemma before_le op L : ledger_le L (before op L).
Proof. split; [cbn; lia|]. intros u Hu. cbn. apply elem_of_app. by left. Qed.

(** Secrets that were not drawn before are fresh. *)
Lemma before_fresh op L secret : ledger_ok L -> x_public secret ∈ drawn op -> (forall u, u ∈ drawn op -> u ∉ used L) -> fresh (before op L) secret.
Proof.
  intros Hok Hin Hnew. split; [cbn; apply elem_of_app; by right|]. intros p e He E. destruct (Hok p) as (_ & Hall & _). rewrite Forall_forall in Hall.
  destruct (Hall e He) as [Hu _]. apply (Hnew (dh_pub (header e))); [by rewrite E|done].
Qed.

Lemma got_out p L L' c c' : got_new p L c L' c' -> got_of c c' = [] \/ exists o, got_of c c' = [o] /\ out_ok L L' o.
Proof.
  unfold got_of. intros [->|(ev & -> & Hev)]; [rewrite Z.eqb_refl; by left|]. destruct (_ =? _); [by left|]. destruct (ev_kind ev); try by left.
  destruct (Hev eq_refl) as (-> & H1 & H2). right. by eexists.
Qed.

(** Every call keeps the ledger, and what comes out is new. *)
Lemma call_sound L c w op :
  op_ok contacts peer_of op -> (forall u, u ∈ drawn op -> u ∉ used L) -> limit L < u64_max -> engine_ok L c w ->
  good L (before op L) (do_call cfg keys secs_at me max_text anchor0 op c w).
Proof.
  intros Hop' Hnew Hl He. pose proof He as (Hok & _). set (L0 := before op L). assert (limit L0 <= u64_max) as Hl0 by (cbn; lia).
  assert (engine_ok L0 c w) as He0 by (apply (ok_mono Hc Ht Hk Hco sk secs_at me contacts peer_of anchor0 L); [apply before_le|done|done|done]).
  assert (forall s, x_public s ∈ drawn op -> fresh L0 s) as Hfr by (intros s Hs; by apply before_fresh).
  assert (ext L0 L0) as H0 by apply ext_refl.
  destruct op as [p text now id coin|id ek r eid coin|p plain ek r eid coin|p wire now s s' coin|p wire handle s s' coin|p coin|id s reason now why coin|p up now id coin|p on coin|p bf lim|p id coin|p noise coin|p items|p asked have now why coin|on ms|cutoff cs|order|now secs coin];
    cbn [op_ok do_call drawn] in *.
  - destruct Hop' as (Hp & Hpo & Hid & Htx & Hnow). assert (L0 = raise L) as E by (unfold L0, before, raise; cbn; by rewrite app_nil_r). rewrite E.
    eapply good_call; [by apply eng_enqueue|]. cbn beta. intros L' c' x HL' [_ Hx]. unfold given_of. destruct x as [i|]; [|by left].
    destruct (Hx i eq_refl) as (e & -> & Htop). right. eexists. by split.
  - destruct Hop' as (Hr & Hei). destruct (get_entry (c_box c) id) as [e|] eqn:Eg.
    + eapply good_call; [apply eng_prepare; try done; apply Hfr; set_solver|]. cbn beta. intros L' c' x HL' [_ Hx]. unfold sent_of. destruct x as [[b i]|]; [|by left].
      destruct (Hx b i eq_refl) as [_ Hkn]. right. eexists. split; [done|]. cbn. unfold peer_of_entry. rewrite Eg.
      destruct (entry_found Hc Ht Hk Hco sk secs_at me contacts peer_of anchor0 _ _ _ _ _ He Eg) as [(_ & _ & -> & _) ->]. done.
    + unfold call, prepare_wire. rewrite Eg. cbn. exists L0. split_and!; [done|done|by left].
  - destruct Hop' as (Hp & Hr & Hei). eapply good_call; [apply eng_seal_for; try done; apply Hfr; set_solver|]. cbn beta. intros L' c' x HL' [_ Hx]. unfold sent_of.
    destruct x as [[b i]|]; [|by left]. right. eexists. split; [done|]. by eapply Hx.
  - destruct Hop' as (Hp & Hw & Hnow & Hs & Hs'). eapply good_call; [apply eng_accept; try done; apply Hfr; set_solver|]. cbn beta. intros L' c' x HL' Hx. by eapply got_out.
  - destruct Hop' as (Hp & Hw & Hs & Hs'). apply good_quiet. apply eng_accept_raw; try done; apply Hfr; set_solver.
  - apply good_call_. eapply runs_mono; [by apply eng_reset| |done]. by intros c' w' [? _].
  - apply good_call_. by apply eng_finish.
  - destruct Hop' as (Hp & Hpo & Hid & Hup & Hnow). apply good_quiet. by apply eng_mark_read.
  - apply good_quiet. by apply eng_set_receipts.
  - apply good_quiet. by apply eng_history.
  - apply good_quiet. by apply eng_delete.
  - apply good_quiet. by apply eng_forget.
  - apply good_quiet. by apply eng_answer.
  - apply good_quiet. by apply eng_reply.
  - apply good_call_, runs_ret. exact He0.
  - apply good_quiet. by apply eng_sweep.
  - apply good_quiet. by apply eng_close.
  - destruct Hop' as [Hnow Hsecs]. apply good_call_. apply eng_start; try done. by eapply ok_dead.
Qed.

(** Also when no process runs. *)
Lemma step_sound L m op :
  op_ok contacts peer_of op -> (forall u, u ∈ drawn op -> u ∉ used L) -> limit L < u64_max -> machine_ok L m ->
  good L (before op L) (step cfg keys secs_at me max_text anchor0 m op).
Proof.
  intros Hop' Hnew Hl Hm. destruct m as [w [c|]]; cbn [machine_ok fst snd] in Hm.
  - assert (step cfg keys secs_at me max_text anchor0 (w, Some c) op = do_call cfg keys secs_at me max_text anchor0 op c w) as -> by (by destruct op). by apply call_sound.
  - assert (engine_dead (before op L) w) as Hd by (apply (dead_mono Hc Ht Hk Hco sk secs_at me contacts peer_of anchor0 L); [apply before_le|done|cbn; lia|done]).
    assert (good L (before op L) (w, None, [])) as Hnone by (exists (before op L); split_and!; [apply ext_refl|done|by left]).
    destruct op; try exact Hnone. destruct Hop' as [Hnow Hsecs]. apply good_call_. by apply eng_start.
Qed.

End Sound.

(** ** Runs *)

(** A call, the end of the process between two calls, a loss of power.  A
    process that dies within a call is a fate of the disk. *)
Inductive Event := Do (op : Op) | Die | Lose (keep : bytes -> nat).

Definition drawn_in `{RatchetCrypto} (ev : Event) : list bytes := match ev with Do op => drawn op | _ => [] end.
Definition event_ok (contacts : list bytes) (peer_of : bytes -> bytes) (ev : Event) : Prop := match ev with Do op => op_ok contacts peer_of op | _ => True end.

Definition is_number (o : Out) : bool := match o with Sent _ _ => false | _ => true end.
Definition numbers (outs : list Out) : list Out := List.filter is_number outs.

(** What came out so far is in the ledger. *)
Definition entered (L : Ledger) (o : Out) : Prop :=
  match o with Sent p b => known L p b | Given p n => n <= top (acct L p) | Got p n => n ∈ taken (acct L p) end.
Definition outs_ok (L : Ledger) (outs : list Out) : Prop := Forall (entered L) outs /\ NoDup (numbers outs).

Lemma entered_more L L' o : ledger_more L L' -> entered L o -> entered L' o.
Proof.
  intros Hm. destruct o as [p b|p n|p n]; cbn; [by apply known_more| |]; destruct (Hm p) as (_ & Ht & [ns Hn]); [lia|].
  intros Hin. rewrite Hn. apply elem_of_app. by left.
Qed.

Lemma outs_more L L' outs : ledger_more L L' -> outs_ok L outs -> outs_ok L' outs.
Proof. intros Hm [H1 H2]. split; [|done]. eapply Forall_impl; [exact H1|]. intros o. by apply entered_more. Qed.

(** What is new is not among what came out. *)
Lemma outs_snoc L L' outs o : ledger_more L L' -> outs_ok L outs -> out_ok L L' o -> outs_ok L' (outs ++ [o]).
Proof.
  intros Hm [H1 H2] Ho. assert (entered L' o) as He by (destruct o as [p b|p n|p n]; cbn in *; [done|lia|by destruct Ho]). split.
  - apply Forall_app. split; [|by apply Forall_singleton]. eapply Forall_impl; [exact H1|]. intros x. by apply entered_more.
  - unfold numbers. rewrite List.filter_app. cbn. destruct (is_number o) eqn:En; [|by rewrite app_nil_r]. apply NoDup_app. split_and!; [done| |apply NoDup_singleton].
    intros x Hx ->%list_elem_of_singleton. apply list_elem_of_In, filter_In in Hx as [Hx _]. rewrite Forall_forall in H1. apply list_elem_of_In, H1 in Hx.
    destruct o as [p b|p n|p n]; cbn in *; [done|lia|by destruct Ho].
Qed.

Section Run.
Context {CR : Crypto} {SC : StateCipher} {RC : RatchetCrypto} {KH : KeyedHash} {CO : Coins}.
Context (cfg : StoreSettings) (keys : StateKeys) (secs_at : nat -> Z) (me : Identity) (max_text : Z) (anchor0 : option Anchor).

Definition event (m : Machine) (ev : Event) : Machine * list Out :=
  match ev with
  | Do op => step cfg keys secs_at me max_text anchor0 m op
  | Die => ((m.1, None), [])
  | Lose keep => ((power_loss keep m.1, None), [])
  end.

Fixpoint run (m : Machine) (evs : list Event) : Machine * list Out :=
  match evs with
  | [] => (m, [])
  | ev :: evs => let '(m1, o1) := event m ev in let '(m2, o2) := run m1 evs in (m2, o1 ++ o2)
  end.

End Run.

Section Once.
Context {CR : Crypto} {SC : StateCipher} {RC : RatchetCrypto} {KH : KeyedHash} {CO : Coins}.
Context (Hc : cipher_correct) (Ht : cipher_total) (Hk : hkdf_total) (Hop : cipher_opens) (Hco : coins_sized).
Context (Hz : kdf_sized) (Hmg : montgomery_sized) (Hfp : fingerprint_sized) (Hkh : keyed_sized).
Context (sk : bytes) (cfg : StoreSettings) (secs_at : nat -> Z) (me : Identity) (max_text : Z).
Context (contacts : list bytes) (peer_of : bytes -> bytes) (dirs : option (option bytes)).
Context (Hme : identity_wf me) (Hst : stems_ok (id_key me)) (Hdefer : defer_flush cfg = false) (Hmax : max_text <= MAX_TEXT).
Context (Hcon : Forall (array 32) contacts).
Context (Hinj : forall p q, p ∈ contacts -> q ∈ contacts -> file_stem (id_key me) p = file_stem (id_key me) q -> p = q).
Context (Hdir : forall dir, dirs = Some (Some dir) -> SLASH ∈ dir).

Abbreviation keys := (mkKeys (Some sk)).
Abbreviation anchor0 := (new_anchor <$> dirs).

#[local] Instance once_regime : StoreRegime keys (id_key me) secs_at contacts anchor0 :=
  guard_regime Hc Ht Hk Hop Hco Hfp Hkh sk (id_key me) secs_at contacts dirs Hst Hcon Hinj Hdir.

Abbreviation machine_ok := (machine_ok Hc Ht Hk Hco sk secs_at me contacts peer_of anchor0).

Lemma machine_stops L m : machine_ok L m -> machine_ok L (m.1, None).
Proof. destruct m as [w [c|]]; [|done]. cbn. apply ok_dead. Qed.

Lemma machine_loses L w keep : machine_ok L (w, None) -> machine_ok L (power_loss keep w, None).
Proof.
  cbn. intros (H1 & H2 & (recs & d & Hj & Hr)). split_and!; [done|by apply guard_power|].
  destruct (j_power_law _ keep recs d Hj) as (n & Hn & Hj'). exists (take n recs), d. split; [done|by apply Forall_take].
Qed.

Lemma event_sound L m ev :
  event_ok contacts peer_of ev -> (forall u, u ∈ drawn_in ev -> u ∉ used L) -> limit L < u64_max -> machine_ok L m ->
  let r := event cfg keys secs_at me max_text anchor0 m ev in
  exists L', limit L' <= limit L + 1 /\ used L' = used L ++ drawn_in ev /\ ledger_more L L' /\ machine_ok L' r.1 /\ (r.2 = [] \/ exists o, r.2 = [o] /\ out_ok L L' o).
Proof.
  intros Hev Hnew Hl Hm. destruct ev as [op| |keep]; cbn [event drawn_in event_ok] in *.
  - destruct (step_sound Hc Ht Hk Hco sk cfg secs_at me max_text contacts peer_of anchor0 Hst Hdefer Hz Hmg Hop Hme Hcon Hmax L m op Hev Hnew Hl Hm) as (L' & (E1 & E2 & E3) & H2 & H3).
    exists L'. split_and!; [rewrite E1; cbn; lia|done|done|done|done].
  - exists L. rewrite app_nil_r. split_and!; [lia|done|apply more_refl|by apply machine_stops|by left].
  - exists L. rewrite app_nil_r. split_and!; [lia|done|apply more_refl|by apply machine_loses, machine_stops|by left].
Qed.

Lemma run_sound evs L m outs :
  Forall (event_ok contacts peer_of) evs -> NoDup (used L ++ flat_map drawn_in evs) -> limit L + zlen evs < u64_max -> machine_ok L m -> outs_ok L outs ->
  let r := run cfg keys secs_at me max_text anchor0 m evs in exists L', machine_ok L' r.1 /\ outs_ok L' (outs ++ r.2).
Proof.
  intros Hevs. revert L m outs. induction Hevs as [|ev evs Hev _ IH]; intros L m outs Hnd Hl Hm Ho; cbn [run flat_map] in *.
  { exists L. by rewrite app_nil_r. }
  rewrite zlen_cons in Hl. pose proof (zlen_nonneg evs) as Hlen.
  assert (forall u, u ∈ drawn_in ev -> u ∉ used L) as Hnew.
  { intros u Hu Hu'. apply NoDup_app in Hnd as (_ & Hd & _). apply (Hd u Hu'). apply elem_of_app. by left. }
  destruct (event_sound L m ev Hev Hnew ltac:(lia) Hm) as (L1 & E1 & E2 & E3 & Hm1 & Ho1).
  destruct (event cfg keys secs_at me max_text anchor0 m ev) as [m1 o1]. cbn [fst snd] in *.
  specialize (IH L1 m1 (outs ++ o1)). destruct (run cfg keys secs_at me max_text anchor0 m1 evs) as [m2 o2]. cbn [fst snd] in *. rewrite app_assoc. apply IH.
  - by rewrite E2, <- app_assoc.
  - lia.
  - done.
  - destruct Ho1 as [->|(o & -> & Hoo)]; [rewrite app_nil_r; by eapply outs_more|by eapply outs_snoc].
Qed.

Lemma machine_fresh w : files w = ∅ -> machine_ok (empty_ledger []) (w, None).
Proof.
  intros Hw. cbn. split_and!; [|by apply guard_empty|].
  - intros p. cbn. split_and!; [apply NoDup_nil_2|constructor|apply NoDup_nil_2].
  - exists [], 0%nat. split; [|constructor]. apply j_fresh_law. cbn. by rewrite Hw, lookup_empty.
Qed.

(** C3. However often the process is killed, a write fails or power is lost,
    in whatever order messages are queued, sealed, received and deleted and
    the program is started again: a number is never given to two messages of
    a contact, no number of a contact is acknowledged as newly received a
    second time, and two envelopes for a contact that use the same key of
    the ratchet are the same bytes. The secrets and ids that are drawn are
    fresh, writes are not deferred, and the files of the contacts have
    different names. A message that was written to the history but not
    acknowledged, because the process died in between, may be written again
    when it is resent. *)
Theorem chat_uses_nothing_twice w0 evs :
  files w0 = ∅ -> Forall (event_ok contacts peer_of) evs -> NoDup (flat_map drawn_in evs) -> zlen evs < u64_max ->
  let outs := (run cfg keys secs_at me max_text anchor0 (w0, None) evs).2 in
  NoDup (numbers outs) /\
  (forall p b, Sent p b ∈ outs -> exists e, env_decode b = Ok e) /\
  (forall p b1 b2 e1 e2, Sent p b1 ∈ outs -> Sent p b2 ∈ outs -> env_decode b1 = Ok e1 -> env_decode b2 = Ok e2 -> env_key e1 = env_key e2 -> b1 = b2).
Proof.
  intros Hw Hevs Hnd Hl outs. destruct (run_sound evs (empty_ledger []) (w0, None) [] Hevs Hnd Hl (machine_fresh w0 Hw) ltac:(split; constructor)) as (L & Hm & [Hent Hnum]).
  fold outs in Hent, Hnum. cbn [app] in *. rewrite Forall_forall in Hent.
  assert (ledger_ok L) as Hok by (destruct (run cfg keys secs_at me max_text anchor0 (w0, None) evs) as [[w [c|]] o]; by destruct Hm).
  assert (forall p b, Sent p b ∈ outs -> exists e, e ∈ issued (acct L p) /\ b = env_encode e /\ env_decode b = Ok e) as Hs.
  { intros p b (e & He & ->)%Hent. destruct (Hok p) as (_ & Hall & _). rewrite Forall_forall in Hall. exists e. split_and!; [done|done|by apply Hall]. }
  split_and!; [done|intros p b Hin; destruct (Hs p b Hin) as (e & _ & _ & ?); by exists e|]. intros p b1 b2 e1 e2 H1 H2 D1 D2 Hkey.
  destruct (Hs p b1 H1) as (x1 & I1 & -> & X1). destruct (Hs p b2 H2) as (x2 & I2 & -> & X2). rewrite X1 in D1. rewrite X2 in D2. injection D1 as <-. injection D2 as <-.
  f_equal. destruct (Hok p) as (Hnd' & _). by eapply (nodup_image env_key).
Qed.

End Once.

(** ** An example *)

Module OnceDemo.
Import ChatToys.
Existing Instances chat_cipher chat_crypto chat_ratchet chat_keyed chat_coins.

Definition contacts : list bytes := [key 2; key 3].
Definition folder : bytes := lit "anchors/".
Definition hello : Message := mkMessage (no_id 8) 1 5 (lit "hello").
Definition wire : bytes := first_wire 3 1 hello.

(** A message is queued and sealed, one arrives; power is lost; both are tried
    again; the next call dies on the disk and is repeated. *)
Definition story : list Event :=
  [Do (OpStart 1000 0 0); Do (OpEnqueue (key 2) (lit "hi") 1000 (no_id 1) 10); Do (OpPrepare (no_id 1) (key 20) (key 21) (no_id 9) 20);
   Do (OpAccept (key 3) wire 1001 (key 22) (key 23) 30); Lose (fun _ => 0%nat); Do (OpStart 2000 0 40);
   Do (OpPrepare (no_id 1) (key 24) (key 25) (no_id 10) 50); Do (OpAccept (key 3) wire 2001 (key 26) (key 27) 60);
   Do (OpEnqueue (key 2) (lit "again") 2002 (no_id 2) 70); Do (OpStart 3000 0 80); Do (OpEnqueue (key 2) (lit "again") 3001 (no_id 3) 90);
   Do (OpFinish (no_id 1) Delivered None 3002 [] 100); Do (OpSweep 2000 [mkSummary (key 3) 1 1001]); Do (OpClose contacts)].

Definition fine (n : nat) : list Fate := replicate n Fine.
Definition disk0 (n k : nat) : World := mkWorld ∅ (fine n ++ [Dies k]).

Definition demo_run (w : World) : Machine * list Out :=
  run default_settings (mkKeys (Some [7; 7])) (fun _ => 0) (ident 1) 4096 (Some (new_anchor (Some folder))) (w, None) story.

Definition outs : list Out := (demo_run (disk0 50 3)).2.

Lemma contacts_apart p q : p ∈ contacts -> q ∈ contacts -> file_stem (key 1) p = file_stem (key 1) q -> p = q.
Proof.
  unfold contacts. intros [->|[->|[]%elem_of_nil]%elem_of_cons]%elem_of_cons [->|[->|[]%elem_of_nil]%elem_of_cons]%elem_of_cons E; done || by vm_compute in E.
Qed.

Lemma story_ok : Forall (event_ok contacts (fun _ => key 2)) story.
Proof.
  assert (key 2 ∈ contacts /\ key 3 ∈ contacts) as [H2 H3] by (unfold contacts; split; [by left|right; by left]).
  assert (bytes_ok wire) as Hw by (apply bytes_check; by vm_compute).
  unfold story. repeat (apply Forall_cons; split); [..|by apply Forall_nil]; cbn [event_ok op_ok]; repeat match goal with |- _ /\ _ => split end;
    first [done|by apply key_ok|by apply id_ok|apply text_check; by vm_compute].
Qed.

Lemma chat_uses_nothing_twice_witness :
  NoDup (flat_map drawn_in story) /\ numbers outs = [Given (key 2) 1; Got (key 3) 1; Given (key 2) 3] /\
  NoDup (numbers outs) /\ (forall p b, Sent p b ∈ outs -> exists e, env_decode b = Ok e).
Proof.
  assert (NoDup (flat_map drawn_in story)) as Hnd by (apply (bool_decide_unpack _); by vm_compute).
  destruct (chat_uses_nothing_twice chat_correct chat_total chat_hkdf chat_opens chat_coins_sized chat_sized chat_montgomery chat_fingerprint chat_keyed_sized
    [7; 7] default_settings (fun _ => 0) (ident 1) 4096 contacts (fun _ => key 2) (Some (Some folder)) (ident_ok 1 ltac:(lia)) (chat_stems _) eq_refl ltac:(done)
    ltac:(apply Forall_cons; split; [by apply key_ok|apply Forall_singleton; by apply key_ok])
    contacts_apart
    ltac:(intros dir [= <-]; apply (bool_decide_unpack _); by vm_compute) (disk0 50 3) story eq_refl story_ok Hnd ltac:(by vm_compute)) as (H1 & H2 & _).
  assert (numbers outs = [Given (key 2) 1; Got (key 3) 1; Given (key 2) 3]) as Ho by (by vm_compute).
  exact (conj Hnd (conj Ho (conj H1 H2))).
Defined.

End OnceDemo.
