(* ===== verification/ChatRollback.v ===== *)
(** * ChatRollback: the data folder is put back to an earlier copy

    The second instance of [StoreRegime]: nothing fails and the process does
    not die within a call, but between two processes the data folder may be put
    back to any earlier copy of it, while the records of the anchor stay.  A
    session file may be old; then the record tells it apart from the last one,
    its session is dropped and the numbers go on above the mark of the record. *)

From S2P Require Import Prelude Bytes Text Codec ErasureCode Dissolve Disk SealedState SealedLog SealedRewrite Journal ChatOutbox Ratchet PeerState ChatProto Anchor ChatStore ChatEngine ChatLedger DiskFrame ChatRegime ChatBox ChatRules ChatGuard.

Lemma bind_runs {S A B} (m : Prog S A) (k : A -> Prog S B) w w' a : m w = (w', Some a) -> bind m k w = k a w'.
Proof. unfold bind. by intros ->. Qed.

Lemma exists_runs p w : exists_file p w = (w, Some (bool_decide (is_Some (files w !! p)))).
Proof. done. Qed.

(** Nothing fails: sealed bytes are put in place. *)
Lemma write_sealed_fine path b durable w : fates w = [] ->
  exists w' s, write_sealed path b durable w = (w', Some (Ok tt)) /\ fates w' = [] /\ files w' !! path = Some (mkFile b s) /\
    forall q, q <> path -> q <> staged_tmp path -> files w' !! q = files w !! q.
Proof.
  intros Hf. pose proof (staged_ne path) as Hne. destruct w as [fs ft]. cbn in Hf. subst ft.
  unfold write_sealed, stage_sealed, write_restricted, exists_file, write_file, remove_file, sync_file, rename, drop_file, put, get, fate, try_bind, bind, ret. cbn.
  destruct (bool_decide _); cbn; destruct durable; cbn; repeat (rewrite lookup_insert_eq; cbn); eexists _, _; (split; [reflexivity|]); cbn; (split; [done|]);
    (split; [apply lookup_insert_eq|]); intros q H1 H2; rewrite lookup_insert_ne, lookup_delete_ne by done; rewrite ?lookup_insert_ne by done; by rewrite ?lookup_delete_ne.
Qed.

Section PeerSize.
Context {RC : RatchetCrypto}.

Lemma flat_length {A} n (l : list (list A)) : Forall (fun x => length x = n) l -> length (flat_map (fun k => k) l) = (n * length l)%nat.
Proof. induction 1 as [|x l Hx _ IH]; [cbn; lia|]. cbn [flat_map length]. rewrite length_app, IH, Hx. lia. Qed.

(** The document of a contact is far below the limit. *)
Lemma peer_bytes_small st : peer_wf st -> zlen (peer_bytes st) <= max_document_bytes ChatSessions.
Proof.
  intros ([Hp _] & _ & (_ & _ & _ & Ha) & Hek & Hekl & Hev & Hevl & _ & _ & Hs & _).
  assert (length (flat_map (be_bytes 8) (recv_above st)) = 8 * length (recv_above st))%nat as E1.
  { induction (recv_above st) as [|x l IH]; [done|]. cbn [flat_map length]. rewrite length_app, be_bytes_length, IH; [lia|]. rewrite zlen_cons in Ha. lia. }
  assert (length (flat_map (fun k => k) (seen_eks st)) = 32 * length (seen_eks st))%nat as E2 by (apply flat_length; eapply Forall_impl; [exact Hek|]; by intros x [? _]).
  assert (length (flat_map (fun k => k) (recent_env st)) = 16 * length (recent_env st))%nat as E3 by (apply flat_length; eapply Forall_impl; [exact Hev|]; by intros x [? _]).
  assert (zlen (match session st with Some s => [1] ++ be_bytes 4 (zlen (session_bytes s) mod 4294967296) ++ session_bytes s | None => [0] end) <= 5 + 256 * 1024) as E4.
  { destruct (session st) as [s|]; [|done]. pose proof (session_bytes_length s (Hs s eq_refl)) as Hl. unfold zlen in *. rewrite !length_app, be_bytes_length. cbn [length]. lia. }
  change (max_document_bytes ChatSessions) with 16777216. unfold peer_bytes. unfold MAX_ABOVE, MAX_SEEN_EKS, MAX_RECENT_ENV, zlen in *.
  rewrite !length_app, !be_bytes_length, E1, E2, E3, Hp. cbn [length]. lia.
Qed.

End PeerSize.

Section Back.
Context {CR : Crypto} {SC : StateCipher} {RC : RatchetCrypto} {KH : KeyedHash} {CO : Coins}.
Context (Hc : cipher_correct) (Ht : cipher_total) (Hk : hkdf_total) (Hco : coins_sized).
Context (Hfp : fingerprint_sized) (Hkh : keyed_sized).
Context (sk own : bytes) (secs_at : nat -> Z) (contacts : list bytes) (dir k : bytes).

Abbreviation keys := (mkKeys (Some sk)).

Context (Hkey : doc_key keys ChatAnchor = Ret (Ok k)).
Context (Hst : stems_ok own) (Hcon : Forall (array 32) contacts) (Hdir : SLASH ∈ dir).
Context (Hinj : forall p q, p ∈ contacts -> q ∈ contacts -> file_stem own p = file_stem own q -> p = q).
Context (Hnames : forall p q, p ∈ contacts -> q ∈ contacts -> anchor_name own k p = anchor_name own k q -> p = q).

(** The copies of the folder that were made so far, and the session files of a
    contact that were once the last ones. *)
Context (copies : list (gmap bytes File)) (once_last : bytes -> bytes -> Prop).

Definition rec_path (p : bytes) : bytes := dir ++ anchor_name own k p.

(** *** Names *)

Lemma rec_slash p : SLASH ∈ rec_path p.
Proof. apply elem_of_app. by left. Qed.

Lemma rec_not_session p q : rec_path p <> session_path own q /\ rec_path p <> staged_tmp (session_path own q).
Proof.
  split; intros E; pose proof (rec_slash p) as Hs; rewrite E in Hs; [by apply session_plain in Hs|].
  apply elem_of_app in Hs as [Hs|Hs]; [by apply session_plain in Hs|]. vm_compute in Hs. clear -Hs. set_solver.
Qed.

Lemma session_not_staged p q : session_path own p <> staged_tmp (session_path own q).
Proof. intros E%(f_equal ext2). by rewrite session_ext, staged_ext in E. Qed.

Lemma session_not_record p q : session_path own p <> staged_tmp (rec_path q).
Proof. intros E. apply (session_plain own Hst p). rewrite E. apply elem_of_app. left. apply rec_slash. Qed.

Lemma rec_not_staged p q : rec_path p <> staged_tmp (rec_path q).
Proof.
  intros E%(f_equal length). unfold staged_tmp, rec_path in E. rewrite !length_app in E. rewrite !(name_length Hkh own) in E. cbn in E. lia.
Qed.

Lemma rec_paths p q : p ∈ contacts -> q ∈ contacts -> rec_path p = rec_path q -> p = q.
Proof. intros Hp Hq E. apply Hnames; [done|done|]. by apply app_inv_head in E. Qed.

(** *** What is on the disk *)

Definition disk_fp (p : bytes) (w : World) : Fingerprint := match files w !! session_path own p with Some f => fingerprint (content f) | None => NO_FILE end.

(** Any version of the file of a contact. *)
Definition loose (L : Ledger) (p : bytes) (f : option File) : Prop :=
  match f with
  | Some f => exists st, document sk ChatSessions (session_path own p) (peer_bytes st) (content f) /\ peer_wf st /\ p_peer st = p /\ send_seq st <= limit L
  | None => True
  end.

(** A version that knows the ledger. *)
Definition latest (L : Ledger) (p : bytes) (f : option File) : Prop :=
  match f with
  | Some f => exists st, document sk ChatSessions (session_path own p) (peer_bytes st) (content f) /\ fits L p st
  | None => fits L p (new_peer p)
  end.

Definition record_is (w : World) (p : bytes) (r : AnchorRecord) : Prop :=
  exists b s, files w !! rec_path p = Some (mkFile b s) /\ document sk ChatAnchor (anchor_name own k p) (anchor_encode r) b.

(** The file of a contact is the last one, or it tells itself apart from it. *)
Definition last_or_apart (L : Ledger) (w : World) (p c0 : bytes) : Prop :=
  (exists s, files w !! session_path own p = Some (mkFile c0 s)) \/
  (disk_fp p w <> fingerprint c0 /\ once_last p c0 /\ taken (acct L p) = []).

(** The record names the last file, and its mark is not below the numbers that
    were given. *)
Definition recorded_as (L : Ledger) (w : World) (p c0 : bytes) : Prop :=
  exists hwm s, record_is w p (mkAnchorRecord (fingerprint c0) (fingerprint c0) hwm) /\ latest L p (Some (mkFile c0 s)) /\
    top (acct L p) <= hwm <= limit L /\ 0 <= hwm /\ last_or_apart L w p c0.

Definition anchored (L : Ledger) (w : World) (p : bytes) : Prop :=
  (files w !! rec_path p = None /\ files w !! session_path own p = None /\ fits L p (new_peer p) /\ forall c, c ∈ copies -> c !! session_path own p = None) \/
  exists c0, recorded_as L w p c0.

Definition back_contact (L : Ledger) (w : World) (p : bytes) : Prop :=
  loose L p (files w !! session_path own p) /\ (forall c, c ∈ copies -> loose L p (c !! session_path own p)) /\ anchored L w p.

Definition back_dead (L : Ledger) (w : World) : Prop := fates w = [] /\ 0 <= limit L <= u64_max /\ forall p, p ∈ contacts -> back_contact L w p.

(** A contact in the cache: the file is the last one or the slot will be
    written. *)
Definition in_cache (L : Ledger) (w : World) (a : Anchor) (p : bytes) (s : PeerSlot) : Prop :=
  p ∈ contacts /\ fits L p (s_state s) /\ is_Some (an_seen a !! p) /\ (latest L p (files w !! session_path own p) \/ s_dirty s = true).

Definition seen_right (L : Ledger) (w : World) (p : bytes) (cached : bool) (sn : Seen) : Prop :=
  on_disk sn = disk_fp p w /\ top (acct L p) <= seq_hwm sn <= limit L /\ 0 <= seq_hwm sn /\ (cached = true \/ latest L p (files w !! session_path own p)).

Definition per_contact (L : Ledger) (m : gmap bytes PeerSlot) (w : World) (a : Anchor) (p : bytes) : Prop :=
  (forall s, m !! p = Some s -> in_cache L w a p s) /\
  (forall sn, p ∈ contacts -> an_seen a !! p = Some sn -> seen_right L w p (bool_decide (is_Some (m !! p))) sn).

Definition back_anchor (L : Ledger) (m : gmap bytes PeerSlot) (w : World) (a : Anchor) : Prop :=
  an_dir a = Some dir /\ an_off a = false /\ forall p, per_contact L m w a p.

Definition back_open (L : Ledger) (g : Store) (w : World) : Prop :=
  back_dead L w /\ exists a, st_anchor g = Some a /\ back_anchor L (st_peers g) w a.

(** The same files of one contact. *)
Definition same_files (w w' : World) (p : bytes) : Prop := files w' !! session_path own p = files w !! session_path own p /\ files w' !! rec_path p = files w !! rec_path p.

Lemma same_contact L w w' p : same_files w w' p -> back_contact L w p -> back_contact L w' p.
Proof.
  intros [H1 H2] (B1 & B2 & B3). unfold back_contact, anchored, recorded_as, last_or_apart, record_is, disk_fp in *. rewrite H1, H2. done.
Qed.

(** *** Writing *)

Lemma put_session p b w : p ∈ contacts -> fates w = [] ->
  exists w' s, write_sealed (session_path own p) b true w = (w', Some (Ok tt)) /\ fates w' = [] /\ files w' !! session_path own p = Some (mkFile b s) /\
    files w' !! rec_path p = files w !! rec_path p /\ (forall q, q ∈ contacts -> q <> p -> same_files w w' q) /\ same_logs own w w'.
Proof.
  intros Hp Hf. destruct (write_sealed_fine (session_path own p) b true w Hf) as (w' & s & H1 & H2 & H3 & H4). exists w', s.
  split_and!; try done; try (by apply H4; apply rec_not_session).
  - intros q Hq Hne. split; [|apply H4; apply rec_not_session]. apply H4; [|apply session_not_staged]. intros E. apply Hne. by apply (session_paths own contacts Hinj).
  - intros q Hq. destruct (logname_session own p q Hq). by apply H4.
Qed.

Lemma put_anchor a p r durable nonce w : p ∈ contacts -> fates w = [] -> an_dir a = Some dir -> length nonce = NONCE_LEN ->
  length (a_cur r) = 16%nat -> length (a_next r) = 16%nat ->
  exists w', anchor_write keys own a p r durable nonce w = (w', Some true) /\ fates w' = [] /\ record_is w' p r /\
    files w' !! session_path own p = files w !! session_path own p /\ (forall q, q ∈ contacts -> q <> p -> same_files w w' q) /\ same_logs own w w'.
Proof.
  intros Hp Hf Ha Hn H1 H2. unfold anchor_write, path_of. rewrite Ha, Hkey. unfold bind at 1, ret at 1.
  assert (zlen (anchor_encode r) <= max_document_bytes ChatAnchor) as Hz.
  { unfold anchor_encode, zlen. rewrite !length_app, be_bytes_length, H1, H2. done. }
  destruct (doc_seal_opens Hc Ht Hk sk ChatAnchor (anchor_name own k p) (anchor_encode r) nonce Hz Hn) as (b & Hb & Hlen & Hopn). rewrite Hb.
  cbn [lift]. unfold bind at 1, ret at 1. destruct (write_sealed_fine (rec_path p) b durable w Hf) as (w' & s & E1 & E2 & E3 & E4). exists w'.
  unfold bind. unfold rec_path in E1. rewrite E1. cbn [is_ok ret]. split_and!; try done.
  - exists b, s. by split_and!.
  - apply E4; [|apply session_not_record]. intros E. symmetry in E. by apply rec_not_session in E.
  - intros q Hq Hne. split; [apply E4; [|apply session_not_record]; intros E; symmetry in E; by apply rec_not_session in E|].
    apply E4; [|apply rec_not_staged]. intros E. apply Hne. by apply rec_paths.
  - intros q Hq. apply (logname_plain own Hst) in Hq. apply E4; intros ->; apply Hq; [apply rec_slash|]. apply elem_of_app. left. apply rec_slash.
Qed.

(** *** Reading *)

Lemma anchor_read_is a p r w : an_dir a = Some dir -> record_is w p r -> length (a_cur r) = 16%nat -> length (a_next r) = 16%nat -> in_u64 (send_seq_hwm r) ->
  anchor_read keys own a p w = (w, Some (Some r)).
Proof.
  intros Ha (b & s & Hf & Hd) H1 H2 H3. unfold anchor_read, path_of. rewrite Ha, Hkey. unfold bind at 1, ret at 1. unfold exists_file, bind, get, ret.
  unfold rec_path in Hf. rewrite Hf. rewrite bool_decide_eq_true_2 by done. cbn [negb].
  rewrite (document_reads sk ChatAnchor _ _ (anchor_encode r) b s w Hf Hd). by rewrite anchor_reads_back.
Qed.

Lemma anchor_read_none a p w : an_dir a = Some dir -> files w !! rec_path p = None -> anchor_read keys own a p w = (w, Some None).
Proof.
  intros Ha Hf. unfold anchor_read, path_of. rewrite Ha, Hkey. unfold bind at 1, ret at 1. unfold exists_file, bind, get, ret. unfold rec_path in Hf. by rewrite Hf.
Qed.

(** Two readings of one document. *)
Lemma document_eq l ctx x y b : document sk l ctx x b -> document sk l ctx y b -> x = y.
Proof. intros (H1 & _) (H2 & _). congruence. Qed.

Lemma peer_bytes_eq st st' : peer_wf st -> peer_wf st' -> peer_bytes st = peer_bytes st' -> st = st'.
Proof. intros H1 H2 E. apply peer_reads_back in H1, H2. congruence. Qed.

(** A contact is loaded: what comes into the cache knows the ledger. *)
Lemma back_load L p g w a : p ∈ contacts -> back_dead L w -> st_anchor g = Some a -> an_dir a = Some dir -> an_off a = false ->
  (forall sn, an_seen a !! p = Some sn -> seen_right L w p false sn) ->
  exists a' sn st behind, load_peer keys own secs_at p g w = (w, Some (advance (with_anchor_state (Some a') g), st, behind)) /\
    an_dir a' = Some dir /\ an_off a' = false /\ an_seen a' !! p = Some sn /\ (forall q, q <> p -> an_seen a' !! q = an_seen a !! q) /\
    seen_right L w p true sn /\ fits L p st /\ (latest L p (files w !! session_path own p) \/ behind = true).
Proof.
  intros Hp (Hf & Hlim & Hb) Hga Hda Hoff Hseen. destruct (Hb p Hp) as (Hloose & _ & Hanch). pose proof (contact_array := Hcon).
  set (disk := disk_fp p w).
  assert (exists st, peer_wf st /\ p_peer st = p /\ send_seq st <= limit L /\ (latest L p (files w !! session_path own p) -> fits L p st) /\
    (files w !! session_path own p = None -> st = new_peer p) /\
    load_peer keys own secs_at p g w = (let* r := anchor_check keys own a p disk (send_seq st) (nonce_at (st_rng g)) in
      let g := advance (with_anchor_state (Some r.1) g) in
      ret (match r.2 with CFine => (g, st, false) | CBehind floor => (g, set_send_seq (Z.max (send_seq st) floor) (set_session None st), true) end)) w)
    as (st & Hwf & Hpe & Hsl & Hlat & Hnew & Hload).
  { unfold load_peer, loose, disk, disk_fp in *. destruct (files w !! session_path own p) as [[b n]|] eqn:Ef.
    - destruct Hloose as (st0 & Hd & Hw0 & Hp0 & Hs0). cbn [content] in *. exists st0. split_and!; try done.
      + intros (st' & Hd' & Hft). assert (st0 = st') as ->; [|done]. apply peer_bytes_eq; [done|apply Hft|by eapply document_eq].
      + rewrite (bind_runs _ _ _ _ _ (exists_runs _ w)), Ef, bool_decide_eq_true_2 by done.
        rewrite (bind_runs _ _ _ _ _ (session_found sk own (secs_at (st_rng g)) p st0 b n w Ef Hd Hw0 Hp0)). cbn [fst snd]. by rewrite Hga.
    - exists (new_peer p). split_and!; try done; [apply wf_new_peer; rewrite Forall_forall in contact_array; by apply contact_array|cbn; lia|].
      rewrite (bind_runs _ _ _ _ _ (exists_runs _ w)), Ef, bool_decide_eq_false_2 by (by intros [? ?]). rewrite (bind_runs _ _ w w None) by done. by rewrite Hga. }
  rewrite Hload. clear Hload. pose proof Hwf as (_ & Hsu & _).
  assert (forall hwm, top (acct L p) <= hwm <= limit L -> 0 <= hwm -> seen_right L w p true (mkSeen disk hwm) /\ (see p disk hwm a).(an_seen) !! p = Some (mkSeen disk hwm) /\
    (forall q, q <> p -> (see p disk hwm a).(an_seen) !! q = an_seen a !! q)) as Hsee.
  { intros hwm H1 H2. split; [split_and!; cbn; auto; lia|]. split; [cbn; apply lookup_insert_eq|]. intros q Hq. cbn. by rewrite lookup_insert_ne. }
  unfold bind, anchor_check. rewrite Hoff. unfold bind. destruct (an_seen a !! p) as [sn|] eqn:Es.
  - destruct (Hseen sn eq_refl) as (H1 & H2 & H3 & [H4|H4]); [done|].
    assert (exists o, anchor_read keys own a p w = (w, Some o)) as [o Ho].
    { destruct Hanch as [(Hn & _)|(c0 & hwm & s & Hr & _ & Hhw & Hh0 & _)]; [exists None; by apply anchor_read_none|]. eexists. eapply anchor_read_is; [done|exact Hr|apply Hfp|apply Hfp|]. cbn. ulia. }
    rewrite Ho. rewrite bool_decide_eq_true_2 by done. unfold ret. cbn [fst snd]. exists a, sn, st, false. split; [done|]. do 4 (split; [done|]).
    split; [split; [done|]; split; [done|]; split; [done|by left]|]. split; [by apply Hlat|by left].
  - destruct Hanch as [(Hn & Hnf & Hfn & _)|(c0 & hwm & s & Hr & Hl0 & Hhw & Hh0 & Htk)].
    + rewrite (anchor_read_none a p w Hda Hn). assert (disk = NO_FILE) as Hdn by (unfold disk, disk_fp; by rewrite Hnf). rewrite Hdn. rewrite bool_decide_eq_true_2 by done. cbn [negb].
      unfold ret. cbn [fst snd]. rewrite (Hnew Hnf). pose proof Hfn as (_ & _ & Hft & _).
      destruct (Hsee 0 ltac:(cbn in Hft; lia) ltac:(lia)) as (S1 & S2 & S3). rewrite Hdn in *. eexists (see p NO_FILE 0 a), _, _, _. split; [done|]. do 2 (split; [done|]). split; [exact S2|]. split; [exact S3|]. split; [exact S1|]. split; [done|]. left. by rewrite Hnf.
    + rewrite (anchor_read_is a p _ w Hda Hr (Hfp _) (Hfp _)) by (cbn; ulia). cbn [a_cur a_next send_seq_hwm].
      destruct (decide (disk = fingerprint c0)) as [E|E].
      * rewrite (bool_decide_eq_true_2 (disk = fingerprint c0)) by done. cbn [orb]. rewrite bool_decide_eq_true_2 by done. cbn [negb orb].
        unfold ret. cbn [fst snd]. assert (latest L p (files w !! session_path own p)) as Hcur.
        { destruct Htk as [[n ->]|[Hne _]]; [exact Hl0|by destruct Hne]. }
        pose proof (Hlat Hcur) as Hfit. pose proof Hfit as (_ & _ & Hft & _). destruct (Hsee (Z.max hwm (send_seq st)) ltac:(lia) ltac:(lia)) as (S1 & S2 & S3).
        eexists (see p disk (Z.max hwm (send_seq st)) a), _, _, _. split; [done|]. do 2 (split; [done|]). split; [exact S2|]. split; [exact S3|]. split; [exact S1|]. split; [done|by left].
      * rewrite (bool_decide_eq_false_2 (disk = fingerprint c0)) by done. cbn [orb]. unfold ret. cbn [fst snd].
        destruct (Hsee hwm ltac:(lia) ltac:(lia)) as (S1 & S2 & S3). eexists (see p disk hwm a), _, _, _. split; [done|]. do 2 (split; [done|]). split; [exact S2|]. split; [exact S3|]. split; [exact S1|]. split; [|by right].
        apply fits_rolled; try done; try lia. left. destruct Htk as [[n En]|(_ & _ & ?)]; [|done]. destruct E. unfold disk, disk_fp. by rewrite En.
Qed.

(** More may be allowed. *)
Lemma latest_mono L L' p f : ledger_le L L' -> acct L' p = acct L p -> latest L p f -> latest L' p f.
Proof. intros Hle Ha. unfold latest. destruct f as [f|]; [|by apply fits_mono]. intros (st & Hd & Hf). exists st. split; [done|by eapply fits_mono]. Qed.

Lemma loose_mono L L' p f : limit L <= limit L' -> loose L p f -> loose L' p f.
Proof. intros Hl. unfold loose. destruct f as [f|]; [|done]. intros (st & H1 & H2 & H3 & H4). exists st. split_and!; try done. lia. Qed.

Lemma contact_mono L L' w p : ledger_le L L' -> acct L' p = acct L p -> back_contact L w p -> back_contact L' w p.
Proof.
  intros Hle Ha (B1 & B2 & B3). pose proof Hle as [Hl _]. split; [by eapply loose_mono|]. split; [intros c Hcc; eapply loose_mono; [exact Hl|by apply B2]|].
  destruct B3 as [(N1 & N2 & N3 & N4)|(c0 & hwm & s & R1 & R2 & R3 & R4 & R5)]; [left; split_and!; try done; by eapply fits_mono|right].
  exists c0, hwm, s. unfold anchored. rewrite Ha. split; [done|]. split; [by eapply latest_mono|]. split; [lia|]. split; [done|]. unfold last_or_apart in *. by rewrite Ha.
Qed.

Lemma seen_mono L L' w p c sn : ledger_le L L' -> acct L' p = acct L p -> seen_right L w p c sn -> seen_right L' w p c sn.
Proof.
  intros Hle Ha (S1 & S2 & S3 & S4). pose proof Hle as [Hl _]. unfold seen_right. rewrite Ha. split; [done|]. split; [lia|]. split; [done|].
  destruct S4; [by left|right; by eapply latest_mono].
Qed.

Lemma disk_fp_length p w : length (disk_fp p w) = 16%nat.
Proof. unfold disk_fp. destruct (files w !! _); [apply Hfp|done]. Qed.

Lemma disk_same p w w' : files w' !! session_path own p = files w !! session_path own p -> disk_fp p w' = disk_fp p w.
Proof. unfold disk_fp. by intros ->. Qed.

(** A state is written: the record names the new file. *)
Lemma back_write L L' p st g w a sn : p ∈ contacts -> back_dead L w -> st_anchor g = Some a -> an_dir a = Some dir -> an_off a = false ->
  an_seen a !! p = Some sn -> seen_right L w p true sn -> grows p L L' -> fits L' p st ->
  exists w' a' sn' n, write_peer keys own st g w = (w', Some (with_anchor_state (Some a') (with_rng n g), Ok tt)) /\
    an_dir a' = Some dir /\ an_off a' = false /\ an_seen a' !! p = Some sn' /\ (forall q, q <> p -> an_seen a' !! q = an_seen a !! q) /\
    seen_right L' w' p true sn' /\ back_dead L' w' /\ latest L' p (files w' !! session_path own p) /\
    (forall q, q ∈ contacts -> q <> p -> same_files w w' q) /\ same_logs own w w'.
Proof.
  intros Hp (Hf & Hlim & Hb) Hga Hda Hoff Hs (S1 & S2 & S3 & _) Hgr Hfit. pose proof Hfit as (Hwf & Hpe & Hseq & _). pose proof Hgr as (Hl & Hu & _ & Hoth).
  destruct (Hco (st_rng g)) as [_ Hn1]. destruct (Hco (S (st_rng g))) as [_ Hn2].
  destruct (doc_seal_opens Hc Ht Hk sk ChatSessions (session_path own p) (peer_bytes st) (nonce_at (st_rng g)) (peer_bytes_small st Hwf) Hn1) as (b & Hseal & Hlen & Hopn).
  assert (document sk ChatSessions (session_path own p) (peer_bytes st) b) as Hdoc by (split_and!; [done|done|by apply peer_bytes_small]).
  unfold write_peer. rewrite Hpe, Hga, Hseal. cbv zeta. cbn [lift]. rewrite (bind_runs _ _ w w (Ok b)) by done.
  set (hwm := Z.max (seq_hwm sn) (send_seq st)). assert (0 <= hwm <= limit L') as Hhwm by (unfold hwm; lia).
  destruct (put_anchor a p (mkAnchorRecord (on_disk sn) (fingerprint b) hwm) true (nonce_at (S (st_rng g))) w Hp Hf Hda Hn2) as (w1 & E1 & F1 & _ & D1 & O1 & L1);
    [cbn; rewrite S1; apply disk_fp_length|apply Hfp|].
  assert (before_write keys own a p (fingerprint b) (send_seq st) (nonce_at (S (st_rng g))) w = (w1, Some (a, true))) as Hbef.
  { unfold before_write. rewrite Hoff, Hs, Hda. by rewrite (bind_runs _ _ _ _ _ E1). }
  rewrite (bind_runs _ _ _ _ _ Hbef). cbn [fst].
  destruct (put_session p b w1 Hp F1) as (w2 & s2 & E2 & F2 & D2 & _ & O2 & L2). rewrite (bind_runs _ _ _ _ _ E2). cbn [fst].
  set (g1 := with_rng (st_rng g + 3)%nat (with_anchor_state (Some a) g)). destruct (Hco (st_rng g1 - 1)%nat) as [_ Hn3].
  set (a' := see p (fingerprint b) hwm a).
  destruct (put_anchor a' p (mkAnchorRecord (fingerprint b) (fingerprint b) hwm) false (nonce_at (st_rng g1 - 1)%nat) w2 Hp F2 Hda Hn3 (Hfp _) (Hfp _)) as (w3 & E3 & F3 & R3 & D3 & O3 & L3).
  assert (after_write keys own a p (fingerprint b) (send_seq st) (nonce_at (st_rng g1 - 1)%nat) w2 = (w3, Some a')) as Haft.
  { unfold after_write. rewrite Hs. fold hwm a'. cbn [an_off an_dir a' see]. rewrite Hoff, Hda. by rewrite (bind_runs _ _ _ _ _ E3). }
  rewrite (bind_runs _ _ _ _ _ Haft). exists w3, a', (mkSeen (fingerprint b) hwm), (st_rng g + 3)%nat.
  assert (files w3 !! session_path own p = Some (mkFile b s2)) as D03 by congruence. assert (disk_fp p w3 = fingerprint b) as Dfp by (unfold disk_fp; by rewrite D03).
  assert (latest L' p (files w3 !! session_path own p)) as Hlat by (rewrite D03; by exists st).
  assert (forall q, q ∈ contacts -> q <> p -> same_files w w3 q) as Hoq.
  { intros q Hq Hne. destruct (O1 q Hq Hne) as [X1 Y1], (O2 q Hq Hne) as [X2 Y2], (O3 q Hq Hne) as [X3 Y3]. split; congruence. }
  assert (top (acct L' p) <= hwm) as Htop by (unfold hwm; lia).
  split; [done|]. do 2 (split; [done|]). split; [apply lookup_insert_eq|]. split; [intros q Hq; cbn; by rewrite lookup_insert_ne|].
  split; [split; [done|]; cbn [seq_hwm]; split; [lia|]; split; [lia|by left]|]. split.
  - split; [done|]. split; [by rewrite Hl|]. intros q Hq. destruct (decide (q = p)) as [->|Hne].
    + destruct (Hb p Hp) as (_ & B2 & _). split; [rewrite D03; exists st; split_and!; try done; lia|]. split; [intros c Hcc; eapply loose_mono; [|by apply B2]; lia|].
      right. exists b, hwm, s2. split; [done|]. split; [by rewrite <- D03|]. split; [lia|]. split; [lia|]. left. by exists s2.
    + apply (contact_mono L L'); [split; [lia|by rewrite Hu]|by apply Hoth|]. eapply same_contact; [by apply Hoq|by apply Hb].
  - split; [done|]. split; [done|]. intros q Hq. by rewrite L3, L2, L1.
Qed.

Lemma per_contact_same L L' m m' w w' a a' q : m' !! q = m !! q -> an_seen a' !! q = an_seen a !! q -> (q ∈ contacts -> same_files w w' q) ->
  ledger_le L L' -> acct L' q = acct L q -> per_contact L m w a q -> per_contact L' m' w' a' q.
Proof.
  intros Hm Hs Hf Hle Ha [P1 P2]. split.
  - intros s. rewrite Hm. intros Hq. destruct (P1 s Hq) as (C1 & C2 & C3 & C4). destruct (Hf C1) as [F1 _]. split; [done|]. split; [by eapply fits_mono|]. rewrite Hs. split; [done|].
    rewrite F1. destruct C4; [left; by eapply latest_mono|by right].
  - intros sn Hq. rewrite Hs, Hm. intros Hsn. destruct (Hf Hq) as [F1 _]. apply (seen_mono L L'); [done|done|]. destruct (P2 sn Hq Hsn) as (S1 & S2 & S3 & S4).
    unfold seen_right. rewrite F1, (disk_same _ _ _ F1). do 3 (split; [done|]). done.
Qed.

Lemma grows_le p L L' : grows p L L' -> ledger_le L L'.
Proof. intros (H1 & H2 & _). split; [lia|by rewrite H2]. Qed.

(** A slot that is cached is written; then it is clean, or gone. *)
Lemma back_put L L' p s g w : p ∈ contacts -> back_open L g w -> st_peers g !! p = Some s -> grows p L L' -> fits L' p (s_state s) ->
  forall m', (forall q, q <> p -> m' !! q = st_peers g !! q) -> (forall s', m' !! p = Some s' -> s_state s' = s_state s) ->
  exists w' a' n, write_peer keys own (s_state s) g w = (w', Some (with_anchor_state (Some a') (with_rng n g), Ok tt)) /\
    back_dead L' w' /\ back_anchor L' m' w' a' /\ same_logs own w w'.
Proof.
  intros Hp (Hd & a & Hga & Hda & Hoff & Hper) Hs Hgr Hf m' Hm' Hmp. destruct (Hper p) as [P1 P2]. destruct (P1 s Hs) as (_ & _ & [sn Hsn] & _).
  destruct (P2 sn Hp Hsn) as (S1 & S2 & S3 & _).
  destruct (back_write L L' p (s_state s) g w a sn Hp Hd Hga Hda Hoff Hsn ltac:(split; [done|]; split; [done|]; split; [done|by left]) Hgr Hf)
    as (w' & a' & sn' & n & E & A1 & A2 & A3 & A4 & A5 & A6 & A7 & A8 & A9).
  exists w', a', n. split; [done|]. split; [done|]. split; [|done]. split; [done|]. split; [done|]. intros q. destruct (decide (q = p)) as [->|Hne].
  - split.
    + intros s' Hs'. split; [done|]. split; [by rewrite (Hmp s' Hs')|]. split; [by rewrite A3|by left].
    + intros sn0 _ Hsn0. assert (sn0 = sn') as -> by congruence. destruct A5 as (B1 & B2 & B3 & _). split; [done|]. split; [done|]. split; [done|by right].
  - eapply (per_contact_same L L'); [by apply Hm'|by apply A4|intros Hq; by apply A8|by eapply grows_le|destruct Hgr as (_ & _ & _ & Hoth); by apply Hoth|apply Hper].
Qed.

Lemma same_files_refl w p : same_files w w p.
Proof. done. Qed.

Lemma ledger_le_refl L : ledger_le L L.
Proof. split; [lia|done]. Qed.

Lemma back_evict L g w : back_open L g w ->
  runs (evict keys own g) w (fun g' w' => back_open L g' w' /\ (forall q wr, st_writers g' !! q = Some wr -> st_writers g !! q = Some wr) /\
    (forall q s, st_peers g' !! q = Some s -> st_peers g !! q = Some s) /\ same_logs own w w') (fun _ => False).
Proof.
  intros Hg. pose proof Hg as (Hd & a & Hga & Hda & Hoff & Hper). unfold evict. destruct (oldest _ _) as [v|]; [|by apply runs_ret].
  destruct (st_peers g !! v) as [s|] eqn:Ev; [|by apply runs_ret]. cbv zeta. destruct (Hper v) as [P1 P2]. destruct (P1 s Ev) as (Hv & Hf & Hsn & Hst').
  set (g1 := with_peers (delete v (st_peers g)) g). apply runs_bind. destruct (s_dirty s) eqn:Edirty.
  - destruct (back_put L L v s g w Hv Hg Ev (ledger_grows_refl v L) Hf (delete v (st_peers g))) as (w' & a' & n & E & D' & B' & L');
      [intros q Hq; by rewrite lookup_delete_ne|intros s' Hs'; by rewrite lookup_delete_eq in Hs'|].
    assert (write_peer keys own (s_state s) g1 w = (w', Some (with_anchor_state (Some a') (with_rng n g1), Ok tt))) as E1.
    { assert (forall m st, write_peer keys own st (with_peers m g) w = match write_peer keys own st g w with (w0, Some (g0, r)) => (w0, Some (with_peers m g0, r)) | (w0, None) => (w0, None) end) as Hframe.
      { intros m st. unfold write_peer, bind, advance. cbn [st_anchor with_peers st_rng]. destruct (st_anchor g) as [a0|].
        - destruct (lift _ w) as [w2 [[sealed|e]|]]; [|done|done]. destruct (before_write _ _ _ _ _ _ _ w2) as [w3 [b|]]; [|done].
          destruct (write_sealed _ _ _ w3) as [w4 [[u|e]|]]; [|done|done]. cbn [st_rng with_rng]. destruct (after_write _ _ _ _ _ _ _ w4) as [w5 [a5|]]; done.
        - destruct (write_document _ _ _ _ _ w) as [w2 [x|]]; done. }
      unfold g1. rewrite Hframe, E. done. }
    apply runs_bind. unfold runs at 1. rewrite E1. cbn [fst]. apply runs_ret, runs_ret. split_and!; [|..|done].
    + split; [done|]. exists a'. by split.
    + intros q wr Hq. cbn in Hq. by apply lookup_delete_Some in Hq as [_ ?].
    + intros q s' Hq. cbn in Hq. by apply lookup_delete_Some in Hq as [_ ?].
  - apply runs_ret, runs_ret. destruct Hst' as [Hlat|?]; [|done]. split_and!; [|..|done].
    + split; [done|]. exists a. split; [done|]. split; [done|]. split; [done|]. intros q. destruct (decide (q = v)) as [->|Hne].
      * split; [intros s' Hs'; cbn in Hs'; by rewrite lookup_delete_eq in Hs'|]. intros sn Hq Hsn'. destruct (P2 sn Hq Hsn') as (B1 & B2 & B3 & _).
        split; [done|]. split; [done|]. split; [done|by right].
      * apply (per_contact_same L L (st_peers g) _ w w a a); try done. cbn. by rewrite lookup_delete_ne.
    + intros q wr Hq. cbn in Hq. by apply lookup_delete_Some in Hq as [_ ?].
    + intros q s' Hq. cbn in Hq. by apply lookup_delete_Some in Hq as [_ ?].
Qed.

Lemma per_contact_put L m w a p s s' : m !! p = Some s -> per_contact L m w a p -> fits L p (s_state s') -> s_dirty s' = true \/ s_dirty s' = s_dirty s ->
  per_contact L (<[p := s']> m) w a p.
Proof.
  intros Hs [P1 P2] Hf Hd. destruct (P1 s Hs) as (C1 & C2 & C3 & C4). split.
  - intros x. rewrite lookup_insert_eq. intros [= <-]. do 3 (split; [done|]). destruct Hd as [->| ->]; [by right|done].
  - intros sn Hp Hsn. specialize (P2 sn Hp Hsn). rewrite Hs in P2. by rewrite lookup_insert_eq.
Qed.

Lemma back_anchor_put L m w a p s s' : m !! p = Some s -> back_anchor L m w a -> fits L p (s_state s') -> s_dirty s' = true \/ s_dirty s' = s_dirty s ->
  back_anchor L (<[p := s']> m) w a.
Proof.
  intros Hs (H1 & H2 & H3) Hf Hd. split; [done|]. split; [done|]. intros q. destruct (decide (q = p)) as [->|Hne]; [by eapply per_contact_put|].
  apply (per_contact_same L L m _ w w a a); try done. by rewrite lookup_insert_ne.
Qed.

Lemma back_slot L g w p : p ∈ contacts -> back_open L g w ->
  runs (slot keys own secs_at p g) w
    (fun r w' => back_open L r.1 w' /\ st_peers r.1 !! p = Some r.2 /\ fits L p (s_state r.2) /\ same_logs own w w' /\
                 (forall q wr, st_writers r.1 !! q = Some wr -> st_writers g !! q = Some wr)) (fun _ => False).
Proof.
  intros Hp Hg. unfold slot. cbv zeta. destruct (st_peers (tick_store g) !! p) as [s|] eqn:Es.
  - destruct Hg as (Hd & a & Hga & Hb). pose proof Hb as (_ & _ & Hper). destruct (Hper p) as [P1 _]. destruct (P1 s Es) as (_ & Hf & _). apply runs_ret. cbn [fst snd].
    split_and!; [|apply lookup_insert_eq|done|done|done]. split; [done|]. exists a. split; [done|]. cbn. eapply back_anchor_put; [exact Es|done|done|by right].
  - apply runs_bind. assert (back_open L (tick_store g) w) as Hg0 by exact Hg.
    eapply (runs_mono _ _ (fun g' w' => back_open L g' w' /\ (forall q wr, st_writers g' !! q = Some wr -> st_writers g !! q = Some wr) /\ (forall q s, st_peers g' !! q = Some s -> st_peers g !! q = Some s) /\ same_logs own w w') _ (fun _ => False));
      [destruct (_ <=? _)%nat; [exact (back_evict L (tick_store g) w Hg0)|by apply runs_ret]| |done]. cbn beta.
    intros g1 w1 ((Hd1 & a & Hga & Hda & Hoff & Hper) & Hw1 & Hp1 & Hl1). assert (st_peers g1 !! p = None) as Hn1.
    { destruct (st_peers g1 !! p) as [x|] eqn:Ex; [|done]. apply Hp1 in Ex. cbn in Es. congruence. }
    assert (forall sn, an_seen a !! p = Some sn -> seen_right L w1 p false sn) as Hseen.
    { intros sn Hsn. destruct (Hper p) as [_ P2]. specialize (P2 sn Hp Hsn). by rewrite Hn1 in P2. }
    destruct (back_load L p g1 w1 a Hp Hd1 Hga Hda Hoff Hseen) as (a' & sn & st & b & E & A1 & A2 & A3 & A4 & A5 & Hf & Hlat). apply runs_bind. unfold runs at 1. rewrite E.
    apply runs_ret. cbn [fst snd]. set (slot' := mkSlot st b (st_tick (tick_store g)) None).
    assert (back_anchor L (<[p := slot']> (st_peers g1)) w1 a') as Hb'.
    { split; [done|]. split; [done|]. intros q. destruct (decide (q = p)) as [->|Hne].
      - split; [intros x; rewrite lookup_insert_eq; intros [= <-]; split; [done|]; split; [done|]; split; [by rewrite A3|done]|].
        intros sn' _ Hsn'. assert (sn' = sn) as -> by congruence. by rewrite lookup_insert_eq.
      - apply (per_contact_same L L (st_peers g1) _ w1 w1 a a'); try done; [by rewrite lookup_insert_ne|by apply A4]. }
    destruct b; (split_and!; [split; [done|]; exists a'; by split|apply lookup_insert_eq|done|done|done]).
Qed.

Lemma back_flush L L' g w p : p ∈ contacts -> back_open L g w -> grows p L L' ->
  (L' = L \/ exists s, st_peers g !! p = Some s /\ s_dirty s = true /\ fits L' p (s_state s)) ->
  runs (flush_slot keys own p g) w
    (fun r w' => back_open (if is_ok r.2 then L' else L) r.1 w' /\ st_writers r.1 = st_writers g /\ same_logs own w w') (fun _ => False).
Proof.
  intros Hp Hg Hgr Hch. pose proof Hg as (Hd & a & Hga & Hda & Hoff & Hper). unfold flush_slot.
  destruct (st_peers g !! p) as [s|] eqn:Es; [|apply runs_ret; destruct Hch as [->|(? & ? & _)]; [by split_and!|done]].
  destruct (s_dirty s) eqn:Ed; [|apply runs_ret; destruct Hch as [->|(? & [= <-] & ? & _)]; [by split_and!|congruence]].
  assert (fits L' p (s_state s)) as Hf by (destruct Hch as [->|(? & [= <-] & _ & ?)]; [by apply Hper|done]).
  destruct (back_put L L' p s g w Hp Hg Es Hgr Hf (<[p := set_clean s]> (st_peers g))) as (w' & a' & n & E & D' & B' & L0);
    [intros q Hq; by rewrite lookup_insert_ne|intros s'; rewrite lookup_insert_eq; by intros [= <-]|].
  apply runs_bind. unfold runs at 1. rewrite E. apply runs_ret. cbn [fst snd is_ok]. split_and!; [|done|done]. split; [done|]. exists a'. by split.
Qed.

(** A frame for files that are not guarded. *)
Lemma back_same w w' : same_but (fun q => ~ guarded own q) w w' -> forall p, same_files w w' p.
Proof.
  intros [Hs _] p. split; apply Hs; intros Hn; apply Hn; [right; by exists p|left; apply rec_slash].
Qed.

Lemma back_frame L w w' : same_but (fun q => ~ guarded own q) w w' -> back_dead L w -> back_dead L w'.
Proof.
  intros Hs (H1 & H2 & H3). split; [destruct Hs as [_ Hs]; rewrite H1 in Hs; by apply suffix_nil_inv in Hs|]. split; [done|]. intros p Hp. eapply same_contact; [by apply back_same|by apply H3].
Qed.

Lemma back_dead_mono L L' w : ledger_le L L' -> acct L' = acct L -> limit L' <= u64_max -> back_dead L w -> back_dead L' w.
Proof.
  intros Hle Ha Hl (H1 & H2 & H3). split; [done|]. split; [destruct Hle; lia|]. intros p Hp. eapply contact_mono; [exact Hle|by rewrite Ha|by apply H3].
Qed.

Lemma back_anchor_mono L L' m w w' a : ledger_le L L' -> acct L' = acct L -> (forall p, same_files w w' p) -> back_anchor L m w a -> back_anchor L' m w' a.
Proof.
  intros Hle Ha Hs (H1 & H2 & H3). split; [done|]. split; [done|]. intros q. apply (per_contact_same L L' m m w w' a a); try done. by rewrite Ha.
Qed.

#[refine, local] Instance back_regime : StoreRegime keys own secs_at contacts (Some (new_anchor (Some dir))) := {|
  sr_open := back_open; sr_dead := back_dead;
|}.
Proof.
  - by intros L g w [? _].
  - intros L w n Hg. split; [done|]. eexists. split; [done|]. split; [done|]. split; [done|]. intros p. split; cbn; [intros s Hs; by rewrite lookup_empty in Hs|intros sn _ Hs; by rewrite lookup_empty in Hs].
  - intros L g w p Hp Hg. eapply runs_mono; [by apply back_slot| |done]. cbn beta. intros r w' (H1 & H2 & H3 & H4 & H5). by split_and!.
  - intros L g w p s st d n o (Hg & a & Ha & Hb) Hp Hf Hd. split; [done|]. exists a. split; [done|]. cbn. eapply back_anchor_put; [exact Hp|done|done|done].
  - intros L L' g w p Hp Hg Hgr Hch. eapply runs_mono; [by apply back_flush| |done]. by cbn beta.
  - intros L g g' w Hp Ha (Hg & a & Hga & Hb). split; [done|]. exists a. rewrite Ha, Hp. done.
  - intros L g w w' Hs (Hg & a & Hga & Hb). split; [by eapply back_frame|]. exists a. split; [done|]. apply (back_anchor_mono L L _ w); try done. by apply back_same.
  - intros L w w'. apply back_frame.
  - intros L L' g w Hle Ha Hl (Hg & a & Hga & Hb). split; [by eapply back_dead_mono|]. exists a. split; [done|]. by apply (back_anchor_mono L L' _ w w).
  - intros L L' w. apply back_dead_mono.
Defined.

End Back.
