(* ===== verification/ChatPutBack.v ===== *)
(** * ChatPutBack: an old copy of the folder does not bring old keys back

    The machine of [ChatOnce] with copies of the data folder: a copy may be
    taken at any time, and put in place of the folder while no process runs; the
    records of the anchor lie outside the folder.  Nothing else goes wrong. *)

From S2P Require Import Prelude Bytes Text Codec ErasureCode Dissolve Disk SealedState SealedLog SealedRewrite Journal ChatOutbox Ratchet PeerState ChatProto Anchor ChatStore ChatEngine ChatLedger DiskFrame ChatRegime ChatBox ChatRules ChatGuard ChatToys ChatOnce ChatRollback.

(** ** The machine with its copies *)

Inductive FolderEvent := FDo (op : Op) | FDie | FSave | FRestore (i : nat).

Definition Folder : Type := Machine * list (gmap bytes File).

(** The files of the copy, and the records as they are. *)
Definition restored (old cur : gmap bytes File) : gmap bytes File :=
  filter (fun kv => SLASH ∉ kv.1) old ∪ filter (fun kv => SLASH ∈ kv.1) cur.

Lemma restored_plain old cur q : SLASH ∉ q -> restored old cur !! q = old !! q.
Proof.
  intros Hq. unfold restored. destruct (old !! q) as [f|] eqn:E.
  - apply lookup_union_Some_l, map_lookup_filter_Some. by split.
  - rewrite lookup_union_r by (apply map_lookup_filter_None; by left). apply map_lookup_filter_None. right. intros f _. exact Hq.
Qed.

Lemma restored_slash old cur q : SLASH ∈ q -> restored old cur !! q = cur !! q.
Proof.
  intros Hq. unfold restored. rewrite lookup_union_r by (apply map_lookup_filter_None; right; intros f _ Hn; by apply Hn).
  destruct (cur !! q) as [f|] eqn:E; [apply map_lookup_filter_Some; by split|apply map_lookup_filter_None; by left].
Qed.

Section Folder.
Context {CR : Crypto} {SC : StateCipher} {RC : RatchetCrypto} {KH : KeyedHash} {CO : Coins}.
Context (cfg : StoreSettings) (keys : StateKeys) (secs_at : nat -> Z) (me : Identity) (max_text : Z) (anchor0 : option Anchor).

Definition folder_event (s : Folder) (ev : FolderEvent) : Folder * list Out :=
  let '(m, cs) := s in
  match ev with
  | FDo op => let '(m', o) := step cfg keys secs_at me max_text anchor0 m op in ((m', cs), o)
  | FDie => (((m.1, None), cs), [])
  | FSave => ((m, cs ++ [files m.1]), [])
  | FRestore i => match cs !! i with
                  | Some c => (((mkWorld (restored c (files m.1)) (fates m.1), None), cs), [])
                  | None => (s, [])
                  end
  end.

Fixpoint folder_run (s : Folder) (evs : list FolderEvent) : Folder * list Out :=
  match evs with
  | [] => (s, [])
  | ev :: evs => let '(s1, o1) := folder_event s ev in let '(s2, o2) := folder_run s1 evs in (s2, o1 ++ o2)
  end.

(** The states between the events. *)
Fixpoint folder_states (s : Folder) (evs : list FolderEvent) : list Folder :=
  match evs with
  | [] => []
  | ev :: evs => s :: folder_states (folder_event s ev).1 evs
  end.

(** The session file of a contact at these times. *)
Definition session_file (p : bytes) (s : Folder) : option bytes := content <$> files s.1.1 !! session_path (id_key me) p.
Definition session_files (p : bytes) (s : Folder) (evs : list FolderEvent) : list bytes := omap (session_file p) (folder_states s evs).

End Folder.

(** The fingerprint tells these files apart, and each from no file at all; the
    source counts on it because every write draws a new nonce. *)
Definition told_apart `{Crypto} (l : list bytes) : Prop :=
  (forall a b, a ∈ l -> b ∈ l -> fingerprint a = fingerprint b -> a = b) /\ (forall a, a ∈ l -> fingerprint a <> NO_FILE).

Definition told_apartb `{Crypto} (l : list bytes) : bool :=
  forallb (fun a => negb (bool_decide (fingerprint a = NO_FILE)) &&
    forallb (fun b => negb (bool_decide (fingerprint a = fingerprint b)) || bool_decide (a = b)) l) l.

Lemma told_apart_check `{Crypto} l : told_apartb l = true -> told_apart l.
Proof.
  intros Hl. assert (forall a, a ∈ l -> fingerprint a <> NO_FILE /\ forall b, b ∈ l -> fingerprint a = fingerprint b -> a = b) as Hall.
  { intros a Ha%list_elem_of_In. apply (proj1 (forallb_forall _ _) Hl) in Ha as [H1%negb_true_iff%bool_decide_eq_false H2]%andb_true_iff. split; [done|].
    intros b Hb%list_elem_of_In E. apply (proj1 (forallb_forall _ _) H2) in Hb. apply orb_true_iff in Hb as [Hb%negb_true_iff%bool_decide_eq_false|Hb%bool_decide_eq_true]; done. }
  split; [intros a b Ha Hb; by apply Hall|intros a Ha; by apply Hall].
Qed.

Definition folder_drawn `{RatchetCrypto} (ev : FolderEvent) : list bytes := match ev with FDo op => drawn op | _ => [] end.
Definition folder_ok (contacts : list bytes) (peer_of : bytes -> bytes) (ev : FolderEvent) : Prop := match ev with FDo op => op_ok contacts peer_of op | _ => True end.

(** The numbers that were given. *)
Definition is_given (o : Out) : bool := match o with Given _ _ => true | _ => false end.
Definition given (outs : list Out) : list Out := List.filter is_given outs.

Definition entered_back (L : Ledger) (o : Out) : Prop :=
  match o with Sent p b => known L p b | Given p n => n <= top (acct L p) | Got _ _ => True end.
Definition gave_ok (L : Ledger) (outs : list Out) : Prop := Forall (entered_back L) outs /\ NoDup (given outs).

(** What was taken may be forgotten: the history goes back with the folder. *)
Definition forget (L : Ledger) : Ledger := mkLedger (limit L) (used L) (fun p => mkAccount (issued (acct L p)) (top (acct L p)) []).

Definition sending_more (L L' : Ledger) : Prop := forall p, (exists es, issued (acct L' p) = issued (acct L p) ++ es) /\ top (acct L p) <= top (acct L' p).

Lemma sending_of_more L L' : ledger_more L L' -> sending_more L L'.
Proof. intros H p. destruct (H p) as (H1 & H2 & _). by split. Qed.

Lemma sending_forget L : sending_more L (forget L).
Proof. intros p. split; [exists []; by rewrite app_nil_r|cbn; lia]. Qed.

Lemma entered_sending L L' o : sending_more L L' -> entered_back L o -> entered_back L' o.
Proof.
  intros Hm. destruct o as [p b|p n|p n]; cbn; [|destruct (Hm p); lia|done]. intros (e & He & ->). exists e. split; [|done]. destruct (Hm p) as [[es ->] _]. apply elem_of_app. by left.
Qed.

Lemma gave_more L L' outs : sending_more L L' -> gave_ok L outs -> gave_ok L' outs.
Proof. intros Hm [H1 H2]. split; [|done]. eapply Forall_impl; [exact H1|]. intros o. by apply entered_sending. Qed.

Lemma gave_snoc L L' outs o : sending_more L L' -> gave_ok L outs -> out_ok L L' o -> gave_ok L' (outs ++ [o]).
Proof.
  intros Hm [H1 H2] Ho. assert (entered_back L' o) as He by (destruct o as [p b|p n|p n]; cbn in *; [done|lia|done]). split.
  - apply Forall_app. split; [|by apply Forall_singleton]. eapply Forall_impl; [exact H1|]. intros x. by apply entered_sending.
  - unfold given. rewrite List.filter_app. cbn. destruct (is_given o) eqn:En; [|by rewrite app_nil_r]. apply NoDup_app. split_and!; [done| |apply NoDup_singleton].
    intros x Hx ->%list_elem_of_singleton. apply list_elem_of_In, filter_In in Hx as [Hx _]. rewrite Forall_forall in H1. apply list_elem_of_In, H1 in Hx.
    destruct o as [p b|p n|p n]; cbn in *; [done|lia|done].
Qed.

Section PutBack.
Context {CR : Crypto} {SC : StateCipher} {RC : RatchetCrypto} {KH : KeyedHash} {CO : Coins}.
Context (Hc : cipher_correct) (Ht : cipher_total) (Hk : hkdf_total) (Hop : cipher_opens) (Hco : coins_sized).
Context (Hz : kdf_sized) (Hmg : montgomery_sized) (Hfp : fingerprint_sized) (Hkh : keyed_sized).
Context (sk : bytes) (cfg : StoreSettings) (secs_at : nat -> Z) (me : Identity) (max_text : Z).
Context (contacts : list bytes) (peer_of : bytes -> bytes) (dir k : bytes).

Abbreviation keys := (mkKeys (Some sk)).
Abbreviation own := (id_key me).
Abbreviation anchor0 := (Some (new_anchor (Some dir))).

Context (Hkey : doc_key keys ChatAnchor = Ret (Ok k)).
Context (Hme : identity_wf me) (Hst : stems_ok own) (Hdefer : defer_flush cfg = false) (Hmax : max_text <= MAX_TEXT).
Context (Hcon : Forall (array 32) contacts) (Hdir : SLASH ∈ dir).
Context (Hinj : forall p q, p ∈ contacts -> q ∈ contacts -> file_stem own p = file_stem own q -> p = q).
Context (Hnames : forall p q, p ∈ contacts -> q ∈ contacts -> anchor_name own k p = anchor_name own k q -> p = q).

(** Files of each contact that the hash tells apart. *)
Context (known_files : bytes -> list bytes) (Hap : forall p, p ∈ contacts -> told_apart (known_files p)).
Abbreviation once_last := (fun p b => b ∈ known_files p).
Abbreviation back_dead := (back_dead sk own contacts dir k).

Definition regime_at (cs : list (gmap bytes File)) : StoreRegime keys own secs_at contacts anchor0 :=
  back_regime Hc Ht Hk Hco Hfp Hkh sk own secs_at contacts dir k Hkey Hst Hcon Hdir Hinj Hnames cs once_last.

Definition folder_machine (cs : list (gmap bytes File)) (L : Ledger) (m : Machine) : Prop :=
  machine_ok Hc Ht Hk Hco sk secs_at me contacts peer_of anchor0 (R := regime_at cs) L m.

Abbreviation box_dead := (box_dead contacts peer_of (J := engine_journal sk) (JL := engine_laws Hc Ht Hk Hco sk)).

(** The outbox in a copy knows the ledger as well. *)
Definition boxes_ok (L : Ledger) (cs : list (gmap bytes File)) : Prop := forall c, c ∈ cs -> box_dead L (mkWorld c [], None).

Lemma box_of_files L w wr : box_dead L (w, wr) -> box_dead L (mkWorld (files w) [], None).
Proof. intros Hb. eapply box_dead_same; [|exact Hb|by right]. done. Qed.

Lemma box_sending L L' s : sending_more L L' -> box_dead L s -> box_dead L' s.
Proof.
  intros Hm (recs & d & Hj & Hr). exists recs, d. split; [done|]. eapply Forall_impl; [exact Hr|].
  assert (forall p x, known L p x -> known L' p x) as Hkn.
  { intros p x (e & He & ->). exists e. split; [|done]. destruct (Hm p) as [[es ->] _]. apply elem_of_app. by left. }
  intros r [R1 R2]. split; [|intros Hs; by apply Hkn, R2]. intros e He. destruct (R1 e He) as (E1 & E2 & E3 & E4). split_and!; try done. intros x Hx. by apply Hkn, E4.
Qed.

Lemma boxes_sending L L' cs : sending_more L L' -> boxes_ok L cs -> boxes_ok L' cs.
Proof. intros Hm Hb c Hcc. eapply box_sending; [exact Hm|by apply Hb]. Qed.

Lemma folder_stops cs L m : folder_machine cs L m -> folder_machine cs L (m.1, None).
Proof. destruct m as [w [c|]]; [|done]. unfold folder_machine, machine_ok. cbn [fst snd]. apply ok_dead. Qed.

(** One more copy. *)
Lemma dead_saved cs L w : back_dead cs once_last L w -> back_dead (cs ++ [files w]) once_last L w.
Proof.
  intros (H1 & H2 & H3). split; [done|]. split; [done|]. intros p Hp. destruct (H3 p Hp) as (B1 & B2 & B3). split; [done|]. split.
  - intros c [Hcc| ->%list_elem_of_singleton]%elem_of_app; [by apply B2|done].
  - destruct B3 as [(N1 & N2 & N3 & N4)|B3]; [left|by right]. split_and!; try done. intros c [Hcc| ->%list_elem_of_singleton]%elem_of_app; [by apply N4|done].
Qed.

Lemma folder_saves cs L m : folder_machine cs L m -> boxes_ok L cs -> folder_machine (cs ++ [files m.1]) L m /\ boxes_ok L (cs ++ [files m.1]).
Proof.
  intros Hm Hb. pose proof (folder_stops cs L m Hm) as (_ & _ & Hbox). split.
  - unfold folder_machine, machine_ok in *. destruct m as [w [c|]]; cbn [fst snd] in *.
    + destruct Hm as (M1 & (M2 & M3) & M4). split; [done|]. split; [split; [|done]|done]. destruct M2 as [D A]. split; [by apply dead_saved|done].
    + destruct Hm as (M1 & M2 & M3). split; [done|]. split; [by apply dead_saved|done].
  - intros c [Hcc| ->%list_elem_of_singleton]%elem_of_app; [by apply Hb|]. by eapply box_of_files.
Qed.

Lemma fits_forget L p st : fits L p st -> fits (forget L) p st.
Proof. intros (F1 & F2 & F3 & F4 & F5). split_and!; try done; try apply F3. Qed.

(** The files of a folder are known. *)
Definition all_known (fs : gmap bytes File) : Prop := forall p f, p ∈ contacts -> fs !! session_path own p = Some f -> content f ∈ known_files p.

(** The record names a file that was the last one; the copy has that one or
    another. *)
Lemma restored_apart L w c p c0 : p ∈ contacts -> all_known c -> all_known (files w) ->
  recorded_as sk own dir k once_last L w p c0 -> c0 ∈ known_files p /\ last_or_apart own once_last (forget L) (mkWorld (restored c (files w)) (fates w)) p c0.
Proof.
  intros Hp Hkc Hkw (hwm0 & s0 & _ & _ & _ & _ & Hla). destruct (Hap p Hp) as [A1 A2]. assert (c0 ∈ known_files p) as Hc0.
  { destruct Hla as [[n E]|(_ & ? & _)]; [exact (Hkw p _ Hp E)|done]. }
  split; [done|]. unfold last_or_apart, disk_fp. cbn [files]. rewrite (restored_plain c (files w) (session_path own p)) by apply session_plain, Hst.
  destruct (c !! session_path own p) as [[b n]|] eqn:E; [|right; split; [intros E'; by apply (A2 c0)|done]].
  destruct (decide (b = c0)) as [->|Hne]; [left; by exists n|right]. split; [|done]. intros E'. apply Hne, A1; [exact (Hkc p _ Hp E)|done|done].
Qed.

(** A copy is put back: the records tell what was used. *)
Lemma dead_restored cs L w c : c ∈ cs -> all_known c -> all_known (files w) -> back_dead cs once_last L w ->
  back_dead cs once_last (forget L) (mkWorld (restored c (files w)) (fates w)).
Proof.
  intros Hcc Hkc Hkw (H1 & H2 & H3). split; [done|]. split; [done|]. intros p Hp. destruct (H3 p Hp) as (B1 & B2 & B3).
  assert (restored c (files w) !! session_path own p = c !! session_path own p) as Es by (apply restored_plain, session_plain, Hst).
  assert (restored c (files w) !! rec_path own dir k p = files w !! rec_path own dir k p) as Er by (apply restored_slash, rec_slash, Hdir).
  split; [cbn [files]; rewrite Es; by apply B2|]. split; [intros x Hx; by apply B2|].
  destruct B3 as [(N1 & N2 & N3 & N4)|(c0 & B3)].
  - left. cbn [files]. rewrite Es, Er. split_and!; try done; [by apply N4|by apply fits_forget].
  - destruct (restored_apart L w c p c0 Hp Hkc Hkw B3) as [_ Hla]. destruct B3 as (hwm & s & R1 & R2 & R3 & R4 & _).
    right. exists c0, hwm, s. split; [unfold record_is in *; cbn [files]; by rewrite Er|]. split; [|split; [done|]; split; [done|done]].
    cbn in R2 |- *. destruct R2 as (st & Hd & Hf). exists st. split; [done|by apply fits_forget].
Qed.

Lemma folder_restores cs L w c : c ∈ cs -> all_known c -> all_known (files w) -> folder_machine cs L (w, None) -> boxes_ok L cs ->
  folder_machine cs (forget L) (mkWorld (restored c (files w)) (fates w), None) /\ boxes_ok (forget L) cs.
Proof.
  intros Hcc Hkc Hkw (M1 & M2 & M3) Hb. split; [|eapply boxes_sending; [apply sending_forget|done]]. split; [|split].
  - intros p. destruct (M1 p) as (N1 & N2 & _). cbn. split_and!; [done|done|apply NoDup_nil_2].
  - by apply dead_restored.
  - eapply box_sending; [apply sending_forget|]. eapply box_dead_same; [|by apply (Hb c Hcc)|by right]. cbn. apply restored_plain. vm_compute. set_solver.
Qed.

Definition folder_inv (L : Ledger) (s : Folder) : Prop := folder_machine s.2 L s.1 /\ boxes_ok L s.2 /\ forall c, c ∈ s.2 -> all_known c.

Lemma folder_event_sound L s ev :
  folder_ok contacts peer_of ev -> (forall u, u ∈ folder_drawn ev -> u ∉ used L) -> limit L < u64_max -> all_known (files s.1.1) -> folder_inv L s ->
  let r := folder_event cfg keys secs_at me max_text anchor0 s ev in
  exists L', limit L' <= limit L + 1 /\ used L' = used L ++ folder_drawn ev /\ sending_more L L' /\ folder_inv L' r.1 /\ (r.2 = [] \/ exists o, r.2 = [o] /\ out_ok L L' o).
Proof.
  intros Hev Hnew Hl Hkw (Hm & Hb & Hkc). destruct s as [m cs]. cbn [fst snd] in *. assert (sending_more L L) as Hsame by apply sending_of_more, more_refl.
  destruct ev as [op| | |i]; cbn [folder_event folder_drawn folder_ok] in *; rewrite ?app_nil_r.
  - destruct (step_sound Hc Ht Hk Hco sk cfg secs_at me max_text contacts peer_of anchor0 (R := regime_at cs) Hst Hdefer Hz Hmg Hop Hme Hcon Hmax L m op Hev Hnew Hl Hm) as (L' & (E1 & E2 & E3) & H2 & H3).
    destruct (step cfg keys secs_at me max_text anchor0 m op) as [m' o]. cbn [fst snd] in *. assert (sending_more L L') as Hs by (by apply sending_of_more).
    exists L'. split; [rewrite E1; cbn; lia|]. split; [done|]. split; [done|]. split; [split; [done|]; split; [by eapply boxes_sending|done]|done].
  - exists L. split; [lia|]. do 2 (split; [done|]). split; [split; [by apply folder_stops|by split]|by left].
  - exists L. split; [lia|]. do 2 (split; [done|]). split; [|by left]. destruct (folder_saves cs L m Hm Hb) as [S1 S2]. split; [done|]. split; [done|].
    cbn [snd]. intros c [Hcc| ->%list_elem_of_singleton]%elem_of_app; [by apply Hkc|done].
  - destruct (cs !! i) as [c|] eqn:Ec; [|exists L; split; [lia|]; do 2 (split; [done|]); split; [by split_and!|by left]].
    exists (forget L). split; [cbn; lia|]. split; [done|]. split; [apply sending_forget|]. split; [|by left]. cbn [fst snd]. apply list_elem_of_lookup_2 in Ec.
    destruct (folder_restores cs L m.1 c Ec (Hkc c Ec) Hkw (folder_stops cs L m Hm) Hb) as [R1 R2]. by split_and!.
Qed.

Lemma folder_run_sound evs L s outs :
  Forall (folder_ok contacts peer_of) evs -> NoDup (used L ++ flat_map folder_drawn evs) -> limit L + zlen evs < u64_max ->
  (forall s', s' ∈ folder_states cfg keys secs_at me max_text anchor0 s evs -> all_known (files s'.1.1)) -> folder_inv L s -> gave_ok L outs ->
  let r := folder_run cfg keys secs_at me max_text anchor0 s evs in exists L', folder_inv L' r.1 /\ gave_ok L' (outs ++ r.2).
Proof.
  intros Hevs. revert L s outs. induction Hevs as [|ev evs Hev _ IH]; intros L s outs Hnd Hl Hkn Hm Ho; cbn [folder_run folder_states flat_map] in *.
  { exists L. by rewrite app_nil_r. }
  rewrite zlen_cons in Hl. pose proof (zlen_nonneg evs) as Hlen.
  assert (forall u, u ∈ folder_drawn ev -> u ∉ used L) as Hnew.
  { intros u Hu Hu'. apply NoDup_app in Hnd as (_ & Hd & _). apply (Hd u Hu'). apply elem_of_app. by left. }
  destruct (folder_event_sound L s ev Hev Hnew ltac:(lia) (Hkn s ltac:(by left)) Hm) as (L1 & E1 & E2 & E3 & Hm1 & Ho1).
  assert (forall s', s' ∈ folder_states cfg keys secs_at me max_text anchor0 (folder_event cfg keys secs_at me max_text anchor0 s ev).1 evs -> all_known (files s'.1.1)) as Hkn1
    by (intros s' Hs'; apply Hkn; by right).
  destruct (folder_event cfg keys secs_at me max_text anchor0 s ev) as [s1 o1]. cbn [fst snd] in *.
  specialize (IH L1 s1 (outs ++ o1)). destruct (folder_run cfg keys secs_at me max_text anchor0 s1 evs) as [s2 o2]. cbn [fst snd] in *. rewrite app_assoc. apply IH.
  - by rewrite E2, <- app_assoc.
  - lia.
  - exact Hkn1.
  - done.
  - destruct Ho1 as [->|(o & -> & Hoo)]; [rewrite app_nil_r; by eapply gave_more|by eapply gave_snoc].
Qed.

Lemma folder_fresh w : files w = ∅ -> fates w = [] -> folder_inv (empty_ledger []) ((w, None), []).
Proof.
  intros Hw Hf. split; [|split; by intros c Hcc%elem_of_nil]. cbn. split_and!.
  - intros p. cbn. split_and!; [apply NoDup_nil_2|constructor|apply NoDup_nil_2].
  - split; [done|]. split; [by cbn|]. intros p Hp. cbn [fst]. split; [by rewrite Hw, lookup_empty|]. split; [by intros c Hcc%elem_of_nil|]. left. rewrite Hw, !lookup_empty. do 2 (split; [done|]).
    split; [|by intros c Hcc%elem_of_nil]. rewrite Forall_forall in Hcon. split; [by apply wf_new_peer, Hcon|]. cbn. by split_and!.
  - exists [], 0%nat. split; [|constructor]. apply j_fresh_law. cbn. by rewrite Hw, lookup_empty.
Qed.

End PutBack.

Section Rollback.
Context {CR : Crypto} {SC : StateCipher} {RC : RatchetCrypto} {KH : KeyedHash} {CO : Coins}.
Context (Hc : cipher_correct) (Ht : cipher_total) (Hk : hkdf_total) (Hop : cipher_opens) (Hco : coins_sized).
Context (Hz : kdf_sized) (Hmg : montgomery_sized) (Hfp : fingerprint_sized) (Hkh : keyed_sized).
Context (sk : bytes) (cfg : StoreSettings) (secs_at : nat -> Z) (me : Identity) (max_text : Z).
Context (contacts : list bytes) (peer_of : bytes -> bytes) (dir k : bytes).
Abbreviation keys := (mkKeys (Some sk)).
Abbreviation own := (id_key me).
Abbreviation anchor0 := (Some (new_anchor (Some dir))).
Context (Hkey : doc_key keys ChatAnchor = Ret (Ok k)).
Context (Hme : identity_wf me) (Hst : stems_ok own) (Hdefer : defer_flush cfg = false) (Hmax : max_text <= MAX_TEXT).
Context (Hcon : Forall (array 32) contacts) (Hdir : SLASH ∈ dir).
Context (Hinj : forall p q, p ∈ contacts -> q ∈ contacts -> file_stem own p = file_stem own q -> p = q).
Context (Hnames : forall p q, p ∈ contacts -> q ∈ contacts -> anchor_name own k p = anchor_name own k q -> p = q).

(** C4. A data folder that is put back to any earlier copy of itself, as often
    as one likes, does not make the program use a number or a key twice: the
    numbers go on above those given before, and two envelopes for a contact
    with the same key of the ratchet are the same bytes.  The records of the
    anchor stay where they are, no write fails and the process does not die
    within a call, deferred writes are off, the secrets and ids that are drawn
    are fresh, and in this run no two session files of a contact collide under
    the 16-byte fingerprint, nor does one have the fingerprint that stands for
    no file. *)
Theorem rollback_uses_nothing_twice w0 evs :
  files w0 = ∅ -> fates w0 = [] -> Forall (folder_ok contacts peer_of) evs -> NoDup (flat_map folder_drawn evs) -> zlen evs < u64_max ->
  (forall p, p ∈ contacts -> told_apart (session_files cfg keys secs_at me max_text anchor0 p ((w0, None), []) evs)) ->
  let outs := (folder_run cfg keys secs_at me max_text anchor0 ((w0, None), []) evs).2 in
  NoDup (given outs) /\
  (forall p b1 b2 e1 e2, Sent p b1 ∈ outs -> Sent p b2 ∈ outs -> env_decode b1 = Ok e1 -> env_decode b2 = Ok e2 -> env_key e1 = env_key e2 -> b1 = b2).
Proof.
  intros Hw Hf Hevs Hnd Hl Hap outs. set (known_files := fun p => session_files cfg keys secs_at me max_text anchor0 p ((w0, None), []) evs).
  assert (forall s', s' ∈ folder_states cfg keys secs_at me max_text anchor0 ((w0, None), []) evs -> all_known me contacts known_files (files s'.1.1)) as Hkn.
  { intros s' Hs' p f _ Ef. apply list_elem_of_omap. exists s'. split; [done|]. apply fmap_Some. by exists f. }
  destruct (folder_run_sound Hc Ht Hk Hop Hco Hz Hmg Hfp Hkh sk cfg secs_at me max_text contacts peer_of dir k Hkey Hme Hst Hdefer Hmax Hcon Hdir Hinj Hnames known_files Hap
    evs (empty_ledger []) ((w0, None), []) [] Hevs Hnd Hl Hkn) as (L & [Hm _] & [Hent Hnum]); [by apply folder_fresh|by split; constructor|].
  fold outs in Hent, Hnum. cbn [app] in *. rewrite Forall_forall in Hent. split; [done|]. intros p b1 b2 e1 e2 H1 H2 D1 D2 Hkey'.
  assert (ledger_ok L) as Hok by (destruct (folder_run cfg keys secs_at me max_text anchor0 ((w0, None), []) evs) as [[[w [c|]] cs] o]; by destruct Hm).
  destruct (Hent _ H1) as (x1 & I1 & ->). destruct (Hent _ H2) as (x2 & I2 & ->). destruct (Hok p) as (Hnd' & Hall & _). rewrite Forall_forall in Hall.
  destruct (Hall x1 I1) as [_ X1]. destruct (Hall x2 I2) as [_ X2]. rewrite X1 in D1. rewrite X2 in D2. injection D1 as <-. injection D2 as <-. f_equal. by eapply (nodup_image env_key).
Qed.

End Rollback.

(** ** An interruption after a rollback *)

(** A number of operations succeed. *)
Lemma write_sealed_then path b durable fs rest :
  exists n w' s, write_sealed path b durable (mkWorld fs (replicate n Fine ++ rest)) = (w', Some (Ok tt)) /\ fates w' = rest /\ files w' !! path = Some (mkFile b s) /\
    forall q, q <> path -> q <> staged_tmp path -> files w' !! q = fs !! q.
Proof.
  pose proof (staged_ne path) as Hne. exists (2 + Nat.b2n (bool_decide (is_Some (fs !! staged_tmp path))) + Nat.b2n durable)%nat.
  unfold write_sealed, stage_sealed, write_restricted, exists_file, write_file, remove_file, sync_file, rename, drop_file, put, get, fate, try_bind, bind, ret. cbn [files fates].
  destruct (bool_decide _), durable; cbn; repeat (rewrite lookup_insert_eq; cbn); eexists _, _; (split; [reflexivity|]); cbn; (split; [done|]);
    (split; [apply lookup_insert_eq|]); intros q H1 H2; rewrite lookup_insert_ne, lookup_delete_ne by done; rewrite ?lookup_insert_ne by done; by rewrite ?lookup_delete_ne.
Qed.

(** The process dies before the new file is in place. *)
Lemma write_sealed_dies path b durable w : fates w = [Dies 0] ->
  exists w', write_sealed path b durable w = (w', None) /\ forall q, q <> staged_tmp path -> files w' !! q = files w !! q.
Proof.
  intros Hf. destruct w as [fs ft]. cbn in Hf. subst ft.
  unfold write_sealed, stage_sealed, write_restricted, exists_file, write_file, remove_file, put, get, fate, try_bind, bind, ret, die. cbn [files fates].
  destruct (bool_decide _); cbn; eexists; (split; [reflexivity|]); [done|]. intros q Hq. cbn. by rewrite lookup_insert_ne.
Qed.

Section Interrupted.
Context {CR : Crypto} {SC : StateCipher} {RC : RatchetCrypto} {KH : KeyedHash} {CO : Coins}.
Context (Hc : cipher_correct) (Ht : cipher_total) (Hk : hkdf_total) (Hco : coins_sized) (Hfp : fingerprint_sized).
Context (sk own : bytes) (secs_at : nat -> Z) (dir k : bytes).
Abbreviation keys := (mkKeys (Some sk)).
Abbreviation record_is := (record_is sk own dir k).
Abbreviation rec_path := (rec_path own dir k).
Context (Hkey : doc_key keys ChatAnchor = Ret (Ok k)) (Hst : stems_ok own) (Hdir : SLASH ∈ dir).

(** The record is sealed and put in place. *)
Lemma anchor_write_is a p r durable nonce : an_dir a = Some dir -> length nonce = NONCE_LEN -> length (a_cur r) = 16%nat -> length (a_next r) = 16%nat ->
  exists b, document sk ChatAnchor (anchor_name own k p) (anchor_encode r) b /\
    forall w, anchor_write keys own a p r durable nonce w = bind (write_sealed (rec_path p) b durable) (fun x => ret (is_ok x)) w.
Proof.
  intros Ha Hn H1 H2. assert (zlen (anchor_encode r) <= max_document_bytes ChatAnchor) as Hz.
  { unfold anchor_encode, zlen. rewrite !length_app, be_bytes_length, H1, H2. done. }
  destruct (doc_seal_opens Hc Ht Hk sk ChatAnchor (anchor_name own k p) (anchor_encode r) nonce Hz Hn) as (b & Hb & Hlen & Hopn).
  exists b. split; [by split_and!|]. intros w. unfold anchor_write, path_of. rewrite Ha, Hkey. unfold bind at 1, ret at 1. rewrite Hb. cbn [lift]. unfold bind at 1, ret at 1. done.
Qed.

(** A file that the record names neither as the last nor as the next one. *)
Definition behind_record (w : World) (p b : bytes) (r : AnchorRecord) : Prop :=
  record_is w p r /\ length (a_cur r) = 16%nat /\ length (a_next r) = 16%nat /\ in_u64 (send_seq_hwm r) /\ fingerprint b <> a_cur r /\ fingerprint b <> a_next r.

Definition session_is (w : World) (p b : bytes) (st : PeerState) : Prop :=
  exists s, files w !! session_path own p = Some (mkFile b s) /\ document sk ChatSessions (session_path own p) (peer_bytes st) b /\ peer_wf st /\ p_peer st = p.

Definition started (g : Store) : Prop := st_anchor g = Some (new_anchor (Some dir)).

Lemma load_found p g w b st : session_is w p b st -> started g ->
  load_peer keys own secs_at p g w =
    (let* r := anchor_check keys own (new_anchor (Some dir)) p (fingerprint b) (send_seq st) (nonce_at (st_rng g)) in
     let g := advance (with_anchor_state (Some r.1) g) in
     ret (match r.2 with CFine => (g, st, false) | CBehind floor => (g, set_send_seq (Z.max (send_seq st) floor) (set_session None st), true) end)) w.
Proof.
  intros (s & Ef & Hd & Hw & Hp) Hg. unfold load_peer. rewrite (bind_runs _ _ _ _ _ (exists_runs _ w)), Ef, bool_decide_eq_true_2 by done.
  rewrite (bind_runs _ _ _ _ _ (session_found sk own (secs_at (st_rng g)) p st b s w Ef Hd Hw Hp)). cbn [fst snd]. by rewrite Hg.
Qed.

(** A new process notices the old file. *)
Lemma load_notices p g w b st r : session_is w p b st -> started g -> behind_record w p b r ->
  load_peer keys own secs_at p g w =
    (w, Some (advance (with_anchor_state (Some (see p (fingerprint b) (send_seq_hwm r) (new_anchor (Some dir)))) g),
              set_send_seq (Z.max (send_seq st) (send_seq_hwm r)) (set_session None st), true)).
Proof.
  intros Hs Hg (Hr & H1 & H2 & H3 & N1 & N2). rewrite (load_found p g w b st Hs Hg). unfold bind, anchor_check. cbn [new_anchor an_off an_seen]. unfold bind.
  rewrite (anchor_read_is sk own dir k Hkey (new_anchor (Some dir)) p r w eq_refl Hr H1 H2 H3), lookup_empty.
  rewrite (bool_decide_eq_false_2 _ N1), (bool_decide_eq_false_2 _ N2). done.
Qed.

(** A new process takes the file for the last one when the record names it as
    such, whatever is named as the next. *)
Lemma load_trusts p g w b st next hwm : session_is w p b st -> started g -> fates w = [] -> record_is w p (mkAnchorRecord (fingerprint b) next hwm) ->
  length next = 16%nat -> in_u64 hwm -> exists w' g', load_peer keys own secs_at p g w = (w', Some (g', st, false)).
Proof.
  intros Hs Hg Hf Hr H2 H3. rewrite (load_found p g w b st Hs Hg). unfold bind, anchor_check. cbn [new_anchor an_off an_seen]. unfold bind.
  rewrite (anchor_read_is sk own dir k Hkey (new_anchor (Some dir)) p _ w eq_refl Hr (Hfp _) H2 H3), lookup_empty. cbn [a_cur a_next send_seq_hwm].
  rewrite (bool_decide_eq_true_2 (fingerprint b = fingerprint b)) by done. cbn [orb].
  destruct (negb (bool_decide (fingerprint b = next)) || negb (bool_decide (fingerprint b = next))); [|by eexists _, _].
  set (a := see _ _ _ _). destruct (Hco (st_rng g)) as [_ Hn].
  destruct (anchor_write_is a p (mkAnchorRecord (fingerprint b) (fingerprint b) (Z.max hwm (send_seq st))) false (nonce_at (st_rng g)) eq_refl Hn (Hfp _) (Hfp _)) as (x & _ & Hx).
  rewrite Hx. destruct (write_sealed_fine (rec_path p) x false w Hf) as (w' & s & E & _). unfold bind. rewrite E. by eexists _, _.
Qed.

(** The write after that dies between the record and the session file. *)
Lemma write_interrupted p g w b st0 st hwm : session_is w p b st0 -> peer_wf st -> p_peer st = p -> in_u64 hwm ->
  st_anchor g = Some (see p (fingerprint b) hwm (new_anchor (Some dir))) ->
  exists ft w2 next hwm', write_peer keys own st g (mkWorld (files w) ft) = (w2, None) /\ session_is w2 p b st0 /\
    record_is w2 p (mkAnchorRecord (fingerprint b) next hwm') /\ length next = 16%nat /\ in_u64 hwm'.
Proof.
  intros (s0 & Ef & Hd0 & Hw0 & Hp0) Hwf Hp Hh Hga. destruct (Hco (st_rng g)) as [_ Hn1]. destruct (Hco (S (st_rng g))) as [_ Hn2]. pose proof Hwf as (_ & Hsu & _).
  destruct (doc_seal_opens Hc Ht Hk sk ChatSessions (session_path own p) (peer_bytes st) (nonce_at (st_rng g)) (peer_bytes_small st Hwf) Hn1) as (b2 & Hseal & _).
  set (a := see p (fingerprint b) hwm (new_anchor (Some dir))) in *. set (hwm' := Z.max hwm (send_seq st)).
  destruct (anchor_write_is a p (mkAnchorRecord (fingerprint b) (fingerprint b2) hwm') true (nonce_at (S (st_rng g))) eq_refl Hn2 (Hfp _) (Hfp _)) as (x & Hx & Hw).
  destruct (write_sealed_then (rec_path p) x true (files w) [Dies 0]) as (n & w1 & s1 & E1 & F1 & R1 & O1). exists (replicate n Fine ++ [Dies 0]).
  destruct (write_sealed_dies (session_path own p) b2 true w1 F1) as (w2 & E2 & O2). exists w2, (fingerprint b2), hwm'.
  destruct (rec_not_session own dir k Hst Hdir p p) as [Q1 Q2]. split; [|split; [|split; [|split; [apply Hfp|unfold hwm'; ulia]]]].
  - unfold write_peer. rewrite Hp, Hga, Hseal. cbv zeta. cbn [lift]. rewrite (bind_runs _ _ _ _ (Ok b2)) by done.
    assert (before_write keys own a p (fingerprint b2) (send_seq st) (nonce_at (S (st_rng g))) (mkWorld (files w) (replicate n Fine ++ [Dies 0])) = (w1, Some (a, true))) as Hb.
    { unfold before_write. cbn [a see new_anchor an_off an_seen an_dir]. rewrite lookup_insert_eq. cbn [on_disk seq_hwm]. fold hwm' a. unfold bind at 1. rewrite Hw. unfold bind. by rewrite E1. }
    rewrite (bind_runs _ _ _ _ _ Hb). unfold bind. by rewrite E2.
  - exists s0. split; [|done]. rewrite O2 by apply session_not_staged. rewrite O1; [done| |apply (session_not_record own dir k Hst Hdir)]. intros E. by rewrite E in Q1.
  - exists x, s1. split; [|done]. by rewrite O2.
Qed.

(** C38. The anchor does not survive a second mishap.  Whatever session file of
    a contact was put back, a new process whose record does not name it notices
    that it is old: it drops its session and goes on above the mark.  But
    whatever state it then writes, there is a point in that write at which the
    process can die, after the record was written and before the session file
    was replaced, such that the next process takes the old file for the last
    one and goes on with the very session and number in it, as if nothing had
    been sent since. *)
Theorem rollback_interrupted_unnoticed p g w b st0 r :
  session_is w p b st0 -> started g -> behind_record w p b r ->
  exists g1, load_peer keys own secs_at p g w = (w, Some (g1, set_send_seq (Z.max (send_seq st0) (send_seq_hwm r)) (set_session None st0), true)) /\
    forall st, peer_wf st -> p_peer st = p ->
    exists ft w2, write_peer keys own st g1 (mkWorld (files w) ft) = (w2, None) /\
      forall g2, started g2 -> exists w3 g3, load_peer keys own secs_at p g2 (mkWorld (files w2) []) = (w3, Some (g3, st0, false)).
Proof.
  intros Hs Hg Hb. pose proof Hb as (_ & _ & _ & Hh & _). eexists. split; [by apply load_notices|]. intros st Hwf Hp.
  destruct (write_interrupted p (advance (with_anchor_state (Some (see p (fingerprint b) (send_seq_hwm r) (new_anchor (Some dir)))) g)) w b st0 st (send_seq_hwm r) Hs Hwf Hp Hh eq_refl)
    as (ft & w2 & next & hwm' & E & S2 & R2 & L2 & H2).
  exists ft, w2. split; [done|]. intros g2 Hg2. by eapply (load_trusts p g2 (mkWorld (files w2) []) b st0 next hwm').
Qed.

End Interrupted.

(** ** Examples *)

(** The cipher and the curve of [ChatToys]; a fingerprint is the nonce of the
    file, which every write draws anew. *)
Module PutBackDemo.
Import ChatToys.
Existing Instances chat_cipher chat_ratchet chat_keyed chat_coins.

#[export] Instance nonce_crypto : Crypto := {
  blake3 d := d; blake3_derive c d := map (fun x => x mod 256) (take 32 (rev (if bool_decide (c = FINGERPRINT) then take 30 d else d) ++ replicate 32 0));
  aead_seal k n a p := Some p; aead_open k n a c := Some c;
  hkdf salt ikm info := Some (take 32 (ikm ++ default [] salt ++ info));
  sharks_deal k s c n := []; sharks_recover k s := None;
}.

Definition folder : bytes := lit "anchors/".

(** A message is sent, the folder is copied, another message is sent; the copy
    is put back.  The first call of the new process dies after the record of the
    anchor was written and before the session file was. *)
Definition unlucky : list FolderEvent :=
  [FDo (OpStart 1000 0 0); FDo (OpEnqueue (key 2) (lit "one") 1000 (no_id 1) 100); FDo (OpPrepare (no_id 1) (key 20) (key 21) (no_id 9) 110); FSave;
   FDo (OpEnqueue (key 2) (lit "two") 1001 (no_id 2) 120); FDo (OpPrepare (no_id 2) (key 22) (key 23) (no_id 10) 130);
   FDie; FRestore 0; FDo (OpStart 2000 0 200); FDo (OpEnqueue (key 2) (lit "three") 2001 (no_id 3) 210);
   FDo (OpStart 3000 0 300); FDo (OpEnqueue (key 2) (lit "four") 3001 (no_id 4) 310); FDo (OpPrepare (no_id 4) (key 24) (key 25) (no_id 11) 320)].

Definition unlucky_disk (n : nat) : World := mkWorld ∅ (replicate n Fine ++ [Dies 0]).
Definition unlucky_run (n : nat) : list Out :=
  (folder_run default_settings (mkKeys (Some [7; 7])) (fun _ => 0) (ident 1) 4096 (Some (new_anchor (Some folder))) ((unlucky_disk n, None), []) unlucky).2.

(** Two envelopes for a contact with one key. *)
Definition clash (o1 o2 : Out) : bool :=
  match o1, o2 with
  | Sent p b1, Sent q b2 =>
    match env_decode b1, env_decode b2 with
    | Ok e1, Ok e2 => bool_decide (p = q) && bool_decide (env_key e1 = env_key e2) && negb (bool_decide (b1 = b2))
    | _, _ => false
    end
  | _, _ => false
  end.

Lemma clash_spec outs : existsb (fun o => existsb (clash o) outs) outs = true ->
  exists p b1 b2 e1 e2, Sent p b1 ∈ outs /\ Sent p b2 ∈ outs /\ env_decode b1 = Ok e1 /\ env_decode b2 = Ok e2 /\ env_key e1 = env_key e2 /\ b1 <> b2.
Proof.
  intros (o1 & H1 & (o2 & H2 & Hc)%existsb_exists)%existsb_exists. unfold clash in Hc. destruct o1 as [p b1| |], o2 as [q b2| |]; try done.
  destruct (env_decode b1) as [e1|] eqn:D1; [|done]. destruct (env_decode b2) as [e2|] eqn:D2; [|done].
  apply andb_true_iff in Hc as [[Hp%bool_decide_eq_true He%bool_decide_eq_true]%andb_true_iff Hb]. subst q. apply negb_true_iff, bool_decide_eq_false in Hb.
  exists p, b1, b2, e1, e2. split_and!; try done; by apply list_elem_of_In.
Qed.

(** A whole run of this: the number of a message that was sent is given again,
    and a key of the ratchet seals a second message. *)
Theorem rollback_interrupted_reuses :
  let outs := unlucky_run 47 in
  given outs = [Given (key 2) 1; Given (key 2) 2; Given (key 2) 2] /\
  exists p b1 b2 e1 e2, Sent p b1 ∈ outs /\ Sent p b2 ∈ outs /\ env_decode b1 = Ok e1 /\ env_decode b2 = Ok e2 /\ env_key e1 = env_key e2 /\ b1 <> b2.
Proof. intros outs. split; [by vm_compute|]. apply clash_spec. by vm_compute. Qed.

Lemma nonce_sized : fingerprint_sized.
Proof. intros d. unfold fingerprint. cbn [blake3_derive nonce_crypto]. rewrite length_take, length_map, length_take, length_app, length_replicate. lia. Qed.
Lemma nonce_hkdf : hkdf_total.
Proof. by eexists. Qed.

Lemma nonce_stems own : stems_ok own.
Proof.
  intros p. cbn [blake3_derive nonce_crypto]. apply Forall_forall. intros x (y & <- & _)%list_elem_of_In%in_map_iff.
  pose proof (Z.mod_pos_bound y 256 ltac:(lia)). ulia.
Qed.

Definition contacts : list bytes := [key 2; key 3].
Definition anchor_key : bytes := take 32 ([7; 7] ++ LABEL_STATE_DOC_PREFIX ++ label_name ChatAnchor).

Lemma stems_apart p q : p ∈ contacts -> q ∈ contacts -> file_stem (key 1) p = file_stem (key 1) q -> p = q.
Proof.
  unfold contacts. intros [->|[->|[]%elem_of_nil]%elem_of_cons]%elem_of_cons [->|[->|[]%elem_of_nil]%elem_of_cons]%elem_of_cons E; done || by vm_compute in E.
Qed.

Lemma names_apart p q : p ∈ contacts -> q ∈ contacts -> anchor_name (key 1) anchor_key p = anchor_name (key 1) anchor_key q -> p = q.
Proof.
  unfold contacts. intros [->|[->|[]%elem_of_nil]%elem_of_cons]%elem_of_cons [->|[->|[]%elem_of_nil]%elem_of_cons]%elem_of_cons E; done || by vm_compute in E.
Qed.

(** A message is sent, the folder is copied, another is sent; the copy is put
    back twice. *)
Definition lucky : list FolderEvent :=
  [FDo (OpStart 1000 0 0); FDo (OpEnqueue (key 2) (lit "one") 1000 (no_id 1) 100); FDo (OpPrepare (no_id 1) (key 20) (key 21) (no_id 9) 110); FSave;
   FDo (OpEnqueue (key 2) (lit "two") 1001 (no_id 2) 120); FDo (OpPrepare (no_id 2) (key 22) (key 23) (no_id 10) 130); FRestore 0;
   FDo (OpStart 2000 0 200); FDo (OpEnqueue (key 2) (lit "three") 2001 (no_id 3) 210); FDo (OpPrepare (no_id 3) (key 24) (key 25) (no_id 11) 220); FRestore 0;
   FDo (OpStart 3000 0 300); FDo (OpEnqueue (key 2) (lit "four") 3001 (no_id 4) 310); FDo (OpPrepare (no_id 4) (key 26) (key 27) (no_id 12) 320)].

Lemma lucky_ok : Forall (folder_ok contacts (fun _ => key 2)) lucky.
Proof.
  assert (key 2 ∈ contacts) as H2 by by left.
  unfold lucky. repeat (apply Forall_cons; split); [..|by apply Forall_nil]; cbn [folder_ok op_ok]; repeat match goal with |- _ /\ _ => split end;
    first [done|by apply key_ok|by apply id_ok|apply text_check; by vm_compute].
Qed.

Lemma lucky_apart p : p ∈ contacts ->
  told_apart (session_files default_settings (mkKeys (Some [7; 7])) (fun _ => 0) (ident 1) 4096 (Some (new_anchor (Some folder))) p ((mkWorld ∅ [], None), []) lucky).
Proof.
  unfold contacts. intros [->|[->|[]%elem_of_nil]%elem_of_cons]%elem_of_cons; apply told_apart_check; by vm_compute.
Qed.

Lemma rollback_uses_nothing_twice_witness :
  let outs := (folder_run default_settings (mkKeys (Some [7; 7])) (fun _ => 0) (ident 1) 4096 (Some (new_anchor (Some folder))) ((mkWorld ∅ [], None), []) lucky).2 in
  NoDup (flat_map folder_drawn lucky) /\ given outs = map (Given (key 2)) [1; 2; 3; 4] /\ NoDup (given outs).
Proof.
  assert (NoDup (flat_map folder_drawn lucky)) as Hnd by (apply (bool_decide_unpack _); by vm_compute).
  destruct (rollback_uses_nothing_twice chat_correct chat_total nonce_hkdf chat_opens chat_coins_sized chat_sized chat_montgomery nonce_sized chat_keyed_sized
    [7; 7] default_settings (fun _ => 0) (ident 1) 4096 contacts (fun _ => key 2) folder anchor_key ltac:(by vm_compute) (ident_ok 1 ltac:(lia)) (nonce_stems _) eq_refl ltac:(done)
    ltac:(apply Forall_cons; split; [by apply key_ok|apply Forall_singleton; by apply key_ok]) ltac:(apply (bool_decide_unpack _); by vm_compute)
    stems_apart names_apart (mkWorld ∅ []) lucky eq_refl eq_refl lucky_ok Hnd ltac:(by vm_compute) lucky_apart) as (H1 & _).
  split; [exact Hnd|]. split; [by vm_compute|exact H1].
Defined.

(** The folder of [unlucky] after the copy was put back: the session file is
    that of the first message, the record names that of the second. *)
Definition put_back : World := Eval vm_compute in
  (folder_run default_settings (mkKeys (Some [7; 7])) (fun _ => 0) (ident 1) 4096 (Some (new_anchor (Some folder))) ((mkWorld ∅ [], None), []) (take 8 unlucky)).1.1.1.
Definition file_at (p : bytes) : File := default (mkFile [] 0) (files put_back !! p).
Definition old_file : bytes := Eval vm_compute in content (file_at (session_path (key 1) (key 2))).
Definition old_state : PeerState := Eval vm_compute in
  match doc_open (mkKeys (Some [7; 7])) ChatSessions (session_path (key 1) (key 2)) old_file with
  | Ret (Ok x) => default (new_peer (key 2)) (peer_from_bytes x)
  | _ => new_peer (key 2)
  end.
Definition last_record : AnchorRecord := Eval vm_compute in
  match doc_open (mkKeys (Some [7; 7])) ChatAnchor (anchor_name (key 1) anchor_key (key 2)) (content (file_at (rec_path (key 1) folder anchor_key (key 2)))) with
  | Ret (Ok x) => default (mkAnchorRecord [] [] 0) (anchor_decode x)
  | _ => mkAnchorRecord [] [] 0
  end.
Definition new_process : Store := new_store (Some (new_anchor (Some folder))) 1000.

Lemma folder_slash : SLASH ∈ folder.
Proof. apply (bool_decide_unpack _). by vm_compute. Qed.

Lemma array_check n l : (length l =? n)%nat && forallb (fun x => (0 <=? x) && (x <? 256)) l = true -> array n l.
Proof. intros [H1%Nat.eqb_eq H2]%andb_true_iff. split; [done|by apply bytes_check]. Qed.

Lemma old_session_ok s : session old_state = Some s -> session_wf s.
Proof.
  cbn [session old_state]. intros [= <-].
  unfold session_wf. split_and!; cbn; try (apply array_check; by vm_compute); try done; apply Forall_nil; done.
Qed.

Lemma old_state_ok : peer_wf old_state.
Proof.
  assert (in_u64 0 /\ in_u64 1) as [H0 H1] by done.
  refine (conj _ (conj H1 (conj _ (conj _ (conj _ (conj _ (conj _ (conj H0 (conj H0 (conj old_session_ok (conj H0 H0))))))))))).
  - apply array_check. by vm_compute.
  - destruct (wf_new_peer (key 2) (key_ok 2 ltac:(lia))) as (_ & _ & Hn & _). exact Hn.
  - by apply Forall_nil.
  - done.
  - by apply Forall_nil.
  - done.
Qed.

Lemma old_session_is : session_is [7; 7] (key 1) put_back (key 2) old_file old_state.
Proof.
  exists (synced (file_at (session_path (key 1) (key 2)))). split; [by vm_compute|]. split; [|split; [apply old_state_ok|by vm_compute]].
  split; [by vm_compute|]. split; [by vm_compute|by vm_compute].
Qed.

Lemma old_behind : behind_record [7; 7] (key 1) folder anchor_key put_back (key 2) old_file last_record.
Proof.
  split; [|split_and!; by vm_compute].
  exists (content (file_at (rec_path (key 1) folder anchor_key (key 2)))), (synced (file_at (rec_path (key 1) folder anchor_key (key 2)))).
  split; [by vm_compute|]. split; [by vm_compute|]. split; [by vm_compute|by vm_compute].
Qed.

(** Message 2 was sent; the process that notices the old file dies in its first
    write, and the next one goes on from message 1 with the session of then. *)
Lemma rollback_interrupted_unnoticed_witness :
  send_seq_hwm last_record = 2 /\ send_seq old_state = 1 /\ is_Some (session old_state) /\
  exists g1 ft w2, write_peer (mkKeys (Some [7; 7])) (key 1) (set_send_seq 2 (set_session None old_state)) g1 (mkWorld (files put_back) ft) = (w2, None) /\
    exists w3 g3, load_peer (mkKeys (Some [7; 7])) (key 1) (fun _ => 0) (key 2) new_process (mkWorld (files w2) []) = (w3, Some (g3, old_state, false)).
Proof.
  split; [by vm_compute|]. split; [by vm_compute|]. split; [by eexists|].
  destruct (rollback_interrupted_unnoticed chat_correct chat_total nonce_hkdf chat_coins_sized nonce_sized [7; 7] (key 1) (fun _ => 0) folder anchor_key
    ltac:(by vm_compute) (nonce_stems _) folder_slash (key 2) new_process put_back old_file old_state last_record
    old_session_is eq_refl old_behind) as (g1 & _ & Hint).
  destruct (Hint (set_send_seq 2 (set_session None old_state))) as (ft & w2 & E & Hnext).
  - apply wf_send_seq; [by vm_compute|]. apply wf_session; [done|apply old_state_ok].
  - by vm_compute.
  - exists g1, ft, w2. split; [exact E|]. by apply Hnext.
Defined.

End PutBackDemo.
