(* ===== verification/Custody.v ===== *)
(** * Custody: sealed envelopes held for contacts who are offline

    Models [chat/mailbox/holder.rs]: the limits of a holder, the store in memory
    with its counters, the snapshot it is saved as, and the store that keeps the
    snapshot in a sealed document.  Hash maps are finite maps, and their
    iteration is sorted by the source or order does not matter.  The mutexes are
    not modelled, each operation runs alone.  The sums of sizes stay below the
    ceilings and cannot overflow; the counter that numbers the items wraps. *)

From S2P Require Import Prelude Bytes Text Codec ErasureCode Dissolve Disk SealedState.

(** [proto::MAX_FRAME_BODY]. *)
Definition MAX_FRAME_BODY : Z := 1 + 1024 + 4 + (16384 + 16).

Definition HARD_MAX_TOTAL_BYTES : Z := 4 * 1024 * 1024.
Definition HARD_MAX_ITEMS : Z := 1024.
Definition HARD_MAX_TTL_MS : Z := 30 * 86400000.
Definition MAX_LIST : nat := 64.
Definition MAX_ITEM_BYTES : Z := MAX_FRAME_BODY + 32.
Definition SNAPSHOT_VERSION : Z := 1.

Record CustodyLimits := mkLimits {
  enabled : bool; max_item_bytes : Z; max_total_bytes : Z; max_items : Z;
  max_items_per_depositor : Z; max_bytes_per_depositor : Z; ttl_ms : Z;
}.

Definition default_limits : CustodyLimits :=
  mkLimits false MAX_ITEM_BYTES (2 * 1024 * 1024) 256 64 (512 * 1024) (14 * 86400000).

(** The fields of [ChatConfig] that concern custody. *)
Record CustodyConfig := mkCustodyConfig {
  custody_enabled : bool; custody_max_total_bytes : Z; custody_max_items : Z; custody_ttl_days : Z;
}.

Definition clamped (l : CustodyLimits) : CustodyLimits :=
  mkLimits (enabled l) (Z.min (max_item_bytes l) MAX_ITEM_BYTES) (Z.min (max_total_bytes l) HARD_MAX_TOTAL_BYTES)
    (Z.min (max_items l) HARD_MAX_ITEMS) (max_items_per_depositor l) (max_bytes_per_depositor l)
    (Z.min (ttl_ms l) HARD_MAX_TTL_MS).

Definition from_config (c : CustodyConfig) : CustodyLimits :=
  let d := default_limits in
  clamped (mkLimits (custody_enabled c) (max_item_bytes d) (custody_max_total_bytes c) (custody_max_items c)
    (max_items_per_depositor d) (max_bytes_per_depositor d) (sat_mul u64_max (custody_ttl_days c) 86400000)).

Inductive DepositOutcome := Stored | Duplicate.
Inductive CustodyError := Disabled | NotTrusted | TooBig | Full | DepositorBudget.
#[export] Instance DepositOutcome_eq_dec : EqDecision DepositOutcome.
Proof. solve_decision. Defined.
#[export] Instance CustodyError_eq_dec : EqDecision CustodyError.
Proof. solve_decision. Defined.

Record CustodyStats := mkStats { st_items : Z; st_bytes : Z }.

(** ** The store in memory *)

(** A recipient tag and an item id. *)
Abbreviation Key := (bytes * bytes)%type.

Record Held := mkHeld { from : bytes; blob : bytes; expires_ms : Z; order : Z }.
Record Inner := mkInner { items : gmap Key Held; nbytes : Z; per_depositor : gmap bytes (Z * Z); next_order : Z }.

Definition empty_inner : Inner := mkInner ∅ 0 ∅ 0.

Definition remove (k : Key) (g : Inner) : Inner * bool :=
  match items g !! k with
  | None => (g, false)
  | Some h =>
    let n := zlen (blob h) in
    let pd := match per_depositor g !! from h with
              | None => per_depositor g
              | Some d =>
                let d := (sat_sub d.1 1, sat_sub d.2 n) in
                if d.1 =? 0 then delete (from h) (per_depositor g) else <[from h := d]> (per_depositor g)
              end in
    (mkInner (delete k (items g)) (sat_sub (nbytes g) n) pd (next_order g), true)
  end.

(** The keys of the items that satisfy a test, removed one by one. *)
Definition keys_of (P : Held -> bool) (g : Inner) : list Key := map fst (List.filter (fun x => P x.2) (map_to_list (items g))).
Definition remove_all (ks : list Key) (g : Inner) : Inner := fold_left (fun g k => (remove k g).1) ks g.

Definition expired (now : Z) (h : Held) : bool := expires_ms h <=? now.

Definition sweep (now : Z) (g : Inner) : Inner * Z :=
  let gone := keys_of (expired now) g in (remove_all gone g, zlen gone).

Record MemoryCustody := mkCustody { limits : CustodyLimits; trusted : gset bytes; inner : Inner }.

Definition set_inner (g : Inner) (c : MemoryCustody) : MemoryCustody := mkCustody (limits c) (trusted c) g.

Definition new_custody (l : CustodyLimits) : MemoryCustody := mkCustody (clamped l) ∅ empty_inner.

Definition revoke (id : bytes) (c : MemoryCustody) : MemoryCustody :=
  let ks := keys_of (fun h => bool_decide (from h = id)) (inner c) in
  mkCustody (limits c) (trusted c ∖ {[id]}) (remove_all ks (inner c)).

Definition check (who : bytes) (c : MemoryCustody) : result unit CustodyError :=
  if negb (enabled (limits c)) then Err Disabled
  else if negb (bool_decide (who ∈ trusted c)) then Err NotTrusted
  else Ok tt.

Definition trust (id : bytes) (c : MemoryCustody) : MemoryCustody := mkCustody (limits c) ({[id]} ∪ trusted c) (inner c).

Definition budget (g : Inner) (who : bytes) : Z * Z := default (0, 0) (per_depositor g !! who).

(** The tail of [deposit] and of [restore]: one more item with the next number. *)
Definition add_item (k : Key) (who b : bytes) (expires : Z) (g : Inner) : Inner :=
  let e := budget g who in
  mkInner (<[k := mkHeld who b expires (next_order g)]> (items g)) (nbytes g + zlen b)
    (<[who := (e.1 + 1, e.2 + zlen b)]> (per_depositor g)) (wrapping_add u64_max (next_order g) 1).

Definition over_budget (l : CustodyLimits) (g : Inner) (who b : bytes) : bool :=
  let e := budget g who in
  (max_items_per_depositor l <? e.1 + 1) || (max_bytes_per_depositor l <? e.2 + zlen b).

Definition over_total (l : CustodyLimits) (g : Inner) (b : bytes) : bool :=
  (max_items l <? Z.of_nat (size (items g)) + 1) || (max_total_bytes l <? nbytes g + zlen b).

Definition bad_size (l : CustodyLimits) (b : bytes) : bool := (zlen b =? 0) || (max_item_bytes l <? zlen b).

Definition deposit (who tag item b : bytes) (now : Z) (c : MemoryCustody) : MemoryCustody * result DepositOutcome CustodyError :=
  match check who c with
  | Err e => (c, Err e)
  | Ok _ =>
    let l := limits c in
    if bad_size l b then (c, Err TooBig)
    else
      let g := (sweep now (inner c)).1 in
      let c := set_inner g c in
      if bool_decide (is_Some (items g !! (tag, item))) then (c, Ok Duplicate)
      else if over_budget l g who b then (c, Err DepositorBudget)
      else if over_total l g b then (c, Err Full)
      else (set_inner (add_item (tag, item) who b (sat_add u64_max now (ttl_ms l)) g) c, Ok Stored)
  end.

(** Sorted by number, then by id. *)
Definition waiting_le (a b : Z * bytes) : Prop := a.1 < b.1 \/ (a.1 = b.1 /\ str_leb a.2 b.2 = true).
#[export] Instance waiting_le_dec a b : Decision (waiting_le a b).
Proof. unfold waiting_le. apply _. Defined.

Definition waiting (tag : bytes) (g : Inner) : list (Z * bytes) :=
  map (fun x => (order x.2, x.1.2)) (List.filter (fun x => bool_decide (x.1.1 = tag)) (map_to_list (items g))).

Definition list_items (who tag : bytes) (now : Z) (c : MemoryCustody) : MemoryCustody * result (list bytes) CustodyError :=
  match check who c with
  | Err e => (c, Err e)
  | Ok _ =>
    let g := (sweep now (inner c)).1 in
    (set_inner g c, Ok (map snd (take MAX_LIST (merge_sort waiting_le (waiting tag g)))))
  end.

Definition fetch (who tag item : bytes) (now : Z) (c : MemoryCustody) : MemoryCustody * result (option bytes) CustodyError :=
  match check who c with
  | Err e => (c, Err e)
  | Ok _ =>
    let g := (sweep now (inner c)).1 in
    (set_inner g c, Ok (blob <$> items g !! (tag, item)))
  end.

Definition delete_item (who tag item : bytes) (c : MemoryCustody) : MemoryCustody * result bool CustodyError :=
  match check who c with
  | Err e => (c, Err e)
  | Ok _ => let '(g, b) := remove (tag, item) (inner c) in (set_inner g c, Ok b)
  end.

Definition sweep_custody (now : Z) (c : MemoryCustody) : MemoryCustody * Z :=
  let '(g, n) := sweep now (inner c) in (set_inner g c, n).

Definition stats (c : MemoryCustody) : CustodyStats := mkStats (Z.of_nat (size (items (inner c)))) (nbytes (inner c)).

(** ** The snapshot *)

Definition order_le (a b : Key * Held) : Prop := order a.2 <= order b.2.
#[export] Instance order_le_dec a b : Decision (order_le a b).
Proof. unfold order_le. apply _. Defined.

Definition by_order (g : Inner) : list (Key * Held) := merge_sort order_le (map_to_list (items g)).

Definition put_held (x : Key * Held) : bytes :=
  x.1.1 ++ x.1.2 ++ from x.2 ++ be_bytes 8 (expires_ms x.2) ++ be_bytes 4 (zlen (blob x.2) mod 4294967296) ++ blob x.2.

Definition snapshot (c : MemoryCustody) : bytes :=
  let l := by_order (inner c) in
  [SNAPSHOT_VERSION] ++ be_bytes 4 (zlen l mod 4294967296) ++ flat_map put_held l.

(** One item of a snapshot. *)
Definition rd_held (b : bytes) : option ((Key * bytes * Z * bytes) * bytes) :=
  if (length b <? 16 + 16 + 32 + 8 + 4)%nat then None
  else
    let tag := take 16 b in
    let item := slice 16 32 b in
    let who := slice 32 64 b in
    let expires := from_be (slice 64 72 b) in
    let n := Z.to_nat (from_be (slice 72 76 b)) in
    let b := drop 76 b in
    if (length b <? n)%nat then None else Some (((tag, item), who, expires, take n b), drop n b).

(** What the limits and the clock refuse of a snapshot. *)
Definition refused (l : CustodyLimits) (now : Z) (g : Inner) (who : bytes) (expires : Z) (b : bytes) : bool :=
  (expires <=? now) || bad_size l b || (over_budget l g who b || over_total l g b).

Fixpoint restore_loop (l : CustodyLimits) (now : Z) (n : nat) (b : bytes) (g : Inner) : Inner :=
  match n with
  | O => g
  | S n =>
    match rd_held b with
    | None => g
    | Some ((k, who, expires, x), b) =>
      restore_loop l now n b (if refused l now g who expires x then g else add_item k who x expires g)
    end
  end.

Definition restore (buf : bytes) (now : Z) (c : MemoryCustody) : MemoryCustody :=
  set_inner
    match buf with
    | [] => empty_inner
    | ver :: rest =>
      if negb (ver =? SNAPSHOT_VERSION) || (length rest <? 4)%nat then empty_inner
      else restore_loop (limits c) now (Z.to_nat (from_be (take 4 rest))) (drop 4 rest) empty_inner
    end c.

(** ** Totals over the held items *)

Definition total (f : Held -> Z) (m : gmap Key Held) : Z := map_fold (fun _ h a => f h + a) 0 m.

Definition held_len (h : Held) : Z := zlen (blob h).
Definition one_from (d : bytes) (h : Held) : Z := if bool_decide (from h = d) then 1 else 0.
Definition len_from (d : bytes) (h : Held) : Z := if bool_decide (from h = d) then zlen (blob h) else 0.

Section Totals.
Context (f : Held -> Z) (Hf : forall h, 0 <= f h).
Implicit Types m : gmap Key Held.

Lemma total_empty : total f ∅ = 0.
Proof. apply map_fold_empty. Qed.

Lemma total_insert k h m : m !! k = None -> total f (<[k := h]> m) = f h + total f m.
Proof. intros Hk. unfold total. rewrite map_fold_insert_L; [done|intros; lia|done]. Qed.

Lemma total_delete k h m : m !! k = Some h -> total f (delete k m) = total f m - f h.
Proof.
  intros Hk. rewrite <- (insert_delete_id m k h Hk) at 2. rewrite total_insert by apply lookup_delete_eq. lia.
Qed.

Lemma total_nonneg m : 0 <= total f m.
Proof.
  induction m as [|k h m Hk IH] using map_ind; [by rewrite total_empty|].
  rewrite total_insert by done. specialize (Hf h). lia.
Qed.

Lemma total_elem k h m : m !! k = Some h -> f h <= total f m.
Proof. intros Hk. pose proof (total_delete k h m Hk). pose proof (total_nonneg (delete k m)). lia. Qed.

(** An item put in place of another one. *)
Lemma total_replace k h m : total f (<[k := h]> m) <= f h + total f m.
Proof.
  destruct (m !! k) as [h'|] eqn:E; [|by rewrite total_insert].
  rewrite <- insert_delete_eq, total_insert, (total_delete k h' m E) by apply lookup_delete_eq.
  specialize (Hf h'). lia.
Qed.
End Totals.

Lemma held_len_nonneg h : 0 <= held_len h.
Proof. apply zlen_nonneg. Qed.
Lemma one_from_nonneg d h : 0 <= one_from d h.
Proof. unfold one_from. case_bool_decide; lia. Qed.
Lemma len_from_nonneg d h : 0 <= len_from d h.
Proof. unfold len_from. case_bool_decide; [apply zlen_nonneg|lia]. Qed.
#[export] Hint Resolve held_len_nonneg one_from_nonneg len_from_nonneg total_nonneg : miasma.

(** A depositor without items has no bytes. *)
Lemma none_from d m : total (one_from d) m = 0 -> total (len_from d) m = 0.
Proof.
  induction m as [|k h m Hk IH] using map_ind; [by rewrite !total_empty|].
  rewrite !total_insert by done. pose proof (total_nonneg _ (one_from_nonneg d) m). unfold one_from, len_from in *.
  case_bool_decide; intros H1; [lia|]. rewrite IH; lia.
Qed.

(** ** The accounts of the store *)

(** A counter is right, or at least not too low. *)
Definition tallies (exact : bool) (c a : Z) : Prop := if exact then c = a else a <= c.

Record accounts (exact : bool) (l : CustodyLimits) (g : Inner) : Prop := {
  ac_bytes : tallies exact (nbytes g) (total held_len (items g));
  ac_count d : tallies exact (budget g d).1 (total (one_from d) (items g));
  ac_sum d : tallies exact (budget g d).2 (total (len_from d) (items g));
  ac_item k h : items g !! k = Some h -> 0 < zlen (blob h) <= max_item_bytes l;
  ac_max_bytes : nbytes g <= max_total_bytes l;
  ac_max_items : Z.of_nat (size (items g)) <= max_items l;
  ac_max_from d : (budget g d).1 <= max_items_per_depositor l /\ (budget g d).2 <= max_bytes_per_depositor l;
}.

(** Limits are machine integers. *)
Definition limits_ok (l : CustodyLimits) : Prop :=
  0 <= max_item_bytes l /\ 0 <= max_total_bytes l /\ 0 <= max_items l /\ 0 <= max_items_per_depositor l /\
  0 <= max_bytes_per_depositor l /\ in_u64 (ttl_ms l).

Lemma accounts_empty exact l : limits_ok l -> accounts exact l empty_inner.
Proof.
  intros (?&?&?&?&?&?). assert (forall f, tallies exact 0 (total f (items empty_inner))) as He.
  { intros f. change (items empty_inner) with (∅ : gmap Key Held). rewrite total_empty. by destruct exact. }
  split; cbn; try done.
Qed.

Lemma tallies_sub exact c a x : tallies exact c a -> x <= a -> tallies exact (sat_sub c x) (a - x).
Proof. destruct exact; cbn; ulia. Qed.

Lemma tallies_add exact c a x : tallies exact c a -> tallies exact (c + x) (x + a).
Proof. destruct exact; cbn; lia. Qed.

Lemma tallies_low exact c a : tallies exact c a -> a <= c.
Proof. destruct exact; cbn; lia. Qed.

Lemma remove_items k g : items (remove k g).1 = delete k (items g).
Proof. unfold remove. destruct (items g !! k) eqn:E; [done|]. cbn. by rewrite delete_id. Qed.

Lemma remove_next k g : next_order (remove k g).1 = next_order g.
Proof. unfold remove. by destruct (items g !! k). Qed.

(** The budget of a depositor after one of the items is removed. *)
Lemma remove_budget exact l g k h d :
  accounts exact l g -> items g !! k = Some h ->
  let e := budget (remove k g).1 d in
  tallies exact e.1 (total (one_from d) (items g) - one_from d h) /\
  tallies exact e.2 (total (len_from d) (items g) - len_from d h) /\
  e.1 <= (budget g d).1 /\ e.2 <= (budget g d).2.
Proof.
  intros H Hk. pose proof (ac_count _ _ _ H d) as Hc. pose proof (ac_sum _ _ _ H d) as Hs.
  pose proof (total_elem _ (one_from_nonneg d) k h _ Hk) as H1. pose proof (total_elem _ (len_from_nonneg d) k h _ Hk) as H2.
  pose proof (one_from_nonneg d h). pose proof (len_from_nonneg d h). pose proof (zlen_nonneg (blob h)).
  pose proof (tallies_low _ _ _ Hc). pose proof (tallies_low _ _ _ Hs).
  assert (total (one_from d) (delete k (items g)) = 0 -> total (len_from d) (items g) - len_from d h = 0) as Hz.
  { intros E%none_from. by rewrite <- (total_delete _ k). }
  rewrite (total_delete _ k h) in Hz by done.
  unfold remove. rewrite Hk. cbn [fst]. unfold budget, one_from, len_from in *. cbn [per_depositor].
  destruct (decide (from h = d)) as [<-|Hne].
  - rewrite bool_decide_eq_true_2 in * by done. destruct (per_depositor g !! from h) as [[a b]|] eqn:E; cbn in *; [|lia].
    destruct (Z.eqb_spec (sat_sub a 1) 0) as [E0|E0].
    + rewrite lookup_delete_eq. cbn. destruct exact; cbn in *; ulia.
    + rewrite lookup_insert_eq. cbn. destruct exact; cbn in *; ulia.
  - rewrite bool_decide_eq_false_2 in * by done. rewrite !Z.sub_0_r.
    assert (forall v, default (0, 0) (<[from h := v]> (per_depositor g) !! d) = default (0, 0) (per_depositor g !! d)) as Hi.
    { intros v. by rewrite lookup_insert_ne. }
    destruct (per_depositor g !! from h) as [[a b]|]; [|done]. destruct (_ =? 0); [rewrite lookup_delete_ne by done|rewrite Hi]; done.
Qed.

Lemma remove_item_accounts exact l k g : accounts exact l g -> accounts exact l (remove k g).1.
Proof.
  intros H. destruct (items g !! k) as [h|] eqn:Hk; [|unfold remove; by rewrite Hk].
  pose proof (fun d => remove_budget exact l g k h d H Hk) as Hb. cbv zeta in Hb.
  assert (nbytes (remove k g).1 = sat_sub (nbytes g) (held_len h)) as Hn by (unfold remove; by rewrite Hk).
  pose proof (total_elem _ held_len_nonneg k h _ Hk). pose proof (held_len_nonneg h).
  pose proof (tallies_low _ _ _ (ac_bytes _ _ _ H)). pose proof (ac_max_bytes _ _ _ H). pose proof (ac_max_items _ _ _ H).
  split; rewrite ?remove_items, ?Hn.
  - rewrite (total_delete _ k h) by done. apply tallies_sub; [apply H|done].
  - intros d. rewrite (total_delete _ k h) by done. apply Hb.
  - intros d. rewrite (total_delete _ k h) by done. apply Hb.
  - intros k' h' [_ Hk']%lookup_delete_Some. by eapply ac_item.
  - ulia.
  - rewrite map_size_delete, Hk. lia.
  - intros d. specialize (Hb d). pose proof (ac_max_from _ _ _ H d). lia.
Qed.

(** *** Sweeping *)

Lemma remove_all_spec ks g :
  next_order (remove_all ks g) = next_order g /\
  (forall k, items (remove_all ks g) !! k = if bool_decide (k ∈ ks) then None else items g !! k) /\
  (forall exact l, accounts exact l g -> accounts exact l (remove_all ks g)).
Proof.
  unfold remove_all. revert g. induction ks as [|k ks IH]; intros g; [done|]. cbn [fold_left].
  destruct (IH (remove k g).1) as (H1 & H2 & H3). rewrite remove_next in H1. split_and!; [done| |by auto using remove_item_accounts].
  intros k'. rewrite H2, remove_items. destruct (decide (k = k')) as [->|Hne].
  - rewrite lookup_delete_eq, (bool_decide_eq_true_2 (k' ∈ k' :: ks)) by left. by case_bool_decide.
  - rewrite lookup_delete_ne by done. erewrite (bool_decide_ext (k' ∈ ks)); [done|]. set_solver.
Qed.

Definition remove_where (P : Held -> bool) (g : Inner) : Inner := remove_all (keys_of P g) g.

Lemma elem_keys P g k : k ∈ keys_of P g <-> exists h, items g !! k = Some h /\ P h = true.
Proof.
  unfold keys_of. rewrite list_elem_of_fmap. split.
  - intros ([k' h] & -> & Hx). apply list_elem_of_In, filter_In in Hx as [Hx HP]. exists h.
    split; [|done]. by apply elem_of_map_to_list, list_elem_of_In.
  - intros (h & Hk & HP). exists (k, h). split; [done|]. apply list_elem_of_In, filter_In. split; [|done].
    by apply list_elem_of_In, elem_of_map_to_list.
Qed.

(** Exactly the items that fail the test are left. *)
Lemma remove_where_items P g : items (remove_where P g) = filter (fun x => P x.2 = false) (items g).
Proof.
  apply map_eq. intros k. destruct (remove_all_spec (keys_of P g) g) as (_ & H & _). unfold remove_where. rewrite H.
  rewrite map_lookup_filter. destruct (items g !! k) as [h|] eqn:E; cbn; [|by case_bool_decide].
  case_bool_decide as Hk; [|rewrite elem_keys in Hk].
  - apply elem_keys in Hk as (h' & E' & HP). simplify_eq. by rewrite option_guard_False by (by rewrite HP).
  - rewrite option_guard_True; [done|]. destruct (P h) eqn:HP; [|done]. destruct Hk. by exists h.
Qed.

Lemma remove_where_next P g : next_order (remove_where P g) = next_order g.
Proof. apply remove_all_spec. Qed.

Lemma remove_where_accounts exact l P g : accounts exact l g -> accounts exact l (remove_where P g).
Proof. apply remove_all_spec. Qed.

Lemma sweep_where now g : (sweep now g).1 = remove_where (expired now) g.
Proof. done. Qed.

(** *** Adding *)

Lemma add_budget k who b x g d :
  budget (add_item k who b x g) d = if decide (who = d) then ((budget g d).1 + 1, (budget g d).2 + zlen b) else budget g d.
Proof.
  unfold budget at 1, add_item. cbn [per_depositor]. destruct (decide (who = d)) as [<-|Hne].
  - by rewrite lookup_insert_eq.
  - by rewrite lookup_insert_ne.
Qed.

Lemma tallies_raise exact c a a' : tallies exact c a -> (if exact then a' = a else a' <= a) -> tallies exact c a'.
Proof. destruct exact; cbn; lia. Qed.

(** An item that the limits admit keeps the accounts; they stay exact when its
    key is new. *)
Lemma add_accounts exact l k who b x g :
  accounts exact l g -> (if exact then items g !! k = None else True) ->
  bad_size l b = false -> over_budget l g who b = false -> over_total l g b = false ->
  accounts exact l (add_item k who b x g).
Proof.
  intros H Hk Hsz Hbu Hto. unfold bad_size, over_budget, over_total in *.
  apply orb_false_iff in Hsz as [?%Z.eqb_neq ?%Z.ltb_ge], Hbu as [?%Z.ltb_ge ?%Z.ltb_ge], Hto as [?%Z.ltb_ge ?%Z.ltb_ge].
  pose proof (zlen_nonneg b). set (h := mkHeld who b x (next_order g)).
  assert (forall f, (forall h, 0 <= f h) -> if exact then total f (<[k := h]> (items g)) = f h + total f (items g)
                    else total f (<[k := h]> (items g)) <= f h + total f (items g)) as Ht.
  { intros f Hf. destruct exact; [by apply total_insert|by apply total_replace]. }
  split; try rewrite add_budget; cbn [items nbytes add_item]; fold h.
  - eapply tallies_raise; [apply tallies_add, H|]. apply (Ht held_len), held_len_nonneg.
  - intros d. rewrite add_budget. eapply tallies_raise; [|apply (Ht (one_from d)), one_from_nonneg].
    unfold one_from at 1. cbn [from h]. pose proof (ac_count _ _ _ H d). case_decide; [rewrite bool_decide_eq_true_2 by done|rewrite bool_decide_eq_false_2 by done]; cbn [fst]; [by apply tallies_add|done].
  - intros d. rewrite add_budget. eapply tallies_raise; [|apply (Ht (len_from d)), len_from_nonneg].
    unfold len_from at 1. cbn [from blob h]. pose proof (ac_sum _ _ _ H d). case_decide; [rewrite bool_decide_eq_true_2 by done|rewrite bool_decide_eq_false_2 by done]; cbn [snd]; [by apply tallies_add|done].
  - intros k' h' [[<- <-]|[_ Hk']]%lookup_insert_Some; [cbn; lia|by eapply ac_item].
  - done.
  - rewrite map_size_insert. pose proof (ac_max_items _ _ _ H). destruct (items g !! k); unfold id; lia.
  - intros d. rewrite add_budget. pose proof (ac_max_from _ _ _ H d). case_decide; subst; cbn; lia.
Qed.

(** ** The order of the items *)

(** The numbers of the items are different and below the next one. *)
Record ordered (g : Inner) : Prop := {
  od_range k h : items g !! k = Some h -> 0 <= order h < next_order g;
  od_inj k k' h h' : items g !! k = Some h -> items g !! k' = Some h' -> order h = order h' -> k = k';
  od_next : 0 <= next_order g;
}.

Lemma ordered_empty : ordered empty_inner.
Proof. by split. Qed.

Lemma ordered_fewer g g' :
  ordered g -> (forall k h, items g' !! k = Some h -> items g !! k = Some h) -> next_order g' = next_order g -> ordered g'.
Proof. intros H Hs Hn. split; [intros; rewrite Hn; eapply od_range; eauto|intros; eapply od_inj; eauto|rewrite Hn; apply H]. Qed.

Lemma ordered_remove k g : ordered g -> ordered (remove k g).1.
Proof. intros H. apply (ordered_fewer g); [done| |apply remove_next]. rewrite remove_items. by intros k' h [_ ?]%lookup_delete_Some. Qed.

Lemma ordered_where P g : ordered g -> ordered (remove_where P g).
Proof.
  intros H. apply (ordered_fewer g); [done| |apply remove_where_next]. rewrite remove_where_items.
  by intros k h [? _]%map_lookup_filter_Some.
Qed.

Lemma add_next k who b x g : 0 <= next_order g < u64_max -> next_order (add_item k who b x g) = next_order g + 1.
Proof. intros H. cbn. unfold wrapping_add. apply Z.mod_small. lia. Qed.

Lemma ordered_add k who b x g :
  ordered g -> next_order g < u64_max -> ordered (add_item k who b x g).
Proof.
  intros H Hn. pose proof (od_next _ H). assert (forall k' h', items g !! k' = Some h' -> order h' <> next_order g) as Hne.
  { intros k' h' Hk'. pose proof (od_range _ H _ _ Hk'). lia. }
  split; rewrite ?add_next by done; cbn [items add_item].
  - intros k' h' [[<- <-]|[_ Hk']]%lookup_insert_Some; [cbn; lia|]. pose proof (od_range _ H _ _ Hk'). lia.
  - intros k1 k2 h1 h2 [[<- <-]|[_ H1]]%lookup_insert_Some [[<- <-]|[_ H2]]%lookup_insert_Some; cbn; intros E.
    + done.
    + by apply Hne in H2.
    + by apply Hne in H1.
    + by eapply od_inj.
  - lia.
Qed.

Lemma by_order_perm g : by_order g ≡ₚ map_to_list (items g).
Proof. apply merge_sort_Permutation. Qed.

Lemma by_order_elem g k h : (k, h) ∈ by_order g <-> items g !! k = Some h.
Proof. rewrite by_order_perm. apply elem_of_map_to_list. Qed.

#[export] Instance order_le_total : Total order_le.
Proof. intros a b. unfold order_le. lia. Qed.
#[export] Instance order_le_trans : Transitive order_le.
Proof. intros a b c. unfold order_le. lia. Qed.

(** The items in order are the one sorted arrangement of them. *)
Lemma by_order_unique g xs :
  ordered g -> StronglySorted order_le xs -> xs ≡ₚ map_to_list (items g) -> by_order g = xs.
Proof.
  intros H Hs Hp. eapply (StronglySorted_unique_strong order_le); [|apply StronglySorted_merge_sort; apply _|done|].
  - intros [k1 h1] [k2 h2] H1 H2 Ha Hb. unfold order_le in *. cbn in *. apply by_order_elem in H1.
    rewrite Hp in H2. apply elem_of_map_to_list in H2. assert (k1 = k2) as -> by (eapply od_inj; eauto; lia). congruence.
  - by rewrite by_order_perm.
Qed.

Lemma by_order_sorted g : StronglySorted order_le (by_order g).
Proof. apply StronglySorted_merge_sort; apply _. Qed.

Lemma by_order_add k who b x g :
  ordered g -> items g !! k = None -> next_order g < u64_max ->
  by_order (add_item k who b x g) = by_order g ++ [(k, mkHeld who b x (next_order g))].
Proof.
  intros H Hk Hn. apply by_order_unique; [by apply ordered_add| |].
  - assert (Forall (fun y => order y.2 < next_order g) (by_order g)) as Hall.
    { apply Forall_forall. intros [k' h'] Hx%by_order_elem. by eapply od_range. }
    pose proof (by_order_sorted g) as Hs. induction Hs as [|y ys Hs IH Hy]; cbn; [constructor; constructor|].
    apply Forall_cons in Hall as [Hlt Hall]. constructor; [by apply IH|]. apply Forall_app. split; [done|].
    constructor; [|constructor]. unfold order_le. cbn. lia.
  - cbn [items add_item]. rewrite map_to_list_insert by done. rewrite by_order_perm. apply Permutation_sym, Permutation_cons_append.
Qed.

Lemma StronglySorted_filter {A} (R : A -> A -> Prop) (f : A -> bool) xs : StronglySorted R xs -> StronglySorted R (List.filter f xs).
Proof.
  induction 1 as [|x xs _ IH Hx]; [constructor|]. cbn. destruct (f x); [|done]. constructor; [done|].
  apply Forall_forall. intros y [Hy _]%list_elem_of_In%filter_In. rewrite Forall_forall in Hx. by apply Hx, list_elem_of_In.
Qed.

Lemma by_order_fewer f g g' :
  ordered g -> ordered g' -> (forall k h, items g' !! k = Some h <-> items g !! k = Some h /\ f (k, h) = true) ->
  by_order g' = List.filter f (by_order g).
Proof.
  intros H H' Hi. apply by_order_unique; [done|apply StronglySorted_filter, by_order_sorted|]. apply NoDup_Permutation.
  - apply NoDup_ListNoDup, List.NoDup_filter, NoDup_ListNoDup. rewrite by_order_perm. apply NoDup_map_to_list.
  - apply NoDup_map_to_list.
  - intros [k h]. by rewrite elem_of_map_to_list, Hi, <- by_order_elem, !list_elem_of_In, filter_In.
Qed.

Lemma by_order_where P g : ordered g -> by_order (remove_where P g) = List.filter (fun x => negb (P x.2)) (by_order g).
Proof.
  intros H. apply by_order_fewer; [done|by apply ordered_where|]. intros k h.
  rewrite remove_where_items, map_lookup_filter_Some. cbn. by rewrite negb_true_iff.
Qed.

Lemma by_order_remove k g : ordered g -> by_order (remove k g).1 = List.filter (fun x => negb (bool_decide (x.1 = k))) (by_order g).
Proof.
  intros H. apply by_order_fewer; [done|by apply ordered_remove|]. intros k' h.
  rewrite remove_items, lookup_delete_Some, negb_true_iff, bool_decide_eq_false. cbn. naive_solver.
Qed.

(** ** Saving and restoring *)

(** What a snapshot keeps of an item: the key, the depositor, the expiry and the
    bytes. *)
Abbreviation Kept := (Key * bytes * Z * bytes)%type.
Definition strip (x : Key * Held) : Kept := (x.1, from x.2, expires_ms x.2, blob x.2).
Definition kept_key (e : Kept) : Key := e.1.1.1.
Definition kept_from (e : Kept) : bytes := e.1.1.2.
Definition kept_expires (e : Kept) : Z := e.1.2.
Definition kept_blob (e : Kept) : bytes := e.2.

(** The store as its users see it: the items, oldest first. *)
Definition view (g : Inner) : list Kept := map strip (by_order g).
Definition live (now : Z) : list Kept -> list Kept := List.filter (fun e => negb (kept_expires e <=? now)).

(** The shape of an item: the widths of its fields. *)
Definition held_shape (k : Key) (h : Held) : Prop :=
  array 16 k.1 /\ array 16 k.2 /\ array 32 (from h) /\ bytes_ok (blob h) /\ in_u64 (expires_ms h).
Definition shaped (g : Inner) : Prop := map_Forall held_shape (items g).

Lemma rd_held_put k h r :
  held_shape k h -> zlen (blob h) <= u32_max -> rd_held (put_held (k, h) ++ r) = Some (strip (k, h), r).
Proof.
  intros ([Ht _] & [Hi _] & [Hw _] & _ & He) Hl. unfold rd_held, put_held, strip. cbn [fst snd]. destruct k as [tag item]. cbn [fst snd] in *.
  rewrite Z.mod_small by (pose proof (zlen_nonneg (blob h)); ulia). rewrite <- !app_assoc.
  set (xs := be_bytes 8 _). set (ns := be_bytes 4 _). pose proof (be_bytes_length 8 (expires_ms h) : length xs = _) as Hx.
  pose proof (be_bytes_length 4 (zlen (blob h)) : length ns = _) as Hn.
  rewrite !length_app, Ht, Hi, Hw, Hx, Hn, (proj2 (Nat.ltb_ge _ _)) by lia.
  rewrite take_app_length' by done.
  assert (slice 16 32 (tag ++ item ++ from h ++ xs ++ ns ++ blob h ++ r) = item) as ->.
  { rewrite slice_skip by lia. rewrite Ht. apply slice_here. lia. }
  assert (slice 32 64 (tag ++ item ++ from h ++ xs ++ ns ++ blob h ++ r) = from h) as ->.
  { rewrite !slice_skip by lia. rewrite Ht, Hi. apply slice_here. lia. }
  assert (slice 64 72 (tag ++ item ++ from h ++ xs ++ ns ++ blob h ++ r) = xs) as ->.
  { rewrite !slice_skip by lia. rewrite Ht, Hi, Hw. apply slice_here. lia. }
  assert (slice 72 76 (tag ++ item ++ from h ++ xs ++ ns ++ blob h ++ r) = ns) as ->.
  { rewrite !slice_skip by lia. rewrite Ht, Hi, Hw, Hx. apply slice_here. lia. }
  assert (drop 76 (tag ++ item ++ from h ++ xs ++ ns ++ blob h ++ r) = blob h ++ r) as ->.
  { rewrite !app_assoc, <- (app_assoc _ (blob h)). apply drop_app_length'. rewrite !length_app. lia. }
  unfold xs, ns. rewrite !from_be_be by (change (Z.of_nat 8) with 8; change (Z.of_nat 4) with 4; pose proof (zlen_nonneg (blob h)); ulia).
  unfold zlen. rewrite Nat2Z.id, length_app, (proj2 (Nat.ltb_ge _ _)) by lia.
  by rewrite take_app_length, drop_app_length.
Qed.

(** Sums over a list of items. *)
Definition lsum (f : Held -> Z) (xs : list (Key * Held)) : Z := foldr (fun x a => f x.2 + a) 0 xs.

Lemma lsum_cons f x xs : lsum f (x :: xs) = f x.2 + lsum f xs.
Proof. done. Qed.

#[export] Instance lsum_proper f : Proper ((≡ₚ) ==> (=)) (lsum f).
Proof. unfold lsum. induction 1; cbn; [done|congruence|lia|congruence]. Qed.

Lemma lsum_total f g : lsum f (by_order g) = total f (items g).
Proof.
  rewrite by_order_perm. unfold total. rewrite map_fold_foldr. unfold lsum.
  induction (map_to_list (items g)) as [|[k h] xs IH]; [done|]. cbn. by rewrite IH.
Qed.

(** There is room for the items [xs] beside those of [g]. *)
Record room (l : CustodyLimits) (g : Inner) (xs : list (Key * Held)) : Prop := {
  rm_bytes : nbytes g + lsum held_len xs <= max_total_bytes l;
  rm_items : Z.of_nat (size (items g)) + zlen xs <= max_items l;
  rm_count d : (budget g d).1 + lsum (one_from d) xs <= max_items_per_depositor l;
  rm_sum d : (budget g d).2 + lsum (len_from d) xs <= max_bytes_per_depositor l;
}.

Lemma lsum_nonneg f xs : (forall h, 0 <= f h) -> 0 <= lsum f xs.
Proof. intros Hf. induction xs as [|x xs IH]; [done|]. rewrite lsum_cons. specialize (Hf x.2). lia. Qed.

(** With room for an item, the limits admit it and there is room for the rest. *)
Lemma room_admits l g k h xs :
  room l g ((k, h) :: xs) -> 0 < zlen (blob h) <= max_item_bytes l ->
  bad_size l (blob h) = false /\ over_budget l g (from h) (blob h) = false /\ over_total l g (blob h) = false.
Proof.
  intros [H1 H2 H3 H4] Hl. specialize (H3 (from h)). specialize (H4 (from h)). rewrite zlen_cons, lsum_cons in *. cbn [snd] in *.
  pose proof (lsum_nonneg held_len xs held_len_nonneg). pose proof (zlen_nonneg xs).
  pose proof (lsum_nonneg _ xs (one_from_nonneg (from h))). pose proof (lsum_nonneg _ xs (len_from_nonneg (from h))).
  assert (one_from (from h) h = 1) by (unfold one_from; by rewrite bool_decide_eq_true_2).
  assert (len_from (from h) h = zlen (blob h)) by (unfold len_from; by rewrite bool_decide_eq_true_2).
  change (held_len h) with (zlen (blob h)) in *.
  unfold bad_size, over_budget, over_total. split_and!; apply orb_false_iff; split; lia.
Qed.

Lemma room_skip l g x xs : room l g (x :: xs) -> room l g xs.
Proof.
  intros [H1 H2 H3 H4]. rewrite zlen_cons, lsum_cons in *. pose proof (held_len_nonneg x.2). split; try lia.
  - intros d. specialize (H3 d). rewrite lsum_cons in H3. pose proof (one_from_nonneg d x.2). lia.
  - intros d. specialize (H4 d). rewrite lsum_cons in H4. pose proof (len_from_nonneg d x.2). lia.
Qed.

Lemma room_add l g k h xs :
  room l g ((k, h) :: xs) -> items g !! k = None -> room l (add_item k (from h) (blob h) (expires_ms h) g) xs.
Proof.
  intros [H1 H2 H3 H4] Hk. rewrite zlen_cons, lsum_cons in *. cbn [snd] in *. split.
  - cbn [nbytes add_item]. unfold held_len in *. lia.
  - cbn [items add_item]. rewrite map_size_insert_None by done. lia.
  - intros d. rewrite add_budget. specialize (H3 d). rewrite lsum_cons in H3. unfold one_from at 1 in H3. cbn [snd] in H3.
    destruct (decide (from h = d)); [rewrite bool_decide_eq_true_2 in H3 by done|rewrite bool_decide_eq_false_2 in H3 by done]; cbn [fst]; lia.
  - intros d. rewrite add_budget. specialize (H4 d). rewrite lsum_cons in H4. unfold len_from at 1 in H4. cbn [snd] in H4.
    destruct (decide (from h = d)); [rewrite bool_decide_eq_true_2 in H4 by done|rewrite bool_decide_eq_false_2 in H4 by done]; cbn [snd]; lia.
Qed.

Lemma room_start exact l g : accounts exact l g -> room l empty_inner (by_order g).
Proof.
  intros H. split; cbn [nbytes items empty_inner]; rewrite ?lsum_total.
  - pose proof (tallies_low _ _ _ (ac_bytes _ _ _ H)). pose proof (ac_max_bytes _ _ _ H). lia.
  - pose proof (ac_max_items _ _ _ H). unfold zlen. rewrite by_order_perm, length_map_to_list, map_size_empty. lia.
  - intros d. rewrite lsum_total. pose proof (tallies_low _ _ _ (ac_count _ _ _ H d)). pose proof (ac_max_from _ _ _ H d). change (budget empty_inner d) with (0, 0). cbn [fst]. lia.
  - intros d. rewrite lsum_total. pose proof (tallies_low _ _ _ (ac_sum _ _ _ H d)). pose proof (ac_max_from _ _ _ H d). change (budget empty_inner d) with (0, 0). cbn [snd]. lia.
Qed.

Lemma view_add k who b x g :
  ordered g -> items g !! k = None -> next_order g < u64_max -> view (add_item k who b x g) = view g ++ [(k, who, x, b)].
Proof. intros. unfold view. rewrite by_order_add by done. by rewrite map_app. Qed.

(** The loop of [restore] over written items with room for them takes every one
    that has not expired, in order. *)
Lemma restore_loop_put l now xs r g :
  let g' := restore_loop l now (length xs) (flat_map put_held xs ++ r) g in
  NoDup xs.*1 -> Forall (fun x => held_shape x.1 x.2 /\ 0 < zlen (blob x.2) <= max_item_bytes l) xs -> max_item_bytes l <= u32_max ->
  room l g xs -> (forall x, x ∈ xs -> items g !! x.1 = None) ->
  accounts true l g -> ordered g -> shaped g -> next_order g + zlen xs <= u64_max ->
  view g' = view g ++ live now (map strip xs) /\ accounts true l g' /\ ordered g' /\ shaped g' /\
  next_order g' <= next_order g + zlen xs.
Proof.
  intros g' Hnd Hsh Hl32. subst g'. revert g. induction xs as [|[k h] xs IH]; intros g Hr Hd Ha Ho Hp Hn.
  { cbn. rewrite app_nil_r. split_and!; try done. rewrite zlen_nil. lia. }
  apply Forall_cons in Hsh as [[Hshape Hlen] Hsh]. rewrite fmap_cons in Hnd. apply NoDup_cons in Hnd as [Hk Hnd]. cbn [fst snd] in *.
  specialize (IH Hnd Hsh). destruct (room_admits l g k h xs Hr Hlen) as (A1 & A2 & A3).
  rewrite zlen_cons in *. pose proof (zlen_nonneg xs). pose proof (od_next _ Ho).
  assert (items g !! k = None) as Hgk by (apply (Hd (k, h)); left).
  cbn [length restore_loop flat_map]. rewrite <- app_assoc, rd_held_put by (done || lia). change (strip (k, h)) with ((k, from h, expires_ms h, blob h) : Kept). cbn match.
  unfold refused. rewrite A1, A2, A3. cbn [map strip live List.filter kept_expires fst snd]. rewrite !orb_false_r.
  destruct (expires_ms h <=? now); cbn [negb].
  - destruct (IH g) as (V & ? & ? & ? & ?); try done; [by eapply room_skip|set_solver|lia|]. split_and!; try done. lia.
  - destruct (IH (add_item k (from h) (blob h) (expires_ms h) g)) as (V & ? & ? & ? & Hn').
    + by eapply room_add.
    + intros [k' h'] Hx. cbn. rewrite lookup_insert_ne; [by apply (Hd (k', h')); right|]. intros ->. apply Hk.
      apply list_elem_of_fmap. by exists (k', h').
    + by apply add_accounts.
    + apply ordered_add; [done|lia].
    + by apply map_Forall_insert_2; [|].
    + rewrite add_next by lia. lia.
    + rewrite V, view_add, <- app_assoc by (done || lia). rewrite add_next in Hn' by lia. split_and!; try done. lia.
Qed.

(** Everything that holds of a store between two operations; [n] bounds the
    numbers given so far. *)
Record custody_wf (n : Z) (c : MemoryCustody) : Prop := {
  wf_accounts : accounts true (limits c) (inner c);
  wf_ordered : ordered (inner c);
  wf_shaped : shaped (inner c);
  wf_next : next_order (inner c) <= n;
}.

(** Limits as [new] leaves them. *)
Definition ceilings (l : CustodyLimits) : Prop :=
  limits_ok l /\ max_item_bytes l <= MAX_ITEM_BYTES /\ max_total_bytes l <= HARD_MAX_TOTAL_BYTES /\
  max_items l <= HARD_MAX_ITEMS /\ ttl_ms l <= HARD_MAX_TTL_MS.

Lemma clamped_ceilings l : limits_ok l -> ceilings (clamped l).
Proof.
  intros (?&?&?&?&?&?). unfold ceilings, limits_ok, clamped, MAX_ITEM_BYTES, HARD_MAX_TOTAL_BYTES, HARD_MAX_ITEMS, HARD_MAX_TTL_MS, MAX_FRAME_BODY.
  cbn. split_and!; ulia.
Qed.

Lemma clamped_idem l : ceilings l -> clamped l = l.
Proof. intros (_&?&?&?&?). destruct l. unfold clamped. cbn in *. by rewrite !Z.min_l by lia. Qed.

Lemma limits_of_config c :
  in_u64 (custody_ttl_days c) -> 0 <= custody_max_total_bytes c -> 0 <= custody_max_items c -> ceilings (from_config c).
Proof. intros. apply clamped_ceilings. unfold limits_ok, default_limits, MAX_ITEM_BYTES, MAX_FRAME_BODY. cbn. split_and!; ulia. Qed.

Lemma by_order_keys g : NoDup (by_order g).*1.
Proof. rewrite by_order_perm. apply NoDup_fst_map_to_list. Qed.

Lemma by_order_length g : length (by_order g) = size (items g).
Proof. by rewrite by_order_perm, length_map_to_list. Qed.

(** Restoring a snapshot, in a store with the same limits, gives the items that
    have not expired, in their order. *)
Lemma restore_snapshot n c c0 now :
  custody_wf n c -> ceilings (limits c) -> limits c0 = limits c ->
  let c' := restore (snapshot c) now c0 in
  view (inner c') = live now (view (inner c)) /\ custody_wf HARD_MAX_ITEMS c' /\
  limits c' = limits c /\ trusted c' = trusted c0.
Proof.
  intros [Ha Ho Hs _] ((?&?&?&?&?&?) & Hi & _ & Hm & _) Hl. cbn zeta. unfold restore, snapshot. rewrite Hl.
  set (xs := by_order (inner c)). pose proof (ac_max_items _ _ _ Ha) as Hmax.
  assert (zlen xs = Z.of_nat (size (items (inner c)))) as Hlen by (unfold zlen, xs; by rewrite by_order_length).
  unfold HARD_MAX_ITEMS, MAX_ITEM_BYTES, MAX_FRAME_BODY in *. cbn [app]. rewrite Z.mod_small by lia.
  change (SNAPSHOT_VERSION =? SNAPSHOT_VERSION) with true. rewrite length_app, be_bytes_length, (proj2 (Nat.ltb_ge _ _)) by lia. cbn [negb orb].
  rewrite take_app_length', drop_app_length' by (by rewrite be_bytes_length). rewrite from_be_be by (change (256 ^ Z.of_nat 4) with 4294967296; lia).
  replace (Z.to_nat (zlen xs)) with (length xs) by (unfold zlen; lia). rewrite <- (app_nil_r (flat_map put_held xs)).
  destruct (restore_loop_put (limits c) now xs [] empty_inner) as (V & A & O & S & N).
  - apply by_order_keys.
  - apply Forall_forall. intros [k h] Hx%by_order_elem. split; [by apply (Hs k h)|by eapply (ac_item _ _ _ Ha)].
  - ulia.
  - by eapply room_start.
  - done.
  - by apply accounts_empty.
  - apply ordered_empty.
  - apply map_Forall_empty.
  - cbn [next_order empty_inner]. ulia.
  - cbn [set_inner inner limits trusted]. split_and!; try done. split; cbn [set_inner inner limits]; rewrite ?Hl; try done. change (next_order empty_inner) with 0 in N. lia.
Qed.
