(* ===== verification/CustodyRun.v ===== *)
(** * CustodyRun: histories of a custody store

    What the store of [Custody] promises over any sequence of calls: it behaves
    as a plain list of items, oldest first, with a set of trusted contacts, the
    budgets counted from the list; its ceilings hold whatever bytes it is
    restored from; an item that was stored is returned until it expires.  A
    restart saves a snapshot and restores it into a new store. *)

From S2P Require Import Prelude Bytes Text Codec ErasureCode Dissolve Disk SealedState Custody.

Inductive Op :=
| OTrust (id : bytes)
| ORevoke (id : bytes)
| ODeposit (who tag item b : bytes) (now : Z)
| OList (who tag : bytes) (now : Z)
| OFetch (who tag item : bytes) (now : Z)
| ODelete (who tag item : bytes)
| OSweep (now : Z)
| ORestart (now : Z)
| ORestore (buf : bytes) (now : Z).

Inductive Answer :=
| ADone
| ADeposited (r : result DepositOutcome CustodyError)
| AListed (r : result (list bytes) CustodyError)
| AFetched (r : result (option bytes) CustodyError)
| ADeleted (r : result bool CustodyError)
| ASwept (n : Z).

Definition restart (now : Z) (c : MemoryCustody) : MemoryCustody := restore (snapshot c) now (new_custody (limits c)).

Definition call (c : MemoryCustody) (o : Op) : MemoryCustody * Answer :=
  match o with
  | OTrust id => (trust id c, ADone)
  | ORevoke id => (revoke id c, ADone)
  | ODeposit who tag item b now => let '(c, r) := deposit who tag item b now c in (c, ADeposited r)
  | OList who tag now => let '(c, r) := list_items who tag now c in (c, AListed r)
  | OFetch who tag item now => let '(c, r) := fetch who tag item now c in (c, AFetched r)
  | ODelete who tag item => let '(c, r) := delete_item who tag item c in (c, ADeleted r)
  | OSweep now => let '(c, n) := sweep_custody now c in (c, ASwept n)
  | ORestart now => (restart now c, ADone)
  | ORestore buf now => (restore buf now c, ADone)
  end.

(** A machine run over a list of inputs, with its outputs. *)
Fixpoint outputs {S I O} (f : S -> I -> S * O) (s : S) (is_ : list I) : S * list O :=
  match is_ with
  | [] => (s, [])
  | i :: is_ => let '(s, o) := f s i in let '(s, os) := outputs f s is_ in (s, o :: os)
  end.

(** The widths of the arguments of a call. *)
Definition op_ok (o : Op) : Prop :=
  match o with
  | ODeposit who tag item b now => array 32 who /\ array 16 tag /\ array 16 item /\ bytes_ok b /\ in_u64 now
  | _ => True
  end.

(** Not a restore from foreign bytes. *)
Definition genuine (o : Op) : Prop := match o with ORestore _ _ => False | _ => True end.

(** ** The promise: a list of items *)

Record Spec := mkSpec { sp_trusted : gset bytes; sp_items : list Kept }.

Definition bytes_of (xs : list Kept) : Z := foldr (fun e a => zlen (kept_blob e) + a) 0 xs.
Definition items_from (d : bytes) : list Kept -> list Kept := List.filter (fun e => bool_decide (kept_from e = d)).
Definition items_for (tag : bytes) : list Kept -> list Kept := List.filter (fun e => bool_decide ((kept_key e).1 = tag)).
Definition find_key (k : Key) (xs : list Kept) : option Kept := List.find (fun e => bool_decide (kept_key e = k)) xs.

Definition may_use (l : CustodyLimits) (s : Spec) (who : bytes) : option CustodyError :=
  if negb (enabled l) then Some Disabled else if negb (bool_decide (who ∈ sp_trusted s)) then Some NotTrusted else None.

(** Why an item cannot be added to [xs]. *)
Definition refusal (l : CustodyLimits) (xs : list Kept) (who b : bytes) : option CustodyError :=
  let mine := items_from who xs in
  if (max_items_per_depositor l <? zlen mine + 1) || (max_bytes_per_depositor l <? bytes_of mine + zlen b) then Some DepositorBudget
  else if (max_items l <? zlen xs + 1) || (max_total_bytes l <? bytes_of xs + zlen b) then Some Full
  else None.

Definition spec_deposit (l : CustodyLimits) (k : Key) (who b : bytes) (now : Z) (xs : list Kept) :
  list Kept * result DepositOutcome CustodyError :=
  let xs' := live now xs in
  if (zlen b =? 0) || (max_item_bytes l <? zlen b) then (xs, Err TooBig)
  else match find_key k xs' with
       | Some _ => (xs', Ok Duplicate)
       | None => match refusal l xs' who b with
                 | Some e => (xs', Err e)
                 | None => (xs' ++ [(k, who, sat_add u64_max now (ttl_ms l), b)], Ok Stored)
                 end
       end.

Definition spec_call (l : CustodyLimits) (s : Spec) (o : Op) : Spec * Answer :=
  let xs := sp_items s in
  let on ys := mkSpec (sp_trusted s) ys in
  match o with
  | OTrust id => (mkSpec ({[id]} ∪ sp_trusted s) xs, ADone)
  | ORevoke id => (mkSpec (sp_trusted s ∖ {[id]}) (List.filter (fun e => negb (bool_decide (kept_from e = id))) xs), ADone)
  | ODeposit who tag item b now =>
    match may_use l s who with
    | Some e => (s, ADeposited (Err e))
    | None => let '(ys, r) := spec_deposit l (tag, item) who b now xs in (on ys, ADeposited r)
    end
  | OList who tag now =>
    match may_use l s who with
    | Some e => (s, AListed (Err e))
    | None => (on (live now xs), AListed (Ok (take MAX_LIST (map (fun e => (kept_key e).2) (items_for tag (live now xs))))))
    end
  | OFetch who tag item now =>
    match may_use l s who with
    | Some e => (s, AFetched (Err e))
    | None => (on (live now xs), AFetched (Ok (kept_blob <$> find_key (tag, item) (live now xs))))
    end
  | ODelete who tag item =>
    match may_use l s who with
    | Some e => (s, ADeleted (Err e))
    | None => (on (List.filter (fun e => negb (bool_decide (kept_key e = (tag, item)))) xs),
               ADeleted (Ok (bool_decide (is_Some (find_key (tag, item) xs)))))
    end
  | OSweep now => (on (live now xs), ASwept (zlen xs - zlen (live now xs)))
  | ORestart now => (mkSpec ∅ (live now xs), ADone)
  | ORestore _ _ => (s, ADone)
  end.

(** The list a store stands for. *)
Definition abstract (c : MemoryCustody) : Spec := mkSpec (trusted c) (view (inner c)).

(** ** Reading the list off the store *)

Lemma live_live t now xs : t <= now -> live now (live t xs) = live now xs.
Proof.
  intros Ht. unfold live. induction xs as [|e xs IH]; [done|]. cbn. destruct (Z.leb_spec (kept_expires e) t); cbn.
  - rewrite (proj2 (Z.leb_le _ _)) by lia. cbn. done.
  - destruct (kept_expires e <=? now); cbn; congruence.
Qed.

Lemma view_elem g k h : items g !! k = Some h -> strip (k, h) ∈ view g.
Proof. intros H. unfold view. apply list_elem_of_fmap. exists (k, h). split; [done|]. by apply by_order_elem. Qed.

Lemma view_where P Q g :
  ordered g -> (forall x, Q (strip x) = P x.2) -> view (remove_where P g) = List.filter (fun e => negb (Q e)) (view g).
Proof.
  intros H HQ. unfold view. rewrite by_order_where by done. induction (by_order g) as [|x xs IH]; [done|].
  cbn. rewrite HQ. destruct (P x.2); cbn; by rewrite IH.
Qed.

Lemma view_sweep now g : ordered g -> view (sweep now g).1 = live now (view g).
Proof. intros H. rewrite sweep_where. by apply (view_where _ (fun e => kept_expires e <=? now)). Qed.

Lemma view_remove k g : ordered g -> view (remove k g).1 = List.filter (fun e => negb (bool_decide (kept_key e = k))) (view g).
Proof.
  intros H. unfold view. rewrite by_order_remove by done. induction (by_order g) as [|x xs IH]; [done|].
  cbn. case_bool_decide; cbn; by rewrite IH.
Qed.

Lemma find_view g k : find_key k (view g) = (fun h => strip (k, h)) <$> items g !! k.
Proof.
  unfold find_key, view. pose proof (by_order_elem g k) as He. pose proof (by_order_keys g) as Hnd.
  induction (by_order g) as [|[k' h'] xs IH] in He, Hnd |- *; cbn.
  { destruct (items g !! k) as [h|]; [|done]. exfalso. by apply (elem_of_nil (k, h)), He. }
  rewrite fmap_cons in Hnd. apply NoDup_cons in Hnd as [Hk Hnd]. case_bool_decide as Ek; cbn in Ek.
  - subst k'. by rewrite (proj1 (He h')) by left.
  - apply IH; [|done]. intros h. rewrite <- He. rewrite elem_of_cons. naive_solver.
Qed.

Lemma view_length g : zlen (view g) = Z.of_nat (size (items g)).
Proof. unfold zlen, view. by rewrite length_map, by_order_length. Qed.

Lemma bytes_of_cons e xs : bytes_of (e :: xs) = zlen (kept_blob e) + bytes_of xs.
Proof. done. Qed.

Lemma view_bytes g : bytes_of (view g) = total held_len (items g).
Proof.
  rewrite <- lsum_total. unfold view. induction (by_order g) as [|x xs IH]; [done|]. cbn [map].
  by rewrite lsum_cons, bytes_of_cons, IH.
Qed.

Lemma view_count d g : zlen (items_from d (view g)) = total (one_from d) (items g).
Proof.
  rewrite <- lsum_total. unfold view, items_from. induction (by_order g) as [|x xs IH]; [done|]. rewrite lsum_cons.
  cbn [map List.filter]. change (kept_from (strip x)) with (from x.2). unfold one_from at 1. case_bool_decide; rewrite <- IH; [rewrite zlen_cons; lia|done].
Qed.

Lemma view_sum d g : bytes_of (items_from d (view g)) = total (len_from d) (items g).
Proof.
  rewrite <- lsum_total. unfold view, items_from. induction (by_order g) as [|x xs IH]; [done|]. rewrite lsum_cons.
  cbn [map List.filter]. change (kept_from (strip x)) with (from x.2). unfold len_from at 1. case_bool_decide; rewrite <- IH; [by rewrite bytes_of_cons|done].
Qed.

(** *** Listing *)

#[export] Instance waiting_le_total : Total waiting_le.
Proof.
  intros a b. unfold waiting_le. destruct (Z.lt_trichotomy a.1 b.1) as [?|[?|?]]; [by left; left| |by right; left].
  destruct (str_leb a.2 b.2) eqn:E; [by left; right|]. right; right. split; [done|]. by apply str_leb_total.
Qed.

#[export] Instance waiting_le_trans : Transitive waiting_le.
Proof.
  intros a b c. unfold waiting_le. intros [?|[? ?]] [?|[? ?]]; [left; lia|left; lia|left; lia|].
  right. split; [lia|by eapply str_leb_trans].
Qed.

#[export] Instance waiting_le_antisym : AntiSymm (=) waiting_le.
Proof.
  intros [o s] [o' s']. unfold waiting_le. cbn. intros [?|[-> ?]] [?|[? ?]]; [lia|lia|lia|]. f_equal. by apply str_leb_antisym.
Qed.

Lemma filter_perm {A} (f : A -> bool) (xs ys : list A) : xs ≡ₚ ys -> List.filter f xs ≡ₚ List.filter f ys.
Proof.
  induction 1 as [|x xs ys _ IH|x y xs|xs ys zs _ IH1 _ IH2]; cbn; [done| | |by rewrite IH1].
  - destruct (f x); [by rewrite IH|done].
  - destruct (f x), (f y); try done. constructor.
Qed.

Definition place_of (x : Key * Held) : Z * bytes := (order x.2, x.1.2).

(** The listing is the list of items, oldest first. *)
Lemma waiting_sorted tag g :
  ordered g ->
  merge_sort waiting_le (waiting tag g) = map place_of (List.filter (fun x => bool_decide (x.1.1 = tag)) (by_order g)).
Proof.
  intros H. apply (StronglySorted_unique waiting_le); [exact (StronglySorted_merge_sort _ _)| |].
  - pose proof (by_order_sorted g) as Hs. assert (forall x y, x ∈ by_order g -> y ∈ by_order g -> order x.2 = order y.2 -> x = y) as Hinj.
    { intros [k1 h1] [k2 h2] H1%by_order_elem H2%by_order_elem E. cbn in E. assert (k1 = k2) as -> by (by eapply od_inj). congruence. }
    induction Hs as [|x xs Hs IH Hx]; [constructor|]. assert (StronglySorted waiting_le (map place_of (List.filter (fun x => bool_decide (x.1.1 = tag)) xs))) as IH'.
    { apply IH. intros; apply Hinj; [by right|by right|done]. }
    cbn. case_bool_decide; [|done]. cbn. constructor; [done|]. apply Forall_forall. intros p (y & -> & Hy)%list_elem_of_fmap.
    apply list_elem_of_In, filter_In in Hy as [Hy%list_elem_of_In _]. rewrite Forall_forall in Hx. specialize (Hx y Hy).
    unfold order_le, waiting_le in *. cbn. destruct (decide (order x.2 = order y.2)) as [E|]; [|lia].
    right. split; [done|]. rewrite (Hinj x y) by (done || by constructor). apply str_leb_refl.
  - rewrite merge_sort_Permutation. unfold waiting. apply Permutation_map, filter_perm. by rewrite by_order_perm.
Qed.

Lemma listing_view tag n g :
  ordered g ->
  map snd (take n (merge_sort waiting_le (waiting tag g))) = take n (map (fun e => (kept_key e).2) (items_for tag (view g))).
Proof.
  intros H. rewrite waiting_sorted by done. change (map snd) with (fmap (M := list) (@snd Z bytes)). rewrite fmap_take. f_equal.
  unfold view, items_for. induction (by_order g) as [|x xs IH]; [done|]. cbn. change ((kept_key (strip x)).1) with (x.1.1).
  case_bool_decide; cbn; [by f_equal|done].
Qed.

(** *** One call *)

Lemma wf_where n P c : custody_wf n c -> custody_wf n (set_inner (remove_where P (inner c)) c).
Proof.
  intros [Ha Ho Hs Hn]. split; cbn.
  - by apply remove_where_accounts.
  - by apply ordered_where.
  - intros k h. rewrite remove_where_items. intros [Hk _]%map_lookup_filter_Some. by apply Hs.
  - by rewrite remove_where_next.
Qed.

Lemma wf_remove n k c : custody_wf n c -> custody_wf n (set_inner (remove k (inner c)).1 c).
Proof.
  intros [Ha Ho Hs Hn]. split; cbn.
  - by apply remove_item_accounts.
  - by apply ordered_remove.
  - intros k' h. rewrite remove_items. intros [_ Hk]%lookup_delete_Some. by apply Hs.
  - by rewrite remove_next.
Qed.

Lemma wf_more n n' c : custody_wf n c -> n <= n' -> custody_wf n' c.
Proof. intros [? ? ? ?] Hn. split; try done. lia. Qed.

Lemma check_may_use who c :
  check who c = match may_use (limits c) (abstract c) who with Some e => Err e | None => Ok tt end.
Proof. unfold check, may_use. destruct (enabled (limits c)); [|done]. cbn. by case_bool_decide. Qed.

(** The counters decide as the list does. *)
Lemma refusal_counted l g who b :
  accounts true l g ->
  refusal l (view g) who b =
    if over_budget l g who b then Some DepositorBudget else if over_total l g b then Some Full else None.
Proof.
  intros H. unfold refusal, over_budget, over_total. rewrite view_count, view_sum, view_length, view_bytes.
  pose proof (ac_count _ _ _ H who) as H1. pose proof (ac_sum _ _ _ H who) as H2. pose proof (ac_bytes _ _ _ H) as H3.
  cbn in H1, H2, H3. by rewrite <- H1, <- H2, <- H3.
Qed.

(** What the operations on an accepted caller do to the list. *)
Lemma deposit_refines n c who tag item b now :
  custody_wf n c -> n < u64_max -> limits_ok (limits c) -> op_ok (ODeposit who tag item b now) -> check who c = Ok tt ->
  let '(c', r) := deposit who tag item b now c in
  custody_wf (n + 1) c' /\ limits c' = limits c /\ trusted c' = trusted c /\
  spec_deposit (limits c) (tag, item) who b now (view (inner c)) = (view (inner c'), r).
Proof.
  intros Hwf Hn Hl (Hw & Ht & Hi & Hb & Hnow) Hc. unfold deposit. rewrite Hc. unfold spec_deposit. fold (bad_size (limits c) b).
  destruct (bad_size (limits c) b) eqn:Hsz.
  { split_and!; try done. eapply wf_more; [done|lia]. }
  rewrite sweep_where. set (g := remove_where (expired now) (inner c)).
  pose proof (wf_where n (expired now) c Hwf) as Hwf'. fold g in Hwf'. destruct Hwf' as [Ha Ho Hs Hg]. cbn [inner set_inner limits] in *.
  assert (live now (view (inner c)) = view g) as -> by (symmetry; apply view_sweep, Hwf).
  assert (custody_wf (n + 1) (set_inner g c)) as Hsame by (split; try done; cbn; lia).
  rewrite find_view. destruct (items g !! (tag, item)) as [h|] eqn:Hk.
  { rewrite bool_decide_eq_true_2 by done. done. }
  rewrite bool_decide_eq_false_2 by (intros [? ?]; done). cbn [fmap option_fmap option_map]. rewrite (refusal_counted _ _ _ _ Ha).
  destruct (over_budget (limits c) g who b) eqn:H1; [done|]. destruct (over_total (limits c) g b) eqn:H2; [done|].
  cbn [inner set_inner limits trusted]. pose proof (od_next _ Ho). rewrite view_add by (done || lia). split_and!; try done.
  split; cbn [inner set_inner limits].
  - by apply add_accounts.
  - apply ordered_add; [done|lia].
  - apply map_Forall_insert_2; [|done]. split_and!; try done. cbn. destruct Hl as (_&_&_&_&_&?). ulia.
  - rewrite add_next by lia. lia.
Qed.

Lemma sweep_count now g : zlen (keys_of (expired now) g) = zlen (view g) - zlen (live now (view g)).
Proof.
  assert (zlen (keys_of (expired now) g) = zlen (List.filter (fun x => expired now x.2) (by_order g))) as ->.
  { unfold keys_of, zlen. rewrite length_map. f_equal. apply Permutation_length, filter_perm. by rewrite by_order_perm. }
  unfold view, live. induction (by_order g) as [|x xs IH]; [done|]. cbn. unfold expired at 1. change (kept_expires (strip x)) with (expires_ms x.2).
  destruct (expires_ms x.2 <=? now); cbn; rewrite !zlen_cons; lia.
Qed.

Lemma call_refines n c o :
  custody_wf n c -> HARD_MAX_ITEMS <= n < u64_max -> ceilings (limits c) -> op_ok o -> genuine o ->
  let '(c', a) := call c o in
  custody_wf (n + 1) c' /\ limits c' = limits c /\ spec_call (limits c) (abstract c) o = (abstract c', a).
Proof.
  intros Hwf Hn Hl Hop Hg. pose proof Hwf as [Ha Ho Hs Hnx].
  assert (custody_wf (n + 1) c) as Hsame by (eapply wf_more; [done|lia]).
  pose proof (fun P => wf_more n (n + 1) _ (wf_where n P c Hwf) ltac:(lia)) as Hwhere.
  destruct o as [id|id|who tag item b now|who tag now|who tag item now|who tag item|now|now|buf now]; cbn [call spec_call].
  - split_and!; try done. split; try apply Hsame.
  - split_and!; try done.
    + pose proof (Hwhere (fun h => bool_decide (from h = id))) as Hw. split; apply Hw.
    + unfold abstract. cbn. do 2 f_equal. symmetry. by apply (view_where _ (fun e => bool_decide (kept_from e = id))).
  - pose proof (deposit_refines n c who tag item b now Hwf ltac:(lia) (proj1 Hl) Hop) as Hd. pose proof (check_may_use who c) as Hu.
    destruct (may_use (limits c) (abstract c) who) as [e|].
    + unfold deposit. by rewrite Hu.
    + specialize (Hd Hu). destruct (deposit who tag item b now c) as [c' r]. destruct Hd as (? & ? & Ht & Hd).
      split_and!; try done. cbn [abstract sp_items sp_trusted]. rewrite Hd. unfold abstract. by rewrite Ht.
  - unfold list_items. rewrite check_may_use. destruct (may_use (limits c) (abstract c) who) as [e|]; [done|].
    rewrite sweep_where. split_and!; [apply Hwhere|done|]. unfold abstract. cbn [inner set_inner trusted sp_items sp_trusted].
    rewrite listing_view by (by apply ordered_where). by rewrite <- !sweep_where, !view_sweep.
  - unfold fetch. rewrite check_may_use. destruct (may_use (limits c) (abstract c) who) as [e|]; [done|].
    rewrite sweep_where. split_and!; [apply Hwhere|done|]. unfold abstract. cbn [inner set_inner trusted sp_items sp_trusted].
    rewrite <- !sweep_where, <- !view_sweep, find_view by done. by destruct (items _ !! _).
  - unfold delete_item. rewrite check_may_use. destruct (may_use (limits c) (abstract c) who) as [e|]; [done|].
    pose proof (wf_remove n (tag, item) c Hwf) as Hr. pose proof (view_remove (tag, item) _ Ho) as Hv.
    assert ((remove (tag, item) (inner c)).2 = bool_decide (is_Some (items (inner c) !! (tag, item)))) as Hb.
    { unfold remove. by destruct (items (inner c) !! (tag, item)). }
    unfold abstract. cbn [sp_items sp_trusted]. rewrite find_view. destruct (remove (tag, item) (inner c)) as [g' b]. cbn in *.
    split_and!; [eapply wf_more; [done|lia]|done|]. rewrite Hv, Hb. do 3 f_equal.
    by destruct (items (inner c) !! (tag, item)).
  - unfold sweep_custody. destruct (sweep now (inner c)) as [g' m] eqn:E. pose proof (sweep_where now (inner c)) as Hw.
    rewrite E in Hw. cbn in Hw. subst g'. split_and!; [apply Hwhere|done|]. unfold abstract. cbn.
    rewrite <- sweep_where, view_sweep, <- sweep_count by done. unfold sweep in E. by injection E as <-.
  - destruct (restore_snapshot n c (new_custody (limits c)) now Hwf Hl) as (V & W & L & T); [by apply clamped_idem|].
    unfold restart. split_and!; [eapply wf_more; [done|lia]|done|]. unfold abstract. cbn [sp_items]. by rewrite V, T.
  - done.
Qed.

Lemma wf_new_custody l : limits_ok l -> custody_wf 0 (new_custody l).
Proof.
  intros Hl. split; cbn.
  - apply accounts_empty, (clamped_ceilings l Hl).
  - apply ordered_empty.
  - apply map_Forall_empty.
  - done.
Qed.

Lemma calls_refine ops n c :
  custody_wf n c -> HARD_MAX_ITEMS <= n -> n + zlen ops <= u64_max -> ceilings (limits c) -> Forall op_ok ops -> Forall genuine ops ->
  let '(c', os) := outputs call c ops in
  custody_wf (n + zlen ops) c' /\ limits c' = limits c /\ outputs (spec_call (limits c)) (abstract c) ops = (abstract c', os).
Proof.
  intros Hwf Hn Hlen Hl Hok Hg. induction ops as [|o ops IH] in n, c, Hwf, Hn, Hlen, Hl, Hok, Hg |- *.
  { cbn. split_and!; [|done|done]. eapply wf_more; [done|]. rewrite zlen_nil. lia. }
  apply Forall_cons in Hok as [Ho Hok], Hg as [Hgo Hg]. rewrite zlen_cons in *. pose proof (zlen_nonneg ops). cbn [outputs].
  pose proof (call_refines n c o Hwf ltac:(lia) Hl Ho Hgo) as Hc. destruct (call c o) as [c1 a]. destruct Hc as (W1 & L1 & S1).
  rewrite S1. specialize (IH (n + 1) c1 W1 ltac:(lia) ltac:(lia)). rewrite L1 in IH. specialize (IH Hl Hok Hg).
  destruct (outputs call c1 ops) as [c2 os]. destruct IH as (W2 & L2 & S2). rewrite S2. split_and!; [|done|done].
  eapply wf_more; [done|lia].
Qed.

(** C11. A custody store is the list of its unexpired items: over any calls and
    restarts, every answer and the items held, oldest first, are those of a
    plain list with the budgets counted from it. *)
Theorem custody_refines l ops :
  limits_ok l -> Forall op_ok ops -> Forall genuine ops -> zlen ops <= u64_max - HARD_MAX_ITEMS ->
  let '(c, answers) := outputs call (new_custody l) ops in
  outputs (spec_call (clamped l)) (mkSpec ∅ []) ops = (abstract c, answers).
Proof.
  intros Hl Hok Hg Hlen. pose proof (wf_more 0 HARD_MAX_ITEMS _ (wf_new_custody l Hl) ltac:(done)) as Hwf.
  pose proof (calls_refine ops HARD_MAX_ITEMS (new_custody l) Hwf ltac:(lia) ltac:(lia) (clamped_ceilings l Hl) Hok Hg) as H.
  destruct (outputs call (new_custody l) ops) as [c os]. apply H.
Qed.

(** ** Ceilings *)

Lemma restore_loop_bounded l now n b g : accounts false l g -> accounts false l (restore_loop l now n b g).
Proof.
  revert b g. induction n as [|n IH]; intros b g Ha; [done|]. cbn. destruct (rd_held b) as [[[[[k who] x] y] r]|]; [|done].
  apply IH. destruct (refused l now g who x y) eqn:E; [done|]. unfold refused in E.
  apply orb_false_iff in E as [[_ ?]%orb_false_iff [? ?]%orb_false_iff]. by apply add_accounts.
Qed.

Lemma restore_bounded buf now c : limits_ok (limits c) -> accounts false (limits c) (inner (restore buf now c)).
Proof.
  intros Hl. cbn. pose proof (accounts_empty false _ Hl). destruct buf as [|v r]; [done|]. destruct (_ || _); [done|].
  by apply restore_loop_bounded.
Qed.

Lemma call_bounded c o :
  ceilings (limits c) -> accounts false (limits c) (inner c) ->
  limits (call c o).1 = limits c /\ accounts false (limits c) (inner (call c o).1).
Proof.
  intros Hl Ha. pose proof (fun P => remove_where_accounts false _ P _ Ha) as Hw.
  destruct o as [id|id|who tag item b now|who tag now|who tag item now|who tag item|now|now|buf now]; cbn [call].
  - done.
  - by split; [|apply Hw].
  - unfold deposit. destruct (check who c); [|done]. destruct (bad_size _ _) eqn:H1; [done|]. rewrite sweep_where. specialize (Hw (expired now)).
    case_bool_decide; [done|]. destruct (over_budget _ _ _ _) eqn:H2; [done|]. destruct (over_total _ _ _) eqn:H3; [done|].
    split; [done|]. by apply add_accounts.
  - unfold list_items. destruct (check who c); [|done]. by split; [|apply Hw].
  - unfold fetch. destruct (check who c); [|done]. by split; [|apply Hw].
  - unfold delete_item. destruct (check who c); [|done]. pose proof (remove_item_accounts false _ (tag, item) _ Ha).
    by destruct (remove (tag, item) (inner c)).
  - unfold sweep_custody. specialize (Hw (expired now)). by rewrite <- sweep_where in Hw; destruct (sweep now (inner c)).
  - unfold restart. cbn [fst]. pose proof (clamped_idem _ Hl) as E.
    pose proof (restore_bounded (snapshot c) now (new_custody (limits c))) as Hr. cbn [limits new_custody] in Hr. rewrite E in Hr.
    split; [exact E|]. apply Hr, Hl.
  - split; [done|]. by apply restore_bounded, Hl.
Qed.

Lemma calls_bounded ops c :
  ceilings (limits c) -> accounts false (limits c) (inner c) ->
  limits (outputs call c ops).1 = limits c /\ accounts false (limits c) (inner (outputs call c ops).1).
Proof.
  revert c. induction ops as [|o ops IH]; intros c Hl Ha; [done|]. cbn. destruct (call_bounded c o Hl Ha) as [E1 A1].
  destruct (call c o) as [c1 a]. cbn in *. rewrite <- E1 in *. specialize (IH c1 Hl A1). by destruct (outputs call c1 ops).
Qed.

(** C36. A holder never keeps more than its limits and the hard ceilings allow, in
    total and per depositor, whatever is called and whatever bytes it is
    restored from. *)
Theorem custody_bounded l ops :
  limits_ok l ->
  let m := items (inner (outputs call (new_custody l) ops).1) in
  Z.of_nat (size m) <= Z.min (max_items l) HARD_MAX_ITEMS /\
  total held_len m <= Z.min (max_total_bytes l) HARD_MAX_TOTAL_BYTES /\
  (forall d, total (one_from d) m <= max_items_per_depositor l /\ total (len_from d) m <= max_bytes_per_depositor l) /\
  map_Forall (fun _ h => 0 < zlen (blob h) <= Z.min (max_item_bytes l) MAX_ITEM_BYTES) m.
Proof.
  intros Hl m. pose proof (clamped_ceilings l Hl) as Hc.
  destruct (calls_bounded ops (new_custody l) Hc (accounts_empty _ _ (proj1 Hc))) as [_ [A1 A2 A3 A4 A5 A6 A7]]. fold m in A1, A2, A3, A4, A6.
  cbn [new_custody limits clamped max_items max_total_bytes max_item_bytes max_items_per_depositor max_bytes_per_depositor] in *. cbn in A1, A2, A3.
  split_and!; [done|lia| |exact A4]. intros d. specialize (A2 d). specialize (A3 d). specialize (A7 d). cbn in A2, A3. lia.
Qed.

(** ** An item is kept until it expires *)

(** A call that does not end the keeping of an item: it does not remove it, its
    depositor stays trusted, and no clock has passed its expiry. *)
Definition spares (k : Key) (who : bytes) (expires : Z) (o : Op) : Prop :=
  match o with
  | OTrust _ => True
  | ORevoke id => id <> who
  | ODelete _ tag item => (tag, item) <> k
  | ODeposit _ _ _ _ now | OList _ _ now | OFetch _ _ _ now | OSweep now | ORestart now => now < expires
  | ORestore _ _ => False
  end.

Lemma find_filter k f xs e : find_key k xs = Some e -> f e = true -> find_key k (List.filter f xs) = Some e.
Proof.
  unfold find_key. intros He Hf. induction xs as [|x xs IH]; [done|]. cbn in *. case_bool_decide as Hk.
  - simplify_eq. rewrite Hf. cbn. by rewrite bool_decide_eq_true_2.
  - destruct (f x); [|by apply IH]. cbn. rewrite bool_decide_eq_false_2 by done. by apply IH.
Qed.

Lemma find_append k xs ys : find_key k (xs ++ ys) = match find_key k xs with Some e => Some e | None => find_key k ys end.
Proof. unfold find_key. induction xs as [|x xs IH]; [done|]. cbn. by case_bool_decide. Qed.

Lemma find_key_eq k xs e : find_key k xs = Some e -> kept_key e = k /\ e ∈ xs.
Proof. unfold find_key. intros [Hin Hk]%find_some. split; [by apply bool_decide_eq_true in Hk|by apply list_elem_of_In]. Qed.

Lemma spec_spares l s o k who x b :
  find_key k (sp_items s) = Some (k, who, x, b) -> spares k who x o ->
  find_key k (sp_items (spec_call l s o).1) = Some (k, who, x, b).
Proof.
  intros Hk Hsp. assert (forall now, now < x -> find_key k (live now (sp_items s)) = Some (k, who, x, b)) as Hlive.
  { intros now Hnow. apply find_filter; [done|]. cbn. lia. }
  destruct o as [id|id|who' tag item b' now|who' tag now|who' tag item now|who' tag item|now|now|buf now]; cbn in *; try done.
  - apply find_filter; [done|]. cbn. by rewrite bool_decide_eq_false_2.
  - destruct (may_use l s who'); [done|]. specialize (Hlive now Hsp). unfold spec_deposit. destruct (_ || _); [done|].
    destruct (find_key (tag, item) (live now (sp_items s))); [done|]. destruct (refusal _ _ _ _); [done|]. cbn [fst sp_items]. by rewrite find_append, Hlive.
  - destruct (may_use l s who'); [done|]. by apply Hlive.
  - destruct (may_use l s who'); [done|]. by apply Hlive.
  - destruct (may_use l s who'); [done|]. apply find_filter; [done|]. cbn. by rewrite bool_decide_eq_false_2.
  - by apply Hlive.
  - by apply Hlive.
Qed.

Lemma specs_spare l ops s k who x b :
  find_key k (sp_items s) = Some (k, who, x, b) -> Forall (spares k who x) ops ->
  find_key k (sp_items (outputs (spec_call l) s ops).1) = Some (k, who, x, b).
Proof.
  intros Hk Hsp. induction Hsp as [|o ops Ho _ IH] in s, Hk |- *; [done|]. cbn. pose proof (spec_spares l s o k who x b Hk Ho) as H1.
  destruct (spec_call l s o) as [s1 a]. specialize (IH s1 H1). by destruct (outputs (spec_call l) s1 ops).
Qed.

(** An item of the store is found, and listed unless older ones fill the list. *)
Lemma held_is_found c reader tag item who x b now :
  ordered (inner c) -> check reader c = Ok tt -> find_key (tag, item) (view (inner c)) = Some ((tag, item), who, x, b) -> now < x ->
  (fetch reader tag item now c).2 = Ok (Some b) /\
  exists ids, (list_items reader tag now c).2 = Ok ids /\ (item ∈ ids \/ length ids = MAX_LIST).
Proof.
  intros Ho Hc Hf Hnow. unfold fetch, list_items. rewrite Hc. cbn [snd]. rewrite listing_view by (rewrite sweep_where; by apply ordered_where).
  rewrite view_sweep by done. assert (find_key (tag, item) (live now (view (inner c))) = Some ((tag, item), who, x, b)) as Hl.
  { apply find_filter; [done|]. cbn. lia. }
  split.
  - pose proof (find_view (sweep now (inner c)).1 (tag, item)) as Hv. rewrite view_sweep, Hl in Hv by done.
    destruct (items _ !! _) as [h|]; [|done]. cbn in Hv. injection Hv as -> -> ->. done.
  - eexists. split; [done|]. apply find_key_eq in Hl as [_ Hin]. set (ids := map _ _).
    assert (item ∈ ids) as Hi.
    { apply list_elem_of_fmap. eexists. split; [|apply list_elem_of_In, filter_In; split; [by apply list_elem_of_In|by apply bool_decide_eq_true_2]]. done. }
    rewrite <- (take_drop MAX_LIST ids) in Hi. apply elem_of_app in Hi as [Hi|Hi]; [by left|right].
    destruct (decide (MAX_LIST <= length ids)%nat); [by apply length_take_le|]. rewrite drop_ge in Hi by lia. by apply elem_of_nil in Hi.
Qed.

Lemma held_has_expired c reader tag item who x b now :
  ordered (inner c) -> check reader c = Ok tt -> find_key (tag, item) (view (inner c)) = Some ((tag, item), who, x, b) -> x <= now ->
  (fetch reader tag item now c).2 = Ok None.
Proof.
  intros Ho Hc Hf Hnow. unfold fetch. rewrite Hc. cbn [snd]. rewrite sweep_where, remove_where_items, map_lookup_filter.
  rewrite find_view in Hf. destruct (items (inner c) !! (tag, item)) as [h|]; [|done]. cbn in *. injection Hf as _ <- _.
  rewrite option_guard_False; [done|]. unfold expired. lia.
Qed.

(** What a holder has stored it keeps: until the item expires, is deleted or
    its depositor is revoked, any trusted contact fetches exactly the bytes that
    were deposited, across other calls and restarts; the listing has it unless
    64 older ones do; from its expiry on it is gone. *)
Theorem custody_keeps l before who tag item b t after reader now :
  limits_ok l -> let ops := before ++ ODeposit who tag item b t :: after in
  Forall op_ok ops -> Forall genuine ops -> zlen ops <= u64_max - HARD_MAX_ITEMS ->
  let x := sat_add u64_max t (ttl_ms (clamped l)) in
  Forall (spares (tag, item) who x) after ->
  let '(c1, r) := deposit who tag item b t (outputs call (new_custody l) before).1 in
  let c := (outputs call c1 after).1 in
  r = Ok Stored -> check reader c = Ok tt ->
  if now <? x
  then (fetch reader tag item now c).2 = Ok (Some b) /\
       exists ids, (list_items reader tag now c).2 = Ok ids /\ (item ∈ ids \/ length ids = MAX_LIST)
  else (fetch reader tag item now c).2 = Ok None.
Proof.
  intros Hl ops Hok Hg Hlen x Hsp. unfold ops in *. apply Forall_app in Hok as [Hok1 [Hd Hok2]%Forall_cons], Hg as [Hg1 [_ Hg2]%Forall_cons].
  rewrite zlen_app, zlen_cons in Hlen. pose proof (zlen_nonneg before). pose proof (zlen_nonneg after).
  pose proof (clamped_ceilings l Hl) as Hc. pose proof (wf_more 0 HARD_MAX_ITEMS _ (wf_new_custody l Hl) ltac:(done)) as W0.
  pose proof (calls_refine before HARD_MAX_ITEMS (new_custody l) W0 ltac:(lia) ltac:(lia) Hc Hok1 Hg1) as R1.
  destruct (outputs call (new_custody l) before) as [c0 os0]. destruct R1 as (W1 & L1 & _). cbn [fst].
  change (limits (new_custody l)) with (clamped l) in *. assert (ceilings (limits c0)) as Hc0 by (by rewrite L1).
  pose proof (deposit_refines _ c0 who tag item b t W1 ltac:(lia) (proj1 Hc0) Hd) as R2.
  destruct (check who c0) as [[]|e] eqn:Hchk; [specialize (R2 eq_refl)|].
  2: { unfold deposit. by rewrite Hchk. }
  destruct (deposit who tag item b t c0) as [c1 r]. destruct R2 as (W2 & L2 & _ & S2). rewrite <- L2 in Hc0.
  pose proof (calls_refine after _ c1 W2 ltac:(lia) ltac:(lia) Hc0 Hok2 Hg2) as R3. cbn zeta. intros -> Hrd.
  assert (find_key (tag, item) (view (inner c1)) = Some ((tag, item), who, x, b)) as Hf.
  { unfold spec_deposit in S2. rewrite L1 in S2. destruct (_ || _); [done|]. destruct (find_key _ _) eqn:E; [done|].
    destruct (refusal _ _ _ _); [done|]. injection S2 as <-. rewrite find_append, E. unfold find_key. cbn. by rewrite bool_decide_eq_true_2. }
  pose proof (specs_spare (limits c1) after (abstract c1) _ _ _ _ Hf Hsp) as Hf'.
  destruct (outputs call c1 after) as [c2 os]. destruct R3 as (W3 & L3 & S3). rewrite S3 in Hf'. cbn in *.
  destruct (Z.ltb_spec now x); [eapply held_is_found|eapply held_has_expired]; eauto; apply W3.
Qed.

(** ** An example *)

Module CustodyDemo.

Definition demo_limits : CustodyLimits := mkLimits true 4 10 3 2 7 1000.
Definition alice : bytes := replicate 32 1.
Definition bob : bytes := replicate 32 2.
Definition tag : bytes := replicate 16 3.
Definition item (n : Z) : bytes := n :: replicate 15 0.

(** Two depositors, a refused stranger, a duplicate, a used-up budget, a
    restart, a fetch and a removal. *)
Definition before : list Op := [ODeposit alice tag (item 1) [7] 0; OTrust alice; OTrust bob; ODeposit bob tag (item 2) [8; 8] 5].
Definition after : list Op :=
  [ODeposit bob tag (item 1) [9] 20; ODeposit alice tag (item 3) [1; 2; 3; 4] 20; ODeposit alice tag (item 4) [1] 20; ORestart 30;
   OTrust bob; OList bob tag 40; ODelete bob tag (item 2); OSweep 50].
Definition day : list Op := before ++ ODeposit alice tag (item 1) [7; 7] 10 :: after.

Lemma demo_limits_ok : limits_ok demo_limits.
Proof. unfold limits_ok. cbn. split_and!; ulia. Qed.

Lemma array_replicate n v : in_u8 v -> array n (replicate n v).
Proof. intros Hv. split; [apply length_replicate|by apply Forall_replicate]. Qed.

Lemma array_item n : in_u8 n -> array 16 (item n).
Proof. intros Hn. split; [done|]. constructor; [done|]. apply Forall_replicate. ulia. Qed.

Lemma day_ok : Forall op_ok day /\ Forall genuine day.
Proof.
  unfold day, before, after. cbn [app]. split; repeat match goal with |- Forall _ (_ :: _) => apply Forall_cons; split | |- Forall _ [] => apply Forall_nil; exact I end;
    try exact I; (split_and!; [apply array_replicate; ulia|apply array_replicate; ulia|apply array_item; ulia| |ulia]);
    repeat constructor; ulia.
Qed.

Lemma custody_refines_witness :
  outputs (spec_call (clamped demo_limits)) (mkSpec ∅ []) day =
    (abstract (outputs call (new_custody demo_limits) day).1, (outputs call (new_custody demo_limits) day).2) /\
  (outputs call (new_custody demo_limits) day).2 =
    [ADeposited (Err NotTrusted); ADone; ADone; ADeposited (Ok Stored); ADeposited (Ok Stored); ADeposited (Ok Duplicate);
     ADeposited (Ok Stored); ADeposited (Err DepositorBudget); ADone; ADone; AListed (Ok [item 2; item 1; item 3]); ADeleted (Ok true); ASwept 0].
Proof.
  split; [|vm_compute; reflexivity].
  pose proof (custody_refines demo_limits day demo_limits_ok (proj1 day_ok) (proj2 day_ok) ltac:(vm_compute; discriminate)) as H.
  destruct (outputs call (new_custody demo_limits) day) as [c a]. exact H.
Defined.

Lemma custody_bounded_witness :
  Z.of_nat (size (items (inner (outputs call (new_custody demo_limits) (day ++ [ORestore [1; 0; 0; 0; 9] 60])).1))) <= 3.
Proof.
  apply (Z.le_trans _ (Z.min (max_items demo_limits) HARD_MAX_ITEMS)); [|vm_compute; discriminate].
  exact (proj1 (custody_bounded demo_limits (day ++ [ORestore [1; 0; 0; 0; 9] 60]) demo_limits_ok)).
Defined.

Lemma custody_keeps_witness :
  let c := (outputs call (deposit alice tag (item 1) [7; 7] 10 (outputs call (new_custody demo_limits) before).1).1 after).1 in
  (fetch bob tag (item 1) 1009 c).2 = Ok (Some [7; 7]).
Proof.
  assert (Forall (spares (tag, item 1) alice (sat_add u64_max 10 (ttl_ms (clamped demo_limits)))) after) as Hsp.
  { change (sat_add u64_max 10 (ttl_ms (clamped demo_limits))) with 1010. unfold after.
    repeat match goal with |- Forall _ (_ :: _) => apply Forall_cons; split | |- Forall _ [] => apply Forall_nil; exact I end;
      try exact I; cbn [spares]; try lia. intros E. injection E. discriminate. }
  pose proof (custody_keeps demo_limits before alice tag (item 1) [7; 7] 10 after bob 1009 demo_limits_ok (proj1 day_ok) (proj2 day_ok)
    ltac:(vm_compute; discriminate) Hsp) as H.
  destruct (deposit alice tag (item 1) [7; 7] 10 (outputs call (new_custody demo_limits) before).1) as [c1 r] eqn:E.
  change (1009 <? _) with true in H. cbv iota zeta in H. refine (proj1 (H _ _)).
  - apply (f_equal snd) in E. vm_compute in E. by rewrite <- E.
  - apply (f_equal fst) in E. cbn [fst] in E. rewrite <- E. vm_compute. reflexivity.
Defined.

End CustodyDemo.
