(* ===== verification/CustodyDisk.v ===== *)
(** * CustodyDisk: the custody store that survives a restart

    Models [DiskCustody] of [chat/mailbox/holder.rs]: the store of [Custody]
    with its snapshot in one sealed document, written after every change until a
    write fails.  A nonce is an argument of each write. *)

From S2P Require Import Prelude Bytes Text Codec ErasureCode Dissolve Disk SealedState SealedLog SealedRewrite Custody CustodyRun.

Record DiskCustody := mkDiskCustody { d_mem : MemoryCustody; d_keys : StateKeys; d_path : bytes; d_off : bool }.

Section Store.
Context `{Crypto} `{StateCipher}.

Definition set_mem (c : MemoryCustody) (d : DiskCustody) : DiskCustody := mkDiskCustody c (d_keys d) (d_path d) (d_off d).

Definition open_custody (l : CustodyLimits) (keys : StateKeys) (path : bytes) (now : Z) : Disk DiskCustody :=
  let mem := new_custody l in
  let* there := exists_file path in
  let* mem :=
    (if (there : bool) then
       let* r := read_document keys ChatCustody path in
       ret (match r with Ok plain => restore plain now mem | Err _ => mem end)
     else ret mem) in
  ret (mkDiskCustody mem keys path false).

Definition persist (nonce : bytes) (d : DiskCustody) : Disk DiskCustody :=
  if d_off d then ret d
  else
    let* r := write_document (d_keys d) ChatCustody (d_path d) (snapshot (d_mem d)) nonce in
    ret (match r with Ok _ => d | Err _ => mkDiskCustody (d_mem d) (d_keys d) (d_path d) true end).

Definition disk_revoke (id nonce : bytes) (d : DiskCustody) : Disk DiskCustody := persist nonce (set_mem (revoke id (d_mem d)) d).

Definition disk_deposit (who tag item b : bytes) (now : Z) (nonce : bytes) (d : DiskCustody) :
  Disk (DiskCustody * result DepositOutcome CustodyError) :=
  let '(c, r) := deposit who tag item b now (d_mem d) in
  let d := set_mem c d in
  match r with
  | Ok Stored => let* d := persist nonce d in ret (d, r)
  | _ => ret (d, r)
  end.

(** What [list] and [fetch] do after the call: save when the sweep dropped
    something. *)
Definition persist_if_fewer (before : Z) (nonce : bytes) (d : DiskCustody) : Disk DiskCustody :=
  if st_items (stats (d_mem d)) =? before then ret d else persist nonce d.

Definition disk_list (who tag : bytes) (now : Z) (nonce : bytes) (d : DiskCustody) :
  Disk (DiskCustody * result (list bytes) CustodyError) :=
  let before := st_items (stats (d_mem d)) in
  let '(c, r) := list_items who tag now (d_mem d) in
  match r with
  | Err _ => ret (set_mem c d, r)
  | Ok _ => let* d := persist_if_fewer before nonce (set_mem c d) in ret (d, r)
  end.

Definition disk_fetch (who tag item : bytes) (now : Z) (nonce : bytes) (d : DiskCustody) :
  Disk (DiskCustody * result (option bytes) CustodyError) :=
  let before := st_items (stats (d_mem d)) in
  let '(c, r) := fetch who tag item now (d_mem d) in
  match r with
  | Err _ => ret (set_mem c d, r)
  | Ok _ => let* d := persist_if_fewer before nonce (set_mem c d) in ret (d, r)
  end.

Definition disk_delete (who tag item nonce : bytes) (d : DiskCustody) : Disk (DiskCustody * result bool CustodyError) :=
  let '(c, r) := delete_item who tag item (d_mem d) in
  let d := set_mem c d in
  match r with
  | Ok true => let* d := persist nonce d in ret (d, r)
  | _ => ret (d, r)
  end.

Definition disk_sweep (now : Z) (nonce : bytes) (d : DiskCustody) : Disk (DiskCustody * Z) :=
  let '(c, n) := sweep_custody now (d_mem d) in
  let d := set_mem c d in
  if 0 <? n then let* d := persist nonce d in ret (d, n) else ret (d, n).

(** A call of the trait, or [revoke]; the restarts of [Op] are not calls. *)
Definition disk_call (d : DiskCustody) (o : Op) (nonce : bytes) : Disk DiskCustody :=
  match o with
  | OTrust id => ret (set_mem (trust id (d_mem d)) d)
  | ORevoke id => disk_revoke id nonce d
  | ODeposit who tag item b now => let* r := disk_deposit who tag item b now nonce d in ret r.1
  | OList who tag now => let* r := disk_list who tag now nonce d in ret r.1
  | OFetch who tag item now => let* r := disk_fetch who tag item now nonce d in ret r.1
  | ODelete who tag item => let* r := disk_delete who tag item nonce d in ret r.1
  | OSweep now => let* r := disk_sweep now nonce d in ret r.1
  | ORestart _ | ORestore _ _ => ret d
  end.

Fixpoint disk_run (d : DiskCustody) (ops : list (Op * bytes)) : Disk DiskCustody :=
  match ops with
  | [] => ret d
  | (o, nonce) :: ops => let* d := disk_call d o nonce in disk_run d ops
  end.

End Store.

(** ** What a restart finds *)

(** A call whose clock is at most [T]. *)
Definition within (T : Z) (o : Op) : Prop :=
  match o with
  | ODeposit _ _ _ _ now | OList _ _ now | OFetch _ _ _ now | OSweep now => now <= T
  | ORestart _ | ORestore _ _ => False
  | _ => True
  end.

Lemma within_genuine T o : within T o -> genuine o.
Proof. by destruct o. Qed.

Section Restart.
Context `{Crypto} `{StateCipher} (Hc : cipher_correct) (Ht : cipher_total) (Hk : hkdf_total).
Context (l : CustodyLimits) (sk path : bytes) (Hl : ceilings l).
Abbreviation keys := (mkKeys (Some sk)).

(** The disk stands for the items [xs]: whenever the store is opened, it holds
    those that have not expired. *)
Definition saved (w : World) (xs : list Kept) : Prop :=
  settled (files w !! path) /\
  forall now, exists c, open_custody l keys path now w = (w, Some (mkDiskCustody c keys path false)) /\
    view (inner c) = live now xs /\ custody_wf HARD_MAX_ITEMS c /\ limits c = l /\ trusted c = ∅.

(** Only the file matters. *)
Lemma open_file w w' now c d :
  files w' !! path = files w !! path -> open_custody l keys path now w = (w, Some (mkDiskCustody c d path false)) ->
  open_custody l keys path now w' = (w', Some (mkDiskCustody c d path false)).
Proof.
  intros E. unfold open_custody, read_document, read_document_as, exists_file, bind, get, ret, lift. cbv zeta. rewrite E.
  destruct (files w !! path) as [f|] eqn:Ew; [rewrite bool_decide_eq_true_2 by done|rewrite bool_decide_eq_false_2 by (by intros [? ?])].
  - rewrite E, Ew. destruct (_ <? zlen (content f)); [by intros [= <- <-]|]. destruct (doc_open _ _ _ _) as [r|]; [|done]. by intros [= <- <-].
  - by intros [= <- <-].
Qed.

Lemma saved_file w w' xs : files w' !! path = files w !! path -> saved w xs -> saved w' xs.
Proof.
  intros E [Hs Ho]. split; [by rewrite E|]. intros now. destruct (Ho now) as (c & H1 & H2). exists c. split; [|done].
  by eapply open_file.
Qed.

Lemma saved_loss keep w xs : saved w xs -> saved (power_loss keep w) xs.
Proof. intros Hs. eapply saved_file; [|done]. apply settled_kept, Hs. Qed.

Lemma new_custody_wf : custody_wf HARD_MAX_ITEMS (new_custody l) /\ limits (new_custody l) = l.
Proof. split; [eapply wf_more; [apply wf_new_custody, Hl|done]|by apply clamped_idem]. Qed.

(** A first start, and a file that cannot be read. *)
Lemma saved_missing w : files w !! path = None -> saved w [].
Proof.
  intros E. split; [by rewrite E|]. intros now. exists (new_custody l).
  unfold open_custody, exists_file, bind, get, ret. rewrite E. destruct new_custody_wf. done.
Qed.

Lemma saved_unreadable w e :
  settled (files w !! path) -> (read_document keys ChatCustody path w).2 = Some (Err e) -> saved w [].
Proof.
  intros Hs Hr. destruct (files w !! path) as [f|] eqn:E; [|by apply saved_missing]. split; [by rewrite E|]. intros now.
  exists (new_custody l). unfold open_custody, exists_file, bind, get, ret. rewrite E. cbn [bool_decide is_Some].
  rewrite bool_decide_eq_true_2 by done. destruct (read_document keys ChatCustody path w) as [w' [r|]] eqn:Er; [|done].
  assert (w' = w) as ->.
  { unfold read_document, read_document_as, bind, get, ret, lift in Er. cbv zeta in Er. rewrite E in Er. destruct (_ <? zlen (content f)); [by injection Er|].
    destruct (doc_open _ _ _ _); by injection Er. }
  cbn in Hr. injection Hr as ->. destruct new_custody_wf. done.
Qed.

(** A snapshot fits into a document. *)
Lemma put_held_length k h : held_shape k h -> zlen (put_held (k, h)) = 76 + held_len h.
Proof.
  intros ([Ht' _] & [Hi _] & [Hw _] & _). unfold put_held, zlen, held_len. cbn. rewrite !length_app, !be_bytes_length, Ht', Hi, Hw.
  unfold zlen. lia.
Qed.

Lemma snapshot_fits n c : custody_wf n c -> limits c = l -> zlen (snapshot c) <= max_document_bytes ChatCustody.
Proof.
  intros [Ha _ Hs _] El. destruct Hl as (_ & _ & Hb & Hm & _). pose proof (ac_max_items _ _ _ Ha) as H1.
  pose proof (ac_bytes _ _ _ Ha) as H2. pose proof (ac_max_bytes _ _ _ Ha) as H3. cbn in H2. rewrite El in *.
  assert (zlen (flat_map put_held (by_order (inner c))) = 76 * zlen (by_order (inner c)) + lsum held_len (by_order (inner c))) as E.
  { assert (Forall (fun x => held_shape x.1 x.2) (by_order (inner c))) as Hf.
    { apply Forall_forall. intros [k h] Hx%by_order_elem. by apply (Hs k h). }
    induction Hf as [|[k h] xs Hx _ IH]; [done|]. cbn [flat_map]. rewrite zlen_app, put_held_length, IH, zlen_cons, lsum_cons by done. cbn [snd]. lia. }
  unfold snapshot. rewrite !zlen_app, E, lsum_total. unfold zlen at 1 2. rewrite be_bytes_length. unfold zlen. rewrite by_order_length.
  unfold HARD_MAX_ITEMS, HARD_MAX_TOTAL_BYTES in *. cbn [length]. change (max_document_bytes ChatCustody) with 16777216. lia.
Qed.

(** A written snapshot stands for the items of the store. *)
Lemma saved_snapshot n c sealed w :
  custody_wf n c -> limits c = l -> doc_open keys ChatCustody path sealed = Ret (Ok (snapshot c)) ->
  length sealed = (DOC_HEADER_LEN + length (snapshot c) + TAG_LEN)%nat ->
  files w !! path = Some (mkFile sealed (length sealed)) -> saved w (view (inner c)).
Proof.
  intros Hwf El Ho Hlen E. split; [by rewrite E|]. intros now. pose proof (snapshot_fits n c Hwf El) as Hfit.
  assert (limits (new_custody l) = limits c) as El' by (rewrite El; apply new_custody_wf).
  destruct (restore_snapshot n c (new_custody l) now Hwf ltac:(by rewrite El) El') as (V & W & L & T).
  exists (restore (snapshot c) now (new_custody l)). split; [|split_and!; [done|done|by rewrite L|done]].
  unfold open_custody, read_document, read_document_as, exists_file, bind, get, ret. cbv zeta. rewrite E.
  rewrite bool_decide_eq_true_2, E by done. cbn [content].
  rewrite (proj2 (Z.ltb_ge _ _)) by (unfold zlen in *; lia). unfold lift. by rewrite Ho.
Qed.

Lemma runs_persist nonce n d w :
  custody_wf n (d_mem d) -> limits (d_mem d) = l -> d_keys d = keys -> d_path d = path -> length nonce = NONCE_LEN -> d_off d = false ->
  runs (persist nonce d) w
    (fun d' w' => d_mem d' = d_mem d /\ d_keys d' = keys /\ d_path d' = path /\
       if d_off d' then files w' !! path = files w !! path else saved w' (view (inner (d_mem d))))
    (fun w' => files w' !! path = files w !! path \/ saved w' (view (inner (d_mem d)))).
Proof.
  intros Hwf El Ek Ep Hn Hoff. unfold persist. rewrite Hoff, Ek, Ep. apply runs_bind. unfold write_document. apply runs_try.
  destruct (doc_seal_opens Hc Ht Hk sk ChatCustody path (snapshot (d_mem d)) nonce (snapshot_fits n _ Hwf El) Hn) as (sealed & Es & Hlen & Ho).
  rewrite Es. cbn [lift]. apply runs_ret. eapply runs_mono; [by apply runs_write_sealed| |].
  - intros [[]|e] w' [Hf _]; apply runs_ret; cbn; rewrite ?Hoff; split_and!; try done. by eapply saved_snapshot.
  - intros w' [[Hf|Hf] _]; [right; by eapply saved_snapshot|by left].
Qed.

(** A call does what it does in memory and saves, or there was nothing to save
    but items that have expired. *)
Lemma unstored_deposit c who tag item b now c' r :
  spec_call (limits c) (abstract c) (ODeposit who tag item b now) = (abstract c', ADeposited r) -> r <> Ok Stored ->
  view (inner c') = view (inner c) \/ view (inner c') = live now (view (inner c)).
Proof.
  intros Heq Hne. assert (view (inner c') = sp_items (spec_call (limits c) (abstract c) (ODeposit who tag item b now)).1) as -> by (by rewrite Heq).
  apply (f_equal snd) in Heq. revert Heq. cbn [spec_call]. destruct (may_use _ _ who); [by left|]. unfold spec_deposit. cbn [abstract sp_items sp_trusted].
  destruct (_ || _); [by left|]. destruct (find_key _ _); [by right|]. destruct (refusal _ _ _ _); [by right|]. by intros [= <-].
Qed.

Lemma bind_persist {A} (x : A) nonce d w :
  bind (bind (persist nonce d) (fun d => ret (d, x))) (fun r => ret r.1) w = persist nonce d w.
Proof. unfold bind. by destruct (persist nonce d w) as [? [?|]]. Qed.

Lemma bind_fewer {A} (x : A) before nonce d :
  let m := bind (bind (persist_if_fewer before nonce d) (fun d => ret (d, x))) (fun r => ret r.1) in
  (forall w, m w = persist nonce d w) \/ (forall w, m w = ret d w).
Proof. cbn. unfold persist_if_fewer. destruct (_ =? _); [by right|left; intros w; apply bind_persist]. Qed.

Lemma disk_call_shape T n d o nonce :
  custody_wf n (d_mem d) -> HARD_MAX_ITEMS <= n < u64_max -> ceilings (limits (d_mem d)) -> op_ok o -> within T o ->
  let c := (call (d_mem d) o).1 in
  (forall w, disk_call d o nonce w = persist nonce (set_mem c d) w) \/
  (forall w, disk_call d o nonce w = ret (set_mem c d) w) /\
  (forall now, T <= now -> live now (view (inner c)) = live now (view (inner (d_mem d)))).
Proof.
  intros Hwf Hn Hcl Hop Hin. pose proof (call_refines n (d_mem d) o Hwf Hn Hcl Hop (within_genuine T o Hin)) as Hr.
  pose proof (wf_ordered _ _ Hwf) as Ho. set (c0 := d_mem d) in *.
  assert (forall now t, now <= T -> T <= t -> live t (view (sweep now (inner c0)).1) = live t (view (inner c0))) as Hsw.
  { intros now t ? ?. rewrite view_sweep by done. apply live_live. lia. }
  destruct o as [id|id|who tag item b now|who tag now|who tag item now|who tag item|now|now|buf now]; cbn [call disk_call within] in *; try done.
  - by right.
  - by left.
  - unfold disk_deposit. fold c0. destruct (deposit who tag item b now c0) as [c r]. cbn [fst]. destruct Hr as (_ & _ & Hr).
    assert (r = Ok Stored \/ r <> Ok Stored) as [->|Hne] by (destruct r as [[]|]; naive_solver); [left; intros w; apply bind_persist|right].
    split; [by destruct r as [[]|]|]. intros t Ht'. destruct (unstored_deposit _ _ _ _ _ _ _ _ Hr Hne) as [->| ->]; [done|]. apply live_live. lia.
  - unfold disk_list, list_items. fold c0. destruct (check who c0); [|by right]. cbn [fst].
    edestruct @bind_fewer as [E|E]; [left; exact E|right]. split; [exact E|]. intros t Ht'. by apply Hsw.
  - unfold disk_fetch, fetch. fold c0. destruct (check who c0); [|by right]. cbn [fst].
    edestruct @bind_fewer as [E|E]; [left; exact E|right]. split; [exact E|]. intros t Ht'. by apply Hsw.
  - unfold disk_delete, delete_item. fold c0. destruct (check who c0); [|by right]. unfold remove.
    destruct (items (inner c0) !! (tag, item)); cbn [fst]; [left; intros w; apply bind_persist|by right].
  - unfold disk_sweep, sweep_custody. fold c0. destruct (sweep now (inner c0)) as [g m] eqn:E. cbn [fst].
    destruct (0 <? m); [left; intros w; apply bind_persist|right]. split; [done|]. intros t Ht'. pose proof (Hsw now t Hin Ht') as Hs.
    by rewrite E in Hs.
Qed.

Lemma runs_ext {S A} (m m' : Prog S A) w Q D : m w = m' w -> runs m' w Q D -> runs m w Q D.
Proof. unfold runs. by intros ->. Qed.

Lemma outputs_cons {S I O} (f : S -> I -> S * O) s i is_ : (outputs f s (i :: is_)).1 = (outputs f (f s i).1 is_).1.
Proof. cbn. destruct (f s i) as [s1 o]. cbn. by destruct (outputs f s1 is_). Qed.

(** The items of the store after the first [k] calls; a disk that stands for
    them from the time [T] on. *)
Definition at_call (c : MemoryCustody) (ops : list (Op * bytes)) (k : nat) : list Kept := view (inner (outputs call c (take k ops.*1)).1).
Definition stands (T : Z) (c : MemoryCustody) (ops : list (Op * bytes)) (zs : list Kept) (k : nat) : Prop :=
  (k <= length ops)%nat /\ forall now, T <= now -> live now zs = live now (at_call c ops k).

Lemma stands_next T c o ops zs k : stands T (call c o.1).1 ops zs k -> stands T c (o :: ops) zs (S k).
Proof. intros [Hle Hs]. split; [cbn; lia|]. intros now Hnow. rewrite Hs by done. unfold at_call. rewrite fmap_cons. cbn [take]. by rewrite outputs_cons. Qed.

(** What a run of calls leaves on the disk: the items of some moment of the run,
    and of its end when every write succeeded. *)
Definition left_on_disk T c ops ys w := exists zs, saved w zs /\ (zs = ys \/ exists k, stands T c ops zs k).
Definition left_running T c ops ys (d : DiskCustody) w :=
  exists zs, saved w zs /\ (zs = ys \/ exists k, stands T c ops zs k) /\ d_mem d = (outputs call c ops.*1).1 /\
    (d_off d = false -> stands T c ops zs (length ops)).

Lemma left_next T c o ops ys zs :
  (zs = ys \/ stands T c (o :: ops) zs 1) ->
  (forall w, left_on_disk T (call c o.1).1 ops zs w -> left_on_disk T c (o :: ops) ys w) /\
  (forall d w, left_running T (call c o.1).1 ops zs d w -> left_running T c (o :: ops) ys d w).
Proof.
  intros Hz. assert (forall us, us = zs \/ (exists k, stands T (call c o.1).1 ops us k) -> us = ys \/ exists k, stands T c (o :: ops) us k) as Hus.
  { intros us [->|[k Hs]]; [destruct Hz as [->|Hz]; [by left|right; by exists 1%nat]|right]. exists (S k). by apply stands_next. }
  split.
  - intros w (us & Hs & Hu). exists us. auto.
  - intros d w (us & Hs & Hu & Hm & Hoff). exists us. split_and!; [done|auto| |].
    + by rewrite fmap_cons, outputs_cons.
    + intros Ho. cbn [length]. by apply stands_next, Hoff.
Qed.

Lemma disk_run_saves T ops n d w ys :
  custody_wf n (d_mem d) -> HARD_MAX_ITEMS <= n -> n + zlen ops <= u64_max -> limits (d_mem d) = l -> d_keys d = keys -> d_path d = path ->
  Forall (fun o => op_ok o.1 /\ within T o.1 /\ length o.2 = NONCE_LEN) ops ->
  saved w ys -> (d_off d = false -> forall now, T <= now -> live now ys = live now (view (inner (d_mem d)))) ->
  runs (disk_run d ops) w (left_running T (d_mem d) ops ys) (left_on_disk T (d_mem d) ops ys).
Proof.
  intros Hwf Hn Hlen El Ek Ep Hops. induction Hops as [|[o nonce] ops (Ho & Hw & Hnn) Hops IH] in n, d, w, ys, Hwf, Hn, Hlen, El, Ek, Ep |- *;
    intros Hs Heq.
  { cbn [disk_run]. apply runs_ret. exists ys. split_and!; [done|by left|done|]. intros Hoff. split; [done|]. by apply Heq. }
  rewrite zlen_cons in Hlen. pose proof (zlen_nonneg ops). cbn [fst snd disk_run] in *.
  assert (ceilings (limits (d_mem d))) as Hcl by (by rewrite El).
  pose proof (call_refines n (d_mem d) o Hwf ltac:(lia) Hcl Ho (within_genuine T o Hw)) as Hr.
  pose proof (disk_call_shape T n d o nonce Hwf ltac:(lia) Hcl Ho Hw) as Hsh. cbv zeta in Hsh.
  destruct (call (d_mem d) o) as [c a] eqn:Ec. cbn [fst] in Hsh. destruct Hr as (Hwf' & El' & _). rewrite El in El'.
  assert (at_call (d_mem d) ((o, nonce) :: ops) 1 = view (inner c)) as Hat.
  { unfold at_call. rewrite fmap_cons. cbn [take fst]. rewrite outputs_cons, Ec. by rewrite take_0. }
  assert (forall d1 w1 zs, d_mem d1 = c -> d_keys d1 = keys -> d_path d1 = path -> saved w1 zs -> zs = ys \/ zs = view (inner c) ->
    (d_off d1 = false -> forall now, T <= now -> live now zs = live now (view (inner c))) ->
    runs (disk_run d1 ops) w1 (left_running T (d_mem d) ((o, nonce) :: ops) ys) (left_on_disk T (d_mem d) ((o, nonce) :: ops) ys)) as Hgo.
  { intros d1 w1 zs E1 E2 E3 Hs1 Hz Hoff1. rewrite <- E1 in *.
    destruct (left_next T (d_mem d) (o, nonce) ops ys zs) as [L1 L2].
    { destruct Hz as [->| ->]; [by left|right]. split; [cbn; lia|]. by rewrite Hat. }
    cbn [fst] in L1, L2. rewrite Ec in L1, L2. cbn [fst] in L1, L2.
    eapply runs_mono; [apply (IH (n + 1) d1 w1 zs); auto; lia|exact L2|exact L1]. }
  apply runs_bind. destruct Hsh as [Hsh|[Hsh Hlive]]; (eapply runs_ext; [apply Hsh|]).
  - destruct (d_off d) eqn:Hoff.
    + unfold persist. cbn [set_mem d_off]. rewrite Hoff. apply runs_ret. apply (Hgo _ w ys); auto. cbn. by rewrite Hoff.
    + eapply runs_mono; [apply (runs_persist nonce (n + 1) (set_mem c d) w); auto| |]; cbn [set_mem d_mem].
      * intros d1 w1 (E1 & E2 & E3 & E4). destruct (d_off d1) eqn:Hoff1.
        -- apply (Hgo d1 w1 ys); auto; [by eapply saved_file|congruence].
        -- apply (Hgo d1 w1 (view (inner c))); auto.
      * intros w1 [E|Hs1]; [exists ys; split; [by eapply saved_file|by left]|]. exists (view (inner c)). split; [done|right].
        exists 1%nat. split; [cbn; lia|]. by rewrite Hat.
  - apply runs_ret. apply (Hgo _ w ys); auto. cbn. intros Hoff now Hnow. by rewrite Heq, Hlive.
Qed.

(** C19. A holder that restarts finds what it kept.  From a disk that stands for
    some items, opening gives the unexpired ones; after any calls, with failing
    writes, a death of the process and a loss of power at any point, the disk
    stands for the items of some moment of the run, and for those at its end
    when no write failed. *)
Theorem custody_survives w0 xs t0 ops T keep :
  saved w0 xs -> t0 <= T -> Forall (fun o => op_ok o.1 /\ within T o.1 /\ length o.2 = NONCE_LEN) ops ->
  zlen ops <= u64_max - HARD_MAX_ITEMS ->
  exists d0, open_custody l keys path t0 w0 = (w0, Some d0) /\ view (inner (d_mem d0)) = live t0 xs /\
  let '(w, r) := disk_run d0 ops w0 in
  exists ys, saved (power_loss keep w) ys /\ (exists k, stands T (d_mem d0) ops ys k) /\
    match r with
    | Some d => d_mem d = (outputs call (d_mem d0) ops.*1).1 /\ (d_off d = false -> stands T (d_mem d0) ops ys (length ops))
    | None => True
    end.
Proof.
  intros Hs Ht0 Hops Hlen. destruct (proj2 Hs t0) as (c & Ho & Hv & Hwf & El & _). eexists. split_and!; [exact Ho|exact Hv|]. cbn [d_mem].
  assert (forall zs, zs = xs \/ (exists k, stands T c ops zs k) -> exists k, stands T c ops zs k) as Hk0.
  { intros zs [->|Hz]; [|done]. exists 0%nat. split; [lia|]. intros now Hnow. unfold at_call. rewrite take_0. cbn [outputs fst]. by rewrite Hv, live_live by lia. }
  pose proof (disk_run_saves T ops HARD_MAX_ITEMS (mkDiskCustody c keys path false) w0 xs) as Hr. cbn [d_mem d_keys d_path d_off] in Hr.
  specialize (Hr Hwf ltac:(lia) ltac:(lia) El eq_refl eq_refl Hops Hs). unfold runs in Hr.
  destruct (disk_run (mkDiskCustody c keys path false) ops w0) as [w [d|]].
  - destruct Hr as (zs & Hz & Hk1 & Hm & Hoff); [intros _ now Hnow; rewrite Hv, live_live by lia; done|].
    exists zs. split_and!; [by apply saved_loss|by apply Hk0|done|done].
  - destruct Hr as (zs & Hz & Hk1); [intros _ now Hnow; rewrite Hv, live_live by lia; done|].
    exists zs. split_and!; [by apply saved_loss|by apply Hk0|done].
Qed.

End Restart.

(** ** An example *)

Module CustodyDiskDemo.
Import LogDemo CustodyDemo.
Existing Instances toy_keys toy_cipher.

Definition file : bytes := lit "custody".

(** Two deposits are saved; the process dies while the third is. *)
Definition ops : list (Op * bytes) :=
  [(OTrust alice, nonce 1); (ODeposit alice tag (item 1) [7; 7] 10, nonce 2); (ODeposit alice tag (item 2) [8] 20, nonce 3);
   (ODeposit alice tag (item 3) [9] 30, nonce 4)].
Definition w0 : World := mkWorld ∅ [Fine; Fine; Fine; Fine; Fine; Fine; Dies 9].

Definition found (now : Z) (w : World) : option (list Kept) :=
  (fun d => view (inner (d_mem d))) <$> (open_custody (clamped demo_limits) keys file now w).2.

Lemma ops_fine : Forall (fun o => op_ok o.1 /\ within 30 o.1 /\ length o.2 = NONCE_LEN) ops.
Proof.
  unfold ops. repeat match goal with |- Forall _ (_ :: _) => apply Forall_cons; split | |- Forall _ [] => apply Forall_nil; exact I end;
    (split_and!; [|cbn [fst within]; lia || exact I|reflexivity]); cbn [fst op_ok]; try exact I;
    (split_and!; [apply array_replicate; ulia|apply array_replicate; ulia|apply array_item; ulia| |ulia]); repeat constructor; ulia.
Qed.

Lemma custody_survives_witness :
  let w := (disk_run (mkDiskCustody (new_custody (clamped demo_limits)) keys file false) ops w0).1 in
  found 40 (power_loss (fun _ => 0%nat) w) = Some [((tag, item 1), alice, 1010, [7; 7]); ((tag, item 2), alice, 1020, [8])] /\
  exists ys k, saved (clamped demo_limits) sk file (power_loss (fun _ => 0%nat) w) ys /\
    stands 30 (new_custody (clamped demo_limits)) ops ys k.
Proof.
  split; [vm_compute; reflexivity|]. pose proof (clamped_ceilings _ demo_limits_ok) as Hl.
  pose proof (custody_survives toy_correct toy_total toy_hkdf (clamped demo_limits) sk file Hl w0 [] 0 ops 30 (fun _ => 0%nat)) as H.
  destruct H as (d0 & Ho & _ & H).
  - apply saved_missing; [exact Hl|reflexivity].
  - lia.
  - exact ops_fine.
  - vm_compute. discriminate.
  - assert (d0 = mkDiskCustody (new_custody (clamped demo_limits)) keys file false) as -> by (vm_compute in Ho; by injection Ho as <-).
    destruct (disk_run _ ops w0) as [w r]. destruct H as (ys & Hs & [k Hk] & _). exists ys, k. by split.
Defined.

End CustodyDiskDemo.
