(* ===== verification/MailboxWire.v ===== *)
(** * MailboxWire: names and frames of the custody verbs

    Models [chat/mailbox/ids.rs] and [chat/mailbox/wire.rs]: the tag a recipient
    is known by to a holder, the id of an item, and the frames of requests and
    answers.  A stream is the list of bytes that arrive on it; reading past its
    end is an i/o error.  The decoders leave bytes after the last field of a
    body unread, as the source does. *)

From S2P Require Import Prelude Bytes Text Codec ErasureCode Dissolve Disk SealedState Ratchet Custody.

(** ** Names *)

Definition TAG_CONTEXT : bytes := lit "miasma chat custody recipient tag v1".
Definition GROUP_TAG_CONTEXT : bytes := lit "miasma chat custody group recipient tag v1".
Definition DIRECTED_TAG_CONTEXT : bytes := lit "miasma directed invite custody recipient tag v1".

Section Names.
Context `{Crypto}.
Definition for_recipient (recipient : bytes) : bytes := take 16 (blake3_derive TAG_CONTEXT recipient).
Definition for_group_recipient (recipient : bytes) : bytes := take 16 (blake3_derive GROUP_TAG_CONTEXT recipient).
Definition for_directed_recipient (recipient : bytes) : bytes := take 16 (blake3_derive DIRECTED_TAG_CONTEXT recipient).
End Names.

Definition item_id_of (wire : bytes) : option bytes :=
  match env_decode wire with Ok e => Some (env_id e) | Err _ => None end.

Definition item_id_for_directed (envelope_id : bytes) : bytes := take 16 envelope_id.

(** ** Frames *)

Definition CUSTODY_STREAM_TAG : Z := 192.
Definition REQ_DEPOSIT : Z := 32.
Definition REQ_LIST : Z := 33.
Definition REQ_FETCH : Z := 34.
Definition REQ_DELETE : Z := 35.
Definition RSP_DEPOSIT_OK : Z := 48.
Definition RSP_LISTING : Z := 49.
Definition RSP_ITEM : Z := 50.
Definition RSP_DELETED : Z := 51.
Definition RSP_REFUSED : Z := 63.
Definition MAX_CUSTODY_BODY : Z := 1 + 16 + 16 + 4 + MAX_ITEM_BYTES.

Inductive WireError := WIo | WBadLength (n : Z) | WBadType (t : Z) | WMalformed (what : bytes).

Inductive Request :=
| RDeposit (tag item blob : bytes)
| RList (tag : bytes) (now_ms : Z)
| RFetch (tag item : bytes) (now_ms : Z)
| RDelete (tag item : bytes).

Inductive Response :=
| Deposited (o : DepositOutcome)
| Listing (ids : list bytes)
| Item (blob : option bytes)
| Deleted (b : bool)
| Refused (e : CustodyError).

Definition error_code (e : CustodyError) : Z :=
  match e with Disabled => 1 | NotTrusted => 2 | TooBig => 3 | Full => 4 | DepositorBudget => 5 end.

Definition error_from_code (c : Z) : option CustodyError :=
  if c =? 1 then Some Disabled else if c =? 2 then Some NotTrusted else if c =? 3 then Some TooBig
  else if c =? 4 then Some Full else if c =? 5 then Some DepositorBudget else None.

Definition frame (ty : Z) (payload : bytes) : bytes := be_bytes 4 ((zlen payload + 1) mod 4294967296) ++ [ty] ++ payload.

Definition encode_request (r : Request) : bytes :=
  match r with
  | RDeposit tag item blob => frame REQ_DEPOSIT (tag ++ item ++ be_bytes 4 (zlen blob mod 4294967296) ++ blob)
  | RList tag now => frame REQ_LIST (tag ++ be_bytes 8 now)
  | RFetch tag item now => frame REQ_FETCH (tag ++ item ++ be_bytes 8 now)
  | RDelete tag item => frame REQ_DELETE (tag ++ item)
  end.

Definition encode_response (r : Response) : bytes :=
  match r with
  | Deposited o => frame RSP_DEPOSIT_OK [match o with Stored => 0 | Duplicate => 1 end]
  | Listing ids => let ids := take MAX_LIST ids in frame RSP_LISTING (be_bytes 2 (zlen ids mod 65536) ++ concat ids)
  | Item (Some b) => frame RSP_ITEM (1 :: b)
  | Item None => frame RSP_ITEM [0]
  | Deleted b => frame RSP_DELETED [Z.b2z b]
  | Refused e => frame RSP_REFUSED [error_code e]
  end.

Definition decode_body_request (body : bytes) : result Request WireError :=
  let bad := WMalformed (lit "request") in
  match body with
  | [] => Err (WBadLength 0)
  | ty :: b =>
    if ty =? REQ_DEPOSIT then
      let? (tag, b) := ok_or (rd 16 b) bad in
      let? (item, b) := ok_or (rd 16 b) bad in
      let? (n, b) := ok_or (rd_int 4 b) bad in
      if MAX_ITEM_BYTES <? n then Err (WMalformed (lit "deposit size"))
      else let? (blob, b) := ok_or (rd (Z.to_nat n) b) bad in Ok (RDeposit tag item blob)
    else if ty =? REQ_LIST then
      let? (tag, b) := ok_or (rd 16 b) bad in
      let? (now, b) := ok_or (rd_int 8 b) bad in Ok (RList tag now)
    else if ty =? REQ_FETCH then
      let? (tag, b) := ok_or (rd 16 b) bad in
      let? (item, b) := ok_or (rd 16 b) bad in
      let? (now, b) := ok_or (rd_int 8 b) bad in Ok (RFetch tag item now)
    else if ty =? REQ_DELETE then
      let? (tag, b) := ok_or (rd 16 b) bad in
      let? (item, b) := ok_or (rd 16 b) bad in Ok (RDelete tag item)
    else Err (WBadType ty)
  end.

Definition decode_body_response (body : bytes) : result Response WireError :=
  let bad := WMalformed (lit "response") in
  match body with
  | [] => Err (WBadLength 0)
  | ty :: payload =>
    if ty =? RSP_DEPOSIT_OK then
      let? (o, _) := ok_or (rd_u8 payload) bad in
      if o =? 0 then Ok (Deposited Stored) else if o =? 1 then Ok (Deposited Duplicate)
      else Err (WMalformed (lit "deposit outcome"))
    else if ty =? RSP_LISTING then
      let? (n, b) := ok_or (rd_int 2 payload) bad in
      if Z.of_nat MAX_LIST <? n then Err (WMalformed (lit "listing count"))
      else let? (ids, b) := ok_or (rd_list (rd 16) (Z.to_nat n) b) bad in Ok (Listing ids)
    else if ty =? RSP_ITEM then
      let? (p, b) := ok_or (rd_u8 payload) bad in
      if p =? 0 then Ok (Item None) else if p =? 1 then Ok (Item (Some b)) else Err (WMalformed (lit "item present"))
    else if ty =? RSP_DELETED then
      let? (p, _) := ok_or (rd_u8 payload) bad in Ok (Deleted (negb (p =? 0)))
    else if ty =? RSP_REFUSED then
      let? (p, _) := ok_or (rd_u8 payload) bad in
      let? e := ok_or (error_from_code p) (WMalformed (lit "refusal reason")) in Ok (Refused e)
    else Err (WBadType ty)
  end.

(** The body of the frame at the front of a buffer, and the bytes it took. *)
Definition split_frame (b : bytes) : result (bytes * Z) WireError :=
  if (length b <? 4)%nat then Err (WBadLength (zlen b))
  else
    let len := from_be (take 4 b) in
    if (len =? 0) || (MAX_CUSTODY_BODY <? len) then Err (WBadLength len)
    else if zlen b <? 4 + len then Err (WBadLength (zlen b))
    else Ok (take (Z.to_nat len) (drop 4 b), 4 + len).

Definition decode_request (b : bytes) : result (Request * Z) WireError :=
  let? (body, used) := split_frame b in let? r := decode_body_request body in Ok (r, used).

Definition decode_response (b : bytes) : result (Response * Z) WireError :=
  let? (body, used) := split_frame b in let? r := decode_body_response body in Ok (r, used).

(** A frame from a stream. *)
Definition read_frame (s : bytes) : result bytes WireError :=
  let? (lenb, s) := ok_or (rd 4 s) WIo in
  let len := from_be lenb in
  if (len =? 0) || (MAX_CUSTODY_BODY <? len) then Err (WBadLength len)
  else let? (body, s) := ok_or (rd (Z.to_nat len) s) WIo in Ok body.

Definition read_request (s : bytes) : result Request WireError := let? body := read_frame s in decode_body_request body.
Definition read_response (s : bytes) : result Response WireError := let? body := read_frame s in decode_body_response body.

(** ** Frames read back *)

Definition request_wf (r : Request) : Prop :=
  match r with
  | RDeposit tag item blob => array 16 tag /\ array 16 item /\ bytes_ok blob /\ zlen blob <= MAX_ITEM_BYTES
  | RList tag now => array 16 tag /\ in_u64 now
  | RFetch tag item now => array 16 tag /\ array 16 item /\ in_u64 now
  | RDelete tag item => array 16 tag /\ array 16 item
  end.

Definition response_wf (r : Response) : Prop :=
  match r with
  | Listing ids => Forall (array 16) ids
  | Item (Some b) => bytes_ok b /\ zlen b <= MAX_ITEM_BYTES
  | _ => True
  end.

(** What the answer to a request carries: at most [MAX_LIST] ids. *)
Definition trimmed (r : Response) : Response := match r with Listing ids => Listing (take MAX_LIST ids) | _ => r end.

Lemma frame_length ty p : zlen (frame ty p) = 5 + zlen p.
Proof. unfold frame. rewrite !zlen_app. unfold zlen at 1. rewrite be_bytes_length. unfold zlen. cbn [length]. lia. Qed.

Lemma frame_reads ty p r :
  zlen p + 1 <= MAX_CUSTODY_BODY ->
  read_frame (frame ty p ++ r) = Ok (ty :: p) /\ split_frame (frame ty p ++ r) = Ok (ty :: p, zlen (frame ty p)).
Proof.
  intros Hp. pose proof (zlen_nonneg p). rewrite frame_length. unfold MAX_CUSTODY_BODY, MAX_ITEM_BYTES, MAX_FRAME_BODY in *.
  unfold frame. rewrite Z.mod_small by lia. rewrite <- !app_assoc. set (hd := be_bytes 4 _).
  assert (length hd = 4%nat) as Hl by apply be_bytes_length.
  assert (from_be hd = zlen p + 1) as Hv by (apply from_be_be; change (256 ^ Z.of_nat 4) with 4294967296; lia).
  assert (Z.to_nat (zlen p + 1) = length (ty :: p)) as Hn by (unfold zlen; cbn; lia). split.
  - unfold read_frame. rewrite rd_app by done. cbn [ok_or result_bind]. rewrite Hv, (proj2 (Z.eqb_neq _ _)) by lia.
    unfold MAX_CUSTODY_BODY, MAX_ITEM_BYTES, MAX_FRAME_BODY. rewrite (proj2 (Z.ltb_ge _ _)) by lia. cbn [orb].
    change ([ty] ++ p ++ r) with ((ty :: p) ++ r). by rewrite rd_app.
  - unfold split_frame. rewrite (proj2 (Nat.ltb_ge _ _)) by (rewrite length_app; lia). rewrite take_app_length', drop_app_length' by done.
    rewrite Hv, (proj2 (Z.eqb_neq _ _)) by lia. unfold MAX_CUSTODY_BODY, MAX_ITEM_BYTES, MAX_FRAME_BODY.
    rewrite !(proj2 (Z.ltb_ge _ _)) by (rewrite ?zlen_app; unfold zlen in *; cbn [length] in *; lia). cbn [orb].
    change ([ty] ++ p ++ r) with ((ty :: p) ++ r). rewrite Hn, take_app_length. do 2 f_equal. lia.
Qed.

Lemma array_len n b : array n b -> length b = n.
Proof. by intros []. Qed.
#[local] Hint Resolve array_len : core.

Lemma rd_exact n b : length b = n -> rd n b = Some (b, []).
Proof. intros Hn. rewrite <- (app_nil_r b) at 1. by apply rd_app. Qed.

Lemma custody_request_reads q r :
  request_wf q ->
  read_request (encode_request q ++ r) = Ok q /\ decode_request (encode_request q ++ r) = Ok (q, zlen (encode_request q)).
Proof.
  intros Hwf. assert (exists ty p, encode_request q = frame ty p /\ zlen p + 1 <= MAX_CUSTODY_BODY /\ decode_body_request (ty :: p) = Ok q)
    as (ty & p & -> & Hp & Hd).
  { unfold MAX_CUSTODY_BODY, zlen. destruct q as [tag item blob|tag now|tag item now|tag item]; cbn [request_wf encode_request] in *;
      eexists _, _; (split; [reflexivity|]); cbn [decode_body_request Z.eqb Pos.eqb REQ_DEPOSIT REQ_LIST REQ_FETCH REQ_DELETE].
    - destruct Hwf as (Ht & Hi & Hb & Hl). unfold MAX_ITEM_BYTES, MAX_FRAME_BODY in *. pose proof (zlen_nonneg blob).
      rewrite Z.mod_small by lia. rewrite !length_app, be_bytes_length, (array_len _ _ Ht), (array_len _ _ Hi). unfold zlen in *. split; [lia|].
      rewrite rd_app by auto. cbn [ok_or result_bind]. rewrite rd_app by auto. cbn [ok_or result_bind]. rewrite rd_u32_app by ulia. cbn [ok_or result_bind].
      unfold MAX_ITEM_BYTES, MAX_FRAME_BODY. rewrite (proj2 (Z.ltb_ge _ _)) by lia. fold (zlen blob). by rewrite rd_all.
    - destruct Hwf as (Ht & Hn). rewrite !length_app, be_bytes_length, (array_len _ _ Ht). split; [unfold MAX_ITEM_BYTES, MAX_FRAME_BODY; lia|].
      rewrite rd_app by auto. cbn [ok_or result_bind]. by rewrite <- (app_nil_r (be_bytes 8 now)), rd_u64_app.
    - destruct Hwf as (Ht & Hi & Hn). rewrite !length_app, be_bytes_length, (array_len _ _ Ht), (array_len _ _ Hi). split; [unfold MAX_ITEM_BYTES, MAX_FRAME_BODY; lia|].
      rewrite rd_app by auto. cbn [ok_or result_bind]. rewrite rd_app by auto. cbn [ok_or result_bind]. by rewrite <- (app_nil_r (be_bytes 8 now)), rd_u64_app.
    - destruct Hwf as (Ht & Hi). rewrite !length_app, (array_len _ _ Ht), (array_len _ _ Hi). split; [unfold MAX_ITEM_BYTES, MAX_FRAME_BODY; lia|].
      rewrite rd_app by auto. cbn [ok_or result_bind]. by rewrite rd_exact by auto. }
  destruct (frame_reads ty p r Hp) as [H1 H2]. unfold read_request, decode_request. rewrite H1, H2. cbn [result_bind]. by rewrite Hd.
Qed.

Lemma concat_length (ids : list bytes) : Forall (array 16) ids -> zlen (concat ids) = 16 * zlen ids.
Proof. induction 1 as [|x ids Hx _ IH]; [done|]. cbn [concat]. rewrite zlen_app, IH, zlen_cons. unfold zlen at 1. rewrite (array_len _ _ Hx). lia. Qed.

Lemma custody_response_reads a r :
  response_wf a ->
  read_response (encode_response a ++ r) = Ok (trimmed a) /\ decode_response (encode_response a ++ r) = Ok (trimmed a, zlen (encode_response a)).
Proof.
  intros Hwf. assert (exists ty p, encode_response a = frame ty p /\ zlen p + 1 <= MAX_CUSTODY_BODY /\ decode_body_response (ty :: p) = Ok (trimmed a))
    as (ty & p & -> & Hp & Hd).
  { destruct a as [o|ids|[b|]|b|e]; cbn [response_wf encode_response trimmed] in *; eexists _, _; (split; [reflexivity|]).
    - by destruct o.
    - assert (Forall (array 16) (take MAX_LIST ids)) as Ht by (by apply Forall_take).
      assert (0 <= zlen (take MAX_LIST ids) <= 64) as Hl by (unfold zlen; rewrite length_take; unfold MAX_LIST; lia).
      assert (forall v, zlen (be_bytes 2 v) = 2) as H2 by (intros v; unfold zlen; by rewrite be_bytes_length).
      rewrite zlen_app, H2, concat_length, Z.mod_small by (done || lia).
      split; [unfold MAX_CUSTODY_BODY, MAX_ITEM_BYTES, MAX_FRAME_BODY; lia|].
      cbn [decode_body_response Z.eqb Pos.eqb RSP_DEPOSIT_OK RSP_LISTING]. rewrite rd_u16_app by ulia. cbn [ok_or result_bind].
      change (Z.of_nat MAX_LIST) with 64. rewrite (proj2 (Z.ltb_ge _ _)) by lia. rewrite <- (app_nil_r (concat _)), <- flat_map_id.
      rewrite (rd_list_app _ _ (array 16)); [done| |done|unfold zlen; lia]. intros x b' Hx. by apply rd_app, array_len.
    - destruct Hwf as [Hb Hl]. rewrite zlen_cons. unfold MAX_CUSTODY_BODY. split; [lia|done].
    - done.
    - by destruct b.
    - by destruct e. }
  destruct (frame_reads ty p r Hp) as [H1 H2]. unfold read_response, decode_response. rewrite H1, H2. cbn [result_bind]. by rewrite Hd.
Qed.

(** What is written on a custody stream is what the other side reads, whatever
    follows it: every request of a client, and every answer of a holder, of
    which a listing carries the first 64 ids. *)
Theorem custody_frames_roundtrip q a r :
  request_wf q -> response_wf a ->
  read_request (encode_request q ++ r) = Ok q /\ decode_request (encode_request q ++ r) = Ok (q, zlen (encode_request q)) /\
  read_response (encode_response a ++ r) = Ok (trimmed a) /\ decode_response (encode_response a ++ r) = Ok (trimmed a, zlen (encode_response a)).
Proof. intros Hq Ha. destruct (custody_request_reads q r Hq), (custody_response_reads a r Ha). done. Qed.

Lemma custody_frames_roundtrip_witness :
  read_request (encode_request (RDeposit (replicate 16 1) (replicate 16 2) [7; 8]) ++ [9]) = Ok (RDeposit (replicate 16 1) (replicate 16 2) [7; 8]) /\
  read_response (encode_response (Item (Some [5])) ++ [9]) = Ok (Item (Some [5])).
Proof.
  destruct (custody_frames_roundtrip (RDeposit (replicate 16 1) (replicate 16 2) [7; 8]) (Item (Some [5])) [9]) as (H1 & _ & H2 & _).
  - split_and!; [split; [done|by apply bytes_check]|split; [done|by apply bytes_check]|by apply bytes_check|vm_compute; discriminate].
  - split; [by apply bytes_check|vm_compute; discriminate].
  - by split.
Defined.
