(* ===== verification/Mailbox.v ===== *)
(** * Mailbox: leaving copies with holders and collecting them

    Models [chat/mailbox/client.rs] over any transport, the transport of
    [chat/mailbox/transport.rs] as one exchange of frames with a holder, and the
    part of [chat/service.rs] that answers the custody verbs, leaves a copy of a
    message and collects.  A transport is a state with four verbs; the receiver
    of a collection ([take]) has a state of its own.  The store of a node is the
    one in memory; the one on disk gives the same answers ([CustodyDisk]).  A
    link may be down, or lose the answer after the holder has acted; timeouts
    are among these. *)

From S2P Require Import Prelude Bytes Text Codec ErasureCode Dissolve Disk SealedState Ratchet Custody CustodyRun MailboxWire.

(** ** The client *)

Definition MAX_COLLECT : nat := 128.

Inductive MailboxError := Unreachable | RefusedBy (e : CustodyError).

Class MailboxTransport (S : Type) := {
  tr_deposit (holder tag item blob : bytes) (now : Z) : S -> S * result DepositOutcome MailboxError;
  tr_list (holder tag : bytes) (now : Z) : S -> S * result (list bytes) MailboxError;
  tr_fetch (holder tag item : bytes) (now : Z) : S -> S * result (option bytes) MailboxError;
  tr_delete (holder tag item : bytes) : S -> S * result bool MailboxError;
}.

Record DepositReport := mkDepositReport { held_by : list bytes; failed : list (bytes * MailboxError) }.
Record CollectReport := mkCollectReport { offered : Z; taken : Z; repeated : Z; unreachable : Z }.

(** [MailboxClient::new]: the number of copies. *)
Definition client_copies (copies : nat) : nat := Nat.min (Nat.max copies 1) 8.

(** What a collection has seen so far. *)
Record Collecting (S R : Type) := mkCollecting {
  co_report : CollectReport; co_seen : gset bytes; co_taken : gset bytes; co_delete : list (bytes * bytes); co_net : S; co_recv : R;
}.
Arguments mkCollecting {S R}.
Arguments co_report {S R}.
Arguments co_seen {S R}.
Arguments co_taken {S R}.
Arguments co_delete {S R}.
Arguments co_net {S R}.
Arguments co_recv {S R}.

Section Client.
Context {S : Type} `{MailboxTransport S} `{Crypto}.

Fixpoint deposit_loop (copies : nat) (recipient tag item blob : bytes) (now : Z) (holders : list bytes) (rep : DepositReport) (s : S) :
  S * DepositReport :=
  match holders with
  | [] => (s, rep)
  | h :: hs =>
    if bool_decide (h = recipient) then deposit_loop copies recipient tag item blob now hs rep s
    else if (copies <=? length (held_by rep))%nat then (s, rep)
    else
      let '(s, r) := tr_deposit h tag item blob now s in
      let rep := match r with
                 | Ok _ => mkDepositReport (held_by rep ++ [h]) (failed rep)
                 | Err e => mkDepositReport (held_by rep) (failed rep ++ [(h, e)])
                 end in
      deposit_loop copies recipient tag item blob now hs rep s
  end.

Definition deposit_tagged (copies : nat) (tag : bytes) (holders : list bytes) (sender recipient item wire : bytes) (now : Z) (s : S) :
  S * DepositReport :=
  deposit_loop copies recipient tag item (sender ++ wire) now holders (mkDepositReport [] []) s.

Definition client_deposit (copies : nat) (holders : list bytes) (sender recipient item wire : bytes) (now : Z) (s : S) : S * DepositReport :=
  deposit_tagged copies (for_recipient recipient) holders sender recipient item wire now s.

Definition client_deposit_group (copies : nat) (holders : list bytes) (sender recipient item wire : bytes) (now : Z) (s : S) : S * DepositReport :=
  deposit_tagged copies (for_group_recipient recipient) holders sender recipient item wire now s.

Definition client_deposit_directed (copies : nat) (holders : list bytes) (sender recipient item wire : bytes) (now : Z) (s : S) : S * DepositReport :=
  deposit_tagged copies (for_directed_recipient recipient) holders sender recipient item wire now s.

Context {R : Type} (take_item : bytes -> bytes -> R -> R * bool).
Implicit Types c : Collecting S R.

Definition bump_unreachable (r : CollectReport) : CollectReport := mkCollectReport (offered r) (taken r) (repeated r) (unreachable r + 1).
Definition bump_repeated (r : CollectReport) : CollectReport := mkCollectReport (offered r) (taken r) (repeated r + 1) (unreachable r).

(** An id that was seen before. *)
Definition on_repeated (h id : bytes) c : Collecting S R :=
  mkCollecting (bump_repeated (co_report c)) (co_seen c) (co_taken c)
    (if bool_decide (id ∈ co_taken c) then co_delete c ++ [(h, id)] else co_delete c) (co_net c) (co_recv c).

(** An item handed to the receiver. *)
Definition on_item (h id sender wire : bytes) c : Collecting S R :=
  let '(r, ok) := take_item sender wire (co_recv c) in
  let rep := co_report c in
  if (ok : bool)
  then mkCollecting (mkCollectReport (offered rep + 1) (taken rep + 1) (repeated rep) (unreachable rep)) (co_seen c) ({[id]} ∪ co_taken c)
         (co_delete c ++ [(h, id)]) (co_net c) r
  else mkCollecting (mkCollectReport (offered rep + 1) (taken rep) (repeated rep) (unreachable rep)) (co_seen c) (co_taken c)
         (co_delete c) (co_net c) r.

Definition with_net (s : S) c : Collecting S R := mkCollecting (co_report c) (co_seen c) (co_taken c) (co_delete c) s (co_recv c).
Definition with_seen (seen : gset bytes) c : Collecting S R := mkCollecting (co_report c) seen (co_taken c) (co_delete c) (co_net c) (co_recv c).
Definition with_report (rep : CollectReport) c : Collecting S R := mkCollecting rep (co_seen c) (co_taken c) (co_delete c) (co_net c) (co_recv c).

(** The ids listed by one holder. *)
Fixpoint collect_ids (h tag : bytes) (now : Z) (ids : list bytes) c : Collecting S R :=
  match ids with
  | [] => c
  | id :: ids =>
    if bool_decide (id ∈ co_seen c) then collect_ids h tag now ids (on_repeated h id c)
    else
      let c := with_seen ({[id]} ∪ co_seen c) c in
      if (MAX_COLLECT <? size (co_seen c))%nat then c
      else
        let '(s, f) := tr_fetch h tag id now (co_net c) in
        let c := with_net s c in
        match f with
        | Err _ => with_report (bump_unreachable (co_report c)) c
        | Ok None => collect_ids h tag now ids c
        | Ok (Some b) =>
          if (length b <=? 32)%nat then collect_ids h tag now ids c
          else collect_ids h tag now ids (on_item h id (take 32 b) (drop 32 b) c)
        end
  end.

Fixpoint collect_holders (me tag : bytes) (now : Z) (holders : list bytes) c : Collecting S R :=
  match holders with
  | [] => c
  | h :: hs =>
    if bool_decide (h = me) then collect_holders me tag now hs c
    else
      let '(s, l) := tr_list h tag now (co_net c) in
      let c := with_net s c in
      match l with
      | Err _ => collect_holders me tag now hs (with_report (bump_unreachable (co_report c)) c)
      | Ok ids => collect_holders me tag now hs (collect_ids h tag now ids c)
      end
  end.

Definition delete_taken (tag : bytes) (l : list (bytes * bytes)) (s : S) : S :=
  fold_left (fun s x => (tr_delete x.1 tag x.2 s).1) l s.

Definition collect_tagged (tag : bytes) (holders : list bytes) (me : bytes) (now : Z) (s : S) (r : R) : S * R * CollectReport :=
  let c := collect_holders me tag now holders (mkCollecting (mkCollectReport 0 0 0 0) ∅ ∅ [] s r) in
  (delete_taken tag (co_delete c) (co_net c), co_recv c, co_report c).

Definition client_collect (holders : list bytes) (me : bytes) (now : Z) (s : S) (r : R) : S * R * CollectReport :=
  collect_tagged (for_recipient me) holders me now s r.
Definition client_collect_group (holders : list bytes) (me : bytes) (now : Z) (s : S) (r : R) : S * R * CollectReport :=
  collect_tagged (for_group_recipient me) holders me now s r.
Definition client_collect_directed (holders : list bytes) (me : bytes) (now : Z) (s : S) (r : R) : S * R * CollectReport :=
  collect_tagged (for_directed_recipient me) holders me now s r.

End Client.

(** ** A holder on the network *)

(** A node as the others see it: its store when custody is on, and the contacts
    it accepts messages from; its clock. *)
Record HolderNode := mkNode { n_store : option MemoryCustody; n_allowed : gset bytes; n_now : Z }.

Inductive Link := LUp | LDown | LLost.
Record Net := mkNet { nodes : gmap bytes HolderNode; links : list Link }.

Definition answer {A} (f : A -> Response) (x : MemoryCustody * result A CustodyError) : MemoryCustody * Response :=
  (x.1, match x.2 with Ok a => f a | Err e => Refused e end).

(** What a holder answers to a request it could read. *)
Definition respond (who : bytes) (now : Z) (req : Request) (c : MemoryCustody) : MemoryCustody * Response :=
  match req with
  | RDeposit tag item blob => answer Deposited (deposit who tag item blob now c)
  | RList tag now_ms => answer Listing (list_items who tag now_ms c)
  | RFetch tag item now_ms => answer Item (fetch who tag item now_ms c)
  | RDelete tag item => answer Deleted (delete_item who tag item c)
  end.

(** [serve_custody] on the bytes of a stream; no answer when they are not a
    request. *)
Definition serve_custody (who stream : bytes) (now : Z) (c : MemoryCustody) : MemoryCustody * option bytes :=
  let c := trust who c in
  match read_request stream with
  | Err _ => (c, None)
  | Ok req => let '(c, a) := respond who now req c in (c, Some (encode_response a))
  end.

(** A bidirectional stream that starts with the custody tag: served for a
    contact when custody is on, else the connection is closed. *)
Definition serve_stream (who stream : bytes) (n : HolderNode) : HolderNode * option bytes :=
  match stream, n_store n with
  | first :: rest, Some c =>
    if (first =? CUSTODY_STREAM_TAG) && bool_decide (who ∈ n_allowed n) then
      let '(c, a) := serve_custody who rest (n_now n) c in (mkNode (Some c) (n_allowed n) (n_now n), a)
    else (n, None)
  | _, _ => (n, None)
  end.

Definition next_link (net : Net) : Link * Net :=
  match links net with [] => (LUp, net) | x :: r => (x, mkNet (nodes net) r) end.

(** [ChatMailboxTransport::exchange] from the node [me]. *)
Definition exchange (me holder : bytes) (req : Request) (net : Net) : Net * result Response MailboxError :=
  let '(link, net) := next_link net in
  match link, nodes net !! holder with
  | LDown, _ | _, None => (net, Err Unreachable)
  | _, Some n =>
    let '(n, a) := serve_stream me (CUSTODY_STREAM_TAG :: encode_request req) n in
    let net := mkNet (<[holder := n]> (nodes net)) (links net) in
    match link, a with
    | LUp, Some bs => (net, match read_response bs with Ok r => Ok r | Err _ => Err Unreachable end)
    | _, _ => (net, Err Unreachable)
    end
  end.

Definition expect {A} (f : Response -> option A) (x : Net * result Response MailboxError) : Net * result A MailboxError :=
  (x.1, match x.2 with
        | Err e => Err e
        | Ok (Refused e) => Err (RefusedBy e)
        | Ok r => match f r with Some a => Ok a | None => Err Unreachable end
        end).

#[export] Instance chat_transport (me : bytes) : MailboxTransport Net := {
  tr_deposit h tag item blob now net := expect (fun r => match r with Deposited o => Some o | _ => None end) (exchange me h (RDeposit tag item blob) net);
  tr_list h tag now net := expect (fun r => match r with Listing v => Some v | _ => None end) (exchange me h (RList tag now) net);
  tr_fetch h tag item now net := expect (fun r => match r with Item o => Some o | _ => None end) (exchange me h (RFetch tag item now) net);
  tr_delete h tag item net := expect (fun r => match r with Deleted b => Some b | _ => None end) (exchange me h (RDelete tag item) net);
}.

(** ** The chat service *)

(** A contact: its endpoint when it has one. *)
Definition holders_for (peer : bytes) (contacts : list (option bytes)) : list bytes := List.filter (fun id => negb (bool_decide (id = peer))) (omap id contacts).

Section Service.
Context `{Crypto} (me : bytes) (custody_on : bool) (copies : nat) (contacts : list (option bytes)) (now : Z).
#[local] Existing Instance chat_transport.

(** The number of copies left. *)
Definition deposit_with_holders (peer wire : bytes) (net : Net) : Net * Z :=
  if negb custody_on then (net, 0)
  else match item_id_of wire with
       | None => (net, 0)
       | Some item =>
         let holders := holders_for peer contacts in
         if bool_decide (holders = []) then (net, 0)
         else let '(net, rep) := client_deposit (H := chat_transport me) (client_copies copies) holders me peer item wire now net in
              (net, zlen (held_by rep))
       end.

(** [accept] of the chat core is the receiver: true when the message was stored
    or is known. *)
Definition collect_from_holders {R} (accept_wire : bytes -> bytes -> R -> R * bool) (net : Net) (r : R) : Net * R :=
  let holders := omap id contacts in
  if negb custody_on || bool_decide (holders = []) then (net, r)
  else let '(net, r, _) := client_collect (H := chat_transport me) accept_wire holders me now net r in (net, r).

End Service.

(** ** Depositing, over any transport *)

Section DepositProofs.
Context {S : Type} `{MailboxTransport S}.

Definition others_than (recipient : bytes) (holders : list bytes) : list bytes := List.filter (fun h => negb (bool_decide (h = recipient))) holders.

Lemma deposit_loop_report copies recipient tag item blob now holders rep s :
  (length (held_by rep) <= copies)%nat ->
  let rep' := (deposit_loop copies recipient tag item blob now holders rep s).2 in
  (length (held_by rep') <= copies)%nat /\
  exists asked, asked `prefix_of` others_than recipient holders /\
    held_by rep' ++ (failed rep').*1 ≡ₚ (held_by rep ++ (failed rep).*1) ++ asked /\
    ((length (held_by rep') < copies)%nat -> asked = others_than recipient holders).
Proof.
  revert rep s. induction holders as [|h hs IH]; intros rep s Hle; cbn zeta; cbn [deposit_loop others_than List.filter].
  { split; [done|]. exists []. rewrite app_nil_r. split_and!; [done|done|done]. }
  case_bool_decide as Hr; cbn [negb]; [by apply IH|]. destruct (Nat.leb_spec copies (length (held_by rep))).
  { split; [done|]. exists []. rewrite app_nil_r. split_and!; [apply prefix_nil|done|cbn; lia]. }
  destruct (tr_deposit h tag item blob now s) as [s' [o|e]].
  - destruct (IH (mkDepositReport (held_by rep ++ [h]) (failed rep)) s') as (Hl & asked & Hp & Hperm & Hall).
    { cbn. rewrite length_app. cbn. lia. }
    split; [done|]. exists (h :: asked). split_and!; [by apply prefix_cons| |intros Hlt; f_equal; by apply Hall].
    rewrite Hperm. cbn. solve_Permutation.
  - destruct (IH (mkDepositReport (held_by rep) (failed rep ++ [(h, e)])) s') as (Hl & asked & Hp & Hperm & Hall); [done|].
    split; [done|]. exists (h :: asked). split_and!; [by apply prefix_cons| |intros Hlt; f_equal; by apply Hall].
    rewrite Hperm. cbn. rewrite fmap_app. cbn. solve_Permutation.
Qed.

End DepositProofs.

(** ** Collecting, over a transport that answers *)

Section CollectProofs.
Context {S R : Type} `{MailboxTransport S} (take_item : bytes -> bytes -> R -> R * bool) (me tag : bytes) (now : Z).
(** The holders are up and keep what they list: [ids_at] is their listing and
    [blob_at] their items. *)
Context (inv : S -> Prop) (ids_at : bytes -> list bytes) (blob_at : bytes -> bytes -> option bytes) (up : bytes -> Prop).
Hypothesis steady_list : forall s h, inv s -> up h -> exists s', tr_list h tag now s = (s', Ok (ids_at h)) /\ inv s'.
Hypothesis steady_fetch : forall s h id, inv s -> up h -> id ∈ ids_at h -> exists s', tr_fetch h tag id now s = (s', Ok (blob_at h id)) /\ inv s'.

(** What is handed over of a copy. *)
Definition handed (x : bytes * bytes) : option (bytes * bytes) :=
  match blob_at x.1 x.2 with
  | Some b => if (length b <=? 32)%nat then None else Some (take 32 b, drop 32 b)
  | None => None
  end.

(** The copies whose id was not met before. *)
Fixpoint firsts (seen : gset bytes) (xs : list (bytes * bytes)) : list (bytes * bytes) :=
  match xs with
  | [] => []
  | x :: xs => if bool_decide (x.2 ∈ seen) then firsts seen xs else x :: firsts ({[x.2]} ∪ seen) xs
  end.

(** The receiver takes the items one by one; the ids it took. *)
Definition receive (st : R * gset bytes) (x : bytes * bytes) : R * gset bytes :=
  match handed x with
  | None => st
  | Some (sender, wire) => let '(r, ok) := take_item sender wire st.1 in (r, if (ok : bool) then {[x.2]} ∪ st.2 else st.2)
  end.

Definition received (st : R * gset bytes) (xs : list (bytes * bytes)) : R * gset bytes := fold_left receive xs st.

(** Copies listed by the holders asked. *)
Definition copies_at (holders : list bytes) : list (bytes * bytes) := flat_map (fun h => map (pair h) (ids_at h)) (others_than me holders).

Definition ids_of (xs : list (bytes * bytes)) : gset bytes := list_to_set xs.*2.
Definition of_taken (t : gset bytes) (xs : list (bytes * bytes)) : list (bytes * bytes) := List.filter (fun x => bool_decide (x.2 ∈ t)) xs.

Lemma receive_taken st x id : id <> x.2 -> id ∈ (receive st x).2 <-> id ∈ st.2.
Proof.
  intros Hne. unfold receive. destruct (handed x) as [[sd wr]|]; [|done]. destruct (take_item sd wr st.1) as [r []]; cbn; [|done].
  set_solver.
Qed.

Lemma received_firsts st seen xs id : id ∈ seen -> id ∈ (received st (firsts seen xs)).2 <-> id ∈ st.2.
Proof.
  revert st seen. induction xs as [|x xs IH]; intros st seen Hin; [done|]. cbn [firsts]. case_bool_decide as Hx; [by apply IH|].
  change (received st (x :: firsts ({[x.2]} ∪ seen) xs)) with (received (receive st x) (firsts ({[x.2]} ∪ seen) xs)).
  rewrite IH by set_solver. apply receive_taken. set_solver.
Qed.

Lemma firsts_app seen xs ys : firsts seen (xs ++ ys) = firsts seen xs ++ firsts (ids_of xs ∪ seen) ys.
Proof.
  revert seen. induction xs as [|x xs IH]; intros seen; cbn.
  - f_equal. unfold ids_of. cbn. set_solver.
  - case_bool_decide; cbn; rewrite IH; do 2 f_equal; unfold ids_of; cbn; [|f_equal]; set_solver.
Qed.

(** The state of a collection after the copies [xs]. *)
Record collected (c c' : Collecting S R) (xs : list (bytes * bytes)) : Prop := {
  cd_inv : inv (co_net c');
  cd_seen : co_seen c' = ids_of xs ∪ co_seen c;
  cd_recv : (co_recv c', co_taken c') = received (co_recv c, co_taken c) (firsts (co_seen c) xs);
  cd_delete : co_delete c' = co_delete c ++ of_taken (co_taken c') xs;
  cd_down : unreachable (co_report c') = unreachable (co_report c);
}.

Lemma collected_nil c : inv (co_net c) -> collected c c [].
Proof. intros Hi. split; try done; [unfold ids_of; cbn; set_solver|by rewrite app_nil_r]. Qed.

Lemma collected_trans c1 c2 c3 xs ys :
  co_taken c1 ⊆ co_seen c1 -> collected c1 c2 xs -> collected c2 c3 ys -> co_taken c2 ⊆ co_seen c2 -> collected c1 c3 (xs ++ ys).
Proof.
  intros T1 [I1 S1 R1 D1 U1] [I2 S2 R2 D2 U2] T2. split.
  - done.
  - rewrite S2, S1. unfold ids_of. rewrite fmap_app, list_to_set_app_L. set_solver.
  - rewrite firsts_app. unfold received. rewrite fold_left_app. fold (received (co_recv c1, co_taken c1) (firsts (co_seen c1) xs)).
    rewrite <- R1, <- S1. exact R2.
  - rewrite D2, D1. unfold of_taken. rewrite List.filter_app, app_assoc. do 2 f_equal. apply filter_ext_in. intros x Hx.
    apply bool_decide_ext. assert (x.2 ∈ co_seen c2) as Hs.
    { rewrite S1. apply elem_of_union_l, elem_of_list_to_set, list_elem_of_fmap. exists x. split; [done|by apply list_elem_of_In]. }
    pose proof (received_firsts (co_recv c2, co_taken c2) (co_seen c2) ys x.2 Hs) as Hr. rewrite <- R2 in Hr. cbn in Hr. by rewrite Hr.
  - congruence.
Qed.

Lemma received_sub st xs : (received st xs).2 ⊆ ids_of xs ∪ st.2.
Proof.
  revert st. induction xs as [|x xs IH]; intros st; [set_solver|]. change (received st (x :: xs)) with (received (receive st x) xs).
  etransitivity; [apply IH|]. unfold ids_of. cbn. intros id [Hid|Hid]%elem_of_union; [set_solver|].
  destruct (decide (id = x.2)); [set_solver|]. apply receive_taken in Hid; set_solver.
Qed.

Lemma firsts_ids seen xs : ids_of (firsts seen xs) ⊆ ids_of xs.
Proof.
  revert seen. induction xs as [|x xs IH]; intros seen; [done|]. cbn. case_bool_decide; unfold ids_of in *; cbn; [|]; set_solver.
Qed.

Lemma collected_taken c c' xs : co_taken c ⊆ co_seen c -> collected c c' xs -> co_taken c' ⊆ co_seen c'.
Proof.
  intros Ht [_ Hs Hr _ _]. pose proof (received_sub (co_recv c, co_taken c) (firsts (co_seen c) xs)) as Hsub. rewrite <- Hr in Hsub. cbn in Hsub.
  pose proof (firsts_ids (co_seen c) xs). rewrite Hs. set_solver.
Qed.

Lemma collect_repeated h id c : inv (co_net c) -> id ∈ co_seen c -> collected c (on_repeated h id c) [(h, id)].
Proof.
  intros Hi Hid. split; cbn; [done|unfold ids_of; cbn; set_solver| |by case_bool_decide; rewrite ?app_nil_r|done].
  by rewrite bool_decide_eq_true_2.
Qed.

(** A copy with a new id, fetched. *)
Lemma collect_new h id s c :
  let c1 := with_net s (with_seen ({[id]} ∪ co_seen c) c) in
  inv s -> id ∉ co_seen c -> co_taken c ⊆ co_seen c ->
  collected c (match handed (h, id) with Some (sd, w) => on_item take_item h id sd w c1 | None => c1 end) [(h, id)].
Proof.
  intros c1 Hi Hid Ht. assert (id ∉ co_taken c) as Hnt by set_solver.
  assert (received (co_recv c, co_taken c) (firsts (co_seen c) [(h, id)]) = receive (co_recv c, co_taken c) (h, id)) as Hf.
  { cbn. by rewrite bool_decide_eq_false_2. }
  unfold receive in Hf. destruct (handed (h, id)) as [[sd w]|]; cbn [fst snd] in Hf.
  - unfold on_item. cbn [co_recv with_net with_seen c1]. destruct (take_item sd w (co_recv c)) as [r [|]];
      (split; cbn [co_net co_seen co_recv co_taken co_delete co_report unreachable with_net with_seen c1];
        [done|unfold ids_of; cbn; set_solver|by rewrite Hf|unfold of_taken; cbn [List.filter snd]|done]).
    + by rewrite bool_decide_eq_true_2 by set_solver.
    + by rewrite bool_decide_eq_false_2, app_nil_r.
  - split; cbn [co_net co_seen co_recv co_taken co_delete co_report unreachable with_net with_seen c1];
      [done|unfold ids_of; cbn; set_solver|by rewrite Hf|unfold of_taken; cbn [List.filter snd]|done].
    by rewrite bool_decide_eq_false_2, app_nil_r.
Qed.

Lemma collect_ids_spec h ids c :
  up h -> (forall id, id ∈ ids -> id ∈ ids_at h) -> inv (co_net c) -> co_taken c ⊆ co_seen c ->
  (size (ids_of (map (pair h) ids) ∪ co_seen c) <= MAX_COLLECT)%nat ->
  collected c (collect_ids take_item h tag now ids c) (map (pair h) ids).
Proof.
  intros Hup Hin. induction ids as [|id ids IH] in c, Hin |- *; intros Hi Ht Hsz; [by apply collected_nil|].
  assert (forall c1, collected c c1 [(h, id)] -> collected c (collect_ids take_item h tag now ids c1) (map (pair h) (id :: ids))) as Hgo.
  { intros c1 H1. pose proof (collected_taken _ _ _ Ht H1). change (map (pair h) (id :: ids)) with ([(h, id)] ++ map (pair h) ids).
    eapply collected_trans; [done|exact H1| |done]. apply IH; [set_solver|by apply H1|done|]. rewrite (cd_seen _ _ _ H1).
    eapply Nat.le_trans; [apply subseteq_size|exact Hsz]. unfold ids_of. cbn. set_solver. }
  cbn [collect_ids]. case_bool_decide as Hid; [by apply Hgo, collect_repeated|]. cbn [co_seen with_seen].
  rewrite (proj2 (Nat.ltb_ge _ _)).
  2: { eapply Nat.le_trans; [apply subseteq_size|exact Hsz]. unfold ids_of. cbn. set_solver. }
  destruct (steady_fetch (co_net c) h id Hi Hup) as (s & E & Hs); [apply Hin; left|]. cbn [co_net with_seen]. rewrite E.
  pose proof (collect_new h id s c Hs Hid Ht) as Hn. unfold handed in Hn. cbn [fst snd] in Hn.
  destruct (blob_at h id) as [b|]; [|by apply Hgo]. destruct (length b <=? 32)%nat; by apply Hgo.
Qed.

Lemma collect_holders_spec holders c :
  (forall h, h ∈ holders -> h <> me -> up h) -> inv (co_net c) -> co_taken c ⊆ co_seen c ->
  (size (ids_of (copies_at holders) ∪ co_seen c) <= MAX_COLLECT)%nat ->
  collected c (collect_holders take_item me tag now holders c) (copies_at holders).
Proof.
  intros Hup. induction holders as [|h hs IH] in c, Hup |- *; intros Hi Ht Hsz; [by apply collected_nil|].
  unfold copies_at, others_than in *. cbn [collect_holders List.filter] in *. case_bool_decide as Hme; cbn [negb] in *.
  { apply IH; try done. intros h' ?. apply Hup. by right. }
  destruct (steady_list (co_net c) h Hi) as (s & E & Hs); [apply Hup; [left|done]|]. rewrite E. cbn [flat_map] in *.
  unfold ids_of in Hsz. rewrite fmap_app, list_to_set_app_L in Hsz. fold (ids_of (map (pair h) (ids_at h))) in Hsz.
  assert (collected c (collect_ids take_item h tag now (ids_at h) (with_net s c)) (map (pair h) (ids_at h))) as H1.
  { pose proof (collect_ids_spec h (ids_at h) (with_net s c)) as [A B D F G]; [apply Hup; [left|done]|done|done|done| |by split].
    eapply Nat.le_trans; [apply subseteq_size|exact Hsz]. cbn. set_solver. }
  eapply collected_trans; [done|exact H1| |by eapply collected_taken].
  apply IH; [intros h' ?; apply Hup; by right|by apply H1|by eapply collected_taken|]. rewrite (cd_seen _ _ _ H1).
  eapply Nat.le_trans; [apply subseteq_size|exact Hsz]. unfold ids_of. set_solver.
Qed.

(** A collection from holders that answer: every distinct item is offered once,
    in the order listed, and every copy of what was taken is asked to be
    removed. *)
Lemma collect_tagged_spec holders s r :
  (forall h, h ∈ holders -> h <> me -> up h) -> inv s -> (size (ids_of (copies_at holders)) <= MAX_COLLECT)%nat ->
  exists s1, inv s1 /\
  let '(r', t) := received (r, ∅) (firsts ∅ (copies_at holders)) in
  let '(s2, r2, rep) := collect_tagged take_item tag holders me now s r in
  r2 = r' /\ s2 = delete_taken tag (of_taken t (copies_at holders)) s1 /\ unreachable rep = 0.
Proof.
  intros Hup Hi Hsz. unfold collect_tagged. set (c0 := mkCollecting _ ∅ ∅ [] s r).
  pose proof (collect_holders_spec holders c0 Hup Hi ltac:(done)) as Hc.
  destruct Hc as [A B D F G]; [cbn; by rewrite union_empty_r_L|]. exists (co_net (collect_holders take_item me tag now holders c0)). split; [done|].
  cbn in D. rewrite <- D. split_and!; [done| |done]. by rewrite F.
Qed.

End CollectProofs.
