(* ===== verification/MailboxDelivery.v ===== *)
(** * MailboxDelivery: a message left with holders reaches its recipient

    Composes the custody store, the frames and the client: a copy left with
    holders that serve both sides is handed to the recipient once, with exactly
    the bytes that were left, and removed from the holders.  Two findings about
    the protocol are theorems: the clock of a caller decides what a holder
    drops, and a bad copy listed first hides a good one. *)

From S2P Require Import Prelude Bytes Text Codec ErasureCode Dissolve Disk SealedState Ratchet Custody CustodyRun MailboxWire Mailbox.

(** A store that is switched on and well formed. *)
Record serving (n : Z) (c : MemoryCustody) : Prop := {
  sv_wf : custody_wf n c;
  sv_limits : ceilings (limits c);
  sv_on : enabled (limits c) = true;
}.

Lemma serving_trust n who c : serving n c -> serving n (trust who c).
Proof. intros [[? ? ? ?] Hl Ho]. by split; [split| |]. Qed.

Lemma trusted_may who c : enabled (limits c) = true -> check who (trust who c) = Ok tt.
Proof. intros Ho. unfold check. cbn. rewrite Ho. cbn. by rewrite bool_decide_eq_true_2 by set_solver. Qed.

(** *** One exchange with a node that serves [me] *)

Definition stored_at (net : Net) (me h : bytes) (n : HolderNode) (c : MemoryCustody) : Prop :=
  nodes net !! h = Some n /\ n_store n = Some c /\ me ∈ n_allowed n.

Definition put_store (h : bytes) (n : HolderNode) (c : MemoryCustody) (net : Net) : Net :=
  mkNet (<[h := mkNode (Some c) (n_allowed n) (n_now n)]> (nodes net)) (links net).

Lemma exchange_up me h req net n c :
  links net = [] -> stored_at net me h n c -> request_wf req ->
  let '(c', a) := respond me (n_now n) req (trust me c) in
  response_wf a -> exchange me h req net = (put_store h n c' net, Ok (trimmed a)).
Proof.
  intros Hl (Hn & Hc & Ha) Hreq. destruct (respond me (n_now n) req (trust me c)) as [c' a] eqn:E. intros Hresp.
  unfold exchange, next_link. rewrite Hl, Hn. unfold serve_stream. rewrite Hc. cbn [Z.eqb Pos.eqb CUSTODY_STREAM_TAG andb].
  rewrite bool_decide_eq_true_2 by done. unfold serve_custody.
  destruct (custody_request_reads req [] Hreq) as [Hr _]. rewrite app_nil_r in Hr. rewrite Hr, E.
  destruct (custody_response_reads a [] Hresp) as [Hr' _]. rewrite app_nil_r in Hr'. by rewrite Hr'.
Qed.

(** Over any link, the holder did nothing or has acted. *)
Lemma exchange_any me h req net :
  request_wf req ->
  let '(net', r) := exchange me h req net in
  nodes net' = nodes net /\ r = Err Unreachable \/
  exists n c, stored_at net me h n c /\
    let '(c', a) := respond me (n_now n) req (trust me c) in
    nodes net' = <[h := mkNode (Some c') (n_allowed n) (n_now n)]> (nodes net) /\ (response_wf a -> r = Err Unreachable \/ r = Ok (trimmed a)).
Proof.
  intros Hreq. unfold exchange. destruct (next_link net) as [lk net1] eqn:El.
  assert (nodes net1 = nodes net) as En by (unfold next_link in El; destruct (links net); by injection El as <- <-). rewrite En.
  destruct (nodes net !! h) as [n|] eqn:Hn; [|by destruct lk; left]. destruct (custody_request_reads req [] Hreq) as [Hr _]. rewrite app_nil_r in Hr.
  unfold serve_stream, serve_custody. rewrite Hr. cbn [Z.eqb Pos.eqb CUSTODY_STREAM_TAG andb].
  destruct (n_store n) as [c|] eqn:Hc; [case_bool_decide as Ha|].
  - destruct (respond me (n_now n) req (trust me c)) as [c' a] eqn:Ea. destruct lk; cbn beta iota; [right|by left|right].
    + exists n, c. rewrite Ea. split; [done|]. split; [done|]. intros Hw. destruct (custody_response_reads a [] Hw) as [Hr' _].
      rewrite app_nil_r in Hr'. rewrite Hr'. by right.
    + exists n, c. rewrite Ea. split; [done|]. split; [done|]. by left.
  - destruct lk; cbn; left; rewrite ?En, ?insert_id by done; done.
  - destruct lk; cbn; left; rewrite ?En, ?insert_id by done; done.
Qed.

(** ** Collecting from holders that are up *)

Lemma filter_and {A} (p q : A -> bool) xs : List.filter q (List.filter p xs) = List.filter (fun x => p x && q x) xs.
Proof. induction xs as [|x xs IH]; [done|]. cbn. destruct (p x); cbn; [destruct (q x); by rewrite IH|done]. Qed.

Lemma live_shape n c e now : custody_wf n c -> e ∈ live now (view (inner c)) ->
  array 16 (kept_key e).1 /\ array 16 (kept_key e).2 /\ bytes_ok (kept_blob e) /\ zlen (kept_blob e) <= max_item_bytes (limits c).
Proof.
  intros [Ha _ Hs _] [Hin%list_elem_of_In _]%list_elem_of_In%filter_In. apply list_elem_of_fmap in Hin as ([k h] & -> & Hx%by_order_elem).
  destruct (Hs k h Hx) as (? & ? & _ & ? & _). pose proof (ac_item _ _ _ Ha k h Hx). cbn. split_and!; try done. lia.
Qed.

Section Collect.
Context (me tag : bytes) (now : Z) (Htag : array 16 tag) (Hnow : in_u64 now).
(** The stores of the holders at the start. *)
Context (base : gmap bytes MemoryCustody) (N : Z).
Hypothesis base_serves : forall h c, base !! h = Some c -> serving N c.

Definition at_start (h : bytes) : list Kept := match base !! h with Some c => live now (view (inner c)) | None => [] end.
Definition ids_at (h : bytes) : list bytes := take MAX_LIST (map (fun e => (kept_key e).2) (items_for tag (at_start h))).
Definition blob_at (h id : bytes) : option bytes := kept_blob <$> find_key (tag, id) (at_start h).
Definition up (h : bytes) : Prop := is_Some (base !! h).

(** What is left at a holder when the copies [dels] are removed. *)
Definition left_at (dels : list (bytes * bytes)) (h : bytes) : list Kept :=
  List.filter (fun e => negb (bool_decide ((kept_key e).1 = tag /\ (h, (kept_key e).2) ∈ dels))) (at_start h).

(** The network while [me] collects: the stores hold what they did, but for
    items that have expired and the copies removed so far. *)
Definition collecting (dels : list (bytes * bytes)) (net : Net) : Prop :=
  links net = [] /\
  forall h, up h -> exists n c, stored_at net me h n c /\ serving N c /\ live now (view (inner c)) = left_at dels h.

(** A store replaced by one that stands for the same items. *)
Lemma collecting_put dels net h n c c' :
  collecting dels net -> stored_at net me h n c -> serving N c' -> live now (view (inner c')) = left_at dels h ->
  collecting dels (put_store h n c' net).
Proof.
  intros [Hl Hall] (Hn & Hc & Ha) Hs Hv. split; [done|]. intros h' Hup. destruct (decide (h = h')) as [<-|Hne].
  - eexists _, c'. split; [|done]. unfold stored_at, put_store. cbn. by rewrite lookup_insert_eq.
  - destruct (Hall h' Hup) as (n' & c1 & (H1 & H2 & H3) & H4 & H5). exists n', c1. split_and!; try done. split_and!; try done.
    cbn. by rewrite lookup_insert_ne.
Qed.

Lemma left_nil h : left_at [] h = at_start h.
Proof.
  unfold left_at. apply List.forallb_filter_id. apply forallb_forall. intros e _.
  rewrite bool_decide_eq_false_2; [done|]. intros [_ Hin]. by apply elem_of_nil in Hin.
Qed.

Lemma swept_serving n c : serving n c -> serving n (set_inner (sweep now (inner c)).1 c) /\
  view (sweep now (inner c)).1 = live now (view (inner c)).
Proof.
  intros [Hwf Hl Ho]. split; [|apply view_sweep, Hwf]. split; [|done|done]. rewrite sweep_where. by apply wf_where.
Qed.

Lemma collecting_list net h :
  collecting [] net -> up h ->
  exists net', tr_list (MailboxTransport := chat_transport me) h tag now net = (net', Ok (ids_at h)) /\ collecting [] net'.
Proof.
  intros Hc Hup. destruct (proj2 Hc h Hup) as (n & c & Hst & Hs & Hv). rewrite left_nil in Hv.
  pose proof (exchange_up me h (RList tag now) net n c (proj1 Hc) Hst ltac:(by split)) as He.
  pose proof (serving_trust N me c Hs) as Hs'. destruct (swept_serving N (trust me c) Hs') as [Hs1 Hv1].
  cbn [respond] in He. unfold list_items in He. rewrite trusted_may in He by apply Hs. cbn [answer fst snd] in He.
  rewrite listing_view, Hv1 in He by (rewrite sweep_where; apply ordered_where, Hs').
  change (view (inner (trust me c))) with (view (inner c)) in He. rewrite Hv in He. fold (ids_at h) in He.
  specialize (He ltac:(cbn; apply Forall_take, Forall_forall; intros id (e & -> & Hin%list_elem_of_In)%list_elem_of_fmap;
    apply filter_In in Hin as [Hin%list_elem_of_In _]; rewrite <- Hv in Hin; by eapply live_shape; [apply Hs|])).
  eexists. split.
  - cbn [tr_list chat_transport]. rewrite He. unfold expect. cbn [fst snd trimmed]. unfold ids_at. by rewrite take_take, Nat.min_id.
  - apply (collecting_put [] net h n c); [done|done|done|]. cbn [inner set_inner]. rewrite Hv1, live_live by lia.
    change (view (inner (trust me c))) with (view (inner c)). by rewrite Hv, left_nil.
Qed.

Lemma ids_elem h id : id ∈ ids_at h -> array 16 id.
Proof.
  unfold ids_at, at_start. destruct (base !! h) as [c|] eqn:E; [|by intros ?%elem_of_nil]. intros Hin%elem_of_take.
  destruct Hin as (i & Hi%list_elem_of_lookup_2 & _). apply list_elem_of_fmap in Hi as (e & -> & Hin%list_elem_of_In).
  apply filter_In in Hin as [Hin%list_elem_of_In _]. by eapply live_shape; [eapply sv_wf, base_serves, E|].
Qed.

Lemma collecting_fetch net h id :
  collecting [] net -> up h -> id ∈ ids_at h ->
  exists net', tr_fetch (MailboxTransport := chat_transport me) h tag id now net = (net', Ok (blob_at h id)) /\ collecting [] net'.
Proof.
  intros Hc Hup Hid. destruct (proj2 Hc h Hup) as (n & c & Hst & Hs & Hv). rewrite left_nil in Hv.
  pose proof (exchange_up me h (RFetch tag id now) net n c (proj1 Hc) Hst ltac:(split_and!; [done|by eapply ids_elem|done])) as He.
  pose proof (serving_trust N me c Hs) as Hs'. destruct (swept_serving N (trust me c) Hs') as [Hs1 Hv1].
  cbn [respond] in He. unfold fetch in He. rewrite trusted_may in He by apply Hs. cbn [answer fst snd] in He.
  assert (blob <$> items (sweep now (inner (trust me c))).1 !! (tag, id) = blob_at h id) as Hb.
  { unfold blob_at. rewrite <- Hv. change (view (inner c)) with (view (inner (trust me c))). rewrite <- Hv1, find_view.
    by destruct (items _ !! _). }
  rewrite Hb in He. eexists. split.
  - cbn [tr_fetch chat_transport]. rewrite He; [done|]. cbn. unfold blob_at. destruct (find_key (tag, id) (at_start h)) as [e|] eqn:Ef; [|done].
    apply find_key_eq in Ef as [_ Hin]. rewrite <- Hv in Hin. destruct (live_shape N c e now (sv_wf _ _ Hs) Hin) as (_ & _ & ? & ?).
    cbn. split; [done|]. destruct (sv_limits _ _ Hs) as (_ & ? & _). lia.
  - apply (collecting_put [] net h n c); [done|done|done|]. cbn [inner set_inner]. rewrite Hv1, live_live by lia.
    change (view (inner (trust me c))) with (view (inner c)). by rewrite Hv, left_nil.
Qed.

Lemma left_more dels h h' id :
  left_at (dels ++ [(h, id)]) h' =
    if bool_decide (h = h') then List.filter (fun e => negb (bool_decide (kept_key e = (tag, id)))) (left_at dels h') else left_at dels h'.
Proof.
  unfold left_at. case_bool_decide as Hh.
  - subst h'. rewrite filter_and. apply List.filter_ext. intros [[[[t i] w] x] b]. cbn. apply Bool.eq_true_iff_eq.
    rewrite andb_true_iff, !negb_true_iff, !bool_decide_eq_false, elem_of_app, list_elem_of_singleton. naive_solver.
  - apply List.filter_ext. intros [[[[t i] w] x] b]. cbn. apply Bool.eq_true_iff_eq.
    rewrite !negb_true_iff, !bool_decide_eq_false, elem_of_app, list_elem_of_singleton. naive_solver.
Qed.

Lemma collecting_delete dels net h id :
  collecting dels net -> up h -> array 16 id ->
  collecting (dels ++ [(h, id)]) (tr_delete (MailboxTransport := chat_transport me) h tag id net).1.
Proof.
  intros Hc Hup Hid. destruct (proj2 Hc h Hup) as (n & c & Hst & Hs & Hv).
  pose proof (exchange_up me h (RDelete tag id) net n c (proj1 Hc) Hst ltac:(by split)) as He.
  pose proof (serving_trust N me c Hs) as Hs'. pose proof (wf_remove N (tag, id) (trust me c) (sv_wf _ _ Hs')) as Hw.
  pose proof (view_remove (tag, id) (inner c) (wf_ordered _ _ (sv_wf _ _ Hs))) as Hr.
  cbn [respond] in He. unfold delete_item in He. rewrite trusted_may in He by apply Hs. cbn [inner trust] in He, Hw.
  destruct (remove (tag, id) (inner c)) as [g b] eqn:Eg. cbn [answer fst snd] in He, Hr, Hw. cbn [tr_delete chat_transport]. rewrite He by done. cbn [expect fst].
  assert (live now (view g) = left_at (dels ++ [(h, id)]) h) as Hg.
  { rewrite left_more, bool_decide_eq_true_2, Hr, <- Hv by done. unfold live. rewrite !filter_and. apply List.filter_ext. intros e. apply andb_comm. }
  split; [by apply Hc|]. intros h' Hup'. destruct (decide (h = h')) as [<-|Hne].
  - eexists _, (set_inner g (trust me c)). split_and!; [unfold stored_at, put_store; cbn; rewrite lookup_insert_eq; split_and!; try done; apply Hst| |done].
    split; [done|apply Hs|apply Hs].
  - destruct (proj2 Hc h' Hup') as (n' & c1 & (H1 & H2 & H3) & H4 & H5). exists n', c1. split_and!; try done.
    + split_and!; try done. cbn. by rewrite lookup_insert_ne.
    + by rewrite left_more, bool_decide_eq_false_2.
Qed.

Lemma collecting_deletes xs dels net :
  collecting dels net -> (forall x, x ∈ xs -> up x.1 /\ array 16 x.2) ->
  collecting (dels ++ xs) (delete_taken (H := chat_transport me) tag xs net).
Proof.
  revert dels net. induction xs as [|[h id] xs IH]; intros dels net Hc Hx; [by rewrite app_nil_r|].
  replace (dels ++ (h, id) :: xs) with ((dels ++ [(h, id)]) ++ xs) by (by rewrite <- app_assoc).
  unfold delete_taken. cbn [fold_left fst snd]. apply IH; [|intros x ?; apply Hx; by right].
  destruct (Hx (h, id) ltac:(left)). by apply collecting_delete.
Qed.

(** A collection from holders that are up. *)
Lemma collect_up {R} (take_item : bytes -> bytes -> R -> R * bool) holders net r :
  (forall h, h ∈ holders -> h <> me -> up h) -> collecting [] net ->
  (size (ids_of (copies_at me ids_at holders)) <= MAX_COLLECT)%nat ->
  let '(r', t) := received take_item blob_at (r, ∅) (firsts ∅ (copies_at me ids_at holders)) in
  let '(net2, r2, rep) := collect_tagged (H := chat_transport me) take_item tag holders me now net r in
  r2 = r' /\ collecting (of_taken t (copies_at me ids_at holders)) net2 /\ unreachable rep = 0.
Proof.
  intros Hup Hc Hsz.
  destruct (collect_tagged_spec (H := chat_transport me) take_item me tag now (collecting []) ids_at blob_at up
    collecting_list collecting_fetch holders net r Hup Hc Hsz) as (net1 & Hc1 & Hr).
  destruct (received take_item blob_at (r, ∅) _) as [r' t]. destruct (collect_tagged take_item tag holders me now net r) as [[net2 r2] rep].
  destruct Hr as (-> & -> & Hu). split_and!; [done| |done]. apply (collecting_deletes _ [] net1 Hc1).
  intros [h id] [Hin%list_elem_of_In _]%list_elem_of_In%filter_In. apply list_elem_of_In, in_flat_map in Hin as (h' & Hh & Hin).
  apply in_map_iff in Hin as (id' & [= -> ->] & Hid%list_elem_of_In). apply filter_In in Hh as [Hh%list_elem_of_In Hne].
  apply negb_true_iff, bool_decide_eq_false in Hne. split; [by apply Hup|by eapply ids_elem].
Qed.

End Collect.

(** ** Leaving a copy *)

Lemma find_filter_none k f xs : find_key k xs = None -> find_key k (List.filter f xs) = None.
Proof.
  unfold find_key. induction xs as [|x xs IH]; [done|]. cbn. case_bool_decide as Hk; [done|]. intros Hn.
  destruct (f x); cbn; [|by apply IH]. rewrite bool_decide_eq_false_2 by done. by apply IH.
Qed.

Lemma find_key_none k xs : (forall e, e ∈ xs -> kept_key e <> k) -> find_key k xs = None.
Proof.
  unfold find_key. induction xs as [|x xs IH]; intros Hx; [done|]. cbn. rewrite bool_decide_eq_false_2 by (apply Hx; left).
  apply IH. intros e ?. apply Hx. by right.
Qed.

Section Leave.
Context (me peer tag item wire : bytes) (hs : list bytes) (now N : Z).
Hypothesis Hme : array 32 me.
Hypothesis Htag : array 16 tag.
Hypothesis Hitem : array 16 item.
Hypothesis Hwire : bytes_ok wire.
Hypothesis Hsize : 32 + zlen wire <= MAX_ITEM_BYTES.

Definition copy (expires : Z) : Kept := ((tag, item), me, expires, me ++ wire).
Definition expiry (n : HolderNode) (c : MemoryCustody) : Z := sat_add u64_max (n_now n) (ttl_ms (limits c)).

(** A holder that serves both sides; it has the copy or no item of this name. *)
Definition host (k : Z) (h : bytes) (n : HolderNode) (c : MemoryCustody) (net : Net) : Prop :=
  stored_at net me h n c /\ peer ∈ n_allowed n /\ serving (N + k) c /\ in_u64 (n_now n) /\ n_now n <= now < expiry n c /\
  (find_key (tag, item) (view (inner c)) = None \/ find_key (tag, item) (view (inner c)) = Some (copy (expiry n c))).

Definition hosts (k : Z) (net : Net) : Prop := forall h, h ∈ hs -> h <> peer -> exists n c, host k h n c net.

(** The copy is at [h]. *)
Definition has_copy (h : bytes) (net : Net) : Prop :=
  exists n c, nodes net !! h = Some n /\ n_store n = Some c /\ find_key (tag, item) (view (inner c)) = Some (copy (expiry n c)).

(** What a deposit does to a store that may have the copy. *)
Lemma deposit_copy k h n c net :
  host k h n c net -> N + k < u64_max ->
  let '(c', r) := deposit me tag item (me ++ wire) (n_now n) (trust me c) in
  serving (N + k + 1) c' /\ limits c' = limits c /\
  (find_key (tag, item) (view (inner c')) = None \/ find_key (tag, item) (view (inner c')) = Some (copy (expiry n c))) /\
  (find_key (tag, item) (view (inner c)) = Some (copy (expiry n c)) -> find_key (tag, item) (view (inner c')) = Some (copy (expiry n c))) /\
  (is_ok r = true -> find_key (tag, item) (view (inner c')) = Some (copy (expiry n c))).
Proof.
  intros (_ & _ & Hs & Hn & Hx & Hcopy) HN. pose proof (serving_trust _ me c Hs) as [Hwf Hl Ho].
  pose proof (deposit_refines (N + k) (trust me c) me tag item (me ++ wire) (n_now n) Hwf ltac:(lia) (proj1 Hl)) as Hd.
  specialize (Hd ltac:(split_and!; [done|done|done|apply Forall_app; split; [apply Hme|done]|done]) (trusted_may me c Ho)).
  destruct (deposit me tag item (me ++ wire) (n_now n) (trust me c)) as [c' r]. destruct Hd as (W & L & _ & E).
  cbn [inner trust limits] in E, L. split_and!; [split; [done|by rewrite L|by rewrite L]|done|..]; revert E; unfold spec_deposit;
    (destruct (_ || _); [by intros [= <- <-]|]);
    (assert (find_key (tag, item) (view (inner c)) = Some (copy (expiry n c)) ->
       find_key (tag, item) (live (n_now n) (view (inner c))) = Some (copy (expiry n c))) as H1;
       [intros H1; apply find_filter; [done|]; cbn; lia|]);
    (assert (find_key (tag, item) (view (inner c)) = None -> find_key (tag, item) (live (n_now n) (view (inner c))) = None) as H2;
       [apply find_filter_none|]).
  - destruct Hcopy as [Hc|Hc]; [rewrite (H2 Hc)|rewrite (H1 Hc); intros [= <- <-]; auto].
    destruct (refusal _ _ _ _); intros [= <- <-]; [auto|right]. rewrite find_append, H2 by done. unfold find_key. cbn. by rewrite bool_decide_eq_true_2.
  - intros E Hc. rewrite (H1 Hc) in E. injection E as <- <-. auto.
  - intros E Hr. destruct Hcopy as [Hc|Hc]; [rewrite (H2 Hc) in E|rewrite (H1 Hc) in E; injection E as <- <-; auto].
    destruct (refusal _ _ _ _); injection E as <- <-; [done|]. rewrite find_append, H2 by done. unfold find_key. cbn. by rewrite bool_decide_eq_true_2.
Qed.

(** One deposit, over a link of any kind. *)
Lemma tr_deposit_copy k h t net :
  hosts k net -> h ∈ hs -> h <> peer -> 0 <= k -> N + k < u64_max ->
  let '(net', r) := tr_deposit (MailboxTransport := chat_transport me) h tag item (me ++ wire) t net in
  hosts (k + 1) net' /\ (forall h', has_copy h' net -> has_copy h' net') /\ (is_ok r = true -> has_copy h net').
Proof.
  intros Hh Hin Hne Hk HN. destruct (Hh h Hin Hne) as (n & c & Hhost). pose proof (deposit_copy k h n c net Hhost HN) as Hd.
  assert (forall net', nodes net' = nodes net -> hosts (k + 1) net' /\ (forall h', has_copy h' net -> has_copy h' net')) as Hsame.
  { intros net' E. split; [|unfold has_copy; by rewrite E]. intros h' Hin' Hne'. destruct (Hh h' Hin' Hne') as (n' & c' & H1 & H2 & [? ? ?] & H4).
    exists n', c'. split_and!; try done; try apply H4. - unfold stored_at. by rewrite E. - split; try done. eapply wf_more; [done|lia]. }
  cbn [tr_deposit chat_transport]. pose proof (exchange_any me h (RDeposit tag item (me ++ wire)) net) as He.
  specialize (He ltac:(split_and!; [done|done|apply Forall_app; split; [apply Hme|done]|rewrite zlen_app; unfold zlen at 1; rewrite (array_len _ _ Hme); lia])).
  destruct (exchange me h (RDeposit tag item (me ++ wire)) net) as [net' r]. cbn [expect fst snd].
  destruct He as [[En ->]|(n1 & c1 & (E1 & E2 & E3) & He)].
  { destruct (Hsame net' En). done. }
  pose proof Hhost as ((E4 & E5 & E6) & Hp & Hs & Hnow & Hx & _). rewrite E4 in E1. injection E1 as <-. rewrite E5 in E2. injection E2 as <-.
  cbn [respond] in He. destruct (deposit me tag item (me ++ wire) (n_now n) (trust me c)) as [c' o]. destruct Hd as (S' & L' & D1 & D2 & D3).
  cbn [answer fst snd] in He. destruct He as [En Hr]. set (n' := mkNode (Some c') (n_allowed n) (n_now n)) in *.
  assert (expiry n' c' = expiry n c) as Ex by (unfold expiry; by rewrite L').
  assert (find_key (tag, item) (view (inner c')) = Some (copy (expiry n c)) -> has_copy h net') as Hhas.
  { intros Hf. exists n', c'. rewrite En, lookup_insert_eq, Ex. done. }
  split_and!.
  - intros h' Hin' Hne'. destruct (decide (h = h')) as [<-|Hd].
    + exists n', c'. unfold host, stored_at. rewrite En, lookup_insert_eq, Ex. split_and!; try done; [by replace (N + (k + 1)) with (N + k + 1) by lia|change (n_now n') with (n_now n); lia..].
    + destruct (Hsame (mkNet (nodes net) []) eq_refl) as [Ho _]. destruct (Ho h' Hin' Hne') as (n2 & c2 & (F1 & F2 & F3) & F4).
      exists n2, c2. split_and!; try apply F4. unfold stored_at. rewrite En, lookup_insert_ne by done. done.
  - intros h' (n2 & c2 & F1 & F2 & F3). destruct (decide (h = h')) as [<-|Hd].
    + apply Hhas, D2. rewrite E4 in F1. injection F1 as <-. rewrite E5 in F2. by injection F2 as <-.
    + exists n2, c2. rewrite En, lookup_insert_ne by done. done.
  - intros Hok. apply Hhas, D3. destruct o as [o|e]; [done|]. destruct (Hr ltac:(done)) as [->| ->]; done.
Qed.

(** The whole round. *)
Lemma deposit_loop_copy copies t holders k rep net :
  hosts k net -> (forall h, h ∈ holders -> h ∈ hs) -> 0 <= k -> N + k + zlen holders <= u64_max -> (forall h, h ∈ held_by rep -> has_copy h net) ->
  let '(net', rep') := deposit_loop (H := chat_transport me) copies peer tag item (me ++ wire) t holders rep net in
  hosts (k + zlen holders) net' /\ (forall h, h ∈ held_by rep' -> has_copy h net').
Proof.
  revert k rep net. induction holders as [|h hs' IH]; intros k rep net Hh Hin Hk HN Hrep; cbn [deposit_loop].
  { rewrite zlen_nil, Z.add_0_r. done. }
  assert (forall k' net', k <= k' <= k + zlen (h :: hs') -> hosts k' net' -> hosts (k + zlen (h :: hs')) net') as Hmore.
  { intros k' net' Hk' Hh' h' H1 H2. destruct (Hh' h' H1 H2) as (n & c & E1 & E2 & [W ? ?] & E4). exists n, c. split_and!; try done; try apply E4.
    split; try done. eapply wf_more; [done|lia]. }
  rewrite zlen_cons in *. pose proof (zlen_nonneg hs'). assert (forall h', h' ∈ hs' -> h' ∈ hs) as Hin' by (intros; apply Hin; by right).
  case_bool_decide as Hp.
  { specialize (IH k rep net Hh Hin' Hk ltac:(lia) Hrep). destruct (deposit_loop _ _ _ _ _ _ _ _ _) as [net' rep'].
    split; [apply (Hmore (k + zlen hs')); [lia|]|]; apply IH. }
  destruct (_ <=? _)%nat; [split; [by apply (Hmore k); [lia|]|done]|].
  pose proof (tr_deposit_copy k h t net Hh (Hin h ltac:(left)) Hp Hk ltac:(lia)) as Ht. cbn [tr_deposit chat_transport] in *.
  destruct (expect _ _) as [net1 r]. destruct Ht as (Hh1 & Hkeep & Hok).
  specialize (IH (k + 1) (match r with Ok _ => mkDepositReport (held_by rep ++ [h]) (failed rep) | Err e => mkDepositReport (held_by rep) (failed rep ++ [(h, e)]) end)
    net1 Hh1 Hin' ltac:(lia) ltac:(lia)). replace (k + (zlen hs' + 1)) with (k + 1 + zlen hs') by lia. apply IH.
  intros h' Hh'. destruct r as [o|e]; cbn in Hh'; [|by apply Hkeep, Hrep]. apply elem_of_app in Hh' as [Hh'|Hh'%list_elem_of_singleton]; [by apply Hkeep, Hrep|].
  subst h'. by apply Hok.
Qed.

End Leave.

(** ** From the sender to the recipient *)

(** The id of an envelope, and its size. *)
Lemma item_id_of_envelope wire item :
  bytes_ok wire -> item_id_of wire = Some item -> array 16 item /\ wire <> [] /\ 32 + zlen wire <= MAX_ITEM_BYTES.
Proof.
  unfold item_id_of. intros Hw E. destruct (env_decode wire) as [e|] eqn:D; [|done]. injection E as <-.
  apply env_encode_decode in D as [<- ((Hid & Hio) & ((Hd & _) & _ & _ & Hek) & _ & Hc)]; [|done]. unfold env_encode, header_bytes, MAX_ITEM_BYTES, MAX_FRAME_BODY.
  unfold MAX_CIPHERTEXT in Hc. split_and!; [done|done|]. unfold zlen in *. rewrite !length_app, !be_bytes_length, Hid, Hd. cbn [length].
  destruct (init_ek (header e)) as [ek|]; cbn [app length]; [rewrite (proj1 Hek)|]; lia.
Qed.

Lemma firsts_nodup seen xs : NoDup (firsts seen xs).*2 /\ forall x, x ∈ firsts seen xs -> (x.2 ∉ seen) /\ x ∈ xs.
Proof.
  revert seen. induction xs as [|x xs IH]; intros seen; cbn [firsts]; [split; [constructor|by intros ? ?%elem_of_nil]|].
  case_bool_decide as Hx.
  - destruct (IH seen) as [H1 H2]. split; [done|]. intros y [? ?]%H2. split; [done|by right].
  - destruct (IH ({[x.2]} ∪ seen)) as [H1 H2]. split.
    + rewrite fmap_cons. constructor; [|done]. intros (y & E & [Hy _]%H2)%list_elem_of_fmap. set_solver.
    + intros y [->|[? ?]%H2]%elem_of_cons; [split; [done|left]|]. split; [set_solver|by right].
Qed.

(** Every id that is listed is first met somewhere. *)
Lemma firsts_all seen xs id : id ∈ ids_of xs -> id ∉ seen -> exists h, (h, id) ∈ firsts seen xs.
Proof.
  revert seen. induction xs as [|[h i] xs IH]; intros seen Hin Hns; [set_solver|]. cbn [firsts snd]. case_bool_decide as Hx; [|destruct (decide (id = i)) as [->|Hne]].
  - apply IH; [|done]. unfold ids_of in *. cbn in Hin. set_solver.
  - exists h. left.
  - destruct (IH ({[i]} ∪ seen)) as [h' Hh]; [unfold ids_of in *; cbn in Hin; set_solver|set_solver|]. exists h'. by right.
Qed.

(** A receiver that stores every message. *)
Definition keep_item (sender wire : bytes) (r : list (bytes * bytes)) : list (bytes * bytes) * bool := (r ++ [(sender, wire)], true).

Lemma received_keep blobs r t xs :
  (received keep_item blobs (r, t) xs).1 = r ++ omap (handed blobs) xs /\
  forall x p, x ∈ xs -> handed blobs x = Some p -> x.2 ∈ (received keep_item blobs (r, t) xs).2.
Proof.
  assert (forall ys st id, id ∈ st.2 -> id ∈ (received keep_item blobs st ys).2) as Hkeep.
  { induction ys as [|x xs' IH]; intros st id Hid; [done|]. change (received keep_item blobs st (x :: xs')) with (received keep_item blobs (receive keep_item blobs st x) xs').
    apply IH. unfold receive. destruct (handed blobs x) as [[sd w]|]; [cbn; set_solver|done]. }
  revert r t. induction xs as [|x xs IH]; intros r t; [split; [by rewrite app_nil_r|by intros ? ? ?%elem_of_nil]|].
  change (received keep_item blobs (r, t) (x :: xs)) with (received keep_item blobs (receive keep_item blobs (r, t) x) xs).
  unfold receive. cbn [omap list_omap]. destruct (handed blobs x) as [[sd w]|] eqn:E; cbn [fst snd keep_item].
  - destruct (IH (r ++ [(sd, w)]) ({[x.2]} ∪ t)) as [H1 H2]. split; [rewrite H1, <- app_assoc; done|].
    intros y p [->|Hy]%elem_of_cons Hp; [apply Hkeep; cbn; set_solver|by eapply H2].
  - destruct (IH r t) as [H1 H2]. split; [done|]. intros y p [->|Hy]%elem_of_cons Hp; [congruence|by eapply H2].
Qed.

(** The stores that are asked. *)
Definition asked_stores (peer : bytes) (hs : list bytes) (net : Net) : gmap bytes MemoryCustody :=
  omap n_store (filter (fun x => x.1 ∈ hs /\ x.1 <> peer) (nodes net)).

Lemma asked_lookup peer hs net h n c :
  h ∈ hs -> h <> peer -> nodes net !! h = Some n -> n_store n = Some c -> asked_stores peer hs net !! h = Some c.
Proof. intros. unfold asked_stores. rewrite lookup_omap. rewrite (proj2 (map_lookup_filter_Some _ _ _ _) (conj H1 (conj H H0))). done. Qed.

Lemma asked_inv peer hs net h c : asked_stores peer hs net !! h = Some c ->
  h ∈ hs /\ h <> peer /\ exists n, nodes net !! h = Some n /\ n_store n = Some c.
Proof.
  unfold asked_stores. rewrite lookup_omap. destruct (filter _ (nodes net) !! h) as [n|] eqn:E; [|done]. cbn. intros Hc.
  apply map_lookup_filter_Some in E as [? [? ?]]. split_and!; try done. by exists n.
Qed.

Section Delivery.
Context (me peer tag item wire : bytes) (hs : list bytes) (now N : Z).
Context (Hme : array 32 me) (Htag : array 16 tag) (Hwire : wire <> []) (Hnow : in_u64 now) (net : Net).
Context (Hhosts : hosts me peer tag item wire hs now N 0 net).
Abbreviation base := (asked_stores peer hs net).
Hypothesis listed : forall h, (length (items_for tag (at_start now base h)) <= MAX_LIST)%nat.

Lemma base_host h c : base !! h = Some c -> exists n, host me peer tag item wire now N 0 h n c net.
Proof.
  intros (Hin & Hne & n & Hn & Hc)%asked_inv. destruct (Hhosts h Hin Hne) as (n' & c' & Hh). exists n'.
  pose proof (proj1 Hh) as (E1 & E2 & _). by simplify_eq.
Qed.

Lemma base_serving h c : base !! h = Some c -> serving N c.
Proof. intros [n (_ & _ & Hs & _)]%base_host. by rewrite Z.add_0_r in Hs. Qed.

Lemma host_up h : h ∈ hs -> h <> peer -> up base h.
Proof. intros Hin Hne. destruct (Hhosts h Hin Hne) as (n & c & (E1 & E2 & _) & _). exists c. by eapply asked_lookup. Qed.

Lemma start_collecting : collecting peer tag now base N [] (mkNet (nodes net) []).
Proof.
  split; [done|]. intros h [c Hc]. destruct (base_host h c Hc) as (n & (E1 & E2 & _) & Hp & Hs & _). rewrite Z.add_0_r in Hs.
  exists n, c. split_and!; try done. rewrite left_nil. unfold at_start. by rewrite Hc.
Qed.

(** A listed copy of the item is the one that was left. *)
Lemma listed_copy h : item ∈ ids_at tag now base h -> handed (blob_at tag now base) (h, item) = Some (me, wire).
Proof.
  unfold ids_at, handed, blob_at. cbn [fst snd]. intros Hin%elem_of_take. destruct Hin as (i & Hi%list_elem_of_lookup_2 & _).
  apply list_elem_of_fmap in Hi as (e & Ee & Hin%list_elem_of_In). apply filter_In in Hin as [Hin%list_elem_of_In Ht%bool_decide_eq_true].
  unfold at_start in *. destruct (base !! h) as [c|] eqn:Eb; [|by apply elem_of_nil in Hin].
  destruct (base_host h c Eb) as (n & _ & _ & _ & _ & Hx & Hcopy).
  assert (find_key (tag, item) (view (inner c)) = Some (copy me tag item wire (expiry n c))) as Hf.
  { destruct Hcopy as [Hn|]; [|done]. apply list_elem_of_In, filter_In in Hin as [Hin _]. apply (find_none _ _ Hn), bool_decide_eq_false in Hin.
    destruct Hin. destruct (kept_key e). cbn in *. congruence. }
  assert (find_key (tag, item) (live now (view (inner c))) = Some (copy me tag item wire (expiry n c))) as ->.
  { apply find_filter; [done|]. cbn. apply negb_true_iff, Z.leb_gt. lia. }
  cbn [fmap option_fmap option_map kept_blob copy snd].
  destruct Hme as [Hl _]. rewrite (proj2 (Nat.leb_gt _ _)), take_app_length', drop_app_length'; [done|lia..|].
  rewrite length_app, Hl. destruct wire; [done|]. cbn. lia.
Qed.

Lemma has_copy_listed h : h ∈ hs -> h <> peer -> has_copy me tag item wire h net -> item ∈ ids_at tag now base h.
Proof.
  intros Hin Hne (n & c & E1 & E2 & Hf). destruct (Hhosts h Hin Hne) as (n' & c' & (E3 & E4 & _) & _ & _ & _ & Hx & _). simplify_eq.
  unfold ids_at. rewrite take_ge by (rewrite length_map; apply listed). unfold at_start. rewrite (asked_lookup peer hs net h n c) by done.
  apply list_elem_of_fmap. exists (copy me tag item wire (expiry n c)). split; [done|]. apply list_elem_of_In, filter_In. split; [|by apply bool_decide_eq_true_2].
  apply filter_In. split; [|cbn; apply negb_true_iff, Z.leb_gt; lia]. by apply find_key_eq in Hf as [_ ?%list_elem_of_In].
Qed.

(** A copy that is not listed is not there. *)
Lemma unlisted_absent h : h ∈ hs -> h <> peer -> item ∉ ids_at tag now base h -> find_key (tag, item) (at_start now base h) = None.
Proof.
  intros Hin Hne Hno. destruct (find_key (tag, item) (at_start now base h)) as [e|] eqn:Ef; [|done]. destruct Hno.
  apply find_key_eq in Ef as [Ek Hi]. unfold ids_at. rewrite take_ge by (rewrite length_map; apply listed).
  apply list_elem_of_fmap. exists e. rewrite Ek. split; [done|]. apply list_elem_of_In, filter_In. split; [by apply list_elem_of_In|].
  by rewrite Ek, bool_decide_eq_true_2.
Qed.

Lemma collect_delivers h0 :
  h0 ∈ hs -> h0 <> peer -> has_copy me tag item wire h0 net -> (size (ids_of (copies_at peer (ids_at tag now base) hs)) <= MAX_COLLECT)%nat ->
  let '(net2, got, rep) := collect_tagged (H := chat_transport peer) keep_item tag hs peer now (mkNet (nodes net) []) [] in
  (exists F, got = omap (handed (blob_at tag now base)) F /\ NoDup F.*2 /\
     exists h, (h, item) ∈ F /\ handed (blob_at tag now base) (h, item) = Some (me, wire)) /\
  forall h, h ∈ hs -> h <> peer -> exists n c, nodes net2 !! h = Some n /\ n_store n = Some c /\
    find_key (tag, item) (live now (view (inner c))) = None.
Proof.
  intros Hin0 Hne0 Hcopy0 Hsz. pose proof (collect_up peer tag now Htag Hnow base N base_serving keep_item hs (mkNet (nodes net) []) [] host_up start_collecting Hsz) as Hc.
  set (F := firsts ∅ (copies_at peer (ids_at tag now base) hs)) in *. pose proof (received_keep (blob_at tag now base) [] ∅ F) as [Hg Ht].
  destruct (received keep_item _ ([], ∅) F) as [r' t]. cbn [fst snd app] in Hg, Ht.
  destruct (collect_tagged keep_item tag hs peer now (mkNet (nodes net) []) []) as [[net2 got] rep]. destruct Hc as (-> & Hcol & _).
  assert (forall h, h ∈ hs -> h <> peer -> item ∈ ids_at tag now base h -> (h, item) ∈ copies_at peer (ids_at tag now base) hs) as Hcp.
  { intros h Hin Hne Hl. apply list_elem_of_In, in_flat_map. exists h. split; [|apply in_map, list_elem_of_In, Hl].
    apply filter_In. split; [by apply list_elem_of_In|]. by rewrite bool_decide_eq_false_2. }
  pose proof (Hcp h0 Hin0 Hne0 (has_copy_listed h0 Hin0 Hne0 Hcopy0)) as H0.
  destruct (firsts_all ∅ (copies_at peer (ids_at tag now base) hs) item) as [h1 H1].
  { apply elem_of_list_to_set, list_elem_of_fmap. by exists (h0, item). }
  { set_solver. }
  assert (handed (blob_at tag now base) (h1, item) = Some (me, wire)) as Hh.
  { apply listed_copy. destruct (firsts_nodup ∅ (copies_at peer (ids_at tag now base) hs)) as [_ Hf]. apply Hf in H1 as [_ H1%list_elem_of_In].
    apply in_flat_map in H1 as (h & _ & Hm). by apply in_map_iff in Hm as (i & [= -> ->] & Hi%list_elem_of_In). }
  split; [exists F; split_and!; [done|apply firsts_nodup|by exists h1]|].
  intros h Hin Hne. destruct (proj2 Hcol h (host_up h Hin Hne)) as (n & c & (E1 & E2 & _) & _ & Hv). exists n, c. split_and!; [done|done|].
  rewrite Hv. unfold left_at. destruct (decide (item ∈ ids_at tag now base h)) as [Hl|Hl]; [|by apply find_filter_none, unlisted_absent].
  apply find_key_none. intros e [_ Hb]%list_elem_of_In%filter_In Ek. rewrite Ek in Hb. apply negb_true_iff, bool_decide_eq_false in Hb. apply Hb. split; [done|].
  apply list_elem_of_In, filter_In. split; [by apply list_elem_of_In, Hcp|]. apply bool_decide_eq_true_2. by eapply (Ht (h1, item)).
Qed.

End Delivery.

(** C8. A message left with holders reaches its recipient: when a deposit
    over any links reports a copy, and the recipient then collects from the
    same holders while they are up, the sealed envelope and its sender are
    handed over once, with exactly the bytes left, and no holder has the
    copy any more. Each holder serves both the sender and the recipient and
    has no other item of that name, the copy has not expired, no holder has
    more than [MAX_LIST] items waiting for the recipient and all of them
    together no more than [MAX_COLLECT], and the recipient keeps everything
    it is handed. *)
Theorem mailbox_delivers `{Crypto} me peer hs copies item wire t now N net :
  let tag := for_recipient peer in
  array 32 me -> array 16 tag -> bytes_ok wire -> item_id_of wire = Some item -> in_u64 now -> N + zlen hs <= u64_max ->
  hosts me peer tag item wire hs now N 0 net ->
  let '(net1, rep) := client_deposit (H := chat_transport me) copies hs me peer item wire t net in
  let base := asked_stores peer hs net1 in
  held_by rep <> [] ->
  (forall h, (length (items_for tag (at_start now base h)) <= MAX_LIST)%nat) ->
  (size (ids_of (copies_at peer (ids_at tag now base) hs)) <= MAX_COLLECT)%nat ->
  let '(net2, got, _) := client_collect (H := chat_transport peer) keep_item hs peer now (mkNet (nodes net1) []) [] in
  (exists F, got = omap (handed (blob_at tag now base)) F /\ NoDup F.*2 /\
     exists h, (h, item) ∈ F /\ handed (blob_at tag now base) (h, item) = Some (me, wire)) /\
  forall h, h ∈ hs -> h <> peer -> exists n c, nodes net2 !! h = Some n /\ n_store n = Some c /\
    find_key (tag, item) (live now (view (inner c))) = None.
Proof.
  intros tag Hme Htag Hw Hid Hnow HN Hh. destruct (item_id_of_envelope wire item Hw Hid) as (Hitem & Hne & Hsz).
  unfold client_deposit, deposit_tagged. fold tag. set (rep0 := mkDepositReport [] []).
  pose proof (deposit_loop_copy me peer tag item wire hs now N Hme Htag Hitem Hw Hsz copies t hs 0 rep0 net Hh ltac:(done) ltac:(lia) ltac:(lia)) as Hd.
  pose proof (deposit_loop_report (H := chat_transport me) copies peer tag item (me ++ wire) t hs rep0 net ltac:(cbn; lia)) as (_ & asked & Hpre & Hperm & _).
  specialize (Hd ltac:(by intros h ?%elem_of_nil)). destruct (deposit_loop copies peer tag item (me ++ wire) t hs rep0 net) as [net1 rep].
  destruct Hd as [Hh1 Hhas]. rewrite Z.add_0_l in Hh1. cbn zeta. intros Hheld Hlist Hmax. cbn [snd] in *.
  destruct (held_by rep) as [|h0 rest] eqn:Er; [done|]. assert (h0 ∈ hs /\ h0 <> peer) as [Hin0 Hne0].
  { assert (h0 ∈ asked) as Ha by (rewrite app_nil_l in Hperm; rewrite <- Hperm; left).
    destruct Hpre as [z Ez]. assert (h0 ∈ others_than peer hs) as Ho by (rewrite Ez; apply elem_of_app; by left).
    apply list_elem_of_In, filter_In in Ho as [? Hb%negb_true_iff%bool_decide_eq_false]. by rewrite list_elem_of_In. }
  assert (hosts me peer tag item wire hs now (N + zlen hs) 0 net1) as Hh1'.
  { intros h H1 H2. destruct (Hh1 h H1 H2) as (n & c & E1 & E2 & E3 & E4). exists n, c. split_and!; try done; try apply E4. by rewrite Z.add_0_r. }
  apply (collect_delivers me peer tag item wire hs now (N + zlen hs) Hme Htag Hne Hnow net1 Hh1' Hlist h0 Hin0 Hne0); [|done].
  apply Hhas. left.
Qed.

(** ** What the protocol does not prevent *)

(** The clock in a request is the clock of the caller: one listing with a
    clock in the far future makes a holder drop every item it keeps, for every
    recipient. *)
Theorem caller_clock_empties n c who tag now :
  serving n c -> array 16 tag ->
  items (inner (serve_custody who (encode_request (RList tag u64_max)) now c).1) = ∅.
Proof.
  intros [Hwf Hl Ho] Ht. unfold serve_custody. destruct (custody_request_reads (RList tag u64_max) []) as [Hr _]; [by split|].
  rewrite app_nil_r in Hr. rewrite Hr. cbn [respond answer]. unfold list_items. rewrite trusted_may by done. cbn [fst inner set_inner].
  rewrite sweep_where, remove_where_items. apply map_eq. intros k. rewrite lookup_empty, map_lookup_filter. cbn [inner trust].
  destruct (items (inner c) !! k) as [h|] eqn:Hk; [|done]. cbn. destruct (wf_shaped _ _ Hwf k h Hk) as (_ & _ & _ & _ & Hx).
  rewrite option_guard_False; [done|]. unfold expired. rewrite (proj2 (Z.leb_le _ _)) by ulia. done.
Qed.

(** A bad copy hides the good ones: when the first holder that lists an item
    returns something the receiver does not take, the copies at later holders
    are not fetched in that round. *)
Theorem bad_copy_hides_good {S R} (T : MailboxTransport S) (take_item : bytes -> bytes -> R -> R * bool) me tag now h1 h2 id bad s0 s1 s2 s3 r r' :
  h1 <> me -> h2 <> me -> (32 < length bad)%nat -> tr_list h1 tag now s0 = (s1, Ok [id]) -> tr_fetch h1 tag id now s1 = (s2, Ok (Some bad)) ->
  take_item (take 32 bad) (drop 32 bad) r = (r', false) -> tr_list h2 tag now s2 = (s3, Ok [id]) ->
  collect_tagged take_item tag [h1; h2] me now s0 r = (s3, r', mkCollectReport 1 0 1 0).
Proof.
  intros H1 H2 Hl E1 E2 E3 E4. unfold collect_tagged. set (c0 := mkCollecting _ ∅ ∅ [] s0 r).
  set (c1 := mkCollecting (mkCollectReport 1 0 0 0) ({[id]} ∪ ∅) ∅ [] s2 r').
  assert (collect_ids take_item h1 tag now [id] (with_net s1 c0) = c1) as Ec1.
  { cbn [collect_ids]. rewrite bool_decide_eq_false_2 by set_solver. cbn [with_seen with_net co_seen co_net c0].
    rewrite (proj2 (Nat.ltb_ge _ _)) by (rewrite union_empty_r_L, size_singleton; unfold MAX_COLLECT; lia). rewrite E2.
    rewrite (proj2 (Nat.leb_gt _ _)) by done. unfold on_item. cbn [co_recv with_net with_seen c0]. by rewrite E3. }
  assert (collect_ids take_item h2 tag now [id] (with_net s3 c1) = on_repeated h2 id (with_net s3 c1)) as Ec2.
  { cbn [collect_ids]. by rewrite bool_decide_eq_true_2 by set_solver. }
  cbn [collect_holders]. rewrite (bool_decide_eq_false_2 (h1 = me)) by done. change (co_net c0) with s0. rewrite E1. rewrite Ec1.
  rewrite (bool_decide_eq_false_2 (h2 = me)) by done. change (co_net c1) with s2. rewrite E4, Ec2. unfold on_repeated.
  rewrite bool_decide_eq_false_2 by set_solver. done.
Qed.

(** ** An example *)

Module MailboxDemo.

#[local] Instance toy_hash : Crypto := {
  blake3 d := d; blake3_derive c d := take 32 (d ++ c);
  aead_seal k n a p := Some p; aead_open k n a c := Some c; hkdf salt ikm info := Some (take 32 ikm);
  sharks_deal k s c n := []; sharks_recover k s := None;
}.

Definition sender : bytes := replicate 32 1.
Definition peer : bytes := replicate 32 2.
Definition h1 : bytes := replicate 32 3.
Definition h2 : bytes := replicate 32 4.
Definition item : bytes := replicate 16 9.
Definition wire : bytes := env_encode (mkEnv item (mkHeader (replicate 32 5) 0 0 None) (replicate 16 6)).
Definition tag : bytes := for_recipient peer.

Definition on_limits : CustodyLimits := mkLimits true MAX_ITEM_BYTES (2 * 1024 * 1024) 256 64 (512 * 1024) (14 * 86400000).
Definition store : MemoryCustody := new_custody on_limits.
Definition node : HolderNode := mkNode (Some store) {[sender; peer]} 100.

(** The answer of the second holder is lost; both have the copy. *)
Definition net : Net := mkNet {[h1 := node; h2 := node]} [LUp; LLost].

Lemma store_serving : serving 0 store.
Proof.
  assert (limits_ok on_limits) as Hl by (unfold limits_ok, on_limits, MAX_ITEM_BYTES, MAX_FRAME_BODY; cbn; split_and!; ulia).
  split; [by apply wf_new_custody|by apply clamped_ceilings|done].
Qed.

Lemma net_hosts : hosts sender peer tag item wire [h1; h2] 200 0 0 net.
Proof.
  intros h Hin _. exists node, store. split_and!.
  - split_and!; [|done|set_solver]. apply elem_of_cons in Hin as [->|Hin%list_elem_of_singleton]; [reflexivity|subst h; reflexivity].
  - set_solver.
  - exact store_serving.
  - cbn. ulia.
  - cbn. lia.
  - vm_compute. reflexivity.
  - left. vm_compute. reflexivity.
Qed.

Definition round : Net * DepositReport := client_deposit (H := chat_transport sender) 2 [h1; h2] sender peer item wire 100 net.

Lemma few_waiting h : (length (items_for tag (at_start 200 (asked_stores peer [h1; h2] round.1) h)) <= MAX_LIST)%nat.
Proof.
  assert (bool_decide (map_Forall (fun _ c => (length (items_for tag (live 200 (view (inner c)))) <= MAX_LIST)%nat)
    (asked_stores peer [h1; h2] round.1)) = true) as Hall by (vm_compute; reflexivity).
  apply bool_decide_eq_true in Hall. unfold at_start. destruct (asked_stores peer [h1; h2] round.1 !! h) as [c|] eqn:E; [by apply (Hall h c)|].
  cbn. lia.
Qed.

Lemma mailbox_delivers_witness :
  held_by round.2 = [h1] /\
  let '(_, got, rep) := client_collect (H := chat_transport peer) keep_item [h1; h2] peer 200 (mkNet (nodes round.1) []) [] in
  got = [(sender, wire)] /\ rep = mkCollectReport 1 1 1 0 /\
  exists F, got = omap (handed (blob_at tag 200 (asked_stores peer [h1; h2] round.1))) F /\ NoDup F.*2.
Proof.
  split; [vm_compute; reflexivity|].
  pose proof (mailbox_delivers sender peer [h1; h2] 2 item wire 100 200 0 net) as H.
  specialize (H ltac:(split; [done|by apply bytes_check]) ltac:(split; [done|by apply bytes_check]) ltac:(by apply bytes_check) ltac:(vm_compute; reflexivity)
    ltac:(ulia) ltac:(vm_compute; discriminate) net_hosts).
  assert (held_by round.2 <> []) as Hh by (vm_compute; discriminate).
  assert (size (ids_of (copies_at peer (ids_at tag 200 (asked_stores peer [h1; h2] round.1)) [h1; h2])) <= MAX_COLLECT)%nat as Hs.
  { apply Nat.leb_le. vm_compute. reflexivity. }
  pose proof few_waiting as Hw. unfold round in *. destruct (client_deposit 2 [h1; h2] sender peer item wire 100 net) as [net1 rep1] eqn:E1.
  cbn [fst snd] in *. specialize (H Hh Hw Hs).
  destruct (client_collect keep_item [h1; h2] peer 200 (mkNet (nodes net1) []) []) as [[net2 got] rep] eqn:E2.
  assert (got = [(sender, wire)] /\ rep = mkCollectReport 1 1 1 0) as [Hg Hr].
  { apply (f_equal fst) in E1. cbn [fst] in E1. rewrite <- E1 in E2. apply (f_equal (fun x => (x.1.2, x.2))) in E2. vm_compute in E2.
    injection E2 as <- <-. by split. }
  destruct H as [(F & HF & Hn & _) _]. split_and!; [done|done|]. by exists F.
Defined.

Lemma caller_clock_empties_witness :
  let c := (deposit sender tag item wire 100 (trust sender store)).1 in
  size (items (inner c)) = 1%nat /\ items (inner (serve_custody peer (encode_request (RList tag u64_max)) 100 c).1) = ∅.
Proof.
  cbn zeta. split; [vm_compute; reflexivity|]. apply (caller_clock_empties 1).
  - pose proof (deposit_refines 0 (trust sender store) sender tag item wire 100) as Hd. pose proof store_serving as [Hwf Hl Ho].
    specialize (Hd ltac:(by destruct Hwf; split) ltac:(ulia) (proj1 Hl)).
    specialize (Hd ltac:(split_and!; [split; [done|by apply bytes_check]|split; [done|by apply bytes_check]|split; [done|by apply bytes_check]|by apply bytes_check|ulia]) eq_refl).
    destruct (deposit sender tag item wire 100 (trust sender store)) as [c r]. destruct Hd as (W & L & _). cbn [fst]. split; [done|by rewrite L|by rewrite L].
  - split; [done|by apply bytes_check].
Defined.

(** A first holder with a copy that does not open, a second with a good one. *)
Definition junk : bytes := replicate 40 0.
#[local] Instance two_holders : MailboxTransport unit := {
  tr_deposit _ _ _ _ _ s := (s, Err Unreachable); tr_list _ _ _ s := (s, Ok [item]);
  tr_fetch h _ _ _ s := (s, Ok (Some (if bool_decide (h = h1) then junk else sender ++ wire))); tr_delete _ _ _ s := (s, Ok true);
}.
Definition opens (s w : bytes) (r : list bytes) : list bytes * bool := if bool_decide (s = sender) then (r ++ [w], true) else (r, false).

Lemma bad_copy_hides_good_witness :
  collect_tagged opens tag [h1; h2] peer 200 tt [] = (tt, [], mkCollectReport 1 0 1 0) /\
  collect_tagged opens tag [h2; h1] peer 200 tt [] = (tt, [wire], mkCollectReport 1 1 1 0).
Proof.
  split; [|vm_compute; reflexivity].
  apply (bad_copy_hides_good two_holders opens peer tag 200 h1 h2 item junk tt tt tt tt [] []); [discriminate|discriminate|cbn; lia|reflexivity..].
Defined.

End MailboxDemo.
