(* ===== verification/Group.v ===== *)
(** * Group: signed group membership

    Models [chat/group/membership.rs]: descriptors with their byte codec, the
    rules by which one descriptor may follow another, and the chain of the
    newest descriptors with its tie-break.  BLAKE3 and Ed25519 are parameters. *)

From S2P Require Import Prelude Bytes Text Codec ErasureCode Dissolve.

(** ** Signatures *)

Class Ed25519 := {
  (* a point that decodes and is not weak *)
  valid_key (id : bytes) : bool;
  (* decoding the key and [verify_strict] *)
  ed_verify (id digest sig : bytes) : bool;
  ed_public (secret : bytes) : bytes;
  ed_sign (secret digest : bytes) : bytes;
}.

(** A signature by a key verifies under it. *)
Definition ed_correct `{Ed25519} : Prop :=
  forall secret digest, ed_verify (ed_public secret) digest (ed_sign secret digest) = true.

(** ** Descriptors *)

Definition DESCRIPTOR_VERSION : Z := 1.
Definition MAX_MEMBERS : nat := 32.
Definition MAX_NAME_BYTES : Z := 192.
Definition MAX_HINT_BYTES : Z := 24.
Definition MAX_CHAIN : nat := 8.
Definition HASH_LABEL : bytes := lit "miasma group v1 descriptor hash".
Definition SIGN_LABEL : bytes := lit "miasma group v1 descriptor signature".

Inductive GRole := RMember | RAdmin.
#[export] Instance GRole_eq_dec : EqDecision GRole.
Proof. solve_decision. Defined.

Definition role_code (r : GRole) : Z := match r with RMember => 0 | RAdmin => 1 end.
Definition role_from_code (c : Z) : option GRole :=
  if c =? 0 then Some RMember else if c =? 1 then Some RAdmin else None.

Record Member := mkMember { m_id : bytes; m_role : GRole; m_hint : str }.
#[export] Instance Member_eq_dec : EqDecision Member.
Proof. solve_decision. Defined.

Inductive DescError :=
| Malformed | BadSignature | WrongGroup | BadChain | NotAuthorized | NoAdmin | TooManyMembers | Gap.

Record Descriptor := mkDescriptor {
  gid : bytes;
  epoch : Z;
  d_name : str;
  created_ms : Z;
  prev_hash : bytes;
  members : list Member;
  signer : bytes;
  sig : bytes;
}.
#[export] Instance Descriptor_eq_dec : EqDecision Descriptor.
Proof. solve_decision. Defined.

Definition member_bytes (m : Member) : bytes :=
  m_id m ++ [role_code (m_role m)] ++ [str_len (m_hint m) mod 256] ++ as_bytes (m_hint m).

Definition signed_part (d : Descriptor) : bytes :=
  [DESCRIPTOR_VERSION] ++ gid d ++ be_bytes 4 (epoch d) ++ be_bytes 8 (created_ms d) ++ prev_hash d
  ++ be_bytes 2 (str_len (d_name d)) ++ as_bytes (d_name d)
  ++ [zlen (members d) mod 256] ++ flat_map member_bytes (members d) ++ signer d.

Definition desc_encode (d : Descriptor) : bytes := signed_part d ++ sig d.

Definition rd_member (b : bytes) : option (Member * bytes) :=
  '(id, b) ← rd 32 b;
  '(rc, b) ← rd_u8 b;
  role ← role_from_code rc;
  '(hl, b) ← rd_u8 b;
  if MAX_HINT_BYTES <? hl then None else
  '(hint, b) ← rd_text (Z.to_nat hl) b;
  Some (mkMember id role hint, b).

(** The field reads of [decode]; each failure is [Malformed]. *)
Definition rd_descriptor (b : bytes) : option Descriptor :=
  '(v, b) ← rd_u8 b;
  if negb (v =? DESCRIPTOR_VERSION) then None else
  '(g, b) ← rd 16 b;
  '(ep, b) ← rd_int 4 b;
  '(cr, b) ← rd_int 8 b;
  '(ph, b) ← rd 32 b;
  '(nl, b) ← rd_int 2 b;
  if (nl =? 0) || (MAX_NAME_BYTES <? nl) then None else
  '(nm, b) ← rd_text (Z.to_nat nl) b;
  '(n, b) ← rd_u8 b;
  if (n =? 0) || (Z.of_nat MAX_MEMBERS <? n) then None else
  '(ms, b) ← rd_list rd_member (Z.to_nat n) b;
  '(sn, b) ← rd 32 b;
  '(sg, b) ← rd 64 b;
  if negb (rd_done b) || (ep =? 0) then None else
  Some (mkDescriptor g ep nm cr ph ms sn sg).

Section Membership.
Context `{Crypto} `{Ed25519}.

(** The member loop of [check_shape], with the members before this one. *)
Fixpoint check_members (seen : list bytes) (ms : list Member) : bool :=
  match ms with
  | [] => true
  | m :: ms' =>
      if (MAX_HINT_BYTES <? str_len (m_hint m)) || negb (valid_key (m_id m)) then false
      else if bool_decide (m_id m ∈ seen) then false
      else check_members (seen ++ [m_id m]) ms'
  end.

Definition check_shape (d : Descriptor) : result unit DescError :=
  if (str_len (d_name d) =? 0) || (MAX_NAME_BYTES <? str_len (d_name d)) then Err Malformed
  else if (length (members d) =? 0)%nat then Err Malformed
  else if (MAX_MEMBERS <? length (members d))%nat then Err TooManyMembers
  else if negb (check_members [] (members d)) then Err Malformed
  else if negb (existsb (fun m => bool_decide (m_role m = RAdmin)) (members d)) then Err NoAdmin
  else Ok tt.

Definition desc_decode (b : bytes) : result Descriptor DescError :=
  match rd_descriptor b with
  | None => Err Malformed
  | Some d => let? _ := check_shape d in Ok d
  end.

Definition digest_to_sign (d : Descriptor) : bytes := blake3_derive SIGN_LABEL (signed_part d).
Definition desc_hash (d : Descriptor) : bytes := blake3_derive HASH_LABEL (desc_encode d).

Definition set_signer (id : bytes) (d : Descriptor) : Descriptor :=
  mkDescriptor (gid d) (epoch d) (d_name d) (created_ms d) (prev_hash d) (members d) id (sig d).
Definition set_sig (s : bytes) (d : Descriptor) : Descriptor :=
  mkDescriptor (gid d) (epoch d) (d_name d) (created_ms d) (prev_hash d) (members d) (signer d) s.

Definition signed (d : Descriptor) (secret : bytes) : Descriptor :=
  let d := set_signer (ed_public secret) d in
  set_sig (ed_sign secret (digest_to_sign d)) d.

Definition verify_signature (d : Descriptor) : result unit DescError :=
  if ed_verify (signer d) (digest_to_sign d) (sig d) then Ok tt else Err BadSignature.

Definition member (d : Descriptor) (id : bytes) : option Member :=
  find (fun m => bool_decide (m_id m = id)) (members d).

Definition is_member (d : Descriptor) (id : bytes) : bool :=
  match member d id with Some _ => true | None => false end.

Definition is_admin (d : Descriptor) (id : bytes) : bool :=
  match member d id with Some m => bool_decide (m_role m = RAdmin) | None => false end.

Definition is_leave_of (d new : Descriptor) (who : bytes) : bool :=
  if negb (is_member d who) || negb (bool_decide (d_name new = d_name d)) then false
  else bool_decide (filter (fun m => m_id m <> who) (members d) = members new).

Definition may_be_followed_by (d new : Descriptor) : result unit DescError :=
  if negb (bool_decide (gid new = gid d)) || negb (created_ms new =? created_ms d) then Err WrongGroup
  else if negb (epoch new =? sat_add u32_max (epoch d) 1) || negb (bool_decide (prev_hash new = desc_hash d))
  then Err BadChain
  else if is_admin d (signer new) || is_leave_of d new (signer new) then Ok tt
  else Err NotAuthorized.

(** ** Chains *)

Inductive Pushed := Advanced | Known | Replaced.
Record Chain := mkChain { items : list Descriptor }.

#[local] Instance Chain_eq_dec : EqDecision Chain.
Proof. solve_decision. Defined.

Definition from_root (d : Descriptor) : result Chain DescError :=
  let? _ := check_shape d in
  let? _ := verify_signature d in
  if negb (is_admin d (signer d)) then Err NotAuthorized
  else if (epoch d =? 1) && negb (bool_decide (prev_hash d = replicate 32 0)) then Err BadChain
  else Ok (mkChain [d]).

(** [latest] panics on an empty chain. *)
Definition latest (c : Chain) : outcome Descriptor :=
  match last (items c) with Some d => Ret d | None => Panic end.

Definition at_epoch (c : Chain) (e : Z) : option Descriptor := find (fun d => epoch d =? e) (items c).
Definition ever_member (c : Chain) (id : bytes) : bool := existsb (fun d => is_member d id) (items c).

(** The checks a new descriptor passes before it follows [prev]. *)
Definition accept_after (prev d : Descriptor) : result unit DescError :=
  let? _ := check_shape d in
  let? _ := verify_signature d in
  may_be_followed_by prev d.

Definition push (c : Chain) (d : Descriptor) : outcome (Chain * result Pushed DescError) :=
  let! l := latest c in
  if negb (bool_decide (gid d = gid l)) then Ret (c, Err WrongGroup)
  else if sat_add u32_max (epoch l) 1 <? epoch d then Ret (c, Err Gap)
  else if epoch d <=? epoch l then
    if (epoch d <? epoch l) || bool_decide (desc_hash d = desc_hash l) then Ret (c, Ok Known)
    else if negb (bool_decide (prev_hash d = prev_hash l)) || str_leb (desc_hash l) (desc_hash d)
    then Ret (c, Ok Known)
    else
      let n := length (items c) in
      if (n <? 2)%nat then Ret (c, Err BadChain)
      else match items c !! (n - 2)%nat with
           | None => Panic
           | Some p =>
               Ret (match accept_after p d with
                    | Err e => (c, Err e)
                    | Ok _ => (mkChain (<[(n - 1)%nat := d]> (items c)), Ok Replaced)
                    end)
           end
  else
    Ret (match accept_after l d with
         | Err e => (c, Err e)
         | Ok _ =>
             let ds := items c ++ [d] in
             (mkChain (if (MAX_CHAIN <? length ds)%nat then tail ds else ds), Ok Advanced)
         end).

(** The loop of [push_all]: up to the first error. *)
Fixpoint push_loop (c : Chain) (ds : list Descriptor) : outcome (Chain * option DescError) :=
  match ds with
  | [] => Ret (c, None)
  | d :: ds' =>
      let! (c', r) := push c d in
      match r with Err e => Ret (c', Some e) | Ok _ => push_loop c' ds' end
  end.

Definition push_all (c : Chain) (ds : list Descriptor) : outcome (Chain * result bool DescError) :=
  let! l := latest c in
  let! (c', res) := push_loop c ds in
  let! l' := latest c' in
  let changed := negb (bool_decide (desc_hash l' = desc_hash l)) in
  Ret (c', match res with Some e => if changed then Ok changed else Err e | None => Ok changed end).

(** [from_items]: rebuild from stored descriptors. *)
Definition from_items (ds : list Descriptor) : outcome (result Chain DescError) :=
  match ds with
  | [] => Ret (Err Malformed)
  | d :: ds' =>
      match from_root d with
      | Err e => Ret (Err e)
      | Ok c => let! (c', res) := push_loop c ds' in
                Ret (match res with Some e => Err e | None => Ok c' end)
      end
  end.

(** ** Chains stay sound *)

(** A change of the list: by an admin of the list before it, or a member
    taking itself out and nothing else. *)
Definition authorized (a b : Descriptor) : Prop :=
  is_admin a (signer b) = true \/
  (is_member a (signer b) = true /\ d_name b = d_name a /\
   members b = filter (fun m => m_id m <> signer b) (members a)).

Record follows (a b : Descriptor) : Prop := {
  fl_gid : gid b = gid a;
  fl_created : created_ms b = created_ms a;
  fl_epoch : epoch b = sat_add u32_max (epoch a) 1;
  fl_hash : prev_hash b = desc_hash a;
  fl_auth : authorized a b;
}.

Lemma may_follow_spec a b : may_be_followed_by a b = Ok tt <-> follows a b.
Proof.
  unfold may_be_followed_by, is_leave_of. split.
  - intros Hm. destruct (bool_decide_reflect (gid b = gid a)); [|done].
    destruct (Z.eqb_spec (created_ms b) (created_ms a)); [|done]. simpl in Hm.
    destruct (Z.eqb_spec (epoch b) (sat_add u32_max (epoch a) 1)); [|done].
    destruct (bool_decide_reflect (prev_hash b = desc_hash a)); [|done]. simpl in Hm.
    split; [done..|]. unfold authorized. destruct (is_admin a (signer b)); [by left|right].
    destruct (is_member a (signer b)); [|done]. simpl in Hm.
    destruct (bool_decide_reflect (d_name b = d_name a)); [|done]. simpl in Hm.
    destruct (bool_decide_reflect (filter (fun m => m_id m <> signer b) (members a) = members b)); done.
  - intros [E1 E2 E3 E4 E5]. rewrite !bool_decide_eq_true_2 by done. rewrite E2, E3, !Z.eqb_refl. simpl.
    destruct E5 as [->|(-> & -> & ->)]; [done|]. rewrite !bool_decide_eq_true_2 by done. simpl.
    by rewrite orb_true_r.
Qed.

Definition desc_ok (d : Descriptor) : Prop := check_shape d = Ok tt /\ verify_signature d = Ok tt.

Lemma accept_after_spec a b : accept_after a b = Ok tt <-> desc_ok b /\ follows a b.
Proof.
  rewrite <- may_follow_spec. unfold accept_after, desc_ok, result_bind.
  destruct (check_shape b) as [[]|]; [|naive_solver]. destruct (verify_signature b) as [[]|]; naive_solver.
Qed.

(** What a well-formed list is. *)
Lemma check_members_spec seen ms :
  check_members seen ms = true <->
  NoDup (m_id <$> ms) /\ (forall m, m ∈ ms -> (m_id m ∉ seen) /\ valid_key (m_id m) = true
                           /\ str_len (m_hint m) <= MAX_HINT_BYTES).
Proof.
  revert seen. induction ms as [|m ms IH]; intros seen; simpl.
  - split; [intros _; split; [constructor|set_solver]|done].
  - destruct (Z.ltb_spec MAX_HINT_BYTES (str_len (m_hint m))); simpl.
    { split; [done|]. intros [_ Hm]. destruct (Hm m) as (_ & _ & ?); [left|lia]. }
    destruct (valid_key (m_id m)) eqn:Hk; simpl.
    2: { split; [done|]. intros [_ Hm]. destruct (Hm m) as (_ & ? & _); [left|congruence]. }
    case_bool_decide as Hin.
    { split; [done|]. intros [_ Hm]. destruct (Hm m) as (? & _); [left|done]. }
    rewrite IH, NoDup_cons. setoid_rewrite elem_of_cons. split.
    + intros [Hnd Hm]. split_and!; [|done|].
      * intros (m' & He & Hm')%list_elem_of_fmap. destruct (Hm m' Hm') as (Hs & _). set_solver.
      * intros m' [->|Hm']; [done|]. destruct (Hm m' Hm') as (Hs & ? & ?). split_and!; [set_solver|done|done].
    + intros [[Hni Hnd] Hm]. split; [done|]. intros m' Hm'. destruct (Hm m') as (Hs & ? & ?); [by right|].
      split_and!; [|done|done]. rewrite elem_of_app, list_elem_of_singleton. intros [?|He]; [done|].
      apply Hni. rewrite <- He. by apply list_elem_of_fmap_2.
Qed.

Record shape (d : Descriptor) : Prop := {
  sh_name : 0 < str_len (d_name d) <= MAX_NAME_BYTES;
  sh_count : (0 < length (members d) <= MAX_MEMBERS)%nat;
  sh_nodup : NoDup (m_id <$> members d);
  sh_members : forall m, m ∈ members d -> valid_key (m_id m) = true /\ str_len (m_hint m) <= MAX_HINT_BYTES;
  sh_admin : exists m, m ∈ members d /\ m_role m = RAdmin;
}.

Lemma check_shape_spec d : check_shape d = Ok tt <-> shape d.
Proof.
  unfold check_shape. pose proof (str_len_nonneg (d_name d)).
  destruct (Z.eqb_spec (str_len (d_name d)) 0); simpl; [split; [done|intros []; lia]|].
  destruct (Z.ltb_spec MAX_NAME_BYTES (str_len (d_name d))); simpl; [split; [done|intros []; lia]|].
  destruct (Nat.eqb_spec (length (members d)) 0); [split; [done|intros []; lia]|].
  destruct (Nat.ltb_spec MAX_MEMBERS (length (members d))); [split; [done|intros []; lia]|].
  destruct (check_members [] (members d)) eqn:Hm; simpl.
  2: { split; [done|]. intros [_ _ Hnd Hms _]. exfalso. apply not_true_iff_false in Hm. apply Hm.
       apply check_members_spec. split; [done|]. intros m Hin. destruct (Hms m Hin). split_and!; [set_solver|done|done]. }
  apply check_members_spec in Hm as [Hnd Hms].
  assert (existsb (fun m => bool_decide (m_role m = RAdmin)) (members d) = true <->
          exists m, m ∈ members d /\ m_role m = RAdmin) as Ha.
  { rewrite existsb_exists. setoid_rewrite bool_decide_eq_true. by setoid_rewrite list_elem_of_In. }
  destruct (existsb _ _); simpl.
  - split; [|done]. intros _. split; [lia|lia|done|naive_solver|by apply Ha].
  - split; [done|]. intros [_ _ _ _ Hadm]. apply Ha in Hadm. done.
Qed.

(** Neighbours in a chain; the epoch really grows (it saturates at its
    maximum, where [push] stops). *)
Definition linked (a b : Descriptor) : Prop := follows a b /\ epoch a < epoch b.

Record chain_ok (c : Chain) : Prop := {
  co_len : (1 <= length (items c) <= MAX_CHAIN)%nat;
  co_desc : forall d, d ∈ items c -> desc_ok d;
  co_link : forall i a b, items c !! i = Some a -> items c !! S i = Some b -> linked a b;
}.

Lemma chain_latest c : chain_ok c -> exists pre l, items c = pre ++ [l] /\ latest c = Ret l.
Proof.
  intros [Hl _ _]. destruct (items c) as [|x xs _] eqn:Hi using rev_ind; [simpl in Hl; lia|].
  exists xs, x. split; [done|]. unfold latest. by rewrite Hi, last_snoc.
Qed.

Lemma latest_snoc ds d : latest (mkChain (ds ++ [d])) = Ret d.
Proof. unfold latest; simpl. by rewrite last_snoc. Qed.

(** Appending a descriptor that may follow, and dropping the oldest when the
    chain grows too long. *)
Definition extended (c : Chain) (d : Descriptor) : Chain :=
  let ds := items c ++ [d] in mkChain (if (MAX_CHAIN <? length ds)%nat then tail ds else ds).

Lemma extended_snoc c d : chain_ok c -> exists pre, items (extended c d) = pre ++ [d] /\
  (exists l, latest c = Ret l /\ last pre = Some l) /\ suffix pre (items c).
Proof.
  intros Hc. destruct (chain_latest c Hc) as (pre & l & Hi & Hlat). destruct Hc as [Hl _ _].
  unfold extended. rewrite Hi in *. rewrite length_app in *. simpl in *.
  destruct (Nat.ltb_spec MAX_CHAIN (length (pre ++ [l]) + 1)) as [Hlt|Hlt].
  - destruct pre as [|x pre]; [unfold MAX_CHAIN in Hlt; simpl in Hlt; lia|]. simpl.
    exists (pre ++ [l]). split_and!; [done|exists l; by rewrite last_snoc|by exists [x]].
  - exists (pre ++ [l]). split_and!; [done|exists l; by rewrite last_snoc|by exists []].
Qed.

(** Linking a descriptor to the end of a linked list. *)
Lemma link_snoc ds l d :
  (forall i a b, ds !! i = Some a -> ds !! S i = Some b -> linked a b) -> last ds = Some l -> linked l d ->
  forall i a b, (ds ++ [d]) !! i = Some a -> (ds ++ [d]) !! S i = Some b -> linked a b.
Proof.
  intros Hlink Hlast Hf i a b Ha Hb. destruct (decide (S i < length ds)%nat) as [Hi|Hi].
  - rewrite !lookup_app_l in * by lia. by eapply Hlink.
  - assert (i < length (ds ++ [d]))%nat as Hi' by (by eapply lookup_lt_Some).
    assert (S i < length (ds ++ [d]))%nat as Hi'' by (by eapply lookup_lt_Some).
    rewrite length_app in Hi', Hi''. simpl in *. assert (S i = length ds) as He by lia.
    rewrite lookup_app_r, He, Nat.sub_diag in Hb by lia. injection Hb as <-.
    rewrite lookup_app_l in Ha by lia. rewrite last_lookup, <- He in Hlast. simpl in Hlast. congruence.
Qed.

Lemma suffix_link pre ds :
  suffix pre ds -> (forall i a b, ds !! i = Some a -> ds !! S i = Some b -> linked a b) ->
  forall i a b, pre !! i = Some a -> pre !! S i = Some b -> linked a b.
Proof.
  intros [k ->] Hl i a b Ha Hb. apply (Hl (length k + i)%nat).
  - rewrite lookup_app_r, Nat.add_comm, Nat.add_sub by lia. done.
  - rewrite lookup_app_r by lia. by replace (S (length k + i) - length k)%nat with (S i) by lia.
Qed.

Lemma extended_ok c d l :
  chain_ok c -> latest c = Ret l -> desc_ok d -> linked l d -> chain_ok (extended c d).
Proof.
  intros Hc Hl Hd Hf. destruct (extended_snoc c d Hc) as (pre & Hi & (l' & Hl' & Hlast) & Hsuf).
  assert (l' = l) as -> by congruence. pose proof Hc as [Hlen Hdesc Hlink]. split; rewrite ?Hi.
  - assert (length (items (extended c d)) <= MAX_CHAIN)%nat as Hle.
    { unfold extended; simpl. destruct (Nat.ltb_spec MAX_CHAIN (length (items c ++ [d]))); [|lia].
      assert (forall k : list Descriptor, length (tail k) = pred (length k)) as -> by (by intros []).
      rewrite length_app; simpl. lia. }
    rewrite Hi in Hle. rewrite length_app in *. simpl in *. lia.
  - intros x [Hx|Hx%list_elem_of_singleton]%elem_of_app; [|by subst].
    apply Hdesc. destruct Hsuf as [k ->]. set_solver.
  - eapply link_snoc; [|exact Hlast|exact Hf]. by eapply suffix_link.
Qed.

(** Putting another descriptor in the last place. *)
Lemma replaced_ok pre p l d :
  chain_ok (mkChain (pre ++ [p; l])) -> desc_ok d -> linked p d -> chain_ok (mkChain (pre ++ [p; d])).
Proof.
  assert (forall x, pre ++ [p; x] = (pre ++ [p]) ++ [x]) as Happ by (intros; by rewrite <- app_assoc).
  intros [C1 C2 C3] Hd Hf. simpl in *. split; simpl.
  - rewrite length_app in *. simpl in *. lia.
  - intros x Hx. rewrite Happ, elem_of_app, list_elem_of_singleton in Hx.
    destruct Hx as [Hx| ->]; [|done]. apply C2. rewrite Happ. set_solver.
  - rewrite Happ. eapply link_snoc; [|apply last_snoc|exact Hf].
    intros i a b Ha Hb. apply (C3 i); rewrite Happ; by apply lookup_app_l_Some.
Qed.

(** A push never panics and never breaks a chain; an error or a known
    descriptor leaves it alone; otherwise the newest descriptor is the pushed
    one, one epoch later or of the same epoch with a smaller hash. *)
Lemma push_ok c d l :
  chain_ok c -> latest c = Ret l ->
  exists c' r, push c d = Ret (c', r) /\ chain_ok c' /\
    match r with
    | Ok Advanced => c' = extended c d /\ desc_ok d /\ follows l d /\ epoch l < epoch d
    | Ok Replaced => exists pre p, items c = pre ++ [p; l] /\ c' = mkChain (pre ++ [p; d]) /\ desc_ok d /\ follows p d
        /\ epoch d = epoch l /\ str_leb (desc_hash l) (desc_hash d) = false
    | _ => c' = c
    end.
Proof.
  intros Hc Hl. unfold push. rewrite Hl. simpl.
  destruct (bool_decide (gid d = gid l)); simpl; [|by exists c, (Err WrongGroup)].
  destruct (Z.ltb_spec (sat_add u32_max (epoch l) 1) (epoch d)); [by exists c, (Err Gap)|].
  destruct (Z.leb_spec (epoch d) (epoch l)).
  - destruct ((epoch d <? epoch l) || _) eqn:Hk; [by exists c, (Ok Known)|].
    destruct (negb _ || str_leb _ _) eqn:Hh; [by exists c, (Ok Known)|].
    apply orb_false_iff in Hk as [Hk%Z.ltb_ge _], Hh as [_ Hh].
    destruct (Nat.ltb_spec (length (items c)) 2); [by exists c, (Err BadChain)|].
    destruct (chain_latest c Hc) as (pre & l' & Hi & Hl'). assert (l' = l) as -> by congruence.
    destruct pre as [|p pre _] using rev_ind; [rewrite Hi in *; simpl in *; lia|].
    rewrite Hi, <- app_assoc in *. simpl in *. rewrite length_app; simpl.
    replace (length pre + 2 - 2)%nat with (length pre + 0)%nat by lia.
    replace (length pre + 2 - 1)%nat with (length pre + 1)%nat by lia.
    rewrite lookup_app_r, Nat.add_comm, Nat.add_sub by lia. simpl.
    destruct (accept_after p d) as [[]|e] eqn:Ha; [|by exists c, (Err e)].
    apply accept_after_spec in Ha as [Hd Hf].
    assert (epoch p < epoch l) as Hpl.
    { apply (co_link c Hc (length pre)); rewrite Hi; [by apply list_lookup_middle|].
      rewrite lookup_app_r by lia. by replace (S (length pre) - length pre)%nat with 1%nat by lia. }
    exists (mkChain (pre ++ [p; d])), (Ok Replaced). split_and!.
    + rewrite (Nat.add_comm _ 1), Nat.add_comm, insert_app_r. done.
    + eapply replaced_ok; [|done|split; [done|lia]]. destruct c. simpl in Hi. by rewrite <- Hi.
    + exists pre, p. split_and!; [done|done|done|done|lia|done].
  - destruct (accept_after l d) as [[]|e] eqn:Ha; [|by exists c, (Err e)].
    apply accept_after_spec in Ha as [Hd Hf]. exists (extended c d), (Ok Advanced).
    split_and!; [done|eapply extended_ok; [done|done|done|split; [done|lia]]|done|done|done|lia].
Qed.

(** Whatever arrives, in whatever order, errors included. *)
Fixpoint run_pushes (c : Chain) (ds : list Descriptor) : outcome Chain :=
  match ds with [] => Ret c | d :: ds' => let! (c', _) := push c d in run_pushes c' ds' end.

Lemma from_root_ok d c : from_root d = Ok c -> c = mkChain [d] /\ chain_ok c.
Proof.
  unfold from_root, result_bind. destruct (check_shape d) as [[]|] eqn:Hs; [|done].
  destruct (verify_signature d) as [[]|] eqn:Hv; [|done]. destruct (is_admin d (signer d)); [|done]. simpl.
  destruct (_ && _); [done|]. intros [= <-]. split; [done|]. split; simpl.
  - unfold MAX_CHAIN. lia.
  - intros x ->%list_elem_of_singleton. by split.
  - intros [|[]]; simpl; intros; simplify_eq.
Qed.

Lemma follows_epoch a b : follows a b -> epoch b <= epoch a + 1 /\ gid b = gid a.
Proof. intros [E _ Hep _ _]. split; [rewrite Hep; ulia|done]. Qed.

(** After a push the newest descriptor is of the same group and not older. *)
Lemma push_latest c d l c' r :
  chain_ok c -> latest c = Ret l -> push c d = Ret (c', r) ->
  chain_ok c' /\ exists l', latest c' = Ret l' /\ gid l' = gid l /\ epoch l <= epoch l'.
Proof.
  intros Hc Hl Hp. destruct (push_ok c d l Hc Hl) as (c1 & r1 & Hp' & Hc' & Hr).
  rewrite Hp in Hp'. injection Hp' as <- <-. split; [done|].
  destruct r as [[]|e]; [|subst; exists l; split_and!; done || lia| |subst; exists l; split_and!; done || lia].
  - destruct Hr as (-> & _ & Hf & Hlt). destruct (extended_snoc c d Hc) as (pre & Hi & _).
    exists d. unfold latest. rewrite Hi, last_snoc. split_and!; [done|by apply follows_epoch|lia].
  - destruct Hr as (pre & p & Hi & -> & _ & Hf & Hep & _). exists d.
    replace (pre ++ [p; d]) with ((pre ++ [p]) ++ [d]) by (by rewrite <- app_assoc).
    rewrite latest_snoc. split_and!; [done| |lia].
    assert (follows p l) as Hpl.
    { apply (co_link c Hc (length pre)); rewrite Hi; [by apply list_lookup_middle|].
      rewrite lookup_app_r by lia. by replace (S (length pre) - length pre)%nat with 1%nat by lia. }
    apply follows_epoch in Hf as [_ ->], Hpl as [_ ->]. done.
Qed.

Lemma run_pushes_ok ds c l :
  chain_ok c -> latest c = Ret l ->
  exists c' l', run_pushes c ds = Ret c' /\ chain_ok c' /\ latest c' = Ret l' /\ gid l' = gid l /\ epoch l <= epoch l'.
Proof.
  revert c l. induction ds as [|d ds IH]; intros c l Hc Hl; simpl; [exists c, l; split_and!; done || lia|].
  destruct (push_ok c d l Hc Hl) as (c' & r & Hp & _). rewrite Hp. simpl.
  destruct (push_latest _ _ _ _ _ Hc Hl Hp) as (Hc' & l' & Hl' & Hg & He).
  destruct (IH c' l' Hc' Hl') as (c'' & l'' & ? & ? & ? & Hg' & He').
  exists c'', l''. split_and!; [done|done|done|congruence|lia].
Qed.

(** A push adds nothing but the pushed descriptor, and only a sound one. *)
Lemma push_items c d l c' r x :
  chain_ok c -> latest c = Ret l -> push c d = Ret (c', r) -> x ∈ items c' ->
  x ∈ items c \/ (x = d /\ desc_ok d /\ epoch l <= epoch d /\ r <> Ok Known).
Proof.
  intros Hc Hl Hp Hx. destruct (push_ok c d l Hc Hl) as (c1 & r1 & Hp' & _ & Hr).
  rewrite Hp in Hp'. injection Hp' as <- <-. destruct r as [[]|e]; [|by subst; left| |by subst; left].
  - destruct Hr as (-> & Hd & _ & He). destruct (extended_snoc c d Hc) as (pre & Hi & _ & k & Hk).
    rewrite Hi, elem_of_app, list_elem_of_singleton in Hx. rewrite Hk, elem_of_app.
    destruct Hx as [|]; [left; by right|right; split_and!; [done|done|lia|done]].
  - destruct Hr as (pre & p & Hi & -> & Hd & _ & He & _). simpl in Hx. rewrite Hi.
    apply elem_of_app in Hx as [?|[->|[->|?%elem_of_nil]%elem_of_cons]%elem_of_cons]; [left; set_solver|left; set_solver| |done].
    right. split_and!; [done|done|lia|done].
Qed.

Lemma push_loop_ok ds c l :
  chain_ok c -> latest c = Ret l ->
  exists c' e, push_loop c ds = Ret (c', e) /\ chain_ok c' /\
    (exists l', latest c' = Ret l' /\ gid l' = gid l /\ epoch l <= epoch l') /\
    (forall x, x ∈ items c' -> x ∈ items c \/ x ∈ ds).
Proof.
  revert c l. induction ds as [|d ds IH]; intros c l Hc Hl; simpl.
  - exists c, None. split_and!; [done|done|exists l; split_and!; done || lia|by left].
  - destruct (push_ok c d l Hc Hl) as (c1 & r & Hp & _). rewrite Hp. simpl.
    destruct (push_latest _ _ _ _ _ Hc Hl Hp) as (Hc1 & l1 & Hl1 & Hg & He).
    assert (forall x, x ∈ items c1 -> x ∈ items c \/ x = d) as Hi.
    { intros x Hx. destruct (push_items _ _ _ _ _ x Hc Hl Hp Hx) as [|[? _]]; [by left|by right]. }
    destruct r as [r|e].
    + destruct (IH c1 l1 Hc1 Hl1) as (c2 & e & -> & Hc2 & (l2 & Hl2 & Hg2 & He2) & Hi2).
      exists c2, e. split_and!; [done|done|exists l2; split_and!; [done|congruence|lia]|].
      intros x [[|]%Hi|]%Hi2; [by left|right; set_solver|right; set_solver].
    + exists c1, (Some e). split_and!; [done|done|by exists l1|]. intros x [|]%Hi; [by left|right; set_solver].
Qed.

Lemma push_all_ok c ds l :
  chain_ok c -> latest c = Ret l ->
  exists c' r, push_all c ds = Ret (c', r) /\ chain_ok c' /\
    (exists l', latest c' = Ret l' /\ gid l' = gid l /\ epoch l <= epoch l') /\
    (forall x, x ∈ items c' -> x ∈ items c \/ x ∈ ds).
Proof.
  intros Hc Hl. destruct (push_loop_ok ds c l Hc Hl) as (c' & e & Hp & Hc' & (l' & Hl' & Hg & He) & Hi).
  unfold push_all. rewrite Hl. simpl. rewrite Hp. simpl. rewrite Hl'. simpl.
  eexists c', _. split; [reflexivity|]. split_and!; [done|by exists l'|done].
Qed.

(** C22. Group membership is sound against any peer: a chain that starts at a root
    and is fed any descriptors, forged, reordered or repeated, never panics;
    it holds between one and eight descriptors of the group; every one of them
    is well formed (1 to 32 distinct valid keys, an admin, bounded names) and
    verifies under its signer; each follows the one before it by epoch and
    hash and was made by an admin of that one, or is a member taking only
    itself out; and the newest epoch never goes back. *)
Theorem group_chain_sound (d0 : Descriptor) (c0 : Chain) (ds : list Descriptor) :
  from_root d0 = Ok c0 ->
  exists c l, run_pushes c0 ds = Ret c /\ latest c = Ret l /\ gid l = gid d0 /\ epoch d0 <= epoch l /\
    (1 <= length (items c) <= MAX_CHAIN)%nat /\
    (forall d, d ∈ items c -> shape d /\ ed_verify (signer d) (digest_to_sign d) (sig d) = true) /\
    (forall i a b, items c !! i = Some a -> items c !! S i = Some b -> follows a b /\ epoch a < epoch b).
Proof.
  intros Hr. apply from_root_ok in Hr as [-> Hc].
  destruct (run_pushes_ok ds (mkChain [d0]) d0 Hc (latest_snoc [] d0)) as (c & l & Hrun & Hok & Hl & Hg & He).
  exists c, l. destruct Hok as [C1 C2 C3]. split_and!; [done|done|done|done|lia|lia| |exact C3]. intros d Hd.
  destruct (C2 d Hd) as [Hs Hv]. split; [by apply check_shape_spec|].
  unfold verify_signature in Hv. by destruct (ed_verify _ _ _).
Qed.

(** ** Competing changes settle *)

(** What stays of a chain when one more descriptor comes. *)
Definition kept (c : Chain) : list Descriptor :=
  if (MAX_CHAIN <? S (length (items c)))%nat then tail (items c) else items c.

Lemma extended_kept c d : chain_ok c -> extended c d = mkChain (kept c ++ [d]).
Proof.
  intros [Hl _ _]. unfold extended, kept. rewrite length_app; simpl. rewrite Nat.add_1_r.
  destruct (MAX_CHAIN <? S (length (items c)))%nat; [|done]. by destruct (items c); [simpl in Hl; lia|].
Qed.

Lemma kept_last c l : chain_ok c -> latest c = Ret l -> exists pre, kept c = pre ++ [l].
Proof.
  intros Hc Hl. destruct (extended_snoc c l Hc) as (pre & Hi & (l' & Hl' & Hlast) & _).
  rewrite (extended_kept c l Hc) in Hi. simpl in Hi. apply app_inj_2 in Hi as [-> _]; [|done].
  assert (l' = l) as -> by congruence. apply last_Some in Hlast as [k ->]. by exists k.
Qed.

(** The one of two competitors a chain settles on. *)
Definition better (cur d : Descriptor) : Descriptor :=
  if str_leb (desc_hash cur) (desc_hash d) then cur else d.

Lemma push_competitor k l cur d :
  epoch l < u32_max -> accept_after l cur = Ok tt -> accept_after l d = Ok tt ->
  exists r, push (mkChain (k ++ [l; cur])) d = Ret (mkChain (k ++ [l; better cur d]), r).
Proof.
  intros He [_ [G1 _ E1 P1 _]]%accept_after_spec Ha. pose proof Ha as [_ [G2 _ E2 P2 _]]%accept_after_spec.
  assert (forall x, k ++ [l; x] = (k ++ [l]) ++ [x]) as Happ by (intros; by rewrite <- app_assoc).
  unfold push. rewrite Happ, latest_snoc, <- Happ. simpl.
  rewrite bool_decide_eq_true_2 by congruence. simpl.
  assert (epoch d = epoch l + 1) as Ed by (rewrite E2; ulia). assert (epoch cur = epoch l + 1) as Ec by (rewrite E1; ulia).
  rewrite (proj2 (Z.ltb_ge _ _)) by (rewrite Ec, Ed; ulia).
  rewrite (proj2 (Z.leb_le _ _)), (proj2 (Z.ltb_ge _ _)) by lia. simpl. unfold better.
  case_bool_decide as Hh; [rewrite Hh, str_leb_refl; by eexists|].
  rewrite bool_decide_eq_true_2 by congruence. simpl.
  destruct (str_leb (desc_hash cur) (desc_hash d)); [by eexists|]. rewrite length_app; simpl.
  rewrite (proj2 (Nat.ltb_ge _ _)) by lia.
  replace (length k + 2 - 2)%nat with (length k + 0)%nat by lia.
  replace (length k + 2 - 1)%nat with (length k + 1)%nat by lia.
  rewrite lookup_app_r, insert_app_r by lia. replace (length k + 0 - length k)%nat with O by lia. simpl.
  rewrite Ha. by eexists.
Qed.

Lemma run_competitors k l xs cur :
  epoch l < u32_max -> accept_after l cur = Ok tt -> (forall d, d ∈ xs -> accept_after l d = Ok tt) ->
  run_pushes (mkChain (k ++ [l; cur])) xs = Ret (mkChain (k ++ [l; fold_left better xs cur])).
Proof.
  intros He. revert cur. induction xs as [|d xs IH]; intros cur Hc Hx; simpl; [done|].
  destruct (push_competitor k l cur d He Hc) as [r ->]; [apply Hx; left|]. simpl. apply IH.
  - unfold better. destruct (str_leb _ _); [done|apply Hx; left].
  - intros x Hin. apply Hx. by right.
Qed.

Lemma fold_better xs cur :
  let w := fold_left better xs cur in
  w ∈ cur :: xs /\ forall d, d ∈ cur :: xs -> str_leb (desc_hash w) (desc_hash d) = true.
Proof.
  cbv zeta. revert cur. induction xs as [|d xs IH]; intros cur; simpl.
  - split; [left|]. intros d ->%list_elem_of_singleton. apply str_leb_refl.
  - destruct (IH (better cur d)) as [Hin Hmin].
    assert (str_leb (desc_hash (better cur d)) (desc_hash cur) = true /\
            str_leb (desc_hash (better cur d)) (desc_hash d) = true /\ (better cur d = cur \/ better cur d = d))
      as (H1 & H2 & H3).
    { unfold better. destruct (str_leb (desc_hash cur) (desc_hash d)) eqn:Hle.
      - split_and!; [apply str_leb_refl|done|by left].
      - split_and!; [by apply str_leb_total|apply str_leb_refl|by right]. }
    split.
    + apply elem_of_cons in Hin as [->|Hin]; [|set_solver]. destruct H3 as [-> | ->]; set_solver.
    + intros x Hx. rewrite !elem_of_cons in Hx.
      destruct Hx as [->|[->|Hx]]; [..|apply Hmin; by right];
        (eapply str_leb_trans; [apply Hmin; left|done]).
Qed.

(** C34. Competing changes settle: when several admins change the group on the
    same descriptor, every chain that holds that descriptor as its newest and
    receives those changes, in any order and however often, ends with the same
    one on top, the one with the smallest hash (provided their hashes
    differ). *)
Theorem group_converges (c : Chain) (l : Descriptor) (ds : list Descriptor) :
  chain_ok c -> latest c = Ret l -> epoch l < u32_max -> ds <> [] ->
  (forall d, d ∈ ds -> accept_after l d = Ok tt) ->
  (forall d d', d ∈ ds -> d' ∈ ds -> desc_hash d = desc_hash d' -> d = d') ->
  exists win, win ∈ ds /\ (forall d, d ∈ ds -> str_leb (desc_hash win) (desc_hash d) = true) /\
    forall xs, (forall d, d ∈ xs <-> d ∈ ds) -> run_pushes c xs = Ret (mkChain (kept c ++ [win])).
Proof.
  intros Hc Hl He Hne Hall Hinj. destruct (kept_last c l Hc Hl) as [k Hk].
  destruct ds as [|d0 ds]; [done|]. destruct (fold_better ds d0) as [Hwin Hmin].
  exists (fold_left better ds d0). split_and!; [done|done|]. intros xs Hxs.
  destruct xs as [|x xs]; [exfalso; specialize (Hxs d0); set_solver|]. simpl.
  destruct (push_ok c x l Hc Hl) as (c' & r & Hp & _ & Hr).
  assert (accept_after l x = Ok tt) as Hx by (apply Hall, Hxs; left).
  assert (c' = mkChain (k ++ [l; x])) as ->.
  { pose proof Hx as [Hd Hf]%accept_after_spec. unfold push in Hp. rewrite Hl in Hp. simpl in Hp.
    rewrite bool_decide_eq_true_2 in Hp by apply Hf. pose proof (fl_epoch _ _ Hf) as Ex. simpl in Hp.
    rewrite (proj2 (Z.ltb_ge _ _)), (proj2 (Z.leb_gt _ _)), Hx in Hp by (rewrite Ex; ulia).
    injection Hp as <- _. change (extended c x = mkChain (k ++ [l; x])).
    by rewrite extended_kept, Hk, <- app_assoc by done. }
  rewrite Hp. simpl. rewrite run_competitors; [|done|done|intros d Hd; apply Hall, Hxs; by right].
  assert (fold_left better xs x = fold_left better ds d0) as ->; [|by rewrite Hk, <- app_assoc].
  destruct (fold_better xs x) as [Hwin' Hmin']. apply Hinj; [exact (proj1 (Hxs _) Hwin')|done|].
  apply str_leb_antisym; [exact (Hmin' _ (proj2 (Hxs _) Hwin))|exact (Hmin _ (proj1 (Hxs _) Hwin'))].
Qed.

(** ** A fork that went on never heals *)

(** Below the newest descriptor a chain holds only older ones of the group. *)
Lemma linked_older ds l d :
  (forall i a b, (ds ++ [l]) !! i = Some a -> (ds ++ [l]) !! S i = Some b -> linked a b) ->
  d ∈ ds -> gid d = gid l /\ epoch d < epoch l.
Proof.
  revert l. induction ds as [|x ds IH] using rev_ind; intros l Hlink Hd; [set_solver|].
  assert (linked x l) as [[Hg _ _ _ _] He].
  { apply (Hlink (length ds)).
    - rewrite <- app_assoc. by apply list_lookup_middle.
    - rewrite lookup_app_r; rewrite length_app; simpl; [|lia].
      by replace (S (length ds) - (length ds + 1))%nat with O by lia. }
  apply elem_of_app in Hd as [Hd| ->%list_elem_of_singleton]; [|split; [done|lia]].
  destruct (IH x) as [Hgx Hex]; [|done|split; [congruence|lia]].
  intros i a b Ha Hb. apply (Hlink i); by apply lookup_app_l_Some.
Qed.

Lemma chain_older c l d :
  chain_ok c -> latest c = Ret l -> d ∈ items c -> gid d = gid l /\ (d = l \/ epoch d < epoch l).
Proof.
  intros Hc Hl Hd. destruct (chain_latest c Hc) as (pre & l' & Hi & Hl'). assert (l' = l) as -> by congruence.
  destruct Hc as [_ _ Hlink]. rewrite Hi in *. apply elem_of_app in Hd as [Hd| ->%list_elem_of_singleton].
  - destruct (linked_older pre l d Hlink Hd). split; [done|by right].
  - split; [done|by left].
Qed.

Lemma push_all_known c l ds :
  latest c = Ret l -> (forall d, d ∈ ds -> push c d = Ret (c, Ok Known)) -> push_all c ds = Ret (c, Ok false).
Proof.
  intros Hl Hk. unfold push_all. rewrite Hl. simpl.
  assert (push_loop c ds = Ret (c, None)) as ->.
  { induction ds as [|d ds IH]; [done|]. simpl. rewrite Hk by left. simpl. apply IH. intros x Hx. apply Hk. by right. }
  simpl. rewrite Hl. simpl. by rewrite bool_decide_eq_true_2.
Qed.

Lemma forked_known a b la lb d :
  chain_ok b -> latest a = Ret la -> latest b = Ret lb ->
  gid la = gid lb -> epoch la = epoch lb -> epoch la <= u32_max -> prev_hash la <> prev_hash lb ->
  d ∈ items b -> push a d = Ret (a, Ok Known).
Proof.
  intros Hb Hla Hlb Hg He Hmax Hp Hd. destruct (chain_older b lb d Hb Hlb Hd) as [Hgd Hor].
  unfold push. rewrite Hla. simpl. rewrite bool_decide_eq_true_2 by congruence. simpl.
  assert (epoch d <= epoch la) as Hle by (destruct Hor as [->|]; lia).
  rewrite (proj2 (Z.ltb_ge _ _)), (proj2 (Z.leb_le _ _)) by ulia.
  destruct (_ || _) eqn:Hk; [done|]. apply orb_false_iff in Hk as [Hk%Z.ltb_ge _].
  destruct Hor as [->|]; [|lia]. by rewrite bool_decide_eq_false_2.
Qed.

(** C37. The tie-break cannot heal a fork that went on: once two chains of a group
    have the same epoch but grew from different descriptors one epoch earlier,
    exchanging everything they hold changes neither, and each side is told that
    there is nothing new.  Two admins who each make two changes before they hear
    of each other reach this state, with honest devices. *)
Theorem fork_never_heals (a b : Chain) (la lb : Descriptor) :
  chain_ok a -> chain_ok b -> latest a = Ret la -> latest b = Ret lb ->
  gid la = gid lb -> epoch la = epoch lb -> epoch la <= u32_max -> prev_hash la <> prev_hash lb ->
  push_all a (items b) = Ret (a, Ok false) /\ push_all b (items a) = Ret (b, Ok false).
Proof.
  intros Ha Hb Hla Hlb Hg He Hmax Hp. split; eapply push_all_known; try done; intros d Hd.
  - by apply (forked_known a b la lb).
  - apply (forked_known b a lb la); (done || lia || congruence).
Qed.

(** ** The byte form of a descriptor *)

Record member_wf (m : Member) : Prop := {
  mw_id : length (m_id m) = 32%nat /\ bytes_ok (m_id m);
  mw_hint : text_ok (m_hint m) /\ str_len (m_hint m) <= MAX_HINT_BYTES;
}.

Lemma rd_member_app m b : member_wf m -> rd_member (member_bytes m ++ b) = Some (m, b).
Proof.
  intros [[Hid _] [Ht Hl]]. pose proof (str_len_nonneg (m_hint m)). unfold MAX_HINT_BYTES in Hl.
  unfold rd_member, member_bytes. rewrite <- !app_assoc, rd_app by done. simpl.
  assert (role_from_code (role_code (m_role m)) = Some (m_role m)) as -> by (by destruct (m_role m)). simpl.
  rewrite Z.mod_small by lia. unfold MAX_HINT_BYTES. rewrite (proj2 (Z.ltb_ge _ _)) by lia.
  rewrite rd_text_app by done. by destruct m.
Qed.

Lemma rd_member_inv b m r :
  bytes_ok b -> rd_member b = Some (m, r) -> b = member_bytes m ++ r /\ member_wf m /\ bytes_ok r.
Proof.
  intros Hok. unfold rd_member. field_bytes id b1 Hid Hokid. field_u8 rc b2 Hrc.
  destruct (role_from_code rc) as [ro|] eqn:Hro; [|done]. cbn [mbind option_bind]. field_u8 hl b3 Hhl.
  destruct (Z.ltb_spec MAX_HINT_BYTES hl) as [|Hmax]; [done|]. field_text hint b4 Ht Hl. intros [= <- <-].
  pose proof (str_len_nonneg hint). assert (str_len hint = hl) as <- by lia.
  split_and!; [|split; [done|by split]|done]. unfold member_bytes; simpl.
  assert (role_code ro = rc) as ->.
  { unfold role_from_code in Hro. destruct (Z.eqb_spec rc 0), (Z.eqb_spec rc 1); simplify_eq; done. }
  rewrite Z.mod_small by lia. by rewrite <- !app_assoc.
Qed.

Lemma reads_member : reads rd_member member_bytes member_wf.
Proof. split; [exact rd_member_app|exact rd_member_inv]. Qed.

(** The descriptors that have a byte form. *)
Record desc_wf (d : Descriptor) : Prop := {
  dw_sizes : length (gid d) = 16%nat /\ length (prev_hash d) = 32%nat /\ length (signer d) = 32%nat
             /\ length (sig d) = 64%nat;
  dw_bytes : bytes_ok (gid d) /\ bytes_ok (prev_hash d) /\ bytes_ok (signer d) /\ bytes_ok (sig d);
  dw_ints : 0 < epoch d <= u32_max /\ in_u64 (created_ms d);
  dw_name : text_ok (d_name d);
  dw_members : Forall member_wf (members d);
  dw_shape : shape d;
}.

Lemma rd_descriptor_encode d : desc_wf d -> rd_descriptor (desc_encode d) = Some d.
Proof.
  intros [(L1 & L2 & L3 & L4) _ [He Hc] Hn Hm Hs]. pose proof (sh_name _ Hs) as Hnl. pose proof (sh_count _ Hs) as Hmc.
  unfold rd_descriptor, desc_encode, signed_part, MAX_NAME_BYTES, MAX_MEMBERS in *. rewrite <- !app_assoc.
  cbn [app rd_u8 mbind option_bind]. rewrite Z.eqb_refl. cbn [negb].
  rewrite rd_app by done. cbn [mbind option_bind].
  rewrite rd_u32_app by ulia. cbn [mbind option_bind]. rewrite rd_u64_app by ulia. cbn [mbind option_bind].
  rewrite rd_app by done. cbn [mbind option_bind].
  rewrite rd_u16_app by ulia. cbn [mbind option_bind].
  rewrite (proj2 (Z.eqb_neq _ _)), (proj2 (Z.ltb_ge _ _)) by lia. cbn [orb].
  rewrite rd_text_app by done. cbn [mbind option_bind rd_u8]. unfold zlen. rewrite Z.mod_small by lia.
  rewrite (proj2 (Z.eqb_neq _ _)), (proj2 (Z.ltb_ge _ _)) by lia. cbn [orb].
  rewrite Nat2Z.id, (rd_list_app _ _ _ rd_member_app) by done. cbn [mbind option_bind].
  rewrite rd_app by done. cbn [mbind option_bind]. rewrite <- (app_nil_r (sig d)), rd_app by done.
  cbn [mbind option_bind rd_done length Nat.eqb negb orb]. rewrite (proj2 (Z.eqb_neq _ _)) by lia.
  by destruct d.
Qed.

Lemma rd_descriptor_inv b d :
  bytes_ok b -> rd_descriptor b = Some d ->
  b = desc_encode d /\ (check_shape d = Ok tt -> desc_wf d).
Proof.
  intros Hok. unfold rd_descriptor.
  field_u8 v b1 Rv. destruct (Z.eqb_spec v DESCRIPTOR_VERSION) as [->|]; [|done]. cbn [negb].
  field_bytes g b2 Lg Og. field_int ep b3 Rep. field_int cr b4 Rcr. field_bytes ph b5 Lp Op. field_int nl b6 Rnl.
  destruct ((nl =? 0) || _) eqn:Hnl; [done|]. field_text nm b7 Hnm Ln. field_u8 n b8 Rn. destruct ((n =? 0) || _) eqn:Hn; [done|].
  destruct (rd_list rd_member (Z.to_nat n) b8) as [[ms b9]|] eqn:H9; [|done]. cbn [mbind option_bind].
  apply (rd_list_inv _ _ _ reads_member) in H9 as (-> & Lm & Hms & Hok9); [|done]. clear Hok.
  field_bytes sn b10 Ls Os. field_bytes sg b11 Lsg Osg.
  destruct (rd_done b11) eqn:Hnil; [|done]. apply rd_done_true in Hnil as ->. cbn [negb orb].
  destruct (Z.eqb_spec ep 0); [done|]. intros [= <-].
  assert (str_len nm = nl) as <- by (pose proof (str_len_nonneg nm); lia).
  split.
  - unfold desc_encode, signed_part. cbn [gid epoch d_name created_ms prev_hash members signer sig]. unfold zlen.
    rewrite Lm, Z2Nat.id, Z.mod_small, app_nil_r by lia.
    by rewrite <- !app_assoc.
  - intros Hsh. change (256 ^ Z.of_nat 4) with 4294967296 in Rep.
    change (256 ^ Z.of_nat 8) with 18446744073709551616 in Rcr.
    split; cbn; [done|done|split; ulia|done|done|by apply check_shape_spec].
Qed.

(** The byte form of a descriptor is canonical: decoding accepts exactly the
    encodings of well-formed descriptors and returns what was encoded, so a
    descriptor has one byte form, one hash, and a signature that covers all of
    it. *)
Theorem descriptor_canonical (b : bytes) (d : Descriptor) :
  bytes_ok b -> (desc_decode b = Ok d <-> b = desc_encode d /\ desc_wf d).
Proof.
  intros Hok. unfold desc_decode. split.
  - destruct (rd_descriptor b) as [d'|] eqn:Hr; [|done]. apply rd_descriptor_inv in Hr as [Hb Hw]; [|done].
    destruct (check_shape d') as [[]|] eqn:Hs; [|done]. simpl. intros [= <-]. split; [done|by apply Hw].
  - intros [-> Hw]. rewrite rd_descriptor_encode by done.
    by rewrite (proj2 (check_shape_spec d) (dw_shape d Hw)).
Qed.

(** ** An admin's change is accepted everywhere *)

Lemma signed_fields d secret :
  gid (signed d secret) = gid d /\ epoch (signed d secret) = epoch d /\ d_name (signed d secret) = d_name d /\
  created_ms (signed d secret) = created_ms d /\ prev_hash (signed d secret) = prev_hash d /\
  members (signed d secret) = members d /\ signer (signed d secret) = ed_public secret.
Proof. done. Qed.

Lemma signed_verifies d secret : ed_correct -> verify_signature (signed d secret) = Ok tt.
Proof. intros He. unfold verify_signature, signed; simpl. by rewrite He. Qed.

Lemma is_admin_spec d id : is_admin d id = true -> exists m, m ∈ members d /\ m_id m = id /\ m_role m = RAdmin.
Proof.
  unfold is_admin, member. destruct (find _ _) as [m|] eqn:Hf; [|done]. intros Hr%bool_decide_eq_true.
  apply find_some in Hf as [Hin Hid%bool_decide_eq_true]. exists m. by rewrite list_elem_of_In.
Qed.

Lemma is_member_spec d id : is_member d id = true <-> exists m, m ∈ members d /\ m_id m = id.
Proof.
  unfold is_member, member. destruct (find _ _) as [m|] eqn:Hf.
  - apply find_some in Hf as [Hin Hid%bool_decide_eq_true]. split; [intros _|done]. exists m. by rewrite list_elem_of_In.
  - split; [done|]. intros (m & Hin%list_elem_of_In & Hid). eapply find_none in Hf; [|exact Hin].
    by apply bool_decide_eq_false in Hf.
Qed.

(** A list with one member less is well formed as long as an admin stays. *)
Lemma shape_without d who :
  shape d -> (exists m, m ∈ members d /\ m_role m = RAdmin /\ m_id m <> who) ->
  forall d', d_name d' = d_name d -> members d' = filter (fun m => m_id m <> who) (members d) -> shape d'.
Proof.
  intros [S1 S2 S3 S4 S5] (a & Ha & Hr & Hw) d' Hn Hm. split; rewrite ?Hn, ?Hm.
  - done.
  - split; [|etrans; [apply length_filter|lia]].
    destruct (filter _ (members d)) eqn:Hf; [|simpl; lia].
    exfalso. assert (a ∈ filter (fun m => m_id m <> who) (members d)) as Hin by (by apply list_elem_of_filter).
    rewrite Hf in Hin. set_solver.
  - eapply sublist_NoDup; [exact S3|]. apply fmap_sublist, sublist_filter.
  - intros m Hin%list_elem_of_filter. apply S4, Hin.
  - exists a. split; [by apply list_elem_of_filter|done].
Qed.

Lemma push_advances c l d :
  chain_ok c -> latest c = Ret l -> epoch l < epoch d -> desc_ok d -> follows l d ->
  push c d = Ret (extended c d, Ok Advanced).
Proof.
  intros Hc Hl He Hd Hf. unfold push. rewrite Hl. simpl.
  rewrite bool_decide_eq_true_2 by apply Hf. pose proof (fl_epoch _ _ Hf) as Ex. simpl.
  rewrite (proj2 (Z.ltb_ge _ _)), (proj2 (Z.leb_gt _ _)) by lia.
  by rewrite (proj2 (accept_after_spec l d)) by done.
Qed.

(** ** Rebuilding a chain from its items *)

Lemma chain_prefix_ok pre rest : pre <> [] -> chain_ok (mkChain (pre ++ rest)) -> chain_ok (mkChain pre).
Proof.
  intros Hne [Hl Hd Hk]. simpl in *. rewrite length_app in Hl. split; simpl.
  - destruct pre; [done|simpl in *; lia].
  - intros d Hin. apply Hd. set_solver.
  - intros i a b Ha Hb. apply (Hk i); by apply lookup_app_l_Some.
Qed.

Lemma push_loop_rebuild pre rest :
  pre <> [] -> chain_ok (mkChain (pre ++ rest)) -> push_loop (mkChain pre) rest = Ret (mkChain (pre ++ rest), None).
Proof.
  revert pre. induction rest as [|d rest IH]; intros pre Hne Hc; simpl; [by rewrite app_nil_r|].
  pose proof (chain_prefix_ok _ _ Hne Hc) as Hp. destruct (chain_latest _ Hp) as (k & l & Hk & Hl).
  simpl in Hk. pose proof Hc as [Hlen Hd Hlink]. simpl in *.
  assert (linked l d) as [Hf He].
  { apply (Hlink (length k)); rewrite Hk, <- app_assoc; simpl.
    - by apply list_lookup_middle.
    - rewrite lookup_app_r by lia. by replace (S (length k) - length k)%nat with 1%nat by lia. }
  rewrite (push_advances _ l d); [|done|done|done|apply Hd; set_solver|done]. simpl.
  assert (extended (mkChain pre) d = mkChain (pre ++ [d])) as ->.
  { unfold extended; simpl. rewrite length_app in Hlen |- *. simpl in *.
    by rewrite (proj2 (Nat.ltb_ge _ _)) by (unfold MAX_CHAIN in *; lia). }
  rewrite IH, <- app_assoc; [done|by destruct pre|by rewrite <- app_assoc].
Qed.

(** What [from_items] makes of the items of a chain: the chain again, if its
    oldest descriptor may be a root. *)
Lemma from_items_rebuild c d0 ds :
  chain_ok c -> items c = d0 :: ds ->
  from_items (items c) = Ret (match from_root d0 with Ok _ => Ok c | Err e => Err e end).
Proof.
  intros Hc Hi. rewrite Hi. simpl. destruct (from_root d0) as [c0|e] eqn:Hr; [|done].
  apply from_root_ok in Hr as [-> _]. rewrite push_loop_rebuild; [|done|by destruct c; simpl in *; subst].
  simpl. by rewrite <- Hi; destruct c.
Qed.

(** A chain checked by evaluation. *)
Definition chain_check (c : Chain) : bool :=
  (1 <=? length (items c))%nat && (length (items c) <=? MAX_CHAIN)%nat
  && forallb (fun d => is_ok (check_shape d) && is_ok (verify_signature d)) (items c)
  && forallb (fun ab => is_ok (may_be_followed_by ab.1 ab.2) && (epoch ab.1 <? epoch ab.2)) (zip (items c) (tail (items c))).

Lemma is_ok_tt {E} (r : result unit E) : is_ok r = true -> r = Ok tt.
Proof. by destruct r as [[]|]. Qed.

Lemma chain_check_ok c : chain_check c = true -> chain_ok c.
Proof.
  unfold chain_check. intros [[[H1 H2]%andb_true_iff H3]%andb_true_iff H4]%andb_true_iff.
  rewrite forallb_forall in H3, H4. split; [lia| |].
  - intros d Hd. apply list_elem_of_In, H3, andb_true_iff in Hd as [Hs Hv]. split; by apply is_ok_tt.
  - intros i a b Ha Hb. assert ((a, b) ∈ zip (items c) (tail (items c))) as Hin.
    { apply (list_elem_of_lookup_2 _ i), lookup_zip_with_Some. exists a, b. by rewrite lookup_tail. }
    apply list_elem_of_In, H4, andb_true_iff in Hin as [Hf He]. simpl in *.
    split; [by apply may_follow_spec, is_ok_tt|lia].
Qed.
End Membership.

(** ** A concrete group *)

(** Two admins and a member, with transparent stand-ins for the hash and the
    signature. *)
Module GroupDemo.
Definition toy_hash (label data : bytes) : bytes :=
  be_bytes 32 (fold_left (fun a x => (a * 257 + x + 1) mod 1000000007) (label ++ data) 0).

#[export] Instance demo_crypto : Crypto :=
  {| blake3 _ := []; blake3_derive := toy_hash; aead_seal _ _ _ _ := None; aead_open _ _ _ _ := None;
     hkdf _ _ _ := None; sharks_deal _ _ _ _ := []; sharks_recover _ _ := None |}.

(** [n] bytes made of [b]. *)
Definition fit (n : nat) (b : bytes) : bytes := take n (map (fun x => x mod 256) b ++ replicate n 0).

#[export] Instance demo_ed : Ed25519 :=
  {| valid_key _ := true; ed_public s := fit 32 s; ed_sign s m := fit 32 s ++ fit 32 m;
     ed_verify id m sg := bool_decide (sg = id ++ fit 32 m) |}.

Definition key (n : Z) : bytes := replicate 32 n.
Definition person (n : Z) (r : GRole) : Member := mkMember (key n) r [].

Definition root : Descriptor :=
  signed (mkDescriptor (replicate 16 7) 1 (lit "team") 1000 (replicate 32 0)
            [person 1 RAdmin; person 2 RAdmin; person 3 RMember] [] []) (key 1).

Definition start : Chain := mkChain [root].

Definition next (prev : Descriptor) (ms : list Member) (secret : bytes) : Descriptor :=
  signed (mkDescriptor (gid prev) (epoch prev + 1) (d_name prev) (created_ms prev) (desc_hash prev) ms [] []) secret.

(** Admin [n] adds the person [x]. *)
Definition adds (n x : Z) (c : Chain) : Chain :=
  match latest c with
  | Ret l => match push c (next l (members l ++ [person x RMember]) (key n)) with Ret (c', _) => c' | Panic => c end
  | Panic => c
  end.

(** The newest descriptor, for the examples. *)
Definition top (c : Chain) : Descriptor := default root (last (items c)).

Definition one : Descriptor := top (adds 1 11 start).
Definition two : Descriptor := top (adds 2 21 start).
Definition fork_a : Chain := adds 1 12 (adds 1 11 start).
Definition fork_b : Chain := adds 2 22 (adds 2 21 start).
End GroupDemo.
Import GroupDemo.

Lemma group_chain_sound_witness :
  exists c l, run_pushes start (items fork_a ++ items fork_b ++ [one; two]) = Ret c /\ latest c = Ret l /\
    gid l = gid root /\ epoch root <= epoch l /\ (1 <= length (items c) <= MAX_CHAIN)%nat /\
    (forall d, d ∈ items c -> shape d /\ ed_verify (signer d) (digest_to_sign d) (sig d) = true) /\
    (forall i a b, items c !! i = Some a -> items c !! S i = Some b -> follows a b /\ epoch a < epoch b).
Proof. apply group_chain_sound. vm_compute. reflexivity. Defined.

Lemma group_converges_witness :
  exists win, win ∈ [one; two] /\ (forall d, d ∈ [one; two] -> str_leb (desc_hash win) (desc_hash d) = true) /\
    forall xs, (forall d, d ∈ xs <-> d ∈ [one; two]) -> run_pushes start xs = Ret (mkChain (kept start ++ [win])).
Proof.
  apply (group_converges start root [one; two]); [by apply chain_check_ok; vm_compute|reflexivity|vm_compute; reflexivity|done| |].
  - intros d [->|[->|?%elem_of_nil]%elem_of_cons]%elem_of_cons; [vm_compute; reflexivity..|done].
  - apply NoDup_map_inj, (bool_decide_unpack _). vm_compute. exact I.
Defined.

(** Two changes each before they hear of each other: the admins end with
    different groups for good. *)
Lemma fork_never_heals_witness :
  (push_all fork_a (items fork_b) = Ret (fork_a, Ok false) /\
   push_all fork_b (items fork_a) = Ret (fork_b, Ok false)) /\
  is_member (top fork_a) (key 11) = true /\ is_member (top fork_b) (key 11) = false.
Proof.
  split; [|vm_compute; split; reflexivity].
  apply (fork_never_heals fork_a fork_b (top fork_a) (top fork_b));
    [by apply chain_check_ok; vm_compute|by apply chain_check_ok; vm_compute|vm_compute; (reflexivity || discriminate)..].
Defined.

Lemma descriptor_canonical_witness : desc_encode root = desc_encode root /\ desc_wf root.
Proof.
  apply (descriptor_canonical (desc_encode root) root); [vm_compute; repeat constructor; discriminate|].
  vm_compute. reflexivity.
Defined.
