(* ===== verification/GroupState.v ===== *)
(** * GroupState: what a device remembers about one group

    Models [chat/group/state.rs]: the vector of applied counters per sender,
    the queues of a group and the document they are saved as.  The vector is
    related to the set of counters that were applied, and the document is read
    back exactly. *)

From S2P Require Import Prelude Bytes Text Codec ErasureCode Dissolve Group.

Definition STATE_VERSION : Z := 3.
Definition STATE_VERSION_V2 : Z := 2.
Definition STATE_VERSION_V1 : Z := 1.
Definition MAX_HANDED : nat := 256.
Definition MAX_PENDING : nat := 100.
Definition MAX_LEDGER : nat := 200.
Definition MAX_CTRL : nat := 256.
Definition MAX_ABOVE : nat := 256.
Definition MAX_VECTORS : nat := 256.
(** [proto::MAX_TEXT_BYTES]. *)
Definition MAX_TEXT_BYTES : Z := 4096.

Inductive Status := Pending (invited_by : bytes) | Joined | Left | Removed.
#[export] Instance Status_eq_dec : EqDecision Status.
Proof. solve_decision. Defined.

(** ** Applied counters *)

Record SenderVec := mkVec { floor : Z; above : list Z }.
#[export] Instance SenderVec_eq_dec : EqDecision SenderVec.
Proof. solve_decision. Defined.

Definition default_vec : SenderVec := mkVec 0 [].

(** [slice::binary_search] on a sorted slice: the place of [c], and whether it
    is there. *)
Definition binary_search (c : Z) (l : list Z) : bool * nat :=
  (bool_decide (c ∈ l), place (fun x => x) c l).

Definition is_new (v : SenderVec) (c : Z) : bool :=
  (floor v <? c) && negb (binary_search c (above v)).1.

(** The first loop of [mark]: too many counters wait above the floor. *)
Fixpoint drop_oldest (fl : Z) (ab : list Z) : SenderVec :=
  match ab with
  | first :: rest => if (MAX_ABOVE <? length ab)%nat then drop_oldest first rest else mkVec fl ab
  | [] => mkVec fl []
  end.

(** The second loop: the counters next to the floor join it. *)
Fixpoint absorb (fl : Z) (ab : list Z) : SenderVec :=
  match ab with
  | first :: rest => if first =? fl + 1 then absorb first rest else mkVec fl ab
  | [] => mkVec fl []
  end.

Definition mark (v : SenderVec) (c : Z) : SenderVec :=
  if c <=? floor v then v
  else
    let '(found, i) := binary_search c (above v) in
    let ab := if found : bool then above v else take i (above v) ++ c :: drop i (above v) in
    let v := drop_oldest (floor v) ab in
    absorb (floor v) (above v).

Definition missing (v : SenderVec) : Z :=
  match last (above v) with
  | Some hi => hi - floor v - zlen (above v)
  | None => 0
  end.

Definition highest (v : SenderVec) : Z := default (floor v) (last (above v)).

(** ** One group *)

Record PendingMsg := mkPending {
  p_id : bytes; p_counter : Z; p_epoch : Z; p_sent_ms : Z; p_text : str; p_to : list bytes;
}.
Record LedgerEntry := mkLedger { l_id : bytes; l_total : Z; l_delivered : Z; l_failed : Z }.

Inductive CtrlKind := KDescs | KSync.
#[export] Instance CtrlKind_eq_dec : EqDecision CtrlKind.
Proof. solve_decision. Defined.

Record Ctrl := mkCtrl { c_to : bytes; c_kind : CtrlKind; c_arg : Z }.
Record HandOver := mkHandOver { h_to : bytes; h_epoch : Z }.

Record GroupState := mkState {
  chain : Chain;
  status : Status;
  my_counter : Z;
  next_ord : Z;
  count : Z;
  last_ms : Z;
  vectors : gmap bytes SenderVec;
  pending : list PendingMsg;
  ledger : list LedgerEntry;
  ctrl : list Ctrl;
  added_by : option bytes;
  confirmed : list bytes;
  handed : list HandOver;
}.

Definition new_state (c : Chain) (st : Status) : GroupState :=
  mkState c st 0 0 0 0 ∅ [] [] [] None [] [].

(** Field assignment. *)
Definition set_chain (c : Chain) (s : GroupState) : GroupState :=
  let 'mkState _ st mc no cn lm vs pe le ct ab cf hd := s in mkState c st mc no cn lm vs pe le ct ab cf hd.
Definition set_status (st : Status) (s : GroupState) : GroupState :=
  let 'mkState c _ mc no cn lm vs pe le ct ab cf hd := s in mkState c st mc no cn lm vs pe le ct ab cf hd.
Definition set_my_counter (mc : Z) (s : GroupState) : GroupState :=
  let 'mkState c st _ no cn lm vs pe le ct ab cf hd := s in mkState c st mc no cn lm vs pe le ct ab cf hd.
Definition set_log (no cn lm : Z) (s : GroupState) : GroupState :=
  let 'mkState c st mc _ _ _ vs pe le ct ab cf hd := s in mkState c st mc no cn lm vs pe le ct ab cf hd.
Definition set_vectors (vs : gmap bytes SenderVec) (s : GroupState) : GroupState :=
  let 'mkState c st mc no cn lm _ pe le ct ab cf hd := s in mkState c st mc no cn lm vs pe le ct ab cf hd.
Definition set_pending (pe : list PendingMsg) (s : GroupState) : GroupState :=
  let 'mkState c st mc no cn lm vs _ le ct ab cf hd := s in mkState c st mc no cn lm vs pe le ct ab cf hd.
Definition set_ledger (le : list LedgerEntry) (s : GroupState) : GroupState :=
  let 'mkState c st mc no cn lm vs pe _ ct ab cf hd := s in mkState c st mc no cn lm vs pe le ct ab cf hd.
Definition set_ctrl (ct : list Ctrl) (s : GroupState) : GroupState :=
  let 'mkState c st mc no cn lm vs pe le _ ab cf hd := s in mkState c st mc no cn lm vs pe le ct ab cf hd.
Definition set_added_by (ab : option bytes) (s : GroupState) : GroupState :=
  let 'mkState c st mc no cn lm vs pe le ct _ cf hd := s in mkState c st mc no cn lm vs pe le ct ab cf hd.
Definition set_confirmed (cf : list bytes) (s : GroupState) : GroupState :=
  let 'mkState c st mc no cn lm vs pe le ct ab _ hd := s in mkState c st mc no cn lm vs pe le ct ab cf hd.
Definition set_handed (hd : list HandOver) (s : GroupState) : GroupState :=
  let 'mkState c st mc no cn lm vs pe le ct ab cf _ := s in mkState c st mc no cn lm vs pe le ct ab cf hd.

Definition confirm (s : GroupState) (peer : bytes) : GroupState * bool :=
  if bool_decide (peer ∈ confirmed s) || (MAX_MEMBERS <=? length (confirmed s))%nat then (s, false)
  else (set_confirmed (confirmed s ++ [peer]) s, true).

Definition handed_over (s : GroupState) (to : bytes) (ep : Z) : bool :=
  existsb (fun h => bool_decide (h_to h = to) && (h_epoch h =? ep)) (handed s).

Definition mark_handover (s : GroupState) (to : bytes) (ep : Z) : GroupState * bool :=
  if handed_over s to ep then (s, false)
  else
    let hs := if (MAX_HANDED <=? length (handed s))%nat then tail (handed s) else handed s in
    (set_handed (hs ++ [mkHandOver to ep]) s, true).

Definition push_ledger (s : GroupState) (e : LedgerEntry) : GroupState :=
  let l := if (MAX_LEDGER <=? length (ledger s))%nat then tail (ledger s) else ledger s in
  set_ledger (l ++ [e]) s.

(** Change the first element that satisfies [p]. *)
Fixpoint update_first {A} (p : A -> bool) (f : A -> A) (l : list A) : list A :=
  match l with [] => [] | x :: l' => if p x then f x :: l' else x :: update_first p f l' end.

(** Through [ledger_mut]: the newest entry with this id. *)
Definition update_ledger (s : GroupState) (id : bytes) (f : LedgerEntry -> LedgerEntry) : GroupState :=
  set_ledger (rev (update_first (fun e => bool_decide (l_id e = id)) f (rev (ledger s)))) s.

Definition owes (to : bytes) (kind : CtrlKind) (c : Ctrl) : bool :=
  bool_decide (c_to c = to) && bool_decide (c_kind c = kind).

Definition owe (s : GroupState) (to : bytes) (kind : CtrlKind) (arg : Z) : GroupState * bool :=
  if existsb (owes to kind) (ctrl s) then
    (match kind with
     | KSync => set_ctrl (update_first (owes to kind) (fun c => mkCtrl (c_to c) (c_kind c) arg) (ctrl s)) s
     | KDescs => s
     end, false)
  else if (MAX_CTRL <=? length (ctrl s))%nat then (s, false)
  else (set_ctrl (ctrl s ++ [mkCtrl to kind arg]) s, true).

(** ** The document *)

Definition u8_of (n : Z) : bytes := [n mod 256].

Definition put_status (st : Status) : bytes :=
  match st with Pending by_ => 0 :: by_ | Joined => [1] | Left => [2] | Removed => [3] end.
Definition put_desc (d : Descriptor) : bytes := be_bytes 2 (zlen (desc_encode d)) ++ desc_encode d.
Definition put_vector (kv : bytes * SenderVec) : bytes :=
  kv.1 ++ be_bytes 8 (floor kv.2) ++ be_bytes 2 (zlen (above kv.2)) ++ flat_map (be_bytes 8) (above kv.2).
Definition put_pending (p : PendingMsg) : bytes :=
  p_id p ++ be_bytes 8 (p_counter p) ++ be_bytes 4 (p_epoch p) ++ be_bytes 8 (p_sent_ms p)
  ++ be_bytes 2 (str_len (p_text p)) ++ as_bytes (p_text p) ++ u8_of (zlen (p_to p)) ++ concat (p_to p).
Definition put_ledger (e : LedgerEntry) : bytes := l_id e ++ [l_total e; l_delivered e; l_failed e].
Definition put_ctrl (c : Ctrl) : bytes :=
  c_to c ++ [match c_kind c with KDescs => 1 | KSync => 2 end] ++ be_bytes 4 (c_arg c).
Definition put_added_by (a : option bytes) : bytes := match a with Some a => 1 :: a | None => [0] end.
Definition put_handed (h : HandOver) : bytes := h_to h ++ be_bytes 4 (h_epoch h).

(** The part of the document behind the chain. *)
Definition put_rest (s : GroupState) : bytes :=
  be_bytes 2 (Z.of_nat (size (vectors s))) ++ flat_map put_vector (btree (vectors s))
  ++ be_bytes 2 (zlen (pending s)) ++ flat_map put_pending (pending s)
  ++ be_bytes 2 (zlen (ledger s)) ++ flat_map put_ledger (ledger s)
  ++ be_bytes 2 (zlen (ctrl s)) ++ flat_map put_ctrl (ctrl s)
  ++ put_added_by (added_by s)
  ++ u8_of (zlen (confirmed s)) ++ concat (confirmed s)
  ++ be_bytes 2 (zlen (handed s)) ++ flat_map put_handed (handed s).

Definition state_encode (s : GroupState) : bytes :=
  [STATE_VERSION] ++ put_status (status s)
  ++ be_bytes 8 (my_counter s) ++ be_bytes 8 (next_ord s) ++ be_bytes 8 (count s) ++ be_bytes 8 (last_ms s)
  ++ u8_of (zlen (items (chain s))) ++ flat_map put_desc (items (chain s))
  ++ put_rest s.

Definition rd_status (b : bytes) : option (Status * bytes) :=
  '(t, b) ← rd_u8 b;
  if t =? 0 then '(by_, b) ← rd 32 b; Some (Pending by_, b)
  else if t =? 1 then Some (Joined, b)
  else if t =? 2 then Some (Left, b)
  else if t =? 3 then Some (Removed, b)
  else None.

(** A count that must not exceed a limit. *)
Definition rd_count (width max : nat) (b : bytes) : option (nat * bytes) :=
  '(n, b) ← rd_int width b; if Z.of_nat max <? n then None else Some (Z.to_nat n, b).

(** Strictly increasing, the check on [windows(2)]. *)
Fixpoint increasing (l : list Z) : bool :=
  match l with x :: ((y :: _) as l') => (x <? y) && increasing l' | _ => true end.

Definition rd_vector (b : bytes) : option ((bytes * SenderVec) * bytes) :=
  '(id, b) ← rd 32 b;
  '(fl, b) ← rd_int 8 b;
  '(na, b) ← rd_count 2 MAX_ABOVE b;
  '(ab, b) ← rd_list (rd_int 8) na b;
  if negb (increasing ab) || match ab with f :: _ => f <=? fl | [] => false end then None
  else Some ((id, mkVec fl ab), b).

Definition rd_pending (b : bytes) : option (PendingMsg * bytes) :=
  '(id, b) ← rd 16 b;
  '(cnt, b) ← rd_int 8 b;
  '(ep, b) ← rd_int 4 b;
  '(ms, b) ← rd_int 8 b;
  '(n, b) ← rd_int 2 b;
  if (n =? 0) || (MAX_TEXT_BYTES <? n) then None else
  '(text, b) ← rd_text (Z.to_nat n) b;
  '(nt, b) ← rd_count 1 MAX_MEMBERS b;
  '(to, b) ← rd_list (rd 32) nt b;
  Some (mkPending id cnt ep ms text to, b).

Definition rd_ledger (b : bytes) : option (LedgerEntry * bytes) :=
  '(id, b) ← rd 16 b;
  '(t, b) ← rd_u8 b; '(d, b) ← rd_u8 b; '(f, b) ← rd_u8 b;
  Some (mkLedger id t d f, b).

Definition rd_ctrl (b : bytes) : option (Ctrl * bytes) :=
  '(to, b) ← rd 32 b;
  '(k, b) ← rd_u8 b;
  kind ← (if k =? 1 then Some KDescs else if k =? 2 then Some KSync else None);
  '(arg, b) ← rd_int 4 b;
  Some (mkCtrl to kind arg, b).

Definition rd_added_by (b : bytes) : option (option bytes * bytes) :=
  '(t, b) ← rd_u8 b;
  if t =? 0 then Some (None, b) else if t =? 1 then '(a, b) ← rd 32 b; Some (Some a, b) else None.

Definition rd_handed (b : bytes) : option (HandOver * bytes) :=
  '(to, b) ← rd 32 b; '(ep, b) ← rd_int 4 b; Some (mkHandOver to ep, b).

(** The part of [decode] behind the chain; older versions stop earlier. *)
Definition rd_rest (ch : Chain) (st : Status) (mc no cn lm ver : Z) (b : bytes) : option GroupState :=
  '(nv, b) ← rd_count 2 MAX_VECTORS b;
  '(vs, b) ← rd_list rd_vector nv b;
  '(np, b) ← rd_count 2 MAX_PENDING b;
  '(pe, b) ← rd_list rd_pending np b;
  '(nl, b) ← rd_count 2 MAX_LEDGER b;
  '(le, b) ← rd_list rd_ledger nl b;
  '(nc, b) ← rd_count 2 MAX_CTRL b;
  '(ct, b) ← rd_list rd_ctrl nc b;
  '(ab, cf, b) ← (if 2 <=? ver then
                    '(ab, b) ← rd_added_by b;
                    '(n, b) ← rd_count 1 MAX_MEMBERS b;
                    '(cf, b) ← rd_list (rd 32) n b;
                    Some (ab, cf, b)
                  else Some (None, [], b));
  '(hd, b) ← (if 3 <=? ver then '(n, b) ← rd_count 2 MAX_HANDED b; rd_list rd_handed n b else Some ([], b));
  if negb (rd_done b) then None
  else Some (mkState ch st mc no cn lm (fold_left (fun m kv => <[kv.1 := kv.2]> m) vs ∅) pe le ct ab cf hd).

Section Document.
Context `{Crypto} `{Ed25519}.

Definition rd_desc (b : bytes) : option (Descriptor * bytes) :=
  '(n, b) ← rd_int 2 b;
  '(x, b) ← rd (Z.to_nat n) b;
  match desc_decode x with Ok d => Some (d, b) | Err _ => None end.

(** The part of [decode] up to the chain. *)
Definition rd_head (b : bytes) : option (Z * Status * Z * Z * Z * Z * list Descriptor * bytes) :=
  '(ver, b) ← rd_u8 b;
  if negb (ver =? STATE_VERSION) && negb (ver =? STATE_VERSION_V2) && negb (ver =? STATE_VERSION_V1) then None else
  '(st, b) ← rd_status b;
  '(mc, b) ← rd_int 8 b; '(no, b) ← rd_int 8 b; '(cn, b) ← rd_int 8 b; '(lm, b) ← rd_int 8 b;
  '(nd, b) ← rd_u8 b;
  if (nd =? 0) || (Z.of_nat MAX_CHAIN <? nd) then None else
  '(ds, b) ← rd_list rd_desc (Z.to_nat nd) b;
  Some (ver, st, mc, no, cn, lm, ds, b).

(** [decode]; the outcome is the panic of an empty chain. *)
Definition state_decode (b : bytes) : outcome (option GroupState) :=
  match rd_head b with
  | None => Ret None
  | Some (ver, st, mc, no, cn, lm, ds, b) =>
      let! ch := from_items ds in
      Ret (match ch with Err _ => None | Ok ch => rd_rest ch st mc no cn lm ver b end)
  end.
End Document.

(** ** The vector is the set of applied counters *)

(** Increasing, above the floor, and bounded. *)
Record vec_ok (v : SenderVec) : Prop := {
  vo_sorted : StronglySorted Z.lt (above v);
  vo_above : forall c, c ∈ above v -> floor v < c <= u64_max;
  vo_floor : in_u64 (floor v);
  vo_len : (length (above v) <= MAX_ABOVE)%nat;
}.

Definition seen (v : SenderVec) (c : Z) : Prop := c <= floor v \/ c ∈ above v.

Lemma is_new_spec v c : is_new v c = false <-> seen v c.
Proof.
  unfold is_new, seen, binary_search; simpl. destruct (Z.ltb_spec (floor v) c); simpl; [|split; [by left|done]].
  rewrite negb_false_iff, bool_decide_eq_true. split; [by right|intros [|]; [lia|done]].
Qed.

(** What the two loops of [mark] take off the front. *)
Lemma drop_oldest_spec fl ab :
  exists pre, ab = pre ++ above (drop_oldest fl ab) /\ floor (drop_oldest fl ab) = default fl (last pre) /\
    (length (above (drop_oldest fl ab)) <= MAX_ABOVE)%nat /\
    (pre = [] \/ (MAX_ABOVE <= length (above (drop_oldest fl ab)))%nat).
Proof.
  revert fl. induction ab as [|x ab IH]; intros fl; cbn [drop_oldest].
  - exists []. split_and!; [done|done|simpl; lia|by left].
  - destruct (Nat.ltb_spec MAX_ABOVE (length (x :: ab))) as [Hlt|Hle].
    + destruct (IH x) as (pre & E & F & L & D). exists (x :: pre). split_and!; [by rewrite E at 1| |done|].
      * rewrite F. destruct pre as [|y pre]; [done|]. simpl last. by destruct (last (y :: pre)) eqn:Hl;
          [|apply last_None in Hl].
      * right. destruct D as [->|D]; [|done]. rewrite app_nil_l in E. rewrite <- E. simpl in Hlt. lia.
    + exists []. split_and!; [done|done|done|by left].
Qed.

Lemma absorb_spec fl ab :
  exists pre, ab = pre ++ above (absorb fl ab) /\ floor (absorb fl ab) = default fl (last pre) /\
    (forall x, fl < x <= floor (absorb fl ab) -> x ∈ pre).
Proof.
  revert fl. induction ab as [|x ab IH]; intros fl; cbn [absorb].
  - exists []. split_and!; [done|done|simpl; lia].
  - destruct (Z.eqb_spec x (fl + 1)) as [->|].
    + destruct (IH (fl + 1)) as (pre & E & F & G). exists (fl + 1 :: pre). split_and!; [by rewrite E at 1| |].
      * rewrite F. destruct pre as [|y pre]; [done|]. simpl last. by destruct (last (y :: pre)) eqn:Hl;
          [|apply last_None in Hl].
      * intros x Hx. destruct (decide (x = fl + 1)) as [->|]; [left|right; apply G; lia].
    + exists []. split_and!; [done|done|simpl; lia].
Qed.

Lemma default_vec_ok : vec_ok default_vec.
Proof.
  split; cbn [above floor default_vec length].
  - constructor.
  - intros c Hc. by apply elem_of_nil in Hc.
  - ulia.
  - unfold MAX_ABOVE. lia.
Qed.

(** More than [MAX_ABOVE] different later counters arrived. *)
Definition overtaken (cs : list Z) (c : Z) : Prop :=
  (MAX_ABOVE < length (remove_dups (filter (fun d => (c < d)%Z) cs)))%nat.

Lemma overtaken_intro cs c l :
  NoDup l -> (forall d, d ∈ l -> c < d /\ d ∈ cs) -> (MAX_ABOVE < length l)%nat -> overtaken cs c.
Proof.
  intros Hnd Hl Hlen. unfold overtaken. eapply Nat.lt_le_trans; [exact Hlen|].
  apply submseteq_length, NoDup_submseteq; [done|]. intros d Hd%Hl.
  by apply elem_of_remove_dups, list_elem_of_filter.
Qed.

Lemma overtaken_snoc cs c d : overtaken cs c -> overtaken (cs ++ [d]) c.
Proof.
  intros Ho. eapply overtaken_intro; [apply NoDup_remove_dups| |exact Ho].
  intros x [? ?]%elem_of_remove_dups%list_elem_of_filter. set_solver.
Qed.

(** [v] is what marking the counters [cs] in turn leads to. *)
Record tracks (cs : list Z) (v : SenderVec) : Prop := {
  tr_ok : vec_ok v;
  tr_seen : forall c, c ∈ cs -> seen v c;
  tr_above : forall c, c ∈ above v -> c ∈ cs;
  tr_floor : forall c, 1 <= c <= floor v -> c ∈ cs \/ overtaken cs c;
}.

(** The list that [mark] works on: the new counter is in its place. *)
Lemma mark_inserted v c :
  vec_ok v -> floor v < c <= u64_max ->
  exists ab, mark v c = absorb (floor (drop_oldest (floor v) ab)) (above (drop_oldest (floor v) ab)) /\
    StronglySorted Z.lt ab /\ (forall x, x ∈ ab <-> x = c \/ x ∈ above v) /\
    (forall x, x ∈ ab -> floor v < x <= u64_max).
Proof.
  intros [Hs Ha Hf Hl] Hc. unfold mark, binary_search. rewrite (proj2 (Z.leb_gt _ _)) by lia.
  case_bool_decide as Hin.
  - exists (above v). split_and!; [done|done| |done]. intros x. split; [by right|by intros [->|]].
  - eexists. split; [reflexivity|]. split; [by apply (insert_sorted (fun x => x)); [|intros x Hx ->]|]. split.
    + intros x. by rewrite insert_at_perm, elem_of_cons.
    + intros x. rewrite insert_at_perm, elem_of_cons. intros [->|Hx]; [lia|by apply Ha].
Qed.

(** Cutting a sorted list leaves its rest above what was cut. *)
Lemma cut_sorted pre rest fl :
  StronglySorted Z.lt (pre ++ rest) -> (forall x, x ∈ pre ++ rest -> fl < x) ->
  fl <= default fl (last pre) /\ (forall x, x ∈ rest -> default fl (last pre) < x) /\
  (forall x, x ∈ pre -> x <= default fl (last pre)) /\ StronglySorted Z.lt rest.
Proof.
  intros Hs Hfl. pose proof (StronglySorted_app_1_r _ _ _ Hs) as Hr.
  destruct pre as [|y pre _] using rev_ind.
  - simpl. split_and!; [lia|exact Hfl|set_solver|done].
  - rewrite last_snoc. simpl. split_and!; [|intros x Hx|intros x Hx|done].
    + assert (fl < y) by (apply Hfl; set_solver). lia.
    + eapply StronglySorted_app_1_elem_of; [exact Hs|set_solver|done].
    + apply StronglySorted_app_1_l in Hs. apply elem_of_app in Hx as [Hx|Hx%list_elem_of_singleton]; [|lia].
      assert (x < y); [|lia]. eapply StronglySorted_app_1_elem_of; [exact Hs|done|set_solver].
Qed.

(** What [mark] does to a vector: the counter becomes seen, nothing is
    forgotten, and a counter that was neither is given up only below more than
    [MAX_ABOVE] applied ones. *)
Lemma mark_spec v c :
  vec_ok v -> floor v < c <= u64_max ->
  vec_ok (mark v c) /\ (forall x, x ∈ above (mark v c) -> x = c \/ x ∈ above v) /\
  (forall x, seen v x \/ x = c -> seen (mark v c) x) /\
  (forall x, x <= floor (mark v c) -> seen v x \/ x = c \/
     exists l, NoDup l /\ (MAX_ABOVE < length l)%nat /\ forall d, d ∈ l -> x < d /\ (d = c \/ d ∈ above v)).
Proof.
  intros Hok Hc. destruct (mark_inserted v c Hok Hc) as (ab & -> & Hs & Hab & Hrange).
  destruct (drop_oldest_spec (floor v) ab) as (pre & E & F & L & D). set (g := drop_oldest (floor v) ab) in *.
  destruct (absorb_spec (floor g) (above g)) as (pre2 & E2 & F2 & G2).
  set (w := absorb (floor g) (above g)) in *. clearbody g w.
  destruct (cut_sorted pre (above g) (floor v)) as (C1 & C2 & C3 & C4); [by rewrite <- E|rewrite <- E; apply Hrange|].
  rewrite <- F in *.
  destruct (cut_sorted pre2 (above w) (floor g)) as (D1 & D2 & D3 & D4); [by rewrite <- E2|by rewrite <- E2|].
  rewrite <- F2 in *. destruct Hok as [_ _ Hf _].
  assert (forall x, x ∈ ab <-> x ∈ pre \/ x ∈ pre2 \/ x ∈ above w) as Hparts.
  { intros x. rewrite E, E2, !elem_of_app. tauto. }
  assert (floor w <= u64_max) as Hfw.
  { assert (forall (p : list Z) fl, default fl (last p) = fl \/ default fl (last p) ∈ p) as Hd.
    { intros p fl. destruct (last p) eqn:Hl; [right|by left]. by apply last_Some_elem_of. }
    destruct (Hd pre2 (floor g)) as [Hx|Hx]; rewrite <- F2 in Hx.
    - destruct (Hd pre (floor v)) as [Hy|Hy]; rewrite <- F in Hy; [ulia|]. rewrite Hx. apply Hrange, Hparts. tauto.
    - apply Hrange, Hparts. tauto. }
  split_and!.
  - split; [done|intros x Hx; split; [by apply D2|apply Hrange, Hparts; tauto]|ulia|].
    rewrite E2, length_app in L. lia.
  - intros x Hx. apply Hab, Hparts. tauto.
  - intros x [[Hx|Hx] | ->]; [left; lia| |].
    all: match goal with |- seen _ ?y => assert (y ∈ ab) as Hin by (apply Hab; tauto) end.
    all: apply Hparts in Hin as [Hin|[Hin|Hin]]; [left; specialize (C3 _ Hin); lia|left; by apply D3|by right].
  - intros x Hx. destruct (decide (x <= floor v)); [left; by left|].
    destruct (decide (x ∈ ab)) as [[->|Hin]%Hab|Hout]; [by right; left|left; by right|]. right; right.
    destruct (decide (x <= floor g)) as [Hg|Hg]; [|exfalso; apply Hout, Hparts; right; left; apply G2; lia].
    destruct (last pre) as [y|] eqn:Hl; simpl in F; [|lia]. apply last_Some_elem_of in Hl.
    destruct D as [->|D]; [by apply elem_of_nil in Hl|].
    assert (y ∈ ab) as Hy by (apply Hparts; tauto). exists (y :: above g). split_and!.
    + constructor; [intros ?%C2; lia|by apply (sorted_by_NoDup (fun x => x))].
    + simpl. lia.
    + intros d [->|Hd]%elem_of_cons; (split; [|apply Hab]).
      * assert (x <> y) by (intros ->; done). lia.
      * done.
      * specialize (C2 d Hd). lia.
      * apply Hparts. rewrite E2 in Hd. apply elem_of_app in Hd. tauto.
Qed.

Lemma tracks_mark cs v c : tracks cs v -> 1 <= c <= u64_max -> tracks (cs ++ [c]) (mark v c).
Proof.
  intros [Hok Hseen Habove Hfloor] Hc.
  assert (forall x, x <= floor v -> 1 <= x -> x ∈ cs ++ [c] \/ overtaken (cs ++ [c]) x) as Hold.
  { intros x ? ?. destruct (Hfloor x); [done|left; set_solver|right; by apply overtaken_snoc]. }
  destruct (decide (c <= floor v)) as [Hle|Hgt].
  { unfold mark. rewrite (proj2 (Z.leb_le _ _)) by done. split; [done| |set_solver|naive_solver].
    intros x [Hx| ->%list_elem_of_singleton]%elem_of_app; [by apply Hseen|by left]. }
  destruct (mark_spec v c Hok) as (Hok' & Hab & Hs & Hfl); [lia|]. split; [done| | |].
  - intros x [Hx| ->%list_elem_of_singleton]%elem_of_app; apply Hs; [left; by apply Hseen|by right].
  - intros x [->|Hx%Habove]%Hab; set_solver.
  - intros x [H1 Hx]. destruct (Hfl x Hx) as [[Hv|Hv%Habove]|[->|(l & Hnd & Hlen & Hl)]].
    + by apply Hold.
    + left; set_solver.
    + left; set_solver.
    + right. apply (overtaken_intro _ _ l); [done| |done]. intros d [? [->|Hd%Habove]]%Hl; set_solver.
Qed.

(** [missing] counts the holes below the highest applied counter. *)
Lemma missing_spec v :
  vec_ok v -> missing v = zlen (filter (fun c => is_new v c = true) (seqZ 1 (highest v))).
Proof.
  intros [Hs Ha Hf _]. pose proof (filter_app_complement (fun c => is_new v c = true) (seqZ 1 (highest v))) as Hp.
  apply Permutation_length in Hp. rewrite length_app, length_seqZ in Hp.
  assert (floor v <= highest v) as Hh.
  { unfold highest. destruct (last (above v)) as [h|] eqn:Hl; simpl; [|lia].
    apply last_Some_elem_of, Ha in Hl. lia. }
  assert (filter (fun c => ~ is_new v c = true) (seqZ 1 (highest v)) ≡ₚ seqZ 1 (floor v) ++ above v) as Hq.
  { apply NoDup_Permutation.
    - apply NoDup_filter, NoDup_seqZ.
    - apply NoDup_app. split_and!; [apply NoDup_seqZ| |by apply (sorted_by_NoDup (fun x => x))].
      intros x Hx%elem_of_seqZ Hin%Ha. lia.
    - intros x. rewrite list_elem_of_filter, elem_of_app, !elem_of_seqZ, not_true_iff_false, is_new_spec.
      unfold seen. split; [intros [[|] ?]; [left; lia|by right]|].
      intros [?|Hx]; [split; [left; lia|lia]|]. split; [by right|]. pose proof (Ha x Hx). split; [ulia|].
      unfold highest. destruct (last (above v)) as [h|] eqn:Hl; simpl; [|by apply last_None in Hl; rewrite Hl in Hx; apply elem_of_nil in Hx].
      apply last_Some in Hl as [pre Hpre]. rewrite Hpre in Hx, Hs.
      apply elem_of_app in Hx as [Hx|Hx%list_elem_of_singleton]; [|lia].
      assert (x < h) by (eapply StronglySorted_app_1_elem_of; [exact Hs|done|set_solver]). lia. }
  apply Permutation_length in Hq. rewrite length_app, length_seqZ in Hq.
  unfold missing, highest, zlen in *. destruct (last (above v)) as [h|] eqn:Hl; simpl in *; [unfold in_uint in Hf; lia|].
  apply last_None in Hl. rewrite Hl in Hq. simpl in Hq. unfold in_uint in Hf. lia.
Qed.

(** C30. A counter is applied once: after any run of arrivals, in any order and
    with repeats, the vector of a sender takes none of them as new again; it
    refuses a counter that did not arrive only once more than [MAX_ABOVE]
    later ones did; it stays bounded; and [missing] counts exactly the holes
    below the highest counter. *)
Theorem vector_tracks_counters (cs : list Z) :
  Forall (fun c => 1 <= c <= u64_max) cs ->
  let v := fold_left mark cs default_vec in
  (forall c, c ∈ cs -> is_new v c = false) /\
  (forall c, 1 <= c -> is_new v c = false -> c ∈ cs \/ overtaken cs c) /\
  (length (above v) <= MAX_ABOVE)%nat /\
  missing v = zlen (filter (fun c => is_new v c = true) (seqZ 1 (highest v))).
Proof.
  intros Hcs. assert (tracks cs (fold_left mark cs default_vec)) as [Hok Hseen Hab Hfl].
  { induction cs as [|c cs IH] using rev_ind.
    - split; [apply default_vec_ok|intros c Hc; by apply elem_of_nil in Hc|done|intros c Hc; simpl in Hc; lia].
    - apply Forall_app in Hcs as [Hcs Hc]; rewrite Forall_singleton in Hc. rewrite fold_left_app. apply tracks_mark; [by apply IH|exact Hc]. }
  simpl. split_and!; [| |apply Hok|by apply missing_spec].
  - intros c Hc. by apply is_new_spec, Hseen.
  - intros c H1 [Hc|Hc]%is_new_spec; [by apply Hfl|left; by apply Hab].
Qed.

Lemma vector_tracks_counters_witness :
  let v := fold_left mark [3; 1; 3; 7; 2] default_vec in
  (forall c, c ∈ [3; 1; 3; 7; 2] -> is_new v c = false) /\
  (forall c, 1 <= c -> is_new v c = false -> c ∈ [3; 1; 3; 7; 2] \/ overtaken [3; 1; 3; 7; 2] c) /\
  (length (above v) <= MAX_ABOVE)%nat /\
  missing v = zlen (filter (fun c => is_new v c = true) (seqZ 1 (highest v))).
Proof. apply vector_tracks_counters. repeat constructor; vm_compute; congruence. Defined.

(** ** The document reads back *)

Record pending_wf (p : PendingMsg) : Prop := {
  pw_id : array 16 (p_id p);
  pw_ints : in_u64 (p_counter p) /\ in_u32 (p_epoch p) /\ in_u64 (p_sent_ms p);
  pw_text : text_ok (p_text p) /\ 0 < str_len (p_text p) <= MAX_TEXT_BYTES;
  pw_to : (length (p_to p) <= MAX_MEMBERS)%nat /\ Forall (array 32) (p_to p);
}.

Definition ledger_wf (e : LedgerEntry) : Prop :=
  array 16 (l_id e) /\ in_u8 (l_total e) /\ in_u8 (l_delivered e) /\ in_u8 (l_failed e).
Definition ctrl_wf (c : Ctrl) : Prop := array 32 (c_to c) /\ in_u32 (c_arg c).
Definition handed_wf (h : HandOver) : Prop := array 32 (h_to h) /\ in_u32 (h_epoch h).
Definition status_wf (st : Status) : Prop := match st with Pending a => array 32 a | _ => True end.
Definition vector_wf (kv : bytes * SenderVec) : Prop := array 32 kv.1 /\ vec_ok kv.2.

Section Readers.
Context `{Crypto} `{Ed25519}.

Lemma rd_status_app st b : status_wf st -> rd_status (put_status st ++ b) = Some (st, b).
Proof. intros Hw. destruct st as [a| | |]; try done. unfold rd_status; simpl. by rewrite rd_app by apply Hw. Qed.

Lemma rd_count_app w max n b :
  (n <= max)%nat -> Z.of_nat n < 256 ^ Z.of_nat w -> rd_count w max (be_bytes w (Z.of_nat n) ++ b) = Some (n, b).
Proof.
  intros Hn Hw. unfold rd_count. rewrite rd_int_app by lia. simpl.
  rewrite (proj2 (Z.ltb_ge _ _)) by lia. by rewrite Nat2Z.id.
Qed.

Lemma rd_count16_app max n b :
  (n <= max <= 512)%nat -> rd_count 2 max (be_bytes 2 (Z.of_nat n) ++ b) = Some (n, b).
Proof. intros Hn. apply rd_count_app; [lia|]. change (256 ^ Z.of_nat 2) with 65536. lia. Qed.

Lemma rd_count8_app max n b :
  (n <= max <= 255)%nat -> rd_count 1 max (be_bytes 1 (Z.of_nat n) ++ b) = Some (n, b).
Proof. intros Hn. apply rd_count_app; [lia|]. change (256 ^ Z.of_nat 1) with 256. lia. Qed.

Lemma u8_of_be n : u8_of n = be_bytes 1 n.
Proof. unfold u8_of, be_bytes. simpl. by rewrite Z.div_1_r. Qed.

Lemma rd_array_app n a b : array n a -> rd n (a ++ b) = Some (a, b).
Proof. intros [Hl _]. by apply rd_app. Qed.

Lemma increasing_sorted l : StronglySorted Z.lt l -> increasing l = true.
Proof.
  induction 1 as [|x l _ IH Hx]; [done|]. simpl. destruct l as [|y l]; [done|]. rewrite IH, andb_true_r.
  apply Forall_cons in Hx as [? _]. lia.
Qed.

Lemma rd_vector_app kv b : vector_wf kv -> rd_vector (put_vector kv ++ b) = Some (kv, b).
Proof.
  intros [Hk [Hs Ha Hf Hl]]. destruct kv as [k v]. unfold rd_vector, put_vector; cbn [fst snd] in *.
  rewrite <- !app_assoc, rd_array_app by done. cbn [mbind option_bind].
  rewrite rd_u64_app by done. cbn [mbind option_bind].
  unfold zlen. rewrite rd_count16_app by (unfold MAX_ABOVE in *; lia). cbn [mbind option_bind].
  rewrite (rd_list_app _ _ in_u64 rd_u64_app) by (done || apply Forall_forall; intros x Hx%Ha; ulia).
  cbn [mbind option_bind]. rewrite increasing_sorted by done. simpl in *.
  destruct v as [fl [|x ab]]; simpl in *; [done|].
  rewrite (proj2 (Z.leb_gt _ _)); [done|]. apply Ha. by left.
Qed.

Lemma rd_pending_app p b : pending_wf p -> rd_pending (put_pending p ++ b) = Some (p, b).
Proof.
  intros [Hid (Hc & He & Hm) [Ht Hl] [Hn Hto]]. unfold rd_pending, put_pending, MAX_TEXT_BYTES in *.
  rewrite <- !app_assoc, rd_array_app by done. cbn [mbind option_bind].
  rewrite rd_u64_app by done. cbn [mbind option_bind]. rewrite rd_u32_app by done. cbn [mbind option_bind].
  rewrite rd_u64_app by done. cbn [mbind option_bind]. rewrite rd_u16_app by ulia. cbn [mbind option_bind].
  rewrite (proj2 (Z.eqb_neq _ _)), (proj2 (Z.ltb_ge _ _)) by lia. cbn [orb].
  rewrite rd_text_app by done. cbn [mbind option_bind]. unfold zlen. rewrite u8_of_be.
  rewrite rd_count8_app by (unfold MAX_MEMBERS in *; lia). cbn [mbind option_bind].
  rewrite <- flat_map_id, (rd_list_app _ _ (array 32) (rd_array_app 32)) by done. simpl. by destruct p.
Qed.

Lemma rd_ledger_app e b : ledger_wf e -> rd_ledger (put_ledger e ++ b) = Some (e, b).
Proof.
  intros (Hid & _). unfold rd_ledger, put_ledger. rewrite <- !app_assoc, rd_array_app by done. simpl. by destruct e.
Qed.

Lemma rd_ctrl_app c b : ctrl_wf c -> rd_ctrl (put_ctrl c ++ b) = Some (c, b).
Proof.
  intros [Hto Harg]. unfold rd_ctrl, put_ctrl. rewrite <- !app_assoc, rd_array_app by done. cbn [mbind option_bind app rd_u8].
  destruct c as [to [|] arg]; cbn [c_kind c_arg c_to Z.eqb Pos.eqb mbind option_bind];
    by rewrite rd_u32_app.
Qed.

Lemma rd_handed_app h b : handed_wf h -> rd_handed (put_handed h ++ b) = Some (h, b).
Proof.
  intros [Hto He]. unfold rd_handed, put_handed. rewrite <- !app_assoc, rd_array_app by done. cbn [mbind option_bind].
  rewrite rd_u32_app by done. by destruct h.
Qed.

Lemma rd_added_by_app a b :
  match a with Some k => array 32 k | None => True end -> rd_added_by (put_added_by a ++ b) = Some (a, b).
Proof. destruct a as [k|]; [|done]. intros Hk. unfold rd_added_by; simpl. by rewrite rd_array_app. Qed.

Lemma members_bytes_bound ms :
  Forall member_wf ms -> zlen (flat_map member_bytes ms) <= 58 * zlen ms.
Proof.
  induction 1 as [|m ms [[Hid _] [_ Hh]] _ IH]; [done|]. cbn [flat_map]. rewrite zlen_app, zlen_cons.
  unfold member_bytes, MAX_HINT_BYTES in *. autorewrite with miasma. rewrite as_bytes_length. unfold zlen in *. lia.
Qed.

(** A descriptor takes at most 2,208 bytes. *)
Lemma desc_encode_bound d : desc_wf d -> zlen (desc_encode d) <= 2208.
Proof.
  intros [(L1 & L2 & L3 & L4) _ _ _ Hm [Hn Hc _ _ _]]. pose proof (members_bytes_bound _ Hm) as Hb.
  unfold desc_encode, signed_part, MAX_NAME_BYTES, MAX_MEMBERS in *. autorewrite with miasma.
  rewrite as_bytes_length. unfold zlen in *. rewrite !be_bytes_length, L1, L2, L3, L4. simpl length. lia.
Qed.

Lemma rd_desc_app d b : desc_wf d -> rd_desc (put_desc d ++ b) = Some (d, b).
Proof.
  intros Hd. pose proof (desc_encode_bound d Hd) as Hb. unfold rd_desc, put_desc, zlen in *.
  rewrite <- app_assoc, rd_u16_app by ulia. cbn [mbind option_bind].
  rewrite rd_app by lia. cbn [mbind option_bind]. unfold desc_decode. rewrite rd_descriptor_encode by done.
  by rewrite (proj2 (check_shape_spec d) (dw_shape d Hd)).
Qed.

Record state_wf (s : GroupState) : Prop := {
  sw_chain : chain_ok (chain s) /\ Forall desc_wf (items (chain s));
  sw_status : status_wf (status s);
  sw_ints : in_u64 (my_counter s) /\ in_u64 (next_ord s) /\ in_u64 (count s) /\ in_u64 (last_ms s);
  sw_vectors : (size (vectors s) <= MAX_VECTORS)%nat /\ (forall k v, vectors s !! k = Some v -> vector_wf (k, v));
  sw_pending : (length (pending s) <= MAX_PENDING)%nat /\ Forall pending_wf (pending s);
  sw_ledger : (length (ledger s) <= MAX_LEDGER)%nat /\ Forall ledger_wf (ledger s);
  sw_ctrl : (length (ctrl s) <= MAX_CTRL)%nat /\ Forall ctrl_wf (ctrl s);
  sw_added : match added_by s with Some k => array 32 k | None => True end;
  sw_confirmed : (length (confirmed s) <= MAX_MEMBERS)%nat /\ Forall (array 32) (confirmed s);
  sw_handed : (length (handed s) <= MAX_HANDED)%nat /\ Forall handed_wf (handed s);
}.

Lemma rd_rest_app s ch st mc no cn lm :
  state_wf s ->
  rd_rest ch st mc no cn lm STATE_VERSION (put_rest s) =
  Some (mkState ch st mc no cn lm (vectors s) (pending s) (ledger s) (ctrl s) (added_by s) (confirmed s) (handed s)).
Proof.
  intros [_ _ _ [V1 V2] [P1 P2] [L1 L2] [C1 C2] Ha [F1 F2] [H1 H2]].
  unfold rd_rest, put_rest, zlen, MAX_VECTORS, MAX_PENDING, MAX_LEDGER, MAX_CTRL, MAX_MEMBERS, MAX_HANDED in *.
  assert (Forall vector_wf (btree (vectors s))) as Hv.
  { apply Forall_forall. intros [k v] Hin%btree_elem. by apply V2. }
  rewrite rd_count16_app by lia. cbn [mbind option_bind].
  rewrite (rd_list_app _ _ _ rd_vector_app) by (done || apply btree_length). cbn [mbind option_bind].
  rewrite rd_count16_app by lia. cbn [mbind option_bind].
  rewrite (rd_list_app _ _ _ rd_pending_app) by done. cbn [mbind option_bind].
  rewrite rd_count16_app by lia. cbn [mbind option_bind].
  rewrite (rd_list_app _ _ _ rd_ledger_app) by done. cbn [mbind option_bind].
  rewrite rd_count16_app by lia. cbn [mbind option_bind].
  rewrite (rd_list_app _ _ _ rd_ctrl_app) by done. cbn [mbind option_bind].
  change (2 <=? STATE_VERSION) with true. change (3 <=? STATE_VERSION) with true. cbn iota.
  rewrite rd_added_by_app by done. cbn [mbind option_bind].
  rewrite u8_of_be, rd_count8_app by lia. cbn [mbind option_bind].
  rewrite <- flat_map_id, (rd_list_app _ _ _ (rd_array_app 32)) by done. cbn [mbind option_bind].
  rewrite rd_count16_app by lia. cbn [mbind option_bind].
  rewrite <- (app_nil_r (flat_map put_handed _)), (rd_list_app _ _ _ rd_handed_app) by done.
  cbn [mbind option_bind rd_done length Nat.eqb negb]. by rewrite btree_rebuild.
Qed.

Lemma rd_head_app s b :
  state_wf s ->
  rd_head ([STATE_VERSION] ++ put_status (status s)
    ++ be_bytes 8 (my_counter s) ++ be_bytes 8 (next_ord s) ++ be_bytes 8 (count s) ++ be_bytes 8 (last_ms s)
    ++ u8_of (zlen (items (chain s))) ++ flat_map put_desc (items (chain s)) ++ b) =
  Some (STATE_VERSION, status s, my_counter s, next_ord s, count s, last_ms s, items (chain s), b).
Proof.
  intros [[[Hl _ _] Hd] Hst (I1 & I2 & I3 & I4) _ _ _ _ _ _ _]. unfold rd_head, MAX_CHAIN in *.
  cbn [app rd_u8 mbind option_bind]. rewrite Z.eqb_refl. cbn [negb andb].
  rewrite rd_status_app by done. cbn [mbind option_bind]. rewrite !rd_u64_app by done. cbn [mbind option_bind].
  rewrite rd_u64_app by done. cbn [mbind option_bind]. rewrite rd_u64_app by done. cbn [mbind option_bind].
  rewrite rd_u64_app by done. cbn [mbind option_bind].
  unfold u8_of, zlen. rewrite Z.mod_small by lia. cbn [app rd_u8 mbind option_bind].
  rewrite (proj2 (Z.eqb_neq _ _)), (proj2 (Z.ltb_ge _ _)) by lia. cbn [orb].
  by rewrite Nat2Z.id, (rd_list_app _ _ _ rd_desc_app) by done.
Qed.

Lemma state_decode_encode (s : GroupState) (d0 : Descriptor) :
  state_wf s -> head (items (chain s)) = Some d0 ->
  state_decode (state_encode s) = Ret (if is_ok (from_root d0) then Some s else None).
Proof.
  intros Hw Hd. unfold state_decode, state_encode. rewrite rd_head_app by done.
  destruct (items (chain s)) as [|x ds] eqn:Hi; [done|]. injection Hd as ->. rewrite <- Hi.
  rewrite (from_items_rebuild _ d0 ds) by (apply Hw || done). simpl.
  destruct (from_root d0); simpl; [|done]. rewrite rd_rest_app by done. by destruct s.
Qed.
(** A saved group reads back exactly when its oldest kept descriptor could be
    a root: for every well-formed state, decoding its document gives the state
    itself, and gives nothing at all if the first descriptor of its chain is
    not signed by one of its own admins. *)
Theorem saved_group_reads_back (s : GroupState) (d0 : Descriptor) :
  state_wf s -> head (items (chain s)) = Some d0 ->
  state_decode (state_encode s) = Ret (if is_ok (from_root d0) then Some s else None).
Proof. apply state_decode_encode. Qed.
End Readers.
