(* ===== verification/GroupRecord.v ===== *)
(** * GroupRecord: what travels between group members

    Models [chat/group/record.rs]: the four records inside a pairwise envelope
    and their byte form, and the choice of the descriptors that fit in one
    record. *)

From S2P Require Import Prelude Bytes Text Codec ErasureCode Dissolve Group GroupState.

Definition KIND_TEXT : Z := 16.
Definition KIND_DESCS : Z := 17.
Definition KIND_SYNC : Z := 18.
Definition KIND_HIST_OFFER : Z := 19.
Definition MAX_DESCS_BYTES : Z := 15000.

Inductive RecordError := RMalformed | RUnknownKind (k : Z).

Record GroupText := mkText {
  t_gid : bytes; t_epoch : Z; t_counter : Z; t_id : bytes; t_sent_ms : Z; t_text : str;
}.
Record HistOffer := mkOffer {
  o_gid : bytes; o_epoch : Z; o_sender : bytes; o_counter : Z; o_id : bytes; o_sent_ms : Z; o_text : str;
}.
Inductive GRecord :=
| RText (t : GroupText)
| RDescs (ds : list Descriptor)
| RSync (gid : bytes) (have_epoch : Z)
| RHistOffer (o : HistOffer).

Definition put_body (text : str) : bytes := be_bytes 2 (str_len text) ++ as_bytes text.

Definition text_bytes (t : GroupText) : bytes :=
  [KIND_TEXT] ++ t_gid t ++ be_bytes 4 (t_epoch t) ++ be_bytes 8 (t_counter t) ++ t_id t
  ++ be_bytes 8 (t_sent_ms t) ++ put_body (t_text t).

(** Empty or too long a text, or a counter of zero, is not sent. *)
Definition bad_body (text : str) (counter : Z) : bool :=
  (str_len text =? 0) || (MAX_TEXT_BYTES <? str_len text) || (counter =? 0).

Definition text_encode (t : GroupText) : result bytes RecordError :=
  if bad_body (t_text t) (t_counter t) then Err RMalformed else Ok (text_bytes t).

Definition offer_bytes (o : HistOffer) : bytes :=
  [KIND_HIST_OFFER] ++ o_gid o ++ be_bytes 4 (o_epoch o) ++ o_sender o ++ be_bytes 8 (o_counter o) ++ o_id o
  ++ be_bytes 8 (o_sent_ms o) ++ put_body (o_text o).

Definition offer_encode (o : HistOffer) : result bytes RecordError :=
  if bad_body (o_text o) (o_counter o) then Err RMalformed else Ok (offer_bytes o).

Definition descs_bytes (ds : list Descriptor) : bytes := [KIND_DESCS; zlen ds mod 256] ++ flat_map put_desc ds.

Definition encode_descs (ds : list Descriptor) : result bytes RecordError :=
  if (length ds =? 0)%nat || (255 <? zlen ds) then Err RMalformed
  else if MAX_DESCS_BYTES <? zlen (descs_bytes ds) then Err RMalformed
  else Ok (descs_bytes ds).

Definition encode_sync (g : bytes) (have : Z) : bytes := [KIND_SYNC] ++ g ++ be_bytes 4 have.

Definition hist_gid (plain : bytes) : option bytes :=
  match plain with
  | k :: rest => if (length plain <? 17)%nat || negb (k =? KIND_HIST_OFFER) then None else Some (take 16 rest)
  | [] => None
  end.

(** The loop of [newest_that_fit], from the newest descriptor down. *)
Fixpoint count_fit (size : Z) (newest_first : list Descriptor) : nat :=
  match newest_first with
  | [] => 0
  | d :: ds =>
      let n := 2 + zlen (desc_encode d) in
      if MAX_DESCS_BYTES <? size + n then 0 else S (count_fit (size + n) ds)
  end.

Definition newest_that_fit (ds : list Descriptor) : list Descriptor :=
  drop (length ds - count_fit 2 (rev ds)) ds.

(** A text body: its length, the limits, the text. *)
Definition rd_body (counter : Z) (b : bytes) : option (str * bytes) :=
  '(n, b) ← rd_int 2 b;
  if (n =? 0) || (MAX_TEXT_BYTES <? n) || (counter =? 0) then None else rd_text (Z.to_nat n) b.

Definition finish {A} (x : A) (b : bytes) : option A := if rd_done b then Some x else None.

Definition rd_group_text (b : bytes) : option GRecord :=
  '(g, b) ← rd 16 b; '(ep, b) ← rd_int 4 b; '(c, b) ← rd_int 8 b; '(id, b) ← rd 16 b; '(ms, b) ← rd_int 8 b;
  '(text, b) ← rd_body c b;
  finish (RText (mkText g ep c id ms text)) b.

Definition rd_sync (b : bytes) : option GRecord :=
  '(g, b) ← rd 16 b; '(ep, b) ← rd_int 4 b; finish (RSync g ep) b.

Definition rd_offer (b : bytes) : option GRecord :=
  '(g, b) ← rd 16 b; '(ep, b) ← rd_int 4 b; '(a, b) ← rd 32 b; '(c, b) ← rd_int 8 b; '(id, b) ← rd 16 b;
  '(ms, b) ← rd_int 8 b;
  '(text, b) ← rd_body c b;
  finish (RHistOffer (mkOffer g ep a c id ms text)) b.

Section Records.
Context `{Crypto} `{Ed25519}.

Definition rd_descs (b : bytes) : option GRecord :=
  '(n, b) ← rd_u8 b;
  if n =? 0 then None else
  '(ds, b) ← rd_list rd_desc (Z.to_nat n) b;
  finish (RDescs ds) b.

(** [Record::decode]. *)
Definition record_decode (b : bytes) : result GRecord RecordError :=
  match rd_u8 b with
  | None => Err RMalformed
  | Some (k, b) =>
      if k =? KIND_TEXT then ok_or (rd_group_text b) RMalformed
      else if k =? KIND_DESCS then ok_or (rd_descs b) RMalformed
      else if k =? KIND_SYNC then ok_or (rd_sync b) RMalformed
      else if k =? KIND_HIST_OFFER then ok_or (rd_offer b) RMalformed
      else Err (RUnknownKind k)
  end.

(** ** Records read back *)

Definition record_bytes (r : GRecord) : bytes :=
  match r with
  | RText t => text_bytes t
  | RDescs ds => descs_bytes ds
  | RSync g have => encode_sync g have
  | RHistOffer o => offer_bytes o
  end.

Definition body_wf (text : str) (counter : Z) : Prop :=
  text_ok text /\ 0 < str_len text <= MAX_TEXT_BYTES /\ 0 < counter <= u64_max.

Definition record_wf (r : GRecord) : Prop :=
  match r with
  | RText t => array 16 (t_gid t) /\ in_u32 (t_epoch t) /\ array 16 (t_id t) /\ in_u64 (t_sent_ms t)
               /\ body_wf (t_text t) (t_counter t)
  | RDescs ds => 0 < zlen ds <= 255 /\ Forall desc_wf ds
  | RSync g have => array 16 g /\ in_u32 have
  | RHistOffer o => array 16 (o_gid o) /\ in_u32 (o_epoch o) /\ array 32 (o_sender o) /\ array 16 (o_id o)
                    /\ in_u64 (o_sent_ms o) /\ body_wf (o_text o) (o_counter o)
  end.

Lemma rd_body_app text c b : body_wf text c -> rd_body c (put_body text ++ b) = Some (text, b).
Proof.
  intros (Ht & Hl & Hc). unfold rd_body, put_body, MAX_TEXT_BYTES in *. rewrite <- app_assoc, rd_u16_app by ulia.
  cbn [mbind option_bind]. rewrite !(proj2 (Z.eqb_neq _ _)), (proj2 (Z.ltb_ge _ _)) by lia. cbn [orb].
  by rewrite rd_text_app.
Qed.

Lemma rd_body_inv text c b r :
  bytes_ok b -> in_u64 c -> rd_body c b = Some (text, r) -> b = put_body text ++ r /\ body_wf text c /\ bytes_ok r.
Proof.
  intros Hok Hc. unfold rd_body. field_int n b1 Hn.
  destruct ((n =? 0) || (MAX_TEXT_BYTES <? n) || (c =? 0)) eqn:Hb; [done|].
  field_text s b2 Ht Hl. intros [= <- <-]. pose proof (str_len_nonneg s). assert (str_len s = n) as <- by lia.
  split_and!; [by unfold put_body; rewrite <- app_assoc| |done].
  unfold MAX_TEXT_BYTES in *. split_and!; [done|lia|unfold MAX_TEXT_BYTES; lia|ulia|ulia].
Qed.

Lemma rd_desc_inv b d r : bytes_ok b -> rd_desc b = Some (d, r) -> b = put_desc d ++ r /\ desc_wf d /\ bytes_ok r.
Proof.
  intros Hok. unfold rd_desc. field_int n b1 Hn. field_bytes x b2 Hx Ox.
  unfold desc_decode. destruct (rd_descriptor x) as [d'|] eqn:Hr; [|done].
  destruct (check_shape d') as [[]|] eqn:Hs; [|done]. cbn [result_bind]. intros [= <- <-].
  apply rd_descriptor_inv in Hr as [-> Hw]; [|done]. split_and!; [|by apply Hw|done].
  unfold put_desc, zlen. rewrite Hx, Z2Nat.id by lia. by rewrite <- app_assoc.
Qed.

Lemma reads_desc : reads rd_desc put_desc desc_wf.
Proof. split; [exact rd_desc_app|exact rd_desc_inv]. Qed.

Ltac kinds := cbn [Z.eqb Pos.eqb KIND_SYNC KIND_TEXT KIND_DESCS KIND_HIST_OFFER mbind option_bind].

Lemma record_decode_bytes r : record_wf r -> record_decode (record_bytes r) = Ok r.
Proof.
  destruct r as [t|ds|g have|o]; simpl record_wf; unfold record_decode; simpl record_bytes.
  - intros (Hg & He & Hi & Hm & Hb). unfold text_bytes, rd_group_text, finish. cbn [app rd_u8]. rewrite Z.eqb_refl.
    rewrite rd_array_app by done. cbn [mbind option_bind]. rewrite rd_u32_app by done. cbn [mbind option_bind].
    rewrite rd_u64_app by (destruct Hb as (_ & _ & ?); ulia). cbn [mbind option_bind].
    rewrite rd_array_app by done. cbn [mbind option_bind]. rewrite rd_u64_app by done. cbn [mbind option_bind].
    rewrite <- (app_nil_r (put_body _)), rd_body_app by done. by destruct t.
  - intros [Hn Hds]. unfold descs_bytes, rd_descs, finish. cbn [app rd_u8]. kinds.
    rewrite Z.mod_small, (proj2 (Z.eqb_neq _ _)) by lia. unfold zlen in *. rewrite Nat2Z.id.
    by rewrite <- (app_nil_r (flat_map _ _)), (rd_list_app _ _ _ rd_desc_app).
  - intros [Hg He]. unfold encode_sync, rd_sync, finish. cbn [app rd_u8]. kinds.
    rewrite rd_array_app by done. cbn [mbind option_bind]. by rewrite <- (app_nil_r (be_bytes 4 _)), rd_u32_app.
  - intros (Hg & He & Ha & Hi & Hm & Hb). unfold offer_bytes, rd_offer, finish. cbn [app rd_u8]. kinds.
    rewrite rd_array_app by done. cbn [mbind option_bind]. rewrite rd_u32_app by done. cbn [mbind option_bind].
    rewrite rd_array_app by done. cbn [mbind option_bind].
    rewrite rd_u64_app by (destruct Hb as (_ & _ & ?); ulia). cbn [mbind option_bind].
    rewrite rd_array_app by done. cbn [mbind option_bind]. rewrite rd_u64_app by done. cbn [mbind option_bind].
    rewrite <- (app_nil_r (put_body _)), rd_body_app by done. by destruct o.
Qed.

Lemma finish_inv {A} (x y : A) b : finish x b = Some y -> x = y /\ b = [].
Proof. unfold finish. destruct (rd_done b) eqn:E; [|done]. intros [= <-]. split; [done|by apply rd_done_true]. Qed.

Lemma record_decode_inv b r : bytes_ok b -> record_decode b = Ok r -> b = record_bytes r /\ record_wf r.
Proof.
  assert (forall x, 0 <= x < 256 ^ Z.of_nat 4 -> in_u32 x) as H4 by (change (256 ^ Z.of_nat 4) with 4294967296; ulia).
  assert (forall x, 0 <= x < 256 ^ Z.of_nat 8 -> in_u64 x) as H8
    by (change (256 ^ Z.of_nat 8) with 18446744073709551616; ulia).
  intros Hok. unfold record_decode. destruct (rd_u8 b) as [[k b1]|] eqn:Hk; [|done].
  apply rd_u8_inv in Hk as (-> & _ & Hok1); [|done]. clear Hok.
  destruct (Z.eqb_spec k KIND_TEXT) as [->|]; [|destruct (Z.eqb_spec k KIND_DESCS) as [->|];
    [|destruct (Z.eqb_spec k KIND_SYNC) as [->|]; [|destruct (Z.eqb_spec k KIND_HIST_OFFER) as [->|]; [|done]]]].
  - unfold rd_group_text. field_bytes g b2 Lg Og. field_int ep b3 Re. field_int c b4 Rc. field_bytes id b5 Li Oi.
    field_int ms b6 Rm. destruct (rd_body c b6) as [[text b7]|] eqn:Hb; [|done]. cbn [mbind option_bind].
    apply rd_body_inv in Hb as (-> & Hw & Hok7); [|done|by apply H8].
    destruct (finish _ b7) eqn:Hf; [|done]. apply finish_inv in Hf as [<- ->]. intros [= <-].
    split; [by rewrite app_nil_r|]. cbn. by split_and!; auto.
  - unfold rd_descs. field_u8 cnt b2 Rn. destruct (Z.eqb_spec cnt 0); [done|].
    destruct (rd_list rd_desc _ b2) as [[ds b3]|] eqn:Hl; [|done]. cbn [mbind option_bind].
    apply (rd_list_inv _ _ _ reads_desc) in Hl as (-> & Hn & Hds & _); [|done].
    destruct (finish _ b3) eqn:Hf; [|done]. apply finish_inv in Hf as [<- ->]. intros [= <-].
    unfold record_bytes, descs_bytes, record_wf, zlen. rewrite app_nil_r, Hn, Z2Nat.id, Z.mod_small by lia.
    split; [done|]. split; [lia|done].
  - unfold rd_sync. field_bytes g b2 Lg Og. field_int ep b3 Re.
    destruct (finish _ b3) eqn:Hf; [|done]. apply finish_inv in Hf as [<- ->]. intros [= <-].
    split; [by rewrite app_nil_r|]. split; [done|by apply H4].
  - unfold rd_offer. field_bytes g b2 Lg Og. field_int ep b3 Re. field_bytes a b4 La Oa. field_int c b5 Rc.
    field_bytes id b6 Li Oi. field_int ms b7 Rm.
    destruct (rd_body c b7) as [[text b8]|] eqn:Hb; [|done]. cbn [mbind option_bind].
    apply rd_body_inv in Hb as (-> & Hw & Hok8); [|done|by apply H8].
    destruct (finish _ b8) eqn:Hf; [|done]. apply finish_inv in Hf as [<- ->]. intros [= <-].
    split; [by rewrite app_nil_r|]. cbn. by split_and!; auto.
Qed.

(** Group records are canonical: decoding accepts exactly the byte forms of
    well-formed records and returns what was written, so a record cannot be
    read as another kind and nothing can be appended to it. *)
Theorem record_canonical (b : bytes) (r : GRecord) :
  bytes_ok b -> (record_decode b = Ok r <-> b = record_bytes r /\ record_wf r).
Proof.
  intros Hok. split; [by apply record_decode_inv|]. intros [-> Hw]. by apply record_decode_bytes.
Qed.

(** ** The descriptors sent always fit *)

Lemma put_desc_length d : zlen (put_desc d) = 2 + zlen (desc_encode d).
Proof. unfold put_desc. rewrite zlen_app. unfold zlen at 1. by rewrite be_bytes_length. Qed.

Lemma flat_map_perm_length {A} (f : A -> bytes) xs ys : xs ≡ₚ ys -> zlen (flat_map f xs) = zlen (flat_map f ys).
Proof. induction 1; simpl; rewrite ?zlen_app in *; lia. Qed.

Lemma count_fit_spec ds size :
  size <= MAX_DESCS_BYTES ->
  (count_fit size ds <= length ds)%nat /\
  size + zlen (flat_map put_desc (take (count_fit size ds) ds)) <= MAX_DESCS_BYTES.
Proof.
  revert size. induction ds as [|d ds IH]; intros size Hs; cbn [count_fit].
  - simpl. rewrite zlen_nil. lia.
  - destruct (Z.ltb_spec MAX_DESCS_BYTES (size + (2 + zlen (desc_encode d)))) as [Hb|Hb].
    + simpl. rewrite zlen_nil. lia.
    + destruct (IH _ Hb) as [H1 H2]. cbn [take flat_map length]. rewrite zlen_app, put_desc_length. lia.
Qed.

(** What is sent to a member is the newest run of the chain that fits in one
    record; it is never empty and always encodes. *)
Lemma newest_that_fit_sends ds l :
  Forall desc_wf ds -> last ds = Some l -> (length ds <= 255)%nat ->
  exists older, ds = older ++ newest_that_fit ds /\ last (newest_that_fit ds) = Some l /\
    encode_descs (newest_that_fit ds) = Ok (descs_bytes (newest_that_fit ds)) /\
    zlen (descs_bytes (newest_that_fit ds)) <= MAX_DESCS_BYTES.
Proof.
  intros Hw Hl Hlen. destruct (count_fit_spec (rev ds) 2) as [Hc Hb]; [done|]. rewrite length_rev in Hc.
  assert (1 <= count_fit 2 (rev ds))%nat as H1.
  { apply last_Some in Hl as [pre ->]. rewrite rev_app_distr. cbn [rev app count_fit].
    apply Forall_app in Hw as [_ Hw]. rewrite Forall_singleton in Hw. pose proof (desc_encode_bound _ Hw).
    by rewrite (proj2 (Z.ltb_ge _ _)) by (unfold MAX_DESCS_BYTES; lia); lia. }
  unfold newest_that_fit. set (k := count_fit 2 (rev ds)) in *.
  set (n := drop (length ds - k) ds). exists (take (length ds - k) ds).
  assert (ds = take (length ds - k) ds ++ n) as Hsplit by (unfold n; by rewrite take_drop).
  assert (length n = k) as Hn by (unfold n; rewrite length_drop; lia).
  assert (zlen (descs_bytes n) <= MAX_DESCS_BYTES) as Hfit.
  { unfold descs_bytes. rewrite zlen_app. change (zlen [KIND_DESCS; zlen n mod 256]) with 2.
    erewrite flat_map_perm_length; [exact Hb|]. rewrite <- Hn, Hsplit, rev_app_distr.
    rewrite take_app_le, firstn_all2 by (rewrite length_rev; lia). apply Permutation_rev. }
  split_and!; [done| | |done].
  - rewrite Hsplit, last_app in Hl. destruct (last n) eqn:Hln; [done|]. apply last_None in Hln.
    rewrite Hln in Hn. simpl in Hn. lia.
  - unfold encode_descs. destruct (Nat.eqb_spec (length n) 0) as [|_]; [lia|]. unfold zlen in *. simpl orb.
    by rewrite (proj2 (Z.ltb_ge _ _)), (proj2 (Z.ltb_ge _ _)) by lia.
Qed.
End Records.

Module RecordDemo.
Definition hello : GRecord := RText (mkText (replicate 16 7) 1 1 (replicate 16 9) 1500 (lit "hello")).
End RecordDemo.
Import GroupDemo RecordDemo.

Lemma record_canonical_witness : record_bytes hello = record_bytes hello /\ record_wf hello.
Proof.
  apply (record_canonical (record_bytes hello) hello); [apply bytes_check; vm_compute; reflexivity|].
  vm_compute. reflexivity.
Defined.
