(* ===== verification/GroupStore.v ===== *)
(** * GroupStore: the saved messages of a group

    Models [chat/group/store.rs]: the record of one message and its byte form,
    the log of a group (or the bounded ring of the ephemeral mode) with its
    cap, and the page of the newest messages.  A file write is an input: it
    may fail.  The sealed log file below is taken as the list of its
    records. *)

From S2P Require Import Prelude Bytes Text Codec ErasureCode Dissolve Group GroupState.

Definition ENTRY_OVERHEAD : Z := 160.

Record GroupMsg := mkMsg {
  ord : Z;
  outgoing : bool;
  m_sender : bytes;
  m_counter : Z;
  gm_id : bytes;
  m_sent_ms : Z;
  at_ms : Z;
  m_epoch : Z;
  m_text : str;
  shared_by : option bytes;
}.

Definition cost (m : GroupMsg) : Z := str_len (m_text m) + ENTRY_OVERHEAD.

Definition msg_encode (m : GroupMsg) : bytes :=
  [2] ++ be_bytes 8 (ord m) ++ [if outgoing m then 1 else 0] ++ m_sender m ++ be_bytes 8 (m_counter m) ++ gm_id m
  ++ be_bytes 8 (m_sent_ms m) ++ be_bytes 8 (at_ms m) ++ be_bytes 4 (m_epoch m)
  ++ be_bytes 2 (str_len (m_text m)) ++ as_bytes (m_text m) ++ put_added_by (shared_by m).

Definition msg_decode (b : bytes) : option GroupMsg :=
  '(ver, b) ← rd_u8 b;
  if negb (ver =? 1) && negb (ver =? 2) then None else
  '(o, b) ← rd_int 8 b;
  '(out, b) ← rd_u8 b;
  '(sender, b) ← rd 32 b;
  '(c, b) ← rd_int 8 b;
  '(id, b) ← rd 16 b;
  '(sent, b) ← rd_int 8 b;
  '(at_, b) ← rd_int 8 b;
  '(ep, b) ← rd_int 4 b;
  '(n, b) ← rd_int 2 b;
  if MAX_TEXT_BYTES <? n then None else
  '(text, b) ← rd_text (Z.to_nat n) b;
  '(by_, b) ← (if 2 <=? ver then rd_added_by b else Some (None, b));
  if negb (rd_done b) then None
  else Some (mkMsg o (negb (out =? 0)) sender c id sent at_ ep text by_).

(** ** The store *)

Record StoreSettings := mkSettings {
  history_save : bool;
  max_messages : Z;
  ephemeral_bytes : Z;
  defer_flush : bool;
}.

(** An append: the record is in the file and flushed, it is not in the file, or
    it is in the file and the flush failed. *)
Inductive Append := Appended | NotAppended | Unsynced.

#[export] Instance append_dec : EqDecision Append.
Proof. solve_decision. Defined.

(** What the disk does during one operation: the document is written, the
    record is appended, the log is rewritten. *)
Record IO := mkIO { io_doc : bool; io_append : Append; io_rewrite : bool }.

Record Store := mkStore {
  docs : gmap bytes bytes;
  logs : gmap bytes (list GroupMsg);
  ring : list (bytes * GroupMsg);
  ring_bytes : Z;
}.

Definition log_of (st : Store) (g : bytes) : list GroupMsg := default [] (logs st !! g).

Section Store.
Context (cfg : StoreSettings).

(** The messages [scan] and the ring filter visit. *)
Definition saved (st : Store) (g : bytes) : list GroupMsg :=
  if history_save cfg then log_of st g
  else map snd (filter (fun km => km.1 = g) (ring st)).

Definition max_ord (st : Store) (g : bytes) : Z * Z :=
  fold_left (fun '(mx, n) m => (Z.max mx (ord m), n + 1)) (saved st g) (0, 0).

(** The loop of [record] that keeps the ring within its bytes. *)
Fixpoint evict (r : list (bytes * GroupMsg)) (b : Z) : list (bytes * GroupMsg) * Z :=
  match r with
  | [] => ([], b)
  | (_, old) :: r' => if ephemeral_bytes cfg <? b then evict r' (sat_sub b (cost old)) else (r, b)
  end.

(** [record], which the engine always asks to be durable; the flag is [Ok].  The
    record of an append whose flush failed stays in the log. *)
Definition store_record (io : IO) (st : Store) (g : bytes) (m : GroupMsg) (count_after : Z) : Store * bool :=
  if negb (history_save cfg) then
    let '(r, b) := evict (ring st ++ [(g, m)]) (ring_bytes st + cost m) in
    (mkStore (docs st) (logs st) r b, true)
  else if bool_decide (io_append io = NotAppended) then (st, false)
  else
    let log := log_of st g ++ [m] in
    let cap := max_messages cfg in
    if bool_decide (io_append io = Unsynced) && negb (defer_flush cfg) then
      (mkStore (docs st) (<[g := log]> (logs st)) (ring st) (ring_bytes st), false)
    else if cap + cap / 10 <? count_after then
      if io_rewrite io then
        (mkStore (docs st) (<[g := filter (fun x => ord m < ord x + cap) log]> (logs st)) (ring st) (ring_bytes st), true)
      else (mkStore (docs st) (<[g := log]> (logs st)) (ring st) (ring_bytes st), false)
    else (mkStore (docs st) (<[g := log]> (logs st)) (ring st) (ring_bytes st), true).

(** [retain]; how many messages remain (a [u64] that is counted up), or the
    error of the rewrite. *)
Definition store_retain (io : IO) (st : Store) (g : bytes) (keep : GroupMsg -> bool) : Store * option Z :=
  if negb (history_save cfg) then
    let mine := filter (fun km => km.1 = g) (ring st) in
    let gone := filter (fun km => keep km.2 = false) mine in
    (mkStore (docs st) (logs st) (filter (fun km => km.1 <> g \/ keep km.2 = true) (ring st))
       (sat_sub (ring_bytes st) (fold_left (fun a km => a + cost km.2) gone 0)),
     Some (zlen (filter (fun km => keep km.2 = true) mine) mod (u64_max + 1)))
  else
    match logs st !! g with
    | None => (st, Some 0)
    | Some log =>
        if negb (io_rewrite io) then (st, None)
        else
          let log := filter (fun m => keep m = true) log in
          (mkStore (docs st) (<[g := log]> (logs st)) (ring st) (ring_bytes st), Some (zlen log mod (u64_max + 1)))
    end.

(** [write_state_now]. *)
Definition write_doc (io : IO) (st : Store) (g doc : bytes) : Store * bool :=
  if io_doc io then (mkStore (<[g := doc]> (docs st)) (logs st) (ring st) (ring_bytes st), true) else (st, false).

(** [delete_group]: the document, then the log; either removal may fail. *)
Definition delete_group (io : IO) (st : Store) (g : bytes) : Store * bool :=
  let mine := filter (fun km => km.1 = g) (ring st) in
  let r := filter (fun km => km.1 <> g) (ring st) in
  let b := sat_sub (ring_bytes st) (fold_left (fun a km => a + cost km.2) mine 0) in
  if negb (io_doc io) then (mkStore (docs st) (logs st) r b, false)
  else if negb (io_rewrite io) then (mkStore (delete g (docs st)) (logs st) r b, false)
  else (mkStore (delete g (docs st)) (delete g (logs st)) r b, true).

(** The window is full and this message is older than all of it; indexing an
    empty window panics. *)
Definition too_old (limit : nat) (win : list GroupMsg) (m : GroupMsg) : outcome bool :=
  if (length win =? limit)%nat then match win with x :: _ => Ret (ord m <? ord x) | [] => Panic end
  else Ret false.

(** One message of the scan of [page]; [win] is sorted by [ord]. *)
Definition page_take (upper : Z) (limit : nat) (win : list GroupMsg) (m : GroupMsg) : outcome (list GroupMsg) :=
  if upper <=? ord m then Ret win
  else
    let! old := too_old limit win m in
    if old : bool then Ret win
    else
      let at_ := place ord (ord m) win in
      if match win !! at_ with Some x => ord x =? ord m | None => false end then Ret win
      else
        let win := take at_ win ++ m :: drop at_ win in
        Ret (if (limit <? length win)%nat then tail win else win).

Fixpoint page_scan (upper : Z) (limit : nat) (win ms : list GroupMsg) : outcome (list GroupMsg) :=
  match ms with [] => Ret win | m :: ms' => let! win := page_take upper limit win m in page_scan upper limit win ms' end.

Definition page (st : Store) (g : bytes) (before : option Z) (limit : nat) : outcome (list GroupMsg) :=
  page_scan (default u64_max before) limit [] (saved st g).
End Store.

(** ** Messages read back *)

Record msg_wf (m : GroupMsg) : Prop := {
  gw_ints : in_u64 (ord m) /\ in_u64 (m_counter m) /\ in_u64 (m_sent_ms m) /\ in_u64 (at_ms m) /\ in_u32 (m_epoch m);
  gw_keys : array 32 (m_sender m) /\ array 16 (gm_id m);
  gw_text : text_ok (m_text m) /\ str_len (m_text m) <= MAX_TEXT_BYTES;
  gw_shared : match shared_by m with Some k => array 32 k | None => True end;
}.

(** Every message record reads back as itself, so a log loses nothing when it
    is scanned or rewritten. *)
Theorem msg_roundtrip (m : GroupMsg) : msg_wf m -> msg_decode (msg_encode m) = Some m.
Proof.
  intros [(I1 & I2 & I3 & I4 & I5) [K1 K2] [Ht Hl] Hs]. pose proof (str_len_nonneg (m_text m)).
  unfold msg_decode, msg_encode, MAX_TEXT_BYTES in *. cbn [app rd_u8 mbind option_bind negb andb Z.eqb Pos.eqb].
  rewrite rd_u64_app by done. cbn [mbind option_bind app rd_u8]. rewrite rd_array_app by done. cbn [mbind option_bind].
  rewrite rd_u64_app by done. cbn [mbind option_bind]. rewrite rd_array_app by done. cbn [mbind option_bind].
  rewrite rd_u64_app by done. cbn [mbind option_bind]. rewrite rd_u64_app by done. cbn [mbind option_bind].
  rewrite rd_u32_app by done. cbn [mbind option_bind]. rewrite rd_u16_app by ulia. cbn [mbind option_bind].
  rewrite (proj2 (Z.ltb_ge _ _)) by lia. rewrite rd_text_app by done. cbn [mbind option_bind].
  change (2 <=? 2) with true. cbn iota. rewrite <- (app_nil_r (put_added_by _)), rd_added_by_app by done.
  cbn [mbind option_bind rd_done length Nat.eqb negb]. by destruct m as [? [] ? ? ? ? ? ? ? ?].
Qed.

(** ** The page is the newest messages *)

Section Page.
Context (upper : Z) (limit : nat).

(** [win] holds the newest of the messages [ms], by [ord]. *)
Record window (ms win : list GroupMsg) : Prop := {
  wi_sorted : sorted_by ord win;
  wi_from : forall m, m ∈ win -> m ∈ ms /\ ord m < upper;
  wi_newest : forall m, m ∈ ms -> ord m < upper ->
    ord m ∈ map ord win \/ ((limit <= length win)%nat /\ forall x, x ∈ win -> ord m < ord x);
}.

Lemma window_more ms win m :
  window ms win ->
  (ord m < upper -> ord m ∈ map ord win \/ ((limit <= length win)%nat /\ forall x, x ∈ win -> ord m < ord x)) ->
  window (ms ++ [m]) win.
Proof.
  intros [P1 P2 P3] Hm. split; [done| |].
  - intros x [Hx ?]%P2. split; [set_solver|done].
  - intros x [Hx|Hx%list_elem_of_singleton]%elem_of_app; [by apply P3|by subst].
Qed.

(** Dropping the oldest of a window that has grown past the limit. *)
Lemma window_tail ms x win : window ms (x :: win) -> (limit <= length win)%nat -> window ms win.
Proof.
  intros [P1 P2 P3] Hlen. apply sorted_by_cons in P1 as [P1 P1']. split; [done|intros m Hm; apply P2; by right|].
  intros m Hm Hu. destruct (P3 m Hm Hu) as [Hin|[_ Hlt]].
  - cbn in Hin. apply elem_of_cons in Hin as [Heq|Hin]; [|by left]. right. split; [done|].
    intros y Hy. rewrite Heq. by apply P1'.
  - right. split; [done|]. intros y Hy. apply Hlt. by right.
Qed.

Lemma window_insert ms win m :
  window ms win -> ord m < upper -> ord m ∉ map ord win ->
  ((limit <= length win)%nat -> exists x, x ∈ win /\ ord x < ord m) ->
  window (ms ++ [m]) (take (place ord (ord m) win) win ++ m :: drop (place ord (ord m) win) win).
Proof.
  intros [P1 P2 P3] Hu Hni Hfull.
  assert (forall x, x ∈ take (place ord (ord m) win) win ++ m :: drop (place ord (ord m) win) win <-> x = m \/ x ∈ win)
    as Hel by (intros x; by rewrite insert_at_perm, elem_of_cons).
  split.
  - apply insert_sorted; [done|]. intros x Hx Heq. apply Hni. rewrite <- Heq. apply list_elem_of_fmap. by exists x.
  - intros x [->|[Hx ?]%P2]%Hel; [split; [set_solver|done]|split; [set_solver|done]].
  - assert (forall x, x ∈ m :: win -> ord x ∈ map ord (take (place ord (ord m) win) win ++ m :: drop (place ord (ord m) win) win)) as Hin.
    { intros x Hx. apply list_elem_of_fmap. exists x. split; [done|]. by rewrite insert_at_perm. }
    intros x [Hx|Hx%list_elem_of_singleton]%elem_of_app Hux; [|subst; left; apply Hin; by left].
    destruct (P3 x Hx Hux) as [(y & Hy & Hyw)%list_elem_of_fmap|[Hlen Hlt]].
    + left. rewrite Hy. apply Hin. by right.
    + right. rewrite insert_at_perm. split; [simpl; lia|]. destruct (Hfull Hlen) as (z & Hz & Hzm).
      intros y [->|Hy]%Hel; [specialize (Hlt z Hz); lia|by apply Hlt].
Qed.

Lemma too_old_spec ms win m :
  (0 < limit)%nat -> window ms win ->
  exists b, too_old limit win m = Ret b /\
    if b then (limit <= length win)%nat /\ forall x, x ∈ win -> ord m < ord x
    else length win = limit -> exists x w, win = x :: w /\ ord x <= ord m.
Proof.
  intros Hlim Hp. unfold too_old. destruct (Nat.eqb_spec (length win) limit) as [Hl|Hl]; [|by exists false].
  destruct win as [|x w]; [simpl in Hl; lia|]. exists (ord m <? ord x). split; [done|].
  destruct (Z.ltb_spec (ord m) (ord x)); [|intros _; by exists x, w]. split; [lia|].
  destruct (sorted_by_cons _ _ _ (wi_sorted _ _ Hp)) as [_ Hs].
  intros y [->|Hy]%elem_of_cons; [done|]. specialize (Hs y Hy). lia.
Qed.

Lemma page_take_ok ms win m :
  (0 < limit)%nat -> window ms win -> (length win <= limit)%nat ->
  exists win', page_take upper limit win m = Ret win' /\ window (ms ++ [m]) win' /\ (length win' <= limit)%nat.
Proof.
  intros Hlim Hp Hle. unfold page_take. destruct (Z.leb_spec upper (ord m)) as [|Hu].
  { exists win. split_and!; [done|apply window_more; [done|lia]|done]. }
  destruct (too_old_spec ms win m Hlim Hp) as (b & -> & Hb). cbn [outcome_bind]. destruct b.
  { exists win. split_and!; [done|apply window_more; [done|by right]|done]. }
  destruct (win !! place ord (ord m) win) as [y|] eqn:Hy; [destruct (Z.eqb_spec (ord y) (ord m)) as [He|Hne]|].
  { exists win. split_and!; [done| |done]. apply window_more; [done|]. intros _. left.
    rewrite <- He. apply list_elem_of_fmap. exists y. split; [done|]. by eapply list_elem_of_lookup_2. }
  all: assert (ord m ∉ map ord win) as Hni by
    (intros (z & Hz & Hzw)%list_elem_of_fmap; symmetry in Hz;
     rewrite (place_lookup ord _ _ z (wi_sorted _ _ Hp) Hzw Hz) in Hy; congruence).
  all: match goal with |- context [Ret (if _ then tail ?w else ?w)] => remember w as w' eqn:Hw end.
  all: assert (window (ms ++ [m]) w') as Hi by
    (subst w'; apply window_insert; [done..|]; intros Hfull; destruct (Hb ltac:(lia)) as (x & w & -> & Hx);
     exists x; split; [left|]; assert (ord x <> ord m) by (intros He; apply Hni; rewrite <- He; left); lia).
  all: assert (length w' = S (length win)) as Hlw by (subst w'; by rewrite insert_at_perm).
  all: eexists; split; [reflexivity|]; destruct (Nat.ltb_spec limit (length w')); [|split; [done|lia]].
  all: destruct w' as [|x w'']; [done|]; simpl in *; split; [apply window_tail in Hi; [done|lia]|lia].
Qed.

Lemma page_scan_ok ms ms' win :
  (0 < limit)%nat -> window ms win -> (length win <= limit)%nat ->
  exists win', page_scan upper limit win ms' = Ret win' /\ window (ms ++ ms') win' /\ (length win' <= limit)%nat.
Proof.
  intros Hlim. revert ms win. induction ms' as [|m ms' IH]; intros ms win Hw Hl; simpl.
  - exists win. by rewrite app_nil_r.
  - destruct (page_take_ok ms win m Hlim Hw Hl) as (w1 & -> & H1 & L1). cbn [outcome_bind].
    destruct (IH _ _ H1 L1) as (w2 & -> & H2 & L2). exists w2. by rewrite <- app_assoc in H2.
Qed.
End Page.

Lemma page_ok cfg st g before limit :
  (0 < limit)%nat ->
  exists win, page cfg st g before limit = Ret win /\ window (default u64_max before) limit (saved cfg st g) win /\
    (length win <= limit)%nat.
Proof.
  intros Hlim. destruct (page_scan_ok (default u64_max before) limit [] (saved cfg st g) []) as (win & Hs & Hw & Hl).
  - done.
  - split; [constructor|intros m Hm; by apply elem_of_nil in Hm|intros m Hm; by apply elem_of_nil in Hm].
  - simpl. lia.
  - by exists win.
Qed.

(** The page is the newest messages: whatever the order of the saved log, and
    with repeats, [page] returns messages of the group below [before] in
    increasing order, one for each number, at most [limit] of them, and it
    leaves one out only when the page is full of newer ones. *)
Theorem page_is_newest (cfg : StoreSettings) (st : Store) (g : bytes) (before : option Z) (limit : nat) :
  (0 < limit)%nat ->
  let upper := default u64_max before in
  exists win, page cfg st g before limit = Ret win /\
    sorted_by ord win /\ (length win <= limit)%nat /\
    (forall m, m ∈ win -> m ∈ saved cfg st g /\ ord m < upper) /\
    (forall m, m ∈ saved cfg st g -> ord m < upper ->
       ord m ∈ map ord win \/ (length win = limit /\ forall x, x ∈ win -> ord m < ord x)).
Proof.
  intros Hlim upper. destruct (page_ok cfg st g before limit Hlim) as (win & Hs & [W1 W2 W3] & Hl).
  exists win. split_and!; [done|done|done|done|]. intros m Hm Hu.
  destruct (W3 m Hm Hu) as [?|[? ?]]; [by left|right; split; [lia|done]].
Qed.

Module StoreDemo.
Definition note (n : Z) : GroupMsg := mkMsg n false (replicate 32 2) n (replicate 16 n) 1500 1600 1 (lit "hi") (Some (replicate 32 3)).
Definition keep_all : StoreSettings := mkSettings true 100 1000 false.
(** A log out of order and with a repeat. *)
Definition shelf : Store := mkStore ∅ {[ replicate 16 7 := [note 3; note 1; note 4; note 3; note 2] ]} [] 0.

Lemma note_wf n : in_u8 n -> msg_wf (note n).
Proof.
  intros Hn. split; cbn [note ord m_sender m_counter gm_id m_sent_ms at_ms m_epoch m_text shared_by].
  - split_and!; ulia.
  - split; (split; [apply length_replicate|apply Forall_replicate; ulia]).
  - split; [by apply text_check|vm_compute; discriminate].
  - split; [apply length_replicate|apply Forall_replicate; ulia].
Qed.
End StoreDemo.
Import StoreDemo.

Lemma msg_roundtrip_witness : msg_decode (msg_encode (note 5)) = Some (note 5).
Proof. apply (msg_roundtrip (note 5)), note_wf. ulia. Defined.

Lemma page_is_newest_witness :
  page keep_all shelf (replicate 16 7) (Some 4) 2 = Ret [note 2; note 3] /\
  exists win, page keep_all shelf (replicate 16 7) (Some 4) 2 = Ret win /\
    sorted_by ord win /\ (length win <= 2)%nat /\
    (forall m, m ∈ win -> m ∈ saved keep_all shelf (replicate 16 7) /\ ord m < 4) /\
    (forall m, m ∈ saved keep_all shelf (replicate 16 7) -> ord m < 4 ->
       ord m ∈ map ord win \/ (length win = 2%nat /\ forall x, x ∈ win -> ord m < ord x)).
Proof.
  split; [vm_compute; reflexivity|].
  apply (page_is_newest keep_all shelf (replicate 16 7) (Some 4) 2). lia.
Defined.
