(* ===== verification/GroupEngine.v ===== *)
(** * GroupEngine: the group engine of a device

    Models [chat/group/engine.rs]: membership changes, sending, the work owed
    to each member, what a received record does, hand-over of history and
    display order.  The pairwise session that opens an envelope is below this
    model: [handle] starts at the opened record of an authenticated peer.
    Random identifiers, the clock, trust in a contact and the success of each
    write are inputs. *)

From S2P Require Import Prelude Bytes Text Codec ErasureCode Dissolve Group GroupState GroupRecord GroupStore.

Definition MAX_GROUPS : nat := 32.
Definition MAX_INVITES : nat := 8.
Definition UNVERIFIED_MAX_TEXT : Z := 2048.
Definition EVENT_CAP : nat := 200.
Definition MAX_HIST_PER_HANDOVER : nat := MAX_PENDING.

Inductive GroupError :=
| GEmpty | GTooBig | GNotFound | GAmbiguous | GNotJoined | GNotAdmin | GNotMember | GAlreadyMember
| GTooManyGroups | GTooManyMembers | GLastAdmin | GQueueFull | GInvalid | GStorage.

(** [From<DescError>]. *)
Definition group_error (e : DescError) : GroupError :=
  match e with
  | TooManyMembers => GTooManyMembers | NoAdmin => GLastAdmin | NotAuthorized => GNotAdmin | _ => GInvalid
  end.

Inductive GroupEventKind := EvReceived | EvInvited | EvJoined | EvChanged.
Record GroupEvent := mkEvent { e_seq : Z; e_gid : bytes; e_kind : GroupEventKind; e_msg : option GroupMsg }.

Inductive Work :=
| WText (gid id : bytes)
| WDescs (gid : bytes)
| WSync (gid : bytes)
| WHist (gid to : bytes) (seq : Z).

(** [proto::AckStatus]. *)
Inductive AckStatus :=
| AStored | ADuplicate | ANoSession | ANotAllowed | ATooBig | ARate | ABusy | ABadRequest | AUnsupported | AFailed | AUnknown.
#[export] Instance AckStatus_eq_dec : EqDecision AckStatus.
Proof. solve_decision. Defined.

Record HistJob := mkJob { j_seq : Z; j_plain : bytes }.

(** [Inner] with the store below it and the auto-join switch. *)
Record Core := mkCore {
  groups : gmap bytes GroupState;
  ev_next : Z;
  ev_items : list GroupEvent;
  reasons : gmap bytes str;
  hist : gmap bytes (list HistJob);
  hist_seq : Z;
  auto_join : bool;
  store : Store;
}.

Definition set_groups (gs : gmap bytes GroupState) (c : Core) : Core :=
  let 'mkCore _ en ei rs hi hs aj st := c in mkCore gs en ei rs hi hs aj st.
Definition set_events (en : Z) (ei : list GroupEvent) (c : Core) : Core :=
  let 'mkCore gs _ _ rs hi hs aj st := c in mkCore gs en ei rs hi hs aj st.
Definition set_reasons (rs : gmap bytes str) (c : Core) : Core :=
  let 'mkCore gs en ei _ hi hs aj st := c in mkCore gs en ei rs hi hs aj st.
Definition set_hist (hi : gmap bytes (list HistJob)) (hs : Z) (c : Core) : Core :=
  let 'mkCore gs en ei rs _ _ aj st := c in mkCore gs en ei rs hi hs aj st.
Definition set_auto_join (aj : bool) (c : Core) : Core :=
  let 'mkCore gs en ei rs hi hs _ st := c in mkCore gs en ei rs hi hs aj st.
Definition set_store (st : Store) (c : Core) : Core :=
  let 'mkCore gs en ei rs hi hs aj _ := c in mkCore gs en ei rs hi hs aj st.

(** Writing through the [&mut GroupState] borrowed from the map. *)
Definition put_group (g : bytes) (s : GroupState) (c : Core) : Core := set_groups (<[g := s]> (groups c)) c.

(** The longest prefix of at most [n] bytes. *)
Fixpoint trim_to (n : Z) (s : str) : str :=
  match s with [] => [] | c :: s' => if len_utf8 c <=? n then c :: trim_to (n - len_utf8 c) s' else [] end.
Definition trim_hint (h : str) : str := trim_to MAX_HINT_BYTES (trim h).

Definition push_event (c : Core) (g : bytes) (k : GroupEventKind) (m : option GroupMsg) : Core :=
  let ei := if (EVENT_CAP <=? length (ev_items c))%nat then tail (ev_items c) else ev_items c in
  set_events (wrapping_add u64_max (ev_next c) 1) (ei ++ [mkEvent (ev_next c) g k m]) c.

Definition events_since (c : Core) (since : Z) : Z * list GroupEvent :=
  (wrapping_sub u64_max (ev_next c) 1, filter (fun e => since < e_seq e) (ev_items c)).

Definition note_delivery (c : Core) (peer : bytes) (reason : option str) : Core :=
  match reason with
  | Some r =>
      if (size (reasons c) <? 4 * MAX_MEMBERS)%nat || bool_decide (is_Some (reasons c !! peer))
      then set_reasons (<[peer := r]> (reasons c)) c else c
  | None => set_reasons (delete peer (reasons c)) c
  end.

Definition knows (c : Core) (peer : bytes) : bool :=
  existsb (fun kv => ever_member (chain kv.2) peer) (btree (groups c)).

Definition live_group (c : Core) (g : bytes) : result GroupState GroupError :=
  match groups c !! g with
  | None => Err GNotFound
  | Some st => if bool_decide (status st = Joined) then Ok st else Err GNotJoined
  end.

(** Owe every member of a list an item of one kind. *)
Definition owe_all (st : GroupState) (tos : list bytes) (k : CtrlKind) (arg : Z) : GroupState :=
  fold_left (fun s to => (owe s to k arg).1) tos st.

Definition with_to (to : list bytes) (p : PendingMsg) : PendingMsg :=
  mkPending (p_id p) (p_counter p) (p_epoch p) (p_sent_ms p) (p_text p) to.

(** Pending messages that still have someone to go to. *)
Definition unsent (pe : list PendingMsg) : list PendingMsg := filter (fun p => p_to p <> []) pe.

Definition add_failed (n : Z) (l : LedgerEntry) : LedgerEntry :=
  mkLedger (l_id l) (l_total l) (l_delivered l) (sat_add u8_max (l_failed l) n).
Definition add_delivered (l : LedgerEntry) : LedgerEntry :=
  mkLedger (l_id l) (l_total l) (sat_add u8_max (l_delivered l) 1) (l_failed l).

Definition keep_listed (listed to : list bytes) : list bytes := filter (fun t => t ∈ listed) to.

(** [prune]: after a member list shrank. *)
Definition prune_to (listed : list bytes) (st : GroupState) : GroupState :=
  let dropped := flat_map (fun p =>
    let gone := (zlen (p_to p) - zlen (keep_listed listed (p_to p))) mod 256 in
    if 0 <? gone then [(p_id p, gone)] else []) (pending st) in
  let st := set_pending (unsent (map (fun p => with_to (keep_listed listed (p_to p)) p) (pending st))) st in
  let st := fold_left (fun s '(id, n) => update_ledger s id (add_failed n)) dropped st in
  set_ctrl (filter (fun c => c_to c ∈ listed) (ctrl st)) st.

Definition prune (st : GroupState) : outcome GroupState :=
  let! l := latest (chain st) in Ret (prune_to (map m_id (members l)) st).

Section Engine.
Context `{Crypto} `{Ed25519}.
Context (cfg : StoreSettings) (own secret : bytes) (max_text : Z).

(** Other members of a descriptor. *)
Definition others (l : Descriptor) : list bytes := filter (fun id => id <> own) (map m_id (members l)).

(** [save]; the flag is [Ok]. *)
Definition save (io : IO) (c : Core) (s : GroupState) : outcome (Core * bool) :=
  if defer_flush cfg then Ret (c, true)
  else
    let! l := latest (chain s) in
    let '(st, ok) := write_doc io (store c) (gid l) (state_encode s) in
    Ret (set_store st c, ok).

(** The epoch is a [u32]; the addition wraps in a release build. *)
Definition next_descriptor (prev : Descriptor) (ms : list Member) : Descriptor :=
  signed (mkDescriptor (gid prev) (wrapping_add u32_max (epoch prev) 1) (d_name prev) (created_ms prev)
            (desc_hash prev) ms (replicate 32 0) (replicate 64 0)) secret.

Fixpoint append_members (ms : list Member) (new : list (bytes * str * bool)) : result (list Member) GroupError :=
  match new with
  | [] => Ok ms
  | (id, hint, admin) :: new' =>
      if existsb (fun m => bool_decide (m_id m = id)) ms then Err GAlreadyMember
      else append_members (ms ++ [mkMember id (if admin : bool then RAdmin else RMember) (trim_hint hint)]) new'
  end.

(** The member loop of [create]. *)
Fixpoint create_members (ms : list Member) (new : list (bytes * str)) : result (list Member) GroupError :=
  match new with
  | [] => Ok ms
  | (id, hint) :: new' =>
      if bool_decide (id = own) || existsb (fun m => bool_decide (m_id m = id)) ms then Err GInvalid
      else create_members (ms ++ [mkMember id RMember (trim_hint hint)]) new'
  end.

(** [create]; [g] is the random group identifier. *)
Definition create (io : IO) (c : Core) (name : str) (new : list (bytes * str)) (now : Z) (g : bytes) :
    outcome (Core * result bytes GroupError) :=
  let name := trim name in
  if (str_len name =? 0) || (MAX_NAME_BYTES <? str_len name) then Ret (c, Err GInvalid)
  else if (MAX_MEMBERS <? length new + 1)%nat then Ret (c, Err GTooManyMembers)
  else
    match create_members [mkMember own RAdmin []] new with
    | Err e => Ret (c, Err e)
    | Ok ms =>
        let d := signed (mkDescriptor g 1 name now (replicate 32 0) ms (replicate 32 0) (replicate 64 0)) secret in
        match from_root d with
        | Err e => Ret (c, Err (group_error e))
        | Ok ch =>
            let st := set_log 0 0 now (new_state ch Joined) in
            let! l := latest ch in
            let st := owe_all st (others l) KDescs 0 in
            if (MAX_GROUPS <=? size (groups c))%nat then Ret (c, Err GTooManyGroups)
            else
              let! (c, ok) := save io c st in
              if ok : bool then Ret (put_group g st c, Ok g) else Ret (c, Err GStorage)
        end
    end.

(** The end of a change made here: owe the descriptors, save, tell. *)
Definition announce (io : IO) (c : Core) (g : bytes) (st : GroupState) (notify : list bytes) :
    outcome (Core * result (list bytes) GroupError) :=
  let st := owe_all st notify KDescs 0 in
  let! (c, ok) := save io (put_group g st c) st in
  if ok : bool then Ret (push_event c g EvChanged None, Ok notify) else Ret (c, Err GStorage).

Definition add (io : IO) (c : Core) (g : bytes) (new : list (bytes * str * bool)) :
    outcome (Core * result (list bytes) GroupError) :=
  match live_group c g with
  | Err e => Ret (c, Err e)
  | Ok st =>
      let! l := latest (chain st) in
      if negb (is_admin l own) then Ret (c, Err GNotAdmin)
      else if (MAX_MEMBERS <? length (members l) + length new)%nat then Ret (c, Err GTooManyMembers)
      else
        match append_members (members l) new with
        | Err e => Ret (c, Err e)
        | Ok ms =>
            let! (ch, r) := push (chain st) (next_descriptor l ms) in
            let st := set_chain ch st in
            match r with
            | Err e => Ret (put_group g st c, Err (group_error e))
            | Ok _ => let! l' := latest ch in announce io c g st (others l')
            end
        end
  end.

Definition remove (io : IO) (c : Core) (g : bytes) (who : bytes) :
    outcome (Core * result (list bytes) GroupError) :=
  match live_group c g with
  | Err e => Ret (c, Err e)
  | Ok st =>
      let! l := latest (chain st) in
      if negb (is_admin l own) then Ret (c, Err GNotAdmin)
      else if bool_decide (who = own) then Ret (c, Err GInvalid)
      else if negb (is_member l who) then Ret (c, Err GNotMember)
      else
        let! (ch, r) := push (chain st) (next_descriptor l (filter (fun m => m_id m <> who) (members l))) in
        let st := set_chain ch st in
        match r with
        | Err e => Ret (put_group g st c, Err (group_error e))
        | Ok _ =>
            let! st := prune st in
            let! l' := latest ch in
            announce io c g st (others l' ++ [who])
        end
  end.

Definition leave (io : IO) (c : Core) (g : bytes) : outcome (Core * result (list bytes) GroupError) :=
  match live_group c g with
  | Err e => Ret (c, Err e)
  | Ok st =>
      let! l := latest (chain st) in
      let ms := filter (fun m => m_id m <> own) (members l) in
      let rest := map m_id ms in
      if (length ms =? 0)%nat then
        let st := set_status Left st in
        let! (c, ok) := save io (put_group g st c) st in
        Ret (c, if ok : bool then Ok rest else Err GStorage)
      else if is_admin l own && negb (existsb (fun m => bool_decide (m_role m = RAdmin)) ms)
      then Ret (c, Err GLastAdmin)
      else
        let! (ch, r) := push (chain st) (next_descriptor l ms) in
        let st := set_chain ch st in
        match r with
        | Err e => Ret (put_group g st c, Err (group_error e))
        | Ok _ => announce io c g (set_status Left st) rest
        end
  end.

(** [become_member]: the new state and the members to wake. *)
Definition become_member (st : GroupState) (by_ : bytes) : outcome (GroupState * list bytes) :=
  let st := set_added_by (Some by_) (set_status Joined st) in
  let! l := latest (chain st) in
  Ret (owe_all st (others l) KSync (epoch l), others l).

Definition accept_invite (io : IO) (c : Core) (g : bytes) : outcome (Core * result (list bytes) GroupError) :=
  match groups c !! g with
  | None => Ret (c, Err GNotFound)
  | Some st =>
      match status st with
      | Pending by_ =>
          let! (st, os) := become_member st by_ in
          let! (c, ok) := save io (put_group g st c) st in
          if ok : bool then Ret (push_event c g EvChanged None, Ok os) else Ret (c, Err GStorage)
      | Joined => Ret (c, Ok [])
      | _ => Ret (c, Err GNotJoined)
      end
  end.

Definition forget (io : IO) (c : Core) (g : bytes) : Core * result unit GroupError :=
  match groups c !! g with
  | None => (c, Err GNotFound)
  | Some st =>
      if bool_decide (status st = Joined) then (c, Err GInvalid)
      else
        let '(sto, ok) := delete_group io (store c) g in
        if ok : bool then (set_groups (delete g (groups c)) (set_store sto c), Ok tt)
        else (set_store sto c, Err GStorage)
  end.

(** ** Sending *)

(** [record_locked]: the message goes to the log under the next number. *)
Definition record_locked (io : IO) (sto : Store) (st : GroupState) (m : GroupMsg) :
    outcome (Store * GroupState * bool) :=
  let! l := latest (chain st) in
  let '(no, cn) := if next_ord st =? 0
                   then let '(mx, n) := max_ord cfg sto (gid l) in (wrapping_add u64_max mx 1, n)
                   else (next_ord st, count st) in
  let m := mkMsg no (outgoing m) (m_sender m) (m_counter m) (gm_id m) (m_sent_ms m) (at_ms m) (m_epoch m)
             (m_text m) (shared_by m) in
  let cn := wrapping_add u64_max cn 1 in
  let st := set_log (wrapping_add u64_max no 1) cn (Z.max (last_ms st) (at_ms m)) st in
  let '(sto, ok) := store_record cfg io sto (gid l) m cn in
  Ret (sto, st, ok).

(** [send]; [id] is the random message identifier. *)
Definition send (io : IO) (c : Core) (g : bytes) (text : str) (now : Z) (id : bytes) :
    outcome (Core * result (bytes * list bytes) GroupError) :=
  if str_len text =? 0 then Ret (c, Err GEmpty)
  else if max_text <? str_len text then Ret (c, Err GTooBig)
  else
    match live_group c g with
    | Err e => Ret (c, Err e)
    | Ok st =>
        if (MAX_PENDING <=? length (pending st))%nat then Ret (c, Err GQueueFull)
        else
          let! l := latest (chain st) in
          let recipients := others l in
          let counter := wrapping_add u64_max (my_counter st) 1 in
          let st := set_my_counter counter st in
          let st := if (length recipients =? 0)%nat then st
                    else push_ledger
                           (set_pending (pending st ++ [mkPending id counter (epoch l) now text recipients]) st)
                           (mkLedger id (zlen recipients mod 256) 0 0) in
          let! (sto, st, ok) := record_locked io (store c) st
              (mkMsg 0 true own counter id now now (epoch l) text None) in
          let c := put_group g st (set_store sto c) in
          if negb ok then Ret (c, Err GStorage)
          else
            let! (c, ok) := save io c st in
            Ret (c, if ok : bool then Ok (id, recipients) else Err GStorage)
    end.

(** The first pending message with the smallest counter ([min_by_key]). *)
Definition min_counter (pe : list PendingMsg) : option PendingMsg :=
  match pe with
  | [] => None
  | p :: pe' => Some (fold_left (fun a x => if p_counter x <? p_counter a then x else a) pe' p)
  end.

Definition first_some {A B} (f : A -> option B) (l : list A) : option B :=
  match filter (fun x => is_Some (f x)) l with x :: _ => f x | [] => None end.

(** The item a group owes [peer], descriptors and requests before messages. *)
Definition ctrl_for (peer : bytes) (st : GroupState) : option Ctrl :=
  find (fun c => bool_decide (c_to c = peer)) (ctrl st).
Definition text_for (peer : bytes) (st : GroupState) : option PendingMsg :=
  min_counter (filter (fun p => peer ∈ p_to p) (pending st)).

Definition result_ok {A E} (r : result A E) : option A := match r with Ok a => Some a | Err _ => None end.

(** [next_for]: the work and its plaintext. *)
Definition next_for (c : Core) (peer : bytes) : outcome (option (Work * bytes)) :=
  let sts := map snd (btree (groups c)) in
  match first_some (fun st => pair st <$> ctrl_for peer st) sts with
  | Some (st, ct) =>
      let! l := latest (chain st) in
      Ret (match c_kind ct with
           | KDescs => pair (WDescs (gid l)) <$> result_ok (encode_descs (newest_that_fit (items (chain st))))
           | KSync => Some (WSync (gid l), encode_sync (gid l) (c_arg ct))
           end)
  | None =>
      match first_some (fun st => pair st <$> text_for peer st) sts with
      | Some (st, p) =>
          let! l := latest (chain st) in
          Ret (pair (WText (gid l) (p_id p)) <$>
               result_ok (text_encode (mkText (gid l) (p_epoch p) (p_counter p) (p_id p) (p_sent_ms p) (p_text p))))
      | None =>
          Ret (match hist c !! peer with
               | Some (job :: _) =>
                   Some (WHist (default (replicate 16 0) (hist_gid (j_plain job))) peer (j_seq job), j_plain job)
               | _ => None
               end)
      end
  end.

(** What the result of a delivery does to a group. *)
Definition settle_group (st : GroupState) (peer : bytes) (w : Work) (delivered : bool) : GroupState :=
  match w with
  | WHist _ _ _ => st
  | WDescs _ => set_ctrl (filter (fun c => owes peer KDescs c = false) (ctrl st)) st
  | WSync _ => set_ctrl (filter (fun c => owes peer KSync c = false) (ctrl st)) st
  | WText _ id =>
      let pe := update_first (fun p => bool_decide (p_id p = id))
                  (fun p => with_to (filter (fun t => t <> peer) (p_to p)) p) (pending st) in
      let st := set_pending (unsent pe) st in
      let st := if delivered then (confirm st peer).1 else st in
      update_ledger st id (if delivered then add_delivered else add_failed 1)
  end.

Definition settle (io : IO) (c : Core) (peer : bytes) (w : Work) (delivered : bool) : outcome Core :=
  match w with
  | WHist _ to seq =>
      Ret (match hist c !! to with
           | Some q =>
               let q := filter (fun j => j_seq j <> seq) q in
               set_hist (if (length q =? 0)%nat then delete to (hist c) else <[to := q]> (hist c)) (hist_seq c) c
           | None => c
           end)
  | WText g _ | WDescs g | WSync g =>
      match groups c !! g with
      | None => Ret c
      | Some st =>
          let st := settle_group st peer w delivered in
          let! (c, _) := save io (put_group g st c) st in Ret c
      end
  end.

(** ** Receiving *)

Section Receive.
Context (trusted : bytes -> bool).

Definition is_pending (st : Status) : bool := match st with Pending _ => true | _ => false end.

(** A sender whose counter is not new, and one too many senders. *)
Definition vector_known (st : GroupState) (who : bytes) (counter : Z) : bool :=
  match vectors st !! who with Some v => negb (is_new v counter) | None => false end.
Definition vectors_full (st : GroupState) (who : bytes) : bool :=
  match vectors st !! who with Some _ => false | None => (MAX_VECTORS <=? size (vectors st))%nat end.
Definition mark_vector (st : GroupState) (who : bytes) (counter : Z) : GroupState :=
  set_vectors (<[who := mark (default default_vec (vectors st !! who)) counter]> (vectors st)) st.

(** Record a received message; the counters of the log are restored when it
    could not be written. *)
Definition record_received (io : IO) (c : Core) (g : bytes) (st : GroupState) (m : GroupMsg)
    (finish_ : GroupState -> GroupState) : outcome (Core * AckStatus) :=
  let! (sto, st', ok) := record_locked io (store c) st m in
  if negb ok then
    Ret (put_group g (set_log (next_ord st) (count st) (last_ms st) st') (set_store sto c), AFailed)
  else
    let st' := finish_ (mark_vector st' (m_sender m) (m_counter m)) in
    let! (c, ok) := save io (put_group g st' (set_store sto c)) st' in
    if negb ok then Ret (c, AFailed)
    else
      let shown := mkMsg (wrapping_sub u64_max (next_ord st') 1) (outgoing m) (m_sender m) (m_counter m) (gm_id m)
                     (m_sent_ms m) (at_ms m) (m_epoch m) (m_text m) (shared_by m) in
      Ret (push_event c g EvReceived (Some shown), AStored).

Definition handle_text (io : IO) (c : Core) (peer : bytes) (t : GroupText) (now : Z) :
    outcome (Core * AckStatus * list bytes) :=
  match groups c !! t_gid t with
  | None => Ret (c, ANotAllowed, [])
  | Some st =>
      match status st with
      | Pending _ => Ret (c, ABusy, [])
      | Left | Removed => Ret (c, ANotAllowed, [])
      | Joined =>
          let! l := latest (chain st) in
          if epoch l <? t_epoch t then
            let '(st, owed) := owe st peer KSync (epoch l) in
            let c := put_group (t_gid t) st c in
            if owed : bool then let! (c, _) := save io c st in Ret (c, ABusy, [peer]) else Ret (c, ABusy, [])
          else if negb (is_member l peer) then Ret (c, ANotAllowed, [])
          else if (max_text <? str_len (t_text t)) || (negb (trusted peer) && (UNVERIFIED_MAX_TEXT <? str_len (t_text t)))
          then Ret (c, ATooBig, [])
          else if vector_known st peer (t_counter t) then Ret (c, ADuplicate, [])
          else if vectors_full st peer then Ret (c, ABusy, [])
          else
            let! (c, a) := record_received io c (t_gid t) st
                (mkMsg 0 false peer (t_counter t) (t_id t) (t_sent_ms t) now (t_epoch t) (t_text t) None)
                (fun st => (confirm st peer).1) in
            Ret (c, a, [])
      end
  end.

Definition handle_hist_offer (io : IO) (c : Core) (peer : bytes) (o : HistOffer) (now : Z) :
    outcome (Core * AckStatus) :=
  match groups c !! o_gid o with
  | None => Ret (c, ANotAllowed)
  | Some st =>
      match status st with
      | Pending _ => Ret (c, ABusy)
      | Left | Removed => Ret (c, ANotAllowed)
      | Joined =>
          let! l := latest (chain st) in
          if negb (is_member l peer) then Ret (c, ANotAllowed)
          else if bool_decide (o_sender o = own) || negb (ever_member (chain st) (o_sender o)) then Ret (c, ANotAllowed)
          else if max_text <? str_len (o_text o) then Ret (c, ATooBig)
          else if vector_known st (o_sender o) (o_counter o) then Ret (c, ADuplicate)
          else if vectors_full st (o_sender o) then Ret (c, ABusy)
          else record_received io c (o_gid o) st
                 (mkMsg 0 false (o_sender o) (o_counter o) (o_id o) (o_sent_ms o) now (o_epoch o) (o_text o) (Some peer))
                 (fun st => st)
      end
  end.

(** A record of one group in strictly increasing epochs. *)
Fixpoint epochs_increase (ds : list Descriptor) : bool :=
  match ds with d :: ((e :: _) as ds') => (epoch d <? epoch e) && epochs_increase ds' | _ => true end.

(** Confirm the peer if the newest descriptor lists it. *)
Definition confirm_listed (st : GroupState) (peer : bytes) : outcome (GroupState * bool) :=
  let! l := latest (chain st) in Ret (if is_member l peer then confirm st peer else (st, false)).

(** Our standing after the chain moved: the state, whether we joined now, and
    whom to wake. *)
Definition standing (aj : bool) (st : GroupState) (peer : bytes) : outcome (GroupState * bool * list bytes) :=
  let! l := latest (chain st) in
  match status st, is_member l own with
  | Joined, false | Pending _, false => Ret (set_status Removed st, false, [])
  | Left, true | Removed, true =>
      if trusted peer then
        let! (st, _) := confirm_listed (set_confirmed [] st) peer in
        if aj : bool then let! (st, os) := become_member st peer in Ret (st, true, os)
        else Ret (set_status (Pending peer) st, false, [])
      else Ret (st, false, [])
  | _, _ => Ret (st, false, [])
  end.

(** Descriptors of a group we hold. *)
Definition update_group (io : IO) (c : Core) (peer : bytes) (g : bytes) (st : GroupState) (ds : list Descriptor) :
    outcome (Core * AckStatus * list bytes) :=
  let was := status st in
  let! (ch, r) := push_all (chain st) ds in
  let st := set_chain ch st in
  match r with
  | Ok false =>
      let! (st, news) := confirm_listed st peer in
      let c := put_group g st c in
      if news : bool then let! (c, _) := save io c st in Ret (c, ADuplicate, []) else Ret (c, ADuplicate, [])
  | Err Gap => Ret (put_group g st c, ABadRequest, [])
  | Err _ => Ret (put_group g st c, ANotAllowed, [])
  | Ok true =>
      let! (st, _) := confirm_listed st peer in
      let! (st, joined, kick) := standing (auto_join c) st peer in
      let! st := prune st in
      let! (c, ok) := save io (put_group g st c) st in
      if negb ok then Ret (c, AFailed, kick)
      else
        let k := if joined : bool then EvJoined
                 else if is_pending (status st) && negb (is_pending was) then EvInvited else EvChanged in
        Ret (push_event c g k None, AStored, kick)
  end.

(** The loop that looks for a descriptor the chain can start at. *)
Fixpoint try_roots (ds : list Descriptor) : outcome (option Chain) :=
  match ds with
  | [] => Ret None
  | d :: rest =>
      match from_root d with
      | Err _ => try_roots rest
      | Ok ch => let! (ch, r) := push_all ch rest in
                 if is_ok r || (length rest =? 0)%nat then Ret (Some ch) else try_roots rest
      end
  end.

(** Descriptors of a group we do not know: an invitation. *)
Definition invited (io : IO) (c : Core) (peer : bytes) (g : bytes) (ds : list Descriptor) (now : Z) :
    outcome (Core * AckStatus * list bytes) :=
  match last ds with
  | None => Panic
  | Some l =>
      if negb (trusted peer) || negb (bool_decide (signer l = peer)) then Ret (c, ANotAllowed, [])
      else if negb (is_member l own) || negb (is_admin l peer) then Ret (c, ANotAllowed, [])
      else if (MAX_GROUPS <=? size (groups c))%nat
              || (MAX_INVITES <=? length (filter (fun kv => is_pending (status kv.2) = true) (btree (groups c))))%nat
      then Ret (c, ABusy, [])
      else
        let! och := try_roots ds in
        match och with
        | None => Ret (c, ANotAllowed, [])
        | Some ch =>
            let! top := latest ch in
            if negb (epoch top =? epoch l) then Ret (c, ANotAllowed, [])
            else
              let st := (confirm (set_log 0 0 now (new_state ch (Pending peer))) peer).1 in
              let! (st, kick) := (if auto_join c then become_member st peer else Ret (st, [])) in
              let! (c, ok) := save io c st in
              if negb ok then Ret (c, AFailed, kick)
              else Ret (push_event (put_group g st c) g (if auto_join c then EvJoined else EvInvited) None, AStored, kick)
        end
  end.

Definition handle_descs (io : IO) (c : Core) (peer : bytes) (ds : list Descriptor) (now : Z) :
    outcome (Core * AckStatus * list bytes) :=
  match ds with
  | [] => Panic
  | d0 :: _ =>
      let g := gid d0 in
      if existsb (fun d => negb (bool_decide (gid d = g))) ds || negb (epochs_increase ds) then Ret (c, ABadRequest, [])
      else
        let signer_is_peer := match last ds with Some l => bool_decide (signer l = peer) | None => false end in
        match groups c !! g with
        | Some st =>
            if negb (ever_member (chain st) peer) && negb signer_is_peer then Ret (c, ANotAllowed, [])
            else update_group io c peer g st ds
        | None => invited io c peer g ds now
        end
  end.

Definition handle_sync (io : IO) (c : Core) (peer g : bytes) : outcome (Core * AckStatus * list bytes) :=
  match groups c !! g with
  | None => Ret (c, ANotAllowed, [])
  | Some st =>
      if negb (ever_member (chain st) peer) then Ret (c, ANotAllowed, [])
      else if is_pending (status st) then Ret (c, ABusy, [])
      else
        let! (st, news) := confirm_listed st peer in
        let '(st, owed) := owe st peer KDescs 0 in
        let kick := if owed : bool then [peer] else [] in
        let c := put_group g st c in
        if owed || news then
          let! (c, ok) := save io c st in
          Ret (c, if ok : bool then AStored else AFailed, kick)
        else Ret (c, AStored, kick)
  end.

(** [handle]: one opened record from an authenticated peer. *)
Definition handle (io : IO) (c : Core) (peer plain : bytes) (now : Z) : outcome (Core * AckStatus * list bytes) :=
  match record_decode plain with
  | Err (RUnknownKind _) => Ret (c, AUnsupported, [])
  | Err RMalformed => Ret (c, ABadRequest, [])
  | Ok (RText t) => handle_text io c peer t now
  | Ok (RDescs ds) => handle_descs io c peer ds now
  | Ok (RHistOffer o) => let! (c, a) := handle_hist_offer io c peer o now in Ret (c, a, [])
  | Ok (RSync g _) => handle_sync io c peer g
  end.
End Receive.

(** ** History *)

(** The offer made of a saved message, if it may be shared and encodes. *)
Definition offer_of (g to : bytes) (m : GroupMsg) : option bytes :=
  if negb (bool_decide (m_sender m = to)) && bool_decide (shared_by m = None) && negb (str_len (m_text m) =? 0)
  then result_ok (offer_encode (mkOffer g (m_epoch m) (m_sender m) (m_counter m) (gm_id m) (m_sent_ms m) (m_text m)))
  else None.

(** Number the offers from [seq] on. *)
Fixpoint number_jobs (seq : Z) (offers : list bytes) : list HistJob :=
  match offers with [] => [] | p :: ps => mkJob seq p :: number_jobs (wrapping_add u64_max seq 1) ps end.

(** [handover]: how many messages were offered, and whom to wake. *)
Definition handover (io : IO) (c : Core) (g to : bytes) : outcome (Core * result (nat * option bytes) GroupError) :=
  if bool_decide (to = own) then Ret (c, Err GNotMember)
  else
    match live_group c g with
    | Err e => Ret (c, Err e)
    | Ok st =>
        let! l := latest (chain st) in
        if negb (is_member l to) then Ret (c, Err GNotMember)
        else
          let '(st, first) := mark_handover st to (epoch l) in
          if negb first then Ret (c, Ok (O, None))
          else
            let! (c, ok) := save io (put_group g st c) st in
            if negb ok then
              let undone := set_handed (filter (fun h => ~ (h_to h = to /\ h_epoch h = epoch l)) (handed st)) st in
              Ret (put_group g undone c, Err GStorage)
            else
              let! recent := page cfg (store c) g None MAX_HIST_PER_HANDOVER in
              let offers := omap (offer_of g to) (rev recent) in
              if (length offers =? 0)%nat then Ret (c, Ok (O, None))
              else
                let q := default [] (hist c !! to) ++ number_jobs (hist_seq c) offers in
                Ret (set_hist (<[to := q]> (hist c)) (wrapping_add u64_max (hist_seq c) (zlen offers)) c,
                     Ok (length offers, Some to))
    end.

(** [sweep_retention]: the groups in key order. *)
Definition sweep_group (io : IO) (cutoff : Z) (acc : Core * Z) (g : bytes) : Core * Z :=
  let '(c, removed) := acc in
  let total := zlen (saved cfg (store c) g) in
  let '(sto, kept) := store_retain cfg io (store c) g (fun m => cutoff <=? at_ms m) in
  let c := set_store sto c in
  match kept with
  | None => (c, removed)
  | Some kept =>
      (match groups c !! g with
       | Some st => put_group g (set_log (next_ord st) kept (last_ms st) st) c
       | None => c
       end, removed + (total - Z.min kept total))
  end.

Definition sweep_retention (io : IO) (c : Core) (cutoff : Z) : Core * Z :=
  fold_left (sweep_group io cutoff) (map fst (btree (groups c))) (c, 0).

(** [load_all] of the store and the map [GroupCore::new] makes of it: the
    documents that decode to the group they are filed under. *)
Definition load_doc (k doc : bytes) : outcome (option GroupState) :=
  let! s := state_decode doc in
  match s with
  | None => Ret None
  | Some s => let! l := latest (chain s) in Ret (if bool_decide (gid l = k) then Some s else None)
  end.

Fixpoint load_all (ds : list (bytes * bytes)) : outcome (gmap bytes GroupState) :=
  match ds with
  | [] => Ret ∅
  | (k, doc) :: ds' =>
      let! gs := load_all ds' in
      let! s := load_doc k doc in
      Ret (match s with Some s => <[k := s]> gs | None => gs end)
  end.

(** [GroupCore::new] on the store a former run left; a document that does not
    load is set aside, where that file operation succeeds. *)
Definition restart (aside : bytes -> bool) (c : Core) : outcome Core :=
  let! gs := load_all (btree (docs (store c))) in
  let ds := filter (fun kv => is_Some (gs !! kv.1) \/ aside kv.1 = false) (docs (store c)) in
  Ret (mkCore gs 1 [] ∅ ∅ 1 true (mkStore ds (logs (store c)) [] 0)).

(** [flush_all]: one write per group, each may fail. *)
Definition flush_group (io : bytes -> IO) (sto : Store) (kv : bytes * GroupState) : outcome Store :=
  let! l := latest (chain kv.2) in
  Ret (write_doc (io kv.1) sto (gid l) (state_encode kv.2)).1.

Fixpoint flush_groups (io : bytes -> IO) (sto : Store) (gs : list (bytes * GroupState)) : outcome Store :=
  match gs with
  | [] => Ret sto
  | kv :: gs' => let! sto := flush_group io sto kv in flush_groups io sto gs'
  end.

Definition flush_all (io : bytes -> IO) (c : Core) : outcome Core :=
  let! sto := flush_groups io (store c) (btree (groups c)) in Ret (set_store sto c).
End Engine.
