(* ===== verification/GroupDisplay.v ===== *)
(** * GroupDisplay: the order in which a group's messages are shown

    Models [display_order] of [chat/group/engine.rs]: by send time, but never
    reordering one sender's messages against their counters. *)

From S2P Require Import Prelude Bytes Text Codec ErasureCode Dissolve Group GroupState GroupStore.

(** ** Display order *)

(** A message with the place it has in the window. *)
Definition numbered (win : list GroupMsg) : list (nat * GroupMsg) := zip (seq 0 (length win)) win.

(** [sort_by_key] is stable; the numbers in the window break ties the same way. *)
Definition counter_le (a b : nat * GroupMsg) : Prop :=
  m_counter a.2 < m_counter b.2 \/ (m_counter a.2 = m_counter b.2 /\ (a.1 <= b.1)%nat).
#[export] Instance counter_le_dec a b : Decision (counter_le a b).
Proof. unfold counter_le. apply _. Defined.

(** The key a message is shown by, and the gap before it. *)
Record Shown := mkShown { s_time : Z; s_msg : nat * GroupMsg; s_gap : Z }.

(** The loop over one sender's messages in counter order. *)
Fixpoint sender_keys (running : Z) (prev : option Z) (ms : list (nat * GroupMsg)) : list Shown :=
  match ms with
  | [] => []
  | m :: ms' =>
      let running := Z.max running (m_sent_ms m.2) in
      let gap := match prev with
                 | Some p => sat_sub (m_counter m.2) (wrapping_add u64_max p 1)
                 | None => 0
                 end in
      mkShown running m gap :: sender_keys running (Some (m_counter m.2)) ms'
  end.

Definition senders (win : list GroupMsg) : list bytes := remove_dups (map m_sender win).

Definition keys (win : list GroupMsg) : list Shown :=
  flat_map (fun s => sender_keys 0 None (merge_sort counter_le (filter (fun m => m_sender m.2 = s) (numbered win))))
    (senders win).

(** The order of the keys [(running, sender, counter)], then of the places. *)
Definition shown_le (a b : Shown) : Prop :=
  s_time a < s_time b \/
  (s_time a = s_time b /\
   let sa := m_sender (s_msg a).2 in let sb := m_sender (s_msg b).2 in
   (str_leb sa sb = true /\ sa <> sb) \/ (sa = sb /\ counter_le (s_msg a) (s_msg b))).
#[export] Instance shown_le_dec a b : Decision (shown_le a b).
Proof. unfold shown_le. apply _. Defined.

Definition display_order (win : list GroupMsg) : list (GroupMsg * Z) :=
  map (fun s => ((s_msg s).2, s_gap s)) (merge_sort shown_le (keys win)).

(** ** The display order is sound *)

#[export] Instance counter_le_trans : Transitive counter_le.
Proof. intros a b d. unfold counter_le. lia. Qed.
#[export] Instance counter_le_total : Total counter_le.
Proof. intros a b. unfold counter_le. lia. Qed.

#[export] Instance shown_le_trans : Transitive shown_le.
Proof.
  intros a b d. unfold shown_le. intros [Hab|[Hab Kab]] [Hbd|[Hbd Kbd]]; [left; lia..|]. right. split; [lia|].
  destruct Kab as [[L1 N1]|[E1 C1]], Kbd as [[L2 N2]|[E2 C2]].
  - left. split; [by eapply str_leb_trans|]. intros E. rewrite E in L1. by apply N2, str_leb_antisym.
  - left. by rewrite <- E2.
  - left. by rewrite E1.
  - right. split; [congruence|by etrans].
Qed.
#[export] Instance shown_le_total : Total shown_le.
Proof.
  intros a b. unfold shown_le. destruct (Z.lt_trichotomy (s_time a) (s_time b)) as [|[E|]]; [left; by left| |right; by left].
  destruct (decide (m_sender (s_msg a).2 = m_sender (s_msg b).2)) as [Hs|Hs].
  - destruct (total counter_le (s_msg a) (s_msg b)); [left|right]; right; (split; [done|by right]).
  - destruct (str_leb (m_sender (s_msg a).2) (m_sender (s_msg b).2)) eqn:Hl.
    + left; right. split; [done|by left].
    + right; right. split; [done|left]. split; [by apply str_leb_total|done].
Qed.

Lemma sender_keys_msgs r p ms : map s_msg (sender_keys r p ms) = ms.
Proof. revert r p. induction ms as [|m ms IH]; intros r p; simpl; [done|]. by rewrite IH. Qed.

Lemma sender_keys_in r p ms x : x ∈ sender_keys r p ms -> s_msg x ∈ ms.
Proof. intros Hx. rewrite <- (sender_keys_msgs r p ms). by apply (list_elem_of_fmap_2 s_msg). Qed.

Lemma sender_keys_time r p ms x : x ∈ sender_keys r p ms -> r <= s_time x.
Proof.
  revert r p. induction ms as [|m ms IH]; intros r p; cbn [sender_keys]; [intros H; by apply elem_of_nil in H|].
  intros [->|Hx%IH]%elem_of_cons; simpl; lia.
Qed.

(** Along one sender's counters the time never goes back. *)
Lemma sender_keys_mono r p ms x y :
  StronglySorted counter_le ms -> x ∈ sender_keys r p ms -> y ∈ sender_keys r p ms ->
  m_counter (s_msg x).2 < m_counter (s_msg y).2 -> s_time x <= s_time y.
Proof.
  intros Hs. revert r p. induction Hs as [|m ms Hs IH Hm]; intros r p; cbn [sender_keys];
    [intros H; by apply elem_of_nil in H|].
  intros [->|Hx]%elem_of_cons [->|Hy]%elem_of_cons Hlt; simpl in *; [lia| | |by eapply IH].
  - by apply sender_keys_time in Hy.
  - rewrite Forall_forall in Hm. specialize (Hm _ (sender_keys_in _ _ _ _ Hx)). unfold counter_le in Hm. lia.
Qed.

(** Splitting a list by a key loses and repeats nothing. *)
Lemma split_by_key {A} (f : A -> bytes) (ks : list bytes) (l : list A) :
  NoDup ks -> (forall x, x ∈ l -> f x ∈ ks) -> flat_map (fun k => filter (fun x => f x = k) l) ks ≡ₚ l.
Proof.
  intros Hnd. induction l as [|x l IH]; intros Hin.
  - induction ks as [|k ks IHk]; [done|]. simpl. apply IHk; [by apply NoDup_cons in Hnd as [_ ?]|].
    intros y Hy. by apply elem_of_nil in Hy.
  - transitivity (x :: flat_map (fun k => filter (fun x => f x = k) l) ks);
      [|constructor; apply IH; intros y Hy; apply Hin; by right]. clear IH.
    assert (f x ∈ ks) as (k1 & k2 & ->)%list_elem_of_split by (apply Hin; left).
    apply NoDup_app in Hnd as (_ & Hd & [Hn2 _]%NoDup_cons).
    assert (forall k, f x ∉ k -> flat_map (fun k => filter (fun y => f y = k) (x :: l)) k
                              = flat_map (fun k => filter (fun y => f y = k) l) k) as Hskip.
    { induction k as [|a k IHk]; intros Hk; [done|]. apply not_elem_of_cons in Hk as [Ha Hk]. cbn [flat_map].
      rewrite IHk, filter_cons_False by done. done. }
    rewrite !flat_map_app. cbn [flat_map]. rewrite filter_cons_True by done.
    rewrite !Hskip; [|done|intros Hk; apply (Hd _ Hk); left].
    cbn [app]. by rewrite <- Permutation_middle.
Qed.

Lemma numbered_msgs win : map snd (numbered win) = win.
Proof. unfold numbered. apply (snd_zip (seq 0 (length win)) win). by rewrite length_seq. Qed.

Lemma keys_msgs win : map s_msg (keys win) ≡ₚ numbered win.
Proof.
  unfold keys. etrans; [|apply (split_by_key (fun m => m_sender m.2) (senders win) (numbered win))].
  - induction (senders win) as [|s ss IH]; [done|]. cbn [flat_map]. rewrite map_app, sender_keys_msgs.
    by rewrite IH, merge_sort_Permutation.
  - apply NoDup_remove_dups.
  - intros m Hm. unfold senders. apply elem_of_remove_dups. rewrite <- (numbered_msgs win), map_map.
    by apply (list_elem_of_fmap_2 (fun m => m_sender m.2)).
Qed.

(** Of one sender, the earlier counter has the earlier time. *)
Lemma keys_mono win x y :
  x ∈ keys win -> y ∈ keys win -> m_sender (s_msg x).2 = m_sender (s_msg y).2 ->
  m_counter (s_msg x).2 < m_counter (s_msg y).2 -> s_time x <= s_time y.
Proof.
  unfold keys. intros (sx & Hsx & Hx)%list_elem_of_In%in_flat_map (sy & Hsy & Hy)%list_elem_of_In%in_flat_map Hs Hc.
  apply list_elem_of_In in Hx, Hy. assert (sx = sy) as <-.
  { pose proof (sender_keys_in _ _ _ _ Hx) as Ix. pose proof (sender_keys_in _ _ _ _ Hy) as Iy.
    rewrite merge_sort_Permutation in Ix, Iy. apply list_elem_of_filter in Ix as [<- _], Iy as [<- _]. done. }
  eapply sender_keys_mono; [|exact Hx|exact Hy|done]. apply StronglySorted_merge_sort; apply _.
Qed.

Lemma display_perm win : map fst (display_order win) ≡ₚ win.
Proof.
  unfold display_order. rewrite map_map. transitivity (map snd (map s_msg (merge_sort shown_le (keys win)))); [by rewrite map_map|].
  rewrite merge_sort_Permutation, keys_msgs. by rewrite numbered_msgs.
Qed.

Lemma display_sorted win i j a b :
  display_order win !! i = Some a -> display_order win !! j = Some b -> (i < j)%nat ->
  m_sender a.1 = m_sender b.1 -> m_counter a.1 <= m_counter b.1.
Proof.
  unfold display_order. intros Ha Hb Hij Hs. rewrite list_lookup_fmap in Ha, Hb.
    destruct (merge_sort shown_le (keys win) !! i) as [x|] eqn:Hx; [|done].
    destruct (merge_sort shown_le (keys win) !! j) as [y|] eqn:Hy; [|done].
    injection Ha as <-. injection Hb as <-. simpl in *.
    assert (shown_le x y) as Hle.
    { pose proof (StronglySorted_merge_sort shown_le (keys win)) as Hsort.
      rewrite <- (take_drop_middle _ _ _ Hx) in Hsort. apply StronglySorted_app_1_r in Hsort.
      apply StronglySorted_cons in Hsort as [Hall _]. rewrite Forall_forall in Hall. apply Hall.
      apply (list_elem_of_lookup_2 _ (j - S i)). rewrite lookup_drop. by replace (S i + (j - S i))%nat with j by lia. }
    destruct (Z.le_gt_cases (m_counter (s_msg x).2) (m_counter (s_msg y).2)) as [|Hgt]; [done|].
    apply list_elem_of_lookup_2 in Hx, Hy. rewrite merge_sort_Permutation in Hx, Hy.
    pose proof (keys_mono win y x Hy Hx (eq_sym Hs) ltac:(lia)) as Ht.
    unfold shown_le, counter_le in Hle. destruct Hle as [|[_ [[_ ?]|[_ ?]]]]; [lia|done|lia].
Qed.

(** The display keeps every conversation in order: the messages shown are
    exactly those of the window, and two messages of one sender are shown in
    the order of their counters, whatever their clocks said. *)
Theorem display_order_sound (win : list GroupMsg) :
  map fst (display_order win) ≡ₚ win /\
  forall i j a b, display_order win !! i = Some a -> display_order win !! j = Some b -> (i < j)%nat ->
    m_sender a.1 = m_sender b.1 -> m_counter a.1 <= m_counter b.1.
Proof. split; [apply display_perm|apply display_sorted]. Qed.
