(* ===== verification/GroupSafety.v ===== *)
(** * GroupSafety: what the group engine keeps true

    The engine of [GroupEngine] as one machine over every operation a user, a
    peer or the delivery worker can cause, and its invariants: the states stay
    well formed, every document on disk is the byte form of such a state, and
    nothing panics. *)

From S2P Require Import Prelude Bytes Text Codec ErasureCode Dissolve Group GroupState GroupRecord GroupStore GroupEngine.

(** ** Operations keep a state well formed *)

Section Wf.
Context `{Crypto} `{Ed25519}.
Implicit Types s : GroupState.

(** Reassemble a state whose other fields did not change. *)
Ltac fields s :=
  destruct s; simpl in *; destruct_and?; split; simpl in *; split_and?; first [done | assumption | ulia | auto].

Lemma wf_new ch st : chain_ok ch -> Forall desc_wf (items ch) -> status_wf st -> state_wf (new_state ch st).
Proof.
  intros Hc Hd Hst. split; simpl; try done.
  all: split; [unfold MAX_PENDING, MAX_LEDGER, MAX_CTRL, MAX_MEMBERS, MAX_HANDED, MAX_VECTORS; rewrite ?map_size_empty; lia|].
  all: first [by apply Forall_nil|intros k v Hk; by rewrite lookup_empty in Hk].
Qed.

Lemma wf_chain s ch : state_wf s -> chain_ok ch -> Forall desc_wf (items ch) -> state_wf (set_chain ch s).
Proof. intros [] ? ?. fields s. Qed.

Lemma wf_status s st : state_wf s -> status_wf st -> state_wf (set_status st s).
Proof. intros [] ?. fields s. Qed.

Lemma wf_counter s n : state_wf s -> in_u64 n -> state_wf (set_my_counter n s).
Proof. intros [] ?. fields s. Qed.

Lemma wf_log s no cn lm : state_wf s -> in_u64 no -> in_u64 cn -> in_u64 lm -> state_wf (set_log no cn lm s).
Proof. intros [] ? ? ?. fields s. Qed.

Lemma wf_vectors s vs :
  state_wf s -> (size vs <= MAX_VECTORS)%nat -> (forall k v, vs !! k = Some v -> vector_wf (k, v)) ->
  state_wf (set_vectors vs s).
Proof. intros [] ? ?. fields s. Qed.

Lemma wf_pending s pe :
  state_wf s -> (length pe <= MAX_PENDING)%nat -> Forall pending_wf pe -> state_wf (set_pending pe s).
Proof. intros [] ? ?. fields s. Qed.

Lemma wf_ledger s le :
  state_wf s -> (length le <= MAX_LEDGER)%nat -> Forall ledger_wf le -> state_wf (set_ledger le s).
Proof. intros [] ? ?. fields s. Qed.

Lemma wf_ctrl s ct : state_wf s -> (length ct <= MAX_CTRL)%nat -> Forall ctrl_wf ct -> state_wf (set_ctrl ct s).
Proof. intros [] ? ?. fields s. Qed.

Lemma wf_added_by s k : state_wf s -> array 32 k -> state_wf (set_added_by (Some k) s).
Proof. intros [] ?. fields s. Qed.

Lemma wf_confirmed s cf :
  state_wf s -> (length cf <= MAX_MEMBERS)%nat -> Forall (array 32) cf -> state_wf (set_confirmed cf s).
Proof. intros [] ? ?. fields s. Qed.

Lemma wf_handed s hd :
  state_wf s -> (length hd <= MAX_HANDED)%nat -> Forall handed_wf hd -> state_wf (set_handed hd s).
Proof. intros [] ? ?. fields s. Qed.

Lemma update_first_length {A} p f (l : list A) : length (update_first p f l) = length l.
Proof. induction l as [|x l IH]; [done|]. simpl. destruct (p x); simpl; congruence. Qed.

Lemma update_first_Forall {A} (P : A -> Prop) p f l :
  (forall x, P x -> P (f x)) -> Forall P l -> Forall P (update_first p f l).
Proof. intros Hf. induction 1 as [|x l Hx Hl IH]; [constructor|]. simpl. destruct (p x); constructor; auto. Qed.

Lemma Forall_tail {A} (P : A -> Prop) (l : list A) : Forall P l -> Forall P (tail l).
Proof. by destruct 1. Qed.

Lemma Forall_snoc {A} (P : A -> Prop) (l : list A) x : Forall P l -> P x -> Forall P (l ++ [x]).
Proof. intros ? ?. apply Forall_app. split; [done|]. by apply Forall_singleton. Qed.

(** Dropping the first of a full queue before appending keeps its bound. *)
Lemma queue_length {A} (cap : nat) (l : list A) x :
  (0 < cap)%nat -> (length l <= cap)%nat ->
  (length ((if (cap <=? length l)%nat then tail l else l) ++ [x]) <= cap)%nat.
Proof.
  intros Hc Hl. rewrite length_app. simpl. destruct (Nat.leb_spec cap (length l)); [|lia].
  destruct l; simpl in *; lia.
Qed.

Lemma wf_confirm s peer : state_wf s -> array 32 peer -> state_wf (confirm s peer).1.
Proof.
  intros Hs Hp. unfold confirm. destruct (bool_decide (peer ∈ confirmed s)); [done|]. cbn [orb].
  destruct (Nat.leb_spec MAX_MEMBERS (length (confirmed s))); [done|]. apply wf_confirmed; [done| |].
  - rewrite length_app. simpl. lia.
  - by apply Forall_snoc; [apply Hs|].
Qed.

Lemma wf_owe s to k arg : state_wf s -> array 32 to -> in_u32 arg -> state_wf (owe s to k arg).1.
Proof.
  intros Hs Ht Ha. destruct (sw_ctrl _ Hs) as [Hl Hf]. unfold owe. destruct (existsb _ _).
  - destruct k; [done|]. simpl. apply wf_ctrl; [done|by rewrite update_first_length|].
    apply update_first_Forall; [|done]. intros c [Hc _]. by split.
  - destruct (Nat.leb_spec MAX_CTRL (length (ctrl s))); [done|]. simpl. apply wf_ctrl; [done| |].
    + rewrite length_app. simpl. lia.
    + by apply Forall_snoc.
Qed.

Lemma wf_owe_all s tos k arg :
  state_wf s -> Forall (array 32) tos -> in_u32 arg -> state_wf (owe_all s tos k arg).
Proof.
  intros Hs Ht Ha. revert s Hs. induction Ht as [|to tos Hto _ IH]; intros s Hs; [done|].
  apply IH. by apply wf_owe.
Qed.

Lemma wf_update_ledger s id f :
  state_wf s -> (forall e, ledger_wf e -> ledger_wf (f e)) -> state_wf (update_ledger s id f).
Proof.
  intros Hs Hf. destruct (sw_ledger _ Hs) as [Hl Hle]. apply wf_ledger; [done| |].
  - by rewrite length_rev, update_first_length, length_rev.
  - by apply Forall_rev, update_first_Forall, Forall_rev.
Qed.

Lemma wf_push_ledger s e : state_wf s -> ledger_wf e -> state_wf (push_ledger s e).
Proof.
  intros Hs He. destruct (sw_ledger _ Hs) as [Hl Hle]. apply wf_ledger; [done| |].
  - apply queue_length; [unfold MAX_LEDGER; lia|done].
  - apply Forall_snoc; [|done]. destruct (_ <=? _)%nat; [by apply Forall_tail|done].
Qed.

Lemma wf_mark_handover s to ep :
  state_wf s -> array 32 to -> in_u32 ep -> state_wf (mark_handover s to ep).1.
Proof.
  intros Hs Ht He. destruct (sw_handed _ Hs) as [Hl Hh]. unfold mark_handover.
  destruct (handed_over s to ep); [done|]. cbn [fst]. apply wf_handed; [done| |].
  - apply queue_length; [unfold MAX_HANDED; lia|done].
  - apply Forall_snoc; [|done]. destruct (_ <=? _)%nat; [by apply Forall_tail|done].
Qed.

Lemma add_failed_wf n e : 0 <= n -> ledger_wf e -> ledger_wf (add_failed n e).
Proof. intros Hn (? & ? & ? & ?). repeat split; simpl; ulia || (unfold array in *; tauto). Qed.
Lemma add_delivered_wf e : ledger_wf e -> ledger_wf (add_delivered e).
Proof. intros (? & ? & ? & ?). repeat split; simpl; ulia || (unfold array in *; tauto). Qed.

(** Cutting down the recipients of the pending messages. *)
Lemma with_to_wf p (P : bytes -> Prop) `{!forall t, Decision (P t)} :
  pending_wf p -> pending_wf (with_to (filter P (p_to p)) p).
Proof.
  intros [? ? ? [Hl Ht]]. split; try done. simpl. pose proof (length_filter P (p_to p)). split; [lia|].
  rewrite Forall_forall in Ht |- *. intros t [_ Hin]%list_elem_of_filter. by apply Ht.
Qed.

Lemma unsent_wf pe : Forall pending_wf pe -> Forall pending_wf (unsent pe).
Proof. rewrite !Forall_forall. intros Hp p [_ Hin]%list_elem_of_filter. by apply Hp. Qed.

Lemma unsent_length pe : (length (unsent pe) <= length pe)%nat.
Proof. apply length_filter. Qed.

Lemma wf_prune_to listed s : state_wf s -> state_wf (prune_to listed s).
Proof.
  intros Hs. unfold prune_to. set (dropped := flat_map _ _).
  assert (Forall (fun d => 0 <= d.2) dropped) as Hd.
  { apply Forall_forall. intros d Hin. apply list_elem_of_In, in_flat_map in Hin as (p & _ & Hin).
    destruct (0 <? _) eqn:E; [|done]. destruct Hin as [<-|[]]. simpl. lia. }
  destruct (sw_pending _ Hs) as [Hl Hp]. set (s1 := set_pending _ s).
  assert (state_wf s1) as H1.
  { apply wf_pending; [done| |].
    - etrans; [apply unsent_length|]. by rewrite length_map.
    - apply unsent_wf. rewrite Forall_forall in Hp |- *. intros p (q & -> & Hq)%list_elem_of_fmap.
      apply with_to_wf. by apply Hp. }
  assert (state_wf (fold_left (fun s '(id, n) => update_ledger s id (add_failed n)) dropped s1)) as H2.
  { clearbody s1 dropped. revert s1 H1. induction Hd as [|[id n] ds Hn _ IH]; intros s1 H1; [done|]. simpl.
    apply IH, wf_update_ledger; [done|]. intros e. by apply add_failed_wf. }
  destruct (sw_ctrl _ H2) as [Hcl Hc]. apply wf_ctrl; [done| |].
  - etrans; [apply length_filter|done].
  - rewrite Forall_forall in Hc |- *. intros c [_ Hin]%list_elem_of_filter. by apply Hc.
Qed.

Lemma wf_settle_group s peer w dl : state_wf s -> array 32 peer -> state_wf (settle_group s peer w dl).
Proof.
  intros Hs Hp. destruct (sw_ctrl _ Hs) as [Hcl Hc]. destruct w as [g id|g|g|g to seq]; simpl; [| | |done].
  - apply wf_update_ledger; [|intros e He; destruct dl; [by apply add_delivered_wf|by apply add_failed_wf]].
    destruct (sw_pending _ Hs) as [Hl Hpe].
    assert (forall pe, (length pe <= MAX_PENDING)%nat -> Forall pending_wf pe -> state_wf (set_pending (unsent pe) s)) as Hset.
    { intros pe ? ?. apply wf_pending; [done| |by apply unsent_wf]. etrans; [apply unsent_length|done]. }
    assert (state_wf (set_pending (unsent (update_first (fun p => bool_decide (p_id p = id))
      (fun p => with_to (filter (fun t => t <> peer) (p_to p)) p) (pending s))) s)) as H1.
    { apply Hset; [by rewrite update_first_length|]. apply update_first_Forall; [|done]. intros p. by apply with_to_wf. }
    destruct dl; [by apply wf_confirm|done].
  - apply wf_ctrl; [done|etrans; [apply length_filter|done]|].
    rewrite Forall_forall in Hc |- *. intros c [_ Hin]%list_elem_of_filter. by apply Hc.
  - apply wf_ctrl; [done|etrans; [apply length_filter|done]|].
    rewrite Forall_forall in Hc |- *. intros c [_ Hin]%list_elem_of_filter. by apply Hc.
Qed.

Lemma wf_mark_vector s who counter :
  state_wf s -> array 32 who -> 1 <= counter <= u64_max -> vectors_full s who = false ->
  state_wf (mark_vector s who counter).
Proof.
  intros Hs Hw Hc Hf. destruct (sw_vectors _ Hs) as [Hl Hv]. apply wf_vectors; [done| |].
  - unfold vectors_full in Hf. destruct (vectors s !! who) as [v|] eqn:Hk.
    + rewrite map_size_insert_Some; [done|by rewrite Hk].
    + rewrite map_size_insert_None by done. apply Nat.leb_gt in Hf. lia.
  - intros k v. rewrite lookup_insert_Some. intros [[<- <-]|[_ Hk]]; [|by apply Hv]. split; [done|]. simpl.
    assert (vec_ok (default default_vec (vectors s !! who))) as Hok.
    { destruct (vectors s !! who) as [v|] eqn:Hk; simpl; [|apply default_vec_ok]. by destruct (Hv _ _ Hk). }
    destruct (decide (counter <= floor (default default_vec (vectors s !! who)))).
    + unfold mark. by rewrite (proj2 (Z.leb_le _ _)).
    + apply mark_spec; [done|lia].
Qed.
End Wf.

(** ** Which fields an operation changes *)

Lemma owe_shape s to k arg : exists ct, (owe s to k arg).1 = set_ctrl ct s.
Proof.
  unfold owe. destruct (existsb _ _); [destruct k; [exists (ctrl s); by destruct s|by eexists]|].
  destruct (_ <=? _)%nat; [exists (ctrl s); by destruct s|by eexists].
Qed.

Lemma owe_all_shape s tos k arg : exists ct, owe_all s tos k arg = set_ctrl ct s.
Proof.
  revert s. induction tos as [|to tos IH]; intros s; [exists (ctrl s); by destruct s|].
  change (owe_all s (to :: tos) k arg) with (owe_all (owe s to k arg).1 tos k arg).
  destruct (owe_shape s to k arg) as [ct ->], (IH (set_ctrl ct s)) as [ct' ->]. exists ct'. by destruct s.
Qed.

Lemma confirm_shape s peer : exists cf, (confirm s peer).1 = set_confirmed cf s.
Proof. unfold confirm. destruct (_ || _); [exists (confirmed s); by destruct s|by eexists]. Qed.

Lemma prune_to_shape listed s : exists pe le ct, prune_to listed s = set_ctrl ct (set_ledger le (set_pending pe s)).
Proof.
  unfold prune_to. set (ds := flat_map _ _). set (pe := unsent _).
  assert (forall s0, exists le, fold_left (fun s '(id, n) => update_ledger s id (add_failed n)) ds s0 = set_ledger le s0) as Hf.
  { clear. induction ds as [|[id n] ds IH]; intros s0; [exists (ledger s0); by destruct s0|]. cbn [fold_left].
    destruct (IH (update_ledger s0 id (add_failed n))) as [le ->]. exists le. by destruct s0. }
  destruct (Hf (set_pending pe s)) as [le ->]. by eexists pe, le, _.
Qed.

Lemma settle_group_shape s peer w dl :
  exists pe le ct cf, settle_group s peer w dl = set_confirmed cf (set_ctrl ct (set_ledger le (set_pending pe s))).
Proof.
  destruct w as [g id|g|g|g to seq]; simpl.
  - set (pe := unsent _). set (s1 := if dl then _ else _).
    assert (exists cf, s1 = set_confirmed cf (set_pending pe s)) as [cf ->].
    { unfold s1. destruct dl; [apply confirm_shape|exists (confirmed s); by destruct s]. }
    unfold update_ledger. match goal with |- context [set_ledger ?l _] => exists pe, l, (ctrl s), cf end. by destruct s.
  - exists (pending s), (ledger s). eexists _, (confirmed s). by destruct s.
  - exists (pending s), (ledger s). eexists _, (confirmed s). by destruct s.
  - exists (pending s), (ledger s), (ctrl s), (confirmed s). by destruct s.
Qed.

Lemma mark_handover_shape s to ep : exists hd, (mark_handover s to ep).1 = set_handed hd s.
Proof. unfold mark_handover. destruct (handed_over s to ep); [exists (handed s); by destruct s|by eexists]. Qed.

(** ** The engine as a machine *)

Inductive Input :=
| ICreate (name : str) (new : list (bytes * str)) (now : Z) (g : bytes)
| IAdd (g : bytes) (new : list (bytes * str * bool))
| IRemove (g who : bytes)
| ILeave (g : bytes)
| IAccept (g : bytes)
| IForget (g : bytes)
| ISend (g : bytes) (text : str) (now : Z) (id : bytes)
| ISettle (peer : bytes) (w : Work) (delivered : bool)
| IReceive (trusted : bytes -> bool) (peer plain : bytes) (now : Z)
| IHandover (g to : bytes)
| ISweep (cutoff : Z)
| INote (peer : bytes) (reason : option str)
| IAutoJoin (on : bool)
| IFlush (io : bytes -> IO)
| IRestart (aside : bytes -> bool).

(** The values the types of the code allow; identifiers are random. *)
Definition input_ok (i : Input) : Prop :=
  match i with
  | ICreate name new now g =>
      text_ok name /\ Forall (fun n => array 32 n.1 /\ text_ok n.2) new /\ in_u64 now /\ array 16 g
  | IAdd _ new => Forall (fun n => array 32 n.1.1 /\ text_ok n.1.2) new
  | IRemove _ who => array 32 who
  | ISend _ text now id => text_ok text /\ in_u64 now /\ array 16 id
  | ISettle peer _ _ => array 32 peer
  | IReceive _ peer plain now => array 32 peer /\ bytes_ok plain /\ in_u64 now
  | IHandover _ to => array 32 to
  | _ => True
  end.

(** What the hash and signature libraries document of their outputs. *)
Definition hash_size `{Crypto} : Prop := forall label data, array 32 (blake3_derive label data).
Definition ed_sizes `{Ed25519} : Prop :=
  (forall secret, array 32 (ed_public secret)) /\ (forall secret digest, array 64 (ed_sign secret digest)).

Section Machine.
Context `{Crypto} `{Ed25519}.
Context (cfg : StoreSettings) (own secret : bytes) (max_text : Z).

Definition step (io : IO) (c : Core) (i : Input) : outcome Core :=
  match i with
  | ICreate name new now g => let! (c, _) := create cfg own secret io c name new now g in Ret c
  | IAdd g new => let! (c, _) := add cfg own secret io c g new in Ret c
  | IRemove g who => let! (c, _) := remove cfg own secret io c g who in Ret c
  | ILeave g => let! (c, _) := leave cfg own secret io c g in Ret c
  | IAccept g => let! (c, _) := accept_invite cfg own io c g in Ret c
  | IForget g => Ret (forget io c g).1
  | ISend g text now id => let! (c, _) := send cfg own max_text io c g text now id in Ret c
  | ISettle peer w dl => settle cfg io c peer w dl
  | IReceive trusted peer plain now =>
      let! (c, _, _) := handle cfg own max_text trusted io c peer plain now in Ret c
  | IHandover g to => let! (c, _) := handover cfg own io c g to in Ret c
  | ISweep cutoff => Ret (sweep_retention cfg io c cutoff).1
  | INote peer reason => Ret (note_delivery c peer reason)
  | IAutoJoin on => Ret (set_auto_join on c)
  | IFlush io => flush_all io c
  | IRestart aside => restart aside c
  end.

Fixpoint run (c : Core) (ins : list (IO * Input)) : outcome Core :=
  match ins with [] => Ret c | (io, i) :: ins => let! c := step io c i in run c ins end.

(** A device that has no groups yet. *)
Definition fresh : Core := mkCore ∅ 1 [] ∅ ∅ 1 true (mkStore ∅ ∅ [] 0).

(** ** Invariant *)

(** A state filed under its group. *)
Definition group_ok (g : bytes) (s : GroupState) : Prop :=
  state_wf s /\ exists l, latest (chain s) = Ret l /\ gid l = g.

Record Inv (c : Core) : Prop := {
  inv_groups : forall g s, groups c !! g = Some s -> group_ok g s;
  inv_count : (size (groups c) <= MAX_GROUPS)%nat;
  inv_docs : forall k doc, docs (store c) !! k = Some doc -> exists s, doc = state_encode s /\ group_ok k s;
  inv_filed : forall k doc s, docs (store c) !! k = Some doc -> load_doc k doc = Ret (Some s) -> is_Some (groups c !! k);
}.

Lemma Inv_ext c c' :
  groups c' = groups c -> docs (store c') = docs (store c) -> Inv c -> Inv c'.
Proof. intros Hg Hd [I1 I2 I3 I4]. split; rewrite ?Hg, ?Hd; done. Qed.

Lemma Inv_put c g s : Inv c -> is_Some (groups c !! g) -> group_ok g s -> Inv (put_group g s c).
Proof.
  intros [I1 I2 I3 I4] Hg Hs. destruct c. split; simpl in *; [| |done|].
  - intros g' s'. rewrite lookup_insert_Some. intros [[<- <-]|[_ ?]]; [done|by apply I1].
  - by rewrite map_size_insert_Some.
  - intros k doc s' Hk Hl. apply lookup_insert_is_Some'. right. by eapply I4.
Qed.

Lemma Inv_event c g k m : Inv c -> Inv (push_event c g k m).
Proof. apply Inv_ext; by destruct c. Qed.

Lemma group_ok_ext g s s' : chain s' = chain s -> state_wf s' -> group_ok g s -> group_ok g s'.
Proof. intros Hc Hw [_ Hl]. split; [done|]. by rewrite Hc. Qed.

(** Saving writes the document of the state, or nothing. *)
Definition with_docs (ds : gmap bytes bytes) (sto : Store) : Store := mkStore ds (logs sto) (ring sto) (ring_bytes sto).

Lemma save_eq io c g s :
  group_ok g s ->
  exists ds ok, save cfg io c s = Ret (set_store (with_docs ds (store c)) c, ok) /\
    (ds = docs (store c) \/ ok = true /\ ds = <[g := state_encode s]> (docs (store c))).
Proof.
  intros [_ (l & Hl & <-)]. unfold save. destruct (defer_flush cfg).
  { exists (docs (store c)), true. split; [by destruct c as [???????[]]|by left]. }
  rewrite Hl. cbn [outcome_bind]. unfold write_doc. destruct (io_doc io).
  - eexists _, _. split; [reflexivity|by right].
  - exists (docs (store c)), false. split; [by destruct c as [???????[]]|by left].
Qed.

Lemma Inv_docs c g s :
  Inv c -> is_Some (groups c !! g) -> group_ok g s ->
  Inv (set_store (with_docs (<[g := state_encode s]> (docs (store c))) (store c)) c).
Proof.
  intros [I1 I2 I3 I4] Hg Hs. destruct c. split; simpl in *; [done|done|..].
  - intros k doc. rewrite lookup_insert_Some. intros [[<- <-]|[_ ?]]; [by exists s|by apply I3].
  - intros k doc s'. rewrite lookup_insert_Some. intros [[<- _]|[_ ?]] ?; [done|by eapply I4].
Qed.

Lemma with_docs_same c : set_store (with_docs (docs (store c)) (store c)) c = c.
Proof. by destruct c as [???????[]]. Qed.

Lemma save_ok io c g s :
  Inv c -> is_Some (groups c !! g) -> group_ok g s ->
  exists c' ok, save cfg io c s = Ret (c', ok) /\ Inv c' /\ groups c' = groups c.
Proof.
  intros Hc Hg Hs. destruct (save_eq io c g s Hs) as (ds & ok & -> & Hds). eexists _, ok. split; [reflexivity|].
  split; [|by destruct c]. destruct Hds as [->|[_ ->]]; [by rewrite with_docs_same|by apply Inv_docs].
Qed.

(** A group that is saved before it is added to the map. *)
Lemma save_new_ok io c g s :
  Inv c -> (size (groups c) < MAX_GROUPS)%nat -> group_ok g s ->
  exists c' ok, save cfg io c s = Ret (c', ok) /\ Inv (if ok : bool then put_group g s c' else c').
Proof.
  intros Hc Hn Hs. destruct (save_eq io c g s Hs) as (ds & ok & -> & Hds). eexists _, ok. split; [reflexivity|].
  assert (Inv (put_group g s c)) as Hput.
  { destruct Hc as [I1 I2 I3 I4], c. split; simpl in *; [| |done|].
    - intros g' s'. rewrite lookup_insert_Some. intros [[<- <-]|[_ ?]]; [done|by apply I1].
    - rewrite map_size_insert. destruct (_ !! g); cbn; lia.
    - intros k doc s' Hk Hl. apply lookup_insert_is_Some'. right. by eapply I4. }
  assert (is_Some (groups (put_group g s c) !! g)) as Hg by (destruct c; simpl; by rewrite lookup_insert_eq; eexists).
  destruct Hds as [->|[-> ->]]; [rewrite with_docs_same; by destruct ok|].
  pose proof (Inv_docs _ g s Hput Hg Hs) as Hi. by destruct c.
Qed.

(** Storing a state back and saving it. *)
Lemma save_put_ok io c g s :
  Inv c -> is_Some (groups c !! g) -> group_ok g s ->
  exists c' ok, save cfg io (put_group g s c) s = Ret (c', ok) /\ Inv c' /\ is_Some (groups c' !! g).
Proof.
  intros Hc Hg Hs.
  assert (is_Some (groups (put_group g s c) !! g)) as Hg' by (destruct c; simpl; by rewrite lookup_insert_eq; eexists).
  destruct (save_ok io (put_group g s c) g s (Inv_put _ _ _ Hc Hg Hs) Hg' Hs) as (c' & ok & E & Hc' & Hgs).
  exists c', ok. split_and!; [done|done|]. by rewrite Hgs.
Qed.

(** ** Descriptors *)

Lemma latest_wf s l : state_wf s -> latest (chain s) = Ret l -> desc_wf l.
Proof.
  intros [[_ Hd] _ _ _ _ _ _ _ _ _] Hl. rewrite Forall_forall in Hd. apply Hd.
  unfold latest in Hl. destruct (last (items (chain s))) eqn:E; [|done]. injection Hl as ->.
  by apply last_Some_elem_of.
Qed.

Lemma desc_epoch l : desc_wf l -> in_u32 (epoch l) /\ 0 < epoch l.
Proof. intros [_ _ [He _] _ _ _]. split; [ulia|lia]. Qed.

Lemma members_arrays l : desc_wf l -> Forall (array 32) (map m_id (members l)).
Proof.
  intros [_ _ _ _ Hm _]. rewrite Forall_forall in Hm. apply Forall_forall. intros k (m & -> & Hin)%list_elem_of_fmap.
  destruct (Hm m Hin) as [[? ?] _]. by split.
Qed.

Lemma others_arrays l : desc_wf l -> Forall (array 32) (others own l).
Proof.
  intros Hl%members_arrays. rewrite Forall_forall in Hl. apply Forall_forall. intros k [_ Hin]%list_elem_of_filter. by apply Hl.
Qed.

Lemma filter_members_wf (P : Member -> Prop) `{!forall m, Decision (P m)} l :
  desc_wf l -> Forall member_wf (filter P (members l)).
Proof.
  intros [_ _ _ _ Hm _]. rewrite Forall_forall in Hm. apply Forall_forall. intros m [_ Hin]%list_elem_of_filter. by apply Hm.
Qed.

Lemma trim_to_wf n t : 0 <= n -> text_ok t -> text_ok (trim_to n t) /\ str_len (trim_to n t) <= n.
Proof.
  intros Hn Ht. revert n Hn. induction Ht as [|c t Hc _ IH]; intros n Hn; simpl; [split; [constructor|done]|].
  destruct (Z.leb_spec (len_utf8 c) n); [|split; [constructor|done]].
  destruct (IH (n - len_utf8 c)) as [I1 I2]; [lia|]. split; [by constructor|]. simpl. lia.
Qed.

Lemma trim_wf t : text_ok t -> text_ok (trim t).
Proof.
  unfold text_ok, trim. rewrite !Forall_forall. intros Ht c Hc%list_elem_of_In%in_rev%list_elem_of_In.
  apply trim_start_incl in Hc. apply list_elem_of_In, in_rev, list_elem_of_In, trim_start_incl in Hc. by apply Ht.
Qed.

Lemma hint_wf id r h : array 32 id -> text_ok h -> member_wf (mkMember id r (trim_hint h)).
Proof.
  intros [? ?] Hh. split; [by split|]. simpl. unfold trim_hint. apply trim_to_wf; [done|by apply trim_wf].
Qed.

Lemma append_members_wf ms new ms' :
  Forall member_wf ms -> Forall (fun n => array 32 n.1.1 /\ text_ok n.1.2) new ->
  append_members ms new = Ok ms' -> Forall member_wf ms'.
Proof.
  intros Hm Hn. revert ms Hm. induction Hn as [|[[id h] a] new [Hid Hh] _ IH]; intros ms Hm; simpl; [by intros [= <-]|].
  destruct (existsb _ _); [done|]. apply IH. apply Forall_snoc; [done|]. by apply hint_wf.
Qed.

Lemma create_members_wf ms new ms' :
  Forall member_wf ms -> Forall (fun n => array 32 n.1 /\ text_ok n.2) new ->
  create_members own ms new = Ok ms' -> Forall member_wf ms'.
Proof.
  intros Hm Hn. revert ms Hm. induction Hn as [|[id h] new [Hid Hh] _ IH]; intros ms Hm; simpl; [by intros [= <-]|].
  destruct (_ || _); [done|]. apply IH. apply Forall_snoc; [done|]. by apply hint_wf.
Qed.

Context (Hhash : hash_size) (Hed : ed_sizes) (Hown : ed_public secret = own) (Hmax : max_text <= MAX_TEXT_BYTES).

Lemma own_array : array 32 own.
Proof. rewrite <- Hown. apply Hed. Qed.

(** A descriptor this device signs has a byte form once its shape is checked. *)
Lemma signed_wf d :
  array 16 (gid d) -> array 32 (prev_hash d) -> 0 < epoch d <= u32_max -> in_u64 (created_ms d) -> text_ok (d_name d) ->
  Forall member_wf (members d) -> shape (signed d secret) -> desc_wf (signed d secret).
Proof.
  intros [G1 G2] [P1 P2] He Hc Hn Hm Hs. destruct (proj1 Hed secret) as [K1 K2].
  destruct (proj2 Hed secret (digest_to_sign (set_signer (ed_public secret) d))) as [S1 S2].
  split; simpl; [done|done|done|done|done|done].
Qed.

Lemma next_wf l ms :
  desc_wf l -> Forall member_wf ms -> 0 < epoch (next_descriptor secret l ms) ->
  shape (next_descriptor secret l ms) -> desc_wf (next_descriptor secret l ms).
Proof.
  intros [(L1 & _) (B1 & _) [He Hc] Hn _ _] Hm Hpos Hs. unfold next_descriptor in *.
  apply signed_wf; simpl in *; [by split|apply Hhash| |done|done|done|done].
  split; [done|]. unfold wrapping_add. pose proof (Z.mod_pos_bound (epoch l + 1) (u32_max + 1)). ulia.
Qed.

(** Pushing our own next descriptor keeps a state well formed. *)
Lemma push_own_ok g s l ms :
  group_ok g s -> latest (chain s) = Ret l -> Forall member_wf ms ->
  exists ch r, push (chain s) (next_descriptor secret l ms) = Ret (ch, r) /\ group_ok g (set_chain ch s).
Proof.
  intros [Hw (l' & Hl' & Hg)] Hl Hm. assert (l' = l) as -> by congruence.
  pose proof (latest_wf _ _ Hw Hl) as Hdl. destruct (sw_chain _ Hw) as [Hc Hd].
  destruct (push_ok _ (next_descriptor secret l ms) l Hc Hl) as (ch & r & Hp & _). exists ch, r. split; [done|].
  destruct (push_latest _ _ _ _ _ Hc Hl Hp) as (Hch & l2 & Hl2 & Hg2 & _). split.
  - apply wf_chain; [done|done|]. rewrite Forall_forall in Hd |- *. intros x Hx.
    destruct (push_items _ _ _ _ _ x Hc Hl Hp Hx) as [Hin|(-> & [Hs _] & He & _)]; [by apply Hd|].
    destruct (desc_epoch l Hdl). apply next_wf; [done|done|lia|by apply check_shape_spec].
  - exists l2. split; [by destruct s|congruence].
Qed.

(** ** Every operation keeps the invariant *)

Lemma live_group_some c g s : live_group c g = Ok s -> groups c !! g = Some s /\ status s = Joined.
Proof. unfold live_group. destruct (groups c !! g) as [st|]; [|done]. case_bool_decide; [|done]. by intros [= <-]. Qed.

Lemma owe_all_chain s tos k arg : chain (owe_all s tos k arg) = chain s.
Proof. destruct (owe_all_shape s tos k arg) as [ct ->]. by destruct s. Qed.

Lemma group_ok_owe_all g s tos k arg :
  group_ok g s -> Forall (array 32) tos -> in_u32 arg -> group_ok g (owe_all s tos k arg).
Proof.
  intros Hs Ht Ha. apply (group_ok_ext g s); [apply owe_all_chain| |done]. apply wf_owe_all; [apply Hs|done|done].
Qed.

Lemma zero_u32 : in_u32 0.
Proof. ulia. Qed.

Lemma announce_ok io c g s notify :
  Inv c -> is_Some (groups c !! g) -> group_ok g s -> Forall (array 32) notify ->
  exists c' r, announce cfg io c g s notify = Ret (c', r) /\ Inv c'.
Proof.
  intros Hc Hg Hs Hn. pose proof (group_ok_owe_all g s notify KDescs 0 Hs Hn zero_u32) as Ho.
  unfold announce. destruct (save_put_ok io c g _ Hc Hg Ho) as (c' & ok & -> & Hc' & _). simpl. destruct ok; eexists _, _; (split; [reflexivity|]); [by apply Inv_event|done].
Qed.

Lemma create_ok io c name new now g :
  Inv c -> input_ok (ICreate name new now g) ->
  exists c' r, create cfg own secret io c name new now g = Ret (c', r) /\ Inv c'.
Proof.
  intros Hc (Hn & Hnew & Hnow & Hg). unfold create. destruct (_ || _); [eauto|].
  destruct (MAX_MEMBERS <? _)%nat; [eauto|]. destruct (create_members _ _ _) as [ms|e] eqn:Hms; [|eauto].
  set (d := signed _ _). destruct (from_root d) as [ch|e] eqn:Hr; [|eauto].
  pose proof (from_root_ok _ _ Hr) as [-> Hch]. change (latest (mkChain [d])) with (Ret d). cbn [outcome_bind].
  destruct (Nat.leb_spec MAX_GROUPS (size (groups c))) as [|Hlt]; [eauto|].
  assert (desc_wf d) as Hd.
  { apply signed_wf; simpl; [done|by split; [|repeat constructor]|ulia|done|by apply trim_wf| |].
    - eapply create_members_wf; [|exact Hnew|exact Hms]. apply Forall_singleton.
      split; [apply own_array|split; [constructor|done]].
    - apply check_shape_spec, (co_desc _ Hch). by left. }
  set (s0 := set_log 0 0 now (new_state (mkChain [d]) Joined)).
  assert (group_ok g s0) as H0'.
  { split; [|by exists d]. apply wf_log; [apply wf_new; [done|by apply Forall_singleton|done]|ulia|ulia|done]. }
  pose proof (group_ok_owe_all g s0 (others own d) KDescs 0 H0' (others_arrays d Hd) zero_u32) as Ho.
  destruct (save_new_ok io c g _ Hc Hlt Ho) as (c' & ok & -> & Hc'). cbn [outcome_bind].
  destruct ok; eexists _, _; (split; [reflexivity|done]).
Qed.

(** The newest descriptor of a group that is filed under its identifier. *)
Lemma group_latest g s : group_ok g s -> exists l, latest (chain s) = Ret l /\ gid l = g /\ desc_wf l.
Proof. intros [Hw (l & Hl & Hg)]. exists l. split_and!; [done|done|by eapply latest_wf]. Qed.

Lemma group_ok_status g s st : group_ok g s -> status_wf st -> group_ok g (set_status st s).
Proof. intros Hs Hst. apply (group_ok_ext g s); [by destruct s|apply wf_status; [apply Hs|done]|done]. Qed.

Lemma prune_to_chain listed s : chain (prune_to listed s) = chain s.
Proof. destruct (prune_to_shape listed s) as (pe & le & ct & ->). by destruct s. Qed.

Lemma prune_ok g s : group_ok g s -> exists s', prune s = Ret s' /\ group_ok g s'.
Proof.
  intros Hs. destruct (group_latest g s Hs) as (l & Hl & _ & _). unfold prune. rewrite Hl. eexists. split; [reflexivity|].
  apply (group_ok_ext g s); [apply prune_to_chain|apply wf_prune_to, Hs|done].
Qed.

Lemma add_ok io c g new :
  Inv c -> input_ok (IAdd g new) -> exists c' r, add cfg own secret io c g new = Ret (c', r) /\ Inv c'.
Proof.
  intros Hc Hnew. unfold add. destruct (live_group c g) as [s|e] eqn:Hlive; [|eauto].
  apply live_group_some in Hlive as [Hs _]. pose proof (inv_groups _ Hc _ _ Hs) as Hok.
  destruct (group_latest g s Hok) as (l & Hl & Hg & Hd). rewrite Hl. cbn [outcome_bind].
  destruct (negb _); [eauto|]. destruct (_ <? _)%nat; [eauto|].
  destruct (append_members _ _) as [ms|e] eqn:Hms; [|eauto].
  assert (Forall member_wf ms) as Hm by (eapply append_members_wf; [apply Hd|exact Hnew|exact Hms]).
  destruct (push_own_ok g s l ms Hok Hl Hm) as (ch & r & -> & Hok'). cbn [outcome_bind].
  destruct r as [x|e]; [|eexists _, _; split; [reflexivity|]; apply Inv_put; [done|by eexists|done]].
  destruct (group_latest g _ Hok') as (l' & Hl' & _ & Hd'). replace (chain (set_chain ch s)) with ch in Hl' by (by destruct s).
  rewrite Hl'. apply announce_ok; [done|by eexists|done|by apply others_arrays].
Qed.

Lemma remove_ok io c g who :
  Inv c -> input_ok (IRemove g who) -> exists c' r, remove cfg own secret io c g who = Ret (c', r) /\ Inv c'.
Proof.
  intros Hc Hwho. unfold remove. destruct (live_group c g) as [s|e] eqn:Hlive; [|eauto].
  apply live_group_some in Hlive as [Hs _]. pose proof (inv_groups _ Hc _ _ Hs) as Hok.
  destruct (group_latest g s Hok) as (l & Hl & Hg & Hd). rewrite Hl. cbn [outcome_bind].
  destruct (negb _); [eauto|]. case_bool_decide; [eauto|]. destruct (negb _); [eauto|].
  destruct (push_own_ok g s l _ Hok Hl (filter_members_wf (fun m => m_id m <> who) l Hd)) as (ch & r & -> & Hok').
  cbn [outcome_bind].
  destruct r as [x|e]; [|eexists _, _; split; [reflexivity|]; apply Inv_put; [done|by eexists|done]].
  destruct (prune_ok g _ Hok') as (s2 & -> & Hok2). cbn [outcome_bind].
  destruct (group_latest g _ Hok') as (l' & Hl' & _ & Hd'). replace (chain (set_chain ch s)) with ch in Hl' by (by destruct s).
  rewrite Hl'. apply announce_ok; [done|by eexists|done|]. apply Forall_snoc; [by apply others_arrays|done].
Qed.

Lemma leave_ok io c g : Inv c -> exists c' r, leave cfg own secret io c g = Ret (c', r) /\ Inv c'.
Proof.
  intros Hc. unfold leave. destruct (live_group c g) as [s|e] eqn:Hlive; [|eauto].
  apply live_group_some in Hlive as [Hs _]. pose proof (inv_groups _ Hc _ _ Hs) as Hok.
  destruct (group_latest g s Hok) as (l & Hl & Hg & Hd). rewrite Hl. cbn [outcome_bind].
  destruct (_ =? _)%nat.
  - destruct (save_put_ok io c g (set_status Left s) Hc) as (c' & ok & -> & Hc' & _); [by eexists|by apply group_ok_status|].
    cbn [outcome_bind]. eauto.
  - destruct (_ && _); [eauto|].
    pose proof (filter_members_wf (fun m => m_id m <> own) l Hd) as Hms.
    destruct (push_own_ok g s l _ Hok Hl Hms) as (ch & r & -> & Hok'). cbn [outcome_bind].
    destruct r as [x|e]; [|eexists _, _; split; [reflexivity|]; apply Inv_put; [done|by eexists|done]].
    apply announce_ok; [done|by eexists|by apply group_ok_status|]. apply Forall_forall.
    intros k (m & -> & Hin)%list_elem_of_fmap. rewrite Forall_forall in Hms. destruct (Hms m Hin) as [[? ?] _]. by split.
Qed.

Lemma become_member_ok g s by_ :
  group_ok g s -> array 32 by_ -> exists s' os, become_member own s by_ = Ret (s', os) /\ group_ok g s' /\ Forall (array 32) os.
Proof.
  intros Hs Hb. set (s1 := set_added_by (Some by_) (set_status Joined s)).
  assert (group_ok g s1) as H1'.
  { apply (group_ok_ext g s); [by destruct s| |done]. apply wf_added_by; [apply wf_status; [apply Hs|done]|done]. }
  destruct (group_latest g s1 H1') as (l & Hl & _ & Hd). unfold become_member. fold s1. rewrite Hl. cbn [outcome_bind].
  pose proof (others_arrays l Hd) as Ho.
  eexists _, _. split_and!; [reflexivity|apply group_ok_owe_all; [done|done|apply desc_epoch, Hd]|done].
Qed.

Lemma accept_invite_ok io c g : Inv c -> exists c' r, accept_invite cfg own io c g = Ret (c', r) /\ Inv c'.
Proof.
  intros Hc. unfold accept_invite. destruct (groups c !! g) as [s|] eqn:Hs; [|eauto].
  pose proof (inv_groups _ Hc _ _ Hs) as Hok. destruct (status s) as [by_| | |] eqn:Hst; [|eauto..].
  assert (array 32 by_) as Hb. { pose proof (sw_status _ (proj1 Hok)) as Hw. by rewrite Hst in Hw. }
  destruct (become_member_ok g s by_ Hok Hb) as (s' & os & -> & Hok' & _). cbn [outcome_bind].
  destruct (save_put_ok io c g s' Hc) as (c' & ok & -> & Hc' & _); [by eexists|done|]. cbn [outcome_bind].
  destruct ok; eexists _, _; (split; [reflexivity|]); [by apply Inv_event|done].
Qed.

Lemma forget_ok io c g : Inv c -> Inv (forget io c g).1.
Proof.
  intros Hc. unfold forget. destruct (groups c !! g) as [s|] eqn:Hs; [|done]. case_bool_decide; [done|].
  destruct Hc as [I1 I2 I3 I4]. destruct c as [gs en ei rs hi hs aj st]. unfold delete_group; simpl in *.
  destruct (negb (io_doc io)); simpl; [by split|]. destruct (negb (io_rewrite io)); simpl; split; simpl; try done.
  - intros k doc [_ ?]%lookup_delete_Some. by apply I3.
  - intros k doc s' [_ ?]%lookup_delete_Some. by eapply I4.
  - intros g' s' [_ ?]%lookup_delete_Some. by apply I1.
  - rewrite map_size_delete, Hs. lia.
  - intros k doc [_ ?]%lookup_delete_Some. by apply I3.
  - intros k doc s' [? ?]%lookup_delete_Some ?. rewrite lookup_delete_ne by done. by eapply I4.
Qed.

Lemma wrapping_add_range a b : in_u64 (wrapping_add u64_max a b).
Proof. unfold wrapping_add. pose proof (Z.mod_pos_bound (a + b) (u64_max + 1)). ulia. Qed.

Lemma store_record_docs io sto g m n : docs (store_record cfg io sto g m n).1 = docs sto.
Proof.
  unfold store_record. destruct (negb (history_save cfg)); [by destruct (evict _ _ _)|]. destruct (bool_decide _); [done|].
  destruct (_ && _); [done|]. destruct (_ <? _); [by destruct (io_rewrite io)|done].
Qed.

Lemma group_ok_log g s no cn lm :
  group_ok g s -> in_u64 no -> in_u64 cn -> in_u64 lm -> group_ok g (set_log no cn lm s).
Proof. intros Hs ? ? ?. apply (group_ok_ext g s); [by destruct s|apply wf_log; [apply Hs|done..]|done]. Qed.

Lemma record_locked_ok io sto g s m :
  group_ok g s -> in_u64 (at_ms m) ->
  exists sto' no cn lm ok, record_locked cfg io sto s m = Ret (sto', set_log no cn lm s, ok) /\
    docs sto' = docs sto /\ group_ok g (set_log no cn lm s).
Proof.
  intros Hs Hm. destruct (group_latest g s Hs) as (l & Hl & _ & _). unfold record_locked. rewrite Hl. cbn [outcome_bind].
  destruct (sw_ints _ (proj1 Hs)) as (_ & _ & _ & Hlm).
  destruct (next_ord s =? 0); [destruct (max_ord _ _ _) as [mx n]|].
  all: match goal with |- context [store_record cfg ?io' ?st' ?g' ?m' ?n'] =>
    pose proof (store_record_docs io' st' g' m' n'); destruct (store_record cfg io' st' g' m' n') end.
  all: eexists _, _, _, _, _; split; [reflexivity|split; [done|]].
  all: apply group_ok_log; [done|apply wrapping_add_range|apply wrapping_add_range|simpl; ulia].
Qed.

Lemma Inv_store c sto : Inv c -> docs sto = docs (store c) -> Inv (set_store sto c).
Proof. intros Hc Hd. by apply (Inv_ext c); [destruct c|destruct c|]. Qed.

Lemma zlen_mod_u8 {A} (l : list A) : in_u8 (zlen l mod 256).
Proof. pose proof (Z.mod_pos_bound (zlen l) 256). ulia. Qed.

Lemma others_length l : desc_wf l -> (length (others own l) <= MAX_MEMBERS)%nat.
Proof.
  intros [_ _ _ _ _ Hs]. unfold others. etrans; [apply length_filter|]. rewrite length_map. apply Hs.
Qed.

Lemma send_ok io c g text now id :
  Inv c -> input_ok (ISend g text now id) -> exists c' r, send cfg own max_text io c g text now id = Ret (c', r) /\ Inv c'.
Proof.
  intros Hc (Ht & Hnow & Hid). unfold send. destruct (Z.eqb_spec (str_len text) 0) as [|Hne]; [eauto|].
  destruct (Z.ltb_spec max_text (str_len text)) as [|Hle]; [eauto|].
  destruct (live_group c g) as [s|e] eqn:Hlive; [|eauto].
  apply live_group_some in Hlive as [Hs _]. pose proof (inv_groups _ Hc _ _ Hs) as Hok.
  destruct (Nat.leb_spec MAX_PENDING (length (pending s))) as [|Hroom]; [eauto|].
  destruct (group_latest g s Hok) as (l & Hl & Hg & Hd). rewrite Hl. cbn [outcome_bind].
  set (n := wrapping_add u64_max (my_counter s) 1). assert (in_u64 n) as Hn by apply wrapping_add_range.
  match goal with |- context [record_locked cfg io (store c) ?s'] => set (s1 := s') end.
  assert (group_ok g s1) as H1'.
  { apply (group_ok_ext g s); [|subst s1|done]; [subst s1; by destruct (_ =? _)%nat, s|].
    pose proof (wf_counter s n (proj1 Hok) Hn) as Hw. destruct (_ =? _)%nat; [done|].
    destruct (sw_pending _ Hw) as [Hpl Hpf]. apply wf_push_ledger; [apply wf_pending; [done| |]|].
    - rewrite length_app. simpl. replace (pending (set_my_counter n s)) with (pending s) by (by destruct s). lia.
    - apply Forall_snoc; [done|]. pose proof (str_len_nonneg text). split; simpl; [done| |split; [done|lia]|].
      + split_and!; [done|apply desc_epoch, Hd|done].
      + split; [by apply others_length|by apply others_arrays].
    - split_and!; simpl; [done|apply zlen_mod_u8|ulia|ulia]. }
  destruct (record_locked_ok io (store c) g s1 (mkMsg 0 true own n id now now (epoch l) text None) H1' Hnow)
    as (sto & no & cn & lm & ok & -> & Hdocs & H2'). cbn [outcome_bind].
  pose proof (Inv_store c sto Hc Hdocs) as Hc1.
  assert (is_Some (groups (set_store sto c) !! g)) as Hsome by (destruct c; by eexists).
  destruct ok; cbn [negb].
  - destruct (save_put_ok io (set_store sto c) g _ Hc1 Hsome H2') as (c' & ok & -> & Hc' & _). cbn [outcome_bind]. eauto.
  - eexists _, _. split; [reflexivity|]. by apply Inv_put.
Qed.

Lemma settle_group_chain s peer w dl : chain (settle_group s peer w dl) = chain s.
Proof. destruct (settle_group_shape s peer w dl) as (pe & le & ct & cf & ->). by destruct s. Qed.

Lemma settle_ok io c peer w dl : Inv c -> array 32 peer -> exists c', settle cfg io c peer w dl = Ret c' /\ Inv c'.
Proof.
  intros Hc Hp. assert (forall g, exists c', match groups c !! g with
      | None => Ret c
      | Some st => let st := settle_group st peer w dl in
                   let! (c, _) := save cfg io (put_group g st c) st in Ret c
      end = Ret c' /\ Inv c') as Hgroup.
  { intros g. destruct (groups c !! g) as [s|] eqn:Hs; [|eauto]. cbv zeta. pose proof (inv_groups _ Hc _ _ Hs) as Hok.
    destruct (save_put_ok io c g (settle_group s peer w dl) Hc) as (c' & ok & -> & Hc' & _); [by eexists| |].
    - apply (group_ok_ext g s); [apply settle_group_chain|apply wf_settle_group; [apply Hok|done]|done].
    - cbn [outcome_bind]. eauto. }
  destruct w as [g id|g|g|g to seq]; [apply Hgroup..|]. unfold settle. eexists. split; [reflexivity|].
  destruct (hist c !! to); [|done]. apply (Inv_ext c); by destruct c.
Qed.

Lemma confirm_chain s peer : chain (confirm s peer).1 = chain s.
Proof. destruct (confirm_shape s peer) as [cf ->]. by destruct s. Qed.

Lemma group_ok_confirm g s peer : group_ok g s -> array 32 peer -> group_ok g (confirm s peer).1.
Proof. intros Hs Hp. apply (group_ok_ext g s); [apply confirm_chain|apply wf_confirm; [apply Hs|done]|done]. Qed.

Lemma owe_chain s to k arg : chain (owe s to k arg).1 = chain s.
Proof. apply (owe_all_chain s [to]). Qed.

Lemma group_ok_owe g s to k arg :
  group_ok g s -> array 32 to -> in_u32 arg -> group_ok g (owe s to k arg).1.
Proof. intros Hs Ht Ha. apply (group_ok_owe_all g s [to]); [done|by apply Forall_singleton|done]. Qed.

Lemma group_ok_mark g s who n :
  group_ok g s -> array 32 who -> 1 <= n <= u64_max -> vectors_full s who = false -> group_ok g (mark_vector s who n).
Proof. intros Hs Hw Hn Hf. apply (group_ok_ext g s); [by destruct s|apply wf_mark_vector; [apply Hs|done..]|done]. Qed.

Lemma record_received_ok io c g s m finish_ :
  Inv c -> groups c !! g = Some s -> group_ok g s -> in_u64 (at_ms m) -> array 32 (m_sender m) ->
  1 <= m_counter m <= u64_max -> vectors_full s (m_sender m) = false ->
  (forall s, group_ok g s -> group_ok g (finish_ s)) ->
  exists c' a, record_received cfg io c g s m finish_ = Ret (c', a) /\ Inv c'.
Proof.
  intros Hc Hg Hs Hat Hsender Hcount Hfull Hfin. unfold record_received.
  destruct (record_locked_ok io (store c) g s m Hs Hat) as (sto & no & cn & lm & ok & -> & Hdocs & H2'). cbn [outcome_bind].
  pose proof (Inv_store c sto Hc Hdocs) as Hc1.
  assert (is_Some (groups (set_store sto c) !! g)) as Hsome by (destruct c; by eexists).
  destruct (sw_ints _ (proj1 Hs)) as (_ & ? & ? & ?).
  destruct ok; cbn [negb].
  2: { eexists _, _. split; [reflexivity|]. apply Inv_put; [done|done|]. by apply group_ok_log. }
  assert (vectors_full (set_log no cn lm s) (m_sender m) = false) as Hf by (by destruct s).
  pose proof (Hfin _ (group_ok_mark g _ _ _ H2' Hsender Hcount Hf)) as H3'.
  destruct (save_put_ok io (set_store sto c) g _ Hc1 Hsome H3') as (c' & ok & -> & Hc' & _). cbn [outcome_bind].
  destruct ok; cbn [negb]; eexists _, _; (split; [reflexivity|]); [by apply Inv_event|done].
Qed.

Section Receiving.
Context (trusted : bytes -> bool).

Lemma handle_text_ok io c peer t now :
  Inv c -> array 32 peer -> record_wf (RText t) -> in_u64 now ->
  exists c' a k, handle_text cfg max_text trusted io c peer t now = Ret (c', a, k) /\ Inv c'.
Proof.
  intros Hc Hp (_ & _ & _ & _ & _ & _ & Hn) Hnow. unfold handle_text.
  destruct (groups c !! t_gid t) as [s|] eqn:Hs; [|eauto 6]. destruct (status s); [eauto 6| |eauto 6|eauto 6].
  pose proof (inv_groups _ Hc _ _ Hs) as Hok. destruct (group_latest _ s Hok) as (l & Hl & Hg & Hd).
  rewrite Hl. cbn [outcome_bind]. destruct (_ <? _).
  - pose proof (group_ok_owe _ s peer KSync (epoch l) Hok Hp (proj1 (desc_epoch l Hd))) as Hok'.
    destruct (owe s peer KSync (epoch l)) as [s' owed]. simpl in Hok'.
    destruct owed; [|eexists _, _, _; split; [reflexivity|]; apply Inv_put; [done|by eexists|done]].
    destruct (save_put_ok io c (t_gid t) s' Hc) as (c' & ok & -> & Hc' & _); [by eexists|done|]. cbn [outcome_bind]. eauto 6.
  - destruct (negb _); [eauto 6|]. destruct (_ || _); [eauto 6|]. destruct (vector_known _ _ _); [eauto 6|].
    destruct (vectors_full s peer) eqn:Hf; [eauto 6|].
    edestruct (record_received_ok io c (t_gid t) s
      (mkMsg 0 false peer (t_counter t) (t_id t) (t_sent_ms t) now (t_epoch t) (t_text t) None)
      (fun st => (confirm st peer).1)) as (c' & a & -> & Hc');
      [done|done|done|done|done|simpl; lia|done|intros; by apply group_ok_confirm|]. cbn [outcome_bind]. eauto 6.
Qed.

Lemma handle_hist_offer_ok io c peer o now :
  Inv c -> array 32 peer -> record_wf (RHistOffer o) -> in_u64 now ->
  exists c' a, handle_hist_offer cfg own max_text io c peer o now = Ret (c', a) /\ Inv c'.
Proof.
  intros Hc Hp (_ & _ & Ha & _ & _ & _ & _ & Hn) Hnow. unfold handle_hist_offer.
  destruct (groups c !! o_gid o) as [s|] eqn:Hs; [|eauto]. destruct (status s); [eauto| |eauto|eauto].
  pose proof (inv_groups _ Hc _ _ Hs) as Hok. destruct (group_latest _ s Hok) as (l & Hl & Hg & Hd).
  rewrite Hl. cbn [outcome_bind]. destruct (negb _); [eauto|]. destruct (_ || _); [eauto|]. destruct (_ <? _); [eauto|].
  destruct (vector_known _ _ _); [eauto|]. destruct (vectors_full s (o_sender o)) eqn:Hf; [eauto|].
  apply record_received_ok; simpl; done || lia.
Qed.

Lemma confirm_listed_ok g s peer :
  group_ok g s -> array 32 peer -> exists s' b, confirm_listed s peer = Ret (s', b) /\ group_ok g s'.
Proof.
  intros Hs Hp. destruct (group_latest g s Hs) as (l & Hl & _ & _). unfold confirm_listed. rewrite Hl. cbn [outcome_bind].
  destruct (is_member l peer); [|eauto]. pose proof (group_ok_confirm g s peer Hs Hp). destruct (confirm s peer). eauto.
Qed.

Lemma standing_ok aj g s peer :
  group_ok g s -> array 32 peer -> exists s' j k, standing own trusted aj s peer = Ret (s', j, k) /\ group_ok g s'.
Proof.
  intros Hs Hp. destruct (group_latest g s Hs) as (l & Hl & _ & _). unfold standing. rewrite Hl. cbn [outcome_bind].
  assert (exists s' j k, (if trusted peer then
        let! (st, _) := confirm_listed (set_confirmed [] s) peer in
        if aj : bool then let! (st, os) := become_member own st peer in Ret (st, true, os)
        else Ret (set_status (Pending peer) st, false, [])
      else Ret (s, false, [])) = Ret (s', j, k) /\ group_ok g s') as Hback.
  { destruct (trusted peer); [|eauto 6].
    assert (group_ok g (set_confirmed [] s)) as H1'.
    { apply (group_ok_ext g s); [by destruct s| |done]. apply wf_confirmed; [apply Hs|simpl; unfold MAX_MEMBERS; lia|constructor]. }
    destruct (confirm_listed_ok g _ peer H1' Hp) as (s2 & b & -> & H2'). cbn [outcome_bind]. destruct aj.
    - destruct (become_member_ok g s2 peer H2' Hp) as (s3 & os & -> & H3' & _). cbn [outcome_bind]. eauto 6.
    - eexists _, _, _. split; [reflexivity|]. by apply group_ok_status. }
  pose proof (group_ok_status g s Removed Hs I).
  destruct (status s), (is_member l own); eauto 6.
Qed.

Lemma push_all_group_ok g s ds :
  group_ok g s -> Forall desc_wf ds ->
  exists ch r, push_all (chain s) ds = Ret (ch, r) /\ group_ok g (set_chain ch s).
Proof.
  intros [Hw (l & Hl & Hg)] Hds. destruct (sw_chain _ Hw) as [Hc Hd].
  destruct (push_all_ok (chain s) ds l Hc Hl) as (ch & r & Hp & Hc' & (l' & Hl' & Hg' & _) & Hi).
  exists ch, r. split; [done|]. split; [|exists l'; split; [by destruct s|congruence]].
  apply wf_chain; [done|done|]. rewrite Forall_forall in Hd, Hds. apply Forall_forall. intros x [|]%Hi; auto.
Qed.

Lemma update_group_ok io c peer g s ds :
  Inv c -> groups c !! g = Some s -> array 32 peer -> Forall desc_wf ds ->
  exists c' a k, update_group cfg own trusted io c peer g s ds = Ret (c', a, k) /\ Inv c'.
Proof.
  intros Hc Hs Hp Hds. pose proof (inv_groups _ Hc _ _ Hs) as Hok. unfold update_group.
  destruct (push_all_group_ok g s ds Hok Hds) as (ch & r & -> & Hok1). cbn [outcome_bind].
  assert (forall st, group_ok g st -> Inv (put_group g st c)) as Hput by (intros; apply Inv_put; [done|by eexists|done]).
  destruct r as [[]|e].
  - destruct (confirm_listed_ok g _ peer Hok1 Hp) as (s2 & b & -> & Hok2). cbn [outcome_bind].
    destruct (standing_ok (auto_join c) g s2 peer Hok2 Hp) as (s3 & j & k & -> & Hok3). cbn [outcome_bind].
    destruct (prune_ok g s3 Hok3) as (s4 & -> & Hok4). cbn [outcome_bind].
    destruct (save_put_ok io c g s4 Hc) as (c' & ok & -> & Hc' & _); [by eexists|done|]. cbn [outcome_bind].
    destruct ok; cbn [negb]; eexists _, _, _; (split; [reflexivity|]); [by apply Inv_event|done].
  - destruct (confirm_listed_ok g _ peer Hok1 Hp) as (s2 & [] & -> & Hok2); cbn [outcome_bind]; [|eauto 6].
    destruct (save_put_ok io c g s2 Hc) as (c' & ok & -> & Hc' & _); [by eexists|done|]. cbn [outcome_bind]. eauto 6.
  - pose proof (Hput _ Hok1). destruct e; eauto 6.
Qed.

(** A chain that starts at one of the received descriptors. *)
Lemma try_roots_ok g ds :
  Forall desc_wf ds -> Forall (fun d => gid d = g) ds ->
  exists o, try_roots ds = Ret o /\
    match o with
    | Some ch => chain_ok ch /\ Forall desc_wf (items ch) /\ exists l, latest ch = Ret l /\ gid l = g
    | None => True
    end.
Proof.
  intros Hw Hg. induction ds as [|d ds IH]; [by exists None|]. cbn [try_roots].
  apply Forall_cons in Hw as [Hd Hw]. apply Forall_cons in Hg as [Hgd Hg]. specialize (IH Hw Hg).
  destruct (from_root d) as [ch|e] eqn:Hr; [|done]. apply from_root_ok in Hr as [-> Hch].
  destruct (push_all_ok (mkChain [d]) ds d Hch eq_refl) as (ch & r & -> & Hc' & (l & Hl & Hgl & _) & Hi). cbn [outcome_bind].
  destruct (_ || _); [|done]. eexists. split; [reflexivity|]. split_and!; [done| |exists l; split; [done|congruence]].
  apply Forall_forall. rewrite Forall_forall in Hw. intros x [->%list_elem_of_singleton|]%Hi; auto.
Qed.

Lemma invited_ok io c peer g ds now :
  Inv c -> array 32 peer -> in_u64 now -> ds <> [] -> Forall desc_wf ds -> Forall (fun d => gid d = g) ds ->
  exists c' a k, invited cfg own trusted io c peer g ds now = Ret (c', a, k) /\ Inv c'.
Proof.
  intros Hc Hp Hnow Hne Hw Hg. unfold invited. destruct (last ds) as [l|] eqn:Hlast; [|by apply last_None in Hlast].
  destruct (_ || _); [eauto 6|]. destruct (_ || _); [eauto 6|].
  destruct (Nat.leb_spec MAX_GROUPS (size (groups c))) as [|Hlt]; [eauto 6|]. cbn [orb].
  destruct (_ <=? _)%nat; [eauto 6|]. destruct (try_roots_ok g ds Hw Hg) as ([ch|] & -> & Hch); cbn [outcome_bind]; [|eauto 6].
  destruct Hch as (Hch & Hcw & top & Htop & Hgt). rewrite Htop. cbn [outcome_bind]. destruct (negb _); [eauto 6|].
  set (s0 := (confirm _ peer).1).
  assert (group_ok g s0) as H0'.
  { apply group_ok_confirm; [|done]. split; [|by exists top]. apply wf_log; [by apply wf_new|ulia|ulia|done]. }
  assert (exists s1 k, (if auto_join c then become_member own s0 peer else Ret (s0, [])) = Ret (s1, k) /\ group_ok g s1)
    as (s1 & k & -> & H1').
  { destruct (auto_join c); [|eauto]. destruct (become_member_ok g s0 peer H0' Hp) as (s1 & os & -> & ? & _). eauto. }
  cbn [outcome_bind]. destruct (save_new_ok io c g s1 Hc Hlt H1') as (c' & ok & -> & Hc'). cbn [outcome_bind].
  destruct ok; cbn [negb]; eexists _, _, _; (split; [reflexivity|]); [by apply Inv_event|done].
Qed.

Lemma handle_descs_ok io c peer ds now :
  Inv c -> array 32 peer -> record_wf (RDescs ds) -> in_u64 now ->
  exists c' a k, handle_descs cfg own trusted io c peer ds now = Ret (c', a, k) /\ Inv c'.
Proof.
  intros Hc Hp [Hlen Hw] Hnow. unfold handle_descs. destruct ds as [|d0 ds]; [by unfold zlen in Hlen; simpl in Hlen; lia|].
  destruct (existsb _ _) eqn:Hex; [eauto 6|]. cbn [orb]. destruct (negb _); [eauto 6|].
  destruct (groups c !! gid d0) as [s|] eqn:Hs.
  - destruct (_ && _); [eauto 6|]. by apply update_group_ok.
  - apply invited_ok; [done|done|done|done|done|]. apply Forall_forall. intros d Hin%list_elem_of_In.
    destruct (decide (gid d = gid d0)) as [|Hd]; [done|]. exfalso.
    assert (existsb (fun d => negb (bool_decide (gid d = gid d0))) (d0 :: ds) = true) as E; [|congruence].
    apply existsb_exists. exists d. split; [done|]. by rewrite bool_decide_eq_false_2.
Qed.

Lemma handle_sync_ok io c peer g :
  Inv c -> array 32 peer -> exists c' a k, handle_sync cfg io c peer g = Ret (c', a, k) /\ Inv c'.
Proof.
  intros Hc Hp. unfold handle_sync. destruct (groups c !! g) as [s|] eqn:Hs; [|eauto 6].
  destruct (negb _); [eauto 6|]. destruct (is_pending _); [eauto 6|]. pose proof (inv_groups _ Hc _ _ Hs) as Hok.
  destruct (confirm_listed_ok g s peer Hok Hp) as (s1 & b & -> & Hok1). cbn [outcome_bind].
  pose proof (group_ok_owe g s1 peer KDescs 0 Hok1 Hp zero_u32) as Hok2. destruct (owe s1 peer KDescs 0) as [s2 o].
  destruct (o || b).
  - destruct (save_put_ok io c g s2 Hc) as (c' & ok & -> & Hc' & _); [by eexists|done|]. cbn [outcome_bind]. eauto 6.
  - eexists _, _, _. split; [reflexivity|]. apply Inv_put; [done|by eexists|done].
Qed.

Lemma handle_ok io c peer plain now :
  Inv c -> array 32 peer -> bytes_ok plain -> in_u64 now ->
  exists c' a k, handle cfg own max_text trusted io c peer plain now = Ret (c', a, k) /\ Inv c'.
Proof.
  intros Hc Hp Hb Hnow. unfold handle. destruct (record_decode plain) as [r|[]] eqn:Hr; [|eauto 6..].
  apply record_decode_inv in Hr as [_ Hr]; [|done]. destruct r as [t|ds|g h|o].
  - by apply handle_text_ok.
  - by apply handle_descs_ok.
  - by apply handle_sync_ok.
  - destruct (handle_hist_offer_ok io c peer o now) as (c' & a & -> & Hc'); [done..|]. cbn [outcome_bind]. eauto 6.
Qed.
End Receiving.

Lemma handover_ok io c g to :
  Inv c -> array 32 to -> exists c' r, handover cfg own io c g to = Ret (c', r) /\ Inv c'.
Proof.
  intros Hc Hto. unfold handover. case_bool_decide; [eauto|]. destruct (live_group c g) as [s|e] eqn:Hlive; [|eauto].
  apply live_group_some in Hlive as [Hs _]. pose proof (inv_groups _ Hc _ _ Hs) as Hok.
  destruct (group_latest g s Hok) as (l & Hl & Hg & Hd). rewrite Hl. cbn [outcome_bind]. destruct (negb _); [eauto|].
  pose proof (wf_mark_handover s to (epoch l) (proj1 Hok) Hto (proj1 (desc_epoch l Hd))) as Hw.
  assert (chain (mark_handover s to (epoch l)).1 = chain s) as Hch by (destruct (mark_handover_shape s to (epoch l)) as [hd ->]; by destruct s).
  destruct (mark_handover s to (epoch l)) as [s1 first]. simpl in Hw, Hch. destruct first; cbn [negb]; [|eauto].
  assert (group_ok g s1) as Hok1 by (by apply (group_ok_ext g s)).
  destruct (save_put_ok io c g s1 Hc) as (c1 & ok & -> & Hc1 & Hsome); [by eexists|done|]. cbn [outcome_bind].
  destruct ok; cbn [negb].
  - destruct (page_ok cfg (store c1) g None MAX_HIST_PER_HANDOVER) as (win & -> & _).
    { unfold MAX_HIST_PER_HANDOVER, MAX_PENDING. lia. }
    cbn [outcome_bind]. destruct (_ =? _)%nat; [eauto|]. eexists _, _. split; [reflexivity|]. apply (Inv_ext c1); by destruct c1.
  - eexists _, _. split; [reflexivity|]. apply Inv_put; [done|done|]. apply (group_ok_ext g s1); [by destruct s1| |done].
    destruct (sw_handed _ Hw) as [Hhl Hh]. apply wf_handed; [done|etrans; [apply length_filter|done]|].
    apply Forall_forall. rewrite Forall_forall in Hh. intros x [_ Hx]%list_elem_of_filter. by apply Hh.
Qed.

Lemma store_retain_docs io sto g keep : docs (store_retain cfg io sto g keep).1 = docs sto.
Proof.
  unfold store_retain. destruct (negb (history_save cfg)); [done|]. destruct (logs sto !! g); [|done].
  by destruct (negb (io_rewrite io)).
Qed.

Lemma store_retain_count io sto g keep n : (store_retain cfg io sto g keep).2 = Some n -> in_u64 n.
Proof.
  unfold store_retain. destruct (negb (history_save cfg)).
  2: destruct (logs sto !! g); [destruct (negb (io_rewrite io)); [done|]|simpl; intros [= <-]; ulia].
  all: simpl; intros [= <-]; match goal with |- in_u64 (?x mod _) => pose proof (Z.mod_pos_bound x (u64_max + 1)) end; ulia.
Qed.

Lemma sweep_group_ok io cutoff acc g : Inv acc.1 -> Inv (sweep_group cfg io cutoff acc g).1.
Proof.
  destruct acc as [c removed]. simpl. intros Hc. set (keep := fun m => cutoff <=? at_ms m).
  pose proof (store_retain_docs io (store c) g keep) as Hdocs. pose proof (store_retain_count io (store c) g keep) as Hn.
  destruct (store_retain cfg io (store c) g keep) as [sto [n|]]; simpl in *; pose proof (Inv_store c sto Hc Hdocs) as Hc1; [|done].
  destruct (groups (set_store sto c) !! g) as [s|] eqn:Hs; [|done]. simpl. apply Inv_put; [done|by eexists|].
  pose proof (inv_groups _ Hc1 _ _ Hs) as Hok. destruct (sw_ints _ (proj1 Hok)) as (_ & ? & _ & ?). apply group_ok_log; auto.
Qed.

Lemma sweep_ok io c cutoff : Inv c -> Inv (sweep_retention cfg io c cutoff).1.
Proof.
  intros Hc. unfold sweep_retention. generalize (map fst (btree (groups c))). intros gs.
  assert (Inv (c, 0).1) as Hacc by done. revert Hacc. generalize (c, 0). induction gs as [|g gs IH]; intros acc Hacc; [done|].
  cbn [fold_left]. by apply IH, sweep_group_ok.
Qed.

(** Loading the documents of well-formed states. *)
Lemma load_doc_ok k s :
  group_ok k s -> exists o, load_doc k (state_encode s) = Ret o /\ (o = Some s \/ o = None).
Proof.
  intros [Hw (l & Hl & Hg)]. destruct (chain_latest _ (proj1 (sw_chain _ Hw))) as (pre & l' & Hi & _).
  assert (exists d0, head (items (chain s)) = Some d0) as (d0 & Hd0) by (rewrite Hi; destruct pre; simpl; eauto).
  unfold load_doc. rewrite (state_decode_encode s d0 Hw Hd0). destruct (is_ok _); cbn [outcome_bind]; [|eauto].
  rewrite Hl. cbn [outcome_bind]. rewrite bool_decide_eq_true_2 by done. eauto.
Qed.

Lemma load_all_ok ds :
  Forall (fun kd => exists s, kd.2 = state_encode s /\ group_ok kd.1 s) ds ->
  exists gs, load_all ds = Ret gs /\
    forall k s, gs !! k = Some s -> exists doc, (k, doc) ∈ ds /\ doc = state_encode s /\ load_doc k doc = Ret (Some s) /\ group_ok k s.
Proof.
  induction 1 as [|[k doc] ds (s & Hdoc & Hs) _ (gs & IH1 & IH2)]; simpl in *.
  { exists ∅. split; [done|]. intros k s Hk. by rewrite lookup_empty in Hk. }
  rewrite IH1. cbn [outcome_bind]. subst doc. destruct (load_doc_ok k s Hs) as (o & Ho & Hor). rewrite Ho. cbn [outcome_bind].
  eexists. split; [reflexivity|]. intros k' s' Hk.
  assert (k' = k /\ s' = s /\ o = Some s \/ gs !! k' = Some s') as [(-> & -> & ->)|Hold].
  { destruct Hor as [->| ->]; [|by right]. apply lookup_insert_Some in Hk as [[<- <-]|[_ ?]]; [by left|by right]. }
  - exists (state_encode s). split_and!; [left|done|done|done].
  - destruct (IH2 _ _ Hold) as (doc & Hin & ?). exists doc. split; [by right|done].
Qed.

Lemma load_all_complete ds g s doc gs :
  load_all ds = Ret gs -> (g, doc) ∈ ds -> load_doc g doc = Ret (Some s) -> is_Some (gs !! g).
Proof.
  revert gs. induction ds as [|[k' d'] ds IH]; intros gs Hl Hin Hld; [by apply elem_of_nil in Hin|]. simpl in Hl.
  destruct (load_all ds) as [gs1|] eqn:E1; [|done]. cbn [outcome_bind] in Hl.
  destruct (load_doc k' d') as [o|] eqn:E2; [|done]. cbn [outcome_bind] in Hl. injection Hl as <-.
  apply elem_of_cons in Hin as [[= -> ->]|Hin].
  - assert (o = Some s) as -> by congruence. by rewrite lookup_insert_eq; eexists.
  - specialize (IH _ eq_refl Hin Hld). destruct o; [|done]. apply lookup_insert_is_Some'. by right.
Qed.

Lemma restart_ok aside c : Inv c -> exists c', restart aside c = Ret c' /\ Inv c'.
Proof.
  intros Hc. destruct (load_all_ok (btree (docs (store c)))) as (gs & Hload & Hgs).
  { apply Forall_forall. intros [k doc] Hin%btree_elem. by apply (inv_docs _ Hc). }
  unfold restart. rewrite Hload. cbn [outcome_bind]. eexists. split; [reflexivity|]. split; simpl.
  - intros g s Hg. by destruct (Hgs _ _ Hg) as (doc & _ & _ & _ & ?).
  - etrans; [|apply (inv_count _ Hc)]. rewrite <- !size_dom. apply subseteq_size. intros k [s Hk]%elem_of_dom.
    destruct (Hgs _ _ Hk) as (doc & Hin%btree_elem & _ & Hl & _). apply elem_of_dom. by eapply (inv_filed _ Hc).
  - intros k doc [Hk _]%map_lookup_filter_Some. by apply (inv_docs _ Hc).
  - intros k doc s [Hk _]%map_lookup_filter_Some Hl.
    destruct (gs !! k) as [s'|] eqn:E; [by eexists|]. exfalso.
    apply btree_elem in Hk. destruct (load_all_complete _ _ _ _ _ Hload Hk Hl) as [? ?]. congruence.
Qed.

Lemma flush_ok io c : Inv c -> exists c', flush_all io c = Ret c' /\ Inv c'.
Proof.
  intros Hc. unfold flush_all.
  assert (forall gs ds, Forall (fun kv => groups c !! kv.1 = Some kv.2) gs -> Inv (set_store (with_docs ds (store c)) c) ->
    exists ds', flush_groups io (with_docs ds (store c)) gs = Ret (with_docs ds' (store c)) /\
                Inv (set_store (with_docs ds' (store c)) c)) as Hall.
  { induction gs as [|[g s] gs IH]; intros ds Hgs Hi; [eauto|]. apply Forall_cons in Hgs as [Hg Hgs]. simpl in Hg.
    pose proof (inv_groups _ Hc _ _ Hg) as Hs. destruct (group_latest g s Hs) as (l & Hl & Hgl & _).
    cbn [flush_groups]. unfold flush_group. cbn [fst snd]. rewrite Hl. cbn [outcome_bind]. unfold write_doc. rewrite Hgl.
    destruct (io_doc (io g)); cbn [fst]; [|by apply IH].
    apply (IH (<[g := state_encode s]> ds)); [done|].
    assert (is_Some (groups (set_store (with_docs ds (store c)) c) !! g)) as Hsome by (destruct c; by eexists).
    pose proof (Inv_docs _ g s Hi Hsome Hs) as Hi'. by destruct c. }
  destruct (Hall (btree (groups c)) (docs (store c))) as (ds' & E & Hi).
  - apply Forall_forall. by intros [k s] Hin%btree_elem.
  - by rewrite with_docs_same.
  - replace (with_docs (docs (store c)) (store c)) with (store c) in E by (by destruct (store c)). rewrite E. eauto.
Qed.

Lemma step_ok io c i : Inv c -> input_ok i -> exists c', step io c i = Ret c' /\ Inv c'.
Proof.
  intros Hc Hi. destruct i; cbn [step].
  - destruct (create_ok io c name new now g Hc Hi) as (c' & r & -> & ?). simpl. eauto.
  - destruct (add_ok io c g new Hc Hi) as (c' & r & -> & ?). simpl. eauto.
  - destruct (remove_ok io c g who Hc Hi) as (c' & r & -> & ?). simpl. eauto.
  - destruct (leave_ok io c g Hc) as (c' & r & -> & ?). simpl. eauto.
  - destruct (accept_invite_ok io c g Hc) as (c' & r & -> & ?). simpl. eauto.
  - eexists. split; [reflexivity|]. by apply forget_ok.
  - destruct (send_ok io c g text now id Hc Hi) as (c' & r & -> & ?). simpl. eauto.
  - by apply settle_ok.
  - destruct Hi as (? & ? & ?). destruct (handle_ok trusted io c peer plain now) as (c' & a & k & -> & ?); [done..|]. simpl. eauto.
  - destruct (handover_ok io c g to Hc Hi) as (c' & r & -> & ?). simpl. eauto.
  - eexists. split; [reflexivity|]. by apply sweep_ok.
  - eexists. split; [reflexivity|]. unfold note_delivery. apply (Inv_ext c); [..|done]; destruct reason, c; by try destruct (_ || _).
  - eexists. split; [reflexivity|]. apply (Inv_ext c); by destruct c.
  - by apply flush_ok.
  - by apply restart_ok.
Qed.

Lemma run_ok c ins : Inv c -> Forall (fun x => input_ok x.2) ins -> exists c', run c ins = Ret c' /\ Inv c'.
Proof.
  intros Hc Hi. revert c Hc. induction Hi as [|[io i] ins Hio _ IH]; intros c Hc; cbn [run]; [eauto|].
  destruct (step_ok io c i Hc Hio) as (c1 & -> & Hc1). cbn [outcome_bind]. by apply IH.
Qed.

Lemma fresh_ok : Inv fresh.
Proof. split; simpl; [|rewrite map_size_empty; lia|..]; intros k v; [..|intros s]; intros Hk; by rewrite lookup_empty in Hk. Qed.
End Machine.

(** C5. The group engine is well behaved whatever users, members, strangers, the
    delivery worker, the disk and restarts do: no operation panics; at most 32
    groups are held; each group is filed under the identifier of its chain and
    every queue, vector, text and number of its state is within the limits its
    document can hold; and every document on disk is the byte form of such a
    state. *)
Theorem group_engine_safe `{Crypto} `{Ed25519} (cfg : StoreSettings) (own secret : bytes) (max_text : Z)
    (ins : list (IO * Input)) :
  hash_size -> ed_sizes -> ed_public secret = own -> max_text <= MAX_TEXT_BYTES ->
  Forall (fun x => input_ok x.2) ins ->
  exists c, run cfg own secret max_text fresh ins = Ret c /\
    (size (groups c) <= MAX_GROUPS)%nat /\
    (forall g s, groups c !! g = Some s -> state_wf s /\ exists l, latest (chain s) = Ret l /\ gid l = g) /\
    (forall g doc, docs (store c) !! g = Some doc -> exists s, doc = state_encode s /\ state_wf s).
Proof.
  intros Hh He Ho Hm Hi. destruct (run_ok cfg own secret max_text Hh He Ho Hm fresh ins fresh_ok Hi) as (c & Hr & [I1 I2 I3 _]).
  exists c. split_and!; [done|done|done|]. intros g doc Hg. destruct (I3 _ _ Hg) as (s & -> & Hs & _). by exists s.
Qed.

(** ** A concrete device *)

Module EngineDemo.
Import GroupDemo.

Definition settings : StoreSettings := mkSettings true 100 1000 false.
Definition good : IO := mkIO true Appended true.
Definition g0 : bytes := replicate 16 7.
Definition person_of (n : Z) : bytes * str := (key n, lit "peer").

(** Device 1 makes a group with 2 and 3. *)
Definition made : list (IO * Input) := [(good, ICreate (lit "team") [person_of 2; person_of 3] 1000 g0)].

Lemma fit_array n b : array n (fit n b).
Proof.
  unfold fit. split.
  - rewrite length_take, length_app, length_map, length_replicate. lia.
  - apply Forall_take, Forall_app. split.
    + apply Forall_forall. intros x (y & -> & _)%list_elem_of_fmap. pose proof (Z.mod_pos_bound y 256). ulia.
    + apply Forall_replicate. ulia.
Qed.

Lemma demo_hash_size : hash_size.
Proof. intros l d. split; [apply be_bytes_length|apply be_bytes_ok]. Qed.

Lemma demo_ed_sizes : ed_sizes.
Proof.
  split; intros s; [apply fit_array|]. intros m. destruct (fit_array 32 s) as [L1 B1], (fit_array 32 m) as [L2 B2]. split.
  - simpl. by rewrite length_app, L1, L2.
  - by apply Forall_app.
Qed.

Lemma same_array n x : in_u8 x -> array n (replicate n x).
Proof. intros Hx. split; [apply length_replicate|]. apply Forall_replicate. ulia. Qed.

(** The device then sends a message, delivers it to 2 and restarts. *)
Definition busy : list (IO * Input) :=
  made ++ [(good, ISend g0 (lit "hello") 2000 (replicate 16 9));
           (good, ISettle (key 2) (WText g0 (replicate 16 9)) true);
           (good, IRestart (fun _ => true))].

Lemma busy_ok : Forall (fun x => input_ok x.2) busy.
Proof.
  unfold busy, made. cbn [app]. repeat apply Forall_cons_2; [..|apply Forall_nil; exact I]; cbn [input_ok snd]; [..|exact I].
  - split_and!; [by apply text_check| |ulia|apply same_array; ulia].
    repeat apply Forall_cons_2; [..|by apply Forall_nil]; (split; [apply same_array; ulia|by apply text_check]).
  - split_and!; [by apply text_check|ulia|apply same_array; ulia].
  - apply same_array. ulia.
Qed.
End EngineDemo.
Import GroupDemo EngineDemo.

Lemma group_engine_safe_witness :
  exists c, run settings (key 1) (key 1) 4096 fresh busy = Ret c /\
    (size (groups c) <= MAX_GROUPS)%nat /\
    (forall g s, groups c !! g = Some s -> state_wf s /\ exists l, latest (chain s) = Ret l /\ gid l = g) /\
    (forall g doc, docs (store c) !! g = Some doc -> exists s, doc = state_encode s /\ state_wf s).
Proof.
  apply group_engine_safe;
    [apply demo_hash_size|apply demo_ed_sizes|vm_compute; reflexivity|vm_compute; discriminate|apply busy_ok].
Defined.

(** The state of the group of [busy], written with what it holds. *)
Definition busy_core : Core := match run settings (key 1) (key 1) 4096 fresh busy with Ret c => c | Panic => fresh end.
Definition busy_state : GroupState := default (new_state (mkChain []) Left) (groups busy_core !! g0).

Lemma busy_wf : state_wf busy_state.
Proof.
  destruct (run_ok settings (key 1) (key 1) 4096 demo_hash_size demo_ed_sizes) with (c := fresh) (ins := busy) as (c & E & Hc).
  - vm_compute. reflexivity.
  - vm_compute. discriminate.
  - apply fresh_ok.
  - apply busy_ok.
  - assert (busy_core = c) as <- by (unfold busy_core; by rewrite E). apply (inv_groups _ Hc g0).
    vm_compute. reflexivity.
Qed.

Lemma saved_group_reads_back_witness :
  (length (pending busy_state), length (ledger busy_state)) = (1%nat, 1%nat) /\
  state_decode (state_encode busy_state) =
    Ret (if is_ok (from_root (top (chain busy_state))) then Some busy_state else None).
Proof.
  split; [vm_compute; reflexivity|].
  apply (saved_group_reads_back busy_state (top (chain busy_state))); [apply busy_wf|vm_compute; reflexivity].
Defined.
