(* ===== verification/GroupDelivery.v ===== *)
(** * GroupDelivery: the delivery worker of a member

    Models the worker of [chat/group/service.rs]: one loop per member that
    takes the next owed item, attempts it over the network and reports the
    result to the engine.  The network attempt is an input, one [Round] per
    pass, with the shutdown flag the pass sees and what the rest of the program
    does to the engine before it takes the next item and during the attempt.
    Unless it is shut down, the worker leaves with nothing owed after at most
    one final result per item. *)

From S2P Require Import Prelude Bytes Text Codec ErasureCode Dissolve Group GroupState GroupRecord GroupStore GroupEngine GroupSafety.

Definition MAX_RESETS : Z := 2.

Inductive Outcome := Delivered | Permanent (why : str) | Retry (why : str) | ResetSession | Skip.

(** The end of [attempt]. *)
Definition outcome_of (a : AckStatus) : Outcome :=
  match a with
  | AStored | ADuplicate => Delivered
  | ANoSession => ResetSession
  | ANotAllowed => Permanent (lit "not_allowed")
  | ATooBig => Permanent (lit "too_big")
  | AUnsupported => Permanent (lit "unsupported")
  | ABadRequest => Permanent (lit "rejected")
  | ARate => Retry (lit "rate_limited")
  | ABusy => Retry (lit "peer_busy")
  | AFailed => Retry (lit "peer_failed")
  | AUnknown => Retry (lit "peer_status_unknown")
  end.

(** One pass of the loop: the shutdown flag, what the program did to the engine
    since the last pass, what it does during the attempt, what the attempt gave,
    whether holders took a hand-over offer, whether the wait was cut short by a
    wake, and the disk. *)
Record Round := mkRound {
  r_stop : bool; r_before : list (IO * Input); r_during : list (IO * Input);
  r_outcome : Outcome; r_deposited : bool; r_woken : bool; r_io : IO;
}.

(** How the worker ended: shut down, or nothing was owed. *)
Inductive Exit := ShutDown | NothingOwed.

Record Worker := mkWorker { failures : Z; resets : Z }.

Definition transient (why : str) : bool := bool_decide (why = lit "peer_busy") || bool_decide (why = lit "pqc_pending").
Definition is_hist (w : Work) : bool := match w with WHist _ _ _ => true | _ => false end.

Section Loop.
Context `{Crypto} `{Ed25519}.
Context (cfg : StoreSettings) (own secret : bytes) (max_text : Z).

(** [failures] after a wait. *)
Definition after_wait (woken : bool) (f : Z) : Z := if woken then 0 else f.

(** What the worker does with the result of one attempt. *)
Definition worker_result (c : Core) (peer : bytes) (w : Work) (st : Worker) (r : Round) : outcome (Core * Worker) :=
  match r_outcome r with
  | Delivered =>
      let! c := settle cfg (r_io r) (note_delivery c peer None) peer w true in Ret (c, mkWorker 0 0)
  | Skip => Ret (c, st)
  | Permanent why =>
      let! c := settle cfg (r_io r) (note_delivery c peer (Some why)) peer w false in Ret (c, mkWorker 0 (resets st))
  | ResetSession =>
      let n := wrapping_add u32_max (resets st) 1 in
      if MAX_RESETS <? n then Ret (c, mkWorker (after_wait (r_woken r) (wrapping_add u32_max (failures st) 1)) 0)
      else Ret (c, mkWorker (failures st) n)
  | Retry why =>
      let f := wrapping_add u32_max (failures st) 1 in
      let c := note_delivery c peer (if transient why then None else Some why) in
      if negb (transient why) && is_hist w && r_deposited r then
        let! c := settle cfg (r_io r) c peer w true in Ret (c, mkWorker f (resets st))
      else Ret (c, mkWorker (after_wait (r_woken r) f) (resets st))
  end.

(** One pass; [None] when nothing is owed and the worker leaves. *)
Definition worker_round (c : Core) (peer : bytes) (st : Worker) (r : Round) : outcome (option (Core * Worker)) :=
  let! o := next_for c peer in
  match o with
  | None => Ret None
  | Some (w, _) =>
      let! c := run cfg own secret max_text c (r_during r) in
      let! (c, st) := worker_result c peer w st r in Ret (Some (c, st))
  end.

(** The loop over the passes that happen; how the worker has left, if it has. *)
Fixpoint worker (c : Core) (peer : bytes) (st : Worker) (rs : list Round) : outcome (Core * option Exit) :=
  match rs with
  | [] => Ret (c, None)
  | r :: rs' =>
      if r_stop r then Ret (c, Some ShutDown)
      else
        let! c := run cfg own secret max_text c (r_before r) in
        let! o := worker_round c peer st r in
        match o with None => Ret (c, Some NothingOwed) | Some (c, st) => worker c peer st rs' end
  end.
End Loop.

(** ** What is owed to a member *)

Definition owed_in (peer : bytes) (s : GroupState) : nat :=
  length (filter (fun c => c_to c = peer) (ctrl s)) + length (filter (fun p => peer ∈ p_to p) (pending s)).

Definition owed_groups (peer : bytes) (gs : gmap bytes GroupState) : nat :=
  map_fold (fun _ s n => (owed_in peer s + n)%nat) 0%nat gs.

Definition owed (c : Core) (peer : bytes) : nat :=
  owed_groups peer (groups c) + length (default [] (hist c !! peer)).

(** Identifiers are random and the 64-bit counter has not wrapped. *)
Definition queue_ok (s : GroupState) : Prop :=
  NoDup (map p_id (pending s)) /\ Forall (fun p => 0 < p_counter p) (pending s).

Definition queues_ok (c : Core) : Prop := forall g s, groups c !! g = Some s -> queue_ok s.

Lemma owed_groups_delete peer gs g s :
  gs !! g = Some s -> owed_groups peer gs = (owed_in peer s + owed_groups peer (delete g gs))%nat.
Proof. intros Hg. unfold owed_groups. rewrite (map_fold_delete_L _ _ g s gs); [done|intros; lia|done]. Qed.

Lemma owed_groups_put peer gs g s s' :
  gs !! g = Some s ->
  (owed_groups peer (<[g := s']> gs) + owed_in peer s = owed_groups peer gs + owed_in peer s')%nat.
Proof.
  intros Hg. rewrite (owed_groups_delete peer gs g s Hg), (owed_groups_delete peer (<[g := s']> gs) g s').
  - rewrite delete_insert_eq. lia.
  - by rewrite lookup_insert_eq.
Qed.

Lemma owed_groups_zero peer gs : owed_groups peer gs = 0%nat <-> forall g s, gs !! g = Some s -> owed_in peer s = 0%nat.
Proof.
  split.
  - intros Hz g s Hg. rewrite (owed_groups_delete peer gs g s Hg) in Hz. lia.
  - unfold owed_groups. induction gs as [|g s gs Hg IH] using map_ind; intros Hall; [done|].
    rewrite map_fold_insert_L, IH, (Hall g s); [done|by rewrite lookup_insert_eq| |intros; lia|done].
    intros g' s' Hg'. apply (Hall g'). rewrite lookup_insert_ne; [done|congruence].
Qed.

(** ** What a result takes off *)

Definition pending_for (q : bytes) (pe : list PendingMsg) : nat := length (filter (fun p => q ∈ p_to p) pe).

Lemma pending_unsent q pe : pending_for q (unsent pe) = pending_for q pe.
Proof.
  unfold pending_for, unsent. induction pe as [|p pe IH]; [done|]. rewrite !filter_cons.
  destruct (decide (p_to p <> [])) as [_|Hn]; rewrite ?filter_cons; destruct (decide (q ∈ p_to p)) as [Hq|_]; simpl; try lia.
  destruct (p_to p); [by apply elem_of_nil in Hq|]. by destruct Hn.
Qed.

(** Take [peer] off the recipients of message [id]. *)
Definition strike (peer id : bytes) (pe : list PendingMsg) : list PendingMsg :=
  update_first (fun p => bool_decide (p_id p = id)) (fun p => with_to (filter (fun t => t <> peer) (p_to p)) p) pe.

Lemma strike_other q peer id pe : q <> peer -> pending_for q (strike peer id pe) = pending_for q pe.
Proof.
  intros Hq. unfold pending_for, strike. induction pe as [|p pe IH]; [done|]. cbn [update_first]. case_bool_decide.
  - rewrite !filter_cons. simpl. destruct (decide (q ∈ filter _ (p_to p))) as [H1|H1], (decide (q ∈ p_to p)) as [H2|H2]; try done.
    + by apply list_elem_of_filter in H1 as [_ ?].
    + exfalso. apply H1. by apply list_elem_of_filter.
  - rewrite !filter_cons. destruct (decide _); simpl; lia.
Qed.

Lemma strike_peer peer id pe p :
  NoDup (map p_id pe) -> p ∈ pe -> p_id p = id -> peer ∈ p_to p ->
  S (pending_for peer (strike peer id pe)) = pending_for peer pe.
Proof.
  intros Hnd Hp Hid Hto. unfold pending_for, strike. induction pe as [|x pe IH]; [by apply elem_of_nil in Hp|].
  cbn [map] in Hnd. apply NoDup_cons in Hnd as [Hx Hnd]. cbn [update_first]. case_bool_decide as Hb.
  - assert (x = p) as ->.
    { apply elem_of_cons in Hp as [?|Hp]; [done|]. exfalso. apply Hx. rewrite Hb, <- Hid. by apply list_elem_of_fmap; exists p. }
    rewrite !filter_cons. simpl. rewrite decide_False, decide_True; [done|done|]. by intros [? _]%list_elem_of_filter.
  - apply elem_of_cons in Hp as [->|Hp]; [done|]. rewrite !filter_cons. specialize (IH Hnd Hp).
    destruct (decide _); simpl; lia.
Qed.

Lemma strike_queue peer id pe :
  NoDup (map p_id pe) /\ Forall (fun p => 0 < p_counter p) pe ->
  NoDup (map p_id (unsent (strike peer id pe))) /\ Forall (fun p => 0 < p_counter p) (unsent (strike peer id pe)).
Proof.
  intros [Hnd Hc]. assert (map p_id (strike peer id pe) = map p_id pe) as Hids.
  { clear. unfold strike. induction pe as [|p pe IH]; [done|]. simpl. case_bool_decide; simpl; congruence. }
  split.
  - rewrite <- Hids in Hnd. eapply sublist_NoDup; [exact Hnd|]. apply fmap_sublist, sublist_filter.
  - apply Forall_forall. intros p [_ Hin]%list_elem_of_filter. revert p Hin. apply Forall_forall. by apply update_first_Forall.
Qed.

Lemma settle_fields s peer w dl :
  ctrl (settle_group s peer w dl) =
    match w with
    | WDescs _ => filter (fun c => owes peer KDescs c = false) (ctrl s)
    | WSync _ => filter (fun c => owes peer KSync c = false) (ctrl s)
    | _ => ctrl s
    end /\
  pending (settle_group s peer w dl) =
    match w with WText _ id => unsent (strike peer id (pending s)) | _ => pending s end.
Proof. destruct w; try by destruct s. simpl. unfold confirm. destruct dl, s; simpl; [by destruct (_ || _)|done]. Qed.

Lemma filter_filter_le {A} (P Q : A -> Prop) `{!forall x, Decision (P x), !forall x, Decision (Q x)} (l : list A) :
  (length (filter P (filter Q l)) <= length (filter P l))%nat.
Proof. induction l as [|y l IH]; [done|]. rewrite !filter_cons. destruct (decide (Q y)); rewrite ?filter_cons; destruct (decide (P y)); simpl; lia. Qed.

Lemma filter_filter_length {A} (P Q : A -> Prop) `{!forall x, Decision (P x), !forall x, Decision (Q x)} (l : list A) x :
  x ∈ l -> P x -> ~ Q x -> (length (filter P (filter Q l)) < length (filter P l))%nat.
Proof.
  intros Hx HP HQ. apply list_elem_of_split in Hx as (a & b & ->).
  pose proof (filter_filter_le P Q) as Hle.
  rewrite !filter_app, !length_app, !filter_cons, decide_False, decide_True by done. simpl.
  pose proof (Hle a). pose proof (Hle b). lia.
Qed.

Lemma filter_filter_same {A} (P Q : A -> Prop) `{!forall x, Decision (P x), !forall x, Decision (Q x)} (l : list A) :
  (forall x, x ∈ l -> P x -> Q x) -> filter P (filter Q l) = filter P l.
Proof.
  induction l as [|y l IH]; intros Hpq; [done|]. rewrite !filter_cons.
  assert (filter P (filter Q l) = filter P l) as Hl by (apply IH; intros x Hx; apply Hpq; by right).
  destruct (decide (Q y)) as [|HQ]; rewrite ?filter_cons; destruct (decide (P y)) as [HP|]; try congruence.
  exfalso. apply HQ, Hpq; [left|done].
Qed.

(** The other members' items stay. *)
Lemma settle_group_other q s peer w dl : q <> peer -> owed_in q (settle_group s peer w dl) = owed_in q s.
Proof.
  intros Hq. destruct (settle_fields s peer w dl) as [Hc Hp]. unfold owed_in. rewrite Hc, Hp. f_equal.
  - destruct w; try done.
    all: f_equal; apply filter_filter_same; intros c _ Hto; unfold owes; by rewrite bool_decide_eq_false_2 by congruence.
  - destruct w; try done. fold (pending_for q (unsent (strike peer id (pending s)))). by rewrite pending_unsent, strike_other.
Qed.

(** The item a worker was given. *)
Definition owes_in (s : GroupState) (peer : bytes) (w : Work) : Prop :=
  match w with
  | WDescs _ => exists ct, ct ∈ ctrl s /\ owes peer KDescs ct = true
  | WSync _ => exists ct, ct ∈ ctrl s /\ owes peer KSync ct = true
  | WText _ id => exists p, p ∈ pending s /\ p_id p = id /\ peer ∈ p_to p
  | WHist _ _ _ => False
  end.

Lemma settle_group_peer s peer w dl :
  queue_ok s -> owes_in s peer w -> (owed_in peer (settle_group s peer w dl) < owed_in peer s)%nat.
Proof.
  intros [Hnd _] Ho. destruct (settle_fields s peer w dl) as [Hc Hp]. unfold owed_in. rewrite Hc, Hp.
  assert (forall k ct, ct ∈ ctrl s -> owes peer k ct = true ->
    (length (filter (fun c => c_to c = peer) (filter (fun c => owes peer k c = false) (ctrl s))) <
     length (filter (fun c => c_to c = peer) (ctrl s)))%nat) as Hctrl.
  { intros k ct Hin Hk. apply (filter_filter_length _ _ _ ct Hin); [|congruence].
    unfold owes in Hk. apply andb_true_iff in Hk as [Hk _]. by apply bool_decide_eq_true in Hk. }
  destruct w as [g id|g|g|g to seq]; simpl in Ho; [| | |done].
  - destruct Ho as (p & Hin & Hid & Hto). pose proof (strike_peer peer id (pending s) p Hnd Hin Hid Hto) as E.
    fold (pending_for peer (unsent (strike peer id (pending s)))) (pending_for peer (pending s)). rewrite pending_unsent. lia.
  - destruct Ho as (ct & Hin & Hk). pose proof (Hctrl _ _ Hin Hk). lia.
  - destruct Ho as (ct & Hin & Hk). pose proof (Hctrl _ _ Hin Hk). lia.
Qed.

(** Whatever it was given, a result takes nothing on. *)
Lemma strike_le peer id pe : (pending_for peer (strike peer id pe) <= pending_for peer pe)%nat.
Proof.
  unfold pending_for, strike. induction pe as [|p pe IH]; [done|]. cbn [update_first]. case_bool_decide.
  - rewrite !filter_cons. cbn [with_to p_to]. rewrite decide_False by (by intros [? _]%list_elem_of_filter). destruct (decide _); simpl; lia.
  - rewrite !filter_cons. destruct (decide _); simpl; lia.
Qed.

Lemma settle_group_le s peer w dl : (owed_in peer (settle_group s peer w dl) <= owed_in peer s)%nat.
Proof.
  destruct (settle_fields s peer w dl) as [Hc Hp]. unfold owed_in. rewrite Hc, Hp. destruct w as [g id|g|g|g to seq]; [| | |done].
  - fold (pending_for peer (unsent (strike peer id (pending s)))) (pending_for peer (pending s)). rewrite pending_unsent.
    pose proof (strike_le peer id (pending s)). lia.
  - pose proof (filter_filter_le (fun c => c_to c = peer) (fun c => owes peer KDescs c = false) (ctrl s)). lia.
  - pose proof (filter_filter_le (fun c => c_to c = peer) (fun c => owes peer KSync c = false) (ctrl s)). lia.
Qed.

Lemma settle_group_queue s peer w dl : queue_ok s -> queue_ok (settle_group s peer w dl).
Proof.
  intros Hq. unfold queue_ok. destruct (settle_fields s peer w dl) as [_ ->]. destruct w; try done. by apply strike_queue.
Qed.

(** ** The next item *)

Lemma first_some_spec {A B} (f : A -> option B) l :
  match first_some f l with
  | Some y => exists x, x ∈ l /\ f x = Some y
  | None => forall x, x ∈ l -> f x = None
  end.
Proof.
  unfold first_some. destruct (filter _ l) as [|x xs] eqn:E.
  - intros x Hx. destruct (f x) eqn:Hf; [|done]. exfalso. apply (elem_of_nil x). rewrite <- E.
    apply list_elem_of_filter. split; [by rewrite Hf; eexists|done].
  - assert (x ∈ filter (fun x => is_Some (f x)) l) as [[y Hy] Hin]%list_elem_of_filter by (rewrite E; left).
    rewrite Hy. by exists x.
Qed.

Lemma min_counter_spec pe : match min_counter pe with Some p => p ∈ pe | None => pe = [] end.
Proof.
  destruct pe as [|p pe]; [done|]. simpl. assert (forall a l, fold_left (fun a x => if p_counter x <? p_counter a then x else a) l a ∈ a :: l) as H.
  { intros a l. revert a. induction l as [|x l IH]; intros a; simpl; [left|]. destruct (_ <? _).
    - right. apply IH.
    - destruct (elem_of_cons l (fold_left (fun a0 x0 => if p_counter x0 <? p_counter a0 then x0 else a0) l a) a) as [Hel _].
      destruct (Hel (IH a)) as [->|?]; [left|right; by right]. }
  apply H.
Qed.

Definition owes_work (c : Core) (peer : bytes) (w : Work) : Prop :=
  match w with
  | WHist _ to seq => to = peer /\ exists q j, hist c !! peer = Some q /\ j ∈ q /\ j_seq j = seq
  | WText g _ | WDescs g | WSync g => exists s, groups c !! g = Some s /\ owes_in s peer w
  end.

Section Progress.
Context `{Crypto} `{Ed25519}.
Context (cfg : StoreSettings).

Lemma groups_elem c s : s ∈ map snd (btree (groups c)) -> exists g, groups c !! g = Some s.
Proof. intros ([g s'] & -> & Hin%btree_elem)%list_elem_of_fmap. by exists g. Qed.

Lemma elem_groups c g s : groups c !! g = Some s -> s ∈ map snd (btree (groups c)).
Proof. intros Hg%btree_elem. apply list_elem_of_fmap. by exists (g, s). Qed.

(** A group without a control item or a message for the member. *)
Lemma nothing_owed peer s : ctrl_for peer s = None -> text_for peer s = None -> owed_in peer s = 0%nat.
Proof.
  intros Hc Ht. unfold owed_in. assert (filter (fun c => c_to c = peer) (ctrl s) = []) as ->.
  { apply filter_none. intros c Hin Hto. apply list_elem_of_In in Hin.
    pose proof (find_none _ _ Hc _ Hin) as Hf. simpl in Hf. by apply bool_decide_eq_false in Hf. }
  unfold text_for in Ht. pose proof (min_counter_spec (filter (fun p => peer ∈ p_to p) (pending s))) as Hm.
  rewrite Ht in Hm. by rewrite Hm.
Qed.

Lemma next_ctrl c peer st ct :
  Inv c -> st ∈ map snd (btree (groups c)) -> ctrl_for peer st = Some ct ->
  exists l w plain, latest (chain st) = Ret l /\ owes_work c peer w /\
    match c_kind ct with
    | KDescs => pair (WDescs (gid l)) <$> result_ok (encode_descs (newest_that_fit (items (chain st))))
    | KSync => Some (WSync (gid l), encode_sync (gid l) (c_arg ct))
    end = Some (w, plain).
Proof.
  intros Hc (g & Hg)%groups_elem Hct. pose proof (inv_groups _ Hc _ _ Hg) as Hok.
  destruct (group_latest g st Hok) as (l & Hl & Hgl & _). exists l.
  apply find_some in Hct as [Hin Hto]. apply list_elem_of_In in Hin. apply bool_decide_eq_true in Hto.
  destruct (c_kind ct) eqn:Hk.
  - destruct (sw_chain _ (proj1 Hok)) as [Hch Hd]. pose proof Hl as Hl2. unfold latest in Hl2.
    destruct (last (items (chain st))) as [l'|] eqn:Hlast; [|done].
    destruct (newest_that_fit_sends _ _ Hd Hlast) as (older & _ & _ & Henc & _).
    { pose proof (co_len _ Hch). unfold MAX_CHAIN in *. lia. }
    exists (WDescs (gid l)), (descs_bytes (newest_that_fit (items (chain st)))). split_and!; [done| |by rewrite Henc].
    exists st. rewrite Hgl. split; [done|]. exists ct. split; [done|]. unfold owes. by rewrite !bool_decide_eq_true_2.
  - exists (WSync (gid l)), (encode_sync (gid l) (c_arg ct)). split_and!; [done| |done].
    exists st. rewrite Hgl. split; [done|]. exists ct. split; [done|]. unfold owes. by rewrite !bool_decide_eq_true_2.
Qed.

Lemma next_text c peer st p :
  Inv c -> queues_ok c -> st ∈ map snd (btree (groups c)) -> text_for peer st = Some p ->
  exists l plain, latest (chain st) = Ret l /\ owes_work c peer (WText (gid l) (p_id p)) /\
    result_ok (text_encode (mkText (gid l) (p_epoch p) (p_counter p) (p_id p) (p_sent_ms p) (p_text p))) = Some plain.
Proof.
  intros Hc Hq (g & Hg)%groups_elem Hp. pose proof (inv_groups _ Hc _ _ Hg) as Hok.
  destruct (group_latest g st Hok) as (l & Hl & Hgl & _). unfold text_for in Hp.
  pose proof (min_counter_spec (filter (fun p => peer ∈ p_to p) (pending st))) as Hm. rewrite Hp in Hm.
  apply list_elem_of_filter in Hm as [Hto Hin]. destruct (sw_pending _ (proj1 Hok)) as [_ Hpw].
  rewrite Forall_forall in Hpw. destruct (Hpw p Hin) as [_ _ [_ Hlen] _]. destruct (Hq g st Hg) as [_ Hcn].
  rewrite Forall_forall in Hcn. specialize (Hcn p Hin). simpl in Hcn.
  eexists l, _. split_and!; [done| |].
  - exists st. rewrite Hgl. split; [done|]. by exists p.
  - unfold text_encode, bad_body. simpl. rewrite (proj2 (Z.eqb_neq _ _)), (proj2 (Z.ltb_ge _ _)), (proj2 (Z.eqb_neq _ _)) by lia.
    reflexivity.
Qed.

(** The engine gives an item as long as one is owed, and it always encodes. *)
Lemma next_for_spec c peer :
  Inv c -> queues_ok c ->
  exists o, next_for c peer = Ret o /\
    match o with None => owed c peer = 0%nat | Some (w, _) => owes_work c peer w end.
Proof.
  intros Hc Hq. unfold next_for.
  pose proof (first_some_spec (fun st => pair st <$> ctrl_for peer st) (map snd (btree (groups c)))) as H1.
  destruct (first_some _ (map snd (btree (groups c)))) as [[st ct]|].
  { destruct H1 as (x & Hin & Hx). destruct (ctrl_for peer x) as [ct'|] eqn:Hct; [|done]. injection Hx as -> ->.
    destruct (next_ctrl c peer st ct Hc Hin Hct) as (l & w & plain & -> & Hw & E). cbn [outcome_bind]. rewrite E. by eexists. }
  pose proof (first_some_spec (fun st => pair st <$> text_for peer st) (map snd (btree (groups c)))) as H2.
  destruct (first_some _ (map snd (btree (groups c)))) as [[st p]|].
  { destruct H2 as (x & Hin & Hx). destruct (text_for peer x) as [p'|] eqn:Hp; [|done]. injection Hx as -> ->.
    destruct (next_text c peer st p Hc Hq Hin Hp) as (l & plain & -> & Hw & E). cbn [outcome_bind]. rewrite E. by eexists. }
  assert (owed_groups peer (groups c) = 0%nat) as Hz.
  { apply owed_groups_zero. intros g s Hg%elem_groups. apply nothing_owed; [specialize (H1 s Hg)|specialize (H2 s Hg)];
      simpl in *; [by destruct (ctrl_for peer s)|by destruct (text_for peer s)]. }
  eexists. split; [reflexivity|]. unfold owed. rewrite Hz.
  destruct (hist c !! peer) as [[|j q]|] eqn:Hhist; [done| |done].
  split; [done|]. exists (j :: q), j. split_and!; [done|left|done].
Qed.

Lemma owed_group_step c c' g s s' q :
  groups c !! g = Some s -> groups c' = <[g := s']> (groups c) -> hist c' = hist c ->
  (owed c' q + owed_in q s = owed c q + owed_in q s')%nat.
Proof. intros Hg Hg' Hh. unfold owed. rewrite Hg', Hh. pose proof (owed_groups_put q (groups c) g s s' Hg). lia. Qed.

(** A result for a group's item: one item less for this member, none for others. *)
Lemma settle_in_group io c peer g s w dl :
  Inv c -> queues_ok c -> array 32 peer -> groups c !! g = Some s ->
  exists c' ok, save cfg io (put_group g (settle_group s peer w dl) c) (settle_group s peer w dl) = Ret (c', ok) /\
    Inv c' /\ queues_ok c' /\ (owed c' peer <= owed c peer)%nat /\ (owes_in s peer w -> (owed c' peer < owed c peer)%nat) /\
    forall q, q <> peer -> owed c' q = owed c q.
Proof.
  intros Hc Hq Hp Hg. pose proof (inv_groups _ Hc _ _ Hg) as Hok. set (s' := settle_group s peer w dl).
  assert (group_ok g s') as Hok'.
  { apply (group_ok_ext g s); [apply settle_group_chain|apply wf_settle_group; [apply Hok|done]|done]. }
  destruct (save_put_ok cfg io c g s' Hc) as (c1 & ok1 & E1 & Hc1 & _); [by eexists|done|].
  destruct (save_eq cfg io (put_group g s' c) g s' Hok') as (ds & ok & E & _).
  exists c1, ok1. assert (c1 = set_store (with_docs ds (store (put_group g s' c))) (put_group g s' c)) as Hc1' by congruence.
  assert (groups c1 = <[g := s']> (groups c) /\ hist c1 = hist c) as [Hgs Hh] by (subst c1; by destruct c).
  split_and!; [done|done| | | |].
  - intros g' x. rewrite Hgs, lookup_insert_Some. intros [[<- <-]|[_ ?]]; [|by eapply Hq].
    apply settle_group_queue. by eapply Hq.
  - pose proof (owed_group_step c c1 g s s' peer Hg Hgs Hh). pose proof (settle_group_le s peer w dl : (owed_in peer s' <= _)%nat). lia.
  - intros Ho. pose proof (owed_group_step c c1 g s s' peer Hg Hgs Hh).
    assert (owed_in peer s' < owed_in peer s)%nat by (apply settle_group_peer; [by eapply Hq|done]). lia.
  - intros q Hne. pose proof (owed_group_step c c1 g s s' q Hg Hgs Hh).
    assert (owed_in q s' = owed_in q s) by (by apply settle_group_other). lia.
Qed.

(** A result for an item, which may have been withdrawn meanwhile. *)
Definition work_to (peer : bytes) (w : Work) : Prop := match w with WHist _ to _ => to = peer | _ => True end.

Lemma owes_work_to c peer w : owes_work c peer w -> work_to peer w.
Proof. by destruct w; [| | |intros [? _]]. Qed.

Lemma settle_hist c peer g seq :
  let c' := match hist c !! peer with
            | Some q => let q := filter (fun j => j_seq j <> seq) q in
                        set_hist (if (length q =? 0)%nat then delete peer (hist c) else <[peer := q]> (hist c)) (hist_seq c) c
            | None => c
            end in
  groups c' = groups c /\ store c' = store c /\ (owed c' peer <= owed c peer)%nat /\
  (owes_work c peer (WHist g peer seq) -> (owed c' peer < owed c peer)%nat) /\ forall q, q <> peer -> owed c' q = owed c q.
Proof.
  cbv zeta. destruct (hist c !! peer) as [q|] eqn:Hh.
  2: { split_and!; try done. intros [_ (q & j & Hq & _)]. congruence. }
  set (rest := filter (fun j => j_seq j <> seq) q). pose proof (length_filter (fun j => j_seq j <> seq) q) as Hle. fold rest in Hle.
  assert (owed (set_hist (if (length rest =? 0)%nat then delete peer (hist c) else <[peer := rest]> (hist c)) (hist_seq c) c) peer =
          owed_groups peer (groups c) + length rest)%nat as Ho.
  { unfold owed. destruct c; simpl in *. destruct (Nat.eqb_spec (length rest) 0) as [Hz|Hz]; [rewrite lookup_delete_eq; simpl; lia|by rewrite lookup_insert_eq]. }
  split_and!; [by destruct c|by destruct c|rewrite Ho; unfold owed; rewrite Hh; simpl; lia| |].
  - intros [_ (q' & j & Hq & Hj & Hs)]. assert (q' = q) as -> by congruence. rewrite Ho. unfold owed. rewrite Hh. simpl.
    enough (length rest < length q)%nat by lia. subst rest. apply list_elem_of_split in Hj as (a & b & ->).
    rewrite filter_app, filter_cons, decide_False by (intros H'; by apply H'). rewrite !length_app. simpl.
    pose proof (length_filter (fun x => j_seq x <> seq) a). pose proof (length_filter (fun x => j_seq x <> seq) b). lia.
  - intros q' Hne. unfold owed. destruct c; simpl in *. f_equal. do 2 f_equal. destruct (_ =? _)%nat; [by rewrite lookup_delete_ne|by rewrite lookup_insert_ne].
Qed.

Lemma settle_effect io c peer w dl :
  Inv c -> queues_ok c -> array 32 peer -> work_to peer w ->
  exists c', settle cfg io c peer w dl = Ret c' /\ Inv c' /\ queues_ok c' /\ (owed c' peer <= owed c peer)%nat /\
    (owes_work c peer w -> (owed c' peer < owed c peer)%nat) /\ forall q, q <> peer -> owed c' q = owed c q.
Proof.
  intros Hc Hq Hp Hw. assert (forall g, (forall s, groups c !! g = Some s -> owes_work c peer w -> owes_in s peer w) ->
    (groups c !! g = None -> ~ owes_work c peer w) ->
    exists c', match groups c !! g with
               | None => Ret c
               | Some st => let st := settle_group st peer w dl in let! (c, _) := save cfg io (put_group g st c) st in Ret c
               end = Ret c' /\ Inv c' /\ queues_ok c' /\ (owed c' peer <= owed c peer)%nat /\
      (owes_work c peer w -> (owed c' peer < owed c peer)%nat) /\ forall q, q <> peer -> owed c' q = owed c q) as Hgroup.
  { intros g H1 H2. destruct (groups c !! g) as [s|] eqn:Hg; cbv zeta.
    - destruct (settle_in_group io c peer g s w dl Hc Hq Hp Hg) as (c' & ok & -> & E1 & E2 & E3 & E4 & E5). cbn [outcome_bind].
      exists c'. split_and!; auto.
    - exists c. split_and!; try done. intros Ho. by destruct (H2 eq_refl). }
  destruct w as [g id|g|g|g to seq]; cbn [work_to] in Hw; [..|subst to].
  1-3: apply Hgroup; [intros s Hs (s' & Hs' & Ho); congruence|intros Hn (s' & Hs' & _); congruence].
  destruct (settle_hist c peer g seq) as (E1 & E2 & E3 & E4 & E5). eexists. split; [reflexivity|].
  split_and!; [apply (Inv_ext c); [done|by rewrite E2|done]|intros g' s'; rewrite E1; apply Hq|done|done|done].
Qed.

(** What stays as it was when only the reasons change. *)
Lemma note_same c peer why :
  groups (note_delivery c peer why) = groups c /\ hist (note_delivery c peer why) = hist c /\
  store (note_delivery c peer why) = store c.
Proof. unfold note_delivery. destruct why, c; by try destruct (_ || _). Qed.

(** A final result: the item is delivered or given up. *)
Definition final (r : Round) : bool := match r_outcome r with Delivered | Permanent _ => true | _ => false end.

Lemma worker_result_ok c peer w st r :
  Inv c -> queues_ok c -> array 32 peer -> work_to peer w ->
  exists c' st', worker_result cfg c peer w st r = Ret (c', st') /\ Inv c' /\ queues_ok c' /\ (owed c' peer <= owed c peer)%nat /\
    (owes_work c peer w -> (owed c' peer + Nat.b2n (final r) <= owed c peer)%nat) /\ forall q, q <> peer -> owed c' q = owed c q.
Proof.
  intros Hc Hq Hp Hw.
  assert (forall why, Inv (note_delivery c peer why) /\ queues_ok (note_delivery c peer why) /\
    (owes_work (note_delivery c peer why) peer w <-> owes_work c peer w) /\ forall q, owed (note_delivery c peer why) q = owed c q) as Hn.
  { intros why. destruct (note_same c peer why) as (Hg & Hh & Hs). split_and!.
    - by apply (Inv_ext c); [|rewrite Hs|].
    - intros g s. rewrite Hg. apply Hq.
    - unfold owes_work. by rewrite Hg, Hh.
    - intros q. unfold owed. by rewrite Hg, Hh. }
  assert (forall why dl, exists c', settle cfg (r_io r) (note_delivery c peer why) peer w dl = Ret c' /\ Inv c' /\
    queues_ok c' /\ (owed c' peer <= owed c peer)%nat /\ (owes_work c peer w -> (owed c' peer + 1 <= owed c peer)%nat) /\
    forall q, q <> peer -> owed c' q = owed c q) as Hset.
  { intros why dl. destruct (Hn why) as (N1 & N2 & N3 & N4).
    destruct (settle_effect (r_io r) _ peer w dl N1 N2 Hp Hw) as (c' & -> & I1 & I2 & I3 & I4 & I5).
    exists c'. rewrite <- (N4 peer). split_and!; [done|done|done|lia|intros Ho%N3%I4; lia|]. intros q Hne. by rewrite I5, N4. }
  unfold worker_result, final. destruct (r_outcome r) as [|why|why| |]; cbn [Nat.b2n].
  - destruct (Hset None true) as (c' & -> & ?). cbn [outcome_bind]. eauto.
  - destruct (Hset (Some why) false) as (c' & -> & ?). cbn [outcome_bind]. eauto.
  - destruct (Hn (if transient why then None else Some why)) as (N1 & N2 & N3 & N4). destruct (_ && _ && _).
    + destruct (Hset (if transient why then None else Some why) true) as (c' & -> & I1 & I2 & I3 & I4 & I5). cbn [outcome_bind].
      eexists _, _. split; [reflexivity|]. split_and!; [done|done|done|intros ?; lia|done].
    + eexists _, _. split; [reflexivity|]. split_and!; [done|done|rewrite N4; lia|intros ?; rewrite N4; lia|done].
  - destruct (_ <? _); eexists _, _; (split; [reflexivity|]); split_and!; done || lia.
  - eexists _, _. split; [reflexivity|]. split_and!; done || lia.
Qed.

(** ** The whole loop *)

Context (own secret : bytes) (max_text : Z).
Abbreviation run := (run cfg own secret max_text).

(** What is added to the work while the worker runs: items that the program
    queues, and final results for items that it withdrew during the attempt. *)
Fixpoint extra (c : Core) (peer : bytes) (st : Worker) (rs : list Round) : nat :=
  match rs with
  | [] => 0
  | r :: rs' =>
      if r_stop r then 0
      else match run c (r_before r) with
      | Panic => 0
      | Ret c1 =>
          (owed c1 peer - owed c peer) +
          match next_for c1 peer with
          | Ret (Some (w, _)) =>
              match run c1 (r_during r) with
              | Panic => 0
              | Ret c2 =>
                  (owed c2 peer - owed c1 peer) +
                  match worker_result cfg c2 peer w st r with
                  | Panic => 0
                  | Ret (c3, st') => (if final r && (owed c3 peer =? owed c2 peer)%nat then 1 else 0) + extra c3 peer st' rs'
                  end
              end
          | _ => 0
          end
      end
  end%nat.

(** Message ids stay apart and counters positive, whatever is queued. *)
Fixpoint queues_run (c : Core) (peer : bytes) (st : Worker) (rs : list Round) : Prop :=
  match rs with
  | [] => True
  | r :: rs' =>
      match run c (r_before r) with
      | Panic => True
      | Ret c1 =>
          queues_ok c1 /\
          match next_for c1 peer with
          | Ret (Some (w, _)) =>
              match run c1 (r_during r) with
              | Panic => True
              | Ret c2 =>
                  queues_ok c2 /\
                  match worker_result cfg c2 peer w st r with Panic => True | Ret (c3, st') => queues_run c3 peer st' rs' end
              end
          | _ => True
          end
      end
  end.

(** The same by evaluation. *)
Definition queue_check (s : GroupState) : bool :=
  bool_decide (NoDup (map p_id (pending s))) && forallb (fun p => 0 <? p_counter p) (pending s).
Definition queues_okb (c : Core) : bool := forallb (fun x => queue_check x.2) (map_to_list (groups c)).

Lemma queues_okb_ok c : queues_okb c = true -> queues_ok c.
Proof.
  intros Hb g s Hg. apply elem_of_map_to_list, list_elem_of_In in Hg. apply (proj1 (forallb_forall _ _) Hb) in Hg. cbn in Hg.
  apply andb_true_iff in Hg as [H1%bool_decide_eq_true H2]. split; [done|]. apply Forall_forall. intros p Hp%list_elem_of_In.
  apply (proj1 (forallb_forall _ _) H2) in Hp. by apply Z.ltb_lt in Hp.
Qed.

Fixpoint queues_runb (c : Core) (peer : bytes) (st : Worker) (rs : list Round) : bool :=
  match rs with
  | [] => true
  | r :: rs' =>
      match run c (r_before r) with
      | Panic => true
      | Ret c1 =>
          queues_okb c1 &&
          match next_for c1 peer with
          | Ret (Some (w, _)) =>
              match run c1 (r_during r) with
              | Panic => true
              | Ret c2 =>
                  queues_okb c2 &&
                  match worker_result cfg c2 peer w st r with Panic => true | Ret (c3, st') => queues_runb c3 peer st' rs' end
              end
          | _ => true
          end
      end
  end.

Lemma queues_check rs c peer st : queues_runb c peer st rs = true -> queues_run c peer st rs.
Proof.
  revert c st. induction rs as [|r rs IH]; intros c st; cbn [queues_runb queues_run]; [done|]. destruct (run c (r_before r)) as [c1|]; [|done].
  intros [H1%queues_okb_ok H2]%andb_true_iff. split; [done|]. destruct (next_for c1 peer) as [[[w x]|]|]; [|done..].
  destruct (run c1 (r_during r)) as [c2|]; [|done]. apply andb_true_iff in H2 as [H2%queues_okb_ok H3]. split; [done|].
  destruct (worker_result cfg c2 peer w st r) as [[c3 st3]|]; [by apply IH|done].
Qed.

Definition round_ok (r : Round) : Prop :=
  Forall (fun x => input_ok x.2) (r_before r) /\ Forall (fun x => input_ok x.2) (r_during r).

(** Nothing else happens to the engine. *)
Definition alone (r : Round) : Prop := r_before r = [] /\ r_during r = [].

Context (Hh : hash_size) (He : ed_sizes) (Ho : ed_public secret = own) (Hm : max_text <= MAX_TEXT_BYTES).

Lemma worker_ok rs c peer st :
  Inv c -> Forall round_ok rs -> queues_run c peer st rs -> array 32 peer ->
  exists c' e, worker cfg own secret max_text c peer st rs = Ret (c', e) /\
    (e = Some NothingOwed -> next_for c' peer = Ret None /\ owed c' peer = 0%nat) /\
    (e = Some ShutDown -> exists r, r ∈ rs /\ r_stop r = true) /\
    (e = None -> owed c' peer + length (filter (fun r => final r = true) rs) <= owed c peer + extra c peer st rs)%nat /\
    (Forall alone rs -> extra c peer st rs = 0%nat /\ forall q, q <> peer -> owed c' q = owed c q).
Proof.
  intros Hc Hrs Hq Hp. revert c st Hc Hq. induction Hrs as [|r rs [Hb Hd] _ IH]; intros c st Hc Hq; cbn [worker extra queues_run] in *.
  { exists c, None. split_and!; [done|done|done|intros _; simpl; lia|done]. }
  destruct (r_stop r) eqn:Hstop.
  { exists c, (Some ShutDown). split_and!; [done|done|intros _; exists r; by split; [left|]|done|done]. }
  destruct (run_ok cfg own secret max_text Hh He Ho Hm c (r_before r) Hc Hb) as (c1 & E1 & Hc1). rewrite E1 in *. cbn [outcome_bind].
  destruct Hq as [Hq1 Hq2]. assert (alone r -> c1 = c) as Ha1 by (intros [Hn _]; rewrite Hn in E1; cbn in E1; congruence).
  unfold worker_round. destruct (next_for_spec c1 peer Hc1 Hq1) as ([[w plain]|] & Hn & Hw); rewrite Hn in *; cbn [outcome_bind].
  2: { exists c1, (Some NothingOwed). split_and!; [done|done|done|done|]. intros [Ha _]%Forall_cons. rewrite (Ha1 Ha). split; [lia|done]. }
  destruct (run_ok cfg own secret max_text Hh He Ho Hm c1 (r_during r) Hc1 Hd) as (c2 & E2 & Hc2). rewrite E2 in *. cbn [outcome_bind].
  assert (alone r -> c2 = c1) as Ha2 by (intros [_ Hn']; rewrite Hn' in E2; cbn in E2; congruence).
  destruct Hq2 as [Hq2 Hq3].
  destruct (worker_result_ok c2 peer w st r Hc2 Hq2 Hp (owes_work_to _ _ _ Hw)) as (c3 & st3 & E3 & Hc3 & Hq3' & Hle & Hlt & Hoth). rewrite E3 in *. cbn [outcome_bind].
  destruct (IH c3 st3 Hc3 Hq3) as (c' & e & -> & L1 & L2 & L3 & L4). exists c', e. split_and!; [done|done| | |].
  - intros (r' & Hr & Hs)%L2. exists r'. split; [by right|done].
  - intros Hl. specialize (L3 Hl). rewrite filter_cons. destruct (final r); [rewrite decide_True by done|rewrite decide_False by done; simpl; lia].
    cbn [andb length]. destruct (Nat.eqb_spec (owed c3 peer) (owed c2 peer)); lia.
  - intros [Ha Hrest]%Forall_cons. destruct (L4 Hrest) as [L5 L6]. rewrite (Ha2 Ha), (Ha1 Ha) in *. split.
    + rewrite L5. specialize (Hlt Hw). destruct (final r); cbn [Nat.b2n andb] in *; [|lia]. destruct (Nat.eqb_spec (owed c3 peer) (owed c peer)); lia.
    + intros q Hne. by rewrite L6, Hoth.
Qed.
End Progress.

(** C20. Delivery to a member ends: at any point of any history, whatever other
    parts of the program do to the engine between the passes and during the
    attempts, the worker of a member never panics, and unless the program is
    shut down it never stops while an item is owed.  Each final result takes an
    item off, so after more final results than items were owed at first, were
    queued meanwhile or were withdrawn during their attempt, the worker has left
    with nothing owed to that member, whatever refusals, retries and session
    resets came in between.  When nothing else touches the engine, nothing is
    queued or withdrawn and the items of every other member stay.  The ids of
    queued messages are random: they are taken to be distinct. *)
Theorem delivery_terminates `{Crypto} `{Ed25519} (cfg : StoreSettings) (own secret : bytes) (max_text : Z)
    (ins : list (IO * Input)) (c : Core) (peer : bytes) (st : Worker) (rs : list Round) :
  hash_size -> ed_sizes -> ed_public secret = own -> max_text <= MAX_TEXT_BYTES ->
  Forall (fun x => input_ok x.2) ins -> run cfg own secret max_text fresh ins = Ret c ->
  Forall round_ok rs -> queues_run cfg own secret max_text c peer st rs -> array 32 peer ->
  exists c' e, worker cfg own secret max_text c peer st rs = Ret (c', e) /\
    (Forall (fun r => r_stop r = false) rs ->
     (owed c peer + extra cfg own secret max_text c peer st rs < length (filter (fun r => final r = true) rs))%nat -> e = Some NothingOwed) /\
    (e = Some NothingOwed -> next_for c' peer = Ret None /\ owed c' peer = 0%nat) /\
    (Forall alone rs -> extra cfg own secret max_text c peer st rs = 0%nat /\ forall q, q <> peer -> owed c' q = owed c q).
Proof.
  intros Hh He Ho Hm Hi Hr Hrs Hq Hp. destruct (run_ok cfg own secret max_text Hh He Ho Hm fresh ins fresh_ok Hi) as (c0 & E & Hc).
  assert (c0 = c) as -> by congruence. destruct (worker_ok cfg own secret max_text Hh He Ho Hm rs c peer st Hc Hrs Hq Hp) as (c' & e & Hw & L1 & L2 & L3 & L4).
  exists c', e. split_and!; [done| |done|done]. intros Hstop Hlt. destruct e as [[|]|]; [|done|specialize (L3 eq_refl); lia].
  destruct (L2 eq_refl) as (r & Hin & Hs). rewrite Forall_forall in Hstop. rewrite (Hstop r Hin) in Hs. discriminate.
Qed.

Module DeliveryDemo.
Import GroupDemo EngineDemo.

(** Device 1 after two messages to 2 and 3. *)
Definition sent : list (IO * Input) :=
  made ++ [(good, ISend g0 (lit "hello") 2000 (replicate 16 9)); (good, ISend g0 (lit "again") 2001 (replicate 16 8))].

Definition core : Core := match run settings (key 1) (key 1) 4096 fresh sent with Ret c => c | Panic => fresh end.

(** Member 2 is busy at first; a third message is queued while it loses the
    session; it takes all and is gone. *)
Definition more : list (IO * Input) := [(good, ISend g0 (lit "third") 2002 (replicate 16 7))].
Definition rounds : list Round :=
  map (fun x => mkRound false [] x.1 x.2 false false good)
    [([], Retry (lit "peer_busy")); ([], Delivered); (more, ResetSession); ([], Delivered); ([], Permanent (lit "too_big")); ([], Delivered); ([], Delivered)].

Lemma sent_ok : Forall (fun x => input_ok x.2) sent.
Proof.
  unfold sent, made. cbn [app]. repeat apply Forall_cons_2; [..|apply Forall_nil; exact I]; cbn [input_ok snd].
  - split_and!; [by apply text_check| |ulia|apply same_array; ulia].
    repeat apply Forall_cons_2; [..|by apply Forall_nil]; (split; [apply same_array; ulia|by apply text_check]).
  - split_and!; [by apply text_check|ulia|apply same_array; ulia].
  - split_and!; [by apply text_check|ulia|apply same_array; ulia].
Qed.

Lemma rounds_ok : Forall round_ok rounds.
Proof.
  unfold rounds. cbn [map]. repeat (apply Forall_cons; split); [..|by apply Forall_nil]; split; cbn [r_before r_during fst]; try by apply Forall_nil.
  apply Forall_singleton. cbn [input_ok snd]. split_and!; [by apply text_check|ulia|apply same_array; ulia].
Qed.
End DeliveryDemo.
Import GroupDemo EngineDemo DeliveryDemo.

Lemma delivery_terminates_witness :
  owed core (key 2) = 3%nat /\ extra settings (key 1) (key 1) 4096 core (key 2) (mkWorker 0 0) rounds = 1%nat /\
  exists c', worker settings (key 1) (key 1) 4096 core (key 2) (mkWorker 0 0) rounds = Ret (c', Some NothingOwed) /\ owed c' (key 2) = 0%nat.
Proof.
  split; [vm_compute; reflexivity|]. split; [vm_compute; reflexivity|].
  assert (queues_run settings (key 1) (key 1) 4096 core (key 2) (mkWorker 0 0) rounds) as Hq by (apply queues_check; vm_compute; reflexivity).
  destruct (delivery_terminates settings (key 1) (key 1) 4096 sent core (key 2) (mkWorker 0 0) rounds demo_hash_size demo_ed_sizes
    ltac:(vm_compute; reflexivity) ltac:(vm_compute; discriminate) sent_ok ltac:(vm_compute; reflexivity) rounds_ok Hq ltac:(apply same_array; ulia))
    as (c' & e & Hw & H1 & H2 & _).
  assert (e = Some NothingOwed) as -> by (apply H1; [apply Forall_forall; by intros r [x [-> _]]%list_elem_of_fmap|vm_compute; lia]). exists c'. split; [exact Hw|by apply H2].
Defined.
