(* ===== verification/GroupViews.v ===== *)
(** * GroupViews: what the group engine shows

    Models the read-only operations of [chat/group/engine.rs]: finding a group,
    the summaries and details for the screen, the page of messages, and the
    members that have something waiting for them. *)

From S2P Require Import Prelude Bytes Text Codec ErasureCode Dissolve Group GroupState GroupRecord GroupStore GroupEngine GroupDisplay GroupSafety GroupDelivery.

(** [chat::store::MAX_PAGE]. *)
Definition MAX_PAGE : nat := 200.

Record GroupSummary := mkSummary {
  gs_gid : bytes; gs_name : str; gs_epoch : Z; gs_status : Status; gs_members : nat;
  gs_messages : Z; gs_last_ms : Z; gs_pending : nat;
}.

Inductive MemberStatus := MYou | MJoined | MInvited | MUnreachable (why : str) | MNoGroupSupport.

Record MemberView := mkMemberView {
  mv_id : bytes; mv_role : GRole; mv_hint : str; mv_verified : bool; mv_you : bool; mv_status : MemberStatus;
}.

Record GroupDetail := mkDetail {
  gd_summary : GroupSummary; gd_members : list MemberView; gd_is_admin : bool; gd_my_counter : Z; gd_added_by : option bytes;
}.

Record MessageView := mkMessageView { v_msg : GroupMsg; v_delivery : option (Z * Z * Z); v_gap : Z }.

Definition means_no_group_support (reason : str) : bool :=
  bool_decide (reason = lit "peer_no_group") || bool_decide (reason = lit "unsupported").

Definition summary_of (st : GroupState) : outcome GroupSummary :=
  let! l := latest (chain st) in
  Ret (mkSummary (gid l) (d_name l) (epoch l) (status st) (length (members l)) (count st) (last_ms st)
         (sum_list (map (fun p => length (p_to p)) (pending st)))).

(** Newest first, then by name; the sort is stable. *)
Definition summary_le (a b : GroupSummary) : bool :=
  (gs_last_ms b <? gs_last_ms a) || ((gs_last_ms a =? gs_last_ms b) && str_leb (gs_name a) (gs_name b)).

Fixpoint insert_summary (x : GroupSummary) (l : list GroupSummary) : list GroupSummary :=
  match l with [] => [x] | y :: l' => if summary_le x y then x :: l else y :: insert_summary x l' end.

Fixpoint all_summaries (sts : list GroupState) : outcome (list GroupSummary) :=
  match sts with
  | [] => Ret []
  | st :: sts' => let! x := summary_of st in let! xs := all_summaries sts' in Ret (x :: xs)
  end.

Definition list_groups (c : Core) : outcome (list GroupSummary) :=
  let! xs := all_summaries (map snd (btree (groups c))) in Ret (foldr insert_summary [] xs).

(** ** Finding a group *)

Definition ascii_lower (c : Z) : Z := if is_ascii_upper c then c + 32 else c.
Definition to_ascii_lowercase (s : str) : str := map ascii_lower s.
Definition is_ascii_hexdigit (c : Z) : bool :=
  is_ascii_digit c || ((65 <=? c) && (c <=? 70)) || ((97 <=? c) && (c <=? 102)).
Definition eq_ignore_ascii_case (a b : str) : bool := bool_decide (to_ascii_lowercase a = to_ascii_lowercase b).

Definition starts_with (p s : str) : bool := bool_decide (p `prefix_of` s).

(** The groups with this name, in key order. *)
Fixpoint named (sel : str) (gs : list (bytes * GroupState)) : outcome (list bytes) :=
  match gs with
  | [] => Ret []
  | (k, st) :: gs' =>
      let! l := latest (chain st) in
      let! ks := named sel gs' in
      Ret (if eq_ignore_ascii_case (d_name l) sel then k :: ks else ks)
  end.

Definition by_prefix (lower : str) (c : Core) : list bytes :=
  if (4 <=? str_len lower) && forallb is_ascii_hexdigit lower
  then filter (fun k => starts_with lower (hex_encode k) = true) (map fst (btree (groups c))) else [].

Definition resolve (c : Core) (sel : str) : outcome (result bytes GroupError) :=
  let sel := trim sel in
  match by_prefix (to_ascii_lowercase sel) c with
  | [k] => Ret (Ok k)
  | _ :: _ :: _ => Ret (Err GAmbiguous)
  | [] =>
      let! hits := named sel (btree (groups c)) in
      Ret (match hits with [] => Err GNotFound | [k] => Ok k | _ => Err GAmbiguous end)
  end.

Section Views.
Context `{Crypto} `{Ed25519}.
Context (cfg : StoreSettings) (own : bytes).

Definition member_status (c : Core) (st : GroupState) (id : bytes) : MemberStatus :=
  if bool_decide (id = own) then MYou
  else if bool_decide (id ∈ confirmed st) || bool_decide (is_Some (vectors st !! id)) then MJoined
  else match reasons c !! id with
       | Some r => if means_no_group_support r then MNoGroupSupport else MUnreachable r
       | None => MInvited
       end.

Definition detail (trusted : bytes -> bool) (c : Core) (g : bytes) : outcome (result GroupDetail GroupError) :=
  match groups c !! g with
  | None => Ret (Err GNotFound)
  | Some st =>
      let! l := latest (chain st) in
      let! sm := summary_of st in
      Ret (Ok (mkDetail sm
        (map (fun m => mkMemberView (m_id m) (m_role m) (m_hint m) (negb (bool_decide (m_id m = own)) && trusted (m_id m))
                         (bool_decide (m_id m = own)) (member_status c st (m_id m))) (members l))
        (is_admin l own) (my_counter st) (added_by st)))
  end.

Definition members_of (c : Core) (g : bytes) : outcome (list bytes) :=
  match groups c !! g with
  | Some st => let! l := latest (chain st) in Ret (map m_id (members l))
  | None => Ret []
  end.

Definition vector_of (c : Core) (g sender : bytes) : option (Z * Z * Z) :=
  st ← groups c !! g; v ← vectors st !! sender; Some (floor v, highest v, missing v).

(** [sort] and [dedup] of the collected members: a set in its order. *)
Definition peers_with_work (c : Core) : list bytes :=
  let out := flat_map (fun st => map c_to (ctrl st) ++ flat_map p_to (pending st)) (map snd (btree (groups c))) in
  merge_sort (fun a b => str_leb a b = true) (remove_dups out).

(** [history]; the ledger is collected into a map, the last entry of an id wins. *)
Definition ledger_entry (st : GroupState) (id : bytes) : option LedgerEntry :=
  find (fun e => bool_decide (l_id e = id)) (rev (ledger st)).

Definition history (c : Core) (g : bytes) (before : option Z) (limit : nat) :
    outcome (result (list MessageView) GroupError) :=
  let limit := Nat.min (Nat.max limit 1) MAX_PAGE in
  match groups c !! g with
  | None => Ret (Err GNotFound)
  | Some st =>
      let! win := page cfg (store c) g before limit in
      Ret (Ok (map (fun mg => mkMessageView mg.1
                 (if outgoing mg.1
                  then (fun e => (l_total e, l_delivered e, l_failed e)) <$> ledger_entry st (gm_id mg.1) else None) mg.2)
               (display_order win)))
  end.
End Views.

(** ** What is shown is right *)

Lemma peers_elem c p :
  p ∈ peers_with_work c <-> exists g s, groups c !! g = Some s /\ (p ∈ map c_to (ctrl s) \/ p ∈ flat_map p_to (pending s)).
Proof.
  unfold peers_with_work. rewrite merge_sort_Permutation, elem_of_remove_dups, list_elem_of_In, in_flat_map. split.
  - intros (s & Hs & Hp). apply list_elem_of_In, groups_elem in Hs as [g Hg]. exists g, s. split; [done|].
    apply list_elem_of_In, elem_of_app in Hp. done.
  - intros (g & s & Hg & Hp). exists s. split; [by apply list_elem_of_In, (elem_groups c g)|].
    by apply list_elem_of_In, elem_of_app.
Qed.

Lemma owed_in_pos p s : (0 < owed_in p s)%nat <-> p ∈ map c_to (ctrl s) \/ p ∈ flat_map p_to (pending s).
Proof.
  assert (forall A (l : list A), (0 < length l)%nat <-> exists x, x ∈ l) as Hl.
  { intros A l. destruct l as [|x l]; simpl; split; [lia|intros [y Hy]; by apply elem_of_nil in Hy|intros _; exists x; left|lia]. }
  unfold owed_in. transitivity ((0 < length (filter (fun c => c_to c = p) (ctrl s)))%nat \/ (0 < length (filter (fun q => p ∈ p_to q) (pending s)))%nat); [lia|].
  rewrite !Hl. f_equiv.
  - rewrite list_elem_of_fmap. split; [intros (x & [<- ?]%list_elem_of_filter); by exists x|intros (x & -> & ?)].
    exists x. by apply list_elem_of_filter.
  - rewrite list_elem_of_In, in_flat_map. split.
    + intros (q & [? ?]%list_elem_of_filter). exists q. by rewrite <- !list_elem_of_In.
    + intros (q & ? & ?). exists q. apply list_elem_of_filter. by rewrite !list_elem_of_In.
Qed.

(** After a restart nobody is forgotten: the list of members to wake is sorted
    and without repeats, and it has a member exactly when some group owes it a
    message, descriptors or a request. *)
Theorem peers_with_work_exact (c : Core) :
  NoDup (peers_with_work c) /\ StronglySorted (fun a b => str_leb a b = true) (peers_with_work c) /\
  forall p, p ∈ peers_with_work c <-> (0 < owed_groups p (groups c))%nat.
Proof.
  split_and!.
  - unfold peers_with_work. rewrite merge_sort_Permutation. apply NoDup_remove_dups.
  - apply StronglySorted_merge_sort; [intros a b d; apply str_leb_trans|].
    intros a b. destruct (str_leb a b) eqn:E; [by left|right]. by apply str_leb_total.
  - intros p. rewrite peers_elem. setoid_rewrite <- owed_in_pos. split.
    + intros (g & s & Hg & Hp). destruct (owed_groups p (groups c)) eqn:Hz; [|lia].
      apply owed_groups_zero with (g := g) (s := s) in Hz; [lia|done].
    + intros Hp. destruct (decide (map_Forall (fun _ s => owed_in p s = 0%nat) (groups c))) as [Hall|Hn].
      * assert (owed_groups p (groups c) = 0%nat); [|lia]. apply owed_groups_zero. intros g s Hg. by apply (Hall g).
      * apply map_not_Forall in Hn as (g & s & Hg & Hs); [|intros; apply _]. exists g, s. split; [done|lia].
Qed.

(** The page on the screen: of a group the device has, [history] gives at most
    200 messages, exactly those of the page of the store, each sender's in the
    order of its counters; it fails only for a group that is not there. *)
Theorem history_shows_page (cfg : StoreSettings) (c : Core) (g : bytes) (before : option Z) (limit : nat) :
  exists win, page cfg (store c) g before (Nat.min (Nat.max limit 1) MAX_PAGE) = Ret win /\ (length win <= MAX_PAGE)%nat /\
    match groups c !! g with
    | None => history cfg c g before limit = Ret (Err GNotFound)
    | Some _ => exists vs, history cfg c g before limit = Ret (Ok vs) /\ map v_msg vs ≡ₚ win /\
        forall i j a b, vs !! i = Some a -> vs !! j = Some b -> (i < j)%nat ->
          m_sender (v_msg a) = m_sender (v_msg b) -> m_counter (v_msg a) <= m_counter (v_msg b)
    end.
Proof.
  destruct (page_ok cfg (store c) g before (Nat.min (Nat.max limit 1) MAX_PAGE)) as (win & Hp & _ & Hl); [unfold MAX_PAGE; lia|].
  exists win. split_and!; [done|lia|]. unfold history. destruct (groups c !! g) as [st|]; [|done]. rewrite Hp. cbn [outcome_bind].
  eexists. split; [reflexivity|]. split.
  - rewrite map_map. simpl. apply display_perm.
  - intros i j a b Ha Hb. rewrite list_lookup_fmap in Ha, Hb.
    destruct (display_order win !! i) as [x|] eqn:Hx; [|done]. destruct (display_order win !! j) as [y|] eqn:Hy; [|done].
    injection Ha as <-. injection Hb as <-. simpl. intros Hij. by eapply display_sorted.
Qed.
