(* ===== verification/GroupAdmission.v ===== *)
(** * GroupAdmission: what gets into a group and into its log

    Three properties of the engine of [GroupEngine] against any peer: who can
    make this device a member, what a received record may add to the saved
    messages, and that no message of a sender is saved twice. *)

From S2P Require Import Prelude Bytes Text Codec ErasureCode Dissolve Group GroupState GroupRecord GroupStore GroupEngine GroupSafety.

(** Take an outcome apart that is known to return. *)
Ltac unbind H :=
  match type of H with
  | outcome_bind ?e _ = Ret _ =>
      let E := fresh "E" in
      destruct e as [?|] eqn:E; [cbn [outcome_bind] in H|discriminate H]
  end.

(** ** Operations that do not touch the vectors *)

Lemma owe_vectors s to k arg : vectors (owe s to k arg).1 = vectors s.
Proof. destruct (owe_shape s to k arg) as [ct ->]. by destruct s. Qed.

Lemma owe_all_vectors s tos k arg : vectors (owe_all s tos k arg) = vectors s.
Proof. destruct (owe_all_shape s tos k arg) as [ct ->]. by destruct s. Qed.

Lemma prune_to_vectors listed s : vectors (prune_to listed s) = vectors s.
Proof. destruct (prune_to_shape listed s) as (pe & le & ct & ->). by destruct s. Qed.

Lemma confirm_vectors s peer : vectors (confirm s peer).1 = vectors s.
Proof. destruct (confirm_shape s peer) as [cf ->]. by destruct s. Qed.

Lemma settle_group_vectors s peer w dl : vectors (settle_group s peer w dl) = vectors s.
Proof. destruct (settle_group_shape s peer w dl) as (pe & le & ct & cf & ->). by destruct s. Qed.

Lemma mark_handover_vectors s to ep : vectors (mark_handover s to ep).1 = vectors s.
Proof. destruct (mark_handover_shape s to ep) as [hd ->]. by destruct s. Qed.

Lemma prune_vectors s s' : prune s = Ret s' -> vectors s' = vectors s.
Proof. unfold prune. intros H. unbind H. injection H as <-. apply prune_to_vectors. Qed.

Section Admission.
Context `{Crypto} `{Ed25519}.
Context (cfg : StoreSettings) (own secret : bytes) (max_text : Z).

Lemma become_member_vectors s by_ s' os : become_member own s by_ = Ret (s', os) -> vectors s' = vectors s.
Proof. unfold become_member. intros E1. unbind E1. injection E1 as <- _. rewrite owe_all_vectors. by destruct s. Qed.

Lemma confirm_listed_vectors s peer s' b : confirm_listed s peer = Ret (s', b) -> vectors s' = vectors s.
Proof.
  unfold confirm_listed. intros E1. unbind E1. pose proof (confirm_vectors s peer) as Hv. injection E1 as E1.
  destruct (is_member _ peer); [rewrite E1 in Hv; done|]. by injection E1 as <- _.
Qed.

Lemma standing_vectors trusted aj s peer s' j k : standing own trusted aj s peer = Ret (s', j, k) -> vectors s' = vectors s.
Proof.
  unfold standing. intros E1. unbind E1.
  assert ((if trusted peer then
        let! (st, _) := confirm_listed (set_confirmed [] s) peer in
        if aj : bool then let! (st, os) := become_member own st peer in Ret (st, true, os)
        else Ret (set_status (Pending peer) st, false, [])
      else Ret (s, false, [])) = Ret (s', j, k) -> vectors s' = vectors s) as Hback.
  { destruct (trusted peer); [|by intros [= <- _ _]]. intros E2. unbind E2. destruct a0 as [s1 b].
    apply confirm_listed_vectors in E0. assert (vectors s1 = vectors s) as Hv by (rewrite E0; by destruct s). destruct aj.
    - unbind E2. destruct a0 as [s2 os]. apply become_member_vectors in E3. by injection E2 as <- _ _; congruence.
    - injection E2 as <- _ _. rewrite <- Hv. by destruct s1. }
  destruct (status s), (is_member _ own); auto; injection E1 as <- _ _; by destruct s.
Qed.

(** ** Frames: neither the logs nor the vectors change *)

Definition vecs (c : Core) : gmap bytes (gmap bytes SenderVec) := vectors <$> groups c.
Definition logged (c : Core) : gmap bytes (list GroupMsg) * list (bytes * GroupMsg) := (logs (store c), ring (store c)).
Definition frame (c c' : Core) : Prop := logged c' = logged c /\ vecs c' = vecs c.

Lemma frame_refl c : frame c c.
Proof. done. Qed.
Lemma frame_trans c1 c2 c3 : frame c1 c2 -> frame c2 c3 -> frame c1 c3.
Proof. intros [? ?] [? ?]. split; congruence. Qed.
Lemma frame_event c g k m : frame c (push_event c g k m).
Proof. by destruct c. Qed.
Lemma frame_put c g s s' : groups c !! g = Some s -> vectors s' = vectors s -> frame c (put_group g s' c).
Proof.
  intros Hg Hv. split; [by destruct c|]. destruct c; unfold vecs; simpl in *. rewrite fmap_insert, Hv.
  apply insert_id. by rewrite lookup_fmap, Hg.
Qed.
Lemma frame_save io c s c' ok : save cfg io c s = Ret (c', ok) -> frame c c'.
Proof.
  unfold save. destruct (defer_flush cfg); [by intros [= <- _]|]. intros E1. unbind E1. unfold write_doc in E1.
  destruct (io_doc io); injection E1 as <- _; by destruct c.
Qed.
Lemma frame_note c peer why : frame c (note_delivery c peer why).
Proof. unfold note_delivery. destruct why, c; by try destruct (_ || _). Qed.

Lemma frame_save_put io c g s s' c' ok :
  groups c !! g = Some s -> vectors s' = vectors s -> save cfg io (put_group g s' c) s' = Ret (c', ok) -> frame c c'.
Proof. intros Hg Hv Hs. eapply frame_trans; [by eapply frame_put|by eapply frame_save]. Qed.

Lemma live_frame c g s : live_group c g = Ok s -> groups c !! g = Some s.
Proof. intros Hl. by apply live_group_some in Hl as [? _]. Qed.

Lemma announce_frame io c g s s' notify c' r :
  groups c !! g = Some s -> vectors s' = vectors s -> announce cfg io c g s' notify = Ret (c', r) -> frame c c'.
Proof.
  intros Hg Hv. unfold announce. intros E1. unbind E1. destruct a as [c1 ok].
  assert (frame c c1) as Hf by (eapply frame_save_put; [exact Hg| |exact E]; by rewrite owe_all_vectors).
  destruct ok; injection E1 as <- _; [|done]. eapply frame_trans; [exact Hf|apply frame_event].
Qed.

Lemma set_chain_vectors ch s : vectors (set_chain ch s) = vectors s.
Proof. by destruct s. Qed.
Lemma set_status_vectors st s : vectors (set_status st s) = vectors s.
Proof. by destruct s. Qed.

Lemma add_frame io c g new c' r : add cfg own secret io c g new = Ret (c', r) -> frame c c'.
Proof.
  unfold add. destruct (live_group c g) as [s|e] eqn:Hl; [|by intros [= <- _]]. apply live_frame in Hl. intros E1. unbind E1.
  destruct (negb _); [by injection E1 as <- _|]. destruct (_ <? _)%nat; [by injection E1 as <- _|].
  destruct (append_members _ _) as [ms|e]; [|by injection E1 as <- _]. unbind E1. destruct a0 as [ch r1].
  destruct r1; [|injection E1 as <- _; by eapply frame_put; [|apply set_chain_vectors]]. unbind E1.
  eapply announce_frame; [exact Hl| |exact E1]. apply set_chain_vectors.
Qed.

Lemma remove_frame io c g who c' r : remove cfg own secret io c g who = Ret (c', r) -> frame c c'.
Proof.
  unfold remove. destruct (live_group c g) as [s|e] eqn:Hl; [|by intros [= <- _]]. apply live_frame in Hl. intros E1. unbind E1.
  destruct (negb _); [by injection E1 as <- _|]. destruct (bool_decide _); [by injection E1 as <- _|].
  destruct (negb _); [by injection E1 as <- _|]. unbind E1. destruct a0 as [ch r1].
  destruct r1; [|injection E1 as <- _; by eapply frame_put; [|apply set_chain_vectors]]. unbind E1. unbind E1.
  apply prune_vectors in E2. eapply announce_frame; [exact Hl| |exact E1]. rewrite E2. apply set_chain_vectors.
Qed.

Lemma leave_frame io c g c' r : leave cfg own secret io c g = Ret (c', r) -> frame c c'.
Proof.
  unfold leave. destruct (live_group c g) as [s|e] eqn:Hl; [|by intros [= <- _]]. apply live_frame in Hl. intros E1. unbind E1.
  destruct (_ =? _)%nat.
  { unbind E1. destruct a0 as [c1 ok]. injection E1 as <- _. eapply frame_save_put; [exact Hl| |exact E0]. apply set_status_vectors. }
  destruct (_ && _); [by injection E1 as <- _|]. unbind E1. destruct a0 as [ch r1].
  destruct r1; [|injection E1 as <- _; by eapply frame_put; [|apply set_chain_vectors]].
  eapply announce_frame; [exact Hl| |exact E1]. by rewrite set_status_vectors, set_chain_vectors.
Qed.

Lemma accept_frame io c g c' r : accept_invite cfg own io c g = Ret (c', r) -> frame c c'.
Proof.
  unfold accept_invite. destruct (groups c !! g) as [s|] eqn:Hg; [|by intros [= <- _]].
  destruct (status s); try by intros [= <- _]. intros E1. unbind E1. destruct a as [s1 os]. unbind E1. destruct a as [c1 ok].
  assert (frame c c1) as Hf by (eapply frame_save_put; [exact Hg| |exact E0]; by eapply become_member_vectors).
  destruct ok; injection E1 as <- _; [|done]. eapply frame_trans; [exact Hf|apply frame_event].
Qed.

Lemma settle_frame io c peer w dl c' : settle cfg io c peer w dl = Ret c' -> frame c c'.
Proof.
  assert (forall g, match groups c !! g with
      | None => Ret c
      | Some st => let st := settle_group st peer w dl in
                   let! (c, _) := save cfg io (put_group g st c) st in Ret c
      end = Ret c' -> frame c c') as Hgroup.
  { intros g. destruct (groups c !! g) as [s|] eqn:Hg; [|by intros [= <-]]. cbv zeta. intros E1. unbind E1. destruct a as [c1 ok].
    injection E1 as <-. eapply frame_save_put; [exact Hg| |exact E]. apply settle_group_vectors. }
  destruct w as [g id|g|g|g to seq]; [apply Hgroup..|]. unfold settle. intros [= <-].
  destruct (hist c !! to); by destruct c.
Qed.

Lemma handover_frame io c g to c' r : handover cfg own io c g to = Ret (c', r) -> frame c c'.
Proof.
  unfold handover. destruct (bool_decide _); [by intros [= <- _]|].
  destruct (live_group c g) as [s|e] eqn:Hl; [|by intros [= <- _]]. apply live_frame in Hl. intros E1. unbind E1.
  destruct (negb _); [by injection E1 as <- _|]. pose proof (mark_handover_vectors s to (epoch a)) as Hv.
  destruct (mark_handover s to (epoch a)) as [s1 first]. simpl in Hv. destruct (negb first); [by injection E1 as <- _|].
  unbind E1. destruct a0 as [c1 ok]. assert (frame c c1) as Hf by (by eapply frame_save_put).
  pose proof E0 as Hsv. unfold save in Hsv.
  assert (groups c1 = <[g := s1]> (groups c)) as Hg1.
  { destruct (defer_flush cfg); [injection Hsv as <- _; by destruct c|]. unbind Hsv. destruct (write_doc _ _ _ _).
    injection Hsv as <- _. by destruct c. }
  destruct (negb ok).
  - injection E1 as <- _. eapply frame_trans; [exact Hf|]. eapply (frame_put _ _ s1); [by rewrite Hg1, lookup_insert_eq|by destruct s1].
  - unbind E1. destruct (_ =? _)%nat; injection E1 as <- _; [done|]. eapply frame_trans; [exact Hf|]. by destruct c1.
Qed.

Lemma flush_frame io c c' : flush_all io c = Ret c' -> frame c c'.
Proof.
  unfold flush_all. intros E1. unbind E1. injection E1 as <-.
  assert (forall gs sto sto', flush_groups io sto gs = Ret sto' -> logs sto' = logs sto /\ ring sto' = ring sto) as Hall.
  { induction gs as [|[g s] gs IH]; intros sto sto'; cbn [flush_groups]; [by intros [= <-]|]. intros E1. unbind E1.
    apply IH in E1 as [-> ->]. unfold flush_group in E0. unbind E0. injection E0 as <-. unfold write_doc. by destruct (io_doc _). }
  apply Hall in E as [? ?]. split; [|by destruct c]. unfold logged. destruct c; simpl in *. congruence.
Qed.

(** ** What recording a message does to the saved messages *)

Lemma evict_suffix r b : exists pre, r = pre ++ (evict cfg r b).1.
Proof.
  revert b. induction r as [|[k m] r IH]; intros b; simpl; [by exists []|]. destruct (_ <? _); [|by exists []].
  destruct (IH (sat_sub b (cost m))) as [pre Hp]. exists ((k, m) :: pre). simpl. congruence.
Qed.

(** The messages of a group after one was recorded in group [g]. *)
Definition after (sto : Store) (g : bytes) (m : GroupMsg) (g' : bytes) : list GroupMsg :=
  saved cfg sto g' ++ (if decide (g' = g) then [m] else []).

Lemma store_record_saved io sto g m n g' : saved cfg (store_record cfg io sto g m n).1 g' `sublist_of` after sto g m g'.
Proof.
  unfold store_record, after, saved. destruct (history_save cfg); cbn [negb].
  - destruct (bool_decide _); [by apply sublist_inserts_r|].
    assert (forall x, x `sublist_of` log_of sto g ++ [m] ->
      log_of (mkStore (docs sto) (<[g := x]> (logs sto)) (ring sto) (ring_bytes sto)) g' `sublist_of`
      log_of sto g' ++ (if decide (g' = g) then [m] else [])) as Hx.
    { intros x Hx. unfold log_of at 1. cbn [logs]. destruct (decide (g' = g)) as [->|Hne].
      - by rewrite lookup_insert_eq.
      - rewrite lookup_insert_ne, app_nil_r by done. done. }
    destruct (_ && _); [by apply Hx|]. destruct (_ <? _); [|by apply Hx]. destruct (io_rewrite io); [|by apply Hx]. apply Hx, sublist_filter.
  - destruct (evict_suffix (ring sto ++ [(g, m)]) (ring_bytes sto + cost m)) as [pre Hp].
    destruct (evict cfg _ _) as [r b]. cbn [fst ring] in *.
    assert (map snd (filter (fun km => km.1 = g') (ring sto ++ [(g, m)])) =
            map snd (filter (fun km => km.1 = g') (ring sto)) ++ (if decide (g' = g) then [m] else [])) as Hs.
    { rewrite filter_app, map_app. f_equal. rewrite filter_cons. simpl.
      destruct (decide (g = g')), (decide (g' = g)); try congruence; done. }
    rewrite <- Hs, Hp, filter_app, map_app. by apply sublist_inserts_l.
Qed.

(** The rewrite of a log succeeds, and so does the flush of an append that is in
    the file: then a failure leaves the store as it was. *)
Definition io_calm (io : IO) : Prop := io_rewrite io = true /\ io_append io <> Unsynced.

Lemma store_record_failed io sto g m n :
  io_calm io -> (store_record cfg io sto g m n).2 = false -> (store_record cfg io sto g m n).1 = sto.
Proof.
  intros [Hio Ha]. unfold store_record. destruct (history_save cfg); cbn [negb].
  - destruct (bool_decide (io_append io = NotAppended)); [done|]. rewrite (bool_decide_eq_false_2 (io_append io = Unsynced)) by done. cbn [andb].
    destruct (_ <? _); [|done]. by rewrite Hio.
  - by destruct (evict cfg _ _).
Qed.

(** Equal but for the number the log gives it. *)
Definition same_msg (m m' : GroupMsg) : Prop :=
  outgoing m' = outgoing m /\ m_sender m' = m_sender m /\ m_counter m' = m_counter m /\ gm_id m' = gm_id m /\
  m_sent_ms m' = m_sent_ms m /\ at_ms m' = at_ms m /\ m_epoch m' = m_epoch m /\ m_text m' = m_text m /\ shared_by m' = shared_by m.

Lemma record_locked_effect io sto g s m sto' s' ok :
  group_ok g s -> record_locked cfg io sto s m = Ret (sto', s', ok) ->
  exists m', same_msg m m' /\ vectors s' = vectors s /\
    (forall g', saved cfg sto' g' `sublist_of` after sto g m' g') /\ (io_calm io -> ok = false -> sto' = sto).
Proof.
  intros Hs E1. destruct (group_latest g s Hs) as (l & Hl & <- & _). unfold record_locked in E1. rewrite Hl in E1.
  cbn [outcome_bind] in E1. destruct (if next_ord s =? 0 then _ else _) as [no cn].
  match type of E1 with context [store_record cfg io sto _ ?m' ?n] =>
    pose proof (store_record_saved io sto (gid l) m' n) as Hsv; pose proof (store_record_failed io sto (gid l) m' n) as Hf;
    destruct (store_record cfg io sto (gid l) m' n) as [sto1 ok1]; exists m' end.
  injection E1 as <- <- <-. split_and!; [by repeat split|by destruct s|exact Hsv|exact Hf].
Qed.

Lemma record_received_effect io c g s m finish_ c' a :
  group_ok g s -> groups c !! g = Some s -> (forall s, vectors (finish_ s) = vectors s) ->
  record_received cfg io c g s m finish_ = Ret (c', a) ->
  exists m', same_msg m m' /\ (forall g', saved cfg (store c') g' `sublist_of` after (store c) g m' g') /\
    (vecs c' = <[g := vectors (mark_vector s (m_sender m) (m_counter m))]> (vecs c) \/
     vecs c' = vecs c /\ (io_calm io -> logged c' = logged c)).
Proof.
  intros Hs Hg Hfin E1. unfold record_received in E1. unbind E1. destruct a0 as [[sto s1] ok].
  destruct (record_locked_effect _ _ _ _ _ _ _ _ Hs E) as (m' & Hm & Hv & Hsv & Hf). exists m'. split; [done|].
  assert (forall cx, logged cx = (logs sto, ring sto) -> forall g', saved cfg (store cx) g' `sublist_of` after (store c) g m' g') as Hsaved.
  { intros cx [= Hlx Hrx] g'. specialize (Hsv g'). unfold saved at 1, log_of at 1. rewrite Hlx, Hrx. exact Hsv. }
  destruct ok; cbn [negb] in E1.
  - unbind E1. destruct a0 as [c1 ok]. set (s2 := finish_ _) in *.
    assert (vectors s2 = vectors (mark_vector s (m_sender m) (m_counter m))) as Hv2.
    { unfold s2. rewrite Hfin. unfold mark_vector. rewrite Hv. by destruct s1, s. }
    apply frame_save in E0 as [Hl1 Hv1].
    assert (logged c1 = (logs sto, ring sto) /\ vecs c1 = <[g := vectors s2]> (vecs c)) as [Hl Hvc].
    { rewrite Hl1, Hv1. split; [by destruct c|]. destruct c; unfold vecs; simpl. by rewrite fmap_insert. }
    destruct (negb ok); injection E1 as <- _.
    + split; [by apply Hsaved|]. left. by rewrite Hvc, Hv2.
    + split; [apply Hsaved; by destruct c1|]. left. rewrite <- Hv2, <- Hvc. by destruct c1.
  - injection E1 as <- _. split; [apply Hsaved; by destruct c|]. right. split.
    + assert (vectors (set_log (next_ord s) (count s) (last_ms s) s1) = vectors s) as Hv' by (rewrite <- Hv; by destruct s1).
      assert (groups (set_store sto c) !! g = Some s) as Hg' by (by destruct c).
      destruct (frame_put (set_store sto c) g s _ Hg' Hv') as [_ ->]. by destruct c.
    + intros Hio. rewrite (Hf Hio eq_refl). by destruct c.
Qed.

(** ** What a record of a peer may do *)

Section Peer.
Context (trusted : bytes -> bool).

(** A message a peer may add to the log of [g]: the device is in the group,
    the newest list has the peer, the text is not empty and not too long, the
    counter is new.  The message is the peer's own, with a known epoch and short
    if the peer is not trusted, or it is history the peer hands over, of someone
    who is or was a member. *)
Definition admitted (c : Core) (peer : bytes) (now : Z) (g : bytes) (m : GroupMsg) : Prop :=
  exists s l, groups c !! g = Some s /\ status s = Joined /\ latest (chain s) = Ret l /\ is_member l peer = true /\
    outgoing m = false /\ at_ms m = now /\ 0 < str_len (m_text m) <= max_text /\
    vector_known s (m_sender m) (m_counter m) = false /\ 1 <= m_counter m <= u64_max /\
    ((m_sender m = peer /\ shared_by m = None /\ m_epoch m <= epoch l /\
      (trusted peer = false -> str_len (m_text m) <= UNVERIFIED_MAX_TEXT)) \/
     (shared_by m = Some peer /\ m_sender m <> own /\ ever_member (chain s) (m_sender m) = true)).

(** What became of the messages and vectors: nothing, a new group, or one
    admitted message. *)
Definition new_group (c c' : Core) : Prop :=
  exists g, groups c !! g = None /\ logged c' = logged c /\ vecs c' = <[g := ∅]> (vecs c).

Definition one_message (io : IO) (c : Core) (peer : bytes) (now : Z) (c' : Core) : Prop :=
  exists g s m m', groups c !! g = Some s /\ admitted c peer now g m /\ same_msg m m' /\
    (forall g', saved cfg (store c') g' `sublist_of` after (store c) g m' g') /\
    (vecs c' = <[g := vectors (mark_vector s (m_sender m) (m_counter m))]> (vecs c) \/
     vecs c' = vecs c /\ (io_calm io -> logged c' = logged c)).

Lemma handle_text_effect io c peer t now c' a k :
  Inv c -> record_wf (RText t) -> handle_text cfg max_text trusted io c peer t now = Ret (c', a, k) ->
  frame c c' \/ one_message io c peer now c'.
Proof.
  intros Hc (_ & _ & _ & _ & _ & Htl & Hn). unfold handle_text.
  destruct (groups c !! t_gid t) as [s|] eqn:Hg; [|intros [= <- _ _]; by left].
  destruct (status s) eqn:Hst; try (intros [= <- _ _]; by left). intros E1. unbind E1. rename a0 into l.
  destruct (Z.ltb_spec (epoch l) (t_epoch t)) as [|Hep].
  { pose proof (owe_vectors s peer KSync (epoch l)) as Hv. destruct (owe s peer KSync (epoch l)) as [s1 owed]. simpl in Hv.
    left. destruct owed; [unbind E1; destruct a0 as [c1 ok]; injection E1 as <- _ _; by eapply frame_save_put|].
    injection E1 as <- _ _. by eapply frame_put. }
  destruct (is_member l peer) eqn:Hm; cbn [negb] in E1; [|injection E1 as <- _ _; by left].
  destruct (_ || _) eqn:Hsize; [injection E1 as <- _ _; by left|]. apply orb_false_iff in Hsize as [Hs1 Hs2].
  destruct (vector_known _ _ _) eqn:Hk; [injection E1 as <- _ _; by left|].
  destruct (vectors_full s peer); [injection E1 as <- _ _; by left|].
  unbind E1. destruct a0 as [c1 a1]. injection E1 as <- _ _. right.
  destruct (record_received_effect _ _ _ _ _ _ _ _ (inv_groups _ Hc _ _ Hg) Hg (fun s => confirm_vectors s peer) E0) as (m' & Hm' & Hsv & Hvec).
  exists (t_gid t), s, (mkMsg 0 false peer (t_counter t) (t_id t) (t_sent_ms t) now (t_epoch t) (t_text t) None), m'.
  split_and!; [done| |done|done|done]. exists s, l. simpl. split_and!; try done; [lia|lia|lia|lia|]. left.
  split_and!; [done|done|done|]. intros Ht. rewrite Ht in Hs2. simpl in Hs2. lia.
Qed.

Lemma handle_hist_effect io c peer o now c' a :
  Inv c -> record_wf (RHistOffer o) -> handle_hist_offer cfg own max_text io c peer o now = Ret (c', a) ->
  frame c c' \/ one_message io c peer now c'.
Proof.
  intros Hc (_ & _ & _ & _ & _ & _ & Htl & Hn). unfold handle_hist_offer.
  destruct (groups c !! o_gid o) as [s|] eqn:Hg; [|intros [= <- _]; by left].
  destruct (status s) eqn:Hst; try (intros [= <- _]; by left). intros E1. unbind E1. rename a0 into l.
  destruct (is_member l peer) eqn:Hm; cbn [negb] in E1; [|injection E1 as <- _; by left].
  destruct (_ || _) eqn:Hwho; [injection E1 as <- _; by left|]. apply orb_false_iff in Hwho as [Hw1 Hw2].
  destruct (Z.ltb_spec max_text (str_len (o_text o))); [injection E1 as <- _; by left|].
  destruct (vector_known _ _ _) eqn:Hk; [injection E1 as <- _; by left|].
  destruct (vectors_full s _); [injection E1 as <- _; by left|]. right.
  destruct (record_received_effect _ _ _ _ _ _ _ _ (inv_groups _ Hc _ _ Hg) Hg (fun s => eq_refl) E1) as (m' & Hm' & Hsv & Hvec).
  exists (o_gid o), s, (mkMsg 0 false (o_sender o) (o_counter o) (o_id o) (o_sent_ms o) now (o_epoch o) (o_text o) (Some peer)), m'.
  split_and!; [done| |done|done|done]. exists s, l. simpl. split_and!; try done; [lia|lia|lia|]. right.
  apply bool_decide_eq_false in Hw1. apply negb_false_iff in Hw2. done.
Qed.

Lemma update_group_frame io c peer g s ds c' a k :
  groups c !! g = Some s -> update_group cfg own trusted io c peer g s ds = Ret (c', a, k) -> frame c c'.
Proof.
  intros Hg. unfold update_group. intros E1. unbind E1. destruct a0 as [ch r].
  destruct r as [[]|e].
  - unbind E1. destruct a0 as [s1 b]. unbind E1. destruct a0 as [[s2 j] k2]. unbind E1. unbind E1. destruct a1 as [c1 ok].
    apply confirm_listed_vectors in E0. apply standing_vectors in E2. apply prune_vectors in E3.
    assert (frame c c1) as Hf.
    { eapply frame_save_put; [exact Hg| |exact E4]. rewrite E3, E2, E0. apply set_chain_vectors. }
    destruct (negb ok); injection E1 as <- _ _; [done|]. eapply frame_trans; [exact Hf|apply frame_event].
  - unbind E1. destruct a0 as [s1 b]. apply confirm_listed_vectors in E0. rewrite set_chain_vectors in E0.
    destruct b; [unbind E1; destruct a0 as [c1 ok]; injection E1 as <- _ _; by eapply frame_save_put|].
    injection E1 as <- _ _. by eapply frame_put.
  - assert (frame c (put_group g (set_chain ch s) c)) by (eapply frame_put; [done|apply set_chain_vectors]).
    by destruct e; injection E1 as <- _ _.
Qed.

Lemma handle_sync_frame io c peer g c' a k : handle_sync cfg io c peer g = Ret (c', a, k) -> frame c c'.
Proof.
  unfold handle_sync. destruct (groups c !! g) as [s|] eqn:Hg; [|by intros [= <- _ _]].
  destruct (negb _); [by intros [= <- _ _]|]. destruct (is_pending _); [by intros [= <- _ _]|]. intros E1. unbind E1.
  destruct a0 as [s1 b]. apply confirm_listed_vectors in E.
  pose proof (owe_vectors s1 peer KDescs 0) as Hv. destruct (owe s1 peer KDescs 0) as [s2 o]. simpl in Hv.
  assert (vectors s2 = vectors s) as Hv2 by congruence.
  destruct (o || b); [unbind E1; destruct a0 as [c1 ok]; injection E1 as <- _ _; by eapply frame_save_put|].
  injection E1 as <- _ _. by eapply frame_put.
Qed.

Lemma save_groups io c s c' ok : save cfg io c s = Ret (c', ok) -> groups c' = groups c.
Proof.
  unfold save. destruct (defer_flush cfg); [by intros [= <- _]|]. intros E1. unbind E1. destruct (write_doc _ _ _ _).
  injection E1 as <- _. by destruct c.
Qed.

Lemma save_new_effect io c g s c' ok :
  groups c !! g = None -> vectors s = ∅ -> save cfg io c s = Ret (c', ok) -> new_group c (put_group g s c').
Proof.
  intros Hg Hv E1. exists g. split; [done|]. apply frame_save in E1 as [Hl Hv1]. split; [by destruct c'|].
  rewrite <- Hv1, <- Hv. destruct c'; unfold vecs; simpl. by rewrite fmap_insert.
Qed.

Lemma invited_effect io c peer g ds now c' a k :
  groups c !! g = None -> invited cfg own trusted io c peer g ds now = Ret (c', a, k) -> frame c c' \/ new_group c c'.
Proof.
  intros Hg. unfold invited. destruct (last ds) as [l|]; [|done]. destruct (_ || _); [intros [= <- _ _]; by left|].
  destruct (_ || _); [intros [= <- _ _]; by left|]. destruct (_ || _); [intros [= <- _ _]; by left|].
  intros E1. unbind E1. destruct a0 as [ch|]; [|injection E1 as <- _ _; by left]. unbind E1. rename a0 into top.
  destruct (negb _); [injection E1 as <- _ _; by left|]. unbind E1. destruct a0 as [s1 k1]. unbind E1. destruct a0 as [c1 ok].
  assert (vectors s1 = ∅) as Hv.
  { set (s0 := (confirm _ peer).1) in *. assert (vectors s0 = ∅) as H0' by (unfold s0; by rewrite confirm_vectors).
    destruct (auto_join c); [apply become_member_vectors in E2; congruence|by injection E2 as <- _]. }
  destruct (negb ok); injection E1 as <- _ _; [left; by eapply frame_save|].
  right. destruct (save_new_effect _ _ _ _ _ _ Hg Hv E3) as (g' & H1' & H2' & H3'). exists g'. split_and!; [done| |].
  - rewrite <- H2'. by destruct c1.
  - rewrite <- H3'. by destruct c1.
Qed.

Lemma handle_effect io c peer plain now c' a k :
  Inv c -> bytes_ok plain -> handle cfg own max_text trusted io c peer plain now = Ret (c', a, k) ->
  frame c c' \/ new_group c c' \/ one_message io c peer now c'.
Proof.
  intros Hc Hb. unfold handle. destruct (record_decode plain) as [r|[]] eqn:Hr; [|intros [= <- _ _]; by left..].
  apply record_decode_inv in Hr as [_ Hr]; [|done]. destruct r as [t|ds|g h|o].
  - intros E1. apply handle_text_effect in E1; [|done..]. tauto.
  - unfold handle_descs. destruct ds as [|d0 ds]; [done|]. destruct (_ || _); [intros [= <- _ _]; by left|].
    destruct (groups c !! gid d0) as [s|] eqn:Hg.
    + destruct (_ && _); [intros [= <- _ _]; by left|]. intros E1. left. by eapply update_group_frame.
    + intros E1. apply invited_effect in E1; [tauto|done].
  - intros E1. left. by eapply handle_sync_frame.
  - intros E1. unbind E1. destruct a0 as [c1 a1]. injection E1 as <- _ _. apply handle_hist_effect in E; [tauto|done..].
Qed.
End Peer.

(** ** No message is saved twice *)

Definition key_of (m : GroupMsg) : bytes * Z := (m_sender m, m_counter m).
Definition incoming (l : list GroupMsg) : list GroupMsg := filter (fun m => outgoing m = false) l.

(** The received messages of a log are distinct, and their counters are in the
    vectors of the group; without a group there is no log. *)
Definition once_in (v : option (gmap bytes SenderVec)) (l : list GroupMsg) : Prop :=
  NoDup (map key_of (incoming l)) /\
  match v with
  | Some v => forall m, m ∈ l -> outgoing m = false -> exists x, v !! m_sender m = Some x /\ seen x (m_counter m)
  | None => l = []
  end.

Definition Once (c : Core) : Prop := forall g, once_in (vecs c !! g) (saved cfg (store c) g).

Lemma incoming_sublist l l' : l `sublist_of` l' -> incoming l `sublist_of` incoming l'.
Proof.
  unfold incoming. induction 1 as [|x l l' Hs IH|x l l' Hs IH]; [done| |]; rewrite ?filter_cons.
  - destruct (decide _); [by constructor|done].
  - destruct (decide _); [by apply sublist_cons|done].
Qed.

Lemma once_sublist v l l' : l' `sublist_of` l -> once_in v l -> once_in v l'.
Proof.
  intros Hs [Hnd Hv]. split.
  - eapply sublist_NoDup; [exact Hnd|]. by apply fmap_sublist, incoming_sublist.
  - destruct v as [v|]; [|subst; by apply sublist_nil_r in Hs].
    intros m Hm. apply Hv. by eapply sublist_subseteq.
Qed.

Lemma logged_saved c c' g : logged c' = logged c -> saved cfg (store c') g = saved cfg (store c) g.
Proof. intros [= Hl Hr]. unfold saved, log_of. by rewrite Hl, Hr. Qed.

Lemma once_frame c c' : frame c c' -> Once c -> Once c'.
Proof. intros [Hl Hv] Ho g. rewrite Hv, (logged_saved c c' g Hl). apply Ho. Qed.

Lemma once_new c c' : new_group c c' -> Once c -> Once c'.
Proof.
  intros (g & Hg & Hl & Hv) Ho g'. rewrite Hv, (logged_saved c c' g' Hl). destruct (decide (g' = g)) as [->|Hne].
  - rewrite lookup_insert_eq. destruct (Ho g) as [Hnd Hs]. unfold vecs in Hs. rewrite lookup_fmap, Hg in Hs. simpl in Hs.
    rewrite Hs. split; [constructor|]. intros m Hm. by apply elem_of_nil in Hm.
  - rewrite lookup_insert_ne by done. apply Ho.
Qed.

(** Marking keeps what was seen and adds the new counter. *)
Lemma mark_vector_seen s who n x k :
  state_wf s -> 1 <= n <= u64_max -> vector_known s who n = false ->
  (exists v, vectors s !! x = Some v /\ seen v k) \/ (x = who /\ k = n) ->
  exists v, vectors (mark_vector s who n) !! x = Some v /\ seen v k.
Proof.
  intros Hw Hn Hk Hx. assert (vectors (mark_vector s who n) = <[who := mark (default default_vec (vectors s !! who)) n]> (vectors s)) as ->
    by (by destruct s).
  set (v0 := default default_vec (vectors s !! who)). destruct (sw_vectors _ Hw) as [_ Hvw].
  assert (vec_ok v0 /\ floor v0 < n <= u64_max) as [Hok Hfl].
  { unfold v0, vector_known in *. destruct (vectors s !! who) as [v|] eqn:Hv; simpl.
    - split; [by destruct (Hvw _ _ Hv)|]. apply negb_false_iff in Hk. unfold is_new in Hk. lia.
    - split; [apply default_vec_ok|lia]. }
  destruct (mark_spec v0 n Hok Hfl) as (_ & _ & Hs & _).
  destruct (decide (x = who)) as [->|Hne].
  - rewrite lookup_insert_eq. eexists. split; [reflexivity|]. apply Hs.
    destruct Hx as [(v & Hv & Hsn)|[_ ->]]; [left|by right]. unfold v0. by rewrite Hv.
  - rewrite lookup_insert_ne by done. destruct Hx as [?|[? _]]; [done|congruence].
Qed.

Lemma unknown_not_seen s who n v : vector_known s who n = false -> vectors s !! who = Some v -> ~ seen v n.
Proof. unfold vector_known. intros Hk Hv. rewrite Hv in Hk. apply negb_false_iff in Hk. intros Hs%is_new_spec. congruence. Qed.

Lemma once_message trusted io c peer now c' :
  Inv c -> io_calm io -> one_message trusted io c peer now c' -> Once c -> Once c'.
Proof.
  intros Hc Hio (g & s & m & m' & Hg & (s' & l & Hg' & _ & _ & _ & Hout & _ & _ & Hk & Hn & _) & (M1 & M2 & M3 & _) & Hsv & Hvec) Ho.
  assert (s' = s) as -> by congruence. destruct Hvec as [Hv|[Hv Hl]]; [|apply (once_frame c); [split; [by apply Hl|done]|done]].
  pose proof (proj1 (inv_groups _ Hc _ _ Hg)) as Hw. intros g'. eapply once_sublist; [apply Hsv|]. rewrite Hv. unfold after.
  destruct (decide (g' = g)) as [->|Hne]; [|rewrite lookup_insert_ne, app_nil_r by done; apply Ho].
  rewrite lookup_insert_eq. destruct (Ho g) as [Hnd Hs].
  assert (vecs c !! g = Some (vectors s)) as Hvg by (unfold vecs; by rewrite lookup_fmap, Hg). rewrite Hvg in Hs. split.
  - unfold incoming. rewrite filter_app, map_app, filter_cons, decide_True by congruence. cbn [filter list_filter map].
    apply NoDup_app. split_and!; [exact Hnd| |apply NoDup_singleton].
    intros k (x & -> & [Hxo Hx]%list_elem_of_filter)%list_elem_of_fmap [= E1 E2]%list_elem_of_singleton.
    destruct (Hs x Hx Hxo) as (v & Hv' & Hseen). rewrite E1, M2 in Hv'. rewrite E2, M3 in Hseen.
    by apply (unknown_not_seen _ _ _ _ Hk Hv').
  - intros x [Hx| ->%list_elem_of_singleton]%elem_of_app Hxo; apply mark_vector_seen; try done; [left; by apply Hs|by right].
Qed.

Lemma create_effect io c name new now g c' r :
  groups c !! g = None -> create cfg own secret io c name new now g = Ret (c', r) -> frame c c' \/ new_group c c'.
Proof.
  intros Hg. unfold create. destruct (_ || _); [intros [= <- _]; by left|]. destruct (_ <? _)%nat; [intros [= <- _]; by left|].
  destruct (create_members _ _ _) as [ms|e]; [|intros [= <- _]; by left].
  destruct (from_root _) as [ch|e]; [|intros [= <- _]; by left]. intros E1. unbind E1.
  destruct (_ <=? _)%nat; [injection E1 as <- _; by left|]. unbind E1. destruct a0 as [c1 ok].
  destruct ok; injection E1 as <- _; [right|left; by eapply frame_save].
  eapply save_new_effect; [exact Hg| |exact E0]. by rewrite owe_all_vectors.
Qed.

(** A message sent from here. *)
Lemma once_send io c g text now id c' r :
  Inv c -> send cfg own max_text io c g text now id = Ret (c', r) -> Once c -> Once c'.
Proof.
  intros Hc Hsend Ho. unfold send in Hsend. destruct (_ =? _); [by injection Hsend as <- _|].
  destruct (_ <? _); [by injection Hsend as <- _|].
  destruct (live_group c g) as [s|e] eqn:Hl; [|by injection Hsend as <- _]. apply live_frame in Hl.
  destruct (_ <=? _)%nat; [by injection Hsend as <- _|]. unbind Hsend. rename a into l. unbind Hsend. destruct a as [[sto s2] ok].
  set (s1 := if (length (others own l) =? 0)%nat then _ else _) in *.
  assert (chain s1 = chain s /\ vectors s1 = vectors s) as [Hch Hv1] by (unfold s1; by destruct (_ =? _)%nat, s).
  assert (exists m', outgoing m' = true /\ vectors s2 = vectors s /\ forall g', saved cfg sto g' `sublist_of` after (store c) g m' g') as (m' & Hm' & Hv2 & Hsv).
  { unfold record_locked in E0. rewrite Hch in E0. destruct (group_latest g s (inv_groups _ Hc _ _ Hl)) as (l' & Hl' & Hgl & _).
    rewrite Hl' in E0. cbn [outcome_bind] in E0. destruct (if next_ord s1 =? 0 then _ else _) as [no cn].
    match type of E0 with context [store_record cfg io ?st _ ?m' ?n] =>
      pose proof (store_record_saved io st (gid l') m' n) as Hsv; destruct (store_record cfg io st (gid l') m' n) as [sto1 ok1]; exists m' end.
    injection E0 as <- <- _. rewrite Hgl in Hsv. split_and!; [done|rewrite <- Hv1; by destruct s1|exact Hsv]. }
  set (c1 := put_group g s2 (set_store sto c)) in *.
  assert (Once c1) as H1'.
  { assert (vecs c1 = vecs c) as Hvc.
    { assert (groups (set_store sto c) !! g = Some s) as Hg' by (by destruct c).
      destruct (frame_put _ g s s2 Hg' Hv2) as [_ Hv]. unfold c1. rewrite Hv. by destruct c. }
    intros g'. rewrite Hvc. apply (once_sublist _ (after (store c) g m' g')); [unfold c1; destruct c; apply Hsv|].
    unfold after. destruct (decide (g' = g)) as [->|_]; [|rewrite app_nil_r; apply Ho]. destruct (Ho g) as [Hnd Hs].
    assert (incoming (saved cfg (store c) g ++ [m']) = incoming (saved cfg (store c) g)) as Hi.
    { unfold incoming. rewrite filter_app, filter_cons, decide_False by congruence. apply app_nil_r. }
    split; [by rewrite Hi|]. destruct (vecs c !! g) as [v|] eqn:Hvg.
    - intros x [Hx| ->%list_elem_of_singleton]%elem_of_app Hxo; [by apply Hs|congruence].
    - unfold vecs in Hvg. by rewrite lookup_fmap, Hl in Hvg. }
  destruct (negb ok); [by injection Hsend as <- _|]. unbind Hsend. destruct a as [c2 ok2]. injection Hsend as <- _.
  apply frame_save in E1. by apply (once_frame c1).
Qed.

Lemma filter_ring_other (r : list (bytes * GroupMsg)) g g' :
  g' <> g -> filter (fun km : bytes * GroupMsg => km.1 = g') (filter (fun km => km.1 <> g) r) = filter (fun km => km.1 = g') r.
Proof.
  intros Hne. induction r as [|[k m] r IH]; [done|]. rewrite !filter_cons. simpl.
  destruct (decide (k = g)) as [->|Hk].
  - rewrite !decide_False by (congruence || (intros Hn; by apply Hn)). done.
  - rewrite decide_True, filter_cons by done. simpl. destruct (decide (k = g')); congruence.
Qed.

Lemma filter_ring_none (r : list (bytes * GroupMsg)) g : filter (fun km : bytes * GroupMsg => km.1 = g) (filter (fun km => km.1 <> g) r) = [].
Proof. apply filter_none. by intros [k m] [? _]%list_elem_of_filter. Qed.

(** Forgetting a group: what stays of the others, and nothing of it. *)
Lemma delete_group_saved io sto g g' :
  saved cfg (delete_group io sto g).1 g' `sublist_of` saved cfg sto g' /\
  ((delete_group io sto g).2 = true -> saved cfg (delete_group io sto g).1 g = []).
Proof.
  assert (map snd (filter (fun km : bytes * GroupMsg => km.1 = g') (filter (fun km => km.1 <> g) (ring sto))) `sublist_of`
          map snd (filter (fun km => km.1 = g') (ring sto))) as Hring.
  { destruct (decide (g' = g)) as [->|Hne]; [rewrite filter_ring_none; apply sublist_nil_l|by rewrite filter_ring_other]. }
  unfold delete_group, saved, log_of. destruct (io_doc io), (io_rewrite io), (history_save cfg); cbn [negb fst snd logs ring]; try (split; done).
  - split; [|by rewrite lookup_delete_eq]. destruct (decide (g' = g)) as [->|Hne]; [rewrite lookup_delete_eq; apply sublist_nil_l|].
    by rewrite lookup_delete_ne.
  - split; [done|]. by rewrite filter_ring_none.
Qed.

Lemma once_forget io c g : Once c -> Once (forget io c g).1.
Proof.
  intros Ho. unfold forget. destruct (groups c !! g) as [s|] eqn:Hg; [|done]. case_bool_decide; [done|].
  pose proof (delete_group_saved io (store c) g) as Hd. destruct (delete_group io (store c) g) as [sto ok]. simpl in Hd.
  destruct ok; cbn [fst].
  - intros g'. destruct (Hd g') as [Hs Hn]. destruct c as [gs en ei rs hi hs aj st]; unfold vecs; simpl in *. rewrite fmap_delete.
    destruct (decide (g' = g)) as [->|Hne].
    + rewrite lookup_delete_eq, Hn by done. split; [constructor|done].
    + rewrite lookup_delete_ne by done. eapply once_sublist; [exact Hs|]. apply Ho.
  - intros g'. destruct (Hd g') as [Hs _]. destruct c; unfold vecs in *; simpl in *. eapply once_sublist; [exact Hs|]. apply (Ho g').
Qed.

Lemma store_retain_saved io sto g keep g' : saved cfg (store_retain cfg io sto g keep).1 g' `sublist_of` saved cfg sto g'.
Proof.
  unfold store_retain, saved, log_of. destruct (history_save cfg); cbn [negb].
  - destruct (logs sto !! g) as [log|] eqn:Hlog; [|done]. destruct (io_rewrite io); cbn [negb fst logs]; [|done].
    destruct (decide (g' = g)) as [->|Hne]; [|by rewrite lookup_insert_ne].
    rewrite lookup_insert_eq, Hlog. apply sublist_filter.
  - cbn [fst ring]. apply fmap_sublist. induction (ring sto) as [|[k m] r IH]; [done|]. rewrite !filter_cons. simpl.
    destruct (decide (k <> g \/ _)); rewrite ?filter_cons; simpl; destruct (decide (k = g')); try done; by constructor.
Qed.

Lemma once_sweep io c cutoff : Once c -> Once (sweep_retention cfg io c cutoff).1.
Proof.
  intros Ho. unfold sweep_retention. generalize (map fst (btree (groups c))). intros gs.
  assert (Once (c, 0).1) as Hacc by done. revert Hacc. generalize (c, 0).
  induction gs as [|g gs IH]; intros acc Hacc; [done|]. cbn [fold_left]. apply IH. clear IH. destruct acc as [c1 removed]. simpl in Hacc.
  unfold sweep_group. pose proof (store_retain_saved io (store c1) g (fun m => cutoff <=? at_ms m)) as Hs.
  destruct (store_retain cfg io (store c1) g _) as [sto kept]. simpl in Hs.
  assert (Once (set_store sto c1)) as H1'.
  { intros g'. specialize (Hs g'). destruct c1; unfold vecs in *; simpl in *. eapply once_sublist; [exact Hs|]. apply (Hacc g'). }
  destruct kept as [n|]; [|done]. cbn [fst]. destruct (groups (set_store sto c1) !! g) as [s|] eqn:Hg; [|done].
  eapply once_frame; [|exact H1']. eapply frame_put; [exact Hg|by destruct s].
Qed.

(** Identifiers of new groups are random; log rewrites succeed, and the flush of
    every record that is in the file; no restart. *)
Definition calm (c : Core) (io : IO) (i : Input) : Prop :=
  io_calm io /\
  match i with ICreate _ _ _ g => groups c !! g = None | IRestart _ => False | _ => True end.

Fixpoint calm_run (c : Core) (ins : list (IO * Input)) : Prop :=
  match ins with
  | [] => True
  | (io, i) :: ins =>
      calm c io i /\ match step cfg own secret max_text io c i with Ret c' => calm_run c' ins | Panic => True end
  end.

Lemma step_once io c i c' :
  Inv c -> input_ok i -> calm c io i -> step cfg own secret max_text io c i = Ret c' -> Once c -> Once c'.
Proof.
  intros Hc Hi [Hio Hcalm] E1 Ho. destruct i; cbn [step] in E1; try (unbind E1; destruct a as [c1 r1]; injection E1 as <-).
  - destruct (create_effect _ _ _ _ _ _ _ _ Hcalm E) as [Hf|Hf]; [by eapply once_frame|by eapply once_new].
  - eapply once_frame; [by eapply add_frame|done].
  - eapply once_frame; [by eapply remove_frame|done].
  - eapply once_frame; [by eapply leave_frame|done].
  - eapply once_frame; [by eapply accept_frame|done].
  - injection E1 as <-. by apply once_forget.
  - by eapply once_send.
  - eapply once_frame; [by eapply settle_frame|done].
  - unbind E1. destruct a as [[c1 a1] k1]. injection E1 as <-. destruct Hi as (_ & Hb & _).
    destruct (handle_effect _ _ _ _ _ _ _ _ _ Hc Hb E) as [Hf|[Hf|Hf]]; [by eapply once_frame|by eapply once_new|by eapply once_message].
  - eapply once_frame; [by eapply handover_frame|done].
  - injection E1 as <-. by apply once_sweep.
  - injection E1 as <-. eapply once_frame; [apply frame_note|done].
  - injection E1 as <-. eapply once_frame; [|done]. by destruct c.
  - eapply once_frame; [by eapply flush_frame|done].
  - done.
Qed.

Lemma run_once ins c c' :
  hash_size -> ed_sizes -> ed_public secret = own -> max_text <= MAX_TEXT_BYTES ->
  Inv c -> Forall (fun x => input_ok x.2) ins -> calm_run c ins ->
  run cfg own secret max_text c ins = Ret c' -> Once c -> Once c'.
Proof.
  intros Hh He Hown Hmax Hc Hi. revert c Hc. induction Hi as [|[io i] ins Hio _ IH]; intros c Hc; cbn [run calm_run].
  { by intros _ [= <-]. }
  destruct (step_ok cfg own secret max_text Hh He Hown Hmax io c i Hc Hio) as (c1 & E1 & Hc1). rewrite E1. cbn [outcome_bind].
  intros [Hcalm Hrest] Hr Ho. apply (IH c1 Hc1 Hrest Hr). by apply (step_once io c i).
Qed.

(** ** Who makes this device a member *)

(** In the group, or asked to join it. *)
Definition engaged (st : Status) : bool := match st with Joined | Pending _ => true | _ => false end.

Lemma confirm_listed_status s peer s' b :
  confirm_listed s peer = Ret (s', b) -> status s' = status s /\ chain s' = chain s.
Proof.
  unfold confirm_listed. intros E1. unbind E1. destruct (confirm_shape s peer) as [cf Hcf]. injection E1 as E1.
  destruct (is_member _ peer); [rewrite E1 in Hcf; simpl in Hcf; subst; by destruct s|by injection E1 as <- _].
Qed.

Lemma become_member_status s by_ s' os :
  become_member own s by_ = Ret (s', os) -> status s' = Joined /\ chain s' = chain s.
Proof.
  unfold become_member. intros E1. unbind E1. injection E1 as <- _.
  destruct (owe_all_shape (set_added_by (Some by_) (set_status Joined s)) (others own a) KSync (epoch a)) as [ct ->]. by destruct s.
Qed.

Lemma prune_status s s' : prune s = Ret s' -> status s' = status s /\ chain s' = chain s.
Proof.
  unfold prune. intros E1. unbind E1. injection E1 as <-.
  destruct (prune_to_shape (map m_id (members a)) s) as (pe & le & ct & ->). by destruct s.
Qed.

Section Trust.
Context (trusted : bytes -> bool).

Lemma standing_status aj s peer s' j k :
  standing own trusted aj s peer = Ret (s', j, k) ->
  chain s' = chain s /\
  (engaged (status s') = true -> status s' = status s \/
     (trusted peer = true /\ exists l, latest (chain s') = Ret l /\ is_member l own = true)).
Proof.
  unfold standing. intros E1. unbind E1. rename a into l.
  assert ((if trusted peer then
        let! (st, _) := confirm_listed (set_confirmed [] s) peer in
        if aj : bool then let! (st, os) := become_member own st peer in Ret (st, true, os)
        else Ret (set_status (Pending peer) st, false, [])
      else Ret (s, false, [])) = Ret (s', j, k) -> chain s' = chain s /\ (status s' = status s \/ trusted peer = true)) as Hback.
  { destruct (trusted peer); [|intros [= <- _ _]; by split; [|left]]. intros E2. unbind E2. destruct a as [s1 b].
    apply confirm_listed_status in E0 as [_ Hc]. assert (chain s1 = chain s) as Hc1 by (rewrite Hc; by destruct s).
    destruct aj; [unbind E2; destruct a as [s2 os]; apply become_member_status in E0 as [_ Hc2]|]; injection E2 as <- _ _.
    - split; [congruence|by right].
    - split; [rewrite <- Hc1; by destruct s1|by right]. }
  assert (chain s' = chain s /\ (status s' = status s \/ trusted peer = true) -> is_member l own = true ->
    chain s' = chain s /\ (engaged (status s') = true -> status s' = status s \/
      (trusted peer = true /\ exists l, latest (chain s') = Ret l /\ is_member l own = true))) as Hgo.
  { intros [Hc [Hs|Ht]] Hm; (split; [done|]); intros _; [by left|right]. split; [done|]. exists l. by rewrite Hc. }
  destruct (status s) eqn:Hst, (is_member l own) eqn:Hm; try (injection E1 as <- _ _; destruct s; simpl in *; subst; split; [done|intros He; by left || discriminate He]; fail).
  all: apply Hgo; [by apply Hback|done].
Qed.

(** Every group keeps its standing. *)
Definition keeps (c c' : Core) : Prop :=
  forall g s', groups c' !! g = Some s' -> exists s, groups c !! g = Some s /\ status s = status s'.

Lemma keeps_refl c : keeps c c.
Proof. intros g s Hg. by exists s. Qed.
#[local] Hint Resolve keeps_refl : core.

Lemma keeps_put c c' g s s' :
  groups c !! g = Some s -> status s' = status s -> groups c' = <[g := s']> (groups c) -> keeps c c'.
Proof.
  intros Hg Hs Hc g' x. rewrite Hc, lookup_insert_Some. intros [[<- <-]|[_ ?]]; [by exists s|by exists x].
Qed.

Lemma record_received_keeps io c g s m finish_ c' a :
  groups c !! g = Some s -> (forall s, status (finish_ s) = status s) ->
  record_received cfg io c g s m finish_ = Ret (c', a) -> keeps c c'.
Proof.
  intros Hg Hfin E1. unfold record_received in E1. unbind E1. destruct a0 as [[sto s1] ok].
  assert (status s1 = status s) as Hs1.
  { unfold record_locked in E. unbind E. destruct (if next_ord s =? 0 then _ else _). destruct (store_record _ _ _ _ _ _).
    injection E as _ <- _. by destruct s. }
  destruct (negb ok).
  - injection E1 as <- _. eapply keeps_put; [exact Hg| |by destruct c]. rewrite <- Hs1. by destruct s1.
  - unbind E1. destruct a0 as [c1 ok1]. apply save_groups in E0.
    assert (groups c1 = <[g := finish_ (mark_vector s1 (m_sender m) (m_counter m))]> (groups c)) as Hg1 by (rewrite E0; by destruct c).
    assert (keeps c c1) as Hk.
    { eapply keeps_put; [exact Hg| |exact Hg1]. rewrite Hfin, <- Hs1. by destruct s1. }
    destruct (negb ok1); injection E1 as <- _; [done|]. intros g' x. specialize (Hk g' x). by destruct c1.
Qed.

Lemma handle_text_keeps io c peer t now c' a k :
  handle_text cfg max_text trusted io c peer t now = Ret (c', a, k) -> keeps c c'.
Proof.
  unfold handle_text. destruct (groups c !! t_gid t) as [s|] eqn:Hg; [|by intros [= <- _ _]].
  destruct (status s) eqn:Hst; try by intros [= <- _ _]. intros E1. unbind E1. destruct (_ <? _).
  { destruct (owe_shape s peer KSync (epoch a0)) as [ct Hct]. destruct (owe s peer KSync (epoch a0)) as [s1 owed]. simpl in Hct. subst s1.
    destruct owed; [unbind E1; destruct a1 as [c1 ok]; apply save_groups in E0|]; injection E1 as <- _ _.
    - eapply keeps_put; [exact Hg| |rewrite E0; by destruct c]. by destruct s.
    - eapply keeps_put; [exact Hg| |by destruct c]. by destruct s. }
  destruct (negb _); [by injection E1 as <- _ _|]. destruct (_ || _); [by injection E1 as <- _ _|].
  destruct (vector_known _ _ _); [by injection E1 as <- _ _|]. destruct (vectors_full _ _); [by injection E1 as <- _ _|].
  unbind E1. destruct a1 as [c1 a1]. injection E1 as <- _ _. eapply record_received_keeps; [exact Hg| |exact E0].
  intros s1. destruct (confirm_shape s1 peer) as [cf ->]. by destruct s1.
Qed.

Lemma handle_hist_keeps io c peer o now c' a :
  handle_hist_offer cfg own max_text io c peer o now = Ret (c', a) -> keeps c c'.
Proof.
  unfold handle_hist_offer. destruct (groups c !! o_gid o) as [s|] eqn:Hg; [|by intros [= <- _]].
  destruct (status s) eqn:Hst; try by intros [= <- _]. intros E1. unbind E1.
  destruct (negb _); [by injection E1 as <- _|]. destruct (_ || _); [by injection E1 as <- _|].
  destruct (_ <? _); [by injection E1 as <- _|]. destruct (vector_known _ _ _); [by injection E1 as <- _|].
  destruct (vectors_full _ _); [by injection E1 as <- _|]. by eapply record_received_keeps; [exact Hg| |exact E1].
Qed.

Lemma handle_sync_keeps io c peer g c' a k : handle_sync cfg io c peer g = Ret (c', a, k) -> keeps c c'.
Proof.
  unfold handle_sync. destruct (groups c !! g) as [s|] eqn:Hg; [|by intros [= <- _ _]].
  destruct (negb _); [by intros [= <- _ _]|]. destruct (is_pending _); [by intros [= <- _ _]|]. intros E1. unbind E1.
  destruct a0 as [s1 b]. apply confirm_listed_status in E as [Hs1 _].
  destruct (owe_shape s1 peer KDescs 0) as [ct Hct]. destruct (owe s1 peer KDescs 0) as [s2 o]. simpl in Hct.
  assert (status s2 = status s) as Hs2 by (rewrite <- Hs1; subst s2; by destruct s1).
  destruct (o || b); [unbind E1; destruct a0 as [c1 ok]; apply save_groups in E|]; injection E1 as <- _ _.
  - eapply keeps_put; [exact Hg|exact Hs2|rewrite E; by destruct c].
  - eapply keeps_put; [exact Hg|exact Hs2|by destruct c].
Qed.

(** A group this device is in, or is asked to join, after a record of [peer]:
    it was so before, or the peer is trusted and the newest list has us; and a
    group that is new was signed by the peer, as one of its admins. *)
Definition vouched (c : Core) (peer g : bytes) (s' : GroupState) : Prop :=
  (exists s, groups c !! g = Some s /\ status s = status s') \/
  (trusted peer = true /\ exists l, latest (chain s') = Ret l /\ is_member l own = true /\
     (groups c !! g = None -> signer l = peer /\ is_admin l peer = true)).

Definition vouches (c : Core) (peer : bytes) (c' : Core) : Prop :=
  forall g s', groups c' !! g = Some s' -> engaged (status s') = true -> vouched c peer g s'.

Lemma keeps_vouches c peer c' : keeps c c' -> vouches c peer c'.
Proof. intros Hk g s' Hg _. left. by apply Hk. Qed.

Lemma vouches_put c peer c' g s' :
  is_Some (groups c !! g) -> groups c' = <[g := s']> (groups c) ->
  (engaged (status s') = true -> vouched c peer g s') -> vouches c peer c'.
Proof.
  intros Hg Hc Hv g' x. rewrite Hc, lookup_insert_Some. intros [[<- <-]|[_ ?]] He; [by apply Hv|left; by exists x].
Qed.

Lemma update_group_vouches io c peer g s ds c' a k :
  groups c !! g = Some s -> update_group cfg own trusted io c peer g s ds = Ret (c', a, k) -> vouches c peer c'.
Proof.
  intros Hg. unfold update_group. intros E1. unbind E1. destruct a0 as [ch r].
  assert (status (set_chain ch s) = status s) as Hst by (by destruct s).
  destruct r as [[]|e].
  - unbind E1. destruct a0 as [s1 b]. unbind E1. destruct a0 as [[s2 j] k2]. unbind E1. rename a0 into s3.
    unbind E1. destruct a0 as [c1 ok]. apply confirm_listed_status in E0 as [H1' _].
    apply standing_status in E2 as [_ Hs2]. apply prune_status in E3 as [H3' C3]. apply save_groups in E4.
    assert (vouches c peer c1) as Hv.
    { apply (vouches_put c peer c1 g s3); [by eexists|rewrite E4; by destruct c|]. rewrite H3'. intros He.
      destruct (Hs2 He) as [Hsame|(Ht & l & Hl & Hm)].
      - left. exists s. split; [done|]. congruence.
      - right. split; [done|]. exists l. rewrite C3. split_and!; [done|done|]. intros Hn. congruence. }
    destruct (negb ok); injection E1 as <- _ _; [done|]. intros g' x. specialize (Hv g' x). by destruct c1.
  - apply keeps_vouches. unbind E1. destruct a0 as [s1 b]. apply confirm_listed_status in E0 as [H1' _].
    destruct b; [unbind E1; destruct a0 as [c1 ok]; apply save_groups in E0|]; injection E1 as <- _ _.
    + apply (keeps_put _ _ g s s1); [done|congruence|rewrite E0; by destruct c].
    + apply (keeps_put _ _ g s s1); [done|congruence|by destruct c].
  - apply keeps_vouches. assert (keeps c (put_group g (set_chain ch s) c)) by (eapply keeps_put; [exact Hg|done|by destruct c]).
    by destruct e; injection E1 as <- _ _.
Qed.

Lemma try_roots_items ds ch :
  try_roots ds = Ret (Some ch) -> forall x, x ∈ items ch -> x ∈ ds.
Proof.
  induction ds as [|d ds IH]; cbn [try_roots]; [done|]. destruct (from_root d) as [ch0|e] eqn:Hr.
  - apply from_root_ok in Hr as [-> Hch]. intros E1.
    destruct (push_all_ok (mkChain [d]) ds d Hch eq_refl) as (c1 & r & Hp & _ & _ & Hi). rewrite Hp in E1. cbn [outcome_bind] in E1.
    destruct (_ || _).
    + injection E1 as <-. intros x [->%list_elem_of_singleton|]%Hi; [left|by right].
    + intros x Hx. right. by apply IH.
  - intros E1 x Hx. right. by apply IH.
Qed.

Lemma epochs_increase_sorted ds : epochs_increase ds = true -> StronglySorted (fun a b => epoch a < epoch b) ds.
Proof.
  intros He. apply Sorted_StronglySorted; [intros x y z; lia|]. induction ds as [|d ds IH]; [constructor|].
  destruct ds as [|e ds]; [repeat constructor|]. cbn [epochs_increase] in He. apply andb_true_iff in He as [H1' H2'].
  constructor; [by apply IH|]. constructor. lia.
Qed.

(** The descriptor of the highest epoch is the last one. *)
Lemma newest_is_last ds d l :
  epochs_increase ds = true -> last ds = Some l -> d ∈ ds -> epoch d = epoch l -> d = l.
Proof.
  intros Hs%epochs_increase_sorted [pre ->]%last_Some Hd He.
  apply elem_of_app in Hd as [Hd|Hd%list_elem_of_singleton]; [|done]. exfalso.
  pose proof (StronglySorted_app_1_elem_of _ _ _ d l Hs Hd ltac:(by left)) as Hlt. simpl in Hlt. lia.
Qed.

Lemma invited_vouches io c peer g ds now c' a k :
  groups c !! g = None -> epochs_increase ds = true ->
  invited cfg own trusted io c peer g ds now = Ret (c', a, k) -> vouches c peer c'.
Proof.
  intros Hg Hinc. unfold invited. destruct (last ds) as [l|] eqn:Hlast; [|done].
  destruct (_ || _) eqn:Ht; [intros [= <- _ _]; by apply keeps_vouches|].
  apply orb_false_iff in Ht as [Ht%negb_false_iff Hsig%negb_false_iff%bool_decide_eq_true].
  destruct (_ || _) eqn:Hm; [intros [= <- _ _]; by apply keeps_vouches|].
  apply orb_false_iff in Hm as [Hm%negb_false_iff Hadm%negb_false_iff].
  destruct (_ || _); [intros [= <- _ _]; by apply keeps_vouches|].
  intros E1. unbind E1. destruct a0 as [ch|]; [|injection E1 as <- _ _; by apply keeps_vouches]. unbind E1. rename a0 into top.
  destruct (Z.eqb_spec (epoch top) (epoch l)) as [He|]; cbn [negb] in E1; [|injection E1 as <- _ _; by apply keeps_vouches].
  unbind E1. destruct a0 as [s1 k1]. unbind E1. destruct a0 as [c1 ok]. apply save_groups in E3.
  destruct (negb ok); injection E1 as <- _ _; [apply keeps_vouches; intros g' x; rewrite E3; apply keeps_refl|].
  assert (top = l) as ->.
  { apply (newest_is_last ds); [done|done| |done]. eapply try_roots_items; [exact E|]. unfold latest in E0.
    destruct (last (items ch)) eqn:Hl; [|done]. injection E0 as ->. by apply last_Some_elem_of. }
  assert (chain s1 = ch) as Hch.
  { set (s0 := (confirm _ peer).1) in *. assert (chain s0 = ch) as H0' by (unfold s0; by rewrite confirm_chain).
    destruct (auto_join c); [apply become_member_status in E2 as [_ ->]; done|by injection E2 as <- _]. }
  intros g' x Hx Heng. assert (<[g := s1]> (groups c) !! g' = Some x) as Hx' by (rewrite <- E3; by destruct c1).
  apply lookup_insert_Some in Hx' as [[<- <-]|[_ ?]]; [right|left; by exists x].
  split; [done|]. exists l. rewrite Hch. done.
Qed.

Lemma handle_vouches io c peer plain now c' a k :
  handle cfg own max_text trusted io c peer plain now = Ret (c', a, k) -> vouches c peer c'.
Proof.
  unfold handle. destruct (record_decode plain) as [r|[]]; [|intros [= <- _ _]; by apply keeps_vouches..].
  destruct r as [t|ds|g h|o].
  - intros E1. by eapply keeps_vouches, handle_text_keeps.
  - unfold handle_descs. destruct ds as [|d0 ds]; [done|].
    destruct (_ || _) eqn:Hshape; [intros [= <- _ _]; by apply keeps_vouches|].
    apply orb_false_iff in Hshape as [_ Hinc%negb_false_iff]. destruct (groups c !! gid d0) as [s|] eqn:Hg.
    + destruct (_ && _); [intros [= <- _ _]; by apply keeps_vouches|]. by apply update_group_vouches.
    + by apply invited_vouches.
  - intros E1. by eapply keeps_vouches, handle_sync_keeps.
  - intros E1. unbind E1. destruct a0 as [c1 a1]. injection E1 as <- _ _. by eapply keeps_vouches, handle_hist_keeps.
Qed.
End Trust.
End Admission.

(** C14. Only trusted contacts bring this device into a group: after any record of
    any peer, a group the device is in or is asked to join was in the same
    standing before, or the peer is a trusted contact and the newest
    descriptor lists this device; and a group that is new to the device was
    signed last by that peer, who is an admin of it. *)
Theorem joins_are_vouched `{Crypto} `{Ed25519} (cfg : StoreSettings) (own : bytes) (max_text : Z) (trusted : bytes -> bool)
    (io : IO) (c : Core) (peer plain : bytes) (now : Z) (c' : Core) (a : AckStatus) (kick : list bytes) (g : bytes) (s' : GroupState) :
  handle cfg own max_text trusted io c peer plain now = Ret (c', a, kick) ->
  groups c' !! g = Some s' -> status s' = Joined \/ is_pending (status s') = true ->
  (exists s, groups c !! g = Some s /\ status s = status s') \/
  (trusted peer = true /\ exists l, latest (chain s') = Ret l /\ is_member l own = true /\
     (groups c !! g = None -> signer l = peer /\ is_admin l peer = true)).
Proof.
  intros Hh Hg Hs. apply (handle_vouches _ _ _ _ _ _ _ _ _ _ _ _ Hh _ _ Hg). by destruct Hs as [->|], (status s').
Qed.

(** C15. Only what a member may say is recorded: at any point of any history, a
    record of a peer adds to the saved messages of a group at most messages
    that come from a member on the newest list of a group this device is in,
    with a text that is not empty and at most the longest this device takes, and
    a counter it has not applied.  A message in the peer's own name has an epoch
    this device knows and, from an untrusted peer, at most 2 KiB; one that the
    peer hands over as history is marked as shared by it and is of a former or
    present member other than this device, with neither of the two limits. *)
Theorem recorded_messages_admitted `{Crypto} `{Ed25519} (cfg : StoreSettings) (own secret : bytes) (max_text : Z)
    (trusted : bytes -> bool) (ins : list (IO * Input)) (io : IO) (c : Core) (peer plain : bytes) (now : Z)
    (c' : Core) (a : AckStatus) (kick : list bytes) (g : bytes) (m : GroupMsg) :
  hash_size -> ed_sizes -> ed_public secret = own -> max_text <= MAX_TEXT_BYTES ->
  Forall (fun x => input_ok x.2) ins -> run cfg own secret max_text fresh ins = Ret c -> bytes_ok plain ->
  handle cfg own max_text trusted io c peer plain now = Ret (c', a, kick) ->
  m ∈ saved cfg (store c') g ->
  m ∈ saved cfg (store c) g \/ admitted own max_text trusted c peer now g m.
Proof.
  intros Hh He Ho Hm Hi Hr Hb Hhandle Hin.
  destruct (run_ok cfg own secret max_text Hh He Ho Hm fresh ins fresh_ok Hi) as (c0 & E & Hc).
  assert (c0 = c) as -> by congruence.
  destruct (handle_effect _ _ _ _ _ _ _ _ _ _ _ _ Hc Hb Hhandle) as [[Hl _]|[(g' & _ & Hl & _)|Hone]].
  - left. by rewrite <- (logged_saved cfg c c' g Hl).
  - left. by rewrite <- (logged_saved cfg c c' g Hl).
  - destruct Hone as (g' & s & m1 & m2 & _ & Hadm & Hsame & Hsv & _).
    apply (sublist_subseteq _ _ (Hsv g)) in Hin. unfold after in Hin.
    apply elem_of_app in Hin as [?|Hin]; [by left|]. destruct (decide (g = g')) as [->|]; [|by apply elem_of_nil in Hin].
    apply list_elem_of_singleton in Hin as ->. right. destruct Hsame as (S1 & S2 & S3 & _ & _ & S6 & S7 & S8 & S9).
    unfold admitted in *. rewrite S1, S2, S3, S6, S7, S8, S9. exact Hadm.
Qed.

(** C9. A message is saved once: over any history without restarts in which log
    rewrites succeed and no flush fails after its record was appended (documents
    and appends may fail), whatever is resent, replayed, handed over as history
    by several members or sent after a member left and came back, the saved log
    of a group never holds two received messages of one sender with one
    counter.  [failed_flush_saves_twice] shows that the flush matters. *)
Theorem messages_saved_once `{Crypto} `{Ed25519} (cfg : StoreSettings) (own secret : bytes) (max_text : Z)
    (ins : list (IO * Input)) (c : Core) (g : bytes) :
  hash_size -> ed_sizes -> ed_public secret = own -> max_text <= MAX_TEXT_BYTES ->
  Forall (fun x => input_ok x.2) ins -> calm_run cfg own secret max_text fresh ins ->
  run cfg own secret max_text fresh ins = Ret c ->
  NoDup (map (fun m => (m_sender m, m_counter m)) (filter (fun m => outgoing m = false) (saved cfg (store c) g))).
Proof.
  intros Hh He Ho Hm Hi Hcalm Hr.
  assert (Once cfg fresh) as Hf.
  { intros g'. unfold vecs, saved, log_of. simpl. rewrite fmap_empty, !lookup_empty. simpl.
    destruct (history_save cfg); (split; [constructor|done]). }
  apply (run_once cfg own secret max_text ins fresh c Hh He Ho Hm fresh_ok Hi Hcalm Hr Hf g).
Qed.

Module AdmissionDemo.
Import GroupDemo EngineDemo.

Definition all_trusted : bytes -> bool := fun _ => true.

(** A message of member [n], and the record of the group's descriptors. *)
Definition text_of (n : Z) (txt : str) : bytes := text_bytes (mkText g0 1 n (replicate 16 n) 1500 txt).
Definition maker : Core := match run settings (key 1) (key 1) 4096 fresh made with Ret c => c | Panic => fresh end.
Definition chain_of (c : Core) : Chain := match groups c !! g0 with Some s => chain s | None => mkChain [] end.
Definition invitation : bytes := descs_bytes (items (chain_of maker)).

(** Member 3 is invited by 1. *)
Definition invitee : Core :=
  match handle settings (key 3) 4096 all_trusted good fresh (key 1) invitation 1200 with Ret (c, _, _) => c | Panic => fresh end.
Definition invitee_state : GroupState := default (new_state (mkChain []) Left) (groups invitee !! g0).

(** Member 2 says something, twice; member 3 hands it over as history. *)
Definition heard : list (IO * Input) :=
  made ++ [(good, IReceive all_trusted (key 2) (text_of 1 (lit "hi")) 1600);
           (good, IReceive all_trusted (key 2) (text_of 1 (lit "hi")) 1700);
           (mkIO true NotAppended true, IReceive all_trusted (key 2) (text_of 2 (lit "ho")) 1750);
           (good, IReceive all_trusted (key 2) (text_of 2 (lit "ho")) 1760);
           (good, IReceive all_trusted (key 3)
              (offer_bytes (mkOffer g0 1 (key 2) 1 (replicate 16 1) 1500 (lit "hi"))) 1800)].

Definition hi_message : GroupMsg := mkMsg 1 false (key 2) 1 (replicate 16 1) 1500 1600 1 (lit "hi") None.

Definition told (ins : list (IO * Input)) : Core :=
  match run settings (key 1) (key 1) 4096 fresh ins with Ret c => c | Panic => fresh end.

Lemma made_ok : Forall (fun x => input_ok x.2) made.
Proof.
  apply Forall_cons_2; [|apply Forall_nil; exact I]. cbn [input_ok snd].
  split_and!; [by apply text_check| |ulia|apply same_array; ulia].
  repeat apply Forall_cons_2; [..|by apply Forall_nil]; (split; [apply same_array; ulia|by apply text_check]).
Qed.

Lemma heard_ok : Forall (fun x => input_ok x.2) heard.
Proof.
  apply Forall_app. split; [apply made_ok|]. repeat apply Forall_cons_2; [..|apply Forall_nil; exact I]; cbn [input_ok snd].
  all: split_and!; [apply same_array; ulia|apply bytes_check; vm_compute; reflexivity|ulia].
Qed.
End AdmissionDemo.
Import GroupDemo EngineDemo AdmissionDemo.

Lemma joins_are_vouched_witness :
  status invitee_state = Joined /\
  ((exists s, groups fresh !! g0 = Some s /\ status s = status invitee_state) \/
   (all_trusted (key 1) = true /\ exists l, latest (chain invitee_state) = Ret l /\ is_member l (key 3) = true /\
     (groups fresh !! g0 = None -> signer l = key 1 /\ is_admin l (key 1) = true))).
Proof.
  split; [vm_compute; reflexivity|].
  apply (joins_are_vouched settings (key 3) 4096 all_trusted good fresh (key 1) invitation 1200 invitee AStored [key 1; key 2]
           g0 invitee_state); [vm_compute; reflexivity|vm_compute; reflexivity|left; vm_compute; reflexivity].
Defined.

Lemma recorded_messages_admitted_witness :
  hi_message ∈ saved settings (store maker) g0 \/ admitted (key 1) 4096 all_trusted maker (key 2) 1600 g0 hi_message.
Proof.
  apply (recorded_messages_admitted settings (key 1) (key 1) 4096 all_trusted made good maker (key 2)
                  (text_of 1 (lit "hi")) 1600 (told (take 2 heard)) AStored [] g0 hi_message);
    [apply demo_hash_size|apply demo_ed_sizes|vm_compute; reflexivity|vm_compute; discriminate|apply made_ok
    |vm_compute; reflexivity|apply bytes_check; vm_compute; reflexivity|vm_compute; reflexivity|].
  apply list_elem_of_In. vm_compute. left. reflexivity.
Defined.

Lemma messages_saved_once_witness :
  map m_text (saved settings (store (told heard)) g0) = [lit "hi"; lit "ho"] /\
  NoDup (map (fun m => (m_sender m, m_counter m)) (filter (fun m => outgoing m = false) (saved settings (store (told heard)) g0))).
Proof.
  split; [vm_compute; reflexivity|].
  apply (messages_saved_once settings (key 1) (key 1) 4096 heard (told heard) g0);
    [apply demo_hash_size|apply demo_ed_sizes|vm_compute; reflexivity|vm_compute; discriminate|apply heard_ok
    | |vm_compute; reflexivity].
  vm_compute. repeat split; discriminate.
Defined.
