(* ===== verification/GroupRemoval.v ===== *)
(** * GroupRemoval: taking a member out

    What [remove] of [chat/group/engine.rs] does on the device of the admin,
    and that the descriptor it makes is the next one on every device that
    holds the same list. *)

From S2P Require Import Prelude Bytes Text Codec ErasureCode Dissolve Group GroupState GroupRecord GroupStore GroupEngine GroupSafety GroupAdmission.

Section Removal.
Context `{Crypto} `{Ed25519}.
Context (cfg : StoreSettings) (own secret : bytes) (max_text : Z).

(** The descriptor that takes [who] out. *)
Definition without (l : Descriptor) (who : bytes) : Descriptor :=
  next_descriptor secret l (filter (fun m => m_id m <> who) (members l)).

Lemma without_not_member l who : is_member (without l who) who = false.
Proof. apply not_true_iff_false. rewrite is_member_spec. intros (m & Hin%list_elem_of_filter & Hid). by destruct Hin. Qed.

(** Every device whose newest descriptor is [l] takes it as the next one. *)
Lemma without_accepted ch l who :
  ed_correct -> ed_public secret = own -> chain_ok ch -> latest ch = Ret l -> 0 <= epoch l < u32_max ->
  is_admin l own = true -> who <> own ->
  push ch (without l who) = Ret (extended ch (without l who), Ok Advanced) /\
  latest (extended ch (without l who)) = Ret (without l who).
Proof.
  intros He Hown Hc Hl Hep Hadm Hne. set (d := without l who).
  assert (epoch d = epoch l + 1) as Ed.
  { unfold d, without, next_descriptor, wrapping_add; simpl. rewrite Z.mod_small; [done|ulia]. }
  destruct (chain_latest ch Hc) as (pre & l' & Hi & Hl'). assert (l' = l) as -> by congruence.
  assert (shape l) as Hs by (apply check_shape_spec, (co_desc ch Hc); rewrite Hi; set_solver).
  assert (desc_ok d) as Hd.
  { split; [|by apply signed_verifies]. apply check_shape_spec. eapply (shape_without l who); [done| |done|done].
    apply is_admin_spec in Hadm as (m & ? & ? & ?). exists m. split_and!; [done|done|congruence]. }
  assert (follows l d) as Hf.
  { split; [done|done|rewrite Ed; ulia|done|left]. unfold d; simpl. by rewrite Hown. }
  split; [apply (push_advances ch l d); (done || lia)|].
  destruct (extended_snoc ch d Hc) as (k & Hk & _). unfold latest. by rewrite Hk, last_snoc.
Qed.

Lemma prune_to_fields listed s :
  pending (prune_to listed s) = unsent (map (fun p => with_to (keep_listed listed (p_to p)) p) (pending s)) /\
  ctrl (prune_to listed s) = filter (fun c => c_to c ∈ listed) (ctrl s).
Proof.
  unfold prune_to. set (ds := flat_map _ _). set (pe := unsent _).
  assert (forall s0, pending (fold_left (fun s '(id, n) => update_ledger s id (add_failed n)) ds s0) = pending s0 /\
    ctrl (fold_left (fun s '(id, n) => update_ledger s id (add_failed n)) ds s0) = ctrl s0) as Hf.
  { clear. induction ds as [|[id n] ds IH]; intros s0; [done|]. cbn [fold_left]. destruct (IH (update_ledger s0 id (add_failed n))) as [-> ->].
    by destruct s0. }
  destruct (Hf (set_pending pe s)) as [H1' H2']. destruct (fold_left _ ds (set_pending pe s)); simpl in *.
  rewrite H1', H2'. by destruct s.
Qed.

(** Nothing but descriptors is added for those to be told. *)
Lemma owe_all_ctrl s tos arg ct : ct ∈ ctrl (owe_all s tos KDescs arg) -> ct ∈ ctrl s \/ c_kind ct = KDescs.
Proof.
  revert s. induction tos as [|to tos IH]; intros s Hct; [by left|].
  change (ct ∈ ctrl (owe_all (owe s to KDescs arg).1 tos KDescs arg)) in Hct. apply IH in Hct as [Hct|?]; [|by right].
  unfold owe in Hct. destruct (existsb _ _); [by left|]. destruct (_ <=? _)%nat; [by left|]. simpl in Hct.
  replace (ctrl (set_ctrl (ctrl s ++ [mkCtrl to KDescs arg]) s)) with (ctrl s ++ [mkCtrl to KDescs arg]) in Hct by (by destruct s).
  apply elem_of_app in Hct as [?| ->%list_elem_of_singleton]; [by left|by right].
Qed.

Lemma owe_all_pending s tos k arg : pending (owe_all s tos k arg) = pending s /\ status (owe_all s tos k arg) = status s.
Proof. destruct (owe_all_shape s tos k arg) as [ct ->]. by destruct s. Qed.

(** A state in which [who] is out: not listed, no message for it, and nothing
    but descriptors owed to it. *)
Definition cut_off (s : GroupState) (who : bytes) : Prop :=
  (exists d, latest (chain s) = Ret d /\ is_member d who = false) /\
  (forall p, p ∈ pending s -> who ∉ p_to p) /\
  (forall ct, ct ∈ ctrl s -> c_to ct = who -> c_kind ct = KDescs).

Lemma pruned_cut_off s d who tos :
  latest (chain s) = Ret d -> is_member d who = false ->
  cut_off (owe_all (prune_to (map m_id (members d)) s) tos KDescs 0) who.
Proof.
  intros Hl Hm. set (listed := map m_id (members d)). destruct (prune_to_fields listed s) as [Hp Hc].
  assert (who ∉ listed) as Hnot.
  { intros (m & Hid & Hin)%list_elem_of_fmap. apply not_true_iff_false in Hm. apply Hm, is_member_spec. by exists m. }
  split_and!.
  - exists d. by rewrite owe_all_chain, prune_to_chain.
  - intros p. rewrite (proj1 (owe_all_pending _ _ _ _)), Hp. intros [_ (q & -> & _)%list_elem_of_fmap]%list_elem_of_filter.
    simpl. by intros [? _]%list_elem_of_filter.
  - intros ct [Hct|?]%owe_all_ctrl Hto; [|done]. rewrite Hc in Hct. apply list_elem_of_filter in Hct as [Hct _]. by rewrite Hto in Hct.
Qed.

Lemma save_returns io c s l : latest (chain s) = Ret l -> exists c' ok, save cfg io c s = Ret (c', ok).
Proof. intros Hl. unfold save. destruct (defer_flush cfg); [eauto|]. rewrite Hl. cbn [outcome_bind]. destruct (write_doc _ _ _ _). eauto. Qed.

(** A group record of one who is out changes no log. *)
Lemma cut_off_refused trusted io c g s who t now :
  groups c !! g = Some s -> cut_off s who -> t_gid t = g ->
  exists c' a k, handle_text cfg max_text trusted io c who t now = Ret (c', a, k) /\
    logged c' = logged c /\ (a = ANotAllowed \/ a = ABusy).
Proof.
  intros Hg ((d & Hl & Hm) & _) <-. unfold handle_text. rewrite Hg. destruct (status s); [eauto 8| |eauto 8|eauto 8].
  rewrite Hl. cbn [outcome_bind]. destruct (_ <? _).
  - pose proof (owe_vectors s who KSync (epoch d)) as Hv. pose proof (owe_chain s who KSync (epoch d)) as Hch.
    destruct (owe s who KSync (epoch d)) as [s1 owed]. simpl in Hv, Hch.
    destruct owed; [|eexists _, _, _; split_and!; [reflexivity|by destruct c|by right]].
    destruct (save_returns io (put_group (t_gid t) s1 c) s1 d) as (c1 & ok & E); [by rewrite Hch|]. rewrite E. cbn [outcome_bind].
    apply (frame_save_put _ _ _ _ s) in E as [? _]; [|done|done]. eauto 8.
  - rewrite Hm. cbn [negb]. eauto 8.
Qed.

Lemma remove_cuts io c g s l who :
  ed_correct -> ed_public secret = own -> group_ok g s -> groups c !! g = Some s -> status s = Joined ->
  latest (chain s) = Ret l -> epoch l < u32_max -> is_admin l own = true -> is_member l who = true -> who <> own ->
  exists c' r s', remove cfg own secret io c g who = Ret (c', r) /\ groups c' !! g = Some s' /\
    latest (chain s') = Ret (without l who) /\ cut_off s' who.
Proof.
  intros He Hown Hok Hg Hst Hl Hep Hadm Hmem Hne. destruct (sw_chain _ (proj1 Hok)) as [Hc _].
  destruct (group_latest g s Hok) as (l' & Hl' & _ & Hlw). assert (l' = l) as -> by congruence.
  pose proof (desc_epoch l Hlw) as [_ Hpos].
  destruct (without_accepted (chain s) l who) as [Hpush Hnew]; [done..|lia|done|done|]. set (d := without l who) in *.
  unfold remove, live_group. rewrite Hg, bool_decide_eq_true_2 by done. rewrite Hl. cbn [outcome_bind].
  rewrite Hadm, bool_decide_eq_false_2, Hmem by done. cbn [negb]. fold (without l who). fold d. rewrite Hpush. cbn [outcome_bind].
  set (s1 := set_chain _ s). assert (latest (chain s1) = Ret d) as Hl1 by (unfold s1; by destruct s).
  unfold prune. rewrite Hl1. cbn [outcome_bind]. rewrite Hnew. cbn [outcome_bind]. unfold announce.
  set (s2 := owe_all _ _ KDescs 0). assert (cut_off s2 who) as Hcut by (apply pruned_cut_off; [done|apply without_not_member]).
  assert (latest (chain s2) = Ret d) as Hl2 by (unfold s2; by rewrite owe_all_chain, prune_to_chain).
  destruct (save_returns io (put_group g s2 c) s2 d Hl2) as (c1 & ok & E). rewrite E. cbn [outcome_bind].
  apply save_groups in E. assert (groups c1 !! g = Some s2) as Hg2 by (rewrite E; destruct c; simpl; apply lookup_insert_eq).
  destruct ok; eexists _, _, s2; (split; [reflexivity|]); split_and!; try done. by destruct c1.
Qed.
End Removal.

(** C21. Removing a member works: at any point of any history, an admin can
    take any other member out of a group it is in, whatever the disk does.
    The new list is the old one without that member; no text that is queued
    for the group has it as a recipient any more, and of the control records
    only descriptors are owed to it; a text it sends to the group afterwards
    is refused and leaves the logs as they are; and every device that holds
    the same newest list accepts the new one. Its descriptors and its
    requests to synchronise are still taken, and history that was queued for
    it is still handed over ([removed_member_gets_history]). *)
Theorem removal_cuts_off `{Crypto} `{Ed25519} (cfg : StoreSettings) (own secret : bytes) (max_text : Z)
    (ins : list (IO * Input)) (io : IO) (c : Core) (g : bytes) (s : GroupState) (l : Descriptor) (who : bytes) :
  hash_size -> ed_sizes -> ed_correct -> ed_public secret = own -> max_text <= MAX_TEXT_BYTES ->
  Forall (fun x => input_ok x.2) ins -> run cfg own secret max_text fresh ins = Ret c ->
  groups c !! g = Some s -> status s = Joined -> latest (chain s) = Ret l -> epoch l < u32_max ->
  is_admin l own = true -> is_member l who = true -> who <> own ->
  exists c' r s' d, remove cfg own secret io c g who = Ret (c', r) /\ groups c' !! g = Some s' /\
    latest (chain s') = Ret d /\ members d = filter (fun m => m_id m <> who) (members l) /\
    (forall p, p ∈ pending s' -> who ∉ p_to p) /\
    (forall ct, ct ∈ ctrl s' -> c_to ct = who -> c_kind ct = KDescs) /\
    (forall trusted io' t now, t_gid t = g ->
       exists c'' a k, handle_text cfg max_text trusted io' c' who t now = Ret (c'', a, k) /\
         logged c'' = logged c' /\ (a = ANotAllowed \/ a = ABusy)) /\
    (forall ch, chain_ok ch -> latest ch = Ret l -> push ch d = Ret (extended ch d, Ok Advanced)).
Proof.
  intros Hh Hed He Ho Hm Hi Hr Hg Hst Hl Hep Hadm Hmem Hne.
  destruct (run_ok cfg own secret max_text Hh Hed Ho Hm fresh ins fresh_ok Hi) as (c0 & E & Hc).
  assert (c0 = c) as -> by congruence. pose proof (inv_groups _ Hc _ _ Hg) as Hok.
  destruct (group_latest g s Hok) as (l' & Hl' & _ & Hlw). assert (l' = l) as -> by congruence.
  pose proof (desc_epoch l Hlw) as [_ Hpos].
  destruct (remove_cuts cfg own secret io c g s l who He Ho Hok Hg Hst Hl Hep Hadm Hmem Hne) as (c' & r & s' & Hrm & Hg' & Hl2 & Hcut).
  exists c', r, s', (without secret l who). split_and!; [done|done|done|done|apply Hcut|apply Hcut| |].
  - intros. by eapply cut_off_refused.
  - intros ch Hch Hlch. apply (without_accepted own); done || lia.
Qed.

Module RemovalDemo.
Import GroupDemo EngineDemo AdmissionDemo.
Definition maker_state : GroupState := default (new_state (mkChain []) Left) (groups maker !! g0).
Definition maker_list : Descriptor := top (chain maker_state).

Lemma demo_ed_correct : ed_correct.
Proof. intros s m. simpl. by apply bool_decide_eq_true. Qed.
End RemovalDemo.
Import GroupDemo EngineDemo AdmissionDemo RemovalDemo.

Lemma removal_cuts_off_witness :
  exists c' r s' d, remove settings (key 1) (key 1) good maker g0 (key 3) = Ret (c', r) /\ groups c' !! g0 = Some s' /\
    latest (chain s') = Ret d /\ members d = filter (fun m => m_id m <> key 3) (members maker_list) /\
    (forall p, p ∈ pending s' -> key 3 ∉ p_to p) /\
    (forall ct, ct ∈ ctrl s' -> c_to ct = key 3 -> c_kind ct = KDescs) /\
    (forall trusted io' t now, t_gid t = g0 ->
       exists c'' a k, handle_text settings 4096 trusted io' c' (key 3) t now = Ret (c'', a, k) /\
         logged c'' = logged c' /\ (a = ANotAllowed \/ a = ABusy)) /\
    (forall ch, chain_ok ch -> latest ch = Ret maker_list -> push ch d = Ret (extended ch d, Ok Advanced)).
Proof.
  apply (removal_cuts_off settings (key 1) (key 1) 4096 made good maker g0 maker_state maker_list (key 3));
    [apply demo_hash_size|apply demo_ed_sizes|apply demo_ed_correct|vm_compute; reflexivity|vm_compute; discriminate
    |apply made_ok|vm_compute; (reflexivity || discriminate)..].
Defined.
