(* ===== verification/GroupScenarios.v ===== *)
(** * GroupScenarios: runs of the group engine that end badly

    Concrete histories of devices, evaluated on the engine of [GroupEngine],
    in which the code does not do what it means to. *)

From S2P Require Import Prelude Bytes Text Codec ErasureCode Dissolve Group GroupState GroupRecord GroupStore GroupEngine GroupSafety GroupDelivery GroupAdmission.
Import GroupDemo EngineDemo AdmissionDemo.

Definition from_ (n : Z) (plain : bytes) (now : Z) : IO * Input := (good, IReceive all_trusted (key n) plain now).

(** The status a device answers to a record after some history. *)
Definition answer (ins : list (IO * Input)) (n : Z) (plain : bytes) (now : Z) : option AckStatus :=
  match handle settings (key 1) 4096 all_trusted good (told ins) (key n) plain now with
  | Ret (_, a, _) => Some a
  | Panic => None
  end.

(** The texts a device shows of the group. *)
Definition shown (c : Core) : list str :=
  match page settings (store c) g0 None 50 with Ret ms => map m_text ms | Panic => [] end.

Definition newest (c : Core) : Descriptor := top (chain_of c).

(** ** A leave in the chain loses the group *)

(** Member 2 leaves. *)
Definition leave_record : bytes :=
  descs_bytes [next_descriptor (key 2) (newest maker) (filter (fun m => m_id m <> key 2) (members (newest maker)))].
Definition adds_after : list (IO * Input) := map (fun n => (good, IAdd g0 [(key n, lit "new", false)])) [10; 11; 12; 13; 14; 15; 16].
Definition long_lived : list (IO * Input) := made ++ [from_ 2 leave_record 1300] ++ adds_after.

(** The state file of a group is readable only while its oldest kept
    descriptor is signed by one of its own admins.  A member that leaves signs
    a list it is not on; seven changes later that descriptor is the oldest,
    and after a restart the device has lost the group, with every write
    successful. *)
Theorem leave_loses_group :
  is_Some (groups (told long_lived) !! g0) /\
  groups (told (long_lived ++ [(good, IRestart (fun _ => true))])) !! g0 = None /\
  is_Some (groups (told (removelast long_lived ++ [(good, IRestart (fun _ => true))])) !! g0).
Proof. vm_compute. split_and!; [by eexists|done|by eexists]. Qed.

(** ** A number used twice hides a message *)

(** The log takes the message of 2, the state file is not written any more
    (the process dies there), and after the restart 3 says something. *)
Definition half_written : IO := mkIO false Appended true.
Definition crashed : list (IO * Input) :=
  made ++ [from_ 3 (text_of 1 (lit "zero")) 1500;
           (half_written, IReceive all_trusted (key 2) (text_of 1 (lit "one")) 1600);
           (good, IRestart (fun _ => true))].

(** The number of a message comes from the state file, not from the log: the
    message of 3 gets the number the log already holds.  It is acknowledged
    and saved, and never shown: the page keeps the first of two equal
    numbers. *)
Theorem crash_hides_message :
  answer crashed 3 (text_of 2 (lit "two")) 1700 = Some AStored /\
  map m_text (saved settings (store (told (crashed ++ [from_ 3 (text_of 2 (lit "two")) 1700]))) g0) = [lit "zero"; lit "one"; lit "two"] /\
  shown (told (crashed ++ [from_ 3 (text_of 2 (lit "two")) 1700])) = [lit "zero"; lit "one"].
Proof. vm_compute. split_and!; done. Qed.

(** ** A failed flush saves a message twice *)

Definition no_flush : IO := mkIO true Unsynced true.

(** The record of a message is in the log when its flush fails.  The sender is
    told so and tries again; the counter was not marked, and the message is
    saved a second time. *)
Theorem failed_flush_saves_twice :
  match handle settings (key 1) 4096 all_trusted no_flush (told made) (key 2) (text_of 1 (lit "hi")) 1600 with
  | Ret (c, a, _) =>
      a = AFailed /\
      match handle settings (key 1) 4096 all_trusted good c (key 2) (text_of 1 (lit "hi")) 1700 with
      | Ret (c', a', _) => a' = AStored /\ map m_text (saved settings (store c') g0) = [lit "hi"; lit "hi"]
      | Panic => False
      end
  | Panic => False
  end.
Proof. vm_compute. split_and!; reflexivity. Qed.

(** ** Handed-over history takes the place of a live message *)

Definition forged : bytes := offer_bytes (mkOffer g0 1 (key 2) 1 (replicate 16 1) 1500 (lit "forged")).

(** Any member can hand over as history a message that another member has not
    sent yet; the counter then counts as applied, and the message itself is
    refused as a duplicate, which its sender takes for delivered. *)
Theorem history_shadows_live_message :
  answer made 3 forged 1600 = Some AStored /\
  answer (made ++ [from_ 3 forged 1600]) 2 (text_of 1 (lit "real")) 1700 = Some ADuplicate /\
  shown (told (made ++ [from_ 3 forged 1600; from_ 2 (text_of 1 (lit "real")) 1700])) = [lit "forged"] /\
  outcome_of ADuplicate = Delivered.
Proof. vm_compute. split_and!; done. Qed.

(** ** A send that reports an error is delivered *)

Definition no_append : IO := mkIO true NotAppended true.

(** When the log cannot be written, [send] returns an error, but the message
    stays queued: the next item for a member is that message. *)
Theorem failed_send_is_delivered :
  match send settings (key 1) 4096 no_append (told made) g0 (lit "oops") 2000 (replicate 16 9) with
  | Ret (c, r) =>
      r = Err GStorage /\
      match settle settings good c (key 2) (WDescs g0) true with
      | Ret c' => next_for c' (key 2) =
          Ret (Some (WText g0 (replicate 16 9), text_bytes (mkText g0 1 1 (replicate 16 9) 2000 (lit "oops"))))
      | Panic => False
      end
  | Panic => False
  end.
Proof. vm_compute. split; reflexivity. Qed.

(** ** A removed member is not told *)

Definition remove_both : list (IO * Input) := made ++ [(good, IRemove g0 (key 3)); (good, IRemove g0 (key 2))].

(** Member 3 is owed the descriptor that removes it, until another change of
    the list comes before the delivery: the second change drops what is owed
    to anyone the newest list does not have. *)
Theorem removed_member_not_told :
  owed (told (removelast remove_both)) (key 3) = 1%nat /\
  owed (told remove_both) (key 3) = 0%nat /\ owed (told remove_both) (key 2) = 1%nat.
Proof. vm_compute. split_and!; done. Qed.

(** ** A removed member is still sent history *)

(** Device 1 is told something by 2, hands its history over to 3 and removes 3. *)
Definition handed_over : list (IO * Input) :=
  made ++ [from_ 2 (text_of 1 (lit "hi")) 1600; (good, IHandover g0 (key 3)); (good, IRemove g0 (key 3))].

(** Once 3 has the descriptor that removes it, the next thing it is sent is the
    history: queued hand-overs are not pruned. *)
Theorem removed_member_gets_history :
  next_for (told (handed_over ++ [(good, ISettle (key 3) (WDescs g0) true)])) (key 3) =
    Ret (Some (WHist g0 (key 3) 1, offer_bytes (mkOffer g0 1 (key 2) 1 (replicate 16 1) 1500 (lit "hi")))).
Proof. vm_compute. reflexivity. Qed.

(** ** A change during a delivery is not sent *)

(** What the worker of 2 has in hand when 4 is added. *)
Definition in_hand : option (Work * bytes) := match next_for (told made) (key 2) with Ret o => o | Panic => None end.
Definition added_meanwhile : Core :=
  told (made ++ [(good, IAdd g0 [(key 4, lit "new", false)]); (good, ISettle (key 2) (WDescs g0) true)]).

(** The worker sends the list of epoch 1; 4 is added meanwhile; the
    acknowledgement of the old list takes the new one off the queue, too. *)
Theorem change_during_delivery_not_sent :
  in_hand = Some (WDescs g0, invitation) /\
  match record_decode invitation with Ok (RDescs ds) => map epoch ds = [1] | _ => False end /\
  epoch (newest added_meanwhile) = 2 /\ next_for added_meanwhile (key 2) = Ret None.
Proof. vm_compute. split_and!; done. Qed.

(** ** An untrusted member is not held to short texts *)

Definition long_text : str := replicate 3000 97.
Definition nobody_trusted : bytes -> bool := fun _ => false.
Definition status_from_3 (plain : bytes) : option AckStatus :=
  match handle settings (key 1) 4096 nobody_trusted good (told made) (key 3) plain 1600 with
  | Ret (_, a, _) => Some a
  | Panic => None
  end.

(** A member who is not a trusted contact may only send short text; the same
    text as history of another member is taken up to the full limit. *)
Theorem untrusted_history_is_long :
  status_from_3 (text_bytes (mkText g0 1 1 (replicate 16 1) 1500 long_text)) = Some ATooBig /\
  status_from_3 (offer_bytes (mkOffer g0 1 (key 2) 1 (replicate 16 1) 1500 long_text)) = Some AStored.
Proof. vm_compute. split; done. Qed.
