(* ===== verification/DirectedState.v ===== *)
(** * DirectedState: directed-share envelopes and their record state machines

    Models [directed/envelope.rs] (envelope data, retention and expiry),
    [directed/challenge.rs] (the confirmation code), [directed/state.rs] (the
    recipient and sender records) and [directed/state_step.rs] (the transition
    functions).  The hash of the confirmation code (BLAKE3) is a parameter. *)

From S2P Require Import Prelude Text.

(** ** Envelope data *)

Inductive EnvelopeState :=
| Pending | ChallengeIssued | Confirmed | Retrieved | SenderRevoked
| RecipientDeleted | Expired | ChallengeFailed | PasswordFailed.

#[export] Instance EnvelopeState_eq_dec : EqDecision EnvelopeState.
Proof. solve_decision. Defined.

Definition is_terminal (s : EnvelopeState) : bool :=
  match s with
  | Retrieved | SenderRevoked | RecipientDeleted | Expired | ChallengeFailed
  | PasswordFailed => true
  | _ => false
  end.

Definition is_retrievable (s : EnvelopeState) : bool :=
  match s with Confirmed => true | _ => false end.

Inductive RetentionPeriod :=
| TenMinutes | OneHour | OneDay | SevenDays | ThirtyDays | Custom (s : Z).

Definition MIN_RETENTION_SECS : Z := 600.
Definition MAX_RETENTION_SECS : Z := 2592000.

Definition as_secs (r : RetentionPeriod) : Z :=
  match r with
  | TenMinutes => 600
  | OneHour => 3600
  | OneDay => 86400
  | SevenDays => 604800
  | ThirtyDays => 2592000
  | Custom s => s
  end.

(** The refused duration is the payload of the error text. *)
Definition checked_secs (r : RetentionPeriod) : result Z Z :=
  let secs := as_secs r in
  if (MIN_RETENTION_SECS <=? secs) && (secs <=? MAX_RETENTION_SECS)
  then Ok secs else Err secs.

Record DirectedEnvelope := mkEnvelope {
  envelope_id : list Z;
  version : Z;
  sender_pubkey : list Z;
  recipient_pubkey : list Z;
  ephemeral_pubkey : list Z;
  encrypted_payload : list Z;
  payload_nonce : list Z;
  password_salt : list Z;
  expires_at : Z;
  created_at : Z;
  env_state : EnvelopeState;
  challenge_hash : option (list Z);
  env_password_attempts : Z;
  challenge_attempts_remaining : Z;
  challenge_expires_at : Z;
  retention_secs : Z;
}.

(** Field updates of the envelope. *)
Definition env_with_state (st : EnvelopeState) (e : DirectedEnvelope) : DirectedEnvelope :=
  mkEnvelope (envelope_id e) (version e) (sender_pubkey e) (recipient_pubkey e)
    (ephemeral_pubkey e) (encrypted_payload e) (payload_nonce e) (password_salt e)
    (expires_at e) (created_at e) st (challenge_hash e) (env_password_attempts e)
    (challenge_attempts_remaining e) (challenge_expires_at e) (retention_secs e).
Definition env_with_retention (exp ret : Z) (e : DirectedEnvelope) : DirectedEnvelope :=
  mkEnvelope (envelope_id e) (version e) (sender_pubkey e) (recipient_pubkey e)
    (ephemeral_pubkey e) (encrypted_payload e) (payload_nonce e) (password_salt e)
    exp (created_at e) (env_state e) (challenge_hash e) (env_password_attempts e)
    (challenge_attempts_remaining e) (challenge_expires_at e) ret.
Definition env_with_challenge_attempts (n : Z) (e : DirectedEnvelope) : DirectedEnvelope :=
  mkEnvelope (envelope_id e) (version e) (sender_pubkey e) (recipient_pubkey e)
    (ephemeral_pubkey e) (encrypted_payload e) (payload_nonce e) (password_salt e)
    (expires_at e) (created_at e) (env_state e) (challenge_hash e) (env_password_attempts e)
    n (challenge_expires_at e) (retention_secs e).

Definition env_is_expired (e : DirectedEnvelope) (now_secs : Z) : bool :=
  expires_at e <=? now_secs.

Definition set_retention (secs : Z) (e : DirectedEnvelope) : DirectedEnvelope :=
  env_with_retention (sat_add u64_max (created_at e) secs) secs e.

Inductive RetentionWindowError := EndsBeforeItStarts.

Definition normalize_received_retention (e : DirectedEnvelope) (now_secs : Z) :
    result DirectedEnvelope RetentionWindowError :=
  if expires_at e <=? created_at e then Err EndsBeforeItStarts
  else Ok (env_with_retention
             (Z.min (expires_at e) (sat_add u64_max now_secs MAX_RETENTION_SECS))
             (Z.min (retention_secs e) MAX_RETENTION_SECS) e).

Definition is_challenge_expired (e : DirectedEnvelope) (now_secs : Z) : bool :=
  (0 <? challenge_expires_at e) && (challenge_expires_at e <=? now_secs).

Definition check_expiry (e : DirectedEnvelope) (now_secs : Z) : DirectedEnvelope :=
  if env_is_expired e now_secs && negb (is_terminal (env_state e))
  then env_with_state Expired e else e.

(** ** The confirmation challenge *)

Definition CHALLENGE_TTL_SECS : Z := 300.
Definition CHALLENGE_MAX_ATTEMPTS : Z := 3.
Definition PASSWORD_MAX_ATTEMPTS : Z := 3.
Definition CHALLENGE_ALPHABET : str := lit "23456789ABCDEFGHJKMNPQRSTUVWXYZ".

Definition hyphen : Z := 45.

Section Challenge.
Context {UT : UnicodeTables} (blake3 : list Z -> list Z).

(** The eight random draws are the argument. *)
Definition generate_challenge (idxs : list nat) : str * list Z :=
  let raw := map (fun i => nth i CHALLENGE_ALPHABET 0) idxs in
  let formatted := take 4 raw ++ [hyphen] ++ drop 4 raw in
  (formatted, blake3 (as_bytes formatted)).

Definition normalize_challenge (input : str) : outcome str :=
  let clean := List.filter is_alphanumeric (to_uppercase (trim input)) in
  if str_len clean =? 8 then
    let! a := slice_to 4 clean in
    let! b := slice_from 4 clean in
    Ret (a ++ [hyphen] ++ b)
  else Ret clean.

Definition verify_challenge (input : str) (expected_hash : list Z) : outcome bool :=
  let! normalized := normalize_challenge input in
  Ret (bool_decide (blake3 (as_bytes normalized) = expected_hash)).

End Challenge.
Arguments generate_challenge : simpl never.

(** ** Records *)

Inductive Protection := V2 | LegacyV1.

Record InviteExtLocal := mkInviteExt { credential : list Z }.

Record MonoDeadline := mkMono {
  issued_mono_ms : Z;
  ttl_ms : Z;
  wall_expires_at : Z;
}.

Definition mono_is_expired (d : MonoDeadline) (now_mono_ms : Z) : bool :=
  match checked_sub now_mono_ms (issued_mono_ms d) with
  | Some elapsed => ttl_ms d <=? elapsed
  | None => false
  end.

Record ChallengeLocal := mkChallenge {
  ch_hash : list Z;
  attempts_remaining : Z;
  ch_expires : MonoDeadline;
}.

Record IncomingLocal := mkLocal {
  l_state : EnvelopeState;
  l_challenge : option ChallengeLocal;
  password_attempts_remaining : Z;
  password_attempt_pending : bool;
  received_at : Z;
  effective_expires_at : Z;
  sender_peer_id : str;
  protection : Protection;
  transcript_hash : option (list Z);
  r_eph_secret : option (list Z);
}.

Record Now := mkNow { wall_secs : Z; mono_ms : Z }.

Inductive IncomingEvent :=
| Confirm (code : str)
| PasswordAttemptStart
| RetrievedOk
| PasswordWrong
| RetrievalNetworkFailure
| SenderRevoke
| RecipientDelete
| ExpiryTick
| ChallengeTimeout.

Record Effects := mkEffects {
  clear_challenge : bool;
  fx_clear_r_eph : bool;
  reached_terminal : bool;
  delete_file : bool;
  no_write : bool;
}.
Definition no_effects : Effects := mkEffects false false false false false.

Inductive Illegal := illegal.

Record IncomingRecord := mkIncoming {
  in_wire : DirectedEnvelope;
  in_ext : option InviteExtLocal;
  in_local : option IncomingLocal;
}.

Inductive OutgoingPhase :=
| Fresh | AwaitingRecipient | Delivered | DeliveredLegacy | OutConfirmed | OutExpired
| OutSenderRevoked | DeliveryFailed | OutChallengeFailed.

Definition phase_is_terminal (p : OutgoingPhase) : bool :=
  match p with
  | OutExpired | OutSenderRevoked | DeliveryFailed | OutChallengeFailed => true
  | _ => false
  end.

Inductive OutgoingEvent :=
| Published | InviteStored | EvDeliveredLegacy | RetentionPassed | UserRevoke
| EvDeliveryFailed | ConfirmOk | ConfirmWrong (attempts_remaining : Z).

Record OutgoingRecord := mkOutgoing {
  out_wire : DirectedEnvelope;
  phase : OutgoingPhase;
  recipient_attempts_remaining : option Z;
}.

Definition LEGACY_SENDER : str := lit "<legacy/unbound>".

(** [clamp_expiry]: never past [received + MAX_RETENTION_SECS]. *)
Definition clamp_expiry (sender_expires_at received_wall_secs : Z) : Z :=
  Z.min sender_expires_at (sat_add u64_max received_wall_secs MAX_RETENTION_SECS).

Definition new_incoming (wire : DirectedEnvelope) (ext : option InviteExtLocal) (peer : str)
    (prot : Protection) (challenge : ChallengeLocal) (tries : Z)
    (r_eph : option (list Z)) (now : Now) : IncomingRecord :=
  mkIncoming wire ext (Some
    {| l_state := ChallengeIssued;
       l_challenge := Some challenge;
       password_attempts_remaining := tries;
       password_attempt_pending := false;
       received_at := wall_secs now;
       effective_expires_at := clamp_expiry (expires_at wire) (wall_secs now);
       sender_peer_id := peer;
       protection := prot;
       transcript_hash := None;
       r_eph_secret := r_eph |}).

Definition migrate_v1 (r : IncomingRecord) (peer : option str)
    (rebuilt_challenge existing_challenge : option ChallengeLocal) (now : Now) : IncomingRecord :=
  match in_local r with
  | Some _ => r
  | None =>
      let file_state := env_state (in_wire r) in
      let '(st, ch) :=
        if bool_decide (file_state = Pending) then (ChallengeIssued, rebuilt_challenge)
        else (file_state, existing_challenge) in
      mkIncoming (in_wire r) (in_ext r) (Some
        {| l_state := st;
           l_challenge := ch;
           password_attempts_remaining := env_password_attempts (in_wire r);
           password_attempt_pending := false;
           received_at := wall_secs now;
           effective_expires_at := clamp_expiry (expires_at (in_wire r)) (wall_secs now);
           sender_peer_id := default LEGACY_SENDER peer;
           protection := LegacyV1;
           transcript_hash := None;
           r_eph_secret := None |})
  end.

Definition effective_state (r : IncomingRecord) : EnvelopeState :=
  match in_local r with
  | Some l => l_state l
  | None => env_state (in_wire r)
  end.

(** Field updates of the local part; [clear_r_eph] drops the zeroized secret. *)
Definition with_state (st : EnvelopeState) (l : IncomingLocal) : IncomingLocal :=
  mkLocal st (l_challenge l) (password_attempts_remaining l) (password_attempt_pending l)
    (received_at l) (effective_expires_at l) (sender_peer_id l) (protection l)
    (transcript_hash l) (r_eph_secret l).
Definition with_challenge (c : option ChallengeLocal) (l : IncomingLocal) : IncomingLocal :=
  mkLocal (l_state l) c (password_attempts_remaining l) (password_attempt_pending l)
    (received_at l) (effective_expires_at l) (sender_peer_id l) (protection l)
    (transcript_hash l) (r_eph_secret l).
Definition with_tries (n : Z) (pending : bool) (l : IncomingLocal) : IncomingLocal :=
  mkLocal (l_state l) (l_challenge l) n pending
    (received_at l) (effective_expires_at l) (sender_peer_id l) (protection l)
    (transcript_hash l) (r_eph_secret l).
Definition clear_r_eph (l : IncomingLocal) : IncomingLocal :=
  mkLocal (l_state l) (l_challenge l) (password_attempts_remaining l) (password_attempt_pending l)
    (received_at l) (effective_expires_at l) (sender_peer_id l) (protection l)
    (transcript_hash l) None.

(** The assignments every terminal arm repeats: new state, no challenge, no
    ephemeral secret. *)
Definition fail_closed (st : EnvelopeState) (l : IncomingLocal) : IncomingLocal :=
  clear_r_eph (with_challenge None (with_state st l)).
Definition terminal_effects (delete : bool) : Effects := mkEffects true true true delete false.

(** The pre-spent try is returned only while one is outstanding. *)
Definition give_back (l : IncomingLocal) : IncomingLocal :=
  if password_attempt_pending l
  then with_tries (sat_add u8_max (password_attempts_remaining l) 1) false l else l.

(** ** Transition functions *)

Section Step.
Context {UT : UnicodeTables} (blake3 : list Z -> list Z).

(** The arm [(ChallengeIssued, Confirm)]. *)
Definition confirm_arm (l : IncomingLocal) (code : str) (now : Now) :
    outcome (IncomingLocal * result Effects Illegal) :=
  match l_challenge l with
  | None => Ret (l, Err illegal)
  | Some ch =>
      if mono_is_expired (ch_expires ch) (mono_ms now) then
        Ret (fail_closed ChallengeFailed l, Ok (terminal_effects true))
      else
        let! good := verify_challenge blake3 code (ch_hash ch) in
        if good : bool then
          Ret (with_challenge None (with_state Confirmed l),
               Ok (mkEffects true false false false false))
        else if 1 <? attempts_remaining ch then
          Ret (with_challenge
                 (Some (mkChallenge (ch_hash ch) (attempts_remaining ch - 1) (ch_expires ch))) l,
               Ok no_effects)
        else Ret (fail_closed ChallengeFailed l, Ok (terminal_effects true))
  end.

(** [IncomingRecord::step] on the local part, past the terminal check. *)
Definition live_step (l : IncomingLocal) (event : IncomingEvent) (now : Now) :
    outcome (IncomingLocal * result Effects Illegal) :=
  match l_state l, event with
  | ChallengeIssued, Confirm code => confirm_arm l code now
  | ChallengeIssued, ChallengeTimeout =>
      Ret (fail_closed ChallengeFailed l, Ok (terminal_effects true))
  | Confirmed, PasswordAttemptStart =>
      if password_attempts_remaining l =? 0 then Ret (l, Err illegal)
      else Ret (with_tries (password_attempts_remaining l - 1) true l, Ok no_effects)
  | Confirmed, RetrievedOk =>
      Ret (clear_r_eph (with_state Retrieved (give_back l)),
           Ok (mkEffects false true true false false))
  | Confirmed, PasswordWrong =>
      let l' := with_tries (password_attempts_remaining l) false l in
      if password_attempts_remaining l =? 0 then
        Ret (clear_r_eph (with_state PasswordFailed l'),
             Ok (mkEffects false true true false false))
      else Ret (l', Ok no_effects)
  | Confirmed, RetrievalNetworkFailure => Ret (give_back l, Ok no_effects)
  | (ChallengeIssued | Confirmed), SenderRevoke =>
      Ret (fail_closed SenderRevoked l, Ok (terminal_effects false))
  | (ChallengeIssued | Confirmed), RecipientDelete =>
      Ret (fail_closed RecipientDeleted l, Ok (terminal_effects false))
  | (ChallengeIssued | Confirmed), ExpiryTick =>
      if wall_secs now <? effective_expires_at l then Ret (l, Err illegal)
      else Ret (fail_closed Expired l, Ok (terminal_effects false))
  | _, _ => Ret (l, Err illegal)
  end.

Definition is_sender_revoke (e : IncomingEvent) : bool :=
  match e with SenderRevoke => true | _ => false end.

(** [IncomingRecord::step]: the record is mutated in place. *)
Definition incoming_step (r : IncomingRecord) (event : IncomingEvent) (now : Now) :
    outcome (IncomingRecord * result Effects Illegal) :=
  match in_local r with
  | None => Ret (r, Err illegal)
  | Some l =>
      if is_terminal (l_state l) then
        if is_sender_revoke event && bool_decide (l_state l = SenderRevoked)
        then Ret (r, Ok (mkEffects false false false false true))
        else Ret (r, Err illegal)
      else
        let! (l', res) := live_step l event now in
        Ret (mkIncoming (in_wire r) (in_ext r) (Some l'), res)
  end.

End Step.

(** [OutgoingRecord::step]. *)
Definition outgoing_step (o : OutgoingRecord) (event : OutgoingEvent) :
    OutgoingRecord * result Effects Illegal :=
  let goto p := mkOutgoing (out_wire o) p (recipient_attempts_remaining o) in
  match phase o, event with
  | Fresh, Published => (goto AwaitingRecipient, Ok no_effects)
  | (Fresh | AwaitingRecipient), InviteStored =>
      (goto Delivered, Ok (mkEffects false true false false false))
  | (Fresh | AwaitingRecipient), EvDeliveredLegacy =>
      (goto DeliveredLegacy, Ok (mkEffects false true false false false))
  | AwaitingRecipient, RetentionPassed =>
      (goto OutExpired, Ok (mkEffects false true true false false))
  | AwaitingRecipient, UserRevoke =>
      (goto OutSenderRevoked, Ok (mkEffects false true true false false))
  | (Fresh | AwaitingRecipient), EvDeliveryFailed =>
      (goto DeliveryFailed, Ok (mkEffects false true true false false))
  | (Delivered | DeliveredLegacy), ConfirmOk => (goto OutConfirmed, Ok no_effects)
  | (Delivered | DeliveredLegacy), ConfirmWrong n =>
      if n =? 0
      then (mkOutgoing (out_wire o) OutChallengeFailed (Some n),
            Ok (mkEffects false false true false false))
      else (mkOutgoing (out_wire o) (phase o) (Some n), Ok no_effects)
  | (Delivered | OutConfirmed), UserRevoke =>
      (goto OutSenderRevoked, Ok (mkEffects false false true false false))
  | (Delivered | OutConfirmed), RetentionPassed =>
      (goto OutExpired, Ok (mkEffects false false true false false))
  | _, _ => (o, Err illegal)
  end.

(** ** Properties of the confirmation code *)

(** The letters and digits of an ASCII text, in order and in upper case. *)
Definition ascii_core (s : str) : str := List.filter is_ascii_alphanumeric (map ascii_upper s).

(** How a core is laid out before hashing: eight characters get the hyphen. *)
Definition layout_code (core : str) : str :=
  if zlen core =? 8 then take 4 core ++ [hyphen] ++ drop 4 core else core.

Section ChallengeFacts.
Context {UT : UnicodeTables}.

Lemma to_uppercase_ascii s :
  Forall (fun c => c < 128) s -> to_uppercase s = map ascii_upper s.
Proof.
  induction 1 as [|c s Hc _ IH]; [done|]. unfold to_uppercase in *; simpl.
  rewrite IH. unfold char_to_uppercase. case_match; [done|lia].
Qed.

Lemma ascii_upper_lt c : c < 128 -> ascii_upper c < 128.
Proof. unfold ascii_upper; case_match; lia. Qed.

Lemma filter_alnum_ascii s :
  Forall (fun c => c < 128) s -> List.filter is_alphanumeric s = List.filter is_ascii_alphanumeric s.
Proof.
  induction 1 as [|c s Hc _ IH]; [done|]. simpl. rewrite IH.
  unfold is_alphanumeric. destruct (Z.ltb_spec c 128); [done|lia].
Qed.

Lemma ascii_core_app s t : ascii_core (s ++ t) = ascii_core s ++ ascii_core t.
Proof. unfold ascii_core. by rewrite map_app, List.filter_app. Qed.

Lemma ascii_core_ws c : is_whitespace c = true -> is_ascii_alphanumeric (ascii_upper c) = false.
Proof.
  unfold ascii_upper, is_ascii_alphanumeric, is_ascii_digit, is_ascii_upper, is_ascii_lower,
    is_whitespace; case_match; lia.
Qed.

Lemma ascii_core_trim_start s : ascii_core (trim_start s) = ascii_core s.
Proof.
  induction s as [|c s IH]; [done|]. simpl. case_match eqn:Hw; [|done].
  rewrite IH. unfold ascii_core; simpl. by rewrite ascii_core_ws.
Qed.

Lemma ascii_core_rev s : ascii_core (rev s) = rev (ascii_core s).
Proof. unfold ascii_core. by rewrite map_rev, List.filter_rev. Qed.

Lemma ascii_core_trim s : ascii_core (trim s) = ascii_core s.
Proof.
  unfold trim. rewrite ascii_core_rev, ascii_core_trim_start, ascii_core_rev,
    ascii_core_trim_start. apply rev_involutive.
Qed.

Lemma Forall_trim_start P (s : str) : Forall P s -> Forall P (trim_start s).
Proof.
  induction 1 as [|c s Hc Hs IH]; simpl; [constructor|].
  case_match; [done|]. by constructor.
Qed.

Lemma Forall_trim P (s : str) : Forall P s -> Forall P (trim s).
Proof. intros Hs. unfold trim. by apply Forall_rev, Forall_trim_start, Forall_rev, Forall_trim_start. Qed.

Lemma ascii_core_ascii s : Forall (fun c => c < 128) s -> Forall (fun c => c < 128) (ascii_core s).
Proof.
  intros Hs. apply Forall_forall. intros c Hc%list_elem_of_In.
  apply filter_In in Hc as [(d & <- & Hd)%in_map_iff _].
  apply ascii_upper_lt. rewrite Forall_forall in Hs. apply Hs. by apply list_elem_of_In.
Qed.

(** Normalisation of ASCII input never panics, and has this value. *)
Lemma normalize_challenge_ascii s :
  Forall (fun c => c < 128) s -> normalize_challenge s = Ret (layout_code (ascii_core s)).
Proof.
  intros Hs. unfold normalize_challenge.
  rewrite to_uppercase_ascii by (by apply Forall_trim).
  rewrite filter_alnum_ascii.
  2:{ apply Forall_map. eapply Forall_impl; [by apply Forall_trim|]. apply ascii_upper_lt. }
  change (List.filter is_ascii_alphanumeric (map ascii_upper (trim s))) with (ascii_core (trim s)).
  rewrite ascii_core_trim. pose proof (ascii_core_ascii s Hs) as Hc.
  rewrite str_len_ascii by done. unfold layout_code.
  destruct (Z.eqb_spec (zlen (ascii_core s)) 8) as [H8|]; [|done].
  unfold slice_to, slice_from. change 4 with (Z.of_nat 4) at 1 2.
  rewrite split_at_byte_ascii by (first [done | unfold zlen in H8; lia]). done.
Qed.

End ChallengeFacts.

(** The alphabet is upper-case letters and digits only. *)
Lemma ascii_core_alphabet idxs :
  Forall (fun i => (i < 31)%nat) idxs ->
  ascii_core (map (fun i => nth i CHALLENGE_ALPHABET 0) idxs)
  = map (fun i => nth i CHALLENGE_ALPHABET 0) idxs.
Proof.
  induction 1 as [|i l Hi _ IH]; [done|].
  rewrite map_cons. rewrite <- IH at 2.
  change (ascii_core ([nth i CHALLENGE_ALPHABET 0] ++ map (fun i => nth i CHALLENGE_ALPHABET 0) l)
    = [nth i CHALLENGE_ALPHABET 0] ++ ascii_core (map (fun i => nth i CHALLENGE_ALPHABET 0) l)).
  rewrite ascii_core_app. f_equal.
  do 31 (destruct i as [|i]; [reflexivity|]). lia.
Qed.

Lemma generated_code_verifies_lemma {UT : UnicodeTables} (blake3 : list Z -> list Z) (idxs : list nat)
    (s : str) :
  length idxs = 8%nat ->
  Forall (fun i => (i < 31)%nat) idxs ->
  Forall (fun c => c < 128) s ->
  (forall h, exists b, verify_challenge blake3 s h = Ret b) /\
  (ascii_core s = ascii_core (fst (generate_challenge blake3 idxs)) ->
   verify_challenge blake3 s (snd (generate_challenge blake3 idxs)) = Ret true).
Proof.
  intros Hlen Hidx Hs. unfold verify_challenge.
  rewrite normalize_challenge_ascii by done. cbn [outcome_bind].
  split; [eauto|]. intros Hcore. f_equal. apply bool_decide_eq_true.
  do 2 f_equal. rewrite Hcore. unfold generate_challenge; cbn [fst snd].
  set (raw := map (fun i => nth i CHALLENGE_ALPHABET 0) idxs).
  assert (ascii_core (take 4 raw ++ [hyphen] ++ drop 4 raw) = raw) as ->.
  { rewrite ascii_core_app. change (ascii_core ([hyphen] ++ drop 4 raw)) with (ascii_core (drop 4 raw)).
    rewrite <- ascii_core_app, take_drop.
    by apply ascii_core_alphabet. }
  unfold layout_code, zlen. subst raw. rewrite length_map, Hlen. done.
Qed.

(** Confirmation code round trip: a generated code is accepted in every
    ASCII spelling that keeps its letters and digits in order (lower case, no
    hyphen, other separators, surrounding blanks), and verification of ASCII
    input never panics. *)
Theorem generated_code_verifies {UT : UnicodeTables} (blake3 : list Z -> list Z) (idxs : list nat)
    (s : str) :
  length idxs = 8%nat ->
  Forall (fun i => (i < 31)%nat) idxs ->
  Forall (fun c => c < 128) s ->
  (forall h, exists b, verify_challenge blake3 s h = Ret b) /\
  (ascii_core s = ascii_core (fst (generate_challenge blake3 idxs)) ->
   verify_challenge blake3 s (snd (generate_challenge blake3 idxs)) = Ret true).
Proof. apply generated_code_verifies_lemma. Qed.

(** A concrete table outside ASCII: kana are letters without an upper case. *)
Definition kana_tables : UnicodeTables :=
  {| upper_ext := fun c => [c]; alnum_ext := fun c => (12353 <=? c) && (c <=? 12542) |}.

Lemma generated_code_verifies_witness :
  @verify_challenge kana_tables (fun b => b) (lit " 2345 abcd ")
    (snd (generate_challenge (fun b => b) [0; 1; 2; 3; 8; 9; 10; 11]%nat)) = Ret true.
Proof.
  apply (generated_code_verifies (UT := kana_tables) (fun b => b) [0; 1; 2; 3; 8; 9; 10; 11]%nat
           (lit " 2345 abcd ")).
  - reflexivity.
  - repeat constructor.
  - repeat constructor.
  - vm_compute. reflexivity.
Defined.

(** ** Properties of the recipient machine *)

(** What holds of the local part of every record built by [new_incoming] with
    [tries] password attempts. *)
Record incoming_inv (tries : Z) (l : IncomingLocal) : Prop := {
  inv_tries : 0 <= password_attempts_remaining l;
  inv_budget : password_attempts_remaining l + Z.b2z (password_attempt_pending l) <= tries;
  inv_challenge : l_state l <> ChallengeIssued -> l_challenge l = None;
  inv_terminal : is_terminal (l_state l) = true -> r_eph_secret l = None;
  inv_not_pending : l_state l <> Pending;
  inv_expiry : effective_expires_at l <= received_at l + MAX_RETENTION_SECS;
}.

Section IncomingFacts.
Context {UT : UnicodeTables} (blake3 : list Z -> list Z).

(** One transition of a record, labelled with the event and its clock reading. *)
Definition incoming_trans (r : IncomingRecord) (ev : IncomingEvent * Now) (r' : IncomingRecord) : Prop :=
  exists res, incoming_step blake3 r (fst ev) (snd ev) = Ret (r', res).

Lemma give_back_inv tries l :
  tries <= u8_max -> incoming_inv tries l -> incoming_inv tries (give_back l).
Proof.
  intros Ht [K1 K2 K3 K4 K5 K6]. unfold give_back.
  destruct (password_attempt_pending l) eqn:Hp; [|by constructor; rewrite ?Hp].
  constructor; simpl in *; try done; ulia.
Qed.

Lemma fail_closed_inv tries st l :
  st <> Pending -> incoming_inv tries l -> incoming_inv tries (fail_closed st l).
Proof. intros Hst [K1 K2 K3 K4 K5 K6]. constructor; simpl; done. Qed.

Lemma confirm_arm_inv tries l code now l' res :
  l_state l = ChallengeIssued -> incoming_inv tries l ->
  confirm_arm blake3 l code now = Ret (l', res) -> incoming_inv tries l'.
Proof.
  intros Hst Hinv. unfold confirm_arm.
  destruct (l_challenge l) as [ch|] eqn:Hch; [|by intros [= <- <-]].
  case_match; [intros [= <- <-]; by apply fail_closed_inv|].
  destruct (verify_challenge blake3 code (ch_hash ch)) as [[]|]; simpl; [| |done].
  - intros [= <- <-]. destruct Hinv. by constructor.
  - case_match; intros [= <- <-]; [|by apply fail_closed_inv].
    destruct Hinv as [K1 K2 K3 K4 K5 K6]. constructor; simpl; try done.
Qed.

Lemma live_step_inv tries l e now l' res :
  tries <= u8_max -> incoming_inv tries l ->
  live_step blake3 l e now = Ret (l', res) -> incoming_inv tries l'.
Proof.
  intros Ht Hinv. unfold live_step. pose proof Hinv as [K1 K2 K3 K4 K5 K6].
  pose proof (give_back_inv tries l Ht Hinv) as [G1 G2 G3 G4 G5 G6].
  destruct (l_state l) eqn:Hst, e; try (by intros [= <- <-]);
    try (by intros [= <- <-]; apply fail_closed_inv).
  - intros Hc. by eapply confirm_arm_inv.
  - case_match; intros [= <- <-]; [done|by apply fail_closed_inv].
  - case_match; intros [= <- <-]; [done|].
    constructor; simpl; rewrite ?Hst in *; try done; lia.
  - intros [= <- <-]. constructor; simpl; try done. intros _. apply G3.
    unfold give_back; case_match; simpl; congruence.
  - case_match; intros [= <- <-]; constructor; simpl; rewrite ?Hst in *; try done; try lia.
    intros _. by apply K3.
  - case_match; intros [= <- <-]; [done|by apply fail_closed_inv].
Qed.

Lemma incoming_step_local r e now r' res l tries :
  tries <= u8_max -> in_local r = Some l -> incoming_inv tries l ->
  incoming_step blake3 r e now = Ret (r', res) ->
  exists l', in_local r' = Some l' /\ incoming_inv tries l' /\ in_wire r' = in_wire r
             /\ in_ext r' = in_ext r.
Proof.
  intros Ht Hl Hinv. unfold incoming_step. rewrite Hl.
  case_match; [case_match; intros [= <- <-]; eauto|].
  destruct (live_step blake3 l e now) as [[l' res']|] eqn:Hs; simpl; [|done].
  intros [= <- <-]. simpl. eexists; split_and!; try done. by eapply live_step_inv.
Qed.

(** C29. Safety invariant of a received directed share: in every state the
    recipient record can reach from [new_incoming], over any events at any
    clock readings, the password budget is never exceeded (tries left plus the
    outstanding pre-spent one), a challenge is held only while it is issued,
    the ephemeral secret is gone in every terminal state, retention never
    exceeds thirty days after receipt, and the wire part is unchanged. *)
Theorem incoming_reachable_inv wire ext peer prot ch tries r_eph now0 r :
  in_u8 tries ->
  0 <= wall_secs now0 ->
  reachable (eq (new_incoming wire ext peer prot ch tries r_eph now0)) incoming_trans r ->
  exists l, in_local r = Some l /\ incoming_inv tries l /\ in_wire r = wire /\ in_ext r = ext.
Proof.
  intros [Ht0 Ht] Hnow. revert r. apply reachable_invariant.
  - intros r <-. eexists; split_and!; [done| |done|done].
    constructor; simpl; try done; try lia.
    unfold clamp_expiry, MAX_RETENTION_SECS. ulia.
  - intros r [e now] r' (l & Hl & Hinv & Hw & Hx) [res Hs].
    destruct (incoming_step_local r e now r' res l tries Ht Hl Hinv Hs) as (l' & ? & ? & ? & ?).
    exists l'; split_and!; congruence.
Qed.

(** A run over events, each at its own clock reading; the result also lists
    the events with whether the record took them. *)
Fixpoint run_incoming (r : IncomingRecord) (evs : list (IncomingEvent * Now)) :
    outcome (IncomingRecord * list (IncomingEvent * bool)) :=
  match evs with
  | [] => Ret (r, [])
  | (e, now) :: rest =>
      let! (r', res) := incoming_step blake3 r e now in
      let! (r'', log) := run_incoming r' rest in
      Ret (r'', (e, match res with Ok _ => true | Err _ => false end) :: log)
  end.

Definition tries_left (r : IncomingRecord) : Z :=
  match in_local r with Some l => password_attempts_remaining l | None => 0 end.

(** The passwords tried, told from the events alone: the attempts started, those
    given back because a failure or a success followed them, those answered
    as wrong, and whether one is still unanswered.  A failure that answers no
    attempt gives nothing back. *)
Record Guesses := mkGuesses { started : Z; returned : Z; wrong : Z; unanswered : bool }.

Definition guess (k : Guesses) (x : IncomingEvent * bool) : Guesses :=
  match x with
  | (PasswordAttemptStart, true) => mkGuesses (started k + 1) (returned k) (wrong k) true
  | ((RetrievalNetworkFailure | RetrievedOk), true) =>
      mkGuesses (started k) (returned k + Z.b2z (unanswered k)) (wrong k) false
  | (PasswordWrong, true) => mkGuesses (started k) (returned k) (wrong k + Z.b2z (unanswered k)) false
  | _ => k
  end.

(** What a record and the guesses made since [n] tries were left have in common. *)
Definition guesses_match (n : Z) (l : IncomingLocal) (k : Guesses) : Prop :=
  0 <= password_attempts_remaining l /\
  password_attempts_remaining l + Z.b2z (password_attempt_pending l) <= u8_max /\
  password_attempt_pending l = unanswered k /\
  password_attempts_remaining l + started k = n + returned k.

Ltac keep_guesses := split_and!; simpl in *; try done; try congruence; destruct (unanswered _); simpl in *; ulia.

Lemma incoming_step_guess n r l k e now r' res :
  in_local r = Some l -> guesses_match n l k -> incoming_step blake3 r e now = Ret (r', res) ->
  exists l', in_local r' = Some l' /\ guesses_match n l' (guess k (e, match res with Ok _ => true | Err _ => false end)).
Proof.
  intros Hl (K1 & K2 & K3 & K4). unfold incoming_step. rewrite Hl. case_match.
  { case_match; intros [= <- <-]; (exists l; split; [done|]).
    - destruct e; try done; by keep_guesses.
    - destruct e; by keep_guesses. }
  destruct (live_step blake3 l e now) as [[l' res']|] eqn:Hs; cbn [outcome_bind]; [|done].
  intros [= <- <-]. exists l'. split; [done|]. revert Hs K2. rewrite K3. unfold live_step, confirm_arm, give_back. rewrite K3.
  destruct (l_state l), e; try (intros [= <- <-] ?; by keep_guesses).
  - destruct (l_challenge l) as [ch|]; [|intros [= <- <-] ?; by keep_guesses]. case_match; [intros [= <- <-] ?; by keep_guesses|].
    destruct (verify_challenge _ _ _) as [[]|]; cbn [outcome_bind]; try done; repeat case_match; intros [= <- <-] ?; by keep_guesses.
  - case_match; intros [= <- <-] ?; by keep_guesses.
  - destruct (Z.eqb_spec (password_attempts_remaining l) 0); intros [= <- <-] ?; split_and!; simpl; try done; ulia.
  - destruct (Z.eqb_spec (password_attempts_remaining l) 0); intros [= <- <-] ?; split_and!; simpl; try done; destruct (unanswered k); ulia.
  - case_match; intros [= <- <-] ?; by keep_guesses.
Qed.

Lemma run_guess n evs r l k r' log :
  in_local r = Some l -> guesses_match n l k -> run_incoming r evs = Ret (r', log) ->
  exists l', in_local r' = Some l' /\ guesses_match n l' (fold_left guess log k).
Proof.
  revert r l k r' log. induction evs as [|[e now] evs IH]; intros r l k r' log Hl Hk; cbn [run_incoming].
  { intros [= <- <-]. eauto. }
  destruct (incoming_step blake3 r e now) as [[r1 res]|] eqn:Hs; cbn [outcome_bind]; [|done].
  destruct (run_incoming r1 evs) as [[r2 log2]|] eqn:Hr; cbn [outcome_bind]; [|done]. intros [= <- <-].
  destruct (incoming_step_guess n r l k e now r1 res Hl Hk Hs) as (l1 & Hl1 & Hk1). cbn [fold_left]. eauto.
Qed.

(** Each attempt is given back or answered at most once. *)
Lemma guess_once log k :
  let k' := fold_left guess log k in
  returned k' + wrong k' + Z.b2z (unanswered k') - started k' <= returned k + wrong k + Z.b2z (unanswered k) - started k.
Proof.
  cbn zeta. revert k. induction log as [|x log IH]; intros k; cbn [fold_left]; [lia|]. etrans; [apply IH|].
  destruct x as [[] []]; simpl; destruct (unanswered k); simpl; lia.
Qed.

(** C13. Password guessing is bounded: whatever the events, their order and the
    clock, the tries left are exactly those at first, less one for each attempt
    that was let start, plus one for each attempt that a network failure or a
    success answered; such an event gives nothing back when no attempt is
    unanswered.  So a record never takes more wrong passwords than it had tries
    (one more when an attempt was already under way), however often retrieval
    fails in between. *)
Theorem password_guess_budget (r : IncomingRecord) (l : IncomingLocal) (evs : list (IncomingEvent * Now)) r' log :
  in_local r = Some l -> 0 <= password_attempts_remaining l ->
  password_attempts_remaining l + Z.b2z (password_attempt_pending l) <= u8_max ->
  run_incoming r evs = Ret (r', log) ->
  let k := fold_left guess log (mkGuesses 0 0 0 (password_attempt_pending l)) in
  0 <= tries_left r' /\ tries_left r' = tries_left r - started k + returned k /\
  wrong k <= tries_left r + Z.b2z (password_attempt_pending l).
Proof.
  intros Hl H0 H1 Hr k. set (k0 := mkGuesses 0 0 0 (password_attempt_pending l)) in k.
  destruct (run_guess (password_attempts_remaining l) evs r l k0 r' log Hl) as (l' & Hl' & K1 & _ & _ & K4); [by split_and!; simpl; try done; lia|done|].
  pose proof (guess_once log k0) as Hg. cbn zeta in Hg. unfold tries_left. rewrite Hl, Hl'. fold k in Hg, K4. simpl in Hg.
  destruct (unanswered k); simpl in Hg; split_and!; lia.
Qed.

(** A wrong, timely code spends one challenge try or ends the record. *)
Lemma wrong_code_step r l ch code now :
  in_local r = Some l -> l_state l = ChallengeIssued -> l_challenge l = Some ch ->
  mono_is_expired (ch_expires ch) (mono_ms now) = false ->
  verify_challenge blake3 code (ch_hash ch) = Ret false ->
  incoming_step blake3 r (Confirm code) now =
  Ret (if 1 <? attempts_remaining ch
       then (mkIncoming (in_wire r) (in_ext r) (Some (with_challenge
               (Some (mkChallenge (ch_hash ch) (attempts_remaining ch - 1) (ch_expires ch))) l)),
             Ok no_effects)
       else (mkIncoming (in_wire r) (in_ext r) (Some (fail_closed ChallengeFailed l)),
             Ok (terminal_effects true))).
Proof.
  intros Hl Hst Hch Hexp Hv. unfold incoming_step, live_step, confirm_arm.
  rewrite Hl, Hst, Hch, Hexp, Hv; simpl. by case_match.
Qed.

(** Confirmation guessing is bounded: from an issued challenge with [k]
    tries, wrong codes presented in time leave [k - n] tries after [n < k] of
    them, and the [k]-th one ends the share as [ChallengeFailed] with the
    challenge and the ephemeral secret dropped. *)
Theorem challenge_guess_budget (r : IncomingRecord) l ch (codes : list (str * Now)) :
  in_local r = Some l -> l_state l = ChallengeIssued -> l_challenge l = Some ch ->
  1 <= attempts_remaining ch ->
  zlen codes <= attempts_remaining ch ->
  Forall (fun c => verify_challenge blake3 (fst c) (ch_hash ch) = Ret false /\
                   mono_is_expired (ch_expires ch) (mono_ms (snd c)) = false) codes ->
  exists r' l' log, run_incoming r (map (fun c => (Confirm (fst c), snd c)) codes) = Ret (r', log) /\
    in_local r' = Some l' /\
    if zlen codes <? attempts_remaining ch
    then l_state l' = ChallengeIssued /\
         l_challenge l' = Some (mkChallenge (ch_hash ch) (attempts_remaining ch - zlen codes)
                                  (ch_expires ch))
    else l_state l' = ChallengeFailed /\ l_challenge l' = None /\ r_eph_secret l' = None.
Proof.
  intros Hl Hst Hch Hk Hn Hall. revert r l ch Hl Hst Hch Hk Hn Hall.
  induction codes as [|[code now] codes IH]; intros r l ch Hl Hst Hch Hk Hn Hall.
  { exists r, l, []. simpl. destruct (Z.ltb_spec (zlen (@nil (str * Now))) (attempts_remaining ch)).
    - split_and!; try done. rewrite zlen_nil, Z.sub_0_r, Hch. by destruct ch.
    - rewrite zlen_nil in *. lia. }
  apply Forall_cons in Hall as [[Hv Hexp] Hall]. simpl in Hv, Hexp.
  cbn [map run_incoming fst snd].
  rewrite (wrong_code_step r l ch code now) by done. rewrite zlen_cons in *.
  destruct (Z.ltb_spec 1 (attempts_remaining ch)) as [Hgt|Hle]; cbn [outcome_bind].
  - edestruct (IH (mkIncoming (in_wire r) (in_ext r) (Some (with_challenge
        (Some (mkChallenge (ch_hash ch) (attempts_remaining ch - 1) (ch_expires ch))) l))))
      as (r' & l' & log & Hrun & Hl' & Hend); [reflexivity|done|reflexivity|simpl; lia|simpl; lia|done|].
    eexists r', l', _. rewrite Hrun. cbn [outcome_bind]. split_and!; [done|done|].
    simpl in Hend. revert Hend. repeat case_match; try lia; [|done].
    intros [? ->]. split; [done|]. do 2 f_equal. lia.
  - assert (zlen codes = 0) as H0 by (pose proof (zlen_nonneg codes); lia).
    destruct codes; [|rewrite zlen_cons in H0; pose proof (zlen_nonneg codes); lia].
    simpl. do 3 eexists. split_and!; [done|done|]. case_match; [lia|done].
Qed.

(** C32. Only the right code opens a share: a record becomes [Confirmed] in one
    step only from an issued, unexpired challenge and on a code whose
    normalised hash is the stored one. *)
Theorem confirmed_only_by_code (r r' : IncomingRecord) e now res :
  incoming_step blake3 r e now = Ret (r', res) ->
  effective_state r' = Confirmed ->
  effective_state r <> Confirmed ->
  exists code l ch, e = Confirm code /\ in_local r = Some l /\ l_state l = ChallengeIssued /\
    l_challenge l = Some ch /\
    mono_is_expired (ch_expires ch) (mono_ms now) = false /\
    (exists norm, normalize_challenge code = Ret norm /\
                  blake3 (as_bytes norm) = ch_hash ch).
Proof.
  unfold incoming_step, effective_state. destruct (in_local r) as [l|] eqn:Hl.
  2:{ intros [= <- <-]. rewrite Hl. done. }
  case_match. { case_match; intros [= <- <-]; rewrite Hl; done. }
  destruct (live_step blake3 l e now) as [[l' res']|] eqn:Hs; simpl; [|done].
  intros [= <- <-]; simpl. revert Hs. unfold live_step.
  destruct (l_state l) eqn:Hst, e; simpl; try (intros [= <- <-]; simpl; congruence).
  - unfold confirm_arm. destruct (l_challenge l) as [ch|] eqn:Hch; [|intros [= <- <-]; congruence].
    case_match eqn:Hexp; [intros [= <- <-]; simpl; congruence|].
    destruct (verify_challenge blake3 code (ch_hash ch)) as [[]|] eqn:Hv; simpl; [| |done].
    + intros _ _ _. exists code, l, ch. split_and!; try done.
      revert Hv. unfold verify_challenge.
      destruct (normalize_challenge code) as [norm|]; simpl; [|done].
      intros [= Hb%bool_decide_eq_true]. eauto.
    + case_match; intros [= <- <-]; simpl; congruence.
  - case_match; intros [= <- <-]; simpl; congruence.
  - intros; congruence.
  - intros; congruence.
  - intros; congruence.
Qed.

(** Terminal states are final: any event on a terminal record leaves the
    record as it is, and is refused, except a replayed revoke on a revoked
    share, which succeeds without a write. *)
Theorem incoming_terminal_final (r : IncomingRecord) l e now :
  in_local r = Some l -> is_terminal (l_state l) = true ->
  incoming_step blake3 r e now =
  Ret (r, if is_sender_revoke e && bool_decide (l_state l = SenderRevoked)
          then Ok (mkEffects false false false false true) else Err illegal).
Proof.
  intros Hl Ht. unfold incoming_step. rewrite Hl, Ht. by case_match.
Qed.

(** A remote confirmation code can crash the recipient: a code of eight
    UTF-8 bytes whose fourth byte is inside a character (here two kana and two
    letters) makes [normalize_challenge] slice off a boundary, so the step
    panics whatever the stored challenge is. *)
Theorem confirm_code_can_panic (r : IncomingRecord) l ch now :
  alnum_ext 12354 = true -> upper_ext 12354 = [12354] ->
  in_local r = Some l -> l_state l = ChallengeIssued -> l_challenge l = Some ch ->
  mono_is_expired (ch_expires ch) (mono_ms now) = false ->
  incoming_step blake3 r (Confirm [12354; 12354; 97; 98]) now = Panic.
Proof.
  intros Ha Hu Hl Hst Hch Hexp. unfold incoming_step, live_step, confirm_arm.
  rewrite Hl, Hst, Hch, Hexp. simpl.
  assert (normalize_challenge [12354; 12354; 97; 98] = Panic) as Hn.
  { unfold normalize_challenge. unfold to_uppercase; simpl.
    unfold char_to_uppercase; simpl. rewrite Hu; simpl.
    unfold is_alphanumeric; simpl. rewrite Ha; simpl. reflexivity. }
  unfold verify_challenge. by rewrite Hn.
Qed.

End IncomingFacts.

(** ** Properties of the sender machine and of retention *)

(** How far a share has travelled; terminal phases are last. *)
Definition phase_rank (p : OutgoingPhase) : Z :=
  match p with
  | Fresh => 0
  | AwaitingRecipient => 1
  | Delivered | DeliveredLegacy => 2
  | OutConfirmed => 3
  | OutExpired | OutSenderRevoked | DeliveryFailed | OutChallengeFailed => 4
  end.

(** The sender phase only moves forward: a refused event changes nothing; an
    accepted one keeps the wire part and either strictly advances the phase or
    records a wrong confirmation with tries left; terminal phases accept
    nothing; and the sender secrets are dropped exactly on the step that takes
    the share past [AwaitingRecipient]. *)
Theorem outgoing_moves_forward (o : OutgoingRecord) e :
  let '(o', res) := outgoing_step o e in
  match res with
  | Err _ => o' = o
  | Ok fx =>
      phase_is_terminal (phase o) = false /\
      out_wire o' = out_wire o /\
      (phase_rank (phase o) < phase_rank (phase o') \/
       exists n, e = ConfirmWrong n /\ n <> 0 /\ phase o' = phase o /\
                 recipient_attempts_remaining o' = Some n) /\
      reached_terminal fx = phase_is_terminal (phase o') /\
      (fx_clear_r_eph fx = true <-> phase_rank (phase o) < 2 /\ 2 <= phase_rank (phase o'))
  end.
Proof.
  destruct o as [w p n]. unfold outgoing_step; simpl.
  destruct p, e as [| | | | | | |k]; simpl; try done; try destruct (Z.eqb_spec k 0); simpl;
    (split_and!; [done|done|first [left; lia | right; eexists; split_and!; [done|lia|done|done]]|done|]);
    split; try done; try lia.
Qed.

(** A share delivered over the v1 path accepts neither a revoke nor the end
    of its retention. *)
Lemma legacy_delivery_not_closable (o : OutgoingRecord) e :
  phase o = DeliveredLegacy -> e = UserRevoke \/ e = RetentionPassed ->
  outgoing_step o e = (o, Err illegal).
Proof. intros Hp [-> | ->]; unfold outgoing_step; by rewrite Hp. Qed.

(** Retention of a received envelope is bounded and never extended: the
    normalised envelope expires no later than the sender asked and no later
    than thirty days from now, an already expired share stays expired, the
    other fields are untouched, and a window that ends before it starts is
    refused. *)
Theorem received_retention_bounded (e : DirectedEnvelope) (now : Z) :
  in_u64 now -> in_u64 (expires_at e) ->
  match normalize_received_retention e now with
  | Err _ => expires_at e <= created_at e
  | Ok e' =>
      created_at e < expires_at e /\
      expires_at e' <= expires_at e /\ expires_at e' <= now + MAX_RETENTION_SECS /\
      retention_secs e' <= MAX_RETENTION_SECS /\
      in_u64 (expires_at e') /\
      (env_is_expired e now = true -> expires_at e' = expires_at e) /\
      env_with_retention (expires_at e) (retention_secs e) e' = e
  end.
Proof.
  intros Hn He. unfold normalize_received_retention, MAX_RETENTION_SECS.
  destruct (Z.leb_spec (expires_at e) (created_at e)); [done|].
  unfold env_is_expired. destruct e; simpl in *. split_and!; try ulia. reflexivity.
Qed.

(** The range check of a sender's retention makes the sum overflow-free. *)
Lemma set_retention_exact (e : DirectedEnvelope) r secs :
  checked_secs r = Ok secs -> in_u64 (created_at e) ->
  created_at e + MAX_RETENTION_SECS <= u64_max ->
  expires_at (set_retention secs e) = created_at e + secs.
Proof.
  unfold checked_secs; cbv zeta. case_match eqn:Hb; [|done]. intros [= <-] ? ?.
  unfold set_retention, MIN_RETENTION_SECS, MAX_RETENTION_SECS in *. simpl. ulia.
Qed.

(** ** Witnesses *)

Definition wire0 : DirectedEnvelope :=
  mkEnvelope [66] 1 [1] [2] [3] [4] [5] [6] 10000 1000 Pending None 3 3 0 86400.
Definition challenge0 : ChallengeLocal := mkChallenge [255] 3 (mkMono 0 300000 0).
Definition record0 : IncomingRecord :=
  new_incoming wire0 None (lit "peer-a") V2 challenge0 3 (Some [7]) (mkNow 2000 5000).
Definition local0 : IncomingLocal := default
  (mkLocal Pending None 0 false 0 0 [] V2 None None) (in_local record0).

Lemma incoming_reachable_inv_witness :
  exists l, in_local record0 = Some l /\ incoming_inv 3 l /\ in_wire record0 = wire0
            /\ in_ext record0 = None.
Proof.
  apply (incoming_reachable_inv (UT := kana_tables) (fun b => b) wire0 None (lit "peer-a") V2
           challenge0 3 (Some [7]) (mkNow 2000 5000)).
  - unfold in_uint, u8_max; lia.
  - simpl; lia.
  - by apply reach_init.
Defined.

Definition local_confirmed0 : IncomingLocal := with_challenge None (with_state Confirmed local0).

(** Two wrong passwords, a lost connection during the next attempt and two more
    failures that answer none, the third wrong password, and a fourth try. *)
Definition guessing : list (IncomingEvent * Now) :=
  map (fun e => (e, mkNow 2000 6000))
    [PasswordAttemptStart; PasswordWrong; PasswordAttemptStart; PasswordWrong;
     PasswordAttemptStart; RetrievalNetworkFailure; RetrievalNetworkFailure; RetrievalNetworkFailure;
     PasswordAttemptStart; PasswordWrong; PasswordAttemptStart; PasswordWrong].
Definition guessed : IncomingRecord * list (IncomingEvent * bool) :=
  match @run_incoming kana_tables (fun b => b) (mkIncoming wire0 None (Some local_confirmed0)) guessing with
  | Ret x => x
  | Panic => (record0, [])
  end.

Lemma password_guess_budget_witness :
  effective_state guessed.1 = PasswordFailed /\
  fold_left guess guessed.2 (mkGuesses 0 0 0 false) = mkGuesses 4 1 3 false /\
  tries_left guessed.1 = 3 - 4 + 1 /\ 3 <= 3.
Proof.
  split; [vm_compute; reflexivity|]. split; [vm_compute; reflexivity|].
  apply (password_guess_budget (UT := kana_tables) (fun b => b) (mkIncoming wire0 None (Some local_confirmed0)) local_confirmed0
    guessing guessed.1 guessed.2).
  - reflexivity.
  - vm_compute; discriminate.
  - vm_compute; discriminate.
  - vm_compute. reflexivity.
Defined.

Lemma challenge_guess_budget_witness :
  exists r' l' log, @run_incoming kana_tables (fun b => b) record0
      (map (fun c => (Confirm (fst c), snd c)) [(lit "AAAA-BBBB", mkNow 0 10)]) = Ret (r', log) /\
    in_local r' = Some l' /\ l_state l' = ChallengeIssued /\
    l_challenge l' = Some (mkChallenge [255] 2 (mkMono 0 300000 0)).
Proof.
  apply (challenge_guess_budget (UT := kana_tables) (fun b => b) record0 local0 challenge0
           [(lit "AAAA-BBBB", mkNow 0 10)]).
  - reflexivity.
  - reflexivity.
  - reflexivity.
  - simpl; lia.
  - vm_compute; discriminate.
  - repeat constructor.
Defined.

Lemma confirmed_only_by_code_witness :
  exists code l ch, Confirm (lit "ab") = Confirm code /\ in_local
      (new_incoming wire0 None [] V2 (mkChallenge (lit "AB") 3 (mkMono 0 300 0)) 3 None (mkNow 0 0)) = Some l /\
    l_state l = ChallengeIssued /\ l_challenge l = Some ch /\
    mono_is_expired (ch_expires ch) 10 = false /\
    (exists norm, @normalize_challenge kana_tables code = Ret norm /\ as_bytes norm = ch_hash ch).
Proof.
  eapply (confirmed_only_by_code (UT := kana_tables) (fun b => b)
    (new_incoming wire0 None [] V2 (mkChallenge (lit "AB") 3 (mkMono 0 300 0)) 3 None (mkNow 0 0))
    _ (Confirm (lit "ab")) (mkNow 0 10)).
  - vm_compute. reflexivity.
  - vm_compute. reflexivity.
  - vm_compute. discriminate.
Defined.

Lemma incoming_terminal_final_witness :
  @incoming_step kana_tables (fun b => b)
    (mkIncoming wire0 None (Some (fail_closed SenderRevoked local0))) RecipientDelete (mkNow 0 0)
  = Ret (mkIncoming wire0 None (Some (fail_closed SenderRevoked local0)), Err illegal).
Proof.
  apply (incoming_terminal_final (UT := kana_tables) (fun b => b)
    (mkIncoming wire0 None (Some (fail_closed SenderRevoked local0)))
    (fail_closed SenderRevoked local0)); reflexivity.
Defined.

Lemma confirm_code_can_panic_witness :
  @incoming_step kana_tables (fun b => b) record0 (Confirm [12354; 12354; 97; 98]) (mkNow 0 10) = Panic.
Proof.
  apply (confirm_code_can_panic (UT := kana_tables) (fun b => b) record0 local0 challenge0);
    reflexivity.
Defined.

Lemma received_retention_bounded_witness :
  match normalize_received_retention wire0 2000 with
  | Err _ => expires_at wire0 <= created_at wire0
  | Ok e' => created_at wire0 < expires_at wire0 /\
      expires_at e' <= expires_at wire0 /\ expires_at e' <= 2000 + MAX_RETENTION_SECS /\
      retention_secs e' <= MAX_RETENTION_SECS /\ in_u64 (expires_at e') /\
      (env_is_expired wire0 2000 = true -> expires_at e' = expires_at wire0) /\
      env_with_retention (expires_at wire0) (retention_secs wire0) e' = wire0
  end.
Proof.
  apply (received_retention_bounded wire0 2000).
  - unfold in_uint, u64_max; lia.
  - unfold in_uint, u64_max; simpl; lia.
Defined.
