(* ===== verification/DirectedInbox.v ===== *)
(** * DirectedInbox: the on-disk inbox and the requests that drive it

    Models [directed/inbox.rs] (the record files and their sidecars), the
    directed-sharing request handler of [network/node.rs]
    ([handle_directed_sharing_event]) and the daemon side of
    [daemon/mod.rs]: the topology event that issues the challenge, the
    collection of invites kept by holders, retrieval and revocation.

    A directory is a finite map from the hex id to the decoded file.  Encryption
    at rest and the JSON codec are not modelled: a file that was written is read
    back as it was.  Whether a write succeeds is an argument ([wr n] is the
    outcome of the [n]-th write of the call), so that the error branches are
    executable. *)

From S2P Require Import Prelude Text DirectedState.

(** ** Storage *)

Definition MAX_ENVELOPES : Z := 10000.

Record Inbox := mkInbox {
  incoming : gmap str DirectedEnvelope;
  challenge_files : gmap str str;
  in_peers : gmap str str;
  outgoing : gmap str DirectedEnvelope;
  out_peers : gmap str str;
  v2_incoming : gmap str IncomingRecord;
}.

Definition set_incoming (m : gmap str DirectedEnvelope) (ib : Inbox) : Inbox :=
  mkInbox m (challenge_files ib) (in_peers ib) (outgoing ib) (out_peers ib) (v2_incoming ib).
Definition set_challenge_files (m : gmap str str) (ib : Inbox) : Inbox :=
  mkInbox (incoming ib) m (in_peers ib) (outgoing ib) (out_peers ib) (v2_incoming ib).
Definition set_in_peers (m : gmap str str) (ib : Inbox) : Inbox :=
  mkInbox (incoming ib) (challenge_files ib) m (outgoing ib) (out_peers ib) (v2_incoming ib).
Definition set_outgoing (m : gmap str DirectedEnvelope) (ib : Inbox) : Inbox :=
  mkInbox (incoming ib) (challenge_files ib) (in_peers ib) m (out_peers ib) (v2_incoming ib).
Definition set_v2_incoming (m : gmap str IncomingRecord) (ib : Inbox) : Inbox :=
  mkInbox (incoming ib) (challenge_files ib) (in_peers ib) (outgoing ib) (out_peers ib) m.

Definition id_hex (e : DirectedEnvelope) : str := hex_encode (envelope_id e).

Inductive InboxError := Full | WriteFailed | RemoveFailed | NotFound | IllegalStep | BoundToOther.

(** [check_limit]: counts the [.json] files of the directory. *)
Definition check_limit {V} (dir : gmap str V) : result unit InboxError :=
  if MAX_ENVELOPES <=? Z.of_nat (size dir) then Err Full else Ok tt.

Definition save_outgoing (w : bool) (ib : Inbox) (e : DirectedEnvelope) : result Inbox InboxError :=
  if w then Ok (set_outgoing (<[id_hex e := e]> (outgoing ib)) ib) else Err WriteFailed.

Definition save_incoming (w : bool) (ib : Inbox) (e : DirectedEnvelope) : result Inbox InboxError :=
  let? _ := match incoming ib !! id_hex e with
            | Some _ => Ok tt
            | None => check_limit (incoming ib)
            end in
  if w then Ok (set_incoming (<[id_hex e := e]> (incoming ib)) ib) else Err WriteFailed.

Arguments save_incoming : simpl never.

Definition load_incoming (ib : Inbox) (id : str) : result DirectedEnvelope InboxError :=
  ok_or (incoming ib !! id) NotFound.
Definition load_outgoing (ib : Inbox) (id : str) : result DirectedEnvelope InboxError :=
  ok_or (outgoing ib !! id) NotFound.

(** A file is removed only if it is there; the removal can fail. *)
Definition removes {V} (w : bool) (id : str) (dir : gmap str V) : bool :=
  match dir !! id with Some _ => w | None => true end.

(** [delete_incoming]: the envelope, then both sidecars; a removal that fails
    ends it. *)
Definition delete_incoming (wr : nat -> bool) (ib : Inbox) (id : str) : Inbox * result unit InboxError :=
  if negb (removes (wr 0%nat) id (incoming ib)) then (ib, Err RemoveFailed)
  else
    let ib := set_incoming (delete id (incoming ib)) ib in
    if negb (removes (wr 1%nat) id (challenge_files ib)) then (ib, Err RemoveFailed)
    else
      let ib := set_challenge_files (delete id (challenge_files ib)) ib in
      if negb (removes (wr 2%nat) id (in_peers ib)) then (ib, Err RemoveFailed)
      else (set_in_peers (delete id (in_peers ib)) ib, Ok tt).

Definition update_incoming_state (w : bool) (ib : Inbox) (id : str) (st : EnvelopeState) :
    result Inbox InboxError :=
  let? e := load_incoming ib id in
  save_incoming w ib (env_with_state st e).

Definition update_outgoing_state (w : bool) (ib : Inbox) (id : str) (st : EnvelopeState) :
    result Inbox InboxError :=
  let? e := load_outgoing ib id in
  save_outgoing w ib (env_with_state st e).

(** [cleanup_challenge]: a removal that fails goes unnoticed. *)
Definition cleanup_challenge (w : bool) (ib : Inbox) (id : str) : Inbox :=
  if w then set_challenge_files (delete id (challenge_files ib)) ib else ib.

(** What happens to the files of a directory in a sweep: which envelopes can be
    read, which rewritten, which sidecars removed. *)
Record SweepIO := mkSweepIO { sw_read : str -> bool; sw_write : str -> bool; sw_remove : str -> bool }.

Definition swept (io : SweepIO) (now_secs : Z) (id : str) (e : DirectedEnvelope) : DirectedEnvelope :=
  if sw_read io id && sw_write io id then check_expiry e now_secs else e.

(** The challenge file of an envelope that is terminal once swept is removed,
    also when the envelope could not be rewritten. *)
Definition keeps_challenge (io : SweepIO) (now_secs : Z) (id : str) (e : option DirectedEnvelope) : bool :=
  match e with
  | Some e => negb (sw_read io id && is_terminal (env_state (check_expiry e now_secs)) && sw_remove io id)
  | None => true
  end.

(** [expire_all]: every envelope past its retention becomes [Expired], and the
    challenge file of a terminal envelope is removed; what fails is skipped.
    The sidecar of an outgoing envelope would be in the outgoing directory,
    which holds none. *)
Definition expire_all (inc out : SweepIO) (ib : Inbox) (now_secs : Z) : Inbox :=
  mkInbox (map_imap (fun id e => Some (swept inc now_secs id e)) (incoming ib))
    (filter (fun kv => keeps_challenge inc now_secs kv.1 (incoming ib !! kv.1) = true) (challenge_files ib))
    (in_peers ib) (map_imap (fun id e => Some (swept out now_secs id e)) (outgoing ib)) (out_peers ib) (v2_incoming ib).

Definition save_challenge_code (w : bool) (ib : Inbox) (id : str) (code : str) : Inbox :=
  if w then set_challenge_files (<[id := code]> (challenge_files ib)) ib else ib.

(** [bind_incoming_peer_id]: created only if absent, the first binding wins. *)
Definition bind_incoming_peer_id (w : bool) (ib : Inbox) (id peer : str) : result Inbox InboxError :=
  match in_peers ib !! id with
  | None => if w then Ok (set_in_peers (<[id := peer]> (in_peers ib)) ib) else Err WriteFailed
  | Some existing => if bool_decide (trim existing = peer) then Ok ib else Err BoundToOther
  end.

Definition load_incoming_peer_id (ib : Inbox) (id : str) : option str :=
  trim <$> in_peers ib !! id.

Definition incoming_peer_is_bound (ib : Inbox) (id peer : str) : bool :=
  bool_decide (load_incoming_peer_id ib id = Some peer).

(** ** The v2 record store *)

Definition store_incoming_v2_new (w : bool) (ib : Inbox) (r : IncomingRecord) :
    result (Inbox * bool) InboxError :=
  let id := id_hex (in_wire r) in
  match v2_incoming ib !! id with
  | Some _ => Ok (ib, false)
  | None =>
      let? _ := check_limit (v2_incoming ib) in
      if w then Ok (set_v2_incoming (<[id := r]> (v2_incoming ib)) ib, true) else Err WriteFailed
  end.

Definition load_incoming_v2 (ib : Inbox) (id : str) : result IncomingRecord InboxError :=
  ok_or (v2_incoming ib !! id) NotFound.

Definition delete_incoming_v2 (w : bool) (ib : Inbox) (id : str) : Inbox * result unit InboxError :=
  if removes w id (v2_incoming ib) then (set_v2_incoming (delete id (v2_incoming ib)) ib, Ok tt) else (ib, Err RemoveFailed).

Section V2Step.
Context {UT : UnicodeTables} (blake3 : list Z -> list Z).

(** [step_incoming_v2]: one read, one step, one write (or one removal), which
    fails when [w] is false. *)
Definition step_incoming_v2 (w : bool) (ib : Inbox) (id : str) (e : IncomingEvent) (now : Now) :
    outcome (Inbox * result Effects InboxError) :=
  match load_incoming_v2 ib id with
  | Err err => Ret (ib, Err err)
  | Ok r =>
      let! (r', res) := incoming_step blake3 r e now in
      match res with
      | Err _ => Ret (ib, Err IllegalStep)
      | Ok fx =>
          if no_write fx then Ret (ib, Ok fx)
          else if delete_file fx then
            if removes w id (v2_incoming ib)
            then Ret (set_v2_incoming (delete id (v2_incoming ib)) ib, Ok fx)
            else Ret (ib, Err RemoveFailed)
          else if w then Ret (set_v2_incoming (<[id := r']> (v2_incoming ib)) ib, Ok fx)
          else Ret (ib, Err WriteFailed)
      end
  end.

End V2Step.

(** ** The network request handler *)

Inductive DirectedRequest :=
| ReqInvite (envelope : DirectedEnvelope)
| ReqConfirm (envelope_id : list Z) (challenge_code : str)
| ReqSenderRevoke (envelope_id : list Z)
| ReqStatusQuery (envelope_id : list Z).

(** The error texts, one constructor each. *)
Inductive DirectedError :=
| UnsupportedVersion (v : Z) | RecipientKeyUnavailable | RecipientMismatch | BadRetention
| IdAlreadyExists | QueueUnavailable | IdAlreadyClaimed | PersistenceUnavailable | OpenInbox
| Unauthorized | NotChallengeIssued (st : EnvelopeState) | PersistFailed | ChallengeExpired
| NoChallengeHash | NoDataDir | TerminalEnvelope (st : EnvelopeState) | StatusViaIpc.

Inductive DirectedResponse :=
| RespInviteAccepted (envelope_id : list Z)
| RespConfirmed (envelope_id : list Z)
| RespChallengeFailed (envelope_id : list Z) (attempts_remaining : Z)
| RespRevoked (envelope_id : list Z)
| RespError (e : DirectedError).

(** [directed_data_dir] with the outcome of [DirectedInbox::open]. *)
Inductive DataDir := NoDir | OpenFails | Dir (ib : Inbox).

(** The node state the handler reads and writes: the recipient key, the data
    directory and the bounded topology channel ([None] when it is not wired). *)
Record NodeDirected := mkNode {
  directed_recipient_pubkey : option (list Z);
  directed_data_dir : DataDir;
  topology_queue : option (list (str * DirectedEnvelope));
  topology_capacity : Z;
}.

Definition set_dir (ib : Inbox) (n : NodeDirected) : NodeDirected :=
  mkNode (directed_recipient_pubkey n) (Dir ib) (topology_queue n) (topology_capacity n).
Definition set_queue (q : list (str * DirectedEnvelope)) (n : NodeDirected) : NodeDirected :=
  mkNode (directed_recipient_pubkey n) (directed_data_dir n) (Some q) (topology_capacity n).

(** The [Invite] arm. *)
Definition handle_invite (wr : nat -> bool) (n : NodeDirected) (peer : str)
    (envelope : DirectedEnvelope) (now : Z) : NodeDirected * DirectedResponse :=
  let eid := envelope_id envelope in
  let id := hex_encode eid in
  if negb (version envelope =? 1) then (n, RespError (UnsupportedVersion (version envelope)))
  else match directed_recipient_pubkey n with
  | None => (n, RespError RecipientKeyUnavailable)
  | Some key =>
    if negb (bool_decide (key = recipient_pubkey envelope)) then (n, RespError RecipientMismatch)
    else match normalize_received_retention envelope now with
    | Err _ => (n, RespError BadRetention)
    | Ok envelope' =>
      match directed_data_dir n with
      | NoDir => (n, RespError PersistenceUnavailable)
      | OpenFails => (n, RespError OpenInbox)
      | Dir ib =>
        if is_ok (load_incoming ib id) then
          if incoming_peer_is_bound ib id peer then (n, RespInviteAccepted eid)
          else (n, RespError IdAlreadyExists)
        else match topology_queue n with
        | None => (n, RespError PersistenceUnavailable)
        | Some q =>
          match bind_incoming_peer_id (wr 0%nat) ib id peer with
          | Err _ => (n, RespError IdAlreadyClaimed)
          | Ok ib' =>
              let n' := set_dir ib' n in
              if zlen q <? topology_capacity n
              then (set_queue (q ++ [(peer, envelope')]) n', RespInviteAccepted eid)
              else (n', RespError QueueUnavailable)
          end
        end
      end
    end
  end.

Section Handler.
Context {UT : UnicodeTables} (blake3 : list Z -> list Z).

(** Persist a new version of the envelope, then answer. *)
Definition persist_then (wr : nat -> bool) (n : NodeDirected) (ib : Inbox) (e : DirectedEnvelope)
    (clean : bool) (id : str) (resp : DirectedResponse) : NodeDirected * DirectedResponse :=
  match save_incoming (wr 0%nat) ib e with
  | Ok ib' => (set_dir (if clean then cleanup_challenge (wr 1%nat) ib' id else ib') n, resp)
  | Err _ => (n, RespError PersistFailed)
  end.

(** The [Confirm] arm. *)
Definition handle_confirm (wr : nat -> bool) (n : NodeDirected) (peer : str) (eid : list Z)
    (code : str) (now : Z) : outcome (NodeDirected * DirectedResponse) :=
  let id := hex_encode eid in
  match directed_data_dir n with
  | NoDir => Ret (n, RespError NoDataDir)
  | OpenFails => Ret (n, RespError OpenInbox)
  | Dir ib =>
    if negb (incoming_peer_is_bound ib id peer) then Ret (n, RespError Unauthorized)
    else match load_incoming ib id with
    | Err _ => Ret (n, RespError Unauthorized)
    | Ok e =>
      if negb (bool_decide (env_state e = ChallengeIssued))
      then Ret (n, RespError (NotChallengeIssued (env_state e)))
      else if challenge_attempts_remaining e =? 0 then
        Ret (persist_then wr n ib (env_with_state ChallengeFailed e) true id
               (RespChallengeFailed eid 0))
      else if (challenge_expires_at e =? 0) || (challenge_expires_at e <? now) then
        Ret (persist_then wr n ib (env_with_state ChallengeFailed e) true id
               (RespError ChallengeExpired))
      else match challenge_hash e with
      | None => Ret (n, RespError NoChallengeHash)
      | Some hash =>
        let! good := verify_challenge blake3 code hash in
        if good : bool then
          Ret (persist_then wr n ib (env_with_state Confirmed e) true id (RespConfirmed eid))
        else
          let left := sat_sub (challenge_attempts_remaining e) 1 in
          let exhausted := left =? 0 in
          let e1 := env_with_challenge_attempts left e in
          let e2 := if exhausted then env_with_state ChallengeFailed e1 else e1 in
          Ret (persist_then wr n ib e2 exhausted id (RespChallengeFailed eid left))
      end
    end
  end.

(** The [SenderRevoke] arm. *)
Definition handle_revoke (wr : nat -> bool) (n : NodeDirected) (peer : str) (eid : list Z) :
    NodeDirected * DirectedResponse :=
  let id := hex_encode eid in
  match directed_data_dir n with
  | NoDir => (n, RespError NoDataDir)
  | OpenFails => (n, RespError OpenInbox)
  | Dir ib =>
    if negb (incoming_peer_is_bound ib id peer) then (n, RespError Unauthorized)
    else match load_incoming ib id with
    | Err _ => (n, RespError Unauthorized)
    | Ok e =>
      if bool_decide (env_state e = SenderRevoked) then (n, RespRevoked eid)
      else if is_terminal (env_state e) then (n, RespError (TerminalEnvelope (env_state e)))
      else persist_then wr n ib (env_with_state SenderRevoked e) true id (RespRevoked eid)
    end
  end.

(** The request dispatch of [handle_directed_sharing_event]. *)
Definition handle_directed_request (wr : nat -> bool) (n : NodeDirected) (peer : str)
    (req : DirectedRequest) (now : Z) : outcome (NodeDirected * DirectedResponse) :=
  match req with
  | ReqInvite envelope => Ret (handle_invite wr n peer envelope now)
  | ReqConfirm eid code => handle_confirm wr n peer eid code now
  | ReqSenderRevoke eid => Ret (handle_revoke wr n peer eid)
  | ReqStatusQuery _ => Ret (n, RespError StatusViaIpc)
  end.

(** ** The daemon *)

(** The local fields of a newly received envelope, set by the daemon. *)
Definition issue_challenge (hash : list Z) (now : Z) (e : DirectedEnvelope) : DirectedEnvelope :=
  mkEnvelope (envelope_id e) (version e) (sender_pubkey e) (recipient_pubkey e)
    (ephemeral_pubkey e) (encrypted_payload e) (payload_nonce e) (password_salt e)
    (expires_at e) (created_at e) ChallengeIssued (Some hash) PASSWORD_MAX_ATTEMPTS
    CHALLENGE_MAX_ATTEMPTS (sat_add u64_max now CHALLENGE_TTL_SECS) (retention_secs e).

(** The [DirectedEnvelopeReceived] topology event; [idxs] are the random draws
    of the code. *)
Definition on_envelope_received (wr : nat -> bool) (ib : Inbox) (peer : str)
    (e : DirectedEnvelope) (idxs : list nat) (now : Z) : Inbox :=
  let id := id_hex e in
  if is_ok (load_incoming ib id) then ib
  else match bind_incoming_peer_id (wr 0%nat) ib id peer with
  | Err _ => ib
  | Ok ib1 =>
    match save_incoming (wr 1%nat) ib1 e with
    | Err _ => ib1
    | Ok ib2 =>
      let '(code, hash) := generate_challenge blake3 idxs in
      let ib3 := save_challenge_code (wr 2%nat) ib2 id code in
      match load_incoming ib3 id with
      | Err _ => ib3
      | Ok env =>
        match save_incoming (wr 3%nat) ib3 (issue_challenge hash now env) with
        | Ok ib4 => ib4
        | Err _ => ib3
        end
      end
    end
  end.

End Handler.

(** One invite kept by a holder, as [collect_directed_invites_into_inbox] takes
    it: decoded, checked for the recipient key, and saved.  The result says
    whether it was taken. *)
Definition collect_one (w : bool) (me : list Z) (ib : Inbox) (e : DirectedEnvelope) : Inbox * bool :=
  if negb (bool_decide (recipient_pubkey e = me)) then (ib, false)
  else match save_incoming w ib e with
  | Ok ib' => (ib', true)
  | Err _ => (ib, false)
  end.

(** The outcome of everything [process_directed_retrieve] does between the
    guards and the final decryption. *)
Inductive RetrieveAttempt := FetchFailed | Decrypted (plaintext : list Z) | WrongPassword.

Inductive RetrieveError :=
| LoadFailed | NotRetrievable (st : EnvelopeState) | EnvelopeExpired | AttemptsExceeded
| Fetch | WrongPw (attempts_left : Z).

Definition env_with_password_attempts (n : Z) (e : DirectedEnvelope) : DirectedEnvelope :=
  mkEnvelope (envelope_id e) (version e) (sender_pubkey e) (recipient_pubkey e)
    (ephemeral_pubkey e) (encrypted_payload e) (payload_nonce e) (password_salt e)
    (expires_at e) (created_at e) (env_state e) (challenge_hash e) n
    (challenge_attempts_remaining e) (challenge_expires_at e) (retention_secs e).

(** A save whose error is ignored ([let _ = ...]). *)
Definition save_or_keep (w : bool) (ib : Inbox) (e : DirectedEnvelope) : Inbox :=
  match save_incoming w ib e with Ok ib' => ib' | Err _ => ib end.

Definition process_directed_retrieve (wr : nat -> bool) (ib : Inbox) (id : str) (now : Z)
    (attempt : RetrieveAttempt) : Inbox * result (list Z) RetrieveError :=
  match load_incoming ib id with
  | Err _ => (ib, Err LoadFailed)
  | Ok e =>
    if negb (is_retrievable (env_state e)) then (ib, Err (NotRetrievable (env_state e)))
    else if env_is_expired e now then
      (save_or_keep (wr 0%nat) ib (env_with_state Expired e), Err EnvelopeExpired)
    else if env_password_attempts e =? 0 then
      (save_or_keep (wr 0%nat) ib (env_with_state PasswordFailed e), Err AttemptsExceeded)
    else match attempt with
    | FetchFailed => (ib, Err Fetch)
    | Decrypted plaintext =>
        (cleanup_challenge (wr 1%nat) (save_or_keep (wr 0%nat) ib (env_with_state Retrieved e)) id,
         Ok plaintext)
    | WrongPassword =>
        let left := sat_sub (env_password_attempts e) 1 in
        let e1 := env_with_password_attempts left e in
        if left =? 0 then
          (save_or_keep (wr 0%nat) (cleanup_challenge (wr 1%nat) ib id) (env_with_state PasswordFailed e1),
           Err (WrongPw left))
        else (save_or_keep (wr 0%nat) ib e1, Err (WrongPw left))
    end
  end.

Inductive RevokeError := SaveFailed | OutTerminal (st : EnvelopeState)
| InTerminal (st : EnvelopeState) | RevokeNotFound.

(** [process_directed_revoke]: the sender's revoke, else the recipient's
    delete.  The propagation to the peer is best effort and changes no local
    state. *)
Definition process_directed_revoke (wr : nat -> bool) (ib : Inbox) (id : str) (me : list Z) :
    Inbox * result unit RevokeError :=
  let recipient_delete :=
    match load_incoming ib id with
    | Err _ => (ib, Err RevokeNotFound)
    | Ok e =>
      if bool_decide (recipient_pubkey e = me) then
        if is_terminal (env_state e) then (ib, Err (InTerminal (env_state e)))
        else match save_incoming (wr 0%nat) ib (env_with_state RecipientDeleted e) with
        | Ok ib' => (cleanup_challenge (wr 1%nat) ib' id, Ok tt)
        | Err _ => (ib, Err SaveFailed)
        end
      else (ib, Err RevokeNotFound)
    end in
  match load_outgoing ib id with
  | Err _ => recipient_delete
  | Ok e =>
    if bool_decide (sender_pubkey e = me) then
      if is_terminal (env_state e) then (ib, Err (OutTerminal (env_state e)))
      else match save_outgoing (wr 0%nat) ib (env_with_state SenderRevoked e) with
      | Ok ib' => (cleanup_challenge (wr 1%nat) ib' id, Ok tt)
      | Err _ => (ib, Err SaveFailed)
      end
    else recipient_delete
  end.

(** ** Well-formedness: every incoming file is named after its envelope *)

Definition inbox_wf (ib : Inbox) : Prop :=
  forall id e, incoming ib !! id = Some e -> id_hex e = id.

Lemma id_hex_with_state st e : id_hex (env_with_state st e) = id_hex e.
Proof. done. Qed.

Lemma save_incoming_ok w ib e ib' :
  save_incoming w ib e = Ok ib' ->
  ib' = set_incoming (<[id_hex e := e]> (incoming ib)) ib /\ w = true.
Proof.
  unfold save_incoming, check_limit, result_bind. intros Hs.
  repeat (case_match; simplify_eq/=); done.
Qed.

Lemma save_incoming_existing ib e e0 :
  incoming ib !! id_hex e = Some e0 ->
  save_incoming true ib e = Ok (set_incoming (<[id_hex e := e]> (incoming ib)) ib).
Proof. intros He. unfold save_incoming. by rewrite He. Qed.

Lemma save_incoming_fresh ib e :
  incoming ib !! id_hex e = None -> Z.of_nat (size (incoming ib)) < MAX_ENVELOPES ->
  save_incoming true ib e = Ok (set_incoming (<[id_hex e := e]> (incoming ib)) ib).
Proof.
  intros He Hsz. unfold save_incoming, check_limit. rewrite He. case_match; [lia|done].
Qed.

(** The frame of a save, an optional cleanup and a binding, for one id. *)
Definition same_at (id : str) (ib ib' : Inbox) : Prop :=
  incoming ib' !! id = incoming ib !! id /\
  challenge_files ib' !! id = challenge_files ib !! id /\
  outgoing ib' = outgoing ib /\ v2_incoming ib' = v2_incoming ib.

Lemma same_at_refl id ib : same_at id ib ib.
Proof. done. Qed.
#[local] Hint Resolve same_at_refl : miasma.

(** The node's inbox agrees with [ib] at [id], and a binding is not replaced. *)
Definition framed (id : str) (ib : Inbox) (n' : NodeDirected) : Prop :=
  exists ib', directed_data_dir n' = Dir ib' /\ same_at id ib ib' /\
    (is_Some (in_peers ib !! id) -> in_peers ib' !! id = in_peers ib !! id).

Lemma framed_refl id ib n : directed_data_dir n = Dir ib -> framed id ib n.
Proof. intros Hd. exists ib. split_and!; auto with miasma. Qed.
#[local] Hint Resolve framed_refl : miasma.

Lemma persist_then_framed wr n ib e clean id resp id' :
  directed_data_dir n = Dir ib -> id_hex e = id -> id' <> id ->
  framed id' ib (persist_then wr n ib e clean id resp).1.
Proof.
  intros Hd He Hne. unfold persist_then.
  destruct (save_incoming (wr 0%nat) ib e) as [ib1|err] eqn:Hs; simpl; [|auto with miasma].
  apply save_incoming_ok in Hs as [-> _].
  eexists; split_and!; [done| |by destruct clean, (wr 1%nat)].
  destruct clean, (wr 1%nat); split_and!; simpl; try done;
    rewrite ?lookup_insert_ne, ?lookup_delete_ne by congruence; done.
Qed.

Lemma handle_invite_framed wr n peer e now ib id :
  directed_data_dir n = Dir ib -> framed id ib (handle_invite wr n peer e now).1.
Proof.
  intros Hd. pose proof (framed_refl id ib n Hd) as Hr. unfold handle_invite.
  case_match; [done|]. case_match; [|done]. case_match; [done|]. case_match; [|done].
  rewrite Hd. case_match; [by case_match|]. case_match; [|done].
  unfold bind_incoming_peer_id.
  destruct (in_peers ib !! hex_encode (envelope_id e)) as [p|] eqn:Hp.
  - destruct (bool_decide (trim p = peer)); [|done].
    case_match; exists ib; simpl; split_and!; auto with miasma.
  - destruct (wr 0%nat); [|done].
    exists (set_in_peers (<[hex_encode (envelope_id e) := peer]> (in_peers ib)) ib).
    case_match; (split_and!; [done|done|]); intros [p Hp']; simpl;
      rewrite lookup_insert_ne; congruence.
Qed.

Section Facts.
Context {UT : UnicodeTables} (blake3 : list Z -> list Z).

Lemma handle_confirm_framed wr n peer eid code now n' resp ib id :
  directed_data_dir n = Dir ib -> inbox_wf ib ->
  incoming_peer_is_bound ib id peer = false ->
  handle_confirm blake3 wr n peer eid code now = Ret (n', resp) -> framed id ib n'.
Proof.
  intros Hd Hwf Hnb. pose proof (framed_refl id ib n Hd) as Hr.
  unfold handle_confirm. rewrite Hd. simpl.
  destruct (incoming_peer_is_bound ib (hex_encode eid) peer) eqn:Hb; simpl; [|by intros [= <- <-]].
  assert (id <> hex_encode eid) as Hne by (intros ->; congruence).
  unfold load_incoming. destruct (incoming ib !! hex_encode eid) as [e|] eqn:Hl; simpl;
    [|by intros [= <- <-]].
  pose proof (Hwf _ _ Hl) as Hid.
  assert (forall e' clean r, id_hex e' = id_hex e ->
    Ret (persist_then wr n ib e' clean (hex_encode eid) r) = Ret (n', resp) -> framed id ib n') as Hp.
  { intros e' clean r He' [= Hp]. replace n' with (n', resp).1 by done. rewrite <- Hp.
    apply persist_then_framed; congruence. }
  case_match; [by intros [= <- <-]|]. case_match; [by apply Hp|]. case_match; [by apply Hp|].
  destruct (challenge_hash e) as [h|]; [|by intros [= <- <-]].
  destruct (verify_challenge blake3 code h) as [[]|]; simpl; [by apply Hp| |done].
  apply Hp. by case_match.
Qed.

Lemma handle_revoke_framed wr n peer eid ib id :
  directed_data_dir n = Dir ib -> inbox_wf ib ->
  incoming_peer_is_bound ib id peer = false ->
  framed id ib (handle_revoke wr n peer eid).1.
Proof.
  intros Hd Hwf Hnb. pose proof (framed_refl id ib n Hd) as Hr.
  unfold handle_revoke. rewrite Hd. simpl.
  destruct (incoming_peer_is_bound ib (hex_encode eid) peer) eqn:Hb; simpl; [|done].
  assert (id <> hex_encode eid) as Hne by (intros ->; congruence).
  unfold load_incoming. destruct (incoming ib !! hex_encode eid) as [e|] eqn:Hl; simpl; [|done].
  case_match; [done|]. case_match; [done|].
  apply persist_then_framed; [done| |done]. by apply (Hwf _ _ Hl).
Qed.

(** C12. Network requests are confined to the requester's own shares: whatever a
    peer sends, an envelope that is not bound to that peer keeps its record,
    its challenge file and its binding, and so do the outgoing and v2
    records. *)
Theorem request_touches_only_bound wr n peer req now n' resp ib id :
  directed_data_dir n = Dir ib -> inbox_wf ib ->
  incoming_peer_is_bound ib id peer = false ->
  handle_directed_request blake3 wr n peer req now = Ret (n', resp) ->
  framed id ib n'.
Proof.
  intros Hd Hwf Hnb Hreq. destruct req as [e|eid code|eid|eid]; simpl in Hreq.
  - injection Hreq as Hreq. replace n' with (n', resp).1 by done. rewrite <- Hreq.
    by apply handle_invite_framed.
  - by eapply handle_confirm_framed.
  - injection Hreq as Hreq. replace n' with (n', resp).1 by done. rewrite <- Hreq.
    by apply handle_revoke_framed.
  - simplify_eq. by apply framed_refl.
Qed.

(** ** All steps of the inbox *)

(** What can change the inbox: a network request, the topology event at the
    head of the queue, a sweep, a local retrieval, a local revoke or delete,
    and an invite collected from a holder. *)
Inductive inbox_event :=
| EvRequest (peer : str) (req : DirectedRequest)
| EvTopology (idxs : list nat)
| EvExpireAll (inc out : SweepIO)
| EvRetrieve (id : str) (attempt : RetrieveAttempt)
| EvLocalRevoke (id : str) (me : list Z)
| EvCollect (me : list Z) (e : DirectedEnvelope).

(** Apply a local operation to the node's inbox. *)
Definition on_dir (n : NodeDirected) (f : Inbox -> Inbox) : NodeDirected :=
  match directed_data_dir n with Dir ib => set_dir (f ib) n | _ => n end.

Definition inbox_next (n : NodeDirected) (ev : inbox_event * ((nat -> bool) * Z)) :
    outcome NodeDirected :=
  let '(wr, now) := snd ev in
  match fst ev with
  | EvRequest peer req =>
      let! (n', _) := handle_directed_request blake3 wr n peer req now in Ret n'
  | EvTopology idxs =>
      match topology_queue n with
      | Some ((peer, e) :: q) =>
          Ret (set_queue q (on_dir n (fun ib => on_envelope_received blake3 wr ib peer e idxs now)))
      | _ => Ret n
      end
  | EvExpireAll inc out => Ret (on_dir n (fun ib => expire_all inc out ib now))
  | EvRetrieve id attempt =>
      Ret (on_dir n (fun ib => (process_directed_retrieve wr ib id now attempt).1))
  | EvLocalRevoke id me => Ret (on_dir n (fun ib => (process_directed_revoke wr ib id me).1))
  | EvCollect me e => Ret (on_dir n (fun ib => (collect_one (wr 0%nat) me ib e).1))
  end.

(** Bindings only grow: what every step does to the [.peer] files. *)
Definition binds_more (ib ib' : Inbox) : Prop := in_peers ib ⊆ in_peers ib'.

Lemma binds_more_same ib ib' : in_peers ib' = in_peers ib -> binds_more ib ib'.
Proof. unfold binds_more. by intros ->. Qed.
#[local] Hint Resolve binds_more_same : miasma.

Lemma save_incoming_peers w ib e ib' : save_incoming w ib e = Ok ib' -> in_peers ib' = in_peers ib.
Proof. by intros [-> _]%save_incoming_ok. Qed.

Lemma cleanup_peers w ib id : in_peers (cleanup_challenge w ib id) = in_peers ib.
Proof. by destruct w. Qed.

Lemma save_or_keep_peers w ib e : in_peers (save_or_keep w ib e) = in_peers ib.
Proof. unfold save_or_keep. case_match eqn:Hs; [by eapply save_incoming_peers|done]. Qed.

Lemma bind_binds_more w ib id peer ib' :
  bind_incoming_peer_id w ib id peer = Ok ib' -> binds_more ib ib'.
Proof.
  unfold bind_incoming_peer_id, binds_more. destruct (in_peers ib !! id) eqn:Hp.
  - case_match; [by intros [= <-]|done].
  - case_match; [|done]. intros [= <-]. simpl. by apply insert_subseteq.
Qed.

(** The node still has an inbox, with at least the bindings of [ib]. *)
Definition grows (ib : Inbox) (n' : NodeDirected) : Prop :=
  exists ib', directed_data_dir n' = Dir ib' /\ binds_more ib ib'.

Lemma grows_refl n ib : directed_data_dir n = Dir ib -> grows ib n.
Proof. intros Hd. exists ib. by auto with miasma. Qed.

Lemma persist_then_grows wr n ib e clean id resp :
  directed_data_dir n = Dir ib -> grows ib (persist_then wr n ib e clean id resp).1.
Proof.
  intros Hd. unfold persist_then. case_match eqn:Hs; simpl; [|by apply grows_refl].
  apply save_incoming_peers in Hs. eexists; split; [done|]. apply binds_more_same.
  by destruct clean, (wr 1%nat).
Qed.

Lemma handle_invite_grows wr n peer e now ib :
  directed_data_dir n = Dir ib -> grows ib (handle_invite wr n peer e now).1.
Proof.
  intros Hd. pose proof (grows_refl n ib Hd) as Hr. unfold handle_invite. rewrite Hd.
  case_match; [done|]. case_match; [|done]. case_match; [done|]. case_match; [|done].
  case_match; [by case_match|]. case_match; [|done].
  case_match eqn:Hb; [|done]. apply bind_binds_more in Hb.
  case_match; eexists; split; done.
Qed.

Lemma handle_confirm_grows wr n peer eid code now n' resp ib :
  directed_data_dir n = Dir ib ->
  handle_confirm blake3 wr n peer eid code now = Ret (n', resp) -> grows ib n'.
Proof.
  intros Hd. pose proof (grows_refl n ib Hd) as Hr.
  assert (forall e clean id r, Ret (persist_then wr n ib e clean id r) = Ret (n', resp) ->
    grows ib n') as Hp.
  { intros e clean id r [= Hp]. replace n' with (n', resp).1 by done. rewrite <- Hp.
    by apply persist_then_grows. }
  unfold handle_confirm. rewrite Hd. case_match; [by intros [= <- <-]|].
  case_match; [|by intros [= <- <-]]. case_match; [by intros [= <- <-]|].
  case_match; [apply Hp|]. case_match; [apply Hp|]. case_match; [|by intros [= <- <-]].
  destruct (verify_challenge blake3 code _) as [[]|]; simpl; [apply Hp|apply Hp|done].
Qed.

Lemma handle_revoke_grows wr n peer eid ib :
  directed_data_dir n = Dir ib -> grows ib (handle_revoke wr n peer eid).1.
Proof.
  intros Hd. pose proof (grows_refl n ib Hd) as Hr. unfold handle_revoke. rewrite Hd.
  case_match; [done|]. case_match; [|done]. case_match; [done|]. case_match; [done|].
  by apply persist_then_grows.
Qed.

Lemma envelope_received_binds_more wr ib peer e idxs now :
  binds_more ib (on_envelope_received blake3 wr ib peer e idxs now).
Proof.
  assert (binds_more ib ib) as Hr by (by apply binds_more_same).
  unfold on_envelope_received. case_match; [done|].
  destruct (bind_incoming_peer_id _ _ _ _) as [ib1|] eqn:Hb; [|done].
  apply bind_binds_more in Hb.
  destruct (save_incoming (wr 1%nat) ib1 e) as [ib2|] eqn:Hs; [|done].
  apply save_incoming_peers in Hs.
  destruct (generate_challenge blake3 idxs) as [code h].
  assert (in_peers (save_challenge_code (wr 2%nat) ib2 (id_hex e) code) = in_peers ib1) as Hc
    by (by destruct (wr 2%nat)).
  unfold binds_more in *. case_match; [|by rewrite Hc].
  case_match eqn:Hs2; [|by rewrite Hc].
  apply save_incoming_peers in Hs2 as ->. by rewrite Hc.
Qed.

Lemma retrieve_peers wr ib id now at_ :
  in_peers (process_directed_retrieve wr ib id now at_).1 = in_peers ib.
Proof.
  unfold process_directed_retrieve.
  repeat (case_match; cbn [fst]; rewrite ?save_or_keep_peers, ?cleanup_peers, ?save_or_keep_peers; try done).
Qed.

Lemma revoke_peers wr ib id me : in_peers (process_directed_revoke wr ib id me).1 = in_peers ib.
Proof.
  unfold process_directed_revoke, save_outgoing; cbv zeta.
  destruct (load_outgoing ib id) as [o|];
    [destruct (bool_decide (sender_pubkey o = me));
       [destruct (is_terminal (env_state o)); [done|]; by destruct (wr 0%nat), (wr 1%nat)|]|].
  all: destruct (load_incoming ib id) as [ev|]; [|done].
  all: destruct (bool_decide (recipient_pubkey ev = me)); [|done].
  all: destruct (is_terminal (env_state ev)); [done|].
  all: destruct (save_incoming _ _ _) as [ib'|] eqn:Hs; [cbn [fst]; rewrite cleanup_peers|done].
  all: by eapply save_incoming_peers.
Qed.

Lemma inbox_next_grows n ev n' ib :
  directed_data_dir n = Dir ib -> inbox_next n ev = Ret n' -> grows ib n'.
Proof.
  intros Hd. destruct ev as [ev [wr now]]. unfold inbox_next, on_dir. cbn [fst snd].
  destruct ev as [p req|idxs|inc out|i a|i me|me e]; rewrite ?Hd.
  - destruct (handle_directed_request blake3 wr n p req now) as [[n2 r]|] eqn:Hr; [|done].
    intros [= <-]. destruct req as [e|eid code|eid|eid]; simpl in Hr.
    + injection Hr as Hr. replace n2 with (n2, r).1 by done. rewrite <- Hr.
      by apply handle_invite_grows.
    + by eapply handle_confirm_grows.
    + injection Hr as Hr. replace n2 with (n2, r).1 by done. rewrite <- Hr.
      by apply handle_revoke_grows.
    + simplify_eq. by apply grows_refl.
  - destruct (topology_queue n) as [[|[p e] q]|]; intros [= <-]; try by apply grows_refl.
    eexists. split; [done|]. apply envelope_received_binds_more.
  - intros [= <-]. eexists; split; [done|]. by apply binds_more_same.
  - intros [= <-]. eexists. split; [done|]. apply binds_more_same, retrieve_peers.
  - intros [= <-]. eexists. split; [done|]. apply binds_more_same, revoke_peers.
  - intros [= <-]. eexists. split; [done|]. apply binds_more_same.
    unfold collect_one. case_match; [done|]. case_match eqn:Hc; [|done].
    by eapply save_incoming_peers.
Qed.

(** A run of the inbox; a panic ends it. *)
Fixpoint run_inbox (n : NodeDirected) (evs : list (inbox_event * ((nat -> bool) * Z))) :
    outcome NodeDirected :=
  match evs with
  | [] => Ret n
  | ev :: rest => let! n' := inbox_next n ev in run_inbox n' rest
  end.

(** C31. The sender binding of an envelope is immutable: along any run of
    network requests, topology events, sweeps, local retrievals, revokes and
    collected invites, with any writes failing, a [.peer] binding once made is
    the binding ever after. *)
Theorem sender_binding_immutable n evs n' ib id peer :
  directed_data_dir n = Dir ib ->
  in_peers ib !! id = Some peer ->
  run_inbox n evs = Ret n' ->
  exists ib', directed_data_dir n' = Dir ib' /\ in_peers ib' !! id = Some peer.
Proof.
  revert n ib. induction evs as [|ev evs IH]; intros n ib Hd Hp; simpl.
  { intros [= <-]. eauto. }
  destruct (inbox_next n ev) as [n1|] eqn:Hs; simpl; [|done].
  destruct (inbox_next_grows n ev n1 ib Hd Hs) as (ib1 & Hd1 & Hb).
  apply (IH n1 ib1 Hd1). by eapply lookup_weaken.
Qed.

(** A sweep that can read and rewrite an envelope leaves it live only within
    its retention, and a terminal one without its code when that can be removed. *)
Lemma expire_all_done inc out ib now id e :
  incoming ib !! id = Some e -> sw_read inc id = true -> sw_write inc id = true ->
  exists e', incoming (expire_all inc out ib now) !! id = Some e' /\
    (env_is_expired e' now = true -> is_terminal (env_state e') = true) /\
    (sw_remove inc id = true -> is_terminal (env_state e') = true -> challenge_files (expire_all inc out ib now) !! id = None).
Proof.
  intros He Hr Hw. exists (check_expiry e now). unfold expire_all. cbn [incoming challenge_files].
  rewrite map_lookup_imap, He. cbn. unfold swept. rewrite Hr, Hw. split; [done|]. split.
  - unfold check_expiry. destruct (env_is_expired e now) eqn:Hx; [|by rewrite andb_false_l, Hx].
    destruct (is_terminal (env_state e)) eqn:Ht; simpl; done.
  - intros Hm Ht. apply map_lookup_filter_None_2. right. intros code _. cbn [fst]. rewrite He. unfold keeps_challenge. by rewrite Hr, Hm, Ht.
Qed.

(** ** The v1 handshake *)

(** A PeerId text carries no surrounding blanks. *)
Definition peer_text (peer : str) : Prop := trim peer = peer.

(** A node ready for a new invite addressed to it: nothing stored or bound
    under the id, room in the inbox and in the channel. *)
Record ready_for (n : NodeDirected) (ib : Inbox) (e : DirectedEnvelope) : Prop := {
  rf_dir : directed_data_dir n = Dir ib;
  rf_key : directed_recipient_pubkey n = Some (recipient_pubkey e);
  rf_queue : topology_queue n = Some [];
  rf_cap : 1 <= topology_capacity n;
  rf_version : version e = 1;
  rf_window : created_at e < expires_at e;
  rf_fresh : incoming ib !! id_hex e = None;
  rf_unbound : in_peers ib !! id_hex e = None;
  rf_room : Z.of_nat (size (incoming ib)) < MAX_ENVELOPES;
}.

Definition all_writes (_ : nat) : bool := true.

Lemma invite_accepted n ib e peer now :
  ready_for n ib e ->
  exists e', normalize_received_retention e now = Ok e' /\
  handle_invite all_writes n peer e now =
  (set_queue [(peer, e')] (set_dir (set_in_peers (<[id_hex e := peer]> (in_peers ib)) ib) n),
   RespInviteAccepted (envelope_id e)).
Proof.
  intros [Hd Hk Hq Hc Hv Hw Hf Hu Hr]. unfold handle_invite, normalize_received_retention.
  rewrite Hv, Hk, Hd, Hq. simpl. rewrite bool_decide_true by done. simpl.
  destruct (Z.leb_spec (expires_at e) (created_at e)); [lia|]. eexists. split; [done|].
  unfold load_incoming, bind_incoming_peer_id. fold (id_hex e). rewrite Hf, Hu. simpl.
  rewrite zlen_nil. case_match; [done|lia].
Qed.

(** What the daemon makes of the queued invite: its own challenge, its own
    counters, whatever state the sender put in the envelope. *)
Lemma envelope_received_issues ib e peer idxs now :
  peer_text peer ->
  incoming ib !! id_hex e = None ->
  in_peers ib !! id_hex e = None \/ in_peers ib !! id_hex e = Some peer ->
  Z.of_nat (size (incoming ib)) < MAX_ENVELOPES ->
  let ib' := on_envelope_received blake3 all_writes ib peer e idxs now in
  incoming ib' !! id_hex e = Some (issue_challenge (generate_challenge blake3 idxs).2 now e) /\
  challenge_files ib' !! id_hex e = Some (generate_challenge blake3 idxs).1 /\
  in_peers ib' !! id_hex e = Some peer.
Proof.
  intros Hpt Hf Hu Hr. unfold on_envelope_received, load_incoming, all_writes. rewrite Hf.
  destruct (generate_challenge blake3 idxs) as [code h]. cbn [is_ok ok_or fst snd].
  assert (exists ib1, bind_incoming_peer_id true ib (id_hex e) peer = Ok ib1 /\
    incoming ib1 = incoming ib /\ in_peers ib1 !! id_hex e = Some peer) as (ib1 & -> & Hi & Hp).
  { unfold bind_incoming_peer_id. destruct Hu as [-> | Hu].
    - eexists; split_and!; [done|done|]. simpl. apply lookup_insert_eq.
    - rewrite Hu. exists ib. rewrite bool_decide_true by done. done. }
  rewrite save_incoming_fresh by (rewrite Hi; done). simpl.
  rewrite lookup_insert_eq. simpl.
  rewrite (save_incoming_existing _ (issue_challenge h now e) e).
  2:{ simpl. apply lookup_insert_eq. }
  simpl. change (id_hex (issue_challenge h now e)) with (id_hex e).
  rewrite !lookup_insert_eq. done.
Qed.

(** A right code from the bound peer, in time, confirms. *)
Lemma confirm_accepts n ib peer eid code now e h :
  directed_data_dir n = Dir ib -> peer_text peer ->
  in_peers ib !! hex_encode eid = Some peer ->
  incoming ib !! hex_encode eid = Some e -> id_hex e = hex_encode eid ->
  env_state e = ChallengeIssued -> challenge_attempts_remaining e <> 0 ->
  0 < challenge_expires_at e -> now <= challenge_expires_at e ->
  challenge_hash e = Some h -> verify_challenge blake3 code h = Ret true ->
  handle_confirm blake3 all_writes n peer eid code now =
  Ret (set_dir (cleanup_challenge true
         (set_incoming (<[hex_encode eid := env_with_state Confirmed e]> (incoming ib)) ib)
         (hex_encode eid)) n, RespConfirmed eid).
Proof.
  intros Hd Hpt Hp Hi Hid Hst Ha H0 Ht Hh Hv. unfold handle_confirm. rewrite Hd.
  unfold incoming_peer_is_bound, load_incoming_peer_id, load_incoming. rewrite Hp, Hi. simpl.
  rewrite bool_decide_true by (by rewrite Hpt). simpl.
  rewrite Hst, bool_decide_true by done. simpl.
  destruct (Z.eqb_spec (challenge_attempts_remaining e) 0); [done|].
  destruct (Z.eqb_spec (challenge_expires_at e) 0); [lia|].
  destruct (Z.ltb_spec (challenge_expires_at e) now); [lia|]. simpl.
  rewrite Hh, Hv. cbn [outcome_bind]. unfold persist_then.
  rewrite (save_incoming_existing _ _ e) by (simpl; rewrite id_hex_with_state, Hid; done).
  by rewrite id_hex_with_state, Hid.
Qed.

(** C27. The v1 handshake completes, with the recipient's own challenge: an
    invite to a ready node is accepted; the daemon then stores the envelope as
    [ChallengeIssued] with fresh counters whatever the sender wrote in them;
    and the generated code, in any ASCII spelling, sent within five minutes
    by the same peer confirms the share, makes it retrievable and removes the
    code file. *)
Theorem v1_handshake_completes n ib e peer now0 idxs now1 now2 code :
  ready_for n ib e -> peer_text peer ->
  length idxs = 8%nat -> Forall (fun i => (i < 31)%nat) idxs ->
  Forall (fun c => c < 128) code ->
  ascii_core code = ascii_core (generate_challenge blake3 idxs).1 ->
  0 < now1 -> now2 <= now1 + CHALLENGE_TTL_SECS -> now1 + CHALLENGE_TTL_SECS <= u64_max ->
  exists n1 n2 n3 ib2 ib3 env2,
    inbox_next n (EvRequest peer (ReqInvite e), (all_writes, now0)) = Ret n1 /\
    inbox_next n1 (EvTopology idxs, (all_writes, now1)) = Ret n2 /\
    directed_data_dir n2 = Dir ib2 /\
    incoming ib2 !! id_hex e = Some env2 /\ env_state env2 = ChallengeIssued /\
    challenge_attempts_remaining env2 = CHALLENGE_MAX_ATTEMPTS /\
    env_password_attempts env2 = PASSWORD_MAX_ATTEMPTS /\
    handle_directed_request blake3 all_writes n2 peer (ReqConfirm (envelope_id e) code) now2
      = Ret (n3, RespConfirmed (envelope_id e)) /\
    directed_data_dir n3 = Dir ib3 /\
    incoming ib3 !! id_hex e = Some (env_with_state Confirmed env2) /\
    challenge_files ib3 !! id_hex e = None.
Proof.
  intros Hrf Hpt Hlen Hidx Hascii Hcore Hpos Hin Hmax.
  destruct (invite_accepted n ib e peer now0 Hrf) as (e' & Hn & Hinv).
  assert (id_hex e' = id_hex e) as Hid.
  { revert Hn. unfold normalize_received_retention. case_match; [done|]. by intros [= <-]. }
  set (ib1 := set_in_peers (<[id_hex e := peer]> (in_peers ib)) ib) in *.
  destruct (envelope_received_issues ib1 e' peer idxs now1) as (Hi & Hc & Hp).
  { done. }
  { rewrite Hid. apply Hrf. }
  { right. rewrite Hid. apply lookup_insert_eq. }
  { apply Hrf. }
  rewrite Hid in *.
  set (ib2 := on_envelope_received blake3 all_writes ib1 peer e' idxs now1) in *.
  eexists _, _, _, ib2, _, _. unfold inbox_next; cbn [fst snd handle_directed_request outcome_bind].
  rewrite Hinv. split_and!; [done|simpl; done|done|exact Hi|done|done|done| | | |].
  { eapply confirm_accepts; [done|done|exact Hp|exact Hi|exact Hid|done|done| | |done|].
    - simpl. unfold CHALLENGE_TTL_SECS in *. ulia.
    - simpl. unfold CHALLENGE_TTL_SECS in *. ulia.
    - by apply generated_code_verifies_lemma. }
  { done. }
  { simpl. apply lookup_insert_eq. }
  { simpl. apply lookup_delete_eq. }
Qed.

(** Collecting an invite from a holder trusts the sender's local fields:
    the envelope addressed to us is stored exactly as the sender wrote it,
    replacing whatever record was there.  A sender-written [Confirmed] is then
    retrievable although no confirmation code was ever checked, and the honest
    [Pending] of a copy whose direct delivery was already challenged makes
    every further confirmation of the bound peer be refused. *)
Theorem collect_trusts_sender_state (me : list Z) (ib : Inbox) (e : DirectedEnvelope) (now : Z) :
  recipient_pubkey e = me ->
  is_Some (incoming ib !! id_hex e) \/ Z.of_nat (size (incoming ib)) < MAX_ENVELOPES ->
  exists ib', collect_one true me ib e = (ib', true) /\
    incoming ib' !! id_hex e = Some e /\
    (env_state e = Confirmed -> env_is_expired e now = false -> env_password_attempts e <> 0 ->
     forall pt, (process_directed_retrieve all_writes ib' (id_hex e) now (Decrypted pt)).2 = Ok pt) /\
    (env_state e = Pending -> forall n peer code,
     directed_data_dir n = Dir ib' -> incoming_peer_is_bound ib' (id_hex e) peer = true ->
     handle_confirm blake3 all_writes n peer (envelope_id e) code now
     = Ret (n, RespError (NotChallengeIssued Pending))).
Proof.
  intros Hme Hroom. unfold collect_one. rewrite bool_decide_true by done. simpl.
  assert (save_incoming true ib e = Ok (set_incoming (<[id_hex e := e]> (incoming ib)) ib)) as ->.
  { destruct (incoming ib !! id_hex e) as [e0|] eqn:Hl.
    - by eapply save_incoming_existing.
    - apply save_incoming_fresh; [done|]. destruct Hroom as [[? ?]|]; [congruence|done]. }
  eexists; split_and!; [done|simpl; apply lookup_insert_eq| |].
  - intros Hc He Ha pt. unfold process_directed_retrieve, load_incoming. simpl.
    rewrite lookup_insert_eq. simpl. rewrite Hc, He. simpl. case_match; [lia|done].
  - intros Hp n peer code Hd Hb. unfold handle_confirm. rewrite Hd. fold (id_hex e). rewrite Hb.
    unfold load_incoming. simpl. rewrite lookup_insert_eq. simpl. by rewrite Hp.
Qed.

(** One wrong password on a live share, with the write succeeding. *)
Lemma wrong_password_step ib id now e :
  inbox_wf ib -> incoming ib !! id = Some e -> env_state e = Confirmed ->
  env_is_expired e now = false -> 0 < env_password_attempts e ->
  exists ib' e', process_directed_retrieve all_writes ib id now WrongPassword
    = (ib', Err (WrongPw (env_password_attempts e - 1))) /\
    inbox_wf ib' /\ incoming ib' !! id = Some e' /\
    env_password_attempts e' = env_password_attempts e - 1 /\
    env_is_expired e' now = false /\
    env_state e' = if env_password_attempts e =? 1 then PasswordFailed else Confirmed.
Proof.
  intros Hwf Hl Hst Hexp Hpos. unfold process_directed_retrieve, load_incoming.
  rewrite Hl. simpl. rewrite Hst, Hexp. simpl.
  destruct (Z.eqb_spec (env_password_attempts e) 0); [lia|].
  replace (sat_sub (env_password_attempts e) 1) with (env_password_attempts e - 1) by ulia.
  pose proof (Hwf _ _ Hl) as Hid.
  assert (forall m st, inbox_wf (mkInbox (<[id := env_with_state st
     (env_with_password_attempts (env_password_attempts e - 1) e)]> (incoming ib)) m (in_peers ib)
     (outgoing ib) (out_peers ib) (v2_incoming ib))) as Hwf'.
  { intros m st i x. simpl. rewrite lookup_insert. case_decide; [intros [= <-]; by subst|apply Hwf]. }
  destruct (Z.eqb_spec (env_password_attempts e - 1) 0) as [H1|H1];
    destruct (Z.eqb_spec (env_password_attempts e) 1) as [H2|H2]; try lia.
  - unfold save_or_keep. rewrite (save_incoming_existing _ _ e) by (simpl; by rewrite <- Hid in Hl).
    eexists _, (env_with_state PasswordFailed
                  (env_with_password_attempts (env_password_attempts e - 1) e)).
    split_and!; [done| |simpl; rewrite id_hex_with_state|simpl; lia|done|done].
    + change (id_hex (env_with_state _ _)) with (id_hex e). rewrite Hid. apply Hwf'.
    + change (id_hex (env_with_password_attempts _ e)) with (id_hex e). rewrite Hid.
      apply lookup_insert_eq.
  - unfold save_or_keep. rewrite (save_incoming_existing _ _ e) by (simpl; by rewrite <- Hid in Hl).
    eexists _, (env_with_password_attempts (env_password_attempts e - 1) e).
    split_and!; [done| |simpl|simpl; lia|done|done].
    + change (id_hex (env_with_password_attempts _ e)) with (id_hex e). rewrite Hid.
      replace (env_with_password_attempts (env_password_attempts e - 1) e) with
        (env_with_state Confirmed (env_with_password_attempts (env_password_attempts e - 1) e));
        [apply Hwf'|]. unfold env_with_state; simpl. rewrite <- Hst. done.
    + change (id_hex (env_with_password_attempts _ e)) with (id_hex e). rewrite Hid.
      apply lookup_insert_eq.
Qed.

(** The inbox after a number of wrong passwords. *)
Fixpoint wrong_passwords (k : nat) (ib : Inbox) (id : str) (now : Z) : Inbox :=
  match k with
  | O => ib
  | S k' => wrong_passwords k' (process_directed_retrieve all_writes ib id now WrongPassword).1 id now
  end.

(** The password of a confirmed share can be tried only as often as the
    share allows: a share with [k] tries left is [PasswordFailed] after [k]
    wrong passwords, not before, and from then on no attempt, right or wrong,
    yields the content. *)
Theorem retrieve_password_budget (k : nat) ib id now e :
  inbox_wf ib -> incoming ib !! id = Some e -> env_state e = Confirmed ->
  env_is_expired e now = false -> env_password_attempts e = Z.of_nat k -> (0 < k)%nat ->
  (forall j, (j < k)%nat -> exists ej, incoming (wrong_passwords j ib id now) !! id = Some ej /\
     env_state ej = Confirmed /\ env_password_attempts ej = Z.of_nat (k - j)) /\
  exists e', incoming (wrong_passwords k ib id now) !! id = Some e' /\
    env_state e' = PasswordFailed /\
    forall wr now' attempt, process_directed_retrieve wr (wrong_passwords k ib id now) id now' attempt
      = (wrong_passwords k ib id now, Err (NotRetrievable PasswordFailed)).
Proof.
  revert ib e. induction k as [|k IH]; intros ib e Hwf Hl Hst Hexp Hk Hpos; [lia|].
  destruct (wrong_password_step ib id now e Hwf Hl Hst Hexp ltac:(lia))
    as (ib' & e' & Hs & Hwf' & Hl' & Ha' & Hexp' & Hst').
  destruct (Z.eqb_spec (env_password_attempts e) 1) as [H1|H1].
  - assert (k = 0%nat) as -> by lia. split.
    + intros j Hj. assert (j = 0%nat) as -> by lia. exists e. split_and!; [done|done|lia].
    + simpl. rewrite Hs. simpl. exists e'. split_and!; [done|done|].
      intros wr now' attempt. unfold process_directed_retrieve, load_incoming.
      rewrite Hl'. simpl. by rewrite Hst'.
  - destruct (IH ib' e' Hwf' Hl' Hst' Hexp' ltac:(lia) ltac:(lia)) as [Hbefore Hafter].
    split.
    + intros [|j] Hj; [exists e; split_and!; [done|done|lia]|].
      simpl. rewrite Hs. simpl. apply Hbefore. lia.
    + simpl. rewrite Hs. simpl. exact Hafter.
Qed.

(** Effects and state of a step agree. *)
Lemma incoming_step_effects r e now r' fx :
  incoming_step blake3 r e now = Ret (r', Ok fx) ->
  (no_write fx = true -> r' = r /\ delete_file fx = false) /\
  (delete_file fx = true <-> effective_state r' = ChallengeFailed).
Proof.
  unfold incoming_step, effective_state. destruct (in_local r) as [l|] eqn:Hl; [|done].
  case_match; [case_match eqn:Hrev; [|done]|].
  { intros [= <- <-]. rewrite Hl. apply andb_true_iff in Hrev as [_ Hrev%bool_decide_eq_true]. split; [done|]. simpl. rewrite Hrev. done. }
  destruct (live_step blake3 l e now) as [[l' res]|] eqn:Hs; simpl; [|done].
  intros [= <- ->]. simpl. revert Hs. unfold live_step, confirm_arm, give_back.
  destruct (l_state l) eqn:Hst, e; try done; try (case_match; try done); intros Hs; simplify_eq/=; try (split; [done|]; simpl; rewrite ?Hst; done).
  - case_match; simplify_eq/=; [done|]. destruct (verify_challenge blake3 code _) as [[]|]; simplify_eq/=; [done|].
    case_match; simplify_eq/=; [|done]. rewrite Hst. done.
Qed.

(** C33. The v2 store implements the record machine, with writes and removals
    that fail: stepping a stored record leaves every other record and the v1
    files as they were.  A refused event changes nothing.  An accepted one puts
    the machine's next record in the place of the old one, or removes the
    record, exactly when the machine failed its challenge, and reports the
    machine's effects; when the write or the removal fails the old record stays
    and the call returns an error, never the effects. *)
Theorem v2_store_refines_machine w ib id e now ib' res r :
  v2_incoming ib !! id = Some r ->
  step_incoming_v2 blake3 w ib id e now = Ret (ib', res) ->
  exists r' mres, incoming_step blake3 r e now = Ret (r', mres) /\
    (forall id', id' <> id -> v2_incoming ib' !! id' = v2_incoming ib !! id') /\
    incoming ib' = incoming ib /\ in_peers ib' = in_peers ib /\
    match mres with
    | Err _ => ib' = ib /\ res = Err IllegalStep
    | Ok fx =>
        (delete_file fx = true <-> effective_state r' = ChallengeFailed) /\
        if no_write fx then r' = r /\ ib' = ib /\ res = Ok fx
        else if w then v2_incoming ib' !! id = (if delete_file fx then None else Some r') /\ res = Ok fx
        else ib' = ib /\ res = Err (if delete_file fx then RemoveFailed else WriteFailed)
    end.
Proof.
  intros Hl. unfold step_incoming_v2, load_incoming_v2, removes. rewrite Hl. cbn [ok_or].
  destruct (incoming_step blake3 r e now) as [[r' [fx|ill]]|] eqn:Hs; cbn [outcome_bind]; [| |done].
  2:{ intros [= <- <-]. exists r', (Err ill). split_and!; auto. }
  destruct (incoming_step_effects r e now r' fx Hs) as [Hnw Hdel].
  intros Hst. exists r', (Ok fx). revert Hst. destruct (no_write fx) eqn:Hn.
  { intros [= <- <-]. destruct (Hnw eq_refl) as [-> Hd]. split_and!; auto. }
  destruct (delete_file fx) eqn:Hd; destruct w; intros [= <- <-]; split_and!; auto; try apply Hdel; try done.
  - intros id' Hne. simpl. by rewrite lookup_delete_ne.
  - simpl. by rewrite lookup_delete_eq.
  - intros id' Hne. simpl. by rewrite lookup_insert_ne.
  - simpl. by rewrite lookup_insert_eq.
Qed.

End Facts.

(** ** Witnesses *)

Definition inbox0 : Inbox := mkInbox ∅ ∅ ∅ ∅ ∅ ∅.
Definition peer0 : str := lit "12D3KooW".
Definition invite0 : DirectedEnvelope :=
  mkEnvelope [66] 1 [1] [2] [3] [4] [5] [6] 10000 1000 Confirmed None 9 9 0 86400.
Definition node0 : NodeDirected := mkNode (Some [2]) (Dir inbox0) (Some []) 16.
Definition draws0 : list nat := [0; 1; 2; 3; 8; 9; 10; 11]%nat.

(** An inbox with one confirmed share, bound to [peer0]. *)
Definition confirmed0 : DirectedEnvelope :=
  mkEnvelope [66] 1 [1] [2] [3] [4] [5] [6] 10000 1000 Confirmed None 2 3 0 86400.
Definition inbox1 : Inbox :=
  mkInbox {[ id_hex confirmed0 := confirmed0 ]} ∅ {[ id_hex confirmed0 := peer0 ]} ∅ ∅
    {[ id_hex wire0 := record0 ]}.
Definition node1 : NodeDirected := mkNode (Some [2]) (Dir inbox1) (Some []) 16.

Lemma inbox1_wf : inbox_wf inbox1.
Proof.
  intros id e. simpl. rewrite lookup_singleton_Some. intros [<- <-]. done.
Qed.

Lemma request_touches_only_bound_witness :
  framed (id_hex confirmed0) inbox1 node1.
Proof.
  eapply (request_touches_only_bound (UT := kana_tables) (fun b => b) all_writes node1
    (lit "mallory") (ReqSenderRevoke [66]) 5 node1 (RespError Unauthorized) inbox1).
  - reflexivity.
  - apply inbox1_wf.
  - reflexivity.
  - vm_compute. reflexivity.
Defined.

Definition calm_sweep : SweepIO := mkSweepIO (fun _ => true) (fun _ => true) (fun _ => true).

Lemma sender_binding_immutable_witness :
  exists ib', directed_data_dir (set_dir (expire_all calm_sweep calm_sweep inbox1 99999) node1) = Dir ib' /\
    in_peers ib' !! id_hex confirmed0 = Some peer0.
Proof.
  apply (sender_binding_immutable (UT := kana_tables) (fun b => b) node1
    [(EvRequest (lit "mallory") (ReqSenderRevoke [66]), (all_writes, 5));
     (EvExpireAll calm_sweep calm_sweep, (all_writes, 99999))] _ inbox1).
  - reflexivity.
  - vm_compute. reflexivity.
  - vm_compute. reflexivity.
Defined.

Lemma v1_handshake_completes_witness :
  exists n2 n3, @handle_directed_request kana_tables (fun b => b) all_writes n2 peer0
      (ReqConfirm [66] (lit "2345 abcd")) 2300 = Ret (n3, RespConfirmed [66]).
Proof.
  destruct (v1_handshake_completes (UT := kana_tables) (fun b => b) node0 inbox0 invite0 peer0
    1999 draws0 2000 2300 (lit "2345 abcd")) as (n1 & n2 & n3 & _ & _ & _ & _ & _ & _ & _ & _ & _ & _ & H & _).
  - constructor; try reflexivity; vm_compute; done.
  - reflexivity.
  - reflexivity.
  - repeat constructor.
  - repeat constructor.
  - vm_compute. reflexivity.
  - lia.
  - vm_compute. discriminate.
  - vm_compute. discriminate.
  - exists n2, n3. exact H.
Defined.

Lemma collect_trusts_sender_state_witness :
  exists ib', collect_one true [2] inbox0 invite0 = (ib', true) /\
    (process_directed_retrieve all_writes ib' (id_hex invite0) 2000 (Decrypted [1; 2])).2 = Ok [1; 2].
Proof.
  destruct (collect_trusts_sender_state (UT := kana_tables) (fun b => b) [2] inbox0 invite0 2000)
    as (ib' & Hc & _ & Hr & _).
  - reflexivity.
  - right. vm_compute. reflexivity.
  - exists ib'. split; [exact Hc|]. apply Hr.
    + reflexivity.
    + reflexivity.
    + vm_compute. discriminate.
Defined.

Lemma retrieve_password_budget_witness :
  exists e', incoming (wrong_passwords 2 inbox1 (id_hex confirmed0) 2000) !! id_hex confirmed0 = Some e' /\
    env_state e' = PasswordFailed /\
    forall wr now' attempt, process_directed_retrieve wr
        (wrong_passwords 2 inbox1 (id_hex confirmed0) 2000) (id_hex confirmed0) now' attempt
      = (wrong_passwords 2 inbox1 (id_hex confirmed0) 2000, Err (NotRetrievable PasswordFailed)).
Proof.
  apply (retrieve_password_budget 2 inbox1 (id_hex confirmed0) 2000 confirmed0).
  - apply inbox1_wf.
  - vm_compute. reflexivity.
  - reflexivity.
  - reflexivity.
  - reflexivity.
  - lia.
Defined.

(** Two records; the code of the first can be tried once more. *)
Definition last_try : IncomingRecord :=
  new_incoming wire0 None peer0 V2 (mkChallenge [255] 1 (mkMono 0 300000 0)) 3 (Some [7]) (mkNow 2000 5000).
Definition inbox2 : Inbox := mkInbox ∅ ∅ ∅ ∅ ∅ (<[lit "other" := record0]> {[ id_hex wire0 := last_try ]}).
Definition after_wrong (w : bool) : Inbox * result Effects InboxError :=
  match @step_incoming_v2 kana_tables (fun b => b) w inbox2 (id_hex wire0) (Confirm (lit "AAAA-BBBB")) (mkNow 2001 6000) with
  | Ret x => x
  | Panic => (inbox2, Err NotFound)
  end.

(** The wrong code ends the share and removes its record only. *)
Lemma v2_store_refines_machine_witness :
  v2_incoming (after_wrong true).1 !! id_hex wire0 = None /\ (after_wrong true).2 = Ok (terminal_effects true) /\
  v2_incoming (after_wrong true).1 !! lit "other" = v2_incoming inbox2 !! lit "other" /\
  (after_wrong false).2 = Err RemoveFailed.
Proof.
  destruct (v2_store_refines_machine (UT := kana_tables) (fun b => b) true inbox2 (id_hex wire0)
    (Confirm (lit "AAAA-BBBB")) (mkNow 2001 6000) (after_wrong true).1 (after_wrong true).2 last_try) as (r' & mres & Hs & Ho & _ & _ & Hr).
  - vm_compute. reflexivity.
  - vm_compute. reflexivity.
  - assert (mres = Ok (terminal_effects true)) as -> by (revert Hs; vm_compute; by intros [= _ <-]).
    destruct Hr as [_ [H1 H2]]. split; [exact H1|]. split; [exact H2|]. split; [apply Ho; by vm_compute|vm_compute; reflexivity].
Defined.
