(* ===== verification/OfferTable.v ===== *)
(** * OfferTable: pending prekey offers of the v2 directed protocol

    Models [directed/v2/offer_table.rs]: a two-level map from the requester's
    PeerId and the offer identifier to the stored offer and its creation
    time. *)

From S2P Require Import Prelude.

Definition OFFER_TTL : Z := 20.
Definition MAX_OFFERS_PER_PEER : Z := 100.

Inductive OfferTableError := TooManyForPeer.

Section OfferTable.
Context {V : Type}.

(** PeerIds and offer identifiers are byte strings. *)
Abbreviation PeerKey := (list Z).
Abbreviation OfferId := (list Z).

Record Entry := mkEntry { offer : V; created : Z }.

Definition is_live (e : Entry) (now : Z) : bool := sat_sub now (created e) <=? OFFER_TTL.

Abbreviation slot := (gmap OfferId Entry).
Abbreviation table := (gmap PeerKey slot).

Definition retain_live (s : slot) (now : Z) : slot :=
  filter (fun kv => is_live kv.2 now = true) s.

(** [insert]: the entry API first creates the peer's slot, expired offers are
    dropped, and a refused insert removes a slot it created empty. *)
Definition table_insert (t : table) (peer : PeerKey) (id : OfferId) (o : V) (now : Z) :
    table * result unit OfferTableError :=
  let s := retain_live (default ∅ (t !! peer)) now in
  if bool_decide (s !! id = None) && (MAX_OFFERS_PER_PEER <=? Z.of_nat (size s)) then
    ((if bool_decide (s = ∅) then delete peer t else <[peer := s]> t), Err TooManyForPeer)
  else (<[peer := <[id := mkEntry o now]> s]> t, Ok tt).

(** [take]: the entry is removed whether or not it is live. *)
Definition take (t : table) (peer : PeerKey) (id : OfferId) (now : Z) : table * option V :=
  match t !! peer with
  | None => (t, None)
  | Some s =>
      match s !! id with
      | None => (t, None)
      | Some e =>
          let s' := delete id s in
          let t' := if bool_decide (s' = ∅) then delete peer t else <[peer := s']> t in
          (t', if is_live e now then Some (offer e) else None)
      end
  end.

Definition sweep (t : table) (now : Z) : table :=
  filter (fun kv => kv.2 <> ∅) ((fun s => retain_live s now) <$> t).

Definition len_for_peer (t : table) (peer : PeerKey) (now : Z) : Z :=
  match t !! peer with
  | Some s => Z.of_nat (size (retain_live s now))
  | None => 0
  end.

Definition has_capacity_for_new (t : table) (peer : PeerKey) (now : Z) : bool :=
  len_for_peer t peer now <? MAX_OFFERS_PER_PEER.

(** ** Abstract view *)

(** The table as one partial map; the slots are an implementation detail. *)
Definition find (t : table) (peer : PeerKey) (id : OfferId) : option Entry :=
  t !! peer ≫= fun s => s !! id.

(** Every slot holds between one and [MAX_OFFERS_PER_PEER] offers. *)
Definition table_wf (t : table) : Prop :=
  map_Forall (fun _ s => s <> ∅ /\ Z.of_nat (size s) <= MAX_OFFERS_PER_PEER) t.

Lemma retain_live_lookup s now id :
  retain_live s now !! id = match s !! id with
                            | Some e => if is_live e now then Some e else None
                            | None => None
                            end.
Proof.
  unfold retain_live. destruct (s !! id) as [e|] eqn:He.
  - destruct (is_live e now) eqn:Hl.
    + by apply map_lookup_filter_Some_2.
    + apply map_lookup_filter_None_2. right. intros x Hx. simpl. congruence.
  - apply map_lookup_filter_None_2. by left.
Qed.

Lemma retain_live_size s now : (size (retain_live s now) <= size s)%nat.
Proof. apply map_subseteq_size, map_filter_subseteq. Qed.

Lemma find_insert_slot (t : table) (peer : PeerKey) (s : slot) (peer' : PeerKey) (id : OfferId) :
  find (<[peer := s]> t) peer' id = if decide (peer = peer') then s !! id else find t peer' id.
Proof. unfold find. rewrite lookup_insert. by case_decide. Qed.

Lemma find_delete_slot (t : table) (peer peer' : PeerKey) (id : OfferId) :
  find (delete peer t) peer' id = if decide (peer = peer') then None else find t peer' id.
Proof. unfold find. rewrite lookup_delete. by case_decide. Qed.

Lemma find_default (t : table) (peer : PeerKey) (id : OfferId) : default ∅ (t !! peer) !! id = find t peer id.
Proof. unfold find. destruct (t !! peer); simpl; [done|apply lookup_empty]. Qed.

(** Replacing a slot, or deleting it when it became empty, is the same view. *)
Lemma find_put_slot (t : table) (peer : PeerKey) (s : slot) (peer' : PeerKey) (id : OfferId) :
  find (if bool_decide (s = ∅) then delete peer t else <[peer := s]> t) peer' id
  = if decide (peer = peer') then s !! id else find t peer' id.
Proof.
  case_bool_decide as Hs.
  - rewrite find_delete_slot. case_decide; [|done]. by rewrite Hs, lookup_empty.
  - apply find_insert_slot.
Qed.

Lemma wf_slot_size (t : table) (peer : PeerKey) : table_wf t -> Z.of_nat (size (default ∅ (t !! peer))) <= MAX_OFFERS_PER_PEER.
Proof.
  intros Hwf. destruct (t !! peer) as [s|] eqn:Hs; simpl.
  - by apply (Hwf _ _ Hs).
  - rewrite map_size_empty. unfold MAX_OFFERS_PER_PEER. lia.
Qed.

(** ** Properties *)

(** The offer table keeps its shape under every operation: no peer ever
    holds more than a hundred offers and no empty slot is left behind. *)
Theorem table_wf_preserved (t : table) (peer : PeerKey) (id : OfferId) (o : V) (now : Z) :
  table_wf t ->
  table_wf (table_insert t peer id o now).1 /\
  table_wf (take t peer id now).1 /\
  table_wf (sweep t now).
Proof.
  intros Hwf. split_and!.
  - unfold table_insert. set (s := retain_live _ now).
    assert (Z.of_nat (size s) <= MAX_OFFERS_PER_PEER) as Hs.
    { pose proof (wf_slot_size t peer Hwf) as H1.
      pose proof (retain_live_size (default ∅ (t !! peer)) now) as H2. fold s in H2. lia. }
    case_match eqn:Hc; simpl.
    + destruct (bool_decide (s = ∅)) eqn:Hb; [by apply map_Forall_delete|].
      apply bool_decide_eq_false in Hb. by apply map_Forall_insert_2.
    + apply map_Forall_insert_2; [|done]. split; [apply insert_non_empty|].
      destruct (s !! id) as [e|] eqn:He.
      * by rewrite map_size_insert_Some by (by rewrite He).
      * rewrite map_size_insert_None by done. try (rewrite bool_decide_true in Hc by done). simpl in Hc. lia.
  - unfold take. destruct (t !! peer) as [s|] eqn:Hs; [|done].
    destruct (s !! id) as [e|] eqn:He; [|done]. simpl.
    case_bool_decide; [by apply map_Forall_delete|]. apply map_Forall_insert_2; [|done].
    split; [done|]. rewrite map_size_delete_Some by (by rewrite He).
    destruct (Hwf _ _ Hs). lia.
  - unfold sweep. intros p s [Hs Hne]%map_lookup_filter_Some.
    apply lookup_fmap_Some in Hs as (s0 & <- & Hs0). destruct (Hwf _ _ Hs0) as [_ Hsz].
    split; [exact Hne|]. pose proof (retain_live_size s0 now). lia.
Qed.

(** An offer is taken at most once and never after it expired: [take]
    yields exactly the stored offer when it is live at that time, removes it
    either way, and leaves every other offer as it was; a second [take] of the
    same offer yields nothing. *)
Theorem take_once (t : table) (peer : PeerKey) (id : OfferId) (now : Z) :
  (take t peer id now).2 =
    match find t peer id with
    | Some e => if is_live e now then Some (offer e) else None
    | None => None
    end /\
  (forall peer' id', find (take t peer id now).1 peer' id' =
     if decide (peer = peer' /\ id = id') then None else find t peer' id') /\
  (forall now', (take (take t peer id now).1 peer id now').2 = None).
Proof.
  assert (forall peer' id', find (take t peer id now).1 peer' id' =
     if decide (peer = peer' /\ id = id') then None else find t peer' id') as Hfind.
  { intros peer' id'. unfold take. destruct (t !! peer) as [s|] eqn:Hs;
      [destruct (s !! id) as [e|] eqn:He|]; cbn [fst].
    - rewrite find_put_slot. destruct (decide (peer = peer')) as [Hp|Hp].
      + rewrite lookup_delete. destruct (decide (id = id')) as [Hi|Hi].
        * by rewrite decide_True.
        * rewrite decide_False by (by intros [? ?]). unfold find. by rewrite <- Hp, Hs.
      + by rewrite decide_False by (by intros [? ?]).
    - destruct (decide _) as [[Hp Hi]|]; [|done]. unfold find. by rewrite <- Hp, <- Hi, Hs.
    - destruct (decide _) as [[Hp Hi]|]; [|done]. unfold find. by rewrite <- Hp, Hs. }
  split_and!; [|exact Hfind|].
  - unfold take, find. destruct (t !! peer) as [s|]; [|done]. simpl.
    by destruct (s !! id) as [e|].
  - intros now'. specialize (Hfind peer id). rewrite decide_True in Hfind by done.
    revert Hfind. generalize (take t peer id now).1. intros t' Hf. unfold take.
    unfold find in Hf. destruct (t' !! peer) as [s|]; [|done]. simpl in Hf. by rewrite Hf.
Qed.

(** Insertion stores the offer or refuses it, and the capacity test decides
    which: a new identifier is accepted exactly when [has_capacity_for_new]
    says so, an identifier already held is always replaced, and no live offer
    is lost in either case. *)
Theorem insert_matches_capacity (t : table) (peer : PeerKey) (id : OfferId) (o : V) (now : Z) :
  let s := find t peer id in
  let '(t', res) := table_insert t peer id o now in
  (match s with
   | Some e => if is_live e now then res = Ok tt
               else res = Ok tt <-> has_capacity_for_new t peer now = true
   | None => res = Ok tt <-> has_capacity_for_new t peer now = true
   end) /\
  (res = Ok tt -> find t' peer id = Some (mkEntry o now)) /\
  (forall peer' id', (res = Ok tt -> (peer, id) <> (peer', id')) ->
     forall e, is_live e now = true ->
     find t' peer' id' = Some e <-> find t peer' id' = Some e).
Proof.
  cbv zeta. unfold table_insert. set (s := retain_live _ now).
  assert (forall i, s !! i = match find t peer i with
    | Some e => if is_live e now then Some e else None | None => None end) as Hs.
  { intros i. unfold s. rewrite retain_live_lookup, find_default. done. }
  assert (len_for_peer t peer now = Z.of_nat (size s)) as Hlen.
  { unfold len_for_peer, s. destruct (t !! peer); simpl; [done|].
    unfold retain_live. by rewrite map_filter_empty, map_size_empty. }
  assert (forall i e, is_live e now = true -> s !! i = Some e <-> find t peer i = Some e) as Hlive.
  { intros i e Hl. rewrite Hs. destruct (find t peer i) as [e'|]; [|done].
    destruct (is_live e' now) eqn:He'; [done|]. split; [done|]. intros [= ->]. congruence. }
  unfold has_capacity_for_new. rewrite Hlen.
  destruct (bool_decide (s !! id = None) && (MAX_OFFERS_PER_PEER <=? Z.of_nat (size s))) eqn:Hc;
    (split_and!; [|try done|]).
  - apply andb_prop in Hc as [Hn Hfull]. apply bool_decide_eq_true in Hn. rewrite Hs in Hn.
    assert ((Z.of_nat (size s) <? MAX_OFFERS_PER_PEER) = false) as -> by lia.
    destruct (find t peer id) as [e|]; [|done]. by destruct (is_live e now).
  - intros peer' id' _ e Hl. rewrite find_put_slot. case_decide as Hp; [|done].
    subst. by apply Hlive.
  - apply andb_false_iff in Hc. destruct (find t peer id) as [e|] eqn:Hf.
    + destruct (is_live e now) eqn:Hl; [done|]. split; [intros _|done].
      destruct Hc as [Hc|Hc]; [|lia]. apply bool_decide_eq_false in Hc. rewrite Hs, ?Hf, Hl in Hc. done.
    + split; [intros _|done]. destruct Hc as [Hc|Hc]; [|lia].
      apply bool_decide_eq_false in Hc. by rewrite Hs, Hf in Hc.
  - intros _. rewrite find_insert_slot, decide_True by done. apply lookup_insert_eq.
  - intros peer' id' Hne e Hl. specialize (Hne eq_refl).
    rewrite find_insert_slot. case_decide as Hp; [|done]. subst peer'.
    rewrite lookup_insert_ne by congruence. by apply Hlive.
Qed.

End OfferTable.
Arguments Entry : clear implicits.

(** ** Witnesses *)

Definition offers0 : gmap (list Z) (gmap (list Z) (Entry Z)) :=
  {[ [1] := {[ [7] := mkEntry 42 100 ]} ]}.

Lemma table_wf_preserved_witness :
  table_wf (table_insert offers0 [1] [7] 43 110).1 /\
  table_wf (take offers0 [1] [7] 110).1 /\ table_wf (sweep offers0 110).
Proof.
  apply (table_wf_preserved offers0 [1] _ _ 110).
  intros p s Hps. unfold offers0 in Hps. apply lookup_singleton_Some in Hps as [<- <-]. split; [|vm_compute; discriminate].
  intros Hs%(f_equal (lookup [7])). vm_compute in Hs. discriminate.
Defined.
