(* ===== verification/CallState.v ===== *)
(** * CallState: the per-call state machine

    Models [chat/call/state.rs]: the four call states, the control messages and
    notices a transition asks for, and the transition function
    [CallMachine::step] with the simultaneous-offer tie-break.  Constant-time
    comparison and the zeroizing of dropped identifiers are modelled by their
    values: equality, and the identifier being gone. *)

From S2P Require Import Prelude.

(** ** Data *)

Definition CALL_ID_LEN : nat := 16.
Definition OFFER_TTL_MS : Z := 45000.
Definition MEDIA_SILENCE_MS : Z := 20000.

(** [CallId] and [PeerId]: byte arrays (16 and 32 bytes). *)
Abbreviation CallId := (list Z).
Abbreviation PeerId := (list Z).

(** [CallId::cmp_bytes]: lexicographic order of the bytes. *)
Fixpoint cmp_bytes (a b : CallId) : comparison :=
  match a, b with
  | [], [] => Eq
  | [], _ => Lt
  | _, [] => Gt
  | x :: a', y :: b' =>
      match Z.compare x y with
      | Eq => cmp_bytes a' b'
      | c => c
      end
  end.

(** [PartialEq for CallId]: constant-time equality of the bytes. *)
Definition call_id_eqb (a b : CallId) : bool := bool_decide (a = b).

Inductive State := Idle | Calling | Ringing | Connected.
Inductive Role := Caller | Callee.

Record Offer := mkOffer {
  o_call_id : CallId;
  o_peer_id : PeerId;
  from_contact : bool;
  expired : bool;
  other_call_active : bool;
}.

Inductive Reason := Declined | Canceled | RTimeout | RBusy | CollisionLost | EstablishmentFailed.
Inductive Control := COffer | CAnswer | CReject | CBusy | CCancel | CBye | CCollide.
Inductive Notice := IncomingRinging | Rejected | PeerBusy | NoAnswer | NConnected | CallEnded
| PeerLost | NEstablishmentFailed | ClearIncoming.

Inductive Effect :=
| Send (control : Control) (call_id : CallId) (reason : option Reason)
| Collide (call_id peer_call_id : CallId)
| Show_ (n : Notice)
| ZeroizeKeys
| ReplaceSasInput (adopted : CallId).

Inductive Event :=
| UserDial (call_id : CallId) (peer_id : PeerId)
| UserAccept
| UserReject
| UserHangUp
| ReceivedOffer (o : Offer)
| ReceivedAnswer (call_id : CallId)
| ReceivedReject (call_id : CallId)
| ReceivedHangUp (call_id : CallId)
| ReceivedBusy (call_id : CallId)
| ReceivedCancel (call_id : CallId)
| Timeout_
| MediaSilence
| DeviceOpenFailed.

Record Transition := mkTransition { next : State; effects : list Effect }.

Definition ignore (s : State) : Transition := mkTransition s [].

Record CallMachine := mkMachine {
  state : State;
  role : option Role;
  active : option CallId;
  peer : option PeerId;
}.

Definition new_machine : CallMachine := mkMachine Idle None None None.

Definition matches_active (m : CallMachine) (id : CallId) : bool :=
  match active m with Some a => call_id_eqb a id | None => false end.

(** [clear]: the fields of the idle machine. *)
Definition clear (m : CallMachine) : CallMachine := mkMachine Idle None None None.

#[export] Instance State_eq_dec : EqDecision State.
Proof. solve_decision. Defined.

(** ** Transitions *)

Definition on_offer_idle (m : CallMachine) (o : Offer) : CallMachine * Transition :=
  if negb (from_contact o) then (m, ignore Idle)
  else if expired o then (m, ignore Idle)
  else if other_call_active o then
    (m, mkTransition Idle [Send CBusy (o_call_id o) (Some RBusy)])
  else (mkMachine Ringing (Some Callee) (Some (o_call_id o)) (Some (o_peer_id o)),
        mkTransition Ringing [Show_ IncomingRinging]).

Definition on_offer_calling (m : CallMachine) (o : Offer) : CallMachine * Transition :=
  if negb (from_contact o) then (m, ignore Calling)
  else if expired o then (m, ignore Calling)
  else if negb (bool_decide (peer m = Some (o_peer_id o))) || other_call_active o then
    (m, mkTransition Calling [Send CBusy (o_call_id o) (Some RBusy)])
  else match active m with
  | None => (m, ignore Calling)
  | Some ours =>
      match cmp_bytes ours (o_call_id o) with
      | Lt => (m, mkTransition Calling [Collide ours (o_call_id o)])
      | Gt => (mkMachine Ringing (Some Callee) (Some (o_call_id o)) (peer m),
               mkTransition Ringing
                 [Send CCancel ours (Some CollisionLost); ZeroizeKeys;
                  ReplaceSasInput (o_call_id o); Show_ IncomingRinging])
      | Eq => (clear m, mkTransition Idle [ZeroizeKeys])
      end
  end.

(** A control message to the peer of the active call, if there is one. *)
Definition send_active (m : CallMachine) (c : Control) (r : option Reason) : list Effect :=
  match active m with Some id => [Send c id r] | None => [] end.

(** Leave the call with these effects. *)
Definition to_idle (m : CallMachine) (fx : list Effect) : CallMachine * Transition :=
  (clear m, mkTransition Idle fx).

(** [CallMachine::step]; the injected clock is not read. *)
Definition call_step (m : CallMachine) (event : Event) : CallMachine * Transition :=
  match state m, event with
  (* idle *)
  | Idle, UserDial call_id peer_id =>
      (mkMachine Calling (Some Caller) (Some call_id) (Some peer_id),
       mkTransition Calling [Send COffer call_id None])
  | Idle, ReceivedOffer o => on_offer_idle m o
  (* calling *)
  | Calling, ReceivedAnswer call_id =>
      if matches_active m call_id
      then (mkMachine Connected (role m) (active m) (peer m),
            mkTransition Connected [Show_ NConnected])
      else (m, ignore Calling)
  | Calling, ReceivedReject call_id =>
      if matches_active m call_id then to_idle m [Show_ Rejected] else (m, ignore Calling)
  | Calling, ReceivedBusy call_id =>
      if matches_active m call_id then to_idle m [Show_ PeerBusy] else (m, ignore Calling)
  | Calling, Timeout_ =>
      to_idle m (send_active m CCancel (Some RTimeout) ++ [Show_ NoAnswer])
  | Calling, UserHangUp => to_idle m (send_active m CCancel (Some Canceled))
  | Calling, ReceivedOffer o => on_offer_calling m o
  (* ringing *)
  | Ringing, UserAccept =>
      match active m with
      | Some call_id =>
          (mkMachine Connected (role m) (active m) (peer m),
           mkTransition Connected [Send CAnswer call_id None; Show_ NConnected])
      | None => (m, ignore Ringing)
      end
  | (Ringing | Connected) as s, DeviceOpenFailed =>
      let control := match s with Connected => CBye | _ => CReject end in
      to_idle m (send_active m control (Some EstablishmentFailed)
                 ++ [ZeroizeKeys; Show_ NEstablishmentFailed])
  | Ringing, UserReject => to_idle m (send_active m CReject (Some Declined))
  | Ringing, ReceivedCancel call_id =>
      if matches_active m call_id then to_idle m [Show_ ClearIncoming] else (m, ignore Ringing)
  | Ringing, Timeout_ => to_idle m [Show_ ClearIncoming]
  | Ringing, UserDial _ _ => (m, ignore Ringing)
  (* connected *)
  | Connected, ReceivedHangUp call_id =>
      if matches_active m call_id then to_idle m [ZeroizeKeys; Show_ CallEnded]
      else (m, ignore Connected)
  | Connected, UserHangUp =>
      to_idle m (send_active m CBye None ++ [ZeroizeKeys; Show_ CallEnded])
  | Connected, MediaSilence => to_idle m [ZeroizeKeys; Show_ PeerLost]
  | (Ringing | Connected) as s, ReceivedOffer o =>
      if negb (from_contact o) || expired o then (m, ignore s)
      else (m, mkTransition s [Send CBusy (o_call_id o) (Some RBusy)])
  (* everything else *)
  | s, _ => (m, ignore s)
  end.

(** ** One machine *)

(** What the fields hold in each state. *)
Definition machine_wf (m : CallMachine) : Prop :=
  match state m with
  | Idle => role m = None /\ active m = None /\ peer m = None
  | Calling => role m = Some Caller /\ is_Some (active m) /\ is_Some (peer m)
  | Ringing => role m = Some Callee /\ is_Some (active m) /\ is_Some (peer m)
  | Connected => is_Some (role m) /\ is_Some (active m) /\ is_Some (peer m)
  end.

(** Case analysis on the state and the event of a [call_step]. *)
Ltac step_cases m e :=
  destruct m as [st ro ac pe]; unfold call_step; simpl;
  destruct st, e; simpl;
  unfold on_offer_idle, on_offer_calling, send_active, to_idle, clear, ignore, matches_active; simpl;
  repeat (case_match; simpl).

(** The machine and the returned transition name the same next state. *)
Lemma step_next_agrees m e : next (call_step m e).2 = state (call_step m e).1.
Proof. step_cases m e; simplify_eq/=; done. Qed.

Lemma step_wf m e : machine_wf m -> machine_wf (call_step m e).1.
Proof. unfold machine_wf. step_cases m e; simplify_eq/=; naive_solver. Qed.

(** Every reachable call machine is well formed: from a fresh machine, after
    any events, an idle machine holds no role, call id or peer, a calling one
    is the caller and a ringing one the callee of an identified call, and the
    reported next state is always the machine's state. *)
Theorem call_machine_wf (es : list Event) (e : Event) :
  let m := run_events (fun m e => (call_step m e).1) new_machine es in
  machine_wf m /\ next (call_step m e).2 = state (call_step m e).1.
Proof.
  cbv zeta. split; [|apply step_next_agrees].
  apply run_events_invariant; [|done]. intros m ev. apply step_wf.
Qed.

(** The call id an incoming control message echoes. *)
Definition echoed (e : Event) : option CallId :=
  match e with
  | ReceivedAnswer id | ReceivedReject id | ReceivedHangUp id | ReceivedBusy id
  | ReceivedCancel id => Some id
  | _ => None
  end.

(** Stray input is inert: a control message that does not echo the active
    call id, and an offer that is expired or not from a contact, leave the
    machine as it is and cause no effect, in every state. *)
Theorem stray_input_ignored (m : CallMachine) (e : Event) :
  match e with
  | ReceivedOffer o => from_contact o = false \/ expired o = true
  | _ => exists id, echoed e = Some id /\ active m <> Some id
  end ->
  call_step m e = (m, ignore (state m)).
Proof.
  intros He. destruct m as [st ro ac pe].
  destruct e as [ | | | |o| | | | | | | | ]; simpl in *;
    try (by destruct He as (? & ? & _)).
  1:{ unfold call_step; destruct st; simpl; unfold on_offer_idle, on_offer_calling;
      destruct He as [-> | ->]; simpl; try (by rewrite ?orb_true_r); by case_match. }
  all: destruct He as (id & [= ->] & Hne).
  all: assert (match ac with Some a => call_id_eqb a id | None => false end = false) as Hm
    by (destruct ac; [|done]; unfold call_id_eqb; apply bool_decide_eq_false; congruence).
  all: unfold call_step; destruct st; simpl; unfold matches_active; simpl; rewrite ?Hm; done.
Qed.

(** Key hygiene: every step that leaves a connected call, and every step
    that gives up an own offer after losing the simultaneous-offer tie-break,
    asks for the media keys to be zeroized; a step that stays connected never
    does. *)
Theorem leaving_call_zeroizes (m : CallMachine) (e : Event) :
  let '(m', t) := call_step m e in
  (state m = Connected -> state m' <> Connected -> ZeroizeKeys ∈ effects t) /\
  (state m = Calling -> state m' = Ringing -> ZeroizeKeys ∈ effects t) /\
  (state m' = Connected -> ZeroizeKeys ∉ effects t).
Proof.
  destruct (call_step m e) as [m' t] eqn:Hs. revert Hs.
  step_cases m e; intros Hs; simplify_eq/=; set_solver.
Qed.

(** Lexicographic comparison: a total order on identifiers. *)
Lemma cmp_bytes_refl a : cmp_bytes a a = Eq.
Proof. induction a as [|x a IH]; simpl; [done|]. by rewrite Z.compare_refl. Qed.

Lemma cmp_bytes_eq a b : cmp_bytes a b = Eq <-> a = b.
Proof.
  split; [|intros ->; apply cmp_bytes_refl].
  revert b. induction a as [|x a IH]; intros [|y b]; simpl; try done.
  destruct (Z.compare_spec x y) as [->| |]; try done. intros ->%IH. done.
Qed.

Lemma cmp_bytes_antisym a b : cmp_bytes b a = CompOpp (cmp_bytes a b).
Proof.
  revert b. induction a as [|x a IH]; intros [|y b]; simpl; try done.
  rewrite (Z.compare_antisym x y). destruct (x ?= y); simpl; [apply IH|done|done].
Qed.

(** ** Two endpoints *)

Definition good_offer (id : CallId) (from : PeerId) : Offer := mkOffer id from true false false.

(** Two endpoints that dialled each other at the same time. *)
Definition dialled (id : CallId) (to : PeerId) : CallMachine := (call_step new_machine (UserDial id to)).1.

(** A simultaneous dial resolves to one call: when two contacts dial each
    other with different identifiers and each receives the other's offer, the
    smaller identifier wins on both sides, whoever is larger becomes the
    ringing callee of the winner's call, the withdrawal sent by the loser is
    ignored by the winner, and the loser's accept connects both ends on the
    same identifier with opposite roles. *)
Theorem collision_resolves (a b : CallId) (pa pb : PeerId) :
  cmp_bytes a b = Lt ->
  let A0 := dialled a pb in
  let B0 := dialled b pa in
  let A1 := (call_step A0 (ReceivedOffer (good_offer b pb))).1 in
  let '(B1, tB) := call_step B0 (ReceivedOffer (good_offer a pa)) in
  let A2 := (call_step A1 (ReceivedCancel b)).1 in
  let '(B2, tAccept) := call_step B1 UserAccept in
  let A3 := (call_step A2 (ReceivedAnswer a)).1 in
  A1 = A0 /\ A2 = A0 /\
  Send CCancel b (Some CollisionLost) ∈ effects tB /\ ReplaceSasInput a ∈ effects tB /\
  state B1 = Ringing /\
  Send CAnswer a None ∈ effects tAccept /\
  A3 = mkMachine Connected (Some Caller) (Some a) (Some pb) /\
  B2 = mkMachine Connected (Some Callee) (Some a) (Some pa).
Proof.
  intros Hlt. cbv zeta. unfold dialled, call_step; simpl.
  unfold on_offer_calling; simpl. rewrite !bool_decide_true by done. simpl.
  rewrite Hlt. assert (cmp_bytes b a = Gt) as -> by (by rewrite cmp_bytes_antisym, Hlt).
  simpl. unfold matches_active, call_id_eqb; simpl. rewrite (bool_decide_true (a = a)) by done.
  split_and!; try done; set_solver.
Qed.

(** The system of two endpoints with a network that keeps every message ever
    sent and may deliver any of them, any number of times, in any order. *)
Record duo := mkDuo {
  left_m : CallMachine;
  right_m : CallMachine;
  left_sent : list Effect;
  right_sent : list Effect;
}.

(** The event a sent message becomes at the other end; the flags of an offer
    (expiry, busy, contact) are the receiver's and are arbitrary. *)
Inductive delivers (from : PeerId) : Effect -> Event -> Prop :=
| d_offer id fc ex oc r : delivers from (Send COffer id r) (ReceivedOffer (mkOffer id from fc ex oc))
| d_answer id r : delivers from (Send CAnswer id r) (ReceivedAnswer id)
| d_reject id r : delivers from (Send CReject id r) (ReceivedReject id)
| d_busy id r : delivers from (Send CBusy id r) (ReceivedBusy id)
| d_cancel id r : delivers from (Send CCancel id r) (ReceivedCancel id)
| d_bye id r : delivers from (Send CBye id r) (ReceivedHangUp id).

(** Events that come from the user or the local timers; the two endpoints dial
    each other. *)
Definition is_local (to : PeerId) (e : Event) : Prop :=
  match e with
  | UserDial _ p => p = to
  | UserAccept | UserReject | UserHangUp | Timeout_ | MediaSilence | DeviceOpenFailed => True
  | _ => False
  end.

(** An event one endpoint can see, given what the other has sent. *)
Definition available (sent : list Effect) (from : PeerId) (e : Event) : Prop :=
  is_local from e \/ exists msg, msg ∈ sent /\ delivers from msg e.

Inductive duo_step (pl pr : PeerId) : duo -> Event -> duo -> Prop :=
| step_left d e : available (right_sent d) pr e ->
    duo_step pl pr d e (mkDuo (call_step (left_m d) e).1 (right_m d)
      (left_sent d ++ effects (call_step (left_m d) e).2) (right_sent d))
| step_right d e : available (left_sent d) pl e ->
    duo_step pl pr d e (mkDuo (left_m d) (call_step (right_m d) e).1
      (left_sent d) (right_sent d ++ effects (call_step (right_m d) e).2)).

Definition offered (sent : list Effect) (id : CallId) : Prop := exists r, Send COffer id r ∈ sent.
Definition answered (sent : list Effect) (id : CallId) : Prop := exists r, Send CAnswer id r ∈ sent.

(** What the other side must have sent for this machine to be where it is. *)
Definition justified (m : CallMachine) (own other : list Effect) : Prop :=
  match active m with
  | None => True
  | Some id =>
      match state m, role m with
      | (Calling | Connected), Some Caller =>
          offered own id /\ (state m = Connected -> answered other id)
      | (Ringing | Connected), Some Callee =>
          offered other id /\ (state m = Connected -> answered own id)
      | _, _ => True
      end
  end.

(** Every answer an endpoint sent is for an offer the other one made. *)
Definition answers_offers (own other : list Effect) : Prop :=
  forall id, answered own id -> offered other id.

Lemma offered_app_l a b id : offered a id -> offered (a ++ b) id.
Proof. intros [r Hr]. exists r. set_solver. Qed.
Lemma answered_app_l a b id : answered a id -> answered (a ++ b) id.
Proof. intros [r Hr]. exists r. set_solver. Qed.
Lemma answered_app a b id : answered (a ++ b) id -> answered a id \/ answered b id.
Proof. intros [r [Hr|Hr]%elem_of_app]; [left|right]; by exists r. Qed.
#[local] Hint Resolve offered_app_l answered_app_l : miasma.

(** Messages the other side sends later keep a machine justified. *)
Lemma justified_mono m own other fx : justified m own other -> justified m own (other ++ fx).
Proof. unfold justified. repeat case_match; naive_solver eauto with miasma. Qed.

Lemma justified_mono_own m own other fx : justified m own other -> justified m (own ++ fx) other.
Proof. unfold justified. repeat case_match; naive_solver eauto with miasma. Qed.

Lemma answers_offers_mono own other fx :
  answers_offers own other -> answers_offers own (other ++ fx).
Proof. unfold answers_offers. eauto with miasma. Qed.

(** The offers and answers of one step: an offer is for the call now dialled,
    an answer for the call that was ringing. *)
Lemma step_answers m e id :
  answered (effects (call_step m e).2) id -> state m = Ringing /\ active m = Some id.
Proof.
  intros [r Hr]. revert Hr. step_cases m e; intros Hr; simplify_eq/=;
    set_unfold in Hr; naive_solver.
Qed.

Lemma available_offer sent from o : available sent from (ReceivedOffer o) -> offered sent (o_call_id o).
Proof. intros [[]|(msg & Hin & Hd)]. inversion Hd; subst. by exists r. Qed.

Lemma available_answer sent from id : available sent from (ReceivedAnswer id) -> answered sent id.
Proof. intros [[]|(msg & Hin & Hd)]. inversion Hd; subst. by exists r. Qed.

(** Every way a step can change a well-formed machine. *)
Lemma step_shape m e :
  machine_wf m ->
  let '(m', t) := call_step m e in
  m' = m \/ active m' = None \/
  (exists id p, e = UserDial id p /\ m' = mkMachine Calling (Some Caller) (Some id) (Some p) /\
     Send COffer id None ∈ effects t) \/
  (exists o p, e = ReceivedOffer o /\ m' = mkMachine Ringing (Some Callee) (Some (o_call_id o)) p) \/
  (exists id, e = ReceivedAnswer id /\ state m = Calling /\
     m' = mkMachine Connected (Some Caller) (Some id) (peer m) /\ active m = Some id) \/
  (exists id, state m = Ringing /\ m' = mkMachine Connected (Some Callee) (Some id) (peer m) /\
     active m = Some id /\ Send CAnswer id None ∈ effects t).
Proof.
  destruct (call_step m e) as [m' t] eqn:Hs. unfold machine_wf. revert Hs.
  step_cases m e; intros Hs Hwf; simplify_eq/=; try (left; done); try (right; left; done).
  - right; right; left. eexists _, _. split_and!; [done..|]. set_solver.
  - right; right; right; left. eexists _, _. done.
  - right; right; right; left. eexists _, _. done.
  - right; right; right; right; left. destruct Hwf as (-> & _).
    match goal with H : call_id_eqb _ _ = true |- _ => apply bool_decide_eq_true in H; subst end.
    by eexists.
  - right; right; right; right; right. destruct Hwf as (-> & _).
    eexists. split_and!; [done..|]. set_solver.
Qed.

Lemma step_justified m own other from e :
  machine_wf m -> justified m own other -> answers_offers own other -> available other from e ->
  let fx := effects (call_step m e).2 in
  justified (call_step m e).1 (own ++ fx) other /\ answers_offers (own ++ fx) other.
Proof.
  intros Hwf Hj Ha Hav. cbv zeta. split.
  - pose proof (step_shape m e Hwf) as Hs. destruct (call_step m e) as [m' t]; simpl.
    destruct Hs as [->|[Hn|[(id & p & -> & -> & Hin)|[(o & p & -> & ->)|
      [(id & -> & Hst & -> & Hac)|(id & Hst & -> & Hac & Hin)]]]]].
    + by apply justified_mono_own.
    + unfold justified. by rewrite Hn.
    + simpl. split; [|done]. exists None. set_solver.
    + simpl. split; [|done]. eapply available_offer; eauto.
    + unfold justified, machine_wf in *. rewrite Hst, Hac in *. destruct Hwf as (Hr & _).
      rewrite Hr in Hj. simpl. split; [apply offered_app_l; tauto|].
      intros _. eapply available_answer; eauto.
    + unfold justified, machine_wf in *. rewrite Hst, Hac in *. destruct Hwf as (Hr & _).
      rewrite Hr in Hj. simpl. split; [tauto|]. intros _. exists None. set_solver.
  - intros id [Hin|Hin]%answered_app; [auto|].
    apply step_answers in Hin as [Hst Hac]. unfold justified, machine_wf in *.
    rewrite Hst, Hac in *. destruct Hwf as (Hr & _). rewrite Hr in Hj. tauto.
Qed.

Definition duo_inv (d : duo) : Prop :=
  machine_wf (left_m d) /\ machine_wf (right_m d) /\
  justified (left_m d) (left_sent d) (right_sent d) /\
  justified (right_m d) (right_sent d) (left_sent d) /\
  answers_offers (left_sent d) (right_sent d) /\ answers_offers (right_sent d) (left_sent d).

Lemma duo_inv_step pl pr d e d' : duo_inv d -> duo_step pl pr d e d' -> duo_inv d'.
Proof.
  intros (W1 & W2 & J1 & J2 & A1 & A2) Hs. destruct Hs as [d e Hav|d e Hav].
  - destruct (step_justified _ _ _ _ _ W1 J1 A1 Hav) as [J A].
    split_and!; simpl; eauto using step_wf, justified_mono, answers_offers_mono.
  - destruct (step_justified _ _ _ _ _ W2 J2 A2 Hav) as [J A].
    split_and!; simpl; eauto using step_wf, justified_mono, answers_offers_mono.
Qed.

Definition duo_init : duo := mkDuo new_machine new_machine [] [].

(** C16. Agreement on a connected call: in every state two endpoints can reach
    over a network that duplicates, reorders and drops messages at will, an
    endpoint connected as caller made an offer with exactly that call id and
    the other end answered that very offer; an endpoint connected as callee
    holds an id the other end offered, and has answered it. *)
Theorem connected_ends_agree (pl pr : PeerId) (d : duo) (id : CallId) :
  reachable (fun d => d = duo_init) (duo_step pl pr) d ->
  state (left_m d) = Connected -> active (left_m d) = Some id ->
  match role (left_m d) with
  | Some Caller => offered (left_sent d) id /\ answered (right_sent d) id
  | Some Callee => offered (right_sent d) id /\ answered (left_sent d) id
  | None => False
  end.
Proof.
  intros Hr Hst Hac.
  assert (duo_inv d) as (W & _ & J & _).
  { clear Hst Hac. revert d Hr. apply reachable_invariant.
    - intros d ->. unfold duo_inv, answers_offers, answered; simpl.
      split_and!; try done; intros ? [? ?]; set_solver.
    - intros d e d'. apply duo_inv_step. }
  unfold justified, machine_wf in *. rewrite Hst, Hac in *.
  destruct W as ([[] Hro] & _); rewrite Hro in *; tauto.
Qed.

(** ** Witnesses *)

Definition id_lo : CallId := repeat 1%Z 16.
Definition id_hi : CallId := repeat 2%Z 16.
Definition peer_l : PeerId := repeat 10%Z 32.
Definition peer_r : PeerId := repeat 20%Z 32.

(** A hang-up that names another call leaves a connected machine alone. *)
Lemma stray_input_ignored_witness :
  let m := mkMachine Connected (Some Caller) (Some id_lo) (Some peer_r) in
  call_step m (ReceivedHangUp id_hi) = (m, ignore Connected).
Proof.
  apply (stray_input_ignored (mkMachine Connected (Some Caller) (Some id_lo) (Some peer_r))
           (ReceivedHangUp id_hi)).
  exists id_hi. split; [reflexivity|]. vm_compute. discriminate.
Defined.

Lemma collision_resolves_witness :
  cmp_bytes id_lo id_hi = Lt /\
  state (call_step (dialled id_hi peer_l) (ReceivedOffer (good_offer id_lo peer_l))).1 = Ringing.
Proof.
  split; [reflexivity|].
  exact (proj1 (proj2 (proj2 (proj2 (proj2
    (collision_resolves id_lo id_hi peer_l peer_r (eq_refl Lt))))))).
Defined.

(** Dial, offer delivered, accept, answer delivered. *)
Definition duo_connected : duo :=
  mkDuo (mkMachine Connected (Some Caller) (Some id_lo) (Some peer_r))
        (mkMachine Connected (Some Callee) (Some id_lo) (Some peer_l))
        [Send COffer id_lo None; Show_ NConnected]
        [Show_ IncomingRinging; Send CAnswer id_lo None; Show_ NConnected].

Lemma duo_connected_reachable :
  reachable (fun d => d = duo_init) (duo_step peer_l peer_r) duo_connected.
Proof.
  set (A1 := mkMachine Calling (Some Caller) (Some id_lo) (Some peer_r)).
  set (B1 := mkMachine Ringing (Some Callee) (Some id_lo) (Some peer_l)).
  set (B2 := mkMachine Connected (Some Callee) (Some id_lo) (Some peer_l)).
  set (off := Send COffer id_lo None). set (ans := Send CAnswer id_lo None).
  apply (reach_step _ _ (mkDuo A1 B2 [off] [Show_ IncomingRinging; ans; Show_ NConnected])
           (ReceivedAnswer id_lo)); cycle 1.
  { apply (step_left peer_l peer_r (mkDuo A1 B2 [off] [Show_ IncomingRinging; ans; Show_ NConnected])
             (ReceivedAnswer id_lo)).
    right. exists ans. split; [set_solver|constructor]. }
  apply (reach_step _ _ (mkDuo A1 B1 [off] [Show_ IncomingRinging]) UserAccept); cycle 1.
  { apply (step_right peer_l peer_r (mkDuo A1 B1 [off] [Show_ IncomingRinging]) UserAccept).
    by left. }
  apply (reach_step _ _ (mkDuo A1 new_machine [off] []) (ReceivedOffer (good_offer id_lo peer_l)));
    cycle 1.
  { apply (step_right peer_l peer_r (mkDuo A1 new_machine [off] [])
             (ReceivedOffer (good_offer id_lo peer_l))).
    right. exists off. split; [set_solver|constructor]. }
  apply (reach_step _ _ duo_init (UserDial id_lo peer_r)); [by apply reach_init|].
  apply (step_left peer_l peer_r duo_init (UserDial id_lo peer_r)). by left.
Qed.

Lemma connected_ends_agree_witness :
  offered (left_sent duo_connected) id_lo /\ answered (right_sent duo_connected) id_lo.
Proof.
  exact (connected_ends_agree peer_l peer_r duo_connected id_lo duo_connected_reachable
           eq_refl eq_refl).
Defined.
